(* ===== verification/_CoqProject ===== *)
-Q . S2P
Prelude.v
Num.v
Endian.v
Pool.v
Ring.v
LinkedList.v
Elastic.v
Buffer.v
Codec.v
Index.v
Segment.v
CommitLog.v
Consumer.v
Compaction.v
Producer.v
Broker.v
MPMC.v
Locks.v
Algorithm.v
Lcs.v
Base62.v
Snowflake.v
BTreeNode.v
BTree.v
BTreeOps.v
Float.v
SkipList.v
SkipListSpec.v
ZSet.v
ShardedMap.v
Cuckoo.v
Bloom.v
Sketch.v
SortSlice.v
FloatRound.v
RateLimit.v
Counters.v
TopK.v
Web.v
Batcher.v
Fetch.v
Http.v
Middleware.v
Ent.v
Merge.v
Queries.v
Remote.v
Trace.v
Kafka.v
Convert.v
Mapper.v
Cdc.v
Clients.v
