(* ===== verification/Prelude.v ===== *)
(** * go-common: a verification development

    The repository is a library of Go packages.  This development models the parts with
    logic of their own: the byte buffers, the log-structured message broker [mq/forge], the
    lock-free queue and the spin locks, the trees, sets, filters and sketches of
    [datastructs], identifiers and encodings, the algorithms used by clients (circuit
    breaker, rate limits, eviction, search, subsequences), and what a service is built
    from: errors and responses, middlewares, cached loading, query building, hooks and
    transactions.  All paths below are under [src/pkg].

    ** How the code is modelled

    - [int], [int64] and durations are [Z] with [i64] written wherever a result can leave
      its range; [uint64], [uint32], ... likewise with [u64], [u32]; division and remainder
      truncate ([godiv], [gomod]).  Where an invariant bounds a value, the wrap-around is
      left out of the definition only if the value cannot reach it.
    - Slices and strings are lists of bytes; index and slice expressions are partial, and
      [None] is the run-time panic.  Where errors and panics must be told apart the result
      is [Codec.outcome] ([Ok], [Err], [Panic], [Hang]).
    - Mutable objects are records passed along; shared objects (pooled slices, files held
      open, pages of a tree, queue slots) live in explicit stores under addresses.
    - A method under a lock is one step; code without locks is a step relation on program
      counters, and its theorems quantify over all interleavings.
    - Loops that are not structural take fuel.  Each has a lemma that a stated amount is
      enough: 65 rounds of binary search over [int], 64 divisions by 62, 33 halvings of a
      page, two levels of a B+ tree while its root is not split, the bytes of a log for the
      chunked recovery of a segment (every round reads at least one as long as each batch
      fits a chunk of 256 KB; a larger batch makes the code loop for ever), the nodes of a
      skip list, 64 squarings of a decay, two passes of the mutation pipeline.
    - Floating-point values are IEEE binary64 in the representation of the Standard
      Library; [Float] holds the operations, [FloatRound] what rounding can do to integers.
    - The clock, random draws, hash functions, failing system calls, compression,
      checksums, Unicode tables and what third-party libraries return are arguments.  What
      is assumed of them is a hypothesis with a witness (compressors invert, random draws
      are in range).

    ** Files, and what they show

    - [Prelude]: machine integers, partial slices, readers and writers, and the tactics and
      list lemmas all files share.
    - [Num]: utils/math.go; powers of two and Morton codes.  [Endian]: big-endian fields.
    - [Pool]: pool/internal/calibrated and pool/byteslice.  [Get] returns the requested
      length as long as only bucket-sized slices come back.
    - [Ring], [LinkedList], [Elastic], [Buffer]: datastructs/buffer.  Each buffer refines a
      byte queue under every sequence of its operations, the linked and elastic ones on a
      byte pool that takes back any slice (the repository's own does not); length-prefixed
      slices round trip.
    - [Codec], [Index], [Segment]: mq/forge record and batch encoding, the sparse index, and
      a segment of the log.  Batches round trip, lookups find the last
      entry before an offset, a crash loses exactly the batch being written, wherever the
      chunks of the recovery scan cut the log.
    - [CommitLog]: commit_log.go; rolling, reading, retention and crash recovery (with no
      compaction or merge under way).
      [Consumer]: consumer.go and offset_store.go; polling neither loses nor repeats
      records and drains the log.  [Compaction]: compaction.go and merge.go with the
      staging directory.  [Producer]: producer.go over the interface [BatchLog], whose
      instance is the commit log; every interleaving of senders and flushers keeps each
      record in exactly one place, and what is flushed is what a consumer polls.
      [Broker]: broker.go, topic.go and retention.go; restarts recover all topics.
    - [MPMC]: datastructs/queue; the ring of turns is a FIFO queue under all interleavings.
      [Locks]: common/locks; mutual exclusion.
    - [BTreeNode], [BTree], [BTreeOps]: datastructs/btree.  A page in use is exactly the
      encoding of a list of entries; a tree is a root over leaves and refines a finite map
      until its root would split (32257 insertions are always fine); iteration visits and
      updates every key; deletion keeps live keys while no subtree key is below the bound.
    - [Algorithm], [Lcs]: algorithm.  The breaker as the history of its outcomes prescribes, bounded delays,
      least entries of samples, first index of a monotone condition, and a longest common
      subsequence.
    - [Base62], [Snowflake]: encoding and unique.  Texts and bytes are in bijection,
      identifiers strictly increase and carry their worker.

    - [Float], [FloatRound]: binary64 arithmetic and its bounds.
    - [SkipList], [SkipListSpec], [ZSet]: datastructs/skiplist and zset.  Nodes with forward,
      backward and span fields refine a sorted list for every outcome of the coin flips;
      the sorted set on top of it refines the same list.
    - [ShardedMap], [Cuckoo], [Bloom], [Sketch], [Counters], [TopK]: the rest of datastructs.
      One map, no false negatives, exact bit positions, saturating counters that never
      undercount, registers that are maxima over the set added, an ordered heap of tracked
      items.  [SortSlice]: the merge sort of a Buffer in place.
    - [RateLimit]: token bucket, sliding window and the middleware over them; bounds under
      rounding, limits per window, clients that do not affect each other.
    - [Batcher]: mq/batcher; no item is lost or repeated while the pool keeps its stripes.
    - [Web]: pagination, retry and fan-out.  [Fetch]: common/cache; the interface
      [LocalCache], concurrent loading with flights, refreshes and evictions, and what a
      caller can be given.
    - [Http]: common/apperr, common/http/response, request and handler; what an error shows and
      when a handler runs.  [Middleware]: common/http/middlewares; who passes
      authentication and permissions (over [LocalCache]), breakers, chains, enrichers.
    - [Ent]: database/ent; columns a client can reach, errors it can see, deletes that are
      updates, transactions that are all or nothing.
    - [Queries]: the documents, bodies and statements that database/mongodb, elasticsearch and
      widecolumn send; what a filter selects and what is dropped.  [Mapper]: rows to structs.
    - [Remote]: FetchRemote over a shared engine whose reads fail, whose writes are lost and
      to which other processes write (the steps and the invariant of [Fetch] at another
      instance of [FetchStore]), and the Redis engine as such an engine.
    - [Merge]: response/merge.go, with slices that share arrays.
    - [Trace]: correlation identifiers through HTTP, gRPC and Kafka, the access log with its
      redaction, panics, CORS.  [Kafka]: mq/kafka; claims under middlewares that recover, the
      consumer loop, the error channel of the producer.
    - [Convert]: utils, hash and timer.  [Cdc]: change events.  [Clients]: retries of
      requests, the Ristretto cache as a [LocalCache], oauth, the query log.

    Modelling showed several faults; each is a lemma next to the component's theorems, and the
    theorems state the conditions under which the fault does not occur.

    ** Not modelled

    Calls that only pass arguments to a service or a library (connections and single
    requests of the database clients, sorted and geographic sets of Redis, delivery by
    Kafka, the exchange of OAuth codes, bcrypt, the worker pool over a third-party one, the
    configuration of the logger), declarations of settings and of table columns, the
    wrappers of JSON and of token libraries, validation messages read from struct tags, the
    links into the Go runtime, the powers and logarithms of floating-point numbers in backoff,
    early refresh and the sizing of Bloom filters, and metrics hooks, which only observe. *)

From stdpp Require Import base list option gmap strings sorting.
From Stdlib Require Import ZArith Lia.

Declare Scope go_scope.
Delimit Scope go_scope with go.
Global Open Scope Z_scope.

(** ** Machine integers

    Go's [int] is 64-bit here.  A w-bit value is a [Z]; an operation that can
    leave its range is followed by one of these truncations. *)

Definition u64 (z : Z) : Z := z mod 2 ^ 64.
Definition u32 (z : Z) : Z := z mod 2 ^ 32.
Definition u16 (z : Z) : Z := z mod 2 ^ 16.
Definition u8 (z : Z) : Z := z mod 2 ^ 8.
Definition i64 (z : Z) : Z := (z + 2 ^ 63) mod 2 ^ 64 - 2 ^ 63.

(** Go's integer division and remainder truncate toward zero. *)
Definition godiv (a b : Z) : Z := Z.quot a b.
Definition gomod (a b : Z) : Z := Z.rem a b.

(** A byte is an 8-bit [Z]. *)
Abbreviation byte := Z (only parsing).
Definition is_byte (b : Z) : Prop := 0 <= b < 256.

(** ** Slices

    A Go slice is a list; [zlen] is [len].  The slice and index expressions are
    partial: [None] is the run-time panic "slice bounds / index out of range".
    The upper bound of a slice expression is checked against [len]. *)

Definition zlen {A} (l : list A) : Z := Z.of_nat (length l).
Definition ztake {A} (n : Z) (l : list A) : list A := take (Z.to_nat n) l.
Definition zdrop {A} (n : Z) (l : list A) : list A := drop (Z.to_nat n) l.

Definition zslice {A} (l : list A) (a b : Z) : option (list A) :=
  if bool_decide (0 <= a /\ a <= b /\ b <= zlen l)
  then Some (ztake (b - a) (zdrop a l)) else None.
Definition zget {A} (l : list A) (i : Z) : option A :=
  if bool_decide (0 <= i) then l !! Z.to_nat i else None.
Definition zset {A} (l : list A) (i : Z) (x : A) : option (list A) :=
  if bool_decide (0 <= i < zlen l) then Some (<[Z.to_nat i := x]> l) else None.

(** [gcopy dst src] is the destination after Go's [copy(dst, src)]. *)
Definition gcopy {A} (dst src : list A) : list A :=
  take (length dst) src ++ drop (length src) dst.
(** [copy_at dst off src] is [dst] after [copy(dst[off:], src)]. *)
Definition copy_at {A} (dst : list A) (off : Z) (src : list A) : option (list A) :=
  if bool_decide (0 <= off <= zlen dst)
  then Some (ztake off dst ++ gcopy (zdrop off dst) src) else None.
(** [make([]byte, n)] *)
Definition zeros (n : Z) : list byte := replicate (Z.to_nat n) 0.

#[global] Arguments zlen {A} l : simpl never.
#[global] Arguments ztake {A} n l : simpl never.
#[global] Arguments zdrop {A} n l : simpl never.
#[global] Arguments zslice {A} l a b : simpl never.
#[global] Arguments zget {A} l i : simpl never.
#[global] Arguments zset {A} l i x : simpl never.
#[global] Arguments gcopy {A} dst src : simpl never.
#[global] Arguments copy_at {A} dst off src : simpl never.
#[global] Arguments zeros n : simpl never.

(** ** Readers and writers

    The errors of the buffer package and of [io], and the [io.Reader] and
    [io.Writer] interfaces as state-passing functions.  A [Read] on a buffer of
    [n] bytes yields the bytes it stored, so its count is never negative. *)

Inductive error : Type :=
  | EOF | ErrShortBuffer | ErrShortWrite | ErrRingEmpty | ErrNegativeSize
  | OtherError (code : Z).

#[export] Instance error_eq_dec : EqDecision error.
Proof. solve_decision. Defined.

Class Reader (R : Type) := {
  rd : R -> Z -> list byte * option error * R;
  rd_fits : forall r n, 0 <= n -> zlen (fst (fst (rd r n))) <= n;
}.
Class Writer (W : Type) := {
  wr : W -> list byte -> Z * option error * W;
  wr_fits : forall w p, 0 <= fst (fst (wr w p)) <= zlen p;
}.

(** What a caller sees of one operation on a byte buffer: a count, the bytes
    delivered, bytes together with an error, an error, or nothing.  The specifications of the buffers are stated
    on these. *)
Inductive obs : Type :=
  | Count (n : Z) | Data (bs : list byte) | DataErr (bs : list byte) (e : error)
  | Fail (e : error) | Silent.

Definition observeRead (err : option error) (bs : list byte) : obs :=
  match err with Some e => Fail e | None => Data bs end.

(** ** Automation *)

(** [bd] decides the [bool_decide] tests of a goal or hypothesis by cases. *)
Ltac bd :=
  repeat match goal with
  | |- context [bool_decide ?P] => destruct (bool_decide_reflect P)
  | H : context [bool_decide ?P] |- _ => destruct (bool_decide_reflect P)
  end.

(** [zb] turns boolean comparisons on [Z] into cases with propositions. *)
Ltac zb :=
  repeat match goal with
  | |- context [(?a =? ?b)%Z] => destruct (Z.eqb_spec a b)
  | |- context [(?a <? ?b)%Z] => destruct (Z.ltb_spec a b)
  | |- context [(?a <=? ?b)%Z] => destruct (Z.leb_spec a b)
  | H : context [(?a =? ?b)%Z] |- _ => destruct (Z.eqb_spec a b)
  | H : context [(?a <? ?b)%Z] |- _ => destruct (Z.ltb_spec a b)
  | H : context [(?a <=? ?b)%Z] |- _ => destruct (Z.leb_spec a b)
  end.

(** [dlia] is [lia] with the division and remainder by constants expanded. *)
Ltac dlia := Z.to_euclidean_division_equations; lia.

(** [lens] pushes [length] through the list operations. *)
Ltac lens :=
  unfold zlen, ztake, zdrop, gcopy in *;
  repeat (rewrite length_app in * || rewrite length_take in *
          || rewrite length_drop in * || rewrite length_insert in *
          || rewrite length_replicate in *);
  cbn [length] in *.

(** [lsolve] proves equalities of lists built from take, drop, append, insert and
    replicate, by comparing them index by index. *)
Lemma lookup_app_dec {A} (l k : list A) (i : nat) :
  (l ++ k) !! i = if decide (i < length l)%nat then l !! i else k !! (i - length l)%nat.
Proof.
  destruct (decide _); [by apply lookup_app_l|]. apply lookup_app_r. lia.
Qed.

Lemma lookup_replicate_dec {A} (n : nat) (x : A) (i : nat) :
  replicate n x !! i = if decide (i < n)%nat then Some x else None.
Proof.
  destruct (decide _); [by apply lookup_replicate_2|].
  apply lookup_ge_None_2. rewrite length_replicate. lia.
Qed.

Ltac lsolve_push :=
  repeat first [ rewrite lookup_app_dec | rewrite lookup_take | rewrite lookup_drop
               | rewrite list_lookup_insert | rewrite lookup_replicate_dec ];
  repeat first [ rewrite length_app | rewrite length_take | rewrite length_drop
               | rewrite length_insert | rewrite length_replicate ].
Ltac lsolve_leaf :=
  match goal with
  | |- ?x = ?x => reflexivity
  | |- Some _ = Some _ => f_equal; lia
  | |- (?l !! ?i) = (?l !! ?j) => first [ f_equal; lia
        | rewrite !lookup_ge_None_2; [reflexivity|lia..] ]
  | |- (?l !! ?i) = None => apply lookup_ge_None_2; lia
  | |- None = (?l !! ?i) => symmetry; apply lookup_ge_None_2; lia
  | _ => idtac
  end.
Ltac lsolve :=
  apply list_eq; let i := fresh "i" in intros i;
  unfold zlen, ztake, zdrop, gcopy, zeros in *; lsolve_push;
  repeat (match goal with |- context [decide ?P] => destruct (decide P) end;
          try (exfalso; lia));
  lsolve_leaf; try congruence.

Create HintDb go.
Create Rewrite HintDb go_rw.

(** ** Generic lemmas *)

Lemma zlen_nonneg {A} (l : list A) : 0 <= zlen l.
Proof. unfold zlen; lia. Qed.

Lemma zlen_app {A} (l k : list A) : zlen (l ++ k) = zlen l + zlen k.
Proof. lens; lia. Qed.

Lemma zlen_zero {A} (l : list A) : zlen l = 0 <-> l = [].
Proof. unfold zlen; destruct l; simpl; split; intros; try done; lia. Qed.

Lemma zlen_ztake {A} n (l : list A) : 0 <= n <= zlen l -> zlen (ztake n l) = n.
Proof. lens; lia. Qed.

Lemma zlen_zdrop {A} n (l : list A) : 0 <= n <= zlen l -> zlen (zdrop n l) = zlen l - n.
Proof. lens; lia. Qed.

Lemma ztake_zdrop {A} n (l : list A) : ztake n l ++ zdrop n l = l.
Proof. apply take_drop. Qed.

Lemma ztake_ge {A} n (l : list A) : zlen l <= n -> ztake n l = l.
Proof. intros. apply take_ge. lens; lia. Qed.

Lemma zdrop_ge {A} n (l : list A) : zlen l <= n -> zdrop n l = [].
Proof. intros. apply drop_ge. lens; lia. Qed.

Lemma ztake_le0 {A} n (l : list A) : n <= 0 -> ztake n l = [].
Proof. intros. unfold ztake. by replace (Z.to_nat n) with 0%nat by lia. Qed.

Lemma zdrop_le0 {A} n (l : list A) : n <= 0 -> zdrop n l = l.
Proof. intros. unfold zdrop. by replace (Z.to_nat n) with 0%nat by lia. Qed.

Lemma zdrop_zdrop {A} a b (l : list A) : 0 <= a -> 0 <= b -> zdrop a (zdrop b l) = zdrop (a + b) l.
Proof. intros. unfold zdrop. rewrite drop_drop. f_equal. lia. Qed.

Lemma ztake_ztake {A} a b (l : list A) : ztake a (ztake b l) = ztake (Z.min a b) l.
Proof. unfold ztake. rewrite take_take. f_equal. lia. Qed.

Lemma ztake_app_le {A} n (l k : list A) : n <= zlen l -> ztake n (l ++ k) = ztake n l.
Proof. intros. unfold ztake. apply take_app_le. unfold zlen in *. lia. Qed.

Lemma ztake_app_ge {A} n (l k : list A) :
  zlen l <= n -> ztake n (l ++ k) = l ++ ztake (n - zlen l) k.
Proof. intros. unfold ztake, zlen in *. rewrite take_app_ge by lia. f_equal. f_equal. lia. Qed.

Lemma zdrop_app_le {A} n (l k : list A) : n <= zlen l -> zdrop n (l ++ k) = zdrop n l ++ k.
Proof. intros. unfold zdrop. apply drop_app_le. unfold zlen in *. lia. Qed.

Lemma zdrop_app_ge {A} n (l k : list A) :
  zlen l <= n -> zdrop n (l ++ k) = zdrop (n - zlen l) k.
Proof. intros. unfold zdrop, zlen in *. rewrite drop_app_ge by lia. f_equal. lia. Qed.

Lemma zdrop_ztake {A} a b (l : list A) :
  0 <= a -> a <= b -> zdrop a (ztake b l) = ztake (b - a) (zdrop a l).
Proof.
  intros. unfold ztake, zdrop. rewrite skipn_firstn_comm. f_equal. lia.
Qed.

Lemma gcopy_ztake {A} n (p c : list A) :
  zlen p <= n \/ zlen c <= n -> gcopy p (ztake n c) = gcopy p c.
Proof.
  intros Hn. unfold gcopy, ztake. rewrite take_take, length_take.
  destruct (decide (length c <= Z.to_nat n)%nat).
  - rewrite (Nat.min_r (Z.to_nat n)) by lia. f_equal.
    destruct (decide (length p <= Z.to_nat n)%nat); [by rewrite Nat.min_l by lia|].
    rewrite Nat.min_r, !take_ge by lia. done.
  - unfold zlen in *. rewrite !Nat.min_l by lia. by rewrite !drop_ge by lia.
Qed.

(** Two successive copies fill the destination with the concatenation. *)
Lemma gcopy_app {A} (p h t : list A) :
  zlen h <= zlen p ->
  ztake (zlen h) (gcopy p h) ++ gcopy (zdrop (zlen h) (gcopy p h)) t = gcopy p (h ++ t).
Proof.
  unfold zlen, gcopy, ztake, zdrop. intros. rewrite Nat2Z.id, (take_ge h) by lia.
  rewrite take_app_length, drop_app_length, length_app, length_drop.
  rewrite take_app_ge, drop_drop by lia. by rewrite <- app_assoc.
Qed.

Lemma gcopy_nil {A} (p : list A) : gcopy p [] = p.
Proof. unfold gcopy. by rewrite take_nil. Qed.

(** What does not fit the destination is not copied. *)
Lemma gcopy_front {A} (p a b : list A) : zlen p <= zlen a -> gcopy p (a ++ b) = gcopy p a.
Proof.
  intros. rewrite <- (gcopy_ztake (zlen p) p (a ++ b)), <- (gcopy_ztake (zlen p) p a) by lia.
  by rewrite ztake_app_le by lia.
Qed.

Lemma gcopy_ge {A} (p c : list A) : zlen c <= zlen p -> gcopy p c = c ++ zdrop (zlen c) p.
Proof.
  unfold zlen, gcopy, zdrop. intros. rewrite Nat2Z.id, take_ge by lia. done.
Qed.

(** The first [min (len p) (len c)] bytes of [p] after [copy(p, c)]. *)
Lemma read_prefix {A} (p c : list A) :
  ztake (Z.min (zlen p) (zlen c)) (gcopy p c) = ztake (zlen p) c.
Proof.
  unfold ztake, gcopy, zlen. rewrite take_app.
  rewrite take_take, length_take.
  replace (Z.to_nat (Z.min (Z.of_nat (length p)) (Z.of_nat (length c))) - Nat.min (length p) (length c))%nat
    with 0%nat by lia.
  rewrite app_nil_r, Nat2Z.id. destruct (decide (length p <= length c)%nat).
  - f_equal. lia.
  - rewrite !take_ge; [done|lia..].
Qed.

(** Copying [s] at [t] and then [k] behind it is copying [s ++ k] at [t]. *)
Lemma copy_twice {A} (p s k : list A) t :
  0 <= t -> t + zlen s <= zlen p ->
  let p1 := ztake t p ++ gcopy (zdrop t p) s in
  ztake (t + zlen s) p1 ++ gcopy (zdrop (t + zlen s) p1) k =
  ztake t p ++ gcopy (zdrop t p) (s ++ k).
Proof.
  intros. unfold p1. pose proof (zlen_nonneg s).
  assert (Hq : zlen (ztake t p) = t) by (rewrite zlen_ztake; lia).
  rewrite ztake_app_ge, zdrop_app_ge, Hq by lia.
  replace (t + zlen s - t) with (zlen s) by lia.
  rewrite <- app_assoc. by rewrite gcopy_app by (rewrite zlen_zdrop; lia).
Qed.

Lemma zslice_Some {A} (l : list A) a b :
  0 <= a -> a <= b -> b <= zlen l -> zslice l a b = Some (ztake (b - a) (zdrop a l)).
Proof. intros. unfold zslice. by rewrite bool_decide_true. Qed.

Lemma zslice_None {A} (l : list A) a b :
  a < 0 \/ b < a \/ zlen l < b -> zslice l a b = None.
Proof. intros. unfold zslice. rewrite bool_decide_false by lia. done. Qed.

Lemma zget_Some {A} (l : list A) i : 0 <= i < zlen l -> exists x, zget l i = Some x.
Proof.
  intros. unfold zget. rewrite bool_decide_true by lia.
  destruct (lookup_lt_is_Some_2 l (Z.to_nat i)) as [x Hx]; [unfold zlen in *; lia | eauto].
Qed.

Lemma zget_None {A} (l : list A) i : zlen l <= i -> zget l i = None.
Proof.
  intros. unfold zget. pose proof (zlen_nonneg l).
  rewrite bool_decide_true by lia. apply lookup_ge_None_2. unfold zlen in *; lia.
Qed.

Lemma zset_Some {A} (l : list A) i x :
  0 <= i < zlen l -> zset l i x = Some (<[Z.to_nat i := x]> l).
Proof. intros. unfold zset. by rewrite bool_decide_true. Qed.

Lemma copy_at_Some {A} (dst : list A) off src :
  0 <= off <= zlen dst ->
  copy_at dst off src = Some (ztake off dst ++ gcopy (zdrop off dst) src).
Proof. intros. unfold copy_at. by rewrite bool_decide_true. Qed.

Lemma copy_at_eq {A} (dst : list A) off src :
  0 <= off -> off + zlen src <= zlen dst ->
  copy_at dst off src = Some (ztake off dst ++ src ++ zdrop (off + zlen src) dst).
Proof.
  intros. pose proof (zlen_nonneg src). rewrite copy_at_Some by lia.
  rewrite gcopy_ge, zdrop_zdrop by (rewrite ?zlen_zdrop; lia). do 4 f_equal. lia.
Qed.

Lemma zlen_splice {A} (dst : list A) off src :
  0 <= off -> off + zlen src <= zlen dst ->
  zlen (ztake off dst ++ src ++ zdrop (off + zlen src) dst) = zlen dst.
Proof.
  intros. pose proof (zlen_nonneg src). rewrite !zlen_app, zlen_ztake, zlen_zdrop; lia.
Qed.

Lemma gcopy_length {A} (dst src : list A) : length (gcopy dst src) = length dst.
Proof. lens; lia. Qed.

Lemma zlen_gcopy {A} (dst src : list A) : zlen (gcopy dst src) = zlen dst.
Proof. unfold zlen. by rewrite gcopy_length. Qed.

Lemma copy_at_zlen {A} (dst : list A) off src r :
  copy_at dst off src = Some r -> zlen r = zlen dst.
Proof. unfold copy_at; bd; intros; simplify_eq. lens; lia. Qed.

Lemma zeros_zlen n : 0 <= n -> zlen (zeros n) = n.
Proof. intros. unfold zeros. lens. lia. Qed.

Lemma u64_small z : 0 <= z < 2 ^ 64 -> u64 z = z.
Proof. apply Z.mod_small. Qed.

Lemma u64_range z : 0 <= u64 z < 2 ^ 64.
Proof. apply Z.mod_pos_bound. lia. Qed.

Lemma i64_small z : - 2 ^ 63 <= z < 2 ^ 63 -> i64 z = z.
Proof. intros. unfold i64. rewrite Z.mod_small; lia. Qed.

Lemma i64_range z : - 2 ^ 63 <= i64 z < 2 ^ 63.
Proof. unfold i64. pose proof (Z.mod_pos_bound (z + 2 ^ 63) (2 ^ 64)). lia. Qed.

Lemma i64_u64 z : - 2 ^ 63 <= z < 2 ^ 63 -> i64 (u64 z) = z.
Proof.
  intros. unfold i64, u64. rewrite Zplus_mod_idemp_l, Z.mod_small; lia.
Qed.

(** ** Packing bit fields *)

Lemma lor_shiftl_add x b s :
  0 <= s -> 0 <= x < 2 ^ s -> 0 <= b -> Z.lor x (Z.shiftl b s) = x + b * 2 ^ s.
Proof.
  intros Hs Hx Hb. rewrite <- Z.shiftl_mul_pow2 by done. rewrite <- Z.add_lor_land.
  replace (Z.land x (Z.shiftl b s)) with 0; [lia|]. symmetry. apply Z.bits_inj'. intros i Hi.
  rewrite Z.land_spec, Z.bits_0. destruct (Z.ltb_spec i s).
  - by rewrite Z.shiftl_spec_low, andb_false_r.
  - destruct (Z.eq_dec x 0) as [->|]; [by rewrite Z.bits_0|].
    rewrite (Z.bits_above_log2 x i); [done|lia|].
    apply Z.lt_le_trans with s; [|lia]. apply Z.log2_lt_pow2; lia.
Qed.

Lemma zset_get {A} (l : list A) i x l' k :
  zset l i x = Some l' -> zlen l' = zlen l /\ zget l' k = if k =? i then Some x else zget l k.
Proof.
  unfold zset. case_bool_decide as Hi; [|done]. intros [= <-]. split; [by lens|]. unfold zget. zb; subst.
  - rewrite bool_decide_true by lia. apply list_lookup_insert_eq. unfold zlen in Hi. lia.
  - case_bool_decide; [|done]. apply list_lookup_insert_ne. lia.
Qed.

#[export] Hint Resolve zlen_nonneg : go.
#[export] Hint Rewrite @zlen_app : go_rw.
