(* ===== verification/Num.v ===== *)
(** * Num: power-of-two and Morton helpers (src/pkg/utils/math.go)

    The ring buffer, the MPMC queue, the count-min sketch and the sharded map
    all size themselves with [CeilToPowerOfTwo] and then index with a mask. *)
From stdpp Require Import base list option.
From Stdlib Require Import ZArith Lia.
From S2P Require Import Prelude.

(** ** Definitions *)

Definition maxIntHeadBit : Z := 2 ^ 62.

(** [math/bits.Len]: the number of bits of an unsigned integer. *)
Definition bitsLen (x : Z) : Z := if x =? 0 then 0 else Z.log2 x + 1.

Definition IsPowerOfTwo (n : Z) : bool := (0 <? n) && (Z.land n (n - 1) =? 0).

(** [None] is the panic "argument is too large". *)
Definition CeilToPowerOfTwo (n : Z) : option Z :=
  if negb (Z.land n maxIntHeadBit =? 0) && (maxIntHeadBit <? n) then None
  else if n <=? 2 then Some 2
  else Some (Z.shiftl 1 (bitsLen (n - 1))).

(** One line [n |= n >> k] of [FloorToPowerOfTwo]. *)
Definition smear (k n : Z) : Z := Z.lor n (Z.shiftr n k).

Definition FloorToPowerOfTwo (n : Z) : Z :=
  if n <=? 2 then n else
  let n := smear 1 n in
  let n := smear 2 n in
  let n := smear 4 n in
  let n := smear 8 n in
  let n := smear 16 n in
  n - Z.shiftr n 1.

Definition ClosestPowerOfTwo (n : Z) : option Z :=
  next ← CeilToPowerOfTwo n;
  let prev := godiv next 2 in
  Some (if n - prev <? next - n then prev else next).

(** One line [X = (X | (X << k)) & mask] of [Spread32]. *)
Definition spreadStep (k mask X : Z) : Z := Z.land (Z.lor X (u64 (Z.shiftl X k))) mask.

Definition Spread32 (x : Z) : Z :=
  let X := u32 x in
  let X := spreadStep 16 0x0000ffff0000ffff X in
  let X := spreadStep 8 0x00ff00ff00ff00ff X in
  let X := spreadStep 4 0x0f0f0f0f0f0f0f0f X in
  let X := spreadStep 2 0x3333333333333333 X in
  spreadStep 1 0x5555555555555555 X.

(** One line [X = (X | (X >> k)) & mask] of [Squash64]. *)
Definition squashStep (k mask X : Z) : Z := Z.land (Z.lor X (Z.shiftr X k)) mask.

Definition Squash64 (X : Z) : Z :=
  let X := Z.land X 0x5555555555555555 in
  let X := squashStep 1 0x3333333333333333 X in
  let X := squashStep 2 0x0f0f0f0f0f0f0f0f X in
  let X := squashStep 4 0x00ff00ff00ff00ff X in
  let X := squashStep 8 0x0000ffff0000ffff X in
  let X := squashStep 16 0x00000000ffffffff X in
  u32 X.

(** The reading of "power of two" the theorems use. *)
Definition is_pow2 (n : Z) : Prop := exists k, 0 <= k /\ n = 2 ^ k.

(** ** Lemmas *)

Lemma is_pow2_pos n : is_pow2 n -> 0 < n.
Proof. intros (k & ? & ->). lia. Qed.

(** Masking with [c - 1] is reduction modulo a power of two [c]. *)
Lemma land_pow2_mod c x : is_pow2 c -> Z.land x (c - 1) = x mod c.
Proof.
  intros (k & Hk & ->).
  replace (2 ^ k - 1) with (Z.ones k) by (rewrite Z.ones_equiv; lia).
  by rewrite Z.land_ones.
Qed.

Lemma bitsLen_pos x : 0 < x -> bitsLen x = Z.log2 x + 1.
Proof. intros. unfold bitsLen. zb; lia. Qed.

(** The head-bit test is exactly [n > 2^62] on 64-bit integers. *)
Lemma headBit_test n :
  n < 2 ^ 63 ->
  negb (Z.land n maxIntHeadBit =? 0) && (maxIntHeadBit <? n) = (maxIntHeadBit <? n).
Proof.
  intros Hn. destruct (Z.ltb_spec maxIntHeadBit n) as [Hlt|]; [|by rewrite andb_false_r].
  rewrite andb_true_r. apply negb_true_iff, Z.eqb_neq. intros Hz.
  apply (f_equal (fun z => Z.testbit z 62)) in Hz.
  rewrite Z.land_spec, Z.bits_0 in Hz. unfold maxIntHeadBit in *.
  rewrite Z.pow2_bits_true, andb_true_r in Hz by lia.
  apply Z.testbit_false in Hz; [|lia].
  pose proof (Z.div_lt_upper_bound n (2 ^ 62) 2). pose proof (Z.div_le_lower_bound n (2 ^ 62) 1).
  assert (n / 2 ^ 62 = 1) by lia. rewrite H1 in Hz. done.
Qed.

Lemma CeilToPowerOfTwo_unfold n :
  2 < n <= 2 ^ 62 -> CeilToPowerOfTwo n = Some (2 ^ (Z.log2 (n - 1) + 1)).
Proof.
  intros. unfold CeilToPowerOfTwo. rewrite headBit_test by lia. unfold maxIntHeadBit.
  zb; try lia. rewrite bitsLen_pos by lia.
  rewrite Z.shiftl_1_l. done.
Qed.

Lemma CeilToPowerOfTwo_small n : n <= 2 -> CeilToPowerOfTwo n = Some 2.
Proof.
  intros. unfold CeilToPowerOfTwo. rewrite headBit_test by lia. unfold maxIntHeadBit.
  zb; try lia. done.
Qed.

Lemma CeilToPowerOfTwo_range n :
  n <= 2 ^ 62 ->
  exists k, CeilToPowerOfTwo n = Some (2 ^ k) /\ 1 <= k <= 62 /\ n <= 2 ^ k /\
            (n <= 2 -> k = 1) /\ (2 < n -> 2 ^ (k - 1) < n).
Proof.
  intros. destruct (Z.leb_spec n 2).
  - exists 1. rewrite CeilToPowerOfTwo_small by lia. repeat split; lia.
  - exists (Z.log2 (n - 1) + 1). rewrite CeilToPowerOfTwo_unfold by lia.
    pose proof (Z.log2_spec (n - 1) ltac:(lia)) as [Hl Hu].
    pose proof (Z.log2_nonneg (n - 1)).
    assert (Z.log2 (n - 1) < 62) by (apply Z.log2_lt_pow2; lia).
    rewrite <- Z.add_1_r in Hu. replace (Z.log2 (n - 1) + 1 - 1) with (Z.log2 (n - 1)) by lia.
    repeat split; lia.
Qed.

(** Bit [i] of a smeared word looks at a window of bits of the original. *)
Definition window (n : Z) (w : nat) (i : Z) : bool :=
  existsb (fun j => Z.testbit n (i + Z.of_nat j)) (seq 0 w).

Lemma window_double n w i :
  window n w i || window n w (i + Z.of_nat w) = window n (w + w) i.
Proof.
  unfold window. rewrite seq_app, existsb_app. f_equal. simpl.
  replace (seq w w) with (Nat.add w <$> seq 0 w) by (rewrite fmap_add_seq; f_equal; lia).
  generalize (seq 0 w). intros l. induction l as [|a l IH]; simpl; [done|].
  rewrite IH. f_equal. f_equal. lia.
Qed.

Lemma smear_window n m (w : nat) :
  (forall i, 0 <= i -> Z.testbit m i = window n w i) ->
  forall i, 0 <= i -> Z.testbit (smear (Z.of_nat w) m) i = window n (w + w) i.
Proof.
  intros Hm i Hi. unfold smear. rewrite Z.lor_spec, Z.shiftr_spec, !Hm by lia.
  apply window_double.
Qed.

Lemma smear_all n :
  forall i, 0 <= i ->
  Z.testbit (smear 16 (smear 8 (smear 4 (smear 2 (smear 1 n))))) i = window n 32 i.
Proof.
  assert (H0 : forall i, 0 <= i -> Z.testbit n i = window n 1 i).
  { intros. unfold window. simpl. rewrite orb_false_r. f_equal. lia. }
  apply (smear_window n _ 16), (smear_window n _ 8), (smear_window n _ 4),
    (smear_window n _ 2), (smear_window n _ 1), H0.
Qed.

Lemma window_ones n i :
  0 < n < 2 ^ 32 -> 0 <= i -> window n 32 i = (i <=? Z.log2 n).
Proof.
  intros Hn Hi. assert (Z.log2 n < 32) by (apply Z.log2_lt_pow2; lia).
  pose proof (Z.log2_nonneg n).
  destruct (Z.leb_spec i (Z.log2 n)).
  - unfold window. apply existsb_exists. exists (Z.to_nat (Z.log2 n - i)). split.
    + apply in_seq. lia.
    + rewrite Z2Nat.id by lia. replace (i + (Z.log2 n - i)) with (Z.log2 n) by lia.
      apply Z.bit_log2. lia.
  - unfold window. apply not_true_iff_false. rewrite existsb_exists.
    intros (j & _ & Hj). rewrite Z.bits_above_log2 in Hj by lia. done.
Qed.

(** Case analysis over the finitely many bit positions below [n]. *)
Lemma bits_below n (P : Z -> Prop) :
  (forall j, In j (seq 0 n) -> P (Z.of_nat j)) -> forall i, 0 <= i < Z.of_nat n -> P i.
Proof.
  intros H i Hi. rewrite <- (Z2Nat.id i) by lia. apply H, in_seq. lia.
Qed.

Lemma u64_testbit z i : Z.testbit (u64 z) i = (i <? 64) && Z.testbit z i.
Proof.
  unfold u64. destruct (Z.ltb_spec i 64) as [|]; simpl.
  - destruct (Z.leb_spec 0 i); [apply Z.mod_pow2_bits_low; lia|].
    by rewrite !Z.testbit_neg_r by lia.
  - apply Z.mod_pow2_bits_high; lia.
Qed.

Lemma u32_testbit z i : Z.testbit (u32 z) i = (i <? 32) && Z.testbit z i.
Proof.
  unfold u32. destruct (Z.ltb_spec i 32) as [|]; simpl.
  - destruct (Z.leb_spec 0 i); [apply Z.mod_pow2_bits_low; lia|].
    by rewrite !Z.testbit_neg_r by lia.
  - apply Z.mod_pow2_bits_high; lia.
Qed.

Lemma u32_bits z i :
  Z.testbit (u32 z) i = (0 <=? i) && ((i <? 32) && Z.testbit z i).
Proof.
  rewrite u32_testbit. destruct (Z.leb_spec 0 i); [done|].
  by rewrite Z.testbit_neg_r, andb_false_r by lia.
Qed.

(** The two kinds of step, on the bits of a word seen as a function. *)
Definition spreadBits (k mask : Z) (f : Z -> bool) (i : Z) : bool :=
  Z.testbit mask i && (f i || ((i <? 64) && f (i - k))).
Definition squashBits (k mask : Z) (f : Z -> bool) (i : Z) : bool :=
  Z.testbit mask i && (f i || f (i + k)).

Lemma spreadStep_bits k mask X f i :
  0 <= i -> 0 <= k -> (forall j, Z.testbit X j = f j) ->
  Z.testbit (spreadStep k mask X) i = spreadBits k mask f i.
Proof.
  intros Hi Hk Hf. unfold spreadStep, spreadBits.
  rewrite Z.land_spec, Z.lor_spec, u64_testbit, Z.shiftl_spec, !Hf by done.
  apply andb_comm.
Qed.

Lemma spreadStep_bits_all k mask X f :
  0 <= k -> (forall j, Z.testbit X j = f j) ->
  forall i, Z.testbit (spreadStep k mask X) i = spreadBits k mask f i.
Proof.
  intros. destruct (Z.leb_spec 0 i); [by apply spreadStep_bits|].
  unfold spreadBits. by rewrite !Z.testbit_neg_r by lia.
Qed.

Lemma squashStep_bits_all k mask X f :
  (forall j, Z.testbit X j = f j) ->
  forall i, Z.testbit (squashStep k mask X) i = squashBits k mask f i.
Proof.
  intros Hf i. unfold squashStep, squashBits.
  destruct (Z.leb_spec 0 i); [|by rewrite !Z.testbit_neg_r by lia].
  rewrite Z.land_spec, Z.lor_spec, Z.shiftr_spec, !Hf by done. apply andb_comm.
Qed.

Lemma Spread32_bits x f :
  (forall j, Z.testbit (u32 x) j = f j) ->
  forall i, Z.testbit (Spread32 x) i =
  spreadBits 1 0x5555555555555555 (spreadBits 2 0x3333333333333333
   (spreadBits 4 0x0f0f0f0f0f0f0f0f (spreadBits 8 0x00ff00ff00ff00ff
     (spreadBits 16 0x0000ffff0000ffff f)))) i.
Proof. intros Hf. unfold Spread32. repeat (apply spreadStep_bits_all; [lia|]). done. Qed.

Lemma Squash64_bits X f :
  (forall j, Z.testbit X j = f j) ->
  forall i, Z.testbit (Squash64 X) i =
  (i <? 32) && squashBits 16 0x00000000ffffffff (squashBits 8 0x0000ffff0000ffff
   (squashBits 4 0x00ff00ff00ff00ff (squashBits 2 0x0f0f0f0f0f0f0f0f
     (squashBits 1 0x3333333333333333
       (fun j => Z.testbit 0x5555555555555555 j && f j))))) i.
Proof.
  intros Hf i. unfold Squash64. rewrite u32_testbit. f_equal. revert i.
  repeat apply squashStep_bits_all. intros. by rewrite Z.land_spec, Hf, andb_comm.
Qed.

(** ** Properties *)

(** [CeilToPowerOfTwo] panics exactly above 2^62, and otherwise returns the
    least power of two, at least 2, that is not below its argument. *)
Theorem CeilToPowerOfTwo_correct (n : Z) :
  - 2 ^ 63 <= n < 2 ^ 63 ->
  if 2 ^ 62 <? n then CeilToPowerOfTwo n = None
  else exists c, CeilToPowerOfTwo n = Some c /\ is_pow2 c /\ n <= c /\ 2 <= c /\
       (forall d, is_pow2 d -> 2 <= d -> n <= d -> c <= d).
Proof.
  intros Hn. destruct (Z.ltb_spec (2 ^ 62) n) as [Hgt|Hle].
  - unfold CeilToPowerOfTwo. rewrite headBit_test by lia. unfold maxIntHeadBit.
    zb; try lia; done.
  - destruct (CeilToPowerOfTwo_range n Hle) as (k & -> & Hk & Hnk & Hsmall & Hlow).
    exists (2 ^ k). split; [done|]. split; [exists k; lia|]. split; [done|].
    split; [change 2 with (2 ^ 1) at 1; apply Z.pow_le_mono_r; lia|].
    intros d (j & Hj & ->) H2 Hd. apply Z.pow_le_mono_r; [lia|].
    destruct (Z.leb_spec n 2).
    + rewrite Hsmall by lia. destruct (Z.eq_dec j 0) as [->|]; [done|lia].
    + specialize (Hlow ltac:(lia)).
      assert (k - 1 < j) by (apply (Z.pow_lt_mono_r_iff 2); lia). lia.
Qed.

Lemma CeilToPowerOfTwo_correct_witness :
  CeilToPowerOfTwo 5 = Some 8 /\
  exists c, CeilToPowerOfTwo 5 = Some c /\ is_pow2 c /\ 5 <= c /\ 2 <= c /\
    (forall d, is_pow2 d -> 2 <= d -> 5 <= d -> c <= d).
Proof. split; [reflexivity|]. apply (CeilToPowerOfTwo_correct 5). lia. Defined.

(** For 3 <= n < 2^32, [FloorToPowerOfTwo] is the greatest power of two not
    above its argument. *)
Theorem FloorToPowerOfTwo_correct (n : Z) :
  2 < n < 2 ^ 32 -> FloorToPowerOfTwo n = 2 ^ Z.log2 n.
Proof.
  intros Hn. unfold FloorToPowerOfTwo. zb; [lia|].
  assert (E : smear 16 (smear 8 (smear 4 (smear 2 (smear 1 n)))) = Z.ones (Z.log2 n + 1)).
  { apply Z.bits_inj'. intros i Hi. pose proof (Z.log2_nonneg n).
    rewrite smear_all, window_ones by lia.
    zb; [rewrite Z.ones_spec_low by lia|rewrite Z.ones_spec_high by lia]; done. }
  rewrite E. pose proof (Z.log2_nonneg n).
  rewrite Z.shiftr_div_pow2, !Z.ones_equiv, Z.pow_add_r by lia.
  rewrite <- !Z.sub_1_r. change (2 ^ 1) with 2.
  replace (2 ^ Z.log2 n * 2 - 1) with ((2 ^ Z.log2 n - 1) * 2 + 1) by lia.
  rewrite Z.div_add_l by lia. change (1 / 2) with 0. lia.
Qed.

Lemma FloorToPowerOfTwo_correct_witness : FloorToPowerOfTwo 100 = 2 ^ Z.log2 100.
Proof. apply (FloorToPowerOfTwo_correct 100). lia. Defined.

(** The smearing stops at a shift of 16, so 33-bit and longer arguments are not
    handled: 2^40 is a power of two and is not returned. *)
Theorem FloorToPowerOfTwo_wide_wrong :
  FloorToPowerOfTwo (2 ^ 40) = 2 ^ 40 - 2 ^ 8.
Proof. reflexivity. Qed.

(** [Squash64] inverts [Spread32] on every 32-bit word. *)
Theorem Squash64_Spread32 (x : Z) :
  0 <= x < 2 ^ 32 -> Squash64 (Spread32 x) = x.
Proof.
  intros Hx. assert (Hhigh : forall j, 32 <= j -> Z.testbit x j = false).
  { intros. rewrite <- (Z.mod_small x (2 ^ 32)) by lia. apply Z.mod_pow2_bits_high. lia. }
  apply Z.bits_inj'. intros i Hi.
  rewrite (Squash64_bits _ _ (Spread32_bits x _ (u32_bits x))).
  destruct (Z.ltb_spec i 32) as [Hlt|Hge]; cbn [andb]; [|by rewrite Hhigh].
  assert (H : 0 <= i < Z.of_nat 32) by lia. clear Hi Hlt Hx Hhigh.
  generalize (Z.testbit x). intros f. revert i H. apply bits_below.
  apply Forall_forall. cbn [seq].
  repeat (constructor; [vm_compute; destruct (f _); reflexivity|]). constructor.
Qed.

Lemma Squash64_Spread32_witness : Squash64 (Spread32 0xdeadbeef) = 0xdeadbeef.
Proof. apply (Squash64_Spread32 0xdeadbeef). lia. Defined.
