(* ===== verification/Endian.v ===== *)
(** * Endian: big-endian integers in byte slices ([encoding/binary])

    [be k n] is what [binary.BigEndian.PutUintN] writes for [k = N/8] bytes, [unbe]
    what [UintN] reads.  Reading from a shorter slice panics. *)
From stdpp Require Import base list option.
From Stdlib Require Import ZArith Lia.
From S2P Require Import Prelude.

(** ** Definitions *)

Fixpoint be (k : nat) (n : Z) : list byte :=
  match k with
  | O => []
  | S k => Z.shiftr n (8 * Z.of_nat k) mod 256 :: be k n
  end.

Definition unbe (l : list byte) : Z := foldl (fun a b => a * 256 + b) 0 l.

Definition BigEndianGet (k : Z) (l : list byte) : option Z :=
  if zlen l <? k then None else Some (unbe (ztake k l)).

Definition bytes_ok (l : list byte) : Prop := Forall is_byte l.

(** ** Lemmas *)

Lemma zlen_be k n : zlen (be k n) = Z.of_nat k.
Proof. induction k; [done|]. unfold zlen in *. cbn [be length]. lia. Qed.

Lemma be_bytes k n : bytes_ok (be k n).
Proof.
  induction k; constructor; [|done]. apply Z.mod_pos_bound. lia.
Qed.

Lemma unbe_acc l a : foldl (fun a b => a * 256 + b) a l = a * 256 ^ zlen l + unbe l.
Proof.
  unfold unbe. revert a. induction l as [|x l IH]; intros a; cbn [foldl].
  - unfold zlen. cbn. lia.
  - rewrite (IH (a * 256 + x)), (IH (0 * 256 + x)).
    replace (zlen (x :: l)) with (1 + zlen l) by (unfold zlen; cbn [length]; lia).
    rewrite Z.pow_add_r by (unfold zlen; lia). ring.
Qed.

Lemma unbe_cons x l : unbe (x :: l) = x * 256 ^ zlen l + unbe l.
Proof. unfold unbe at 1. cbn [foldl]. by rewrite unbe_acc, Z.mul_0_l, Z.add_0_l. Qed.

Lemma unbe_range l : bytes_ok l -> 0 <= unbe l < 256 ^ zlen l.
Proof.
  induction 1 as [|x l Hx _ IH]; [unfold unbe, zlen; cbn; lia|].
  rewrite unbe_cons. replace (zlen (x :: l)) with (1 + zlen l) by (unfold zlen; cbn [length]; lia).
  rewrite Z.pow_add_r by (unfold zlen; lia). unfold is_byte in Hx. nia.
Qed.

(** What is written is read back, modulo the width. *)
Lemma unbe_be k n : unbe (be k n) = n mod 256 ^ Z.of_nat k.
Proof.
  induction k as [|k IH]; [cbn; by rewrite Z.mod_1_r|]. cbn [be].
  rewrite unbe_cons, zlen_be, IH. rewrite Z.shiftr_div_pow2 by lia.
  replace (2 ^ (8 * Z.of_nat k)) with (256 ^ Z.of_nat k)
    by (change 256 with (2 ^ 8); by rewrite <- Z.pow_mul_r by lia).
  replace (Z.of_nat (S k)) with (Z.of_nat k + 1) by lia.
  rewrite (Z.pow_add_r 256 (Z.of_nat k) 1) by lia. change (256 ^ 1) with 256.
  set (m := 256 ^ Z.of_nat k). assert (0 < m) by (unfold m; lia).
  rewrite Z.rem_mul_r by lia. lia.
Qed.

Lemma BigEndianGet_be (k : nat) n rest :
  0 <= n < 256 ^ Z.of_nat k -> BigEndianGet (Z.of_nat k) (be k n ++ rest) = Some n.
Proof.
  intros Hn. unfold BigEndianGet. rewrite zlen_app, zlen_be. pose proof (zlen_nonneg rest).
  destruct (Z.ltb_spec (Z.of_nat k + zlen rest) (Z.of_nat k)); [lia|].
  rewrite ztake_app_le, ztake_ge, unbe_be, Z.mod_small by (rewrite ?zlen_be; lia). done.
Qed.

(** The other direction: a byte string is determined by its value and length. *)
Lemma be_unbe l : bytes_ok l -> be (length l) (unbe l) = l.
Proof.
  intros Hl. assert (Hgen : forall a l, bytes_ok l -> be (length l) (a * 256 ^ zlen l + unbe l) = l).
  { clear. intros a l Hl. revert a. induction Hl as [|x l Hx Hl IH]; intros a; [done|].
    cbn [length be]. rewrite unbe_cons.
    replace (zlen (x :: l)) with (zlen l + 1) by (unfold zlen; cbn [length]; lia).
    rewrite Z.pow_add_r by (unfold zlen; lia). change (256 ^ 1) with 256.
    replace (a * (256 ^ zlen l * 256) + (x * 256 ^ zlen l + unbe l))
      with ((a * 256 + x) * 256 ^ zlen l + unbe l) by ring.
    f_equal; [|apply IH]. pose proof (unbe_range l Hl). unfold is_byte in Hx.
    rewrite Z.shiftr_div_pow2 by lia.
    replace (2 ^ (8 * Z.of_nat (length l))) with (256 ^ zlen l)
      by (change 256 with (2 ^ 8); rewrite <- Z.pow_mul_r by (unfold zlen; lia); done).
    rewrite Z.div_add_l, (Z.div_small (unbe l)), Z.add_0_r by lia.
    rewrite Z.add_comm, Z.mod_add, Z.mod_small by lia. done. }
  rewrite <- (Hgen 0 l Hl) at 3. f_equal.
Qed.

Arguments be k n : simpl never.
