(* ===== verification/Pool.v ===== *)
(** * Pool: the calibrated size-bucketed pool and the byte-slice pool
      (src/pkg/pool/internal/calibrated/pool.go, src/pkg/pool/byteslice/pool.go)

    A pool keeps 20 buckets, each a [sync.Pool].  [sync.Pool.Get] may return any
    stored item or call [New]; which one is an argument ([ch]) of the model, an
    index past the end of the bucket standing for a call of [New].  Atomic
    operations are modelled one after the other, as one goroutine sees them.
    The clients of the byte-slice pool see it through the class [ByteSource]. *)
From stdpp Require Import base list option.
From Stdlib Require Import ZArith Lia.
From S2P Require Import Prelude Num.

(** ** The calibrated pool *)

Definition MinBitSize : Z := 6.
Definition Steps : Z := 20.
Definition MinSize : Z := Z.shiftl 1 MinBitSize.
Definition CalibrateThreshold : Z := 42000.

(** The loop [for n > 0 { n >>= 1; idx++ }]; 64 rounds empty any 64-bit word. *)
Fixpoint sizeLoop (fuel : nat) (n idx : Z) : Z :=
  match fuel with
  | O => idx
  | S f => if 0 <? n then sizeLoop f (Z.shiftr n 1) (idx + 1) else idx
  end.
Definition SizeToIndex (n : Z) : Z := sizeLoop 64 (Z.shiftr (n - 1) MinBitSize) 0.

Definition BucketSize (i : Z) : Z :=
  if (i <? 0) || (Steps <=? i) then 0 else Z.shiftl MinSize i.

(** [bucket] of the statistics: calls and size. *)
Record bucket := mkBucket { b_calls : Z; b_size : Z }.

Record Pool (T : Type) := mkPool {
  calls : list Z;
  calibrating : Z;
  defaultSize : Z;
  maxSize : Z;
  buckets : list (list T);
}.
Arguments mkPool {T}. Arguments calls {T}. Arguments calibrating {T}.
Arguments defaultSize {T}. Arguments maxSize {T}. Arguments buckets {T}.

Section Calibrated.
Context {T : Type}.
Variable newFunc : Z -> T.
Variable sizeFunc : T -> Z.
Variable resetFunc : T -> T.
(** [sort.Sort] on the statistics and [uint64(float64(total) * Percentile95)]. *)
Variable sortStats : list bucket -> list bucket.
Variable percentile95 : Z -> Z.

Definition New : Pool T :=
  mkPool (replicate (Z.to_nat Steps) 0) 0 0 0 (replicate (Z.to_nat Steps) []).

(** [sync.Pool.Get] of bucket [idx]. *)
Definition bucketGet (ch : nat) (idx : Z) (p : Pool T) : option (T * Pool T) :=
  b ← zget (buckets p) idx;
  match b !! ch with
  | Some x =>
      bs ← zset (buckets p) idx (delete ch b);
      Some (x, mkPool (calls p) (calibrating p) (defaultSize p) (maxSize p) bs)
  | None => Some (newFunc (Z.shiftl MinSize idx), p)
  end.

Definition Get (ch : nat) (size : Z) (p : Pool T) : option (T * Pool T) :=
  let size := if size <=? 0 then MinSize else size in
  let idx := SizeToIndex size in
  if Steps <=? idx then Some (newFunc size, p) else bucketGet ch idx p.

(** [collectStats] reads and clears every counter. *)
Definition collectStats (p : Pool T) : list bucket * Pool T :=
  (imap (fun i c => mkBucket c (Z.shiftl MinSize (Z.of_nat i))) (calls p),
   mkPool (replicate (length (calls p)) 0) (calibrating p) (defaultSize p) (maxSize p) (buckets p)).

Fixpoint maxLoop (threshold : Z) (stats : list bucket) (sum maxS : Z) : Z :=
  match stats with
  | [] => maxS
  | s :: rest =>
      if threshold <? sum then maxS
      else maxLoop threshold rest (u64 (sum + b_calls s))
             (if maxS <? b_size s then b_size s else maxS)
  end.

Definition updateSizes (stats : list bucket) (p : Pool T) : Pool T :=
  match stats with
  | [] => p
  | s0 :: _ =>
      let dflt := b_size s0 in
      let total := foldl (fun t s => u64 (t + b_calls s)) 0 stats in
      let maxS := maxLoop (percentile95 total) stats 0 dflt in
      mkPool (calls p) (calibrating p) dflt maxS (buckets p)
  end.

Definition calibrate (p : Pool T) : Pool T :=
  if negb (calibrating p =? 0) then p
  else
    let p := mkPool (calls p) 1 (defaultSize p) (maxSize p) (buckets p) in
    let '(stats, p) := collectStats p in
    let p := updateSizes (sortStats stats) p in
    mkPool (calls p) 0 (defaultSize p) (maxSize p) (buckets p).

Definition Put (item : T) (p : Pool T) : option (Pool T) :=
  let size := sizeFunc item in
  if size =? 0 then Some p else
  let idx := SizeToIndex size in
  if Steps <=? idx then Some p else
  c ← zget (calls p) idx;
  cs ← zset (calls p) idx (u64 (c + 1));
  let p := mkPool cs (calibrating p) (defaultSize p) (maxSize p) (buckets p) in
  let p := if CalibrateThreshold <? u64 (c + 1) then calibrate p else p in
  let max := i64 (maxSize p) in
  if (0 <? max) && (max <? size) then Some p else
  b ← zget (buckets p) idx;
  bs ← zset (buckets p) idx (resetFunc item :: b);
  Some (mkPool (calls p) (calibrating p) (defaultSize p) (maxSize p) bs).

(** Invariant: 20 counters and buckets, and every item stored in bucket [i] has
    exactly the bucket's size. *)
Definition bucket_fits (i : nat) (b : list T) : Prop :=
  Forall (fun x => sizeFunc x = Z.shiftl MinSize (Z.of_nat i)) b.
Definition pool_ok (p : Pool T) : Prop :=
  zlen (calls p) = Steps /\ zlen (buckets p) = Steps /\
  (forall i b, buckets p !! i = Some b -> bucket_fits i b).
End Calibrated.

(** ** The byte-slice pool *)

(** A [[]byte] with its capacity; [cap >= len]. *)
Record slice := mkSlice { sdata : list byte; scap : Z }.
Definition slen (s : slice) : Z := zlen (sdata s).

(** [s[n:]]: the capacity shrinks with the front. *)
Definition resliceFrom (s : slice) (n : Z) : slice := mkSlice (zdrop n (sdata s)) (scap s - n).

Definition bsNew (size : Z) : slice := mkSlice (zeros size) size.
Definition bsPool : Type := Pool slice.

(** [Get] returns [b[:size]]; slicing past the capacity panics.  The bytes up to
    the old length are what an earlier user left, the model extends with zeros. *)
Definition bsGet (ch : nat) (size : Z) (p : bsPool) : option (slice * bsPool) :=
  '(b, p) ← Get bsNew ch size p;
  if (size <? 0) || (scap b <? size) then None
  else Some (mkSlice (ztake size (sdata b ++ zeros size)) (scap b), p).

Section BsPut.
Variable sortStats : list bucket -> list bucket.
Variable percentile95 : Z -> Z.

Definition bsPut (b : slice) (p : bsPool) : option bsPool :=
  if slen b =? 0 then Some p else Put scap id sortStats percentile95 b p.
End BsPut.

(** What a client needs of a byte pool: [Get n] yields [n] bytes, of any value. *)
Class ByteSource := {
  source_get : Z -> list byte;
  source_len : forall n, 0 <= n -> zlen (source_get n) = n;
}.

(** The same with the pool's state and slice capacities visible: [accepts] are the
    slices the pool can take back without breaking a later [Get].  [pget] may use
    any stored slice; the choices are part of the pool's state. *)
Class BytePool (P : Type) := {
  pget : Z -> P -> option (slice * P);
  pput : slice -> P -> option P;
  pinv : P -> Prop;
  accepts : slice -> Prop;
  accepts_cap : forall s d, accepts s -> accepts (mkSlice d (scap s));
  pget_ok : forall n p, pinv p -> 0 <= n < 2 ^ 63 ->
    exists s p', pget n p = Some (s, p') /\ pinv p' /\ slen s = n /\ accepts s;
  pput_ok : forall s p, pinv p -> accepts s -> exists p', pput s p = Some p' /\ pinv p';
}.

(** The slices a well-behaved client puts back: whole bucket-sized slices. *)
Definition bucket_sized (s : slice) : Prop :=
  exists i, 0 <= i < Steps /\ scap s = Z.shiftl MinSize i.

(** ** Lemmas *)

Lemma sizeLoop_spec fuel n idx :
  0 <= n < 2 ^ Z.of_nat fuel -> sizeLoop fuel n idx = idx + bitsLen n.
Proof.
  revert n idx. induction fuel as [|f IH]; intros n idx Hn; simpl.
  - change (2 ^ Z.of_nat 0) with 1 in Hn. assert (n = 0) as -> by lia. cbn. lia.
  - zb; [|assert (n = 0) as -> by lia; cbn; lia].
    rewrite Z.shiftr_div_pow2 by lia. change (2 ^ 1) with 2.
    rewrite IH by (split; [apply Z.div_pos; lia|apply Z.div_lt_upper_bound; [lia|];
      replace (Z.of_nat (S f)) with (1 + Z.of_nat f) in Hn by lia;
      rewrite Z.pow_add_r in Hn; lia]).
    rewrite (bitsLen_pos n) by lia. unfold bitsLen. zb.
    + assert (n = 1) as -> by dlia. cbn. lia.
    + assert (2 <= n) by dlia. replace (n / 2) with (Z.shiftr n 1) by (by rewrite Z.shiftr_div_pow2 by lia).
      rewrite Z.log2_shiftr by lia. pose proof (Z.log2_pos n). lia.
Qed.

Lemma SizeToIndex_bits n : 1 <= n < 2 ^ 63 -> SizeToIndex n = bitsLen ((n - 1) / 64).
Proof.
  intros. unfold SizeToIndex, MinBitSize. rewrite Z.shiftr_div_pow2 by lia.
  change (2 ^ 6) with 64. rewrite sizeLoop_spec; [done|].
  split; [apply Z.div_pos; lia|apply Z.div_lt_upper_bound; lia].
Qed.

(** [SizeToIndex n] is the least bucket whose size reaches [n]. *)
Lemma SizeToIndex_spec n :
  1 <= n < 2 ^ 63 ->
  0 <= SizeToIndex n /\ n <= Z.shiftl MinSize (SizeToIndex n) /\
  (0 < SizeToIndex n -> Z.shiftl MinSize (SizeToIndex n - 1) < n).
Proof.
  intros Hn. rewrite SizeToIndex_bits by done. unfold MinSize, MinBitSize.
  change (Z.shiftl 1 6) with 64. unfold bitsLen. zb.
  - rewrite Z.shiftl_0_r. apply Z.div_small_iff in e; lia.
  - pose proof (Z.div_pos (n - 1) 64). assert (0 < (n - 1) / 64) by lia.
    pose proof (Z.log2_nonneg ((n - 1) / 64)).
    destruct (Z.log2_spec ((n - 1) / 64)) as [Hl Hu]; [done|].
    pose proof (Z.div_mod (n - 1) 64). pose proof (Z.mod_pos_bound (n - 1) 64).
    rewrite Z.add_simpl_r, !Z.shiftl_mul_pow2 by lia.
    rewrite <- Z.add_1_r in Hu. lia.
Qed.

Lemma SizeToIndex_bucket i :
  0 <= i < Steps -> SizeToIndex (Z.shiftl MinSize i) = i.
Proof.
  unfold Steps. intros Hi. assert (Hp : 2 ^ i <= 2 ^ 19) by (apply Z.pow_le_mono_r; lia).
  unfold MinSize, MinBitSize. change (Z.shiftl 1 6) with 64. rewrite Z.shiftl_mul_pow2 by lia.
  destruct (SizeToIndex_spec (64 * 2 ^ i)) as (H0 & H1 & H2); [lia|].
  unfold MinSize, MinBitSize in *. change (Z.shiftl 1 6) with 64 in *.
  rewrite !Z.shiftl_mul_pow2 in * by lia.
  assert (i <= SizeToIndex (64 * 2 ^ i)) by (apply (Z.pow_le_mono_r_iff 2); lia).
  destruct (Z.eq_dec (SizeToIndex (64 * 2 ^ i)) 0); [lia|].
  rewrite Z.shiftl_mul_pow2 in H2 by lia.
  assert (SizeToIndex (64 * 2 ^ i) - 1 < i) by (apply (Z.pow_lt_mono_r_iff 2); lia). lia.
Qed.

Lemma MinSize_shift_pos i : 0 <= i -> 64 <= Z.shiftl MinSize i.
Proof.
  intros. rewrite Z.shiftl_mul_pow2 by lia. change MinSize with 64. nia.
Qed.

Section CalibratedFacts.
Context {T : Type}.
Variable newFunc : Z -> T.
Variable sizeFunc : T -> Z.
Variable resetFunc : T -> T.
Variable sortStats : list bucket -> list bucket.
Variable percentile95 : Z -> Z.
Hypothesis size_new : forall n, sizeFunc (newFunc n) = n.
Hypothesis size_reset : forall x, sizeFunc (resetFunc x) = sizeFunc x.

Lemma New_ok : pool_ok sizeFunc (@New T).
Proof.
  split; [reflexivity|]. split; [reflexivity|]. intros i b Hb.
  apply lookup_replicate in Hb as [-> _]. constructor.
Qed.

Lemma calibrate_ok p :
  pool_ok sizeFunc p -> pool_ok sizeFunc (calibrate sortStats percentile95 p).
Proof.
  intros (Hc & Hb & Hf). unfold calibrate. destruct (negb _); [done|].
  unfold collectStats, updateSizes; cbn -[zlen].
  destruct (sortStats _); cbn -[zlen]; (split; [cbn [calls]; lens; lia|]); done.
Qed.

Lemma pool_bucket p idx :
  pool_ok sizeFunc p -> 0 <= idx < Steps ->
  exists b, zget (buckets p) idx = Some b /\ bucket_fits sizeFunc (Z.to_nat idx) b.
Proof.
  intros (_ & Hl & Hf) Hi. destruct (zget_Some (buckets p) idx) as [b Hb]; [lia|].
  exists b. split; [done|]. apply Hf. unfold zget in Hb. rewrite bool_decide_true in Hb by lia. done.
Qed.

Lemma pool_ok_set p idx b :
  pool_ok sizeFunc p -> 0 <= idx < Steps -> bucket_fits sizeFunc (Z.to_nat idx) b ->
  exists bs, zset (buckets p) idx b = Some bs /\
    forall cs ca d m, zlen cs = Steps -> pool_ok sizeFunc (mkPool cs ca d m bs).
Proof.
  intros (_ & Hl & Hf) Hi Hb. rewrite zset_Some by lia. eexists; split; [done|].
  intros. split; [done|]. split; [cbn -[zlen]; by unfold zlen; rewrite length_insert|].
  intros i b' Hlk. cbn in Hlk. rewrite list_lookup_insert in Hlk.
  destruct (decide _) as [[<- _]|]; simplify_eq; eauto.
Qed.

Lemma Get_ok ch size p :
  pool_ok sizeFunc p -> size < 2 ^ 63 ->
  exists x p', Get newFunc ch size p = Some (x, p') /\ pool_ok sizeFunc p' /\ size <= sizeFunc x.
Proof.
  intros Hok Hs. unfold Get. set (sz := if size <=? 0 then MinSize else size).
  assert (Hsz : 1 <= sz < 2 ^ 63 /\ size <= sz)
    by (unfold sz; change MinSize with 64; zb; lia).
  destruct (SizeToIndex_spec sz) as (Hi0 & Hle & _); [lia|].
  destruct (Z.leb_spec Steps (SizeToIndex sz)).
  { do 2 eexists; split; [done|]. rewrite size_new. split; [done|lia]. }
  destruct (pool_bucket p (SizeToIndex sz) Hok) as (b & Hb & Hfit); [lia|].
  unfold bucketGet. rewrite Hb; cbn [mbind option_bind]. destruct (b !! ch) as [x|] eqn:Hx.
  - destruct (pool_ok_set p (SizeToIndex sz) (delete ch b)) as (bs & -> & Hbs); [done|lia| |].
    { by apply Forall_delete. }
    do 2 eexists; split; [done|]. split; [apply Hbs, Hok|].
    eapply Forall_lookup_1 in Hfit; [|exact Hx]. rewrite Hfit, Z2Nat.id by lia. lia.
  - do 2 eexists; split; [done|]. rewrite size_new. split; [done|lia].
Qed.

(** Items of exactly a bucket's size keep the pool in order. *)
Lemma Put_ok x p i :
  pool_ok sizeFunc p -> 0 <= i < Steps -> sizeFunc x = Z.shiftl MinSize i ->
  exists p', Put sizeFunc resetFunc sortStats percentile95 x p = Some p' /\ pool_ok sizeFunc p'.
Proof.
  intros Hok Hi Hsz. pose proof (MinSize_shift_pos i). unfold Put. rewrite Hsz.
  destruct (Z.eqb_spec (Z.shiftl MinSize i) 0); [lia|]. rewrite SizeToIndex_bucket by done.
  destruct (Z.leb_spec Steps i); [lia|].
  pose proof Hok as (Hc & _ & _). destruct (zget_Some (calls p) i) as [c ->]; [lia|].
  cbn [mbind option_bind]. rewrite zset_Some by lia. cbn [mbind option_bind].
  set (p1 := mkPool _ _ _ _ _). assert (Hok1 : pool_ok sizeFunc p1).
  { destruct Hok as (_ & ? & ?). split; [cbn -[zlen]; lens; lia|]. done. }
  set (p2 := if CalibrateThreshold <? _ then _ else _).
  assert (Hok2 : pool_ok sizeFunc p2) by (unfold p2; destruct (_ <? _); auto using calibrate_ok).
  destruct (_ && _); [eauto|].
  destruct (pool_bucket p2 i Hok2) as (b & -> & Hfit); [lia|]. cbn [mbind option_bind].
  destruct (pool_ok_set p2 i (resetFunc x :: b)) as (bs & -> & Hbs); [done|lia| |].
  { constructor; [|done]. by rewrite size_reset, Hsz, Z2Nat.id by lia. }
  eexists; split; [done|]. apply Hbs, Hok2.
Qed.
End CalibratedFacts.

Lemma bsGet_source ch size (p : bsPool) :
  pool_ok scap p -> 0 <= size < 2 ^ 63 ->
  exists s p', bsGet ch size p = Some (s, p') /\ pool_ok scap p' /\ slen s = size /\ size <= scap s.
Proof.
  intros Hok Hs. destruct (Get_ok bsNew scap ltac:(done) ch size p Hok) as (x & p' & E & Hok' & Hx);
    [lia|].
  unfold bsGet. rewrite E. cbn [mbind option_bind].
  destruct (Z.ltb_spec size 0), (Z.ltb_spec (scap x) size); try lia. cbn [orb].
  do 2 eexists; split; [done|]. split; [done|]. cbn. split; [|done].
  unfold slen. cbn. lens. unfold zeros. rewrite length_replicate. lia.
Qed.

Lemma Get_bucket ch size (p : bsPool) x p' :
  pool_ok scap p -> size < 2 ^ 63 -> Get bsNew ch size p = Some (x, p') ->
  bucket_sized x \/ Steps <= SizeToIndex (scap x).
Proof.
  intros Hok Hs. unfold Get. set (sz := if size <=? 0 then MinSize else size).
  assert (Hsz : 1 <= sz < 2 ^ 63) by (unfold sz; change MinSize with 64; zb; lia).
  destruct (SizeToIndex_spec sz) as (Hi0 & _ & _); [lia|].
  destruct (Z.leb_spec Steps (SizeToIndex sz)); [intros; simplify_eq; by right|].
  destruct (pool_bucket scap p (SizeToIndex sz) Hok) as (b & Hb & Hfit); [lia|].
  unfold bucketGet. rewrite Hb; cbn [mbind option_bind]. intros HG. left.
  exists (SizeToIndex sz). split; [lia|]. destruct (b !! ch) eqn:Hx; [|by simplify_eq].
  rewrite zset_Some in HG by (destruct Hok as (_ & ? & _); lia). cbn in HG. simplify_eq.
  eapply Forall_lookup_1 in Hfit; [|exact Hx]. by rewrite Hfit, Z2Nat.id by lia.
Qed.

#[local] Obligation Tactic := idtac.

(** A pool in order, with its choices, keeps the promise. *)
#[export] Program Instance bs_pool (sortStats : list bucket -> list bucket)
    (percentile95 : Z -> Z) : BytePool (bsPool * list nat) := {|
  pget n p := '(s, q) ← bsGet (hd 0%nat (snd p)) n (fst p); Some (s, (q, tl (snd p)));
  pput s p := q ← bsPut sortStats percentile95 s (fst p); Some (q, snd p);
  pinv p := pool_ok scap (fst p);
  accepts s := bucket_sized s \/ Steps <= SizeToIndex (scap s);
|}.
Next Obligation. intros _ _ s d [(i & Hi & Hc)|Hc]; [left; exists i; exact (conj Hi Hc)|right; exact Hc]. Qed.
Next Obligation.
  intros _ _ n [p chs] Hok Hn. cbn in *.
  destruct (bsGet_source (hd 0%nat chs) n p) as (s & p' & E & Hok' & Hl & Hc); [done..|].
  rewrite E. cbn. do 2 eexists. split_and!; [done..|].
  unfold bsGet in E. destruct (Get bsNew (hd 0%nat chs) n p) as [[x q]|] eqn:EG; [|done].
  cbn in E. destruct (_ || _); [done|]. simplify_eq. rewrite <- E.
  eapply Get_bucket in EG as [(i & Hi & Hc')|Hc']; [left; exists i; exact (conj Hi Hc')|right; exact Hc'|done|lia].
Qed.
Next Obligation.
  intros st pc s [p chs] Hok Hs. cbn [fst snd] in *. unfold bsPut.
  destruct (slen s =? 0); [eexists; split; [done|done]|]. destruct Hs as [(i & Hi & Hc)|Hbig].
  - destruct (Put_ok scap id st pc ltac:(done) s p i) as (p' & -> & ?); [done..|]. eexists; split; done.
  - unfold Put. destruct (_ =? 0); [eexists; split; done|].
    destruct (Z.leb_spec Steps (SizeToIndex (scap s))); [|lia]. eexists; split; done.
Qed.

(** Plain allocation: nothing is kept, so every slice is accepted. *)
#[export] Program Instance heap_pool : BytePool unit := {|
  pget n p := Some (bsNew n, p); pput s p := Some p; pinv p := True; accepts s := True;
|}.
Next Obligation. done. Qed.
Next Obligation.
  intros n p _ Hn. cbn. do 2 eexists. split_and!; try done. unfold slen. cbn. apply zeros_zlen. lia.
Qed.
Next Obligation. intros s p _ _. eexists; split; done. Qed.

(** Fresh zeroed memory is a byte source, and so is a pool in order. *)
#[export] Instance make_source : ByteSource :=
  {| source_get := zeros; source_len := zeros_zlen |}.

(** ** Properties *)

(** The byte-slice pool in order never panics: for every requested size and
    every choice made by the [sync.Pool]s, [byteslice.Get] returns exactly that
    many bytes, and putting back a bucket-sized slice keeps the pool in order. *)
Theorem byteslice_pool_safe sortStats percentile95 (p : bsPool) ch size (b : slice) :
  pool_ok scap p -> 0 <= size < 2 ^ 63 -> bucket_sized b ->
  (exists s p', bsGet ch size p = Some (s, p') /\ pool_ok scap p' /\ slen s = size) /\
  (exists p', bsPut sortStats percentile95 b p = Some p' /\ pool_ok scap p').
Proof.
  intros Hok Hs (i & Hi & Hb). split.
  - destruct (bsGet_source ch size p) as (s & p' & ? & ? & ? & ?); eauto 6.
  - unfold bsPut. destruct (_ =? 0); [eauto|]. by eapply Put_ok.
Qed.

Lemma byteslice_pool_safe_witness :
  (exists s p', bsGet 0 100 (@New slice) = Some (s, p') /\ pool_ok scap p' /\ slen s = 100) /\
  (exists p', bsPut id id (bsNew 128) (@New slice) = Some p' /\ pool_ok scap p').
Proof.
  apply (byteslice_pool_safe id id (@New slice) 0 100 (bsNew 128)).
  - apply New_ok.
  - lia.
  - exists 1. split; [unfold Steps; lia|reflexivity].
Defined.

(** A slice whose front was cut off has a capacity that is no bucket size.  The
    pool files it under the bucket above its capacity, and the next [Get] of that
    bucket's size slices past the capacity and panics. *)
Theorem byteslice_shrunk_slice_panics :
  exists p, bsPut id id (resliceFrom (bsNew 64) 10) (@New slice) = Some p /\
            bsGet 0 64 p = None.
Proof. eexists. split; [vm_compute; reflexivity|vm_compute; reflexivity]. Qed.

