(* ===== verification/Ring.v ===== *)
(** * Ring: the growable circular byte buffer (src/pkg/datastructs/buffer/ring.go)

    [RingBuffer] is the Go struct, field by field.  Every method is a function
    from the buffer to its next state; [None] is a run-time panic.  Positions are
    unbounded [Z]: they are bounded by slice lengths, whose sums stay far below
    2^63.  The contents of memory handed out by the byte-slice pool are arbitrary
    ([ByteSource]).  [contents] is the abstraction: the bytes to be read, oldest
    first. *)
From stdpp Require Import base list option.
From Stdlib Require Import ZArith Lia.
From S2P Require Import Prelude Num Pool.

(** ** Definitions *)

Definition minReadSize : Z := 512.
Definition defaultRingCap : Z := 1024.
Definition ringGrowThreshold : Z := 4 * 1024.

Record RingBuffer := mkRing {
  buf : list byte;
  capacity : Z;
  readPos : Z;
  writePos : Z;
  empty : bool;
}.

Definition setReadPos (rb : RingBuffer) (r : Z) : RingBuffer :=
  mkRing (buf rb) (capacity rb) r (writePos rb) (empty rb).

(** [Reset] clears the buffer and resets all pointers. *)
Definition Reset (rb : RingBuffer) : RingBuffer :=
  mkRing (buf rb) (capacity rb) 0 0 true.

Definition wrapIndex (rb : RingBuffer) (idx : Z) : Z := Z.land idx (capacity rb - 1).

Definition Buffered (rb : RingBuffer) : Z :=
  if readPos rb =? writePos rb then (if empty rb then 0 else capacity rb)
  else if readPos rb <? writePos rb then writePos rb - readPos rb
  else capacity rb - readPos rb + writePos rb.

Definition Available (rb : RingBuffer) : Z :=
  if readPos rb =? writePos rb then (if empty rb then capacity rb else 0)
  else if writePos rb <? readPos rb then readPos rb - writePos rb
  else capacity rb - writePos rb + readPos rb.

Definition Len (rb : RingBuffer) : Z := zlen (buf rb).
Definition Cap (rb : RingBuffer) : Z := capacity rb.
Definition IsFull (rb : RingBuffer) : bool := (readPos rb =? writePos rb) && negb (empty rb).
Definition IsEmpty (rb : RingBuffer) : bool := empty rb.

Definition peekAll (rb : RingBuffer) : option (list byte * list byte) :=
  if empty rb then Some ([], []) else
  if readPos rb <? writePos rb then
    head ← zslice (buf rb) (readPos rb) (writePos rb); Some (head, [])
  else
    head ← zslice (buf rb) (readPos rb) (zlen (buf rb));
    if 0 <? writePos rb then tail ← zslice (buf rb) 0 (writePos rb); Some (head, tail)
    else Some (head, []).

Definition Peek (rb : RingBuffer) (n : Z) : option (list byte * list byte) :=
  if empty rb then Some ([], []) else
  if n <=? 0 then peekAll rb else
  let available := Buffered rb in
  let n := if available <? n then available else n in
  if readPos rb <? writePos rb then
    head ← zslice (buf rb) (readPos rb) (readPos rb + n); Some (head, [])
  else
    let headLen := capacity rb - readPos rb in
    if n <=? headLen then
      head ← zslice (buf rb) (readPos rb) (readPos rb + n); Some (head, [])
    else
      head ← zslice (buf rb) (readPos rb) (zlen (buf rb));
      tail ← zslice (buf rb) 0 (n - headLen);
      Some (head, tail).

(** The error result of [Discard] is always nil. *)
Definition Discard (rb : RingBuffer) (n : Z) : RingBuffer * Z :=
  if n <=? 0 then (rb, 0) else
  let buffered := Buffered rb in
  if n <? buffered then (setReadPos rb (wrapIndex rb (readPos rb + n)), n)
  else (Reset rb, buffered).

(** [Read] returns the buffer, the caller's slice as filled, the count and the error. *)
Definition Read (rb : RingBuffer) (p : list byte)
    : option (RingBuffer * list byte * Z * option error) :=
  if zlen p =? 0 then Some (rb, p, 0, None) else
  if empty rb then Some (rb, p, 0, Some ErrRingEmpty) else
  let toRead := if zlen p <? Buffered rb then zlen p else Buffered rb in
  if readPos rb <? writePos rb then
    chunk ← zslice (buf rb) (readPos rb) (readPos rb + toRead);
    let rb := setReadPos rb (readPos rb + toRead) in
    let rb := if readPos rb =? writePos rb then Reset rb else rb in
    Some (rb, gcopy p chunk, toRead, None)
  else
    let headLen := capacity rb - readPos rb in
    p ← (if toRead <=? headLen then
           chunk ← zslice (buf rb) (readPos rb) (readPos rb + toRead);
           Some (gcopy p chunk)
         else
           head ← zslice (buf rb) (readPos rb) (zlen (buf rb));
           tail ← zslice (buf rb) 0 (toRead - headLen);
           copy_at (gcopy p head) headLen tail);
    let rb := setReadPos rb (wrapIndex rb (readPos rb + toRead)) in
    let rb := if readPos rb =? writePos rb then Reset rb else rb in
    Some (rb, p, toRead, None).

Definition ReadByte (rb : RingBuffer) : option (RingBuffer * Z * option error) :=
  if empty rb then Some (rb, 0, Some ErrRingEmpty) else
  b ← zget (buf rb) (readPos rb);
  let rb := setReadPos rb (readPos rb + 1) in
  let rb := if readPos rb =? capacity rb then setReadPos rb 0 else rb in
  let rb := if readPos rb =? writePos rb then Reset rb else rb in
  Some (rb, b, None).

Definition Bytes (rb : RingBuffer) : option (list byte) :=
  if empty rb then Some [] else
  if readPos rb <? writePos rb then zslice (buf rb) (readPos rb) (writePos rb)
  else
    head ← zslice (buf rb) (readPos rb) (zlen (buf rb));
    if 0 <? writePos rb then tail ← zslice (buf rb) 0 (writePos rb); Some (head ++ tail)
    else Some head.

(** The loop [for newCap > 0 && newCap < minCap { newCap += newCap / 4 }].  It is
    only entered with [minCap <= 2 * newCap], so four rounds are enough
    ([growLoop_reaches]). *)
Fixpoint growLoop (fuel : nat) (newCap minCap : Z) : Z :=
  match fuel with
  | O => newCap
  | S f => if (0 <? newCap) && (newCap <? minCap)
           then growLoop f (newCap + godiv newCap 4) minCap else newCap
  end.

Definition calculateGrowth (rb : RingBuffer) (minCap : Z) : option Z :=
  let oldCap := capacity rb in
  if oldCap =? 0 then
    if minCap <=? defaultRingCap then Some defaultRingCap else CeilToPowerOfTwo minCap
  else
    let doubleCap := oldCap * 2 in
    if minCap <=? doubleCap then
      if oldCap <? ringGrowThreshold then Some doubleCap
      else
        let newCap := growLoop 4 oldCap minCap in
        if 0 <? newCap then Some newCap else Some minCap
    else Some minCap.

Section Growing.
Context `{ByteSource}.

(** The capacity is rounded up to a power of two. *)
Definition NewRing (cap : Z) : option RingBuffer :=
  if cap =? 0 then Some (mkRing [] 0 0 0 true)
  else c ← CeilToPowerOfTwo cap; Some (mkRing (source_get c) c 0 0 true).

Definition grow (rb : RingBuffer) (minCap : Z) : option RingBuffer :=
  newCap ← calculateGrowth rb minCap;
  let bufferedLen := Buffered rb in
  '(rb, newBuf, _, _) ← Read rb (source_get newCap);
  Some (mkRing newBuf newCap 0 bufferedLen (if 0 <? bufferedLen then false else empty rb)).

(** The second half of [Write]: store [p], which fits, and move the write position. *)
Definition place (rb : RingBuffer) (p : list byte) : option RingBuffer :=
  let dataLen := zlen p in
  '(b, w) ← (if readPos rb <=? writePos rb then
     let headSpace := capacity rb - writePos rb in
     if dataLen <=? headSpace then
       b ← copy_at (buf rb) (writePos rb) p; Some (b, writePos rb + dataLen)
     else
       first ← zslice p 0 headSpace;
       rest ← zslice p headSpace dataLen;
       b ← copy_at (buf rb) (writePos rb) first;
       Some (gcopy b rest, dataLen - headSpace)
   else b ← copy_at (buf rb) (writePos rb) p; Some (b, writePos rb + dataLen));
  let w := if w =? capacity rb then 0 else w in
  Some (mkRing b (capacity rb) (readPos rb) w false).

(** [Write]'s error result is always nil. *)
Definition Write (rb : RingBuffer) (p : list byte) : option (RingBuffer * Z) :=
  let dataLen := zlen p in
  if dataLen =? 0 then Some (rb, 0) else
  let freeSpace := Available rb in
  rb ← (if freeSpace <? dataLen then grow rb (capacity rb + dataLen - freeSpace) else Some rb);
  rb ← place rb p;
  Some (rb, dataLen).

Definition WriteByte (rb : RingBuffer) (c : byte) : option RingBuffer :=
  rb ← (if Available rb <? 1 then grow rb 1 else Some rb);
  b ← zset (buf rb) (writePos rb) c;
  let w := writePos rb + 1 in
  let w := if w =? capacity rb then 0 else w in
  Some (mkRing b (capacity rb) (readPos rb) w false).

(** A Go string is its bytes. *)
Definition WriteString (rb : RingBuffer) (s : list byte) : option (RingBuffer * Z) := Write rb s.

(** One [r.Read] into [buf[a:b]], then [empty = false] if [mark], and the write
    position advanced from where it stood. *)
Definition readInto {R} `{Reader R} (rb : RingBuffer) (r : R) (a b : Z) (mark : bool)
    : option (RingBuffer * R * Z * option error) :=
  dst ← zslice (buf rb) a b;
  let '(data, err, r) := rd r (zlen dst) in
  buf' ← copy_at (buf rb) a data;
  Some (mkRing buf' (capacity rb) (readPos rb) (wrapIndex rb (writePos rb + zlen data))
          (if mark then false else empty rb), r, zlen data, err).

Definition readFromOnce {R} `{Reader R} (rb : RingBuffer) (r : R)
    : option (RingBuffer * R * Z * option error) :=
  if readPos rb <=? writePos rb then
    '(rb, r, n, err) ← readInto rb r (writePos rb) (zlen (buf rb)) true;
    match err with
    | Some e => Some (rb, r, n, Some e)
    | None =>
        '(rb, r, n2, err) ← readInto rb r 0 (readPos rb) false;
        Some (rb, r, n + n2, err)
    end
  else readInto rb r (writePos rb) (readPos rb) true.

(** [ReadFrom]: [Some None] means the fuel ran out before the reader ended. *)
Fixpoint ReadFrom {R} `{Reader R} (fuel : nat) (rb : RingBuffer) (r : R) (total : Z)
    : option (option (RingBuffer * R * Z * option error)) :=
  match fuel with
  | O => Some None
  | S f =>
      rb ← (if Available rb <? minReadSize then grow rb (Buffered rb + minReadSize) else Some rb);
      '(rb, r, n, err) ← readFromOnce rb r;
      match err with
      | Some EOF => Some (Some (rb, r, total + n, None))
      | Some e => Some (Some (rb, r, total + n, Some e))
      | None => ReadFrom f rb r (total + n)
      end
  end.
End Growing.

Definition WriteTo {W} `{Writer W} (rb : RingBuffer) (w : W)
    : option (RingBuffer * W * Z * option error) :=
  if empty rb then Some (rb, w, 0, None) else
  if readPos rb <? writePos rb then
    chunk ← zslice (buf rb) (readPos rb) (writePos rb);
    let '(written, err, w) := wr w chunk in
    let rb := setReadPos rb (readPos rb + written) in
    let rb := if readPos rb =? writePos rb then Reset rb else rb in
    Some (rb, w, written, err)
  else
    let headLen := capacity rb - readPos rb in
    head ← zslice (buf rb) (readPos rb) (zlen (buf rb));
    let '(written, err, w) := wr w head in
    let rb := setReadPos rb (wrapIndex rb (readPos rb + written)) in
    if (match err with Some _ => true | None => false end) || (written <? headLen)
    then Some (rb, w, written, err)
    else
      tail ← zslice (buf rb) 0 (writePos rb);
      let '(written2, err, w) := wr w tail in
      let rb := setReadPos rb written2 in
      let rb := if readPos rb =? writePos rb then Reset rb else rb in
      Some (rb, w, written + written2, err).

(** ** Abstraction and invariant *)

Definition contents (rb : RingBuffer) : list byte :=
  if empty rb then [] else
  if readPos rb <? writePos rb
  then ztake (writePos rb - readPos rb) (zdrop (readPos rb) (buf rb))
  else zdrop (readPos rb) (buf rb) ++ ztake (writePos rb) (buf rb).

Record wf (rb : RingBuffer) : Prop := {
  wf_len : zlen (buf rb) = capacity rb;
  wf_pos : if empty rb then readPos rb = 0 /\ writePos rb = 0
           else 0 <= readPos rb < capacity rb /\ 0 <= writePos rb < capacity rb;
}.

(** The ring after [k] bytes were read from it. *)
Definition readAfter (rb : RingBuffer) (k : Z) : RingBuffer :=
  let r := if readPos rb <? writePos rb then readPos rb + k else wrapIndex rb (readPos rb + k) in
  if r =? writePos rb then Reset rb else setReadPos rb r.

(** What storing [p] must achieve. *)
Definition placed (rb : RingBuffer) (p : list byte) : Prop :=
  exists rb', place rb p = Some rb' /\ wf rb' /\ contents rb' = contents rb ++ p /\
    capacity rb' = capacity rb.

(** ** Specification: a byte queue

    The operations a client performs, what the ring shows of each, and what a
    plain list of bytes shows. *)

Inductive op : Type :=
  | OWrite (p : list byte) | ORead (n : Z) | OReadByte | ODiscard (n : Z)
  | OPeek (n : Z) | OBytes | OReset.

Definition ring_step `{ByteSource} (rb : RingBuffer) (o : op) : option (RingBuffer * obs) :=
  match o with
  | OWrite p => '(rb, n) ← Write rb p; Some (rb, Count n)
  | ORead n => '(rb, p, k, err) ← Read rb (zeros n); Some (rb, observeRead err (ztake k p))
  | OReadByte => '(rb, b, err) ← ReadByte rb; Some (rb, observeRead err [b])
  | ODiscard n => let '(rb, k) := Discard rb n in Some (rb, Count k)
  | OPeek n => '(h, t) ← Peek rb n; Some (rb, Data (h ++ t))
  | OBytes => b ← Bytes rb; Some (rb, Data b)
  | OReset => Some (Reset rb, Silent)
  end.

Definition queue_step (q : list byte) (o : op) : list byte * obs :=
  match o with
  | OWrite p => (q ++ p, Count (zlen p))
  | ORead n =>
      if n <=? 0 then (q, Data []) else
      match q with [] => (q, Fail ErrRingEmpty) | _ => (zdrop n q, Data (ztake n q)) end
  | OReadByte => match q with [] => (q, Fail ErrRingEmpty) | b :: q => (q, Data [b]) end
  | ODiscard n => if n <=? 0 then (q, Count 0) else (zdrop n q, Count (Z.min n (zlen q)))
  | OPeek n => (q, Data (if n <=? 0 then q else ztake n q))
  | OBytes => (q, Data q)
  | OReset => ([], Silent)
  end.

Fixpoint ring_run `{ByteSource} (rb : RingBuffer) (os : list op) : option (RingBuffer * list obs) :=
  match os with
  | [] => Some (rb, [])
  | o :: os => '(rb, x) ← ring_step rb o; '(rb, xs) ← ring_run rb os; Some (rb, x :: xs)
  end.

Fixpoint queue_run (q : list byte) (os : list op) : list byte * list obs :=
  match os with
  | [] => (q, [])
  | o :: os => let '(q, x) := queue_step q o in let '(q, xs) := queue_run q os in (q, x :: xs)
  end.

(** The queue never holds more than [c] bytes along the run. *)
Fixpoint bounded (c : Z) (q : list byte) (os : list op) : Prop :=
  zlen q <= c /\
  match os with [] => True | o :: os => bounded c (fst (queue_step q o)) os end.

(** A writer that accepts everything. *)
#[export] Instance sink : Writer (list byte).
Proof. refine {| wr := fun w p => (zlen p, None, w ++ p) |}. intros; cbn. unfold zlen; lia. Defined.

(** A reader over a byte string, like [bytes.Reader]. *)
#[export] Instance source_reader : Reader (list byte).
Proof.
  refine {| rd := fun r n => match r with [] => ([], Some EOF, []) | _ => (ztake n r, None, zdrop n r) end |}.
  intros [|b r] n Hn; cbn [fst]; [unfold zlen; cbn; lia|]. lens. lia.
Defined.

(** A reader that returns its chunks one call at a time (short reads). *)
#[export] Instance chunk_reader : Reader (list (list byte)).
Proof.
  refine {| rd := fun r n => match r with [] => ([], Some EOF, []) | c :: r => (ztake n c, None, r) end |}.
  intros [|c r] n Hn; cbn [fst]; [unfold zlen; cbn; lia|]. lens. lia.
Defined.

(** ** Lemmas *)

Ltac wfd := 
  repeat match goal with H : wf ?rb |- _ =>
    let Hl := fresh "Hlen" in let Hp := fresh "Hpos" in destruct H as [Hl Hp] end.

(** [ringcase] opens a ring in all its shapes: empty, straight, wrapped. *)
Ltac ringcase rb :=
  let E := fresh "E" in
  destruct rb as [bf cp rp wp em]; cbn [buf capacity readPos writePos empty] in *;
  destruct em; cbn [buf capacity readPos writePos empty] in *.

Lemma Buffered_contents rb : wf rb -> Buffered rb = zlen (contents rb).
Proof.
  intros [Hl Hp]. unfold Buffered, contents. ringcase rb; zb; try lia; lens; lia.
Qed.

Lemma Available_Buffered rb : wf rb -> Available rb = capacity rb - Buffered rb.
Proof. intros [Hl Hp]. unfold Available, Buffered. ringcase rb; zb; lia. Qed.

Lemma Buffered_bounds rb : wf rb -> 0 <= Buffered rb <= capacity rb.
Proof.
  intros [Hl Hp]. pose proof (zlen_nonneg (buf rb)).
  unfold Buffered. ringcase rb; zb; lia.
Qed.

Lemma not_empty_Buffered rb : wf rb -> empty rb = false -> 0 < Buffered rb.
Proof. intros [Hl Hp] He. unfold Buffered. rewrite He in *. zb; lia. Qed.

Lemma Reset_wf rb : zlen (buf rb) = capacity rb -> wf (Reset rb).
Proof. by constructor. Qed.

Lemma wrapIndex_mod rb i : is_pow2 (capacity rb) -> wrapIndex rb i = i mod capacity rb.
Proof. apply land_pow2_mod. Qed.

(** [Read] in closed form; the delivered bytes do not depend on the capacity being
    a power of two, only the next read position does. *)
Lemma Read_eq rb p :
  wf rb -> empty rb = false -> p <> [] ->
  Read rb p = Some (readAfter rb (Z.min (zlen p) (Buffered rb)),
      gcopy p (contents rb), Z.min (zlen p) (Buffered rb), None).
Proof.
  intros Hwf He Hp. pose proof (not_empty_Buffered _ Hwf He) as Hpos.
  pose proof (Buffered_contents _ Hwf) as HB.
  assert (Hp' : zlen p <> 0) by (rewrite zlen_zero; done). pose proof (zlen_nonneg p).
  unfold Read. rewrite He. rewrite (proj2 (Z.eqb_neq (zlen p) 0)) by done.
  replace (if zlen p <? Buffered rb then zlen p else Buffered rb)
    with (Z.min (zlen p) (Buffered rb)) by (zb; lia).
  remember (Z.min (zlen p) (Buffered rb)) as k eqn:Hk.
  rewrite <- (gcopy_ztake k p (contents rb)) by lia.
  destruct Hwf as [Hl Hps]. unfold contents, Buffered, readAfter in *.
  ringcase rb; [done|]. destruct (Z.ltb_spec rp wp) as [Hs|Hs].
  - destruct (Z.eqb_spec rp wp); [lia|].
    rewrite zslice_Some by lia. cbn [mbind option_bind].
    rewrite ztake_ztake, Z.min_l by lia. by replace (rp + k - rp) with k by lia.
  - assert (Hk' : k <= cp - rp + wp) by (destruct (Z.eqb_spec rp wp); lia).
    assert (Hd : zlen (zdrop rp bf) = cp - rp) by (rewrite zlen_zdrop; lia).
    destruct (Z.leb_spec k (cp - rp)).
    + rewrite zslice_Some by lia. cbn [mbind option_bind].
      rewrite ztake_app_le by lia. by replace (rp + k - rp) with k by lia.
    + rewrite !zslice_Some by lia. cbn [mbind option_bind].
      rewrite (ztake_ge (zlen bf - rp)), (zdrop_le0 0) by lia.
      rewrite copy_at_Some by (rewrite zlen_gcopy; lia). cbn [mbind option_bind].
      rewrite <- Hd at 1 2. rewrite gcopy_app by lia.
      rewrite ztake_app_ge, ztake_ztake by lia. rewrite Z.min_l by lia.
      rewrite Hd. by rewrite Z.sub_0_r.
Qed.

(** Reading consumes from the front, when the mask is a modulus. *)
Lemma readAfter_spec rb k :
  wf rb -> empty rb = false -> is_pow2 (capacity rb) -> 0 < k <= Buffered rb ->
  wf (readAfter rb k) /\ contents (readAfter rb k) = zdrop k (contents rb) /\
  capacity (readAfter rb k) = capacity rb /\ buf (readAfter rb k) = buf rb.
Proof.
  intros Hwf He Hpow Hk. pose proof (Buffered_contents _ Hwf) as HB.
  destruct Hwf as [Hl Hps]. unfold readAfter. rewrite wrapIndex_mod by done. clear Hpow.
  unfold contents, Buffered in *. ringcase rb; [done|].
  destruct (Z.ltb_spec rp wp) as [Hs|Hs].
  - destruct (Z.eqb_spec rp wp); [lia|]. destruct (Z.eqb_spec (rp + k) wp); cbn.
    + split; [by constructor|]. rewrite zdrop_ge by lia. done.
    + split; [constructor; cbn; lia|]. destruct (Z.ltb_spec (rp + k) wp); [|lia].
      rewrite zdrop_ztake, zdrop_zdrop by lia. split; [|done].
      f_equal; [lia|f_equal; lia].
  - assert (Hk' : k <= cp - rp + wp) by (destruct (Z.eqb_spec rp wp); lia).
    assert (Hd : zlen (zdrop rp bf) = cp - rp) by (rewrite zlen_zdrop; lia).
    destruct (Z.ltb_spec (rp + k) cp).
    + rewrite Z.mod_small by lia. destruct (Z.eqb_spec (rp + k) wp); [lia|]. cbn.
      split; [constructor; cbn; lia|]. destruct (Z.ltb_spec (rp + k) wp); [lia|].
      rewrite zdrop_app_le, zdrop_zdrop by lia. split; [|done]. do 2 f_equal; lia.
    + assert ((rp + k) mod cp = rp + k - cp) as ->
        by (symmetry; apply (Z.mod_unique_pos _ _ 1); lia).
      destruct (Z.eqb_spec (rp + k - cp) wp); cbn.
      * split; [by constructor|]. rewrite zdrop_ge by (rewrite zlen_app, zlen_ztake; lia). done.
      * split; [constructor; cbn; lia|]. destruct (Z.ltb_spec (rp + k - cp) wp); [|lia].
        rewrite zdrop_app_ge, zdrop_ztake by lia. split; [|done].
      f_equal; [lia|f_equal; lia].
Qed.

(** [Discard] short of everything moves the read position like a read does. *)
Lemma Discard_readAfter rb n :
  wf rb -> is_pow2 (capacity rb) -> 0 < n < Buffered rb -> Discard rb n = (readAfter rb n, n).
Proof.
  intros Hwf Hpow Hn. unfold Discard, readAfter. destruct (Z.leb_spec n 0); [lia|].
  destruct (Z.ltb_spec n (Buffered rb)); [|lia]. rewrite wrapIndex_mod by done.
  destruct Hwf as [Hl Hps]. unfold Buffered in *. ringcase rb; [zb; lia|].
  destruct (Z.ltb_spec rp wp).
  - destruct (Z.eqb_spec rp wp); [lia|]. rewrite Z.mod_small by lia.
    destruct (Z.eqb_spec (rp + n) wp); [lia|done].
  - destruct (Z.eqb_spec ((rp + n) mod cp) wp) as [E|]; [|done]. exfalso.
    assert (n < cp - rp + wp) by (destruct (Z.eqb_spec rp wp); lia).
    destruct (Z.ltb_spec (rp + n) cp).
    + rewrite Z.mod_small in E by lia. lia.
    + assert ((rp + n) mod cp = rp + n - cp) as Hm
        by (symmetry; apply (Z.mod_unique_pos _ _ 1); lia).
      lia.
Qed.

Lemma growLoop_reaches c m :
  4 <= c -> m <= c * 2 -> m <= growLoop 4 c m /\ c <= growLoop 4 c m.
Proof.
  intros. unfold godiv. cbn [growLoop]. unfold godiv.
  repeat match goal with
  | |- context [(0 <? ?a) && (?a <? ?b)] =>
      destruct (Z.ltb_spec 0 a), (Z.ltb_spec a b); cbn [andb]
  end; Z.to_euclidean_division_equations; lia.
Qed.

Lemma calculateGrowth_ge rb m :
  0 <= capacity rb < m -> (capacity rb = 0 -> m <= 2 ^ 62) ->
  exists c, calculateGrowth rb m = Some c /\ m <= c.
Proof.
  intros Hc Hm. unfold calculateGrowth. unfold defaultRingCap, ringGrowThreshold.
  destruct (Z.eqb_spec (capacity rb) 0).
  - destruct (Z.leb_spec m 1024); [eauto|].
    destruct (CeilToPowerOfTwo_range m) as (k & -> & _ & Hk & _); eauto.
  - destruct (Z.leb_spec m (capacity rb * 2)); [|eauto with lia].
    destruct (Z.ltb_spec (capacity rb) (4 * 1024)); [eauto|].
    destruct (growLoop_reaches (capacity rb) m) as [? ?]; [lia..|].
    destruct (Z.ltb_spec 0 (growLoop 4 (capacity rb) m)); eauto with lia.
Qed.

Lemma place_empty bf cp p :
  zlen bf = cp -> 0 < zlen p <= cp -> placed (mkRing bf cp 0 0 true) p.
Proof.
  intros Hl Hp. unfold placed, place, contents. cbn. rewrite copy_at_eq by lia.
  destruct (Z.leb_spec (zlen p) (cp - 0)); [|lia]. cbn.
  rewrite ztake_le0 by lia. rewrite !Z.add_0_l. cbn [app]. eexists; split; [done|]. cbn.
  assert (Hlen : zlen (p ++ zdrop (zlen p) bf) = cp) by (rewrite zlen_app, zlen_zdrop; lia).
  destruct (Z.eqb_spec (zlen p) cp) as [Hc|Hc]; cbn.
  - split; [constructor; cbn; lia|]. split; [|done].
    rewrite ztake_le0, zdrop_le0, zdrop_ge, !app_nil_r by lia. done.
  - split; [constructor; cbn; lia|]. destruct (Z.ltb_spec 0 (zlen p)); [|lia]. split; [|done].
    rewrite zdrop_le0, ztake_app_le, ztake_ge by lia. done.
Qed.

(** Straight ring, the data fits behind the write position. *)
Lemma place_straight_head bf cp rp wp p :
  zlen bf = cp -> 0 <= rp < wp -> wp < cp -> 0 < zlen p <= cp - wp ->
  placed (mkRing bf cp rp wp false) p.
Proof.
  intros Hl Hr Hw Hp. unfold placed, place, contents. cbn.
  assert (Htw : zlen (ztake wp bf) = wp) by (apply zlen_ztake; lia).
  destruct (Z.leb_spec rp wp); [|lia]. destruct (Z.ltb_spec rp wp); [|lia].
  destruct (Z.leb_spec (zlen p) (cp - wp)); [|lia].
  rewrite <- (zdrop_ztake rp wp), copy_at_eq by lia. cbn. eexists; split; [done|]. cbn.
  pose proof (zlen_splice bf wp p ltac:(lia) ltac:(lia)) as Hs.
  destruct (Z.eqb_spec (wp + zlen p) cp); cbn.
  - split; [constructor; cbn; lia|]. destruct (Z.ltb_spec rp 0); [lia|]. split; [|done].
    rewrite (ztake_le0 0) by lia. rewrite zdrop_app_le, (zdrop_ge (_ + _)) by lia.
    by rewrite !app_nil_r.
  - split; [constructor; cbn; lia|]. destruct (Z.ltb_spec rp (wp + zlen p)); [|lia].
    split; [|done]. rewrite zdrop_app_le by lia. rewrite (zdrop_ztake rp wp) in * by lia.
    assert (Hz : zlen (ztake (wp - rp) (zdrop rp bf)) = wp - rp)
      by (rewrite zlen_ztake; rewrite ?zlen_zdrop; lia).
    rewrite ztake_app_ge, ztake_app_le, (ztake_ge _ p) by lia. done.
Qed.

(** Straight ring, the data wraps around the end. *)
Lemma place_straight_split bf cp rp wp p :
  zlen bf = cp -> 0 <= rp < wp -> wp < cp -> cp - wp < zlen p <= cp - wp + rp ->
  placed (mkRing bf cp rp wp false) p.
Proof.
  intros Hl Hr Hw Hp. unfold placed, place, contents. cbn.
  assert (Htw : zlen (ztake wp bf) = wp) by (apply zlen_ztake; lia).
  destruct (Z.leb_spec rp wp); [|lia]. destruct (Z.ltb_spec rp wp); [|lia].
  destruct (Z.leb_spec (zlen p) (cp - wp)); [lia|]. rewrite <- (zdrop_ztake rp wp) by lia.
  rewrite !zslice_Some by lia. cbn. rewrite Z.sub_0_r, (zdrop_le0 0) by lia.
  assert (Hf : zlen (ztake (cp - wp) p) = cp - wp) by (apply zlen_ztake; lia).
  rewrite copy_at_eq by lia. cbn. rewrite (zdrop_ge (wp + _)), app_nil_r by lia.
  assert (Hr' : zlen (zdrop (cp - wp) p) = zlen p - (cp - wp)) by (apply zlen_zdrop; lia).
  rewrite (ztake_ge (zlen p - (cp - wp))) by lia.
  rewrite gcopy_ge by (rewrite zlen_app; lia).
  destruct (Z.eqb_spec (zlen p - (cp - wp)) cp); [lia|].
  eexists; split; [done|]. cbn. split.
  { constructor; cbn; [|lia]. rewrite !zlen_app, !zlen_zdrop, ?zlen_app; rewrite ?zlen_app; lia. }
  destruct (Z.ltb_spec rp (zlen p - (cp - wp))); [lia|]. split; [|done].
  rewrite zdrop_app_ge, zdrop_zdrop by lia.
  replace (rp - _ + _) with rp by lia. rewrite zdrop_app_le by lia.
  rewrite ztake_app_le, (ztake_ge _ (zdrop (cp - wp) p)) by lia.
  rewrite <- !app_assoc. by rewrite ztake_zdrop.
Qed.

Lemma place_wrapped bf cp rp wp p :
  zlen bf = cp -> 0 <= wp < rp -> rp < cp -> 0 < zlen p <= rp - wp ->
  placed (mkRing bf cp rp wp false) p.
Proof.
  intros Hl Hr Hw Hp. unfold placed, place, contents. cbn.
  assert (Htw : zlen (ztake wp bf) = wp) by (apply zlen_ztake; lia).
  destruct (Z.leb_spec rp wp); [lia|]. destruct (Z.ltb_spec rp wp); [lia|].
  rewrite copy_at_eq by lia. cbn.
  pose proof (zlen_splice bf wp p ltac:(lia) ltac:(lia)) as Hs.
  eexists; split; [done|]. cbn. destruct (Z.eqb_spec (wp + zlen p) cp); [lia|]. cbn.
  split; [constructor; cbn; lia|]. destruct (Z.ltb_spec rp (wp + zlen p)); [lia|].
  split; [|done]. rewrite zdrop_app_ge, zdrop_app_ge, zdrop_zdrop by lia.
  replace (_ - _ - _ + _) with rp by lia. rewrite ztake_app_ge, ztake_app_le, (ztake_ge _ p) by lia.
  by rewrite <- app_assoc.
Qed.

Lemma place_spec rb p : wf rb -> 0 < zlen p <= Available rb -> placed rb p.
Proof.
  intros [Hl Hps] Hp. unfold Available in Hp. ringcase rb.
  - destruct Hps as [-> ->]. apply place_empty; [done|]. exact Hp.
  - destruct (Z.eqb_spec rp wp); [lia|]. destruct (Z.ltb_spec wp rp).
    + apply place_wrapped; lia.
    + destruct (Z.leb_spec (zlen p) (cp - wp)).
      * apply place_straight_head; lia.
      * apply place_straight_split; lia.
Qed.

Section GrowingFacts.
Context `{ByteSource}.

Lemma NewRing_spec c :
  c <= 2 ^ 62 ->
  exists rb, NewRing c = Some rb /\ wf rb /\ contents rb = [] /\
    (c <> 0 -> is_pow2 (capacity rb)) /\ c <= capacity rb.
Proof.
  intros Hc. unfold NewRing. destruct (Z.eqb_spec c 0) as [->|].
  - eexists; split; [done|]. split; [by constructor|]. done.
  - destruct (CeilToPowerOfTwo_range c Hc) as (k & -> & Hk & Hck & _). cbn.
    eexists; split; [done|]. split; [constructor; cbn; [apply source_len; lia|done]|].
    split; [done|]. split; [intros; exists k; cbn; lia|done].
Qed.

(** Growing keeps the contents, whatever memory the pool hands out. *)
Lemma grow_spec rb m c :
  wf rb -> calculateGrowth rb m = Some c -> Buffered rb < c ->
  exists rb', grow rb m = Some rb' /\ wf rb' /\ contents rb' = contents rb /\ capacity rb' = c.
Proof.
  intros Hwf Hc Hb. pose proof (Buffered_bounds _ Hwf). unfold grow. rewrite Hc. cbn.
  assert (Hs : zlen (source_get c) = c) by (apply source_len; lia).
  destruct (empty rb) eqn:He.
  - assert (HB0 : Buffered rb = 0).
    { rewrite Buffered_contents by done. unfold contents. by rewrite He. }
    unfold Read. rewrite He, HB0. destruct (Z.eqb_spec (zlen (source_get c)) 0); [lia|]. cbn.
    rewrite He. eexists; split; [done|]. split; [by constructor|]. unfold contents. cbn. by rewrite He.
  - pose proof (not_empty_Buffered _ Hwf He) as Hpos. rewrite Read_eq; [|done..|].
    2: { intros E. rewrite E in Hs. unfold zlen in Hs. cbn in Hs. lia. }
    pose proof (Buffered_contents _ Hwf) as HB. cbn.
    destruct (Z.ltb_spec 0 (Buffered rb)); [|lia]. eexists; split; [done|].
    split; [constructor; cbn; [by rewrite zlen_gcopy|lia]|]. cbn. split; [|done].
    revert HB. generalize (contents rb). intros q HB. unfold contents. cbn.
    destruct (Z.ltb_spec 0 (Buffered rb)); [|lia].
    rewrite Z.sub_0_r, zdrop_le0, gcopy_ge, ztake_app_le, ztake_ge by lia. done.
Qed.

Lemma ring_Write_spec rb p :
  wf rb -> (capacity rb = 0 -> zlen p <= 2 ^ 62) ->
  exists rb', Write rb p = Some (rb', zlen p) /\ wf rb' /\ contents rb' = contents rb ++ p /\
    (zlen p <= Available rb -> capacity rb' = capacity rb) /\
    (capacity rb = 0 -> 0 < zlen p <= defaultRingCap -> capacity rb' = defaultRingCap).
Proof.
  intros Hwf Hp. unfold Write. destruct (Z.eqb_spec (zlen p) 0) as [Hz|Hz].
  { rewrite Hz. apply zlen_zero in Hz as ->. exists rb. rewrite app_nil_r. split_and!; try done; lia. }
  pose proof (zlen_nonneg p). pose proof (Available_Buffered _ Hwf) as HA.
  pose proof (Buffered_bounds _ Hwf) as HB.
  destruct (Z.ltb_spec (Available rb) (zlen p)) as [Hlt|Hge].
  - destruct (calculateGrowth_ge rb (capacity rb + zlen p - Available rb)) as (c & Hc & Hle);
      [lia..|].
    destruct (grow_spec rb _ c Hwf Hc) as (rb1 & -> & Hwf1 & Hct & Hcap); [lia|]. cbn.
    destruct (place_spec rb1 p Hwf1) as (rb2 & -> & Hwf2 & Hct2 & Hcap2).
    { rewrite (Available_Buffered _ Hwf1), (Buffered_contents _ Hwf1), Hct, Hcap,
        <- (Buffered_contents _ Hwf). lia. }
    cbn. exists rb2. rewrite Hct2, Hct. split_and!; [done..|lia|]. intros Hc0 Hd.
    unfold calculateGrowth in Hc. rewrite Hc0 in *. cbn [Z.eqb] in Hc.
    destruct (Z.leb_spec (0 + zlen p - Available rb) defaultRingCap); [congruence|lia].
  - cbn. destruct (place_spec rb p Hwf) as (rb2 & -> & Hwf2 & Hct2 & Hcap2); [lia|].
    cbn. exists rb2. split_and!; try done; lia.
Qed.

Lemma ring_Peek_spec rb n :
  wf rb -> exists h t, Peek rb n = Some (h, t) /\
    h ++ t = if n <=? 0 then contents rb else ztake n (contents rb).
Proof.
  intros [Hl Hps]. unfold Peek, peekAll, contents, Buffered. ringcase rb.
  { do 2 eexists; split; [done|]. unfold ztake. by rewrite take_nil, Tauto.if_same. }
  destruct (Z.leb_spec n 0), (Z.ltb_spec rp wp).
  - rewrite zslice_Some by lia. cbn. do 2 eexists; split; [done|]. by rewrite app_nil_r.
  - rewrite (zslice_Some bf rp) by lia. cbn. rewrite (ztake_ge (zlen bf - rp)) by (rewrite zlen_zdrop; lia).
    destruct (Z.ltb_spec 0 wp).
    + rewrite zslice_Some by lia. cbn. do 2 eexists; split; [done|].
      by rewrite (zdrop_le0 0), Z.sub_0_r by lia.
    + do 2 eexists; split; [done|]. by rewrite (ztake_le0 wp) by lia.
  - destruct (Z.eqb_spec rp wp); [lia|]. rewrite zslice_Some by (zb; lia). cbn.
    do 2 eexists; split; [done|]. rewrite app_nil_r, ztake_ztake. f_equal. zb; lia.
  - assert (Hd : zlen (zdrop rp bf) = cp - rp) by (rewrite zlen_zdrop; lia).
    replace (if rp =? wp then cp else cp - rp + wp) with (cp - rp + wp) by (zb; lia).
    set (m := if _ <? n then _ else n). assert (Hm : m = Z.min n (cp - rp + wp)) by (unfold m; zb; lia).
    destruct (Z.leb_spec m (cp - rp)).
    + rewrite zslice_Some by lia. cbn. do 2 eexists; split; [done|].
      rewrite app_nil_r. destruct (Z.leb_spec n (cp - rp)).
      * rewrite ztake_app_le by lia. f_equal. lia.
      * rewrite (ztake_ge (rp + m - rp)) by lia.
        by rewrite (ztake_le0 wp), app_nil_r, (ztake_ge n) by lia.
    + rewrite !zslice_Some by lia. cbn. do 2 eexists; split; [done|].
      rewrite (ztake_ge (zlen bf - rp)), (zdrop_le0 0), ztake_app_ge, ztake_ztake by lia.
      do 2 f_equal. lia.
Qed.

Lemma ring_Bytes_spec rb : wf rb -> Bytes rb = Some (contents rb).
Proof.
  intros [Hl Hps]. unfold Bytes, contents. ringcase rb; [done|].
  destruct (Z.ltb_spec rp wp).
  - by rewrite zslice_Some by lia.
  - rewrite (zslice_Some bf rp) by lia. cbn. rewrite (ztake_ge (zlen bf - rp)) by (rewrite zlen_zdrop; lia).
    destruct (Z.ltb_spec 0 wp).
    + rewrite zslice_Some by lia. cbn. by rewrite (zdrop_le0 0), Z.sub_0_r by lia.
    + by rewrite (ztake_le0 wp), app_nil_r by lia.
Qed.

Lemma zdrop_cons_get {A} (l : list A) i x :
  zget l i = Some x -> 0 <= i -> zdrop i l = x :: zdrop (i + 1) l.
Proof.
  unfold zget, zdrop. intros E Hi. rewrite bool_decide_true in E by done.
  rewrite (drop_S _ _ _ E). do 2 f_equal. lia.
Qed.

Lemma ReadByte_spec rb :
  wf rb -> empty rb = false ->
  exists b rb', ReadByte rb = Some (rb', b, None) /\ wf rb' /\ capacity rb' = capacity rb /\
    contents rb = b :: contents rb'.
Proof.
  intros [Hl Hps] He. unfold ReadByte, contents. ringcase rb; [done|].
  destruct (zget_Some bf rp) as [b Hb]; [lia|]. rewrite Hb. cbn.
  pose proof (zdrop_cons_get _ _ _ Hb ltac:(lia)) as Hd. exists b. eexists. split; [done|].
  destruct (Z.eqb_spec (rp + 1) cp); cbn -[Z.eqb].
  - destruct (Z.eqb_spec 0 wp); cbn.
    + split; [by constructor|]. split; [done|]. destruct (Z.ltb_spec rp wp); [lia|].
      rewrite Hd, (zdrop_ge (rp + 1)), (ztake_le0 wp) by lia. done.
    + split; [constructor; cbn; lia|]. split; [done|].
      destruct (Z.ltb_spec rp wp); [lia|]. destruct (Z.ltb_spec 0 wp); [|lia].
      rewrite Hd, (zdrop_ge (rp + 1)), (zdrop_le0 0), Z.sub_0_r by lia. done.
  - destruct (Z.eqb_spec (rp + 1) wp); cbn.
    + split; [by constructor|]. split; [done|]. destruct (Z.ltb_spec rp wp); [|lia].
      replace (wp - rp) with 1 by lia. by rewrite Hd.
    + split; [constructor; cbn; lia|]. split; [done|].
      destruct (Z.ltb_spec rp wp), (Z.ltb_spec (rp + 1) wp); try lia.
      * rewrite Hd. unfold ztake. replace (Z.to_nat (wp - rp)) with (S (Z.to_nat (wp - (rp + 1)))) by lia.
        done.
      * by rewrite Hd.
Qed.
End GrowingFacts.

Section Refinement.
Context `{ByteSource}.

Lemma contents_nil rb : wf rb -> contents rb = [] -> empty rb = true.
Proof.
  intros Hwf Hc. destruct (empty rb) eqn:He; [done|].
  pose proof (not_empty_Buffered _ Hwf He). rewrite Buffered_contents, Hc in * by done.
  unfold zlen in *. cbn in *. lia.
Qed.

Lemma contents_empty rb : empty rb = true -> contents rb = [].
Proof. intros He. unfold contents. by rewrite He. Qed.

(** [Read] delivers the front of the contents and keeps the rest. *)
Lemma ring_Read_spec rb p :
  wf rb -> (empty rb = false -> is_pow2 (capacity rb)) -> p <> [] ->
  exists rb', Read rb p = Some (rb', gcopy p (contents rb), Z.min (zlen p) (zlen (contents rb)),
                            if empty rb then Some ErrRingEmpty else None) /\
    wf rb' /\ contents rb' = zdrop (zlen p) (contents rb) /\ capacity rb' = capacity rb.
Proof.
  intros Hwf Hpow Hp. pose proof (zlen_nonneg p). pose proof (Buffered_contents _ Hwf) as HB.
  assert (Hp' : zlen p <> 0) by (rewrite zlen_zero; done). destruct (empty rb) eqn:He.
  - rewrite (contents_empty _ He). unfold Read. rewrite He, (proj2 (Z.eqb_neq (zlen p) 0)) by done.
    change (zlen (@nil byte)) with 0. rewrite gcopy_nil, Z.min_r by lia.
    exists rb. split_and!; try done. rewrite contents_empty, zdrop_ge by (done || (unfold zlen; cbn; lia)). done.
  - rewrite Read_eq by done. pose proof (not_empty_Buffered _ Hwf He).
    destruct (readAfter_spec rb (Z.min (zlen p) (Buffered rb))) as (Hw & Hct & Hcap & _);
      [done|done|auto|lia|].
    eexists. rewrite <- HB. split_and!; [done..| |done]. rewrite Hct, HB.
    destruct (Z.leb_spec (zlen p) (zlen (contents rb))); [by rewrite Z.min_l by lia|].
    by rewrite Z.min_r, !zdrop_ge by lia.
Qed.

Lemma ring_Discard_spec rb n :
  wf rb -> (empty rb = false -> is_pow2 (capacity rb)) ->
  exists rb', Discard rb n = (rb', Z.max 0 (Z.min n (zlen (contents rb)))) /\
    wf rb' /\ contents rb' = zdrop n (contents rb) /\ capacity rb' = capacity rb.
Proof.
  intros Hwf Hpow. pose proof (Buffered_contents _ Hwf) as HB.
  pose proof (zlen_nonneg (contents rb)). destruct (Z.leb_spec n 0) as [Hn|Hn].
  { exists rb. unfold Discard. destruct (Z.leb_spec n 0); [|lia].
    rewrite Z.max_l, zdrop_le0 by lia. done. }
  rewrite Z.max_r by lia. destruct (Z.ltb_spec n (Buffered rb)) as [Hlt|Hge].
  - assert (He : empty rb = false).
    { destruct (empty rb) eqn:He; [|done]. rewrite contents_empty in HB by done.
      unfold zlen in HB; cbn in HB; lia. }
    rewrite (Discard_readAfter rb n Hwf (Hpow He) ltac:(lia)).
    destruct (readAfter_spec rb n) as (? & ? & ? & _); [auto..|lia|].
    eexists. rewrite Z.min_l by lia. done.
  - unfold Discard. destruct (Z.leb_spec n 0); [lia|].
    destruct (Z.ltb_spec n (Buffered rb)); [lia|]. rewrite Z.min_r, HB by lia.
    eexists; split; [done|]. split; [apply Reset_wf, Hwf|]. rewrite zdrop_ge by lia. done.
Qed.

Lemma ring_step_refines rb o :
  wf rb -> is_pow2 (capacity rb) -> zlen (fst (queue_step (contents rb) o)) <= capacity rb ->
  exists rb', ring_step rb o = Some (rb', snd (queue_step (contents rb) o)) /\
    wf rb' /\ capacity rb' = capacity rb /\ contents rb' = fst (queue_step (contents rb) o).
Proof.
  intros Hwf Hpow Hfit. pose proof (is_pow2_pos _ Hpow) as Hcpos.
  pose proof (Buffered_contents _ Hwf) as HB.
  destruct o as [p|n| |n|n| |]; cbn [ring_step queue_step fst snd] in *.
  - rewrite zlen_app in Hfit. pose proof (Available_Buffered _ Hwf).
    destruct (ring_Write_spec rb p Hwf) as (rb' & -> & ? & ? & Hc & _); [lia|]. eexists. split; [done|].
    rewrite Hc by lia. done.
  - destruct (Z.leb_spec n 0).
    { unfold Read. unfold zeros. replace (Z.to_nat n) with 0%nat by lia. eauto. }
    assert (Hz : zlen (zeros n) = n) by (apply zeros_zlen; lia).
    destruct (ring_Read_spec rb (zeros n) Hwf) as (rb' & -> & Hw & Hct & Hcap); [done| |].
    { rewrite <- zlen_zero. lia. }
    cbn [mbind option_bind]. rewrite read_prefix. rewrite Hz in *. exists rb'.
    destruct (empty rb) eqn:He; [rewrite (contents_empty _ He) in *|].
    + rewrite zdrop_ge in Hct by (unfold zlen; cbn; lia). done.
    + destruct (contents rb) eqn:Hq; [|done].
      by rewrite (contents_nil _ Hwf Hq) in He.
  - destruct (empty rb) eqn:He.
    { rewrite (contents_empty _ He). unfold ReadByte. rewrite He. cbn.
      eexists; split; [done|]. by rewrite contents_empty. }
    destruct (ReadByte_spec rb Hwf He) as (b & rb' & -> & ? & ? & ->). cbn. eauto.
  - destruct (Z.leb_spec n 0) as [Hn|Hn].
    { unfold Discard. destruct (Z.leb_spec n 0); [eauto|lia]. }
    destruct (ring_Discard_spec rb n Hwf) as (rb' & -> & Hw & Hct & Hcap); [done|].
    pose proof (zlen_nonneg (contents rb)). rewrite Z.max_r by lia. eauto.
  - destruct (ring_Peek_spec rb n Hwf) as (h & t & -> & Hp). cbn. rewrite Hp. eauto.
  - rewrite ring_Bytes_spec by done. cbn. eauto.
  - eexists; split; [done|]. split; [apply Reset_wf, Hwf|]. done.
Qed.

Lemma bounded_head c q os : bounded c q os -> zlen q <= c.
Proof. destruct os; cbn; tauto. Qed.

Lemma ring_run_refines os : forall rb,
  wf rb -> is_pow2 (capacity rb) -> bounded (capacity rb) (contents rb) os ->
  exists rb', ring_run rb os = Some (rb', snd (queue_run (contents rb) os)) /\
    wf rb' /\ capacity rb' = capacity rb /\ contents rb' = fst (queue_run (contents rb) os).
Proof.
  induction os as [|o os IH]; intros rb Hwf Hpow Hb; cbn [ring_run queue_run] in *; [eauto|].
  destruct Hb as [Hq Hb].
  destruct (ring_step_refines rb o Hwf Hpow) as (rb1 & -> & Hwf1 & Hcap1 & Hc1).
  { by eapply bounded_head. }
  cbn. destruct (queue_step (contents rb) o) as [q1 x]. cbn in *. subst q1.
  destruct (IH rb1 Hwf1) as (rb2 & -> & Hwf2 & Hcap2 & Hc2); [by rewrite Hcap1..|].
  cbn. destruct (queue_run (contents rb1) os). cbn in *. eexists; split; [done|].
  rewrite Hcap2. done.
Qed.
End Refinement.

Lemma WriteTo_sink rb out :
  wf rb -> is_pow2 (capacity rb) ->
  exists rb', WriteTo rb out = Some (rb', out ++ contents rb, zlen (contents rb), None) /\
    wf rb' /\ contents rb' = [] /\ capacity rb' = capacity rb.
Proof.
  intros [Hl Hps] Hpow. unfold WriteTo, contents at 1 2. ringcase rb.
  { eexists. rewrite app_nil_r. split; [done|]. split; [by constructor|done]. }
  destruct (Z.ltb_spec rp wp).
  - rewrite zslice_Some by lia. cbn [mbind option_bind wr sink].
    rewrite zlen_ztake by (rewrite ?zlen_zdrop; lia). cbn.
    destruct (Z.eqb_spec (rp + (wp - rp)) wp); [|lia].
    eexists; split; [done|]. split; [by constructor|done].
  - rewrite (zslice_Some bf rp) by lia. cbn [mbind option_bind wr sink].
    assert (Hd : zlen (zdrop rp bf) = cp - rp) by (rewrite zlen_zdrop; lia).
    rewrite (ztake_ge (zlen bf - rp)) by lia. rewrite Hd. cbn [orb].
    destruct (Z.ltb_spec (cp - rp) (cp - rp)); [lia|]. cbn.
    rewrite zslice_Some by lia. cbn [mbind option_bind wr sink].
    rewrite Z.sub_0_r, (zdrop_le0 0), zlen_ztake by lia. cbn.
    rewrite Z.eqb_refl, zlen_app, zlen_ztake, Hd, <- app_assoc by lia.
    eexists; split; [done|]. split; [by constructor|done].
Qed.

(** ** Properties *)

(** [Write] never panics and appends exactly the given bytes to what is
    buffered, growing if it must, on every well-formed ring and whatever the pool's
    memory holds. *)
Theorem ring_Write_appends `{ByteSource} rb p :
  wf rb -> zlen p <= 2 ^ 62 ->
  exists rb', Write rb p = Some (rb', zlen p) /\ wf rb' /\ contents rb' = contents rb ++ p.
Proof. intros Hwf Hp. destruct (ring_Write_spec rb p) as (rb' & ? & ? & ? & _); eauto. Qed.

Lemma ring_Write_appends_witness :
  exists rb', Write (mkRing [0; 0; 7; 8] 4 2 0 false) [1; 2; 3] = Some (rb', 3) /\ wf rb' /\
    contents rb' = [7; 8; 1; 2; 3].
Proof.
  apply (ring_Write_appends (mkRing [0; 0; 7; 8] 4 2 0 false) [1; 2; 3]).
  - constructor; cbn; [reflexivity|lia].
  - unfold zlen; cbn; lia.
Defined.

(** As long as the queue fits the capacity of a ring built by [NewRing], every
    sequence of [Write], [Read], [ReadByte], [Discard], [Peek], [Bytes] and [Reset]
    shows exactly what a byte queue shows, without a panic. *)
Theorem ring_refines_queue `{ByteSource} cap os :
  0 < cap <= 2 ^ 62 -> bounded cap [] os ->
  exists rb rb', NewRing cap = Some rb /\
    ring_run rb os = Some (rb', snd (queue_run [] os)) /\ contents rb' = fst (queue_run [] os).
Proof.
  intros Hc Hb. destruct (NewRing_spec cap) as (rb & Hn & Hwf & Hct & Hpow & Hle); [lia|].
  exists rb. assert (Hb' : bounded (capacity rb) (contents rb) os).
  { rewrite Hct. clear - Hb Hle. revert Hb. generalize (@nil Z). induction os as [|o os IH]; cbn.
    - intros q [? _]. split; [lia|done].
    - intros q [? ?]. split; [lia|]. by apply IH. }
  destruct (ring_run_refines os rb Hwf) as (rb' & Hr & _ & _ & Hc'); [apply Hpow; lia|done|].
  rewrite Hct in Hr, Hc'. eauto.
Qed.

Lemma ring_refines_queue_witness :
  exists rb rb', NewRing 4 = Some rb /\
    ring_run rb [OWrite [1; 2; 3]; ORead 2; OWrite [4; 5; 6]; ODiscard 1; OReadByte; OBytes] =
      Some (rb', snd (queue_run [] [OWrite [1; 2; 3]; ORead 2; OWrite [4; 5; 6]; ODiscard 1; OReadByte; OBytes])) /\
    contents rb' = fst (queue_run [] [OWrite [1; 2; 3]; ORead 2; OWrite [4; 5; 6]; ODiscard 1; OReadByte; OBytes]).
Proof.
  apply (ring_refines_queue 4 [OWrite [1; 2; 3]; ORead 2; OWrite [4; 5; 6]; ODiscard 1; OReadByte; OBytes]).
  - lia.
  - repeat (split; [vm_compute; discriminate|]). done.
Defined.

(** A 4 KB ring that grows past the doubling threshold gets a capacity of 5120,
    no power of two; the mask in [Discard] then moves the read position to a wrong
    place, and bytes that were to be skipped are delivered again. *)
Theorem ring_Discard_after_growth_wrong :
  (rb ← NewRing 4096;
   '(rb1, n) ← Write rb (replicate 4500 1);
   let '(rb2, k) := Discard rb1 1500 in
   Some (n, capacity rb1, Buffered rb1, k, Buffered rb2)) =
  Some (4500, 5120, 4500, 1500, 4024).
Proof. vm_compute. reflexivity. Qed.

(** [WriteByte] on a full ring of at least 4 KB asks for a capacity of 1, so the
    ring does not grow and the store panics. *)
Theorem ring_WriteByte_full_panics `{ByteSource} rb c :
  wf rb -> 4096 <= capacity rb -> IsFull rb = true -> WriteByte rb c = None.
Proof.
  intros Hwf Hcap Hfull. unfold IsFull in Hfull. apply andb_true_iff in Hfull as [Heq He].
  apply negb_true_iff in He. apply Z.eqb_eq in Heq.
  assert (HB : Buffered rb = capacity rb) by (unfold Buffered; rewrite Heq, Z.eqb_refl, He; done).
  unfold WriteByte. rewrite Available_Buffered, HB by done.
  destruct (Z.ltb_spec (capacity rb - capacity rb) 1); [|lia].
  assert (Hg : calculateGrowth rb 1 = Some (capacity rb)).
  { unfold calculateGrowth, ringGrowThreshold. cbn [growLoop].
    destruct (Z.eqb_spec (capacity rb) 0); [lia|]. destruct (Z.leb_spec 1 (capacity rb * 2)); [|lia].
    destruct (Z.ltb_spec (capacity rb) (4 * 1024)); [lia|].
    destruct (Z.ltb_spec (capacity rb) 1); [lia|]. rewrite andb_false_r.
    destruct (Z.ltb_spec 0 (capacity rb)); [done|lia]. }
  unfold grow. rewrite Hg. cbn [mbind option_bind]. rewrite Read_eq; [|done..|].
  2: { intros E. apply (f_equal zlen) in E. rewrite source_len in E by lia.
       unfold zlen in E; cbn in E; lia. }
  cbn. rewrite HB. unfold zset. cbn. rewrite zlen_gcopy, source_len by lia.
  rewrite bool_decide_false by lia. done.
Qed.

Lemma ring_WriteByte_full_panics_witness :
  WriteByte (mkRing (zeros 4096) 4096 0 0 false) 1 = None.
Proof.
  apply (ring_WriteByte_full_panics (mkRing (zeros 4096) 4096 0 0 false) 1).
  - constructor; cbn; [apply zeros_zlen|]; lia.
  - cbn; lia.
  - reflexivity.
Defined.

(** Reading from a reader at end of file turns an empty ring into one that
    reports itself full: [readFromOnce] clears the empty flag before it knows that
    any byte arrived. *)
Theorem ring_ReadFrom_nothing_fills `{ByteSource} rb :
  wf rb -> 512 <= capacity rb -> is_pow2 (capacity rb) -> empty rb = true ->
  exists rb', ReadFrom 1 rb (@nil byte) 0 = Some (Some (rb', [], 0, None)) /\
    IsFull rb' = true /\ Buffered rb' = capacity rb.
Proof.
  intros [Hl Hps] Hcap Hpow He. ringcase rb; [|done]. destruct Hps as [-> ->].
  cbn [ReadFrom]. unfold Available. cbn [readPos writePos empty capacity Z.eqb].
  unfold minReadSize. destruct (Z.ltb_spec cp 512); [lia|]. cbn [mbind option_bind].
  unfold readFromOnce, readInto. cbn [readPos writePos Z.leb Z.compare buf].
  rewrite zslice_Some by lia. cbn [mbind option_bind rd source_reader].
  rewrite copy_at_Some by lia. cbn [mbind option_bind].
  rewrite wrapIndex_mod by done. cbn. change (zlen (@nil Z)) with 0.
  rewrite Z.mod_0_l by lia. eexists; split; [done|]. done.
Qed.

Lemma ring_ReadFrom_nothing_fills_witness :
  exists rb', ReadFrom 1 (mkRing (zeros 1024) 1024 0 0 true) (@nil byte) 0 =
      Some (Some (rb', [], 0, None)) /\
    IsFull rb' = true /\ Buffered rb' = 1024.
Proof.
  apply (ring_ReadFrom_nothing_fills (mkRing (zeros 1024) 1024 0 0 true)).
  - constructor; cbn; [apply zeros_zlen; lia|done].
  - cbn; lia.
  - exists 10. cbn. lia.
  - reflexivity.
Defined.

(** A first short read is followed by a read into the front of the buffer, which is
    not where the write position stands: the second chunk is lost. *)
Theorem ring_ReadFrom_short_read_misplaces :
  ('(rb, _) ← Write (mkRing (zeros 1024) 1024 0 0 true) (replicate 100 9);
   let rb1 := fst (Discard rb 50) in
   out ← ReadFrom 3 rb1 [[1; 2]; [3; 4]] 0;
   '(rb2, _, n, _) ← out;
   Some (contents rb1, n, contents rb2)) =
  Some (replicate 50 9, 4, replicate 50 9 ++ [1; 2; 0; 0]).
Proof. vm_compute. reflexivity. Qed.
