(* ===== verification/LinkedList.v ===== *)
(** * LinkedList: the linked-list byte buffer (src/pkg/datastructs/buffer/linked_list.go)

    Nodes live in a store ([heap]) and are linked through pointers, as in the code;
    [popFront], [pushFront] and [pushBack] are the pointer manipulations, and every
    other method is built from them.  Dereferencing a dangling pointer is [None].
    Memory comes from and returns to a pool seen through the class [BytePool].
    [repr] relates a buffer to the list of its chunks; the refinement theorem shows
    that the buffer is a queue of bytes. *)
From stdpp Require Import base list option gmap.
From Stdlib Require Import ZArith Lia.
From S2P Require Import Prelude Num Pool.

(** ** Definitions *)

Definition minReadChunkSize : Z := 512.
Definition MaxInt32 : Z := 2147483647.

Abbreviation loc := positive (only parsing).

Record node := mkNode { data : slice; next : option loc }.
Definition length (n : node) : Z := slen (data n).

Record LinkedListBuffer := mkLL {
  head : option loc;
  tail : option loc;
  nodeCount : Z;
  byteCount : Z;
}.

Definition emptyLL : LinkedListBuffer := mkLL None None 0 0.

(** The store shared by the nodes, and the pool. *)
Record world (P : Type) := mkWorld { heap : gmap loc node; mem : P }.
Arguments mkWorld {P}. Arguments heap {P}. Arguments mem {P}.

Section Ops.
Context {P : Type} `{BytePool P}.

Definition setHeap (w : world P) (h : gmap loc node) : world P := mkWorld h (mem w).
(** [&node{data: d}] *)
Definition newNode (d : slice) (w : world P) : loc * world P :=
  let l := fresh (dom (heap w)) in (l, setHeap w (<[l := mkNode d None]> (heap w))).
Definition setData (l : loc) (d : slice) (w : world P) : option (world P) :=
  n ← heap w !! l; Some (setHeap w (<[l := mkNode d (next n)]> (heap w))).
Definition setNext (l : loc) (nx : option loc) (w : world P) : option (world P) :=
  n ← heap w !! l; Some (setHeap w (<[l := mkNode (data n) nx]> (heap w))).
(** [byteslice.Get] and [byteslice.Put] *)
Definition AllocNode (size : Z) (w : world P) : option (slice * world P) :=
  '(s, p) ← pget size (mem w); Some (s, mkWorld (heap w) p).
Definition FreeNode (s : slice) (w : world P) : option (world P) :=
  p ← pput s (mem w); Some (mkWorld (heap w) p).

Definition Len (ll : LinkedListBuffer) : Z := nodeCount ll.
Definition Buffered (ll : LinkedListBuffer) : Z := byteCount ll.
Definition IsEmpty (ll : LinkedListBuffer) : bool := bool_decide (head ll = None).

Definition popFront (ll : LinkedListBuffer) (w : world P)
    : option (option loc * LinkedListBuffer * world P) :=
  match head ll with
  | None => Some (None, ll, w)
  | Some front =>
      n ← heap w !! front;
      let tl := match next n with None => None | Some _ => tail ll end in
      w ← setNext front None w;
      Some (Some front, mkLL (next n) tl (nodeCount ll - 1) (byteCount ll - length n), w)
  end.

Definition pushFront (l : loc) (ll : LinkedListBuffer) (w : world P)
    : option (LinkedListBuffer * world P) :=
  w ← setNext l (head ll) w;
  n ← heap w !! l;
  Some (mkLL (Some l) (match head ll with None => Some l | Some _ => tail ll end)
             (nodeCount ll + 1) (byteCount ll + length n), w).

Definition pushBack (l : loc) (ll : LinkedListBuffer) (w : world P)
    : option (LinkedListBuffer * world P) :=
  '(hd, w) ← (match tail ll with
              | None => Some (Some l, w)
              | Some t => w ← setNext t (Some l) w; Some (head ll, w)
              end);
  w ← setNext l None w;
  n ← heap w !! l;
  Some (mkLL hd (Some l) (nodeCount ll + 1) (byteCount ll + length n), w).

(** [Read]: one round per popped node, so [nodeCount + 1] rounds are enough. *)
Fixpoint readLoop (fuel : nat) (ll : LinkedListBuffer) (w : world P) (p : list byte) (totalRead : Z)
    : option (LinkedListBuffer * world P * list byte * Z * option error) :=
  match fuel with
  | O => None
  | S f =>
      '(o, ll, w) ← popFront ll w;
      match o with
      | None => Some (ll, w, p, totalRead, if totalRead =? 0 then Some EOF else None)
      | Some l =>
          n ← heap w !! l;
          p ← copy_at p totalRead (sdata (data n));
          let copied := Z.min (zlen p - totalRead) (length n) in
          let totalRead := totalRead + copied in
          '(ll, w) ← (if copied <? length n then
                        w ← setData l (resliceFrom (data n) copied) w;
                        pushFront l ll w
                      else w ← FreeNode (data n) w; Some (ll, w));
          if totalRead =? zlen p then Some (ll, w, p, totalRead, None)
          else readLoop f ll w p totalRead
      end
  end.

Definition Read (ll : LinkedListBuffer) (w : world P) (p : list byte)
    : option (LinkedListBuffer * world P * list byte * Z * option error) :=
  if zlen p =? 0 then Some (ll, w, p, 0, None)
  else readLoop (S (Z.to_nat (nodeCount ll))) ll w p 0.

Definition Append (ll : LinkedListBuffer) (w : world P) (p : slice)
    : option (LinkedListBuffer * world P) :=
  if slen p =? 0 then Some (ll, w) else
  let '(l, w) := newNode p w in pushBack l ll w.

Definition Pop (ll : LinkedListBuffer) (w : world P)
    : option (option slice * LinkedListBuffer * world P) :=
  '(o, ll, w) ← popFront ll w;
  match o with
  | None => Some (None, ll, w)
  | Some l => n ← heap w !! l; Some (Some (data n), ll, w)
  end.

Definition copyOf (p : list byte) (w : world P) : option (slice * world P) :=
  '(b, w) ← AllocNode (zlen p) w;
  Some (mkSlice (gcopy (sdata b) p) (scap b), w).

Definition PushFront (ll : LinkedListBuffer) (w : world P) (p : list byte)
    : option (LinkedListBuffer * world P) :=
  if zlen p =? 0 then Some (ll, w) else
  '(b, w) ← copyOf p w;
  let '(l, w) := newNode b w in pushFront l ll w.

Definition PushBack (ll : LinkedListBuffer) (w : world P) (p : list byte)
    : option (LinkedListBuffer * world P) :=
  if zlen p =? 0 then Some (ll, w) else
  '(b, w) ← copyOf p w;
  let '(l, w) := newNode b w in pushBack l ll w.

(** The first loop of [collectBytes], over the slices given by the caller; the
    [bool] is the early return. *)
Fixpoint collectExisting (existing : list (list byte)) (maxBytes collected : Z)
    (result : list (list byte)) : option (list (list byte) * Z * bool) :=
  match existing with
  | [] => Some (result, collected, false)
  | b :: rest =>
      if zlen b =? 0 then collectExisting rest maxBytes collected result else
      let toTake := if maxBytes <? collected + zlen b then maxBytes - collected else zlen b in
      c ← zslice b 0 toTake;
      let result := result ++ [c] in
      let collected := collected + toTake in
      if collected =? maxBytes then Some (result, collected, true)
      else collectExisting rest maxBytes collected result
  end.

(** The second loop, along the nodes: at most [nodeCount] rounds, plus the end. *)
Fixpoint collectNodes (fuel : nat) (current : option loc) (w : world P) (maxBytes collected : Z)
    (result : list (list byte)) : option (list (list byte)) :=
  match fuel, current with
  | _, None => Some result
  | O, Some _ => None
  | S f, Some l =>
      n ← heap w !! l;
      let toTake := if maxBytes <? collected + length n then maxBytes - collected else length n in
      c ← zslice (sdata (data n)) 0 toTake;
      let result := result ++ [c] in
      let collected := collected + toTake in
      if collected =? maxBytes then Some result
      else collectNodes f (next n) w maxBytes collected result
  end.

Definition collectBytes (ll : LinkedListBuffer) (w : world P) (maxBytes : Z)
    (existing : list (list byte)) : option (list (list byte)) :=
  '(result, collected, stop) ← collectExisting existing maxBytes 0 [];
  if (stop : bool) then Some result
  else collectNodes (Z.to_nat (nodeCount ll)) (head ll) w maxBytes collected result.

Definition PeekWithBytes (ll : LinkedListBuffer) (w : world P) (maxBytes : Z)
    (existing : list (list byte)) : option (list (list byte) * option error) :=
  if (maxBytes <=? 0) || (maxBytes =? MaxInt32) then
    r ← collectBytes ll w MaxInt32 existing; Some (r, None)
  else
    let existingLen := foldl (fun t b => t + zlen b) 0 existing in
    if Buffered ll + existingLen <? maxBytes then Some ([], Some ErrShortBuffer)
    else r ← collectBytes ll w maxBytes existing; Some (r, None).

Definition Peek (ll : LinkedListBuffer) (w : world P) (maxBytes : Z)
    : option (list (list byte) * option error) :=
  if (maxBytes <=? 0) || (maxBytes =? MaxInt32) then
    r ← collectBytes ll w MaxInt32 []; Some (r, None)
  else if Buffered ll <? maxBytes then Some ([], Some ErrShortBuffer)
  else r ← collectBytes ll w maxBytes []; Some (r, None).

Fixpoint discardLoop (fuel : nat) (ll : LinkedListBuffer) (w : world P) (remaining discarded : Z)
    : option (LinkedListBuffer * world P * Z) :=
  match fuel with
  | O => None
  | S f =>
      if remaining <=? 0 then Some (ll, w, discarded) else
      '(o, ll, w) ← popFront ll w;
      match o with
      | None => Some (ll, w, discarded)
      | Some l =>
          n ← heap w !! l;
          if remaining <? length n then
            w ← setData l (resliceFrom (data n) remaining) w;
            '(ll, w) ← pushFront l ll w;
            Some (ll, w, discarded + remaining)
          else
            w ← FreeNode (data n) w;
            discardLoop f ll w (remaining - length n) (discarded + length n)
      end
  end.

(** The error result of [Discard] is always nil. *)
Definition Discard (ll : LinkedListBuffer) (w : world P) (n : Z)
    : option (LinkedListBuffer * world P * Z) :=
  if n <=? 0 then Some (ll, w, 0)
  else discardLoop (S (Z.to_nat (nodeCount ll))) ll w n 0.

(** [ReadFrom]: [Some None] means the fuel ran out before the reader ended. *)
Fixpoint ReadFrom {R} `{Reader R} (fuel : nat) (ll : LinkedListBuffer) (w : world P) (r : R) (total : Z)
    : option (option (LinkedListBuffer * world P * R * Z * option error)) :=
  match fuel with
  | O => Some None
  | S f =>
      '(b, w) ← AllocNode minReadChunkSize w;
      let '(bs, err, r) := rd r (slen b) in
      let total := total + zlen bs in
      let b := mkSlice bs (scap b) in
      match err with
      | Some e =>
          w ← FreeNode b w;
          Some (Some (ll, w, r, total, if bool_decide (e = EOF) then None else Some e))
      | None =>
          let '(l, w) := newNode b w in
          '(ll, w) ← pushBack l ll w;
          ReadFrom f ll w r total
      end
  end.

Fixpoint writeToLoop {W} `{Writer W} (fuel : nat) (ll : LinkedListBuffer) (w : world P) (out : W) (total : Z)
    : option (LinkedListBuffer * world P * W * Z * option error) :=
  match fuel with
  | O => None
  | S f =>
      '(o, ll, w) ← popFront ll w;
      match o with
      | None => Some (ll, w, out, total, None)
      | Some l =>
          n ← heap w !! l;
          let '(written, err, out) := wr out (sdata (data n)) in
          let total := total + written in
          match err with
          | Some e => Some (ll, w, out, total, Some e)
          | None =>
              if written <? length n then
                w ← setData l (resliceFrom (data n) written) w;
                '(ll, w) ← pushFront l ll w;
                Some (ll, w, out, total, Some ErrShortWrite)
              else
                w ← FreeNode (data n) w;
                writeToLoop f ll w out total
          end
      end
  end.

Definition WriteTo {W} `{Writer W} (ll : LinkedListBuffer) (w : world P) (out : W)
    : option (LinkedListBuffer * world P * W * Z * option error) :=
  writeToLoop (S (Z.to_nat (nodeCount ll))) ll w out 0.

Fixpoint resetLoop (fuel : nat) (ll : LinkedListBuffer) (w : world P) : option (world P) :=
  match fuel with
  | O => None
  | S f =>
      '(o, ll, w) ← popFront ll w;
      match o with
      | None => Some w
      | Some l => n ← heap w !! l; w ← FreeNode (data n) w; resetLoop f ll w
      end
  end.

Definition Reset (ll : LinkedListBuffer) (w : world P) : option (LinkedListBuffer * world P) :=
  w ← resetLoop (S (Z.to_nat (nodeCount ll))) ll w;
  Some (emptyLL, w).

(** ** Representation

    [chain h p xs]: the pointer [p] leads along the locations and chunks [xs]. *)

Fixpoint chain (h : gmap loc node) (p : option loc) (xs : list (loc * slice)) : Prop :=
  match xs with
  | [] => p = None
  | (l, s) :: xs => p = Some l /\ exists nx, h !! l = Some (mkNode s nx) /\ chain h nx xs
  end.

Definition bytesOf (xs : list (loc * slice)) : list byte := concat ((sdata ∘ snd) <$> xs).

(** The buffer [ll] is the chunk list [xs]: an acyclic chain from [head] that ends
    at [tail], whose length and bytes are the two counters; the pool is in order
    and can take every chunk back. *)
Record repr (ll : LinkedListBuffer) (w : world P) (xs : list (loc * slice)) : Prop := {
  repr_chain : chain (heap w) (head ll) xs;
  repr_nodup : NoDup xs.*1;
  repr_tail : tail ll = last xs.*1;
  repr_nodes : nodeCount ll = zlen xs;
  repr_bytes : byteCount ll = zlen (bytesOf xs);
  repr_pool : pinv (mem w);
  repr_acc : Forall (accepts ∘ snd) xs;
}.

(** ** Specification: a byte queue

    The operations of a client, what the buffer shows of each, and the transitions
    of a queue of bytes.  [LPop] removes some front part of the queue, the others
    are deterministic. *)

Inductive lop : Type :=
  | LAppend (s : slice) | LPushBack (p : list byte) | LPushFront (p : list byte) | LPop
  | LRead (n : Z) | LDiscard (n : Z) | LPeek (n : Z) | LReset.

Definition ll_step (ll : LinkedListBuffer) (w : world P) (o : lop)
    : option (LinkedListBuffer * world P * obs) :=
  match o with
  | LAppend s => '(ll, w) ← Append ll w s; Some (ll, w, Silent)
  | LPushBack p => '(ll, w) ← PushBack ll w p; Some (ll, w, Silent)
  | LPushFront p => '(ll, w) ← PushFront ll w p; Some (ll, w, Silent)
  | LPop => '(o, ll, w) ← Pop ll w;
      Some (ll, w, Data (match o with Some s => sdata s | None => [] end))
  | LRead n => '(ll, w, p, k, err) ← Read ll w (zeros n); Some (ll, w, observeRead err (ztake k p))
  | LDiscard n => '(ll, w, k) ← Discard ll w n; Some (ll, w, Count k)
  | LPeek n => '(cs, err) ← Peek ll w n; Some (ll, w, observeRead err (concat cs))
  | LReset => '(ll, w) ← Reset ll w; Some (ll, w, Silent)
  end.

Inductive lspec : list byte -> lop -> list byte -> obs -> Prop :=
  | spec_append q s : lspec q (LAppend s) (q ++ sdata s) Silent
  | spec_pushback q p : lspec q (LPushBack p) (q ++ p) Silent
  | spec_pushfront q p : lspec q (LPushFront p) (p ++ q) Silent
  | spec_pop d q : lspec (d ++ q) LPop q (Data d)
  | spec_read0 q n : n <= 0 -> lspec q (LRead n) q (Data [])
  | spec_read_eof n : 0 < n -> lspec [] (LRead n) [] (Fail EOF)
  | spec_read q n : 0 < n -> q <> [] -> lspec q (LRead n) (zdrop n q) (Data (ztake n q))
  | spec_discard q n : lspec q (LDiscard n) (zdrop n q) (Count (Z.max 0 (Z.min n (zlen q))))
  | spec_peek_all q n : n <= 0 \/ n = MaxInt32 -> lspec q (LPeek n) q (Data (ztake MaxInt32 q))
  | spec_peek q n : 0 < n <= zlen q -> n <> MaxInt32 -> lspec q (LPeek n) q (Data (ztake n q))
  | spec_peek_short q n : 0 < n -> n <> MaxInt32 -> zlen q < n ->
      lspec q (LPeek n) q (Fail ErrShortBuffer)
  | spec_reset q : lspec q LReset [] Silent.

Fixpoint ll_run (ll : LinkedListBuffer) (w : world P) (os : list lop)
    : option (LinkedListBuffer * world P * list obs) :=
  match os with
  | [] => Some (ll, w, [])
  | o :: os =>
      '(ll, w, x) ← ll_step ll w o; '(ll, w, xs) ← ll_run ll w os; Some (ll, w, x :: xs)
  end.

Inductive lspec_run : list byte -> list lop -> list byte -> list obs -> Prop :=
  | spec_done q : lspec_run q [] q []
  | spec_more q o q1 x os q2 xs :
      lspec q o q1 x -> lspec_run q1 os q2 xs -> lspec_run q (o :: os) q2 (x :: xs).

(** Slice lengths fit an [int]. *)
Definition small (o : lop) : Prop :=
  match o with LPushBack p | LPushFront p => zlen p < 2 ^ 63 | _ => True end.
End Ops.

(** ** Lemmas: the pointer operations *)

Section PointerFacts.
Context {P : Type} `{BytePool P}.

Lemma chain_insert h p xs l n : l ∉ xs.*1 -> chain h p xs -> chain (<[l := n]> h) p xs.
Proof.
  revert p. induction xs as [|[l' s] xs IH]; intros p Hl; [done|]. cbn in *.
  apply not_elem_of_cons in Hl as [Hne Hl]. intros (-> & nx & Hn & Hc).
  split; [done|]. exists nx. by rewrite lookup_insert_ne by done; eauto.
Qed.

Lemma chain_dom h p xs l : chain h p xs -> l ∈ xs.*1 -> l ∈ dom h.
Proof.
  revert p. induction xs as [|[l' s] xs IH]; intros p Hc Hl; [by apply elem_of_nil in Hl|].
  cbn in *. destruct Hc as (_ & nx & Hn & Hc). apply elem_of_cons in Hl as [->|Hl]; [|eauto].
  apply elem_of_dom. eauto.
Qed.

(** Linking a fresh node behind the last one. *)
Lemma chain_snoc h p xs t l s :
  chain h p xs -> NoDup xs.*1 -> l ∉ xs.*1 -> last xs.*1 = Some t ->
  forall nt, h !! t = Some nt ->
  chain (<[l := mkNode s None]> (<[t := mkNode (data nt) (Some l)]> h)) p (xs ++ [(l, s)]).
Proof.
  revert p. induction xs as [|[l' s'] xs IH]; intros p Hc Hnd Hl Ht nt Hnt; [done|].
  destruct Hc as (-> & nx & Hn & Hc). cbn [fmap list_fmap fst] in *.
  apply not_elem_of_cons in Hl as [Hne Hl]. apply NoDup_cons in Hnd as [Hni Hnd].
  split; [done|]. destruct xs as [|[l2 s2] xs].
  - cbn in Ht. simplify_eq. exists (Some l). cbn [data].
    rewrite lookup_insert_ne by done. rewrite lookup_insert_eq. split; [done|].
    cbn. split; [done|]. exists None. by rewrite lookup_insert_eq.
  - assert (Htl : t <> l').
    { intros ->. apply Hni. by apply last_Some_elem_of. }
    exists nx. rewrite !lookup_insert_ne by done. split; [done|]. by apply IH.
Qed.

Lemma bytesOf_cons l s xs : bytesOf ((l, s) :: xs) = sdata s ++ bytesOf xs.
Proof. done. Qed.

Lemma bytesOf_app xs ys : bytesOf (xs ++ ys) = bytesOf xs ++ bytesOf ys.
Proof. unfold bytesOf. by rewrite fmap_app, concat_app. Qed.

Lemma bytesOf_one l s : bytesOf [(l, s)] = sdata s.
Proof. unfold bytesOf. cbn. by rewrite app_nil_r. Qed.

Lemma repr_empty h (p : P) : pinv p -> repr emptyLL (mkWorld h p) [].
Proof. intros. constructor; try done. apply NoDup_nil_2. Qed.

Lemma popFront_nil ll (w : world P) : repr ll w [] -> popFront ll w = Some (None, ll, w).
Proof. intros [Hc _ _ _ _ _ _]. unfold popFront. by rewrite Hc. Qed.

Lemma popFront_cons ll (w : world P) l s xs :
  repr ll w ((l, s) :: xs) ->
  exists ll' w', popFront ll w = Some (Some l, ll', w') /\ repr ll' w' xs /\
    heap w' !! l = Some (mkNode s None) /\ (l ∉ xs.*1) /\ accepts s.
Proof.
  intros [(Hh & nx & Hn & Hc) Hnd Ht Hnc Hbc Hp Ha]. unfold popFront, setNext. rewrite Hh, Hn.
  cbn [mbind option_bind data next]. apply NoDup_cons in Hnd as [Hl Hnd].
  apply Forall_cons in Ha as [Has Ha].
  do 2 eexists. split; [done|]. split_and!; [|cbn; by rewrite lookup_insert_eq|done|done].
  constructor; cbn [head tail nodeCount byteCount heap mem setHeap]; try done.
  - by apply chain_insert.
  - destruct xs as [|[l' s'] xs]; cbn in Hc; [by rewrite Hc|]. destruct Hc as (-> & _). done.
  - rewrite Hnc. unfold zlen. cbn [Datatypes.length]. lia.
  - rewrite Hbc, bytesOf_cons, zlen_app. unfold length, slen. cbn. lia.
Qed.

Lemma pushFront_spec ll (w : world P) l n xs :
  repr ll w xs -> heap w !! l = Some n -> l ∉ xs.*1 -> accepts (data n) ->
  exists ll' w', pushFront l ll w = Some (ll', w') /\ repr ll' w' ((l, data n) :: xs).
Proof.
  intros [Hc Hnd Ht Hnc Hbc Hp Ha] Hn Hl Hacc. unfold pushFront, setNext. rewrite Hn.
  cbn [mbind option_bind setHeap heap]. rewrite lookup_insert_eq. cbn [mbind option_bind].
  do 2 eexists. split; [done|].
  constructor; cbn [head tail nodeCount byteCount heap mem setHeap fmap list_fmap fst].
  - split; [done|]. eexists. rewrite lookup_insert_eq. split; [done|]. by apply chain_insert.
  - by constructor.
  - destruct xs as [|[l' s'] xs]; cbn in Hc; [by rewrite Hc|]. destruct Hc as (-> & _). done.
  - rewrite Hnc. unfold zlen. cbn [Datatypes.length]. lia.
  - rewrite Hbc, bytesOf_cons, zlen_app. unfold length, slen. cbn. lia.
  - done.
  - by constructor.
Qed.

Lemma last_fst_lookup h p xs t :
  chain h p xs -> last xs.*1 = Some t -> is_Some (h !! t).
Proof.
  intros Hc Ht. apply elem_of_dom. eapply chain_dom; [done|]. by apply last_Some_elem_of.
Qed.

Lemma pushBack_spec ll (w : world P) l n xs :
  repr ll w xs -> heap w !! l = Some n -> l ∉ xs.*1 -> accepts (data n) ->
  exists ll' w', pushBack l ll w = Some (ll', w') /\ repr ll' w' (xs ++ [(l, data n)]).
Proof.
  intros [Hc Hnd Ht Hnc Hbc Hp Ha] Hn Hl Hacc. unfold pushBack.
  assert (Hfin : forall h' hd, chain h' hd (xs ++ [(l, data n)]) ->
    repr (mkLL hd (Some l) (nodeCount ll + 1) (byteCount ll + length n))
         (mkWorld h' (mem w)) (xs ++ [(l, data n)])).
  { intros h' hd Hch. constructor; cbn [head tail nodeCount byteCount heap mem].
    - done.
    - rewrite fmap_app. apply NoDup_app. split_and!; [done| |apply NoDup_singleton].
      intros x Hx Hx'. apply list_elem_of_singleton in Hx'. by subst.
    - rewrite fmap_app. cbn [fmap list_fmap fst]. by rewrite last_snoc.
    - rewrite Hnc, zlen_app. unfold zlen at 3. cbn [Datatypes.length]. lia.
    - rewrite Hbc, bytesOf_app, zlen_app, bytesOf_one. done.
    - done.
    - apply Forall_app. split; [done|]. by constructor. }
  rewrite Ht. destruct (last xs.*1) as [t|] eqn:El.
  - destruct (last_fst_lookup _ _ _ _ Hc El) as [nt Hnt].
    assert (Htl : l <> t) by (intros ->; apply Hl; by apply last_Some_elem_of).
    unfold setNext. rewrite Hnt. cbn [mbind option_bind setHeap heap].
    rewrite lookup_insert_ne, Hn by done. cbn [mbind option_bind setHeap heap].
    rewrite lookup_insert_eq. cbn [mbind option_bind]. do 2 eexists; split; [done|].
    apply Hfin. by apply chain_snoc.
  - apply last_None in El. apply fmap_nil_inv in El as ->. cbn in Hc.
    unfold setNext. cbn [mbind option_bind]. rewrite Hn. cbn [mbind option_bind setHeap heap].
    rewrite lookup_insert_eq. cbn [mbind option_bind]. do 2 eexists; split; [done|].
    apply Hfin. split; [done|]. eexists. by rewrite lookup_insert_eq.
Qed.

Lemma setData_spec ll (w : world P) l n d xs :
  repr ll w xs -> heap w !! l = Some n -> l ∉ xs.*1 ->
  exists w', setData l d w = Some w' /\ repr ll w' xs /\ heap w' !! l = Some (mkNode d (next n)).
Proof.
  intros [Hc Hnd Ht Hnc Hbc Hp Ha] Hn Hl. unfold setData. rewrite Hn. cbn [mbind option_bind].
  eexists; split; [done|]. split; [|cbn; by rewrite lookup_insert_eq].
  constructor; try done. cbn. by apply chain_insert.
Qed.

Lemma newNode_spec ll (w : world P) d xs l w' :
  repr ll w xs -> newNode d w = (l, w') ->
  repr ll w' xs /\ heap w' !! l = Some (mkNode d None) /\ l ∉ xs.*1.
Proof.
  intros [Hc Hnd Ht Hnc Hbc Hp Ha] E. unfold newNode in E. simplify_eq.
  assert (Hl : fresh (dom (heap w)) ∉ xs.*1).
  { intros Hin. exact (is_fresh _ (chain_dom _ _ _ _ Hc Hin)). }
  split_and!; [|cbn; by rewrite lookup_insert_eq|done].
  constructor; try done. cbn. by apply chain_insert.
Qed.

Lemma FreeNode_spec ll (w : world P) s xs :
  repr ll w xs -> accepts s -> exists w', FreeNode s w = Some w' /\ repr ll w' xs.
Proof.
  intros [Hc Hnd Ht Hnc Hbc Hp Ha] Hs. unfold FreeNode.
  destruct (pput_ok s (mem w) Hp Hs) as (p' & -> & Hp'). cbn. eexists; split; [done|]. by constructor.
Qed.

Lemma AllocNode_spec ll (w : world P) n xs :
  repr ll w xs -> 0 <= n < 2 ^ 63 ->
  exists s w', AllocNode n w = Some (s, w') /\ repr ll w' xs /\ slen s = n /\ accepts s.
Proof.
  intros [Hc Hnd Ht Hnc Hbc Hp Ha] Hs. unfold AllocNode.
  destruct (pget_ok n (mem w) Hp Hs) as (s & p' & -> & Hp' & ? & ?). cbn.
  do 2 eexists; split; [done|]. split_and!; [by constructor|done..].
Qed.

Lemma copyOf_spec ll (w : world P) p xs :
  repr ll w xs -> zlen p < 2 ^ 63 ->
  exists s w', copyOf p w = Some (s, w') /\ repr ll w' xs /\ sdata s = p /\ accepts s.
Proof.
  intros Hr Hp. pose proof (zlen_nonneg p). unfold copyOf.
  destruct (AllocNode_spec ll w (zlen p) xs Hr) as (s & w' & -> & Hr' & Hs & Ha); [lia|]. cbn.
  do 2 eexists; split; [done|]. split_and!; [done| |by apply accepts_cap]. cbn.
  unfold slen in Hs. rewrite gcopy_ge, zdrop_ge by lia. apply app_nil_r.
Qed.
End PointerFacts.

(** ** Lemmas: the methods *)

Section MethodFacts.
Context {P : Type} `{BytePool P}.

Lemma capped_eq (m c n : Z) : (if m <? c + n then m - c else n) = Z.min n (m - c).
Proof. zb; lia. Qed.

Lemma collectExisting_spec existing : forall maxBytes collected result,
  0 <= collected < maxBytes ->
  exists r, collectExisting existing maxBytes collected result =
      Some (r, Z.min (collected + zlen (concat existing)) maxBytes,
            maxBytes <=? collected + zlen (concat existing)) /\
    concat r = concat result ++ ztake (maxBytes - collected) (concat existing).
Proof.
  induction existing as [|b rest IH]; intros m c result Hc; cbn [collectExisting concat].
  - exists result. rewrite ztake_ge, app_nil_r by (unfold zlen; cbn; lia). unfold zlen; cbn.
    split; [|done]. rewrite Z.add_0_r, Z.min_l by lia. zb; [lia|done].
  - rewrite zlen_app. pose proof (zlen_nonneg b). pose proof (zlen_nonneg (concat rest)).
    destruct (Z.eqb_spec (zlen b) 0) as [E|E].
    { rewrite E. apply zlen_zero in E as ->. rewrite Z.add_0_l. by apply IH. }
    rewrite capped_eq, zslice_Some, (zdrop_le0 0), Z.sub_0_r by lia. cbn [mbind option_bind].
    destruct (Z.eqb_spec (c + Z.min (zlen b) (m - c)) m).
    + eexists; split; [f_equal; f_equal; [f_equal|]; [lia|zb; [done|lia]]|].
      rewrite concat_app. cbn. rewrite app_nil_r, ztake_app_le by lia. do 2 f_equal. lia.
    + rewrite Z.min_l by lia. rewrite (ztake_ge (zlen b) b) by lia.
      destruct (IH m (c + zlen b) (result ++ [b])) as (r & -> & Hr); [lia|].
      eexists; split; [by rewrite Z.add_assoc|]. rewrite Hr, concat_app. cbn.
      rewrite app_nil_r, <- app_assoc. f_equal. rewrite ztake_app_ge by lia. do 2 f_equal. lia.
Qed.

Lemma collectNodes_spec (w : world P) xs : forall fuel cur m c result,
  chain (heap w) cur xs -> (Datatypes.length xs <= fuel)%nat -> 0 <= c < m ->
  exists r, collectNodes fuel cur w m c result = Some r /\
    concat r = concat result ++ ztake (m - c) (bytesOf xs).
Proof.
  induction xs as [|[l s] xs IH]; intros fuel cur m c result Hch Hf Hc.
  - cbn in Hch. subst cur. exists result. destruct fuel; cbn;
      (split; [done|]; rewrite ztake_ge, app_nil_r by (unfold zlen; cbn; lia); done).
  - destruct Hch as (-> & nx & Hn & Hch). destruct fuel as [|f]; [cbn in Hf; lia|].
    cbn [collectNodes]. rewrite Hn. cbn [mbind option_bind data next]. unfold length, slen. cbn [data].
    pose proof (zlen_nonneg (sdata s)).
    rewrite capped_eq, zslice_Some, (zdrop_le0 0), Z.sub_0_r by lia. cbn [mbind option_bind].
    rewrite bytesOf_cons. destruct (Z.eqb_spec (c + Z.min (zlen (sdata s)) (m - c)) m).
    + eexists; split; [done|]. rewrite concat_app. cbn.
      rewrite app_nil_r, ztake_app_le by lia. do 2 f_equal. lia.
    + rewrite Z.min_l by lia. rewrite (ztake_ge (zlen (sdata s)) (sdata s)) by lia.
      destruct (IH f nx m (c + zlen (sdata s)) (result ++ [sdata s])) as (r & -> & Hr);
        [done|cbn in Hf; lia|lia|].
      eexists; split; [done|]. rewrite Hr, concat_app. cbn.
      rewrite app_nil_r, <- app_assoc. f_equal. rewrite ztake_app_ge by lia. do 2 f_equal. lia.
Qed.

Lemma collectBytes_spec ll (w : world P) xs m existing :
  repr ll w xs -> 0 < m ->
  exists r, collectBytes ll w m existing = Some r /\
    concat r = ztake m (concat existing ++ bytesOf xs).
Proof.
  intros Hr Hm. unfold collectBytes.
  destruct (collectExisting_spec existing m 0 []) as (r & -> & Hc); [lia|].
  cbn [mbind option_bind]. rewrite Z.add_0_l, Z.sub_0_r in *. cbn in Hc.
  destruct (Z.leb_spec m (zlen (concat existing))).
  { exists r. split; [done|]. by rewrite Hc, ztake_app_le by lia. }
  rewrite Z.min_l by lia. pose proof (zlen_nonneg (concat existing)).
  destruct (collectNodes_spec w xs (Z.to_nat (nodeCount ll)) (head ll) m (zlen (concat existing)) r)
    as (r' & -> & Hr'); [apply Hr|rewrite (repr_nodes _ _ _ Hr); unfold zlen; lia|lia|].
  exists r'. split; [done|]. rewrite Hr', Hc, (ztake_ge m) by lia.
  by rewrite ztake_app_ge by lia.
Qed.

Lemma Append_spec ll (w : world P) xs s :
  repr ll w xs -> accepts s ->
  exists ll' w' xs', Append ll w s = Some (ll', w') /\ repr ll' w' xs' /\
    bytesOf xs' = bytesOf xs ++ sdata s.
Proof.
  intros Hr Ha. unfold Append. destruct (Z.eqb_spec (slen s) 0) as [E|E].
  { apply zlen_zero in E. exists ll, w, xs. by rewrite E, app_nil_r. }
  destruct (newNode s w) as [l w1] eqn:En.
  destruct (newNode_spec ll w s xs l w1 Hr En) as (Hr1 & Hl & Hni).
  destruct (pushBack_spec ll w1 l _ xs Hr1 Hl Hni Ha) as (ll2 & w2 & -> & Hr2).
  do 3 eexists. split_and!; [done|done|]. by rewrite bytesOf_app, bytesOf_one.
Qed.

Lemma PushBack_spec ll (w : world P) xs p :
  repr ll w xs -> zlen p < 2 ^ 63 ->
  exists ll' w' xs', PushBack ll w p = Some (ll', w') /\ repr ll' w' xs' /\
    bytesOf xs' = bytesOf xs ++ p.
Proof.
  intros Hr Hp. unfold PushBack. destruct (Z.eqb_spec (zlen p) 0) as [E|E].
  { apply zlen_zero in E as ->. exists ll, w, xs. by rewrite app_nil_r. }
  destruct (copyOf_spec ll w p xs Hr Hp) as (s & w0 & -> & Hr0 & Hs & Ha). cbn [mbind option_bind].
  destruct (newNode s w0) as [l w1] eqn:En.
  destruct (newNode_spec ll w0 s xs l w1 Hr0 En) as (Hr1 & Hl & Hni).
  destruct (pushBack_spec ll w1 l _ xs Hr1 Hl Hni Ha) as (ll2 & w2 & -> & Hr2).
  do 3 eexists. split_and!; [done|done|]. by rewrite bytesOf_app, bytesOf_one, <- Hs.
Qed.

Lemma PushFront_spec ll (w : world P) xs p :
  repr ll w xs -> zlen p < 2 ^ 63 ->
  exists ll' w' xs', PushFront ll w p = Some (ll', w') /\ repr ll' w' xs' /\
    bytesOf xs' = p ++ bytesOf xs.
Proof.
  intros Hr Hp. unfold PushFront. destruct (Z.eqb_spec (zlen p) 0) as [E|E].
  { apply zlen_zero in E as ->. by exists ll, w, xs. }
  destruct (copyOf_spec ll w p xs Hr Hp) as (s & w0 & -> & Hr0 & Hs & Ha). cbn [mbind option_bind].
  destruct (newNode s w0) as [l w1] eqn:En.
  destruct (newNode_spec ll w0 s xs l w1 Hr0 En) as (Hr1 & Hl & Hni).
  destruct (pushFront_spec ll w1 l _ xs Hr1 Hl Hni Ha) as (ll2 & w2 & -> & Hr2).
  do 3 eexists. split_and!; [done|done|]. by rewrite bytesOf_cons, <- Hs.
Qed.

Lemma Pop_spec ll (w : world P) xs :
  repr ll w xs ->
  exists ll' w', Pop ll w = Some (snd <$> list.head xs, ll', w') /\ repr ll' w' (list.tail xs).
Proof.
  intros Hr. unfold Pop. destruct xs as [|[l s] xs].
  - rewrite (popFront_nil ll w Hr). eauto.
  - destruct (popFront_cons ll w l s xs Hr) as (ll' & w' & -> & Hr' & Hl & _).
    cbn [mbind option_bind]. rewrite Hl. cbn. eauto.
Qed.

Lemma Reset_spec ll (w : world P) xs :
  repr ll w xs -> exists w', Reset ll w = Some (emptyLL, w') /\ repr emptyLL w' [].
Proof.
  intros Hr. unfold Reset. rewrite (repr_nodes _ _ _ Hr). unfold zlen. rewrite Nat2Z.id.
  enough (exists w', resetLoop (S (Datatypes.length xs)) ll w = Some w' /\ pinv (mem w'))
    as (w' & -> & Hp).
  { exists w'. split; [done|]. destruct w'. by apply repr_empty. }
  revert ll w Hr. induction xs as [|[l s] xs IH]; intros ll w Hr; cbn [resetLoop Datatypes.length].
  - rewrite (popFront_nil ll w Hr). eexists; split; [done|]. apply Hr.
  - destruct (popFront_cons ll w l s xs Hr) as (ll1 & w1 & -> & Hr1 & Hl & Hni & Ha).
    cbn [mbind option_bind]. rewrite Hl. cbn [mbind option_bind data].
    destruct (FreeNode_spec ll1 w1 s xs Hr1 Ha) as (w2 & -> & Hr2). cbn [mbind option_bind].
    by apply (IH ll1 w2).
Qed.
End MethodFacts.

(** ** Lemmas: partial consumption

    [Read] and [Discard] may cut the front chunk; the pool must then accept any
    slice. *)

Section CutFacts.
Context {P : Type} `{BytePool P}.
Hypothesis accepts_all : forall s, accepts s.

Lemma cut_spec ll (w : world P) xs l s k :
  repr ll w xs -> heap w !! l = Some (mkNode s None) -> l ∉ xs.*1 ->
  exists ll' w', (w ← setData l (resliceFrom s k) w; pushFront l ll w) = Some (ll', w') /\
    repr ll' w' ((l, resliceFrom s k) :: xs).
Proof.
  intros Hr Hl Hni.
  destruct (setData_spec ll w l _ (resliceFrom s k) xs Hr Hl Hni) as (w1 & -> & Hr1 & Hl1).
  cbn [mbind option_bind]. by apply (pushFront_spec ll w1 l _ xs Hr1 Hl1 Hni).
Qed.

Lemma readLoop_spec xs : forall fuel ll (w : world P) p t,
  repr ll w xs -> (Datatypes.length xs < fuel)%nat -> 0 <= t < zlen p ->
  exists ll' w' xs',
    readLoop fuel ll w p t =
      Some (ll', w', ztake t p ++ gcopy (zdrop t p) (bytesOf xs),
            t + Z.min (zlen p - t) (zlen (bytesOf xs)),
            if t + Z.min (zlen p - t) (zlen (bytesOf xs)) =? 0 then Some EOF else None) /\
    repr ll' w' xs' /\ bytesOf xs' = zdrop (zlen p - t) (bytesOf xs).
Proof.
  induction xs as [|[l s] xs IH]; intros fuel ll w p t Hr Hf Ht;
    destruct fuel as [|f]; try (cbn in Hf; lia); cbn [readLoop].
  - rewrite (popFront_nil ll w Hr). exists ll, w, [].
    change (bytesOf []) with (@nil byte). change (zlen (@nil byte)) with 0.
    rewrite Z.min_r, Z.add_0_r, gcopy_nil, ztake_zdrop by lia. split_and!; [done|done|].
    by rewrite zdrop_ge by (change (zlen (@nil byte)) with 0; lia).
  - destruct (popFront_cons ll w l s xs Hr) as (ll1 & w1 & -> & Hr1 & Hl & Hni & Ha).
    cbn [mbind option_bind]. rewrite Hl. cbn [mbind option_bind data].
    rewrite copy_at_Some by lia. cbn [mbind option_bind].
    set (p1 := ztake t p ++ gcopy (zdrop t p) (sdata s)).
    assert (Hp1 : zlen p1 = zlen p).
    { unfold p1. rewrite zlen_app, zlen_gcopy, zlen_ztake, zlen_zdrop by lia. lia. }
    rewrite Hp1. unfold length, slen. cbn [data]. rewrite bytesOf_cons, zlen_app.
    pose proof (zlen_nonneg (sdata s)). pose proof (zlen_nonneg (bytesOf xs)).
    destruct (Z.ltb_spec (Z.min (zlen p - t) (zlen (sdata s))) (zlen (sdata s))).
    + rewrite Z.min_l by lia. edestruct cut_spec as (ll2 & w2 & -> & Hr2); [done..|].
      cbn [mbind option_bind].
      rewrite (proj2 (Z.eqb_eq (t + (zlen p - t)) (zlen p))) by lia.
      exists ll2, w2, ((l, resliceFrom s (zlen p - t)) :: xs). rewrite Z.min_l by lia.
      rewrite (proj2 (Z.eqb_neq (t + (zlen p - t)) 0)) by lia.
      split_and!; [|done|by rewrite bytesOf_cons, zdrop_app_le by lia].
      by rewrite gcopy_front by (rewrite zlen_zdrop; lia).
    + rewrite (Z.min_r (zlen p - t) (zlen (sdata s))) by lia.
      destruct (FreeNode_spec ll1 w1 s xs Hr1 Ha) as (w2 & -> & Hr2). cbn [mbind option_bind].
      destruct (Z.eqb_spec (t + zlen (sdata s)) (zlen p)).
      * exists ll1, w2, xs. rewrite Z.min_l by lia.
        replace (t + (zlen p - t)) with (t + zlen (sdata s)) by lia.
        rewrite (proj2 (Z.eqb_neq (t + zlen (sdata s)) 0)) by lia.
        split_and!; [|done|]; [|rewrite zdrop_app_ge, zdrop_le0 by lia; done].
        by rewrite gcopy_front by (rewrite zlen_zdrop; lia).
      * destruct (IH f ll1 w2 p1 (t + zlen (sdata s))) as (ll3 & w3 & xs3 & E & Hr3 & Hb3);
          [done|cbn in Hf; lia|lia|].
        exists ll3, w3, xs3. rewrite E, Hp1. unfold p1 at 1 2. rewrite copy_twice by lia.
        replace (t + zlen (sdata s) + Z.min (zlen p - (t + zlen (sdata s))) (zlen (bytesOf xs)))
          with (t + Z.min (zlen p - t) (zlen (sdata s) + zlen (bytesOf xs))) by lia.
        split_and!; [done|done|]. rewrite Hb3, Hp1, zdrop_app_ge by lia. f_equal. lia.
Qed.

Lemma discardLoop_spec xs : forall fuel ll (w : world P) n d,
  repr ll w xs -> (Datatypes.length xs < fuel)%nat -> 0 <= n ->
  exists ll' w' xs',
    discardLoop fuel ll w n d = Some (ll', w', d + Z.min n (zlen (bytesOf xs))) /\
    repr ll' w' xs' /\ bytesOf xs' = zdrop n (bytesOf xs).
Proof.
  induction xs as [|[l s] xs IH]; intros fuel ll w n d Hr Hf Hn;
    destruct fuel as [|f]; try (cbn in Hf; lia); cbn [discardLoop];
    (destruct (Z.leb_spec n 0);
     [eexists ll, w, _; split_and!; [|done|by rewrite zdrop_le0 by lia];
      rewrite Z.min_l by (etransitivity; [eassumption|apply zlen_nonneg]); by replace (d + n) with d by lia|]).
  - rewrite (popFront_nil ll w Hr). exists ll, w, [].
    change (bytesOf []) with (@nil byte). change (zlen (@nil byte)) with 0.
    rewrite Z.min_r, Z.add_0_r by lia. split_and!; [done..|].
    by rewrite zdrop_ge by (change (zlen (@nil byte)) with 0; lia).
  - destruct (popFront_cons ll w l s xs Hr) as (ll1 & w1 & -> & Hr1 & Hl & Hni & Ha).
    cbn [mbind option_bind]. rewrite Hl. cbn [mbind option_bind data].
    unfold length, slen. cbn [data]. rewrite bytesOf_cons, zlen_app.
    pose proof (zlen_nonneg (sdata s)). pose proof (zlen_nonneg (bytesOf xs)).
    destruct (Z.ltb_spec n (zlen (sdata s))).
    + destruct (setData_spec ll1 w1 l _ (resliceFrom s n) xs Hr1 Hl Hni) as (w2 & -> & Hr2 & Hl2).
      cbn [mbind option_bind].
      edestruct (pushFront_spec ll1 w2 l _ xs Hr2 Hl2 Hni) as (ll3 & w3 & -> & Hr3); [done|].
      cbn [mbind option_bind]. do 3 eexists. rewrite Z.min_l by lia.
      split_and!; [done..|]. by rewrite bytesOf_cons, zdrop_app_le by lia.
    + destruct (FreeNode_spec ll1 w1 s xs Hr1 Ha) as (w2 & -> & Hr2). cbn [mbind option_bind].
      destruct (IH f ll1 w2 (n - zlen (sdata s)) (d + zlen (sdata s)))
        as (ll3 & w3 & xs3 & -> & Hr3 & Hb3); [done|cbn in Hf; lia|lia|].
      do 3 eexists. split_and!; [|done|].
      * do 2 f_equal. lia.
      * by rewrite Hb3, zdrop_app_ge by lia.
Qed.

Lemma ll_Read_spec ll (w : world P) xs p :
  repr ll w xs -> p <> [] ->
  exists ll' w' xs',
    Read ll w p = Some (ll', w', gcopy p (bytesOf xs), Z.min (zlen p) (zlen (bytesOf xs)),
                        if zlen (bytesOf xs) =? 0 then Some EOF else None) /\
    repr ll' w' xs' /\ bytesOf xs' = zdrop (zlen p) (bytesOf xs).
Proof.
  intros Hr Hp. unfold Read. pose proof (zlen_nonneg p). pose proof (zlen_nonneg (bytesOf xs)).
  rewrite <- zlen_zero in Hp. rewrite (proj2 (Z.eqb_neq (zlen p) 0)) by done.
  destruct (readLoop_spec xs (S (Z.to_nat (nodeCount ll))) ll w p 0 Hr) as (ll' & w' & xs' & -> & Hr' & Hb);
    [rewrite (repr_nodes _ _ _ Hr); unfold zlen; lia|lia|].
  rewrite Z.sub_0_r, Z.add_0_l in *. rewrite ztake_le0, zdrop_le0 by lia.
  do 3 eexists. split_and!; [|done|done]. do 2 f_equal. zb; try done; lia.
Qed.

Lemma ll_Discard_spec ll (w : world P) xs n :
  repr ll w xs ->
  exists ll' w' xs',
    Discard ll w n = Some (ll', w', Z.max 0 (Z.min n (zlen (bytesOf xs)))) /\
    repr ll' w' xs' /\ bytesOf xs' = zdrop n (bytesOf xs).
Proof.
  intros Hr. pose proof (zlen_nonneg (bytesOf xs)). unfold Discard. destruct (Z.leb_spec n 0).
  { exists ll, w, xs. rewrite zdrop_le0 by lia. rewrite Z.max_l by lia. done. }
  destruct (discardLoop_spec xs (S (Z.to_nat (nodeCount ll))) ll w n 0 Hr)
    as (ll' & w' & xs' & -> & Hr' & Hb);
    [rewrite (repr_nodes _ _ _ Hr); unfold zlen; lia|lia|].
  do 3 eexists. split_and!; [|done..]. do 2 f_equal. lia.
Qed.

Lemma ll_Peek_spec ll (w : world P) xs n :
  repr ll w xs ->
  exists cs err, Peek ll w n = Some (cs, err) /\
    lspec (bytesOf xs) (LPeek n) (bytesOf xs) (observeRead err (concat cs)).
Proof.
  intros Hr. unfold Peek. assert (HM : 0 < MaxInt32) by done.
  destruct ((n <=? 0) || (n =? MaxInt32)) eqn:Hn.
  - destruct (collectBytes_spec ll w xs MaxInt32 [] Hr HM) as (r & -> & Hc). cbn.
    do 2 eexists; split; [done|]. cbn. rewrite Hc. constructor. lia.
  - assert (Hn1 : 0 < n) by lia. assert (Hn2 : n <> MaxInt32) by lia.
    unfold Buffered. rewrite (repr_bytes _ _ _ Hr).
    destruct (Z.ltb_spec (zlen (bytesOf xs)) n).
    + do 2 eexists; split; [done|]. cbn. constructor; [lia|done|done].
    + destruct (collectBytes_spec ll w xs n [] Hr) as (r & -> & Hc); [lia|].
      do 2 eexists; split; [done|]. cbn. rewrite Hc. by apply spec_peek.
Qed.

(** One operation of the buffer is one transition of the queue. *)
Lemma ll_step_refines ll (w : world P) xs o :
  repr ll w xs -> small o ->
  exists ll' w' xs' x, ll_step ll w o = Some (ll', w', x) /\ repr ll' w' xs' /\
    lspec (bytesOf xs) o (bytesOf xs') x.
Proof.
  intros Hr Hs. destruct o as [s|p|p| |n|n|n|]; cbn [ll_step small] in *.
  - destruct (Append_spec ll w xs s Hr) as (? & ? & ? & -> & ? & Hb); [done|].
    do 4 eexists. split_and!; [done..|]. rewrite Hb. constructor.
  - destruct (PushBack_spec ll w xs p Hr) as (? & ? & ? & -> & ? & Hb); [done|].
    do 4 eexists. split_and!; [done..|]. rewrite Hb. constructor.
  - destruct (PushFront_spec ll w xs p Hr) as (? & ? & ? & -> & ? & Hb); [done|].
    do 4 eexists. split_and!; [done..|]. rewrite Hb. constructor.
  - destruct (Pop_spec ll w xs Hr) as (? & ? & -> & Hr').
    do 4 eexists. split_and!; [done..|]. destruct xs as [|[l s] xs]; cbn.
    + apply (spec_pop []).
    + apply (spec_pop (sdata s)).
  - destruct (Z.leb_spec n 0).
    { assert (zeros n = []) as -> by (unfold zeros; by replace (Z.to_nat n) with 0%nat by lia).
      do 4 eexists. split_and!; [done..|]. by constructor. }
    assert (Hz : zlen (zeros n) = n) by (apply zeros_zlen; lia).
    destruct (ll_Read_spec ll w xs (zeros n) Hr) as (? & ? & ? & -> & ? & Hb).
    { rewrite <- zlen_zero. lia. }
    do 4 eexists. split_and!; [done..|]. rewrite Hb.
    destruct (Z.eqb_spec (zlen (bytesOf xs)) 0) as [E|E].
    + apply zlen_zero in E as ->. rewrite zdrop_ge by (unfold zlen; cbn; lia). by constructor.
    + cbn [observeRead]. rewrite read_prefix, Hz. rewrite zlen_zero in E. by constructor.
  - destruct (ll_Discard_spec ll w xs n Hr) as (? & ? & ? & -> & ? & Hb).
    do 4 eexists. split_and!; [done..|]. rewrite Hb. constructor.
  - destruct (ll_Peek_spec ll w xs n Hr) as (? & ? & -> & Hsp). do 4 eexists. split_and!; done.
  - destruct (Reset_spec ll w xs Hr) as (? & -> & ?). do 4 eexists. split_and!; [done..|]. constructor.
Qed.

Lemma ll_run_refines os : forall ll (w : world P) xs,
  repr ll w xs -> Forall small os ->
  exists ll' w' xs' obs, ll_run ll w os = Some (ll', w', obs) /\ repr ll' w' xs' /\
    lspec_run (bytesOf xs) os (bytesOf xs') obs.
Proof.
  induction os as [|o os IH]; intros ll w xs Hr Hs.
  - do 4 eexists. split_and!; [done..|constructor].
  - apply Forall_cons in Hs as [Ho Hs].
    destruct (ll_step_refines ll w xs o Hr Ho) as (ll1 & w1 & xs1 & x & E & Hr1 & Hx).
    destruct (IH ll1 w1 xs1 Hr1 Hs) as (ll2 & w2 & xs2 & ob & E2 & Hr2 & Hx2).
    cbn [ll_run]. rewrite E. cbn [mbind option_bind]. rewrite E2.
    do 4 eexists. split_and!; [done..|]. by econstructor.
Qed.
End CutFacts.

(** [WriteTo] into a writer that accepts everything hands over all bytes. *)
Lemma writeTo_all {P} `{BytePool P} {W} `{Writer W} (absW : W -> list byte)
  (Hall : forall v p, exists v', wr v p = (zlen p, None, v') /\ absW v' = absW v ++ p) xs :
  forall fuel ll (w : world P) out t,
  repr ll w xs -> (Datatypes.length xs < fuel)%nat ->
  exists ll' w' out', writeToLoop fuel ll w out t =
      Some (ll', w', out', t + zlen (bytesOf xs), None) /\
    repr ll' w' [] /\ absW out' = absW out ++ bytesOf xs.
Proof.
  induction xs as [|[l s] xs IH]; intros fuel ll w out t Hr Hf;
    destruct fuel as [|f]; try (cbn in Hf; lia); cbn [writeToLoop].
  - rewrite (popFront_nil ll w Hr). exists ll, w, out. cbn. rewrite Z.add_0_r, app_nil_r. done.
  - destruct (popFront_cons ll w l s xs Hr) as (ll1 & w1 & -> & Hr1 & Hl & Hni & Ha).
    cbn [mbind option_bind]. rewrite Hl. cbn [mbind option_bind data].
    destruct (Hall out (sdata s)) as (out1 & -> & Ho). unfold length, slen. cbn [data].
    rewrite Z.ltb_irrefl.
    destruct (FreeNode_spec ll1 w1 s xs Hr1 Ha) as (w2 & -> & Hr2). cbn [mbind option_bind].
    destruct (IH f ll1 w2 out1 (t + zlen (sdata s))) as (ll3 & w3 & out3 & -> & Hr3 & Ho3);
      [done|cbn in Hf; lia|].
    do 3 eexists. split_and!; [|done|].
    + rewrite bytesOf_cons, zlen_app, Z.add_assoc. done.
    + by rewrite Ho3, Ho, bytesOf_cons, app_assoc.
Qed.

(** ** Properties *)

(** A reader that delivers its bytes together with [io.EOF], as [io.Reader] allows. *)
Definition eof_rd (r : list byte) (n : Z) : list byte * option error * list byte :=
  (ztake n r, Some EOF, zdrop n r).

(** A writer that stores half of what it is given and then fails. *)
Definition half_wr (w p : list byte) : Z * option error * list byte :=
  let k := zlen p / 2 in (k, Some (OtherError 5), w ++ ztake k p).

Lemma eof_rd_fits r n : 0 <= n -> zlen (fst (fst (eof_rd r n))) <= n.
Proof. intros. cbn. lens. lia. Qed.

Lemma half_wr_fits w p : 0 <= fst (fst (half_wr w p)) <= zlen p.
Proof. cbn. pose proof (zlen_nonneg p). dlia. Qed.

(** On a pool that can take back any slice, every sequence of operations on the
    linked-list buffer runs without a panic and shows exactly what a queue of bytes
    shows; afterwards the pointer structure is a well-formed chain and the two
    counters are the number of chunks and of queued bytes. *)
Theorem ll_refines_queue {P} `{BytePool P} (h : gmap loc node) (p : P) (os : list lop) :
  (forall s, accepts s) -> pinv p -> Forall small os ->
  exists ll w xs obs,
    ll_run emptyLL (mkWorld h p) os = Some (ll, w, obs) /\
    lspec_run [] os (bytesOf xs) obs /\
    repr ll w xs /\ Len ll = zlen xs /\ Buffered ll = zlen (bytesOf xs).
Proof.
  intros Ha Hp Hs.
  destruct (ll_run_refines Ha os emptyLL (mkWorld h p) [] (repr_empty h p Hp) Hs)
    as (ll & w & xs & ob & E & Hr & Hsp).
  exists ll, w, xs, ob. split_and!; [done..|apply Hr|apply Hr].
Qed.

Lemma ll_refines_queue_witness :
  exists ll w xs obs,
    ll_run emptyLL (mkWorld ∅ tt)
      [LPushBack [1;2;3]; LAppend (mkSlice [4;5] 8); LRead 2; LPushFront [9]; LPeek 3; LPop;
       LDiscard 2; LReset] = Some (ll, w, obs) /\
    lspec_run [] [LPushBack [1;2;3]; LAppend (mkSlice [4;5] 8); LRead 2; LPushFront [9]; LPeek 3;
       LPop; LDiscard 2; LReset] (bytesOf xs) obs /\
    repr ll w xs /\ Len ll = zlen xs /\ Buffered ll = zlen (bytesOf xs).
Proof.
  apply (ll_refines_queue ∅ tt).
  - intros s. exact I.
  - exact I.
  - repeat constructor.
Defined.

(** On the real byte-slice pool the buffer can poison the pool.  A chunk that was
    partly read has lost the front of its capacity; when the rest is read it goes
    back to the pool under a bucket larger than it is, and the next chunk of that
    size panics in [byteslice.Get]. *)
Theorem ll_partial_read_poisons_pool :
  let w := mkWorld ∅ (@New slice, []) in
  (exists ll w' obs,
     ll_run (H := bs_pool id id) emptyLL w [LPushBack (zeros 64); LRead 10; LRead 54]
     = Some (ll, w', obs)) /\
  ll_run (H := bs_pool id id) emptyLL w [LPushBack (zeros 64); LRead 64; LPushBack (zeros 64)]
    <> None /\
  ll_run (H := bs_pool id id) emptyLL w
    [LPushBack (zeros 64); LRead 10; LRead 54; LPushBack (zeros 64)] = None.
Proof.
  split_and!.
  - do 3 eexists. vm_compute. reflexivity.
  - vm_compute. discriminate.
  - vm_compute. reflexivity.
Qed.

(** [ReadFrom] counts the bytes that a reader returns together with [io.EOF],
    but never stores them: the buffer is left as it was. *)
Theorem ll_ReadFrom_drops_final_bytes {P} `{BytePool P} {R} `{Reader R}
    ll (w : world P) xs (r r' : R) bs fuel :
  repr ll w xs -> rd r minReadChunkSize = (bs, Some EOF, r') ->
  exists w', ReadFrom (S fuel) ll w r 0 = Some (Some (ll, w', r', zlen bs, None)) /\ repr ll w' xs.
Proof.
  intros Hr Hrd. cbn [ReadFrom].
  destruct (AllocNode_spec ll w minReadChunkSize xs Hr) as (s & w1 & -> & Hr1 & Hs & Ha);
    [unfold minReadChunkSize; lia|].
  cbn [mbind option_bind]. rewrite Hs, Hrd.
  destruct (FreeNode_spec ll w1 (mkSlice bs (scap s)) xs Hr1 (accepts_cap _ _ Ha)) as (w2 & -> & Hr2).
  cbn. eauto.
Qed.

Lemma ll_ReadFrom_drops_final_bytes_witness :
  exists w', ReadFrom (H0 := {| rd := eof_rd; rd_fits := eof_rd_fits |}) 3 emptyLL
      (mkWorld ∅ tt) [7;8;9] 0 = Some (Some (emptyLL, w', [], 3, None)) /\ repr emptyLL w' [].
Proof.
  refine (ll_ReadFrom_drops_final_bytes (H0 := {| rd := eof_rd; rd_fits := eof_rd_fits |})
    emptyLL (mkWorld ∅ tt) [] [7;8;9] [] [7;8;9] 2 _ _).
  - apply repr_empty. exact I.
  - reflexivity.
Defined.

(** [WriteTo] into a writer that takes everything delivers all bytes in order
    and empties the buffer. *)
Theorem ll_WriteTo_sink {P} `{BytePool P} ll (w : world P) xs (out : list byte)
    (Wr := {| wr := fun (o p : list byte) => (zlen p, None, o ++ p);
              wr_fits := fun o p => conj (zlen_nonneg p) (Z.le_refl (zlen p)) |}) :
  repr ll w xs ->
  exists ll' w', WriteTo (H0 := Wr) ll w out
      = Some (ll', w', out ++ bytesOf xs, zlen (bytesOf xs), None) /\ repr ll' w' [].
Proof.
  intros Hr. unfold WriteTo.
  destruct (writeTo_all (H0 := Wr) id (fun v q => ex_intro _ (v ++ q) (conj eq_refl eq_refl)) xs
    (S (Z.to_nat (nodeCount ll))) ll w out 0 Hr) as (ll' & w' & out' & -> & Hr' & Ho).
  - rewrite (repr_nodes _ _ _ Hr). unfold zlen. lia.
  - cbn in Ho. subst out'. eauto.
Qed.

(** When the writer stores part of a chunk and reports an error, [WriteTo] drops
    the whole chunk: the bytes that were not written are gone. *)
Theorem ll_WriteTo_error_loses_chunk :
  ('(ll, w) ← PushBack emptyLL (mkWorld ∅ tt) [1;2;3;4];
   '(ll, w, out, n, err) ←
     WriteTo (H0 := {| wr := half_wr; wr_fits := half_wr_fits |}) ll w [];
   Some (ll, out, n, err)) = Some (emptyLL, [1;2], 2, Some (OtherError 5)).
Proof. vm_compute. reflexivity. Qed.
