(* ===== verification/Elastic.v ===== *)
(** * Elastic: the lazily pooled ring and the elastic buffer
      (src/pkg/datastructs/buffer/elastic_ring.go, src/pkg/datastructs/buffer/elastic.go)

    [ElasticRing] holds a ring or nothing; rings come from and go back to a
    [sync.Pool] whose choices are part of its state.  [ElasticBuffer] writes to the
    ring up to its static limit and to the linked list beyond it.  The refinement
    theorem composes the specifications of [Ring] and [LinkedList]. *)
From stdpp Require Import base list option gmap.
From Stdlib Require Import ZArith Lia.
From S2P Require Import Prelude Num Pool Ring LinkedList.

(** ** The elastic ring *)

Record ringPool := mkRingPool { rings : list RingBuffer; choices : list nat }.

Module ER.
(** The struct has the single field [ring]; a nil pointer is [None]. *)
Definition ElasticRing : Type := option RingBuffer.

Section Ops.
Context `{ByteSource}.

(** [ringBufferPool.Get()]: a stored ring, or [NewRing(0)]. *)
Definition poolGet (rp : ringPool) : option (RingBuffer * ringPool) :=
  let ch := hd 0%nat (choices rp) in
  match rings rp !! ch with
  | Some rb => Some (rb, mkRingPool (delete ch (rings rp)) (tl (choices rp)))
  | None => rb ← Ring.NewRing 0; Some (rb, mkRingPool (rings rp) (tl (choices rp)))
  end.
Definition poolPut (rb : RingBuffer) (rp : ringPool) : ringPool :=
  mkRingPool (rb :: rings rp) (choices rp).

Definition getOrCreate (er : ElasticRing) (rp : ringPool) : option (RingBuffer * ringPool) :=
  match er with None => poolGet rp | Some rb => Some (rb, rp) end.

Definition returnIfEmpty (er : ElasticRing) (rp : ringPool) : ElasticRing * ringPool :=
  match er with
  | Some rb => if Ring.IsEmpty rb then (None, poolPut rb rp) else (er, rp)
  | None => (er, rp)
  end.

Definition Done (er : ElasticRing) (rp : ringPool) : ElasticRing * ringPool :=
  match er with None => (None, rp) | Some rb => (None, poolPut (Ring.Reset rb) rp) end.

Definition Peek (er : ElasticRing) (n : Z) : option (list byte * list byte) :=
  match er with None => Some ([], []) | Some rb => Ring.Peek rb n end.

Definition Discard (er : ElasticRing) (rp : ringPool) (n : Z)
    : ElasticRing * ringPool * Z * option error :=
  match er with
  | None => (er, rp, 0, Some ErrRingEmpty)
  | Some rb =>
      let '(rb, k) := Ring.Discard rb n in
      let '(er, rp) := returnIfEmpty (Some rb) rp in (er, rp, k, None)
  end.

Definition Read (er : ElasticRing) (rp : ringPool) (p : list byte)
    : option (ElasticRing * ringPool * list byte * Z * option error) :=
  match er with
  | None => Some (er, rp, p, 0, Some ErrRingEmpty)
  | Some rb =>
      '(rb, p, k, err) ← Ring.Read rb p;
      let '(er, rp) := returnIfEmpty (Some rb) rp in Some (er, rp, p, k, err)
  end.

Definition ReadByte (er : ElasticRing) (rp : ringPool)
    : option (ElasticRing * ringPool * Z * option error) :=
  match er with
  | None => Some (er, rp, 0, Some ErrRingEmpty)
  | Some rb =>
      '(rb, b, err) ← Ring.ReadByte rb;
      let '(er, rp) := returnIfEmpty (Some rb) rp in Some (er, rp, b, err)
  end.

Definition Write (er : ElasticRing) (rp : ringPool) (p : list byte)
    : option (ElasticRing * ringPool * Z) :=
  if zlen p =? 0 then Some (er, rp, 0) else
  '(rb, rp) ← getOrCreate er rp;
  '(rb, n) ← Ring.Write rb p;
  Some (Some rb, rp, n).

Definition WriteByte (er : ElasticRing) (rp : ringPool) (c : byte)
    : option (ElasticRing * ringPool) :=
  '(rb, rp) ← getOrCreate er rp;
  rb ← Ring.WriteByte rb c;
  Some (Some rb, rp).

Definition WriteString (er : ElasticRing) (rp : ringPool) (s : list byte)
    : option (ElasticRing * ringPool * Z) :=
  if zlen s =? 0 then Some (er, rp, 0) else
  '(rb, rp) ← getOrCreate er rp;
  '(rb, n) ← Ring.WriteString rb s;
  Some (Some rb, rp, n).

Definition Buffered (er : ElasticRing) : Z :=
  match er with None => 0 | Some rb => Ring.Buffered rb end.
Definition Available (er : ElasticRing) : Z :=
  match er with None => 0 | Some rb => Ring.Available rb end.
Definition Len (er : ElasticRing) : Z :=
  match er with None => 0 | Some rb => Ring.Len rb end.
Definition Cap (er : ElasticRing) : Z :=
  match er with None => 0 | Some rb => Ring.Cap rb end.
Definition Bytes (er : ElasticRing) : option (list byte) :=
  match er with None => Some [] | Some rb => Ring.Bytes rb end.
Definition IsFull (er : ElasticRing) : bool :=
  match er with None => false | Some rb => Ring.IsFull rb end.
Definition IsEmpty (er : ElasticRing) : bool :=
  match er with None => true | Some rb => Ring.IsEmpty rb end.
Definition Reset (er : ElasticRing) : ElasticRing :=
  match er with None => None | Some rb => Some (Ring.Reset rb) end.

Definition ReadFrom {R} `{Reader R} (fuel : nat) (er : ElasticRing) (rp : ringPool) (r : R)
    : option (option (ElasticRing * ringPool * R * Z * option error)) :=
  '(rb, rp) ← getOrCreate er rp;
  out ← Ring.ReadFrom fuel rb r 0;
  match out with
  | Some (rb, r, n, err) => Some (Some (Some rb, rp, r, n, err))
  | None => Some None
  end.

Definition WriteTo {W} `{Writer W} (er : ElasticRing) (rp : ringPool) (w : W)
    : option (ElasticRing * ringPool * W * Z * option error) :=
  match er with
  | None => Some (er, rp, w, 0, None)
  | Some rb =>
      '(rb, w, n, err) ← Ring.WriteTo rb w;
      let '(er, rp) := returnIfEmpty (Some rb) rp in Some (er, rp, w, n, err)
  end.
End Ops.

(** Abstraction, and the rings on which the index mask is a modulus: those without
    storage and those of a power of two of at least the default capacity. *)
Definition contents (er : ElasticRing) : list byte :=
  match er with None => [] | Some rb => Ring.contents rb end.
Definition sized (rb : RingBuffer) : Prop :=
  wf rb /\ (capacity rb = 0 \/ (is_pow2 (capacity rb) /\ defaultRingCap <= capacity rb)).
Definition ok (er : ElasticRing) : Prop :=
  match er with None => True | Some rb => sized rb end.
Definition pool_ok (rp : ringPool) : Prop :=
  Forall (fun rb => sized rb /\ Ring.contents rb = []) (rings rp).
End ER.

(** ** The elastic buffer *)

Record ElasticBuffer := mkElastic {
  maxStaticBytes : Z;
  ring : ER.ElasticRing;
  elist : LinkedListBuffer;
}.

(** Everything an elastic buffer shares with others: the ring pool, and the node
    store and byte pool of its list. *)
Record eworld (P : Type) := mkEWorld { ringMem : ringPool; listMem : world P }.
Arguments mkEWorld {P}. Arguments ringMem {P}. Arguments listMem {P}.

Module EB.
Section Ops.
Context `{ByteSource} {P : Type} `{BytePool P}.

Definition NewElastic (maxStaticBytes : Z) : ElasticBuffer + error :=
  if maxStaticBytes <=? 0 then inr ErrNegativeSize
  else inl (mkElastic maxStaticBytes None emptyLL).

Definition setRing (eb : ElasticBuffer) (er : ER.ElasticRing) : ElasticBuffer :=
  mkElastic (maxStaticBytes eb) er (elist eb).
Definition setList (eb : ElasticBuffer) (ll : LinkedListBuffer) : ElasticBuffer :=
  mkElastic (maxStaticBytes eb) (ring eb) ll.

Definition Buffered (eb : ElasticBuffer) : Z :=
  ER.Buffered (ring eb) + LinkedList.Buffered (elist eb).
Definition IsEmpty (eb : ElasticBuffer) : bool :=
  ER.IsEmpty (ring eb) && LinkedList.IsEmpty (elist eb).
Definition shouldOverflow (eb : ElasticBuffer) : bool :=
  negb (LinkedList.IsEmpty (elist eb)) || (maxStaticBytes eb <=? ER.Buffered (ring eb)).

Definition Read (eb : ElasticBuffer) (w : eworld P) (p : list byte)
    : option (ElasticBuffer * eworld P * list byte * Z * option error) :=
  if zlen p =? 0 then Some (eb, w, p, 0, None) else
  '(er, rp, p, ringRead, err) ← ER.Read (ring eb) (ringMem w) p;
  let eb := setRing eb er in
  let w := mkEWorld rp (listMem w) in
  if ringRead =? zlen p then Some (eb, w, p, ringRead, err) else
  rest ← zslice p ringRead (zlen p);
  '(ll, lw, rest, listRead, err) ← LinkedList.Read (elist eb) (listMem w) rest;
  Some (setList eb ll, mkEWorld (ringMem w) lw, ztake ringRead p ++ rest, ringRead + listRead, err).

Definition Peek (eb : ElasticBuffer) (w : eworld P) (n : Z)
    : option (list (list byte) * option error) :=
  let all := (n <=? 0) || (n =? MaxInt32) in
  if negb all && (Buffered eb <? n) then Some ([], Some ErrShortBuffer) else
  let n := if all then MaxInt32 else n in
  '(h, t) ← ER.Peek (ring eb) n;
  if n <=? ER.Buffered (ring eb) then Some ([h; t], None)
  else PeekWithBytes (elist eb) (listMem w) n [h; t].

Definition Discard (eb : ElasticBuffer) (w : eworld P) (n : Z)
    : option (ElasticBuffer * eworld P * Z * option error) :=
  if n <=? 0 then Some (eb, w, 0, None) else
  let '(er, rp, ringDiscarded, err) := ER.Discard (ring eb) (ringMem w) n in
  let eb := setRing eb er in
  let w := mkEWorld rp (listMem w) in
  if n <=? ringDiscarded then Some (eb, w, ringDiscarded, err) else
  '(ll, lw, listDiscarded) ← LinkedList.Discard (elist eb) (listMem w) (n - ringDiscarded);
  Some (setList eb ll, mkEWorld (ringMem w) lw, ringDiscarded + listDiscarded, None).

(** [eb.ring.Write(p)] and [eb.list.PushBack(p)]. *)
Definition toRing (eb : ElasticBuffer) (w : eworld P) (p : list byte)
    : option (ElasticBuffer * eworld P * Z) :=
  '(er, rp, n) ← ER.Write (ring eb) (ringMem w) p;
  Some (setRing eb er, mkEWorld rp (listMem w), n).
Definition toList (eb : ElasticBuffer) (w : eworld P) (p : list byte)
    : option (ElasticBuffer * eworld P) :=
  '(ll, lw) ← PushBack (elist eb) (listMem w) p;
  Some (setList eb ll, mkEWorld (ringMem w) lw).

(** A slice split at [ringSpace] between the ring and the list. *)
Definition split (eb : ElasticBuffer) (w : eworld P) (p : list byte) (ringSpace : Z)
    : option (ElasticBuffer * eworld P) :=
  front ← zslice p 0 ringSpace;
  '(eb, w, _) ← toRing eb w front;
  back ← zslice p ringSpace (zlen p);
  toList eb w back.

(** The error results of [Write] and [Writev] are always nil. *)
Definition Write (eb : ElasticBuffer) (w : eworld P) (p : list byte)
    : option (ElasticBuffer * eworld P * Z) :=
  let dataLen := zlen p in
  if dataLen =? 0 then Some (eb, w, 0) else
  if shouldOverflow eb then '(eb, w) ← toList eb w p; Some (eb, w, dataLen) else
  if (maxStaticBytes eb <=? ER.Len (ring eb)) && (ER.Available (ring eb) <? dataLen) then
    '(eb, w) ← split eb w p (ER.Available (ring eb)); Some (eb, w, dataLen)
  else toRing eb w p.

Fixpoint writeAllToList (slices : list (list byte)) (eb : ElasticBuffer) (w : eworld P) (total : Z)
    : option (ElasticBuffer * eworld P * Z) :=
  match slices with
  | [] => Some (eb, w, total)
  | s :: rest => '(eb, w) ← toList eb w s; writeAllToList rest eb w (total + zlen s)
  end.

(** Both loops of [writeSplitRingAndList]: after the split the rest goes to the list. *)
Fixpoint splitLoop (slices : list (list byte)) (eb : ElasticBuffer) (w : eworld P) (ringSpace total : Z)
    : option (ElasticBuffer * eworld P * Z) :=
  match slices with
  | [] => Some (eb, w, total)
  | s :: rest =>
      if ringSpace <? zlen s then
        '(eb, w) ← split eb w s ringSpace;
        writeAllToList rest eb w (total + zlen s)
      else
        '(eb, w, written) ← toRing eb w s;
        splitLoop rest eb w (ringSpace - written) (total + zlen s)
  end.

Definition writeSplitRingAndList (eb : ElasticBuffer) (w : eworld P) (slices : list (list byte))
    : option (ElasticBuffer * eworld P * Z) :=
  let ringSpace := if ER.Len (ring eb) <? maxStaticBytes eb
                   then maxStaticBytes eb - ER.Buffered (ring eb) else ER.Available (ring eb) in
  splitLoop slices eb w ringSpace 0.

Definition Writev (eb : ElasticBuffer) (w : eworld P) (slices : list (list byte))
    : option (ElasticBuffer * eworld P * Z) :=
  if zlen slices =? 0 then Some (eb, w, 0) else
  if shouldOverflow eb then writeAllToList slices eb w 0 else writeSplitRingAndList eb w slices.

Definition ReadFrom {R} `{Reader R} (fuel : nat) (eb : ElasticBuffer) (w : eworld P) (r : R)
    : option (option (ElasticBuffer * eworld P * R * Z * option error)) :=
  if shouldOverflow eb then
    out ← LinkedList.ReadFrom fuel (elist eb) (listMem w) r 0;
    match out with
    | Some (ll, lw, r, n, err) => Some (Some (setList eb ll, mkEWorld (ringMem w) lw, r, n, err))
    | None => Some None
    end
  else
    out ← ER.ReadFrom fuel (ring eb) (ringMem w) r;
    match out with
    | Some (er, rp, r, n, err) => Some (Some (setRing eb er, mkEWorld rp (listMem w), r, n, err))
    | None => Some None
    end.

Definition WriteTo {W} `{Writer W} (eb : ElasticBuffer) (w : eworld P) (out : W)
    : option (ElasticBuffer * eworld P * W * Z * option error) :=
  '(er, rp, out, ringWritten, err) ← ER.WriteTo (ring eb) (ringMem w) out;
  let eb := setRing eb er in
  let w := mkEWorld rp (listMem w) in
  match err with
  | Some e => Some (eb, w, out, ringWritten, Some e)
  | None =>
      '(ll, lw, out, listWritten, err) ← LinkedList.WriteTo (elist eb) (listMem w) out;
      Some (setList eb ll, mkEWorld (ringMem w) lw, out, ringWritten + listWritten, err)
  end.

Definition Reset (eb : ElasticBuffer) (w : eworld P) (m : Z) : option (ElasticBuffer * eworld P) :=
  '(ll, lw) ← LinkedList.Reset (elist eb) (listMem w);
  Some (mkElastic (if 0 <? m then m else maxStaticBytes eb) (ER.Reset (ring eb)) ll,
        mkEWorld (ringMem w) lw).

Definition Release (eb : ElasticBuffer) (w : eworld P) : option (ElasticBuffer * eworld P) :=
  let '(er, rp) := ER.Done (ring eb) (ringMem w) in
  '(ll, lw) ← LinkedList.Reset (elist eb) (listMem w);
  Some (mkElastic (maxStaticBytes eb) er ll, mkEWorld rp lw).

(** ** Specification: a byte queue *)

Inductive eop : Type :=
  | EWrite (p : list byte) | EWritev (ps : list (list byte)) | ERead (n : Z)
  | EDiscard (n : Z) | EPeek (n : Z) | EReset (m : Z) | ERelease | EBuffered.

Definition step (eb : ElasticBuffer) (w : eworld P) (o : eop)
    : option (ElasticBuffer * eworld P * obs) :=
  match o with
  | EWrite p => '(eb, w, n) ← Write eb w p; Some (eb, w, Count n)
  | EWritev ps => '(eb, w, n) ← Writev eb w ps; Some (eb, w, Count n)
  | ERead n =>
      '(eb, w, p, k, err) ← Read eb w (zeros n);
      Some (eb, w, match err with None => Data (ztake k p) | Some e => DataErr (ztake k p) e end)
  | EDiscard n =>
      '(eb, w, k, err) ← Discard eb w n;
      Some (eb, w, match err with None => Count k | Some e => Fail e end)
  | EPeek n => '(cs, err) ← Peek eb w n; Some (eb, w, observeRead err (concat cs))
  | EReset m => '(eb, w) ← Reset eb w m; Some (eb, w, Silent)
  | ERelease => '(eb, w) ← Release eb w; Some (eb, w, Silent)
  | EBuffered => Some (eb, w, Count (Buffered eb))
  end.

(** A read that reaches the end of the queue may report [io.EOF] together with the
    last bytes: whether it does depends on where they are stored. *)
Inductive spec : list byte -> eop -> list byte -> obs -> Prop :=
  | s_write q p : spec q (EWrite p) (q ++ p) (Count (zlen p))
  | s_writev q ps : spec q (EWritev ps) (q ++ concat ps) (Count (zlen (concat ps)))
  | s_read0 q n : n <= 0 -> spec q (ERead n) q (Data [])
  | s_read q n : 0 < n -> q <> [] -> spec q (ERead n) (zdrop n q) (Data (ztake n q))
  | s_read_eof q n : 0 < n -> zlen q < n -> spec q (ERead n) [] (DataErr q EOF)
  | s_discard q n : spec q (EDiscard n) (zdrop n q) (Count (Z.max 0 (Z.min n (zlen q))))
  | s_peek_all q n : n <= 0 \/ n = MaxInt32 -> spec q (EPeek n) q (Data (ztake MaxInt32 q))
  | s_peek q n : 0 < n <= zlen q -> n <> MaxInt32 -> spec q (EPeek n) q (Data (ztake n q))
  | s_peek_short q n : 0 < n -> n <> MaxInt32 -> zlen q < n ->
      spec q (EPeek n) q (Fail ErrShortBuffer)
  | s_reset q m : spec q (EReset m) [] Silent
  | s_release q : spec q ERelease [] Silent
  | s_buffered q : spec q EBuffered q (Count (zlen q)).

Fixpoint run (eb : ElasticBuffer) (w : eworld P) (os : list eop)
    : option (ElasticBuffer * eworld P * list obs) :=
  match os with
  | [] => Some (eb, w, [])
  | o :: os => '(eb, w, x) ← step eb w o; '(eb, w, xs) ← run eb w os; Some (eb, w, x :: xs)
  end.

Inductive spec_run : list byte -> list eop -> list byte -> list obs -> Prop :=
  | s_done q : spec_run q [] q []
  | s_more q o q1 x os q2 xs :
      spec q o q1 x -> spec_run q1 os q2 xs -> spec_run q (o :: os) q2 (x :: xs).

(** Writes of at most the default ring capacity, static limits likewise. *)
Definition modest (o : eop) : Prop :=
  match o with
  | EWrite p => zlen p <= defaultRingCap
  | EWritev ps => Forall (fun p => zlen p < 2 ^ 63) ps
  | EReset m => m <= defaultRingCap
  | _ => True
  end.

(** The buffer [eb] holds the bytes of its ring followed by the chunks [xs]. *)
Record erepr (eb : ElasticBuffer) (w : eworld P) (xs : list (positive * slice)) : Prop := {
  er_max : 0 < maxStaticBytes eb <= defaultRingCap;
  er_ring : ER.ok (ring eb);
  er_pool : ER.pool_ok (ringMem w);
  er_list : repr (elist eb) (listMem w) xs;
}.
Definition bytes (eb : ElasticBuffer) (xs : list (positive * slice)) : list byte :=
  ER.contents (ring eb) ++ bytesOf xs.
(** What appending [p] must achieve. *)
Definition appended (eb : ElasticBuffer) (xs : list (positive * slice)) (p : list byte)
    (r : option (ElasticBuffer * eworld P)) : Prop :=
  exists eb' w' xs', r = Some (eb', w') /\ erepr eb' w' xs' /\
    bytes eb' xs' = bytes eb xs ++ p.
End Ops.
End EB.

(** ** Lemmas: the elastic ring *)

Lemma sized_pow2 rb : ER.sized rb -> empty rb = false -> is_pow2 (capacity rb).
Proof.
  intros [[Hl Hp] [H0|[? _]]] He; [|done]. rewrite He in Hp. lia.
Qed.

Lemma ER_Buffered_contents er : ER.ok er -> ER.Buffered er = zlen (ER.contents er).
Proof. destruct er as [rb|]; [|done]. intros [? _]. by apply Buffered_contents. Qed.

Lemma ER_Len_Available er :
  ER.ok er -> ER.Available er = ER.Len er - ER.Buffered er /\
    (ER.Len er = 0 \/ defaultRingCap <= ER.Len er) /\ 0 <= ER.Available er.
Proof.
  destruct er as [rb|]; cbn; [|lia]. intros [Hwf Hs]. unfold Ring.Len.
  rewrite (wf_len _ Hwf), (Available_Buffered _ Hwf). pose proof (Buffered_bounds _ Hwf). lia.
Qed.

Lemma ER_returnIfEmpty rb rp er rp' :
  ER.sized rb -> ER.pool_ok rp -> ER.returnIfEmpty (Some rb) rp = (er, rp') ->
  ER.ok er /\ ER.pool_ok rp' /\ ER.contents er = Ring.contents rb.
Proof.
  intros Hs Hp. cbn. unfold Ring.IsEmpty. destruct (empty rb) eqn:He; intros; simplify_eq; [|done].
  split_and!; [done| |by rewrite (Ring.contents_empty _ He)].
  constructor; [|done]. split; [done|]. by apply Ring.contents_empty.
Qed.

Section ERFacts.
Context `{ByteSource}.

Lemma ER_getOrCreate er rp :
  ER.ok er -> ER.pool_ok rp ->
  exists rb rp', ER.getOrCreate er rp = Some (rb, rp') /\ ER.sized rb /\ ER.pool_ok rp' /\
    Ring.contents rb = ER.contents er /\ (er = None \/ er = Some rb).
Proof.
  intros He Hp. destruct er as [rb|]; [cbn; eauto 10|].
  unfold ER.getOrCreate, ER.poolGet. destruct (rings rp !! _) as [rb|] eqn:E.
  - pose proof (Forall_lookup_1 _ _ _ _ Hp E) as [? ?].
    do 2 eexists. split_and!; [done|done| |done|by left]. by apply Forall_delete.
  - destruct (NewRing_spec 0) as (rb & Hn & Hwf & Hc & _ & _); [lia|]. rewrite Hn.
    unfold Ring.NewRing in Hn. cbn in Hn. simplify_eq.
    do 2 eexists. split_and!; [done| |done|done|by left]. split; [done|by left].
Qed.

(** A write that needs no growth, or that allocates the default capacity. *)
Lemma ER_Write_spec er rp p :
  ER.ok er -> ER.pool_ok rp ->
  zlen p <= ER.Available er \/ (ER.Len er = 0 /\ zlen p <= defaultRingCap) ->
  exists er' rp', ER.Write er rp p = Some (er', rp', zlen p) /\ ER.ok er' /\ ER.pool_ok rp' /\
    ER.contents er' = ER.contents er ++ p /\
    (ER.Len er' = ER.Len er \/ (ER.Len er = 0 /\ defaultRingCap <= ER.Len er')).
Proof.
  intros He Hp Hfit. unfold ER.Write. destruct (Z.eqb_spec (zlen p) 0) as [Hz|Hz].
  { rewrite Hz. apply zlen_zero in Hz as ->. exists er, rp. rewrite app_nil_r. eauto 10. }
  pose proof (zlen_nonneg p). pose proof (ER_Len_Available er He) as (HA & HL & HA0).
  destruct (ER_getOrCreate er rp He Hp) as (rb & rp' & -> & Hs & Hp' & Hc & Hor).
  cbn [mbind option_bind]. destruct Hs as [Hwf Hs].
  pose proof (Available_Buffered _ Hwf) as HR. pose proof (Buffered_contents _ Hwf) as HB.
  destruct (ring_Write_spec rb p Hwf) as (rb' & -> & Hwf' & Hct & Hcap & Hcap0).
  { unfold defaultRingCap in *. pose proof (zlen_nonneg (Ring.contents rb)).
    destruct Hor as [-> | ->]; cbn in *; lia. }
  cbn [mbind option_bind]. do 2 eexists. split; [done|]. cbn [ER.ok ER.contents ER.Len].
  unfold Ring.Len. rewrite (wf_len _ Hwf'). rewrite Hct, Hc.
  assert (HD : capacity rb' = capacity rb \/ (capacity rb = 0 /\ capacity rb' = defaultRingCap)).
  { destruct Hs as [Hc0|[_ Hge]].
    - destruct Hfit as [Hf|[_ Hf]]; [|right; split; [done|]; apply Hcap0; [done|lia]].
      exfalso. pose proof (zlen_nonneg (Ring.contents rb)).
      destruct Hor as [-> | ->]; cbn [ER.Available] in Hf; lia.
    - left. apply Hcap. destruct Hor as [-> | ->]; cbn in Hc, Hfit; [|].
      + rewrite HR, HB, Hc. unfold defaultRingCap in *. unfold zlen at 2. cbn. lia.
      + destruct Hfit as [?|[Hf _]]; [done|]. unfold Ring.Len in Hf. rewrite (wf_len _ Hwf) in Hf.
        unfold defaultRingCap in *. lia. }
  split_and!; [|done|done|].
  - split; [done|]. destruct HD as [HD|[_ HD]]; rewrite HD; [done|]. right. split; [by exists 10|lia].
  - destruct HD as [HD|[Hc0 HD]].
    + destruct Hor as [-> | ->]; cbn.
      * destruct Hs; [left; lia|right; lia].
      * left. unfold Ring.Len. rewrite (wf_len _ Hwf). done.
    + right. rewrite HD. split; [|done]. destruct Hor as [-> | ->]; [done|].
      cbn. unfold Ring.Len. rewrite (wf_len _ Hwf). done.
Qed.

Lemma ER_Read_spec er rp p :
  ER.ok er -> ER.pool_ok rp -> p <> [] ->
  exists er' rp' err, ER.Read er rp p =
      Some (er', rp', gcopy p (ER.contents er), Z.min (zlen p) (zlen (ER.contents er)), err) /\
    ER.ok er' /\ ER.pool_ok rp' /\ ER.contents er' = zdrop (zlen p) (ER.contents er) /\
    (ER.contents er <> [] -> err = None).
Proof.
  intros He Hp Hne. pose proof (zlen_nonneg p). destruct er as [rb|]; cbn [ER.Read ER.contents].
  - destruct He as [Hwf Hs].
    destruct (ring_Read_spec rb p Hwf) as (rb' & -> & Hwf' & Hct & Hcap);
      [by intros; apply sized_pow2|done|].
    cbn [mbind option_bind]. destruct (ER.returnIfEmpty (Some rb') rp) as [er' rp'] eqn:E.
    apply ER_returnIfEmpty in E as (? & ? & Hc); [|by split; [done|rewrite Hcap]|done].
    do 3 eexists. split_and!; [done..|by rewrite Hc|].
    intros Hn. destruct (empty rb) eqn:Hem; [|done]. by rewrite contents_empty in Hn.
  - do 3 eexists. rewrite gcopy_nil, zdrop_ge by (unfold zlen at 1; cbn; lia).
    change (zlen (@nil byte)) with 0. rewrite Z.min_r by lia. split_and!; done.
Qed.

Lemma ER_Discard_spec er rp n :
  ER.ok er -> ER.pool_ok rp ->
  exists er' rp' err, ER.Discard er rp n =
      (er', rp', Z.max 0 (Z.min n (zlen (ER.contents er))), err) /\
    ER.ok er' /\ ER.pool_ok rp' /\ ER.contents er' = zdrop n (ER.contents er) /\
    (ER.contents er <> [] -> err = None).
Proof.
  intros He Hp. destruct er as [rb|]; cbn [ER.Discard ER.contents].
  - destruct He as [Hwf Hs].
    destruct (ring_Discard_spec rb n Hwf) as (rb' & -> & Hwf' & Hct & Hcap);
      [by intros; apply sized_pow2|].
    destruct (ER.returnIfEmpty (Some rb') rp) as [er' rp'] eqn:E.
    apply ER_returnIfEmpty in E as (? & ? & Hc); [|by split; [done|rewrite Hcap]|done].
    do 3 eexists. split_and!; [done..|by rewrite Hc|done].
  - exists None, rp, (Some ErrRingEmpty). split_and!; [|done|done| |done].
    + f_equal. f_equal. change (zlen (@nil byte)) with 0. lia.
    + unfold zdrop. by rewrite drop_nil.
Qed.

Lemma ER_Peek_spec er n :
  ER.ok er -> 0 < n -> exists h t, ER.Peek er n = Some (h, t) /\ h ++ t = ztake n (ER.contents er).
Proof.
  intros He Hn. destruct er as [rb|]; cbn [ER.Peek ER.contents].
  - destruct He as [Hwf _]. destruct (ring_Peek_spec rb n Hwf) as (h & t & -> & E).
    destruct (Z.leb_spec n 0); [lia|]. eauto.
  - do 2 eexists. split; [done|]. unfold ztake. by rewrite take_nil.
Qed.
End ERFacts.

(** ** Lemmas: the elastic buffer *)

Section EBFacts.
Context `{ByteSource} {P : Type} `{BytePool P}.
Hypothesis accepts_all : forall s, accepts s.
Implicit Types (eb : ElasticBuffer) (w : eworld P).

Lemma erepr_Buffered eb w xs :
  EB.erepr eb w xs -> EB.Buffered eb = zlen (EB.bytes eb xs).
Proof.
  intros [Hm Hr Hp Hl]. unfold EB.Buffered, EB.bytes, LinkedList.Buffered.
  by rewrite ER_Buffered_contents, (repr_bytes _ _ _ Hl), zlen_app by done.
Qed.

Lemma repr_IsEmpty ll (lw : world P) xs :
  repr ll lw xs -> LinkedList.IsEmpty ll = true <-> xs = [].
Proof.
  intros [Hc _ _ _ _ _ _]. unfold LinkedList.IsEmpty. rewrite bool_decide_eq_true.
  destruct xs as [|[l s] xs]; cbn in Hc; [by rewrite Hc|]. destruct Hc as (-> & _). done.
Qed.

Lemma toList_spec eb w xs p :
  EB.erepr eb w xs -> zlen p < 2 ^ 63 -> EB.appended eb xs p (EB.toList eb w p).
Proof.
  intros [Hm Hr Hp Hl] Hs. unfold EB.toList, EB.appended.
  destruct (PushBack_spec (elist eb) (listMem w) xs p Hl Hs) as (ll & lw & xs' & -> & Hl' & Hb).
  cbn [mbind option_bind]. do 3 eexists. split_and!; [done|by constructor|].
  unfold EB.bytes. cbn. by rewrite Hb, app_assoc.
Qed.

Lemma toRing_spec eb w p :
  EB.erepr eb w [] ->
  zlen p <= ER.Available (ring eb) \/ (ER.Len (ring eb) = 0 /\ zlen p <= defaultRingCap) ->
  exists eb' w', EB.toRing eb w p = Some (eb', w', zlen p) /\ EB.erepr eb' w' [] /\
    EB.bytes eb' [] = EB.bytes eb [] ++ p /\
    (ER.Len (ring eb') = ER.Len (ring eb) \/
     (ER.Len (ring eb) = 0 /\ defaultRingCap <= ER.Len (ring eb'))).
Proof.
  intros [Hm Hr Hp Hl] Hf. unfold EB.toRing.
  destruct (ER_Write_spec (ring eb) (ringMem w) p Hr Hp Hf) as (er & rp & -> & ? & ? & Hc & HL).
  cbn [mbind option_bind]. do 2 eexists. split_and!; [done|by constructor| |done].
  unfold EB.bytes. cbn. by rewrite Hc, !app_nil_r.
Qed.

Lemma split_spec eb w p k :
  EB.erepr eb w [] -> 0 <= k < zlen p -> zlen p < 2 ^ 63 ->
  k <= ER.Available (ring eb) \/ (ER.Len (ring eb) = 0 /\ k <= defaultRingCap) ->
  EB.appended eb [] p (EB.split eb w p k).
Proof.
  intros Hr Hk Hs Hf. unfold EB.split. rewrite (zslice_Some p 0 k), Z.sub_0_r, zdrop_le0 by lia.
  cbn [mbind option_bind].
  destruct (toRing_spec eb w (ztake k p) Hr) as (eb1 & w1 & -> & Hr1 & Hb1 & _);
    [rewrite zlen_ztake; lia|].
  cbn [mbind option_bind]. rewrite (zslice_Some p k (zlen p)) by lia. cbn [mbind option_bind].
  rewrite ztake_ge by (rewrite zlen_zdrop; lia).
  destruct (toList_spec eb1 w1 [] (zdrop k p) Hr1) as (eb2 & w2 & xs & -> & Hr2 & Hb2);
    [rewrite zlen_zdrop; lia|].
  exists eb2, w2, xs. split_and!; [done..|]. by rewrite Hb2, Hb1, <- app_assoc, ztake_zdrop.
Qed.

Lemma shouldOverflow_false eb w xs :
  EB.erepr eb w xs -> EB.shouldOverflow eb = false ->
  xs = [] /\ ER.Buffered (ring eb) < maxStaticBytes eb.
Proof.
  intros [Hm Hr Hp Hl] Ho. unfold EB.shouldOverflow in Ho.
  apply orb_false_iff in Ho as [Ho1 Ho2]. apply negb_false_iff in Ho1.
  split; [by apply (repr_IsEmpty _ _ _ Hl)|lia].
Qed.

Lemma EB_Write_spec eb w xs p :
  EB.erepr eb w xs -> zlen p <= defaultRingCap ->
  exists eb' w' xs', EB.Write eb w p = Some (eb', w', zlen p) /\ EB.erepr eb' w' xs' /\
    EB.bytes eb' xs' = EB.bytes eb xs ++ p.
Proof.
  intros Hr Hp. unfold EB.Write. unfold defaultRingCap in *.
  destruct (Z.eqb_spec (zlen p) 0) as [Hz|Hz].
  { rewrite Hz. apply zlen_zero in Hz as ->. exists eb, w, xs. by rewrite app_nil_r. }
  destruct (EB.shouldOverflow eb) eqn:Ho.
  { destruct (toList_spec eb w xs p Hr) as (eb' & w' & xs' & -> & ? & ?); [lia|]. cbn. eauto 6. }
  apply (shouldOverflow_false eb w xs Hr) in Ho as [-> Hlt].
  pose proof (ER_Len_Available _ (EB.er_ring _ _ _ Hr)) as (HA & HL & HA0).
  pose proof (EB.er_max _ _ _ Hr) as Hm. unfold defaultRingCap in *.
  destruct ((maxStaticBytes eb <=? ER.Len (ring eb)) && _) eqn:Hc.
  - destruct (split_spec eb w p (ER.Available (ring eb)) Hr) as (eb' & w' & xs' & -> & ? & ?);
      [lia..|]. cbn. eauto 6.
  - destruct (toRing_spec eb w p Hr) as (eb' & w' & -> & ? & ? & _); [unfold defaultRingCap; lia|].
    eauto 6.
Qed.

Lemma writeAllToList_spec ps : forall eb w xs t,
  EB.erepr eb w xs -> Forall (fun p => zlen p < 2 ^ 63) ps ->
  exists eb' w' xs', EB.writeAllToList ps eb w t = Some (eb', w', t + zlen (concat ps)) /\
    EB.erepr eb' w' xs' /\ EB.bytes eb' xs' = EB.bytes eb xs ++ concat ps.
Proof.
  induction ps as [|p ps IH]; intros eb w xs t Hr Hs; cbn [EB.writeAllToList concat].
  - exists eb, w, xs. rewrite app_nil_r. change (zlen (@nil byte)) with 0. by rewrite Z.add_0_r.
  - apply Forall_cons in Hs as [Hp Hs].
    destruct (toList_spec eb w xs p Hr Hp) as (eb1 & w1 & xs1 & -> & Hr1 & Hb1).
    cbn [mbind option_bind].
    destruct (IH eb1 w1 xs1 (t + zlen p) Hr1 Hs) as (eb2 & w2 & xs2 & -> & Hr2 & Hb2).
    exists eb2, w2, xs2. rewrite Hb2, Hb1, zlen_app, Z.add_assoc, <- app_assoc. done.
Qed.

Lemma splitLoop_spec ps : forall eb w k t,
  EB.erepr eb w [] -> Forall (fun p => zlen p < 2 ^ 63) ps -> 0 <= k ->
  k <= ER.Available (ring eb) \/ (ER.Len (ring eb) = 0 /\ k <= defaultRingCap) ->
  exists eb' w' xs', EB.splitLoop ps eb w k t = Some (eb', w', t + zlen (concat ps)) /\
    EB.erepr eb' w' xs' /\ EB.bytes eb' xs' = EB.bytes eb [] ++ concat ps.
Proof.
  induction ps as [|p ps IH]; intros eb w k t Hr Hs Hk Hf; cbn [EB.splitLoop concat].
  - exists eb, w, []. rewrite app_nil_r. change (zlen (@nil byte)) with 0. by rewrite Z.add_0_r.
  - apply Forall_cons in Hs as [Hp Hs]. pose proof (zlen_nonneg p).
    destruct (Z.ltb_spec k (zlen p)).
    + destruct (split_spec eb w p k Hr) as (eb1 & w1 & xs1 & -> & Hr1 & Hb1); [done..|].
      cbn [mbind option_bind].
      destruct (writeAllToList_spec ps eb1 w1 xs1 (t + zlen p) Hr1 Hs)
        as (eb2 & w2 & xs2 & -> & Hr2 & Hb2).
      exists eb2, w2, xs2. rewrite Hb2, Hb1, zlen_app, Z.add_assoc, <- app_assoc. done.
    + destruct (toRing_spec eb w p Hr) as (eb1 & w1 & -> & Hr1 & Hb1 & HL1); [lia|].
      cbn [mbind option_bind].
      pose proof (ER_Len_Available _ (EB.er_ring _ _ _ Hr)) as (HA & HL & HA0).
      pose proof (ER_Len_Available _ (EB.er_ring _ _ _ Hr1)) as (HA' & HL' & HA0').
      unfold EB.bytes in Hb1. cbn in Hb1. rewrite !app_nil_r in Hb1.
      rewrite (ER_Buffered_contents _ (EB.er_ring _ _ _ Hr)) in HA.
      rewrite (ER_Buffered_contents _ (EB.er_ring _ _ _ Hr1)), Hb1, zlen_app in HA'.
      destruct (IH eb1 w1 (k - zlen p) (t + zlen p) Hr1 Hs) as (eb2 & w2 & xs2 & -> & Hr2 & Hb2);
        [lia| |].
      { pose proof (zlen_nonneg (ER.contents (ring eb))). unfold defaultRingCap in *. lia. }
      exists eb2, w2, xs2. rewrite Hb2. unfold EB.bytes. cbn.
      rewrite Hb1, zlen_app, Z.add_assoc, !app_nil_r, <- app_assoc. done.
Qed.

Lemma EB_Writev_spec eb w xs ps :
  EB.erepr eb w xs -> Forall (fun p => zlen p < 2 ^ 63) ps ->
  exists eb' w' xs', EB.Writev eb w ps = Some (eb', w', zlen (concat ps)) /\
    EB.erepr eb' w' xs' /\ EB.bytes eb' xs' = EB.bytes eb xs ++ concat ps.
Proof.
  intros Hr Hs. unfold EB.Writev. destruct (Z.eqb_spec (zlen ps) 0) as [Hz|Hz].
  { apply zlen_zero in Hz as ->. exists eb, w, xs. cbn. by rewrite app_nil_r. }
  destruct (EB.shouldOverflow eb) eqn:Ho.
  { by apply (writeAllToList_spec ps eb w xs 0). }
  apply (shouldOverflow_false eb w xs Hr) in Ho as [-> Hlt]. unfold EB.writeSplitRingAndList.
  pose proof (ER_Len_Available _ (EB.er_ring _ _ _ Hr)) as (HA & HL & HA0).
  pose proof (EB.er_max _ _ _ Hr) as Hm.
  pose proof (ER_Buffered_contents _ (EB.er_ring _ _ _ Hr)).
  pose proof (zlen_nonneg (ER.contents (ring eb))).
  apply (splitLoop_spec ps eb w _ 0 Hr Hs); zb; unfold defaultRingCap in *; lia.
Qed.

Lemma EB_Read_spec eb w xs p :
  EB.erepr eb w xs -> p <> [] ->
  exists eb' w' xs' err, EB.Read eb w p =
      Some (eb', w', gcopy p (EB.bytes eb xs), Z.min (zlen p) (zlen (EB.bytes eb xs)), err) /\
    EB.erepr eb' w' xs' /\ EB.bytes eb' xs' = zdrop (zlen p) (EB.bytes eb xs) /\
    (err = None /\ EB.bytes eb xs <> [] \/
     err = Some EOF /\ zlen (EB.bytes eb xs) < zlen p).
Proof.
  intros [Hm Hr Hp Hl] Hne. unfold EB.Read, EB.bytes. pose proof (zlen_nonneg p).
  assert (Hne' : zlen p <> 0) by (by rewrite zlen_zero).
  rewrite (proj2 (Z.eqb_neq (zlen p) 0)) by done. set (rc := ER.contents (ring eb)).
  destruct (ER_Read_spec (ring eb) (ringMem w) p Hr Hp Hne) as (er & rp & err & -> & Hr' & Hp' & Hc & He).
  fold rc in Hc, He |- *. pose proof (zlen_nonneg rc). pose proof (zlen_nonneg (bytesOf xs)).
  cbn [mbind option_bind]. rewrite !zlen_app, zlen_gcopy.
  destruct (Z.eqb_spec (Z.min (zlen p) (zlen rc)) (zlen p)) as [E|E].
  - assert (Hrc : rc <> []) by (rewrite <- zlen_zero; lia).
    exists (EB.setRing eb er), (mkEWorld rp (listMem w)), xs, None.
    rewrite (He Hrc), gcopy_front by lia. split_and!; [|by constructor| |].
    + by replace (Z.min (zlen p) (zlen rc + zlen (bytesOf xs))) with (Z.min (zlen p) (zlen rc)) by lia.
    + cbn. by rewrite Hc, zdrop_app_le by lia.
    + left. split; [done|]. destruct rc; [done|]. discriminate.
  - assert (Hlt : zlen rc < zlen p) by lia. rewrite (Z.min_r (zlen p) (zlen rc)) by lia.
    rewrite (zslice_Some (gcopy p rc)) by (rewrite ?zlen_gcopy; lia). cbn [mbind option_bind].
    rewrite (ztake_ge (zlen p - zlen rc)) by (rewrite zlen_zdrop; rewrite zlen_gcopy; lia).
    assert (Hlr : zlen (zdrop (zlen rc) (gcopy p rc)) = zlen p - zlen rc).
    { rewrite zlen_zdrop; rewrite zlen_gcopy; lia. }
    cbn [elist EB.setRing listMem].
    destruct (ll_Read_spec accepts_all (elist eb) (listMem w) xs
      (zdrop (zlen rc) (gcopy p rc)) Hl) as (ll & lw & xs' & -> & Hl' & Hb);
      [rewrite <- zlen_zero; lia|].
    cbn [mbind option_bind]. rewrite Hlr in *.
    exists (EB.setList (EB.setRing eb er) ll), (mkEWorld rp lw), xs',
      (if zlen (bytesOf xs) =? 0 then Some EOF else None). split_and!; [|by constructor| |].
    + rewrite gcopy_app by lia.
      replace (Z.min (zlen p) (zlen rc + zlen (bytesOf xs)))
        with (zlen rc + Z.min (zlen p - zlen rc) (zlen (bytesOf xs))) by lia.
      reflexivity.
    + cbn. rewrite Hc, Hb, (zdrop_app_ge (zlen p)), (zdrop_ge (zlen p) rc) by lia. done.
    + destruct (Z.eqb_spec (zlen (bytesOf xs)) 0) as [Z0|Z0]; [right; split; [done|lia]|].
      left. split; [done|]. rewrite <- zlen_zero, zlen_app. lia.
Qed.

Lemma EB_Discard_spec eb w xs n :
  EB.erepr eb w xs ->
  exists eb' w' xs', EB.Discard eb w n =
      Some (eb', w', Z.max 0 (Z.min n (zlen (EB.bytes eb xs))), None) /\
    EB.erepr eb' w' xs' /\ EB.bytes eb' xs' = zdrop n (EB.bytes eb xs).
Proof.
  intros [Hm Hr Hp Hl]. unfold EB.Discard, EB.bytes. set (rc := ER.contents (ring eb)).
  pose proof (zlen_nonneg rc). pose proof (zlen_nonneg (bytesOf xs)). rewrite zlen_app.
  destruct (Z.leb_spec n 0).
  { exists eb, w, xs. rewrite Z.max_l, zdrop_le0 by lia. done. }
  destruct (ER_Discard_spec (ring eb) (ringMem w) n Hr Hp) as (er & rp & err & -> & Hr' & Hp' & Hc & He).
  fold rc in Hc, He |- *. rewrite (Z.max_r 0 (Z.min n (zlen rc))) by lia.
  destruct (Z.leb_spec n (Z.min n (zlen rc))).
  - exists (EB.setRing eb er), (mkEWorld rp (listMem w)), xs.
    rewrite He by (rewrite <- zlen_zero; lia). split_and!; [|by constructor|].
    + do 3 f_equal. lia.
    + cbn. by rewrite Hc, zdrop_app_le by lia.
  - rewrite Z.min_r by lia.
    destruct (ll_Discard_spec accepts_all (elist eb) (listMem w) xs (n - zlen rc) Hl)
      as (ll & lw & xs' & E & Hl' & Hb).
    cbn [elist EB.setRing listMem]. rewrite E. cbn [mbind option_bind].
    exists (EB.setList (EB.setRing eb er) ll), (mkEWorld rp lw), xs'.
    split_and!; [|by constructor|].
    + do 3 f_equal. lia.
    + cbn. rewrite Hc, Hb, (zdrop_app_ge n), (zdrop_ge n rc) by lia. done.
Qed.

Lemma EB_Peek_spec eb w xs n :
  EB.erepr eb w xs ->
  exists cs err, EB.Peek eb w n = Some (cs, err) /\
    EB.spec (EB.bytes eb xs) (EB.EPeek n) (EB.bytes eb xs) (observeRead err (concat cs)).
Proof.
  intros Hrep. pose proof (erepr_Buffered eb w xs Hrep) as HB. destruct Hrep as [Hm Hr Hp Hl].
  unfold EB.Peek. rewrite HB. set (all := (n <=? 0) || (n =? MaxInt32)). set (q := EB.bytes eb xs).
  destruct (negb all && (zlen q <? n)) eqn:Hs.
  { do 2 eexists; split; [done|]. cbn. apply EB.s_peek_short; subst all; lia. }
  set (m := if all then MaxInt32 else n).
  assert (Hmpos : 0 < m) by (subst m all; unfold MaxInt32 in *; zb; cbn; lia).
  enough (exists cs, (('(h, t) ← ER.Peek (ring eb) m; if m <=? ER.Buffered (ring eb)
      then Some ([h; t], None) else PeekWithBytes (elist eb) (listMem w) m [h; t]) = Some (cs, None)) /\
      concat cs = ztake m q) as (cs & -> & Hcs).
  { do 2 eexists; split; [done|]. cbn. rewrite Hcs. subst m all.
    destruct ((n <=? 0) || (n =? MaxInt32)) eqn:Ha.
    - apply EB.s_peek_all. lia.
    - apply EB.s_peek; [cbn in Hs; lia|lia]. }
  destruct (ER_Peek_spec (ring eb) m Hr Hmpos) as (h & t & -> & Ht). cbn [mbind option_bind].
  rewrite ER_Buffered_contents by done. subst q. unfold EB.bytes in *.
  destruct (Z.leb_spec m (zlen (ER.contents (ring eb)))).
  { eexists; split; [done|]. cbn. by rewrite app_nil_r, Ht, ztake_app_le by lia. }
  rewrite ztake_ge in Ht by lia. unfold PeekWithBytes, LinkedList.Buffered.
  destruct (collectBytes_spec (elist eb) (listMem w) xs m [h; t] Hl Hmpos) as (r & E & Hc).
  cbn in Hc. rewrite app_nil_r, Ht in Hc. cbn [foldl]. rewrite Z.add_0_l, <- zlen_app, Ht.
  destruct ((m <=? 0) || (m =? MaxInt32)) eqn:Ha.
  - assert (m = MaxInt32) by lia. replace MaxInt32 with m. rewrite E. eauto.
  - assert (m = n) by (subst m all; destruct ((n <=? 0) || (n =? MaxInt32)); lia).
    rewrite (repr_bytes _ _ _ Hl), Z.add_comm, <- zlen_app.
    assert (all = false) as Hall by (subst m; destruct all; lia).
    rewrite Hall in Hs. cbn in Hs. replace m with n in * by done. rewrite Hs, E. eauto.
Qed.

Lemma ER_Reset_ok er : ER.ok er -> ER.ok (ER.Reset er) /\ ER.contents (ER.Reset er) = [].
Proof.
  destruct er as [rb|]; [|done]. intros [Hwf Hs]. split; [|done]. split; [|done]. by apply Reset_wf, Hwf.
Qed.

Lemma EB_Reset_spec eb w xs m :
  EB.erepr eb w xs -> m <= defaultRingCap ->
  exists eb' w', EB.Reset eb w m = Some (eb', w') /\ EB.erepr eb' w' [] /\ EB.bytes eb' [] = [].
Proof.
  intros [Hm Hr Hp Hl] Hd. unfold EB.Reset.
  destruct (LinkedList.Reset_spec (elist eb) (listMem w) xs Hl) as (lw & -> & Hl').
  destruct (ER_Reset_ok _ Hr) as [Hr' Hc]. cbn [mbind option_bind].
  do 2 eexists. split_and!; [done| |unfold EB.bytes; cbn; by rewrite Hc].
  constructor; [cbn; zb; lia|done..].
Qed.

Lemma EB_Release_spec eb w xs :
  EB.erepr eb w xs ->
  exists eb' w', EB.Release eb w = Some (eb', w') /\ EB.erepr eb' w' [] /\ EB.bytes eb' [] = [].
Proof.
  intros [Hm Hr Hp Hl]. unfold EB.Release.
  destruct (LinkedList.Reset_spec (elist eb) (listMem w) xs Hl) as (lw & E & Hl').
  destruct (ER_Reset_ok _ Hr) as [Hr' Hc].
  destruct (ring eb) as [rb|] eqn:Er; cbn [ER.Done]; rewrite E; cbn [mbind option_bind];
    (do 2 eexists; split_and!; [done| |done]); constructor; try done.
  constructor; [by split|done].
Qed.

Lemma EB_step_refines eb w xs o :
  EB.erepr eb w xs -> EB.modest o ->
  exists eb' w' xs' x, EB.step eb w o = Some (eb', w', x) /\ EB.erepr eb' w' xs' /\
    EB.spec (EB.bytes eb xs) o (EB.bytes eb' xs') x.
Proof.
  intros Hr Hs. destruct o as [p|ps|n|n|n|m| |]; cbn [EB.step EB.modest] in *.
  - destruct (EB_Write_spec eb w xs p Hr Hs) as (? & ? & ? & -> & ? & Hb).
    do 4 eexists. split_and!; [done..|]. rewrite Hb. constructor.
  - destruct (EB_Writev_spec eb w xs ps Hr Hs) as (? & ? & ? & -> & ? & Hb).
    do 4 eexists. split_and!; [done..|]. rewrite Hb. constructor.
  - destruct (Z.leb_spec n 0).
    { assert (zeros n = []) as -> by (unfold zeros; by replace (Z.to_nat n) with 0%nat by lia).
      do 4 eexists. split_and!; [done..|]. by constructor. }
    assert (Hz : zlen (zeros n) = n) by (apply zeros_zlen; lia).
    destruct (EB_Read_spec eb w xs (zeros n) Hr) as (? & ? & ? & err & -> & ? & Hb & Herr).
    { rewrite <- zlen_zero. lia. }
    cbn [mbind option_bind]. rewrite read_prefix. rewrite Hz in *.
    do 4 eexists. split_and!; [done..|]. rewrite Hb.
    destruct Herr as [[-> ?]|[-> ?]]; [by apply EB.s_read|].
    rewrite zdrop_ge, ztake_ge by lia. by apply EB.s_read_eof.
  - destruct (EB_Discard_spec eb w xs n Hr) as (? & ? & ? & -> & ? & Hb).
    do 4 eexists. split_and!; [done..|]. rewrite Hb. constructor.
  - destruct (EB_Peek_spec eb w xs n Hr) as (? & ? & -> & Hsp). do 4 eexists. split_and!; done.
  - destruct (EB_Reset_spec eb w xs m Hr Hs) as (? & ? & -> & ? & Hb).
    do 4 eexists. split_and!; [done..|]. rewrite Hb. constructor.
  - destruct (EB_Release_spec eb w xs Hr) as (? & ? & -> & ? & Hb).
    do 4 eexists. split_and!; [done..|]. rewrite Hb. constructor.
  - do 4 eexists. split_and!; [done..|]. rewrite (erepr_Buffered eb w xs Hr). constructor.
Qed.

Lemma EB_run_refines os : forall eb w xs,
  EB.erepr eb w xs -> Forall EB.modest os ->
  exists eb' w' xs' obs, EB.run eb w os = Some (eb', w', obs) /\ EB.erepr eb' w' xs' /\
    EB.spec_run (EB.bytes eb xs) os (EB.bytes eb' xs') obs.
Proof.
  induction os as [|o os IH]; intros eb w xs Hr Hs.
  - do 4 eexists. split_and!; [done..|constructor].
  - apply Forall_cons in Hs as [Ho Hs].
    destruct (EB_step_refines eb w xs o Hr Ho) as (eb1 & w1 & xs1 & x & E & Hr1 & Hx).
    destruct (IH eb1 w1 xs1 Hr1 Hs) as (eb2 & w2 & xs2 & ob & E2 & Hr2 & Hx2).
    cbn [EB.run]. rewrite E. cbn [mbind option_bind]. rewrite E2.
    do 4 eexists. split_and!; [done..|]. by econstructor.
Qed.
End EBFacts.

(** ** Properties *)

(** An elastic buffer with a static limit of at most 1024 bytes, on a byte pool that
    takes back any slice and a ring pool in order, is a queue of bytes: every sequence of
    writes (of at most 1024 bytes each, scattered writes of any size), reads, discards,
    peeks, resets and releases runs without a panic and shows what the queue shows,
    whichever rings the pool hands out and however the bytes are split between ring and
    list.  (The repository's own byte pool does not take back a partly consumed slice,
    and panics: [ll_partial_read_poisons_pool].) *)
Theorem elastic_refines_queue `{ByteSource} {P} `{BytePool P} m rp h (p : P) (os : list EB.eop) :
  (forall s, accepts s) -> pinv p -> ER.pool_ok rp -> 0 < m <= defaultRingCap ->
  Forall EB.modest os ->
  exists eb eb' w xs obs,
    EB.NewElastic m = inl eb /\
    EB.run eb (mkEWorld rp (mkWorld h p)) os = Some (eb', w, obs) /\
    EB.spec_run [] os (EB.bytes eb' xs) obs /\ EB.Buffered eb' = zlen (EB.bytes eb' xs).
Proof.
  intros Ha Hp Hrp Hm Hs. unfold EB.NewElastic. destruct (Z.leb_spec m 0); [lia|].
  destruct (EB_run_refines Ha os (mkElastic m None emptyLL) (mkEWorld rp (mkWorld h p)) [])
    as (eb & w & xs & ob & E & Hr & Hsp); [|done|].
  { constructor; try done. by apply repr_empty. }
  do 5 eexists. split_and!; [done..|]. by apply (erepr_Buffered eb w xs).
Qed.

Lemma elastic_refines_queue_witness :
  exists eb eb' w xs obs,
    EB.NewElastic 4 = inl eb /\
    EB.run eb (mkEWorld (mkRingPool [] []) (mkWorld ∅ tt))
      [EB.EWrite [1;2;3]; EB.EWritev [[4;5];[6]]; EB.ERead 4; EB.EPeek 1; EB.EDiscard 1;
       EB.EBuffered; EB.ERead 9] = Some (eb', w, obs) /\
    EB.spec_run [] [EB.EWrite [1;2;3]; EB.EWritev [[4;5];[6]]; EB.ERead 4; EB.EPeek 1;
       EB.EDiscard 1; EB.EBuffered; EB.ERead 9] (EB.bytes eb' xs) obs /\
    EB.Buffered eb' = zlen (EB.bytes eb' xs).
Proof.
  apply (elastic_refines_queue 4 (mkRingPool [] []) ∅ tt).
  - intros s. exact I.
  - exact I.
  - constructor.
  - unfold defaultRingCap. lia.
  - repeat constructor; vm_compute; congruence.
Defined.

(** With a larger static limit the bytes are corrupted: after writes of 1000 and
    3500 bytes the ring has 4500 bytes of storage, its index mask is no longer a
    modulus, and a [Discard] of 3000 bytes leaves a buffer that claims more bytes
    than remain. *)
Theorem elastic_large_write_corrupts :
  match EB.NewElastic 8192 with
  | inl eb =>
      '(_, _, obs) ← EB.run eb (mkEWorld (mkRingPool [] []) (mkWorld ∅ tt))
        [EB.EWrite (replicate 1000 1); EB.EWrite (replicate 3500 2); EB.EBuffered;
         EB.EDiscard 3000; EB.EBuffered];
      Some obs
  | inr _ => None
  end = Some [Count 1000; Count 3500; Count 4500; Count 3000; Count 4100].
Proof. vm_compute. reflexivity. Qed.
