(* ===== verification/Buffer.v ===== *)
(** * Buffer: the append-only byte buffer of length-prefixed slices
      (src/pkg/datastructs/buffer/buffer.go, slice.go, iter.go)

    [Buffer] is the Go struct; its backing slice is an array of the full capacity
    together with the slice's length, since [b.data[i:]] ends at the length while
    [b.data[i:j]] may reach up to the capacity.  A nil slice is [None].  Panics are
    [None].  Sizes are unbounded [Z], except where a stored 64-bit length is read
    back. *)
From stdpp Require Import base list option.
From Stdlib Require Import ZArith Lia.
From S2P Require Import Prelude Endian.

(** ** Definitions *)

Definition defaultCapacity : Z := 64.
Definition headerSize : Z := 8.
Definition maxGrowth : Z := Z.shiftl 1 30.

Record Buffer := mkBuffer {
  padding : Z;
  offset : Z;
  data : option (list byte);  (* the backing array; None when nil *)
  dataLen : Z;                (* len(data) *)
  cap : Z;
  max : Z;
  hasReleaseFn : bool;
}.

(** [b.data[i:j]], bounded by the capacity of the slice. *)
Definition arr (b : Buffer) : list byte :=
  match data b with Some a => a | None => [] end.
Definition sub (b : Buffer) (i j : Z) : option (list byte) := zslice (arr b) i j.
(** [b.data[i:]], bounded by its length. *)
Definition from (b : Buffer) (i : Z) : option (list byte) :=
  zslice (ztake (dataLen b) (arr b)) i (dataLen b).

Definition setOffset (b : Buffer) (o : Z) : Buffer :=
  mkBuffer (padding b) o (data b) (dataLen b) (cap b) (max b) (hasReleaseFn b).
(** Store [p] in the array at [i]; what lies past [lim] is not written. *)
Definition store (b : Buffer) (i lim : Z) (p : list byte) : option Buffer :=
  a ← copy_at (ztake lim (arr b)) i p;
  Some (mkBuffer (padding b) (offset b) (Some (a ++ zdrop lim (arr b))) (dataLen b) (cap b) (max b)
          (hasReleaseFn b)).

Definition New (capacity : Z) : Buffer :=
  let capacity := if capacity <? defaultCapacity then defaultCapacity else capacity in
  mkBuffer headerSize headerSize (Some (zeros capacity)) capacity capacity 0 false.

(** [NewSlice] of a slice with the given backing array and length. *)
Definition NewSlice (array : list byte) (len : Z) : Buffer :=
  mkBuffer 0 len (Some array) len (zlen array) 0 false.

Definition WithMaxLimit (b : Buffer) (m : Z) : Buffer :=
  mkBuffer (padding b) (offset b) (data b) (dataLen b) (cap b) m (hasReleaseFn b).
Definition StartOffset (b : Buffer) : Z := padding b.
Definition IsEmpty (b : Buffer) : bool := offset b =? StartOffset b.
Definition Len (b : Buffer) : Z := offset b.
Definition LenNoPadding (b : Buffer) : Z := offset b - padding b.
Definition Bytes (b : Buffer) : option (list byte) := sub b (padding b) (offset b).

Definition Grow (b : Buffer) (n : Z) : option Buffer :=
  a ← data b;
  let currentOff := offset b in
  if (0 <? max b) && (max b <? currentOff + n) then None else
  if currentOff + n <=? cap b then Some b else
  let growBy := cap b + n in
  let growBy := if maxGrowth <? growBy then maxGrowth else growBy in
  let growBy := if growBy <? n then n else growBy in
  let cap' := cap b + growBy in
  old ← sub b 0 (offset b);
  Some (mkBuffer (padding b) (offset b) (Some (gcopy (zeros cap') old)) cap' cap' (max b)
          (hasReleaseFn b)).

(** [Allocate] returns the region [[off, off+n)] of the array. *)
Definition Allocate (b : Buffer) (n : Z) : option (Buffer * Z) :=
  b ← Grow b n;
  let off := offset b in
  let b := setOffset b (offset b + n) in
  _ ← sub b off (offset b);
  Some (b, off).

Definition AllocateOffset (b : Buffer) (n : Z) : option (Buffer * Z) :=
  b ← Grow b n;
  let b := setOffset b (offset b + n) in
  Some (b, offset b - n).

(** The error result is always nil. *)
Definition Write (b : Buffer) (p : list byte) : option (Buffer * Z) :=
  let n := zlen p in
  b ← Grow b n;
  b ← store b (offset b) (dataLen b) p;
  Some (setOffset b (offset b + n), n).

Definition Reset (b : Buffer) : Buffer := setOffset b (StartOffset b).

(** The callback belongs to the pool; it does not touch the struct. *)
Definition Release (b : Buffer) : Buffer :=
  if hasReleaseFn b then b
  else mkBuffer (padding b) (offset b) None 0 (cap b) (max b) (hasReleaseFn b).

Definition WriteTo {W} `{Writer W} (b : Buffer) (w : W) : option (W * Z * option error) :=
  bs ← Bytes b;
  if zlen bs =? 0 then Some (w, 0, None)
  else let '(n, err, w) := wr w bs in Some (w, n, err).

(** [Some None]: the fuel ran out before the reader ended. *)
Fixpoint ReadFrom {R} `{Reader R} (fuel : nat) (b : Buffer) (r : R) (total : Z)
    : option (option (Buffer * R * Z * option error)) :=
  match fuel with
  | O => Some None
  | S f =>
      b ← (if cap b - offset b <? 512 then Grow b 512 else Some b);
      dst ← sub b (offset b) (cap b);
      let '(bs, err, r) := rd r (zlen dst) in
      b ← store b (offset b) (cap b) bs;
      let b := setOffset b (offset b + zlen bs) in
      let total := total + zlen bs in
      match err with
      | Some e => Some (Some (b, r, total, if bool_decide (e = EOF) then None else Some e))
      | None => ReadFrom f b r total
      end
  end.

Definition Data (b : Buffer) (off : Z) : option (list byte) :=
  if cap b <? off then None else sub b off (cap b).

(** *** Length-prefixed slices *)

Definition writeLen (b : Buffer) (n : Z) : option Buffer :=
  '(b, off) ← Allocate b headerSize;
  store b off (off + headerSize) (be 8 n).

Definition SliceAllocate (b : Buffer) (n : Z) : option (Buffer * Z) :=
  b ← Grow b (headerSize + n);
  b ← writeLen b n;
  Allocate b n.

Definition WriteSlice (b : Buffer) (p : list byte) : option Buffer :=
  '(b, off) ← SliceAllocate b (zlen p);
  store b off (off + zlen p) p.

Definition Slice (b : Buffer) (off : Z) : option (list byte * Z) :=
  if offset b <=? off then Some ([], -1) else
  hdr ← from b off;
  blockLen ← BigEndianGet 8 hdr;
  let payloadStart := off + headerSize in
  let nextOffset := i64 (payloadStart + i64 blockLen) in
  payload ← sub b payloadStart nextOffset;
  Some (payload, if offset b <=? nextOffset then -1 else nextOffset).

(** Each round moves at least a header forward, so [offset] rounds are enough. *)
Fixpoint iterateLoop {T} (fn : T -> list byte -> T * option error) (fuel : nat) (b : Buffer)
    (next : Z) (st : T) : option (T * option error) :=
  if next <? 0 then Some (st, None) else
  match fuel with
  | O => None
  | S f =>
      '(p, next) ← Slice b next;
      if zlen p =? 0 then iterateLoop fn f b next st else
      match fn st p with
      | (st, Some e) => Some (st, Some e)
      | (st, None) => iterateLoop fn f b next st
      end
  end.

Definition SliceIterate {T} (fn : T -> list byte -> T * option error) (b : Buffer) (st : T)
    : option (T * option error) :=
  if IsEmpty b then Some (st, None)
  else iterateLoop fn (S (Z.to_nat (offset b))) b (StartOffset b) st.

Fixpoint offsetsLoop (fuel : nat) (b : Buffer) (next : Z) (offsets : list Z) : option (list Z) :=
  if next <? 0 then Some offsets else
  match fuel with
  | O => None
  | S f => '(_, nx) ← Slice b next; offsetsLoop f b nx (offsets ++ [next])
  end.

Definition SliceOffsets (b : Buffer) : option (list Z) :=
  offsetsLoop (S (Z.to_nat (offset b))) b (StartOffset b) [].

(** ** Invariant and abstraction *)

Record wf (b : Buffer) : Prop := {
  wf_arr : exists a, data b = Some a /\ zlen a = cap b;
  wf_len : dataLen b = cap b;
  wf_off : 0 <= padding b <= offset b;
  wf_cap : offset b <= cap b;
}.

(** The bytes written so far, padding included. *)
Definition written (b : Buffer) : list byte := ztake (offset b) (arr b).

(** A block as [WriteSlice] lays it out, and a run of blocks. *)
Definition block (p : list byte) : list byte := be 8 (zlen p) ++ p.
Definition blocks (ps : list (list byte)) : list byte := concat (block <$> ps).

(** The buffer holds exactly the slices [ps] behind its padding. *)
Definition holds (b : Buffer) (ps : list (list byte)) : Prop :=
  wf b /\ zdrop (padding b) (written b) = blocks ps /\ zlen (written b) < 2 ^ 62.

(** The offsets at which the blocks [ps] start when the first starts at [o]. *)
Fixpoint offsetsOf (o : Z) (ps : list (list byte)) : list Z :=
  match ps with [] => [] | p :: ps => o :: offsetsOf (o + headerSize + zlen p) ps end.

(** No room within the hard limit. *)
Definition over_limit (b : Buffer) (n : Z) : Prop := 0 < max b /\ max b < offset b + n.

(** What iterating over the slices [ps] does: empty ones are passed over, an error
    stops. *)
Fixpoint visit {T} (fn : T -> list byte -> T * option error) (st : T) (ps : list (list byte))
    : T * option error :=
  match ps with
  | [] => (st, None)
  | p :: ps =>
      if zlen p =? 0 then visit fn st ps else
      match fn st p with
      | (st, Some e) => (st, Some e)
      | (st, None) => visit fn st ps
      end
  end.

Fixpoint writeAll (b : Buffer) (ps : list (list byte)) : option Buffer :=
  match ps with [] => Some b | p :: ps => b ← WriteSlice b p; writeAll b ps end.

(** ** Lemmas *)

Lemma New_wf c : wf (New c).
Proof.
  unfold New, defaultCapacity, headerSize.
  constructor; cbn; [eexists; split; [done|apply zeros_zlen]|done|lia|]; zb; lia.
Qed.

Lemma zlen_written b : wf b -> zlen (written b) = offset b.
Proof.
  intros [(a & Ha & Hl) Hd Ho Hc]. unfold written, arr. rewrite Ha. apply zlen_ztake. cbn. lia.
Qed.

(** [Grow] makes room, keeps what was written, and panics only over the limit. *)
Lemma Grow_spec b n :
  wf b -> 0 <= n -> ~ over_limit b n ->
  exists b', Grow b n = Some b' /\ wf b' /\ written b' = written b /\ offset b + n <= cap b' /\
    padding b' = padding b /\ offset b' = offset b /\ max b' = max b /\
    (offset b + n <= cap b -> b' = b).
Proof.
  intros Hwf Hn Hm. pose proof (zlen_written b Hwf) as Hw.
  pose proof Hwf as [(a & Ha & Hl) Hd Ho Hc]. unfold Grow, over_limit in *.
  rewrite Ha. cbn [mbind option_bind].
  destruct ((0 <? max b) && (max b <? offset b + n)) eqn:E; [lia|].
  destruct (Z.leb_spec (offset b + n) (cap b)).
  { exists b. split_and!; try done; lia. }
  unfold sub, arr. rewrite Ha. rewrite zslice_Some by lia. cbn [mbind option_bind].
  rewrite Z.sub_0_r, zdrop_le0 by lia.
  set (g := if (if maxGrowth <? cap b + n then maxGrowth else cap b + n) <? n then n
            else if maxGrowth <? cap b + n then maxGrowth else cap b + n).
  assert (Hg : n <= g) by (unfold g; zb; lia). assert (Hz : zlen (zeros (cap b + g)) = cap b + g)
    by (apply zeros_zlen; lia).
  assert (Ht : zlen (ztake (offset b) a) = offset b) by (apply zlen_ztake; lia).
  eexists. split; [done|]. split_and!; cbn; try done; try lia.
  - constructor; cbn; [eexists; split; [done|by rewrite zlen_gcopy]|done|lia|lia].
  - unfold written, arr. cbn. rewrite Ha. cbn. rewrite gcopy_ge, ztake_app_le, ztake_ge by lia. done.
Qed.

Lemma Grow_over_limit b n : over_limit b n -> Grow b n = None.
Proof.
  intros [? ?]. unfold Grow. destruct (data b); [|done]. cbn.
  by rewrite (proj2 (Z.ltb_lt 0 (max b))), (proj2 (Z.ltb_lt (max b) (offset b + n))) by lia.
Qed.

(** Storing inside the reserved region, then moving the offset behind it. *)
Lemma store_written b i lim p :
  wf b -> i = offset b -> i + zlen p <= lim -> lim <= cap b ->
  exists b', store b i lim p = Some b' /\ wf (setOffset b' (i + zlen p)) /\
    written (setOffset b' (i + zlen p)) = written b ++ p /\
    cap b' = cap b /\ padding b' = padding b /\ offset b' = offset b /\ max b' = max b.
Proof.
  intros Hwf -> Hi Hlim. pose proof (zlen_nonneg p). pose proof (zlen_written b Hwf) as Hw.
  destruct Hwf as [(a & Ha & Hl) Hd Ho Hc]. unfold store, arr. rewrite Ha.
  assert (Htl : zlen (ztake lim a) = lim) by (apply zlen_ztake; lia).
  rewrite copy_at_eq by lia. cbn [mbind option_bind]. eexists. split; [done|].
  assert (Hlen : zlen ((ztake (offset b) (ztake lim a) ++ p ++ zdrop (offset b + zlen p) (ztake lim a))
                       ++ zdrop lim a) = cap b).
  { rewrite zlen_app, zlen_splice, zlen_zdrop by lia. lia. }
  split_and!; try done.
  - constructor; cbn; [eexists; split; [done|done]|done|lia|lia].
  - unfold written, arr in *. cbn. rewrite Ha. cbn. rewrite ztake_ztake, Z.min_l by lia.
    assert (Hto : zlen (ztake (offset b) a) = offset b) by (apply zlen_ztake; lia).
    rewrite <- !app_assoc, (app_assoc (ztake (offset b) a) p).
    rewrite ztake_app_le, ztake_ge; rewrite ?zlen_app; lia || done.
Qed.

Lemma store_setOffset b o i lim p :
  store (setOffset b o) i lim p = b' ← store b i lim p; Some (setOffset b' o).
Proof. unfold store, arr. cbn. destruct (copy_at _ _ _); done. Qed.

(** [Allocate] followed by a copy into the allocated region appends. *)
Lemma put_spec b p :
  wf b -> offset b + zlen p <= cap b -> ~ over_limit b (zlen p) ->
  exists b', ('(b, off) ← Allocate b (zlen p); store b off (off + zlen p) p) = Some b' /\
    wf b' /\ written b' = written b ++ p /\ cap b' = cap b /\ padding b' = padding b /\
    offset b' = offset b + zlen p /\ max b' = max b.
Proof.
  intros Hwf Hc Hl. pose proof (zlen_nonneg p). unfold Allocate.
  destruct (Grow_spec b (zlen p) Hwf) as (b1 & E & _ & _ & _ & _ & _ & _ & Hsame); [lia|done|].
  rewrite E, (Hsame Hc). clear b1 E Hsame. cbn [mbind option_bind offset setOffset].
  unfold sub. pose proof Hwf as [(a & Ha & Hla) Hd Ho Hcap].
  unfold arr at 1. cbn [setOffset data]. rewrite Ha, zslice_Some by lia. cbn [mbind option_bind].
  rewrite store_setOffset.
  destruct (store_written b (offset b) (offset b + zlen p) p Hwf eq_refl) as
    (b2 & -> & Hw & Hwr & Hcp & Hpd & _ & Hmx); [lia..|].
  cbn. eexists; split; [done|]. split_and!; done.
Qed.

Lemma zlen_block p : zlen (block p) = headerSize + zlen p.
Proof. unfold block. by rewrite zlen_app, zlen_be. Qed.

Lemma WriteSlice_spec b p :
  wf b -> ~ over_limit b (headerSize + zlen p) ->
  exists b', WriteSlice b p = Some b' /\ wf b' /\ written b' = written b ++ block p /\
    padding b' = padding b /\ max b' = max b.
Proof.
  intros Hwf Hl. pose proof (zlen_nonneg p). unfold WriteSlice, SliceAllocate, headerSize in *.
  destruct (Grow_spec b (8 + zlen p) Hwf) as (b1 & -> & Hw1 & Hwr1 & Hc1 & Hp1 & Ho1 & Hm1 & _);
    [lia|done|].
  cbn [mbind option_bind]. unfold writeLen. change headerSize with (zlen (be 8 (zlen p))).
  assert (Hbe : zlen (be 8 (zlen p)) = 8) by apply zlen_be. unfold over_limit in *.
  destruct (put_spec b1 (be 8 (zlen p)) Hw1) as (b2 & -> & Hw2 & Hwr2 & Hc2 & Hp2 & Ho2 & Hm2);
    [lia|unfold over_limit; lia|].
  cbn [mbind option_bind].
  destruct (put_spec b2 p Hw2) as (b3 & E & Hw3 & Hwr3 & Hc3 & Hp3 & Ho3 & Hm3);
    [lia|unfold over_limit; lia|].
  exists b3. split; [exact E|]. unfold block. rewrite app_assoc, <- Hwr1, <- Hwr2.
  split_and!; [done|done|lia|lia].
Qed.

Lemma buffer_Write_spec b p :
  wf b -> ~ over_limit b (zlen p) ->
  exists b', Write b p = Some (b', zlen p) /\ wf b' /\ written b' = written b ++ p /\
    padding b' = padding b /\ max b' = max b.
Proof.
  intros Hwf Hl. pose proof (zlen_nonneg p). unfold Write.
  destruct (Grow_spec b (zlen p) Hwf) as (b1 & -> & Hw1 & Hwr1 & Hc1 & Hp1 & Ho1 & Hm1 & _);
    [lia|done|].
  cbn [mbind option_bind].
  destruct (store_written b1 (offset b1) (dataLen b1) p Hw1 eq_refl) as
    (b2 & -> & Hw2 & Hwr2 & Hcp & Hpd & Ho2 & Hmx).
  { rewrite (wf_len _ Hw1). lia. }
  { rewrite (wf_len _ Hw1). lia. }
  cbn [mbind option_bind]. rewrite Ho2, <- Hwr1, <- Hpd, <- Hmx in *. eexists. split; [done|].
  split_and!; [done|done|done|cbn; lia].
Qed.

Lemma buffer_Bytes_spec b : wf b -> Bytes b = Some (zdrop (padding b) (written b)).
Proof.
  intros [(a & Ha & Hl) Hd Ho Hc]. unfold Bytes, sub, written, arr. rewrite Ha.
  rewrite zslice_Some, zdrop_ztake by lia. done.
Qed.

(** A block inside the written bytes is read back, with the offset of the next. *)
Lemma Slice_spec b pre p post :
  wf b -> written b = pre ++ block p ++ post -> zlen (written b) < 2 ^ 62 ->
  Slice b (zlen pre) =
    Some (p, match post with [] => -1 | _ => zlen pre + headerSize + zlen p end).
Proof.
  intros Hwf Hw Hsmall. pose proof (zlen_written b Hwf) as Ho.
  pose proof (zlen_nonneg pre). pose proof (zlen_nonneg p). pose proof (zlen_nonneg post).
  assert (Hoff : offset b = zlen pre + headerSize + zlen p + zlen post)
    by (rewrite <- Ho, Hw, !zlen_app, zlen_block; lia).
  unfold headerSize in *. unfold Slice. destruct (Z.leb_spec (offset b) (zlen pre)); [lia|].
  destruct Hwf as [(a & Ha & Hl) Hd Hpo Hc]. unfold from, sub, written, arr in *. rewrite Ha in *.
  assert (Hdec : a = pre ++ block p ++ post ++ zdrop (offset b) a).
  { rewrite <- (ztake_zdrop (offset b) a) at 1. rewrite Hw, <- !app_assoc. done. }
  rewrite (ztake_ge (dataLen b) a), (zslice_Some a (zlen pre)) by lia. cbn [mbind option_bind].
  rewrite (ztake_ge (dataLen b - zlen pre)) by (rewrite zlen_zdrop; lia).
  assert (Hd1 : zdrop (zlen pre) a = block p ++ post ++ zdrop (offset b) a).
  { rewrite Hdec at 1. rewrite zdrop_app_ge, Z.sub_diag, zdrop_le0 by lia. done. }
  rewrite Hd1. unfold block. rewrite <- app_assoc. change 8 with (Z.of_nat 8) at 1.
  rewrite BigEndianGet_be by (change (256 ^ Z.of_nat 8) with (2 ^ 64); lia).
  cbn [mbind option_bind]. unfold headerSize.
  rewrite (i64_small (zlen p)), (i64_small (zlen pre + 8 + zlen p)) by lia.
  rewrite (zslice_Some a (zlen pre + 8)) by lia. cbn [mbind option_bind].
  rewrite (Z.add_comm (zlen pre) 8), <- (zdrop_zdrop 8 (zlen pre)), Hd1 by lia.
  unfold block. rewrite <- app_assoc, zdrop_app_ge, zlen_be, Z.sub_diag, zdrop_le0 by (rewrite ?zlen_be; lia).
  replace (8 + zlen pre + zlen p - (8 + zlen pre)) with (zlen p) by lia.
  rewrite ztake_app_le, ztake_ge by lia. f_equal. f_equal.
  destruct post as [|x post]; [rewrite (proj2 (Z.leb_le _ _)); [done|unfold zlen in *; cbn in *; lia]|].
  destruct (Z.leb_spec (offset b) (8 + zlen pre + zlen p)); [|lia].
  unfold zlen in *. cbn [length] in *. lia.
Qed.

Lemma blocks_cons p ps : blocks (p :: ps) = block p ++ blocks ps.
Proof. done. Qed.

Lemma blocks_long ps : Z.of_nat (length ps) <= zlen (blocks ps).
Proof.
  induction ps as [|p ps IH]; [unfold zlen; cbn; lia|].
  rewrite blocks_cons, zlen_app, zlen_block. unfold headerSize. pose proof (zlen_nonneg p).
  cbn [length]. lia.
Qed.

Lemma blocks_nil ps : blocks ps = [] -> ps = [].
Proof. destruct ps; [done|]. intros H%(f_equal zlen). pose proof (blocks_long (l :: ps)).
  rewrite H in *. unfold zlen in *. cbn in *. lia. Qed.

Lemma block_next pre p ps :
  match blocks ps with [] => -1 | _ => zlen pre + headerSize + zlen p end =
  match ps with [] => -1 | _ => zlen (pre ++ block p) end.
Proof.
  rewrite zlen_app, zlen_block. destruct ps as [|q ps]; [done|].
  destruct (blocks (q :: ps)) eqn:E; [by apply blocks_nil in E|lia].
Qed.

Section Iteration.
Context (b : Buffer) (Hwf : wf b) (Hsmall : zlen (written b) < 2 ^ 62).

Lemma iterateLoop_spec {T} (fn : T -> list byte -> T * option error) ps : forall fuel pre st,
  written b = pre ++ blocks ps -> ps <> [] -> (length ps <= fuel)%nat ->
  iterateLoop fn fuel b (zlen pre) st = Some (visit fn st ps).
Proof.
  induction ps as [|p ps IH]; intros fuel pre st Hw Hne Hf; [done|].
  destruct fuel as [|f]; [cbn in Hf; lia|]. cbn [iterateLoop visit].
  destruct (Z.ltb_spec (zlen pre) 0); [pose proof (zlen_nonneg pre); lia|].
  rewrite (Slice_spec b pre p (blocks ps)) by done. cbn [mbind option_bind]. rewrite block_next.
  assert (Hrest : forall st', iterateLoop fn f b match ps with [] => -1 | _ => zlen (pre ++ block p) end st'
      = Some (visit fn st' ps)).
  { intros st'. destruct ps as [|q ps]; [by destruct f|].
    apply IH; [by rewrite Hw, blocks_cons, app_assoc|done|cbn in *; lia]. }
  destruct (zlen p =? 0); [done|]. destruct (fn st p) as [st' [e|]]; done.
Qed.

Lemma offsetsLoop_spec ps : forall fuel pre acc,
  written b = pre ++ blocks ps -> ps <> [] -> (length ps <= fuel)%nat ->
  offsetsLoop fuel b (zlen pre) acc = Some (acc ++ offsetsOf (zlen pre) ps).
Proof.
  induction ps as [|p ps IH]; intros fuel pre acc Hw Hne Hf; [done|].
  destruct fuel as [|f]; [cbn in Hf; lia|]. cbn [offsetsLoop offsetsOf].
  destruct (Z.ltb_spec (zlen pre) 0); [pose proof (zlen_nonneg pre); lia|].
  rewrite (Slice_spec b pre p (blocks ps)) by done. cbn [mbind option_bind]. rewrite block_next.
  destruct ps as [|q ps]; [by destruct f|].
  rewrite IH; [|by rewrite Hw, blocks_cons, app_assoc|done|cbn in *; lia].
  by rewrite <- app_assoc, zlen_app, zlen_block, Z.add_assoc.
Qed.
End Iteration.

Lemma writeAll_spec ps : forall b,
  wf b -> max b = 0 ->
  exists b', writeAll b ps = Some b' /\ wf b' /\ written b' = written b ++ blocks ps /\
    padding b' = padding b.
Proof.
  induction ps as [|p ps IH]; intros b Hwf Hm; cbn [writeAll].
  - exists b. by rewrite app_nil_r.
  - destruct (WriteSlice_spec b p Hwf) as (b1 & -> & Hw1 & Hwr1 & Hp1 & Hm1);
      [unfold over_limit; lia|].
    destruct (IH b1 Hw1) as (b2 & E & Hw2 & Hwr2 & Hp2); [lia|].
    exists b2. cbn [mbind option_bind]. rewrite blocks_cons, app_assoc, <- Hwr1, <- Hp1. done.
Qed.

(** ** Properties *)

(** Slices written with [WriteSlice] are read back in order: whatever their
    number and sizes (below 2^62 bytes in total), iterating calls the function on
    each non-empty slice until an error, the offsets are the starts of the blocks,
    and no step panics or fails to terminate. *)
Theorem buffer_slices_roundtrip {T} c (fn : T -> list byte -> T * option error) (st : T) ps :
  zlen (blocks ps) < 2 ^ 61 ->
  exists b, writeAll (New c) ps = Some b /\
    SliceIterate fn b st = Some (visit fn st ps) /\
    (ps <> [] -> SliceOffsets b = Some (offsetsOf headerSize ps)).
Proof.
  intros Hs. destruct (writeAll_spec ps (New c) (New_wf c) eq_refl) as (b & -> & Hwf & Hw & Hp).
  exists b. split; [done|].
  pose proof (zlen_written _ (New_wf c)) as H0. cbn [New offset] in H0.
  pose proof (zlen_written _ Hwf) as Ho. rewrite Hw, zlen_app, H0 in Ho.
  change (padding (New c)) with headerSize in Hp.
  pose proof (blocks_long ps) as Hlen. unfold SliceIterate, SliceOffsets, IsEmpty, StartOffset.
  rewrite Hp, <- Ho. unfold headerSize in *.
  assert (Hsm : zlen (written b) < 2 ^ 62) by (rewrite Hw, zlen_app, H0; lia).
  destruct ps as [|p ps].
  { split; [|done]. by replace (8 + zlen (blocks [])) with 8 by (unfold zlen; cbn; lia). }
  cbn [length] in Hlen. split.
  - destruct (Z.eqb_spec (8 + zlen (blocks (p :: ps))) 8); [lia|]. rewrite <- H0.
    apply iterateLoop_spec; [done..|]. cbn [length]. lia.
  - intros _. rewrite <- H0. rewrite (offsetsLoop_spec b Hwf Hsm (p :: ps)); [done..|]. cbn [length]. lia.
Qed.

Lemma buffer_slices_roundtrip_witness :
  exists b, writeAll (New 64) [[1;2;3]; []; [4]] = Some b /\
    SliceIterate (fun st p => (st ++ [p], None)) b [] = Some ([[1;2;3]; [4]], None) /\
    ([[1;2;3]; []; [4]] <> [] -> SliceOffsets b = Some [8; 19; 27]).
Proof.
  apply (buffer_slices_roundtrip 64 (fun st p => (st ++ [p], None)) [] [[1;2;3]; []; [4]]).
  vm_compute. reflexivity.
Defined.

(** [Write] panics exactly when the hard limit would be exceeded; otherwise it
    appends its argument to the bytes of the buffer, growing it as needed. *)
Theorem buffer_Write_appends b p :
  wf b ->
  (Write b p = None <-> over_limit b (zlen p)) /\
  (~ over_limit b (zlen p) ->
   exists b' q, Bytes b = Some q /\ Write b p = Some (b', zlen p) /\ wf b' /\
     Bytes b' = Some (q ++ p)).
Proof.
  intros Hwf. split.
  - split.
    + intros HN. destruct (decide (0 < max b)), (decide (max b < offset b + zlen p)); try (split; done);
        destruct (buffer_Write_spec b p Hwf) as (b' & E & _); unfold over_limit; try lia; congruence.
    + intros Hl. unfold Write. by rewrite Grow_over_limit.
  - intros Hl. destruct (buffer_Write_spec b p Hwf Hl) as (b' & E & Hw & Hwr & Hp & _).
    do 2 eexists. split_and!; [by apply buffer_Bytes_spec|done|done|].
    rewrite buffer_Bytes_spec, Hp, Hwr by done. rewrite zdrop_app_le; [done|].
    rewrite zlen_written by done. apply Hwf.
Qed.

Lemma buffer_Write_appends_witness :
  (Write (New 64) [1;2] = None <-> over_limit (New 64) (zlen [1;2])) /\
  (~ over_limit (New 64) (zlen [1;2]) ->
   exists b' q, Bytes (New 64) = Some q /\ Write (New 64) [1;2] = Some (b', zlen [1;2]) /\ wf b' /\
     Bytes b' = Some (q ++ [1;2])).
Proof. apply (buffer_Write_appends (New 64) [1;2]). apply New_wf. Defined.

(** [SliceOffsets] of an empty buffer reports one offset although there is no slice. *)
Theorem buffer_SliceOffsets_empty c : SliceOffsets (New c) = Some [headerSize].
Proof.
  unfold SliceOffsets, New, StartOffset, headerSize. cbn -[Slice offsetsLoop].
  unfold offsetsLoop at 1. unfold Slice. cbn. done.
Qed.

(** A buffer wrapped around a slice with spare capacity loses what is written to
    it: [Write] copies into [b.data[b.offset:]], which is empty, and still advances
    the offset. *)
Theorem buffer_NewSlice_Write_lost :
  ('(b, n) ← Write (NewSlice [1;2;3;0;0;0] 3) [7;8]; bs ← Bytes b; Some (n, bs))
  = Some (2, [1;2;3;0;0]).
Proof. vm_compute. reflexivity. Qed.
