(* ===== verification/Codec.v ===== *)
(** * Codec: the record batch format of the Forge message queue
      (src/pkg/mq/forge/record_codec.go, record.go, compressor.go)

    Zig-zag varints ([encoding/binary]), CRC32C ([hash/crc32]), records, and batches.
    A nil slice is [None] where the format distinguishes it from an empty one.
    Every operation has an [outcome]: a result, an error, a run-time panic, or
    a loop that does not end.
    LZ4 (a third-party package) is a parameter [lz4] of the definitions. *)
From stdpp Require Import base list option.
From Stdlib Require Import ZArith Lia.
From S2P Require Import Prelude Endian.

(** ** Outcomes *)

Inductive ferror : Type :=
  | ErrCorruptBatch | ErrCorruptRecord | ErrChecksumMismatch | ErrEmptyBatch
  | ErrOffsetNotFound | ErrClosed | ErrBatchTooLarge
  | ErrIncompressible | ErrDecompressLimit | ErrLz4 (code : Z) | ErrIO.

#[export] Instance ferror_eq_dec : EqDecision ferror.
Proof. solve_decision. Defined.

Inductive outcome (A : Type) : Type := Ok (a : A) | Err (e : ferror) | Panic | Hang.
Arguments Ok {A}. Arguments Err {A}. Arguments Panic {A}. Arguments Hang {A}.

#[export] Instance outcome_ret : MRet outcome := fun A a => Ok a.
#[export] Instance outcome_bind : MBind outcome := fun A B k m =>
  match m with Ok a => k a | Err e => Err e | Panic => Panic | Hang => Hang end.

(** A slice or index expression inside an operation that returns an error. *)
Definition orPanic {A} (m : option A) : outcome A :=
  match m with Some a => Ok a | None => Panic end.

(** ** Varints ([encoding/binary]) *)

Definition zigzag (v : Z) : Z :=
  let ux := u64 (Z.shiftl v 1) in if v <? 0 then Z.lxor ux (2 ^ 64 - 1) else ux.
Definition unzigzag (ux : Z) : Z :=
  let x := Z.shiftr ux 1 in if Z.testbit ux 0 then - x - 1 else x.

(** [PutUvarint]; ten bytes hold any 64-bit value. *)
Fixpoint putLoop (fuel : nat) (x : Z) : list byte :=
  match fuel with
  | O => [x]
  | S f => if 128 <=? x then Z.lor (x mod 256) 128 :: putLoop f (Z.shiftr x 7) else [x]
  end.
Definition PutVarint (v : Z) : list byte := putLoop 9 (zigzag v).

(** [Uvarint]: the value and the number of bytes read; 0 when the input is too
    short, negative on overflow. *)
Fixpoint getLoop (i : Z) (x s : Z) (l : list byte) : Z * Z :=
  match l with
  | [] => (0, 0)
  | b :: l =>
      if i =? 10 then (0, - (i + 1)) else
      if b <? 128 then
        if (i =? 9) && (1 <? b) then (0, - (i + 1)) else (Z.lor x (u64 (Z.shiftl b s)), i + 1)
      else getLoop (i + 1) (Z.lor x (u64 (Z.shiftl (Z.land b 127) s))) (s + 7) l
  end.
Definition Varint (l : list byte) : Z * Z :=
  let '(ux, n) := getLoop 0 0 0 l in (unzigzag ux, n).

(** [varIntSize]: the loop runs at most nine times on a 64-bit value. *)
Fixpoint sizeLoop (fuel : nat) (ux size : Z) : Z :=
  match fuel with
  | O => size
  | S f => if 128 <=? ux then sizeLoop f (Z.shiftr ux 7) (size + 1) else size
  end.
Definition varIntSize (v : Z) : Z := sizeLoop 9 (zigzag v) 1.

(** ** Records *)

Definition maxHeadersPerRecord : Z := 10000.

Record Header := mkHeader { hKey : option (list byte); hValue : option (list byte) }.
Record Record_ := mkRecord {
  TimestampDelta : Z;
  OffsetDelta : Z;
  Key : option (list byte);
  Value : option (list byte);
  Headers : list Header;
}.

Definition varintBytesSize (b : option (list byte)) : Z :=
  match b with None => varIntSize (-1) | Some b => varIntSize (zlen b) + zlen b end.
Definition appendVarint (dst : list byte) (v : Z) : list byte := dst ++ PutVarint v.
Definition appendVarintBytes (dst : list byte) (b : option (list byte)) : list byte :=
  match b with
  | None => appendVarint dst (-1)
  | Some b => appendVarint dst (zlen b) ++ b
  end.

Definition appendRecord (dst : list byte) (r : Record_) : list byte :=
  let bodySize := varIntSize (TimestampDelta r) + varIntSize (OffsetDelta r) +
    varintBytesSize (Key r) + varintBytesSize (Value r) + varIntSize (zlen (Headers r)) in
  let bodySize := foldl (fun n h => n + (varintBytesSize (hKey h) + varintBytesSize (hValue h)))
                        bodySize (Headers r) in
  let dst := appendVarint dst bodySize in
  let dst := appendVarint dst (TimestampDelta r) in
  let dst := appendVarint dst (OffsetDelta r) in
  let dst := appendVarintBytes dst (Key r) in
  let dst := appendVarintBytes dst (Value r) in
  let dst := appendVarint dst (zlen (Headers r)) in
  foldl (fun d h => appendVarintBytes (appendVarintBytes d (hKey h)) (hValue h)) dst (Headers r).

(** The readers return the value and the new offset; [None] is [ok = false]. *)
Definition readVarint (data : list byte) (off : Z) : outcome (option (Z * Z)) :=
  if zlen data <=? off then Ok None else
  rest ← orPanic (zslice data off (zlen data));
  let '(v, n) := Varint rest in
  if n <=? 0 then Ok None else Ok (Some (v, off + n)).

Definition readVarintBytes (data : list byte) (off : Z)
    : outcome (option (option (list byte) * Z)) :=
  r ← readVarint data off;
  match r with
  | None => Ok None
  | Some (length, newOff) =>
      if length <? 0 then Ok (Some (None, newOff)) else
      let end_ := i64 (newOff + length) in
      if zlen data <? end_ then Ok None else
      b ← orPanic (zslice data newOff end_);
      Ok (Some (Some b, end_))
  end.

(** [if !ok { return ErrCorruptRecord }] *)
Definition orCorrupt {A} (m : outcome (option A)) : outcome A :=
  r ← m; match r with Some a => Ok a | None => Err ErrCorruptRecord end.

Fixpoint decodeHeaders (count : nat) (buf : list byte) (off : Z) : outcome (list Header * Z) :=
  match count with
  | O => Ok ([], off)
  | S c =>
      '(k, off) ← orCorrupt (readVarintBytes buf off);
      '(v, off) ← orCorrupt (readVarintBytes buf off);
      '(hs, off) ← decodeHeaders c buf off;
      Ok (mkHeader k v :: hs, off)
  end.

Definition decodeRecord (data : list byte) : outcome (Record_ * Z) :=
  if zlen data =? 0 then Err ErrCorruptRecord else
  let '(recLen, n) := Varint data in
  if (n <=? 0) || (recLen <? 0) then Err ErrCorruptRecord else
  let totalConsumed := i64 (n + recLen) in
  if zlen data <? totalConsumed then Err ErrCorruptRecord else
  buf ← orPanic (zslice data n totalConsumed);
  '(td, off) ← orCorrupt (readVarint buf 0);
  '(od, off) ← orCorrupt (readVarint buf off);
  '(key, off) ← orCorrupt (readVarintBytes buf off);
  '(value, off) ← orCorrupt (readVarintBytes buf off);
  '(headerCount, off) ← orCorrupt (readVarint buf off);
  if (headerCount <? 0) || (maxHeadersPerRecord <? headerCount) then Err ErrCorruptRecord else
  '(hs, _) ← decodeHeaders (Z.to_nat headerCount) buf off;
  Ok (mkRecord td od key value hs, totalConsumed).

(** ** CRC32C ([hash/crc32], Castagnoli polynomial) *)

Definition crcBit (c : Z) : Z :=
  if Z.testbit c 0 then Z.lxor (Z.shiftr c 1) 0x82F63B78 else Z.shiftr c 1.
Definition crcByte (c b : Z) : Z :=
  crcBit (crcBit (crcBit (crcBit (crcBit (crcBit (crcBit (crcBit (Z.lxor c (u8 b))))))))).
Definition Checksum (l : list byte) : Z :=
  Z.lxor (foldl crcByte 0xFFFFFFFF l) 0xFFFFFFFF.

(** ** Compression *)

Definition CompressionNone : Z := 0.
Definition CompressionLZ4 : Z := 1.
Definition maxDecompressSize : Z := Z.shiftl 16 20.
Definition decompressInitMultiplier : Z := 4.
Definition decompressGrowthFactor : Z := 2.

(** The functions of [github.com/pierrec/lz4/v4] that the code calls:
    [CompressBlock src dst] with [dst] of the advised bound yields the bytes it wrote
    (none when the data is incompressible); [UncompressBlock src n] decompresses
    into a buffer of [n] bytes. *)
Record lz4 := mkLz4 {
  CompressBlock : list byte -> list byte + ferror;
  UncompressBlock : list byte -> Z -> list byte + ferror;
}.

(** Their documented behaviour: decompression inverts compression when the buffer
    is large enough, and reports an error when it is too small. *)
Definition lz4_ok (L : lz4) : Prop :=
  forall src c, CompressBlock L src = inl c -> c <> [] -> forall n,
    if zlen src <=? n then UncompressBlock L c n = inl src
    else exists e, UncompressBlock L c n = inr e.

Section Batches.
Variable L : lz4.

Definition lz4Compress (src : list byte) : outcome (list byte) :=
  match CompressBlock L src with
  | inr e => Err e
  | inl [] => Err ErrIncompressible
  | inl c => Ok c
  end.

(** The loop of [Decompress]: the buffer doubles until it is past 16 MB.  From at
    least 4 bytes that takes at most 23 rounds; a buffer of 0 bytes never grows. *)
Fixpoint decompressLoop (fuel : nat) (src : list byte) (size : Z) : outcome (list byte) :=
  match fuel with
  | O => Hang
  | S f =>
      match UncompressBlock L src size with
      | inl out => Ok out
      | inr _ =>
          let newSize := size * decompressGrowthFactor in
          if maxDecompressSize <? newSize then Err ErrDecompressLimit
          else decompressLoop f src newSize
      end
  end.

Definition lz4Decompress (src : list byte) : outcome (list byte) :=
  let initSize := zlen src * decompressInitMultiplier in
  let initSize := if maxDecompressSize <? initSize then maxDecompressSize else initSize in
  decompressLoop 24 src initSize.

(** [compressorFor]: the LZ4 compressor, or the identity for any other type. *)
Definition Compress (ct : Z) (src : list byte) : outcome (list byte) :=
  if ct =? CompressionLZ4 then lz4Compress src else Ok src.
Definition Decompress (ct : Z) (src : list byte) : outcome (list byte) :=
  if ct =? CompressionLZ4 then lz4Decompress src else Ok src.

(** ** Batches *)

Definition batchHeaderSize : Z := 35.

Record RecordBatch := mkBatch {
  BaseOffset : Z;
  RecordCount : Z;
  Compression : Z;
  Timestamp : Z;
  MaxTimestamp : Z;
  Records : list Record_;
}.

(** [binary.BigEndian.PutUintN(dst[off:], ...)] *)
Definition putAt (dst : list byte) (off : Z) (bs : list byte) : outcome (list byte) :=
  if zlen dst - off <? zlen bs then Panic else orPanic (copy_at dst off bs).

(** The payload and the compression type actually used. *)
Definition compressPayload (b : RecordBatch) (recBuf : list byte) : outcome (list byte * Z) :=
  if Compression b =? CompressionNone then Ok (recBuf, CompressionNone) else
  match Compress (Compression b) recBuf with
  | Err ErrIncompressible => Ok (recBuf, CompressionNone)
  | Err e => Err e
  | Ok c => Ok (c, Compression b)
  | Panic => Panic
  | Hang => Hang
  end.

(** [dst] is the memory of the slice passed for reuse, up to its capacity. *)
Definition EncodeBatch (b : RecordBatch) (dst : list byte) : outcome (list byte) :=
  if RecordCount b =? 0 then Err ErrEmptyBatch else
  let recBuf := foldl appendRecord [] (Records b) in
  '(payload, actualCompression) ← compressPayload b recBuf;
  let batchLen := u32 (2 + 1 + 4 + 8 + 8 + zlen payload) in
  let needed := batchHeaderSize + zlen payload in
  let dst := if needed <=? zlen dst then ztake needed dst else zeros needed in
  dst ← putAt dst 0 (be 8 (BaseOffset b));
  dst ← putAt dst 8 (be 4 batchLen);
  dst ← putAt dst 12 (be 2 (RecordCount b));
  dst ← orPanic (zset dst 14 actualCompression);
  dst ← putAt dst 19 (be 8 (u64 (Timestamp b)));
  dst ← putAt dst 27 (be 8 (u64 (MaxTimestamp b)));
  dst ← orPanic (copy_at dst 35 payload);
  covered ← orPanic (zslice dst 19 needed);
  putAt dst 15 (be 4 (Checksum covered)).

(** [binary.BigEndian.UintN(data[off:])] *)
Definition getAt (data : list byte) (off k : Z) : outcome Z :=
  rest ← orPanic (zslice data off (zlen data)); orPanic (BigEndianGet k rest).

Fixpoint decodeRecords (count : nat) (recData : list byte) : outcome (list Record_) :=
  match count with
  | O => Ok []
  | S c =>
      '(r, n) ← decodeRecord recData;
      rest ← orPanic (zslice recData n (zlen recData));
      rs ← decodeRecords c rest;
      Ok (r :: rs)
  end.

Definition DecodeBatch (data : list byte) : outcome RecordBatch :=
  if zlen data <? batchHeaderSize then Err ErrCorruptBatch else
  baseOffset ← getAt data 0 8;
  batchLen ← getAt data 8 4;
  recordCount ← getAt data 12 2;
  compression ← orPanic (zget data 14);
  storedCRC ← getAt data 15 4;
  let totalLen := 12 + batchLen in
  if zlen data <? totalLen then Err ErrCorruptBatch else
  covered ← orPanic (zslice data 19 totalLen);
  if negb (Checksum covered =? storedCRC) then Err ErrChecksumMismatch else
  timestamp ← getAt data 19 8;
  maxTimestamp ← getAt data 27 8;
  recData ← orPanic (zslice data 35 totalLen);
  recData ← (if compression =? CompressionNone then Ok recData else Decompress compression recData);
  records ← decodeRecords (Z.to_nat recordCount) recData;
  Ok (mkBatch baseOffset recordCount compression (i64 timestamp) (i64 maxTimestamp) records).

Definition ParseBatchHeader (data : list byte) : outcome (Z * Z) :=
  if zlen data <? batchHeaderSize then Err ErrCorruptBatch else
  a ← orPanic (zslice data 0 8);
  b ← orPanic (zslice data 12 14);
  Ok (unbe a, unbe b).

Definition BatchSize (data : list byte) : outcome Z :=
  if zlen data <? 12 then Err ErrCorruptBatch else
  l ← orPanic (zslice data 8 12);
  let total := 12 + unbe l in
  if zlen data <? total then Err ErrCorruptBatch else Ok total.
End Batches.

(** A record the format can carry: 64-bit deltas and lengths that fit. *)
Definition bytes_small (b : option (list byte)) : Prop :=
  match b with None => True | Some b => zlen b < 2 ^ 32 end.
Definition header_ok (h : Header) : Prop := bytes_small (hKey h) /\ bytes_small (hValue h).
Definition record_ok (r : Record_) : Prop :=
  - 2 ^ 63 <= TimestampDelta r < 2 ^ 63 /\ - 2 ^ 63 <= OffsetDelta r < 2 ^ 63 /\
  bytes_small (Key r) /\ bytes_small (Value r) /\ Forall header_ok (Headers r) /\
  zlen (Headers r) <= maxHeadersPerRecord.

(** The encoding of a record without its length prefix. *)
Definition bodyBytes (b : option (list byte)) : list byte := appendVarintBytes [] b.
Definition headerBytes (h : Header) : list byte := bodyBytes (hKey h) ++ bodyBytes (hValue h).
Definition body (r : Record_) : list byte :=
  PutVarint (TimestampDelta r) ++ PutVarint (OffsetDelta r) ++ bodyBytes (Key r) ++
  bodyBytes (Value r) ++ PutVarint (zlen (Headers r)) ++ concat (headerBytes <$> Headers r).

(** A batch whose fields fit their widths and whose count is the number of records. *)
Definition batch_ok (b : RecordBatch) : Prop :=
  0 <= BaseOffset b < 2 ^ 64 /\ - 2 ^ 63 <= Timestamp b < 2 ^ 63 /\
  - 2 ^ 63 <= MaxTimestamp b < 2 ^ 63 /\ 0 <= Compression b < 256 /\
  0 < RecordCount b < 2 ^ 16 /\ RecordCount b = zlen (Records b) /\ Forall record_ok (Records b).

(** The layout of an encoded batch. *)
Definition tailBytes (b : RecordBatch) (payload : list byte) : list byte :=
  be 8 (u64 (Timestamp b)) ++ be 8 (u64 (MaxTimestamp b)) ++ payload.
Definition layout (b : RecordBatch) (ct : Z) (payload : list byte) : list byte :=
  be 8 (BaseOffset b) ++ be 4 (u32 (23 + zlen payload)) ++ be 2 (RecordCount b) ++ [ct] ++
  be 4 (Checksum (tailBytes b payload)) ++ tailBytes b payload.

Definition recordBytes (rs : list Record_) : list byte := foldl appendRecord [] rs.

(** ** Lemmas: varints *)

Lemma u64_shiftl b s : 0 <= s -> 0 <= b -> b * 2 ^ s < 2 ^ 64 -> u64 (Z.shiftl b s) = Z.shiftl b s.
Proof. intros. rewrite Z.shiftl_mul_pow2 by done. apply u64_small. nia. Qed.

Lemma cont_byte y : 0 <= y -> 128 <= Z.lor (y mod 256) 128 /\ Z.land (Z.lor (y mod 256) 128) 127 = y mod 128.
Proof.
  intros Hy. assert (Hall : Forall (fun k => 128 <= Z.lor k 128 /\ Z.land (Z.lor k 128) 127 = k mod 128)
    (seqZ 0 256)) by (apply (bool_decide_unpack _); vm_compute; exact I).
  rewrite Forall_forall in Hall. destruct (Hall (y mod 256)) as [H1 H2].
  { apply list_elem_of_In, elem_of_seqZ. pose proof (Z.mod_pos_bound y 256 ltac:(lia)). lia. }
  split; [done|]. rewrite H2. change 256 with (128 * 2). rewrite Z.rem_mul_r by lia.
  rewrite Z.mul_comm, Z.mod_add, Z.mod_mod by lia. done.
Qed.

(** [Uvarint] reads back what [PutUvarint] wrote; the loops start at the [i]-th byte. *)
Lemma getLoop_putLoop fuel : forall i x y rest,
  i = 9 - Z.of_nat fuel -> 0 <= i -> 0 <= x < 2 ^ (7 * i) -> 0 <= y < 2 ^ (64 - 7 * i) ->
  getLoop i x (7 * i) (putLoop fuel y ++ rest) =
    (x + y * 2 ^ (7 * i), i + zlen (putLoop fuel y)).
Proof.
  induction fuel as [|f IH]; intros i x y rest Hi Hi0 Hx Hy; cbn [putLoop].
  - assert (i = 9) as -> by lia. change (2 ^ (64 - 7 * 9)) with 2 in Hy. cbn [app getLoop].
    cbn [Z.eqb Z.compare Pos.compare Pos.compare_cont]. zb; try lia. cbn [andb].
    rewrite u64_shiftl, lor_shiftl_add by (try lia; change (7 * 9) with 63 in *; lia). done.
  - assert (Hp : 0 < 2 ^ (7 * i)) by lia.
    assert (Hsplit : 2 ^ (64 - 7 * i) = 128 * 2 ^ (64 - 7 * (i + 1))).
    { replace (64 - 7 * i) with (7 + (64 - 7 * (i + 1))) by lia. rewrite Z.pow_add_r by lia. done. }
    assert (Hfull : 2 ^ (64 - 7 * i) * 2 ^ (7 * i) = 2 ^ 64).
    { rewrite <- Z.pow_add_r by lia. f_equal. lia. }
    assert (H7 : 2 ^ (7 * (i + 1)) = 128 * 2 ^ (7 * i)).
    { replace (7 * (i + 1)) with (7 + 7 * i) by lia. rewrite Z.pow_add_r by lia. done. }
    destruct (Z.leb_spec 128 y).
    + destruct (cont_byte y) as [Hb1 Hb2]; [lia|]. cbn [app getLoop].
      destruct (Z.eqb_spec i 10); [lia|]. destruct (Z.ltb_spec (Z.lor (y mod 256) 128) 128); [lia|].
      rewrite Hb2. pose proof (Z.mod_pos_bound y 128 ltac:(lia)).
      rewrite u64_shiftl, lor_shiftl_add by (try lia; nia).
      replace (7 * i + 7) with (7 * (i + 1)) by lia. rewrite Z.shiftr_div_pow2 by lia.
      change (2 ^ 7) with 128. pose proof (Z.div_mod y 128 ltac:(lia)) as Hdm.
      rewrite (IH (i + 1)); [|lia|lia|rewrite H7; nia|].
      2:{ split; [apply Z.div_pos; lia|]. apply Z.div_lt_upper_bound; lia. }
      unfold zlen. cbn [length]. f_equal; [|lia]. rewrite H7. nia.
    + cbn [app getLoop]. destruct (Z.eqb_spec i 10); [lia|]. destruct (Z.ltb_spec y 128); [|lia].
      destruct ((i =? 9) && (1 <? y)) eqn:E; [lia|].
      rewrite u64_shiftl, lor_shiftl_add by (try lia; nia). done.
Qed.

Lemma lxor_ones n x : 0 <= x < 2 ^ n -> Z.lxor x (Z.ones n) = Z.ones n - x.
Proof.
  intros Hx. assert (Hn : 0 <= n) by (destruct (Z.le_gt_cases 0 n); [done|]; rewrite Z.pow_neg_r in Hx; lia).
  assert (Hd : Z.ldiff x (Z.ones n) = 0).
  { destruct (Z.eq_dec x 0) as [->|]; [apply Z.ldiff_0_l|].
    apply Z.ldiff_ones_r_low; [lia|]. apply Z.log2_lt_pow2; lia. }
  rewrite Z.sub_nocarry_ldiff by done. apply Z.bits_inj'. intros i Hi.
  pose proof (f_equal (fun z => Z.testbit z i) Hd) as Hb. cbn in Hb.
  rewrite Z.ldiff_spec, Z.bits_0 in Hb. rewrite Z.lxor_spec, Z.ldiff_spec.
  destruct (Z.testbit x i), (Z.testbit (Z.ones n) i); done.
Qed.

Lemma zigzag_eq v : - 2 ^ 63 <= v < 2 ^ 63 -> zigzag v = if v <? 0 then - 2 * v - 1 else 2 * v.
Proof.
  intros Hv. unfold zigzag. rewrite Z.shiftl_mul_pow2 by lia. change (2 ^ 1) with 2.
  unfold u64. destruct (Z.ltb_spec v 0).
  - rewrite <- (Z.mod_unique (v * 2) (2 ^ 64) (-1) (v * 2 + 2 ^ 64)) by lia.
    change (2 ^ 64 - 1) with (Z.ones 64). rewrite lxor_ones by lia.
    change (Z.ones 64) with (2 ^ 64 - 1). lia.
  - rewrite Z.mod_small; lia.
Qed.

Lemma zigzag_range v : - 2 ^ 63 <= v < 2 ^ 63 -> 0 <= zigzag v < 2 ^ 64.
Proof. intros. rewrite zigzag_eq by done. zb; lia. Qed.

Lemma unzigzag_zigzag v : - 2 ^ 63 <= v < 2 ^ 63 -> unzigzag (zigzag v) = v.
Proof.
  intros Hv. rewrite zigzag_eq by done. unfold unzigzag. rewrite Z.shiftr_div_pow2 by lia.
  change (2 ^ 1) with 2. destruct (Z.ltb_spec v 0).
  - replace (-2 * v - 1) with (2 * (- v - 1) + 1) by lia.
    rewrite Z.testbit_odd_0. dlia.
  - rewrite Z.testbit_even_0. dlia.
Qed.

(** [Varint] reads back what [PutVarint] wrote. *)
Lemma Varint_PutVarint v rest :
  - 2 ^ 63 <= v < 2 ^ 63 -> Varint (PutVarint v ++ rest) = (v, zlen (PutVarint v)).
Proof.
  intros Hv. unfold Varint, PutVarint.
  rewrite (getLoop_putLoop 9 0 0); [|lia|lia|lia|by apply zigzag_range].
  change (2 ^ (7 * 0)) with 1. by rewrite Z.mul_1_r, !Z.add_0_l, unzigzag_zigzag.
Qed.

Lemma sizeLoop_putLoop fuel : forall x k, sizeLoop fuel x k = k - 1 + zlen (putLoop fuel x).
Proof.
  induction fuel as [|f IH]; intros x k; cbn [sizeLoop putLoop].
  - unfold zlen; cbn; lia.
  - destruct (128 <=? x); [|unfold zlen; cbn; lia]. rewrite IH. unfold zlen. cbn [length]. lia.
Qed.

Lemma varIntSize_eq v : varIntSize v = zlen (PutVarint v).
Proof. unfold varIntSize, PutVarint. rewrite sizeLoop_putLoop. lia. Qed.

Lemma putLoop_pos fuel x : 0 < zlen (putLoop fuel x).
Proof. destruct fuel; cbn; [done|]. destruct (128 <=? x); unfold zlen; cbn [length]; lia. Qed.

Lemma PutVarint_pos v : 0 < zlen (PutVarint v).
Proof. apply putLoop_pos. Qed.

Lemma putLoop_le fuel x : zlen (putLoop fuel x) <= Z.of_nat fuel + 1.
Proof.
  revert x. induction fuel as [|f IH]; intros x; cbn [putLoop]; [done|].
  destruct (128 <=? x); [|unfold zlen; cbn; lia]. specialize (IH (Z.shiftr x 7)).
  unfold zlen in *. cbn [length]. lia.
Qed.

Lemma PutVarint_le v : zlen (PutVarint v) <= 10.
Proof. apply (putLoop_le 9). Qed.

Arguments PutVarint v : simpl never.
Arguments Varint l : simpl never.

(** ** Lemmas: records *)

Lemma appendVarintBytes_eq dst b : appendVarintBytes dst b = dst ++ bodyBytes b.
Proof. destruct b; unfold bodyBytes, appendVarintBytes, appendVarint; by rewrite ?app_nil_l, ?app_assoc. Qed.

Lemma varintBytesSize_eq b : varintBytesSize b = zlen (bodyBytes b).
Proof.
  destruct b; unfold varintBytesSize, bodyBytes, appendVarintBytes, appendVarint;
    rewrite varIntSize_eq, ?zlen_app, ?app_nil_l; done.
Qed.

Lemma headers_size hs n :
  foldl (fun n h => n + (varintBytesSize (hKey h) + varintBytesSize (hValue h))) n hs =
  n + zlen (concat (headerBytes <$> hs)).
Proof.
  revert n. induction hs as [|h hs IH]; intros n; cbn [foldl fmap list_fmap concat].
  - unfold zlen; cbn; lia.
  - rewrite IH, zlen_app. unfold headerBytes at 2. rewrite zlen_app, !varintBytesSize_eq. lia.
Qed.

Lemma headers_append hs d :
  foldl (fun d h => appendVarintBytes (appendVarintBytes d (hKey h)) (hValue h)) d hs =
  d ++ concat (headerBytes <$> hs).
Proof.
  revert d. induction hs as [|h hs IH]; intros d; cbn [foldl fmap list_fmap concat].
  - by rewrite app_nil_r.
  - rewrite IH, !appendVarintBytes_eq. unfold headerBytes at 2. by rewrite <- !app_assoc.
Qed.

Lemma headers_count hs : zlen hs <= zlen (concat (headerBytes <$> hs)).
Proof.
  induction hs as [|h hs IH]; [done|]. cbn [fmap list_fmap concat]. rewrite zlen_app.
  unfold headerBytes at 1. rewrite zlen_app.
  assert (Hpos : forall b, 0 < zlen (bodyBytes b)).
  { intros b. rewrite <- varintBytesSize_eq. unfold varintBytesSize.
    destruct b; rewrite varIntSize_eq; [pose proof (zlen_nonneg l)|]; 
      pose proof PutVarint_pos as Hp; [specialize (Hp (zlen l))|specialize (Hp (-1))]; lia. }
  pose proof (Hpos (hKey h)). pose proof (Hpos (hValue h)).
  unfold zlen in *. cbn [length]. lia.
Qed.

(** The length prefix computed in advance is the length of the body. *)
Lemma appendRecord_eq dst r : appendRecord dst r = dst ++ PutVarint (zlen (body r)) ++ body r.
Proof.
  unfold appendRecord. rewrite headers_size, headers_append, !appendVarintBytes_eq.
  unfold appendVarint. rewrite !varIntSize_eq, !varintBytesSize_eq. unfold body.
  rewrite !zlen_app, <- !app_assoc. do 3 f_equal. lia.
Qed.

Section Reading.
Context (data : list byte) (Hdata : zlen data < 2 ^ 62).

Lemma readVarint_at pre v rest :
  data = pre ++ PutVarint v ++ rest -> - 2 ^ 63 <= v < 2 ^ 63 ->
  readVarint data (zlen pre) = Ok (Some (v, zlen (pre ++ PutVarint v))).
Proof.
  intros Hd Hv. unfold readVarint. pose proof (PutVarint_pos v). pose proof (zlen_nonneg pre).
  pose proof (zlen_nonneg rest).
  assert (Hl : zlen data = zlen pre + zlen (PutVarint v) + zlen rest) by (rewrite Hd, !zlen_app; lia).
  destruct (Z.leb_spec (zlen data) (zlen pre)); [lia|].
  rewrite (zslice_Some data) by lia. cbn [mbind outcome_bind orPanic].
  rewrite (ztake_ge (zlen data - zlen pre)) by (rewrite zlen_zdrop; lia).
  rewrite Hd at 1. rewrite zdrop_app_ge, Z.sub_diag, zdrop_le0, Varint_PutVarint by lia.
  destruct (Z.leb_spec (zlen (PutVarint v)) 0); [lia|]. by rewrite zlen_app.
Qed.

Lemma readVarintBytes_at pre b rest :
  data = pre ++ bodyBytes b ++ rest -> bytes_small b ->
  readVarintBytes data (zlen pre) = Ok (Some (b, zlen (pre ++ bodyBytes b))).
Proof.
  intros Hd Hb. unfold readVarintBytes. pose proof (zlen_nonneg pre). pose proof (zlen_nonneg rest).
  destruct b as [b|]; unfold bodyBytes, appendVarintBytes, appendVarint in *; cbn [app] in *.
  - pose proof (zlen_nonneg b). cbn in Hb. rewrite <- app_assoc in Hd.
    rewrite (readVarint_at pre (zlen b) (b ++ rest)) by (done || lia). cbn [mbind outcome_bind].
    destruct (Z.ltb_spec (zlen b) 0); [lia|]. pose proof (PutVarint_pos (zlen b)).
    assert (Hl : zlen data = zlen (pre ++ PutVarint (zlen b)) + zlen b + zlen rest)
      by (rewrite Hd, !zlen_app; lia).
    rewrite i64_small by (rewrite zlen_app in *; lia).
    destruct (Z.ltb_spec (zlen data) (zlen (pre ++ PutVarint (zlen b)) + zlen b)); [lia|].
    rewrite (zslice_Some data) by (rewrite ?zlen_app in *; lia). cbn [mbind outcome_bind orPanic].
    rewrite Hd at 1. rewrite (app_assoc pre), zdrop_app_ge, Z.sub_diag, zdrop_le0 by lia.
    rewrite Z.add_comm, Z.add_simpl_r, ztake_app_le, ztake_ge by lia.
    by rewrite (app_assoc pre), (zlen_app _ b), Z.add_comm.
  - rewrite (readVarint_at pre (-1) rest) by (done || lia). done.
Qed.

Lemma decodeHeaders_at hs : forall pre rest,
  data = pre ++ concat (headerBytes <$> hs) ++ rest -> Forall header_ok hs ->
  exists off, decodeHeaders (length hs) data (zlen pre) = Ok (hs, off).
Proof.
  induction hs as [|[k v] hs IH]; intros pre rest Hd Hok; [by eexists|].
  apply Forall_cons_iff in Hok as [[Hk Hv] Hok].
  cbn [decodeHeaders length]. cbn [fmap list_fmap concat] in Hd.
  unfold headerBytes at 1 in Hd. cbn [hKey hValue] in *. unfold orCorrupt.
  rewrite <- !app_assoc in Hd. rewrite (readVarintBytes_at pre k _ Hd Hk). cbn [mbind outcome_bind].
  rewrite (app_assoc pre) in Hd. rewrite (readVarintBytes_at _ v _ Hd Hv). cbn [mbind outcome_bind].
  rewrite (app_assoc (pre ++ bodyBytes k)) in Hd. destruct (IH _ _ Hd Hok) as [off E]. rewrite E.
  cbn. eauto.
Qed.
End Reading.

(** Decoding an encoded record gets as far as its headers, whatever follows it. *)
Lemma decodeRecord_fields r rest :
  - 2 ^ 63 <= TimestampDelta r < 2 ^ 63 -> - 2 ^ 63 <= OffsetDelta r < 2 ^ 63 ->
  bytes_small (Key r) -> bytes_small (Value r) -> zlen (appendRecord [] r ++ rest) < 2 ^ 62 ->
  exists pre, body r = pre ++ concat (headerBytes <$> Headers r) ++ [] /\
    zlen (body r) < 2 ^ 62 /\
    decodeRecord (appendRecord [] r ++ rest) =
      if maxHeadersPerRecord <? zlen (Headers r) then Err ErrCorruptRecord else
      '(hs, _) ← decodeHeaders (length (Headers r)) (body r) (zlen pre);
      Ok (mkRecord (TimestampDelta r) (OffsetDelta r) (Key r) (Value r) hs,
          zlen (appendRecord [] r)).
Proof.
  intros Ht Ho Hk Hv Hs. rewrite appendRecord_eq in *. cbn [app] in *.
  set (b := body r) in *. rewrite <- app_assoc in *. rewrite !zlen_app in *.
  pose proof (zlen_nonneg b). pose proof (zlen_nonneg rest). pose proof (PutVarint_pos (zlen b)).
  unfold decodeRecord. destruct (Z.eqb_spec (zlen (PutVarint (zlen b) ++ b ++ rest)) 0) as [E|_];
    [rewrite zlen_app in E; rewrite zlen_app in E; lia|].
  rewrite Varint_PutVarint by lia.
  destruct ((zlen (PutVarint (zlen b)) <=? 0) || (zlen b <? 0)) eqn:E; [lia|].
  rewrite i64_small by lia. rewrite !zlen_app.
  destruct (Z.ltb_spec (zlen (PutVarint (zlen b)) + (zlen b + zlen rest))
              (zlen (PutVarint (zlen b)) + zlen b)); [lia|].
  rewrite zslice_Some by (rewrite ?zlen_app; lia). cbn [mbind outcome_bind orPanic].
  rewrite zdrop_app_ge, Z.sub_diag, zdrop_le0, Z.add_comm, Z.add_simpl_r, ztake_app_le, ztake_ge by lia.
  assert (Hb : zlen b < 2 ^ 62) by lia.
  assert (Hdec : b = [] ++ PutVarint (TimestampDelta r) ++ PutVarint (OffsetDelta r) ++
     bodyBytes (Key r) ++ bodyBytes (Value r) ++ PutVarint (zlen (Headers r)) ++
     concat (headerBytes <$> Headers r) ++ []) by (unfold b, body; by rewrite app_nil_r).
  unfold orCorrupt. change (readVarint b 0) with (readVarint b (zlen (@nil byte))).
  rewrite (readVarint_at b _ _ _ Hdec Ht). cbn [mbind outcome_bind]. rewrite app_assoc in Hdec.
  rewrite (readVarint_at b _ _ _ Hdec Ho). cbn [mbind outcome_bind]. rewrite app_assoc in Hdec.
  rewrite (readVarintBytes_at b Hb _ _ _ Hdec Hk). cbn [mbind outcome_bind]. rewrite app_assoc in Hdec.
  rewrite (readVarintBytes_at b Hb _ _ _ Hdec Hv). cbn [mbind outcome_bind]. rewrite app_assoc in Hdec.
  pose proof (zlen_nonneg (Headers r)). pose proof (zlen_nonneg (concat (headerBytes <$> Headers r))).
  assert (Hcount : zlen (Headers r) <= zlen b).
  { unfold b, body. rewrite !zlen_app. pose proof (headers_count (Headers r)).
    pose proof (zlen_nonneg (bodyBytes (Key r))). pose proof (zlen_nonneg (bodyBytes (Value r))).
    pose proof (PutVarint_pos (TimestampDelta r)). pose proof (PutVarint_pos (OffsetDelta r)).
    pose proof (PutVarint_pos (zlen (Headers r))). lia. }
  rewrite (readVarint_at b _ _ _ Hdec) by lia. cbn [mbind outcome_bind]. rewrite app_assoc in Hdec.
  eexists. split; [exact Hdec|]. split; [done|].
  destruct (Z.ltb_spec (zlen (Headers r)) 0); [lia|]. cbn [orb].
  destruct (maxHeadersPerRecord <? zlen (Headers r)); [done|].
  replace (Z.to_nat (zlen (Headers r))) with (length (Headers r)) by (unfold zlen; lia).
  destruct (decodeHeaders _ _ _) as [[hs off]| | |]; [|done..]. cbn. by rewrite Z.add_comm.
Qed.

(** Decoding the encoding of a record yields the record and its size. *)
Lemma decodeRecord_appendRecord r rest :
  record_ok r -> zlen (appendRecord [] r ++ rest) < 2 ^ 62 ->
  decodeRecord (appendRecord [] r ++ rest) = Ok (r, zlen (appendRecord [] r)).
Proof.
  intros (Ht & Ho & Hk & Hv & Hh & Hn) Hs.
  destruct (decodeRecord_fields r rest Ht Ho Hk Hv Hs) as (pre & Hdec & Hb & ->).
  destruct (Z.ltb_spec maxHeadersPerRecord (zlen (Headers r))); [lia|].
  destruct (decodeHeaders_at (body r) Hb (Headers r) _ _ Hdec Hh) as [off Eh].
  rewrite Eh. by destruct r.
Qed.

(** ** Lemmas: batches *)

Lemma split_at {A} (l : list A) n : 0 <= n <= zlen l ->
  exists x y, l = x ++ y /\ zlen x = n /\ zlen y = zlen l - n.
Proof.
  intros. exists (ztake n l), (zdrop n l). rewrite ztake_zdrop, zlen_ztake, zlen_zdrop by lia. done.
Qed.

Lemma copy_mid {A} (dst pre old post bs : list A) off :
  dst = pre ++ old ++ post -> zlen pre = off -> zlen old = zlen bs ->
  copy_at dst off bs = Some (pre ++ bs ++ post).
Proof.
  intros -> <- Hl. pose proof (zlen_nonneg pre). pose proof (zlen_nonneg post).
  rewrite copy_at_eq by (rewrite ?zlen_app; lia).
  rewrite ztake_app_le, ztake_ge by lia. do 3 f_equal.
  rewrite zdrop_app_ge by (pose proof (zlen_nonneg bs); lia).
  replace (zlen pre + zlen bs - zlen pre) with (zlen old) by lia.
  by rewrite zdrop_app_ge, Z.sub_diag, zdrop_le0 by lia.
Qed.

Lemma putAt_mid dst pre old post bs off :
  dst = pre ++ old ++ post -> zlen pre = off -> zlen old = zlen bs ->
  putAt dst off bs = Ok (pre ++ bs ++ post).
Proof.
  intros Hd Hp Hl. unfold putAt. rewrite (copy_mid dst pre old post bs off) by done.
  pose proof (zlen_nonneg post). subst dst. rewrite !zlen_app.
  destruct (Z.ltb_spec (zlen pre + (zlen old + zlen post) - off) (zlen bs)); [lia|done].
Qed.

Lemma zset_mid {A} (pre post : list A) x y off :
  zlen pre = off -> zset (pre ++ [x] ++ post) off y = Some (pre ++ [y] ++ post).
Proof.
  intros <-. rewrite zset_Some.
  - unfold zlen. rewrite Nat2Z.id. f_equal. rewrite insert_app_r_alt by lia. by rewrite Nat.sub_diag.
  - unfold zlen. rewrite !length_app. cbn. lia.
Qed.

Lemma getAt_mid data pre (k : nat) n post off :
  data = pre ++ be k n ++ post -> zlen pre = off -> 0 <= n < 256 ^ Z.of_nat k ->
  getAt data off (Z.of_nat k) = Ok n.
Proof.
  intros -> <- Hn. pose proof (zlen_nonneg pre). pose proof (zlen_nonneg (be k n ++ post)).
  unfold getAt. rewrite zslice_Some by (rewrite ?zlen_app in *; lia).
  cbn [mbind outcome_bind orPanic]. rewrite zdrop_app_ge, Z.sub_diag, zdrop_le0 by lia.
  rewrite ztake_ge by (rewrite !zlen_app; lia). by rewrite BigEndianGet_be.
Qed.

Lemma slice_mid {A} (l pre mid post : list A) a b :
  l = pre ++ mid ++ post -> zlen pre = a -> b = a + zlen mid -> zslice l a b = Some mid.
Proof.
  intros -> <- ->. pose proof (zlen_nonneg pre). pose proof (zlen_nonneg mid). pose proof (zlen_nonneg post).
  rewrite zslice_Some by (rewrite ?zlen_app; lia).
  rewrite zdrop_app_ge, Z.sub_diag, zdrop_le0 by lia.
  replace (zlen pre + zlen mid - zlen pre) with (zlen mid) by lia.
  by rewrite ztake_app_le, ztake_ge by lia.
Qed.

Lemma zlen_one {A} (x : A) : zlen [x] = 1.
Proof. done. Qed.

Ltac zl := rewrite ?zlen_app, ?zlen_be, ?zlen_one; lia.

(** Every byte of the result is written, so the memory passed in does not matter. *)
Lemma fill_layout b ct payload d :
  zlen d = 35 + zlen payload ->
  (dst ← putAt d 0 (be 8 (BaseOffset b));
   dst ← putAt dst 8 (be 4 (u32 (23 + zlen payload)));
   dst ← putAt dst 12 (be 2 (RecordCount b));
   dst ← orPanic (zset dst 14 ct);
   dst ← putAt dst 19 (be 8 (u64 (Timestamp b)));
   dst ← putAt dst 27 (be 8 (u64 (MaxTimestamp b)));
   dst ← orPanic (copy_at dst 35 payload);
   covered ← orPanic (zslice dst 19 (35 + zlen payload));
   putAt dst 15 (be 4 (Checksum covered))) = Ok (layout b ct payload).
Proof.
  intros Hd. pose proof (zlen_nonneg payload).
  destruct (split_at d 8) as (d1 & r1 & -> & H1 & Hr1); [lia|]. rewrite Hd in Hr1.
  destruct (split_at r1 4) as (d2 & r2 & -> & H2 & Hr2); [lia|].
  destruct (split_at r2 2) as (d3 & r3 & -> & H3 & Hr3); [lia|].
  destruct r3 as [|x r3]; [unfold zlen in *; cbn in *; lia|].
  assert (Hx : zlen (x :: r3) = 1 + zlen r3) by (unfold zlen; cbn [length]; lia).
  destruct (split_at r3 4) as (g & r4 & -> & H4 & Hr4); [lia|].
  destruct (split_at r4 8) as (d5 & r5 & -> & H5 & Hr5); [lia|].
  destruct (split_at r5 8) as (d6 & r6 & -> & H6 & Hr6); [lia|].
  change (x :: g ++ d5 ++ d6 ++ r6) with ([x] ++ g ++ d5 ++ d6 ++ r6) in *.
  set (b8 := be 8 (BaseOffset b)). set (b4 := be 4 (u32 (23 + zlen payload))).
  set (b2 := be 2 (RecordCount b)). set (ts := be 8 (u64 (Timestamp b))).
  set (ms := be 8 (u64 (MaxTimestamp b))).
  assert (L1 : zlen b8 = 8) by apply zlen_be. assert (L2 : zlen b4 = 4) by apply zlen_be.
  assert (L3 : zlen b2 = 2) by apply zlen_be. assert (L5 : zlen ts = 8) by apply zlen_be.
  assert (L6 : zlen ms = 8) by apply zlen_be.
  rewrite (putAt_mid _ [] d1 (d2 ++ d3 ++ [x] ++ g ++ d5 ++ d6 ++ r6) b8) by (done || lia).
  cbn [mbind outcome_bind app].
  rewrite (putAt_mid _ b8 d2 (d3 ++ [x] ++ g ++ d5 ++ d6 ++ r6) b4) by (done || lia).
  cbn [mbind outcome_bind].
  rewrite (putAt_mid _ (b8 ++ b4) d3 ([x] ++ g ++ d5 ++ d6 ++ r6) b2)
    by (rewrite <- ?app_assoc; done || zl).
  cbn [mbind outcome_bind]. rewrite (app_assoc _ b2), (zset_mid ((b8 ++ b4) ++ b2)) by zl.
  cbn [mbind outcome_bind orPanic].
  rewrite (putAt_mid _ (b8 ++ b4 ++ b2 ++ [ct] ++ g) d5 (d6 ++ r6) ts)
    by (rewrite <- ?app_assoc; done || zl).
  cbn [mbind outcome_bind].
  rewrite (putAt_mid _ (b8 ++ b4 ++ b2 ++ [ct] ++ g ++ ts) d6 r6 ms)
    by (rewrite <- ?app_assoc; done || zl).
  cbn [mbind outcome_bind].
  rewrite (copy_mid _ (b8 ++ b4 ++ b2 ++ [ct] ++ g ++ ts ++ ms) r6 [] payload)
    by (rewrite <- ?app_assoc, ?app_nil_r; done || zl).
  cbn [mbind outcome_bind orPanic].
  rewrite (slice_mid _ (b8 ++ b4 ++ b2 ++ [ct] ++ g) (ts ++ ms ++ payload) [])
    by (rewrite <- ?app_assoc, ?app_nil_r; done || zl).
  cbn [mbind outcome_bind orPanic].
  rewrite (putAt_mid _ (b8 ++ b4 ++ b2 ++ [ct]) g (ts ++ ms ++ payload))
    by (rewrite <- ?app_assoc, ?app_nil_r; done || zl).
  unfold layout, tailBytes. by rewrite <- !app_assoc.
Qed.

Lemma lxor_range n a b : 0 <= n -> 0 <= a < 2 ^ n -> 0 <= b < 2 ^ n -> 0 <= Z.lxor a b < 2 ^ n.
Proof.
  intros Hn Ha Hb. assert (H0 : 0 <= Z.lxor a b) by (apply Z.lxor_nonneg; lia). split; [done|].
  destruct (Z.eq_dec (Z.lxor a b) 0); [lia|].
  apply Z.log2_lt_pow2; [lia|]. pose proof (Z.log2_lxor a b ltac:(lia) ltac:(lia)) as Hl.
  assert (Hlog : forall x, 0 <= x < 2 ^ n -> x <> 0 -> Z.log2 x < n)
    by (intros; apply Z.log2_lt_pow2; lia).
  destruct (Z.eq_dec a 0) as [->|]; [rewrite Z.lxor_0_l in *; auto|].
  destruct (Z.eq_dec b 0) as [->|]; [rewrite Z.lxor_0_r in *; auto|].
  pose proof (Hlog a Ha ltac:(done)). pose proof (Hlog b Hb ltac:(done)). lia.
Qed.

Lemma crcBit_range c : 0 <= c < 2 ^ 32 -> 0 <= crcBit c < 2 ^ 32.
Proof.
  intros Hc. unfold crcBit. rewrite Z.shiftr_div_pow2 by lia.
  assert (0 <= c / 2 ^ 1 < 2 ^ 32) by (split; [apply Z.div_pos; lia|apply Z.div_lt_upper_bound; lia]).
  destruct (Z.testbit c 0); [|done]. apply lxor_range; lia.
Qed.

Lemma Checksum_range l : 0 <= Checksum l < 2 ^ 32.
Proof.
  unfold Checksum. apply lxor_range; [lia| |lia].
  assert (H0 : 0 <= 0xFFFFFFFF < 2 ^ 32) by lia. revert H0. generalize 0xFFFFFFFF.
  induction l as [|b l IH]; intros c Hc; [done|]. apply IH. unfold crcByte.
  do 8 apply crcBit_range. apply lxor_range; [lia|done|].
  unfold u8. pose proof (Z.mod_pos_bound b (2 ^ 8)). lia.
Qed.

Lemma recordBytes_eq rs acc : foldl appendRecord acc rs = acc ++ concat (appendRecord [] <$> rs).
Proof.
  revert acc. induction rs as [|r rs IH]; intros acc; cbn [foldl fmap list_fmap concat].
  - by rewrite app_nil_r.
  - rewrite IH, !(appendRecord_eq _ r). by rewrite app_nil_l, <- app_assoc.
Qed.

Lemma decodeRecords_spec rs :
  Forall record_ok rs -> zlen (recordBytes rs) < 2 ^ 62 ->
  decodeRecords (length rs) (recordBytes rs) = Ok rs.
Proof.
  unfold recordBytes. rewrite recordBytes_eq. cbn [app].
  induction 1 as [|r rs Hr _ IH]; intros Hs; [done|]. cbn [decodeRecords length].
  cbn [fmap list_fmap concat] in *. pose proof Hs as Hs'. rewrite zlen_app in Hs'.
  rewrite decodeRecord_appendRecord by done. cbn [mbind outcome_bind].
  pose proof (zlen_nonneg (appendRecord [] r)). pose proof (zlen_nonneg (concat (appendRecord [] <$> rs))).
  rewrite (slice_mid _ (appendRecord [] r) (concat (appendRecord [] <$> rs)) [])
    by (rewrite ?app_nil_r, ?zlen_app; done).
  cbn [mbind outcome_bind orPanic]. rewrite IH by lia. done.
Qed.

Section Roundtrip.
Context (L : lz4) (HL : lz4_ok L).

Lemma decompressLoop_spec src c fuel : forall size,
  CompressBlock L src = inl c -> c <> [] -> zlen src <= 2 ^ 23 ->
  0 < size <= 2 ^ 24 -> 2 ^ 23 <= size * 2 ^ Z.of_nat fuel ->
  decompressLoop L (S fuel) c size = Ok src.
Proof.
  induction fuel as [|f IH]; intros size Hc Hne Hs Hsz Hf; cbn [decompressLoop];
    pose proof (HL src c Hc Hne size) as Hu; destruct (Z.leb_spec (zlen src) size) as [Hle|Hgt].
  - by rewrite Hu.
  - change (2 ^ Z.of_nat 0) with 1 in Hf. lia.
  - by rewrite Hu.
  - destruct Hu as [e ->]. unfold decompressGrowthFactor, maxDecompressSize.
    change (Z.shiftl 16 20) with (2 ^ 24). destruct (Z.ltb_spec (2 ^ 24) (size * 2)); [lia|].
    apply IH; [done..|lia|]. replace (Z.of_nat (S f)) with (1 + Z.of_nat f) in Hf by lia.
    rewrite Z.pow_add_r in Hf by lia. lia.
Qed.

Lemma lz4_roundtrip src c :
  CompressBlock L src = inl c -> c <> [] -> zlen src <= 2 ^ 23 -> lz4Decompress L c = Ok src.
Proof.
  intros Hc Hne Hs. unfold lz4Decompress, maxDecompressSize, decompressInitMultiplier.
  change (Z.shiftl 16 20) with (2 ^ 24). assert (0 < zlen c).
  { destruct c; [done|]. unfold zlen. cbn [length]. lia. }
  apply decompressLoop_spec; [done..| |]; zb; lia.
Qed.

(** What the payload decompresses to. *)
Lemma compressPayload_spec b :
  batch_ok b -> zlen (recordBytes (Records b)) <= 2 ^ 23 ->
  (Compression b = CompressionLZ4 ->
   exists c, CompressBlock L (recordBytes (Records b)) = inl c /\ zlen c < 2 ^ 31) ->
  exists payload ct, compressPayload L b (recordBytes (Records b)) = Ok (payload, ct) /\
    zlen payload < 2 ^ 31 /\ (ct = Compression b \/ ct = CompressionNone) /\
    (if ct =? CompressionNone then Ok payload else Decompress L ct payload)
      = Ok (recordBytes (Records b)).
Proof.
  intros Hb Hs Hlz. unfold compressPayload, Compress, Decompress, CompressionNone, CompressionLZ4 in *.
  destruct (Z.eqb_spec (Compression b) 0) as [E0|E0].
  { do 2 eexists. split; [done|]. split; [lia|]. split; [by right|done]. }
  destruct (Z.eqb_spec (Compression b) 1) as [E1|E1].
  - destruct (Hlz E1) as (c & Hc & Hcl). unfold lz4Compress. rewrite Hc.
    destruct c as [|x c].
    + do 2 eexists. split; [done|]. split; [lia|]. split; [by right|done].
    + do 2 eexists. split; [done|]. split; [done|]. split; [by left|]. rewrite E1. cbn [Z.eqb].
      by apply lz4_roundtrip.
  - do 2 eexists. split; [done|]. split; [lia|]. split; [by left|].
    rewrite (proj2 (Z.eqb_neq _ _) E0), (proj2 (Z.eqb_neq _ _) E1). done.
Qed.

Lemma EncodeBatch_layout b dst payload ct :
  RecordCount b <> 0 -> compressPayload L b (recordBytes (Records b)) = Ok (payload, ct) ->
  EncodeBatch L b dst = Ok (layout b ct payload).
Proof.
  intros Hn Hc. unfold EncodeBatch. rewrite (proj2 (Z.eqb_neq (RecordCount b) 0)) by done.
  fold (recordBytes (Records b)). rewrite Hc. cbn [mbind outcome_bind].
  pose proof (zlen_nonneg payload). apply (fill_layout b ct payload).
  unfold batchHeaderSize. destruct (Z.leb_spec (35 + zlen payload) (zlen dst)).
  - apply zlen_ztake. lia.
  - apply zeros_zlen. lia.
Qed.

Lemma zlen_layout b ct payload : zlen (layout b ct payload) = 35 + zlen payload.
Proof. unfold layout, tailBytes. zl. Qed.

(** Every field of an encoded batch is found where the decoder looks for it. *)
Lemma layout_fields b ct payload rest :
  batch_ok b -> zlen payload < 2 ^ 31 ->
  let data := layout b ct payload ++ rest in
  let tl := tailBytes b payload in
  getAt data 0 8 = Ok (BaseOffset b) /\ getAt data 8 4 = Ok (23 + zlen payload) /\
  getAt data 12 2 = Ok (RecordCount b) /\ zget data 14 = Some ct /\
  getAt data 15 4 = Ok (Checksum tl) /\ zslice data 19 (12 + (23 + zlen payload)) = Some tl /\
  getAt data 19 8 = Ok (u64 (Timestamp b)) /\ getAt data 27 8 = Ok (u64 (MaxTimestamp b)) /\
  zslice data 35 (12 + (23 + zlen payload)) = Some payload.
Proof.
  intros (Hbase & _ & _ & _ & Hrc & _ & _) Hp data tl. pose proof (zlen_nonneg payload).
  assert (Hu : u32 (23 + zlen payload) = 23 + zlen payload)
    by (unfold u32; rewrite Z.mod_small; lia).
  pose proof (Checksum_range tl : 0 <= Checksum tl < 256 ^ Z.of_nat 4) as Hcrc.
  pose proof (u64_range (Timestamp b) : 0 <= _ < 256 ^ Z.of_nat 8) as Ht.
  pose proof (u64_range (MaxTimestamp b) : 0 <= _ < 256 ^ Z.of_nat 8) as Hm.
  assert (Hlen : 0 <= 23 + zlen payload < 256 ^ Z.of_nat 4) by (change (256 ^ Z.of_nat 4) with (2 ^ 32); lia).
  assert (Hrc' : 0 <= RecordCount b < 256 ^ Z.of_nat 2) by (change (256 ^ Z.of_nat 2) with (2 ^ 16); lia).
  assert (Hd : data = [] ++ be 8 (BaseOffset b) ++ be 4 (23 + zlen payload) ++ be 2 (RecordCount b) ++
    [ct] ++ be 4 (Checksum tl) ++ be 8 (u64 (Timestamp b)) ++ be 8 (u64 (MaxTimestamp b)) ++
    payload ++ rest).
  { unfold data, layout. rewrite Hu. fold tl. unfold tl, tailBytes. by rewrite <- !app_assoc. }
  assert (Htl : zlen tl = 16 + zlen payload) by (unfold tl, tailBytes; zl).
  clearbody data.
  split; [by apply (getAt_mid _ _ 8 _ _ _ Hd)|]. rewrite app_assoc in Hd.
  split; [by apply (getAt_mid _ _ 4 _ _ _ Hd)|]. rewrite app_assoc in Hd.
  split; [by apply (getAt_mid _ _ 2 _ _ _ Hd)|]. rewrite app_assoc in Hd.
  split.
  { unfold zget. rewrite bool_decide_true, Hd by lia. by rewrite lookup_app_r. }
  rewrite app_assoc in Hd. split; [by apply (getAt_mid _ _ 4 _ _ _ Hd)|]. rewrite app_assoc in Hd.
  split.
  { match type of Hd with data = ?p ++ _ => apply (slice_mid _ p tl rest 19 _) end; [|done|lia].
    rewrite Hd. unfold tl, tailBytes. by rewrite <- !app_assoc. }
  split; [by apply (getAt_mid _ _ 8 _ _ _ Hd)|]. rewrite app_assoc in Hd.
  split; [by apply (getAt_mid _ _ 8 _ _ _ Hd)|]. rewrite app_assoc in Hd.
  eapply slice_mid; [exact Hd|done|lia].
Qed.

(** A field read as [data[i:j]] is the field read as [data[i:]]. *)
Lemma getAt_slice data off (k : Z) n :
  0 <= off -> 0 <= k -> getAt data off k = Ok n ->
  exists f, zslice data off (off + k) = Some f /\ unbe f = n /\ off + k <= zlen data.
Proof.
  intros Ho Hk. unfold getAt, BigEndianGet.
  destruct (Z.le_gt_cases off (zlen data)); [|by rewrite zslice_None by lia].
  rewrite zslice_Some by lia. cbn [mbind outcome_bind orPanic].
  rewrite ztake_ge by (rewrite zlen_zdrop; lia). rewrite zlen_zdrop by lia.
  destruct (Z.ltb_spec (zlen data - off) k); [done|]. cbn. intros [= <-].
  rewrite zslice_Some by lia. eexists; split; [done|]. split; [|lia]. do 2 f_equal. lia.
Qed.

Lemma BatchSize_layout b ct payload rest :
  batch_ok b -> zlen payload < 2 ^ 31 ->
  BatchSize (layout b ct payload ++ rest) = Ok (zlen (layout b ct payload)).
Proof.
  intros Hok Hp. destruct (layout_fields b ct payload rest Hok Hp) as (_ & F2 & _).
  pose proof (zlen_nonneg payload). pose proof (zlen_nonneg rest).
  apply getAt_slice in F2 as (f & Hf & Hu & _); [|lia..]. unfold BatchSize.
  rewrite (zlen_app _ rest), zlen_layout.
  destruct (Z.ltb_spec (35 + zlen payload + zlen rest) 12); [lia|].
  change (8 + 4) with 12 in Hf. rewrite Hf. cbn [mbind outcome_bind orPanic]. rewrite Hu.
  destruct (Z.ltb_spec (35 + zlen payload + zlen rest) (12 + (23 + zlen payload))); [lia|].
  f_equal. lia.
Qed.

Lemma ParseBatchHeader_layout b ct payload rest :
  batch_ok b -> zlen payload < 2 ^ 31 ->
  ParseBatchHeader (layout b ct payload ++ rest) = Ok (BaseOffset b, RecordCount b).
Proof.
  intros Hok Hp. destruct (layout_fields b ct payload rest Hok Hp) as (F1 & _ & F3 & _).
  pose proof (zlen_nonneg payload). pose proof (zlen_nonneg rest).
  apply getAt_slice in F1 as (f & Hf & Hu & _); [|lia..].
  apply getAt_slice in F3 as (g & Hg & Hv & _); [|lia..].
  unfold ParseBatchHeader. rewrite (zlen_app _ rest), zlen_layout. unfold batchHeaderSize.
  destruct (Z.ltb_spec (35 + zlen payload + zlen rest) 35); [lia|].
  change (0 + 8) with 8 in Hf. change (12 + 2) with 14 in Hg. rewrite Hf, Hg.
  cbn [mbind outcome_bind orPanic]. by rewrite Hu, Hv.
Qed.

Lemma DecodeBatch_layout b ct payload rest :
  batch_ok b -> zlen payload < 2 ^ 31 ->
  (if ct =? CompressionNone then Ok payload else Decompress L ct payload)
    = Ok (recordBytes (Records b)) -> zlen (recordBytes (Records b)) < 2 ^ 62 ->
  DecodeBatch L (layout b ct payload ++ rest) =
    Ok (mkBatch (BaseOffset b) (RecordCount b) ct (Timestamp b) (MaxTimestamp b) (Records b)).
Proof.
  intros Hok Hp Hpay Hsz. pose proof (zlen_nonneg payload). pose proof (zlen_nonneg rest).
  destruct (layout_fields b ct payload rest Hok Hp) as (F1 & F2 & F3 & F4 & F5 & F6 & F7 & F8 & F9).
  destruct Hok as (_ & Hts & Hms & _ & _ & Hcnt & Hrs).
  unfold DecodeBatch. rewrite F1, F2, F3, F4, F5. cbn [mbind outcome_bind orPanic].
  rewrite zlen_app, zlen_layout. unfold batchHeaderSize.
  destruct (Z.ltb_spec (35 + zlen payload + zlen rest) 35); [lia|].
  destruct (Z.ltb_spec (35 + zlen payload + zlen rest) (12 + (23 + zlen payload))); [lia|].
  rewrite F6, F7, F8, F9. cbn [mbind outcome_bind orPanic]. rewrite Z.eqb_refl. cbn [negb].
  rewrite Hpay. cbn [mbind outcome_bind].
  replace (Z.to_nat (RecordCount b)) with (length (Records b)) by (rewrite Hcnt; unfold zlen; lia).
  rewrite decodeRecords_spec by done. cbn [mbind outcome_bind]. by rewrite !i64_u64.
Qed.
End Roundtrip.

(** ** Properties *)

(** A toy compressor for witnesses: it drops a leading zero byte, and its
    decompressor needs room for the result. *)
Definition toyLz4 : lz4 := mkLz4
  (fun src => match src with 0 :: rest => inl (1 :: rest) | _ => inl [] end)
  (fun c n => match c with
              | 1 :: rest => if zlen (0 :: rest) <=? n then inl (0 :: rest) else inr (ErrLz4 1)
              | _ => inr (ErrLz4 2)
              end).

Lemma toyLz4_ok : lz4_ok toyLz4.
Proof.
  intros src c Hc Hne n. cbn in Hc. destruct src as [|z src]; [by simplify_eq|].
  destruct z; simplify_eq. cbn [UncompressBlock toyLz4].
  destruct (zlen (0 :: src) <=? n); [done|eauto].
Qed.

Definition exampleBatch (ct : Z) : RecordBatch :=
  mkBatch 1000 2 ct 1700000000 (-5)
    [mkRecord 0 0 None (Some [1;2;3]) [];
     mkRecord (-7) 300 (Some []) None [mkHeader (Some [9]) None]].

(** C1: An encoded batch is decoded to the same batch, whatever bytes follow it and
    whatever memory it was encoded into; its size and header are recovered without
    decoding.  The compression type is kept, or replaced by none when the data did not
    compress.  The batch is within the limits of the format ([batch_ok]: the record count
    is the number of records, from 1 to 65535, every field fits its width, and a record
    has at most 10000 headers, [too_many_headers_unreadable]), its records are of at most
    8 MB, which the doubling decompression buffer can always reach, and if it asks for
    LZ4 the compressor succeeds and its decompressor inverts it. *)
Theorem batch_roundtrip L b dst rest :
  lz4_ok L -> batch_ok b -> zlen (recordBytes (Records b)) <= 2 ^ 23 ->
  (Compression b = CompressionLZ4 ->
   exists c, CompressBlock L (recordBytes (Records b)) = inl c /\ zlen c < 2 ^ 31) ->
  exists enc ct,
    EncodeBatch L b dst = Ok enc /\ (ct = Compression b \/ ct = CompressionNone) /\
    DecodeBatch L (enc ++ rest) =
      Ok (mkBatch (BaseOffset b) (RecordCount b) ct (Timestamp b) (MaxTimestamp b) (Records b)) /\
    BatchSize (enc ++ rest) = Ok (zlen enc) /\
    ParseBatchHeader (enc ++ rest) = Ok (BaseOffset b, RecordCount b).
Proof.
  intros HL Hok Hs Hlz.
  destruct (compressPayload_spec L HL b Hok Hs Hlz) as (payload & ct & Hc & Hp & Hct & Hd).
  pose proof (zlen_nonneg payload). pose proof (zlen_nonneg rest).
  exists (layout b ct payload), ct. split; [|split; [done|]].
  { apply EncodeBatch_layout; [|done]. destruct Hok as (_ & _ & _ & _ & Hrc & _). lia. }
  split; [apply (DecodeBatch_layout L); [done|done|done|lia]|].
  split; [by apply BatchSize_layout|]. by apply ParseBatchHeader_layout.
Qed.

Lemma batch_roundtrip_witness :
  exists enc ct,
    EncodeBatch toyLz4 (exampleBatch 1) [] = Ok enc /\ (ct = 1 \/ ct = CompressionNone) /\
    DecodeBatch toyLz4 (enc ++ [7;7]) =
      Ok (mkBatch 1000 2 ct 1700000000 (-5) (Records (exampleBatch 1))) /\
    BatchSize (enc ++ [7;7]) = Ok (zlen enc) /\
    ParseBatchHeader (enc ++ [7;7]) = Ok (1000, 2).
Proof.
  apply (batch_roundtrip toyLz4 (exampleBatch 1) [] [7;7]).
  - exact toyLz4_ok.
  - split_and!; cbn; try lia; try done.
    repeat constructor; cbn; try lia; done.
  - vm_compute. discriminate.
  - intros _. eexists. split; [vm_compute; reflexivity|vm_compute; reflexivity].
Defined.

(** The decoder panics on corrupt input instead of reporting it.  It checks that
    the data is long enough for the length field but not that the length covers the
    header, so 35 zero bytes make it slice [data[19:12]]; and a record whose length
    is close to 2^63 overflows the bounds check. *)
Theorem DecodeBatch_panics_on_corrupt_input L :
  DecodeBatch L (zeros 35) = Panic /\
  decodeRecord ([254;255;255;255;255;255;255;255;255;1] ++ zeros 20) = Panic /\
  readVarintBytes ([254;255;255;255;255;255;255;255;255;1] ++ zeros 20) 0 = Panic.
Proof. split_and!; vm_compute; reflexivity. Qed.

(** A record of [n] empty headers. *)
Definition plainRecord (n : nat) : Record_ :=
  mkRecord 0 0 None None (replicate n (mkHeader None None)).

Lemma plainRecord_deltas n :
  - 2 ^ 63 <= TimestampDelta (plainRecord n) < 2 ^ 63 /\
  - 2 ^ 63 <= OffsetDelta (plainRecord n) < 2 ^ 63.
Proof. cbn. lia. Qed.

Lemma plainRecord_count n : zlen (Headers (plainRecord n)) = Z.of_nat n.
Proof. unfold zlen, plainRecord. cbn [Headers]. by rewrite length_replicate. Qed.

Lemma plainHeaders_len n :
  zlen (concat (headerBytes <$> replicate n (mkHeader None None))) = 2 * Z.of_nat n.
Proof.
  induction n as [|n IH]; [done|]. cbn [replicate fmap list_fmap concat]. rewrite zlen_app.
  change (zlen (headerBytes (mkHeader None None))) with 2. rewrite IH. lia.
Qed.

Lemma plainRecord_small n :
  Z.of_nat n < 2 ^ 32 -> zlen (appendRecord [] (plainRecord n) ++ []) < 2 ^ 62.
Proof.
  intros Hn. rewrite app_nil_r, appendRecord_eq. unfold body, plainRecord.
  cbn [TimestampDelta OffsetDelta Key Value Headers app]. rewrite !zlen_app, plainHeaders_len.
  repeat match goal with |- context [PutVarint ?x] =>
    generalize (PutVarint_le x); generalize (zlen (PutVarint x)) end.
  intros. change (zlen (bodyBytes None)) with 1. lia.
Qed.

(** A record with more than 10000 headers is encoded without complaint and can
    never be decoded again. *)
Theorem too_many_headers_unreadable r rest :
  - 2 ^ 63 <= TimestampDelta r < 2 ^ 63 -> - 2 ^ 63 <= OffsetDelta r < 2 ^ 63 ->
  bytes_small (Key r) -> bytes_small (Value r) -> maxHeadersPerRecord < zlen (Headers r) ->
  zlen (appendRecord [] r ++ rest) < 2 ^ 62 ->
  decodeRecord (appendRecord [] r ++ rest) = Err ErrCorruptRecord.
Proof.
  intros Ht Ho Hk Hv Hn Hs.
  destruct (decodeRecord_fields r rest Ht Ho Hk Hv Hs) as (pre & _ & _ & ->).
  by rewrite (proj2 (Z.ltb_lt _ _) Hn).
Qed.

Lemma too_many_headers_unreadable_witness :
  decodeRecord (appendRecord [] (plainRecord (Z.to_nat 10001)) ++ []) = Err ErrCorruptRecord.
Proof.
  apply (too_many_headers_unreadable (plainRecord (Z.to_nat 10001)) []).
  - apply plainRecord_deltas.
  - apply plainRecord_deltas.
  - exact I.
  - exact I.
  - rewrite plainRecord_count. unfold maxHeadersPerRecord. lia.
  - apply plainRecord_small. lia.
Defined.
