(* ===== verification/Index.v ===== *)
(** * Index: the sparse offset index of a log segment (src/pkg/mq/forge/index.go)

    An index keeps its entries in memory and appends the new ones to a file on
    [Sync].  The file is a list of bytes; the file handle's write position is part of
    the index, since the file is opened without O_APPEND.  Reading, writing and
    syncing the file succeed, except that [Sync] takes how its write ends as an
    argument.  [sort.Search] is the binary search of the standard library. *)
From stdpp Require Import base list option gmap.
From Stdlib Require Import ZArith Lia.
From S2P Require Import Prelude Endian Codec.

(** ** Binary search ([sort.Search]) *)

Fixpoint searchLoop (fuel : nat) (i j : Z) (f : Z -> bool) : Z :=
  match fuel with
  | O => i
  | S fuel =>
      if i <? j then
        let h := (i + j) / 2 in
        if f h then searchLoop fuel i h f else searchLoop fuel (h + 1) j f
      else i
  end.
(** The interval shrinks in every round, so [n + 1] rounds are enough. *)
Definition Search (n : Z) (f : Z -> bool) : Z := searchLoop (S (Z.to_nat n)) 0 n f.

(** ** The index *)

Definition indexEntrySize : Z := 12.

Record indexEntry := mkEntry { relativeOffset : Z; position : Z }.

Record index := mkIndex {
  filePos : Z;            (* the write position of the file handle *)
  entries : list indexEntry;
  baseOffset : Z;
  dirtyFrom : Z;
}.

Definition encodeEntry (e : indexEntry) : list byte := be 4 (relativeOffset e) ++ be 8 (position e).

(** [loadEntries]: as many whole entries as the file holds. *)
Fixpoint decodeEntries (count : nat) (buf : list byte) : option (list indexEntry) :=
  match count with
  | O => Some []
  | S c =>
      r ← BigEndianGet 4 buf;
      rest ← zslice buf 4 (zlen buf);
      p ← BigEndianGet 8 rest;
      buf ← zslice buf indexEntrySize (zlen buf);
      es ← decodeEntries c buf;
      Some (mkEntry r p :: es)
  end.

Definition loadEntries (file : list byte) : option (list indexEntry) :=
  let size := zlen file in
  if size =? 0 then Some [] else
  let count := size / indexEntrySize in
  decodeEntries (Z.to_nat count) (ztake (count * indexEntrySize) file).

(** [ReadAt] leaves the handle at the start of the file. *)
Definition openIndex (file : list byte) (base : Z) : option index :=
  es ← loadEntries file;
  Some (mkIndex 0 es base (zlen es)).

Definition Append (idx : index) (offset pos : Z) : index :=
  mkIndex (filePos idx) (entries idx ++ [mkEntry (u32 (offset - baseOffset idx)) pos])
          (baseOffset idx) (dirtyFrom idx).

(** [Lookup] returns the position and the offset found; its error is always nil. *)
Definition Lookup (idx : index) (targetOffset : Z) : option (Z * Z) :=
  if zlen (entries idx) =? 0 then Some (0, baseOffset idx) else
  if targetOffset <? baseOffset idx then Some (0, baseOffset idx) else
  let rel := u32 (targetOffset - baseOffset idx) in
  let i := Search (zlen (entries idx)) (fun j =>
    match zget (entries idx) j with Some e => rel <? relativeOffset e | None => true end) in
  if i =? 0 then Some (0, baseOffset idx) else
  e ← zget (entries idx) (i - 1);
  Some (position e, u64 (baseOffset idx + relativeOffset e)).

Definition LastEntry (idx : index) : option (Z * Z) :=
  match last (entries idx) with
  | None => None
  | Some e => Some (u64 (baseOffset idx + relativeOffset e), position e)
  end.

(** A write of [buf] at position [pos] of a file (a gap is filled with zeros). *)
Definition writeAt (file : list byte) (pos : Z) (buf : list byte) : list byte :=
  ztake pos file ++ zeros (pos - zlen file) ++ buf ++ zdrop (pos + zlen buf) file.
Definition truncate (file : list byte) (size : Z) : list byte :=
  ztake size file ++ zeros (size - zlen file).

(** [Sync]; [fault = Some n] is a write that stores [n] bytes and fails. *)
Definition Sync (idx : index) (file : list byte) (fault : option Z)
    : option (index * list byte * bool) :=
  dirty ← zslice (entries idx) (dirtyFrom idx) (zlen (entries idx));
  if zlen dirty =? 0 then Some (idx, file, true) else
  let buf := concat (encodeEntry <$> dirty) in
  match fault with
  | Some n =>
      let file := writeAt file (filePos idx) (ztake n buf) in
      let goodSize := dirtyFrom idx * indexEntrySize in
      Some (mkIndex goodSize (entries idx) (baseOffset idx) (dirtyFrom idx), truncate file goodSize, false)
  | None =>
      Some (mkIndex (filePos idx + zlen buf) (entries idx) (baseOffset idx) (zlen (entries idx)),
            writeAt file (filePos idx) buf, true)
  end.

(** ** Specification *)

Definition entry_ok (e : indexEntry) : Prop :=
  0 <= relativeOffset e < 2 ^ 32 /\ 0 <= position e < 2 ^ 64.

(** Offsets and positions grow along the index. *)
Fixpoint increasing (es : list indexEntry) : Prop :=
  match es with
  | [] => True
  | e :: es => Forall (fun e' => relativeOffset e < relativeOffset e') es /\ increasing es
  end.

(** The last entry at or below [rel], or nothing. *)
Fixpoint floorEntry (es : list indexEntry) (rel : Z) : option indexEntry :=
  match es with
  | [] => None
  | e :: es => if rel <? relativeOffset e then None
               else match floorEntry es rel with Some e' => Some e' | None => Some e end
  end.

(** The index and its file agree: the file holds the synced entries, and the handle
    stands at its end. *)
Definition synced (idx : index) (file : list byte) : Prop :=
  Forall entry_ok (entries idx) /\ 0 <= dirtyFrom idx <= zlen (entries idx) /\
  file = concat (encodeEntry <$> ztake (dirtyFrom idx) (entries idx)) /\
  filePos idx = zlen file.

(** ** Lemmas *)

Lemma searchLoop_spec f n : forall fuel i j,
  (forall a b, 0 <= a <= b -> f a = true -> f b = true) -> 0 <= i <= j -> j <= n ->
  (forall a, 0 <= a < i -> f a = false) -> (j < n -> f j = true) -> j - i < Z.of_nat fuel ->
  i <= searchLoop fuel i j f <= j /\
  (forall a, 0 <= a < searchLoop fuel i j f -> f a = false) /\
  (searchLoop fuel i j f < n -> f (searchLoop fuel i j f) = true).
Proof.
  induction fuel as [|fuel IH]; intros i j Hm Hij Hjn Hlo Hhi Hf; [lia|]. cbn [searchLoop].
  destruct (Z.ltb_spec i j).
  - assert (Hh : i <= (i + j) / 2 < j) by dlia. destruct (f ((i + j) / 2)) eqn:E.
    + destruct (IH i ((i + j) / 2)) as (? & ? & ?); [done|lia|lia|done|done|lia|]. split; [lia|done].
    + destruct (IH ((i + j) / 2 + 1) j) as (? & ? & ?); [done|lia|lia| |done|lia|].
      * intros a Ha. destruct (f a) eqn:Ea; [|done].
        rewrite (Hm a ((i + j) / 2)) in E; [done|lia|done].
      * split; [lia|done].
  - assert (i = j) as -> by lia. split; [lia|]. done.
Qed.

Lemma zlen_encodeEntry e : zlen (encodeEntry e) = indexEntrySize.
Proof. unfold encodeEntry. by rewrite zlen_app, !zlen_be. Qed.

Lemma zlen_encodeEntries es : zlen (concat (encodeEntry <$> es)) = indexEntrySize * zlen es.
Proof.
  induction es as [|e es IH]; [done|]. cbn [fmap list_fmap concat]. rewrite zlen_app, zlen_encodeEntry, IH.
  replace (zlen (e :: es)) with (1 + zlen es) by (unfold zlen; cbn [length]; lia). lia.
Qed.

Lemma decodeEntries_encode es :
  Forall entry_ok es -> decodeEntries (length es) (concat (encodeEntry <$> es)) = Some es.
Proof.
  induction 1 as [|e es [Hr Hp] _ IH]; [done|]. cbn [decodeEntries length fmap list_fmap concat].
  set (rest := concat (encodeEntry <$> es)) in *. unfold encodeEntry. rewrite <- app_assoc.
  set (buf := be 4 (relativeOffset e) ++ be 8 (position e) ++ rest).
  assert (Hb4 : BigEndianGet 4 buf = Some (relativeOffset e)) by exact (BigEndianGet_be 4 _ _ Hr).
  assert (Hb8 : BigEndianGet 8 (be 8 (position e) ++ rest) = Some (position e))
    by exact (BigEndianGet_be 8 _ _ Hp).
  rewrite Hb4. cbn [mbind option_bind].
  rewrite (slice_mid buf (be 4 (relativeOffset e)) (be 8 (position e) ++ rest) [] 4 (zlen buf))
    by (unfold buf; rewrite ?app_nil_r, ?zlen_app, ?zlen_be; lia || done).
  cbn [mbind option_bind]. rewrite Hb8. cbn [mbind option_bind]. unfold indexEntrySize.
  rewrite (slice_mid buf (be 4 (relativeOffset e) ++ be 8 (position e)) rest [] 12 (zlen buf))
    by (unfold buf; rewrite ?app_nil_r, <- ?app_assoc, ?zlen_app, ?zlen_be; lia || done).
  cbn [mbind option_bind]. rewrite IH. by destruct e.
Qed.

Lemma loadEntries_encode es :
  Forall entry_ok es -> loadEntries (concat (encodeEntry <$> es)) = Some es.
Proof.
  intros Hes. unfold loadEntries. rewrite zlen_encodeEntries. unfold indexEntrySize.
  destruct (Z.eqb_spec (12 * zlen es) 0) as [E|E].
  { assert (zlen es = 0) as E' by lia. apply zlen_zero in E' as ->. done. }
  rewrite Z.mul_comm, Z.div_mul by lia. rewrite ztake_ge by (rewrite zlen_encodeEntries; unfold indexEntrySize; lia).
  replace (Z.to_nat (zlen es)) with (length es) by (unfold zlen; lia). by apply decodeEntries_encode.
Qed.

(** The first index at which a monotone predicate holds. *)
Lemma Search_spec n f :
  0 <= n -> (forall a b, 0 <= a <= b -> f a = true -> f b = true) ->
  0 <= Search n f <= n /\ (forall a, 0 <= a < Search n f -> f a = false) /\
  (Search n f < n -> f (Search n f) = true).
Proof. intros Hn Hm. apply searchLoop_spec; try done; intros; lia. Qed.

Lemma floorEntry_lookup es rel : forall i,
  (i <= length es)%nat ->
  (forall a e, (a < i)%nat -> es !! a = Some e -> relativeOffset e <= rel) ->
  (forall e, es !! i = Some e -> rel < relativeOffset e) ->
  floorEntry es rel = match i with O => None | S k => es !! k end.
Proof.
  induction es as [|e es IH]; intros i Hi Hlo Hhi; [destruct i; [done|cbn in Hi; lia]|].
  cbn [floorEntry]. destruct i as [|k].
  - specialize (Hhi e eq_refl). by rewrite (proj2 (Z.ltb_lt _ _) Hhi).
  - pose proof (Hlo 0%nat e ltac:(lia) eq_refl).
    destruct (Z.ltb_spec rel (relativeOffset e)); [lia|].
    rewrite (IH k); [|cbn in Hi; lia| |done].
    + destruct k as [|k]; [done|]. cbn [lookup list_lookup]. cbn in Hi.
      destruct (es !! k) eqn:E; [done|]. apply lookup_ge_None_1 in E. lia.
    + intros a e' Ha He. apply (Hlo (S a) e'); [lia|done].
Qed.

Lemma increasing_lookup es : increasing es -> forall a b e e',
  (a < b)%nat -> es !! a = Some e -> es !! b = Some e' -> relativeOffset e < relativeOffset e'.
Proof.
  induction es as [|x es IH]; intros Hi a b e e' Hab Ha Hb; [done|]. destruct Hi as [Hx Hi].
  destruct b as [|b]; [lia|]. cbn in Hb. destruct a as [|a]; cbn in Ha.
  - simplify_eq. by eapply Forall_lookup_1 in Hx.
  - apply (IH Hi a b); [lia|done|done].
Qed.

Lemma writeAt_end file buf : writeAt file (zlen file) buf = file ++ buf.
Proof.
  unfold writeAt. rewrite ztake_ge, Z.sub_diag, zdrop_ge, app_nil_r by (pose proof (zlen_nonneg buf); lia).
  done.
Qed.

Lemma ztake_app_exact {A} (l k : list A) : ztake (zlen l) (l ++ k) = l.
Proof. by rewrite ztake_app_le, ztake_ge by lia. Qed.

Lemma zeros_nonpos n : n <= 0 -> zeros n = [].
Proof. intros. unfold zeros. by replace (Z.to_nat n) with 0%nat by lia. Qed.

(** Cutting back to the old size undoes an append. *)
Lemma truncate_writeAt file buf : truncate (writeAt file (zlen file) buf) (zlen file) = file.
Proof.
  rewrite writeAt_end. unfold truncate. rewrite ztake_app_exact, zlen_app.
  rewrite zeros_nonpos by (pose proof (zlen_nonneg buf); lia). apply app_nil_r.
Qed.

(** The binary search agrees with a linear scan. *)
Lemma Lookup_floor idx target :
  Forall entry_ok (entries idx) -> increasing (entries idx) ->
  baseOffset idx <= target < baseOffset idx + 2 ^ 32 ->
  Lookup idx target = Some
    match floorEntry (entries idx) (target - baseOffset idx) with
    | Some e => (position e, u64 (baseOffset idx + relativeOffset e))
    | None => (0, baseOffset idx)
    end.
Proof.
  intros Hok Hinc Ht. unfold Lookup. set (es := entries idx) in *. set (rel := target - baseOffset idx).
  destruct (Z.eqb_spec (zlen es) 0) as [E|E]; [by apply zlen_zero in E as ->|].
  destruct (Z.ltb_spec target (baseOffset idx)); [lia|].
  replace (u32 rel) with rel by (unfold u32; rewrite Z.mod_small; lia).
  set (f := fun j => match zget es j with Some e => rel <? relativeOffset e | None => true end).
  assert (Hz : zlen es = Z.of_nat (length es)) by done.
  assert (Hget : forall a, 0 <= a -> zget es a = es !! Z.to_nat a)
    by (intros; unfold zget; by rewrite bool_decide_true).
  assert (Hf : forall a e, 0 <= a -> es !! Z.to_nat a = Some e -> f a = (rel <? relativeOffset e))
    by (intros a e Ha He; unfold f; by rewrite Hget, He).
  destruct (Search_spec (zlen es) f) as (Hr & Hlo & Hhi); [lia| |].
  { intros a b Hab. unfold f. rewrite !Hget by lia. intros Ha.
    destruct (es !! Z.to_nat b) as [e'|] eqn:Eb; [|done].
    destruct (es !! Z.to_nat a) as [e|] eqn:Ea.
    - destruct (decide (a = b)) as [->|]; [congruence|].
      assert (Hlt : (Z.to_nat a < Z.to_nat b)%nat) by lia.
      pose proof (increasing_lookup es Hinc _ _ _ _ Hlt Ea Eb). lia.
    - apply lookup_ge_None_1 in Ea. apply lookup_lt_Some in Eb. lia. }
  rewrite (floorEntry_lookup es rel (Z.to_nat (Search (zlen es) f))).
  - destruct (Z.eqb_spec (Search (zlen es) f) 0) as [->|Hne]; [done|].
    replace (Z.to_nat (Search (zlen es) f)) with (S (Z.to_nat (Search (zlen es) f - 1))) by lia.
    rewrite Hget by lia. destruct (es !! Z.to_nat (Search (zlen es) f - 1)) eqn:El; [done|].
    apply lookup_ge_None_1 in El. lia.
  - lia.
  - intros a e Ha He. specialize (Hlo (Z.of_nat a) ltac:(lia)).
    rewrite (Hf _ e) in Hlo by (rewrite ?Nat2Z.id; lia || done). lia.
  - intros e He. pose proof (lookup_lt_Some _ _ _ He). specialize (Hhi ltac:(lia)).
    rewrite (Hf _ e) in Hhi by (lia || done). lia.
Qed.

(** Syncing, with and without a failing write. *)
Lemma Sync_durable idx file n :
  synced idx file ->
  (exists idx' file', Sync idx file None = Some (idx', file', true) /\ synced idx' file' /\
     entries idx' = entries idx /\ loadEntries file' = Some (entries idx)) /\
  (exists idx' ok, Sync idx file (Some n) = Some (idx', file, ok) /\ synced idx' file /\
     entries idx' = entries idx /\ (ok = false \/ dirtyFrom idx = zlen (entries idx))).
Proof.
  intros (Hok & Hd & Hf & Hp). unfold Sync. rewrite zslice_Some by lia. cbn [mbind option_bind].
  rewrite ztake_ge by (rewrite zlen_zdrop; lia). rewrite zlen_zdrop by lia.
  assert (Hlen : zlen file = indexEntrySize * dirtyFrom idx)
    by (rewrite Hf, zlen_encodeEntries, zlen_ztake; lia).
  destruct (Z.eqb_spec (zlen (entries idx) - dirtyFrom idx) 0) as [E|E].
  - rewrite ztake_ge in Hf by lia. assert (Hs : synced idx file).
    { split; [done|]. split; [done|]. split; [by rewrite ztake_ge by lia|done]. }
    split; do 2 eexists; (split; [done|]); (split; [done|]); (split; [done|]).
    + rewrite Hf. by apply loadEntries_encode.
    + right. lia.
  - split.
    + do 2 eexists. split; [done|].
      rewrite Hp, writeAt_end, Hf, <- concat_app, <- fmap_app, ztake_zdrop.
      split; [|split; [done|by apply loadEntries_encode]].
      split; [done|]. cbn. split; [lia|]. split; [by rewrite ztake_ge by lia|].
      rewrite <- Hf, Hlen, !zlen_encodeEntries, zlen_zdrop by lia. lia.
    + replace (dirtyFrom idx * indexEntrySize) with (zlen file) by lia.
      rewrite Hp, truncate_writeAt. do 2 eexists. split; [done|].
      split; [|split; [done|by left]]. split; [done|]. cbn. split; [lia|done].
Qed.

Lemma synced_Append idx file offset pos :
  synced idx file -> 0 <= pos < 2 ^ 64 -> synced (Append idx offset pos) file.
Proof.
  intros (Hok & Hd & Hf & Hp) Hpos. unfold Append. split; [|split; [|split]]; cbn.
  - apply Forall_app. split; [done|]. constructor; [|constructor]. split; [|done].
    cbn. unfold u32. apply Z.mod_pos_bound. lia.
  - rewrite zlen_app. unfold zlen at 2. cbn. lia.
  - by rewrite ztake_app_le by lia.
  - done.
Qed.

Lemma floorEntry_in es rel e :
  floorEntry es rel = Some e -> e ∈ es /\ relativeOffset e <= rel.
Proof.
  revert e. induction es as [|x es IH]; intros e; cbn; [done|].
  destruct (Z.ltb_spec rel (relativeOffset x)); [done|].
  destruct (floorEntry es rel) as [e'|]; intros [= <-].
  - destruct (IH e' eq_refl). split; [by right|done].
  - split; [by left|lia].
Qed.

Lemma increasing_snoc es e :
  increasing es -> Forall (fun e' => relativeOffset e' < relativeOffset e) es -> increasing (es ++ [e]).
Proof.
  induction es as [|x es IH]; cbn; [done|]. intros [Hx Hi] [Hxe He]%Forall_cons.
  split; [|by apply IH]. apply Forall_app. split; [done|]. by constructor.
Qed.

(** ** Properties *)

(** On an index with increasing offsets, [Lookup] of an offset at most 2^32 - 1
    above the base finds the position of the last entry at or below it, and the
    start of the segment when there is none; the binary search agrees with a linear
    scan. *)
Theorem index_Lookup_correct idx target :
  Forall entry_ok (entries idx) -> increasing (entries idx) ->
  baseOffset idx <= target < baseOffset idx + 2 ^ 32 ->
  Lookup idx target = Some
    match floorEntry (entries idx) (target - baseOffset idx) with
    | Some e => (position e, u64 (baseOffset idx + relativeOffset e))
    | None => (0, baseOffset idx)
    end.
Proof. apply Lookup_floor. Qed.

Lemma index_Lookup_correct_witness :
  Lookup (mkIndex 0 [mkEntry 0 0; mkEntry 10 500; mkEntry 25 900] 100 0) 124 = Some (500, 110).
Proof.
  apply (index_Lookup_correct (mkIndex 0 [mkEntry 0 0; mkEntry 10 500; mkEntry 25 900] 100 0) 124).
  - repeat constructor; cbn; lia.
  - cbn. repeat constructor; cbn; lia.
  - cbn. lia.
Defined.

(** On an index in step with its file, [Sync] makes every entry durable: the file
    then loads to exactly the entries in memory.  When the write fails after any
    number of bytes, the file is cut back to what it was and the index stays in step
    with it, so that a later [Sync] can succeed. *)
Theorem index_Sync_durable idx file n :
  synced idx file ->
  (exists idx' file', Sync idx file None = Some (idx', file', true) /\ synced idx' file' /\
     entries idx' = entries idx /\ loadEntries file' = Some (entries idx)) /\
  (exists idx' ok, Sync idx file (Some n) = Some (idx', file, ok) /\ synced idx' file /\
     entries idx' = entries idx /\ (ok = false \/ dirtyFrom idx = zlen (entries idx))).
Proof. apply Sync_durable. Qed.

Lemma index_Sync_durable_witness :
  let idx := Append (mkIndex 0 [] 100 0) 107 64 in
  (exists idx' file', Sync idx [] None = Some (idx', file', true) /\ synced idx' file' /\
     entries idx' = entries idx /\ loadEntries file' = Some (entries idx)) /\
  (exists idx' ok, Sync idx [] (Some 5) = Some (idx', [], ok) /\ synced idx' [] /\
     entries idx' = entries idx /\ (ok = false \/ dirtyFrom idx = zlen (entries idx))).
Proof.
  apply (index_Sync_durable (Append (mkIndex 0 [] 100 0) 107 64) [] 5).
  split_and!; try done. repeat constructor; vm_compute; congruence.
Defined.

(** An index that was reopened overwrites its own file: the handle stands at the
    start, so the first [Sync] after an [Append] replaces the oldest entry by the
    newest one and loses both its place and the order. *)
Theorem index_reopen_overwrites base e es offset pos :
  Forall entry_ok (e :: es) -> 0 <= pos < 2 ^ 64 ->
  exists idx idx' file',
    openIndex (concat (encodeEntry <$> (e :: es))) base = Some idx /\
    Sync (Append idx offset pos) (concat (encodeEntry <$> (e :: es))) None = Some (idx', file', true) /\
    entries idx' = e :: es ++ [mkEntry (u32 (offset - base)) pos] /\
    loadEntries file' = Some (mkEntry (u32 (offset - base)) pos :: es).
Proof.
  intros Hok Hp. unfold openIndex. rewrite loadEntries_encode by done. cbn [mbind option_bind].
  set (n := mkEntry (u32 (offset - base)) pos).
  exists (mkIndex 0 (e :: es) base (zlen (e :: es))).
  assert (Hn : entry_ok n).
  { split; [|done]. cbn. unfold u32. apply Z.mod_pos_bound. lia. }
  unfold Sync, Append. cbn [entries dirtyFrom filePos baseOffset]. fold n.
  rewrite (slice_mid ((e :: es) ++ [n]) (e :: es) [n] []) by (rewrite ?app_nil_r, ?zlen_app; done).
  cbn [mbind option_bind]. change (zlen [n] =? 0) with false. cbn [fmap list_fmap concat].
  rewrite app_nil_r. do 2 eexists. split; [done|]. split; [done|]. split; [done|].
  unfold writeAt. rewrite ztake_le0, Z.add_0_l by lia. cbn [app].
  rewrite zeros_nonpos by (pose proof (zlen_nonneg (encodeEntry e ++ concat (encodeEntry <$> es))); lia).
  cbn [app]. rewrite !zlen_encodeEntry, <- (zlen_encodeEntry e) at 1.
  rewrite zdrop_app_ge, Z.sub_diag, zdrop_le0 by lia.
  apply (loadEntries_encode (n :: es)). constructor; [done|]. by apply Forall_cons in Hok as [_ ?].
Qed.

Lemma index_reopen_overwrites_witness :
  exists idx idx' file',
    openIndex (concat (encodeEntry <$> [mkEntry 0 0; mkEntry 40 4100])) 100 = Some idx /\
    Sync (Append idx 190 8300) (concat (encodeEntry <$> [mkEntry 0 0; mkEntry 40 4100])) None
      = Some (idx', file', true) /\
    entries idx' = [mkEntry 0 0; mkEntry 40 4100; mkEntry 90 8300] /\
    loadEntries file' = Some [mkEntry 90 8300; mkEntry 40 4100].
Proof.
  apply (index_reopen_overwrites 100 (mkEntry 0 0) [mkEntry 40 4100] 190 8300).
  - repeat constructor; cbn; lia.
  - lia.
Defined.
