(* ===== verification/Segment.v ===== *)
(** * Segment: one file pair of the commit log (src/pkg/mq/forge/segment.go)

    A segment owns a [.log] file of encoded batches and a sparse index.  The two
    files are values of type [files]; the handle of the log appends (O_APPEND).  The
    read-write spin lock makes the operations atomic, so each is one function.  A
    failing log write is an argument ([fault]: how many bytes were stored before the
    error); the other system calls succeed.  A memory-mapped segment is the prefix
    of its file that was mapped.  [Hang] is a loop that never ends: the recovery
    loop takes a number of rounds. *)
From stdpp Require Import base list option gmap.
From Stdlib Require Import ZArith Lia.
From S2P Require Import Prelude Endian Codec Index.

(** ** Definitions *)

(** The configuration, durations in nanoseconds; the error callback has no effect on
    the state. *)
Record Config := mkConfig {
  MaxSegmentBytes : Z;
  MaxSegmentAge : Z;
  IndexInterval : Z;
  MaxMessageSize : Z;
  RetentionTime : Z;
  RetentionBytes : Z;
  RetentionInterval : Z;
  FsyncEvery : Z;
  MinSegmentMergeAge : Z;
  MinMergeSegments : Z;
}.

Definition second : Z := 1000000000.
Definition DefaultMaxSegmentBytes : Z := Z.shiftl 256 20.
Definition DefaultMaxSegmentAge : Z := 3600 * second.
Definition DefaultIndexInterval : Z := 4096.
Definition DefaultMaxMessageSize : Z := Z.shiftl 1 20.
Definition DefaultRetentionTime : Z := 7 * 24 * 3600 * second.
Definition DefaultRetentionBytes : Z := Z.shiftl 1 30.
Definition DefaultRetentionInterval : Z := 5 * 60 * second.
Definition DefaultMinSegmentMergeAge : Z := 10 * 60 * second.
Definition DefaultMinMergeSegments : Z := 3.
Definition defaultConfig : Config :=
  mkConfig DefaultMaxSegmentBytes DefaultMaxSegmentAge DefaultIndexInterval DefaultMaxMessageSize
    DefaultRetentionTime DefaultRetentionBytes DefaultRetentionInterval 0
    DefaultMinSegmentMergeAge DefaultMinMergeSegments.

Record files := mkFiles { logFile : list byte; idxFile : list byte }.

Record segment := mkSegment {
  sindex : index;
  sbase : Z;
  ssize : Z;
  created : Z;
  nextOffset : Z;
  bytesSinceIndex : Z;
  batchesSinceSync : Z;
  mmapLen : option Z;
}.

Definition recoverChunkSize : Z := 256 * 1024.

Definition setSize (s : segment) (n : Z) : segment :=
  mkSegment (sindex s) (sbase s) n (created s) (nextOffset s) (bytesSinceIndex s)
            (batchesSinceSync s) (mmapLen s).
Definition setNext (s : segment) (n : Z) : segment :=
  mkSegment (sindex s) (sbase s) (ssize s) (created s) n (bytesSinceIndex s)
            (batchesSinceSync s) (mmapLen s).

Section Segments.
Variable L : lz4.

(** The loop shared by [scanBatches] and [ReadFrom]: decode consecutive batches and
    stop at the first that is incomplete or corrupt.  A batch has at least 12 bytes,
    so as many rounds as bytes are enough. *)
Fixpoint batchLoop {T} (visit : T -> RecordBatch -> T) (fuel : nat) (buf : list byte) (off : Z) (st : T)
    : outcome (Z * T) :=
  match fuel with
  | O => Ok (off, st)
  | S f =>
      if off <? zlen buf then
        rest ← orPanic (zslice buf off (zlen buf));
        match BatchSize rest with
        | Err _ => Ok (off, st)
        | Panic => Panic
        | Hang => Hang
        | Ok batchSize =>
            if zlen buf <? off + batchSize then Ok (off, st) else
            piece ← orPanic (zslice buf off (off + batchSize));
            match DecodeBatch L piece with
            | Err _ => Ok (off, st)
            | Panic => Panic
            | Hang => Hang
            | Ok batch => batchLoop visit f buf (off + batchSize) (visit st batch)
            end
        end
      else Ok (off, st)
  end.

Definition scanVisit (next : Z) (b : RecordBatch) : Z :=
  let nextOff := u64 (BaseOffset b + RecordCount b) in if next <? nextOff then nextOff else next.

(** [scanBatches] returns the bytes consumed and the new [nextOffset]. *)
Definition scanBatches (next : Z) (buf : list byte) : outcome (Z * Z) :=
  batchLoop scanVisit (S (length buf)) buf 0 next.

(** [logFile.ReadAt(buf, pos)] with a buffer of [n] bytes. *)
Definition readAt (file : list byte) (pos n : Z) : list byte := ztake n (zdrop pos file).

Definition recoverRange (next : Z) (log : list byte) (pos length : Z) : outcome (Z * Z) :=
  let data := readAt log pos length in
  if (zlen data <? length) && (zlen data =? 0) then Ok (0, next) else scanBatches next data.

(** The chunked scan: the carry is what the last chunk left over. *)
Fixpoint recoverLoop (fuel : nat) (log : list byte) (size pos : Z) (carry : list byte)
    (validEnd next : Z) : outcome (Z * Z) :=
  match fuel with
  | O => Hang
  | S f =>
      if pos <? size then
        let kept := ztake recoverChunkSize carry in
        let readSize := recoverChunkSize - zlen kept in
        let readSize := if size <? pos + readSize then size - pos else readSize in
        let bs := readAt log pos readSize in
        if (zlen bs <? readSize) && (zlen bs =? 0) then Ok (validEnd, next) else
        let data := kept ++ bs in
        '(consumed, next) ← scanBatches next data;
        recoverLoop f log size (pos + zlen bs) (zdrop consumed data) (validEnd + consumed) next
      else Ok (validEnd, next)
  end.

Definition recover (fuel : nat) (s : segment) (log : list byte) : outcome (segment * list byte) :=
  if ssize s =? 0 then Ok (s, log) else
  let scanStart := match LastEntry (sindex s) with Some (_, p) => i64 p | None => 0 end in
  let remaining := ssize s - scanStart in
  if remaining <=? 0 then Ok (s, log) else
  '(validEnd, next) ← (if remaining <=? recoverChunkSize then
      '(n, next) ← recoverRange (nextOffset s) log scanStart remaining; Ok (scanStart + n, next)
    else recoverLoop fuel log (ssize s) scanStart [] scanStart (nextOffset s));
  let s := setNext s next in
  if validEnd <? ssize s then Ok (setSize s validEnd, truncate log validEnd) else Ok (s, log).

(** [openSegment] of the files found on disk (empty when new). *)
Definition openSegment (fuel : nat) (now modTime : Z) (fs : files) (base : Z)
    : outcome (segment * files) :=
  idx ← orPanic (openIndex (idxFile fs) base);
  let size := zlen (logFile fs) in
  let s := mkSegment idx base size (if size =? 0 then now else modTime) base 0 0 None in
  '(s, log) ← recover fuel s (logFile fs);
  Ok (s, mkFiles log (idxFile fs)).

(** Mapping the file may fail, which is not an error. *)
Definition seal (mapped : bool) (s : segment) : segment :=
  if (ssize s =? 0) || bool_decide (is_Some (mmapLen s)) || negb mapped then s
  else mkSegment (sindex s) (sbase s) (ssize s) (created s) (nextOffset s) (bytesSinceIndex s)
                 (batchesSinceSync s) (Some (ssize s)).

Definition segAppend (cfg : Config) (s : segment) (fs : files) (encoded : list byte)
    (batch : RecordBatch) (fault : option Z) : outcome (segment * files * bool) :=
  let position := ssize s in
  let shouldIndex := (IndexInterval cfg <=? bytesSinceIndex s) || (zlen (entries (sindex s)) =? 0) in
  match fault with
  | Some n => Ok (s, mkFiles (logFile fs ++ ztake n encoded) (idxFile fs), false)
  | None =>
      let log := logFile fs ++ encoded in
      let n := zlen encoded in
      let '(idx, since) := if (shouldIndex : bool)
        then (Index.Append (sindex s) (BaseOffset batch) position, 0)
        else (sindex s, bytesSinceIndex s) in
      let s := mkSegment idx (sbase s) (ssize s + n) (created s)
                 (u64 (BaseOffset batch + RecordCount batch)) (since + n)
                 (batchesSinceSync s + 1) (mmapLen s) in
      if (0 <? FsyncEvery cfg) && (FsyncEvery cfg <=? batchesSinceSync s) then
        '(idx, file, _) ← orPanic (Index.Sync (sindex s) (idxFile fs) None);
        Ok (mkSegment idx (sbase s) (ssize s) (created s) (nextOffset s) (bytesSinceIndex s) 0
              (mmapLen s), mkFiles log file, true)
      else Ok (s, mkFiles log (idxFile fs), true)
  end.

Definition readVisit (offset : Z) (acc : list RecordBatch) (b : RecordBatch) : list RecordBatch :=
  if offset <? u64 (BaseOffset b + RecordCount b) then acc ++ [b] else acc.

(** The bytes that [ReadFrom] looks at. *)
Definition readWindow (s : segment) (log : list byte) (pos maxBytes : Z) : outcome (option (list byte)) :=
  match mmapLen s with
  | Some m =>
      let end_ := if m <? pos + maxBytes then m else pos + maxBytes in
      if end_ <=? pos then Ok None else b ← orPanic (zslice log pos end_); Ok (Some b)
  | None =>
      let remaining := ssize s - pos in
      if remaining <=? 0 then Ok None else
      let remaining := if maxBytes <? remaining then maxBytes else remaining in
      if remaining <? 0 then Panic else
      let buf := readAt log pos remaining in
      if (zlen buf <? remaining) && (zlen buf =? 0) then Err ErrIO else Ok (Some buf)
  end.

Definition segReadFrom (s : segment) (log : list byte) (offset maxBytes : Z)
    : outcome (list RecordBatch) :=
  '(pos, _) ← orPanic (Lookup (sindex s) offset);
  w ← readWindow s log pos maxBytes;
  match w with
  | None => Ok []
  | Some buf =>
      '(_, batches) ← batchLoop (readVisit offset) (S (length buf)) buf 0 [];
      Ok batches
  end.

Definition readRawBytes (s : segment) (log : list byte) : outcome (list byte) :=
  if ssize s =? 0 then Ok [] else
  match mmapLen s with
  | Some m => orPanic (zslice log 0 m)
  | None =>
      let raw := readAt log 0 (ssize s) in
      if (zlen raw <? ssize s) && (zlen raw =? 0) then Err ErrIO else Ok raw
  end.

Definition IsFull (cfg : Config) (now : Z) (s : segment) : bool :=
  if MaxSegmentBytes cfg <=? ssize s then true
  else if 0 <? MaxSegmentAge cfg then MaxSegmentAge cfg <=? now - created s else false.

Definition segClose (s : segment) (fs : files) : outcome (segment * files) :=
  '(idx, file, _) ← orPanic (Index.Sync (sindex s) (idxFile fs) None);
  Ok (mkSegment idx (sbase s) (ssize s) (created s) (nextOffset s) (bytesSinceIndex s)
        (batchesSinceSync s) None, mkFiles (logFile fs) file).
End Segments.

(** ** Specification *)

(** [enc] is the encoding of [b]: its size is found whatever follows, and it decodes. *)
Definition encodes (L : lz4) (enc : list byte) (b : RecordBatch) : Prop :=
  12 <= zlen enc /\ (forall rest, BatchSize (enc ++ rest) = Ok (zlen enc)) /\ DecodeBatch L enc = Ok b.

(** What a crash can leave of a batch: a strict prefix of its encoding. *)
Definition torn (L : lz4) (t : list byte) : Prop :=
  t = [] \/ exists enc b rest, encodes L enc b /\ enc = t ++ rest /\ rest <> [].

(** Batches that continue one another from offset [o]; [endOf] is where they end. *)
Fixpoint chained (o : Z) (bs : list RecordBatch) : Prop :=
  match bs with
  | [] => True
  | b :: bs => BaseOffset b = o /\ 0 <= o /\ 0 < RecordCount b /\ o + RecordCount b < 2 ^ 64 /\
               chained (o + RecordCount b) bs
  end.
Fixpoint endOf (o : Z) (bs : list RecordBatch) : Z :=
  match bs with [] => o | b :: bs => endOf (o + RecordCount b) bs end.

(** An index entry points at the start of one of the batches. *)
Definition points (encs : list (list byte)) (bs : list RecordBatch) (e : indexEntry) : Prop :=
  exists k, (k < length encs)%nat /\ position e = zlen (concat (take k encs)) /\
    relativeOffset e = endOf 0 (take k bs).

(** A segment and its files hold the batches [bs], encoded as [encs]: the log is
    their concatenation, the index points at starts of batches and its file is in
    step with it. *)
Record seg_ok (L : lz4) (s : segment) (fs : files) (encs : list (list byte)) (bs : list RecordBatch)
    : Prop := {
  so_enc : Forall2 (encodes L) encs bs;
  so_log : logFile fs = concat encs;
  so_size : ssize s = zlen (concat encs);
  so_chain : chained (sbase s) bs;
  so_next : nextOffset s = endOf (sbase s) bs;
  so_base : baseOffset (sindex s) = sbase s;
  so_index : synced (sindex s) (idxFile fs);
  so_inc : increasing (entries (sindex s));
  so_entries : Forall (points encs bs) (entries (sindex s));
}.

(** What reading needs of a segment: as [seg_ok], without the index file. *)
Record seg_data (L : lz4) (s : segment) (log : list byte) (encs : list (list byte)) (bs : list RecordBatch)
    : Prop := {
  sd_enc : Forall2 (encodes L) encs bs;
  sd_log : log = concat encs;
  sd_size : ssize s = zlen (concat encs);
  sd_chain : chained (sbase s) bs;
  sd_next : nextOffset s = endOf (sbase s) bs;
  sd_base : baseOffset (sindex s) = sbase s;
  sd_index : Forall entry_ok (entries (sindex s));
  sd_inc : increasing (entries (sindex s));
  sd_entries : Forall (points encs bs) (entries (sindex s));
  sd_dirty : 0 <= dirtyFrom (sindex s) <= zlen (entries (sindex s));
}.

(** What a crash leaves on disk: the batches, a torn write after them, and the index
    entries that were synced. *)
Record files_hold (L : lz4) (fs : files) (base : Z) (encs : list (list byte)) (bs : list RecordBatch)
    (t : list byte) (es : list indexEntry) : Prop := {
  fh_enc : Forall2 (encodes L) encs bs;
  fh_log : logFile fs = concat encs ++ t;
  fh_torn : torn L t;
  fh_chain : chained base bs;
  fh_idx : idxFile fs = concat (encodeEntry <$> es);
  fh_ok : Forall entry_ok es;
  fh_inc : increasing es;
  fh_entries : Forall (points encs bs) es;
}.

(** Recovery reads the log in chunks and can only get past a batch that fits one. *)
Definition small (enc : list byte) : Prop := zlen enc <= recoverChunkSize.

(** Each round of the recovery loop reads at least one byte, so more rounds than bytes
    are enough; a log that fits one chunk is scanned without the loop. *)
Definition fitsRounds (fuel : nat) (n : Z) : Prop :=
  (n <= recoverChunkSize \/ n < Z.of_nat fuel) /\ n < 2 ^ 63.

(** The batches that reach past an offset. *)
Definition after (offset : Z) (bs : list RecordBatch) : list RecordBatch :=
  filter (fun b => offset < BaseOffset b + RecordCount b) bs.

(** Appending a list of encoded batches, one after the other. *)
Fixpoint appendAll (cfg : Config) (s : segment) (fs : files) (l : list (list byte * RecordBatch))
    : outcome (segment * files) :=
  match l with
  | [] => Ok (s, fs)
  | (enc, b) :: l => '(s, fs, _) ← segAppend cfg s fs enc b None; appendAll cfg s fs l
  end.

(** ** Lemmas: scanning *)

Lemma torn_BatchSize L t : torn L t -> t <> [] -> exists e, BatchSize t = Err e.
Proof.
  intros [->|(enc & b & rest & (H12 & Hsz & _) & -> & Hr)] Hne; [done|].
  assert (Hrl : 0 < zlen rest) by (destruct rest; [done|]; unfold zlen; cbn [length]; lia).
  specialize (Hsz []). rewrite app_nil_r in Hsz. unfold BatchSize in *. rewrite !zlen_app in *.
  pose proof (zlen_nonneg t).
  destruct (Z.ltb_spec (zlen t) 12); [eauto|]. destruct (Z.ltb_spec (zlen t + zlen rest) 12); [lia|].
  rewrite zslice_Some in Hsz |- * by (rewrite ?zlen_app; lia). cbn [mbind outcome_bind orPanic] in *.
  rewrite zdrop_app_le, ztake_app_le in Hsz by (rewrite ?zlen_zdrop; lia).
  destruct (Z.ltb_spec (zlen t + zlen rest) (12 + unbe (ztake (12 - 8) (zdrop 8 t)))); [done|].
  injection Hsz as Hsz. rewrite Hsz.
  destruct (Z.ltb_spec (zlen t) (zlen t + zlen rest)); [eauto|lia].
Qed.

Lemma encodes_count L encs bs :
  Forall2 (encodes L) encs bs -> Z.of_nat (length encs) <= zlen (concat encs).
Proof.
  induction 1 as [|enc b encs bs (H & _) _ IH]; [done|]. cbn [concat length]. rewrite zlen_app. lia.
Qed.

(** Consecutive batches are visited in order; the scan stops at a torn tail. *)
Lemma batchLoop_spec L {T} (visit : T -> RecordBatch -> T) t : torn L t -> forall encs bs,
  Forall2 (encodes L) encs bs -> forall fuel pre st,
  (length encs < fuel)%nat ->
  batchLoop L visit fuel (pre ++ concat encs ++ t) (zlen pre) st =
    Ok (zlen (pre ++ concat encs), foldl visit st bs).
Proof.
  intros Ht. induction 1 as [|enc b encs bs (H12 & Hsz & Hdec) _ IH]; intros fuel pre st Hf;
    (destruct fuel as [|f]; [cbn in Hf; lia|]); cbn [batchLoop concat foldl app].
  - rewrite app_nil_r, zlen_app. pose proof (zlen_nonneg t).
    destruct (Z.ltb_spec (zlen pre) (zlen pre + zlen t)); [|done].
    rewrite (slice_mid (pre ++ t) pre t []) by (rewrite ?app_nil_r; done).
    cbn [mbind outcome_bind orPanic].
    destruct (torn_BatchSize L t Ht) as [e ->]; [|done]. intros ->. unfold zlen in *. cbn in *. lia.
  - rewrite <- app_assoc. set (tl := concat encs ++ t). pose proof (zlen_nonneg tl).
    rewrite !zlen_app. destruct (Z.ltb_spec (zlen pre) (zlen pre + (zlen enc + zlen tl))); [|lia].
    rewrite (slice_mid (pre ++ enc ++ tl) pre (enc ++ tl) [])
      by (rewrite ?app_nil_r, ?zlen_app; done).
    cbn [mbind outcome_bind orPanic]. rewrite Hsz.
    destruct (Z.ltb_spec (zlen pre + (zlen enc + zlen tl)) (zlen pre + zlen enc)); [lia|].
    rewrite (slice_mid (pre ++ enc ++ tl) pre enc tl) by done.
    cbn [mbind outcome_bind orPanic]. rewrite Hdec.
    rewrite <- (zlen_app pre enc). rewrite (app_assoc pre enc tl). unfold tl.
    rewrite IH by (cbn in Hf; lia). by rewrite !zlen_app, Z.add_assoc.
Qed.

Lemma scanVisit_chained bs : forall o n,
  chained o bs -> 0 <= n <= o -> bs <> [] -> foldl scanVisit n bs = endOf o bs.
Proof.
  induction bs as [|b bs IH]; intros o n Hc Hn Hne; [done|]. destruct Hc as (Hb & Ho & Hr & Hlt & Hc).
  cbn [foldl endOf]. unfold scanVisit at 2. rewrite Hb, u64_small by lia.
  destruct (Z.ltb_spec n (o + RecordCount b)); [|lia]. destruct bs as [|b' bs]; [done|].
  apply IH; [done|lia|done].
Qed.

Lemma endOf_app o bs cs : endOf o (bs ++ cs) = endOf (endOf o bs) cs.
Proof. revert o. induction bs as [|b bs IH]; intros o; [done|]. apply IH. Qed.

Lemma chained_app o bs cs : chained o (bs ++ cs) <-> chained o bs /\ chained (endOf o bs) cs.
Proof.
  revert o. induction bs as [|b bs IH]; intros o; cbn [app chained endOf]; [tauto|].
  rewrite IH. tauto.
Qed.

Lemma endOf_ge o bs : chained o bs -> o <= endOf o bs.
Proof.
  revert o. induction bs as [|b bs IH]; intros o; cbn; [lia|].
  intros (_ & _ & ? & _ & Hc). specialize (IH _ Hc). lia.
Qed.

Lemma endOf_shift o bs : endOf o bs = o + endOf 0 bs.
Proof.
  revert o. induction bs as [|b bs IH]; intros o; cbn [endOf]; [lia|].
  rewrite (IH (o + _)), (IH (0 + _)). lia.
Qed.

Lemma endOf_take_mono o bs i j :
  chained o bs -> (i < j <= length bs)%nat -> endOf 0 (take i bs) < endOf 0 (take j bs).
Proof.
  revert o i j. induction bs as [|b bs IH]; intros o i j Hc Hij; [cbn in Hij; lia|].
  destruct Hc as (_ & _ & Hr & _ & Hc). destruct j as [|j]; [lia|]. cbn [take endOf].
  rewrite (endOf_shift (0 + _)).
  assert (Hnn : forall k, 0 <= endOf 0 (take k bs)).
  { intros k. rewrite <- (take_drop k bs) in Hc. apply chained_app in Hc as [Hct _].
    apply endOf_ge in Hct. rewrite endOf_shift in Hct. lia. }
  destruct i as [|i]; cbn [take endOf].
  - specialize (Hnn j). lia.
  - rewrite (endOf_shift (0 + _)). assert (endOf 0 (take i bs) < endOf 0 (take j bs)); [|lia].
    apply (IH (o + RecordCount b)); [done|cbn in Hij; lia].
Qed.

(** ** Lemmas: recovery *)

Lemma last_Forall {A} (Q : A -> Prop) l x : Forall Q l -> last l = Some x -> Q x.
Proof.
  intros Hl Hx. apply last_Some in Hx as [l' ->]. by apply Forall_app in Hl as [_ [? _]%Forall_cons].
Qed.

Lemma take_concat {A} (k : nat) (ls : list (list A)) :
  concat ls = concat (take k ls) ++ concat (drop k ls).
Proof. by rewrite <- concat_app, take_drop. Qed.

Lemma zlen_truncate_end file t :
  truncate (file ++ t) (zlen file) = file.
Proof.
  unfold truncate. rewrite ztake_app_exact, zlen_app, zeros_nonpos by (pose proof (zlen_nonneg t); lia).
  apply app_nil_r.
Qed.

Lemma torn_prefix L enc b n :
  encodes L enc b -> 0 <= n < zlen enc -> torn L (ztake n enc).
Proof.
  intros He Hn. right. exists enc, b, (zdrop n enc). rewrite ztake_zdrop. split_and!; [done|done|].
  intros E. apply (f_equal zlen) in E. rewrite zlen_zdrop in E by lia. unfold zlen in *. cbn in E. lia.
Qed.

(** The first [n] bytes of a log are whole batches and a torn one. *)
Lemma window_split L encs bs n :
  Forall2 (encodes L) encs bs -> 0 <= n ->
  exists j t, ztake n (concat encs) = concat (take j encs) ++ t /\ torn L t /\ (j <= length encs)%nat /\
    zlen (concat (take j encs)) <= n /\
    ((j < length encs)%nat -> n < zlen (concat (take (S j) encs))).
Proof.
  intros Henc. revert n. induction Henc as [|enc b encs bs He _ IH]; intros n Hn.
  { exists 0%nat, []. cbn [concat take length app]. unfold ztake. rewrite take_nil. split_and!; [done | by left | lia | exact Hn | lia]. }
  cbn [concat]. destruct (decide (zlen enc <= n)) as [Hle|Hgt].
  - destruct (IH (n - zlen enc) ltac:(lia)) as (j & t & Hw & Ht & Hj & Hsz & Hmax).
    exists (S j), t. cbn [take concat length]. rewrite ztake_app_ge, Hw, app_assoc, !zlen_app by lia.
    split_and!; [done | done | lia | lia |]. intros Hlt. specialize (Hmax ltac:(lia)). cbn [take concat] in *. lia.
  - exists 0%nat, (ztake n enc). cbn [take concat app length]. rewrite ztake_app_le, app_nil_r by lia.
    split_and!; [done | by apply (torn_prefix L enc b); [|lia] | lia | exact Hn | lia].
Qed.

Lemma torn_ztake L t n : torn L t -> torn L (ztake n t).
Proof.
  intros [->|(enc & b & rest & He & -> & Hr)]; [left; unfold ztake; by rewrite take_nil|].
  right. exists (t ++ rest), b, (zdrop n t ++ rest). rewrite app_assoc, ztake_zdrop.
  split_and!; [done | done|]. by intros [_ ?]%app_nil.
Qed.

(** The same with a torn batch at the end of the log. *)
Lemma window_split_torn L encs bs t n :
  Forall2 (encodes L) encs bs -> torn L t -> 0 <= n ->
  exists j t', ztake n (concat encs ++ t) = concat (take j encs) ++ t' /\ torn L t' /\ (j <= length encs)%nat /\
    zlen (concat (take j encs)) <= n /\
    ((j < length encs)%nat -> n < zlen (concat (take (S j) encs))).
Proof.
  intros Henc Ht Hn. destruct (decide (n <= zlen (concat encs))) as [Hle|Hgt].
  - rewrite ztake_app_le by done. by apply (window_split L encs bs).
  - exists (length encs), (ztake (n - zlen (concat encs)) t). rewrite firstn_all, ztake_app_ge by lia.
    split_and!; [done | by apply torn_ztake | lia | lia | lia].
Qed.

(** A scan of whole batches and a torn one. *)
Lemma scanBatches_spec L encs bs t n :
  Forall2 (encodes L) encs bs -> torn L t ->
  scanBatches L n (concat encs ++ t) = Ok (zlen (concat encs), foldl scanVisit n bs).
Proof.
  intros Henc Ht. pose proof (encodes_count _ _ _ Henc) as Hcnt.
  apply (batchLoop_spec L scanVisit t Ht _ _ Henc (S (length (concat encs ++ t))) []).
  rewrite length_app. unfold zlen in Hcnt. lia.
Qed.

(** The chunked scan.  [pre] has been consumed and the first [c] bytes of the rest,
    less than a whole batch, are the carry: every round reads on, so the loop ends, with
    exactly the whole batches consumed, wherever the chunks cut them. *)
Lemma recoverLoop_spec L t : torn L t -> zlen t <= recoverChunkSize -> forall fuel encs bs pre c n,
  Forall2 (encodes L) encs bs -> Forall small encs ->
  0 <= c <= zlen (concat encs ++ t) -> (forall enc, head encs = Some enc -> c < zlen enc) ->
  zlen (concat encs ++ t) - c < Z.of_nat fuel ->
  recoverLoop L fuel (pre ++ concat encs ++ t) (zlen (pre ++ concat encs ++ t)) (zlen pre + c)
    (ztake c (concat encs ++ t)) (zlen pre) n = Ok (zlen (pre ++ concat encs), foldl scanVisit n bs).
Proof.
  intros Ht Htl. induction fuel as [|f IH]; intros encs bs pre c n Henc Hsm Hc Hc1 Hf; [lia|].
  cbn [recoverLoop]. rewrite (zlen_app pre (concat encs ++ t)).
  set (d := concat encs ++ t) in *. pose proof (zlen_nonneg pre). pose proof (zlen_nonneg t).
  destruct (Z.ltb_spec (zlen pre + c) (zlen pre + zlen d)) as [Hlt|Hge].
  2:{ assert (encs = []) as ->.
      { destruct encs as [|enc encs]; [done|]. specialize (Hc1 enc eq_refl). unfold d in *. cbn [concat] in *.
        rewrite !zlen_app in *. pose proof (zlen_nonneg (concat encs)). lia. }
      apply Forall2_nil_inv_l in Henc as ->. cbn. by rewrite app_nil_r. }
  assert (Hcc : c < recoverChunkSize).
  { destruct encs as [|enc encs]; [unfold d in *; cbn in *; lia|]. specialize (Hc1 enc eq_refl).
    apply Forall_cons in Hsm as [Hsm _]. unfold small in Hsm. lia. }
  set (m := Z.min recoverChunkSize (zlen d)).
  assert (Hkept : ztake recoverChunkSize (ztake c d) = ztake c d) by (apply ztake_ge; rewrite zlen_ztake; lia).
  rewrite Hkept, zlen_ztake by lia.
  replace (if zlen pre + zlen d <? zlen pre + c + (recoverChunkSize - c) then zlen pre + zlen d - (zlen pre + c)
           else recoverChunkSize - c) with (m - c) by (unfold m; zb; lia).
  assert (Hread : readAt (pre ++ d) (zlen pre + c) (m - c) = ztake (m - c) (zdrop c d)).
  { unfold readAt. rewrite zdrop_app_ge by lia. do 2 f_equal. lia. }
  rewrite Hread, zlen_ztake by (rewrite zlen_zdrop; unfold m; lia).
  rewrite Z.ltb_irrefl. cbn [andb].
  assert (Hdata : ztake c d ++ ztake (m - c) (zdrop c d) = ztake m d).
  { rewrite <- (ztake_zdrop c (ztake m d)), ztake_ztake, Z.min_l by (unfold m; lia). f_equal.
    unfold ztake, zdrop. rewrite take_drop_commute. do 2 f_equal. unfold m. lia. }
  rewrite Hdata.
  destruct (window_split_torn L encs bs t m Henc Ht ltac:(unfold m; lia)) as (j & t' & Hsp & Ht' & Hj & Hjm & Hjn).
  fold d in Hsp. rewrite Hsp, (scanBatches_spec L _ (take j bs) t') by (done || by apply Forall2_take).
  cbn [mbind outcome_bind]. rewrite zdrop_app_ge, Z.sub_diag, zdrop_le0 by lia.
  set (a := concat (take j encs)) in *.
  assert (Hd : d = a ++ (concat (drop j encs) ++ t)) by (unfold d, a; rewrite app_assoc; f_equal; apply take_concat).
  assert (Ht'' : t' = ztake (m - zlen a) (concat (drop j encs) ++ t)).
  { rewrite Hd, ztake_app_ge in Hsp by lia. by apply app_inv_head in Hsp. }
  rewrite Ht'', Hd, <- (zlen_app pre (a ++ _)), (app_assoc pre a), <- (zlen_app pre a).
  replace (zlen pre + c + (m - c)) with (zlen (pre ++ a) + (m - zlen a)) by (rewrite zlen_app; lia).
  pose proof (zlen_nonneg a). pose proof (f_equal zlen Hd) as Hdl. rewrite zlen_app in Hdl.
  rewrite (IH (drop j encs) (drop j bs) (pre ++ a) (m - zlen a)).
  - rewrite <- foldl_app, take_drop. unfold a. by rewrite <- app_assoc, <- take_concat.
  - by apply Forall2_drop.
  - by apply Forall_drop.
  - unfold m in *. lia.
  - intros enc He. rewrite head_lookup, lookup_drop, Nat.add_0_r in He.
    specialize (Hjn (lookup_lt_Some _ _ _ He)).
    rewrite (take_S_r _ _ _ He), concat_app, zlen_app in Hjn. fold a in Hjn. cbn in Hjn.
    rewrite app_nil_r in Hjn. lia.
  - unfold m in *. lia.
Qed.

(** The numbering after a scan from the [k]-th batch on. *)
Lemma scan_endOf bs k n : chained n bs -> 0 <= n -> (k < length bs)%nat \/ bs = [] ->
  foldl scanVisit n (drop k bs) = endOf n bs.
Proof.
  intros Hc Hn [Hk| ->]; [|by rewrite drop_nil].
  rewrite <- (take_drop k bs) in Hc at 1. apply chained_app in Hc as [Hc1 Hc2].
  rewrite (scanVisit_chained _ _ n Hc2).
  - by rewrite <- endOf_app, take_drop.
  - apply endOf_ge in Hc1. lia.
  - intros E. apply (f_equal length) in E. rewrite length_drop in E. cbn in E. lia.
Qed.

(** Scanning from the start of the [k]-th batch, in one piece or in chunks. *)
Lemma recoverFrom_spec L fuel encs bs t k n :
  Forall2 (encodes L) encs bs -> torn L t -> chained n bs -> (k < length encs)%nat \/ encs = [] -> 0 <= n ->
  Forall small encs -> zlen t <= recoverChunkSize -> fitsRounds fuel (zlen (concat encs ++ t)) ->
  let pos := zlen (concat (take k encs)) in
  let size := zlen (concat encs ++ t) in
  (if size - pos <=? recoverChunkSize then
     '(c, next) ← recoverRange L n (concat encs ++ t) pos (size - pos); Ok (pos + c, next)
   else recoverLoop L fuel (concat encs ++ t) size pos [] pos n) =
    Ok (zlen (concat encs), endOf n bs).
Proof.
  intros Henc Ht Hc Hk Hn Hsm Htl [Hfit _] pos size. pose proof (Forall2_length _ _ _ Henc) as Hlen.
  assert (Hk' : (k < length bs)%nat \/ bs = []).
  { destruct Hk as [?| ->]; [left; lia|right]. by apply Forall2_nil_inv_l in Henc. }
  rewrite <- (scan_endOf bs k n Hc Hn Hk'). subst pos size.
  assert (Hd : Forall2 (encodes L) (drop k encs) (drop k bs)) by (by apply Forall2_drop).
  rewrite (take_concat k encs), <- app_assoc.
  set (a := concat (take k encs)) in *. set (d := concat (drop k encs)) in *.
  pose proof (zlen_nonneg a). pose proof (zlen_nonneg (d ++ t)). rewrite zlen_app.
  replace (zlen a + zlen (d ++ t) - zlen a) with (zlen (d ++ t)) by lia.
  destruct (Z.leb_spec (zlen (d ++ t)) recoverChunkSize) as [Hle|Hgt].
  - unfold recoverRange, readAt. rewrite zdrop_app_ge, Z.sub_diag, zdrop_le0, ztake_ge, Z.ltb_irrefl by lia.
    cbn [andb]. unfold d; rewrite (scanBatches_spec L _ _ t n Hd Ht); fold d. cbn [mbind outcome_bind]. by rewrite zlen_app.
  - rewrite (take_concat k encs), <- app_assoc in Hfit. fold a d in Hfit. rewrite zlen_app in Hfit.
    pose proof (recoverLoop_spec L t Ht Htl fuel (drop k encs) (drop k bs) a 0 n Hd (Forall_drop _ _ _ Hsm)) as Hr.
    fold d in Hr. rewrite (zlen_app a), Z.add_0_r, ztake_le0 in Hr by lia. apply Hr; [lia| |lia].
    intros enc He. destruct Hd as [|enc' b encs' bs' (H12 & _) _]; [done|]. injection He as ->. lia.
Qed.

(** The scan starts at a batch that is in the log. *)
Lemma scanStart_spec es (encs : list (list byte)) bs base :
  Forall (points encs bs) es ->
  zlen (concat encs) < 2 ^ 63 ->
  exists k, ((k < length encs)%nat \/ (k = 0%nat)) /\
    match LastEntry (mkIndex 0 es base (zlen es)) with Some (_, p) => i64 p | None => 0 end
      = zlen (concat (take k encs)).
Proof.
  intros Hes Hsm. unfold LastEntry. cbn [entries]. destruct (last es) as [e|] eqn:El.
  - destruct (last_Forall _ _ _ Hes El) as (k & Hk & Hp & _). exists k. split; [by left|].
    rewrite Hp. apply i64_small. pose proof (zlen_nonneg (concat (take k encs))).
    rewrite (take_concat k encs), zlen_app in Hsm. pose proof (zlen_nonneg (concat (drop k encs))). lia.
  - exists 0%nat. split; [by right|]. done.
Qed.

Lemma take_concat_lt L encs bs k :
  Forall2 (encodes L) encs bs -> (k < length encs)%nat \/ encs = [] ->
  zlen (concat (take k encs)) < zlen (concat encs) \/ zlen (concat (take k encs)) = 0.
Proof.
  intros Henc [Hk| ->]; [left|right; by rewrite take_nil]. rewrite (take_concat k encs), zlen_app.
  assert (Hd : Forall2 (encodes L) (drop k encs) (drop k bs)) by (by apply Forall2_drop).
  apply encodes_count in Hd. rewrite length_drop in Hd. lia.
Qed.

Lemma increasing_ztake n es : increasing es -> increasing (ztake n es).
Proof.
  unfold ztake. generalize (Z.to_nat n). clear n. intros k. revert k.
  induction es as [|e es IH]; intros [|k]; cbn; try done.
  intros [Hf Hi]. split; [by apply Forall_take | by apply IH].
Qed.

(** A running segment leaves its batches and its synced entries on disk, whatever
    torn write follows. *)
Lemma seg_ok_files L s fs encs bs t :
  seg_ok L s fs encs bs -> torn L t ->
  files_hold L (mkFiles (logFile fs ++ t) (idxFile fs)) (sbase s) encs bs t
    (ztake (dirtyFrom (sindex s)) (entries (sindex s))).
Proof.
  intros [Henc Hlog Hsize Hch Hnext Hbase (Hok & Hdf & Hfile & Hpos) Hinc Hent] Ht.
  split; cbn [logFile idxFile]; try done.
  - by rewrite Hlog.
  - by apply Forall_take.
  - by apply increasing_ztake.
  - by apply Forall_take.
Qed.

Lemma fitsRounds_le fuel n m : fitsRounds fuel n -> m <= n -> fitsRounds fuel m.
Proof. unfold fitsRounds. lia. Qed.

(** Reopening the files restores exactly the batches. *)
Lemma recover_files L fuel fs base encs bs t es now mt :
  files_hold L fs base encs bs t es -> 0 <= base < 2 ^ 64 ->
  Forall small encs -> zlen t <= recoverChunkSize -> fitsRounds fuel (zlen (logFile fs)) ->
  exists s', openSegment L fuel now mt fs base = Ok (s', mkFiles (concat encs) (idxFile fs)) /\
    seg_data L s' (concat encs) encs bs /\ sbase s' = base /\ entries (sindex s') = es /\
    mmapLen s' = None.
Proof.
  intros [Henc Hlog Ht Hch Hfile Hoks Hinc Hents] Hb Hsm Htl Hfit. destruct fs as [log file].
  cbn [logFile idxFile] in *. subst log.
  unfold openSegment, openIndex. cbn [idxFile logFile]. rewrite Hfile, loadEntries_encode by done.
  cbn [mbind option_bind orPanic outcome_bind]. unfold recover. cbn [ssize sindex nextOffset].
  pose proof (zlen_nonneg (concat encs)). pose proof (zlen_nonneg t). pose proof (zlen_nonneg es).
  pose proof (proj2 Hfit) as H63. rewrite zlen_app in H63 |- *. set (size := zlen (concat encs) + zlen t) in *.
  destruct (Z.eqb_spec size 0) as [E|E].
  { assert (zlen t = 0) as Et by lia. assert (zlen (concat encs) = 0) as Ee by lia.
    pose proof (encodes_count _ _ _ Henc). assert (length encs = 0%nat) as El by lia.
    apply nil_length_inv in El as ->. apply Forall2_nil_inv_l in Henc as ->.
    apply zlen_zero in Et as ->. rewrite app_nil_r. eexists. split; [done|]. split; [|by split_and!].
    split; cbn; done || lia. }
  destruct (scanStart_spec es encs bs base Hents) as (k & Hk' & Hs); [lia|].
  assert (Hk : (k < length encs)%nat \/ encs = []).
  { destruct Hk' as [?| ->]; [by left|]. destruct encs; [by right|left; cbn; lia]. }
  rewrite Hs. pose proof (take_concat_lt L encs bs k Henc Hk) as Hkl.
  pose proof (zlen_nonneg (concat (take k encs))).
  destruct (Z.leb_spec (size - zlen (concat (take k encs))) 0); [lia|].
  unfold size. rewrite <- zlen_app.
  rewrite (recoverFrom_spec L fuel encs bs t k base) by (done || lia).
  cbn [mbind outcome_bind ssize setNext].
  rewrite (zlen_app _ t). destruct (Z.ltb_spec (zlen (concat encs)) (zlen (concat encs) + zlen t)).
  - cbn [mbind outcome_bind]. rewrite zlen_truncate_end. eexists. split; [done|]. split; [|by split_and!].
    split; cbn; done || lia.
  - assert (zlen t = 0) as Et by lia. apply zlen_zero in Et as ->. cbn [mbind outcome_bind].
    rewrite !app_nil_r. eexists. split; [done|]. split; [|by split_and!].
    split; cbn; done || lia.
Qed.

(** ** Lemmas: appending *)

Lemma open_empty L fuel now mt base :
  exists s, openSegment L fuel now mt (mkFiles [] []) base = Ok (s, mkFiles [] []) /\
    seg_ok L s (mkFiles [] []) [] [] /\ sbase s = base.
Proof.
  eexists. split; [reflexivity|]. split; [|done]. by constructor.
Qed.

Lemma new_entry_ok (encs : list (list byte)) bs e enc b :
  points encs bs e -> length encs = length bs -> points (encs ++ [enc]) (bs ++ [b]) e.
Proof.
  intros (k & Hk & Hp & Hr) Hl. exists k. rewrite length_app, !take_app_le by lia. split; [lia|done].
Qed.

Lemma index_step L s fs encs bs enc b :
  seg_ok L s fs encs bs -> BaseOffset b = nextOffset s -> endOf 0 bs < 2 ^ 32 ->
  zlen (concat encs) < 2 ^ 64 ->
  let idx := Index.Append (sindex s) (BaseOffset b) (ssize s) in
  synced idx (idxFile fs) /\ increasing (entries idx) /\
  Forall (points (encs ++ [enc]) (bs ++ [b])) (entries idx).
Proof.
  intros [Henc Hlog Hsize Hch Hnext Hbase Hidx Hinc Hent] Hb Hsm Hlen idx.
  pose proof (Forall2_length _ _ _ Henc) as Hl. pose proof (zlen_nonneg (concat encs)).
  assert (Hge : 0 <= endOf 0 bs) by (apply endOf_ge in Hch; rewrite endOf_shift in Hch; lia).
  assert (Hrel : u32 (BaseOffset b - baseOffset (sindex s)) = endOf 0 bs).
  { rewrite Hb, Hnext, Hbase, endOf_shift. unfold u32. rewrite Z.mod_small; lia. }
  split; [apply synced_Append; [done|lia]|]. unfold idx, Index.Append. cbn [entries]. rewrite Hrel.
  split.
  - apply increasing_snoc; [done|]. eapply Forall_impl; [exact Hent|].
    intros e (k & Hk & _ & ->). cbn. rewrite <- (firstn_all bs) at 2.
    apply (endOf_take_mono (sbase s)); [done|lia].
  - apply Forall_app. split.
    + eapply Forall_impl; [exact Hent|]. intros e He. by apply new_entry_ok.
    + constructor; [|constructor]. exists (length encs). rewrite length_app. cbn.
      rewrite take_app_length, Hl, take_app_length. split; [lia|done].
Qed.

(** The segment after [enc] was stored and its index brought up to date. *)
Lemma seg_ok_snoc L s fs encs bs enc b idx file cr bsi bss mm :
  seg_ok L s fs encs bs -> encodes L enc b -> BaseOffset b = nextOffset s -> 0 <= sbase s ->
  0 < RecordCount b -> nextOffset s + RecordCount b < 2 ^ 64 ->
  synced idx file -> increasing (entries idx) -> baseOffset idx = sbase s ->
  Forall (points (encs ++ [enc]) (bs ++ [b])) (entries idx) ->
  seg_ok L (mkSegment idx (sbase s) (ssize s + zlen enc) cr (u64 (BaseOffset b + RecordCount b)) bsi bss mm)
    (mkFiles (logFile fs ++ enc) file) (encs ++ [enc]) (bs ++ [b]).
Proof.
  intros [He Hlog Hsize Hch Hnext Hbase _ _ _] Henc Hb Hbase0 Hrc Hlt Hs Hi Hbs Hp.
  assert (Hge : 0 <= nextOffset s) by (rewrite Hnext; apply endOf_ge in Hch; lia).
  constructor; cbn [sbase sindex ssize nextOffset logFile idxFile]; try done.
  - apply Forall2_app; [done|]. by constructor.
  - rewrite Hlog, concat_app. cbn. by rewrite app_nil_r.
  - rewrite Hsize, concat_app, zlen_app. cbn. by rewrite app_nil_r.
  - apply chained_app. split; [done|]. cbn. rewrite <- Hnext. split_and!; done || lia.
  - rewrite endOf_app. cbn. rewrite <- Hnext, Hb, u64_small; lia.
Qed.

Lemma Sync_base idx file idx' file' ok :
  Index.Sync idx file None = Some (idx', file', ok) -> baseOffset idx' = baseOffset idx.
Proof.
  unfold Index.Sync. destruct (zslice _ _ _); [|done]. cbn. destruct (_ =? 0); intros; by simplify_eq.
Qed.

Lemma segAppend_ok L cfg s fs encs bs enc b :
  seg_ok L s fs encs bs -> encodes L enc b -> BaseOffset b = nextOffset s -> 0 <= sbase s ->
  0 < RecordCount b -> nextOffset s + RecordCount b < 2 ^ 64 -> endOf 0 bs < 2 ^ 32 ->
  zlen (concat encs) < 2 ^ 64 ->
  exists s' fs', segAppend cfg s fs enc b None = Ok (s', fs', true) /\
    seg_ok L s' fs' (encs ++ [enc]) (bs ++ [b]) /\ sbase s' = sbase s.
Proof.
  intros Hok Henc Hb Hbase0 Hrc Hlt Hsm Hlen.
  pose proof (index_step L s fs encs bs enc b Hok Hb Hsm Hlen) as (Hsy & Hin & Hen).
  pose proof (Forall2_length _ _ _ (so_enc _ _ _ _ _ Hok)) as Hl.
  unfold segAppend. set (sh := _ || _).
  set (idx := if sh then Index.Append (sindex s) (BaseOffset b) (ssize s) else sindex s).
  assert (Hidx : synced idx (idxFile fs) /\ increasing (entries idx) /\ baseOffset idx = sbase s /\
    Forall (points (encs ++ [enc]) (bs ++ [b])) (entries idx)).
  { unfold idx. destruct Hok as [_ _ _ _ _ Hbase Hidx Hinc Hent]. destruct sh; [done|].
    split; [done|]. split; [done|]. split; [done|].
    eapply Forall_impl; [exact Hent|]. intros e He. by apply new_entry_ok. }
  destruct Hidx as (H1 & H2 & H3 & H4).
  replace (if sh then (Index.Append (sindex s) (BaseOffset b) (ssize s), 0) else (sindex s, bytesSinceIndex s))
    with (idx, if sh then 0 else bytesSinceIndex s) by (unfold idx; by destruct sh).
  cbn [batchesSinceSync]. destruct ((0 <? FsyncEvery cfg) && _).
  - destruct (Sync_durable idx (idxFile fs) 0 H1) as [(idx' & file' & E & Hs' & Hes & _) _].
    cbn [sindex]. rewrite E. apply Sync_base in E. cbn [mbind outcome_bind orPanic].
    do 2 eexists. split; [done|]. split; [|done].
    cbn [sbase ssize created nextOffset bytesSinceIndex mmapLen].
    apply seg_ok_snoc; try done; rewrite ?Hes; congruence || done.
  - do 2 eexists. split; [done|]. split; [|done]. by apply seg_ok_snoc.
Qed.

Lemma appendAll_ok L cfg l : forall s fs encs bs,
  seg_ok L s fs encs bs -> Forall (fun eb => encodes L eb.1 eb.2) l -> 0 <= sbase s ->
  chained (nextOffset s) l.*2 -> endOf 0 (bs ++ l.*2) < 2 ^ 32 -> zlen (concat (encs ++ l.*1)) < 2 ^ 64 ->
  exists s' fs', appendAll cfg s fs l = Ok (s', fs') /\
    seg_ok L s' fs' (encs ++ l.*1) (bs ++ l.*2) /\ sbase s' = sbase s.
Proof.
  induction l as [|[enc b] l IH]; intros s fs encs bs Hok Henc Hb Hch Hsm Hlen.
  - do 2 eexists. split; [done|]. cbn. by rewrite !app_nil_r.
  - apply Forall_cons in Henc as [He Henc]. cbn [fmap list_fmap fst snd chained] in *.
    destruct Hch as (Hbo & _ & Hrc & Hlt & Hch).
    assert (Hc : chained (sbase s) (bs ++ b :: l.*2)).
    { apply chained_app. split; [apply Hok|]. rewrite <- (so_next _ _ _ _ _ Hok).
      pose proof (endOf_ge _ _ (so_chain _ _ _ _ _ Hok)) as Hge. rewrite <- (so_next _ _ _ _ _ Hok) in Hge.
      cbn. split_and!; done || lia. }
    assert (Hsm1 : endOf 0 bs < 2 ^ 32).
    { rewrite endOf_app in Hsm. apply chained_app in Hc as [_ Hc]. apply endOf_ge in Hc.
      rewrite (endOf_shift (endOf (sbase s) bs)) in Hc. rewrite (endOf_shift (endOf 0 bs)) in Hsm. lia. }
    assert (Hlen1 : zlen (concat encs) < 2 ^ 64).
    { rewrite concat_app, zlen_app in Hlen. pose proof (zlen_nonneg (concat (enc :: l.*1))). lia. }
    destruct (segAppend_ok L cfg s fs encs bs enc b Hok He Hbo Hb Hrc Hlt Hsm1 Hlen1)
      as (s1 & fs1 & E & Hok1 & Hb1).
    destruct (IH s1 fs1 (encs ++ [enc]) (bs ++ [b]) Hok1 Henc) as (s2 & fs2 & E2 & Hok2 & Hb2).
    + lia.
    + rewrite (so_next _ _ _ _ _ Hok1), Hb1, endOf_app, <- (so_next _ _ _ _ _ Hok). exact Hch.
    + rewrite <- app_assoc. exact Hsm.
    + rewrite <- app_assoc. exact Hlen.
    + cbn [appendAll]. rewrite E. cbn [mbind outcome_bind]. do 2 eexists. split; [done|].
      rewrite <- !app_assoc in Hok2. split; [exact Hok2|lia].
Qed.

(** What [EncodeBatch] returns is an encoding in this sense. *)
Lemma EncodeBatch_encodes L b dst :
  lz4_ok L -> batch_ok b -> zlen (recordBytes (Records b)) <= 2 ^ 23 ->
  (Compression b = CompressionLZ4 ->
   exists c, CompressBlock L (recordBytes (Records b)) = inl c /\ zlen c < 2 ^ 31) ->
  exists enc ct, EncodeBatch L b dst = Ok enc /\
    encodes L enc (mkBatch (BaseOffset b) (RecordCount b) ct (Timestamp b) (MaxTimestamp b) (Records b)).
Proof.
  intros HL Hok Hs Hlz.
  destruct (compressPayload_spec L HL b Hok Hs Hlz) as (payload & ct & Hc & Hp & Hct & Hd).
  pose proof (zlen_nonneg payload). exists (layout b ct payload), ct. split.
  { apply EncodeBatch_layout; [|done]. destruct Hok as (_ & _ & _ & _ & Hrc & _). lia. }
  split; [rewrite zlen_layout; lia|]. split; [intros; by apply BatchSize_layout|].
  rewrite <- (app_nil_r (layout b ct payload)). apply DecodeBatch_layout; [done..|lia].
Qed.

(** ** Lemmas: reading *)

Lemma readVisit_filter bs : forall o offset acc,
  chained o bs -> foldl (readVisit offset) acc bs = acc ++ after offset bs.
Proof.
  induction bs as [|b bs IH]; intros o offset acc Hc; [by rewrite app_nil_r|].
  destruct Hc as (Hb & Ho & Hr & Hlt & Hc). cbn [foldl]. rewrite (IH _ _ _ Hc).
  unfold readVisit, after. rewrite u64_small by lia. destruct (Z.ltb_spec offset (BaseOffset b + RecordCount b)).
  - rewrite filter_cons_True by done. by rewrite <- app_assoc.
  - by rewrite filter_cons_False by lia.
Qed.

Lemma after_none bs : forall o offset,
  chained o bs -> endOf o bs <= offset -> after offset bs = [].
Proof.
  induction bs as [|b bs IH]; intros o offset Hc He; [done|].
  destruct Hc as (Hb & _ & _ & _ & Hc). cbn [endOf] in He. pose proof (endOf_ge _ _ Hc).
  unfold after in *. rewrite filter_cons_False by lia. by apply (IH (o + RecordCount b)).
Qed.

Lemma seg_ok_data L s fs encs bs : seg_ok L s fs encs bs -> seg_data L s (logFile fs) encs bs.
Proof. intros [? ? ? ? ? ? (? & ? & _) ? ?]. by split. Qed.

Lemma seg_data_ok L s fs encs bs :
  seg_data L s (logFile fs) encs bs -> synced (sindex s) (idxFile fs) -> seg_ok L s fs encs bs.
Proof. intros [] ?. by split. Qed.

(** The index leads to a batch before which nothing reaches past the offset. *)
Lemma Lookup_start L s log encs bs offset :
  seg_data L s log encs bs -> sbase s <= offset < sbase s + 2 ^ 32 ->
  exists k f, Lookup (sindex s) offset = Some (zlen (concat (take k encs)), f) /\
    after offset (take k bs) = [].
Proof.
  intros [Henc Hlog Hsize Hch Hnext Hbase Hok Hinc Hent _] Ho.
  rewrite Lookup_floor by (done || lia).
  destruct (floorEntry (entries (sindex s)) (offset - baseOffset (sindex s))) as [e|] eqn:E.
  - destruct (floorEntry_in _ _ _ E) as [Hin Hle].
    rewrite Forall_forall in Hent. destruct (Hent e Hin) as (k & Hk & Hp & Hr).
    exists k. eexists. rewrite Hp. split; [done|]. rewrite <- (take_drop k bs) in Hch.
    apply chained_app in Hch as [Hc1 _]. apply (after_none _ (sbase s)); [done|].
    rewrite endOf_shift. lia.
  - exists 0%nat. by eexists.
Qed.

Lemma ztake_min {A} n (l : list A) : ztake (Z.min n (zlen l)) l = ztake n l.
Proof. rewrite <- ztake_ztake, (ztake_ge (zlen l)) by lia. done. Qed.

(** The window that [ReadFrom] looks at, from the start of the [k]-th batch. *)
Lemma readWindow_prefix L s log encs bs k maxBytes :
  seg_data L s log encs bs -> (mmapLen s = None \/ mmapLen s = Some (ssize s)) -> 0 <= maxBytes ->
  exists w, readWindow s log (zlen (concat (take k encs))) maxBytes = Ok w /\
    default [] w = ztake maxBytes (concat (drop k encs)).
Proof.
  intros [_ Hlog Hsize _ _ _ _ _ _ _] Hm Hmax. rewrite Hlog, Hsize in *.
  pose proof (take_concat k encs) as Hs. set (a := concat (take k encs)) in *.
  set (d := concat (drop k encs)) in *. rewrite Hs in *. pose proof (zlen_nonneg a).
  pose proof (zlen_nonneg d). rewrite zlen_app in *. unfold readWindow.
  destruct Hm as [-> | ->]; rewrite ?Hsize, ?zlen_app.
  - replace (zlen a + zlen d - zlen a) with (zlen d) by lia.
    destruct (Z.leb_spec (zlen d) 0).
    { exists None. split; [done|]. cbn. assert (E : zlen d = 0) by lia. apply zlen_zero in E. rewrite E. unfold ztake. by rewrite take_nil. }
    replace (if maxBytes <? zlen d then maxBytes else zlen d) with (Z.min maxBytes (zlen d)) by (zb; lia).
    destruct (Z.ltb_spec (Z.min maxBytes (zlen d)) 0); [lia|]. unfold readAt.
    rewrite zdrop_app_ge, Z.sub_diag, zdrop_le0, zlen_ztake, Z.ltb_irrefl by lia. cbn [andb].
    eexists. split; [done|]. cbn. by rewrite ztake_min.
  - replace (if zlen a + zlen d <? zlen a + maxBytes then zlen a + zlen d else zlen a + maxBytes)
      with (zlen a + Z.min maxBytes (zlen d)) by (zb; lia).
    destruct (Z.leb_spec (zlen a + Z.min maxBytes (zlen d)) (zlen a)).
    { exists None. split; [done|]. cbn. destruct (decide (maxBytes <= 0)); [by rewrite ztake_le0|].
      assert (E : zlen d = 0) by lia. apply zlen_zero in E. rewrite E. unfold ztake. by rewrite take_nil. }
    rewrite zslice_Some by (rewrite ?zlen_app; lia). eexists. split; [done|]. cbn.
    rewrite zdrop_app_ge, Z.sub_diag, zdrop_le0 by lia.
    replace (zlen a + Z.min maxBytes (zlen d) - zlen a) with (Z.min maxBytes (zlen d)) by lia.
    by rewrite ztake_min.
Qed.

(** What [ReadFrom] returns for any limit: the index leads to the [k]-th batch, before
    which nothing reaches past the offset, and the [j] batches that lie completely in
    the window are looked at. *)
Lemma ReadFrom_window L s log encs bs offset maxBytes :
  seg_data L s log encs bs -> (mmapLen s = None \/ mmapLen s = Some (ssize s)) ->
  sbase s <= offset < sbase s + 2 ^ 32 -> 0 <= maxBytes ->
  exists k j f, Lookup (sindex s) offset = Some (zlen (concat (take k encs)), f) /\
    after offset (take k bs) = [] /\
    segReadFrom L s log offset maxBytes = Ok (after offset (take j (drop k bs))) /\
    (j <= length (drop k encs))%nat /\ zlen (concat (take j (drop k encs))) <= maxBytes /\
    ((j < length (drop k encs))%nat -> maxBytes < zlen (concat (take (S j) (drop k encs)))).
Proof.
  intros Hok Hm Ho Hmax. destruct (Lookup_start L s log encs bs offset Hok Ho) as (k & f & El & Hno).
  destruct (readWindow_prefix L s log encs bs k maxBytes Hok Hm Hmax) as (w & Hw & Hdef).
  destruct Hok as [Henc _ _ Hch _ _ _ _ _ _].
  assert (Hd : Forall2 (encodes L) (drop k encs) (drop k bs)) by (by apply Forall2_drop).
  destruct (window_split L _ _ maxBytes Hd Hmax) as (j & t & Hsp & Ht & Hj & Hsz & Hbig).
  exists k, j, f. split_and!; try done. unfold segReadFrom. rewrite El. cbn [mbind outcome_bind orPanic].
  rewrite Hw. cbn [mbind outcome_bind]. rewrite Hsp in Hdef.
  assert (Hdj : Forall2 (encodes L) (take j (drop k encs)) (take j (drop k bs))) by (by apply Forall2_take).
  pose proof (encodes_count _ _ _ Hdj) as Hcnt.
  destruct w as [buf|]; cbn [default] in Hdef.
  - cbn in Hdef. rewrite Hdef. pose proof (batchLoop_spec L (readVisit offset) t Ht _ _ Hdj
      (S (length (concat (take j (drop k encs)) ++ t))) [] []) as Hb.
    cbn [app] in Hb. change (zlen (@nil byte)) with 0 in Hb.
    rewrite Hb by (rewrite length_app; unfold zlen in *; lia). cbn [mbind outcome_bind].
    rewrite <- (take_drop k bs) in Hch. apply chained_app in Hch as [_ Hc].
    rewrite <- (take_drop j (drop k bs)) in Hc. apply chained_app in Hc as [Hc _].
    by rewrite (readVisit_filter _ _ offset [] Hc).
  - symmetry in Hdef. apply app_nil in Hdef as [E _]. rewrite E in Hcnt. unfold zlen in Hcnt. cbn in Hcnt.
    pose proof (Forall2_length _ _ _ Hdj) as Hl. assert (E0 : length (take j (drop k bs)) = 0%nat) by lia.
    apply nil_length_inv in E0 as ->. done.
Qed.

Lemma ReadFrom_data L s log encs bs offset maxBytes :
  seg_data L s log encs bs -> (mmapLen s = None \/ mmapLen s = Some (ssize s)) ->
  sbase s <= offset < sbase s + 2 ^ 32 -> ssize s <= maxBytes ->
  segReadFrom L s log offset maxBytes = Ok (after offset bs).
Proof.
  intros Hok Hm Ho Hmax. pose proof (sd_size _ _ _ _ _ Hok) as Hs. pose proof (zlen_nonneg (concat encs)).
  destruct (ReadFrom_window L s log encs bs offset maxBytes Hok Hm Ho ltac:(lia))
    as (k & j & f & _ & Hno & -> & Hj & _ & Hbig).
  assert (Hl : length (drop k bs) = length (drop k encs))
    by (rewrite !length_drop; rewrite (Forall2_length _ _ _ (sd_enc _ _ _ _ _ Hok)); done).
  assert (Hfull : j = length (drop k encs)).
  { destruct (decide (j < length (drop k encs))%nat) as [Hlt|]; [|lia]. specialize (Hbig Hlt).
    pose proof (take_concat k encs) as E1. pose proof (take_concat (S j) (drop k encs)) as E2.
    rewrite E2 in E1. apply (f_equal zlen) in E1. rewrite !zlen_app in E1.
    pose proof (zlen_nonneg (concat (take k encs))).
    pose proof (zlen_nonneg (concat (drop (S j) (drop k encs)))). lia. }
  rewrite take_ge by lia. f_equal. rewrite <- (take_drop k bs) at 2. unfold after in *. by rewrite filter_app, Hno.
Qed.

(** ** Lemmas: a recovery that never ends *)

Lemma scan_torn L t n : torn L t -> scanBatches L n t = Ok (0, n).
Proof.
  intros Ht. unfold scanBatches.
  pose proof (batchLoop_spec L scanVisit t Ht [] [] (proj2 (Forall2_nil _) I) (S (length t)) [] n) as H.
  cbn in H. apply H. lia.
Qed.

Lemma recoverLoop_full_carry L fuel log size carry v n :
  torn L carry -> zlen carry = recoverChunkSize -> recoverChunkSize < size ->
  recoverLoop L fuel log size recoverChunkSize carry v n = Hang.
Proof.
  intros Ht Hc Hs. revert v n. induction fuel as [|f IH]; intros v n; [done|]. cbn [recoverLoop].
  destruct (Z.ltb_spec recoverChunkSize size); [|lia].
  rewrite (ztake_ge recoverChunkSize carry) by lia. rewrite Hc, Z.sub_diag, Z.add_0_r.
  destruct (Z.ltb_spec size recoverChunkSize); [lia|].
  unfold readAt. rewrite ztake_le0 by lia. cbn [zlen length andb]. change (zlen (@nil byte)) with 0.
  cbn [Z.ltb Z.compare andb]. rewrite app_nil_r, (scan_torn L carry) by done.
  cbn [mbind outcome_bind]. rewrite zdrop_le0, !Z.add_0_r by lia. apply IH.
Qed.

(** ** Properties *)

(** An example batch and its encoding, for the witnesses. *)
Definition noLz4 : lz4 := mkLz4 (fun _ => inr (ErrLz4 0)) (fun _ _ => inr (ErrLz4 0)).
Definition sampleBatch (base : Z) : RecordBatch :=
  mkBatch base 2 0 1700000000 1700000001
    [mkRecord 0 0 None (Some [1;2;3]) []; mkRecord 5 1 (Some [7]) None []].
Definition sampleEnc (base : Z) : list byte := layout (sampleBatch base) 0 (recordBytes (Records (sampleBatch base))).
Definition sampleConfig : Config := mkConfig 1000 0 100 1000 0 0 0 2 0 0.

Lemma sample_encodes base :
  0 <= base < 2 ^ 64 -> encodes noLz4 (sampleEnc base) (sampleBatch base).
Proof.
  intros Hb. assert (Hok : batch_ok (sampleBatch base)).
  { split_and!; cbn; try lia; try done. repeat constructor; cbn; try lia; done. }
  unfold sampleEnc. split; [rewrite zlen_layout; vm_compute; discriminate|].
  split; [intros; apply BatchSize_layout; [done|vm_compute; reflexivity]|].
  rewrite <- (app_nil_r (layout _ _ _)).
  apply (DecodeBatch_layout noLz4 (sampleBatch base) 0); [done|vm_compute; reflexivity|done|vm_compute; reflexivity].
Qed.

(** A batch with one record of [n] bytes. *)
Definition bigBatch (base n : Z) : RecordBatch :=
  mkBatch base 1 0 0 0 [mkRecord 0 0 None (Some (zeros n)) []].
Definition bigEnc (base n : Z) : list byte :=
  layout (bigBatch base n) 0 (recordBytes (Records (bigBatch base n))).

Lemma big_payload base n : 0 <= n < 2 ^ 22 -> n <= zlen (recordBytes (Records (bigBatch base n))) <= n + 70.
Proof.
  intros Hn. unfold recordBytes, bigBatch. cbn [Records foldl]. rewrite appendRecord_eq. unfold body.
  cbn [TimestampDelta OffsetDelta Key Value Headers app fmap list_fmap concat].
  rewrite app_nil_r, !zlen_app, <- !varintBytesSize_eq. unfold varintBytesSize.
  rewrite !varIntSize_eq, !zeros_zlen by lia.
  repeat match goal with |- context [PutVarint ?x] =>
    generalize (PutVarint_le x) (PutVarint_pos x); generalize (zlen (PutVarint x)) end.
  intros. lia.
Qed.

Lemma big_encodes base n : 0 <= base < 2 ^ 64 -> 0 <= n < 2 ^ 22 ->
  encodes noLz4 (bigEnc base n) (bigBatch base n) /\ n < zlen (bigEnc base n) <= n + 105.
Proof.
  intros Hb Hn. pose proof (big_payload base n Hn) as Hp. unfold bigEnc.
  assert (Hok : batch_ok (bigBatch base n)).
  { split_and!; cbn; try lia; try done.
    repeat constructor; cbn; try lia; rewrite ?zeros_zlen; lia || done. }
  split; [|rewrite zlen_layout; lia]. split; [rewrite zlen_layout; lia|].
  split; [intros; apply BatchSize_layout; [done|lia]|].
  rewrite <- (app_nil_r (layout _ _ _)).
  apply (DecodeBatch_layout noLz4 (bigBatch base n) 0); [done|lia|done|lia].
Qed.

(** C2: a crash loses nothing that was completely written.  Append any batches of at most
    256 KB each to a new segment (with any fsync and index policy, and as much log as the
    rounds of the recovery loop suffice for), let the crash leave any strict prefix of a
    further batch, of at most 256 KB, behind them, and reopen the files: recovery ends,
    the torn bytes are cut off, exactly the appended batches remain, and numbering
    continues where it was, wherever the 256 KB chunks of the scan cut the batches.  (A
    larger batch makes recovery loop for ever: [segment_recover_hangs].) *)
Theorem segment_crash_recovery L cfg fuel now mt base l t :
  Forall (fun eb => encodes L eb.1 eb.2 /\ small eb.1) l -> torn L t -> zlen t <= recoverChunkSize ->
  0 <= base < 2 ^ 64 -> chained base l.*2 -> endOf 0 l.*2 < 2 ^ 32 ->
  fitsRounds fuel (zlen (concat l.*1 ++ t)) ->
  exists s0 s fs s',
    openSegment L fuel now mt (mkFiles [] []) base = Ok (s0, mkFiles [] []) /\
    appendAll cfg s0 (mkFiles [] []) l = Ok (s, fs) /\ logFile fs = concat l.*1 /\
    openSegment L fuel now mt (mkFiles (logFile fs ++ t) (idxFile fs)) base
      = Ok (s', mkFiles (concat l.*1) (idxFile fs)) /\
    ssize s' = zlen (concat l.*1) /\ nextOffset s' = endOf base l.*2 /\
    seg_data L s' (concat l.*1) l.*1 l.*2.
Proof.
  intros Hl Ht Htl Hb Hch Hsm Hfit. pose proof (proj2 Hfit) as Hlen. rewrite zlen_app in Hlen.
  pose proof (zlen_nonneg t). apply Forall_and in Hl as [Henc Hs].
  destruct (open_empty L fuel now mt base) as (s0 & E0 & Hok0 & Hb0).
  destruct (appendAll_ok L cfg l s0 (mkFiles [] []) [] [] Hok0 Henc) as (s & fs & E & Hok & Hbs);
    [lia|by rewrite (so_next _ _ _ _ _ Hok0), Hb0|done|cbn; lia|].
  cbn [app] in Hok. pose proof (seg_ok_files _ _ _ _ _ t Hok Ht) as Hf. rewrite Hbs, Hb0 in Hf.
  destruct (recover_files L fuel _ _ _ _ _ _ now mt Hf Hb) as (s' & E' & Hd & Hb' & _).
  { by apply Forall_fmap. }
  { done. }
  { cbn [logFile]. by rewrite (so_log _ _ _ _ _ Hok). }
  exists s0, s, fs, s'. split_and!; try done.
  - apply Hok.
  - apply Hd.
  - by rewrite (sd_next _ _ _ _ _ Hd), Hb'.
Qed.

#[local] Opaque bigEnc.

(** 400 KB of log without an index entry on disk, and 150 KB of a third batch: three
    chunks, the first boundary inside the second batch and the second inside the torn
    one. *)
Lemma segment_crash_recovery_witness :
  let l := [(bigEnc 100 200000, bigBatch 100 200000); (bigEnc 101 200000, bigBatch 101 200000)] in
  let cfg := mkConfig 1000000 0 100 1000000 0 0 0 0 0 0 in
  let t := ztake 150000 (bigEnc 102 200000) in
  exists s0 s fs s',
    openSegment noLz4 (Z.to_nat 1000000) 5 6 (mkFiles [] []) 100 = Ok (s0, mkFiles [] []) /\
    appendAll cfg s0 (mkFiles [] []) l = Ok (s, fs) /\ logFile fs = concat l.*1 /\
    openSegment noLz4 (Z.to_nat 1000000) 5 6 (mkFiles (logFile fs ++ t) (idxFile fs)) 100
      = Ok (s', mkFiles (concat l.*1) (idxFile fs)) /\
    ssize s' = zlen (concat l.*1) /\ nextOffset s' = endOf 100 l.*2 /\
    seg_data noLz4 s' (concat l.*1) l.*1 l.*2.
Proof.
  intros l cfg t.
  assert (Hbig : forall base, 0 <= base < 2 ^ 64 -> encodes noLz4 (bigEnc base 200000) (bigBatch base 200000) /\
    200000 < zlen (bigEnc base 200000) <= 200105) by (intros; apply (big_encodes _ 200000); [done | lia]).
  assert (Ht : zlen t = 150000) by (apply zlen_ztake; pose proof (proj2 (Hbig 102 ltac:(lia))); lia).
  assert (Hsmall : forall base, 0 <= base < 2 ^ 64 ->
    encodes noLz4 (bigEnc base 200000) (bigBatch base 200000) /\ small (bigEnc base 200000)).
  { intros base Hb. split; [by apply Hbig|]. pose proof (proj2 (Hbig base Hb)). unfold small, recoverChunkSize. lia. }
  apply (segment_crash_recovery noLz4 cfg (Z.to_nat 1000000) 5 6 100 l t).
  - apply Forall_cons. split; [exact (Hsmall 100 ltac:(lia))|].
    apply Forall_cons. split; [exact (Hsmall 101 ltac:(lia)) | by apply Forall_nil].
  - apply (torn_prefix noLz4 _ (bigBatch 102 200000)); [apply Hbig; lia|].
    pose proof (proj2 (Hbig 102 ltac:(lia))). lia.
  - rewrite Ht. unfold recoverChunkSize. lia.
  - lia.
  - cbn. split_and!; lia || done.
  - vm_compute. reflexivity.
  - pose proof (proj2 (Hbig 100 ltac:(lia))). pose proof (proj2 (Hbig 101 ltac:(lia))).
    unfold fitsRounds. cbn [l fmap list_fmap fst concat]. rewrite app_nil_r, !zlen_app, Ht, Z2Nat.id by lia. lia.
Defined.

(** Reading from a segment returns exactly the batches that reach past the
    requested offset, in order, when the read limit covers the segment; it makes no
    difference where the sparse index lets the scan start, and whether the segment is
    mapped. *)
Theorem segment_ReadFrom_complete L s log encs bs offset maxBytes :
  seg_data L s log encs bs -> (mmapLen s = None \/ mmapLen s = Some (ssize s)) ->
  sbase s <= offset < sbase s + 2 ^ 32 -> ssize s <= maxBytes ->
  segReadFrom L s log offset maxBytes = Ok (after offset bs).
Proof. apply ReadFrom_data. Qed.

Lemma segment_ReadFrom_complete_witness :
  exists s fs,
    appendAll sampleConfig (mkSegment (mkIndex 0 [] 100 0) 100 0 5 100 0 0 None) (mkFiles [] [])
      [(sampleEnc 100, sampleBatch 100); (sampleEnc 102, sampleBatch 102)] = Ok (s, fs) /\
    segReadFrom noLz4 s (logFile fs) 102 1000 = Ok [sampleBatch 102].
Proof.
  destruct (open_empty noLz4 1 5 6 100) as (s0 & E0 & Hok0 & Hb0).
  vm_compute in E0. injection E0 as <-.
  destruct (appendAll_ok noLz4 sampleConfig [(sampleEnc 100, sampleBatch 100); (sampleEnc 102, sampleBatch 102)]
    _ _ _ _ Hok0) as (s & fs & E & Hok & Hbs).
  - repeat constructor; apply sample_encodes; lia.
  - cbn. lia.
  - cbn. split_and!; lia || done.
  - vm_compute. reflexivity.
  - vm_compute. reflexivity.
  - exists s, fs. split; [exact E|].
    assert (Hmm : mmapLen s = None) by (vm_compute in E; by injection E as <- <-).
    apply (segment_ReadFrom_complete noLz4 s _ _ _ 102 1000 (seg_ok_data _ _ _ _ _ Hok)).
    + by left.
    + cbn in Hbs. lia.
    + rewrite (so_size _ _ _ _ _ Hok). vm_compute. discriminate.
Defined.

(** A batch of more than 256 KB makes recovery loop forever: the chunk buffer is
    full of the incomplete batch, so nothing more is read and nothing is consumed,
    however many rounds are made. *)
Theorem segment_recover_hangs L enc b fuel now mt base :
  encodes L enc b -> recoverChunkSize < zlen enc ->
  openSegment L fuel now mt (mkFiles enc []) base = Hang.
Proof.
  intros He Hbig. pose proof (torn_prefix L enc b recoverChunkSize He) as Ht.
  assert (Hpos : 0 < recoverChunkSize) by done.
  unfold openSegment. cbn [idxFile logFile].
  change (openIndex [] base) with (Some (mkIndex 0 [] base 0)).
  cbn [mbind outcome_bind orPanic]. unfold recover, LastEntry. cbn [ssize sindex nextOffset entries last].
  destruct (Z.eqb_spec (zlen enc) 0); [lia|]. rewrite Z.sub_0_r.
  destruct (Z.leb_spec (zlen enc) 0); [lia|]. destruct (Z.leb_spec (zlen enc) recoverChunkSize); [lia|].
  destruct fuel as [|f]; [done|]. cbn [recoverLoop]. destruct (Z.ltb_spec 0 (zlen enc)); [|lia].
  replace (ztake recoverChunkSize []) with (@nil byte) by (unfold ztake; by rewrite take_nil). change (zlen (@nil byte)) with 0. rewrite Z.sub_0_r, !Z.add_0_l.
  destruct (Z.ltb_spec (zlen enc) recoverChunkSize); [lia|].
  unfold readAt. rewrite (zdrop_le0 0) by lia. rewrite zlen_ztake by lia.
  destruct (Z.ltb_spec recoverChunkSize recoverChunkSize); [lia|]. cbn [andb app].
  rewrite scan_torn by (apply Ht; lia). cbn [mbind outcome_bind]. rewrite zdrop_le0 by lia.
  rewrite recoverLoop_full_carry; [done|apply Ht; lia|apply zlen_ztake; lia|lia].
Qed.

Lemma segment_recover_hangs_witness :
  openSegment noLz4 1000 5 6 (mkFiles (bigEnc 0 300000) []) 0 = Hang.
Proof.
  apply (segment_recover_hangs noLz4 (bigEnc 0 300000) (bigBatch 0 300000)).
  - by apply big_encodes.
  - pose proof (proj2 (big_encodes 0 300000 ltac:(done) ltac:(done))). unfold recoverChunkSize. lia.
Defined.

(** A log write that fails half-way is not undone: the file keeps the partial
    bytes while the recorded size does not count them, so the next batch is indexed
    at a position where garbage starts and can no longer be read. *)
Theorem segment_failed_write_hides_data :
  (let s0 := mkSegment (mkIndex 0 [] 100 0) 100 0 5 100 0 0 None in
   '(s1, fs1, ok1) ← segAppend sampleConfig s0 (mkFiles [] []) (sampleEnc 100) (sampleBatch 100) (Some 5);
   '(s2, fs2, ok2) ← segAppend sampleConfig s1 fs1 (sampleEnc 100) (sampleBatch 100) None;
   bs ← segReadFrom noLz4 s2 (logFile fs2) 100 1000;
   Ok (ok1, ok2, nextOffset s2, bs)) = Ok (false, true, 102, []).
Proof. vm_compute. reflexivity. Qed.
