(* ===== verification/CommitLog.v ===== *)
(** * CommitLog: the append-only log of rolling segments
      (src/pkg/mq/forge/commit_log.go, and segment.Remove)

    The directory maps base offsets to inodes (a [.log]/[.idx] pair), and a removed file
    lives on for whoever has it open, as on Unix.  A segment object is identified by its
    address [sid]; the slice [segments] holds every live object, and [activeSegment] is
    the address of one of them.  The lock makes every operation one step.  What an
    operation takes from outside is an [env]: the clock, whether mmap succeeds, the
    content of the pooled buffer, a failing write, and the rounds of the recovery loop.
    All other system calls succeed. *)
From stdpp Require Import base list option gmap sorting.
From Stdlib Require Import ZArith Lia.
From S2P Require Import Prelude Endian Codec Index Segment.

(** ** Definitions *)

Record inode := mkInode { content : files; mtime : Z }.

Record disk := mkDisk {
  dir : gmap Z nat;
  staging : gmap Z nat;
  inodes : gmap nat inode;
  nextIno : nat;
}.
Definition emptyDisk : disk := mkDisk ∅ ∅ ∅ 0.

Record segObj := mkObj { sid : nat; seg : segment; ino : nat }.

Record CommitLog := mkLog {
  segments : list segObj;
  activeSegment : nat;
  logNext : Z;
  closed : bool;
  nextId : nat;
}.

Record env := mkEnv {
  now : Z;
  mapped : bool;
  poolBuf : list byte;
  fault : option Z;
  rounds : nat;
}.

(** Storing the files of an inode; the modification time is that of the log. *)
Definition writeInode (E : env) (d : disk) (i : nat) (fs : files) : disk :=
  let mt := match inodes d !! i with
            | Some n => if bool_decide (logFile (content n) = logFile fs) then mtime n else now E
            | None => now E
            end in
  mkDisk (dir d) (staging d) (<[i := mkInode fs mt]> (inodes d)) (nextIno d).

Definition getFiles (d : disk) (o : segObj) : option files := content <$> inodes d !! ino o.

Definition setObj (cl : CommitLog) (o : segObj) : CommitLog :=
  mkLog ((fun x => if Nat.eqb (sid x) (sid o) then o else x) <$> segments cl)
    (activeSegment cl) (logNext cl) (closed cl) (nextId cl).
Definition isActive (cl : CommitLog) (o : segObj) : bool := Nat.eqb (sid o) (activeSegment cl).
Definition active (cl : CommitLog) : option segObj := List.find (isActive cl) (segments cl).
Definition setNextOffset (cl : CommitLog) (n : Z) : CommitLog :=
  mkLog (segments cl) (activeSegment cl) n (closed cl) (nextId cl).
Definition setSegments (cl : CommitLog) (l : list segObj) : CommitLog :=
  mkLog l (activeSegment cl) (logNext cl) (closed cl) (nextId cl).

Section Log.
Variables (L : lz4) (cfg : Config).

(** [openSegment] on the directory: an existing pair of files, or a new one. *)
Definition openObj (E : env) (d : disk) (base : Z) (id : nat) : outcome (segObj * disk) :=
  let '(i, n, d) := match i ← dir d !! base; n ← inodes d !! i; Some (i, n) with
    | Some (i, n) => (i, n, d)
    | None =>
        let i := nextIno d in let n := mkInode (mkFiles [] []) (now E) in
        (i, n, mkDisk (<[base := i]> (dir d)) (staging d) (<[i := n]> (inodes d)) (S i))
    end in
  '(s, fs) ← openSegment L (rounds E) (now E) (mtime n) (content n) base;
  Ok (mkObj id s i, writeInode E d i fs).

Definition sealObj (E : env) (o : segObj) : segObj := mkObj (sid o) (seal (mapped E) (seg o)) (ino o).

Definition newSegment (E : env) (cl : CommitLog) (d : disk) (base : Z) : outcome (CommitLog * disk) :=
  '(o, d) ← openObj E d base (nextId cl);
  Ok (mkLog (segments cl ++ [o]) (sid o) (logNext cl) (closed cl) (S (nextId cl)), d).

(** [recoverStaging]: files left in the staging directory replace those of the log. *)
Definition recoverStaging (d : disk) : disk :=
  mkDisk (staging d ∪ dir d) ∅ (inodes d) (nextIno d).

(** [loadSegments]: the base offsets found in the directory, in increasing order. *)
Definition baseOffsets (d : disk) : list Z := merge_sort Z.le (map_to_list (dir d)).*1.
Fixpoint loadSegments (E : env) (bases : list Z) (cl : CommitLog) (d : disk) : outcome (CommitLog * disk) :=
  match bases with
  | [] => Ok (cl, d)
  | b :: bases =>
      '(o, d) ← openObj E d b (nextId cl);
      loadSegments E bases
        (mkLog (segments cl ++ [o]) (activeSegment cl) (logNext cl) (closed cl) (S (nextId cl))) d
  end.

Definition NewCommitLog (E : env) (d : disk) : outcome (CommitLog * disk) :=
  let d := recoverStaging d in
  '(cl, d) ← loadSegments E (baseOffsets d) (mkLog [] 0 0 false 0) d;
  '(cl, d) ← (if zlen (segments cl) =? 0 then newSegment E cl d 0 else Ok (cl, d));
  a ← orPanic (last (segments cl));
  Ok (mkLog ((sealObj E <$> removelast (segments cl)) ++ [a]) (sid a) (nextOffset (seg a))
        (closed cl) (nextId cl), d).

Definition maxRecordsPerBatch : Z := 65535.

(** The batch as [Append] numbers it. *)
Definition setDelta (i : nat) (r : Record_) : Record_ :=
  mkRecord (TimestampDelta r) (Z.of_nat i) (Key r) (Value r) (Headers r).
Definition assign (base : Z) (b : RecordBatch) : RecordBatch :=
  mkBatch base (u16 (zlen (Records b))) (Compression b) (Timestamp b) (MaxTimestamp b)
    (imap setDelta (Records b)).

(** The end of [Append]: write to the active segment and advance the next offset. *)
Definition appendActive (E : env) (cl : CommitLog) (d : disk) (encoded : list byte) (batch : RecordBatch)
    : outcome (CommitLog * disk * (Z + ferror)) :=
  a ← orPanic (active cl);
  fs ← orPanic (getFiles d a);
  '(s, fs, ok) ← segAppend cfg (seg a) fs encoded batch (fault E);
  let cl := setObj cl (mkObj (sid a) s (ino a)) in
  let d := writeInode E d (ino a) fs in
  if (ok : bool)
  then Ok (setNextOffset cl (u64 (logNext cl + RecordCount batch)), d, inl (BaseOffset batch))
  else Ok (cl, d, inr ErrIO).

Definition Append (E : env) (cl : CommitLog) (d : disk) (batch : RecordBatch)
    : outcome (CommitLog * disk * (Z + ferror)) :=
  if closed cl then Ok (cl, d, inr ErrClosed) else
  if maxRecordsPerBatch <? zlen (Records batch) then Ok (cl, d, inr ErrBatchTooLarge) else
  let base := logNext cl in
  let batch := assign base batch in
  match EncodeBatch L batch (poolBuf E) with
  | Err e => Ok (cl, d, inr e)
  | Panic => Panic
  | Hang => Hang
  | Ok encoded =>
      a ← orPanic (active cl);
      '(cl, d) ← (if IsFull cfg (now E) (seg a) then newSegment E (setObj cl (sealObj E a)) d base
                  else Ok (cl, d));
      appendActive E cl d encoded batch
  end.

(** [findSegment]: the last segment that starts at or before the offset. *)
Definition findSegment (cl : CommitLog) (offset : Z) : option segObj :=
  let n := zlen (segments cl) in
  let i := Search n (fun j =>
    match zget (segments cl) j with Some o => offset <? sbase (seg o) | None => true end) in
  if i =? 0 then zget (segments cl) 0 else zget (segments cl) (i - 1).

Definition Read (cl : CommitLog) (d : disk) (offset maxBytes : Z) : outcome (list RecordBatch) :=
  if closed cl then Err ErrClosed else
  if zlen (segments cl) =? 0 then Ok [] else
  o ← orPanic (findSegment cl offset);
  fs ← orPanic (getFiles d o);
  segReadFrom L (seg o) (logFile fs) offset maxBytes.

Definition OldestOffset (cl : CommitLog) : Z :=
  match segments cl with [] => 0 | o :: _ => sbase (seg o) end.
Definition NewestOffset (cl : CommitLog) : Z := logNext cl.

(** [segment.Close] and [segment.Remove] (by name). *)
Definition closeObj (E : env) (d : disk) (o : segObj) : outcome (segObj * disk) :=
  fs ← orPanic (getFiles d o);
  '(s, fs) ← segClose (seg o) fs;
  Ok (mkObj (sid o) s (ino o), writeInode E d (ino o) fs).
Definition Remove (E : env) (d : disk) (o : segObj) : outcome disk :=
  '(_, d) ← closeObj E d o;
  Ok (mkDisk (delete (sbase (seg o)) (dir d)) (staging d) (inodes d) (nextIno d)).

(** The loop of [DeleteBefore] and [EnforceRetention]: [drop] decides with a running
    total, which a removal decreases. *)
Fixpoint removeLoop (E : env) (drop : Z -> segObj -> bool) (total : Z) (l : list segObj) (d : disk)
    : outcome (list segObj * disk) :=
  match l with
  | [] => Ok ([], d)
  | o :: l =>
      if drop total o then
        d ← Remove E d o; removeLoop E drop (total - ssize (seg o)) l d
      else '(keep, d) ← removeLoop E drop total l d; Ok (o :: keep, d)
  end.

Definition DeleteBefore (E : env) (cl : CommitLog) (d : disk) (offset : Z) : outcome (CommitLog * disk) :=
  '(keep, d) ← removeLoop E (fun _ o => (nextOffset (seg o) <=? offset) && negb (isActive cl o))
                 0 (segments cl) d;
  Ok (setSegments cl keep, d).

Definition totalSize (l : list segObj) : Z := foldr (fun o n => ssize (seg o) + n) 0 l.
Definition EnforceRetention (E : env) (cl : CommitLog) (d : disk) : outcome (CommitLog * disk) :=
  let cutoff := now E - RetentionTime cfg in
  '(keep, d) ← removeLoop E (fun total o =>
      negb (isActive cl o) && ((created (seg o) <? cutoff) || (RetentionBytes cfg <? total)))
      (totalSize (segments cl)) (segments cl) d;
  Ok (setSegments cl keep, d).

Fixpoint closeLoop (E : env) (l : list segObj) (d : disk) : outcome (list segObj * disk) :=
  match l with
  | [] => Ok ([], d)
  | o :: l => '(o, d) ← closeObj E d o; '(l, d) ← closeLoop E l d; Ok (o :: l, d)
  end.
Definition Close (E : env) (cl : CommitLog) (d : disk) : outcome (CommitLog * disk) :=
  if closed cl then Ok (cl, d) else
  '(l, d) ← closeLoop E (segments cl) d;
  Ok (mkLog l (activeSegment cl) (logNext cl) true (nextId cl), d).
End Log.

(** ** Specification *)

(** What the log holds, per segment: the encoded batches and the batches. *)
Abbreviation ghost := (list (list (list byte) * list RecordBatch)).
Definition batches (g : ghost) : list RecordBatch := concat (snd <$> g).

Definition disk_ok (d : disk) : Prop :=
  (forall i n, inodes d !! i = Some n -> (i < nextIno d)%nat) /\
  (forall b i, dir d !! b = Some i -> is_Some (inodes d !! i)).

(** A segment object, its files and its name in the directory. *)
Definition holds (L : lz4) (d : disk) (o : segObj) (e : list (list byte) * list RecordBatch) : Prop :=
  (exists fs es, getFiles d o = Some fs /\ seg_data L (seg o) (logFile fs) e.1 e.2 /\
     files_hold L fs (sbase (seg o)) e.1 e.2 [] es) /\
  (mmapLen (seg o) = None \/ mmapLen (seg o) = Some (ssize (seg o))) /\
  dir d !! sbase (seg o) = Some (ino o) /\ 0 <= sbase (seg o) < 2 ^ 64.

(** Segments follow one another; retention and compaction may leave gaps. *)
Fixpoint linked (l : list segObj) : Prop :=
  match l with
  | a :: l => match l with
              | b :: _ => sbase (seg a) < sbase (seg b) /\ nextOffset (seg a) <= sbase (seg b)
              | [] => True
              end /\ linked l
  | [] => True
  end.

Record log_data (L : lz4) (cl : CommitLog) (d : disk) (g : ghost) : Prop := {
  ld_segs : Forall2 (holds L d) (segments cl) g;
  ld_linked : linked (segments cl);
  ld_ids : NoDup (sid <$> segments cl);
  ld_fresh : Forall (fun o => (sid o < nextId cl)%nat) (segments cl);
  ld_inos : NoDup (ino <$> segments cl);
  ld_active : exists pre a, segments cl = pre ++ [a] /\ sid a = activeSegment cl /\
                            logNext cl = nextOffset (seg a);
  ld_open : closed cl = false;
  ld_disk : disk_ok d;
  ld_dir : forall b i, dir d !! b = Some i -> exists o, o ∈ segments cl /\ sbase (seg o) = b;
  ld_stage : staging d = ∅;
}.

(** The index of the active segment is in step with its file, so that appends and their
    fsyncs are safe. *)
Definition log_ok (L : lz4) (cl : CommitLog) (d : disk) (g : ghost) : Prop :=
  log_data L cl d g /\
  exists a fs, active cl = Some a /\ getFiles d a = Some fs /\ synced (sindex (seg a)) (idxFile fs) /\
    mmapLen (seg a) = None.

(** ** Lemmas *)

Lemma find_last (cl : CommitLog) pre a :
  segments cl = pre ++ [a] -> NoDup (sid <$> segments cl) -> sid a = activeSegment cl ->
  active cl = Some a.
Proof.
  unfold active. intros -> Hnd Ha. rewrite fmap_app, NoDup_app in Hnd. destruct Hnd as (_ & Hne & _).
  assert (Hpre : Forall (fun x => isActive cl x = false) pre).
  { apply Forall_forall. intros x Hx. unfold isActive. apply Nat.eqb_neq. intros E.
    apply (Hne (sid x)); [by apply list_elem_of_fmap_2|]. cbn. rewrite E, <- Ha. left. }
  induction pre as [|x pre IH]; cbn.
  - unfold isActive. by rewrite Ha, Nat.eqb_refl.
  - apply Forall_cons in Hpre as [-> Hpre]. apply IH; [|done]. intros y Hy. apply Hne. by right.
Qed.

Lemma log_data_active L cl d g :
  log_data L cl d g -> exists pre a, segments cl = pre ++ [a] /\ active cl = Some a /\
    logNext cl = nextOffset (seg a) /\ sid a = activeSegment cl.
Proof.
  intros [_ _ Hids _ _ (pre & a & Hs & Ha & Hn) _ _ _ _]. exists pre, a.
  split_and!; try done. by eapply find_last.
Qed.

Lemma setObj_last cl pre a a' :
  segments cl = pre ++ [a] -> NoDup (sid <$> segments cl) -> sid a' = sid a ->
  segments (setObj cl a') = pre ++ [a'].
Proof.
  intros Hs Hnd Ha. cbn. rewrite Hs in *. rewrite fmap_app in *. cbn. rewrite Ha, Nat.eqb_refl. f_equal.
  rewrite fmap_app, NoDup_app in Hnd. destruct Hnd as (_ & Hne & _).
  assert (forall l, l ⊆ pre -> (fun x => if Nat.eqb (sid x) (sid a) then a' else x) <$> l = l) as Hl; [|by apply Hl].
  induction l as [|x l IH]; intros Hl; [done|]. cbn. rewrite IH by set_solver.
  destruct (Nat.eqb_spec (sid x) (sid a)) as [E|]; [|done].
  destruct (Hne (sid x)); [apply list_elem_of_fmap_2; set_solver|]. cbn. rewrite E. left.
Qed.

Lemma linked_snoc l a b :
  linked (l ++ [a]) -> sbase (seg a) < sbase (seg b) -> nextOffset (seg a) <= sbase (seg b) ->
  linked ((l ++ [a]) ++ [b]).
Proof.
  induction l as [|x l IH]; [done|]. intros [Hx Hl] ??. cbn. split; [|by apply IH].
  destruct l; cbn in *; done.
Qed.

(** Replacing the last segment by one with the same base. *)
Lemma linked_last l a b : linked (l ++ [a]) -> sbase (seg b) = sbase (seg a) -> linked (l ++ [b]).
Proof.
  intros Hl Hb. induction l as [|x l IH]; [done|]. destruct Hl as [Hx Hl]. cbn. split; [|by apply IH].
  destruct l; cbn in *; by rewrite ?Hb.
Qed.

Lemma getFiles_write E d i fs o :
  getFiles (writeInode E d i fs) o = if decide (ino o = i) then Some fs else getFiles d o.
Proof.
  unfold getFiles, writeInode. cbn. destruct (decide (ino o = i)) as [->|].
  - by rewrite lookup_insert_eq.
  - by rewrite lookup_insert_ne.
Qed.

Lemma holds_write L E d o e i fs : holds L d o e -> ino o <> i -> holds L (writeInode E d i fs) o e.
Proof.
  intros [(fs' & es & Hf & Hd & Hh) Hr] Hne. split; [|done]. exists fs', es.
  rewrite getFiles_write. by rewrite decide_False.
Qed.

Lemma disk_ok_write E d i fs : disk_ok d -> (i < nextIno d)%nat -> disk_ok (writeInode E d i fs).
Proof.
  intros [Hi Hd] Hlt. split; cbn.
  - intros j n Hj. destruct (decide (i = j)) as [->|]; [done|].
    rewrite lookup_insert_ne in Hj by done. by eapply Hi.
  - intros b j Hj. destruct (decide (i = j)) as [->|]; [by rewrite lookup_insert_eq|].
    rewrite lookup_insert_ne by done. by eapply Hd.
Qed.

Lemma getFiles_ino d o fs : disk_ok d -> getFiles d o = Some fs -> (ino o < nextIno d)%nat.
Proof.
  unfold getFiles. intros [Hi _] Hf. destruct (inodes d !! ino o) eqn:E; [|done]. by eapply Hi.
Qed.

Lemma Forall2_snoc_inv_l' {A B} (P : A -> B -> Prop) l a k :
  Forall2 P (l ++ [a]) k -> exists k' b, k = k' ++ [b] /\ Forall2 P l k' /\ P a b.
Proof.
  intros (k1 & k2 & H1 & H2 & ->)%Forall2_app_inv_l.
  apply Forall2_cons_inv_l in H2 as (b & k3 & Hb & H3 & ->).
  apply Forall2_nil_inv_l in H3 as ->. eauto.
Qed.

Lemma Forall2_holds_write L E d i fs l g :
  Forall2 (holds L d) l g -> i ∉ ino <$> l -> Forall2 (holds L (writeInode E d i fs)) l g.
Proof.
  induction 1 as [|o e l g Ho _ IH]; intros Hi; [constructor|]. rewrite fmap_cons, not_elem_of_cons in Hi.
  constructor; [apply holds_write; [done|] | apply IH]; naive_solver.
Qed.

(** What [segAppend] uses of the batch is its numbering. *)
Lemma segAppend_batch cfg s fs enc b b' fault :
  BaseOffset b = BaseOffset b' -> RecordCount b = RecordCount b' ->
  segAppend cfg s fs enc b fault = segAppend cfg s fs enc b' fault.
Proof. intros H1 H2. unfold segAppend. by rewrite H1, H2. Qed.

(** Replacing the active segment by an updated one (same address, base and inode). *)
Lemma log_data_update L E cl d g0 e pre a a' fs e' :
  log_data L cl d (g0 ++ [e]) -> segments cl = pre ++ [a] -> sid a' = sid a -> ino a' = ino a ->
  sbase (seg a') = sbase (seg a) -> seg_data L (seg a') (logFile fs) e'.1 e'.2 ->
  (exists es, files_hold L fs (sbase (seg a)) e'.1 e'.2 [] es) ->
  (mmapLen (seg a') = None \/ mmapLen (seg a') = Some (ssize (seg a'))) ->
  log_data L (setNextOffset (setObj cl a') (nextOffset (seg a'))) (writeInode E d (ino a) fs) (g0 ++ [e']).
Proof.
  intros [Hsegs Hl Hids Hfr Hin (pre' & a0 & Hs' & Ha & Hn) Hop Hdk Hdir Hst] Hs Hsid Hino Hb Hd (es & Hh) Hm.
  rewrite Hs in Hs'. apply app_inj_tail in Hs' as [<- <-].
  pose proof (setObj_last cl pre a a' Hs Hids Hsid) as Hset. rewrite Hs in *.
  apply Forall2_snoc_inv_l' in Hsegs as (k' & b & E1 & Hpre & Hae). apply app_inj_tail in E1 as [<- <-].
  destruct Hae as [(fs0 & es0 & Hf0 & Hd0 & _) (Hm0 & Hdr & Hb0)].
  rewrite !fmap_app, ?Forall_app in *. cbn [fmap list_fmap] in *.
  rewrite NoDup_app in Hin. destruct Hin as (Hn1 & Hn2 & _).
  assert (Hnotin : ino a ∉ ino <$> pre) by (intros Hx; apply (Hn2 _ Hx); left).
  split; cbn [segments setNextOffset activeSegment logNext closed nextId]; rewrite ?Hset; try done.
  - apply Forall2_app; [by apply Forall2_holds_write|]. constructor; [|constructor]. split.
    + exists fs, es. rewrite getFiles_write, Hb. by rewrite decide_True.
    + rewrite Hb, Hino. done.
  - by apply (linked_last _ a).
  - rewrite fmap_app. cbn. by rewrite Hsid.
  - apply Forall_app. destruct Hfr as [? Hfr]. split; [done|]. constructor; [|constructor].
    rewrite Hsid. by apply Forall_cons in Hfr as [? _].
  - rewrite fmap_app. cbn. rewrite Hino. apply NoDup_app. split_and!; [done | done | apply NoDup_singleton].
  - exists pre, a'. rewrite Hsid. done.
  - apply disk_ok_write; [done|]. by eapply getFiles_ino.
  - intros b i Hbi. destruct (Hdir b i Hbi) as (o & Ho & Hob).
    apply elem_of_app in Ho as [Ho|Ho]; [exists o; split; [set_solver|done]|].
    apply list_elem_of_singleton in Ho as ->. exists a'. split; [set_solver|congruence].
Qed.

Lemma writeInode_id E d o fs : getFiles d o = Some fs -> writeInode E d (ino o) fs = d.
Proof.
  unfold getFiles, writeInode. destruct d as [dr st ins nx]. cbn.
  destruct (ins !! ino o) as [n|] eqn:En; [|done]. cbn. intros [= <-].
  rewrite bool_decide_true by done. destruct n. cbn. by rewrite insert_id.
Qed.

Lemma seal_data L m s log encs bs : seg_data L s log encs bs -> seg_data L (seal m s) log encs bs.
Proof. intros []. unfold seal. by destruct (_ || _). Qed.

Lemma seal_fields m s :
  sbase (seal m s) = sbase s /\ nextOffset (seal m s) = nextOffset s /\ ssize (seal m s) = ssize s.
Proof. unfold seal. by destruct (_ || _). Qed.

Lemma seal_mmap m s :
  mmapLen s = None \/ mmapLen s = Some (ssize s) ->
  mmapLen (seal m s) = None \/ mmapLen (seal m s) = Some (ssize (seal m s)).
Proof. unfold seal. destruct (_ || _); [done|]. by right. Qed.

Lemma holds_seal L d E o e : holds L d o e -> holds L d (sealObj E o) e.
Proof.
  intros [(fs & es & Hf & Hd & Hh) (Hm & Hdr & Hb)]. pose proof (seal_fields (mapped E) (seg o)) as (F1 & _ & _).
  split; [exists fs, es; cbn [seg sealObj]; rewrite F1; split_and!; [done | by apply seal_data | done]|].
  cbn. rewrite F1. split; [by apply seal_mmap | done].
Qed.

(** Opening a base offset that is not in the directory makes an empty segment. *)
Lemma openObj_new L E d base id :
  dir d !! base = None ->
  let i := nextIno d in
  exists o, openObj L E d base id =
      Ok (o, mkDisk (<[base := i]> (dir d)) (staging d)
                    (<[i := mkInode (mkFiles [] []) (now E)]> (inodes d)) (S i)) /\
    o = mkObj id (mkSegment (mkIndex 0 [] base 0) base 0 (now E) base 0 0 None) i.
Proof.
  intros Hd i. eexists. split; [|reflexivity]. unfold openObj. rewrite Hd. cbn [mbind option_bind mtime content].
  change (openSegment L (rounds E) (now E) (now E) (mkFiles [] []) base) with
    (Ok (mkSegment (mkIndex 0 [] base 0) base 0 (now E) base 0 0 None, mkFiles [] [])).
  cbn [mbind outcome_bind]. f_equal. f_equal.
  set (d' := mkDisk _ _ _ _). apply (writeInode_id E d' (mkObj 0 (mkSegment (mkIndex 0 [] 0 0) 0 0 0 0 0 0 None) i)).
  unfold getFiles. cbn. by rewrite lookup_insert_eq.
Qed.

Lemma empty_data L base now : seg_data L (mkSegment (mkIndex 0 [] base 0) base 0 now base 0 0 None) [] [] [].
Proof. by split. Qed.

Lemma holds_create L d o e base n :
  holds L d o e -> disk_ok d -> sbase (seg o) <> base ->
  holds L (mkDisk (<[base := nextIno d]> (dir d)) (staging d) (<[nextIno d := n]> (inodes d)) (S (nextIno d))) o e.
Proof.
  intros [(fs & es & Hf & Hd & Hh) (Hm & Hdr & Hb)] Hok Hne. pose proof (getFiles_ino _ _ _ Hok Hf).
  split; [exists fs, es; split; [|done]|cbn; by rewrite lookup_insert_ne].
  unfold getFiles in *. cbn. rewrite lookup_insert_ne by lia. done.
Qed.

Lemma linked_bound l a o : linked (l ++ [a]) -> o ∈ l ++ [a] -> sbase (seg o) <= sbase (seg a).
Proof.
  revert o. induction l as [|x l IH]; cbn; intros o Hl Ho.
  - apply list_elem_of_singleton in Ho as ->. lia.
  - destruct Hl as [Hx Hl]. apply elem_of_cons in Ho as [->|Ho]; [|by apply IH].
    destruct l as [|y l]; cbn in *; [lia|]. specialize (IH y Hl ltac:(left)). lia.
Qed.

Lemma disk_ok_create d base n :
  disk_ok d ->
  disk_ok (mkDisk (<[base := nextIno d]> (dir d)) (staging d) (<[nextIno d := n]> (inodes d)) (S (nextIno d))).
Proof.
  intros [H1 H2]. split; cbn.
  - intros j m Hj. destruct (decide (j = nextIno d)) as [->|]; [lia|].
    rewrite lookup_insert_ne in Hj by done. specialize (H1 _ _ Hj). lia.
  - intros b i Hi. destruct (decide (i = nextIno d)) as [->|]; [by rewrite lookup_insert_eq|].
    rewrite lookup_insert_ne by done. destruct (decide (b = base)) as [->|].
    + rewrite lookup_insert_eq in Hi. congruence.
    + rewrite lookup_insert_ne in Hi by done. by eapply H2.
Qed.

Lemma holds_ino L d l g o :
  Forall2 (holds L d) l g -> disk_ok d -> o ∈ l -> (ino o < nextIno d)%nat /\ 0 <= sbase (seg o).
Proof.
  intros Hs Hd [j Hj]%list_elem_of_lookup.
  destruct (Forall2_lookup_l _ _ _ _ _ Hs Hj) as (e & _ & [(fs & es & Hf & _) (_ & _ & Hb)]).
  split; [by eapply getFiles_ino | lia].
Qed.

(** Adding an empty segment at the end of the log. *)
Lemma log_data_new L E cl d g pre a :
  log_data L cl d g -> segments cl = pre ++ [a] -> sbase (seg a) < logNext cl < 2 ^ 64 ->
  exists cl' d', newSegment L E cl d (logNext cl) = Ok (cl', d') /\
    log_ok L cl' d' (g ++ [([], [])]) /\ logNext cl' = logNext cl /\
    exists a', active cl' = Some a' /\ sbase (seg a') = logNext cl /\ ssize (seg a') = 0 /\
      segments cl' = segments cl ++ [a'].
Proof.
  intros [Hsegs Hl Hids Hfr Hin (pre' & a0 & Hs' & Ha & Hn) Hop Hdk Hdir Hst] Hs Hb.
  rewrite Hs in Hs'. apply app_inj_tail in Hs' as [<- <-].
  assert (Ha0 : 0 <= sbase (seg a)) by (eapply holds_ino; [exact Hsegs | done | rewrite Hs; set_solver]).
  assert (Hfresh : dir d !! logNext cl = None).
  { destruct (dir d !! logNext cl) as [i|] eqn:Ed; [|done]. destruct (Hdir _ _ Ed) as (o & Ho & Hob).
    rewrite Hs in Ho, Hl. pose proof (linked_bound _ _ _ Hl Ho). lia. }
  destruct (openObj_new L E d (logNext cl) (nextId cl) Hfresh) as (o & Ho & Eo).
  unfold newSegment. rewrite Ho. cbn [mbind outcome_bind]. do 2 eexists. split; [reflexivity|].
  set (d' := mkDisk _ _ _ _) in *.
  assert (Hnd : NoDup (sid <$> segments cl ++ [o])).
  { rewrite fmap_app, NoDup_app. split_and!; [done | | apply NoDup_singleton].
    intros k (x & -> & Hx)%list_elem_of_fmap. rewrite Eo. cbn. rewrite list_elem_of_singleton.
    rewrite Forall_forall in Hfr. specialize (Hfr x Hx). lia. }
  assert (Hfo : getFiles d' o = Some (mkFiles [] [])) by (rewrite Eo; unfold getFiles; cbn; by rewrite lookup_insert_eq).
  split; [|split; [done|]; exists o; split; [by apply (find_last _ (segments cl)) | by rewrite Eo]].
  split; [split; cbn [segments activeSegment logNext closed nextId]; try done|].
  - apply Forall2_app; [|constructor; [|constructor]].
    + apply Forall2_same_length_lookup_2; [by eapply Forall2_length|]. intros k x e Hx He.
      apply holds_create; [by eapply Forall2_lookup_lr | done|].
      rewrite Hs in Hx, Hl. apply list_elem_of_lookup_2 in Hx. pose proof (linked_bound _ _ _ Hl Hx). lia.
    + split; [exists (mkFiles [] []), []; split_and!; [exact Hfo | rewrite Eo; apply empty_data | by split; try left]|].
      rewrite Eo. cbn. rewrite lookup_insert_eq. split_and!; [by left | done | lia | lia].
  - rewrite Hs in *. apply linked_snoc; [done | rewrite Eo; cbn; lia | rewrite Eo; cbn; lia].
  - apply Forall_app. split; [eapply Forall_impl; [exact Hfr|]; cbn; lia |].
    constructor; [rewrite Eo; cbn; lia | constructor].
  - rewrite fmap_app, NoDup_app. split_and!; [done | | apply NoDup_singleton].
    intros k (x & -> & Hx)%list_elem_of_fmap. rewrite Eo. cbn. rewrite list_elem_of_singleton. intros Ek.
    destruct (holds_ino _ _ _ _ _ Hsegs Hdk Hx). lia.
  - exists (segments cl), o. rewrite Eo. done.
  - by apply disk_ok_create.
  - intros b i Hi. cbn in Hi. destruct (decide (b = logNext cl)) as [->|].
    + exists o. split; [set_solver | by rewrite Eo].
    + rewrite lookup_insert_ne in Hi by done. destruct (Hdir _ _ Hi) as (x & Hx & Hxb).
      exists x. split; [set_solver | done].
  - exists o, (mkFiles [] []). split_and!; [|done | rewrite Eo; done | rewrite Eo; done].
    by apply (find_last _ (segments cl)).
Qed.

Lemma segAppend_mmap cfg s fs enc b f s' fs' ok :
  segAppend cfg s fs enc b f = Ok (s', fs', ok) -> mmapLen s' = mmapLen s.
Proof.
  unfold segAppend. destruct f; [by intros [= <- <- <-]|].
  destruct (_ || _); destruct (_ && _); cbn [mbind outcome_bind orPanic];
    try (by intros [= <- <- <-]).
  - destruct (Index.Sync _ _ _) as [[[]]|]; [|done]. cbn. by intros [= <- <- <-].
  - destruct (Index.Sync _ _ _) as [[[]]|]; [|done]. cbn. by intros [= <- <- <-].
Qed.

(** The batch as it reads back: the compression that was really used. *)
Definition stored (b : RecordBatch) (ct : Z) : RecordBatch :=
  mkBatch (BaseOffset b) (RecordCount b) ct (Timestamp b) (MaxTimestamp b) (Records b).

(** A batch that the format can carry and the compressor accepts. *)
Definition encodable (L : lz4) (b : RecordBatch) : Prop :=
  batch_ok b /\ zlen (recordBytes (Records b)) <= 2 ^ 23 /\
  (Compression b = CompressionLZ4 ->
   exists c, CompressBlock L (recordBytes (Records b)) = inl c /\ zlen c < 2 ^ 31).

Lemma seg_ok_hold L s fs encs bs base :
  seg_ok L s fs encs bs -> sbase s = base ->
  files_hold L fs base encs bs [] (ztake (dirtyFrom (sindex s)) (entries (sindex s))).
Proof.
  intros Hok <-. pose proof (seg_ok_files L s fs encs bs [] Hok (or_introl eq_refl)) as Hf.
  rewrite app_nil_r in Hf. by destruct fs.
Qed.

(** Writing an encoded batch to the active segment extends its batches. *)
Lemma appendActive_ok L cfg E cl d g0 encs bs a enc b b' :
  log_ok L cl d (g0 ++ [(encs, bs)]) -> active cl = Some a -> fault E = None ->
  encodes L enc b' -> BaseOffset b' = BaseOffset b -> RecordCount b' = RecordCount b ->
  BaseOffset b = logNext cl -> 0 < RecordCount b -> logNext cl + RecordCount b < 2 ^ 64 ->
  logNext cl - sbase (seg a) < 2 ^ 32 -> ssize (seg a) < 2 ^ 64 ->
  exists cl' d', appendActive cfg E cl d enc b = Ok (cl', d', inl (logNext cl)) /\
    log_ok L cl' d' (g0 ++ [(encs ++ [enc], bs ++ [b'])]) /\ logNext cl' = logNext cl + RecordCount b /\
    exists a', active cl' = Some a' /\ sid a' = sid a /\ sbase (seg a') = sbase (seg a) /\
      forall pre, segments cl = pre ++ [a] -> segments cl' = pre ++ [a'].
Proof.
  intros [Hd (a0 & fs & Ha0 & Hf & Hsy & Hmm)] Ha Hft He Hb1 Hb2 Hbo Hrc Hlt Hrel Hsz.
  rewrite Ha in Ha0. injection Ha0 as <-.
  destruct (log_data_active _ _ _ _ Hd) as (pre & a1 & Hs & Ha1 & Hn & Hid). rewrite Ha in Ha1. injection Ha1 as <-.
  pose proof (ld_segs _ _ _ _ Hd) as Hsegs. rewrite Hs in Hsegs.
  apply Forall2_snoc_inv_l' in Hsegs as (k & e & Ek & _ & [(fs0 & es0 & Hf0 & Hda & _) (_ & _ & Hb0)]).
  apply app_inj_tail in Ek as [<- <-]. cbn in Hda. rewrite Hf in Hf0. injection Hf0 as <-.
  pose proof (seg_data_ok _ _ _ _ _ Hda Hsy) as Hok.
  assert (He0 : endOf 0 bs < 2 ^ 32).
  { pose proof (sd_next _ _ _ _ _ Hda) as Hnx. rewrite endOf_shift in Hnx. lia. }
  assert (Hlen : zlen (concat encs) < 2 ^ 64) by (rewrite <- (sd_size _ _ _ _ _ Hda); lia).
  destruct (segAppend_ok L cfg (seg a) fs encs bs enc b' Hok He) as (s' & fs' & Hap & Hok' & Hbs);
    [rewrite Hb1, Hbo; lia | lia | lia | lia | done | done |].
  unfold appendActive. rewrite Ha. cbn [mbind outcome_bind orPanic]. rewrite Hf. cbn [mbind outcome_bind orPanic].
  rewrite Hft, (segAppend_batch cfg (seg a) fs enc b b') by done. rewrite Hap. cbn [mbind outcome_bind].
  assert (Hnx : nextOffset s' = logNext cl + RecordCount b).
  { rewrite (so_next _ _ _ _ _ Hok'), Hbs, endOf_app. rewrite <- (so_next _ _ _ _ _ Hok). cbn. lia. }
  assert (Hmm' : mmapLen s' = None) by (rewrite (segAppend_mmap _ _ _ _ _ _ _ _ _ Hap); done).
  set (a' := mkObj (sid a) s' (ino a)).
  pose proof (log_data_update L E cl d g0 (encs, bs) pre a a' fs' (encs ++ [enc], bs ++ [b'])
    Hd Hs eq_refl eq_refl Hbs (seg_ok_data _ _ _ _ _ Hok')
    (ex_intro _ _ (seg_ok_hold _ _ _ _ _ _ Hok' Hbs)) (or_introl Hmm')) as Hd'.
  assert (Hge : sbase (seg a) <= logNext cl)
    by (rewrite Hn, (sd_next _ _ _ _ _ Hda); apply endOf_ge, (sd_chain _ _ _ _ _ Hda)).
  do 2 eexists. cbn [logNext setObj]. rewrite u64_small by lia. rewrite Hbo. split; [reflexivity|].
  cbn in Hd'. rewrite Hnx in Hd'.
  pose proof (setObj_last cl pre a a' Hs (ld_ids _ _ _ _ Hd) eq_refl) as Hset.
  set (cl' := setNextOffset (setObj cl a') (logNext cl + RecordCount b)) in *.
  assert (Ha' : active cl' = Some a') by (apply (find_last _ pre); [exact Hset | apply Hd' | done]).
  split_and!; [split; [exact Hd'|] | done |].
  - exists a', fs'. split_and!; [done | by rewrite getFiles_write, decide_True | apply Hok' | done].
  - exists a'. split_and!; try done. intros pre' Hp. rewrite Hs in Hp. by apply app_inj_tail in Hp as [<- _].
Qed.

Lemma nonempty_next L s log encs bs : seg_data L s log encs bs -> 0 < ssize s -> sbase s < nextOffset s.
Proof.
  intros [Henc _ Hsz Hch Hn _ _ _ _ _] Hpos. rewrite Hn. rewrite Hsz in Hpos.
  destruct Henc as [|enc b encs bs]; [done|]. destruct Hch as (_ & _ & Hr & _ & Hch). cbn [endOf].
  apply endOf_ge in Hch. lia.
Qed.

(** Rolling a segment that holds data. *)
Lemma roll_ok L E cl d g a :
  log_ok L cl d g -> active cl = Some a -> 0 < ssize (seg a) -> logNext cl < 2 ^ 64 ->
  exists cl' d', newSegment L E (setObj cl (sealObj E a)) d (logNext cl) = Ok (cl', d') /\
    log_ok L cl' d' (g ++ [([], [])]) /\ logNext cl' = logNext cl /\
    exists a', active cl' = Some a' /\ sbase (seg a') = logNext cl /\ ssize (seg a') = 0 /\
      forall pre, segments cl = pre ++ [a] -> segments cl' = pre ++ [sealObj E a; a'].
Proof.
  intros [Hd (a0 & fs & Ha0 & Hf & _ & _)] Ha Hpos Hlt. rewrite Ha in Ha0. injection Ha0 as <-.
  destruct (log_data_active _ _ _ _ Hd) as (pre & a1 & Hs & Ha1 & Hn & Hid). rewrite Ha in Ha1. injection Ha1 as <-.
  pose proof (ld_segs _ _ _ _ Hd) as Hsegs. rewrite Hs in Hsegs.
  apply Forall2_snoc_inv_l' in Hsegs as (g0 & e & -> & _ & [(fs0 & es0 & Hf0 & Hda & Hh0) (Hm & _ & Hb0)]).
  rewrite Hf in Hf0. injection Hf0 as <-.
  pose proof (seal_fields (mapped E) (seg a)) as (F1 & F2 & _).
  pose proof (log_data_update L E cl d g0 e pre a (sealObj E a) fs e Hd Hs eq_refl eq_refl F1
    (seal_data _ _ _ _ _ _ Hda) (ex_intro _ _ Hh0) (seal_mmap _ _ Hm)) as Hd'.
  rewrite (writeInode_id E d a fs Hf) in Hd'. cbn [seg sealObj] in Hd'. rewrite F2, <- Hn in Hd'.
  pose proof (setObj_last cl pre a (sealObj E a) Hs (ld_ids _ _ _ _ Hd) eq_refl) as Hset.
  destruct (log_data_new L E _ _ _ pre (sealObj E a) Hd' Hset) as (cl' & d' & Hnew & Hok & Hn' & a' & Ha' & Hb' & Hs' & Hsg).
  { cbn. rewrite F1. pose proof (nonempty_next _ _ _ _ _ Hda Hpos). lia. }
  exists cl', d'. split_and!; [exact Hnew | exact Hok | exact Hn' |]. exists a'. split_and!; try done.
  intros pre' Hp. rewrite Hs in Hp. apply app_inj_tail in Hp as [<- _]. rewrite Hsg.
  change (segments (setNextOffset (setObj cl (sealObj E a)) (logNext cl))) with (segments (setObj cl (sealObj E a))).
  by rewrite Hset, <- app_assoc.
Qed.

Lemma active_size L cl d g :
  log_ok L cl d g -> exists g0 encs bs, g = g0 ++ [(encs, bs)].
Proof.
  intros [Hd _]. destruct (log_data_active _ _ _ _ Hd) as (pre & a & Hs & _).
  pose proof (ld_segs _ _ _ _ Hd) as Hsegs. rewrite Hs in Hsegs.
  apply Forall2_snoc_inv_l' in Hsegs as (g0 & [encs bs] & -> & _). eauto.
Qed.

Lemma batches_snoc g0 encs bs (b : RecordBatch) (enc : list byte) :
  batches (g0 ++ [(encs ++ [enc], bs ++ [b])]) = batches (g0 ++ [(encs, bs)]) ++ [b].
Proof. unfold batches. rewrite !fmap_app, !concat_app. cbn. by rewrite !app_nil_r, app_assoc. Qed.

(** Where an appended batch goes: behind the batches of the active segment, or, when
    that is full, in a new segment that starts at the next offset, the full one being
    sealed. *)
Definition appended (cfg : Config) (E : env) (cl cl' : CommitLog) (g g' : ghost)
    (enc : list byte) (b : RecordBatch) : Prop :=
  exists pre a a' g0 encs bs,
    segments cl = pre ++ [a] /\ active cl = Some a /\ active cl' = Some a' /\ g = g0 ++ [(encs, bs)] /\
    if IsFull cfg (now E) (seg a)
    then segments cl' = pre ++ [sealObj E a; a'] /\ sbase (seg a') = logNext cl /\ g' = g ++ [([enc], [b])]
    else segments cl' = pre ++ [a'] /\ sid a' = sid a /\ sbase (seg a') = sbase (seg a) /\
         g' = g0 ++ [(encs ++ [enc], bs ++ [b])].

Lemma Append_ok L cfg E cl d g batch :
  lz4_ok L -> log_ok L cl d g -> fault E = None ->
  let b := assign (logNext cl) batch in
  encodable L b -> zlen (Records batch) <= maxRecordsPerBatch -> logNext cl + RecordCount b < 2 ^ 64 ->
  (forall a, active cl = Some a -> logNext cl - sbase (seg a) < 2 ^ 32 /\ ssize (seg a) < 2 ^ 64 /\
     (IsFull cfg (now E) (seg a) = true -> 0 < ssize (seg a))) ->
  exists cl' d' g' ct,
    Append L cfg E cl d batch = Ok (cl', d', inl (logNext cl)) /\ log_ok L cl' d' g' /\
    batches g' = batches g ++ [stored b ct] /\ logNext cl' = logNext cl + zlen (Records batch) /\
    exists enc, encodes L enc (stored b ct) /\ appended cfg E cl cl' g g' enc (stored b ct).
Proof.
  intros HL Hok Hft b Henc Hmax Hlt Hroom.
  destruct Henc as (Hbok & Hbsz & Hblz).
  destruct (EncodeBatch_encodes L b (poolBuf E) HL Hbok Hbsz Hblz) as (enc & ct & Hen & Hes).
  fold (stored b ct) in Hes. destruct Hbok as (Hbo & _ & _ & _ & Hrc & Hcnt & _).
  assert (Hcnt' : RecordCount b = zlen (Records batch)).
  { rewrite Hcnt. unfold b, zlen. cbn. by rewrite length_imap. }
  pose proof Hok as [Hd (a & fs & Ha & _)]. destruct (Hroom a Ha) as (Hrel & Hsz & Hfull).
  destruct (active_size _ _ _ _ Hok) as (g0 & encs & bs & ->).
  destruct (log_data_active _ _ _ _ Hd) as (pre & a0 & Hs & Ha0 & _). rewrite Ha in Ha0. injection Ha0 as <-.
  unfold Append. rewrite (ld_open _ _ _ _ Hd). destruct (Z.ltb_spec maxRecordsPerBatch (zlen (Records batch))); [lia|].
  fold b. rewrite Hen, Ha. cbn [mbind outcome_bind orPanic].
  destruct (IsFull cfg (now E) (seg a)) eqn:Eful.
  - destruct (roll_ok L E cl d _ a Hok Ha (Hfull eq_refl)) as (cl1 & d1 & -> & Hok1 & Hn1 & Hna); [lia|].
    cbn [mbind outcome_bind]. destruct Hna as (a1 & Ha1 & Hb1 & Hs1 & Hsg1).
    destruct (appendActive_ok L cfg E cl1 d1 (g0 ++ [(encs, bs)]) [] [] a1 enc b (stored b ct) Hok1 Ha1 Hft Hes)
      as (cl' & d' & Hap & Hok' & Hn' & a' & Ha' & _ & Hb' & Hsg'); try done; try lia.
    eexists cl', d', _, ct. rewrite Hap, Hn1. split_and!; [done | exact Hok' | | lia |].
    { unfold batches. rewrite !fmap_app, !concat_app. cbn. by rewrite !app_nil_r. }
    exists enc. split; [exact Hes|]. exists pre, a, a', g0, encs, bs. rewrite Eful.
    split_and!; try done; [|congruence]. specialize (Hsg1 pre Hs). rewrite (Hsg' (pre ++ [sealObj E a])).
    + by rewrite <- app_assoc.
    + by rewrite Hsg1, <- app_assoc.
  - cbn [mbind outcome_bind].
    destruct (appendActive_ok L cfg E cl d g0 encs bs a enc b (stored b ct) Hok Ha Hft Hes)
      as (cl' & d' & -> & Hok' & Hn' & a' & Ha' & Hi' & Hb' & Hsg'); try done; try lia.
    eexists cl', d', _, ct. split_and!; [done | exact Hok' | apply batches_snoc | lia |].
    exists enc. split; [exact Hes|]. exists pre, a, a', g0, encs, bs. rewrite Eful. split_and!; try done. by apply Hsg'.
Qed.

(** ** Lemmas: reading *)

Lemma chained_bounds o bs b :
  chained o bs -> b ∈ bs -> o <= BaseOffset b /\ BaseOffset b + RecordCount b <= endOf o bs.
Proof.
  revert o. induction bs as [|x bs IH]; intros o Hc Hb; [by apply elem_of_nil in Hb|].
  destruct Hc as (Hx & _ & Hr & _ & Hc). cbn [endOf]. pose proof (endOf_ge _ _ Hc).
  apply elem_of_cons in Hb as [->|Hb]; [lia|]. destruct (IH _ Hc Hb). lia.
Qed.

Lemma after_head o bs offset b :
  chained o bs -> b ∈ bs -> BaseOffset b <= offset < BaseOffset b + RecordCount b ->
  head (after offset bs) = Some b.
Proof.
  revert o. induction bs as [|x bs IH]; intros o Hc Hb Ho; [by apply elem_of_nil in Hb|].
  destruct Hc as (Hx & _ & Hr & _ & Hc). unfold after in *. apply elem_of_cons in Hb as [->|Hb].
  - by rewrite filter_cons_True by lia.
  - destruct (chained_bounds _ _ _ Hc Hb). rewrite filter_cons_False by lia. by eapply IH.
Qed.

Lemma after_nil offset bs :
  (forall b, b ∈ bs -> BaseOffset b + RecordCount b <= offset) -> after offset bs = [].
Proof.
  induction bs as [|b bs IH]; intros Hb; [done|]. unfold after in *.
  rewrite filter_cons_False by (specialize (Hb b ltac:(left)); lia). apply IH. intros x Hx. apply Hb. by right.
Qed.

(** Earlier segments start and end before later ones. *)
Lemma linked_lookup l i j a b :
  linked l -> (i < j)%nat -> l !! i = Some a -> l !! j = Some b ->
  sbase (seg a) < sbase (seg b) /\ nextOffset (seg a) <= sbase (seg b).
Proof.
  revert i j a. induction l as [|x l IH]; intros i j a Hl Hij Ha Hb; [done|]. destruct Hl as [Hx Hl].
  destruct j as [|j]; [lia|]. destruct i as [|i]; cbn in Ha, Hb; [|by apply (IH i j a); [done|lia|done|done]].
  simplify_eq. destruct l as [|y l]; [done|]. destruct j as [|j]; cbn in Hb; [by simplify_eq|].
  destruct (IH 0%nat (S j) y Hl ltac:(lia) eq_refl Hb). lia.
Qed.

Lemma findSegment_spec cl offset :
  linked (segments cl) -> segments cl <> [] -> OldestOffset cl <= offset ->
  exists k o, findSegment cl offset = Some o /\ segments cl !! k = Some o /\ sbase (seg o) <= offset /\
    (forall j x, segments cl !! j = Some x -> (k < j)%nat -> offset < sbase (seg x)).
Proof.
  intros Hl Hne Hold. unfold findSegment. set (f := fun j : Z => match zget (segments cl) j with Some o => offset <? sbase (seg o) | None => true end).
  assert (Hget : forall j, 0 <= j -> zget (segments cl) j = segments cl !! Z.to_nat j)
    by (intros; unfold zget; by rewrite bool_decide_true).
  destruct (Search_spec (zlen (segments cl)) f) as (Hr & Hlo & Hhi); [apply zlen_nonneg| |].
  { intros a b Hab. unfold f. rewrite !Hget by lia. intros Ha.
    destruct (segments cl !! Z.to_nat b) as [y|] eqn:Eb; [|done].
    destruct (segments cl !! Z.to_nat a) as [x|] eqn:Ea.
    - destruct (decide (a = b)) as [->|]; [congruence|].
      assert (Hij : (Z.to_nat a < Z.to_nat b)%nat) by lia.
      destruct (linked_lookup _ _ _ _ _ Hl Hij Ea Eb). lia.
    - apply lookup_ge_None_1 in Ea. apply lookup_lt_Some in Eb. lia. }
  set (i := Search _ _) in *. destruct (segments cl) as [|o0 l] eqn:Es; [done|]. unfold OldestOffset in Hold. rewrite Es in Hold.
  assert (Hi : i <> 0).
  { intros E0. assert (Hi : f i = true) by (apply Hhi; unfold zlen; cbn [length]; lia).
    rewrite E0 in Hi. unfold f in Hi. rewrite Hget in Hi by lia. change ((offset <? sbase (seg o0)) = true) in Hi. lia. }
  destruct (Z.eqb_spec i 0); [done|]. rewrite Hget by lia.
  destruct (lookup_lt_is_Some_2 (o0 :: l) (Z.to_nat (i - 1))) as [o Ho]; [unfold zlen in Hr; lia|].
  exists (Z.to_nat (i - 1)), o. split_and!; try done.
  - specialize (Hlo (i - 1) ltac:(lia)). unfold f in Hlo. rewrite Hget, Ho in Hlo by lia. lia.
  - intros j x Hj Hlt. pose proof (lookup_lt_Some _ _ _ Hj).
    specialize (Hhi ltac:(unfold zlen; lia)). unfold f in Hhi. rewrite Hget in Hhi by lia.
    destruct ((o0 :: l) !! Z.to_nat i) as [y|] eqn:Ey; [|apply lookup_ge_None_1 in Ey; lia].
    destruct (decide (j = Z.to_nat i)) as [->|]; [simplify_eq; lia|].
    assert (Hij : (Z.to_nat i < j)%nat) by lia.
    destruct (linked_lookup _ _ _ _ _ Hl Hij Ey Hj). lia.
Qed.

(** Every batch of a segment lies between its base and its next offset. *)
Lemma holds_bounds L d o e b :
  holds L d o e -> b ∈ e.2 -> sbase (seg o) <= BaseOffset b /\ BaseOffset b + RecordCount b <= nextOffset (seg o).
Proof.
  intros [(fs & es & _ & Hd & _) _] Hb. rewrite (sd_next _ _ _ _ _ Hd).
  by apply chained_bounds; [apply (sd_chain _ _ _ _ _ Hd)|].
Qed.

(** A batch of the log lies in one of its segments. *)
Lemma batches_lookup (g : ghost) b : b ∈ batches g -> exists j e, g !! j = Some e /\ b ∈ e.2.
Proof.
  unfold batches. induction g as [|e g IH]; cbn; [by intros ?%elem_of_nil|].
  intros [Hb|Hb]%elem_of_app; [by exists 0%nat, e|].
  destruct (IH Hb) as (j & e' & ? & ?). by exists (S j), e'.
Qed.

(** What [Read] returns: it looks at the batches [take j (drop k e.2)] of the segment [o]
    that covers the offset; they lie in the window of [maxBytes] bytes that starts where
    the index points. *)
Lemma Read_spec L cl d g offset maxBytes :
  log_data L cl d g -> OldestOffset cl <= offset -> 0 <= maxBytes ->
  (forall o, findSegment cl offset = Some o -> offset < sbase (seg o) + 2 ^ 32) ->
  exists i o e k j rest, findSegment cl offset = Some o /\ segments cl !! i = Some o /\ g !! i = Some e /\
    holds L d o e /\ sbase (seg o) <= offset /\
    (forall b, b ∈ batches g -> BaseOffset b <= offset < BaseOffset b + RecordCount b -> b ∈ e.2) /\
    Read L cl d offset maxBytes = Ok (after offset (take j (drop k e.2))) /\
    after offset (batches g) = after offset (take j (drop k e.2)) ++ rest /\
    after offset (take k e.2) = [] /\ (j <= length (drop k e.1))%nat /\
    (exists f, Lookup (sindex (seg o)) offset = Some (zlen (concat (take k e.1)), f)) /\
    ((j < length (drop k e.1))%nat -> maxBytes < zlen (concat (take (S j) (drop k e.1)))) /\
    zlen (concat (take j (drop k e.1))) <= maxBytes.
Proof.
  intros Hd Hold Hmax Hfit. destruct (ld_active _ _ _ _ Hd) as (pre & a & Hs & _).
  assert (Hne : segments cl <> []) by (rewrite Hs; by destruct pre).
  destruct (findSegment_spec cl offset (ld_linked _ _ _ _ Hd) Hne Hold) as (i & o & Hfind & Hi & Hb & Hlater).
  specialize (Hfit o Hfind).
  pose proof (ld_segs _ _ _ _ Hd) as Hsegs. destruct (Forall2_lookup_l _ _ _ _ _ Hsegs Hi) as (e & He & Hho).
  pose proof Hho as [(fs & es & Hf & Hda & _) (Hm & _ & _)].
  assert (Hpre : forall j e' b, g !! j = Some e' -> b ∈ e'.2 -> (j < i)%nat -> BaseOffset b + RecordCount b <= offset).
  { intros j e' b Hj Hbe Hlt. destruct (Forall2_lookup_r _ _ _ _ _ Hsegs Hj) as (x & Hx & Hhx).
    destruct (holds_bounds _ _ _ _ _ Hhx Hbe), (linked_lookup _ _ _ _ _ (ld_linked _ _ _ _ Hd) Hlt Hx Hi). lia. }
  destruct (ReadFrom_window L (seg o) (logFile fs) e.1 e.2 offset maxBytes Hda Hm (conj Hb Hfit) Hmax)
    as (k & j & f & Hlk & Hno & Hrd & Hj & Hsm & Hbig).
  exists i, o, e, k, j, (after offset (drop j (drop k e.2)) ++ after offset (batches (drop (S i) g))).
  split_and!; try done.
  - intros b (j' & e' & Hj' & Hbe)%batches_lookup Hin.
    assert (j' = i) as ->; [|by simplify_eq].
    destruct (decide (j' < i)%nat) as [Hlt|]; [specialize (Hpre j' e' b Hj' Hbe Hlt); lia|].
    destruct (decide (i < j')%nat) as [Hlt|]; [|lia].
    destruct (Forall2_lookup_r _ _ _ _ _ Hsegs Hj') as (x & Hx & Hhx).
    destruct (holds_bounds _ _ _ _ _ Hhx Hbe). specialize (Hlater j' x Hx Hlt). lia.
  - unfold Read. rewrite (ld_open _ _ _ _ Hd). destruct (Z.eqb_spec (zlen (segments cl)) 0) as [E0|_];
      [by apply zlen_zero in E0|]. rewrite Hfind. cbn [mbind outcome_bind orPanic].
    rewrite Hf. cbn [mbind outcome_bind orPanic]. exact Hrd.
  - rewrite <- (take_drop_middle g i e He) at 1. unfold batches, after in *.
    rewrite fmap_app, concat_app, fmap_cons, filter_app. cbn [concat]. rewrite filter_app.
    fold (batches (take i g)). fold (after offset (batches (take i g))). rewrite after_nil.
    + cbn [app]. rewrite app_assoc. f_equal. rewrite <- filter_app, take_drop.
      rewrite <- (take_drop k e.2) at 1. by rewrite filter_app, Hno.
    + intros b (j' & e' & Hj' & Hbe)%batches_lookup. apply lookup_take_Some in Hj' as [Hj' Hlt]. by eapply Hpre.
  - eauto.
Qed.

(** C4: reading the log at an offset it still holds returns a contiguous run of the whole
    log: the first of the batches that reach past the offset, as many as the read limit
    lets it see whole from where the index starts in the segment that covers the offset,
    which may be none when the limit is small ([consumer_starves]).  When the limit covers
    that segment, the batch that contains the offset, if there is one, comes first.  The
    offset lies within the segment's 32-bit relative offsets. *)
Theorem commitlog_Read_correct L cl d g offset maxBytes :
  log_data L cl d g -> OldestOffset cl <= offset -> 0 <= maxBytes ->
  (forall o, findSegment cl offset = Some o -> offset < sbase (seg o) + 2 ^ 32) ->
  exists r rest, Read L cl d offset maxBytes = Ok r /\ after offset (batches g) = r ++ rest /\
    ((forall o, findSegment cl offset = Some o -> ssize (seg o) <= maxBytes) ->
     forall b, b ∈ batches g -> BaseOffset b <= offset < BaseOffset b + RecordCount b -> head r = Some b).
Proof.
  intros Hd Hold Hmax Hfit.
  destruct (Read_spec L cl d g offset maxBytes Hd Hold Hmax Hfit)
    as (i & o & e & k & j & rest & Hfind & _ & _ & Hho & Hb & Hin & Hr & Haf & Hno & _).
  exists (after offset (take j (drop k e.2))), rest. split_and!; [done | done |].
  intros Hsz b Hbg Hbo. specialize (Hsz o Hfind). specialize (Hin b Hbg Hbo). specialize (Hfit o Hfind).
  destruct Hho as [(fs & es & Hf & Hda & _) (Hm & _ & _)].
  assert (Hall : after offset (take j (drop k e.2)) = after offset e.2).
  { pose proof (ReadFrom_data L _ _ _ _ offset maxBytes Hda Hm (conj Hb Hfit) Hsz) as Hrd.
    unfold Read in Hr. rewrite (ld_open _ _ _ _ Hd) in Hr. destruct (zlen (segments cl) =? 0) eqn:E0.
    - destruct (ld_active _ _ _ _ Hd) as (pre & a & Hs & _). rewrite Hs, zlen_app in E0.
      pose proof (zlen_nonneg pre). change (zlen [a]) with 1 in E0. lia.
    - rewrite Hfind in Hr. cbn [mbind outcome_bind orPanic] in Hr. rewrite Hf in Hr. cbn [mbind outcome_bind orPanic] in Hr.
      congruence. }
  rewrite Hall. by apply (after_head (sbase (seg o))); [apply (sd_chain _ _ _ _ _ Hda)|..].
Qed.

(** ** Lemmas: reopening *)

(** The files found under a base offset, with a torn write at the end of the log, of
    which recovery gets to the end. *)
Definition fileAt (L : lz4) (fuel : nat) (d : disk) (b : Z) (i : nat) (e : list (list byte) * list RecordBatch) : Prop :=
  dir d !! b = Some i /\ 0 <= b < 2 ^ 64 /\
  exists n t es, inodes d !! i = Some n /\ files_hold L (content n) b e.1 e.2 t es /\
    Forall small e.1 /\ zlen t <= recoverChunkSize /\ fitsRounds fuel (zlen (logFile (content n))).

Lemma fileAt_write L fuel E d b i e j fs :
  fileAt L fuel d b i e -> i <> j -> fileAt L fuel (writeInode E d j fs) b i e.
Proof.
  intros (Hd & Hb & n & t & es & Hn & Hh) Hne. split_and!; [done | lia | lia |].
  exists n, t, es. cbn. by rewrite lookup_insert_ne.
Qed.

Lemma openObj_file L E d b i e id :
  fileAt L (rounds E) d b i e -> disk_ok d ->
  exists o d', openObj L E d b id = Ok (o, d') /\ sid o = id /\ ino o = i /\ sbase (seg o) = b /\
    mmapLen (seg o) = None /\ holds L d' o e /\ exists fs, d' = writeInode E d i fs.
Proof.
  intros (Hd & Hb & n & t & es & Hn & Hh & Hsm & Htl & Hsz) Hok.
  destruct (recover_files L (rounds E) (content n) b e.1 e.2 t es (now E) (mtime n) Hh Hb Hsm Htl Hsz)
    as (s & Hopen & Hda & Hbs & _ & Hmm).
  unfold openObj. rewrite Hd. cbn [mbind option_bind]. rewrite Hn. cbn [mbind option_bind].
  rewrite Hopen. cbn [mbind outcome_bind]. do 2 eexists. split; [reflexivity|].
  split_and!; try done; [|by eexists]. split.
  - exists (mkFiles (concat e.1) (idxFile (content n))), es. rewrite getFiles_write, decide_True by done.
    cbn [seg]. split_and!; [done | done | rewrite Hbs]. destruct Hh as [He _ _ Hch Hi H1 H2 H3].
    split; cbn; try done; [by rewrite app_nil_r | by left].
  - cbn [seg ino]. rewrite Hbs. split_and!; [by left | done | lia | lia].
Qed.

Lemma loadSegments_spec L E : forall todo g cl d gd,
  Forall2 (holds L d) (segments cl) gd ->
  Forall2 (fun bi e => fileAt L (rounds E) d bi.1 bi.2 e) todo g ->
  NoDup ((ino <$> segments cl) ++ todo.*2) -> disk_ok d ->
  exists os d', loadSegments L E todo.*1 cl d =
      Ok (mkLog (segments cl ++ os) (activeSegment cl) (logNext cl) (closed cl) (nextId cl + length os)%nat, d') /\
    Forall2 (holds L d') (segments cl ++ os) (gd ++ g) /\
    (fun o => (sbase (seg o), ino o)) <$> os = todo /\ sid <$> os = seq (nextId cl) (length os) /\
    Forall (fun o => mmapLen (seg o) = None) os /\
    dir d' = dir d /\ staging d' = staging d /\ disk_ok d'.
Proof.
  induction todo as [|[b i] todo IH]; intros g cl d gd Hdone Htodo Hnd Hok.
  - apply Forall2_nil_inv_l in Htodo as ->. exists [], d. rewrite !app_nil_r, Nat.add_0_r.
    cbn [fmap list_fmap loadSegments]. destruct cl. split_and!; (done || by apply Forall_nil).
  - apply Forall2_cons_inv_l in Htodo as (e & g' & He & Htodo & ->). cbn [fst snd] in He.
    destruct (openObj_file L E d b i e (nextId cl) He Hok) as (o & d1 & Ho & Hid & Hino & Hb & Hmm & Hh & fs & Hd1).
    cbn [fmap list_fmap loadSegments fst]. rewrite Ho. cbn [mbind outcome_bind].
    assert (Hi : (i < nextIno d)%nat) by (destruct He as (_ & _ & n & ? & ? & Hn & _); by eapply Hok).
    cbn [fmap list_fmap snd] in Hnd. pose proof Hnd as Hnd0.
    rewrite NoDup_app in Hnd0. destruct Hnd0 as (_ & Hn2 & Hn3). apply NoDup_cons in Hn3 as [Hn3 _].
    set (cl1 := mkLog (segments cl ++ [o]) (activeSegment cl) (logNext cl) (closed cl) (S (nextId cl))).
    destruct (IH g' cl1 d1 (gd ++ [e])) as (os & d' & Hl & H1 & H2 & H3 & H4 & H5 & H6 & H7).
    + cbn. apply Forall2_app; [|by constructor]. rewrite Hd1. apply Forall2_holds_write; [done|].
      intros Hx. apply (Hn2 _ Hx). left.
    + apply Forall2_same_length_lookup_2; [by eapply Forall2_length|]. intros k [b' i'] e' Hk Hk'.
      rewrite Hd1. apply fileAt_write; [exact (Forall2_lookup_lr _ _ _ _ _ _ Htodo Hk Hk')|].
      cbn. intros ->. apply Hn3. apply list_elem_of_fmap. exists (b', i).
      split; [done|]. by eapply list_elem_of_lookup_2.
    + cbn. rewrite fmap_app, <- app_assoc. cbn. by rewrite Hino.
    + rewrite Hd1. by apply disk_ok_write.
    + exists (o :: os), d'. rewrite Hl. cbn [cl1 segments activeSegment logNext closed nextId] in *.
      rewrite <- !app_assoc in *. cbn [app length fmap list_fmap seq] in *.
      split_and!; try done.
      * do 3 f_equal. lia.
      * by rewrite Hb, Hino, H2.
      * by rewrite Hid, H3.
      * by constructor.
      * rewrite H5, Hd1. done.
      * rewrite H6, Hd1. done.
Qed.

Lemma linked_ext l l' :
  (fun o => (sbase (seg o), nextOffset (seg o))) <$> l = (fun o => (sbase (seg o), nextOffset (seg o))) <$> l' ->
  linked l -> linked l'.
Proof.
  revert l'. induction l as [|a l IH]; intros [|a' l'] E Hl; try done.
  cbn in E. injection E as E1 E2 E. destruct Hl as [Ha Hl]. split; [|by apply IH].
  destruct l as [|b l], l' as [|b' l']; try done. cbn in E. injection E as E3 E4 _. lia.
Qed.

Lemma linked_sorted l : linked l -> StronglySorted Z.le (sbase ∘ seg <$> l) /\ NoDup (sbase ∘ seg <$> l).
Proof.
  induction l as [|a l IH]; intros Hl; [split; constructor|]. destruct Hl as [Ha Hl].
  destruct (IH Hl) as [H1 H2]. cbn [fmap list_fmap].
  assert (Hall : forall x, x ∈ sbase ∘ seg <$> l -> sbase (seg a) < x).
  { intros x (o & -> & Ho)%list_elem_of_fmap. apply list_elem_of_lookup in Ho as [j Hj].
    assert (Hl' : linked (a :: l)) by done.
    destruct (linked_lookup (a :: l) 0 (S j) a o Hl' ltac:(lia) eq_refl Hj). cbn. lia. }
  split; constructor; try done.
  - apply Forall_forall. intros x Hx. specialize (Hall x Hx). cbn. lia.
  - intros Hx. specialize (Hall _ Hx). cbn in Hall. lia.
Qed.

Lemma baseOffsets_spec d l :
  linked l -> (forall b i, dir d !! b = Some i -> exists o, o ∈ l /\ sbase (seg o) = b) ->
  (forall o, o ∈ l -> is_Some (dir d !! sbase (seg o))) -> baseOffsets d = sbase ∘ seg <$> l.
Proof.
  intros Hl H1 H2. destruct (linked_sorted l Hl) as [Hs Hnd]. unfold baseOffsets.
  apply (StronglySorted_unique Z.le); [|done|].
  - apply Sorted_StronglySorted; [intros x y z; lia|]. apply Sorted_merge_sort. intros x y. lia.
  - rewrite merge_sort_Permutation. apply NoDup_Permutation; [apply NoDup_fst_map_to_list | done|].
    intros b. rewrite !list_elem_of_fmap. split.
    + intros ([b' i] & -> & Hb%elem_of_map_to_list). destruct (H1 _ _ Hb) as (o & Ho & Eo). by exists o.
    + intros (o & -> & Ho). destruct (H2 o Ho) as [i Hi]. exists (sbase (seg o), i). split; [done|].
      by apply elem_of_map_to_list.
Qed.

(** The disk after the process stops: the batch being written to the active segment may
    have left a torn tail, and the modification times are whatever they are. *)
Definition crash (d : disk) (i : nat) (t : list byte) (mts : nat -> Z) : disk :=
  mkDisk (dir d) (staging d)
    (map_imap (fun j n => Some (mkInode
       (if Nat.eqb j i then mkFiles (logFile (content n) ++ t) (idxFile (content n)) else content n) (mts j)))
       (inodes d)) (nextIno d).

Lemma crash_disk_ok d i t mts : disk_ok d -> disk_ok (crash d i t mts).
Proof.
  intros [H1 H2]. split; cbn.
  - intros j n. rewrite map_lookup_imap. destruct (inodes d !! j) eqn:E; [|done]. intros _. by eapply H1.
  - intros b j Hb. destruct (H2 b j Hb) as [n Hn]. rewrite map_lookup_imap, Hn. cbn. by eexists.
Qed.

Lemma crash_fileAt L fuel d i t mts o e :
  holds L d o e -> torn L t -> Forall small e.1 -> zlen t <= recoverChunkSize ->
  fitsRounds fuel (ssize (seg o) + zlen t) ->
  fileAt L fuel (crash d i t mts) (sbase (seg o)) (ino o) e.
Proof.
  intros [(fs & es & Hf & Hda & Hh) (_ & Hd & Hb)] Ht Hsm Htl Hsz. split_and!; [done | lia | lia |].
  unfold getFiles in Hf. destruct (inodes d !! ino o) as [n|] eqn:En; [|done]. injection Hf as <-.
  cbn. rewrite map_lookup_imap, En. cbn. pose proof (zlen_nonneg t).
  pose proof (sd_size _ _ _ _ _ Hda) as Hs. pose proof (sd_log _ _ _ _ _ Hda) as Hlg.
  destruct (Nat.eqb (ino o) i); eexists _, _, es; (split; [reflexivity|]); cbn.
  - split_and!; [|done|done|by rewrite zlen_app, Hlg, <- Hs]. destruct Hh. split; cbn; try done. by rewrite Hlg.
  - split; [exact Hh|]. split_and!; [done | done|]. rewrite Hlg, <- Hs. apply (fitsRounds_le _ _ _ Hsz). lia.
Qed.

Lemma holds_next L d l g :
  Forall2 (holds L d) l g ->
  (fun o => (sbase (seg o), nextOffset (seg o))) <$> l =
  zip_with (fun o e => (sbase (seg o), endOf (sbase (seg o)) e.2)) l g.
Proof.
  induction 1 as [|o e l g [(fs & es & _ & Hda & _) _] _ IH]; [done|].
  cbn. by rewrite IH, (sd_next _ _ _ _ _ Hda).
Qed.

(** [holds] only depends on the base offset of the objects and the batches. *)
Lemma linked_transfer L d d' l l' g :
  Forall2 (holds L d) l g -> Forall2 (holds L d') l' g -> sbase ∘ seg <$> l' = sbase ∘ seg <$> l ->
  linked l -> linked l'.
Proof.
  intros H1 H2 Hb. apply linked_ext. rewrite (holds_next _ _ _ _ H1), (holds_next _ _ _ _ H2).
  clear H1 H2. revert l g Hb. induction l' as [|o' l' IH]; intros [|o l] [|e g] Hb; try done.
  cbn in *. injection Hb as E Hb. by rewrite E, (IH l g Hb).
Qed.

Lemma Forall2_fmap_l' {A B C} (P : B -> C -> Prop) (f : A -> B) l k :
  Forall2 (fun a => P (f a)) l k -> Forall2 P (f <$> l) k.
Proof. induction 1; by constructor. Qed.

(** Sealing the loaded segments but the last. *)
Lemma seal_all_holds L d E os a g :
  Forall2 (holds L d) (os ++ [a]) g -> Forall2 (holds L d) ((sealObj E <$> os) ++ [a]) g.
Proof.
  intros (g1 & g2 & H1 & H2 & ->)%Forall2_app_inv_l. apply Forall2_app; [|done].
  apply Forall2_fmap_l'. eapply Forall2_impl; [exact H1|]. intros. by apply holds_seal.
Qed.

Lemma loaded_bases E os a :
  sbase ∘ seg <$> ((sealObj E <$> os) ++ [a]) = fst <$> ((fun o => (sbase (seg o), ino o)) <$> (os ++ [a])).
Proof.
  rewrite <- list_fmap_compose, !fmap_app, <- list_fmap_compose. f_equal.
  apply list_fmap_ext. intros _ x _. cbn. by destruct (seal_fields (mapped E) (seg x)).
Qed.

(** The commit log built from loaded segments is consistent. *)
Lemma loaded_log L E d d' l os a g (n : nat) :
  Forall2 (holds L d) l g -> linked l -> NoDup (ino <$> l) ->
  (forall b i, dir d' !! b = Some i -> exists o, o ∈ l /\ sbase (seg o) = b) ->
  Forall2 (holds L d') (os ++ [a]) g -> disk_ok d' -> staging d' = ∅ ->
  (fun o => (sbase (seg o), ino o)) <$> (os ++ [a]) = (fun o => (sbase (seg o), ino o)) <$> l ->
  sid <$> (os ++ [a]) = seq 0 n ->
  log_data L (mkLog ((sealObj E <$> os) ++ [a]) (sid a) (nextOffset (seg a)) false n) d' g.
Proof.
  intros Hl Hlk Hin Hdir Hh Hok Hst Hbi Hids.
  assert (Hbase : sbase ∘ seg <$> ((sealObj E <$> os) ++ [a]) = sbase ∘ seg <$> l).
  { rewrite loaded_bases, Hbi, <- list_fmap_compose. done. }
  assert (Hino : ino <$> ((sealObj E <$> os) ++ [a]) = ino <$> l).
  { apply (f_equal (fmap snd)) in Hbi. rewrite <- !list_fmap_compose in Hbi.
    transitivity (ino <$> (os ++ [a])); [|exact Hbi]. by rewrite !fmap_app, <- list_fmap_compose. }
  assert (Hsid : sid <$> ((sealObj E <$> os) ++ [a]) = seq 0 n)
    by (rewrite <- Hids, !fmap_app, <- list_fmap_compose; done).
  pose proof (seal_all_holds L d' E os a g Hh) as Hh'.
  split; cbn [segments activeSegment logNext closed nextId]; try done.
  - by apply (linked_transfer L d d' l _ g).
  - rewrite Hsid. apply NoDup_ListNoDup, seq_NoDup.
  - apply Forall_forall. intros o Ho. apply (list_elem_of_fmap_2 sid) in Ho. rewrite Hsid in Ho.
    apply elem_of_seq in Ho. lia.
  - by rewrite Hino.
  - by exists (sealObj E <$> os), a.
  - intros b i Hb. destruct (Hdir b i Hb) as (o & Ho & <-).
    apply (list_elem_of_fmap_2 (sbase ∘ seg)) in Ho. rewrite <- Hbase in Ho.
    apply list_elem_of_fmap in Ho as (o' & Eo & Ho'). by exists o'.
Qed.

(** Two logs with the same segment bases and batches agree on the ends. *)
Lemma same_ends L d d' cl cl' g :
  log_data L cl d g -> log_data L cl' d' g ->
  sbase ∘ seg <$> segments cl' = fst <$> ((fun o => (sbase (seg o), ino o)) <$> segments cl) ->
  logNext cl' = logNext cl /\ OldestOffset cl' = OldestOffset cl.
Proof.
  intros H H' Hb. rewrite <- list_fmap_compose in Hb.
  assert (Hn : nextOffset ∘ seg <$> segments cl' = nextOffset ∘ seg <$> segments cl).
  { pose proof (holds_next _ _ _ _ (ld_segs _ _ _ _ H)) as E1.
    pose proof (holds_next _ _ _ _ (ld_segs _ _ _ _ H')) as E2.
    transitivity (snd <$> ((fun o => (sbase (seg o), nextOffset (seg o))) <$> segments cl')); [by rewrite <- list_fmap_compose|].
    transitivity (snd <$> ((fun o => (sbase (seg o), nextOffset (seg o))) <$> segments cl)); [|by rewrite <- list_fmap_compose].
    f_equal. rewrite E1, E2. clear -Hb. revert g Hb. generalize (segments cl) as l.
    induction (segments cl') as [|o' l' IH]; intros [|o l] [|e g] Hb; try done.
    cbn in *. injection Hb as E Hb. by rewrite E, (IH l g Hb). }
  destruct (ld_active _ _ _ _ H) as (pre & a & Hs & _ & Ha), (ld_active _ _ _ _ H') as (pre' & a' & Hs' & _ & Ha').
  split.
  - rewrite Ha, Ha'. rewrite Hs, Hs', !fmap_app in Hn. by apply app_inj_tail in Hn as [_ ?].
  - unfold OldestOffset. destruct (segments cl), (segments cl'); cbn in *; simplify_eq; done.
Qed.

Lemma recoverStaging_id d : staging d = ∅ -> recoverStaging d = d.
Proof. intros Hs. unfold recoverStaging. destruct d. cbn in *. subst. by rewrite (left_id ∅ (∪)). Qed.

Lemma recover_crash L E cl d g a t mts :
  log_data L cl d g -> active cl = Some a -> torn L t ->
  Forall (fun e => Forall small e.1) g -> zlen t <= recoverChunkSize ->
  (forall o, o ∈ segments cl -> fitsRounds (rounds E) (ssize (seg o) + zlen t)) ->
  exists cl' d', NewCommitLog L E (crash d (ino a) t mts) = Ok (cl', d') /\ log_data L cl' d' g /\
    logNext cl' = logNext cl /\ OldestOffset cl' = OldestOffset cl.
Proof.
  intros Hld Ha Ht Hsm Htl Hsz. pose proof Hld as [Hsegs Hlk _ _ Hin _ _ Hok Hdir Hst].
  set (d0 := crash d (ino a) t mts). set (todo := (fun o => (sbase (seg o), ino o)) <$> segments cl).
  assert (Hfiles : Forall2 (fun bi e => fileAt L (rounds E) d0 bi.1 bi.2 e) todo g).
  { apply Forall2_fmap_l', Forall2_same_length_lookup_2; [by eapply Forall2_length|]. intros k o e Hk Hk'. cbn.
    apply crash_fileAt; [by eapply Forall2_lookup_lr | done | | done|];
      [exact (Forall_lookup_1 _ _ _ _ Hsm Hk')|]. apply Hsz. by eapply list_elem_of_lookup_2. }
  assert (Hbo : baseOffsets d0 = todo.*1).
  { rewrite (baseOffsets_spec d0 (segments cl) Hlk Hdir).
    - unfold todo. by rewrite <- list_fmap_compose.
    - intros o [k Hk]%list_elem_of_lookup. destruct (Forall2_lookup_l _ _ _ _ _ Hsegs Hk) as (e & _ & _ & _ & Hd & _).
      by exists (ino o). }
  unfold NewCommitLog. rewrite recoverStaging_id, Hbo by done.
  destruct (loadSegments_spec L E todo g (mkLog [] 0 0 false 0) d0 []) as
    (os & d' & Hl & H1 & H2 & H3 & _ & H5 & H6 & H7); [constructor | done | | by apply crash_disk_ok |].
  { cbn. unfold todo. by rewrite <- list_fmap_compose. }
  rewrite Hl. cbn [mbind outcome_bind segments app nextId] in *.
  destruct (log_data_active _ _ _ _ Hld) as (pre & a0 & Hs & _ & Hn & _).
  assert (Hlen : length os = length (segments cl)) by (rewrite <- (length_fmap (fun o => (sbase (seg o), ino o)) os), H2; apply length_fmap).
  destruct os as [|a' os _] using rev_ind; [rewrite Hs, length_app in Hlen; cbn in Hlen; lia|].
  destruct (Z.eqb_spec (zlen (os ++ [a'])) 0) as [E0|_]; [apply zlen_zero in E0; by destruct os|].
  cbn [mbind outcome_bind segments closed nextId]. rewrite last_snoc, removelast_last. cbn [mbind outcome_bind orPanic].
  do 2 eexists. split; [reflexivity|].
  assert (Hld' : log_data L (mkLog ((sealObj E <$> os) ++ [a']) (sid a') (nextOffset (seg a')) false
                               (0 + length (os ++ [a']))) d' g).
  { apply (loaded_log L E d d' (segments cl)); try done; [|by rewrite H6]. intros b i. rewrite H5. apply Hdir. }
  split; [exact Hld'|]. by destruct (same_ends L d d' cl _ g Hld Hld' (eq_trans (loaded_bases E os a') (f_equal (fmap fst) H2))).
Qed.

(** C7: stopping the process at any point (the batch being written may be torn off, the
    index entries not yet synced are lost) and opening the directory again restores the
    log: [NewCommitLog] finds the same segments in order, cuts the torn bytes off, and
    holds exactly the batches that were completely written, with the same oldest and next
    offsets.  The encoded batches and the torn one are of at most 256 KB each (recovery
    never ends on a larger one, [segment_recover_hangs]), the segments of any size that
    the rounds of the recovery loop suffice for, and no compaction or merge was under way:
    the staging directory is empty, which [log_data] includes
    ([staging_crash_loses_segment]). *)
Theorem commitlog_crash_recovery L E cl d g a t mts :
  log_data L cl d g -> active cl = Some a -> torn L t ->
  Forall (fun e => Forall small e.1) g -> zlen t <= recoverChunkSize ->
  (forall o, o ∈ segments cl -> fitsRounds (rounds E) (ssize (seg o) + zlen t)) ->
  exists cl' d', NewCommitLog L E (crash d (ino a) t mts) = Ok (cl', d') /\ log_data L cl' d' g /\
    logNext cl' = logNext cl /\ OldestOffset cl' = OldestOffset cl.
Proof. apply recover_crash. Qed.

(** ** Lemmas: retention *)

Definition precedes (a b : segObj) : Prop :=
  sbase (seg a) < sbase (seg b) /\ nextOffset (seg a) <= sbase (seg b).

Lemma linked_strong l : linked l <-> StronglySorted precedes l.
Proof.
  split.
  - induction l as [|a l IH]; intros Hl; [constructor|]. constructor; [apply IH, Hl|].
    apply Forall_forall. intros b [j Hj]%list_elem_of_lookup.
    exact (linked_lookup (a :: l) 0 (S j) a b Hl ltac:(lia) eq_refl Hj).
  - induction 1 as [|a l _ IH Ha]; [done|]. split; [|done]. destruct l; [done|].
    by apply Forall_cons in Ha as [? _].
Qed.

Lemma StronglySorted_sublist {A} (R : relation A) l k :
  sublist k l -> StronglySorted R l -> StronglySorted R k.
Proof.
  induction 1 as [|x k l Hs IH|x k l Hs IH]; intros Hl; [done| |].
  - apply StronglySorted_inv in Hl as [Hl Hx]. constructor; [by apply IH|].
    apply Forall_forall. intros y Hy. rewrite Forall_forall in Hx. apply Hx.
    by eapply sublist_subseteq.
  - apply StronglySorted_inv in Hl as [Hl _]. by apply IH.
Qed.

(** Which segments the loop keeps, with what they hold. *)
Fixpoint kept (drop : Z -> segObj -> bool) (total : Z)
    (l : list (segObj * (list (list byte) * list RecordBatch))) : list (segObj * (list (list byte) * list RecordBatch)) :=
  match l with
  | [] => []
  | (o, e) :: l =>
      if drop total o then kept drop (total - ssize (seg o)) l else (o, e) :: kept drop total l
  end.

Lemma kept_sublist drop total l : sublist (kept drop total l) l.
Proof.
  revert total. induction l as [|[o e] l IH]; intros total; cbn; [constructor|].
  destruct (drop total o); by constructor.
Qed.

(** What removing a segment leaves of the others. *)
Definition forget (d : disk) (b : Z) : disk := mkDisk (delete b (dir d)) (staging d) (inodes d) (nextIno d).

Lemma Remove_ok L E d o e :
  holds L d o e -> exists fs, Remove E d o = Ok (forget (writeInode E d (ino o) fs) (sbase (seg o))).
Proof.
  intros [(fs & es & Hf & Hd & _) _]. unfold Remove, closeObj, segClose. rewrite Hf. cbn [mbind outcome_bind orPanic].
  unfold Index.Sync. pose proof (sd_dirty _ _ _ _ _ Hd). rewrite zslice_Some by lia. cbn [mbind option_bind].
  destruct (_ =? 0); cbn [mbind outcome_bind orPanic]; by eexists.
Qed.

Lemma holds_forget L d o e b : holds L d o e -> sbase (seg o) <> b -> holds L (forget d b) o e.
Proof.
  intros [Hf (Hm & Hd & Hb)] Hne. split; [exact Hf|]. split_and!; [done | | lia | lia].
  cbn. by rewrite lookup_delete_ne.
Qed.

Lemma disk_ok_forget d b : disk_ok d -> disk_ok (forget d b).
Proof.
  intros [H1 H2]. split; [exact H1|]. cbn. intros b' i Hi.
  apply lookup_delete_Some in Hi as [_ Hi]. by eapply H2.
Qed.

Lemma removeLoop_spec L E drop : forall l total d,
  Forall (fun oe => holds L d oe.1 oe.2) l -> NoDup (ino ∘ fst <$> l) -> NoDup (sbase ∘ seg ∘ fst <$> l) -> disk_ok d ->
  exists d', removeLoop E drop total l.*1 d = Ok ((kept drop total l).*1, d') /\ disk_ok d' /\
    staging d' = staging d /\
    (forall o e, holds L d o e -> ino o ∉ ino ∘ fst <$> l -> sbase (seg o) ∉ sbase ∘ seg ∘ fst <$> l -> holds L d' o e) /\
    Forall (fun oe => holds L d' oe.1 oe.2) (kept drop total l) /\
    (forall b i, dir d' !! b = Some i -> dir d !! b = Some i /\
       (b ∈ sbase ∘ seg ∘ fst <$> l -> b ∈ sbase ∘ seg ∘ fst <$> kept drop total l)).
Proof.
  induction l as [|[o e] l IH]; intros total d Hh Hi Hb Hok.
  { exists d. cbn. split_and!; try done. }
  cbn [fmap list_fmap fst] in *. apply Forall_cons in Hh as [Ho Hh].
  apply NoDup_cons in Hi as [Hi1 Hi], Hb as [Hb1 Hb]. cbn [compose fst] in Hi1, Hb1.
  cbn [removeLoop kept]. destruct (drop total o) eqn:Hd.
  - destruct (Remove_ok L E d o e Ho) as [fs ->]. cbn [mbind outcome_bind].
    set (d1 := forget _ _).
    assert (Hkeep : forall x ex, holds L d x ex -> ino x <> ino o -> sbase (seg x) <> sbase (seg o) -> holds L d1 x ex)
      by (intros; apply holds_forget; [by apply holds_write | done]).
    destruct (IH (total - ssize (seg o)) d1) as (d' & Hr & Hok' & Hst & Hoth & Hk & Hdir); try done.
    + apply Forall_forall. intros [x ex] Hx. rewrite Forall_forall in Hh. cbn. apply Hkeep.
      * exact (Hh _ Hx).
      * intros Ex. apply Hi1. apply list_elem_of_fmap. by exists (x, ex).
      * intros Ex. apply Hb1. apply list_elem_of_fmap. by exists (x, ex).
    + apply disk_ok_forget, disk_ok_write; [done|]. destruct Ho as [(f & ? & Hf & _) _]. by eapply getFiles_ino.
    + exists d'. split_and!; try done.
      * intros x ex Hx Hn1 Hn2. rewrite not_elem_of_cons in Hn1. rewrite not_elem_of_cons in Hn2. destruct Hn1, Hn2.
        apply Hoth; [by apply Hkeep | done | done].
      * intros b i Hbi. destruct (Hdir b i Hbi) as [H1 H2].
        cbn in H1. apply lookup_delete_Some in H1 as [Hne H1]. split; [done|].
        intros [E1|Hin]%elem_of_cons; [by destruct Hne | by apply H2].
  - destruct (IH total d Hh Hi Hb Hok) as (d' & Hr & Hok' & Hst & Hoth & Hk & Hdir).
    rewrite Hr. cbn [mbind outcome_bind]. exists d'. split_and!; try done.
    + intros x ex Hx Hn1 Hn2. rewrite not_elem_of_cons in Hn1. rewrite not_elem_of_cons in Hn2. destruct Hn1, Hn2. by apply Hoth.
    + constructor; [|done]. cbn. apply Hoth; done.
    + intros b i Hbi. destruct (Hdir b i Hbi) as [H1 H2]. split; [done|].
      cbn [fmap list_fmap]. rewrite !elem_of_cons. intros [Heq|Hin]; [by left | right; by apply H2].
Qed.

Lemma zip_fst_snd {A B} (l : list A) (k : list B) :
  length l = length k -> (zip l k).*1 = l /\ (zip l k).*2 = k.
Proof. intros Hl. split; [apply fst_zip | apply snd_zip]; lia. Qed.

Lemma sublist_fmap {A B} (f : A -> B) l k : sublist l k -> sublist (f <$> l) (f <$> k).
Proof. induction 1; cbn; by constructor. Qed.

(** The last element survives when the loop keeps it. *)
Lemma kept_last drop l o e total :
  (forall t, drop t o = false) -> exists l', kept drop total (l ++ [(o, e)]) = l' ++ [(o, e)].
Proof.
  intros Ho. revert total. induction l as [|[x ex] l IH]; intros total; cbn.
  - rewrite Ho. by exists [].
  - destruct (drop total x); [apply IH|]. destruct (IH total) as [l' ->]. by exists ((x, ex) :: l').
Qed.

(** Removing segments other than the active one keeps the log consistent. *)
Lemma remove_log_data L E drop total cl d g :
  log_data L cl d g -> (forall t o, isActive cl o = true -> drop t o = false) ->
  let k := kept drop total (zip (segments cl) g) in
  exists d', removeLoop E drop total (segments cl) d = Ok (k.*1, d') /\
    log_data L (setSegments cl k.*1) d' k.*2.
Proof.
  intros [Hsegs Hlk Hids Hfr Hin (pre & a & Hs & Ha & Hn) Hop Hdk Hdir Hst] Hact k.
  pose proof (Forall2_length _ _ _ Hsegs) as Hlen. destruct (zip_fst_snd _ _ Hlen) as [Hz1 Hz2].
  set (z := zip (segments cl) g) in *.
  assert (Hz : Forall (fun oe => holds L d oe.1 oe.2) z).
  { apply Forall_lookup. intros i [o e] Hi. cbn. unfold z in Hi. apply lookup_zip_with_Some in Hi as (x & y & [= -> ->] & Hx & Hy).
    by eapply Forall2_lookup_lr. }
  assert (Hcomp : forall {B} (f : segObj -> B), f ∘ fst <$> z = f <$> segments cl)
    by (intros; rewrite list_fmap_compose; by rewrite Hz1).
  destruct (linked_sorted _ Hlk) as [_ Hnb].
  destruct (removeLoop_spec L E drop z total d Hz) as (d' & Hr & Hok' & Hst' & _ & Hk & Hd');
    [by rewrite Hcomp | by rewrite (Hcomp _ (sbase ∘ seg)) | done |].
  rewrite Hz1 in Hr. fold k in Hr, Hk, Hd'. exists d'. split; [done|].
  pose proof (sublist_fmap fst _ _ (kept_sublist drop total z)) as Hsub. rewrite Hz1 in Hsub. fold k in Hsub.
  split; cbn [segments setSegments activeSegment logNext closed nextId]; try done.
  - clear -Hk. induction k as [|[o e] k IH]; [constructor|]. apply Forall_cons in Hk as [H1 H2].
    constructor; [done | by apply IH].
  - apply linked_strong. eapply StronglySorted_sublist; [exact Hsub|]. by apply linked_strong.
  - eapply sublist_NoDup; [exact Hids|]. by apply sublist_fmap.
  - apply Forall_forall. intros x Hx. rewrite Forall_forall in Hfr. apply Hfr. by eapply sublist_subseteq.
  - eapply sublist_NoDup; [exact Hin|]. by apply sublist_fmap.
  - assert (exists l e, z = l ++ [(a, e)]) as (l & e & Hze).
    { unfold z. rewrite Hs in Hlen |- *. rewrite Hs in Hsegs. apply Forall2_snoc_inv_l' in Hsegs as (g0 & e & -> & Hp & _).
      exists (zip pre g0), e. rewrite zip_with_app by (by eapply Forall2_length). done. }
    unfold k. rewrite Hze. destruct (kept_last drop l a e total) as [l' ->].
    { intros t0. apply Hact. unfold isActive. by rewrite Ha, Nat.eqb_refl. }
    exists l'.*1, a. rewrite fmap_app. done.
  - intros b i Hbi. destruct (Hd' b i Hbi) as [H1 H2]. destruct (Hdir b i H1) as (o & Ho & <-).
    specialize (H2 ltac:(rewrite (Hcomp _ (sbase ∘ seg)); by apply (list_elem_of_fmap_2 (sbase ∘ seg)))).
    apply list_elem_of_fmap in H2 as ([o' e'] & Eo & Ho'). exists o'. split; [|done].
    apply list_elem_of_fmap. by exists (o', e').
  - by rewrite Hst'.
Qed.

Lemma kept_after drop offset l : forall total,
  (forall t o, drop t o = true -> nextOffset (seg o) <= offset) ->
  (forall o e b, (o, e) ∈ l -> b ∈ e.2 -> BaseOffset b + RecordCount b <= nextOffset (seg o)) ->
  after offset (batches (kept drop total l).*2) = after offset (batches l.*2).
Proof.
  unfold batches. induction l as [|[o e] l IH]; intros total Hdrop Hb; [done|]. cbn [kept].
  assert (Hb' : forall o e b, (o, e) ∈ l -> b ∈ e.2 -> BaseOffset b + RecordCount b <= nextOffset (seg o))
    by (intros; eapply Hb; [by right | done]).
  destruct (drop total o) eqn:Hd; cbn [fmap list_fmap concat snd]; unfold after in *; rewrite filter_app.
  - rewrite IH by done. fold (after offset e.2). rewrite (after_nil offset e.2); [done|].
    intros b Hbe. specialize (Hdrop _ _ Hd). specialize (Hb o e b ltac:(left) Hbe). lia.
  - by rewrite filter_app, IH by done.
Qed.

(** C36: [DeleteBefore] removes whole segments only: everything at or after the given
    offset can still be read, the active segment and the next offset stay, a segment
    that remains reaches past the offset or is the active one, and the log (its
    directory included) stays consistent. *)
Theorem commitlog_DeleteBefore_safe L E cl d g offset :
  log_data L cl d g ->
  exists cl' d' g', DeleteBefore E cl d offset = Ok (cl', d') /\ log_data L cl' d' g' /\
    after offset (batches g') = after offset (batches g) /\
    logNext cl' = logNext cl /\ activeSegment cl' = activeSegment cl /\
    (forall o, o ∈ segments cl' -> offset < nextOffset (seg o) \/ sid o = activeSegment cl).
Proof.
  intros Hld. unfold DeleteBefore. set (drop := fun (_ : Z) o => (nextOffset (seg o) <=? offset) && negb (isActive cl o)).
  destruct (remove_log_data L E drop 0 cl d g Hld) as (d' & Hr & Hld').
  { intros t o Ho. unfold drop. rewrite Ho. by rewrite andb_false_r. }
  rewrite Hr. cbn [mbind outcome_bind]. do 3 eexists. split; [reflexivity|]. split; [exact Hld'|].
  pose proof (ld_segs _ _ _ _ Hld) as Hsegs. destruct (zip_fst_snd _ _ (Forall2_length _ _ _ Hsegs)) as [_ Hz2].
  split_and!; try done.
  - rewrite <- Hz2 at 2. apply kept_after.
    + unfold drop. intros t o Ho. apply andb_true_iff in Ho as [Ho _]. lia.
    + intros o e b [i Hi]%list_elem_of_lookup Hb. apply lookup_zip_with_Some in Hi as (x & y & [= -> ->] & Hx & Hy).
      exact (proj2 (holds_bounds _ _ _ _ _ (Forall2_lookup_lr _ _ _ _ _ _ Hsegs Hx Hy) Hb)).
  - cbn. intros o Ho. assert (Hk : forall l total, o ∈ (kept drop total l).*1 -> exists t, drop t o = false).
    { induction l as [|[x ex] l IH]; intros total; cbn; [by intros ?%elem_of_nil|].
      destruct (drop total x) eqn:Hx; [apply IH|]. cbn. intros [->|?]%elem_of_cons; [by exists total | by eapply IH]. }
    destruct (Hk _ _ Ho) as [t Hd]. unfold drop, isActive in Hd.
    destruct (Nat.eqb_spec (sid o) (activeSegment cl)); [by right|]. rewrite andb_true_r in Hd. left. lia.
Qed.

Lemma totalSize_cons o l : totalSize (o :: l) = ssize (seg o) + totalSize l.
Proof. done. Qed.

(** The loop of [EnforceRetention]. *)
Definition expired (cfg : Config) (cl : CommitLog) (cutoff total : Z) (o : segObj) : bool :=
  negb (isActive cl o) && ((created (seg o) <? cutoff) || (RetentionBytes cfg <? total)).

Lemma totalSize_kept drop total l :
  Forall (fun oe => 0 <= ssize (seg (fst oe))) l -> totalSize (kept drop total l).*1 <= totalSize l.*1.
Proof.
  revert total. induction l as [|[x ex] l IH]; intros total Hl; [done|].
  apply Forall_cons in Hl as [Hx Hl]. cbn [fst] in Hx. cbn [kept].
  pose proof (IH total Hl). pose proof (IH (total - ssize (seg x)) Hl).
  destruct (drop total x); rewrite !fmap_cons, !totalSize_cons in *; cbn [fst]; lia.
Qed.

Lemma kept_bound cfg cl cutoff l : forall total,
  Forall (fun oe => 0 <= ssize (seg (fst oe))) l ->
  totalSize (kept (expired cfg cl cutoff) total l).*1 - totalSize l.*1 + total <= RetentionBytes cfg \/
  Forall (fun o => isActive cl o = true) (kept (expired cfg cl cutoff) total l).*1.
Proof.
  induction l as [|[o e] l IH]; intros total Hl; [right; constructor|].
  pose proof Hl as Hl0. apply Forall_cons in Hl as [Ho Hl]. cbn [fst] in Ho. cbn [kept].
  destruct (expired cfg cl cutoff total o) eqn:Hd; rewrite !fmap_cons, ?totalSize_cons; cbn [fst].
  - destruct (IH (total - ssize (seg o)) Hl); [left; lia | by right].
  - destruct (isActive cl o) eqn:Ha.
    + destruct (IH total Hl); [left; lia | right; by constructor].
    + unfold expired in Hd. rewrite Ha in Hd. cbn in Hd. apply orb_false_iff in Hd as [_ Hd].
      left. pose proof (totalSize_kept (expired cfg cl cutoff) total l Hl). lia.
Qed.

Lemma kept_all cfg cl cutoff total l :
  Forall (fun oe => cutoff <= created (seg (fst oe))) l -> total <= RetentionBytes cfg ->
  kept (expired cfg cl cutoff) total l = l.
Proof.
  induction l as [|[o e] l IH]; intros Hl Ht; [done|]. apply Forall_cons in Hl as [Ho Hl]. cbn [fst] in Ho.
  cbn [kept]. unfold expired at 1. destruct (Z.ltb_spec (created (seg o)) cutoff); [lia|].
  destruct (Z.ltb_spec (RetentionBytes cfg) total); [lia|]. rewrite andb_false_r. f_equal. by apply IH.
Qed.

(** A list of distinct objects that are all the active one. *)
Lemma only_active L cl d g cl' d' g' :
  log_data L cl d g -> log_data L cl' d' g' -> activeSegment cl' = activeSegment cl ->
  segments cl' ⊆ segments cl -> Forall (fun o => isActive cl o = true) (segments cl') ->
  exists a, segments cl' = [a] /\ active cl = Some a.
Proof.
  intros Hld Hld' Hact Hsub Hall.
  destruct (ld_active _ _ _ _ Hld') as (pre & a & Hs & Ha & _). rewrite Hs in *.
  assert (Hpre : pre = []).
  { destruct pre as [|x pre]; [done|]. apply Forall_app in Hall as [[Hx _]%Forall_cons _].
    pose proof (ld_ids _ _ _ _ Hld') as Hnd. rewrite Hs in Hnd. cbn in Hnd.
    apply NoDup_cons in Hnd as [Hnd _]. destruct Hnd. unfold isActive in Hx. apply Nat.eqb_eq in Hx.
    rewrite Hx, <- Hact, <- Ha, fmap_app. apply elem_of_app. right. left. }
  subst pre. exists a. split; [done|].
  destruct (log_data_active _ _ _ _ Hld) as (pre0 & a0 & Hs0 & -> & _ & Ha0). f_equal.
  assert (Hin : a ∈ segments cl) by (apply Hsub; left).
  apply list_elem_of_lookup in Hin as [i Hi]. assert (Hj : segments cl !! length pre0 = Some a0) by (rewrite Hs0; by apply list_lookup_middle).
  assert (i = length pre0) as ->; [|congruence].
  eapply (NoDup_lookup (sid <$> segments cl)); [apply Hld | by rewrite list_lookup_fmap, Hi |].
  rewrite list_lookup_fmap, Hj. cbn. congruence.
Qed.

Lemma EnforceRetention_ok L cfg E cl d g :
  log_data L cl d g ->
  exists cl' d' g', EnforceRetention cfg E cl d = Ok (cl', d') /\ log_data L cl' d' g' /\
    sublist (segments cl') (segments cl) /\ logNext cl' = logNext cl /\ activeSegment cl' = activeSegment cl /\
    (totalSize (segments cl') <= RetentionBytes cfg \/ exists a, segments cl' = [a] /\ active cl = Some a) /\
    (totalSize (segments cl) <= RetentionBytes cfg ->
     Forall (fun o => now E - RetentionTime cfg <= created (seg o)) (segments cl) -> segments cl' = segments cl).
Proof.
  intros Hld. unfold EnforceRetention. set (cutoff := now E - RetentionTime cfg).
  change (fun total o => negb (isActive cl o) && ((created (seg o) <? cutoff) || (RetentionBytes cfg <? total)))
    with (expired cfg cl cutoff). set (total := totalSize (segments cl)).
  destruct (remove_log_data L E (expired cfg cl cutoff) total cl d g Hld) as (d' & Hr & Hld').
  { intros t o Ho. unfold expired. by rewrite Ho. }
  rewrite Hr. cbn [mbind outcome_bind]. do 3 eexists. split; [reflexivity|]. split; [exact Hld'|].
  pose proof (ld_segs _ _ _ _ Hld) as Hsegs. destruct (zip_fst_snd _ _ (Forall2_length _ _ _ Hsegs)) as [Hz1 _].
  set (z := zip (segments cl) g) in *. cbn [segments setSegments logNext activeSegment].
  assert (Hsub : sublist (kept (expired cfg cl cutoff) total z).*1 (segments cl))
    by (rewrite <- Hz1; apply sublist_fmap, kept_sublist).
  split_and!; try done.
  - assert (Hpos : Forall (fun oe => 0 <= ssize (seg (fst oe))) z).
    { apply Forall_lookup. intros i [o e] Hi. cbn. apply lookup_zip_with_Some in Hi as (x & y & [= -> ->] & Hx & Hy).
      destruct (Forall2_lookup_lr _ _ _ _ _ _ Hsegs Hx Hy) as [(fs & es & _ & Hda & _) _].
      rewrite (sd_size _ _ _ _ _ Hda). apply zlen_nonneg. }
    destruct (kept_bound cfg cl cutoff z total Hpos) as [Hle|Hact]; [left; rewrite Hz1 in Hle; fold total in Hle; lia|].
    right. apply (only_active L cl d g _ d' _ Hld Hld'); [done | by apply sublist_subseteq | done].
  - intros Hsz Hnew. rewrite kept_all; [done| |done]. apply Forall_forall. intros [o e] Ho.
    rewrite Forall_forall in Hnew. apply Hnew. rewrite <- Hz1. by apply (list_elem_of_fmap_2 fst) in Ho.
Qed.

(** [EnforceRetention] never removes the active segment and keeps the log consistent;
    afterwards the segments take no more than [RetentionBytes], or only the active one is
    left; and when the log is within the limit and nothing is too old, nothing goes. *)
Theorem commitlog_EnforceRetention_bounds L cfg E cl d g :
  log_data L cl d g ->
  exists cl' d' g', EnforceRetention cfg E cl d = Ok (cl', d') /\ log_data L cl' d' g' /\
    sublist (segments cl') (segments cl) /\ logNext cl' = logNext cl /\ activeSegment cl' = activeSegment cl /\
    (totalSize (segments cl') <= RetentionBytes cfg \/ exists a, segments cl' = [a] /\ active cl = Some a) /\
    (totalSize (segments cl) <= RetentionBytes cfg ->
     Forall (fun o => now E - RetentionTime cfg <= created (seg o)) (segments cl) -> segments cl' = segments cl).
Proof. apply EnforceRetention_ok. Qed.

(** C3: appending to the log: a batch within the format's limits (at most 65535 records,
    counted and numbered right, of at most 8 MB, that the compressor accepts if it is to be
    compressed) gets the next offset as its base, its records are numbered from it, and it
    is stored behind everything the log holds: in the active segment, or, when that is
    full, in a new segment that starts at the next offset, the full one being sealed and
    kept before it.  The next offset advances by the number of records, and the log stays
    consistent.  The write does not fail, the active segment's index is in step with its
    file ([log_ok]) and within its 32-bit offsets, and an active segment that is full holds
    data (rolling an empty one loses data: [commitlog_empty_roll_loses_data]). *)
Theorem commitlog_Append_appends L cfg E cl d g batch :
  lz4_ok L -> log_ok L cl d g -> fault E = None ->
  let b := assign (logNext cl) batch in
  encodable L b -> zlen (Records batch) <= maxRecordsPerBatch -> logNext cl + RecordCount b < 2 ^ 64 ->
  (forall a, active cl = Some a -> logNext cl - sbase (seg a) < 2 ^ 32 /\ ssize (seg a) < 2 ^ 64 /\
     (IsFull cfg (now E) (seg a) = true -> 0 < ssize (seg a))) ->
  exists cl' d' g' ct,
    Append L cfg E cl d batch = Ok (cl', d', inl (logNext cl)) /\ log_ok L cl' d' g' /\
    batches g' = batches g ++ [stored b ct] /\ logNext cl' = logNext cl + zlen (Records batch) /\
    exists enc, encodes L enc (stored b ct) /\ appended cfg E cl cl' g g' enc (stored b ct).
Proof. apply Append_ok. Qed.

(** ** A new log, witnesses and a finding *)

(** A new directory holds an empty log. *)
Lemma new_log_ok L E :
  exists cl d, NewCommitLog L E emptyDisk = Ok (cl, d) /\ log_ok L cl d [([], [])] /\ logNext cl = 0 /\
    exists a, active cl = Some a /\ sbase (seg a) = 0 /\ ssize (seg a) = 0 /\ created (seg a) = now E.
Proof.
  destruct (openObj_new L E emptyDisk 0 0 eq_refl) as (o & Ho & Eo). cbn in Ho.
  assert (Hnew : NewCommitLog L E emptyDisk = Ok (mkLog [o] 0 0 false 1,
    mkDisk {[0 := 0%nat]} ∅ {[0%nat := mkInode (mkFiles [] []) (now E)]} 1)).
  { unfold NewCommitLog. rewrite recoverStaging_id by done. change (baseOffsets emptyDisk) with (@nil Z).
    cbn [loadSegments mbind outcome_bind segments]. change (zlen (@nil segObj) =? 0) with true. cbn iota.
    unfold newSegment. cbn [nextId]. rewrite Ho. cbn. by rewrite Eo. }
  do 2 eexists. split; [exact Hnew|]. split; [|split; [done|]; exists o; rewrite Eo; done].
  assert (Hf : getFiles (mkDisk {[0 := 0%nat]} ∅ {[0%nat := mkInode (mkFiles [] []) (now E)]} 1) o = Some (mkFiles [] []))
    by (rewrite Eo; unfold getFiles; cbn; by rewrite lookup_singleton_eq).
  split; [split; cbn [segments activeSegment logNext closed nextId]; try done|].
  - constructor; [|constructor]. split.
    + exists (mkFiles [] []), []. split_and!; [exact Hf | rewrite Eo; apply empty_data | by split; try left].
    + rewrite Eo. cbn. rewrite lookup_singleton_eq. split_and!; [by left | done | lia | lia].
  - apply NoDup_singleton.
  - rewrite Eo. constructor; [cbn; lia | constructor].
  - apply NoDup_singleton.
  - exists [], o. rewrite Eo. done.
  - split; cbn.
    + intros i n. rewrite lookup_singleton_Some. intros [<- _]. lia.
    + intros b i. rewrite lookup_singleton_Some. intros [<- <-]. by rewrite lookup_singleton_eq.
  - intros b i. cbn. rewrite lookup_singleton_Some. intros [<- _]. exists o. rewrite Eo. split; [left | done].
  - exists o, (mkFiles [] []). rewrite Eo in *. split_and!; done.
Qed.

Definition env0 : env := mkEnv 50 true [] None 1.
Definition logConfig : Config := mkConfig 60 1000 100 1000 500 70 0 2 0 0.

Lemma noLz4_ok : lz4_ok noLz4.
Proof. intros src dst. discriminate. Qed.

Lemma sample_encodable base : 0 <= base < 2 ^ 63 -> encodable noLz4 (assign base (sampleBatch 9)).
Proof.
  intros Hb. split; [|split; [vm_compute; discriminate | discriminate]].
  split_and!; cbn; try lia; try done. repeat constructor; cbn; try lia; done.
Qed.

(** A batch appended to a new log is stored under offset 0. *)
Lemma commitlog_Append_appends_witness :
  exists cl d cl' d' g' ct, NewCommitLog noLz4 env0 emptyDisk = Ok (cl, d) /\
    Append noLz4 logConfig env0 cl d (sampleBatch 9) = Ok (cl', d', inl 0) /\ log_ok noLz4 cl' d' g' /\
    batches g' = [stored (assign 0 (sampleBatch 9)) ct] /\ logNext cl' = 2.
Proof.
  destruct (new_log_ok noLz4 env0) as (cl & d & Hn & Hok & H0 & a & Ha & Hb & Hs & Hc).
  destruct (commitlog_Append_appends noLz4 logConfig env0 cl d [([], [])] (sampleBatch 9) noLz4_ok Hok eq_refl)
    as (cl' & d' & g' & ct & Hap & Hok' & Hg & Hnx & enc & _ & Hwh).
  - rewrite H0. apply sample_encodable. lia.
  - vm_compute. discriminate.
  - rewrite H0. vm_compute. reflexivity.
  - intros a' Ha'. rewrite Ha in Ha'. injection Ha' as <-. rewrite H0, Hb, Hs. split; [lia|]. split; [lia|].
    unfold IsFull. rewrite Hs, Hc. vm_compute. discriminate.
  - exists cl, d, cl', d', g', ct. rewrite H0 in *. split; [exact Hn|]. split; [exact Hap|]. split; [exact Hok'|].
    split; [exact Hg|]. exact Hnx.
Defined.

(** The log of the following witnesses: three batches in two segments. *)
Definition force {A} (x : A) (m : outcome A) : A := match m with Ok a => a | _ => x end.
Definition log0 : CommitLog * disk := force (mkLog [] 0 0 false 0, emptyDisk) (NewCommitLog noLz4 env0 emptyDisk).
Definition appendSample (l : CommitLog * disk) : CommitLog * disk :=
  fst (force (l, inl 0) (Append noLz4 logConfig env0 l.1 l.2 (sampleBatch 0))).
Definition log3 : CommitLog * disk := appendSample (appendSample (appendSample log0)).

Lemma log0_ok : log_ok noLz4 log0.1 log0.2 [([], [])].
Proof.
  destruct (new_log_ok noLz4 env0) as (cl & d & Hn & Hok & _). unfold log0. rewrite Hn. exact Hok.
Qed.

Lemma appendSample_ok l g base a :
  log_ok noLz4 l.1 l.2 g -> logNext l.1 = base -> 0 <= base < 2 ^ 62 -> active l.1 = Some a ->
  base - sbase (seg a) < 2 ^ 32 /\ ssize (seg a) < 2 ^ 64 /\ 0 < ssize (seg a) \/
  (sbase (seg a) = base /\ ssize (seg a) = 0 /\ IsFull logConfig (now env0) (seg a) = false) ->
  exists g' ct, log_ok noLz4 (appendSample l).1 (appendSample l).2 g' /\
    batches g' = batches g ++ [stored (assign base (sampleBatch 9)) ct].
Proof.
  intros Hok Hn Hb Ha Hroom.
  destruct (Append_ok noLz4 logConfig env0 l.1 l.2 g (sampleBatch 0) noLz4_ok Hok eq_refl)
    as (cl' & d' & g' & ct & Hap & Hok' & Hg & _).
  - rewrite Hn. apply (sample_encodable base). lia.
  - done.
  - rewrite Hn. change (base + 2 < 2 ^ 64). lia.
  - intros a' Ha'. rewrite Ha in Ha'. injection Ha' as <-. rewrite Hn.
    destruct Hroom as [(? & ? & ?)|(-> & -> & ->)]; [done|]. split_and!; [lia | lia | done].
  - exists g', ct. unfold appendSample. rewrite Hap. cbn [force fst]. split; [done|]. by rewrite Hg, Hn.
Qed.

Lemma log3_ok :
  exists g c0 c1 c2, log_ok noLz4 log3.1 log3.2 g /\
    batches g = [stored (assign 0 (sampleBatch 9)) c0; stored (assign 2 (sampleBatch 9)) c1;
                 stored (assign 4 (sampleBatch 9)) c2].
Proof.
  assert (H1 : logNext log0.1 = 0 /\ exists a, active log0.1 = Some a /\ sbase (seg a) = 0 /\ ssize (seg a) = 0 /\
    IsFull logConfig (now env0) (seg a) = false) by (split; [reflexivity|]; by eexists).
  assert (H2 : let l := appendSample log0 in logNext l.1 = 2 /\ exists a, active l.1 = Some a /\ sbase (seg a) = 0 /\ ssize (seg a) = 51)
    by (vm_compute; split; [reflexivity|]; by eexists).
  assert (H3 : let l := appendSample (appendSample log0) in logNext l.1 = 4 /\ exists a, active l.1 = Some a /\ sbase (seg a) = 0 /\ ssize (seg a) = 102)
    by (vm_compute; split; [reflexivity|]; by eexists).
  destruct H1 as (N1 & a1 & A1 & B1 & S1 & F1), H2 as (N2 & a2 & A2 & B2 & S2), H3 as (N3 & a3 & A3 & B3 & S3).
  assert (R0 : 0 <= 0 < 2 ^ 62) by (split; [discriminate | reflexivity]).
  assert (R2 : 0 <= 2 < 2 ^ 62) by (split; [discriminate | reflexivity]).
  assert (R4 : 0 <= 4 < 2 ^ 62) by (split; [discriminate | reflexivity]).
  destruct (appendSample_ok log0 _ 0 a1 log0_ok N1 R0 A1 (or_intror (conj B1 (conj S1 F1)))) as (g1 & c0 & Hok1 & E1).
  destruct (appendSample_ok (appendSample log0) _ 2 a2 Hok1 N2 R2 A2) as (g2 & c1 & Hok2 & E2).
  { left. rewrite B2, S2. split_and!; reflexivity. }
  destruct (appendSample_ok (appendSample (appendSample log0)) _ 4 a3 Hok2 N3 R4 A3) as (g3 & c2 & Hok3 & E3).
  { left. rewrite B3, S3. split_and!; reflexivity. }
  exists g3, c0, c1, c2. split; [exact Hok3|]. by rewrite E3, E2, E1.
Qed.

(** Reading at offset 3 starts with the batch of offsets 2 and 3. *)
Lemma commitlog_Read_correct_witness :
  exists r c, Read noLz4 log3.1 log3.2 3 1000 = Ok r /\ head r = Some (stored (assign 2 (sampleBatch 9)) c).
Proof.
  destruct log3_ok as (g & c0 & c1 & c2 & [Hld _] & Hg).
  destruct (commitlog_Read_correct noLz4 log3.1 log3.2 g 3 1000 Hld) as (r & rest & Hr & _ & Hin).
  - vm_compute. discriminate.
  - discriminate.
  - intros o Ho. vm_compute in Ho. injection Ho as <-. vm_compute. reflexivity.
  - exists r, c1. split; [exact Hr|]. apply Hin.
    + intros o Ho. vm_compute in Ho. injection Ho as <-. vm_compute. discriminate.
    + rewrite Hg. right. left.
    + vm_compute. split; [discriminate | reflexivity].
Defined.

Lemma log3_segments :
  exists a, active log3.1 = Some a /\
  forall o, o ∈ segments log3.1 -> fitsRounds (rounds env0) (ssize (seg o) + zlen (ztake 17 (sampleEnc 6))).
Proof.
  destruct (active log3.1) as [a|] eqn:Ha; [|vm_compute in Ha; discriminate Ha]. exists a. split; [done|].
  assert (Hs : ssize ∘ seg <$> segments log3.1 = [102; 51]) by (vm_compute; reflexivity).
  assert (Ht : zlen (ztake 17 (sampleEnc 6)) = 17) by (vm_compute; reflexivity).
  intros o Ho. apply (list_elem_of_fmap_2 (ssize ∘ seg)) in Ho. rewrite Hs in Ho. rewrite Ht.
  apply list_elem_of_In in Ho. cbn [compose] in Ho. destruct Ho as [<- | [<- | []]]; (split; [by left | done]).
Qed.

(** In a log whose segments are at most 256 KB every batch is. *)
Lemma short_log_small L cl d g :
  log_data L cl d g -> (forall o, o ∈ segments cl -> ssize (seg o) <= recoverChunkSize) ->
  Forall (fun e => Forall small e.1) g.
Proof.
  intros Hld Hsz. apply Forall_lookup. intros k e Hk.
  destruct (Forall2_lookup_r _ _ _ _ _ (ld_segs _ _ _ _ Hld) Hk) as (o & Ho & (fs & es & _ & Hda & _) & _).
  specialize (Hsz o (list_elem_of_lookup_2 _ _ _ Ho)). rewrite (sd_size _ _ _ _ _ Hda) in Hsz.
  apply Forall_lookup. intros j enc Hj. unfold small. rewrite (take_concat j e.1), (drop_S _ _ _ Hj) in Hsz.
  cbn [concat] in Hsz. rewrite !zlen_app in Hsz. pose proof (zlen_nonneg (concat (take j e.1))).
  pose proof (zlen_nonneg (concat (drop (S j) e.1))). lia.
Qed.

Lemma log3_small g : log_data noLz4 log3.1 log3.2 g -> Forall (fun e => Forall small e.1) g.
Proof.
  intros Hld. apply (short_log_small _ _ _ _ Hld). intros o Ho. apply (list_elem_of_fmap_2 (ssize ∘ seg)) in Ho.
  assert (Hs : ssize ∘ seg <$> segments log3.1 = [102; 51]) by (vm_compute; reflexivity). rewrite Hs in Ho.
  apply list_elem_of_In in Ho. cbn [compose] in Ho. destruct Ho as [<- | [<- | []]]; done.
Qed.

(** Three batches survive a crash in the middle of a fourth. *)
Lemma commitlog_crash_recovery_witness :
  exists a cl' d' g, active log3.1 = Some a /\ length (batches g) = 3%nat /\
    NewCommitLog noLz4 env0 (crash log3.2 (ino a) (ztake 17 (sampleEnc 6)) (fun _ => 7)) = Ok (cl', d') /\
    log_data noLz4 cl' d' g /\ logNext cl' = 6.
Proof.
  destruct log3_ok as (g & c0 & c1 & c2 & [Hld _] & Hg). destruct log3_segments as (a & Ha & Hsz).
  destruct (commitlog_crash_recovery noLz4 env0 log3.1 log3.2 g a (ztake 17 (sampleEnc 6)) (fun _ => 7) Hld Ha)
    as (cl' & d' & Hn & Hld' & Hnx & _).
  - apply (torn_prefix noLz4 _ (sampleBatch 6)); [apply sample_encodes; lia|]. split; vm_compute; congruence.
  - exact (log3_small g Hld).
  - vm_compute. discriminate.
  - exact Hsz.
  - exists a, cl', d', g. split; [exact Ha|]. rewrite Hg. split; [reflexivity|]. split; [exact Hn|].
    split; [exact Hld'|]. rewrite Hnx. vm_compute. reflexivity.
Defined.

Lemma commitlog_DeleteBefore_safe_witness :
  exists cl' d', DeleteBefore env0 log3.1 log3.2 4 = Ok (cl', d') /\ logNext cl' = 6 /\
    (forall o, o ∈ segments cl' -> 4 < nextOffset (seg o) \/ sid o = activeSegment log3.1).
Proof.
  destruct log3_ok as (g & c0 & c1 & c2 & [Hld _] & Hg).
  destruct (commitlog_DeleteBefore_safe noLz4 env0 log3.1 log3.2 g 4 Hld) as (cl' & d' & g' & Hd & _ & _ & Hn & _ & Ho).
  exists cl', d'. split; [exact Hd|]. split; [rewrite Hn; vm_compute; reflexivity | exact Ho].
Defined.

Lemma commitlog_EnforceRetention_bounds_witness :
  exists cl' d', EnforceRetention logConfig env0 log3.1 log3.2 = Ok (cl', d') /\ logNext cl' = 6 /\
    (totalSize (segments cl') <= 70 \/ exists a, segments cl' = [a] /\ active log3.1 = Some a).
Proof.
  destruct log3_ok as (g & c0 & c1 & c2 & [Hld _] & Hg).
  destruct (commitlog_EnforceRetention_bounds noLz4 logConfig env0 log3.1 log3.2 g Hld)
    as (cl' & d' & g' & Hd & _ & _ & Hn & _ & Ho & _).
  exists cl', d'. split; [exact Hd|]. split; [rewrite Hn; vm_compute; reflexivity | exact Ho].
Defined.

(** An active segment that is empty when it exceeds [MaxSegmentAge] is rolled to a
    segment with the same base offset, so two segment objects share the same files.  When
    retention later expires the first object, it deletes the files by name under the
    second: the batch written there is gone after a restart, and its offset is given out
    again. *)
Theorem commitlog_empty_roll_loses_data :
  let at_ t := mkEnv t true [] None 1 in
  (('(cl, d) ← NewCommitLog noLz4 (at_ 0) emptyDisk;
    '(cl, d, r) ← Append noLz4 logConfig (at_ 2000) cl d (sampleBatch 0);
    '(cl, d) ← EnforceRetention logConfig (at_ 2100) cl d;
    '(cl', d') ← NewCommitLog noLz4 (at_ 2200) d;
    Ok (r, (fun o => (sbase (seg o), ino o)) <$> segments cl, logNext cl, size (dir d), logNext cl'))
) = Ok (inl 0, [(0, 0%nat)], 2, 0%nat, 0).
Proof. vm_compute. reflexivity. Qed.
