(* ===== verification/Consumer.v ===== *)
(** * Consumer: reading a topic with a stored position
      (src/pkg/mq/forge/consumer.go, offset_store.go)

    A consumer reads records from its offset on and commits the offset to a file per
    group and topic.  The offset store is a map from paths to file contents; a path is
    the pair of the sanitized group and topic.  Commit writes a temporary file and
    renames it, so a path holds the old or the new content whatever fails on the way.
    The spin lock makes each method one step; metrics hooks have no effect on the state. *)
From stdpp Require Import base list option gmap.
From Stdlib Require Import ZArith Lia.
From S2P Require Import Prelude Endian Codec Index Segment CommitLog.

(** ** Definitions: offset store *)

Definition offsetByteSize : Z := 8.

(** [strings.ReplaceAll] with a non-empty pattern: leftmost, not overlapping.  Every
    round consumes a byte, so as many rounds as bytes are enough. *)
Fixpoint replaceLoop (fuel : nat) (old new s : list byte) : list byte :=
  match fuel with
  | O => s
  | S f =>
      match s with
      | [] => []
      | c :: s' =>
          if bool_decide (take (length old) s = old)
          then new ++ replaceLoop f old new (drop (length old) s)
          else c :: replaceLoop f old new s'
      end
  end.
Definition ReplaceAll (s old new : list byte) : list byte := replaceLoop (S (length s)) old new s.

(** NUL, '/', '.' and '_'. *)
Definition nul : byte := 0.
Definition slash : byte := 47.
Definition dot : byte := 46.
Definition underscore : byte := 95.

Definition sanitizeName (name : list byte) : list byte :=
  if bool_decide (name = []) then [underscore] else
  let name := ReplaceAll name [nul] [underscore] in
  let name := ReplaceAll name [slash] [underscore] in
  ReplaceAll name [dot; dot] [underscore].

Abbreviation offsetFiles := (gmap (list byte * list byte) (list byte)).

Definition path (group topic : list byte) : list byte * list byte := (sanitizeName group, sanitizeName topic).

(** [OffsetStore.Commit]; [fault] is a failing write, sync or rename. *)
Definition storeCommit (fault : bool) (fs : offsetFiles) (group topic : list byte) (offset : Z)
    : offsetFiles * option ferror :=
  if fault then (fs, Some ErrIO) else (<[path group topic := be 8 offset]> fs, None).

Definition storeLoad (fs : offsetFiles) (group topic : list byte) : Z :=
  match fs !! path group topic with
  | None => 0
  | Some data => if zlen data <? offsetByteSize then 0 else unbe (ztake 8 data)
  end.

(** ** Definitions: consumer *)

Definition estimatedBytesPerRecord : Z := 256.
Definition minReadBytes : Z := 4096.

Record Consumer := mkConsumer { cgroup : list byte; ctopic : list byte; coffset : Z }.

Definition NewConsumer (fs : offsetFiles) (group topic : list byte) : Consumer :=
  mkConsumer group topic (storeLoad fs group topic).

Definition setOffset (c : Consumer) (o : Z) : Consumer := mkConsumer (cgroup c) (ctopic c) o.

(** The loops of [Poll]; [inl] is the early return when enough records are collected. *)
Fixpoint pollRecords (maxRecords base off : Z) (recs acc : list Record_) : (list Record_ * Z) + list Record_ :=
  match recs with
  | [] => inr acc
  | rec :: recs =>
      let absOffset := u64 (base + u64 (OffsetDelta rec)) in
      if absOffset <? off then pollRecords maxRecords base off recs acc else
      let acc := acc ++ [rec] in
      if maxRecords <=? zlen acc then inl (acc, u64 (absOffset + 1))
      else pollRecords maxRecords base off recs acc
  end.
Fixpoint pollBatches (maxRecords off : Z) (bs : list RecordBatch) (acc : list Record_) : list Record_ * Z :=
  match bs with
  | [] => (acc, off)
  | b :: bs =>
      match pollRecords maxRecords (BaseOffset b) off (Records b) acc with
      | inl r => r
      | inr acc => pollBatches maxRecords (u64 (BaseOffset b + RecordCount b)) bs acc
      end
  end.

Definition readLimit (maxRecords : Z) : Z :=
  let maxBytes := i64 (maxRecords * estimatedBytesPerRecord) in
  if maxBytes <? minReadBytes then minReadBytes else maxBytes.

(** [make] panics on a negative capacity. *)
Definition Poll (L : lz4) (cl : CommitLog) (d : disk) (c : Consumer) (maxRecords : Z)
    : outcome (list Record_ * Consumer) :=
  batches ← Read L cl d (coffset c) (readLimit maxRecords);
  if maxRecords <? 0 then Panic else
  let '(records, off) := pollBatches maxRecords (coffset c) batches [] in
  Ok (records, setOffset c off).

Definition Commit (fault : bool) (fs : offsetFiles) (c : Consumer) : offsetFiles * option ferror :=
  storeCommit fault fs (cgroup c) (ctopic c) (coffset c).
Definition Seek (c : Consumer) (offset : Z) : Consumer := setOffset c offset.
Definition SeekToBeginning (cl : CommitLog) (c : Consumer) : Consumer := setOffset c (OldestOffset cl).
Definition SeekToEnd (cl : CommitLog) (c : Consumer) : Consumer := setOffset c (NewestOffset cl).
Definition Offset (c : Consumer) : Z := coffset c.

(** [Nack]: the record as it goes to the dead-letter queue. *)
Definition dlqOriginalTopicKey : list byte :=
  [102; 111; 114; 103; 101; 45; 111; 114; 105; 103; 105; 110; 97; 108; 45; 116; 111; 112; 105; 99].
Definition nackHeaders (c : Consumer) (rec : Record_) : list Header :=
  Headers rec ++ [mkHeader (Some dlqOriginalTopicKey) (Some (ctopic c))].

(** ** Specification *)

Fixpoint numberedFrom (n : Z) (recs : list Record_) : Prop :=
  match recs with [] => True | r :: recs => OffsetDelta r = n /\ numberedFrom (n + 1) recs end.
(** A batch as [Append] stores it: the records are counted and numbered. *)
Definition numbered (b : RecordBatch) : Prop :=
  RecordCount b = zlen (Records b) /\ numberedFrom 0 (Records b).

Fixpoint offsetsFrom (o : Z) (recs : list Record_) : list (Z * Record_) :=
  match recs with [] => [] | r :: recs => (o, r) :: offsetsFrom (o + 1) recs end.
Definition recordsOf (bs : list RecordBatch) : list (Z * Record_) :=
  concat ((fun b => offsetsFrom (BaseOffset b) (Records b)) <$> bs).
(** The records a consumer at [off] has still to see, with their offsets. *)
Definition pending (off : Z) (bs : list RecordBatch) : list (Z * Record_) :=
  filter (fun p => off <= p.1) (recordsOf bs).

(** Batches follow one another in offset order and stay within 64 bits. *)
Definition batch_range (b : RecordBatch) : Prop :=
  0 <= BaseOffset b /\ 0 < RecordCount b /\ BaseOffset b + RecordCount b < 2 ^ 64.
Fixpoint ordered (bs : list RecordBatch) : Prop :=
  match bs with
  | [] => True
  | b :: bs => batch_range b /\ Forall (fun c => BaseOffset b + RecordCount b <= BaseOffset c) bs /\ ordered bs
  end.

(** ** Lemmas *)

Lemma offsetsFrom_bounds recs : forall o p, p ∈ offsetsFrom o recs -> o <= p.1 < o + zlen recs.
Proof.
  induction recs as [|r recs IH]; intros o p; cbn; [by intros ?%elem_of_nil|].
  unfold zlen in *. cbn. intros [->|Hp]%elem_of_cons; cbn; [lia|]. apply IH in Hp. lia.
Qed.

Lemma filter_all {A} (P : A -> Prop) `{!forall x, Decision (P x)} (l : list A) :
  Forall P l -> filter P l = l.
Proof. induction 1; cbn; [done|]. rewrite decide_True by done. by f_equal. Qed.
Lemma filter_none {A} (P : A -> Prop) `{!forall x, Decision (P x)} (l : list A) :
  Forall (fun x => ~ P x) l -> filter P l = [].
Proof. induction 1; cbn; [done|]. by rewrite decide_False. Qed.

Lemma pending_cons off b bs :
  pending off (b :: bs) = filter (fun p => off <= p.1) (offsetsFrom (BaseOffset b) (Records b)) ++ pending off bs.
Proof. unfold pending, recordsOf. cbn. by rewrite filter_app. Qed.

Lemma recordsOf_bounds lo bs p :
  Forall (fun c => lo <= BaseOffset c) bs -> p ∈ recordsOf bs -> lo <= p.1.
Proof.
  intros Hlo. unfold recordsOf. intros (l & Hp%list_elem_of_In & Hl%list_elem_of_In)%list_elem_of_In%in_concat.
  apply list_elem_of_fmap in Hp as (b & -> & Hb). apply offsetsFrom_bounds in Hl.
  rewrite Forall_forall in Hlo. specialize (Hlo b Hb). cbn in Hlo. lia.
Qed.

Lemma pending_all off lo bs : Forall (fun c => lo <= BaseOffset c) bs -> off <= lo -> pending off bs = recordsOf bs.
Proof.
  intros Hlo Hoff. apply filter_all, Forall_forall. intros p Hp.
  pose proof (recordsOf_bounds _ _ _ Hlo Hp). cbn in *. lia.
Qed.

(** A batch that ends at or before the offset has nothing pending. *)
Lemma pending_done off b :
  numbered b -> BaseOffset b + RecordCount b <= off ->
  filter (fun p => off <= p.1) (offsetsFrom (BaseOffset b) (Records b)) = [].
Proof.
  intros [Hc _] Hoff. apply filter_none, Forall_forall. intros p Hp%offsetsFrom_bounds. cbn. lia.
Qed.

Lemma pending_after off0 off bs :
  Forall numbered bs -> off0 <= off -> pending off (after off0 bs) = pending off bs.
Proof.
  intros Hn Hoff. unfold after. induction Hn as [|b bs Hb Hn IH]; [done|]. rewrite filter_cons. case_decide.
  - by rewrite !pending_cons, IH.
  - rewrite pending_cons, (pending_done off b) by (done || lia). exact IH.
Qed.

(** The inner loop of [Poll]: it takes everything pending of the batch, or stops at the
    record that fills the request. *)
Lemma pollRecords_spec maxRecords base off : forall recs n acc,
  0 <= maxRecords -> 0 <= n -> 0 <= base -> base + n + zlen recs < 2 ^ 64 -> numberedFrom n recs ->
  zlen acc < Z.max 1 maxRecords ->
  let ps := filter (fun p => off <= p.1) (offsetsFrom (base + n) recs) in
  (pollRecords maxRecords base off recs acc = inr (acc ++ ps.*2) /\ zlen acc + zlen ps < Z.max 1 maxRecords) \/
  (exists k o, pollRecords maxRecords base off recs acc = inl (acc ++ (take k ps).*2, o) /\
     off < o /\ base + n < o <= base + n + zlen recs /\ zlen acc + Z.of_nat k = Z.max 1 maxRecords /\ (k <= length ps)%nat /\
     filter (fun p => o <= p.1) (offsetsFrom (base + n) recs) = drop k ps).
Proof.
  induction recs as [|r recs IH]; intros n acc Hm Hn Hb Hlt Hnum Hacc ps.
  { left. subst ps. cbn. by rewrite app_nil_r, Z.add_0_r. }
  subst ps. destruct Hnum as [Hr Hnum]. change (zlen (r :: recs)) with (Z.of_nat (S (length recs))) in *.
  assert (Hz : Z.of_nat (S (length recs)) = 1 + zlen recs) by (unfold zlen; lia). rewrite Hz in *.
  pose proof (zlen_nonneg recs) as Hpos'. pose proof (zlen_nonneg acc) as Hpos. cbn [pollRecords offsetsFrom]. rewrite Hr, (u64_small n), (u64_small (base + n)) by lia.
  replace (base + n + 1) with (base + (n + 1)) by lia. specialize (IH (n + 1)).
  destruct (Z.ltb_spec (base + n) off).
  - rewrite (filter_cons_False (fun p => off <= p.1)) by (cbn; lia).
    destruct (IH acc) as [[-> H1]|(k & o & -> & Ho & Ho' & Hk & Hkl & Hf)]; try (done || lia); [by left|].
    right. exists k, o. split_and!; try (done || lia). rewrite (filter_cons_False (fun p => o <= p.1)) by (cbn; lia). exact Hf.
  - rewrite (filter_cons_True (fun p => off <= p.1)) by (cbn; lia).
    destruct (Z.leb_spec maxRecords (zlen (acc ++ [r]))) as [Hfull|Hroom]; rewrite zlen_app in *; change (zlen [r]) with 1 in *.
    + right. exists 1%nat, (base + (n + 1)). rewrite u64_small by lia. cbn [take drop].
      split_and!; try (done || lia); [cbn; lia|]. rewrite (filter_cons_False (fun p => base + (n + 1) <= p.1)) by (cbn; lia).
      rewrite !filter_all; [done|..]; apply Forall_forall; intros p Hp%offsetsFrom_bounds; cbn in *; lia.
    + destruct (IH (acc ++ [r])) as [[-> H1]|(k & o & -> & Ho & Ho' & Hk & Hkl & Hf)];
        try (done || lia); [rewrite zlen_app; change (zlen [r]) with 1; lia | |];
        rewrite zlen_app in *; change (zlen [r]) with 1 in *; rewrite <- app_assoc.
      * left. split; [done|]. unfold zlen in *. cbn [length]. lia.
      * right. exists (S k), o. split_and!; try (done || lia); [cbn; lia|].
        rewrite (filter_cons_False (fun p => o <= p.1)) by (cbn; lia). exact Hf.
Qed.

(** The loop over the batches: what it returns is the front of the pending records, and
    the new offset leaves exactly the others pending. *)
Lemma pollBatches_spec maxRecords N rest : forall bs off acc,
  0 <= maxRecords -> off <= N -> Forall (fun b => BaseOffset b + RecordCount b <= N) bs -> ordered (bs ++ rest) -> Forall numbered (bs ++ rest) ->
  Forall (fun b => off < BaseOffset b + RecordCount b) (bs ++ rest) -> zlen acc < Z.max 1 maxRecords ->
  exists (k : nat) (off' : Z), pollBatches maxRecords off bs acc = (acc ++ (take k (pending off (bs ++ rest))).*2, off') /\
    off <= off' <= N /\ pending off' (bs ++ rest) = drop k (pending off (bs ++ rest)) /\
    zlen acc + Z.of_nat k <= Z.max 1 maxRecords /\ (bs = [] \/ off < off').
Proof.
  induction bs as [|b bs IH]; intros off acc Hm HN HNs Ho Hn Ha Hacc.
  { exists 0%nat, off. cbn [take pollBatches fmap list_fmap]. rewrite app_nil_r, drop_0. split_and!; (done || lia || by left). }
  apply Forall_cons in HNs as [HNb HNs].
  destruct Ho as ((Hb1 & Hb2 & Hb3) & Hlo & Ho). apply Forall_cons in Hn as [[Hc Hnum] Hn].
  apply Forall_cons in Ha as [Hab Ha]. cbn [app pollBatches]. fold (bs ++ rest).
  rewrite (u64_small (BaseOffset b + RecordCount b)) by lia.
  pose proof (pollRecords_spec maxRecords (BaseOffset b) off (Records b) 0 acc Hm) as Hp. rewrite !Z.add_0_r in Hp.
  rewrite !pending_cons.
  destruct (Hp ltac:(lia) Hb1 ltac:(lia) Hnum Hacc) as [[-> Hlt]|(k & o & -> & Ho1 & Ho2 & Hk & Hkl & Hf)]; clear Hp;
    set (ps := filter _ _) in *.
  - destruct (IH (BaseOffset b + RecordCount b) (acc ++ ps.*2) Hm HNb HNs Ho Hn) as (k & off' & -> & Hle & Hd & Hkk & _).
    { apply Forall_forall. intros c Hcc. rewrite Forall_forall in Hlo. pose proof (Hlo c Hcc). cbn in *.
      clear -Ho Hcc H. induction (bs ++ rest) as [|x l IHl]; [by apply elem_of_nil in Hcc|].
      destruct Ho as ([_ [Hx _]] & _ & Ho). apply elem_of_cons in Hcc as [->|Hcc]; [lia | by apply IHl]. }
    { rewrite zlen_app. unfold zlen in *. rewrite length_fmap. lia. }
    exists (length ps + k)%nat, off'. rewrite (pending_all off (BaseOffset b + RecordCount b) (bs ++ rest)) by (done || lia).
    rewrite (pending_all (BaseOffset b + RecordCount b) _ (bs ++ rest) Hlo) in * by lia.
    rewrite take_app_add, drop_app_add, fmap_app, <- app_assoc by done.
    split_and!; try (done || lia).
    + rewrite pending_cons, (pending_done off' b) by (done || lia). exact Hd.
    + rewrite zlen_app in Hkk. unfold zlen in *. rewrite length_fmap in Hkk. lia.
  - exists k, o.
    rewrite take_app_le, drop_app_le by done. split_and!; try (done || lia).
    rewrite pending_cons, Hf. f_equal. rewrite !(pending_all _ (BaseOffset b + RecordCount b)) by (done || lia). done.
Qed.

Lemma ordered_app bs cs :
  ordered bs -> ordered cs ->
  (forall b c, b ∈ bs -> c ∈ cs -> BaseOffset b + RecordCount b <= BaseOffset c) -> ordered (bs ++ cs).
Proof.
  induction bs as [|b bs IH]; intros Hb Hc Hx; [done|]. destruct Hb as (Hr & Hf & Hb). cbn [app ordered].
  split_and!; [done | | apply IH; try done; intros; apply Hx; [by right | done]].
  apply Forall_app. split; [done|]. apply Forall_forall. intros c Hcc. apply Hx; [by left | done].
Qed.

Lemma ordered_sublist bs cs : sublist bs cs -> ordered cs -> ordered bs.
Proof.
  induction 1 as [|b bs cs Hs IH|b bs cs Hs IH]; cbn; [done| |]; intros (Hr & Hf & Ho); [|by apply IH].
  split_and!; [done | | by apply IH]. rewrite Forall_forall in Hf |- *. intros c Hc. apply Hf.
  by eapply (sublist_subseteq bs).
Qed.

Lemma chained_ordered bs : forall o, chained o bs -> ordered bs.
Proof.
  induction bs as [|b bs IH]; intros o Hc; [done|]. cbn in Hc. destruct Hc as (<- & H0 & H1 & H2 & Hc).
  split_and!; [done | | by eapply IH]. apply Forall_forall. intros c Hin. by eapply chained_bounds.
Qed.

Lemma log_ordered L cl d g : log_data L cl d g -> ordered (batches g).
Proof.
  intros Hd. pose proof (ld_segs _ _ _ _ Hd) as Hs. pose proof (ld_linked _ _ _ _ Hd) as Hl. clear Hd.
  revert Hl. induction Hs as [|o e os g Ho Hs IH]; intros Hl; [done|]. unfold batches. cbn [fmap list_fmap concat].
  fold (batches g). apply ordered_app.
  - destruct Ho as [(fs & es & _ & Hda & _) _]. eapply chained_ordered, Hda.
  - apply IH. by destruct Hl.
  - intros b c Hb (j & e' & Hj & Hc)%batches_lookup. destruct (Forall2_lookup_r _ _ _ _ _ Hs Hj) as (o' & Ho' & Hh').
    destruct (holds_bounds _ _ _ _ _ Ho Hb) as [_ H1], (holds_bounds _ _ _ _ _ Hh' Hc) as [H2 _].
    destruct (linked_lookup (o :: os) 0 (S j) o o' Hl ltac:(lia) eq_refl Ho'). lia.
Qed.

Lemma log_bounds L cl d g b : log_data L cl d g -> b ∈ batches g -> BaseOffset b + RecordCount b <= logNext cl.
Proof.
  intros Hd (j & e & Hj & Hb)%batches_lookup. destruct (ld_active _ _ _ _ Hd) as (pre & a & Hs & _ & ->).
  destruct (Forall2_lookup_r _ _ _ _ _ (ld_segs _ _ _ _ Hd) Hj) as (o & Ho & Hh).
  destruct (holds_bounds _ _ _ _ _ Hh Hb) as [H0 H1].
  assert (Ha : segments cl !! length pre = Some a) by (rewrite Hs; by apply list_lookup_middle).
  assert (Hlt : (j < length (segments cl))%nat) by (by eapply lookup_lt_Some).
  rewrite Hs, length_app in Hlt. cbn in Hlt. destruct (decide (j = length pre)) as [->|].
  - by simplify_eq.
  - assert (Hjl : (j < length pre)%nat) by lia.
    destruct (linked_lookup _ _ _ _ _ (ld_linked _ _ _ _ Hd) Hjl Ho Ha).
    destruct (Forall2_lookup_l _ _ _ _ _ (ld_segs _ _ _ _ Hd) Ha) as (ea & _ & [(fs & es & _ & Hda & _) _]).
    rewrite (sd_next _ _ _ _ _ Hda). pose proof (endOf_ge _ _ (sd_chain _ _ _ _ _ Hda)). lia.
Qed.

Lemma readLimit_pos maxRecords : 4096 <= readLimit maxRecords.
Proof. unfold readLimit, minReadBytes. destruct (Z.ltb_spec (i64 (maxRecords * estimatedBytesPerRecord)) 4096); lia. Qed.

(** The segment an offset belongs to starts within 32 bits of it. *)
Definition near (cl : CommitLog) (offset : Z) : Prop :=
  forall o, findSegment cl offset = Some o -> offset < sbase (seg o) + 2 ^ 32.

Lemma Poll_spec L cl d g c maxRecords :
  log_data L cl d g -> Forall numbered (batches g) -> 0 <= maxRecords ->
  OldestOffset cl <= coffset c <= logNext cl -> near cl (coffset c) ->
  exists k c' r rest, Poll L cl d c maxRecords = Ok ((take k (pending (coffset c) (batches g))).*2, c') /\
    pending (coffset c') (batches g) = drop k (pending (coffset c) (batches g)) /\
    Z.of_nat k <= Z.max 1 maxRecords /\ coffset c <= coffset c' <= logNext cl /\ cgroup c' = cgroup c /\ ctopic c' = ctopic c /\
    Read L cl d (coffset c) (readLimit maxRecords) = Ok r /\ after (coffset c) (batches g) = r ++ rest /\
    (r = [] \/ coffset c < coffset c') /\ (r = [] -> c' = c).
Proof.
  intros Hd Hn Hm Hold Hnear. pose proof (readLimit_pos maxRecords).
  destruct (Read_spec L cl d g (coffset c) (readLimit maxRecords) Hd (proj1 Hold) ltac:(lia) Hnear)
    as (i & o & e & k0 & j & rest & _ & _ & _ & _ & _ & _ & Hr & Haf & _).
  unfold Poll. rewrite Hr. cbn [mbind outcome_bind]. destruct (Z.ltb_spec maxRecords 0); [lia|].
  set (r := after (coffset c) (take j (drop k0 e.2))) in *.
  assert (Hsub : sublist (r ++ rest) (batches g)) by (rewrite <- Haf; apply sublist_filter).
  destruct (pollBatches_spec maxRecords (logNext cl) rest r (coffset c) [] Hm) as (k & off' & Hp & Hle & Hpend & Hk & Hlt).
  - lia.
  - apply Forall_forall. intros b Hb. eapply log_bounds; [done|].
    eapply (sublist_subseteq (r ++ rest)); [done|]. apply elem_of_app. by left.
  - eapply ordered_sublist, log_ordered; done.
  - rewrite Forall_forall in Hn |- *. intros b Hb. apply Hn. by eapply (sublist_subseteq (r ++ rest)).
  - rewrite <- Haf. apply Forall_forall. intros b [Hb _]%list_elem_of_filter. exact Hb.
  - change (zlen []) with 0. lia.
  - exists k, (setOffset c off'), r, rest. rewrite <- Haf, !pending_after in Hp by (done || lia).
    rewrite <- Haf, !pending_after in Hpend by (done || lia). rewrite Hp. cbn [coffset setOffset].
    split_and!; try (done || lia). intros E. rewrite E in Hp. cbn in Hp. injection Hp as _ <-. by destruct c.
Qed.

(** Polling [n] times in a row. *)
Fixpoint pollN (L : lz4) (cl : CommitLog) (d : disk) (c : Consumer) (maxRecords : Z) (n : nat)
    : outcome (list Record_ * Consumer) :=
  match n with
  | O => Ok ([], c)
  | S n => '(recs, c) ← Poll L cl d c maxRecords; '(recs', c) ← pollN L cl d c maxRecords n; Ok (recs ++ recs', c)
  end.

(** No offset from [lo] to the newest is missing. *)
Definition gapless (lo : Z) (cl : CommitLog) (g : ghost) : Prop :=
  forall o, lo <= o < logNext cl ->
    exists b, b ∈ batches g /\ BaseOffset b <= o < BaseOffset b + RecordCount b.

(** The batch that holds [off] ends within [lim] bytes of where the index points. *)
Definition within (cl : CommitLog) (g : ghost) (lim off : Z) : Prop :=
  forall i o e m b p f, findSegment cl off = Some o -> segments cl !! i = Some o -> g !! i = Some e ->
    e.2 !! m = Some b -> BaseOffset b <= off < BaseOffset b + RecordCount b ->
    Lookup (sindex (seg o)) off = Some (p, f) -> zlen (concat (take (S m) e.1)) <= p + lim.

Lemma take_split_at {A} (l : list A) k m :
  (k <= m)%nat -> take (S m) l = take k l ++ take (S (m - k)) (drop k l).
Proof. intros Hk. rewrite <- (take_drop k (take (S m) l)) at 1. rewrite take_take, skipn_firstn_comm. f_equal; f_equal; lia. Qed.

Lemma concat_take_mono {A} (l : list (list A)) i j : (i <= j)%nat -> zlen (concat (take i l)) <= zlen (concat (take j l)).
Proof.
  intros Hij. rewrite <- (take_drop i (take j l)), take_take, concat_app, zlen_app.
  replace (i `min` j)%nat with i by lia. pose proof (zlen_nonneg (concat (drop i (take j l)))). lia.
Qed.

(** The index position of an offset lies before the batch that holds it. *)
Lemma not_before off (l : list RecordBatch) k m b :
  after off (take k l) = [] -> l !! m = Some b -> off < BaseOffset b + RecordCount b -> (k <= m)%nat.
Proof.
  intros Hno Hm Hb. destruct (decide (k <= m)%nat) as [|Hlt]; [done|]. exfalso.
  assert (Hin : b ∈ after off (take k l)); [|rewrite Hno in Hin; by apply elem_of_nil in Hin].
  apply list_elem_of_filter. split; [done|]. apply (list_elem_of_lookup_2 _ m). rewrite lookup_take_lt by lia. done.
Qed.

(** Segments that fit the read limit as a whole are always in reach. *)
Lemma small_within L cl d g lim off :
  log_data L cl d g -> OldestOffset cl <= off -> 0 <= lim -> near cl off ->
  Forall (fun o => ssize (seg o) <= lim) (segments cl) -> within cl g lim off.
Proof.
  intros Hd Hold Hlim Hnear Hsz i o e m b p f Hf Hi He Hm Hoff Hlk.
  destruct (Read_spec L cl d g off lim Hd Hold Hlim Hnear)
    as (i' & o' & e' & k & j & rest & Hf' & _ & _ & _ & _ & _ & _ & _ & _ & _ & (f' & Hlk') & _).
  assert (o' = o) as -> by congruence. rewrite Hlk in Hlk'. injection Hlk' as -> ->.
  destruct (Forall2_lookup_lr _ _ _ _ _ _ (ld_segs _ _ _ _ Hd) Hi He) as [(fs & es & _ & Hda & _) _].
  rewrite Forall_forall in Hsz. pose proof (Hsz o (list_elem_of_lookup_2 _ _ _ Hi)) as Ho. cbn in Ho.
  rewrite (sd_size _ _ _ _ _ Hda) in Ho. pose proof (zlen_nonneg (concat (take k e'.1))).
  pose proof (concat_take_mono e.1 (S m) (length e.1 + S m) ltac:(lia)) as Hmono.
  rewrite (take_ge e.1 (length e.1 + S m)) in Hmono by lia. lia.
Qed.

Lemma Read_within L cl d g off lim b :
  log_data L cl d g -> OldestOffset cl <= off -> 0 <= lim -> near cl off -> b ∈ batches g ->
  BaseOffset b <= off < BaseOffset b + RecordCount b -> within cl g lim off ->
  exists r, Read L cl d off lim = Ok r /\ r <> [].
Proof.
  intros Hd Hold Hlim Hnear Hb Hoff Hw.
  destruct (Read_spec L cl d g off lim Hd Hold Hlim Hnear)
    as (i & o & e & k & j & rest & Hf & Hi & He & Hho & _ & Hin & Hr & _ & Hno & Hj & (f & Hlk) & Hbig & _).
  exists (after off (take j (drop k e.2))). split; [done|].
  destruct (list_elem_of_lookup_1 _ _ (Hin b Hb Hoff)) as [m Hm].
  pose proof (not_before off e.2 k m b Hno Hm ltac:(lia)) as Hkm.
  specialize (Hw i o e m b _ f Hf Hi He Hm Hoff Hlk). rewrite (take_split_at _ k) in Hw by done.
  rewrite concat_app, zlen_app in Hw.
  assert (Hlen : length e.1 = length e.2) by (destruct Hho as [(fs & es & _ & Hda & _) _]; by eapply Forall2_length, Hda).
  assert (Hml : (m < length e.2)%nat) by (by eapply lookup_lt_Some).
  assert (Hjm : (m - k < j)%nat).
  { destruct (decide (m - k < j)%nat) as [|Hn]; [done|]. rewrite length_drop in Hbig.
    specialize (Hbig ltac:(lia)). pose proof (concat_take_mono (drop k e.1) (S j) (S (m - k)) ltac:(lia)). lia. }
  intros E. assert (Hbe : b ∈ after off (take j (drop k e.2))); [|rewrite E in Hbe; by apply elem_of_nil in Hbe].
  apply list_elem_of_filter. split; [lia|]. apply (list_elem_of_lookup_2 _ (m - k)).
  rewrite lookup_take_lt, lookup_drop by done. by replace (k + (m - k))%nat with m by lia.
Qed.

Lemma ordered_lookup bs i j a b :
  ordered bs -> (i < j)%nat -> bs !! i = Some a -> bs !! j = Some b -> BaseOffset a + RecordCount a <= BaseOffset b.
Proof.
  revert i j. induction bs as [|x bs IH]; intros i j Ho Hij Ha Hb; [done|]. destruct Ho as (_ & Hf & Ho).
  destruct j as [|j]; [lia|]. cbn in Hb. destruct i as [|i]; [|by eapply (IH i j); [| lia | |]].
  injection Ha as ->. rewrite Forall_forall in Hf. apply Hf. by eapply list_elem_of_lookup_2.
Qed.

Lemma Read_stuck L cl d g off lim i o e m b p f :
  log_data L cl d g -> OldestOffset cl <= off -> 0 <= lim -> near cl off ->
  findSegment cl off = Some o -> segments cl !! i = Some o -> g !! i = Some e -> e.2 !! m = Some b ->
  BaseOffset b <= off < BaseOffset b + RecordCount b -> Lookup (sindex (seg o)) off = Some (p, f) ->
  p + lim < zlen (concat (take (S m) e.1)) -> Read L cl d off lim = Ok [].
Proof.
  intros Hd Hold Hlim Hnear Hf Hi He Hm Hoff Hlk Hbig.
  destruct (Read_spec L cl d g off lim Hd Hold Hlim Hnear)
    as (i' & o' & e' & k & j & rest & Hf' & Hi' & He' & Hho & _ & _ & Hr & _ & Hno & _ & (f' & Hlk') & _ & Hsm).
  assert (o' = o) as -> by congruence.
  assert (i' = i) as ->.
  { eapply (NoDup_lookup (sid <$> segments cl)); [apply Hd | |]; rewrite list_lookup_fmap; by rewrite ?Hi, ?Hi'. }
  assert (e' = e) as -> by congruence. rewrite Hlk in Hlk'. injection Hlk' as -> ->.
  pose proof (not_before off e.2 k m b Hno Hm ltac:(lia)) as Hkm.
  rewrite (take_split_at _ k), concat_app, zlen_app in Hbig by done.
  assert (Hjm : (j <= m - k)%nat).
  { destruct (decide (j <= m - k)%nat) as [|Hn]; [done|].
    pose proof (concat_take_mono (drop k e.1) (S (m - k)) j ltac:(lia)). lia. }
  rewrite Hr. f_equal. apply after_nil. intros c [x Hx]%list_elem_of_lookup.
  apply lookup_take_Some in Hx as [Hx Hxj]. rewrite lookup_drop in Hx.
  destruct Hho as [(fs & es & _ & Hda & _) _].
  pose proof (ordered_lookup e.2 (k + x) m c b (chained_ordered _ _ (sd_chain _ _ _ _ _ Hda)) ltac:(lia) Hx Hm). lia.
Qed.

Lemma offsetsFrom_mem recs : forall o p, o <= p < o + zlen recs -> exists r, (p, r) ∈ offsetsFrom o recs.
Proof.
  unfold zlen. induction recs as [|r recs IH]; intros o p Hp; cbn in *; [lia|].
  destruct (decide (p = o)) as [->|]; [exists r; by left|]. destruct (IH (o + 1) p) as [r' Hr]; [lia|].
  exists r'. by right.
Qed.

Lemma recordsOf_elem bs p r :
  (p, r) ∈ recordsOf bs <-> exists b, b ∈ bs /\ (p, r) ∈ offsetsFrom (BaseOffset b) (Records b).
Proof.
  unfold recordsOf. rewrite list_elem_of_In, in_concat. split.
  - intros (l & Hl%list_elem_of_In & Hp%list_elem_of_In). apply list_elem_of_fmap in Hl as (b & -> & Hb). eauto.
  - intros (b & Hb & Hp). exists (offsetsFrom (BaseOffset b) (Records b)).
    rewrite <- !list_elem_of_In. split; [|done]. by apply (list_elem_of_fmap_2 (fun b => offsetsFrom (BaseOffset b) (Records b))).
Qed.

(** While something is pending, the record at the offset is, and a poll that moves the
    offset returns something. *)
Lemma pending_next L cl d g off : 
  log_data L cl d g -> Forall numbered (batches g) -> gapless off cl g ->
  pending off (batches g) <> [] ->
  exists b r, b ∈ batches g /\ BaseOffset b <= off < BaseOffset b + RecordCount b /\ (off, r) ∈ pending off (batches g).
Proof.
  intros Hd Hn Hg Hne. rewrite Forall_forall in Hn.
  assert (Hlt : off < logNext cl).
  { destruct (pending off (batches g)) as [|[p r] ps] eqn:E; [done|].
    assert (Hin : (p, r) ∈ pending off (batches g)) by (rewrite E; by left).
    apply list_elem_of_filter in Hin as [Hp (b & Hb & Hr%offsetsFrom_bounds)%recordsOf_elem].
    pose proof (log_bounds _ _ _ _ _ Hd Hb). destruct (Hn b Hb) as [Hc _]. cbn in *. lia. }
  destruct (Hg off ltac:(lia)) as (b & Hb & Hoff). destruct (Hn b Hb) as [Hc _].
  destruct (offsetsFrom_mem (Records b) (BaseOffset b) off ltac:(lia)) as [r Hr].
  exists b, r. split_and!; [done | lia | lia |]. apply list_elem_of_filter. split; [cbn; lia|].
  apply recordsOf_elem. eauto.
Qed.

Lemma drains L cl d g maxRecords : forall n c,
  log_data L cl d g -> Forall numbered (batches g) -> gapless (coffset c) cl g -> 0 <= maxRecords ->
  OldestOffset cl <= coffset c <= logNext cl ->
  (forall o, coffset c <= o <= logNext cl -> near cl o /\ within cl g (readLimit maxRecords) o) ->
  (length (pending (coffset c) (batches g)) <= n)%nat ->
  exists c', pollN L cl d c maxRecords n = Ok ((pending (coffset c) (batches g)).*2, c') /\
    coffset c <= coffset c' <= logNext cl /\ pending (coffset c') (batches g) = [].
Proof.
  induction n as [|n IH]; intros c Hd Hn Hg Hm Hold Hall Hlen.
  { destruct (pending (coffset c) (batches g)) eqn:E; [|cbn in Hlen; lia]. exists c. split; [done|]. split; [lia|done]. }
  destruct (Poll_spec L cl d g c maxRecords Hd Hn Hm Hold (proj1 (Hall (coffset c) ltac:(lia))))
    as (k & c1 & r & rest & Hp & Hpend & Hk & Hle & _ & _ & Hr & _ & Hadv & _).
  assert (Hk0 : (0 < k)%nat \/ pending (coffset c) (batches g) = []).
  { destruct (pending (coffset c) (batches g)) as [|[p r0] ps] eqn:E; [by right|]. left.
    destruct k as [|k]; [|lia]. exfalso. rewrite drop_0 in Hpend.
    destruct (pending_next L cl d g (coffset c) Hd Hn Hg) as (b & r1 & Hb & Hoff & Hin); [by rewrite E|].
    destruct (Hall (coffset c) ltac:(lia)) as [Hnear Hw]. pose proof (readLimit_pos maxRecords).
    destruct (Read_within L cl d g _ (readLimit maxRecords) b Hd (proj1 Hold) ltac:(lia) Hnear Hb Hoff Hw) as (r' & Hr' & Hne).
    rewrite Hr in Hr'. injection Hr' as <-. destruct Hadv as [|Hadv]; [done|].
    rewrite E, <- Hpend in Hin. apply list_elem_of_filter in Hin as [Hin _]. cbn in Hin. lia. }
  cbn [pollN]. rewrite Hp. cbn [mbind outcome_bind].
  destruct (IH c1 Hd Hn) as (c' & Hc & Hle' & Hnil).
  - intros o Ho. apply Hg. lia.
  - done.
  - lia.
  - intros o Ho. apply Hall. lia.
  - rewrite Hpend, length_drop. destruct Hk0 as [|E]; [lia|]. rewrite E. cbn [length]. lia.
  - exists c'. rewrite Hc. cbn [mbind outcome_bind]. rewrite Hpend, <- fmap_app, take_drop.
    split; [done|]. split; [lia | done].
Qed.

(** ** Lemmas: file names *)

(** Two dots in a row. *)
Fixpoint hasDotDot (s : list byte) : bool :=
  match s with
  | a :: s' => match s' with b :: _ => (a =? dot) && (b =? dot) | [] => false end || hasDotDot s'
  | [] => false
  end.
(** A name that is one path component and no parent directory. *)
Definition safeName (s : list byte) : Prop := s <> [] /\ (nul ∉ s) /\ (slash ∉ s) /\ hasDotDot s = false.

Lemma take_one (s : list byte) (c x : byte) : take 1 (c :: s) = [x] <-> c = x.
Proof. change (take 1 (c :: s)) with [c]. split; [by intros [= ->] | by intros ->]. Qed.

Lemma replace_byte fuel (c u : byte) : c <> u -> forall s, (length s < fuel)%nat ->
  c ∉ replaceLoop fuel [c] [u] s /\ (forall x, x ∈ replaceLoop fuel [c] [u] s -> x = u \/ x ∈ s) /\
  (c ∉ s -> replaceLoop fuel [c] [u] s = s) /\ (s <> [] -> replaceLoop fuel [c] [u] s <> []).
Proof.
  intros Hne. induction fuel as [|f IH]; intros s Hs; [lia|].
  destruct s as [|a s]; cbn [replaceLoop]; [split_and!; (done || set_solver)|]. cbn in Hs.
  destruct (IH s ltac:(lia)) as (H1 & H2 & H3 & _). cbn [length]. rewrite (bool_decide_ext _ _ (take_one s a c)).
  case_bool_decide as E.
  - subst. cbn [drop app]. split_and!; [set_solver | set_solver | set_solver | done].
  - split_and!; [set_solver | set_solver | | done]. intros Hc. f_equal. apply H3. set_solver.
Qed.

Lemma hasDotDot_cons a s : hasDotDot (a :: s) = (bool_decide (a = dot) && bool_decide (head s = Some dot)) || hasDotDot s.
Proof.
  cbn [hasDotDot]. f_equal. destruct s as [|b s]; cbn [head]; [by rewrite andb_false_r|].
  unfold dot. f_equal; case_bool_decide; lia || (destruct (Z.eqb_spec b 46); congruence).
Qed.

Lemma replace_dots fuel : forall s, (length s < fuel)%nat ->
  let r := replaceLoop fuel [dot; dot] [underscore] s in
  hasDotDot r = false /\ (head r = Some dot -> head s = Some dot) /\ (forall x, x ∈ r -> x = underscore \/ x ∈ s) /\
  (hasDotDot s = false -> r = s) /\ (s <> [] -> r <> []).
Proof.
  induction fuel as [|f IH]; intros s Hs; [lia|]. cbn zeta.
  destruct s as [|a s]; cbn [replaceLoop]; [split_and!; (done || set_solver)|]. cbn in Hs.
  case_bool_decide as E.
  - destruct s as [|b s]; [done|]. cbn in E. injection E as -> ->. cbn [length drop app] in *.
    destruct (IH s ltac:(lia)) as (H1 & _ & H3 & _). rewrite drop_0, hasDotDot_cons. cbn [head].
    split_and!; [by rewrite H1 | done | | done | done].
    intros x [->|Hx]%elem_of_cons; [by left|]. apply H3 in Hx. set_solver.
  - destruct (IH s ltac:(lia)) as (H1 & H2 & H3 & H4 & _). rewrite !hasDotDot_cons. cbn [head].
    split_and!; [|done| | |done].
    + rewrite H1, orb_false_r. destruct (bool_decide_reflect (a = dot)) as [->|]; [|done]. cbn [andb].
      apply bool_decide_eq_false. intros Hh%H2. destruct s as [|b s]; [done|]. injection Hh as ->. by destruct E.
    + intros x [->|Hx]%elem_of_cons; [right; by left|]. apply H3 in Hx. set_solver.
    + intros [_ Hd]%orb_false_iff. by rewrite H4.
Qed.

Lemma sanitizeName_ok name :
  safeName (sanitizeName name) /\ (safeName name -> sanitizeName name = name).
Proof.
  unfold sanitizeName. case_bool_decide as E.
  { subst. split; [|by intros [? _]]. split_and!; [done | set_solver | set_solver | done]. }
  unfold ReplaceAll. 
  destruct (replace_byte (S (length name)) nul underscore ltac:(done) name) as (A1 & A2 & A3 & A4); [lia|].
  set (n1 := replaceLoop _ [nul] _ _) in *.
  destruct (replace_byte (S (length n1)) slash underscore ltac:(done) n1) as (B1 & B2 & B3 & B4); [lia|].
  set (n2 := replaceLoop _ [slash] _ _) in *.
  destruct (replace_dots (S (length n2)) n2) as (C1 & _ & C3 & C4 & C5); [lia|].
  set (n3 := replaceLoop _ [dot; dot] _ _) in *. split.
  - split_and!; [by apply C5, B4, A4 | | | done].
    + intros [?|[?|Hx]%B2]%C3; done.
    + intros [?|Hx]%C3; done.
  - intros (_ & H1 & H2 & H3). rewrite A3 in * by done. rewrite B3 in * by done. by apply C4.
Qed.

(** ** Properties *)

(** C6: Polling neither skips nor repeats a record: what [Poll] returns is the front of
    the records at or behind the consumer's offset, in offset order and at most as many
    as asked for, and the new offset leaves exactly the remaining ones for the next
    poll, whatever the read limit cuts off. *)
Theorem consumer_Poll_no_loss_no_duplicate L cl d g c maxRecords :
  log_data L cl d g -> Forall numbered (batches g) -> 0 <= maxRecords ->
  OldestOffset cl <= coffset c <= logNext cl -> near cl (coffset c) ->
  exists k c', Poll L cl d c maxRecords = Ok ((take k (pending (coffset c) (batches g))).*2, c') /\
    pending (coffset c') (batches g) = drop k (pending (coffset c) (batches g)) /\
    Z.of_nat k <= Z.max 1 maxRecords /\ coffset c <= coffset c' <= logNext cl.
Proof.
  intros Hd Hn Hm Hold Hnear.
  destruct (Poll_spec L cl d g c maxRecords Hd Hn Hm Hold Hnear) as (k & c' & r & rest & H1 & H2 & H3 & H4 & _).
  eauto 10.
Qed.

(** C8: Repeated polling delivers everything, exactly once and in order: when no offset
    from the consumer's on is missing and every batch ends within the read limit of its index
    position, as many polls as there are pending records return all of them and leave
    none pending. *)
Theorem consumer_drains L cl d g maxRecords n c :
  log_data L cl d g -> Forall numbered (batches g) -> gapless (coffset c) cl g -> 0 <= maxRecords ->
  OldestOffset cl <= coffset c <= logNext cl ->
  (forall o, coffset c <= o <= logNext cl -> near cl o /\ within cl g (readLimit maxRecords) o) ->
  (length (pending (coffset c) (batches g)) <= n)%nat ->
  exists c', pollN L cl d c maxRecords n = Ok ((pending (coffset c) (batches g)).*2, c') /\
    pending (coffset c') (batches g) = [].
Proof.
  intros Hd Hn Hg Hm Hold Hall Hlen.
  destruct (drains L cl d g maxRecords n c Hd Hn Hg Hm Hold Hall Hlen) as (c' & H1 & _ & H2). eauto.
Qed.

(** The read limit can starve a consumer for good: when the batch at the offset ends
    further behind its index position than the limit, every poll returns no records, no
    error and the same offset. *)
Theorem consumer_starves L cl d g maxRecords c i o e m b p f :
  log_data L cl d g -> 0 <= maxRecords -> OldestOffset cl <= coffset c -> near cl (coffset c) ->
  findSegment cl (coffset c) = Some o -> segments cl !! i = Some o -> g !! i = Some e -> e.2 !! m = Some b ->
  BaseOffset b <= coffset c < BaseOffset b + RecordCount b -> Lookup (sindex (seg o)) (coffset c) = Some (p, f) ->
  p + readLimit maxRecords < zlen (concat (take (S m) e.1)) ->
  forall n, pollN L cl d c maxRecords n = Ok ([], c).
Proof.
  intros Hd Hm Hold Hnear Hf Hi He Hem Hoff Hlk Hbig. pose proof (readLimit_pos maxRecords).
  pose proof (Read_stuck L cl d g (coffset c) (readLimit maxRecords) i o e m b p f Hd Hold ltac:(lia) Hnear Hf Hi He Hem
    Hoff Hlk Hbig) as Hr.
  induction n as [|n IH]; [done|]. cbn [pollN]. unfold Poll. rewrite Hr. cbn [mbind outcome_bind].
  destruct (Z.ltb_spec maxRecords 0); [lia|]. cbn [pollBatches].
  assert (E : setOffset c (coffset c) = c) by (by destruct c). rewrite E. cbn [mbind outcome_bind]. by rewrite IH.
Qed.

(** A committed offset is what a new consumer of the same group and topic starts from;
    the offsets of other files stay, two different pairs of safe names never share a
    file, and a commit that fails on the way leaves every stored offset as it was. *)
Theorem offset_store_roundtrip fs group topic offset fault fs' err :
  0 <= offset < 2 ^ 64 -> storeCommit fault fs group topic offset = (fs', err) ->
  (err = None -> coffset (NewConsumer fs' group topic) = offset) /\
  (err <> None -> fs' = fs) /\
  (forall group' topic', path group' topic' <> path group topic -> storeLoad fs' group' topic' = storeLoad fs group' topic') /\
  (forall group' topic', safeName group -> safeName topic -> safeName group' -> safeName topic' ->
     (group', topic') <> (group, topic) -> storeLoad fs' group' topic' = storeLoad fs group' topic').
Proof.
  intros Ho Hc. unfold storeCommit in Hc.
  assert (Hother : forall group' topic', path group' topic' <> path group topic -> storeLoad fs' group' topic' = storeLoad fs group' topic').
  { intros g' t' Hne. destruct fault; injection Hc as <- <-; [done|]. unfold storeLoad. by rewrite lookup_insert_ne. }
  split_and!; [..|done|].
  - intros ->. destruct fault; [done|]. injection Hc as <-. unfold NewConsumer, storeLoad. cbn [coffset].
    rewrite lookup_insert_eq. pose proof (zlen_be 8 offset) as Hl. change (Z.of_nat 8) with 8 in Hl.
    rewrite Hl. cbn. rewrite ztake_ge, unbe_be by lia. apply Z.mod_small. exact Ho.
  - intros Hne. destruct fault; injection Hc as <- <-; done.
  - intros g' t' H1 H2 H3 H4 Hne. apply Hother. unfold path. intros [= E1 E2]. apply Hne.
    rewrite (proj2 (sanitizeName_ok _) H1), (proj2 (sanitizeName_ok _) H3) in E1.
    rewrite (proj2 (sanitizeName_ok _) H2), (proj2 (sanitizeName_ok _) H4) in E2. congruence.
Qed.

(** Names cannot leave the store's directory: whatever the group or topic, the file
    name made of it is not empty and has no NUL, no separator and no parent reference;
    a name that is already of this form is kept. *)
Theorem sanitizeName_safe name :
  safeName (sanitizeName name) /\ (safeName name -> sanitizeName name = name).
Proof. exact (sanitizeName_ok name). Qed.

(** ** Witnesses *)

(** A consumer of the three sample batches, in the middle of the first one. *)
Definition consumer0 : Consumer := mkConsumer [97] [98] 1.

Lemma log3_numbered (g : ghost) c0 c1 c2 :
  batches g = [stored (assign 0 (sampleBatch 9)) c0; stored (assign 2 (sampleBatch 9)) c1;
               stored (assign 4 (sampleBatch 9)) c2] -> Forall numbered (batches g).
Proof. intros ->. repeat constructor. Qed.

Lemma consumer_Poll_no_loss_no_duplicate_witness :
  exists (k : nat) (c' : Consumer) (rs : list (Z * Record_)),
    Poll noLz4 log3.1 log3.2 consumer0 3 = Ok ((take k rs).*2, c') /\ (k <= 3)%nat /\ length rs = 5%nat.
Proof.
  destruct log3_ok as (g & c0 & c1 & c2 & [Hld _] & Hg).
  destruct (consumer_Poll_no_loss_no_duplicate noLz4 log3.1 log3.2 g consumer0 3 Hld (log3_numbered _ _ _ _ Hg))
    as (k & c' & Hp & _ & Hk & _).
  - discriminate.
  - vm_compute. split; discriminate.
  - intros o Ho. vm_compute in Ho. injection Ho as <-. vm_compute. reflexivity.
  - exists k, c', (pending 1 (batches g)). split; [exact Hp|]. split; [lia|]. by rewrite Hg.
Defined.

Lemma offset_store_roundtrip_witness :
  coffset (NewConsumer (fst (storeCommit false ∅ [97] [98] 7)) [97] [98]) = 7.
Proof.
  apply (offset_store_roundtrip ∅ [97] [98] 7 false _ None); [lia | reflexivity | reflexivity].
Defined.

Lemma consumer_drains_witness :
  exists (c' : Consumer) (rs : list Record_), pollN noLz4 log3.1 log3.2 consumer0 2 5 = Ok (rs, c') /\ length rs = 5%nat.
Proof.
  destruct log3_ok as (g & c0 & c1 & c2 & [Hld _] & Hg).
  assert (Hnear : forall o, 1 <= o <= 6 -> near log3.1 o).
  { intros o Ho so Hso. assert (Hc : o = 1 \/ o = 2 \/ o = 3 \/ o = 4 \/ o = 5 \/ o = 6) by lia.
    destruct_or! Hc; subst o; vm_compute in Hso; injection Hso as <-; vm_compute; reflexivity. }
  destruct (consumer_drains noLz4 log3.1 log3.2 g 2 5 consumer0 Hld (log3_numbered _ _ _ _ Hg)) as (c' & Hp & _).
  - intros o [Ho1 Ho2]. change (coffset consumer0) with 1 in Ho1. change (logNext log3.1) with 6 in Ho2. rewrite Hg.
    destruct (decide (o < 2)); [|destruct (decide (o < 4))].
    + eexists. split; [left | change (0 <= o < 0 + 2); lia].
    + eexists. split; [right; left | change (2 <= o < 2 + 2); lia].
    + eexists. split; [do 2 right; left | change (4 <= o < 4 + 2); lia].
  - discriminate.
  - vm_compute. split; discriminate.
  - intros o [Ho1 Ho2]. change (coffset consumer0) with 1 in Ho1. change (logNext log3.1) with 6 in Ho2.
    split; [apply Hnear; lia|]. apply (small_within noLz4 _ _ _ _ _ Hld); [|discriminate| apply Hnear; lia |].
    + change (OldestOffset log3.1) with 0. lia.
    + vm_compute. repeat constructor; discriminate.
  - rewrite Hg. vm_compute. lia.
  - exists c', (pending 1 (batches g)).*2. split; [exact Hp|]. by rewrite Hg.
Defined.

(** A log whose only batch has more than [n] bytes. *)
Definition bigSeg (n : Z) : segment := mkSegment (mkIndex 0 [] 0 0) 0 (zlen (bigEnc 0 n)) 0 1 0 0 None.
Definition bigObj (n : Z) : segObj := mkObj 0 (bigSeg n) 0.
Definition bigLog (n : Z) : CommitLog := mkLog [bigObj n] 0 1 false 1.
Definition bigDisk (n : Z) : disk := mkDisk {[0 := 0%nat]} ∅ {[0%nat := mkInode (mkFiles (bigEnc 0 n) []) 0]} 1.

Lemma bigLog_data n : 0 <= n < 2 ^ 22 -> log_data noLz4 (bigLog n) (bigDisk n) [([bigEnc 0 n], [bigBatch 0 n])].
Proof.
  intros Hn. destruct (big_encodes 0 n ltac:(done) Hn) as [Henc _].
  assert (Hcat : concat [bigEnc 0 n] = bigEnc 0 n) by apply app_nil_r.
  split; cbn [segments bigLog activeSegment logNext closed nextId]; try done.
  - constructor; [|constructor]. split; [|cbn; rewrite lookup_singleton_eq; split_and!; [by left | done | lia | lia]].
    exists (mkFiles (bigEnc 0 n) []), []. unfold getFiles. cbn [bigDisk inodes bigObj ino]. rewrite lookup_singleton_eq.
    split_and!; [done | |]; split; cbn [fst snd logFile bigSeg ssize sbase nextOffset sindex seg bigObj idxFile];
      rewrite ?Hcat, ?app_nil_r; try done; (by constructor) || (by left).
  - apply NoDup_singleton.
  - constructor; [cbn; lia | constructor].
  - apply NoDup_singleton.
  - exists [], (bigObj n). done.
  - split; cbn.
    + intros i x. rewrite lookup_singleton_Some. intros [<- _]. lia.
    + intros b i. rewrite lookup_singleton_Some. intros [<- <-]. by rewrite lookup_singleton_eq.
  - intros b i. cbn. rewrite lookup_singleton_Some. intros [<- _]. exists (bigObj n). split; [by left | done].
Qed.

(** The record of a batch of 5000 bytes is never delivered to a consumer that asks for up
    to ten records at a time, however often it asks. *)
Lemma consumer_starves_witness :
  pollN noLz4 (bigLog 5000) (bigDisk 5000) (mkConsumer [97] [98] 0) 10 1000 = Ok ([], mkConsumer [97] [98] 0).
Proof.
  apply (consumer_starves noLz4 (bigLog 5000) (bigDisk 5000) [([bigEnc 0 5000], [bigBatch 0 5000])] 10
    (mkConsumer [97] [98] 0) 0 (bigObj 5000) ([bigEnc 0 5000], [bigBatch 0 5000]) 0 (bigBatch 0 5000) 0 0).
  - apply bigLog_data. split; [discriminate | reflexivity].
  - discriminate.
  - discriminate.
  - intros o Ho. injection Ho as <-. reflexivity.
  - reflexivity.
  - reflexivity.
  - reflexivity.
  - reflexivity.
  - split; [discriminate | reflexivity].
  - reflexivity.
  - cbn [fst take concat]. rewrite app_nil_r. change (readLimit 10) with 4096.
    assert (Hn : 0 <= 5000 < 2 ^ 22) by (split; [discriminate | reflexivity]).
    apply (Z.lt_trans _ 5000); [reflexivity | exact (proj1 (proj2 (big_encodes 0 5000 ltac:(done) Hn)))].
Defined.

(** Replacing the separator is not injective: two topics can share one offset file. *)
Lemma sanitizeName_collision : path [97; slash; 98] [99] = path [97; underscore; 98] [99].
Proof. reflexivity. Qed.
