(* ===== verification/Compaction.v ===== *)
(** * Compaction: rewriting sealed segments
      (src/pkg/mq/forge/compaction.go, merge.go)

    [Compact] keeps the last record of every key and all records without a key;
    [MergeSegments] joins old segments byte for byte.  Both write a new segment in the
    staging directory, remove the old segments, move the staged files into place and
    reopen them.  An error before the old segments go leaves the log and its directory as
    they were (the staging directory is removed), so it is [Err].  Copying records off a
    mapping has no counterpart: byte lists are values. *)
From stdpp Require Import base list option gmap sorting.
From Stdlib Require Import ZArith Lia.
From S2P Require Import Prelude Endian Codec Index Segment CommitLog Consumer.

(** ** Definitions *)

Record keyRecord := mkKey { koffset : Z; krec : Record_ }.

Definition keyBytes (o : option (list byte)) : list byte := default [] o.

Section Rewrite.
Variables (L : lz4) (cfg : Config).

Definition sealedSegments (cl : CommitLog) : list segObj :=
  if zlen (segments cl) <=? 1 then [] else filter (fun o => isActive cl o = false) (segments cl).

Definition readAllBatches (d : disk) (o : segObj) : outcome (list RecordBatch) :=
  fs ← orPanic (getFiles d o);
  segReadFrom L (seg o) (logFile fs) (sbase (seg o)) (ssize (seg o)).

(** Phase 1: the latest record per key, and the records without a key. *)
Abbreviation scanState := (gmap (list byte) keyRecord * list keyRecord)%type.
Definition scanRecord (base : Z) (st : scanState) (rec : Record_) : scanState :=
  let absOffset := u64 (base + u64 (OffsetDelta rec)) in
  if zlen (keyBytes (Key rec)) =? 0 then (st.1, st.2 ++ [mkKey absOffset rec])
  else (<[keyBytes (Key rec) := mkKey absOffset rec]> st.1, st.2).
Definition scanBatch (st : scanState) (b : RecordBatch) : scanState :=
  foldl (scanRecord (BaseOffset b)) st (Records b).
Fixpoint scanSegments (d : disk) (l : list segObj) (st : scanState) : outcome scanState :=
  match l with
  | [] => Ok st
  | o :: l => bs ← readAllBatches d o; scanSegments d l (foldl scanBatch st bs)
  end.

(** Phase 2; the offsets are distinct, so that neither the order in which the map is
    walked nor the instability of the sort shows. *)
Definition le_offset (a b : keyRecord) : Prop := koffset a <= koffset b.
#[global] Instance le_offset_dec : RelDecision le_offset := fun a b => Z.le_dec (koffset a) (koffset b).
Definition sortKeyRecords (l : list keyRecord) : list keyRecord := merge_sort le_offset l.
Definition survivors (st : scanState) : list keyRecord :=
  sortKeyRecords ((map_to_list st.1).*2 ++ st.2).

(** [writeBatches]; the buffer of the pool is the environment's. *)
Definition batchLimit : nat := 1000.
Definition chunkBatch (base : Z) (chunk : list keyRecord) : RecordBatch :=
  mkBatch base (u16 (zlen chunk)) 0 0 0 (imap setDelta (krec <$> chunk)).
Fixpoint writeBatches (fuel : nat) (E : env) (s : segment) (fs : files) (records : list keyRecord) (base : Z)
    : outcome (segment * files) :=
  match fuel with
  | O => Hang
  | S f =>
      match records with
      | [] => Ok (s, fs)
      | _ =>
          let batch := chunkBatch base (take batchLimit records) in
          encoded ← EncodeBatch L batch (poolBuf E);
          '(s, fs, ok) ← segAppend cfg s fs encoded batch (fault E);
          if (ok : bool) then writeBatches f E s fs (drop batchLimit records) (u64 (base + Z.of_nat batchLimit))
          else Err ErrIO
      end
  end.

(** [removeSegments]: every segment is removed by name, then left out of the slice. *)
Fixpoint removeAll (E : env) (l : list segObj) (d : disk) : outcome disk :=
  match l with [] => Ok d | o :: l => d ← Remove E d o; removeAll E l d end.
Definition removeSegments (E : env) (cl : CommitLog) (d : disk) (toRemove : list segObj) : outcome (CommitLog * disk) :=
  d ← removeAll E toRemove d;
  Ok (setSegments cl (filter (fun o => sid o ∉ (sid <$> toRemove)) (segments cl)), d).

Fixpoint insertSorted (o : segObj) (l : list segObj) : list segObj :=
  match l with
  | x :: l' => if sbase (seg x) <? sbase (seg o) then x :: insertSorted o l' else o :: l
  | [] => [o]
  end.
Definition insertSegmentSorted (cl : CommitLog) (o : segObj) : CommitLog :=
  mkLog (insertSorted o (segments cl)) (activeSegment cl) (logNext cl) (closed cl) (S (nextId cl)).

(** [stageAndSwapSegment].  The staging directory is opened like the log's own, seen from
    the other side. *)
Definition swapDirs (d : disk) : disk := mkDisk (staging d) (dir d) (inodes d) (nextIno d).
Definition stageAndSwapSegment (E : env) (cl : CommitLog) (d : disk) (toRemove : list segObj) (base : Z)
    (writeFn : segment -> files -> outcome (segment * files)) : outcome (CommitLog * disk) :=
  '(stage, sd) ← openObj L E (swapDirs d) base (nextId cl);
  let d := swapDirs sd in
  fs ← orPanic (getFiles d stage);
  '(s, fs) ← writeFn (seg stage) fs;
  let d := writeInode E d (ino stage) fs in
  '(stage, d) ← closeObj E d (mkObj (sid stage) s (ino stage));
  '(cl, d) ← removeSegments E cl d toRemove;
  let d := mkDisk (<[base := ino stage]> (dir d)) ∅ (inodes d) (nextIno d) in
  '(o, d) ← openObj L E d base (nextId cl);
  Ok (insertSegmentSorted cl (sealObj E o), d).

Definition Compact (E : env) (cl : CommitLog) (d : disk) : outcome (CommitLog * disk) :=
  if closed cl then Err ErrClosed else
  match sealedSegments cl with
  | [] => Ok (cl, d)
  | (first :: _) as sealed =>
      st ← scanSegments d sealed (∅, []);
      let surv := survivors st in
      match surv with
      | [] => removeSegments E cl d sealed
      | _ =>
          let base := sbase (seg first) in
          stageAndSwapSegment E cl d sealed base
            (fun s fs => writeBatches (S (length surv)) E s fs surv base)
      end
  end.

Definition mergeCandidates (E : env) (cl : CommitLog) : list segObj :=
  let cutoff := now E - MinSegmentMergeAge cfg in
  filter (fun o => isActive cl o = false /\ created (seg o) <= cutoff) (segments cl).

Fixpoint readRaw (d : disk) (l : list segObj) : outcome (list (list byte)) :=
  match l with
  | [] => Ok []
  | o :: l =>
      fs ← orPanic (getFiles d o);
      raw ← readRawBytes (seg o) (logFile fs);
      rest ← readRaw d l; Ok (raw :: rest)
  end.

(** The loop over the batches of one chunk of raw bytes. *)
Fixpoint mergeChunk (fuel : nat) (E : env) (s : segment) (fs : files) (raw : list byte) (off : Z)
    : outcome (segment * files) :=
  match fuel with
  | O => Hang
  | S f =>
      if zlen raw <=? off then Ok (s, fs) else
      match BatchSize (zdrop off raw) with
      | Panic => Panic
      | Hang => Hang
      | Err _ => Ok (s, fs)
      | Ok size =>
          if zlen raw <? off + size then Ok (s, fs) else
          data ← orPanic (zslice raw off (off + size));
          '(base, count) ← ParseBatchHeader data;
          '(s, fs, ok) ← segAppend cfg s fs data (mkBatch base count 0 0 0 []) (fault E);
          if (ok : bool) then mergeChunk f E s fs raw (off + size) else Err ErrIO
      end
  end.
Fixpoint mergeChunks (E : env) (s : segment) (fs : files) (chunks : list (list byte)) : outcome (segment * files) :=
  match chunks with
  | [] => Ok (s, fs)
  | raw :: chunks =>
      '(s, fs) ← mergeChunk (S (length raw)) E s fs raw 0;
      mergeChunks E s fs chunks
  end.

Definition MergeSegments (E : env) (cl : CommitLog) (d : disk) : outcome (CommitLog * disk) :=
  if closed cl then Err ErrClosed else
  let candidates := mergeCandidates E cl in
  if zlen candidates <? MinMergeSegments cfg then Ok (cl, d) else
  chunks ← readRaw d candidates;
  if negb (existsb (fun raw => 0 <? zlen raw) chunks) then removeSegments E cl d candidates else
  first ← orPanic (head candidates);
  stageAndSwapSegment E cl d candidates (sbase (seg first)) (fun s fs => mergeChunks E s fs chunks).
End Rewrite.

(** ** Specification *)

(** The records of a list of batches with their offsets. *)
Definition keyRecords (bs : list RecordBatch) : list keyRecord := (fun p => mkKey p.1 p.2) <$> recordsOf bs.

Definition keyOf (kr : keyRecord) : list byte := keyBytes (Key (krec kr)).

(** What compaction keeps: a record without a key, or the last one of its key. *)
Fixpoint lastPerKey (l : list keyRecord) : list keyRecord :=
  match l with
  | [] => []
  | kr :: l =>
      if bool_decide (keyOf kr = [] \/ keyOf kr ∉ keyOf <$> l) then kr :: lastPerKey l else lastPerKey l
  end.

Definition increasingOffsets (l : list keyRecord) : Prop := StronglySorted (fun a b => koffset a < koffset b) l.

(** ** Lemmas: the survivors *)

Definition scanKey (st : gmap (list byte) keyRecord * list keyRecord) (kr : keyRecord)
    : gmap (list byte) keyRecord * list keyRecord :=
  if bool_decide (keyOf kr = []) then (st.1, st.2 ++ [kr]) else (<[keyOf kr := kr]> st.1, st.2).

Lemma scanRecord_key base st rec n :
  OffsetDelta rec = n -> 0 <= base -> 0 <= n -> base + n < 2 ^ 64 ->
  scanRecord base st rec = scanKey st (mkKey (base + n) rec).
Proof.
  intros Hn Hb H0 Hlt. unfold scanRecord, scanKey, keyOf. cbn [krec]. rewrite Hn, (u64_small n), u64_small by lia.
  destruct (keyBytes (Key rec)) as [|x k]; [done|]. rewrite bool_decide_eq_false_2 by done. done.
Qed.

Lemma scanRecords_keys base recs : forall n st,
  numberedFrom n recs -> 0 <= base -> 0 <= n -> base + n + zlen recs < 2 ^ 64 ->
  foldl (scanRecord base) st recs = foldl scanKey st ((fun p => mkKey p.1 p.2) <$> offsetsFrom (base + n) recs).
Proof.
  induction recs as [|r recs IH]; intros n st Hn Hb H0 Hlt; [done|]. destruct Hn as [Hr Hn].
  unfold zlen in *. cbn [length] in Hlt. cbn [foldl offsetsFrom fmap list_fmap fst snd].
  rewrite (scanRecord_key base st r n) by (done || lia). rewrite <- Z.add_assoc. apply IH; (done || lia).
Qed.

Lemma scanBatch_keys bs : forall st,
  ordered bs -> Forall numbered bs -> foldl scanBatch st bs = foldl scanKey st (keyRecords bs).
Proof.
  induction bs as [|b bs IH]; intros st Ho Hn; [done|]. destruct Ho as ((H1 & H2 & H3) & _ & Ho).
  apply Forall_cons in Hn as [[Hc Hnum] Hn]. unfold keyRecords, recordsOf. cbn [foldl fmap list_fmap concat].
  rewrite fmap_app, foldl_app. unfold scanBatch at 2.
  rewrite (scanRecords_keys _ _ 0 st Hnum) by lia. rewrite Z.add_0_r. by apply IH.
Qed.

Lemma lastPerKey_snoc l kr :
  lastPerKey (l ++ [kr]) = filter (fun x => keyOf x = [] \/ keyOf x <> keyOf kr) (lastPerKey l) ++ [kr].
Proof.
  induction l as [|x l IH]; cbn [app lastPerKey].
  { rewrite bool_decide_eq_true_2; [done|]. right. cbn. by apply not_elem_of_nil. }
  rewrite IH. rewrite fmap_app. cbn [fmap list_fmap].
  destruct (bool_decide_reflect (keyOf x = [] \/ keyOf x ∉ keyOf <$> l)) as [Hx|Hx].
  - rewrite filter_cons. destruct (decide (keyOf x = [] \/ keyOf x <> keyOf kr)) as [Hk|Hk].
    + rewrite bool_decide_eq_true_2; [done|]. destruct Hx as [|Hx]; [by left|]. destruct Hk as [|Hk]; [by left|].
      right. set_solver.
    + rewrite bool_decide_eq_false_2; [done|]. intros [H|H]; [apply Hk; by left|]. apply Hk. right. set_solver.
  - rewrite bool_decide_eq_false_2; [done|]. intros [H|H]; [apply Hx; by left|]. apply Hx. right. set_solver.
Qed.

(** The state of the scan: the map holds each record under its key, and together with
    the keyless ones these are the last ones per key. *)
Definition scan_ok (st : gmap (list byte) keyRecord * list keyRecord) (l : list keyRecord) : Prop :=
  (map_to_list st.1).*2 ++ st.2 ≡ₚ lastPerKey l /\
  (forall k kr, st.1 !! k = Some kr -> keyOf kr = k /\ k <> []) /\ Forall (fun kr => keyOf kr = []) st.2.

Lemma map_keys_ne (m : gmap (list byte) keyRecord) k :
  (forall k kr, m !! k = Some kr -> keyOf kr = k /\ k <> []) ->
  filter (fun x => keyOf x = [] \/ keyOf x <> k) (map_to_list m).*2 ≡ₚ (map_to_list (delete k m)).*2.
Proof.
  intros Hm. assert (Hrest : forall x, x ∈ (map_to_list (delete k m)).*2 -> keyOf x = [] \/ keyOf x <> k).
  { intros x ([k' x'] & -> & Hx)%list_elem_of_fmap. apply elem_of_map_to_list in Hx. cbn.
    apply lookup_delete_Some in Hx as [Hne Hx]. destruct (Hm _ _ Hx) as [-> _]. right. congruence. }
  destruct (m !! k) as [y|] eqn:E.
  - rewrite <- (map_to_list_delete m k y) by done. cbn [fmap list_fmap snd]. destruct (Hm _ _ E) as [Hk Hne].
    rewrite filter_cons_False by (intros [?|?]; congruence).
    rewrite filter_all; [done|]. by apply Forall_forall.
  - rewrite delete_id in * by done. rewrite filter_all; [done|]. by apply Forall_forall.
Qed.

Lemma scanKey_ok st l kr : scan_ok st l -> scan_ok (scanKey st kr) (l ++ [kr]).
Proof.
  intros (Hp & Hm & Hkl). unfold scanKey. case_bool_decide as E; (split_and!; [..|]); cbn [fst snd].
  - rewrite lastPerKey_snoc, filter_all.
    + by rewrite app_assoc, Hp.
    + apply Forall_forall. intros x _. rewrite E. destruct (decide (keyOf x = [])); [by left | by right].
  - done.
  - apply Forall_app. split; [done|]. by constructor.
  - rewrite <- insert_delete_eq, map_to_list_insert by (by rewrite lookup_delete_eq). cbn [fmap list_fmap snd].
    rewrite lastPerKey_snoc, <- Hp, filter_app, (map_keys_ne _ _ Hm).
    rewrite (filter_all _ st.2); [|eapply Forall_impl; [exact Hkl|]; intros x Hx; by left].
    cbn [app]. by rewrite Permutation_cons_append.
  - intros k x. destruct (decide (k = keyOf kr)) as [->|Hne].
    + rewrite lookup_insert_eq. by intros [= <-].
    + rewrite lookup_insert_ne by done. apply Hm.
  - done.
Qed.

Lemma scanKeys_ok l : scan_ok (foldl scanKey (∅, []) l) l.
Proof.
  induction l as [|kr l IH] using rev_ind.
  - split_and!; [cbn; by rewrite map_to_list_empty | cbn; intros k kr; by rewrite lookup_empty | constructor].
  - rewrite foldl_app. by apply scanKey_ok.
Qed.

Lemma lastPerKey_sublist l : sublist (lastPerKey l) l.
Proof. induction l as [|x l IH]; [constructor|]. cbn. case_bool_decide; by constructor. Qed.

Lemma survivors_spec l : increasingOffsets l -> survivors (foldl scanKey (∅, []) l) = lastPerKey l.
Proof.
  intros Hinc. destruct (scanKeys_ok l) as [Hp _]. unfold survivors, sortKeyRecords.
  assert (Hsub : increasingOffsets (lastPerKey l)) by (eapply StronglySorted_sublist; [apply lastPerKey_sublist | done]).
  assert (Htr : Transitive le_offset) by (intros a b c; unfold le_offset; lia).
  assert (Hto : Total le_offset) by (intros a b; unfold le_offset; lia).
  pose proof (merge_sort_Permutation le_offset ((map_to_list (foldl scanKey (∅, []) l).1).*2 ++ (foldl scanKey (∅, []) l).2)) as Hms.
  pose proof (Permutation_trans Hms Hp) as Hall. clear Hms Hp. apply (StronglySorted_unique_strong le_offset).
  - intros a b Ha Hb H1 H2. rewrite Hall in Ha. unfold le_offset in *. clear -Hsub Ha Hb H1 H2.
    induction Hsub as [|x k Hk IH Hx]; [by apply elem_of_nil in Ha|]. rewrite Forall_forall in Hx.
    apply elem_of_cons in Ha as [->|Ha], Hb as [->|Hb]; [done | | |by apply IH].
    + specialize (Hx _ Hb). lia.
    + specialize (Hx _ Ha). lia.
  - apply (StronglySorted_merge_sort le_offset).
  - clear -Hsub. induction Hsub as [|x k Hk IH Hx]; constructor; [done|]. eapply Forall_impl; [exact Hx|].
    unfold le_offset. intros. lia.
  - exact Hall.
Qed.

Lemma offsetsFrom_sorted recs : forall o, increasingOffsets ((fun p => mkKey p.1 p.2) <$> offsetsFrom o recs).
Proof.
  induction recs as [|r recs IH]; intros o; [constructor|]. cbn. constructor; [apply IH|].
  apply Forall_fmap, Forall_forall. intros p Hp%offsetsFrom_bounds. cbn. lia.
Qed.

Lemma keyRecords_sorted bs : ordered bs -> Forall numbered bs -> increasingOffsets (keyRecords bs).
Proof.
  induction bs as [|b bs IH]; intros Ho Hn; [constructor|]. destruct Ho as (Hr & Hlo & Ho).
  apply Forall_cons in Hn as [[Hc _] Hn]. unfold keyRecords, recordsOf. cbn [fmap list_fmap concat]. rewrite fmap_app.
  apply StronglySorted_app_2; [|apply offsetsFrom_sorted | by apply IH].
  intros x y (p & -> & Hp)%list_elem_of_fmap (q & -> & Hq)%list_elem_of_fmap. cbn.
  apply offsetsFrom_bounds in Hp. pose proof (recordsOf_bounds _ _ _ Hlo Hq). lia.
Qed.

(** ** Lemmas: writing *)

(** The batches [writeBatches] makes of the records, and their encodings. *)
Fixpoint chunkBatches (fuel : nat) (base : Z) (records : list keyRecord) : list RecordBatch :=
  match fuel with
  | O => []
  | S f =>
      match records with
      | [] => []
      | _ => chunkBatch base (take batchLimit records) :: chunkBatches f (base + Z.of_nat batchLimit) (drop batchLimit records)
      end
  end.
Definition encodeOne (L : lz4) (E : env) (b : RecordBatch) : list byte :=
  match EncodeBatch L b (poolBuf E) with Ok e => e | _ => [] end.
Definition encodeAll (L : lz4) (E : env) (bs : list RecordBatch) : list (list byte) := encodeOne L E <$> bs.

Definition storedAs (b b' : RecordBatch) : Prop := exists ct, b' = stored b ct.

Lemma encodable_stored L E b :
  lz4_ok L -> encodable L b ->
  exists ct, EncodeBatch L b (poolBuf E) = Ok (encodeOne L E b) /\ encodes L (encodeOne L E b) (stored b ct).
Proof.
  intros HL (Hok & Hsz & Hc). destruct (EncodeBatch_encodes L b (poolBuf E) HL Hok Hsz Hc) as (enc & ct & He & Henc).
  exists ct. unfold encodeOne. rewrite He. done.
Qed.

Lemma writeBatches_ok L cfg E : lz4_ok L -> fault E = None -> forall fuel records base s fs encs bs,
  (length records < fuel)%nat -> seg_ok L s fs encs bs -> 0 <= sbase s -> 0 <= base ->
  (records <> [] -> nextOffset s = base) -> base + zlen records < 2 ^ 64 ->
  Forall (encodable L) (chunkBatches fuel base records) -> endOf 0 bs + zlen records < 2 ^ 32 ->
  zlen (concat (encs ++ encodeAll L E (chunkBatches fuel base records))) < 2 ^ 64 ->
  exists s' fs' bs', writeBatches L cfg fuel E s fs records base = Ok (s', fs') /\
    seg_ok L s' fs' (encs ++ encodeAll L E (chunkBatches fuel base records)) (bs ++ bs') /\ sbase s' = sbase s /\
    Forall2 storedAs (chunkBatches fuel base records) bs' /\ mmapLen s' = mmapLen s.
Proof.
  intros HL Hft. induction fuel as [|f IH]; intros records base s fs encs bs Hlen Hok Hsb Hb Hnext Hlt Henc H32 H64; [lia|].
  cbn [writeBatches chunkBatches] in *. destruct records as [|r records].
  { exists s, fs, []. cbn. rewrite !app_nil_r. done. }
  set (recs := r :: records) in *. specialize (Hnext ltac:(done)).
  apply Forall_cons in Henc as [Hb1 Henc]. set (b := chunkBatch base (take batchLimit recs)) in *.
  destruct (encodable_stored L E b HL Hb1) as (ct & He & Hes). rewrite He. cbn [mbind outcome_bind].
  set (enc := encodeOne L E b) in *. assert (Htl : 0 < zlen (take batchLimit recs) <= 1000).
  { unfold zlen. rewrite length_take. unfold recs, batchLimit. cbn [length]. lia. }
  assert (Hbb : BaseOffset b = base) by done.
  assert (Hrc : RecordCount b = zlen (take batchLimit recs)).
  { unfold b, chunkBatch, u16. cbn [RecordCount]. apply Z.mod_small. lia. }
  assert (Hle : zlen (take batchLimit recs) <= zlen recs) by (unfold zlen; rewrite length_take; lia).
  set (todo := chunkBatches f _ _) in *. change (encodeAll L E (b :: todo)) with (enc :: encodeAll L E todo) in *.
  pose proof H64 as H64'. rewrite concat_app, zlen_app in H64'. pose proof (zlen_nonneg (concat (enc :: encodeAll L E todo))).
  destruct (segAppend_ok L cfg s fs encs bs enc (stored b ct) Hok Hes) as (s1 & fs1 & Ha & Hok1 & Hs1);
    try (cbn [stored BaseOffset RecordCount]; done || lia).
  rewrite Hft, (segAppend_batch cfg s fs enc b (stored b ct) None eq_refl eq_refl), Ha. cbn [mbind outcome_bind].
  assert (Hn1 : nextOffset s1 = base + RecordCount b).
  { rewrite (so_next _ _ _ _ _ Hok1), Hs1, endOf_app, <- (so_next _ _ _ _ _ Hok). cbn. lia. }
  assert (Hd : zlen (drop batchLimit recs) = zlen recs - RecordCount b).
  { rewrite Hrc. unfold zlen. rewrite length_drop, length_take. lia. }
  assert (Hdn : drop batchLimit recs <> [] -> RecordCount b = Z.of_nat batchLimit).
  { intros Hne. rewrite Hrc. unfold zlen. rewrite length_take.
    destruct (decide (batchLimit <= length recs)%nat); [lia|]. destruct Hne. apply drop_ge. lia. }
  destruct (decide (drop batchLimit recs = [])) as [Enil|Hne].
  - assert (todo = []) as Et by (unfold todo; rewrite Enil; by destruct f). rewrite Enil. exists s1, fs1, [stored b ct].
    rewrite Et in *. destruct f as [|f]; [unfold recs in Hlen; cbn in Hlen; lia|]. split_and!; try done.
    + constructor; [by eexists | constructor].
    + by eapply segAppend_mmap.
  - rewrite u64_small by (rewrite <- (Hdn Hne); lia). pose proof (Hdn Hne) as Hrl.
    destruct (IH (drop batchLimit recs) (base + Z.of_nat batchLimit) s1 fs1 (encs ++ [enc]) (bs ++ [stored b ct])) as
      (s' & fs' & bs' & Hw & Hok' & Hsb' & Hst & Hmm); try (done || lia).
    + rewrite length_drop. unfold recs, batchLimit in *. cbn [length] in *. lia.
    + rewrite endOf_app. cbn [endOf stored RecordCount]. lia.
    + rewrite <- app_assoc. exact H64.
    + exists s', fs', (stored b ct :: bs'). rewrite <- !app_assoc in Hok'. split_and!; try done.
      * congruence.
      * constructor; [by eexists | done].
      * rewrite Hmm. by eapply segAppend_mmap.
Qed.

(** ** Lemmas: staging and swapping *)

Lemma segClose_ok L s fs encs bs :
  seg_ok L s fs encs bs ->
  exists s' fs', segClose s fs = Ok (s', fs') /\ seg_ok L s' fs' encs bs /\ sbase s' = sbase s.
Proof.
  intros [H1 H2 H3 H4 H5 H6 H7 H8 H9]. unfold segClose.
  destruct (Sync_durable (sindex s) (idxFile fs) 0 H7) as [(idx' & file' & Es & Hs' & Hes & _) _].
  rewrite Es. apply Sync_base in Es. cbn [mbind outcome_bind orPanic]. do 2 eexists. split; [done|]. split; [|done].
  split; cbn; try done; rewrite ?Hes; congruence || done.
Qed.

Definition withStaging (st : gmap Z nat) (d : disk) : disk := mkDisk (dir d) st (inodes d) (nextIno d).

Lemma writeInode_staging E st d i fs : writeInode E (withStaging st d) i fs = withStaging st (writeInode E d i fs).
Proof. done. Qed.

Lemma Remove_staging E st d d' o : Remove E d o = Ok d' -> Remove E (withStaging st d) o = Ok (withStaging st d').
Proof.
  unfold Remove, closeObj. change (getFiles (withStaging st d) o) with (getFiles d o).
  destruct (getFiles d o) as [fs|]; [|done]. cbn [mbind outcome_bind orPanic].
  destruct (segClose (seg o) fs) as [[s fs']| | |]; try done. cbn [mbind outcome_bind]. by intros [= <-].
Qed.

Lemma removeAll_staging E st l : forall d d',
  removeAll E l d = Ok d' -> removeAll E l (withStaging st d) = Ok (withStaging st d').
Proof.
  induction l as [|o l IH]; intros d d'; cbn [removeAll]; [by intros [= <-]|].
  destruct (Remove E d o) as [d1| | |] eqn:Er; try done. rewrite (Remove_staging _ _ _ _ _ Er).
  cbn [mbind outcome_bind]. apply IH.
Qed.

Lemma removeSegments_staging E st cl cl' d d' l :
  removeSegments E cl d l = Ok (cl', d') -> removeSegments E cl (withStaging st d) l = Ok (cl', withStaging st d').
Proof.
  unfold removeSegments. destruct (removeAll E l d) as [d1| | |] eqn:Er; try done.
  rewrite (removeAll_staging _ _ _ _ _ Er). cbn [mbind outcome_bind]. by intros [= <- <-].
Qed.

Lemma removeLoop_all E (drop : segObj -> bool) l : forall total d l' d',
  removeLoop E (fun _ => drop) total l d = Ok (l', d') -> removeAll E (filter (fun o => drop o = true) l) d = Ok d'.
Proof.
  induction l as [|o l IH]; intros total d l' d'; cbn [removeLoop]; [by intros [= <- <-]|].
  rewrite filter_cons. destruct (drop o) eqn:Ho.
  - rewrite decide_True by done. cbn [removeAll]. destruct (Remove E d o); try done. cbn [mbind outcome_bind]. apply IH.
  - rewrite decide_False by done. destruct (removeLoop _ _ _ _ _) as [[k d1]| | |] eqn:Er; try done.
    cbn [mbind outcome_bind]. intros [= <- <-]. by eapply IH.
Qed.

Lemma Remove_inode E d d' o i :
  Remove E d o = Ok d' -> i <> ino o -> inodes d' !! i = inodes d !! i /\ nextIno d' = nextIno d.
Proof.
  unfold Remove, closeObj. intros Hr Hi. destruct (getFiles d o) as [fs|]; [|done]. cbn [mbind outcome_bind orPanic] in Hr.
  destruct (segClose (seg o) fs) as [[s fs']| | |]; try done. cbn [mbind outcome_bind] in Hr. injection Hr as <-.
  cbn. by rewrite lookup_insert_ne.
Qed.

Lemma removeAll_inode E l i : forall d d',
  removeAll E l d = Ok d' -> i ∉ ino <$> l -> inodes d' !! i = inodes d !! i /\ nextIno d' = nextIno d.
Proof.
  induction l as [|o l IH]; intros d d'; cbn [removeAll]; [by intros [= <-]|].
  destruct (Remove E d o) as [d1| | |] eqn:Er; try done. cbn [mbind outcome_bind].
  intros Hl Hi. cbn in Hi. apply not_elem_of_cons in Hi as [Hi1 Hi2].
  destruct (Remove_inode _ _ _ _ i Er Hi1) as [<- <-]. by apply IH.
Qed.

(** Files outside the log's directory can change. *)
Lemma log_data_inodes L cl d d' g :
  log_data L cl d g -> (forall o, o ∈ segments cl -> getFiles d' o = getFiles d o) -> dir d' = dir d -> staging d' = ∅ ->
  disk_ok d' -> log_data L cl d' g.
Proof.
  intros [H1 H2 H3 H4 H5 H6 H7 H8 H9 H10] Hf Hd Hs Hok. split; try done.
  - apply Forall2_same_length_lookup_2; [by eapply Forall2_length|]. intros i o e Hi He.
    destruct (Forall2_lookup_lr _ _ _ _ _ _ H1 Hi He) as [(fs & es & Hfs & Hr) Hx].
    split; [exists fs, es; split; [rewrite Hf; [done | by eapply list_elem_of_lookup_2] | done] | by rewrite Hd].
  - by rewrite Hd.
Qed.

Lemma kept_const drop l : forall total,
  kept (fun _ => drop) total l = filter (fun oe => drop oe.1 = false) l.
Proof.
  induction l as [|[o e] l IH]; intros total; [done|]. cbn [kept]. rewrite filter_cons. cbn [fst].
  destruct (drop o); [rewrite decide_False by done; apply IH | rewrite decide_True by done; by rewrite IH].
Qed.

Definition inSids (l : list segObj) (o : segObj) : bool := bool_decide (sid o ∈ sid <$> l).

(** The segments of a middle part, by address. *)
Lemma sids_split (A R B : list segObj) :
  NoDup (sid <$> A ++ R ++ B) ->
  (forall o, o ∈ A -> inSids R o = false) /\ (forall o, o ∈ B -> inSids R o = false) /\ (forall o, o ∈ R -> inSids R o = true).
Proof.
  rewrite !fmap_app, !NoDup_app. intros (_ & H1 & _ & H2 & _).
  split_and!; intros o Ho; apply (list_elem_of_fmap_2 sid) in Ho; unfold inSids.
  - apply bool_decide_eq_false_2. intros Hr. eapply H1; [done|]. apply elem_of_app. by left.
  - apply bool_decide_eq_false_2. intros Hr. by eapply H2.
  - by apply bool_decide_eq_true_2.
Qed.

Lemma filter_middle {A} (P : A -> Prop) `{!forall x, Decision (P x)} (a r b : list A) :
  Forall P a -> Forall (fun x => ~ P x) r -> Forall P b -> filter P (a ++ r ++ b) = a ++ b.
Proof. intros Ha Hr Hb. by rewrite !filter_app, (filter_all P a), (filter_none P r), (filter_all P b). Qed.

Lemma Forall_zip_fst {A B} (P : A -> Prop) (l : list A) (k : list B) : (forall x, x ∈ l -> P x) -> Forall (fun p => P p.1) (zip l k).
Proof.
  intros Hp. apply Forall_lookup. intros i [x y] Hi. apply lookup_zip_with_Some in Hi as (x' & y' & [= -> ->] & Hx & _).
  apply Hp. by eapply list_elem_of_lookup_2.
Qed.

Lemma removeSegments_ok L E cl d g A R B gA gR gB :
  log_data L cl d g -> segments cl = A ++ R ++ B -> g = gA ++ gR ++ gB -> length A = length gA -> length R = length gR ->
  B <> [] ->
  exists d', removeAll E R d = Ok d' /\ removeSegments E cl d R = Ok (setSegments cl (A ++ B), d') /\
    log_data L (setSegments cl (A ++ B)) d' (gA ++ gB).
Proof.
  intros Hd Hs Hg HlA HlR HB. pose proof (ld_ids _ _ _ _ Hd) as Hnd. rewrite Hs in Hnd.
  destruct (sids_split A R B Hnd) as (HA & HBs & HR).
  assert (Hact : forall (t : Z) o, isActive cl o = true -> inSids R o = false).
  { intros _ o Ho. apply bool_decide_eq_false_2. intros Hin. apply Nat.eqb_eq in Ho.
    destruct (ld_active _ _ _ _ Hd) as (pre & a & Hs' & Ha & _). destruct (exists_last HB) as (B' & a' & ->).
    rewrite Hs' in Hs. rewrite (app_assoc A), (app_assoc _ B') in Hs. apply app_inj_tail in Hs as [_ ->].
    assert (Hf : inSids R a' = false) by (apply HBs, elem_of_app; right; by left).
    apply bool_decide_eq_false in Hf. apply Hf. by rewrite Ha, <- Ho. }
  destruct (remove_log_data L E (fun _ => inSids R) 0 cl d g Hd Hact) as (d' & Hr & Hld).
  assert (Hk : kept (fun _ => inSids R) 0 (zip (segments cl) g) = zip A gA ++ zip B gB).
  { rewrite kept_const, Hs, Hg, !zip_with_app by done. apply filter_middle.
    - by apply (Forall_zip_fst (fun o => inSids R o = false)).
    - apply (Forall_zip_fst (fun o => inSids R o <> false)). intros o Ho. by rewrite (HR o Ho).
    - by apply (Forall_zip_fst (fun o => inSids R o = false)). }
  assert (HlB : length B = length gB).
  { pose proof (Forall2_length _ _ _ (ld_segs _ _ _ _ Hd)) as Hl. rewrite Hs, Hg, !length_app in Hl. lia. }
  rewrite Hk, !fmap_app in *. destruct (zip_fst_snd A gA HlA) as [E1 E2], (zip_fst_snd B gB HlB) as [E3 E4].
  rewrite E1, E3 in *. rewrite E2, E4 in *. apply removeLoop_all in Hr. exists d'.
  assert (Hfil : filter (fun o => inSids R o = true) (segments cl) = R).
  { rewrite Hs, !filter_app, (filter_none _ A), (filter_all _ R), (filter_none _ B), app_nil_r; [done | | | ];
      apply Forall_forall; intros o Ho; [by rewrite (HBs o Ho) | by apply HR | by rewrite (HA o Ho)]. }
  rewrite Hfil in Hr. split_and!; [done | | done]. unfold removeSegments. rewrite Hr. cbn [mbind outcome_bind].
  do 3 f_equal. rewrite Hs. apply filter_middle; apply Forall_forall; intros o Ho.
  - by apply (bool_decide_eq_false (sid o ∈ sid <$> R)), HA.
  - intros Hn. apply Hn. by apply (bool_decide_eq_true (sid o ∈ sid <$> R)), HR.
  - by apply (bool_decide_eq_false (sid o ∈ sid <$> R)), HBs.
Qed.

Lemma insertSorted_middle o A B :
  Forall (fun x => sbase (seg x) < sbase (seg o)) A -> Forall (fun x => sbase (seg o) <= sbase (seg x)) B ->
  insertSorted o (A ++ B) = A ++ o :: B.
Proof.
  intros HA HB. induction HA as [|x A Hx HA IH]; cbn [app insertSorted].
  - destruct B as [|y B]; [done|]. apply Forall_cons in HB as [Hy _]. cbn. destruct (Z.ltb_spec (sbase (seg y)) (sbase (seg o))); [lia|done].
  - destruct (Z.ltb_spec (sbase (seg x)) (sbase (seg o))); [|lia]. by rewrite IH.
Qed.

Lemma NoDup_middle {A} (a b : list A) x : NoDup (a ++ b) -> x ∉ a ++ b -> NoDup (a ++ x :: b).
Proof. intros Hnd Hx. rewrite <- Permutation_middle. by constructor. Qed.

Lemma elem_of_middle {A} (a b : list A) (x y : A) : y ∈ a ++ x :: b <-> y = x \/ y ∈ a ++ b.
Proof. set_solver. Qed.

(** A new segment between the others, its file under a free name. *)
Lemma log_data_insert L cl d d' A B gA gB o e i :
  log_data L cl d (gA ++ gB) -> segments cl = A ++ B -> length A = length gA -> B <> [] ->
  holds L d' o e -> sid o = nextId cl -> ino o = i -> i ∉ ino <$> A ++ B ->
  Forall2 (holds L d') (A ++ B) (gA ++ gB) -> dir d' = <[sbase (seg o) := i]> (dir d) -> staging d' = ∅ -> disk_ok d' ->
  linked (A ++ o :: B) ->
  log_data L (mkLog (A ++ o :: B) (activeSegment cl) (logNext cl) (closed cl) (S (nextId cl))) d' (gA ++ e :: gB).
Proof.
  intros [H1 H2 H3 H4 H5 (pre & a & Hs' & Ha & Hn) H7 H8 H9 H10] Hs HlA HB Ho Hid Hino Hfresh Hall Hdir Hst Hok Hlk.
  rewrite Hs in *. split; cbn [segments activeSegment logNext closed nextId]; try done.
  - apply Forall2_app_inv in Hall as [HA' HB']; [|done]. apply Forall2_app; [done|]. by constructor.
  - rewrite fmap_app, fmap_cons. apply NoDup_middle; [by rewrite <- fmap_app|]. rewrite <- fmap_app, Hid.
    intros (x & Hx & Hin)%list_elem_of_fmap. rewrite Forall_forall in H4. specialize (H4 x Hin). lia.
  - apply Forall_forall. intros x [->|Hx]%elem_of_middle; [lia|]. rewrite Forall_forall in H4. specialize (H4 x Hx). lia.
  - rewrite fmap_app, fmap_cons. apply NoDup_middle; rewrite <- fmap_app; [done | by rewrite Hino].
  - destruct (exists_last HB) as (B' & a' & ->). rewrite app_assoc in Hs'. apply app_inj_tail in Hs' as [Hp ->].
    exists (A ++ o :: B'), a. by rewrite <- app_assoc.
  - intros b j. rewrite Hdir. intros [[<- _]|[_ Hb]]%lookup_insert_Some.
    + exists o. split; [|done]. apply elem_of_middle. by left.
    + destruct (H9 b j Hb) as (x & Hx & <-). exists x. split; [|done]. apply elem_of_middle. by right.
Qed.

Lemma linked_app A B : linked (A ++ B) <-> linked A /\ linked B /\ (forall a b, a ∈ A -> b ∈ B -> precedes a b).
Proof. rewrite !linked_strong, StronglySorted_app. naive_solver. Qed.

Lemma linked_replace A R0 R B o :
  linked (A ++ (R0 :: R) ++ B) -> sbase (seg o) = sbase (seg R0) ->
  (forall b, b ∈ B -> nextOffset (seg o) <= sbase (seg b)) -> linked (A ++ o :: B).
Proof.
  intros (HA & (Hr & HB & Hrb)%linked_app & Har)%linked_app Hb Hnext. apply linked_app. split_and!.
  - done.
  - change (o :: B) with ([o] ++ B). rewrite linked_app. split_and!; [by split | done |].
    intros a b ->%list_elem_of_singleton Hin. destruct (Hrb R0 b ltac:(by left) Hin) as [H1 H2].
    split; [rewrite Hb; done | by apply Hnext].
  - intros a b Ha [->|Hin]%elem_of_cons.
    + destruct (Har a R0 Ha ltac:(by left)) as [H1 H2]. split; by rewrite Hb.
    + apply Har; [done|]. cbn. right. apply elem_of_app. by right.
Qed.

Definition emptySeg (E : env) (base : Z) : segment :=
  mkSegment (mkIndex 0 [] base 0) base 0 (now E) base 0 0 None.

Lemma empty_seg_ok L E base : seg_ok L (emptySeg E base) (mkFiles [] []) [] [].
Proof. split; done. Qed.

Lemma disk_ok_inode d n :
  disk_ok d -> disk_ok (mkDisk (dir d) ∅ (<[nextIno d := n]> (inodes d)) (S (nextIno d))).
Proof.
  intros [H1 H2]. split; cbn.
  - intros j m. rewrite lookup_insert_Some. intros [[<- _]|[_ Hj]]; [lia|]. specialize (H1 _ _ Hj). lia.
  - intros b j Hb. destruct (decide (j = nextIno d)) as [->|]; [by rewrite lookup_insert_eq|].
    rewrite lookup_insert_ne by done. by eapply H2.
Qed.

(** The first half of [stageAndSwapSegment]: the new segment is on disk, in an inode of
    its own, and the log is as it was. *)
Lemma staged_ok L E cl d g base s fs encs bs :
  log_data L cl d g -> seg_ok L s fs encs bs -> sbase s = base ->
  exists stage sd s' fs' n d1, openObj L E (swapDirs d) base (nextId cl) = Ok (stage, sd) /\
    seg stage = emptySeg E base /\ ino stage = nextIno d /\ getFiles (swapDirs sd) stage = Some (mkFiles [] []) /\
    closeObj E (writeInode E (swapDirs sd) (ino stage) fs) (mkObj (sid stage) s (ino stage)) =
      Ok (mkObj (sid stage) s' (ino stage), withStaging {[base := nextIno d]} d1) /\
    d1 = mkDisk (dir d) ∅ (<[nextIno d := mkInode fs' n]> (inodes d)) (S (nextIno d)) /\
    log_data L cl d1 g /\ seg_ok L s' fs' encs bs /\ sbase s' = base.
Proof.
  intros Hd Hok Hb. assert (Hst : staging d = ∅) by apply Hd.
  assert (Hsb : dir (swapDirs d) !! base = None) by (cbn; by rewrite Hst).
  destruct (openObj_new L E (swapDirs d) base (nextId cl) Hsb) as (stage & Ho & Es).
  destruct (segClose_ok L s fs encs bs Hok) as (s' & fs' & Hc & Hok' & Hb').
  cbn [nextIno swapDirs dir staging inodes] in *. rewrite Hst in Ho.
  do 3 eexists. exists fs'. eexists. eexists (mkDisk (dir d) ∅ (<[nextIno d := mkInode fs' _]> (inodes d)) (S (nextIno d))).
  split; [exact Ho|]. rewrite Es. cbn [seg ino sid].
  split; [done|]. split; [done|]. split; [unfold getFiles; cbn; by rewrite lookup_insert_eq|].
  unfold closeObj, getFiles. cbn [writeInode inodes swapDirs ino seg sid]. rewrite !lookup_insert_eq. cbn [fmap option_fmap option_map content].
  cbn [mbind outcome_bind orPanic]. rewrite Hc. cbn [mbind outcome_bind].
  split; [unfold writeInode, withStaging, swapDirs; cbn [inodes dir staging nextIno];
    rewrite !lookup_insert_eq, !insert_insert_eq, insert_empty; reflexivity|].
  split; [reflexivity|]. split_and!; [|done|congruence].
  eapply log_data_inodes; [exact Hd | | done | done | by apply disk_ok_inode, Hd].
  intros o Hin. unfold getFiles. cbn. destruct (holds_ino _ _ _ _ _ (ld_segs _ _ _ _ Hd) (ld_disk _ _ _ _ Hd) Hin).
  rewrite lookup_insert_ne by lia. done.
Qed.

(** A moved-in file is found under its base offset. *)
Lemma moved_file L fuel d i base fs n encs bs s :
  disk_ok d -> inodes d !! i = Some (mkInode fs n) -> seg_ok L s fs encs bs -> sbase s = base -> 0 <= base < 2 ^ 64 ->
  Forall small encs -> fitsRounds fuel (zlen (concat encs)) ->
  let d' := mkDisk (<[base := i]> (dir d)) ∅ (inodes d) (nextIno d) in
  disk_ok d' /\ fileAt L fuel d' base i (encs, bs).
Proof.
  intros [H1 H2] Hi Hok Hb Hr Hsm Hsz d'. split.
  - split; [exact H1|]. cbn. intros b j. rewrite lookup_insert_Some. intros [[_ <-]|[_ Hj]]; [by rewrite Hi | by eapply H2].
  - split; [cbn; by rewrite lookup_insert_eq|]. split; [done|].
    exists (mkInode fs n), [], (ztake (dirtyFrom (sindex s)) (entries (sindex s))). split_and!; [done | by apply seg_ok_hold | done | done |].
    cbn. by rewrite (so_log _ _ _ _ _ Hok).
Qed.

Lemma bases_distinct A R0 R B x : linked (A ++ (R0 :: R) ++ B) -> x ∈ A ++ B -> sbase (seg x) <> sbase (seg R0).
Proof.
  intros (_ & (_ & _ & HRB)%linked_app & HAR)%linked_app [Hx|Hx]%elem_of_app.
  - destruct (HAR x R0 Hx ltac:(by left)). lia.
  - destruct (HRB R0 x ltac:(by left) Hx). lia.
Qed.

Lemma stage_swap_ok L E cl d A R0 R B gA gR gB writeFn s fs encs bs :
  log_data L cl d (gA ++ gR ++ gB) -> segments cl = A ++ (R0 :: R) ++ B -> length A = length gA ->
  length (R0 :: R) = length gR -> B <> [] -> let base := sbase (seg R0) in
  writeFn (emptySeg E base) (mkFiles [] []) = Ok (s, fs) -> seg_ok L s fs encs bs -> sbase s = base ->
  (forall b, b ∈ B -> endOf base bs <= sbase (seg b)) ->
  Forall small encs -> fitsRounds (rounds E) (zlen (concat encs)) ->
  exists o cl' d', stageAndSwapSegment L E cl d (R0 :: R) base writeFn = Ok (cl', d') /\
    log_data L cl' d' (gA ++ (encs, bs) :: gB) /\ segments cl' = A ++ o :: B /\ logNext cl' = logNext cl /\
    activeSegment cl' = activeSegment cl.
Proof.
  intros Hd Hs HlA HlR HB base Hw Hok Hb Hend Hsm Hsz.
  destruct (staged_ok L E cl d _ base s fs encs bs Hd Hok Hb)
    as (stage & sd & s' & fs' & n & d1 & Ho & Hseg & Hino & Hgf & Hcl & Hd1 & Hld1 & Hok' & Hb').
  destruct (removeSegments_ok L E cl d1 _ A (R0 :: R) B gA gR gB Hld1 Hs eq_refl HlA HlR HB) as (d2 & Hra & Hrs & Hld2).
  assert (Hin0 : forall x, x ∈ segments cl -> (ino x < nextIno d)%nat /\ 0 <= sbase (seg x))
    by (intros; eapply holds_ino; [apply Hd | apply Hd | done]).
  assert (Hfresh : forall l, l ⊆ segments cl -> nextIno d ∉ ino <$> l).
  { intros l Hl (x & Ex & Hx)%list_elem_of_fmap. destruct (Hin0 x (Hl x Hx)). lia. }
  assert (Hi2 : inodes d2 !! nextIno d = Some (mkInode fs' n)).
  { destruct (removeAll_inode E _ (nextIno d) d1 d2 Hra) as [-> _]; [apply Hfresh; rewrite Hs; set_solver|].
    rewrite Hd1. cbn. by rewrite lookup_insert_eq. }
  assert (Hbr : 0 <= base < 2 ^ 64).
  { assert (Hx : segments cl !! length A = Some R0) by (rewrite Hs; by apply list_lookup_middle).
    destruct (Forall2_lookup_l _ _ _ _ _ (ld_segs _ _ _ _ Hd) Hx) as (e & _ & [_ (_ & _ & Hr)]). done. }
  destruct (moved_file L (rounds E) d2 (nextIno d) base fs' n encs bs s' (ld_disk _ _ _ _ Hld2) Hi2 Hok' Hb' Hbr Hsm Hsz) as [Hok5 Hfa].
  set (d3 := mkDisk (<[base := nextIno d]> (dir d2)) ∅ (inodes d2) (nextIno d2)) in *.
  destruct (openObj_file L E d3 base (nextIno d) (encs, bs) (nextId cl) Hfa Hok5)
    as (o & d4 & Hop & Hido & Hinoo & Hbo & Hmmo & Hho & fs4 & Hd4).
  exists (sealObj E o), (insertSegmentSorted (setSegments cl (A ++ B)) (sealObj E o)), d4.
  destruct (seal_fields (mapped E) (seg o)) as (Hsl1 & Hsl2 & _).
  assert (Hlk : linked (A ++ sealObj E o :: B)).
  { apply (linked_replace A R0 R); [rewrite <- Hs; apply Hd | cbn; by rewrite Hsl1, Hbo |]. intros b Hbb.
    cbn. rewrite Hsl2. destruct Hho as [(f & es & _ & Hda & _) _]. rewrite (sd_next _ _ _ _ _ Hda), Hbo. by apply Hend. }
  assert (Hins : insertSorted (sealObj E o) (A ++ B) = A ++ sealObj E o :: B).
  { apply linked_app in Hlk as (_ & (_ & _ & HB')%(linked_app [sealObj E o]) & HA').
    apply insertSorted_middle; apply Forall_forall; intros x Hx.
    - apply HA'; [done | by left].
    - destruct (HB' (sealObj E o) x ltac:(by left) Hx). lia. }
  split_and!; try done.
  - unfold stageAndSwapSegment. rewrite Ho. cbn [mbind outcome_bind]. rewrite Hgf. cbn [mbind outcome_bind orPanic].
    rewrite Hseg, Hw. cbn [mbind outcome_bind]. rewrite Hcl. cbn [mbind outcome_bind].
    rewrite (removeSegments_staging _ _ _ _ _ _ _ Hrs). cbn [mbind outcome_bind dir inodes nextIno withStaging ino].
    rewrite Hino. fold d3. cbn [nextId setSegments]. rewrite Hop. done.
  - unfold insertSegmentSorted. cbn [segments setSegments activeSegment logNext closed nextId]. rewrite Hins.
    apply (log_data_insert L (setSegments cl (A ++ B)) d2 d4 A B gA gB (sealObj E o) (encs, bs) (nextIno d)); try done.
    + by apply holds_seal.
    + apply Hfresh. rewrite Hs. set_solver.
    + rewrite Hd4. apply Forall2_holds_write; [|apply Hfresh; rewrite Hs; set_solver].
      pose proof (ld_segs _ _ _ _ Hld2) as Hsg. cbn in Hsg. 
      apply Forall2_same_length_lookup_2; [by eapply Forall2_length|]. intros i x e Hi He.
      destruct (Forall2_lookup_lr _ _ _ _ _ _ Hsg Hi He) as [Hf (Hm & Hdx & Hr)]. split; [exact Hf|].
      split_and!; [done | | lia | lia]. cbn. rewrite lookup_insert_ne; [done|]. symmetry.
      eapply bases_distinct; [rewrite <- Hs; apply Hd | by eapply list_elem_of_lookup_2].
    + rewrite Hd4. cbn. by rewrite Hsl1, Hbo.
    + by rewrite Hd4.
    + rewrite Hd4. apply disk_ok_write; [done|]. cbn. apply (ld_disk _ _ _ _ Hld2) in Hi2. done.
Qed.

(** ** Lemmas: compaction *)

Lemma sealed_prefix L cl d g pre a :
  log_data L cl d g -> segments cl = pre ++ [a] -> sealedSegments cl = pre.
Proof.
  intros Hd Hs. destruct (ld_active _ _ _ _ Hd) as (pre' & a' & Hs' & Ha & _). rewrite Hs in Hs'.
  apply app_inj_tail in Hs' as [<- <-]. unfold sealedSegments. rewrite Hs, zlen_app. change (zlen [a]) with 1.
  destruct (Z.leb_spec (zlen pre + 1) 1).
  { symmetry. apply zlen_zero. pose proof (zlen_nonneg pre). lia. }
  rewrite filter_app, filter_all, filter_none, app_nil_r; [done | |].
  - constructor; [|constructor]. unfold isActive. rewrite Ha, Nat.eqb_refl. done.
  - apply Forall_forall. intros o Ho. unfold isActive. apply Nat.eqb_neq. rewrite <- Ha. intros Eo.
    pose proof (ld_ids _ _ _ _ Hd) as Hnd. rewrite Hs, fmap_app, NoDup_app in Hnd. destruct Hnd as (_ & Hx & _).
    apply (Hx (sid o)); [by apply list_elem_of_fmap_2|]. rewrite Eo. by left.
Qed.

Lemma after_all o bs : chained o bs -> after o bs = bs.
Proof.
  intros Hc. apply filter_all, Forall_forall. intros b Hb. destruct (chained_bounds o bs b Hc Hb) as [H _].
  assert (0 < RecordCount b); [|lia]. clear H. revert o Hc. induction bs as [|x bs IH]; intros o Hc; [by apply elem_of_nil in Hb|].
  destruct Hc as (_ & _ & H0 & _ & Hc). apply elem_of_cons in Hb as [->|Hb]; [done | by eapply IH].
Qed.

Lemma readAll_ok L d o e : holds L d o e -> readAllBatches L d o = Ok e.2.
Proof.
  intros [(fs & es & Hf & Hda & _) (Hm & _ & Hb)]. unfold readAllBatches. rewrite Hf. cbn [mbind outcome_bind orPanic].
  rewrite (ReadFrom_data L _ _ _ _ _ _ Hda Hm) by lia. f_equal. apply after_all, Hda.
Qed.

Lemma scanSegments_ok L d l g : Forall2 (holds L d) l g -> forall st,
  scanSegments L d l st = Ok (foldl scanBatch st (batches g)).
Proof.
  induction 1 as [|o e l g Ho _ IH]; intros st; [done|]. cbn [scanSegments]. rewrite (readAll_ok _ _ _ _ Ho).
  cbn [mbind outcome_bind]. rewrite IH. unfold batches. cbn [fmap list_fmap concat]. by rewrite foldl_app.
Qed.

Lemma increasing_count lo hi l :
  increasingOffsets l -> Forall (fun kr => lo <= koffset kr < hi) l -> lo <= hi -> zlen l <= hi - lo.
Proof.
  intros Hinc. revert lo. induction Hinc as [|kr l Hl IH Hk]; intros lo Hr Hle; [unfold zlen; cbn; lia|].
  apply Forall_cons in Hr as [Hkr Hr]. unfold zlen in *. cbn [length].
  assert (Hn : Z.of_nat (length l) <= hi - (koffset kr + 1)); [|lia]. apply IH; [|lia].
  rewrite Forall_forall in Hr, Hk |- *. intros x Hx. specialize (Hr x Hx). specialize (Hk x Hx). cbn in *. lia.
Qed.

(** Records as they are, apart from the position in their batch. *)
Definition noDelta (r : Record_) : Record_ := mkRecord (TimestampDelta r) 0 (Key r) (Value r) (Headers r).

Lemma imap_numbered recs : forall n : nat, numberedFrom (Z.of_nat n) (imap (fun i => setDelta (n + i)) recs).
Proof.
  induction recs as [|r recs IH]; intros n; [done|]. rewrite imap_cons. split; [cbn; lia|].
  replace (Z.of_nat n + 1) with (Z.of_nat (S n)) by lia. specialize (IH (S n)).
  erewrite imap_ext; [exact IH|]. intros i x _. cbn. f_equal. lia.
Qed.

Lemma imap_noDelta recs : forall f, noDelta <$> imap (fun i => setDelta (f i)) recs = noDelta <$> recs.
Proof.
  induction recs as [|r recs IH]; intros f; [done|]. rewrite imap_cons. cbn [fmap list_fmap]. f_equal.
  apply (IH (fun i => f (S i))).
Qed.

Lemma offsetsFrom_fst recs : forall o, (offsetsFrom o recs).*1 = seqZ o (zlen recs) /\ (offsetsFrom o recs).*2 = recs.
Proof.
  induction recs as [|r recs IH]; intros o; [done|]. destruct (IH (o + 1)) as [H1 H2].
  cbn [offsetsFrom]. rewrite !fmap_cons. cbn [fst snd]. rewrite H1, H2. split; [|done].
  change (zlen (r :: recs)) with (Z.of_nat (S (length recs))). rewrite Nat2Z.inj_succ.
  rewrite (seqZ_cons o (Z.succ _)) by lia. f_equal. rewrite Z.pred_succ. unfold Z.succ. done.
Qed.

Lemma chunk_numbered base l ct : 0 < zlen l < 2 ^ 16 -> numbered (stored (chunkBatch base l) ct).
Proof.
  intros Hl. split.
  - cbn [stored RecordCount Records chunkBatch]. unfold u16, zlen in *. rewrite length_imap, length_fmap.
    apply Z.mod_small. lia.
  - exact (imap_numbered (krec <$> l) 0).
Qed.

(** What is written is what survived, renumbered from the base offset. *)
Lemma chunks_records fuel : forall base l bs,
  (length l < fuel)%nat -> Forall2 storedAs (chunkBatches fuel base l) bs ->
  noDelta <$> (recordsOf bs).*2 = noDelta ∘ krec <$> l /\ (recordsOf bs).*1 = seqZ base (zlen l) /\
  Forall numbered bs /\ endOf base bs = base + zlen l.
Proof.
  induction fuel as [|f IH]; intros base l bs Hl Hst; [lia|]. cbn [chunkBatches] in Hst.
  destruct l as [|kr l]; [apply Forall2_nil_inv_l in Hst as ->; split_and!; try done; cbn; unfold zlen; cbn; lia|].
  set (l0 := kr :: l) in *. apply Forall2_cons_inv_l in Hst as (b & bs' & [ct ->] & Hst & ->).
  assert (Ht : 0 < zlen (take batchLimit l0) <= 1000 /\ zlen (take batchLimit l0) + zlen (drop batchLimit l0) = zlen l0).
  { unfold zlen. rewrite length_take, length_drop. unfold l0, batchLimit. cbn [length]. lia. }
  assert (Hn : numbered (stored (chunkBatch base (take batchLimit l0)) ct)) by (apply chunk_numbered; lia).
  destruct (IH (base + Z.of_nat batchLimit) (drop batchLimit l0) bs') as (H1 & H2 & H3 & H4);
    [rewrite length_drop; unfold l0, batchLimit in *; cbn [length] in *; lia | done |].
  assert (Hb : endOf base bs' = base + zlen (drop batchLimit l0)) by (rewrite endOf_shift in H4 |- *; lia).
  set (recs := Records (stored (chunkBatch base (take batchLimit l0)) ct)) in *.
  destruct (offsetsFrom_fst recs base) as [Hf1 Hf2].
  assert (Hrl : zlen recs = zlen (take batchLimit l0)).
  { unfold recs, zlen. cbn. by rewrite length_imap, length_fmap. }
  unfold recordsOf. cbn [fmap list_fmap concat BaseOffset stored chunkBatch]. fold (recordsOf bs').
  fold recs. rewrite !fmap_app. rewrite Hf1, Hf2, H1, H2. split_and!.
  - rewrite <- (take_drop batchLimit l0) at 2. rewrite fmap_app. f_equal.
    unfold recs. cbn [Records stored chunkBatch]. rewrite (imap_noDelta _ (fun i => i)). symmetry. apply list_fmap_compose.
  - rewrite Hrl. destruct (decide (drop batchLimit l0 = [])) as [E0|Hne].
    + rewrite E0 in *. cbn [zlen length]. change (zlen []) with 0 in *. rewrite app_nil_r. f_equal. lia.
    + replace (zlen l0) with (zlen (take batchLimit l0) + zlen (drop batchLimit l0)) by lia.
      rewrite seqZ_app by (try apply zlen_nonneg). f_equal. f_equal.
      unfold zlen. rewrite length_take. destruct (decide (batchLimit <= length l0)%nat); [lia|].
      destruct Hne. apply drop_ge. lia.
  - by constructor.
  - cbn [endOf]. destruct Hn as [-> _]. fold recs. rewrite Hrl, endOf_shift. rewrite endOf_shift in Hb. lia.
Qed.

Lemma sealed_offsets L d l g o :
  Forall2 (holds L d) l g -> linked (l ++ [o]) -> Forall numbered (batches g) ->
  forall first l', l = first :: l' ->
  Forall (fun kr => sbase (seg first) <= koffset kr < sbase (seg o)) (keyRecords (batches g)).
Proof.
  intros Hs Hlk Hn first l' El. apply Forall_forall. intros kr ([p r] & -> & Hp)%list_elem_of_fmap. cbn.
  apply recordsOf_elem in Hp as (b & Hb & Hr). rewrite Forall_forall in Hn. destruct (Hn b Hb) as [Hc _].
  apply offsetsFrom_bounds in Hr. cbn in Hr. apply batches_lookup in Hb as (j & e & Hj & Hbe).
  destruct (Forall2_lookup_r _ _ _ _ _ Hs Hj) as (x & Hx & Hh). destruct (holds_bounds _ _ _ _ _ Hh Hbe) as [H1 H2].
  apply linked_app in Hlk as (Hl & _ & Hlast).
  destruct (Hlast x o ltac:(by eapply list_elem_of_lookup_2) ltac:(by left)) as [H3 H4].
  assert (Hfx : sbase (seg first) <= sbase (seg x)); [|lia]. subst l. destruct j as [|j].
  - injection Hx as ->. lia.
  - destruct (linked_lookup (first :: l') 0 (S j) first x Hl ltac:(lia) eq_refl Hx). lia.
Qed.

(** The survivors of a log, by the specification. *)
Definition compacted (gp : ghost) : list keyRecord := lastPerKey (keyRecords (batches gp)).

Lemma Compact_ok L cfg E cl d gp ga pre a :
  lz4_ok L -> fault E = None -> log_data L cl d (gp ++ [ga]) -> segments cl = pre ++ [a] -> pre <> [] ->
  Forall numbered (batches gp) ->
  let kept := compacted gp in let base := OldestOffset cl in
  Forall (encodable L) (chunkBatches (S (length kept)) base kept) -> zlen kept < 2 ^ 32 ->
  let out := encodeAll L E (chunkBatches (S (length kept)) base kept) in
  Forall small out -> fitsRounds (rounds E) (zlen (concat out)) ->
  exists cl' d' g1 bs, Compact L cfg E cl d = Ok (cl', d') /\ log_data L cl' d' (g1 ++ [ga]) /\ batches g1 = bs /\
    logNext cl' = logNext cl /\ activeSegment cl' = activeSegment cl /\
    noDelta <$> (recordsOf bs).*2 = noDelta ∘ krec <$> kept /\ (recordsOf bs).*1 = seqZ base (zlen kept) /\
    Forall numbered bs.
Proof.
  intros HL Hft Hd Hs Hne Hn kept base Henc H32 out Hsm Hsz. destruct pre as [|first pre]; [done|].
  assert (Hbase : base = sbase (seg first)) by (unfold base, OldestOffset; by rewrite Hs).
  pose proof (ld_segs _ _ _ _ Hd) as Hsegs. rewrite Hs in Hsegs. apply Forall2_snoc_inv_l' in Hsegs as (g' & e' & Eg & Hpre & Hla).
  apply app_inj_tail in Eg as [<- <-].
  assert (Hord : ordered (batches gp)).
  { pose proof (log_ordered _ _ _ _ Hd) as Ho. unfold batches in Ho. rewrite fmap_app, concat_app in Ho.
    eapply ordered_sublist; [|exact Ho]. by apply sublist_inserts_r. }
  assert (Hinc : increasingOffsets (keyRecords (batches gp))) by (by apply keyRecords_sorted).
  unfold Compact. rewrite (ld_open _ _ _ _ Hd), (sealed_prefix _ _ _ _ _ _ Hd Hs). cbv beta iota zeta.
  rewrite (scanSegments_ok _ _ _ _ Hpre). cbn [mbind outcome_bind]. rewrite (scanBatch_keys _ _ Hord Hn), survivors_spec by done.
  change (lastPerKey (keyRecords (batches gp))) with kept.
  destruct (decide (kept = [])) as [E0|Hk0].
  - rewrite E0. destruct (removeSegments_ok L E cl d _ [] (first :: pre) [a] [] gp [ga] Hd Hs eq_refl eq_refl) as (d' & _ & Hr & Hld);
      [by eapply Forall2_length | done |]. eexists _, d', [], []. rewrite Hr. split_and!; try done.
  - assert (Hcnt : zlen kept <= sbase (seg a) - base).
    { rewrite Hbase. destruct (linked_app (first :: pre) [a]) as [Hx _]. pose proof (ld_linked _ _ _ _ Hd) as Hlk. rewrite Hs in Hlk.
      apply increasing_count.
      - eapply StronglySorted_sublist; [apply lastPerKey_sublist | exact Hinc].
      - rewrite Forall_forall. intros x Hx'. pose proof (sealed_offsets L d _ gp a Hpre Hlk Hn first pre eq_refl) as Hf.
        rewrite Forall_forall in Hf. apply Hf. by eapply (sublist_subseteq _ _ (lastPerKey_sublist _)).
      - destruct (Hx Hlk) as (_ & _ & Hp). destruct (Hp first a ltac:(by left) ltac:(by left)). lia. }
    destruct Hla as [_ (_ & _ & Hra)]. apply Forall2_cons_inv_l in Hpre as (e0 & gp' & [_ (_ & _ & Hr0)] & Hpre' & Egp).
    pose proof (proj2 Hsz) as H63. unfold out in Hsm, Hsz, H63.
    destruct (writeBatches_ok L cfg E HL Hft (S (length kept)) kept base (emptySeg E base) (mkFiles [] []) [] [])
      as (s & fs & bs & Hw & Hok & Hsb & Hst & _); try (done || lia).
    all: try (by apply empty_seg_ok); try (cbn; lia); try (cbn [app]; lia).
    destruct (chunks_records (S (length kept)) base kept bs ltac:(lia) Hst) as (R1 & R2 & R3 & R4).
    rewrite Hbase in Hw, Hok, Hsb, R4.
    destruct (stage_swap_ok L E cl d [] first pre [a] [] gp [ga]
      (fun s fs => writeBatches L cfg (S (length kept)) E s fs kept (sbase (seg first))) s fs
      (encodeAll L E (chunkBatches (S (length kept)) (sbase (seg first)) kept)) bs Hd Hs eq_refl)
      as (o & cl' & d' & Hsw & Hld & _ & Hnx & Hact); try done.
    { rewrite Egp. cbn. f_equal. by eapply Forall2_length. }
    { intros b ->%list_elem_of_singleton. cbn. rewrite R4. lia. }
    { rewrite <- Hbase. exact Hsm. }
    { rewrite <- Hbase. exact Hsz. }
    clearbody kept. destruct kept as [|k0 ks]; [done|]. eexists cl', d', [(_, bs)], bs. split; [exact Hsw|]. split_and!; try done.
    unfold batches. cbn. by rewrite app_nil_r.
Qed.

(** ** Lemmas: merging *)

Lemma bind_Ok {A B} (m : outcome A) (f : A -> outcome B) y : m ≫= f = Ok y -> exists x, m = Ok x /\ f x = Ok y.
Proof. destruct m; cbn; try done. eauto. Qed.

Lemma getAt_Ok data off k v :
  0 <= off -> 0 <= k -> getAt data off k = Ok v -> exists x, zslice data off (off + k) = Some x /\ unbe x = v.
Proof.
  intros Ho Hk. unfold getAt. intros (rest & Hr & Hg)%bind_Ok.
  destruct (zslice data off (zlen data)) as [r|] eqn:Es; [|done]. injection Hr as ->.
  assert (Hoff : off <= zlen data).
  { destruct (Z.leb_spec off (zlen data)) as [|Hlt]; [done|]. rewrite zslice_None in Es; [done | lia]. }
  rewrite zslice_Some in Es by lia. injection Es as <-. unfold BigEndianGet in Hg.
  rewrite (ztake_ge (zlen data - off)) in Hg by (rewrite zlen_zdrop; lia).
  destruct (Z.ltb_spec (zlen (zdrop off data)) k) as [|Hle]; [done|]. injection Hg as <-. rewrite zlen_zdrop in Hle by lia.
  rewrite zslice_Some by lia. replace (off + k - off) with k by lia. eauto.
Qed.

Lemma encodes_header L enc b : encodes L enc b -> ParseBatchHeader enc = Ok (BaseOffset b, RecordCount b).
Proof.
  intros (_ & _ & Hd). unfold DecodeBatch in Hd. unfold ParseBatchHeader.
  destruct (zlen enc <? batchHeaderSize); [done|].
  apply bind_Ok in Hd as (bo & Hbo & Hd). apply bind_Ok in Hd as (bl & _ & Hd). apply bind_Ok in Hd as (rc & Hrc & Hd).
  apply getAt_Ok in Hbo as (x & Hx & Ex); [|lia..]. apply getAt_Ok in Hrc as (y & Hy & Ey); [|lia..].
  change (0 + 8) with 8 in Hx. change (12 + 2) with 14 in Hy. rewrite Hx, Hy. cbn [mbind outcome_bind orPanic]. rewrite Ex, Ey.
  apply bind_Ok in Hd as (co & _ & Hd). apply bind_Ok in Hd as (crc & _ & Hd).
  destruct (_ <? _) in Hd; [done|]. apply bind_Ok in Hd as (cov & _ & Hd). destruct (negb _) in Hd; [done|].
  apply bind_Ok in Hd as (? & _ & Hd). apply bind_Ok in Hd as (? & _ & Hd). apply bind_Ok in Hd as (? & _ & Hd).
  apply bind_Ok in Hd as (? & _ & Hd). apply bind_Ok in Hd as (? & _ & Hd). by injection Hd as <-.
Qed.

Lemma mergeChunk_ok L cfg E : fault E = None -> forall encs bs, Forall2 (encodes L) encs bs ->
  forall fuel pre s fs es0 bs0, (length encs < fuel)%nat -> seg_ok L s fs es0 bs0 -> 0 <= sbase s ->
  chained (nextOffset s) bs -> endOf 0 (bs0 ++ bs) < 2 ^ 32 -> zlen (concat (es0 ++ encs)) < 2 ^ 64 ->
  exists s' fs', mergeChunk cfg fuel E s fs (pre ++ concat encs) (zlen pre) = Ok (s', fs') /\
    seg_ok L s' fs' (es0 ++ encs) (bs0 ++ bs) /\ sbase s' = sbase s.
Proof.
  intros Hft. induction 1 as [|enc b encs bs He _ IH]; intros fuel pre s fs es0 bs0 Hf Hok Hsb Hch H32 H64;
    (destruct fuel as [|f]; [cbn in Hf; lia|]); cbn [mergeChunk concat].
  - rewrite app_nil_r. destruct (Z.leb_spec (zlen pre) (zlen pre)); [|lia]. exists s, fs. by rewrite !app_nil_r.
  - pose proof He as (H12 & Hsz & _). set (tl := concat encs). pose proof (zlen_nonneg tl).
    rewrite !zlen_app. destruct (Z.leb_spec (zlen pre + (zlen enc + zlen tl)) (zlen pre)); [lia|].
    rewrite zdrop_app_le, zdrop_ge by lia. cbn [app]. rewrite Hsz.
    destruct (Z.ltb_spec (zlen pre + (zlen enc + zlen tl)) (zlen pre + zlen enc)); [lia|].
    rewrite (slice_mid (pre ++ enc ++ tl) pre enc tl) by done. cbn [mbind outcome_bind orPanic].
    rewrite (encodes_header L enc b He). cbn [mbind outcome_bind]. rewrite Hft.
    destruct Hch as (Hb & Hn0 & Hrc & Hlt & Hch). rewrite concat_app, zlen_app in H64.
    pose proof (zlen_nonneg (concat (enc :: encs))).
    assert (Hend : endOf 0 bs0 < 2 ^ 32).
    { rewrite endOf_app in H32. rewrite (endOf_shift (endOf 0 bs0)) in H32. cbn [endOf] in H32.
      pose proof (endOf_ge _ _ Hch) as Hge. rewrite endOf_shift in Hge. rewrite (endOf_shift (0 + RecordCount b)) in H32. lia. }
    destruct (segAppend_ok L cfg s fs es0 bs0 enc b Hok He Hb Hsb Hrc Hlt Hend ltac:(lia)) as (s1 & fs1 & Ha & Hok1 & Hs1).
    rewrite (segAppend_batch cfg s fs enc (mkBatch (BaseOffset b) (RecordCount b) 0 0 0 []) b None eq_refl eq_refl), Ha.
    cbn [mbind outcome_bind]. rewrite <- (zlen_app pre enc), (app_assoc pre enc tl).
    assert (Hn1 : nextOffset s1 = nextOffset s + RecordCount b).
    { rewrite (so_next _ _ _ _ _ Hok1), Hs1, endOf_app, <- (so_next _ _ _ _ _ Hok). done. }
    destruct (IH f (pre ++ enc) s1 fs1 (es0 ++ [enc]) (bs0 ++ [b])) as (s' & fs' & Hm & Hok' & Hs');
      [cbn in Hf; lia | done | lia | by rewrite Hn1 | by rewrite <- app_assoc | rewrite <- app_assoc, concat_app, zlen_app; exact H64 |].
    exists s', fs'. rewrite <- !app_assoc in Hok'. split_and!; [exact Hm | exact Hok' | congruence].
Qed.

Lemma mergeChunks_ok L cfg E : fault E = None -> forall g s fs es0 bs0,
  Forall (fun e => Forall2 (encodes L) e.1 e.2) g -> seg_ok L s fs es0 bs0 -> 0 <= sbase s ->
  chained (nextOffset s) (batches g) -> endOf 0 (bs0 ++ batches g) < 2 ^ 32 ->
  zlen (concat (es0 ++ concat g.*1)) < 2 ^ 64 ->
  exists s' fs', mergeChunks cfg E s fs ((fun e => concat e.1) <$> g) = Ok (s', fs') /\
    seg_ok L s' fs' (es0 ++ concat g.*1) (bs0 ++ batches g) /\ sbase s' = sbase s.
Proof.
  intros Hft. induction g as [|[es bs] g IH]; intros s fs es0 bs0 Hg Hok Hsb Hch H32 H64.
  { exists s, fs. cbn. by rewrite !app_nil_r. }
  apply Forall_cons in Hg as [He Hg]. cbn [fst snd] in He. unfold batches in *. cbn [fmap list_fmap concat fst snd mergeChunks] in *.
  apply chained_app in Hch as [Hc1 Hc2].
  assert (H32' : endOf 0 (bs0 ++ bs) < 2 ^ 32).
  { pose proof (endOf_ge _ _ Hc2) as Hge. rewrite app_assoc, (endOf_app 0 (bs0 ++ bs)) in H32.
    rewrite (endOf_shift (endOf 0 (bs0 ++ bs))) in H32. rewrite (endOf_shift (endOf (nextOffset s) bs)) in Hge. lia. }
  assert (H64' : zlen (concat (es0 ++ es)) < 2 ^ 64).
  { rewrite app_assoc, concat_app, zlen_app in H64. pose proof (zlen_nonneg (concat (concat g.*1))). lia. }
  pose proof (encodes_count L es bs He) as Hcnt.
  destruct (mergeChunk_ok L cfg E Hft es bs He (S (length (concat es))) [] s fs es0 bs0) as (s1 & fs1 & Hm & Hok1 & Hs1);
    try done; [unfold zlen in Hcnt; lia|].
  change ([] ++ concat es) with (concat es) in Hm. change (zlen []) with 0 in Hm. rewrite Hm. cbn [mbind outcome_bind].
  destruct (IH s1 fs1 (es0 ++ es) (bs0 ++ bs)) as (s' & fs' & Hm' & Hok' & Hs'); try done; try lia.
  - rewrite (so_next _ _ _ _ _ Hok1), Hs1, endOf_app, <- (so_next _ _ _ _ _ Hok). done.
  - by rewrite <- app_assoc.
  - by rewrite <- app_assoc.
  - exists s', fs'. rewrite <- !app_assoc in Hok'. split_and!; [done | done | congruence].
Qed.

Lemma readRaw_ok L d l g : Forall2 (holds L d) l g -> readRaw d l = Ok ((fun e => concat e.1) <$> g).
Proof.
  induction 1 as [|o e l g [(fs & es & Hf & Hda & _) (Hm & _ & Hb)] _ IH]; [done|]. cbn [readRaw].
  rewrite Hf. cbn [mbind outcome_bind orPanic].
  assert (Hr : readRawBytes (seg o) (logFile fs) = Ok (concat e.1)).
  { unfold readRawBytes. rewrite (sd_log _ _ _ _ _ Hda). rewrite (sd_size _ _ _ _ _ Hda) in *. pose proof (zlen_nonneg (concat e.1)).
    destruct (Z.eqb_spec (zlen (concat e.1)) 0) as [E0|]; [apply zlen_zero in E0; by rewrite E0|]. destruct Hm as [-> | ->].
    - unfold readAt. rewrite zdrop_le0, ztake_ge by lia. rewrite Z.ltb_irrefl. done.
    - rewrite zslice_Some by lia. rewrite zdrop_le0, ztake_ge by lia. done. }
  rewrite Hr. cbn [mbind outcome_bind]. rewrite IH. done.
Qed.

Lemma chain_end_bound L d l g base hi :
  Forall2 (holds L d) l g -> chained base (batches g) -> base <= hi ->
  (forall o, o ∈ l -> nextOffset (seg o) <= hi) -> endOf base (batches g) <= hi.
Proof.
  intros Hs Hc Hle Hhi. destruct (batches g) as [|b0 bs0] eqn:Eb; [done|].
  destruct (exists_last (l := b0 :: bs0)) as (bs & b & El); [done|]. rewrite El in *.
  apply chained_app in Hc as [_ (Hb & _)]. rewrite endOf_app. cbn [endOf]. rewrite <- Hb.
  assert (Hin : b ∈ batches g) by (rewrite Eb; apply elem_of_app; right; by left).
  apply batches_lookup in Hin as (j & e & Hj & Hbe). destruct (Forall2_lookup_r _ _ _ _ _ Hs Hj) as (x & Hx & Hh).
  destruct (holds_bounds _ _ _ _ _ Hh Hbe). specialize (Hhi x ltac:(by eapply list_elem_of_lookup_2)). lia.
Qed.

Lemma raw_empty L (g : ghost) :
  Forall (fun e => Forall2 (encodes L) e.1 e.2) g ->
  existsb (fun raw => 0 <? zlen raw) ((fun e => concat e.1) <$> g) = false -> batches g = [].
Proof.
  induction g as [|[es bs] g IH]; intros Hg Hx; [done|]. apply Forall_cons in Hg as [He Hg]. cbn [fst snd] in He.
  cbn [fmap list_fmap existsb fst] in Hx. apply orb_false_iff in Hx as [H0 Hx]. unfold batches. cbn [fmap list_fmap concat snd].
  fold (batches g). rewrite (IH Hg Hx), app_nil_r. pose proof (encodes_count L es bs He).
  destruct He; [done|]. cbn [length] in *. lia.
Qed.

Lemma batches_app g g' : batches (g ++ g') = batches g ++ batches g'.
Proof. unfold batches. by rewrite fmap_app, concat_app. Qed.

Lemma Merge_ok L cfg E cl d A R0 R B gA gR gB :
  fault E = None -> log_data L cl d (gA ++ gR ++ gB) -> segments cl = A ++ (R0 :: R) ++ B -> length A = length gA ->
  length (R0 :: R) = length gR -> B <> [] -> mergeCandidates cfg E cl = R0 :: R ->
  chained (sbase (seg R0)) (batches gR) -> endOf 0 (batches gR) < 2 ^ 32 ->
  Forall small (concat gR.*1) -> fitsRounds (rounds E) (zlen (concat (concat gR.*1))) ->
  exists cl' d' g', MergeSegments L cfg E cl d = Ok (cl', d') /\ log_data L cl' d' g' /\
    batches g' = batches (gA ++ gR ++ gB) /\ logNext cl' = logNext cl /\ activeSegment cl' = activeSegment cl.
Proof.
  intros Hft Hd Hs HlA HlR HB Hcand Hch H32 Hsm Hsz. unfold MergeSegments. rewrite (ld_open _ _ _ _ Hd), Hcand. cbv zeta.
  destruct (_ <? _); [by exists cl, d, (gA ++ gR ++ gB)|].
  pose proof (ld_segs _ _ _ _ Hd) as Hsegs. rewrite Hs in Hsegs. apply Forall2_app_inv in Hsegs as [_ Hsegs]; [|done].
  apply Forall2_app_inv in Hsegs as [HR _]; [|done]. rewrite (readRaw_ok _ _ _ _ HR). cbn [mbind outcome_bind].
  assert (Hencs : Forall (fun e => Forall2 (encodes L) e.1 e.2) gR).
  { apply Forall_lookup. intros i e He. destruct (Forall2_lookup_r _ _ _ _ _ HR He) as (x & _ & [(fs & es & _ & Hda & _) _]).
    apply Hda. }
  destruct (existsb _ _) eqn:Hx; cbn [negb].
  2: { destruct (removeSegments_ok L E cl d _ A (R0 :: R) B gA gR gB Hd Hs eq_refl HlA HlR HB) as (d' & _ & Hr & Hld).
       eexists _, d', _. rewrite Hr. split_and!; [done | exact Hld | | done | done].
       by rewrite !batches_app, (raw_empty L gR Hencs Hx). }
  set (base := sbase (seg R0)) in *. cbn [head mbind outcome_bind orPanic].
  assert (Hbr : 0 <= base) by (apply Forall2_cons_inv_l in HR as (e0 & g' & [_ (_ & _ & Hr)] & _); unfold base; lia).
  pose proof (proj2 Hsz) as H64.
  destruct (mergeChunks_ok L cfg E Hft gR (emptySeg E base) (mkFiles [] []) [] [] Hencs (empty_seg_ok L E base) Hbr Hch H32)
    as (s & fs & Hm & Hok & Hsb); [cbn [app]; lia|]. cbn [app] in Hok.
  destruct (stage_swap_ok L E cl d A R0 R B gA gR gB
    (fun s fs => mergeChunks cfg E s fs ((fun e => concat e.1) <$> gR)) s fs (concat gR.*1) (batches gR) Hd Hs HlA HlR HB Hm Hok Hsb)
    as (o & cl' & d' & Hsw & Hld & _ & Hnx & Hact); [|done|done|].
  - intros b Hb. pose proof (ld_linked _ _ _ _ Hd) as Hlk. rewrite Hs in Hlk.
    apply linked_app in Hlk as (_ & (_ & _ & HRB)%linked_app & _).
    apply (chain_end_bound L d (R0 :: R) gR); [done | done | |].
    + destruct (HRB R0 b ltac:(by left) Hb). unfold base. lia.
    + intros x Hx'. by destruct (HRB x b Hx' Hb).
  - exists cl', d', (gA ++ (concat gR.*1, batches gR) :: gB). split_and!; try done.
    rewrite !batches_app. unfold batches at 2. done.
Qed.

(** ** Properties *)

(** C11: Compaction keeps, of the sealed segments, exactly the last record of every key and
    every record without a key, in offset order and with their data unchanged (only the
    numbering starts again from the log's oldest offset); the active segment, the next
    offset and the consistency of the log are untouched.  The records of a batch are
    numbered from its base, the survivors (fewer than 2^32) fit the format in batches that
    encode to at most 256 KB each (recovery, which reopens the new segment, never ends on a
    larger one), the compressor inverts, and no write fails. *)
Theorem compaction_keeps_last_per_key L cfg E cl d gp ga pre a :
  lz4_ok L -> fault E = None -> log_data L cl d (gp ++ [ga]) -> segments cl = pre ++ [a] -> pre <> [] ->
  Forall numbered (batches gp) ->
  let kept := compacted gp in let base := OldestOffset cl in
  Forall (encodable L) (chunkBatches (S (length kept)) base kept) -> zlen kept < 2 ^ 32 ->
  let out := encodeAll L E (chunkBatches (S (length kept)) base kept) in
  Forall small out -> fitsRounds (rounds E) (zlen (concat out)) ->
  exists cl' d' g1, Compact L cfg E cl d = Ok (cl', d') /\ log_data L cl' d' (g1 ++ [ga]) /\
    logNext cl' = logNext cl /\ activeSegment cl' = activeSegment cl /\
    noDelta <$> (recordsOf (batches g1)).*2 = noDelta ∘ krec <$> kept /\
    (recordsOf (batches g1)).*1 = seqZ base (zlen kept) /\ Forall numbered (batches g1).
Proof.
  intros HL Hft Hd Hs Hne Hn kept base Henc H32 out Hsm Hsz.
  destruct (Compact_ok L cfg E cl d gp ga pre a HL Hft Hd Hs Hne Hn Henc H32 Hsm Hsz)
    as (cl' & d' & g1 & bs & H1 & H2 & <- & H3 & H4 & H5 & H6 & H7).
  exists cl', d', g1. split_and!; done.
Qed.

(** C12: Merging neighbouring sealed segments whose batches follow one another without a
    gap, of at most 256 KB each and fewer than 2^32 offsets together, changes nothing that
    can be read: the log holds the same batches afterwards, in the same order, and stays
    consistent.  No write fails.  (Candidates that are not neighbours hide batches:
    [merge_hides_batches].) *)
Theorem merge_keeps_batches L cfg E cl d A R0 R B gA gR gB :
  fault E = None -> log_data L cl d (gA ++ gR ++ gB) -> segments cl = A ++ (R0 :: R) ++ B -> length A = length gA ->
  length (R0 :: R) = length gR -> B <> [] -> mergeCandidates cfg E cl = R0 :: R ->
  chained (sbase (seg R0)) (batches gR) -> endOf 0 (batches gR) < 2 ^ 32 ->
  Forall small (concat gR.*1) -> fitsRounds (rounds E) (zlen (concat (concat gR.*1))) ->
  exists cl' d' g', MergeSegments L cfg E cl d = Ok (cl', d') /\ log_data L cl' d' g' /\
    batches g' = batches (gA ++ gR ++ gB) /\ logNext cl' = logNext cl /\ activeSegment cl' = activeSegment cl.
Proof. apply Merge_ok. Qed.

(** ** Witnesses *)

Definition sampleAt (base ct : Z) : RecordBatch := stored (assign base (sampleBatch 9)) ct.

(** The log of three sample batches: two in a sealed segment, one in the active one. *)
Lemma log3_split :
  exists o a e1 e2 c0 c1 c2, segments log3.1 = [o; a] /\ log_data noLz4 log3.1 log3.2 [e1; e2] /\
    e1.2 = [sampleAt 0 c0; sampleAt 2 c1] /\ e2.2 = [sampleAt 4 c2].
Proof.
  destruct log3_ok as (g & c0 & c1 & c2 & [Hld _] & Hg).
  assert (Hs : exists o a, segments log3.1 = [o; a] /\ sbase (seg o) = 0 /\ nextOffset (seg o) = 4)
    by (vm_compute; eexists _, _; split_and!; reflexivity).
  destruct Hs as (o & a & Hs & Hb & Hn). pose proof (ld_segs _ _ _ _ Hld) as Hsegs. rewrite Hs in Hsegs.
  apply Forall2_cons_inv_l in Hsegs as (e1 & g' & [(fs & es & _ & Hda & _) _] & Hsegs & ->).
  apply Forall2_cons_inv_l in Hsegs as (e2 & g'' & _ & Hsegs & ->). apply Forall2_nil_inv_l in Hsegs as ->.
  exists o, a, e1, e2, c0, c1, c2. split; [exact Hs|]. split; [exact Hld|].
  unfold batches in Hg. cbn [fmap list_fmap concat] in Hg. rewrite app_nil_r in Hg.
  pose proof (sd_next _ _ _ _ _ Hda) as He. rewrite Hn, Hb in He.
  destruct (e1.2) as [|b0 [|b1 [|b2 [|b3 l]]]]; cbn [app] in Hg.
  - discriminate He.
  - injection Hg as -> _. vm_compute in He. discriminate He.
  - injection Hg as -> -> ->. split; reflexivity.
  - injection Hg as -> -> -> _. vm_compute in He. discriminate He.
  - injection Hg as _ _ _ Hg. discriminate Hg.
Qed.

(** Its records at offsets 0, 2 and 3 survive a compaction. *)
Lemma log3_compactable :
  exists o a e1 e2, segments log3.1 = [o; a] /\ log_data noLz4 log3.1 log3.2 [e1; e2] /\ Forall numbered (batches [e1]) /\
    let kept := compacted [e1] in let base := OldestOffset log3.1 in
    koffset <$> kept = [0; 2; 3] /\ base = 0 /\ Forall (encodable noLz4) (chunkBatches (S (length kept)) base kept) /\
    let out := encodeAll noLz4 env0 (chunkBatches (S (length kept)) base kept) in
    Forall small out /\ fitsRounds (rounds env0) (zlen (concat out)).
Proof.
  destruct log3_split as (o & a & e1 & e2 & c0 & c1 & c2 & Hs & Hld & He1 & He2). exists o, a, e1, e2.
  assert (Hk : compacted [e1] = [mkKey 0 (mkRecord 0 0 None (Some [1;2;3]) []); mkKey 2 (mkRecord 0 0 None (Some [1;2;3]) []);
    mkKey 3 (mkRecord 5 1 (Some [7]) None [])]).
  { unfold compacted, batches. cbn [fmap list_fmap concat]. rewrite He1. vm_compute. reflexivity. }
  assert (Ho : OldestOffset log3.1 = 0) by (vm_compute; reflexivity).
  split; [exact Hs|]. split; [exact Hld|]. split; [unfold batches; cbn [fmap list_fmap concat]; rewrite He1; repeat constructor|].
  rewrite Hk, Ho. cbv zeta. split; [reflexivity|]. split; [reflexivity|]. split.
  { repeat constructor; cbn; try lia; try done; try (vm_compute; discriminate). }
  split; [repeat constructor; vm_compute; discriminate|].
  split; [left; vm_compute; discriminate | vm_compute; reflexivity].
Qed.

Lemma compaction_keeps_last_per_key_witness :
  exists cl' d' g1 ga, Compact noLz4 logConfig env0 log3.1 log3.2 = Ok (cl', d') /\ log_data noLz4 cl' d' (g1 ++ [ga]) /\
    (recordsOf (batches g1)).*1 = [0; 1; 2].
Proof.
  destruct log3_compactable as (o & a & e1 & e2 & Hs & Hld & Hnum & Hk & Ho & Henc & Hsm & Hsz).
  assert (Hl : zlen (compacted [e1]) = 3) by (unfold zlen; rewrite <- (length_fmap koffset), Hk; reflexivity).
  destruct (compaction_keeps_last_per_key noLz4 logConfig env0 log3.1 log3.2 [e1] e2 [o] a noLz4_ok eq_refl Hld Hs)
    as (cl' & d' & g1 & Hc & Hld' & _ & _ & _ & Hf & _).
  - discriminate.
  - exact Hnum.
  - exact Henc.
  - rewrite Hl. reflexivity.
  - exact Hsm.
  - exact Hsz.
  - exists cl', d', g1, e2. split; [exact Hc|]. split; [exact Hld'|]. rewrite Hf, Hl, Ho. reflexivity.
Defined.

Lemma merge_keeps_batches_witness :
  exists cl' d' g', MergeSegments noLz4 logConfig env0 log3.1 log3.2 = Ok (cl', d') /\ log_data noLz4 cl' d' g' /\
    length (batches g') = 3%nat /\ logNext cl' = 6.
Proof.
  destruct log3_split as (o & a & e1 & e2 & c0 & c1 & c2 & Hs & Hld & He1 & He2).
  assert (Hb : batches [e1] = [sampleAt 0 c0; sampleAt 2 c1])
    by (unfold batches; cbn [fmap list_fmap concat]; by rewrite app_nil_r).
  assert (Hoo : mergeCandidates logConfig env0 log3.1 = [o] /\ sbase (seg o) = 0 /\ ssize (seg o) = 102).
  { assert (Hc : mergeCandidates logConfig env0 log3.1 = take 1 (segments log3.1)) by (vm_compute; reflexivity).
    assert (Hz : (fun o => (sbase (seg o), ssize (seg o))) <$> take 1 (segments log3.1) = [(0, 102)]) by (vm_compute; reflexivity).
    rewrite Hc, Hs. rewrite Hs in Hz. cbn [take fmap list_fmap] in Hz. injection Hz as -> ->. split_and!; reflexivity. }
  destruct Hoo as (Hc & Hb0 & Hsz).
  destruct (merge_keeps_batches noLz4 logConfig env0 log3.1 log3.2 [] o [] [a] [] [e1] [e2] eq_refl Hld Hs eq_refl eq_refl)
    as (cl' & d' & g' & Hm & Hld' & Hg & Hn & _).
  - discriminate.
  - exact Hc.
  - rewrite Hb, Hb0. cbn. split_and!; reflexivity || discriminate.
  - rewrite Hb. vm_compute. reflexivity.
  - pose proof (log3_small _ Hld) as Hsm. apply Forall_cons in Hsm as [Hsm _].
    cbn [fmap list_fmap concat]. by rewrite app_nil_r.
  - pose proof (ld_segs _ _ _ _ Hld) as Hsegs. rewrite Hs in Hsegs.
    apply Forall2_cons_inv_l in Hsegs as (e1' & g0 & [(fs & es & _ & Hda & _) _] & _ & Eg). injection Eg as <- _.
    cbn [fmap list_fmap concat]. rewrite app_nil_r, <- (sd_size _ _ _ _ _ Hda), Hsz. split; [by left | reflexivity].
  - exists cl', d', g'. split; [exact Hm|]. split; [exact Hld'|]. rewrite Hg, Hn, batches_app, batches_app, Hb.
    unfold batches. cbn [fmap list_fmap concat]. rewrite He2. split; vm_compute; reflexivity.
Defined.

(** ** Findings *)

(** A consumer whose offset falls behind everything its segment holds gets nothing, for
    good, whatever the following segments hold. *)
Theorem consumer_starves_in_gap L cl d g maxRecords c i o e :
  log_data L cl d g -> 0 <= maxRecords -> OldestOffset cl <= coffset c -> near cl (coffset c) ->
  findSegment cl (coffset c) = Some o -> segments cl !! i = Some o -> g !! i = Some e ->
  (forall b, b ∈ e.2 -> BaseOffset b + RecordCount b <= coffset c) ->
  forall n, pollN L cl d c maxRecords n = Ok ([], c).
Proof.
  intros Hd Hm Hold Hnear Hf Hi He Hgap. pose proof (readLimit_pos maxRecords).
  destruct (Read_spec L cl d g (coffset c) (readLimit maxRecords) Hd Hold ltac:(lia) Hnear)
    as (i' & o' & e' & k & j & rest & Hf' & Hi' & He' & _ & _ & _ & Hr & _).
  assert (o' = o) as -> by congruence.
  assert (i' = i) as ->.
  { eapply (NoDup_lookup (sid <$> segments cl)); [apply Hd | |]; rewrite list_lookup_fmap; by rewrite ?Hi, ?Hi'. }
  assert (e' = e) as -> by congruence. rewrite after_nil in Hr.
  - induction n as [|n IH]; [done|]. cbn [pollN]. unfold Poll. rewrite Hr. cbn [mbind outcome_bind].
    destruct (Z.ltb_spec maxRecords 0); [lia|]. cbn [pollBatches].
    assert (Ec : setOffset c (coffset c) = c) by (by destruct c). rewrite Ec. cbn [mbind outcome_bind]. by rewrite IH.
  - intros b [x Hx]%list_elem_of_lookup. apply Hgap. apply lookup_take_Some in Hx as [Hx _]. rewrite lookup_drop in Hx.
    by eapply list_elem_of_lookup_2.
Qed.

Definition compacted3 : CommitLog * disk := force log3 (Compact noLz4 logConfig env0 log3.1 log3.2).

Lemma compacted3_ok :
  exists cl' d' g1 ga, Compact noLz4 logConfig env0 log3.1 log3.2 = Ok (cl', d') /\ log_data noLz4 cl' d' (g1 ++ [ga]) /\
    (recordsOf (batches g1)).*1 = [0; 1; 2] /\ Forall numbered (batches g1).
Proof.
  destruct log3_compactable as (o & a & e1 & e2 & Hs & Hld & Hnum & Hk & Ho & Henc & Hsm & Hsz).
  assert (Hl : zlen (compacted [e1]) = 3) by (unfold zlen; rewrite <- (length_fmap koffset), Hk; reflexivity).
  destruct (Compact_ok noLz4 logConfig env0 log3.1 log3.2 [e1] e2 [o] a noLz4_ok eq_refl Hld Hs ltac:(discriminate) Hnum Henc
    ltac:(rewrite Hl; reflexivity) Hsm Hsz) as (cl' & d' & g1 & bs & Hc & Hld' & <- & _ & _ & _ & Hf & Hn).
  exists cl', d', g1, e2. split; [exact Hc|]. split; [exact Hld'|]. split; [|exact Hn]. rewrite Hf, Hl, Ho. reflexivity.
Qed.

(** Compaction opens such gaps: the survivors are renumbered from the front, and a
    consumer that had read up to offset 3 never sees what comes behind, nor what is
    appended later. *)
Lemma consumer_starves_in_gap_witness :
  NewestOffset compacted3.1 = 6 /\
  forall n, pollN noLz4 compacted3.1 compacted3.2 (mkConsumer [97] [98] 3) 10 n = Ok ([], mkConsumer [97] [98] 3).
Proof.
  split; [vm_compute; reflexivity|]. destruct compacted3_ok as (cl' & d' & g1 & ga & Hc & Hld & Hr & Hnum).
  assert (E3 : compacted3 = (cl', d')) by (unfold compacted3; by rewrite Hc). rewrite E3. cbn [fst snd].
  assert (Hseg : exists o a, segments compacted3.1 = [o; a] /\ findSegment compacted3.1 3 = Some o /\ sbase (seg o) = 0)
    by (vm_compute; eexists _, _; split_and!; reflexivity).
  rewrite E3 in Hseg. cbn [fst] in Hseg. destruct Hseg as (o & a & Hs & Hf & Hb).
  assert (Hg : exists e, g1 = [e]).
  { pose proof (Forall2_length _ _ _ (ld_segs _ _ _ _ Hld)) as Hl. rewrite Hs, length_app in Hl. cbn in Hl.
    destruct g1 as [|e [|? ?]]; cbn in Hl; [lia | by exists e | lia]. }
  destruct Hg as (e & ->). unfold batches in Hnum, Hr. cbn [fmap list_fmap concat] in Hnum, Hr. rewrite app_nil_r in Hnum, Hr.
  apply (consumer_starves_in_gap noLz4 cl' d' ([e] ++ [ga]) 10 (mkConsumer [97] [98] 3) 0 o e Hld).
  - discriminate.
  - unfold OldestOffset. rewrite Hs, Hb. discriminate.
  - intros x Hx. cbn [coffset] in *. rewrite Hf in Hx. injection Hx as <-. rewrite Hb. reflexivity.
  - exact Hf.
  - by rewrite Hs.
  - reflexivity.
  - intros b Hbe. cbn [coffset]. rewrite Forall_forall in Hnum. destruct (Hnum b Hbe) as [Hcnt _].
    destruct (decide (BaseOffset b + RecordCount b <= 3)) as [|Hgt]; [done|]. exfalso.
    assert (Hpos : 0 < RecordCount b).
    { pose proof (log_ordered _ _ _ _ Hld) as Ho. clear -Ho Hbe. unfold batches in Ho. cbn [fmap list_fmap concat app] in Ho.
      induction (e.2) as [|x l IH]; [by apply elem_of_nil in Hbe|]. destruct Ho as ((_ & H & _) & _ & Ho).
      apply elem_of_cons in Hbe as [->|Hbe]; [done | by apply IH]. }
    destruct (offsetsFrom_mem (Records b) (BaseOffset b) (BaseOffset b + RecordCount b - 1) ltac:(lia)) as [r Hin].
    assert (Hx : (BaseOffset b + RecordCount b - 1) ∈ (recordsOf e.2).*1).
    { apply list_elem_of_fmap. eexists (_, r). split; [done|]. apply recordsOf_elem. eauto. }
    rewrite Hr in Hx. apply list_elem_of_In in Hx. cbn in Hx. lia.
Defined.

(** A schedule of appends and merges; every batch of 51 bytes fills a segment, and a
    segment can be merged ten ticks after its creation. *)
Definition mergeConfig : Config := mkConfig 50 1000 100 1000 500 70 0 2 10 2.
Definition envAt (t : Z) : env := mkEnv t true [] None 1.
Definition appendAt (l : CommitLog * disk) (t : Z) : CommitLog * disk :=
  match Append noLz4 mergeConfig (envAt t) l.1 l.2 (sampleBatch 9) with Ok (cl, d, _) => (cl, d) | _ => l end.
Definition mergeAt (l : CommitLog * disk) (t : Z) : CommitLog * disk :=
  force l (MergeSegments noLz4 mergeConfig (envAt t) l.1 l.2).
Definition beforeMerge : CommitLog * disk :=
  let l0 := force (mkLog [] 0 0 false 0, emptyDisk) (NewCommitLog noLz4 (envAt 80) emptyDisk) in
  appendAt (mergeAt (foldl appendAt (mergeAt (foldl appendAt l0 [80; 81; 91]) 100) [92; 101]) 103) 111.

(** A merged segment counts as created when it is written, so that the next merge can take
    the segments around it: they end up in one segment in front of it, and an offset that
    could be read before is now looked for in the wrong one. *)
Theorem merge_hides_batches :
  Read noLz4 beforeMerge.1 beforeMerge.2 8 1000 = Ok [sampleAt 8 0] /\
  (let l := mergeAt beforeMerge 112 in
   Read noLz4 l.1 l.2 8 1000 = Ok [] /\ NewestOffset l.1 = 12).
Proof. vm_compute. split; [reflexivity|]. split; reflexivity. Qed.

(** A crash while the new segment is being staged costs the first old one: reopening the
    log moves whatever the staging directory holds over the segment of the same name,
    although the old segments are all still there. *)
Definition crashStaging (d : disk) (base : Z) : disk :=
  mkDisk (dir d) {[base := nextIno d]} (<[nextIno d := mkInode (mkFiles [] []) 0]> (inodes d)) (S (nextIno d)).
Theorem staging_crash_loses_segment :
  Read noLz4 log3.1 log3.2 0 1000 = Ok [sampleAt 0 0; sampleAt 2 0] /\
  match NewCommitLog noLz4 env0 (crashStaging log3.2 0) with
  | Ok (cl, d) => Read noLz4 cl d 0 1000 = Ok [] /\ NewestOffset cl = 6
  | _ => False
  end.
Proof. vm_compute. split; [reflexivity|]. split; reflexivity. Qed.
