(* ===== verification/Producer.v ===== *)
(** * Producer: batching records into the log
      (src/pkg/mq/forge/producer.go)

    A producer collects records and writes them as one batch when enough bytes are
    pending, when its linger goroutine fires, or on [Flush] and [Close].  The lock covers
    the enqueueing in [Send] and the swap in [flush]; the append to the log happens
    outside of it, so these are separate atomic steps here.  The spare buffer that [flush]
    swaps in is always empty and never the one in use; it saves an allocation and has no
    counterpart.  Slice lengths stay below 2^63, so that [bufSize] does not wrap.  Metrics
    hooks and the error callback observe only. *)
From stdpp Require Import base list option gmap relations.
From Stdlib Require Import ZArith Lia.
From S2P Require Import Prelude Codec Index Segment CommitLog Consumer Compaction.

(** ** Definitions *)

Definition estimatedRecordOverhead : Z := 16.
Definition defaultBatchBytes : Z := 16 * 1024.

Record ProducerConfig := mkProducerConfig {
  BatchSize_ : Z;
  PCompression : Z;
  MaxPendingBytes : Z;
  OnError : bool;
  ShutdownTimeout : Z;
  maxMessageSize : Z;
}.
Definition defaultProducerConfig (maxMessage : Z) : ProducerConfig :=
  mkProducerConfig defaultBatchBytes 0 0 false 0 maxMessage.
Definition WithBatchSize (n : Z) (c : ProducerConfig) : ProducerConfig :=
  if 0 <? n then mkProducerConfig n (PCompression c) (MaxPendingBytes c) (OnError c) (ShutdownTimeout c) (maxMessageSize c) else c.
Definition WithCompression (ct : Z) (c : ProducerConfig) : ProducerConfig :=
  mkProducerConfig (BatchSize_ c) ct (MaxPendingBytes c) (OnError c) (ShutdownTimeout c) (maxMessageSize c).
Definition WithMaxPendingBytes (n : Z) (c : ProducerConfig) : ProducerConfig :=
  if 0 <? n then mkProducerConfig (BatchSize_ c) (PCompression c) n (OnError c) (ShutdownTimeout c) (maxMessageSize c) else c.
Definition WithOnError (c : ProducerConfig) : ProducerConfig :=
  mkProducerConfig (BatchSize_ c) (PCompression c) (MaxPendingBytes c) true (ShutdownTimeout c) (maxMessageSize c).
Definition WithShutdownTimeout (d : Z) (c : ProducerConfig) : ProducerConfig :=
  if 0 <? d then mkProducerConfig (BatchSize_ c) (PCompression c) (MaxPendingBytes c) (OnError c) d (maxMessageSize c) else c.

Record Producer := mkProducer { ppending : list Record_; bufSize : Z; pclosed : bool; closeOnce : bool }.
Definition NewProducer : Producer := mkProducer [] 0 false false.

Inductive perror := ErrMessageTooLarge | ErrProducerClosed | ErrBackpressure | ErrDeadline | ErrLog (e : ferror).

Definition recSize (key value : option (list byte)) : Z :=
  varintBytesSize key + varintBytesSize value + estimatedRecordOverhead.
Definition newRecord (key value : option (list byte)) (headers : list Header) : Record_ :=
  mkRecord 0 0 key value headers.

Section Steps.
Variable cfg : ProducerConfig.

(** The checks of [Send] and its critical section; [inr] tells whether to flush. *)
Definition enqueue (p : Producer) (key value : option (list byte)) (headers : list Header)
    : perror + (Producer * bool) :=
  if (0 <? maxMessageSize cfg) && (maxMessageSize cfg <? zlen (default [] value)) then inl ErrMessageTooLarge else
  if pclosed p then inl ErrProducerClosed else
  if (0 <? MaxPendingBytes cfg) && (MaxPendingBytes cfg <? bufSize p + recSize key value) then inl ErrBackpressure else
  let p := mkProducer (ppending p ++ [newRecord key value headers]) (bufSize p + recSize key value)
             (pclosed p) (closeOnce p) in
  inr (p, BatchSize_ cfg <=? bufSize p).

(** The critical section of [flush].  The second buffer that the code swaps in
    ([backBuf]) only saves an allocation: it is handed out empty and taken away while a
    flush works on the other one, so that the lists are values here. *)
Definition swap (p : Producer) : option (list Record_ * Producer) :=
  match ppending p with
  | [] => None
  | records => Some (records, mkProducer [] 0 (pclosed p) (closeOnce p))
  end.

Definition flushBatch (now : Z) (records : list Record_) : RecordBatch :=
  mkBatch 0 0 (PCompression cfg) now now records.

(** The error of an append, as [flush] reports it. *)
Definition report (r : Z + ferror) : option perror :=
  match r with inl _ => None | inr e => if OnError cfg then None else Some (ErrLog e) end.
End Steps.

(** ** The log as the producer sees it *)

(** What the producer needs of a log: appending a batch that fits extends what the log
    holds, and an append that is refused leaves it. *)
Class BatchLog (St : Type) := {
  bl_append : St -> RecordBatch -> outcome (St * (Z + ferror));
  bl_rep : St -> list Record_ -> Prop;
  bl_fits : St -> RecordBatch -> Prop;
  bl_append_ok : forall st l b, bl_rep st l -> bl_fits st b ->
    exists st' o, bl_append st b = Ok (st', inl o) /\ bl_rep st' (l ++ (noDelta <$> Records b));
  bl_append_refused : forall st l b st' e, bl_rep st l -> bl_append st b = Ok (st', inr e) -> bl_rep st' l;
}.

Section WithLog.
Context {St : Type} `{BatchLog St} (cfg : ProducerConfig).

Definition flush (now : Z) (p : Producer) (st : St) : outcome (Producer * St * option perror) :=
  match swap p with
  | None => Ok (p, st, None)
  | Some (records, p) =>
      '(st, r) ← bl_append st (flushBatch cfg now records);
      Ok (p, st, report cfg r)
  end.
Definition Flush := flush.

Definition Send (now : Z) (p : Producer) (st : St) (key value : option (list byte)) (headers : list Header)
    : outcome (Producer * St * option perror) :=
  match enqueue cfg p key value headers with
  | inl e => Ok (p, st, Some e)
  | inr (p, shouldFlush) => if shouldFlush then flush now p st else Ok (p, st, None)
  end.

(** [Close]; with a shutdown timeout the flush runs aside and [late] says that the
    deadline came first. *)
Definition CloseProducer (now : Z) (late : bool) (p : Producer) (st : St) : outcome (Producer * St * option perror) :=
  if closeOnce p then Ok (p, st, None) else
  let p := mkProducer (ppending p) (bufSize p) true true in
  '(p, st, e) ← flush now p st;
  Ok (p, st, if (0 <? ShutdownTimeout cfg) && late then Some ErrDeadline else e).
End WithLog.

(** ** The interleavings of concurrent senders and flushers *)

Section Interleaving.
Context {St : Type} `{BatchLog St} (cfg : ProducerConfig).

(** [inflight] holds what a flusher has taken and not yet appended; [accepted] and
    [dropped] record the calls of [Send] that got past the checks and the records of
    refused appends. *)
Record pstate := mkP {
  prod : Producer;
  store : St;
  inflight : gmap nat (list Record_);
  accepted : list Record_;
  dropped : list Record_;
}.

Inductive pstep : pstate -> pstate -> Prop :=
  | step_enqueue s k v h p f :
      enqueue cfg (prod s) k v h = inr (p, f) ->
      pstep s (mkP p (store s) (inflight s) (accepted s ++ [newRecord k v h]) (dropped s))
  | step_swap s t records p :
      inflight s !! t = None -> swap (prod s) = Some (records, p) ->
      pstep s (mkP p (store s) (<[t := records]> (inflight s)) (accepted s) (dropped s))
  | step_append s t now records st o :
      inflight s !! t = Some records -> bl_fits (store s) (flushBatch cfg now records) ->
      bl_append (store s) (flushBatch cfg now records) = Ok (st, inl o) ->
      pstep s (mkP (prod s) st (delete t (inflight s)) (accepted s) (dropped s))
  | step_refused s t now records st e :
      inflight s !! t = Some records -> bl_append (store s) (flushBatch cfg now records) = Ok (st, inr e) ->
      pstep s (mkP (prod s) st (delete t (inflight s)) (accepted s) (dropped s ++ records))
  | step_close s :
      pstep s (mkP (mkProducer (ppending (prod s)) (bufSize (prod s)) true true) (store s) (inflight s)
        (accepted s) (dropped s)).

Definition pinit (st : St) : pstate := mkP NewProducer st ∅ [] [].

Definition sizeOf (l : list Record_) : Z := foldr (fun r n => recSize (Key r) (Value r) + n) 0 l.

(** Every accepted record is in one place: the log, a flusher's hands, the pending buffer
    or the dropped ones; the pending bytes are counted right and within the limit. *)
Record pinv (l0 : list Record_) (s : pstate) : Prop := {
  pi_records : exists l, bl_rep (store s) (l0 ++ l) /\
    l ++ (noDelta <$> concat (map_to_list (inflight s)).*2 ++ ppending (prod s) ++ dropped s) ≡ₚ noDelta <$> accepted s;
  pi_size : bufSize (prod s) = sizeOf (ppending (prod s));
  pi_limit : 0 < MaxPendingBytes cfg -> bufSize (prod s) <= MaxPendingBytes cfg;
}.

Lemma sizeOf_snoc l r : sizeOf (l ++ [r]) = sizeOf l + recSize (Key r) (Value r).
Proof. unfold sizeOf. induction l as [|x l IH]; cbn in *; lia. Qed.

Lemma enqueue_inr p k v h p' f :
  enqueue cfg p k v h = inr (p', f) ->
  ppending p' = ppending p ++ [newRecord k v h] /\ bufSize p' = bufSize p + recSize k v /\
  pclosed p' = pclosed p /\ pclosed p = false /\ closeOnce p' = closeOnce p /\ f = (BatchSize_ cfg <=? bufSize p') /\
  (0 < MaxPendingBytes cfg -> bufSize p' <= MaxPendingBytes cfg) /\
  (0 < maxMessageSize cfg -> zlen (default [] v) <= maxMessageSize cfg).
Proof.
  unfold enqueue. destruct (_ && _) eqn:E1; [done|]. destruct (pclosed p) eqn:E2; [done|].
  destruct (_ && _) eqn:E3 in |- *; [done|]. intros [= <- <-]. cbn [ppending bufSize pclosed closeOnce].
  apply andb_false_iff in E1, E3. split_and!; try done; lia.
Qed.

Lemma swap_Some p records p' :
  swap p = Some (records, p') ->
  records = ppending p /\ records <> [] /\ ppending p' = [] /\ bufSize p' = 0 /\ pclosed p' = pclosed p /\ closeOnce p' = closeOnce p.
Proof. unfold swap. destruct (ppending p) eqn:E; [done|]. by intros [= <- <-]. Qed.

Lemma inflight_insert (m : gmap nat (list Record_)) t records :
  m !! t = None -> concat (map_to_list (<[t := records]> m)).*2 ≡ₚ records ++ concat (map_to_list m).*2.
Proof. intros Ht. by rewrite map_to_list_insert by done. Qed.

Lemma inflight_delete (m : gmap nat (list Record_)) t records :
  m !! t = Some records -> concat (map_to_list m).*2 ≡ₚ records ++ concat (map_to_list (delete t m)).*2.
Proof. intros Ht. by rewrite <- (map_to_list_delete m t records) by done. Qed.

Lemma pstep_inv l0 s s' : pstep s s' -> pinv l0 s -> pinv l0 s'.
Proof.
  intros Hs [(l & Hr & Hp) Hz Hl]. destruct Hs as [s k v h p f He|s t records p Ht Hw|s t now records st o Ht Hf Ha|
    s t now records st e Ht Ha|s]; cbn [prod store inflight accepted dropped] in *.
  - apply enqueue_inr in He as (Hpp & Hbz & _ & _ & _ & _ & Hlim & _). split; cbn [prod store inflight accepted dropped]; [| |lia].
    + exists l. split; [done|]. rewrite Hpp, (fmap_app noDelta (accepted s)), <- Hp, !fmap_app. cbn [fmap list_fmap]. solve_Permutation.
    + rewrite Hpp, sizeOf_snoc. cbn. lia.
  - apply swap_Some in Hw as (-> & _ & Hpp & Hbz & _). split; cbn [prod store inflight accepted dropped]; rewrite ?Hpp, ?Hbz; [|done|lia].
    exists l. split; [done|]. rewrite inflight_insert by done. rewrite <- Hp, !fmap_app. cbn [fmap list_fmap app]. solve_Permutation.
  - split; cbn [prod store inflight accepted dropped]; try done.
    destruct (bl_append_ok _ _ _ Hr Hf) as (st' & o' & Ha' & Hr'). rewrite Ha in Ha'. injection Ha' as -> ->.
    exists (l ++ (noDelta <$> records)). rewrite app_assoc. split; [done|].
    rewrite (inflight_delete _ _ _ Ht) in Hp. rewrite <- Hp, !fmap_app. solve_Permutation.
  - split; cbn [prod store inflight accepted dropped]; try done. exists l. split; [by eapply bl_append_refused|].
    rewrite (inflight_delete _ _ _ Ht) in Hp. rewrite <- Hp, !fmap_app. solve_Permutation.
  - split; try done. exists l. done.
Qed.

Lemma preach_inv l0 st s : bl_rep st l0 -> rtc pstep (pinit st) s -> pinv l0 s.
Proof.
  intros Hr Hs. assert (H0 : pinv l0 (pinit st)).
  { split; cbn; [|done|lia]. exists []. rewrite app_nil_r, map_to_list_empty. done. }
  clear Hr. revert H0. induction Hs as [s|s1 s2 s3 H1 _ IH]; intros Hi; [done|]. by eapply IH, pstep_inv.
Qed.
End Interleaving.

(** ** The commit log is such a log *)

Lemma segAppend_written cfg s fs enc b s' fs' ok : segAppend cfg s fs enc b None = Ok (s', fs', ok) -> ok = true.
Proof.
  unfold segAppend. destruct (_ || _); destruct (_ && _); cbn [mbind outcome_bind orPanic]; try (by intros [= <- <- <-]);
    (destruct (Index.Sync _ _ _) as [[[]]|]; [|done]); cbn; by intros [= <- <- <-].
Qed.

Lemma Append_refused L cfg E cl d b cl' d' e :
  fault E = None -> Append L cfg E cl d b = Ok (cl', d', inr e) -> cl' = cl /\ d' = d.
Proof.
  intros Hf. unfold Append. destruct (closed cl); [by intros [= -> ->]|]. destruct (_ <? _); [by intros [= -> ->]|].
  destruct (EncodeBatch _ _ _) as [encoded|err| |]; try done; [|by intros [= -> ->]].
  intros (a & _ & ([cl1 d1] & _ & Ha)%bind_Ok)%bind_Ok. exfalso. unfold appendActive in Ha.
  apply bind_Ok in Ha as (a1 & _ & (fs & _ & ([[s1 fs1] ok] & Hs & Ha)%bind_Ok)%bind_Ok).
  rewrite Hf in Hs. apply segAppend_written in Hs as ->. done.
Qed.

Definition dataOf (bs : list RecordBatch) : list Record_ := noDelta <$> concat (Records <$> bs).

Lemma assign_numbered base b : zlen (Records b) <= maxRecordsPerBatch -> forall ct, numbered (stored (assign base b) ct).
Proof.
  intros Hl ct. pose proof (zlen_nonneg (Records b)). split.
  - cbn [stored assign RecordCount Records]. unfold maxRecordsPerBatch, u16, zlen in *. rewrite length_imap. apply Z.mod_small. lia.
  - exact (imap_numbered (Records b) 0).
Qed.

Lemma dataOf_snoc bs base b ct : dataOf (bs ++ [stored (assign base b) ct]) = dataOf bs ++ (noDelta <$> Records b).
Proof.
  unfold dataOf. rewrite fmap_app, concat_app, fmap_app. f_equal. cbn [fmap list_fmap concat stored assign Records].
  rewrite app_nil_r. exact (imap_noDelta (Records b) (fun i => i)).
Qed.

(** The conditions under which the log takes a batch. *)
Definition takes (L : lz4) (cfg : Config) (E : env) (st : CommitLog * disk) (batch : RecordBatch) : Prop :=
  let b := assign (logNext st.1) batch in
  encodable L b /\ zlen (Records batch) <= maxRecordsPerBatch /\ logNext st.1 + RecordCount b < 2 ^ 64 /\
  forall a, active st.1 = Some a -> logNext st.1 - sbase (seg a) < 2 ^ 32 /\ ssize (seg a) < 2 ^ 64 /\
     (IsFull cfg (now E) (seg a) = true -> 0 < ssize (seg a)).

Definition logRep (L : lz4) (st : CommitLog * disk) (l : list Record_) : Prop :=
  exists g, log_ok L st.1 st.2 g /\ Forall numbered (batches g) /\ dataOf (batches g) = l.

Definition appendSt (L : lz4) (cfg : Config) (E : env) (st : CommitLog * disk) (b : RecordBatch)
    : outcome ((CommitLog * disk) * (Z + ferror)) :=
  Append L cfg E st.1 st.2 b.

Lemma logRep_append L cfg E st l b :
  lz4_ok L -> fault E = None -> logRep L st l -> takes L cfg E st b ->
  exists st' o, appendSt L cfg E st b = Ok (st', inl o) /\ logRep L st' (l ++ (noDelta <$> Records b)).
Proof.
  intros HL Hf (g & Hok & Hn & <-) (H1 & H2 & H3 & H4). destruct st as [cl d]. cbn [fst snd] in *.
  destruct (Append_ok L cfg E cl d g b HL Hok Hf H1 H2 H3 H4) as (cl' & d' & g' & ct & Ha & Hok' & Hg & _).
  exists (cl', d'), (logNext cl). split; [exact Ha|]. exists g'. split; [done|]. rewrite Hg. split.
  - apply Forall_app. split; [done|]. constructor; [by apply assign_numbered | constructor].
  - apply dataOf_snoc.
Qed.

Lemma logRep_refused L cfg E st l b st' e :
  fault E = None -> logRep L st l -> appendSt L cfg E st b = Ok (st', inr e) -> logRep L st' l.
Proof.
  intros Hf Hr Ha. destruct st as [cl d], st' as [cl' d']. unfold appendSt in Ha.
  apply Append_refused in Ha as [-> ->]; done.
Qed.

Section Instances.
Context (L : lz4) (cfg : Config) (E : env) (HL : lz4_ok L) (Hf : fault E = None).

#[local] Instance commitlog_BatchLog : BatchLog (CommitLog * disk) := {
  bl_append := appendSt L cfg E;
  bl_rep := logRep L;
  bl_fits := takes L cfg E;
  bl_append_ok st l b := logRep_append L cfg E st l b HL Hf;
  bl_append_refused st l b st' e := logRep_refused L cfg E st l b st' e Hf;
}.
End Instances.

(** ** Properties *)

(** C9: Whatever way concurrent senders, flushers (the linger goroutine among them) and
    [Close] interleave, every record that [Send] accepted is exactly once in the log, in
    the hands of a flusher, pending, or among those of a refused append; the pending
    bytes are counted exactly and never exceed the backpressure limit. *)
Theorem producer_no_loss_no_duplicate {St} `{!BatchLog St} cfg st l0 (s : pstate (St := St)) :
  bl_rep st l0 -> rtc (pstep cfg) (pinit st) s ->
  (exists l, bl_rep (store s) (l0 ++ l) /\
     l ++ (noDelta <$> concat (map_to_list (inflight s)).*2 ++ ppending (prod s) ++ dropped s) ≡ₚ noDelta <$> accepted s) /\
  bufSize (prod s) = sizeOf (ppending (prod s)) /\
  (0 < MaxPendingBytes cfg -> bufSize (prod s) <= MaxPendingBytes cfg).
Proof. intros Hr Hs. destruct (preach_inv cfg l0 st s Hr Hs) as [H1 H2 H3]. split_and!; done. Qed.

Lemma flush_spec {St} `{!BatchLog St} cfg now p st l :
  bl_rep st l -> (ppending p <> [] -> bl_fits st (flushBatch cfg now (ppending p))) ->
  exists p' st', flush cfg now p st = Ok (p', st', None) /\ bl_rep st' (l ++ (noDelta <$> ppending p)) /\
    ppending p' = [] /\ pclosed p' = pclosed p /\ (ppending p <> [] -> bufSize p' = 0).
Proof.
  intros Hr Hf. unfold flush. destruct (swap p) as [[records p']|] eqn:Es.
  - apply swap_Some in Es as (-> & Hne & Hp' & Hb' & Hc' & _).
    destruct (bl_append_ok st l (flushBatch cfg now (ppending p)) Hr (Hf Hne)) as (st' & o & Ha & Hr').
    rewrite Ha. cbn [mbind outcome_bind report]. exists p', st'. split_and!; done.
  - unfold swap in Es. destruct (ppending p) eqn:Ep; [|done]. exists p, st. cbn. rewrite app_nil_r. split_and!; done.
Qed.

(** [Send], branch by branch: a record that is too large, comes after [Close] or would
    exceed the backpressure limit is refused and nothing changes; otherwise the log and
    the pending records together grow by exactly this record, at the end, whether or not
    the batch was written. *)
Theorem producer_Send_fifo {St} `{!BatchLog St} cfg now p (st : St) l k v h :
  bl_rep st l -> bl_fits st (flushBatch cfg now (ppending p ++ [newRecord k v h])) ->
  let tooLarge := (0 <? maxMessageSize cfg) && (maxMessageSize cfg <? zlen (default [] v)) in
  let over := (0 <? MaxPendingBytes cfg) && (MaxPendingBytes cfg <? bufSize p + recSize k v) in
  exists p' st' e, Send cfg now p st k v h = Ok (p', st', e) /\
    (e = if tooLarge then Some ErrMessageTooLarge else if pclosed p then Some ErrProducerClosed
         else if over then Some ErrBackpressure else None) /\
    match e with
    | Some _ => p' = p /\ st' = st
    | None => exists l', bl_rep st' l' /\ l' ++ (noDelta <$> ppending p') = l ++ (noDelta <$> ppending p ++ [newRecord k v h])
    end.
Proof.
  intros Hr Hf. cbn zeta. unfold Send, enqueue.
  destruct (_ && _); [do 3 eexists; split; [done|]; split_and!; done|].
  destruct (pclosed p) eqn:Hc; [do 3 eexists; split; [done|]; split_and!; done|].
  destruct (_ && _); [do 3 eexists; split; [done|]; split_and!; done|].
  set (p1 := mkProducer _ _ _ _). destruct (_ <=? _).
  - destruct (flush_spec cfg now p1 st l Hr (fun _ => Hf)) as (p' & st' & Hfl & Hr' & Hp' & _).
    exists p', st', None. split; [exact Hfl|]. split; [done|]. eexists. split; [exact Hr'|]. rewrite Hp'. by rewrite app_nil_r.
  - exists p1, st, None. split; [done|]. split; [done|]. by exists l.
Qed.

(** C5: End to end: what a producer flushes, a consumer at the end of the log polls: all of
    the pending records, in the order they were sent, and nothing else.  The flush
    succeeds (a batch within the format's limits, no failing write), every segment is no
    longer than what one poll reads (4096 bytes for the smallest polls; a longer one can
    starve the consumer, [consumer_starves]), and it polls at least as often as there are
    records. *)
Theorem produce_then_consume L lcfg E (HL : lz4_ok L) (Hf : fault E = None) pcfg now p cl d l p' cl' d' c maxRecords n :
  logRep L (cl, d) l -> ppending p <> [] -> takes L lcfg E (cl, d) (flushBatch pcfg now (ppending p)) ->
  flush (H := commitlog_BatchLog L lcfg E HL Hf) pcfg now p (cl, d) = Ok (p', (cl', d'), None) ->
  coffset c = NewestOffset cl -> OldestOffset cl' <= coffset c -> 0 <= maxRecords ->
  (forall o, coffset c <= o <= NewestOffset cl' -> near cl' o) ->
  Forall (fun o => ssize (seg o) <= readLimit maxRecords) (segments cl') -> (length (ppending p) <= n)%nat ->
  exists recs c', pollN L cl' d' c maxRecords n = Ok (recs, c') /\ noDelta <$> recs = noDelta <$> ppending p.
Proof.
  intros (g & Hok & Hn & _) Hne (H1 & H2 & H3 & H4) Hfl Hc Hold Hm Hnear Hsz Hlen. cbn [fst snd] in *.
  destruct (Append_ok L lcfg E cl d g _ HL Hok Hf H1 H2 H3 H4) as (cl1 & d1 & g' & ct & Ha & [Hld _] & Hg & Hnx & _).
  cbn [fst snd flushBatch Records] in Hnx, Hg. set (b := stored _ ct) in Hg.
  assert (E1 : cl' = cl1 /\ d' = d1).
  { unfold flush, swap in Hfl. destruct (ppending p) as [|r rs] eqn:Ep; [done|].
    cbn [bl_append commitlog_BatchLog] in Hfl. unfold appendSt in Hfl. cbn [fst snd] in Hfl. rewrite Ha in Hfl.
    cbn [mbind outcome_bind] in Hfl. by injection Hfl as _ <- <-. }
  destruct E1 as [-> ->]. pose proof (readLimit_pos maxRecords).
  assert (Hnum : Forall numbered (batches g')).
  { rewrite Hg. apply Forall_app. split; [done|]. constructor; [|constructor]. by apply assign_numbered. }
  assert (Hb : numbered b) by (rewrite Hg in Hnum; apply Forall_app in Hnum as [_ [Hb _]%Forall_cons]; exact Hb).
  assert (Hlb : zlen (Records b) = zlen (ppending p)) by (unfold zlen; cbn; by rewrite length_imap).
  assert (Hbase : BaseOffset b = logNext cl) by done.
  assert (Hpend : pending (coffset c) (batches g') = offsetsFrom (logNext cl) (Records b)).
  { rewrite Hc, Hg. unfold pending, recordsOf. rewrite fmap_app, concat_app, filter_app.
    fold (recordsOf (batches g)). cbn [fmap list_fmap concat]. rewrite app_nil_r, Hbase, filter_none, filter_all; [done|..];
      apply Forall_forall; intros [o r] Hp; cbn; unfold NewestOffset.
    - apply offsetsFrom_bounds in Hp. cbn in Hp. lia.
    - apply recordsOf_elem in Hp as (b' & Hb' & Hr%offsetsFrom_bounds). cbn in Hr. destruct Hok as [Hld0 _].
      pose proof (log_bounds _ _ _ _ _ Hld0 Hb'). rewrite Forall_forall in Hn. destruct (Hn b' Hb') as [Hcc _]. lia. }
  destruct (offsetsFrom_fst (Records b) (logNext cl)) as [_ Hsnd].
  destruct (drains L cl1 d1 g' maxRecords n c Hld Hnum) as (c' & Hp & _); try done.
  - intros o Ho. exists b. rewrite Hg, Hbase. destruct Hb as [-> _]. rewrite Hlb. split; [apply elem_of_app; right; by left|].
    rewrite Hc in Ho. unfold NewestOffset in Ho. lia.
  - rewrite Hc in *. unfold NewestOffset in *. pose proof (zlen_nonneg (ppending p)). lia.
  - intros o Ho. split; [by apply Hnear|]. eapply small_within; [done | lia | lia | by apply Hnear | done].
  - rewrite Hpend. rewrite <- (length_fmap snd), Hsnd. unfold zlen in Hlb. lia.
  - exists ((pending (coffset c) (batches g')).*2), c'. split; [exact Hp|]. rewrite Hpend, Hsnd.
    exact (imap_noDelta (ppending p) (fun i => i)).
Qed.

(** [Close] is final and complete: the pending records are written, nothing stays
    behind, every later [Send] is refused, and closing again does nothing. *)
Theorem producer_Close_flushes {St} `{!BatchLog St} cfg now p (st : St) l :
  bl_rep st l -> closeOnce p = false -> (ppending p <> [] -> bl_fits st (flushBatch cfg now (ppending p))) ->
  exists p' st', CloseProducer cfg now false p st = Ok (p', st', None) /\ bl_rep st' (l ++ (noDelta <$> ppending p)) /\
    ppending p' = [] /\
    (forall now' k v h, exists e, Send cfg now' p' st' k v h = Ok (p', st', Some e)) /\
    (forall now' late, CloseProducer cfg now' late p' st' = Ok (p', st', None)).
Proof.
  intros Hr Hc Hf. unfold CloseProducer. rewrite Hc. set (p1 := mkProducer _ _ true true).
  destruct (flush_spec cfg now p1 st l Hr Hf) as (p' & st' & Hfl & Hr' & Hp' & Hcl & _). rewrite Hfl.
  cbn [mbind outcome_bind]. rewrite andb_false_r. exists p', st'. split_and!; try done.
  - intros now' k v h. unfold Send, enqueue. destruct (_ && _); [by eexists|]. rewrite Hcl. by eexists.
  - intros now' late. assert (Ho : closeOnce p' = true); [|by rewrite Ho].
    unfold flush, swap in Hfl. destruct (ppending p1); [by injection Hfl as <- _|].
    destruct (bl_append _ _) as [[? res]| | |]; try done. cbn [mbind outcome_bind] in Hfl. by injection Hfl as <- _.
Qed.

(** A refused append costs the whole batch: the records are no longer pending and not
    in the log, although the calls of [Send] that brought them returned no error. *)
Theorem producer_refused_append_drops {St} `{!BatchLog St} cfg now p (st : St) l st' e :
  bl_rep st l -> ppending p <> [] -> bl_append st (flushBatch cfg now (ppending p)) = Ok (st', inr e) ->
  exists p', flush cfg now p st = Ok (p', st', if OnError cfg then None else Some (ErrLog e)) /\
    ppending p' = [] /\ bufSize p' = 0 /\ bl_rep st' l.
Proof.
  intros Hr Hne Ha. unfold flush. destruct (swap p) as [[records p']|] eqn:Es.
  - apply swap_Some in Es as (-> & _ & Hp' & Hb' & _). rewrite Ha. cbn [mbind outcome_bind report].
    exists p'. split_and!; try done. by eapply bl_append_refused.
  - unfold swap in Es. by destruct (ppending p).
Qed.

(** ** Witnesses *)

Definition pcfg0 : ProducerConfig := mkProducerConfig 30 0 1000 false 0 100.
Definition keyA : option (list byte) := Some [65].
Definition valA : option (list byte) := Some [1; 2; 3].
Definition recA : Record_ := newRecord keyA valA [].
Definition recB : Record_ := newRecord (Some [66]) (Some [4]) [].
#[local] Instance log0_BatchLog : BatchLog (CommitLog * disk) := commitlog_BatchLog noLz4 logConfig env0 noLz4_ok eq_refl.

Lemma log0_rep : logRep noLz4 log0 [].
Proof. exists [([], [])]. split; [exact log0_ok|]. split; [constructor | reflexivity]. Qed.

Lemma small_encodable base records :
  0 <= base < 2 ^ 63 -> Forall record_ok (imap setDelta records) -> 0 < zlen records < 2 ^ 16 ->
  zlen (recordBytes (imap setDelta records)) <= 2 ^ 23 ->
  encodable noLz4 (assign base (flushBatch pcfg0 7 records)).
Proof.
  intros Hb Hr Hl Hs. split; [|split; [exact Hs | discriminate]].
  assert (Hc : u16 (zlen records) = zlen records) by (apply Z.mod_small; lia).
  assert (Hi : zlen (imap setDelta records) = zlen records) by (unfold zlen; by rewrite length_imap).
  unfold batch_ok. cbn [assign flushBatch BaseOffset Timestamp MaxTimestamp Compression RecordCount Records pcfg0 PCompression].
  rewrite Hc, Hi. split_and!; (done || lia).
Qed.

Lemma recs_ok : Forall record_ok (imap setDelta [recA]) /\ Forall record_ok (imap setDelta [recB]).
Proof. split; repeat constructor; cbn; try lia; done. Qed.

Lemma log0_takes : takes noLz4 logConfig env0 log0 (flushBatch pcfg0 7 [recA]) /\ takes noLz4 logConfig env0 log0 (flushBatch pcfg0 7 [recB]).
Proof.
  assert (Hn : logNext log0.1 = 0) by reflexivity.
  assert (Ha : forall a, active log0.1 = Some a -> 0 - sbase (seg a) < 2 ^ 32 /\ ssize (seg a) < 2 ^ 64 /\
     (IsFull logConfig (now env0) (seg a) = true -> 0 < ssize (seg a))).
  { intros a Ha. vm_compute in Ha. injection Ha as <-. split; [reflexivity|]. split; [reflexivity|]. discriminate. }
  destruct recs_ok as [HA HB].
  split; unfold takes; rewrite Hn; (split; [apply small_encodable; try done; vm_compute; congruence|]);
    (split; [vm_compute; discriminate|]); (split; [vm_compute; reflexivity | exact Ha]).
Qed.

Definition withA : Producer := mkProducer [recA] (recSize keyA valA) false false.

Lemma producer_no_loss_no_duplicate_witness :
  let s := mkP (mkProducer [] 0 false false) log0 {[1%nat := [recA]]} [recA] [] in
  bufSize (prod s) = sizeOf (ppending (prod s)) /\ (0 < MaxPendingBytes pcfg0 -> bufSize (prod s) <= MaxPendingBytes pcfg0).
Proof.
  set (s := mkP _ _ _ _ _).
  destruct (producer_no_loss_no_duplicate (BatchLog0 := log0_BatchLog) pcfg0 log0 [] s log0_rep) as (_ & H1 & H2); [|exact (conj H1 H2)].
  eapply rtc_l; [exact (step_enqueue pcfg0 (pinit log0) keyA valA [] withA false eq_refl)|].
  eapply rtc_l; [|apply rtc_refl].
  exact (step_swap pcfg0 (mkP withA log0 ∅ [recA] []) 1 [recA] (mkProducer [] 0 false false) eq_refl eq_refl).
Defined.

Lemma producer_Send_fifo_witness :
  exists p' st' e, Send pcfg0 7 NewProducer log0 keyA valA [] = Ok (p', st', e) /\ e = None.
Proof.
  destruct (producer_Send_fifo (BatchLog0 := log0_BatchLog) pcfg0 7 NewProducer log0 [] keyA valA [] log0_rep (proj1 log0_takes)) as (p' & st' & e & Hs & He & _).
  exists p', st', e. split; [exact Hs | exact He].
Defined.

Lemma producer_Close_flushes_witness :
  exists p' st', CloseProducer pcfg0 7 false withA log0 = Ok (p', st', None) /\ ppending p' = [].
Proof.
  destruct (producer_Close_flushes (BatchLog0 := log0_BatchLog) pcfg0 7 withA log0 [] log0_rep eq_refl (fun _ => proj1 log0_takes)) as (p' & st' & Hc & _ & Hp & _).
  exists p', st'. split; [exact Hc | exact Hp].
Defined.

(** A compressor that fails on every block. *)
Definition pcfgLz4 : ProducerConfig := mkProducerConfig 30 CompressionLZ4 1000 false 0 100.
Lemma producer_refused_append_drops_witness :
  exists p', flush pcfgLz4 7 withA log0 = Ok (p', log0, Some (ErrLog (ErrLz4 0))) /\ ppending p' = [].
Proof.
  destruct (producer_refused_append_drops (BatchLog0 := log0_BatchLog) pcfgLz4 7 withA log0 [] log0 (ErrLz4 0) log0_rep) as (p' & Hf & Hp & _).
  - discriminate.
  - vm_compute. reflexivity.
  - exists p'. split; [exact Hf | exact Hp].
Defined.

Definition flushed0 : Producer * (CommitLog * disk) * option perror :=
  force (withA, log0, None) (flush pcfg0 7 withA log0).

Lemma produce_then_consume_witness :
  exists recs c', pollN noLz4 flushed0.1.2.1 flushed0.1.2.2 (mkConsumer [97] [98] 0) 5 1 = Ok (recs, c') /\
    noDelta <$> recs = [recA].
Proof.
  assert (E0 : flush pcfg0 7 withA log0 = Ok (flushed0.1.1, (flushed0.1.2.1, flushed0.1.2.2), None)) by (vm_compute; reflexivity).
  destruct (produce_then_consume noLz4 logConfig env0 noLz4_ok eq_refl pcfg0 7 withA log0.1 log0.2 []
    flushed0.1.1 flushed0.1.2.1 flushed0.1.2.2
    (mkConsumer [97] [98] 0) 5 1 log0_rep) as (recs & c' & Hp & Hr).
  - discriminate.
  - exact (proj1 log0_takes).
  - exact E0.
  - vm_compute. reflexivity.
  - vm_compute. discriminate.
  - discriminate.
  - intros o [H1 H2] so Hso. change (NewestOffset flushed0.1.2.1) with 1 in H2. cbn [coffset] in H1.
    assert (Hc : o = 0 \/ o = 1) by lia. destruct_or! Hc; subst o; vm_compute in Hso; injection Hso as <-; vm_compute; reflexivity.
  - vm_compute. repeat constructor. discriminate.
  - vm_compute. lia.
  - exists recs, c'. split; [exact Hp | exact Hr].
Defined.

Lemma Ok_unique {A B} (m : outcome (A * B)) a a' b b' : m = Ok (a, b) -> m = Ok (a', b') -> a = a'.
Proof. congruence. Qed.

Definition logB : CommitLog * disk :=
  (force (log0, inl 0) (appendSt noLz4 logConfig env0 log0 (flushBatch pcfg0 7 [recB]))).1.
Lemma logB_takes : takes noLz4 logConfig env0 logB (flushBatch pcfg0 7 [recA]).
Proof.
  assert (Hn : logNext logB.1 = 1) by (vm_compute; reflexivity). unfold takes. rewrite Hn.
  split; [apply small_encodable; [lia | exact (proj1 recs_ok) | vm_compute; split; reflexivity | vm_compute; discriminate]|].
  split; [vm_compute; discriminate|]. split; [vm_compute; reflexivity|].
  intros a Ha. vm_compute in Ha. injection Ha as <-. split; [reflexivity|]. split; [reflexivity|]. discriminate.
Qed.

(** Two flushes can overtake one another between the swap and the append, so that the log
    does not keep the order in which one goroutine sent its records. *)
Theorem producer_can_reorder :
  exists s : pstate (St := CommitLog * disk), rtc (pstep pcfg0) (pinit log0) s /\ accepted s = [recA; recB] /\
    logRep noLz4 (store s) [recB; recA] /\ inflight s = ∅.
Proof.
  pose (st2 := (force (log0, inl 0) (appendSt noLz4 logConfig env0 logB (flushBatch pcfg0 7 [recA]))).1).
  assert (H1 : appendSt noLz4 logConfig env0 log0 (flushBatch pcfg0 7 [recB]) = Ok (logB, inl 0)) by (vm_compute; reflexivity).
  assert (H2 : appendSt noLz4 logConfig env0 logB (flushBatch pcfg0 7 [recA]) = Ok (st2, inl 1)) by (vm_compute; reflexivity).
  pose proof logB_takes as T1.
  destruct (logRep_append noLz4 logConfig env0 log0 [] _ noLz4_ok eq_refl log0_rep (proj2 log0_takes)) as (st & o & Ha & R1).
  rewrite <- (Ok_unique _ _ _ _ _ H1 Ha) in R1. clear Ha.
  destruct (logRep_append noLz4 logConfig env0 logB _ _ noLz4_ok eq_refl R1 T1) as (st' & o' & Ha & R2).
  rewrite <- (Ok_unique _ _ _ _ _ H2 Ha) in R2. clear Ha.
  exists (mkP (mkProducer [] 0 false false) st2 ∅ [recA; recB] []). split; [|split; [reflexivity|]; split; [exact R2 | reflexivity]].
  eapply rtc_l; [exact (step_enqueue pcfg0 (pinit log0) keyA valA [] withA false eq_refl)|].
  eapply rtc_l; [exact (step_swap pcfg0 (mkP withA log0 ∅ [recA] []) 1 [recA] (mkProducer [] 0 false false) eq_refl eq_refl)|].
  eapply rtc_l; [eapply (step_enqueue pcfg0 _ (Some [66]) (Some [4]) []); reflexivity|].
  eapply rtc_l; [eapply (step_swap pcfg0 _ 2 [recB]); reflexivity|].
  eapply rtc_l; [eapply (step_append pcfg0 _ 2 7 [recB] logB 0); [reflexivity | exact (proj2 log0_takes) | exact H1]|].
  eapply rtc_l; [eapply (step_append pcfg0 _ 1 7 [recA] st2 1); [reflexivity | exact T1 | exact H2]|].
  apply rtc_refl.
Qed.
