(* ===== verification/Broker.v ===== *)
(** * Broker: topics under one data directory
      (src/pkg/mq/forge/broker.go, topic.go, retention.go)

    A broker owns one commit log per topic, the consumer offsets, and a goroutine that
    runs retention and merging.  [dirs] are the topic directories on disk; [topics] the
    open logs.  The order in which a directory or a Go map is walked does not show in the
    results, because topics are independent of one another.  Locks make the critical
    sections atomic; [ensureTopic] is two of them. *)
From stdpp Require Import base list option gmap.
From Stdlib Require Import ZArith Lia.
From S2P Require Import Prelude Codec Index Segment CommitLog Consumer Compaction Producer.

(** ** Definitions *)

Abbreviation name := (list byte).

Record Topic := mkTopic { tname : name; tlog : CommitLog }.

Record Broker := mkBroker {
  topics : gmap name Topic;
  dirs : gmap name disk;
  offsetStore : offsetFiles;
  bclosed : bool;
}.

Definition dlqSuffix : list byte := [46; 100; 108; 113].

Section Brokers.
Variables (L : lz4) (cfg : Config) (E : env).

Definition getTopic (b : Broker) (n : name) : option Topic := topics b !! n.

(** [NewCommitLog] makes the directory when it is missing. *)
Definition createTopic (b : Broker) (n : name) : outcome (Topic * Broker) :=
  '(log, d) ← NewCommitLog L E (default emptyDisk (dirs b !! n));
  let t := mkTopic n log in
  Ok (t, mkBroker (<[n := t]> (topics b)) (<[n := d]> (dirs b)) (offsetStore b) (bclosed b)).

Definition getOrCreateTopicLocked (b : Broker) (n : name) : outcome (Topic * Broker) :=
  match getTopic b n with
  | Some t => Ok (t, b)
  | None => createTopic b n
  end.

(** The read-locked path and the write-locked path of [ensureTopic]. *)
Definition ensureFast (b : Broker) (n : name) : outcome (option Topic) :=
  if bclosed b then Err ErrClosed else Ok (getTopic b n).
Definition ensureSlow (b : Broker) (n : name) : outcome (Topic * Broker) :=
  if bclosed b then Err ErrClosed else getOrCreateTopicLocked b n.
Definition ensureTopic (b : Broker) (n : name) : outcome (Topic * Broker) :=
  t ← ensureFast b n;
  match t with Some t => Ok (t, b) | None => ensureSlow b n end.

Fixpoint loadTopics (names : list name) (b : Broker) : outcome Broker :=
  match names with
  | [] => Ok b
  | n :: names => '(_, b) ← getOrCreateTopicLocked b n; loadTopics names b
  end.
Definition NewBroker (dirs : gmap name disk) (offsets : offsetFiles) : outcome Broker :=
  loadTopics (map_to_list dirs).*1 (mkBroker ∅ dirs offsets false).

Definition BrokerNewProducer (b : Broker) (n : name) : outcome (Producer * Broker) :=
  '(_, b) ← ensureTopic b n; Ok (NewProducer, b).
Definition BrokerNewConsumer (b : Broker) (group n : name) : outcome (Consumer * Broker) :=
  '(_, b) ← ensureTopic b n; Ok (NewConsumer (offsetStore b) group n, b).
Definition NewDLQConsumer (b : Broker) (group n : name) : outcome (Consumer * Producer * Broker) :=
  '(_, b) ← ensureTopic b n;
  '(_, b) ← ensureTopic b (n ++ dlqSuffix);
  Ok (NewConsumer (offsetStore b) group n, NewProducer, b).

Definition Topics (b : Broker) : list name := (map_to_list (topics b)).*1.

(** One topic of [runRetention]; errors go to a callback, and what failed leaves the log
    as it was. *)
Definition orElse {A} (x : A) (m : outcome A) : outcome A :=
  match m with Ok a => Ok a | Err _ => Ok x | Panic => Panic | Hang => Hang end.
Definition retainTopic (b : Broker) (n : name) : outcome Broker :=
  match topics b !! n, dirs b !! n with
  | Some t, Some d =>
      '(cl, d) ← orElse (tlog t, d) (EnforceRetention cfg E (tlog t) d);
      '(cl, d) ← orElse (cl, d) (MergeSegments L cfg E cl d);
      Ok (mkBroker (<[n := mkTopic (tname t) cl]> (topics b)) (<[n := d]> (dirs b)) (offsetStore b) (bclosed b))
  | _, _ => Ok b
  end.
Fixpoint retainAll (names : list name) (b : Broker) : outcome Broker :=
  match names with
  | [] => Ok b
  | n :: names => b ← retainTopic b n; retainAll names b
  end.
Definition runRetention (b : Broker) : outcome Broker := retainAll (Topics b) b.

Definition closeTopic (b : Broker) (n : name) : outcome Broker :=
  match topics b !! n, dirs b !! n with
  | Some t, Some d =>
      '(cl, d) ← orElse (tlog t, d) (CommitLog.Close E (tlog t) d);
      Ok (mkBroker (<[n := mkTopic (tname t) cl]> (topics b)) (<[n := d]> (dirs b)) (offsetStore b) (bclosed b))
  | _, _ => Ok b
  end.
Fixpoint closeAll (names : list name) (b : Broker) : outcome Broker :=
  match names with
  | [] => Ok b
  | n :: names => b ← closeTopic b n; closeAll names b
  end.
Definition CloseBroker (b : Broker) : outcome Broker :=
  if bclosed b then Ok b else
  closeAll (Topics b) (mkBroker (topics b) (dirs b) (offsetStore b) true).
End Brokers.

(** ** Lemmas *)

Lemma loadTopics_ok L E (P : name -> CommitLog -> disk -> Prop) names : forall b,
  NoDup names ->
  (forall n, n ∈ names -> topics b !! n = None /\
     exists d cl' d', dirs b !! n = Some d /\ NewCommitLog L E d = Ok (cl', d') /\ P n cl' d') ->
  exists b', loadTopics L E names b = Ok b' /\ offsetStore b' = offsetStore b /\ bclosed b' = bclosed b /\
    (forall n, n ∈ names -> exists cl d, topics b' !! n = Some (mkTopic n cl) /\ dirs b' !! n = Some d /\ P n cl d) /\
    (forall n, n ∉ names -> topics b' !! n = topics b !! n /\ dirs b' !! n = dirs b !! n).
Proof.
  induction names as [|n names IH]; intros b Hnd Hall.
  { exists b. cbn. split_and!; try done. intros n Hn. by apply elem_of_nil in Hn. }
  apply NoDup_cons in Hnd as [Hn Hnd]. destruct (Hall n ltac:(by left)) as (Ht & d & cl & d' & Hd & Hnew & HP).
  cbn [loadTopics]. unfold getOrCreateTopicLocked, getTopic, createTopic. rewrite Ht, Hd.
  change (default emptyDisk (Some d)) with d. rewrite Hnew. cbn [mbind outcome_bind].
  set (b1 := mkBroker _ _ _ _).
  assert (Hb1 : forall m, m <> n -> topics b1 !! m = topics b !! m /\ dirs b1 !! m = dirs b !! m)
    by (intros m Hm; cbn; by rewrite !lookup_insert_ne).
  destruct (IH b1 Hnd) as (b' & Hl & Hos & Hcl & Hin & Hout).
  - intros m Hm. destruct (Hb1 m ltac:(by intros ->)) as [-> ->]. apply Hall. by right.
  - exists b'. split; [exact Hl|]. split; [done|]. split; [done|]. split.
    + intros m [->|Hm]%elem_of_cons; [|by apply Hin]. destruct (Hout n Hn) as [-> ->]. exists cl, d'. cbn.
      by rewrite !lookup_insert_eq.
    + intros m Hm. apply not_elem_of_cons in Hm as [Hmn Hm]. destruct (Hout m Hm) as [-> ->]. by apply Hb1.
Qed.

Lemma names_elem {A} (m : gmap name A) n : n ∈ (map_to_list m).*1 <-> is_Some (m !! n).
Proof.
  rewrite list_elem_of_fmap. split.
  - intros ([k d] & -> & Hm%elem_of_map_to_list). by exists d.
  - intros [d Hd]. exists (n, d). split; [done|]. by apply elem_of_map_to_list.
Qed.

(** A new broker has exactly the topics found on disk. *)
Lemma NewBroker_ok L E (P : name -> CommitLog -> disk -> Prop) ds offsets :
  (forall n d, ds !! n = Some d -> exists cl' d', NewCommitLog L E d = Ok (cl', d') /\ P n cl' d') ->
  exists b', NewBroker L E ds offsets = Ok b' /\ offsetStore b' = offsets /\ bclosed b' = false /\
    dom (topics b') = dom ds /\ dom (dirs b') = dom ds /\
    forall n t, topics b' !! n = Some t -> tname t = n /\ exists d, dirs b' !! n = Some d /\ P n (tlog t) d.
Proof.
  intros Hall. unfold NewBroker.
  destruct (loadTopics_ok L E P (map_to_list ds).*1 (mkBroker ∅ ds offsets false)) as (b' & Hl & Hos & Hcl & Hin & Hout).
  { apply NoDup_fst_map_to_list. }
  { intros n [d Hd]%names_elem. split; [apply lookup_empty|]. destruct (Hall n d Hd) as (cl' & d' & H1 & H2). by exists d, cl', d'. }
  assert (Hd : forall n, (is_Some (topics b' !! n) <-> is_Some (ds !! n)) /\ (is_Some (dirs b' !! n) <-> is_Some (ds !! n))).
  { intros n. destruct (decide (n ∈ (map_to_list ds).*1)) as [Hn|Hn].
    - destruct (Hin n Hn) as (cl & d & -> & -> & _). apply names_elem in Hn. split; (split; [done | by eexists]).
    - destruct (Hout n Hn) as [-> ->]. cbn. rewrite lookup_empty. rewrite names_elem in Hn.
      split; [|done]. split; [intros [? Hx]; discriminate Hx | intros Hx; by destruct Hn]. }
  exists b'. split_and!; try done.
  - apply set_eq. intros n. rewrite !elem_of_dom. apply Hd.
  - apply set_eq. intros n. rewrite !elem_of_dom. apply Hd.
  - intros n t Ht. destruct (Hin n) as (cl & d & Ht' & Hdn & HP).
    { apply names_elem, (proj1 (Hd n)). rewrite Ht. by eexists. }
    rewrite Ht in Ht'. injection Ht' as ->. split; [done|]. by exists d.
Qed.

Lemma closeAll_ok E names : forall b,
  NoDup names ->
  (forall n, n ∈ names -> exists t d cl' d', topics b !! n = Some t /\ dirs b !! n = Some d /\
     CommitLog.Close E (tlog t) d = Ok (cl', d') /\ closed cl' = true) ->
  exists b', closeAll E names b = Ok b' /\ bclosed b' = bclosed b /\ offsetStore b' = offsetStore b /\
    (forall n, n ∈ names -> exists t, topics b' !! n = Some t /\ closed (tlog t) = true) /\
    (forall n, n ∉ names -> topics b' !! n = topics b !! n).
Proof.
  induction names as [|n names IH]; intros b Hnd Hall.
  { exists b. cbn. split_and!; try done. intros n Hn. by apply elem_of_nil in Hn. }
  apply NoDup_cons in Hnd as [Hn Hnd]. destruct (Hall n ltac:(by left)) as (t & d & cl & d' & Ht & Hd & Hc & Hcl).
  cbn [closeAll]. unfold closeTopic. rewrite Ht, Hd, Hc. cbn [orElse mbind outcome_bind].
  set (b1 := mkBroker _ _ _ _).
  destruct (IH b1 Hnd) as (b' & Hl & H1 & H2 & Hin & Hout).
  - intros m Hm. destruct (Hall m ltac:(by right)) as (t' & d1 & cl1 & d1' & Ht1 & Hd1 & Hc1).
    assert (Hmn : n <> m) by (by intros ->). exists t', d1, cl1, d1'. cbn. by rewrite !lookup_insert_ne.
  - exists b'. split; [exact Hl|]. split_and!; try done.
    + intros m [->|Hm]%elem_of_cons; [|by apply Hin]. rewrite (Hout n Hn). cbn. rewrite lookup_insert_eq. by eexists.
    + intros m Hm. apply not_elem_of_cons in Hm as [Hmn Hm]. rewrite (Hout m Hm). cbn. by rewrite lookup_insert_ne.
Qed.

Lemma closeLoop_ok L E l : forall g d,
  Forall2 (holds L d) l g -> NoDup (ino <$> l) -> exists l' d', closeLoop E l d = Ok (l', d').
Proof.
  induction l as [|o l IH]; intros g d Hs Hnd; [by exists [], d|].
  apply Forall2_cons_inv_l in Hs as (e & g' & Ho & Hs & ->). cbn in Hnd. apply NoDup_cons in Hnd as [Hn Hnd].
  destruct (Remove_ok L E d o e Ho) as [fs Hr]. unfold Remove in Hr. apply bind_Ok in Hr as ([o' d1] & Hc & Hr).
  cbn [closeLoop]. rewrite Hc. cbn [mbind outcome_bind].
  assert (Hd1 : exists fs', d1 = writeInode E d (ino o) fs').
  { unfold closeObj in Hc. apply bind_Ok in Hc as (f & _ & ([s f'] & _ & Hc)%bind_Ok). injection Hc as _ <-. by eexists. }
  destruct Hd1 as [fs' ->]. destruct (IH g' (writeInode E d (ino o) fs')) as (l' & d' & ->); [|done|by do 2 eexists].
  by apply Forall2_holds_write.
Qed.

Lemma log_Close_ok L E cl d g : log_data L cl d g -> exists cl' d', CommitLog.Close E cl d = Ok (cl', d') /\ closed cl' = true.
Proof.
  intros Hd. unfold CommitLog.Close. rewrite (ld_open _ _ _ _ Hd).
  destruct (closeLoop_ok L E (segments cl) g d (ld_segs _ _ _ _ Hd) (ld_inos _ _ _ _ Hd)) as (l' & d' & ->).
  cbn [mbind outcome_bind]. by do 2 eexists.
Qed.

(** ** Properties *)

(** A broker whose topics are all open and consistent. *)
Definition broker_ok (L : lz4) (b : Broker) (G : name -> ghost) : Prop :=
  bclosed b = false /\ dom (topics b) = dom (dirs b) /\
  forall n t, topics b !! n = Some t -> tname t = n /\ exists d, dirs b !! n = Some d /\ log_data L (tlog t) d (G n).

(** The data directory after a crash: every topic may have lost unsynced index entries and
    kept a torn batch at the end of its active segment. *)
Definition crashDirs (b : Broker) (tail : name -> list byte) (mts : name -> nat -> Z) : gmap name disk :=
  map_imap (fun n d =>
    match t ← topics b !! n; active (tlog t) with
    | Some a => Some (crash d (ino a) (tail n) (mts n))
    | None => Some d
    end) (dirs b).

(** C13: Restarting a broker after a crash brings back every topic, each with exactly the
    batches it had completely written and with its next offset, and the committed
    offsets; topics do not affect one another.  As for one log, the encoded batches and
    the torn ones are of at most 256 KB each, the segments of any size that the rounds of
    the recovery loop suffice for, and no topic was being compacted or merged. *)
Theorem broker_restart_recovers L E b G tail mts :
  broker_ok L b G -> (forall n, torn L (tail n) /\ zlen (tail n) <= recoverChunkSize) ->
  (forall n, n ∈ dom (topics b) -> Forall (fun e => Forall small e.1) (G n)) ->
  (forall n t o, topics b !! n = Some t -> o ∈ segments (tlog t) ->
     fitsRounds (rounds E) (ssize (seg o) + zlen (tail n))) ->
  exists b', NewBroker L E (crashDirs b tail mts) (offsetStore b) = Ok b' /\ broker_ok L b' G /\
    offsetStore b' = offsetStore b /\ dom (topics b') = dom (topics b) /\
    forall n t, topics b !! n = Some t -> exists t', topics b' !! n = Some t' /\ logNext (tlog t') = logNext (tlog t).
Proof.
  intros (Hop & Hdom & Htop) Htorn Hsm Hsz.
  destruct (NewBroker_ok L E (fun n cl d => log_data L cl d (G n) /\
    forall t, topics b !! n = Some t -> logNext cl = logNext (tlog t)) (crashDirs b tail mts) (offsetStore b))
    as (b' & Hl & Hos & Hcl & Hdt & Hdd & Hin).
  - intros n d Hd. unfold crashDirs in Hd. rewrite map_lookup_imap in Hd. destruct (dirs b !! n) as [d0|] eqn:Ed; [|done].
    assert (Hs : is_Some (topics b !! n)) by (apply elem_of_dom; rewrite Hdom; by apply elem_of_dom). destruct Hs as [t Ht].
    destruct (Htop n t Ht) as (_ & d1 & Hd1 & Hld). assert (d1 = d0) as -> by congruence.
    destruct (log_data_active _ _ _ _ Hld) as (pre & a & Hs & Ha & _). rewrite Ht in Hd. cbn [mbind option_bind] in Hd.
    rewrite Ha in Hd. injection Hd as <-.
    destruct (recover_crash L E (tlog t) d0 (G n) a (tail n) (mts n) Hld Ha (proj1 (Htorn n))
      (Hsm n (elem_of_dom_2 _ _ _ Ht)) (proj2 (Htorn n)) (fun o Ho => Hsz n t o Ht Ho))
      as (cl' & d' & Hn & Hld' & Hnx & _).
    exists cl', d'. split_and!; try done. intros t' Ht'. congruence.
  - assert (Hdc : dom (crashDirs b tail mts) = dom (topics b)).
    { rewrite Hdom. apply set_eq. intros n. rewrite !elem_of_dom. unfold crashDirs. rewrite map_lookup_imap.
      destruct (dirs b !! n) as [d|]; cbn; [|done]. destruct (topics b !! n ≫= _); split; by eexists. }
    exists b'. split_and!; [done | | done | congruence |].
    + split_and!; [done | congruence |]. intros n t Ht. destruct (Hin n t Ht) as (H1 & d & H2 & H3 & _). split; [done|]. by exists d.
    + intros n t Ht. assert (Hs : is_Some (topics b' !! n)).
      { apply elem_of_dom. rewrite Hdt, Hdc. apply elem_of_dom. by eexists. }
      destruct Hs as [t' Ht']. exists t'. split; [done|]. destruct (Hin n t' Ht') as (_ & d & _ & _ & Hx). by apply Hx.
Qed.

(** There is never more than one log per topic: the slow path of [ensureTopic] looks
    again under the write lock, so that whoever created the topic in between wins; a new
    topic is opened from its own directory, no other topic is touched, and a closed
    broker refuses. *)
Theorem broker_ensureTopic_once L E b n :
  (bclosed b = true -> ensureTopic L E b n = Err ErrClosed) /\
  (forall t b', ensureTopic L E b n = Ok (t, b') ->
     topics b' !! n = Some t /\ (forall t0, topics b !! n = Some t0 -> t = t0 /\ b' = b) /\
     (forall m, m <> n -> topics b' !! m = topics b !! m /\ dirs b' !! m = dirs b !! m) /\
     (topics b !! n = None -> exists d, NewCommitLog L E (default emptyDisk (dirs b !! n)) = Ok (tlog t, d) /\ dirs b' !! n = Some d) /\
     ensureTopic L E b' n = Ok (t, b')) /\
  (forall b2 t b', topics b2 !! n = Some t -> bclosed b2 = false -> ensureSlow L E b2 n = Ok b' -> b' = (t, b2)).
Proof.
  unfold ensureTopic, ensureFast, ensureSlow. split; [by intros ->|]. split.
  - intros t b'. destruct (bclosed b) eqn:Hc; [done|]. cbn [mbind outcome_bind]. unfold getOrCreateTopicLocked, getTopic.
    destruct (topics b !! n) as [t0|] eqn:Ht.
    + intros [= <- <-]. rewrite Hc, Ht. split_and!; try done. intros t1 [= ->]. done.
    + unfold createTopic. destruct (NewCommitLog L E _) as [[log d]| | |] eqn:En; try done. cbn [mbind outcome_bind].
      intros [= <- <-]. cbn [topics dirs bclosed tlog]. rewrite !lookup_insert_eq, Hc. cbn [mbind outcome_bind].
      split_and!; try done; [intros m Hm; by rewrite !lookup_insert_ne | by exists d].
  - intros b2 t b' Ht Hc. rewrite Hc. unfold getOrCreateTopicLocked, getTopic. rewrite Ht. by intros [= <-].
Qed.

(** Closing a broker closes the log of every topic and nothing can be opened any more;
    closing twice is the same as once. *)
Theorem broker_Close_closes_all L E b G :
  broker_ok L b G ->
  exists b', CloseBroker E b = Ok b' /\ bclosed b' = true /\ offsetStore b' = offsetStore b /\
    (forall n t, topics b !! n = Some t -> exists t', topics b' !! n = Some t' /\ closed (tlog t') = true) /\
    (forall n, ensureTopic L E b' n = Err ErrClosed) /\ CloseBroker E b' = Ok b'.
Proof.
  intros (Hop & Hdom & Htop). unfold CloseBroker at 1. rewrite Hop.
  destruct (closeAll_ok E (Topics b) (mkBroker (topics b) (dirs b) (offsetStore b) true)) as (b' & Hl & Hc & Hos & Hin & _).
  - apply NoDup_fst_map_to_list.
  - intros n [t Ht]%names_elem. destruct (Htop n t Ht) as (_ & d & Hd & Hld).
    destruct (log_Close_ok L E (tlog t) d _ Hld) as (cl' & d' & Hcl & Hcd). by exists t, d, cl', d'.
  - exists b'. split_and!; try done.
    + intros n t Ht. apply Hin. apply names_elem. by eexists.
    + intros n. unfold ensureTopic, ensureFast. by rewrite Hc.
    + unfold CloseBroker. by rewrite Hc.
Qed.

(** ** Witnesses *)

Definition broker3 : Broker := mkBroker {[ [97] := mkTopic [97] log3.1 ]} {[ [97] := log3.2 ]} ∅ false.

Lemma broker3_ok :
  exists g, broker_ok noLz4 broker3 (fun _ => g) /\ length (batches g) = 3%nat /\ Forall (fun e => Forall small e.1) g.
Proof.
  destruct log3_ok as (g & c0 & c1 & c2 & [Hld _] & Hg). exists g. split; [|split; [by rewrite Hg | by apply log3_small]].
  split_and!; [done | |].
  - unfold broker3. cbn [topics dirs]. by rewrite !dom_singleton_L.
  - intros n t. unfold broker3. cbn [topics dirs]. rewrite lookup_singleton_Some. intros [<- <-]. split; [done|].
    exists log3.2. rewrite lookup_singleton_eq. split; [done | exact Hld].
Qed.

Lemma broker_restart_recovers_witness :
  exists b' t', NewBroker noLz4 env0 (crashDirs broker3 (fun _ => ztake 17 (sampleEnc 6)) (fun _ _ => 7)) ∅ = Ok b' /\
    topics b' !! [97] = Some t' /\ logNext (tlog t') = 6.
Proof.
  destruct broker3_ok as (g & Hok & _ & Hsm). destruct log3_segments as (a & Ha & Hsz).
  destruct (broker_restart_recovers noLz4 env0 broker3 (fun _ => g) (fun _ => ztake 17 (sampleEnc 6)) (fun _ _ => 7) Hok)
    as (b' & Hb & _ & _ & _ & Hn).
  - intros n. split; [|vm_compute; discriminate].
    apply (torn_prefix noLz4 _ (sampleBatch 6)); [apply sample_encodes; lia|]. split; vm_compute; congruence.
  - intros n _. exact Hsm.
  - intros n t o. unfold broker3. cbn [topics]. rewrite lookup_singleton_Some. intros [_ <-]. exact (Hsz o).
  - destruct (Hn [97] (mkTopic [97] log3.1)) as (t' & Ht & Hnx); [apply lookup_singleton_eq|].
    exists b', t'. split; [exact Hb|]. split; [exact Ht|]. rewrite Hnx. vm_compute. reflexivity.
Defined.

Lemma broker_Close_closes_all_witness : exists b', CloseBroker env0 broker3 = Ok b' /\ bclosed b' = true.
Proof.
  destruct broker3_ok as (g & Hok & _).
  destruct (broker_Close_closes_all noLz4 env0 broker3 (fun _ => g) Hok) as (b' & Hc & Hb & _). exists b'. split; [exact Hc | exact Hb].
Defined.
