(* ===== verification/MPMC.v ===== *)
(** * MPMC: the bounded multi-producer multi-consumer queue
      (src/pkg/datastructs/queue/mpmc.go)

    Every shared access of [Enqueue] and [Dequeue] is one step of a thread ([exec]),
    and threads interleave arbitrarily ([step]); Go's atomics are sequentially
    consistent.  Positions are unbounded [Z] (2^64 operations do not happen), spinning
    and yielding have no effect on the state.  [tickets] is a history variable: the
    items in the order in which their producers took a position.  The invariant shows
    that the turn numbers hand each slot to one owner at a time, and the theorems that
    the item taken with a ticket is the item put with it. *)
From stdpp Require Import base list option gmap.
From Stdlib Require Import ZArith Lia.
From S2P Require Import Prelude Num.

(** ** Definitions *)

(** [bits.TrailingZeros64] *)
Fixpoint tzLoop (fuel : nat) (x n : Z) : Z :=
  match fuel with
  | O => n
  | S f => if Z.testbit x 0 then n else tzLoop f (Z.shiftr x 1) (n + 1)
  end.
Definition TrailingZeros64 (x : Z) : Z := tzLoop 64 x 0.

Section Queue.
Context {T : Type} (zero : T).

Record slot := mkSlot { sturn : Z; sdata : T }.

Record MPMC := mkMPMC {
  capacity : Z;
  mask : Z;
  capacityLog2 : Z;
  slots : list slot;
  head : Z;
  tail : Z;
}.

Definition NewMPMC (cap : Z) : option MPMC :=
  let cap := if cap <? 2 then 2 else cap in
  c ← CeilToPowerOfTwo cap;
  Some (mkMPMC c (c - 1) (TrailingZeros64 c) (replicate (Z.to_nat c) (mkSlot 0 zero)) 0 0).

Definition idx (q : MPMC) (pos : Z) : Z := Z.land pos (mask q).
Definition turn (q : MPMC) (pos : Z) : Z := Z.shiftr pos (capacityLog2 q).

Definition setHead (q : MPMC) (h : Z) : MPMC :=
  mkMPMC (capacity q) (mask q) (capacityLog2 q) (slots q) h (tail q).
Definition setTail (q : MPMC) (t : Z) : MPMC :=
  mkMPMC (capacity q) (mask q) (capacityLog2 q) (slots q) (head q) t.
Definition setSlots (q : MPMC) (ss : list slot) : MPMC :=
  mkMPMC (capacity q) (mask q) (capacityLog2 q) ss (head q) (tail q).
Definition storeTurn (q : MPMC) (i w : Z) : option MPMC :=
  s ← zget (slots q) i; ss ← zset (slots q) i (mkSlot w (sdata s)); Some (setSlots q ss).
Definition storeData (q : MPMC) (i : Z) (d : T) : option MPMC :=
  s ← zget (slots q) i; ss ← zset (slots q) i (mkSlot (sturn s) d); Some (setSlots q ss).

(** Where a thread stands: before the load of the head, of the slot's turn, before the
    compare-and-swap, the second load of the head, the store of the data and the store
    of the turn; and the same for [Dequeue]. *)
Inductive pc : Type :=
  | Idle
  | EHead (v : T) | ETurn (v : T) (h : Z) | ECas (v : T) (h : Z) | ECheck (v : T) (h : Z)
  | EData (v : T) (h : Z) | EPub (v : T) (h : Z)
  | DTail | DTurn (t : Z) | DCas (t : Z) | DCheck (t : Z)
  | DData (t : Z) | DZero (t : Z) (d : T) | DPub (t : Z) (d : T).

Inductive event : Type :=
  | Ticket (h : Z) (v : T)      (* the producer of [v] took position [h] *)
  | Enqueued (h : Z) | Full
  | Dequeued (t : Z) (d : T) | Empty.

(** One shared access of a running operation. *)
Definition exec (q : MPMC) (p : pc) : option (MPMC * pc * option event) :=
  match p with
  | Idle => None
  | EHead v => Some (q, ETurn v (head q), None)
  | ETurn v h =>
      s ← zget (slots q) (idx q h);
      Some (q, if sturn s =? turn q h * 2 then ECas v h else ECheck v h, None)
  | ECas v h =>
      if head q =? h then Some (setHead q (h + 1), EData v h, Some (Ticket h v))
      else Some (q, EHead v, None)
  | ECheck v h => if h =? head q then Some (q, Idle, Some Full) else Some (q, EHead v, None)
  | EData v h => q ← storeData q (idx q h) v; Some (q, EPub v h, None)
  | EPub v h => q ← storeTurn q (idx q h) (turn q h * 2 + 1); Some (q, Idle, Some (Enqueued h))
  | DTail => Some (q, DTurn (tail q), None)
  | DTurn t =>
      s ← zget (slots q) (idx q t);
      Some (q, if sturn s =? turn q t * 2 + 1 then DCas t else DCheck t, None)
  | DCas t =>
      if tail q =? t then Some (setTail q (t + 1), DData t, None) else Some (q, DTail, None)
  | DCheck t => if t =? tail q then Some (q, Idle, Some Empty) else Some (q, DTail, None)
  | DData t => s ← zget (slots q) (idx q t); Some (q, DZero t (sdata s), None)
  | DZero t d => q ← storeData q (idx q t) zero; Some (q, DPub t d, None)
  | DPub t d => q ← storeTurn q (idx q t) (turn q t * 2 + 1 + 1); Some (q, Idle, Some (Dequeued t d))
  end.

(** Any number of threads, with the ticket log and the history of events. *)
Record state := mkState {
  queue : MPMC;
  threads : list pc;
  tickets : list T;
  history : list event;
}.

Definition logTicket (l : list T) (e : option event) : list T :=
  match e with Some (Ticket _ v) => l ++ [v] | _ => l end.
Definition logEvent (l : list event) (e : option event) : list event :=
  match e with Some e => l ++ [e] | None => l end.

Inductive step : state -> state -> Prop :=
  | step_start i p s :
      threads s !! i = Some Idle -> (p = DTail \/ exists v, p = EHead v) ->
      step s (mkState (queue s) (<[i := p]> (threads s)) (tickets s) (history s))
  | step_exec i p q' p' e s :
      threads s !! i = Some p -> exec (queue s) p = Some (q', p', e) ->
      step s (mkState q' (<[i := p']> (threads s)) (logTicket (tickets s) e) (logEvent (history s) e)).

Inductive reachable (s0 : state) : state -> Prop :=
  | reach_refl : reachable s0 s0
  | reach_step s s' : reachable s0 s -> step s s' -> reachable s0 s'.

Definition initState (q : MPMC) (n : nat) : state := mkState q (replicate n Idle) [] [].

(** A single thread run to the end of its operation; [None] is also "not finished
    within the fuel". *)
Fixpoint runThread (fuel : nat) (q : MPMC) (p : pc) : option (MPMC * option event) :=
  match fuel with
  | O => None
  | S f =>
      '(q, p, e) ← exec q p;
      match p with Idle => Some (q, e) | _ => runThread f q p end
  end.

Definition Enqueue (q : MPMC) (v : T) : option (MPMC * bool) :=
  '(q, e) ← runThread 5 q (EHead v);
  Some (q, match e with Some (Enqueued _) => true | _ => false end).
Definition Dequeue (q : MPMC) : option (MPMC * option T) :=
  '(q, e) ← runThread 6 q DTail;
  Some (q, match e with Some (Dequeued _ d) => Some d | _ => None end).

Fixpoint EnqueueBatch (q : MPMC) (items : list T) (count : Z) : option (MPMC * Z) :=
  match items with
  | [] => Some (q, count)
  | v :: items =>
      '(q, ok) ← Enqueue q v;
      if (ok : bool) then EnqueueBatch q items (count + 1) else Some (q, count)
  end.

(** The items that [DequeueBatch] stores in a slice of [n] elements. *)
Fixpoint DequeueBatch (n : nat) (q : MPMC) : option (MPMC * list T) :=
  match n with
  | O => Some (q, [])
  | S n =>
      '(q, r) ← Dequeue q;
      match r with
      | None => Some (q, [])
      | Some d => '(q, ds) ← DequeueBatch n q; Some (q, d :: ds)
      end
  end.

Definition Size (q : MPMC) : Z := head q - tail q.
Definition IsEmpty (q : MPMC) : bool := Size q <=? 0.
Definition IsFull (q : MPMC) : bool := capacity q <=? Size q.
Definition Capacity (q : MPMC) : Z := capacity q.

(** [Clear]; each round removes an item, so [Size + 1] rounds are enough when no other
    thread enqueues. *)
Fixpoint clearLoop (fuel : nat) (q : MPMC) : option MPMC :=
  match fuel with
  | O => None
  | S f => '(q, r) ← Dequeue q; match r with None => Some q | Some _ => clearLoop f q end
  end.
Definition Clear (q : MPMC) : option MPMC := clearLoop (S (Z.to_nat (Size q))) q.

(** ** The invariant *)

(** The position a thread owns in its slot, as producer or as consumer. *)
Definition owns (p : pc) : option (bool * Z) :=
  match p with
  | EData _ h | EPub _ h => Some (true, h)
  | DData t | DZero t _ | DPub t _ => Some (false, t)
  | _ => None
  end.

(** The slot of position [p], and what its turn is when [p] is free or filled. *)
Definition slotAt (q : MPMC) (p : Z) : option slot := slots q !! Z.to_nat (p mod capacity q).
Definition freeTurn (q : MPMC) (p : Z) : Z := 2 * (p / capacity q).
Definition turnAt (q : MPMC) (p w : Z) : Prop := exists s, slotAt q p = Some s /\ sturn s = w.

Record wf (q : MPMC) : Prop := {
  wf_pow : is_pow2 (capacity q);
  wf_mask : mask q = capacity q - 1;
  wf_log : capacity q = 2 ^ capacityLog2 q /\ 0 <= capacityLog2 q;
  wf_slots : zlen (slots q) = capacity q;
}.

(** What a thread knows at each point. *)
Definition local (q : MPMC) (tk : list T) (p : pc) : Prop :=
  match p with
  | Idle | EHead _ | DTail => True
  | ETurn _ h | ECheck _ h => 0 <= h
  | DTurn t | DCheck t => 0 <= t
  | ECas _ h => 0 <= h /\ (head q <= h -> turnAt q h (freeTurn q h))
  | EData v h => 0 <= h < head q /\ zget tk h = Some v /\ turnAt q h (freeTurn q h)
  | EPub v h => 0 <= h < head q /\ zget tk h = Some v /\
      slotAt q h = Some (mkSlot (freeTurn q h) v)
  | DCas t => 0 <= t /\ (tail q <= t -> turnAt q t (freeTurn q t + 1))
  | DData t => 0 <= t < tail q /\ head q <= t + capacity q /\
      exists v, zget tk t = Some v /\ slotAt q t = Some (mkSlot (freeTurn q t + 1) v)
  | DZero t d | DPub t d => 0 <= t < tail q /\ head q <= t + capacity q /\ zget tk t = Some d /\ turnAt q t (freeTurn q t + 1)
  end.

(** The queue and its threads; [tk] is the ticket log. *)
Record inv (q : MPMC) (ths : list pc) (tk : list T) : Prop := {
  inv_wf : wf q;
  inv_pos : 0 <= tail q <= head q;
  inv_cap : head q <= tail q + capacity q;
  inv_tk : zlen tk = head q;
  (* a free slot waits for a position within the capacity *)
  inv_free : forall p, 0 <= p -> turnAt q p (freeTurn q p) -> tail q <= p < tail q + capacity q;
  (* a filled slot holds the item of its position until it is taken *)
  inv_full : forall p sl, 0 <= p -> slotAt q p = Some sl -> sturn sl = freeTurn q p + 1 ->
    p < head q /\ (tail q <= p -> zget tk p = Some (sdata sl));
  inv_local : forall i p, ths !! i = Some p -> local q tk p;
  inv_own : forall i j p p' o, ths !! i = Some p -> ths !! j = Some p' ->
    owns p = Some o -> owns p' = Some o -> i = j;
}.

(** The history: what was taken is what was put, and each position is taken once. *)
Record hinv (q : MPMC) (ths : list pc) (tk : list T) (hist : list event) : Prop := {
  hinv_put : forall h v, Ticket h v ∈ hist -> zget tk h = Some v;
  hinv_got : forall t d, Dequeued t d ∈ hist -> 0 <= t < tail q /\ zget tk t = Some d;
  hinv_once : forall i j t d d', hist !! i = Some (Dequeued t d) ->
    hist !! j = Some (Dequeued t d') -> i = j;
  hinv_done : forall t d i p, Dequeued t d ∈ hist -> ths !! i = Some p -> owns p <> Some (false, t);
}.

(** ** Lemmas *)

Lemma wf_pos q : wf q -> 0 < capacity q.
Proof. intros Hw. apply is_pow2_pos, Hw. Qed.

Lemma idx_mod q p : wf q -> idx q p = p mod capacity q.
Proof. intros Hw. unfold idx. rewrite (wf_mask q Hw). apply land_pow2_mod, Hw. Qed.

Lemma turn_div q p : wf q -> turn q p = p / capacity q.
Proof.
  intros Hw. unfold turn. destruct (wf_log q Hw) as [Hc Hk].
  by rewrite Z.shiftr_div_pow2, <- Hc by lia.
Qed.

Lemma zget_slotAt q p : wf q -> zget (slots q) (idx q p) = slotAt q p.
Proof.
  intros Hw. pose proof (wf_pos q Hw). pose proof (Z.mod_pos_bound p (capacity q)).
  rewrite idx_mod by done. unfold zget, slotAt. by rewrite bool_decide_true by lia.
Qed.

Lemma idx_range q p : wf q -> 0 <= idx q p < zlen (slots q).
Proof.
  intros Hw. rewrite (wf_slots q Hw), idx_mod by done. apply Z.mod_pos_bound, wf_pos, Hw.
Qed.

Lemma slotAt_Some q p : wf q -> exists s, slotAt q p = Some s.
Proof.
  intros Hw. rewrite <- zget_slotAt by done. by apply zget_Some, idx_range.
Qed.

(** Two positions of one slot in the same lap are the same position. *)
Lemma same_slot q p p' :
  wf q -> p mod capacity q = p' mod capacity q -> freeTurn q p = freeTurn q p' -> p = p'.
Proof.
  intros Hw Hm Hf. pose proof (wf_pos q Hw). unfold freeTurn in Hf.
  rewrite (Z.div_mod p (capacity q)), (Z.div_mod p' (capacity q)), Hm by lia. nia.
Qed.

Lemma freeTurn_odd q p p' : freeTurn q p <> freeTurn q p' + 1.
Proof. unfold freeTurn. lia. Qed.

Lemma freeTurn_next q p : wf q -> freeTurn q (p + capacity q) = freeTurn q p + 2.
Proof.
  intros Hw. pose proof (wf_pos q Hw). unfold freeTurn.
  replace (p + capacity q) with (p + 1 * capacity q) by lia. rewrite Z.div_add by lia. lia.
Qed.

Lemma mod_next q p : wf q -> (p + capacity q) mod capacity q = p mod capacity q.
Proof.
  intros Hw. pose proof (wf_pos q Hw).
  replace (p + capacity q) with (p + 1 * capacity q) by lia. by rewrite Z.mod_add by lia.
Qed.

(** [q] with the slot of position [p] replaced. *)
Definition upd (q : MPMC) (p : Z) (sl : slot) : MPMC :=
  setSlots q (<[Z.to_nat (p mod capacity q) := sl]> (slots q)).

Lemma upd_wf q p sl : wf q -> wf (upd q p sl).
Proof. intros []. split; try done. unfold upd, zlen in *. simpl. by rewrite length_insert. Qed.

Lemma slotAt_upd q p sl p' :
  wf q -> slotAt (upd q p sl) p' =
          if decide (p' mod capacity q = p mod capacity q) then Some sl else slotAt q p'.
Proof.
  intros Hw. pose proof (wf_pos q Hw). pose proof (wf_slots q Hw) as Hl.
  pose proof (Z.mod_pos_bound p (capacity q)). pose proof (Z.mod_pos_bound p' (capacity q)).
  unfold slotAt, upd, zlen in *. simpl. destruct (decide _) as [->|].
  - apply list_lookup_insert_eq. lia.
  - apply list_lookup_insert_ne. lia.
Qed.

Lemma storeTurn_upd q p s w :
  wf q -> slotAt q p = Some s -> storeTurn q (idx q p) w = Some (upd q p (mkSlot w (sdata s))).
Proof.
  intros Hw Hs. unfold storeTurn. rewrite zget_slotAt, Hs by done. simpl.
  rewrite zset_Some by (by apply idx_range). by rewrite idx_mod.
Qed.

Lemma storeData_upd q p s d :
  wf q -> slotAt q p = Some s -> storeData q (idx q p) d = Some (upd q p (mkSlot (sturn s) d)).
Proof.
  intros Hw Hs. unfold storeData. rewrite zget_slotAt, Hs by done. simpl.
  rewrite zset_Some by (by apply idx_range). by rewrite idx_mod.
Qed.

(** An owner's position is taken, and the slot's turn is that of its owner. *)
Lemma local_owner q tk p (b : bool) h :
  local q tk p -> owns p = Some (b, h) ->
  0 <= h < (if b then head q else tail q) /\ turnAt q h (freeTurn q h + if b then 0 else 1).
Proof.
  unfold turnAt.
  destruct p; simpl; intros Hl [= <- <-]; rewrite ?Z.add_0_r; 
    destruct_and?; split_and?; eauto.
  match goal with Hx : exists _, _ |- _ => destruct Hx as (? & _ & ?) end. eauto.
Qed.

(** What the other threads know does not depend on the slot of an owner. *)
Lemma local_upd q tk (b : bool) h sl p :
  wf q -> 0 <= h < (if b then head q else tail q) -> turnAt q h (freeTurn q h + if b then 0 else 1) ->
  owns p <> Some (b, h) -> local q tk p -> local (upd q h sl) tk p.
Proof.
  intros Hw Hh (s & Hs & Ht) Ho Hl.
  assert (Hne : forall h' (b' : bool) s', slotAt q h' = Some s' ->
    sturn s' = freeTurn q h' + (if b' then 0 else 1) -> (b, h) <> (b', h') ->
    slotAt (upd q h sl) h' = Some s').
  { intros h' b' s' Hs' Ht' Hneq. rewrite slotAt_upd by done. destruct (decide _) as [E|]; [|done].
    destruct Hneq. assert (s = s') as <- by (unfold slotAt in *; rewrite E in Hs'; congruence).
    assert (b = b' /\ freeTurn q h = freeTurn q h') as [<- Hf].
    { pose proof (freeTurn_odd q h h'). pose proof (freeTurn_odd q h' h).
      destruct b, b'; cbn iota in *; rewrite ?Z.add_0_r in *; split; (done || lia). }
    f_equal. by apply (same_slot q). }
  assert (HE : forall h' s', slotAt q h' = Some s' -> sturn s' = freeTurn q h' ->
    (b, h) <> (true, h') -> slotAt (upd q h sl) h' = Some s')
    by (intros; apply (Hne h' true); simpl; try done; lia).
  pose proof (fun h' => Hne h' false) as HD. clear Hne.
  destruct p; simpl in *; try done; unfold turnAt in *.
  - destruct Hl as [? Hl]. split; [done|]. intros Hle. destruct (Hl Hle) as (s' & ? & ?).
    exists s'. split; [|done]. apply HE; try done. intros [= -> ->]. lia.
  - destruct Hl as (? & ? & s' & ? & ?). split_and!; try lia; try done.
    exists s'. split; [|done]. apply HE; congruence.
  - destruct Hl as (? & ? & ?). split_and!; try lia; try done. apply HE; [done | done | congruence].
  - destruct Hl as [? Hl]. split; [done|]. intros Hle. destruct (Hl Hle) as (s' & ? & ?).
    exists s'. split; [|done]. apply HD; try done. intros [= -> ->]. lia.
  - destruct Hl as (? & ? & v & ? & ?). split_and!; try lia; try done.
    exists v. split; [done|]. apply HD; [done | done | congruence].
  - destruct Hl as (? & ? & ? & s' & ? & ?). split_and!; try lia; try done.
    exists s'. split; [|done]. apply HD; congruence.
  - destruct Hl as (? & ? & ? & s' & ? & ?). split_and!; try lia; try done.
    exists s'. split; [|done]. apply HD; congruence.
Qed.

(** Replacing the program counter of a thread by one that owns nothing new. *)
Lemma own_insert (ths : list pc) i p p' :
  ths !! i = Some p -> (owns p' = owns p \/ owns p' = None) ->
  (forall i j p p' o, ths !! i = Some p -> ths !! j = Some p' ->
     owns p = Some o -> owns p' = Some o -> i = j) ->
  forall k j x y o, <[i := p']> ths !! k = Some x -> <[i := p']> ths !! j = Some y ->
     owns x = Some o -> owns y = Some o -> k = j.
Proof.
  intros Hi Ho Hown k j x y o Hk Hj Hx Hy.
  rewrite list_lookup_insert in Hk, Hj.
  destruct (decide _) as [[<- ?]|], (decide _) as [[<- ?]|]; simplify_eq; try done.
  - destruct Ho as [Ho | Ho]; [|congruence]. rewrite Ho in Hx. exact (Hown _ _ _ _ _ Hi Hj Hx Hy).
  - destruct Ho as [Ho | Ho]; [|congruence]. rewrite Ho in Hy. exact (Hown _ _ _ _ _ Hk Hi Hx Hy).
  - eauto.
Qed.

(** A thread that claims a fresh position. *)
Lemma own_claim (ths : list pc) i p p' o0 :
  ths !! i = Some p -> owns p' = Some o0 ->
  (forall j y, ths !! j = Some y -> owns y <> Some o0) ->
  (forall i j p p' o, ths !! i = Some p -> ths !! j = Some p' ->
     owns p = Some o -> owns p' = Some o -> i = j) ->
  forall k j x y o, <[i := p']> ths !! k = Some x -> <[i := p']> ths !! j = Some y ->
     owns x = Some o -> owns y = Some o -> k = j.
Proof.
  intros Hi Ho Hfresh Hown k j x y o Hk Hj Hx Hy.
  rewrite list_lookup_insert in Hk, Hj.
  destruct (decide _) as [[<- ?]|], (decide _) as [[<- ?]|]; simplify_eq; try done.
  - by destruct (Hfresh _ _ Hj).
  - by destruct (Hfresh _ _ Hk).
  - eauto.
Qed.

Lemma insert_cases {A} (l : list A) i x j y :
  <[i := x]> l !! j = Some y -> (j = i /\ y = x) \/ (j <> i /\ l !! j = Some y).
Proof.
  rewrite list_lookup_insert. destruct (decide _) as [[-> ?]|Hn]; intros; simplify_eq; [by left|].
  right. split; [|done]. intros ->. destruct Hn. split; [done|]. by eapply lookup_lt_Some.
Qed.

(** Steps that only move a thread. *)
Lemma inv_move q ths tk i p p' :
  inv q ths tk -> ths !! i = Some p -> (owns p' = owns p \/ owns p' = None) -> local q tk p' ->
  inv q (<[i := p']> ths) tk.
Proof.
  intros [] Hi Ho Hl. split; try done.
  - intros j y [[-> ->] | [? ?]]%insert_cases; eauto.
  - by apply (own_insert _ _ p).
Qed.

(** Steps of an owner on its slot. *)
Lemma inv_upd q ths tk i p p' (b : bool) h sl :
  inv q ths tk -> ths !! i = Some p -> owns p = Some (b, h) ->
  (owns p' = owns p \/ owns p' = None) -> local (upd q h sl) tk p' ->
  (forall x, 0 <= x -> x mod capacity q = h mod capacity q -> sturn sl = freeTurn q x ->
     tail q <= x < tail q + capacity q) ->
  (forall x, 0 <= x -> x mod capacity q = h mod capacity q -> sturn sl = freeTurn q x + 1 ->
     x < head q /\ (tail q <= x -> zget tk x = Some (sdata sl))) ->
  inv (upd q h sl) (<[i := p']> ths) tk.
Proof.
  intros Hinv Hi Hp Ho Hl Hfree Hfull. pose proof Hinv as [Hw ? ? ? Hfr Hfu Hloc Hown].
  destruct (local_owner _ _ _ _ _ (Hloc _ _ Hi) Hp) as [Hh Ht].
  split; try done.
  - by apply upd_wf.
  - intros x Hx (s & Hs & Hst). rewrite slotAt_upd in Hs by done.
    destruct (decide _); simplify_eq; [by apply Hfree|]. apply (Hfr x Hx). by exists s.
  - intros x s Hx Hs Hst. rewrite slotAt_upd in Hs by done.
    destruct (decide _); simplify_eq; [by apply Hfull | by apply (Hfu x s)].
  - intros j y [[-> ->] | [? Hj]]%insert_cases; [done|].
    apply (local_upd _ _ b); eauto.
  - by apply (own_insert _ _ p).
Qed.

Lemma zget_snoc (l : list T) x h v : zget l h = Some v -> zget (l ++ [x]) h = Some v.
Proof.
  unfold zget. bd; [|done]. intros Hl. by apply lookup_app_l_Some.
Qed.

Lemma zget_snoc_last (l : list T) x : zget (l ++ [x]) (zlen l) = Some x.
Proof.
  unfold zget. rewrite bool_decide_true by apply zlen_nonneg. unfold zlen. rewrite Nat2Z.id.
  by apply list_lookup_middle.
Qed.

(** A producer takes the position at the head. *)
Lemma inv_ecas q ths tk i v h :
  inv q ths tk -> ths !! i = Some (ECas v h) -> head q = h ->
  inv (setHead q (h + 1)) (<[i := EData v h]> ths) (tk ++ [v]).
Proof.
  intros [Hw ? ? Htk Hfr Hfu Hloc Hown] Hi <-. pose proof (Hloc _ _ Hi) as [? Hturn].
  specialize (Hturn ltac:(lia)). pose proof (Hfr (head q) ltac:(lia) Hturn) as Hcap.
  split; simpl; try done; try lia.
  - by destruct Hw; split.
  - rewrite zlen_app. unfold zlen at 2. simpl. lia.
  - intros x sl Hx Hs Hst. destruct (Hfu x sl Hx Hs Hst). split; [lia|].
    intros. by apply zget_snoc; auto.
  - intros j y [[-> ->] | [? Hj]]%insert_cases.
    + simpl. split_and!; [lia | lia | rewrite <- Htk; apply zget_snoc_last | done].
    + pose proof (Hloc _ _ Hj) as Hl.
      assert (Hlap : forall t, head q <= t + capacity q -> turnAt q t (freeTurn q t + 1) ->
        head q + 1 <= t + capacity q).
      { intros t Ht (s & Hs & Hst). destruct (decide (head q = t + capacity q)) as [E|]; [|lia].
        destruct Hturn as (s' & Hs' & Hst'). unfold slotAt in Hs'. rewrite E, mod_next in Hs' by done.
        rewrite E, freeTurn_next in Hst' by done. unfold slotAt in Hs. simplify_eq. lia. }
      destruct y; simpl in *; try done.
      * destruct Hl as [? Hl]. split; [done|]. intros. apply Hl. lia.
      * destruct Hl as (? & Hz & ?). split_and!; try lia; [by apply zget_snoc | done].
      * destruct Hl as (? & Hz & ?). split_and!; try lia; [by apply zget_snoc | done].
      * destruct Hl as (? & ? & v' & Hz & Hs). split_and!; try lia.
        -- apply Hlap; [done|]. eexists. by split; [exact Hs|].
        -- exists v'. split; [by apply zget_snoc | done].
      * destruct Hl as (? & ? & Hz & Hs). split_and!; try lia; [by apply Hlap | by apply zget_snoc | done].
      * destruct Hl as (? & ? & Hz & Hs). split_and!; try lia; [by apply Hlap | by apply zget_snoc | done].
  - apply (own_claim _ _ (ECas v (head q)) _ (true, head q)); try done.
    intros j y Hj Hy. destruct (local_owner _ _ _ _ _ (Hloc _ _ Hj) Hy). simpl in *. lia.
Qed.

(** A consumer takes the position at the tail. *)
Lemma inv_dcas q ths tk i t :
  inv q ths tk -> ths !! i = Some (DCas t) -> tail q = t ->
  inv (setTail q (t + 1)) (<[i := DData t]> ths) tk /\ exists v, zget tk t = Some v.
Proof.
  intros [Hw ? ? Htk Hfr Hfu Hloc Hown] Hi <-. pose proof (Hloc _ _ Hi) as [? Hturn].
  destruct (Hturn ltac:(lia)) as (s & Hs & Hst).
  destruct (Hfu (tail q) s ltac:(lia) Hs Hst) as [Hlt Hz]. specialize (Hz ltac:(lia)).
  split; [|by eauto]. split; simpl; try done; try lia.
  - by destruct Hw; split.
  - intros x Hx Hf. destruct (Hfr x Hx Hf). split; [|lia].
    destruct (decide (x = tail q)) as [->|]; [|lia]. destruct Hf as (s' & Hs' & Hst').
    change (slotAt q (tail q) = Some s') in Hs'. simplify_eq. unfold freeTurn in *. simpl in *. lia.
  - intros x sl Hx Hsl Hst'. destruct (Hfu x sl Hx Hsl Hst'). split; [lia|]. intros. auto with lia.
  - intros j y [[-> ->] | [? Hj]]%insert_cases.
    + simpl. split_and!; try lia. exists (sdata s). split; [done|].
      change (slotAt q (tail q) = Some (mkSlot (freeTurn q (tail q) + 1) (sdata s))).
      rewrite Hs, <- Hst. by destruct s.
    + pose proof (Hloc _ _ Hj) as Hl. destruct y; simpl in *; try done.
      * destruct Hl as [? Hl]. split; [done|]. intros. apply Hl. lia.
      * destruct Hl as (? & Hl). split; [lia | done].
      * destruct Hl as (? & Hl). split; [lia | done].
      * destruct Hl as (? & Hl). split; [lia | done].
  - apply (own_claim _ _ (DCas (tail q)) _ (false, tail q)); try done.
    intros j y Hj Hy. destruct (local_owner _ _ _ _ _ (Hloc _ _ Hj) Hy). simpl in *. lia.
Qed.

(** Whether a thread is inside [Enqueue]. *)
Definition producing (p : pc) : bool :=
  match p with
  | EHead _ | ETurn _ _ | ECas _ _ | ECheck _ _ | EData _ _ | EPub _ _ => true
  | _ => false
  end.

(** Every access of a running thread keeps the invariant. *)
Lemma exec_inv_producer q ths tk i p q' p' e :
  producing p = true ->
  inv q ths tk -> ths !! i = Some p -> exec q p = Some (q', p', e) ->
  inv q' (<[i := p']> ths) (logTicket tk e).
Proof.
  intros Hp Hinv Hi He. pose proof Hinv as [Hw Hpos Hcap Htk Hfr Hfu Hloc Hown].
  pose proof (Hloc _ _ Hi) as Hl. pose proof (wf_pos q Hw).
  destruct p; simpl in He, Hl; simplify_eq; simpl.
  - apply (inv_move _ _ _ _ _ _ Hinv Hi); [by left|]. simpl. lia.
  - rewrite zget_slotAt in He by done. destruct (slotAt q h) as [s|] eqn:Hs; simplify_eq; simpl in He.
    simplify_eq. simpl. apply (inv_move _ _ _ _ _ _ Hinv Hi); [right; by zb|].
    zb; simpl; [|done]. split; [done|]. intros _. exists s. split; [done|].
    rewrite turn_div in * by done. unfold freeTurn. lia.
  - destruct (Z.eqb_spec (head q) h); simplify_eq; simpl.
    + by apply inv_ecas.
    + apply (inv_move _ _ _ _ _ _ Hinv Hi); [by right | done].
  - destruct (Z.eqb_spec h (head q)); simplify_eq; simpl;
      (apply (inv_move _ _ _ _ _ _ Hinv Hi); [by right | done]).
  - destruct Hl as (Hh & Hz & s & Hs & Hst). rewrite (storeData_upd _ _ s) in He by done.
    simpl in He. simplify_eq. simpl. apply (inv_upd _ _ _ _ _ _ true _ _ Hinv Hi); simpl; auto.
    + split_and!; try lia; [done|]. rewrite slotAt_upd, decide_True, Hst by done. done.
    + intros x Hx Hm Hf. rewrite Hst in Hf. assert (x = h) as -> by (apply (same_slot q); congruence).
      apply Hfr; [done|]. by exists s.
    + intros x Hx Hm Hf. rewrite Hst in Hf. by destruct (freeTurn_odd q h x).
  - destruct Hl as (Hh & Hz & Hs). rewrite (storeTurn_upd _ _ _ _ Hw Hs) in He.
    simpl in He. simplify_eq. simpl. rewrite turn_div by done.
    apply (inv_upd _ _ _ _ _ _ true _ _ Hinv Hi); simpl; auto.
    + intros x Hx Hm Hf. exfalso. apply (freeTurn_odd q x h). unfold freeTurn in *. lia.
    + intros x Hx Hm Hf. assert (x = h) as ->.
      { apply (same_slot q); [done..|]. unfold freeTurn in *. lia. }
      split; [lia | done].
Qed.

Lemma exec_inv_consumer q ths tk i p q' p' e :
  producing p = false ->
  inv q ths tk -> ths !! i = Some p -> exec q p = Some (q', p', e) ->
  inv q' (<[i := p']> ths) (logTicket tk e).
Proof.
  intros Hp Hinv Hi He. pose proof Hinv as [Hw Hpos Hcap Htk Hfr Hfu Hloc Hown].
  pose proof (Hloc _ _ Hi) as Hl. pose proof (wf_pos q Hw).
  destruct p; simpl in He, Hl; simplify_eq; simpl.
  - apply (inv_move _ _ _ _ _ _ Hinv Hi); [by left|]. simpl. lia.
  - rewrite zget_slotAt in He by done. destruct (slotAt q t) as [s|] eqn:Hs; simplify_eq; simpl in He.
    simplify_eq. simpl. apply (inv_move _ _ _ _ _ _ Hinv Hi); [right; by zb|].
    zb; simpl; [|done]. split; [done|]. intros _. exists s. split; [done|].
    rewrite turn_div in * by done. unfold freeTurn. lia.
  - destruct (Z.eqb_spec (tail q) t); simplify_eq; simpl.
    + by apply inv_dcas.
    + apply (inv_move _ _ _ _ _ _ Hinv Hi); [by right | done].
  - destruct (Z.eqb_spec t (tail q)); simplify_eq; simpl;
      (apply (inv_move _ _ _ _ _ _ Hinv Hi); [by right | done]).
  - destruct Hl as (Hh & Hc & v & Hz & Hs). rewrite zget_slotAt, Hs in He by done.
    simpl in He. simplify_eq. simpl. apply (inv_move _ _ _ _ _ _ Hinv Hi); [by left|].
    simpl. split_and!; try lia; [done|]. by eexists.
  - destruct Hl as (Hh & Hc & Hz & s & Hs & Hst). rewrite (storeData_upd _ _ s) in He by done.
    simpl in He. simplify_eq. simpl. apply (inv_upd _ _ _ _ _ _ false _ _ Hinv Hi); simpl; auto.
    + split_and!; try lia; [done|]. eexists. rewrite slotAt_upd, decide_True by done. done.
    + intros x Hx Hm Hf. rewrite Hst in Hf. by destruct (freeTurn_odd q x t).
    + intros x Hx Hm Hf. rewrite Hst in Hf. assert (x = t) as -> by (apply (same_slot q); [done..|lia]).
      split; [|lia]. by apply (Hfu t s).
  - destruct Hl as (Hh & Hc & Hz & s & Hs & Hst). rewrite (storeTurn_upd _ _ s) in He by done.
    simpl in He. simplify_eq. simpl. rewrite turn_div by done.
    apply (inv_upd _ _ _ _ _ _ false _ _ Hinv Hi); simpl; auto.
    + intros x Hx Hm Hf. assert (x = t + capacity q) as ->; [|lia].
      apply (same_slot q); [done | by rewrite mod_next | rewrite freeTurn_next by done].
      unfold freeTurn in *. lia.
    + intros x Hx Hm Hf. exfalso. unfold freeTurn in *. lia.
Qed.

Lemma exec_inv q ths tk i p q' p' e :
  inv q ths tk -> ths !! i = Some p -> exec q p = Some (q', p', e) ->
  inv q' (<[i := p']> ths) (logTicket tk e).
Proof.
  destruct (producing p) eqn:Hp; [by apply exec_inv_producer | by apply exec_inv_consumer].
Qed.

(** No access goes out of range: a running thread can always take its next step. *)
Lemma exec_total q ths tk i p :
  inv q ths tk -> ths !! i = Some p -> p <> Idle -> is_Some (exec q p).
Proof.
  intros Hinv Hi Hp. pose proof Hinv as [Hw _ _ _ _ _ Hloc _]. pose proof (Hloc _ _ Hi) as Hl.
  assert (Hs : forall x, exists s, slotAt q x = Some s) by (intros; by apply slotAt_Some).
  destruct p; simpl; try done; rewrite ?zget_slotAt by done; try (zb; by eexists).
  - destruct (Hs h) as [s ->]. simpl. by eexists.
  - destruct (Hs h) as [s Hh]. rewrite (storeData_upd _ _ s) by done. simpl. by eexists.
  - destruct (Hs h) as [s Hh]. rewrite (storeTurn_upd _ _ s) by done. simpl. by eexists.
  - destruct (Hs t) as [s ->]. simpl. by eexists.
  - destruct (Hs t) as [s ->]. simpl. by eexists.
  - destruct (Hs t) as [s Hh]. rewrite (storeData_upd _ _ s) by done. simpl. by eexists.
  - destruct (Hs t) as [s Hh]. rewrite (storeTurn_upd _ _ s) by done. simpl. by eexists.
Qed.

(** The items in the queue: those whose ticket has not been taken yet. *)
Definition contents (q : MPMC) (tk : list T) : list T := zdrop (tail q) tk.

(** What an access does to the bounded queue it implements. *)
Definition abstractStep (cap : Z) (p p' : pc) (e : option event) (l l' : list T) : Prop :=
  (l' = l /\ forall h v, e <> Some (Ticket h v)) \/
  (exists h v, e = Some (Ticket h v) /\ zlen l < cap /\ l' = l ++ [v]) \/
  (exists t v, p' = DData t /\ l = v :: l').

Lemma zdrop_cons (l : list T) i v : zget l i = Some v -> zdrop i l = v :: zdrop (i + 1) l.
Proof.
  unfold zget, zdrop. bd; [|done]. intros Hl. rewrite (drop_S _ v) by done.
  do 2 f_equal. lia.
Qed.

Lemma exec_same q p q' p' e :
  exec q p = Some (q', p', e) -> tail q' = tail q \/ p = DCas (tail q) /\ p' = DData (tail q) /\ tail q' = tail q + 1.
Proof.
  intros He.
  destruct p; simpl in He; unfold storeData, storeTurn in He; repeat (case_match; simplify_option_eq);
    simplify_option_eq; try (by left); zb; simplify_eq; auto.
Qed.

(** Where the events and the positions of consumers come from. *)
Lemma exec_ticket q p q' p' h v :
  exec q p = Some (q', p', Some (Ticket h v)) ->
  p = ECas v h /\ p' = EData v h /\ h = head q /\ q' = setHead q (h + 1).
Proof.
  intros He. destruct p; simpl in He; repeat (case_match; simplify_option_eq);
    simplify_option_eq; zb; simplify_eq; auto.
Qed.

Lemma exec_dequeued q p q' p' t d :
  exec q p = Some (q', p', Some (Dequeued t d)) -> p = DPub t d /\ p' = Idle.
Proof.
  intros He. destruct p; simpl in He; repeat (case_match; simplify_option_eq); simplify_option_eq; auto.
Qed.

Lemma exec_owns q p q' p' e t :
  exec q p = Some (q', p', e) -> owns p' = Some (false, t) ->
  owns p = Some (false, t) \/ t = tail q.
Proof.
  intros He Ho. destruct p; simpl in He; repeat (case_match; simplify_option_eq);
    simplify_option_eq; zb; simplify_eq; auto.
Qed.

Lemma zget_logTicket tk (e : option event) h v :
  zget tk h = Some v -> zget (logTicket tk e) h = Some v.
Proof. intros. destruct e as [[]|]; simpl; try done. by apply zget_snoc. Qed.

Lemma logEvent_in l (e : option event) x : x ∈ logEvent l e -> x ∈ l \/ e = Some x.
Proof. destruct e; simpl; [|by left]. rewrite elem_of_app, list_elem_of_singleton. naive_solver. Qed.

Lemma exec_hinv q ths tk hist i p q' p' e :
  inv q ths tk -> hinv q ths tk hist -> ths !! i = Some p -> exec q p = Some (q', p', e) ->
  hinv q' (<[i := p']> ths) (logTicket tk e) (logEvent hist e).
Proof.
  intros [_ _ _ Htk _ _ Hloc Hown] [Hput Hgot Honce Hdone] Hi He.
  assert (Htail : tail q <= tail q') by (destruct (exec_same _ _ _ _ _ He); lia).
  assert (Hnew : forall t d, e = Some (Dequeued t d) ->
    p = DPub t d /\ p' = Idle /\ 0 <= t < tail q /\ zget tk t = Some d).
  { intros t d ->. destruct (exec_dequeued _ _ _ _ _ _ He) as [-> ->].
    pose proof (Hloc _ _ Hi). simpl in *. naive_solver. }
  split.
  - intros h v [Hx | ->]%logEvent_in; [by apply zget_logTicket, Hput|].
    destruct (exec_ticket _ _ _ _ _ _ He) as (_ & _ & -> & _). rewrite <- Htk. apply zget_snoc_last.
  - intros t d [Hx | Hx]%logEvent_in.
    + destruct (Hgot t d Hx). split; [lia|]. by apply zget_logTicket.
    + destruct (Hnew t d Hx) as (_ & _ & ? & ?). split; [lia|]. by apply zget_logTicket.
  - assert (Hold : forall j t d d', e = Some (Dequeued t d) -> hist !! j = Some (Dequeued t d') -> False).
    { intros j t d d' Ht Hj. destruct (Hnew t d Ht) as (-> & _).
      by apply (Hdone t d' i _ (list_elem_of_lookup_2 _ _ _ Hj) Hi). }
    intros j k t d d' Hj Hk. destruct e as [e|]; simpl in Hj, Hk; [|by eapply Honce].
    apply lookup_snoc_Some in Hj, Hk.
    destruct Hj as [[? Hj]|[? ->]], Hk as [[? Hk]|[? Hk]]; simplify_eq;
      [by eapply Honce | by edestruct Hold.. | done].
  - intros t d j y [Hx | Hx]%logEvent_in [[-> ->] | [? Hj]]%insert_cases Ho.
    + destruct (exec_owns _ _ _ _ _ _ He Ho) as [Hp | ->]; [by eapply Hdone|].
      destruct (Hgot _ _ Hx). lia.
    + by eapply Hdone.
    + destruct (Hnew t d Hx) as (_ & -> & _). done.
    + destruct (Hnew t d Hx) as (-> & _). by pose proof (Hown i j _ _ _ Hi Hj eq_refl Ho).
Qed.

Lemma exec_refines q ths tk i p q' p' e :
  inv q ths tk -> ths !! i = Some p -> exec q p = Some (q', p', e) ->
  abstractStep (capacity q) p p' e (contents q tk) (contents q' (logTicket tk e)).
Proof.
  intros Hinv Hi He. pose proof (exec_inv _ _ _ _ _ _ _ _ Hinv Hi He) as Hinv'.
  pose proof Hinv as [_ ? ? Htk _ _ _ _]. unfold abstractStep, contents.
  destruct (exec_same _ _ _ _ _ He) as [Ht | (-> & -> & Ht)]; rewrite Ht.
  - destruct e as [[h v| | | |]|]; simpl; try (by left).
    destruct (exec_ticket _ _ _ _ _ _ He) as (_ & _ & -> & ->).
    pose proof (inv_cap _ _ _ Hinv'). simpl in *. right; left. exists (head q), v. split_and!; try done.
    + rewrite zlen_zdrop; lia.
    + apply zdrop_app_le. lia.
  - right; right. destruct (inv_dcas _ _ _ _ _ Hinv Hi eq_refl) as (_ & v & Hv).
    exists (tail q), v. split; [done|]. simpl in He. rewrite Z.eqb_refl in He. simplify_eq. simpl.
    by apply zdrop_cons.
Qed.

(** *** A new queue *)

Lemma tzLoop_pow2 fuel k n : (k < fuel)%nat -> tzLoop fuel (2 ^ Z.of_nat k) n = n + Z.of_nat k.
Proof.
  revert fuel n. induction k as [|k IH]; intros [|fuel] n Hf; try lia; cbn [tzLoop].
  - simpl. lia.
  - rewrite Z.pow2_bits_false by lia. rewrite Z.shiftr_div_pow2 by lia.
    replace (2 ^ Z.of_nat (S k) / 2 ^ 1) with (2 ^ Z.of_nat k).
    + rewrite IH by lia. lia.
    + rewrite Nat2Z.inj_succ, Z.pow_succ_r by lia. rewrite Z.mul_comm, Z.div_mul; lia.
Qed.

Lemma TrailingZeros64_pow2 k : 0 <= k < 64 -> TrailingZeros64 (2 ^ k) = k.
Proof.
  intros. unfold TrailingZeros64. rewrite <- (Z2Nat.id k) by lia. rewrite tzLoop_pow2; lia.
Qed.

Lemma NewMPMC_spec n q :
  n < 2 ^ 63 -> NewMPMC n = Some q ->
  wf q /\ head q = 0 /\ tail q = 0 /\ n <= capacity q /\
  forall p, slotAt q p = Some (mkSlot 0 zero).
Proof.
  intros Hn Hq. unfold NewMPMC in Hq. set (m := if n <? 2 then 2 else n) in *.
  destruct (CeilToPowerOfTwo m) as [c|] eqn:Hc; [|done]. simpl in Hq. injection Hq as <-. simpl.
  assert (Hm : m <= 2 ^ 62).
  { unfold CeilToPowerOfTwo in Hc. unfold m in *. rewrite headBit_test in Hc by (zb; lia).
    unfold maxIntHeadBit in Hc. zb; simplify_eq; lia. }
  destruct (CeilToPowerOfTwo_range m Hm) as (k & Hk & ? & ? & _ & _). rewrite Hc in Hk. injection Hk as ->.
  assert (0 < 2 ^ k) by lia. split_and!; try done.
  - split; simpl; [by exists k; split; [lia|] | done | | ].
    + rewrite TrailingZeros64_pow2; lia.
    + unfold zlen. rewrite length_replicate. lia.
  - unfold m in *. zb; lia.
  - intros p. unfold slotAt. simpl. pose proof (Z.mod_pos_bound p (2 ^ k)).
    apply lookup_replicate_2. lia.
Qed.

Lemma inv_init n q m :
  n < 2 ^ 63 -> NewMPMC n = Some q -> inv q (replicate m Idle) [] /\ hinv q (replicate m Idle) [] [].
Proof.
  intros Hn Hq. destruct (NewMPMC_spec n q Hn Hq) as (Hw & Hh & Ht & _ & Hs).
  pose proof (wf_pos q Hw). split.
  - split; rewrite ?Hh, ?Ht; try done; try lia.
    + intros p Hp (s & Hsl & Hst). rewrite Hs in Hsl. simplify_eq. simpl in Hst.
      unfold freeTurn in Hst. assert (p / capacity q = 0) by lia.
      apply Z.div_small_iff in H0; lia.
    + intros p s Hp Hsl Hst. rewrite Hs in Hsl. simplify_eq. simpl in Hst. unfold freeTurn in Hst. lia.
    + intros i p [-> _]%lookup_replicate. done.
    + by intros i j p p' o [-> _]%lookup_replicate.
  - split; try (intros * Hx; by apply elem_of_nil in Hx). done.
Qed.

Lemma reachable_inv n q m s :
  n < 2 ^ 63 -> NewMPMC n = Some q -> reachable (initState q m) s ->
  inv (queue s) (threads s) (tickets s) /\
  hinv (queue s) (threads s) (tickets s) (history s) /\ capacity (queue s) = capacity q.
Proof.
  intros Hn Hq. induction 1 as [|s s' Hr (IH & IHh & IHc) Hs]; [by destruct (inv_init n q m Hn Hq)|].
  destruct Hs as [i p s Hi Hp | i p q' p' e s Hi He]; simpl.
  - assert (Ho : owns p = None /\ local (queue s) (tickets s) p) by (destruct Hp as [-> | [? ->]]; done).
    destruct Ho as [Ho Hl]. split_and!; [|destruct IHh as [? ? ? Hd]; split; try done | done].
    + apply (inv_move _ _ _ _ _ _ IH Hi); auto.
    + intros t d j y Ht [[-> ->] | [? Hj]]%insert_cases; [congruence | by eapply Hd].
  - split_and!; [by eapply exec_inv | by eapply exec_hinv|]. rewrite <- IHc.
    destruct p; simpl in He; unfold storeData, storeTurn in He;
      repeat (case_match; simplify_option_eq); simplify_option_eq; zb; simplify_eq; done.
Qed.

(** C10: from a new queue, under every interleaving of any number of producers and
    consumers: the number of taken positions stays within the capacity; every item that
    was dequeued is the item enqueued at the same position of the arrival order, and no
    position is delivered twice; and every next access of every running thread succeeds
    and either leaves the queue as it is, appends the producer's item to a queue that is
    not full, or removes the oldest item. *)
Theorem mpmc_concurrent_fifo (n : Z) (q : MPMC) (m : nat) (s : state) :
  n < 2 ^ 63 -> NewMPMC n = Some q -> reachable (initState q m) s ->
  0 <= head (queue s) - tail (queue s) <= capacity q /\
  (forall h v, Ticket h v ∈ history s -> zget (tickets s) h = Some v) /\
  (forall t d, Dequeued t d ∈ history s -> zget (tickets s) t = Some d) /\
  (forall i j t d d', history s !! i = Some (Dequeued t d) ->
     history s !! j = Some (Dequeued t d') -> i = j) /\
  (forall i p, threads s !! i = Some p -> p <> Idle ->
     exists q' p' e, exec (queue s) p = Some (q', p', e) /\
       abstractStep (capacity q) p p' e
         (contents (queue s) (tickets s)) (contents q' (logTicket (tickets s) e))).
Proof.
  intros Hn Hq Hr. destruct (reachable_inv _ _ _ _ Hn Hq Hr) as (Hi & [? Hg Ho _] & Hc).
  split_and!; [destruct Hi; lia.. | done | naive_solver | done|].
  intros i p Hp Hne. destruct (exec_total _ _ _ _ _ Hi Hp Hne) as [[[q' p'] e] He].
  exists q', p', e. split; [done|]. rewrite <- Hc. by eapply exec_refines.
Qed.

(** *** One thread at a time *)

Lemma upd_upd q p s1 s2 : upd (upd q p s1) p s2 = upd q p s2.
Proof. unfold upd, setSlots. simpl. by rewrite list_insert_insert_eq. Qed.

Lemma wf_setHead q h : wf q -> wf (setHead q h).
Proof. by intros []. Qed.
Lemma wf_setTail q h : wf q -> wf (setTail q h).
Proof. by intros []. Qed.

Lemma runThread_step f q p q' p' e :
  exec q p = Some (q', p', e) -> p' <> Idle -> runThread (S f) q p = runThread f q' p'.
Proof. intros He Hp. cbn [runThread]. rewrite He. cbn [mbind option_bind]. by destruct p'. Qed.

Lemma runThread_last f q p q' e :
  exec q p = Some (q', Idle, e) -> runThread (S f) q p = Some (q', e).
Proof. intros He. cbn [runThread]. by rewrite He. Qed.

(** The test of a slot's turn. *)
Lemma exec_ETurn q v h s :
  wf q -> slotAt q h = Some s ->
  exec q (ETurn v h) = Some (q, if bool_decide (sturn s = freeTurn q h) then ECas v h else ECheck v h, None).
Proof.
  intros Hw Hs. cbn [exec]. rewrite zget_slotAt, Hs by done. cbn [mbind option_bind].
  rewrite (turn_div q) by done. unfold freeTurn. zb; bd; done || lia.
Qed.

Lemma exec_DTurn q t s :
  wf q -> slotAt q t = Some s ->
  exec q (DTurn t) = Some (q, if bool_decide (sturn s = freeTurn q t + 1) then DCas t else DCheck t, None).
Proof.
  intros Hw Hs. cbn [exec]. rewrite zget_slotAt, Hs by done. cbn [mbind option_bind].
  rewrite (turn_div q) by done. unfold freeTurn. zb; bd; done || lia.
Qed.

Lemma exec_stores q p d w s :
  wf q -> slotAt q p = Some s ->
  storeData q (idx q p) d = Some (upd q p (mkSlot (sturn s) d)) /\
  (let q1 := upd q p (mkSlot (sturn s) d) in
   storeTurn q1 (idx q1 p) (turn q1 p * 2 + w) = Some (upd q p (mkSlot (freeTurn q p + w) d))).
Proof.
  intros Hw Hs. split; [by apply storeData_upd|]. intros q1.
  replace (freeTurn q p) with (turn q1 p * 2)
    by (unfold freeTurn; rewrite turn_div by (by apply upd_wf); simpl; lia). subst q1.
  rewrite (storeTurn_upd _ _ (mkSlot (sturn s) d)), upd_upd; [done | by apply upd_wf |].
  by rewrite slotAt_upd, decide_True by done.
Qed.

Lemma Enqueue_room q v s :
  wf q -> slotAt q (head q) = Some s -> sturn s = freeTurn q (head q) ->
  Enqueue q v = Some (upd (setHead q (head q + 1)) (head q) (mkSlot (freeTurn q (head q) + 1) v), true).
Proof.
  intros Hw Hs Hst. unfold Enqueue. set (q1 := setHead q (head q + 1)).
  destruct (exec_stores q1 (head q) v 1 s (wf_setHead _ _ Hw) Hs) as [H1 H2].
  rewrite (runThread_step _ _ _ q (ETurn v (head q)) None) by done.
  rewrite (runThread_step _ _ _ q (ECas v (head q)) None)
    by (done || by rewrite (exec_ETurn _ _ _ s), bool_decide_true).
  rewrite (runThread_step _ _ _ q1 (EData v (head q)) (Some (Ticket (head q) v)))
    by (done || (cbn [exec]; by rewrite Z.eqb_refl)).
  rewrite (runThread_step _ _ _ _ (EPub v (head q)) None) by (done || (cbn [exec]; by rewrite H1)).
  rewrite (runThread_last _ _ _ _ (Some (Enqueued (head q)))) by (cbn [exec]; by rewrite H2).
  done.
Qed.

Lemma Enqueue_full q v s :
  wf q -> slotAt q (head q) = Some s -> sturn s <> freeTurn q (head q) -> Enqueue q v = Some (q, false).
Proof.
  intros Hw Hs Hst. unfold Enqueue.
  rewrite (runThread_step _ _ _ q (ETurn v (head q)) None) by done.
  rewrite (runThread_step _ _ _ q (ECheck v (head q)) None)
    by (done || by rewrite (exec_ETurn _ _ _ s), bool_decide_false).
  by rewrite (runThread_last _ _ _ q (Some Full)) by (cbn [exec]; by rewrite Z.eqb_refl).
Qed.

Lemma Dequeue_item q s :
  wf q -> slotAt q (tail q) = Some s -> sturn s = freeTurn q (tail q) + 1 ->
  Dequeue q = Some (upd (setTail q (tail q + 1)) (tail q) (mkSlot (freeTurn q (tail q) + 2) zero), Some (sdata s)).
Proof.
  intros Hw Hs Hst. unfold Dequeue. set (q1 := setTail q (tail q + 1)).
  assert (Hw1 : wf q1) by (by apply wf_setTail).
  destruct (exec_stores q1 (tail q) zero 2 s Hw1 Hs) as [H1 H2].
  rewrite (runThread_step _ _ _ q (DTurn (tail q)) None) by done.
  rewrite (runThread_step _ _ _ q (DCas (tail q)) None)
    by (done || by rewrite (exec_DTurn _ _ s), bool_decide_true).
  rewrite (runThread_step _ _ _ q1 (DData (tail q)) None)
    by (done || (cbn [exec]; by rewrite Z.eqb_refl)).
  rewrite (runThread_step _ _ _ q1 (DZero (tail q) (sdata s)) None)
    by (done || (cbn [exec]; rewrite (zget_slotAt q1) by done; change (slotAt q1 (tail q)) with (slotAt q (tail q)); by rewrite Hs)).
  rewrite (runThread_step _ _ _ _ (DPub (tail q) (sdata s)) None) by (done || (cbn [exec]; by rewrite H1)).
  rewrite (runThread_last _ _ _ _ (Some (Dequeued (tail q) (sdata s))))
    by (cbn [exec]; rewrite <- Z.add_assoc; change (1 + 1) with 2; by rewrite H2).
  done.
Qed.

Lemma Dequeue_empty q s :
  wf q -> slotAt q (tail q) = Some s -> sturn s <> freeTurn q (tail q) + 1 -> Dequeue q = Some (q, None).
Proof.
  intros Hw Hs Hst. unfold Dequeue.
  rewrite (runThread_step _ _ _ q (DTurn (tail q)) None) by done.
  rewrite (runThread_step _ _ _ q (DCheck (tail q)) None)
    by (done || by rewrite (exec_DTurn _ _ s), bool_decide_false).
  by rewrite (runThread_last _ _ _ q (Some Empty)) by (cbn [exec]; by rewrite Z.eqb_refl).
Qed.

(** A queue at rest that holds the items [l]. *)
Record rep (q : MPMC) (l : list T) : Prop := {
  rep_wf : wf q;
  rep_tail : 0 <= tail q;
  rep_len : zlen l = head q - tail q;
  rep_cap : zlen l <= capacity q;
  rep_item : forall k v, l !! k = Some v ->
    slotAt q (tail q + Z.of_nat k) = Some (mkSlot (freeTurn q (tail q + Z.of_nat k) + 1) v);
  rep_room : forall p, head q <= p < tail q + capacity q -> turnAt q p (freeTurn q p);
}.

(** Within a window of [capacity] positions, slots are distinct. *)
Lemma window_slots q a p p' :
  wf q -> a <= p < a + capacity q -> a <= p' < a + capacity q ->
  p mod capacity q = p' mod capacity q -> p = p'.
Proof.
  intros Hw Hp Hp' Hm. pose proof (wf_pos q Hw).
  pose proof (Z.div_mod p (capacity q)). pose proof (Z.div_mod p' (capacity q)).
  assert (p / capacity q = p' / capacity q) by nia. nia.
Qed.

Lemma rep_Enqueue q l v :
  rep q l ->
  if bool_decide (zlen l < capacity q)
  then exists q', Enqueue q v = Some (q', true) /\ rep q' (l ++ [v]) /\ capacity q' = capacity q
  else Enqueue q v = Some (q, false).
Proof.
  intros [Hw Ht Hlen Hcap Hitem Hroom]. pose proof (wf_pos q Hw). pose proof (zlen_nonneg l). bd.
  - destruct (Hroom (head q) ltac:(lia)) as (s & Hs & Hst).
    eexists. split; [by eapply Enqueue_room|]. split; [|done].
    assert (Hw1 := wf_setHead q (head q + 1) Hw). split; simpl; try lia.
    + by apply upd_wf.
    + rewrite zlen_app. unfold zlen at 2. simpl. lia.
    + rewrite zlen_app. unfold zlen at 2. simpl. lia.
    + intros k x [[? Hk]|[-> <-]]%lookup_snoc_Some; rewrite slotAt_upd by done; simpl.
      * rewrite decide_False; [by apply Hitem|]. intros E.
        apply (window_slots q (tail q)) in E; unfold zlen in *; done || lia.
      * assert (tail q + Z.of_nat (length l) = head q) as -> by (unfold zlen in *; lia).
        by rewrite decide_True.
    + intros p Hp. destruct (Hroom p ltac:(lia)) as (s' & Hs' & Hst'). exists s'. split; [|done].
      rewrite slotAt_upd by done. rewrite decide_False; [done|]. intros E.
      apply (window_slots q (tail q)) in E; done || lia.
  - destruct l as [|x l]; [unfold zlen in *; simpl in *; lia|].
    pose proof (Hitem 0%nat x eq_refl) as Hs. rewrite Z.add_0_r in Hs.
    assert (Hh : head q = tail q + capacity q) by lia.
    eapply Enqueue_full; [done | unfold slotAt in *; rewrite Hh, mod_next by done; exact Hs|].
    rewrite Hh, freeTurn_next by done. simpl. lia.
Qed.

Lemma rep_Dequeue q l :
  rep q l ->
  match l with
  | [] => Dequeue q = Some (q, None)
  | x :: l => exists q', Dequeue q = Some (q', Some x) /\ rep q' l /\ capacity q' = capacity q
  end.
Proof.
  intros [Hw Ht Hlen Hcap Hitem Hroom]. pose proof (wf_pos q Hw). destruct l as [|x l].
  - unfold zlen in Hlen. simpl in Hlen. destruct (Hroom (tail q) ltac:(lia)) as (s & Hs & Hst).
    eapply Dequeue_empty; [done..|]. lia.
  - pose proof (Hitem 0%nat x eq_refl) as Hs. rewrite Z.add_0_r in Hs.
    eexists. split; [by apply (Dequeue_item q _ Hw Hs)|]. split; [|done].
    assert (Hl : zlen (x :: l) = zlen l + 1) by (unfold zlen; simpl; lia). rewrite Hl in *.
    pose proof (zlen_nonneg l). assert (Hw1 := wf_setTail q (tail q + 1) Hw). split; simpl; try lia.
    + by apply upd_wf.
    + intros k y Hk. pose proof (lookup_lt_Some _ _ _ Hk). rewrite slotAt_upd by done. simpl.
      specialize (Hitem (S k) y Hk).
      replace (tail q + Z.of_nat (S k)) with (tail q + 1 + Z.of_nat k) in Hitem by lia.
      rewrite decide_False; [done|]. intros E.
      apply (window_slots q (tail q)) in E; unfold zlen in *; done || lia.
    + intros p Hp. destruct (decide (p = tail q + capacity q)) as [->|].
      * eexists. rewrite slotAt_upd, decide_True by (done || (simpl; by rewrite mod_next)).
        split; [done|]. symmetry. exact (freeTurn_next q (tail q) Hw).
      * destruct (Hroom p ltac:(lia)) as (s' & Hs' & Hst'). exists s'. split; [|done].
        rewrite slotAt_upd by done. rewrite decide_False; [done|]. simpl. intros E.
        apply (window_slots q (tail q)) in E; done || lia.
Qed.

Lemma rep_EnqueueBatch items q l count :
  rep q l ->
  let n := Z.min (zlen items) (capacity q - zlen l) in
  exists q', EnqueueBatch q items count = Some (q', count + n) /\
    rep q' (l ++ ztake n items) /\ capacity q' = capacity q.
Proof.
  revert q l count. induction items as [|v items IH]; intros q l count Hr n; pose proof (rep_cap _ _ Hr).
  - exists q. unfold n. rewrite Z.min_l by (unfold zlen in *; simpl; lia). simpl.
    rewrite Z.add_0_r, app_nil_r. done.
  - assert (Hl : zlen (v :: items) = zlen items + 1) by (unfold zlen; simpl; lia).
    pose proof (zlen_nonneg items). pose proof (rep_Enqueue _ _ v Hr) as He. cbn [EnqueueBatch]. bd.
    + destruct He as (q1 & -> & Hr1 & Hc1). cbn [mbind option_bind].
      destruct (IH _ _ (count + 1) Hr1) as (q' & -> & Hr' & Hc').
      assert (Hs : zlen (l ++ [v]) = zlen l + 1) by (rewrite zlen_app; done). rewrite Hs, Hc1 in *.
      exists q'. split_and!; [do 2 f_equal; unfold n; lia | | done].
      rewrite <- app_assoc in Hr'. replace (ztake n (v :: items)) with
        ([v] ++ ztake (Z.min (zlen items) (capacity q - (zlen l + 1))) items); [done|].
      unfold n, ztake. rewrite Hl. replace (Z.to_nat (Z.min (zlen items + 1) (capacity q - zlen l)))
        with (S (Z.to_nat (Z.min (zlen items) (capacity q - (zlen l + 1))))) by lia. done.
    + rewrite He. cbn [mbind option_bind]. exists q. unfold n.
      replace (Z.min _ _) with 0 by lia. rewrite Z.add_0_r, ztake_le0, app_nil_r by lia. done.
Qed.

Lemma rep_DequeueBatch n q l :
  rep q l ->
  exists q', DequeueBatch n q = Some (q', take n l) /\ rep q' (drop n l) /\ capacity q' = capacity q.
Proof.
  revert q l. induction n as [|n IH]; intros q l Hr; [by exists q|].
  cbn [DequeueBatch]. pose proof (rep_Dequeue _ _ Hr) as Hd. destruct l as [|x l].
  - rewrite Hd. by exists q.
  - destruct Hd as (q1 & -> & Hr1 & Hc1). cbn [mbind option_bind].
    destruct (IH _ _ Hr1) as (q' & -> & Hr' & Hc'). exists q'. simpl. by rewrite Hc'.
Qed.

Lemma rep_Clear q l : rep q l -> exists q', Clear q = Some q' /\ rep q' [] /\ capacity q' = capacity q.
Proof.
  intros Hr. unfold Clear, Size. rewrite <- (rep_len _ _ Hr).
  unfold zlen. rewrite Nat2Z.id. revert q Hr. induction l as [|x l IH]; intros q Hr;
    cbn [length clearLoop]; pose proof (rep_Dequeue _ _ Hr) as Hd; simpl in Hd.
  - rewrite Hd. by exists q.
  - destruct Hd as (q1 & -> & Hr1 & Hc1). cbn [mbind option_bind].
    destruct (IH _ Hr1) as (q' & ? & ? & ?). exists q'. by rewrite <- Hc1.
Qed.

Lemma NewMPMC_rep n q : n < 2 ^ 63 -> NewMPMC n = Some q -> rep q [].
Proof.
  intros Hn Hq. destruct (NewMPMC_spec n q Hn Hq) as (Hw & Hh & Ht & _ & Hs).
  pose proof (wf_pos q Hw). split; rewrite ?Hh, ?Ht; try done; try (unfold zlen; simpl; lia).
  intros p Hp. eexists. split; [apply Hs|]. unfold freeTurn. simpl. rewrite Z.div_small; lia.
Qed.

(** Used by one goroutine at a time, the queue is a bounded FIFO queue: a new queue
    is empty; [Enqueue] appends exactly when there is room and otherwise changes nothing;
    [Dequeue] returns the oldest item, or nothing exactly when the queue is empty;
    [EnqueueBatch] takes as many items as fit, [DequeueBatch] delivers the oldest ones in
    order, [Clear] terminates with the empty queue, and [Size], [IsEmpty] and [IsFull]
    report the number of items. *)
Theorem mpmc_sequential_queue (q : MPMC) (l : list T) :
  rep q l ->
  (forall v, exists q', Enqueue q v = Some (q', bool_decide (zlen l < capacity q)) /\
     rep q' (if bool_decide (zlen l < capacity q) then l ++ [v] else l)) /\
  (exists q', Dequeue q = Some (q', hd_error l) /\ rep q' (tl l)) /\
  (forall items, let n := Z.min (zlen items) (capacity q - zlen l) in
     exists q', EnqueueBatch q items 0 = Some (q', n) /\ rep q' (l ++ ztake n items)) /\
  (forall n, exists q', DequeueBatch n q = Some (q', take n l) /\ rep q' (drop n l)) /\
  (exists q', Clear q = Some q' /\ rep q' []) /\
  Size q = zlen l /\ IsEmpty q = bool_decide (l = []) /\
  IsFull q = bool_decide (zlen l = capacity q).
Proof.
  intros Hr. pose proof (rep_len _ _ Hr). pose proof (rep_cap _ _ Hr). split_and!.
  - intros v. pose proof (rep_Enqueue _ _ v Hr). bd; naive_solver.
  - pose proof (rep_Dequeue _ _ Hr). destruct l; naive_solver.
  - intros items n. destruct (rep_EnqueueBatch items q l 0 Hr) as (q' & ? & ? & ?). eauto.
  - intros n. destruct (rep_DequeueBatch n q l Hr) as (q' & ? & ? & ?). eauto.
  - destruct (rep_Clear q l Hr) as (q' & ? & ? & ?). eauto.
  - unfold Size. lia.
  - unfold IsEmpty, Size. destruct l; zb; bd; unfold zlen in *; simpl in *; try done; lia.
  - unfold IsFull, Size. zb; bd; try done; lia.
Qed.

(** *** Executing a schedule *)

(** What thread [i] does next: start an operation or make its next access. *)
Inductive action : Type := StartE (v : T) | StartD | Access.
Definition act (s : state) (a : nat * action) : option state :=
  p ← threads s !! fst a;
  match snd a, p with
  | StartE v, Idle => Some (mkState (queue s) (<[fst a := EHead v]> (threads s)) (tickets s) (history s))
  | StartD, Idle => Some (mkState (queue s) (<[fst a := DTail]> (threads s)) (tickets s) (history s))
  | Access, p =>
      '(q, p, e) ← exec (queue s) p;
      Some (mkState q (<[fst a := p]> (threads s)) (logTicket (tickets s) e) (logEvent (history s) e))
  | _, _ => None
  end.
Fixpoint runSchedule (s : state) (l : list (nat * action)) : option state :=
  match l with [] => Some s | a :: l => s ← act s a; runSchedule s l end.

Lemma act_step s a s' : act s a = Some s' -> step s s'.
Proof.
  destruct a as [i a]. unfold act. simpl. intros Ha.
  destruct (threads s !! i) as [p|] eqn:Hi; [|done]. simpl in Ha.
  destruct a; [destruct p; simplify_eq; apply step_start; eauto..|].
  destruct (exec (queue s) p) as [[[q' p'] e]|] eqn:He; [|done]. simpl in Ha. simplify_eq.
  by apply (step_exec i p).
Qed.

Lemma runSchedule_reachable s0 s l s' :
  reachable s0 s -> runSchedule s l = Some s' -> reachable s0 s'.
Proof.
  revert s. induction l as [|a l IH]; simpl; intros s Hr Hs; [by simplify_eq|].
  destruct (act s a) as [s1|] eqn:Ha; [|done]. simpl in Hs.
  apply (IH s1); [|done]. apply (reach_step _ s); [done|]. by eapply act_step.
Qed.
End Queue.
Arguments slot : clear implicits. Arguments MPMC : clear implicits. Arguments pc : clear implicits.
Arguments event : clear implicits. Arguments state : clear implicits.
Arguments action : clear implicits.

(** ** Witnesses *)

(** Two threads on a queue of two slots: thread 1 starts to dequeue before thread 0 has
    published its item, and receives it. *)
Definition q2 : MPMC Z := default (mkMPMC 0 0 0 [] 0 0) (NewMPMC 0 2).
Definition schedule2 : list (nat * action Z) :=
  [(0%nat, StartE 7); (1%nat, StartD); (0%nat, Access); (1%nat, Access); (0%nat, Access);
   (0%nat, Access); (0%nat, Access); (0%nat, Access); (1%nat, Access); (1%nat, Access);
   (1%nat, Access); (1%nat, Access); (1%nat, Access)].

Definition state2 : state Z := default (initState q2 0) (runSchedule 0 (initState q2 2) schedule2).

Lemma schedule2_runs : runSchedule 0 (initState q2 2) schedule2 = Some state2.
Proof. vm_compute. reflexivity. Qed.

Lemma mpmc_concurrent_fifo_witness :
  history state2 = [Ticket 0 7; Enqueued 0; Dequeued 0 7] /\
  zget (tickets state2) 0 = Some 7 /\ 0 <= head (queue state2) - tail (queue state2) <= capacity q2.
Proof.
  assert (Hh : history state2 = [Ticket 0 7; Enqueued 0; Dequeued 0 7]) by (vm_compute; reflexivity).
  assert (Hq : NewMPMC 0 2 = Some q2) by (vm_compute; reflexivity).
  destruct (mpmc_concurrent_fifo 0 2 q2 2 state2 ltac:(lia) Hq
    (runSchedule_reachable 0 _ _ _ _ (reach_refl 0 _) schedule2_runs)) as (Hsz & _ & Hgot & _).
  split; [exact Hh|]. split; [|exact Hsz]. apply Hgot. rewrite Hh. do 2 right. left.
Defined.

Lemma mpmc_sequential_queue_witness :
  exists q, EnqueueBatch 0 q2 [5; 6; 7] 0 = Some (q, 2) /\ rep q [5; 6].
Proof.
  assert (Hq : NewMPMC 0 2 = Some q2) by (vm_compute; reflexivity).
  pose proof (NewMPMC_rep 0 2 q2 ltac:(lia) Hq) as Hr.
  destruct (mpmc_sequential_queue 0 q2 [] Hr) as (_ & _ & Hb & _).
  exact (Hb [5; 6; 7]).
Defined.
