(* ===== verification/Locks.v ===== *)
(** * Locks: the spin lock and the read-write spin lock
      (src/pkg/common/locks/spinlock.go, rw_spinlock.go)

    The lock word is an integer; a thread runs [Lock], then its critical section, then
    [Unlock] (or the read versions), and each atomic access is one step.  [PAUSE] and
    [Gosched] do not touch the state, the spin and back-off counters do not influence
    it and are kept in the program counter.  The theorems show mutual exclusion, that
    writers exclude readers, that the panics of [RUnlock] and [Unlock] are not reached
    by a thread that holds the lock, and that a free lock is always taken. *)
From stdpp Require Import base list option gmap.
From Stdlib Require Import ZArith Lia.
From S2P Require Import Prelude.

(** ** Definitions *)

Definition spinIterations : Z := 4.
Definition maxGoschedBackoff : Z := 16.

(** Where the acquiring loop stands: an attempt of the active phase, or of the back-off
    phase with its current back-off. *)
Inductive attempt : Type := Spin (i : Z) | Backoff (b : Z).
Definition firstAttempt : attempt := Spin 0.
(** The next attempt after a failed one. *)
Definition retry (a : attempt) : attempt :=
  match a with
  | Spin i => if i + 1 <? spinIterations then Spin (i + 1) else Backoff 1
  | Backoff b => Backoff (if b <? maxGoschedBackoff then Z.shiftl b 1 else b)
  end.

(** [atomic.AddInt32] wraps. *)
Definition i32 (z : Z) : Z := (z + 2 ^ 31) mod 2 ^ 32 - 2 ^ 31.

Module SpinLock.
Inductive pc : Type := Outside | Locking (a : attempt) | Inside.

(** One access of a thread: the compare-and-swap of [Lock] or the store of [Unlock]. *)
Definition Lock (word : Z) (a : attempt) : Z * pc :=
  if word =? 0 then (1, Inside) else (word, Locking (retry a)).
Definition Unlock (word : Z) : Z * pc := (0, Outside).

Definition exec (word : Z) (p : pc) : Z * pc :=
  match p with
  | Outside => (word, Locking firstAttempt)
  | Locking a => Lock word a
  | Inside => Unlock word
  end.

Inductive step : Z * list pc -> Z * list pc -> Prop :=
  | step_exec w ths i p :
      ths !! i = Some p -> step (w, ths) (fst (exec w p), <[i := snd (exec w p)]> ths).
End SpinLock.

Module RWSpinLock.
Inductive pc : Type :=
  | Outside
  | RLoad (a : attempt) | RCas (a : attempt) (s : Z) | Reading
  | WCas (a : attempt) | Writing
  | Panicked.

(** [RLock]: load the state, and count one more reader unless a writer holds the lock. *)
Definition RLockLoad (state : Z) (a : attempt) : Z * pc :=
  if 0 <=? state then (state, RCas a state) else (state, RLoad (retry a)).
Definition RLockCas (state : Z) (a : attempt) (s : Z) : Z * pc :=
  if state =? s then (i32 (s + 1), Reading) else (state, RLoad (retry a)).
Definition RUnlock (state : Z) : Z * pc :=
  let n := i32 (state - 1) in (n, if n <? 0 then Panicked else Outside).
Definition Lock (state : Z) (a : attempt) : Z * pc :=
  if state =? 0 then (-1, Writing) else (state, WCas (retry a)).
Definition Unlock (state : Z) : Z * pc :=
  if state =? -1 then (0, Outside) else (state, Panicked).

(** The access a thread makes; from [Outside] it chooses to read or to write. *)
Definition exec (state : Z) (write : bool) (p : pc) : Z * pc :=
  match p with
  | Outside => (state, if write then WCas firstAttempt else RLoad firstAttempt)
  | RLoad a => RLockLoad state a
  | RCas a s => RLockCas state a s
  | Reading => RUnlock state
  | WCas a => Lock state a
  | Writing => Unlock state
  | Panicked => (state, Panicked)
  end.

Inductive step : Z * list pc -> Z * list pc -> Prop :=
  | step_exec st ths i p write :
      ths !! i = Some p -> step (st, ths) (fst (exec st write p), <[i := snd (exec st write p)]> ths).
End RWSpinLock.

(** ** Lemmas *)

Section Count.
Context {A : Type} (f : A -> bool).
Definition count (l : list A) : Z := zlen (List.filter f l).

Lemma count_middle l i x :
  l !! i = Some x -> count l = count (take i l) + (if f x then 1 else 0) + count (drop (S i) l).
Proof.
  intros Hi. transitivity (count (take i l ++ x :: drop (S i) l)); [by rewrite take_drop_middle|].
  unfold count. rewrite List.filter_app, zlen_app. cbn [List.filter].
  destruct (f x); unfold zlen; cbn [length]; lia.
Qed.

Lemma count_insert l i x y :
  l !! i = Some x ->
  count (<[i := y]> l) = count l - (if f x then 1 else 0) + (if f y then 1 else 0).
Proof.
  intros Hi. pose proof (lookup_lt_Some _ _ _ Hi).
  rewrite (count_middle l i x Hi), (count_middle (<[i := y]> l) i y)
    by (by apply list_lookup_insert_eq).
  rewrite take_insert_ge, drop_insert_lt by lia. lia.
Qed.

Lemma count_nonneg l : 0 <= count l.
Proof. apply zlen_nonneg. Qed.

Lemma count_le l : count l <= zlen l.
Proof.
  unfold count, zlen. induction l as [|x l IH]; cbn; [lia|]. destruct (f x); cbn [length]; lia.
Qed.

Lemma count_pos l i x : l !! i = Some x -> f x = true -> 0 < count l.
Proof.
  intros Hi Hx. rewrite (count_middle l i x Hi), Hx.
  pose proof (count_nonneg (take i l)). pose proof (count_nonneg (drop (S i) l)). lia.
Qed.

Lemma count_zero l : (forall i x, l !! i = Some x -> f x = false) -> count l = 0.
Proof.
  unfold count. induction l as [|x l IH]; intros Hf; [done|]. cbn [List.filter].
  rewrite (Hf 0%nat x eq_refl). apply IH. intros i y Hi. exact (Hf (S i) y Hi).
Qed.

(** Two different threads that satisfy [f] count twice. *)
Lemma count_two l i j x y :
  l !! i = Some x -> l !! j = Some y -> f x = true -> f y = true -> count l <= 1 -> i = j.
Proof.
  intros Hi Hj Hx Hy Hc.
  assert (Hgen : forall a b u v, (a < b)%nat -> l !! a = Some u -> l !! b = Some v ->
    f u = true -> f v = true -> 1 < count l).
  { intros a b u v Hab Ha Hb Hu Hv. rewrite (count_middle l a u Ha), Hu.
    pose proof (count_nonneg (take a l)). enough (0 < count (drop (S a) l)) by lia.
    apply (count_pos _ (b - S a)%nat v); [|done]. rewrite lookup_drop.
    by replace (S a + (b - S a))%nat with b by lia. }
  destruct (decide (i < j)%nat), (decide (j < i)%nat); [lia | | | lia].
  - specialize (Hgen i j x y). naive_solver lia.
  - specialize (Hgen j i y x). naive_solver lia.
Qed.
End Count.

Lemma rtc_preserves {A} (R : relation A) (P : A -> Prop) x y :
  (forall a b, R a b -> P a -> P b) -> rtc R x y -> P x -> P y.
Proof. intros Hstep. induction 1; eauto. Qed.

Lemma i32_small z : - 2 ^ 31 <= z < 2 ^ 31 -> i32 z = z.
Proof. intros. unfold i32. rewrite Z.mod_small; lia. Qed.

Module Spin.
Import SpinLock.
Definition inside (p : pc) : bool := match p with Inside => true | _ => false end.

(** The word is 1 exactly when one thread is inside. *)
Definition inv (s : Z * list pc) : Prop :=
  (fst s = 0 /\ count inside (snd s) = 0) \/ (fst s = 1 /\ count inside (snd s) = 1).

Lemma spin_step_inv s s' : step s s' -> inv s -> inv s'.
Proof.
  intros [w ths i p Hp] Hi. unfold inv in *. simpl in *.
  rewrite (count_insert inside ths i p _ Hp). destruct p; simpl in *.
  - destruct Hi as [[-> Hc]|[-> Hc]]; rewrite Hc; auto.
  - unfold Lock. destruct Hi as [[-> Hc]|[-> Hc]]; simpl; rewrite Hc; auto.
  - pose proof (count_pos inside ths i Inside Hp eq_refl). destruct Hi as [[-> Hc]|[-> Hc]]; [lia|].
    rewrite Hc. auto.
Qed.
End Spin.

Module RWSpin.
Import RWSpinLock.
Definition reading (p : pc) : bool := match p with Reading => true | _ => false end.
Definition writing (p : pc) : bool := match p with Writing => true | _ => false end.
Definition panicked (p : pc) : bool := match p with Panicked => true | _ => false end.

(** The state counts the readers, or is -1 for one writer and no reader; a reader's
    expected value was not negative; nobody has panicked. *)
Record inv (s : Z * list pc) : Prop := {
  inv_state : (count writing (snd s) = 0 /\ fst s = count reading (snd s)) \/
              (count writing (snd s) = 1 /\ count reading (snd s) = 0 /\ fst s = -1);
  inv_cas : forall i a n, snd s !! i = Some (RCas a n) -> 0 <= n;
  inv_panic : count panicked (snd s) = 0;
}.

Lemma rw_step_state st ths i p write :
  ths !! i = Some p -> zlen ths < 2 ^ 31 -> inv (st, ths) ->
  let r := exec st write p in
  let ths' := <[i := snd r]> ths in
  ((count writing ths' = 0 /\ fst r = count reading ths') \/
   (count writing ths' = 1 /\ count reading ths' = 0 /\ fst r = -1)) /\ count panicked ths' = 0.
Proof.
  intros Hp Hlen [Hst Hcas Hpan] r ths'. simpl in *.
  pose proof (count_nonneg reading ths). pose proof (count_le reading ths).
  pose proof (count_le reading (<[i := Reading]> ths)) as Hmax.
  unfold zlen at 1 in Hmax. rewrite length_insert, (count_insert _ ths i p _ Hp) in Hmax.
  unfold ths', r. rewrite !(count_insert _ ths i p _ Hp).
  destruct p as [|a|a n| |a| |]; simpl in *;
    unfold RLockLoad, RLockCas, RUnlock, Lock, Unlock; simpl.
  - destruct write; simpl; lia.
  - zb; simpl; lia.
  - pose proof (Hcas _ _ _ Hp). destruct (Z.eqb_spec st n); simpl; [|lia].
    rewrite i32_small by (unfold zlen in *; lia). lia.
  - pose proof (count_pos reading ths i Reading Hp eq_refl). rewrite i32_small by lia.
    destruct (Z.ltb_spec (st - 1) 0); simpl; lia.
  - destruct (Z.eqb_spec st 0); simpl; lia.
  - pose proof (count_pos writing ths i Writing Hp eq_refl).
    destruct (Z.eqb_spec st (-1)); simpl; lia.
  - pose proof (count_pos panicked ths i Panicked Hp eq_refl). lia.
Qed.

Lemma rw_step_inv s s' : step s s' -> zlen (snd s) < 2 ^ 31 -> inv s -> inv s' /\ zlen (snd s') = zlen (snd s).
Proof.
  intros [st ths i p write Hp] Hlen Hi. split; [|unfold zlen; simpl; by rewrite length_insert].
  destruct (rw_step_state st ths i p write Hp Hlen Hi) as [Hs Hpan]. split; simpl; [done| |done].
  intros j a n Hj. rewrite list_lookup_insert in Hj. destruct (decide _) as [[<- _]|]; [|by eapply Hi].
  destruct p; simpl in Hj; unfold RLockLoad, RLockCas, RUnlock, Lock, Unlock in Hj; try done.
  - by destruct write.
  - zb; simpl in Hj; simplify_eq. lia.
  - by destruct (_ =? _).
  - by destruct (_ <? _).
  - by destruct (_ =? _).
  - by destruct (_ =? _).
Qed.
End RWSpin.

(** ** Theorems *)

(** From an unlocked spin lock, whatever the interleaving, at most one thread is
    between [Lock] and [Unlock], and when none is, the next compare-and-swap of any
    waiting thread succeeds. *)
Theorem spinlock_mutual_exclusion n s :
  rtc SpinLock.step (0, replicate n SpinLock.Outside) s ->
  (forall i j, snd s !! i = Some SpinLock.Inside -> snd s !! j = Some SpinLock.Inside -> i = j) /\
  ((forall i, snd s !! i <> Some SpinLock.Inside) ->
   forall a, SpinLock.Lock (fst s) a = (1, SpinLock.Inside)).
Proof.
  intros Hr. assert (Hi : Spin.inv s).
  { eapply (rtc_preserves _ _ _ _ Spin.spin_step_inv Hr). left. split; [done|].
    apply count_zero. intros i x [-> _]%lookup_replicate. done. }
  split.
  - intros i j Hx Hy. eapply (count_two Spin.inside); [exact Hx | exact Hy | done | done|].
    destruct Hi; lia.
  - intros Hno a. destruct Hi as [[-> _]|[_ Hc]]; [done|].
    rewrite count_zero in Hc; [done|]. intros i x Hx. destruct x; try done. by destruct (Hno i).
Qed.

(** C37: from an unlocked read-write lock with fewer than 2^31 threads, whatever the
    interleaving: a writer excludes every other writer and every reader; no release by a
    holder panics; and when nobody holds the lock, the next attempt of a writer and of a
    reader succeeds. *)
Theorem rwlock_exclusion n s :
  Z.of_nat n < 2 ^ 31 -> rtc RWSpinLock.step (0, replicate n RWSpinLock.Outside) s ->
  (forall i j p, snd s !! i = Some RWSpinLock.Writing -> snd s !! j = Some p ->
     p = RWSpinLock.Writing \/ p = RWSpinLock.Reading -> i = j) /\
  (forall i, snd s !! i <> Some RWSpinLock.Panicked) /\
  ((forall i p, snd s !! i = Some p -> p <> RWSpinLock.Writing /\ p <> RWSpinLock.Reading) ->
   forall a, RWSpinLock.Lock (fst s) a = (-1, RWSpinLock.Writing) /\
             RWSpinLock.RLockLoad (fst s) a = (0, RWSpinLock.RCas a 0) /\
             RWSpinLock.RLockCas (fst s) a 0 = (1, RWSpinLock.Reading)).
Proof.
  intros Hn Hr. assert (Hi : RWSpin.inv s /\ zlen (snd s) < 2 ^ 31).
  { refine (rtc_preserves _ (fun s => RWSpin.inv s /\ zlen (snd s) < 2 ^ 31) _ _ _ Hr _).
    { intros a b Hs [Hi Hl]. destruct (RWSpin.rw_step_inv a b Hs Hl Hi) as [? ->]. done. }
    split.
    - assert (Hz : forall f, f RWSpinLock.Outside = false -> count f (replicate n RWSpinLock.Outside) = 0)
        by (intros f Hf; apply count_zero; intros i x [-> _]%lookup_replicate; done).
      split; simpl; [left; by rewrite !Hz | intros i a m [E _]%lookup_replicate; discriminate E | by apply Hz].
    - unfold zlen. simpl. by rewrite length_replicate. }
  destruct Hi as [[Hst _ Hpan] _]. split_and!.
  - intros i j p Hi Hj [-> | ->].
    + eapply (count_two RWSpin.writing); [exact Hi | exact Hj | done | done | lia].
    + pose proof (count_pos RWSpin.writing _ _ _ Hi eq_refl).
      pose proof (count_pos RWSpin.reading _ _ _ Hj eq_refl). lia.
  - intros i Hi. pose proof (count_pos RWSpin.panicked _ _ _ Hi eq_refl). lia.
  - intros Hno a. assert (Hz : fst s = 0); [|by rewrite Hz].
    assert (count RWSpin.writing (snd s) = 0 /\ count RWSpin.reading (snd s) = 0) as [??]; [|lia].
    split; apply count_zero; intros i p Hp; destruct (Hno i p Hp); by destruct p.
Qed.

(** Two threads read at once and a third has to wait for both. *)
Lemma rwlock_exclusion_witness :
  exists s, rtc RWSpinLock.step (0, replicate 3 RWSpinLock.Outside) s /\
    snd s = [RWSpinLock.Reading; RWSpinLock.Reading; RWSpinLock.WCas (Spin 1)] /\ fst s = 2 /\
    (forall i, snd s !! i <> Some RWSpinLock.Panicked).
Proof.
  set (go := fun (s : Z * list RWSpinLock.pc) (iw : nat * bool) =>
    match snd s !! fst iw with
    | Some p => (fst (RWSpinLock.exec (fst s) (snd iw) p),
                 <[fst iw := snd (RWSpinLock.exec (fst s) (snd iw) p)]> (snd s))
    | None => s
    end).
  assert (Hgo : forall l s, rtc RWSpinLock.step s (foldl go s l)).
  { induction l as [|[i w] l IH]; intros [st ths]; [constructor|]. simpl. etransitivity; [|apply IH].
    unfold go. simpl. destruct (ths !! i) as [p|] eqn:E; [|constructor].
    apply rtc_once. by apply (RWSpinLock.step_exec st ths i p w). }
  specialize (Hgo [(0%nat, false); (1%nat, false); (2%nat, true); (0%nat, false); (1%nat, false);
    (0%nat, false); (1%nat, false); (1%nat, false); (1%nat, false); (2%nat, true)]
    (0, replicate 3 RWSpinLock.Outside)).
  eexists. split; [exact Hgo|]. split; [vm_compute; reflexivity|]. split; [vm_compute; reflexivity|].
  refine (proj1 (proj2 (rwlock_exclusion 3 _ _ Hgo))). lia.
Defined.

Lemma spinlock_mutual_exclusion_witness :
  exists s, rtc SpinLock.step (0, replicate 2 SpinLock.Outside) s /\
    snd s = [SpinLock.Inside; SpinLock.Locking firstAttempt] /\
    (forall i j, snd s !! i = Some SpinLock.Inside -> snd s !! j = Some SpinLock.Inside -> i = j).
Proof.
  assert (Hr : rtc SpinLock.step (0, replicate 2 SpinLock.Outside)
                                 (1, [SpinLock.Inside; SpinLock.Locking firstAttempt])).
  { set (t := SpinLock.Locking firstAttempt).
    eapply rtc_l; [exact (SpinLock.step_exec 0 [SpinLock.Outside; SpinLock.Outside] 0%nat _ eq_refl)|].
    eapply rtc_l; [exact (SpinLock.step_exec 0 [t; SpinLock.Outside] 1%nat _ eq_refl)|].
    apply rtc_once. exact (SpinLock.step_exec 0 [t; t] 0%nat _ eq_refl). }
  eexists. split; [exact Hr|]. split; [reflexivity|].
  exact (proj1 (spinlock_mutual_exclusion 2 _ Hr)).
Defined.
