(* ===== verification/Algorithm.v ===== *)
(** * Algorithm: circuit breaker, backoff, eviction and search
      (src/pkg/algorithm)

    The circuit breaker takes the time as an argument instead of a clock, and its lock
    makes each method one step; the state-change callback fires after the lock is
    released and is the returned transition.  Random choices (the jitter and the sampled
    cache entries) are arguments. *)
From stdpp Require Import base list option.
From Stdlib Require Import ZArith Lia.
From S2P Require Import Prelude.

Module Breaker.
(** ** Circuit breaker (circuit_breaker.go) *)

Inductive state := StateClosed | StateOpen | StateHalfOpen.
#[export] Instance state_eq_dec : EqDecision state.
Proof. solve_decision. Defined.

Definition defaultFailureThreshold : Z := 5.
Definition defaultSuccessThreshold : Z := 2.
Definition defaultOpenTimeout : Z := 30 * 1000000000.

Record CircuitBreaker := mkBreaker {
  bstate : state;
  failureCount : Z;
  successCount : Z;
  failureThreshold : Z;
  successThreshold : Z;
  openTimeout : Z;
  lastFailure : Z;
}.

Definition NewCircuitBreaker (opts : list (CircuitBreaker -> CircuitBreaker)) : CircuitBreaker :=
  foldl (fun cb opt => opt cb)
    (mkBreaker StateClosed 0 0 defaultFailureThreshold defaultSuccessThreshold defaultOpenTimeout 0) opts.
Definition WithFailureThreshold (n : Z) (cb : CircuitBreaker) : CircuitBreaker :=
  if 0 <? n then mkBreaker (bstate cb) (failureCount cb) (successCount cb) n (successThreshold cb) (openTimeout cb) (lastFailure cb) else cb.
Definition WithSuccessThreshold (n : Z) (cb : CircuitBreaker) : CircuitBreaker :=
  if 0 <? n then mkBreaker (bstate cb) (failureCount cb) (successCount cb) (failureThreshold cb) n (openTimeout cb) (lastFailure cb) else cb.
Definition WithOpenTimeout (d : Z) (cb : CircuitBreaker) : CircuitBreaker :=
  if 0 <? d then mkBreaker (bstate cb) (failureCount cb) (successCount cb) (failureThreshold cb) (successThreshold cb) d (lastFailure cb) else cb.

(** [transition]; the callback is the pair of states when they differ. *)
Definition transition (cb : CircuitBreaker) (to : state) : CircuitBreaker * option (state * state) :=
  (mkBreaker to 0 0 (failureThreshold cb) (successThreshold cb) (openTimeout cb) (lastFailure cb),
   if bool_decide (bstate cb = to) then None else Some (bstate cb, to)).

(** [true] is a request that is let through. *)
Definition Allow (now : Z) (cb : CircuitBreaker) : CircuitBreaker * option (state * state) * bool :=
  match bstate cb with
  | StateClosed => (cb, None, true)
  | StateOpen =>
      if openTimeout cb <=? i64 (now - lastFailure cb) then
        let '(cb, notify) := transition cb StateHalfOpen in (cb, notify, true)
      else (cb, None, false)
  | StateHalfOpen => (cb, None, true)
  end.

Definition setCounts (cb : CircuitBreaker) (f s : Z) : CircuitBreaker :=
  mkBreaker (bstate cb) f s (failureThreshold cb) (successThreshold cb) (openTimeout cb) (lastFailure cb).

Definition RecordSuccess (cb : CircuitBreaker) : CircuitBreaker * option (state * state) :=
  match bstate cb with
  | StateClosed => (setCounts cb 0 (successCount cb), None)
  | StateHalfOpen =>
      let cb := setCounts cb (failureCount cb) (successCount cb + 1) in
      if successThreshold cb <=? successCount cb then transition cb StateClosed else (cb, None)
  | StateOpen => (cb, None)
  end.

Definition RecordFailure (now : Z) (cb : CircuitBreaker) : CircuitBreaker * option (state * state) :=
  let cb := mkBreaker (bstate cb) (failureCount cb) (successCount cb) (failureThreshold cb) (successThreshold cb)
              (openTimeout cb) now in
  match bstate cb with
  | StateClosed =>
      let cb := setCounts cb (failureCount cb + 1) (successCount cb) in
      if failureThreshold cb <=? failureCount cb then transition cb StateOpen else (cb, None)
  | StateHalfOpen => transition cb StateOpen
  | StateOpen => (cb, None)
  end.

Definition State (cb : CircuitBreaker) : state := bstate cb.
Definition Reset (cb : CircuitBreaker) : CircuitBreaker * option (state * state) := transition cb StateClosed.
Definition Counts (cb : CircuitBreaker) : Z * Z := (failureCount cb, successCount cb).

(** *** Invariant *)

(** The counters belong to the state: failures are counted while closed, successes while
    half open, and both stay below the threshold that would have ended the state. *)
Definition breaker_ok (cb : CircuitBreaker) : Prop :=
  0 < failureThreshold cb /\ 0 < successThreshold cb /\ 0 < openTimeout cb /\
  match bstate cb with
  | StateClosed => 0 <= failureCount cb < failureThreshold cb /\ successCount cb = 0
  | StateOpen => failureCount cb = 0 /\ successCount cb = 0
  | StateHalfOpen => failureCount cb = 0 /\ 0 <= successCount cb < successThreshold cb
  end.

Inductive event := EAllow (now : Z) | ESuccess | EFailure (now : Z) | EReset.
Definition step (cb : CircuitBreaker) (e : event) : CircuitBreaker * option (state * state) :=
  match e with
  | EAllow now => (Allow now cb).1
  | ESuccess => RecordSuccess cb
  | EFailure now => RecordFailure now cb
  | EReset => Reset cb
  end.
Definition run (cb : CircuitBreaker) (es : list event) : CircuitBreaker := foldl (fun cb e => (step cb e).1) cb es.

(** The transitions the pattern allows. *)
Definition legal (e : event) (from to : state) : Prop :=
  match e, from, to with
  | EAllow _, StateOpen, StateHalfOpen => True
  | EFailure _, StateClosed, StateOpen => True
  | EFailure _, StateHalfOpen, StateOpen => True
  | ESuccess, StateHalfOpen, StateClosed => True
  | EReset, _, StateClosed => True
  | _, _, _ => from = to
  end.

Ltac breaker := unfold step, Allow, RecordSuccess, RecordFailure, Reset, transition, setCounts in *; cbn in *.

Lemma step_ok cb e :
  breaker_ok cb -> breaker_ok (step cb e).1 /\ legal e (bstate cb) (bstate (step cb e).1) /\
  (step cb e).2 = if bool_decide (bstate cb = bstate (step cb e).1) then None else Some (bstate cb, bstate (step cb e).1).
Proof.
  intros (H1 & H2 & H3 & Hs). unfold breaker_ok. destruct cb as [st fc sc ft sth ot lf]. destruct e; breaker;
    destruct st; cbn in *; repeat (case_match; cbn in *); split_and!; try (done || lia).
Qed.

Lemma run_ok es : forall cb, breaker_ok cb -> breaker_ok (run cb es).
Proof. induction es as [|e es IH]; intros cb Hcb; [done|]. apply IH. by apply step_ok. Qed.

(** *** Consecutive failures *)

(** Outcomes of requests, [true] for a success, recorded at one time. *)
Definition record (now : Z) (cb : CircuitBreaker) (ok : bool) : CircuitBreaker :=
  (step cb (if ok then ESuccess else EFailure now)).1.
Definition recordAll (now : Z) (cb : CircuitBreaker) (outs : list bool) : CircuitBreaker := foldl (record now) cb outs.

(** Some [n] outcomes in a row are failures. *)
Definition hasRun (n : nat) (outs : list bool) : Prop := exists pre post, outs = pre ++ replicate n false ++ post.
Definition streak (outs : list bool) : nat := foldl (fun n (ok : bool) => if ok then O else S n) O outs.

Lemma streak_snoc outs ok : streak (outs ++ [ok]) = if ok then O else S (streak outs).
Proof. unfold streak. by rewrite foldl_app. Qed.

Lemma streak_suffix outs : exists pre, outs = pre ++ replicate (streak outs) false.
Proof.
  induction outs as [|ok outs IH] using rev_ind; [by exists []|]. rewrite streak_snoc. destruct ok.
  - exists (outs ++ [true]). by rewrite app_nil_r.
  - destruct IH as [pre E]. exists pre. rewrite E at 1. rewrite <- app_assoc. f_equal.
    rewrite replicate_S. symmetry. apply replicate_cons_app.
Qed.

Lemma streak_ge n : forall pre, (n <= streak (pre ++ replicate n false))%nat.
Proof.
  induction n as [|n IH]; intros pre; [lia|]. rewrite replicate_S, replicate_cons_app, app_assoc, streak_snoc.
  specialize (IH pre). lia.
Qed.

Lemma hasRun_snoc n outs ok :
  (0 < n)%nat -> hasRun n (outs ++ [ok]) <-> hasRun n outs \/ (n <= streak (outs ++ [ok]))%nat.
Proof.
  intros Hn. split.
  - intros (pre & post & E). destruct post as [|x post _] using rev_ind.
    + right. rewrite E, app_nil_r. apply streak_ge.
    + left. rewrite !app_assoc in E. apply app_inj_tail in E as [-> _]. exists pre, post. by rewrite <- app_assoc.
  - intros [(pre & post & ->)|Hs].
    + exists pre, (post ++ [ok]). by rewrite <- !app_assoc.
    + destruct (streak_suffix (outs ++ [ok])) as [pre E]. rewrite E.
      exists (pre ++ replicate (streak (outs ++ [ok]) - n) false), []. rewrite app_nil_r, <- app_assoc, <- replicate_add.
      do 2 f_equal. lia.
Qed.

Lemma recordAll_closed now cb outs :
  breaker_ok cb -> bstate cb = StateClosed -> failureCount cb = 0 ->
  let n := Z.to_nat (failureThreshold cb) in
  let cb' := recordAll now cb outs in
  failureThreshold cb' = failureThreshold cb /\ breaker_ok cb' /\
  ((bstate cb' = StateClosed /\ failureCount cb' = Z.of_nat (streak outs) /\ ~ hasRun n outs) \/
   (bstate cb' = StateOpen /\ hasRun n outs)).
Proof.
  intros Hok Hst Hfc n. cbn zeta. pose proof Hok as (Hft & _). unfold n in *. clear n.
  assert (Hn : (0 < Z.to_nat (failureThreshold cb))%nat) by lia.
  induction outs as [|ok outs IH] using rev_ind.
  { split; [done|]. split; [done|]. left. split; [done|]. split; [done|]. intros (pre & post & E).
    apply (f_equal length) in E. rewrite !length_app, length_replicate in E. cbn in E. lia. }
  unfold recordAll in *. rewrite foldl_app. cbn [foldl]. destruct IH as (Hth & Hok' & Hcase).
  set (c := foldl (record now) cb outs) in *. unfold record.
  destruct (step_ok c (if ok then ESuccess else EFailure now) Hok') as (Hok2 & _).
  split; [|split; [exact Hok2|]].
  { rewrite <- Hth. destruct c as [st fc sc ft sth ot lf]. destruct ok; breaker; destruct st; cbn; repeat case_match; done. }
  rewrite hasRun_snoc, streak_snoc by done. destruct Hok' as (_ & _ & _ & Hinv).
  destruct Hcase as [(Hc & Hf & Hno)|[Ho Hrun]].
  - destruct ok; breaker; rewrite Hc in *; cbn in *.
    + left. split; [done|]. split; [done|]. intros [?|?]; [done | lia].
    + destruct (Z.leb_spec (failureThreshold c) (failureCount c + 1)); cbn.
      * right. split; [done|]. right. lia.
      * left. split; [done|]. split; [lia|]. intros [?|?]; [done | lia].
  - right. split; [|by left]. destruct ok; breaker; rewrite Ho; done.
Qed.

(** *** Properties *)


(** The options that set a field of the model. *)
Inductive setting := FailureThreshold (n : Z) | SuccessThreshold (n : Z) | OpenTimeout (d : Z).
Definition toOption (s : setting) : CircuitBreaker -> CircuitBreaker :=
  match s with
  | FailureThreshold n => WithFailureThreshold n
  | SuccessThreshold n => WithSuccessThreshold n
  | OpenTimeout d => WithOpenTimeout d
  end.

(** A breaker that has just been configured: closed, with no outcome counted. *)
Definition fresh (cb : CircuitBreaker) : Prop := breaker_ok cb /\ bstate cb = StateClosed /\ failureCount cb = 0.

Lemma toOption_fresh s cb : fresh cb -> fresh (toOption s cb).
Proof.
  intros ((H1 & H2 & H3 & H4) & Hst & Hf). unfold fresh, breaker_ok. rewrite Hst in H4.
  destruct s; cbn; [unfold WithFailureThreshold | unfold WithSuccessThreshold | unfold WithOpenTimeout];
    case_match; cbn; rewrite ?Hst; split_and!; try (done || lia).
Qed.

Lemma NewCircuitBreaker_fresh ss : fresh (NewCircuitBreaker (map toOption ss)).
Proof.
  unfold NewCircuitBreaker.
  set (cb := mkBreaker _ _ _ _ _ _ _). assert (Hcb : fresh cb) by (repeat split; cbn; lia). clearbody cb.
  revert cb Hcb. induction ss as [|s ss IH]; intros cb Hcb; [done|]. apply IH. by apply toOption_fresh.
Qed.

(** For every configuration and every sequence of calls the breaker stays in one of its
    three states with the counters that belong to it, moves only along closed to open,
    open to half open, half open to closed or open, and (by [Reset]) to closed, and
    announces a state change exactly when the state changes. *)
Theorem breaker_state_machine ss es e :
  let cb := run (NewCircuitBreaker (map toOption ss)) es in
  let '(cb', notify) := step cb e in
  breaker_ok cb /\ breaker_ok cb' /\ legal e (bstate cb) (bstate cb') /\
  notify = if bool_decide (bstate cb = bstate cb') then None else Some (bstate cb, bstate cb').
Proof.
  cbn zeta. destruct (NewCircuitBreaker_fresh ss) as [H0 _].
  destruct (step (run _ es) e) as [cb' n] eqn:E. pose proof (run_ok es _ H0) as Hr.
  destruct (step_ok _ e Hr) as (H1 & H2 & H3). rewrite E in *. done.
Qed.

(** Calls to [Allow] at the given times; the answers. *)
Fixpoint allowAll (cb : CircuitBreaker) (ts : list Z) : list bool * CircuitBreaker :=
  match ts with
  | [] => ([], cb)
  | t :: ts =>
      let '(cb, _, ok) := Allow t cb in
      let '(oks, cb) := allowAll cb ts in (ok :: oks, cb)
  end.

(** No request passes an open breaker before its timeout, counted from the last failure. *)
Lemma allowAll_blocked ts : forall cb,
  bstate cb = StateOpen -> Forall (fun t => 0 <= t - lastFailure cb < openTimeout cb) ts -> openTimeout cb < 2 ^ 63 ->
  allowAll cb ts = (replicate (length ts) false, cb).
Proof.
  induction ts as [|t ts IH]; intros cb Hst Hts Ht; [done|]. inversion_clear Hts as [|? ? Hhd Htl]. cbn [allowAll].
  unfold Allow. rewrite Hst, i64_small by lia. destruct (Z.leb_spec (openTimeout cb) (t - lastFailure cb)); [lia|].
  by rewrite IH.
Qed.

(** Successes while half open. *)
Lemma recordAll_halfopen now n : forall cb,
  breaker_ok cb -> bstate cb = StateHalfOpen -> successCount cb + Z.of_nat n < successThreshold cb ->
  recordAll now cb (replicate n true) = setCounts cb (failureCount cb) (successCount cb + Z.of_nat n).
Proof.
  induction n as [|n IH]; intros cb Hok Hst Hn.
  - destruct cb. unfold setCounts. cbn. by rewrite Z.add_0_r.
  - change (recordAll now cb (replicate (S n) true)) with (recordAll now (record now cb true) (replicate n true)).
    assert (E : record now cb true = setCounts cb (failureCount cb) (successCount cb + 1)).
    { unfold record. breaker. rewrite Hst. destruct (Z.leb_spec (successThreshold cb) (successCount cb + 1)); [lia | done]. }
    assert (Hok2 : breaker_ok (record now cb true)) by by apply step_ok. rewrite E in *.
    rewrite IH; unfold setCounts; cbn; [f_equal; lia | exact Hok2 | done | lia].
Qed.

Lemma recordAll_fields now outs cb :
  openTimeout (recordAll now cb outs) = openTimeout cb /\
  successThreshold (recordAll now cb outs) = successThreshold cb /\
  (false ∈ outs -> lastFailure (recordAll now cb outs) = now).
Proof.
  unfold recordAll. induction outs as [|ok outs IH] using rev_ind; [split_and!; try done; by intros ?%elem_of_nil|].
  rewrite foldl_app. cbn [foldl]. destruct IH as (IH1 & IH2 & IH3).
  set (c := foldl (record now) cb outs) in *. unfold record. rewrite <- IH1, <- IH2.
  destruct c as [st fc sc ft sth ot lf]. split_and!.
  1-2: destruct ok; breaker; destruct st; cbn; repeat case_match; done.
  intros [Hin|Hin]%elem_of_app.
  - specialize (IH3 Hin). cbn in IH3. subst lf. destruct ok; breaker; destruct st; cbn; repeat case_match; done.
  - apply list_elem_of_singleton in Hin as <-. breaker. destruct st; cbn; repeat case_match; done.
Qed.

Lemma hasRun_false n outs : (0 < n)%nat -> hasRun n outs -> false ∈ outs.
Proof.
  intros Hn (pre & post & ->). destruct n as [|n]; [lia|]. cbn. apply elem_of_app. right. left.
Qed.

Lemma recordAll_open_iff now cb outs :
  fresh cb -> bstate (recordAll now cb outs) = StateOpen <-> hasRun (Z.to_nat (failureThreshold cb)) outs.
Proof.
  intros (Hok & Hst & Hf). destruct (recordAll_closed now cb outs Hok Hst Hf) as (_ & _ & [(Hc & _ & Hno)|[Ho Hr]]).
  - split; [by rewrite Hc | done].
  - done.
Qed.

Lemma recordAll_app now cb xs ys : recordAll now cb (xs ++ ys) = recordAll now (recordAll now cb xs) ys.
Proof. unfold recordAll. apply foldl_app. Qed.

(** From half open: short of the threshold, one failure, and the threshold itself. *)
Lemma halfopen_outcomes t cb n :
  breaker_ok cb -> bstate cb = StateHalfOpen -> successCount cb = 0 -> 0 <= n < successThreshold cb ->
  bstate (recordAll t cb (replicate (Z.to_nat n) true)) = StateHalfOpen /\
  bstate (recordAll t cb (replicate (Z.to_nat n) true ++ [false])) = StateOpen /\
  bstate (recordAll t cb (replicate (Z.to_nat (successThreshold cb)) true)) = StateClosed.
Proof.
  intros Hok Hst Hsc Hn. rewrite recordAll_app. rewrite !recordAll_halfopen by (try done; lia).
  split; [done|]. split.
  - unfold record. cbn. breaker. by rewrite Hst.
  - replace (Z.to_nat (successThreshold cb)) with (Z.to_nat (successThreshold cb - 1) + 1)%nat by lia.
    rewrite replicate_add, recordAll_app, (recordAll_halfopen _ _ cb) by (try done; lia). cbn. breaker. rewrite Hst. cbn.
    unfold record. breaker. rewrite (proj2 (Z.leb_le _ _)) by lia. done.
Qed.

(** A configured breaker is open after a sequence of recorded outcomes exactly when
    [failureThreshold] failures followed each other in it: a success in between starts the
    count again.  Until [openTimeout] has passed since the last failure it then refuses every request
    without changing; a request at or after that time passes and makes it half open; from
    there [successThreshold] successes in a row close it, fewer leave it half open, and a
    failure before that opens it again. *)
Theorem breaker_opens_and_recovers ss now outs ts t n :
  let cb0 := NewCircuitBreaker (map toOption ss) in
  let cb := recordAll now cb0 outs in
  let half := (Allow t cb).1.1 in
  0 <= now -> t < 2 ^ 63 -> openTimeout cb < 2 ^ 63 ->
  hasRun (Z.to_nat (failureThreshold cb0)) outs ->
  Forall (fun t => 0 <= t - now < openTimeout cb) ts -> openTimeout cb <= t - now ->
  0 <= n < successThreshold cb ->
  (forall short, bstate (recordAll now cb0 short) = StateOpen <-> hasRun (Z.to_nat (failureThreshold cb0)) short) /\
  allowAll cb ts = (replicate (length ts) false, cb) /\
  (Allow t cb).2 = true /\ bstate half = StateHalfOpen /\
  bstate (recordAll t half (replicate (Z.to_nat n) true)) = StateHalfOpen /\
  bstate (recordAll t half (replicate (Z.to_nat n) true ++ [false])) = StateOpen /\
  bstate (recordAll t half (replicate (Z.to_nat (successThreshold cb)) true)) = StateClosed.
Proof.
  intros cb0 cb half Hnow Ht Hot Hrun Hts Hto Hn. pose proof (NewCircuitBreaker_fresh ss) as Hf. fold cb0 in Hf.
  pose proof (recordAll_open_iff now cb0) as Hiff. split; [intros short; by apply Hiff|].
  destruct (recordAll_fields now outs cb0) as (E1 & E2 & E3). fold cb in E1, E2, E3.
  pose proof (proj2 (Hiff outs Hf) Hrun) as Hopen. fold cb in Hopen.
  assert (Hlast : lastFailure cb = now).
  { apply E3. apply (hasRun_false (Z.to_nat (failureThreshold cb0))); [|done]. destruct Hf as ((H & _) & _). lia. }
  split; [apply allowAll_blocked; [done | by rewrite Hlast | done]|].
  assert (Hcb : breaker_ok cb) by (destruct Hf as (H1 & H2 & H3); apply (recordAll_closed now cb0 outs H1 H2 H3)).
  assert (Eh : Allow t cb = (transition cb StateHalfOpen, true)).
  { unfold Allow. pose proof (proj1 (proj2 (proj2 Hcb))). rewrite Hopen, Hlast, i64_small by (split; lia).
    destruct (Z.leb_spec (openTimeout cb) (t - now)); [done | lia]. }
  unfold half. rewrite Eh. split; [done|]. split; [done|].
  apply (halfopen_outcomes t (transition cb StateHalfOpen).1); [|done|done|done].
  destruct Hcb as (Q1 & Q2 & Q3 & _). unfold breaker_ok. cbn. lia.
Qed.

Lemma breaker_opens_and_recovers_witness :
  (Allow 60 (recordAll 10 (NewCircuitBreaker (map toOption [FailureThreshold 2; OpenTimeout 50])) [false; true; false; false])).2 = true.
Proof.
  refine (proj1 (proj2 (proj2 (breaker_opens_and_recovers [FailureThreshold 2; OpenTimeout 50] 10 [false; true; false; false] [11; 59] 60 1
    _ _ _ _ _ _ _)))); try (vm_compute; repeat split; discriminate || reflexivity).
  - by exists [false; true], [].
  - repeat constructor; vm_compute; discriminate || reflexivity.
Defined.
(** *** The breaker by its history *)

(** The pattern without counters: the state, the outcomes recorded since it was entered,
    and when the last failure was. *)
Record history := mkHistory { hstate : state; since : list bool; failedAt : Z }.

(** The last [n] outcomes are all [ok]. *)
Definition lastRun (ok : bool) (n : Z) (l : list bool) : bool :=
  bool_decide (drop (length l - Z.to_nat n) l = replicate (Z.to_nat n) ok).

(** What a call shows: the answer of [Allow], and the state change it announces. *)
Definition shown : Type := option bool * option (state * state).
Definition observe (cb : CircuitBreaker) (e : event) : CircuitBreaker * shown :=
  match e with
  | EAllow now => let '(cb, notify, ok) := Allow now cb in (cb, (Some ok, notify))
  | _ => let '(cb, notify) := step cb e in (cb, (None, notify))
  end.

Definition enter (h : history) (to : state) : history * option (state * state) :=
  (mkHistory to [] (failedAt h), if bool_decide (hstate h = to) then None else Some (hstate h, to)).
Definition outcome (h : history) (ok : bool) : history := mkHistory (hstate h) (since h ++ [ok]) (failedAt h).

(** [cb0] gives the thresholds and the timeout. *)
Definition follow (cb0 : CircuitBreaker) (h : history) (e : event) : history * shown :=
  match e, hstate h with
  | EAllow t, StateOpen =>
      if openTimeout cb0 <=? t - failedAt h
      then let '(h, n) := enter h StateHalfOpen in (h, (Some true, n))
      else (h, (Some false, None))
  | EAllow _, _ => (h, (Some true, None))
  | ESuccess, StateHalfOpen =>
      let h := outcome h true in
      if lastRun true (successThreshold cb0) (since h)
      then let '(h, n) := enter h StateClosed in (h, (None, n)) else (h, (None, None))
  | ESuccess, _ => (outcome h true, (None, None))
  | EFailure t, StateClosed =>
      let h := outcome (mkHistory (hstate h) (since h) t) false in
      if lastRun false (failureThreshold cb0) (since h)
      then let '(h, n) := enter h StateOpen in (h, (None, n)) else (h, (None, None))
  | EFailure t, StateHalfOpen =>
      let '(h, n) := enter (mkHistory (hstate h) (since h) t) StateOpen in (h, (None, n))
  | EFailure t, StateOpen => (mkHistory (hstate h) (since h) t, (None, None))
  | EReset, _ => let '(h, n) := enter h StateClosed in (h, (None, n))
  end.

(** A sequence of calls, and all that they show. *)
Definition trace {A} (f : A -> event -> A * shown) (a : A) (es : list event) : A * list shown :=
  foldl (fun '(a, os) e => let '(a, o) := f a e in (a, os ++ [o])) (a, []) es.

Definition eventTime (e : event) : Z := match e with EAllow t | EFailure t => t | _ => 0 end.

Lemma lastRun_streak n l : lastRun false n l = (Z.to_nat n <=? streak l)%nat.
Proof.
  unfold lastRun. generalize (Z.to_nat n). clear n. intros n.
  destruct (Nat.leb_spec n (streak l)) as [Hle|Hgt]; [apply bool_decide_eq_true|apply bool_decide_eq_false].
  - destruct (streak_suffix l) as [pre E].
    assert (E' : l = (pre ++ replicate (streak l - n) false) ++ replicate n false).
    { rewrite <- app_assoc, <- replicate_add. rewrite E at 1. do 2 f_equal. lia. }
    rewrite E' at 2. rewrite E' at 1. rewrite length_app, length_replicate, Nat.add_sub. apply drop_app_length.
  - intros E. pose proof (streak_ge n (take (length l - n) l)) as Hs. rewrite <- E, take_drop in Hs. lia.
Qed.

Lemma lastRun_true n k : lastRun true n (replicate k true) = (Z.to_nat n <=? k)%nat.
Proof.
  unfold lastRun. generalize (Z.to_nat n). clear n. intros n. rewrite length_replicate, drop_replicate.
  destruct (Nat.leb_spec n k); [apply bool_decide_eq_true; f_equal; lia | apply bool_decide_eq_false].
  intros E. apply (f_equal length) in E. rewrite !length_replicate in E. lia.
Qed.

(** The counters of a breaker are runs of the history. *)
Record counts (cb0 cb : CircuitBreaker) (h : history) : Prop := {
  ct_ok : breaker_ok cb;
  ct_state : bstate cb = hstate h;
  ct_last : lastFailure cb = failedAt h;
  ct_config : failureThreshold cb = failureThreshold cb0 /\ successThreshold cb = successThreshold cb0 /\
    openTimeout cb = openTimeout cb0;
  ct_closed : hstate h = StateClosed -> failureCount cb = Z.of_nat (streak (since h));
  ct_half : hstate h = StateHalfOpen -> since h = replicate (Z.to_nat (successCount cb)) true;
  ct_time : 0 <= failedAt h < 2 ^ 63;
}.

#[local] Arguments streak : simpl never.

Lemma follow_step cb0 cb h e :
  counts cb0 cb h -> 0 <= eventTime e < 2 ^ 63 ->
  counts cb0 (observe cb e).1 (follow cb0 h e).1 /\ (observe cb e).2 = (follow cb0 h e).2.
Proof.
  intros [Hok Hst Hl (C1 & C2 & C3) Hc Hh Ht] He.
  destruct cb as [st fc sc ft sth ot lf], h as [hs l fa]. cbn in Hst, Hl, C1, C2, C3, Hc, Hh, Ht. subst st lf.
  pose proof Hok as (H1 & H2 & H3 & Hs). cbn in H1, H2, H3, Hs.
  assert (Hi : forall t, 0 <= t < 2 ^ 63 -> i64 (t - fa) = t - fa) by (intros; apply i64_small; lia).
  pose proof (proj1 (step_ok (mkBreaker hs fc sc ft sth ot fa) e Hok)) as Hok'.
  destruct e as [t| |t|], hs; unfold observe, follow, outcome; breaker; rewrite ?Hi, <- ?C1, <- ?C2, <- ?C3 by done.
  all: try (split; [constructor; cbn; auto; done | done]).
  - destruct (Z.leb_spec ot (t - fa)); cbn in *; (split; [constructor; cbn; auto; done | done]).
  - split; [|done]. constructor; cbn; auto; try done. intros _. by rewrite streak_snoc.
  - rewrite (Hh eq_refl). change [true] with (replicate 1 true). rewrite <- replicate_add, lastRun_true.
    revert Hok'. destruct (Z.leb_spec sth (sc + 1)), (Nat.leb_spec (Z.to_nat sth) (Z.to_nat sc + 1)); try lia; intros Hok'; cbn in *;
      (split; [constructor; cbn; auto; try done | done]).
    intros _. f_equal. lia.
  - rewrite lastRun_streak, streak_snoc, Hc by done.
    rewrite (Hc eq_refl) in Hok'. revert Hok'.
    destruct (Z.leb_spec ft (Z.of_nat (streak l) + 1)), (Nat.leb_spec (Z.to_nat ft) (S (streak l))); try lia; intros Hok'; cbn in *;
      (split; [constructor; cbn; auto; try done | done]).
    intros _. rewrite streak_snoc. lia.
Qed.

Lemma follow_trace cb0 es : forall cb h os,
  counts cb0 cb h -> Forall (fun e => 0 <= eventTime e < 2 ^ 63) es ->
  let out := foldl (fun '(a, os) e => let '(a, o) := observe a e in (a, os ++ [o])) (cb, os) es in
  let spec := foldl (fun '(a, os) e => let '(a, o) := follow cb0 a e in (a, os ++ [o])) (h, os) es in
  counts cb0 out.1 spec.1 /\ out.2 = spec.2.
Proof.
  induction es as [|e es IH]; intros cb h os Hc Hes; [done|]. inversion_clear Hes as [|? ? He Hes']. cbn [foldl].
  destruct (follow_step cb0 cb h e Hc He) as [Hc' Ho]. destruct (observe cb e) as [cb' o], (follow cb0 h e) as [h' o'].
  cbn in Hc', Ho. subst o'. by apply IH.
Qed.

(** C34: over any sequence of calls at any times (int64 nanoseconds), through any number of
    cycles and resets, a configured breaker shows what the pattern prescribes, which knows
    no counters but only what was recorded since the present state was entered.  It opens
    when the last [failureThreshold] outcomes since it closed are failures, a success in
    between making it wait for as many again; open, it refuses until [openTimeout] has
    passed since the last failure, whenever that was, and lets the first request after
    that through, half open; there the first failure opens it again and
    [successThreshold] successes close it.  The answers of [Allow], the announced state
    changes and the state agree, call by call. *)
Theorem breaker_follows_history ss es :
  Forall (fun e => 0 <= eventTime e < 2 ^ 63) es ->
  let cb0 := NewCircuitBreaker (map toOption ss) in
  let '(cb, os) := trace observe cb0 es in
  let '(h, os') := trace (follow cb0) (mkHistory StateClosed [] 0) es in
  os = os' /\ State cb = hstate h.
Proof.
  intros Hes cb0. pose proof (NewCircuitBreaker_fresh ss) as (Hok & Hst & Hf). fold cb0 in Hok, Hst, Hf.
  assert (Hl : lastFailure cb0 = 0).
  { unfold cb0, NewCircuitBreaker. set (b := mkBreaker _ _ _ _ _ _ _). assert (Hb : lastFailure b = 0) by done.
    clearbody b. clear -Hb. revert b Hb. induction ss as [|x ss IH]; intros b Hb; [done|]. apply IH.
    destruct x; cbn; [unfold WithFailureThreshold | unfold WithSuccessThreshold | unfold WithOpenTimeout]; by case_match. }
  assert (Hc : counts cb0 cb0 (mkHistory StateClosed [] 0)) by (constructor; cbn; auto; done).
  pose proof (follow_trace cb0 es cb0 _ [] Hc Hes) as [H1 H2]. unfold trace.
  destruct (foldl _ (cb0, []) es) as [cb os], (foldl _ (mkHistory _ _ _, []) es) as [h os'].
  cbn in H1, H2. split; [done | apply H1].
Qed.

(** Two cycles: after the first recovery it takes two failures again, and the timeout runs
    from the later of two failures. *)
Definition twoCycles : list event :=
  [EFailure 10; EFailure 20; EAllow 69; EAllow 70; ESuccess; ESuccess; EFailure 80; EAllow 81; EFailure 90;
   EFailure 120; EAllow 140; EAllow 170; EFailure 171; EAllow 200].

Lemma breaker_follows_history_witness :
  (trace observe (NewCircuitBreaker (map toOption [FailureThreshold 2; OpenTimeout 50])) twoCycles).2 =
    [(None, None); (None, Some (StateClosed, StateOpen)); (Some false, None); (Some true, Some (StateOpen, StateHalfOpen));
     (None, None); (None, Some (StateHalfOpen, StateClosed)); (None, None); (Some true, None);
     (None, Some (StateClosed, StateOpen)); (None, None); (Some false, None); (Some true, Some (StateOpen, StateHalfOpen));
     (None, Some (StateHalfOpen, StateOpen)); (Some false, None)].
Proof.
  assert (H : Forall (fun e => 0 <= eventTime e < 2 ^ 63) twoCycles) by (repeat constructor; cbn; lia).
  pose proof (breaker_follows_history [FailureThreshold 2; OpenTimeout 50] twoCycles H) as Hb.
  cbv zeta in Hb. destruct (trace observe _ _) as [cb os], (trace (follow _) _ _) as [h os'] eqn:E. destruct Hb as [-> _].
  vm_compute in E. injection E as _ <-. reflexivity.
Defined.
End Breaker.

Module Search.
(** ** Binary search (search.go) *)

(** One test of the loop condition per unit of fuel; [int] arithmetic wraps, and [>> 1] is
    an arithmetic shift. *)
Fixpoint BinarySearch (fuel : nat) (l r : Z) (f : Z -> bool) : option Z :=
  match fuel with
  | O => None
  | S fuel =>
      if l <=? r then
        let mid := i64 (l + Z.shiftr (i64 (r - l)) 1) in
        if f mid then BinarySearch fuel l (i64 (mid - 1)) f else BinarySearch fuel (i64 (mid + 1)) r f
      else Some l
  end.

Lemma BinarySearch_S fuel l r f :
  BinarySearch (S fuel) l r f =
  if l <=? r then
    let mid := i64 (l + Z.shiftr (i64 (r - l)) 1) in
    if f mid then BinarySearch fuel l (i64 (mid - 1)) f else BinarySearch fuel (i64 (mid + 1)) r f
  else Some l.
Proof. done. Qed.

(** The interval is at least halved in every round. *)
Lemma BinarySearch_spec f fuel : forall l r,
  - 2 ^ 63 < l -> l <= r + 1 -> r < 2 ^ 63 - 1 -> r - l < 2 ^ 63 -> r - l + 1 < 2 ^ Z.of_nat fuel ->
  (forall a b, l <= a -> a <= b -> b <= r -> f a = true -> f b = true) ->
  exists i, BinarySearch (S fuel) l r f = Some i /\ l <= i <= r + 1 /\
    (forall j, l <= j < i -> f j = false) /\ (forall j, i <= j <= r -> f j = true).
Proof.
  induction fuel as [|fuel IH]; intros l r Hl Hlr Hr Hd Hf Hm; rewrite BinarySearch_S; cbn zeta.
  { cbn in Hf. destruct (Z.leb_spec l r); [lia|]. exists l. split; [done|]. split; [lia|]. split; intros; lia. }
  destruct (Z.leb_spec l r) as [Hle|Hgt];
    [|exists l; split; [done|]; split; [lia|]; split; intros; lia].
  rewrite (i64_small (r - l)) by lia. rewrite Z.shiftr_div_pow2 by lia. change (2 ^ 1) with 2.
  assert (Hmid : l <= l + (r - l) / 2 <= r) by dlia. rewrite (i64_small (l + _)) by lia.
  assert (Hhalf : 2 * ((r - l) / 2) <= r - l <= 2 * ((r - l) / 2) + 1) by dlia.
  set (mid := l + (r - l) / 2) in *. assert (Ep : 2 ^ Z.of_nat (S fuel) = 2 * 2 ^ Z.of_nat fuel).
  { rewrite Nat2Z.inj_succ, Z.pow_succ_r by lia. done. }
  rewrite !i64_small by lia. destruct (f mid) eqn:Ef.
  - destruct (IH l (mid - 1)) as (i & E & Hi & H1 & H2); try lia.
    { intros a b ? ? ? Ha. apply (Hm a b); auto with lia. }
    exists i. split; [exact E|]. split; [lia|]. split; [done|]. intros j Hj. destruct (Z.lt_ge_cases j mid).
    + apply H2. lia.
    + apply (Hm mid j); auto with lia.
  - destruct (IH (mid + 1) r) as (i & E & Hi & H1 & H2); try lia.
    { intros a b ? ? ? Ha. apply (Hm a b); auto with lia. }
    exists i. split; [exact E|]. split; [lia|]. split; [|done]. intros j Hj. destruct (Z.lt_ge_cases mid j).
    + apply H1. lia.
    + destruct (f j) eqn:Ej; [|done]. rewrite (Hm j mid) in Ef; auto with lia.
Qed.

(** C38: Over a range within [int] that does not touch its ends and is shorter than [2^63],
    the search ends within 64 rounds with the first index of the range at which the
    monotone condition holds, or with [r + 1] when it holds nowhere; over an empty range
    ([r < l], whatever the ends) it gives [l] at once.  ([BinarySearch_wraps] is what
    happens at the lowest [int].) *)
Theorem BinarySearch_finds_first l r f :
  (l <= r -> - 2 ^ 63 < l /\ r < 2 ^ 63 - 1 /\ r - l < 2 ^ 63) ->
  (forall a b, l <= a -> a <= b -> b <= r -> f a = true -> f b = true) ->
  exists i, BinarySearch 65 l r f = Some i /\ l <= i <= Z.max l (r + 1) /\
    (forall j, l <= j < i -> f j = false) /\ (forall j, i <= j <= r -> f j = true).
Proof.
  intros Hr Hf. destruct (Z.leb_spec l r) as [Hle|Hgt].
  - destruct (Hr Hle) as (? & ? & ?). rewrite Z.max_r by lia.
    apply BinarySearch_spec; try done; [lia|]. change (Z.of_nat 64) with 64. lia.
  - exists l. rewrite BinarySearch_S. destruct (Z.leb_spec l r); [lia|]. split_and!; [done | lia | lia | intros; lia | intros; lia].
Qed.

Lemma BinarySearch_finds_first_witness :
  exists i, BinarySearch 65 0 9 (fun x => 20 <=? x * x) = Some i /\ 0 <= i <= Z.max 0 (9 + 1) /\
    (forall j, 0 <= j < i -> (20 <=? j * j) = false) /\ (forall j, i <= j <= 9 -> (20 <=? j * j) = true).
Proof.
  apply (BinarySearch_finds_first 0 9 (fun x => 20 <=? x * x)); [lia|].
  intros a b Ha Hab Hb H. apply Z.leb_le in H. apply Z.leb_le. nia.
Defined.

(** At the lowest [int] the upper end wraps around and the search never ends. *)
Lemma BinarySearch_wraps fuel : BinarySearch fuel (- 2 ^ 63) (- 2 ^ 63) (fun _ => true) = None.
Proof.
  assert (H : forall n, BinarySearch n (- 2 ^ 63) (2 ^ 63 - 2) (fun _ => true) = None).
  { induction n as [|n IH]; [done|]. rewrite BinarySearch_S. exact IH. }
  do 2 (destruct fuel as [|fuel]; [done|]). rewrite !BinarySearch_S. apply H.
Qed.
End Search.

Module Victim.
(** ** Sampled eviction (lfu.go, lru.go)

    The results of [rand.Intn(n)] are the list [picks]. *)

Record LFUEntry := mkLFU { Key : Z; Counter : Z }.
Record LRUEntry := mkLRU { LKey : Z; LastAccess : Z }.
Definition defaultLFUSampleSize : Z := 5.
Definition defaultLRUSampleSize : Z := 5.

(** [None]: indexing an empty slice. *)
Definition findLeastFrequent (entries : list LFUEntry) : option LFUEntry :=
  match entries with
  | [] => None
  | least :: rest => Some (foldl (fun least e => if Counter e <? Counter least then e else least) least rest)
  end.
Definition findOldest (entries : list LRUEntry) : option LRUEntry :=
  match entries with
  | [] => None
  | oldest :: rest => Some (foldl (fun oldest e => if LastAccess e <? LastAccess oldest then e else oldest) oldest rest)
  end.

(** The outer [option] is a panic; an empty pool gives the zero entry and [false]. *)
Definition SelectLFUVictim (picks : list Z) (pool : list LFUEntry) (sampleSize : Z) : option (LFUEntry * bool) :=
  let n := zlen pool in
  if n =? 0 then Some (mkLFU 0 0, false)
  else
    let sampleSize := if sampleSize <=? 0 then defaultLFUSampleSize else sampleSize in
    if n <=? sampleSize then e ← findLeastFrequent pool; Some (e, true)
    else
      sample ← mapM (zget pool) (ztake sampleSize picks);
      e ← findLeastFrequent sample; Some (e, true).
Definition SelectLRUVictim (picks : list Z) (pool : list LRUEntry) (sampleSize : Z) : option (LRUEntry * bool) :=
  let n := zlen pool in
  if n =? 0 then Some (mkLRU 0 0, false)
  else
    let sampleSize := if sampleSize <=? 0 then defaultLRUSampleSize else sampleSize in
    if n <=? sampleSize then e ← findOldest pool; Some (e, true)
    else
      sample ← mapM (zget pool) (ztake sampleSize picks);
      e ← findOldest sample; Some (e, true).

(** The scan both use: a least element by a measure. *)
Definition scan {A} (m : A -> Z) (x : A) (l : list A) : A := foldl (fun a e => if m e <? m a then e else a) x l.

Lemma scan_min {A} (m : A -> Z) l : forall x,
  scan m x l ∈ x :: l /\ Forall (fun y => m (scan m x l) <= m y) (x :: l).
Proof.
  induction l as [|y l IH]; intros x.
  - cbn. split; [left | constructor; [lia | constructor]].
  - change (scan m x (y :: l)) with (scan m (if m y <? m x then y else x) l).
    destruct (Z.ltb_spec (m y) (m x)) as [Hlt|Hge]; [destruct (IH y) as [Hin Hall] | destruct (IH x) as [Hin Hall]];
      inversion_clear Hall as [|? ? Hx Hl].
    + split; [by right | repeat constructor; [lia | done | done]].
    + split; [apply elem_of_cons in Hin as [->|Hin]; [left | by do 2 right] | repeat constructor; [done | lia | done]].
Qed.

(** What a caller may rely on: the victim is an entry of the pool, and no entry it was
    compared with is smaller; with a sample that covers the pool that is every entry. *)
Definition leastIn {A} (m : A -> Z) (pool : list A) (size : Z) (e : A) : Prop :=
  e ∈ pool /\
  exists seen, seen ⊆ pool /\ zlen seen = Z.min size (zlen pool) /\ Forall (fun y => m e <= m y) seen /\
    (zlen pool <= size -> seen = pool).

Lemma leastIn_pool {A} (m : A -> Z) x l size : zlen (x :: l) <= size -> leastIn m (x :: l) size (scan m x l).
Proof.
  intros Hs. destruct (scan_min m l x) as [Hin Hall]. split; [done|]. exists (x :: l). split_and!; [done|lia|done|done].
Qed.

Section select.
Context {A : Type} (m : A -> Z) (find : list A -> option A).
Context (find_scan : forall x l, find (x :: l) = Some (scan m x l)).

(** Sampling finds a pool entry that is least among the sampled ones. *)
Lemma sample_min (pool : list A) (picks : list Z) :
  picks <> [] -> Forall (fun i => 0 <= i < zlen pool) picks ->
  exists sample e, mapM (zget pool) picks = Some sample /\ find sample = Some e /\
    e ∈ pool /\ length sample = length picks /\ sample ⊆ pool /\ Forall (fun y => m e <= m y) sample.
Proof.
  intros Hne Hp.
  assert (exists sample, mapM (zget pool) picks = Some sample) as [sample Es].
  { apply mapM_is_Some_2. eapply Forall_impl; [|exact Hp]. cbn. intros i Hi. unfold zget.
    rewrite bool_decide_true by lia. apply lookup_lt_is_Some. unfold zlen in Hi. lia. }
  assert (Hsub : sample ⊆ pool).
  { apply mapM_Some in Es. intros x Hx. apply list_elem_of_lookup in Hx as [k Hk].
    destruct (Forall2_lookup_r _ _ _ _ _ Es Hk) as (i & _ & Hi). unfold zget in Hi. case_match; [|done].
    by apply list_elem_of_lookup_2 in Hi. }
  pose proof (length_mapM _ _ _ Es) as Hlen. destruct sample as [|x l]; [by destruct picks|].
  destruct (scan_min m l x) as [Hin Hall]. exists (x :: l), (scan m x l). rewrite find_scan. split_and!; auto.
Qed.

(** Both policies are this selection. *)
Definition select (zero : A) (picks : list Z) (pool : list A) (sampleSize : Z) : option (A * bool) :=
  let n := zlen pool in
  if n =? 0 then Some (zero, false)
  else
    let sampleSize := if sampleSize <=? 0 then 5 else sampleSize in
    if n <=? sampleSize then e ← find pool; Some (e, true)
    else
      sample ← mapM (zget pool) (ztake sampleSize picks);
      e ← find sample; Some (e, true).

Lemma select_least zero picks pool size :
  let size' := if size <=? 0 then 5 else size in
  pool <> [] -> size' <= zlen picks -> Forall (fun i => 0 <= i < zlen pool) picks ->
  exists e, select zero picks pool size = Some (e, true) /\ leastIn m pool size' e.
Proof.
  intros size' Hne Hs Hp. unfold select. fold size'. assert (Hpos : 0 < size') by (unfold size'; case_match; lia).
  destruct pool as [|x l]; [done|]. destruct (Z.eqb_spec (zlen (x :: l)) 0) as [E|_]; [by unfold zlen in E|].
  destruct (Z.leb_spec (zlen (x :: l)) size') as [Hle|Hgt].
  - rewrite find_scan. exists (scan m x l). split; [done|]. by apply leastIn_pool.
  - destruct (sample_min (x :: l) (ztake size' picks)) as (sample & e & E1 & E2 & Hin & Hlen & Hsub & Hall).
    + intros E. apply (f_equal length) in E. lens. cbn in E. lia.
    + by apply Forall_take.
    + exists e. rewrite E1. cbn. rewrite E2. split; [done|]. split; [done|]. exists sample. split_and!; [done| |done|lia].
      rewrite Z.min_l by lia. unfold zlen. rewrite Hlen. lens. lia.
Qed.
End select.

(** With any random draws in range, both eviction policies return an entry of a non-empty
    pool: the least frequently used, respectively the least recently used, of a sample of
    the requested size (5 when none is given), and of the whole pool when the sample would
    cover it; an empty pool gives [false]. *)
Theorem victims_are_least (fpool : list LFUEntry) (rpool : list LRUEntry) picks size :
  let size' := if size <=? 0 then 5 else size in
  fpool <> [] -> rpool <> [] -> size' <= zlen picks ->
  Forall (fun i => 0 <= i < Z.min (zlen fpool) (zlen rpool)) picks ->
  (exists e, SelectLFUVictim picks fpool size = Some (e, true) /\ leastIn Counter fpool size' e) /\
  (exists e, SelectLRUVictim picks rpool size = Some (e, true) /\ leastIn LastAccess rpool size' e) /\
  SelectLFUVictim picks [] size = Some (mkLFU 0 0, false) /\
  SelectLRUVictim picks [] size = Some (mkLRU 0 0, false).
Proof.
  intros size' Hf Hr Hs Hp. split_and!; [| |done|done].
  - apply (select_least Counter findLeastFrequent (fun _ _ => eq_refl) (mkLFU 0 0)); [done|done|].
    eapply Forall_impl; [|exact Hp]. cbn. lia.
  - apply (select_least LastAccess findOldest (fun _ _ => eq_refl) (mkLRU 0 0)); [done|done|].
    eapply Forall_impl; [|exact Hp]. cbn. lia.
Qed.

Lemma victims_are_least_witness :
  exists e, SelectLFUVictim [1; 2] [mkLFU 1 9; mkLFU 2 4; mkLFU 3 7] 2 = Some (e, true) /\
    leastIn Counter [mkLFU 1 9; mkLFU 2 4; mkLFU 3 7] 2 e.
Proof.
  apply (victims_are_least [mkLFU 1 9; mkLFU 2 4; mkLFU 3 7] [mkLRU 1 9; mkLRU 2 4; mkLRU 3 7] [1; 2] 2);
    [discriminate | discriminate | vm_compute; discriminate | repeat constructor; vm_compute; discriminate || reflexivity].
Defined.
End Victim.

Module Backoff.
(** ** Retry delays (backoff.go)

    Durations are 64-bit nanosecond counts.  [rand.Int63n(n)] is the parameter [draw];
    it panics for [n <= 0]. *)

Definition defaultInitialDelay : Z := 100 * 1000000.
Definition defaultMaxDelay : Z := 30 * 1000000000.

Record ConstantBackoff := mkConstant { delay : Z }.
Definition NewConstantBackoff (d : Z) : ConstantBackoff :=
  mkConstant (if d <=? 0 then defaultInitialDelay else d).
Definition ConstantBackoff_Delay (b : ConstantBackoff) (attempt : Z) : Z := delay b.

Record LinearBackoff := mkLinear { initial : Z; max : Z }.
Definition NewLinearBackoff (initial max : Z) : LinearBackoff :=
  mkLinear (if initial <=? 0 then defaultInitialDelay else initial) (if max <=? 0 then defaultMaxDelay else max).
Definition LinearBackoff_Delay (b : LinearBackoff) (attempt : Z) : Z :=
  let d := i64 (initial b * i64 (attempt + 1)) in
  if max b <? d then max b else d.

(** The [Backoff] interface. *)
Class Backoff (B : Type) := Delay : B -> Z -> option Z.
#[export] Instance ConstantBackoff_Backoff : Backoff ConstantBackoff := fun b n => Some (ConstantBackoff_Delay b n).
#[export] Instance LinearBackoff_Backoff : Backoff LinearBackoff := fun b n => Some (LinearBackoff_Delay b n).

Record JitterBackoff (B : Type) := NewJitterBackoff { inner : B }.
#[global] Arguments NewJitterBackoff {B}.
#[global] Arguments inner {B}.

(** [None] is the panic of [rand.Int63n]. *)
Definition JitterBackoff_Delay {B} `{Backoff B} (draw : Z -> Z) (b : JitterBackoff B) (attempt : Z) : option Z :=
  d ← Delay (inner b) attempt;
  let half := godiv d 2 in
  let n := i64 (half + 1) in
  if n <=? 0 then None else Some (i64 (half + draw n)).

(** As long as [initial * (attempt + 1)] fits 64 bits, the linear delay is that product capped at the
    maximum: positive, and never smaller for a later attempt.  Jitter over any delay that
    is not negative moves it within its upper half, between [d / 2] and [d], whatever is
    drawn. *)
Theorem backoff_delays_bounded {B} `{Backoff B} (draw : Z -> Z) (b : B) (d ini mx n m : Z) :
  0 <= n <= m -> initial (NewLinearBackoff ini mx) * (m + 1) < 2 ^ 63 ->
  (forall k, 0 < k -> 0 <= draw k < k) -> Delay b n = Some d -> 0 <= d < 2 ^ 63 ->
  let lb := NewLinearBackoff ini mx in
  LinearBackoff_Delay lb n = Z.min (max lb) (initial lb * (n + 1)) /\
  0 < LinearBackoff_Delay lb n <= LinearBackoff_Delay lb m /\ LinearBackoff_Delay lb m <= max lb /\
  exists j, JitterBackoff_Delay draw (NewJitterBackoff b) n = Some j /\ d / 2 <= j <= d.
Proof.
  intros Hn Hfit Hdraw Hb Hd lb. fold lb in Hfit.
  assert (Hi : 0 < initial lb) by (unfold lb, NewLinearBackoff, defaultInitialDelay; cbn [initial]; clear; zb; lia).
  assert (Hm : 0 < max lb) by (unfold lb, NewLinearBackoff, defaultMaxDelay; cbn [max]; clear; zb; lia).
  assert (E : forall k, 0 <= k <= m -> LinearBackoff_Delay lb k = Z.min (max lb) (initial lb * (k + 1))).
  { intros k Hk. unfold LinearBackoff_Delay. assert (initial lb * (k + 1) <= initial lb * (m + 1)) by nia.
    assert (1 * (m + 1) <= initial lb * (m + 1)) by nia. assert (0 < initial lb * (k + 1)) by nia. rewrite (i64_small (k + 1)), i64_small by lia.
    destruct (Z.ltb_spec (max lb) (initial lb * (k + 1))); lia. }
  rewrite !E by lia. split; [done|]. split; [nia|]. split; [lia|].
  unfold JitterBackoff_Delay. cbn. rewrite Hb. cbn. unfold godiv. rewrite Z.quot_div_nonneg by lia.
  pose proof (Hdraw (d / 2 + 1) ltac:(dlia)). rewrite (i64_small (d / 2 + 1)) by dlia.
  destruct (Z.leb_spec (d / 2 + 1) 0); [dlia|]. rewrite i64_small by dlia. eexists. split; [done|]. dlia.
Qed.

Lemma backoff_delays_bounded_witness :
  exists j, JitterBackoff_Delay (fun _ => 0) (NewJitterBackoff (NewLinearBackoff 10 25)) 1 = Some j /\ 20 / 2 <= j <= 20.
Proof.
  apply (backoff_delays_bounded (fun _ => 0) (NewLinearBackoff 10 25) 20 10 25 1 7);
    [lia | vm_compute; reflexivity | intros k Hk; lia | reflexivity | lia].
Defined.

(** Past 64 bits the product wraps to a negative delay, below the cap, and jitter over it
    panics: with the defaults from the attempt [92233720368]. *)
Lemma linear_backoff_overflows draw :
  let lb := NewLinearBackoff 0 0 in
  LinearBackoff_Delay lb 92233720368 < 0 /\ JitterBackoff_Delay draw (NewJitterBackoff lb) 92233720368 = None.
Proof. split; reflexivity. Qed.
End Backoff.
