(* ===== verification/Lcs.v ===== *)
(** * Lcs: longest common subsequence (src/pkg/algorithm/lcs.go)

    A string is its bytes.  The table [dp] is a list of rows; [None] is an index out of
    range. *)
From stdpp Require Import base list option.
From Stdlib Require Import ZArith Lia.
From S2P Require Import Prelude.

Definition table := list (list Z).
Definition dget (dp : table) (i j : Z) : option Z := row ← zget dp i; zget row j.
Definition dset (dp : table) (i j v : Z) : option table :=
  row ← zget dp i; row ← zset row j v; zset dp i row.

(** The body of the inner loop. *)
Definition cell (s1 s2 : list byte) (i j : Z) (dp : table) : option table :=
  a ← zget s1 (i - 1); b ← zget s2 (j - 1);
  if a =? b then d ← dget dp (i - 1) (j - 1); dset dp i j (d + 1)
  else
    up ← dget dp (i - 1) j;
    dp ← dset dp i j up;
    left ← dget dp i (j - 1); cur ← dget dp i j;
    if cur <? left then dset dp i j left else Some dp.

(** [for x := x; x <= n; x++]: [k] is the number of rounds left. *)
Fixpoint forUp {A} (k : nat) (x : Z) (f : Z -> A -> option A) (a : A) : option A :=
  match k with
  | O => Some a
  | S k => a ← f x a; forUp k (x + 1) f a
  end.

Definition fill (s1 s2 : list byte) (dp : table) : option table :=
  forUp (length s1) 1 (fun i dp => forUp (length s2) 1 (fun j dp => cell s1 s2 i j dp) dp) dp.

(** The walk back through the table; every round lowers [i + j]. *)
Fixpoint backtrack (fuel : nat) (s1 s2 : list byte) (dp : table) (i j k : Z) (res : list byte) : option (list byte) :=
  match fuel with
  | O => None
  | S fuel =>
      if (0 <? i) && (0 <? j) then
        a ← zget s1 (i - 1); b ← zget s2 (j - 1);
        if a =? b then
          res ← zset res k a; backtrack fuel s1 s2 dp (i - 1) (j - 1) (k - 1) res
        else
          up ← dget dp (i - 1) j; left ← dget dp i (j - 1);
          if left <? up then backtrack fuel s1 s2 dp (i - 1) j k res
          else backtrack fuel s1 s2 dp i (j - 1) k res
      else Some res
  end.

Definition LCS (s1 s2 : list byte) : option (list byte) :=
  let n1 := zlen s1 in
  let n2 := zlen s2 in
  if (n1 =? 0) || (n2 =? 0) then Some []
  else
    dp ← fill s1 s2 (replicate (S (length s1)) (zeros (n2 + 1)));
    total ← dget dp n1 n2;
    let res := zeros total in
    backtrack (S (length s1 + length s2)) s1 s2 dp n1 n2 (zlen res - 1) res.

Example LCS_abc : LCS [97; 98; 99; 98; 100; 97; 98] [98; 100; 99; 97; 98; 97] = Some [98; 100; 97; 98].
Proof. reflexivity. Qed.

(** *** Specification *)

Definition common (t p q : list byte) : Prop := t `sublist_of` p /\ t `sublist_of` q.
Definition isLcs (n : Z) (p q : list byte) : Prop :=
  (exists t, common t p q /\ zlen t = n) /\ (forall t, common t p q -> zlen t <= n).

Lemma sublist_snoc (t p : list byte) x :
  t `sublist_of` p ++ [x] <-> t `sublist_of` p \/ exists t', t = t' ++ [x] /\ t' `sublist_of` p.
Proof.
  rewrite sublist_app_r. split.
  - intros (t1 & t2 & -> & H1 & H2). apply sublist_cons_r in H2 as [H2|(t' & -> & H2)].
    + apply sublist_nil_r in H2 as ->. rewrite app_nil_r. by left.
    + apply sublist_nil_r in H2 as ->. right. by exists t1.
  - intros [H|(t' & -> & H)].
    + exists t, []. rewrite app_nil_r. split_and!; [done|done|apply sublist_nil_l].
    + by exists t', [x].
Qed.

Lemma isLcs_nil_l q : isLcs 0 [] q.
Proof.
  split; [exists []; split; [split; apply sublist_nil_l | done]|]. intros t [H _]. by apply sublist_nil_r in H as ->.
Qed.
Lemma isLcs_nil_r p : isLcs 0 p [].
Proof.
  split; [exists []; split; [split; apply sublist_nil_l | done]|]. intros t [_ H]. by apply sublist_nil_r in H as ->.
Qed.

Lemma zlen_snoc {A} (t : list A) x : zlen (t ++ [x]) = zlen t + 1.
Proof. lens. lia. Qed.

(** Equal last bytes extend the subsequence; different ones make one of them useless. *)
Lemma isLcs_eq n p q x : isLcs n p q -> isLcs (n + 1) (p ++ [x]) (q ++ [x]).
Proof.
  intros [(t & [H1 H2] & Hn) Hmax]. split.
  - exists (t ++ [x]). rewrite zlen_snoc, Hn. split; [|done]. split; apply sublist_snoc; right; by exists t.
  - intros u [U1 U2]. assert (0 <= n) by (rewrite <- Hn; unfold zlen; lia).
    apply sublist_snoc in U1 as [U1|(u' & -> & U1)].
    + apply sublist_snoc in U2 as [U2|(u2 & -> & U2)].
      * pose proof (Hmax u (conj U1 U2)). lia.
      * rewrite zlen_snoc. assert (common u2 p q) as Hc%Hmax; [split; [|done]|lia].
        etrans; [|exact U1]. by apply sublist_inserts_r.
    + rewrite zlen_snoc. apply sublist_snoc in U2 as [U2|(u2 & E & U2)].
      * assert (common u' p q) as Hc%Hmax; [split; [done|]|lia]. etrans; [|exact U2]. by apply sublist_inserts_r.
      * apply app_inj_tail in E as [-> _]. pose proof (Hmax u2 (conj U1 U2)). lia.
Qed.

Lemma isLcs_ne a b p q x y :
  x <> y -> isLcs a p (q ++ [y]) -> isLcs b (p ++ [x]) q -> isLcs (Z.max a b) (p ++ [x]) (q ++ [y]).
Proof.
  intros Hxy [(t & [H1 H2] & Ha) Hmaxa] [(u & [U1 U2] & Hb) Hmaxb]. split.
  - destruct (Z.max_spec a b) as [[_ ->]|[_ ->]].
    + exists u. split; [|done]. split; [done|]. apply sublist_snoc. by left.
    + exists t. split; [|done]. split; [|done]. apply sublist_snoc. by left.
  - intros w [W1 W2]. pose proof W1 as W1'. pose proof W2 as W2'.
    apply sublist_snoc in W1 as [W1|(w1 & -> & W1)]; [pose proof (Hmaxa w (conj W1 W2)); lia|].
    apply sublist_snoc in W2 as [W2|(w2 & E & W2)]; [pose proof (Hmaxb (w1 ++ [x]) (conj W1' W2)); lia|].
    by apply app_inj_tail in E as [_ ->].
Qed.

(** *** The table *)

Lemma forUp_ind {A} (P : Z -> A -> Prop) f k : forall x a,
  P x a -> (forall y a, x <= y < x + Z.of_nat k -> P y a -> exists a', f y a = Some a' /\ P (y + 1) a') ->
  exists a', forUp k x f a = Some a' /\ P (x + Z.of_nat k) a'.
Proof.
  induction k as [|k IH]; intros x a Ha Hf; cbn [forUp].
  - exists a. split; [done|]. by rewrite Z.add_0_r.
  - destruct (Hf x a ltac:(lia) Ha) as (a1 & -> & Ha1). cbn.
    destruct (IH (x + 1) a1 Ha1) as (a2 & -> & Ha2); [intros y b Hy; apply Hf; lia|].
    exists a2. split; [done|]. replace (x + Z.of_nat (S k)) with (x + 1 + Z.of_nat k) by lia. done.
Qed.

Section table.
Context (s1 s2 : list byte).
Abbreviation n1 := (zlen s1).
Abbreviation n2 := (zlen s2).

Definition shape (dp : table) : Prop := zlen dp = n1 + 1 /\ Forall (fun row => zlen row = n2 + 1) dp.

(** The cells before [(i, j)] in row order, and the zero row and column, are right. *)
Definition filled (dp : table) (i j : Z) : Prop :=
  forall i' j', 0 <= i' <= n1 -> 0 <= j' <= n2 -> i' < i \/ i' = i /\ j' < j \/ i' = 0 \/ j' = 0 ->
  exists v, dget dp i' j' = Some v /\ isLcs v (ztake i' s1) (ztake j' s2).

Lemma dset_spec dp i j v :
  shape dp -> 0 <= i <= n1 -> 0 <= j <= n2 ->
  exists dp', dset dp i j v = Some dp' /\ shape dp' /\
    forall i' j', dget dp' i' j' = if (i' =? i) && (j' =? j) then Some v else dget dp i' j'.
Proof.
  intros [Hlen Hrows] Hi Hj. unfold dset. destruct (zget_Some dp i) as [row Er]; [lia|]. rewrite Er. cbn.
  assert (Hrow : zlen row = n2 + 1).
  { unfold zget in Er. rewrite bool_decide_true in Er by lia. by apply (Forall_lookup_1 _ _ _ _ Hrows Er). }
  pose proof (zset_Some row j v ltac:(lia)) as Er'. rewrite Er'. cbn.
  pose proof (zset_Some dp i (<[Z.to_nat j := v]> row) ltac:(lia)) as Ed. rewrite Ed.
  eexists. split; [done|]. split.
  - split; [by rewrite (proj1 (zset_get _ _ _ _ 0 Ed))|].
    apply Forall_insert; [done|]. by rewrite (proj1 (zset_get _ _ _ _ 0 Er')).
  - intros i' j'. unfold dget. rewrite (proj2 (zset_get _ _ _ _ i' Ed)). destruct (Z.eqb_spec i' i) as [->|Hne]; [|done].
    cbn. rewrite (proj2 (zset_get _ _ _ _ j' Er')), Er. cbn. done.
Qed.

Lemma ztake_snoc (l : list byte) i x : 1 <= i -> zget l (i - 1) = Some x -> ztake i l = ztake (i - 1) l ++ [x].
Proof.
  intros Hi. unfold zget, ztake. rewrite bool_decide_true by lia. intros Hx.
  replace (Z.to_nat i) with (S (Z.to_nat (i - 1))) by lia. by apply take_S_r.
Qed.

Lemma cell_filled dp i j :
  shape dp -> 1 <= i <= n1 -> 1 <= j <= n2 -> filled dp i j ->
  exists dp', cell s1 s2 i j dp = Some dp' /\ shape dp' /\ filled dp' i (j + 1).
Proof.
  intros Hsh Hi Hj Hf. unfold cell.
  destruct (zget_Some s1 (i - 1)) as [a Ea]; [lia|]. destruct (zget_Some s2 (j - 1)) as [b Eb]; [lia|].
  rewrite Ea, Eb. cbn.
  assert (Hset : forall v d, shape d -> (forall i' j', dget d i' j' = dget dp i' j' \/ i' = i /\ j' = j) ->
    isLcs v (ztake i s1) (ztake j s2) ->
    exists dp', dset d i j v = Some dp' /\ shape dp' /\ filled dp' i (j + 1)).
  { intros v d Hd Hsame Hv. destruct (dset_spec d i j v Hd) as (dp' & E & Hsh' & Hg); [lia|lia|].
    exists dp'. split; [done|]. split; [done|]. intros i' j' Hi' Hj' Hc. rewrite Hg.
    destruct (Z.eqb_spec i' i) as [->|]; [destruct (Z.eqb_spec j' j) as [->|]|]; cbn; [by exists v| |];
      (destruct (Hsame i' j') as [->|[? ?]] || destruct (Hsame i j') as [->|[? ?]]); try lia; apply Hf; lia. }
  pose proof (ztake_snoc s1 i a ltac:(lia) Ea) as T1. pose proof (ztake_snoc s2 j b ltac:(lia) Eb) as T2.
  destruct (Z.eqb_spec a b) as [<-|Hab].
  - destruct (Hf (i - 1) (j - 1)) as (v & Ev & Hv); [lia|lia|lia|]. rewrite Ev. cbn.
    apply Hset; [done|by left|]. rewrite T1, T2. by apply isLcs_eq.
  - destruct (Hf (i - 1) j) as (up & Eu & Hup); [lia|lia|lia|]. rewrite Eu. cbn.
    destruct (Hf i (j - 1)) as (left & El & Hleft); [lia|lia|lia|].
    assert (Hmax : isLcs (Z.max up left) (ztake i s1) (ztake j s2)).
    { rewrite T1, T2. apply isLcs_ne; [done|by rewrite <- T2|by rewrite <- T1]. }
    destruct (dset_spec dp i j up Hsh) as (dp1 & E1 & Hsh1 & Hg); [lia|lia|]. rewrite E1. cbn.
    rewrite (Hg i (j - 1)), (Hg i j), !Z.eqb_refl. destruct (Z.eqb_spec (j - 1) j); [lia|]. cbn. rewrite El. cbn.
    destruct (Z.ltb_spec up left).
    + apply Hset; [done| |by rewrite Z.max_r in Hmax by lia]. intros i' j'. rewrite Hg.
      destruct (Z.eqb_spec i' i); [|by left]. destruct (Z.eqb_spec j' j); [by right|by left].
    + rewrite Z.max_l in Hmax by lia. destruct (Hset up dp Hsh) as (dp2 & E2 & H2); [by left|done|].
      assert (dp2 = dp1) as -> by congruence. by exists dp1.
Qed.

Lemma fill_filled dp :
  shape dp -> filled dp 1 1 -> exists dp', fill s1 s2 dp = Some dp' /\ shape dp' /\ filled dp' (n1 + 1) 1.
Proof.
  intros Hsh Hf. unfold fill.
  destruct (forUp_ind (fun i dp => shape dp /\ filled dp i 1)
    (fun i dp => forUp (length s2) 1 (fun j dp => cell s1 s2 i j dp) dp) (length s1) 1 dp (conj Hsh Hf))
    as (dp' & E & Hsh' & Hf').
  - intros i d Hi [Hd Hfd].
    destruct (forUp_ind (fun j dp => shape dp /\ filled dp i j) (fun j dp => cell s1 s2 i j dp) (length s2) 1 d (conj Hd Hfd))
      as (d' & E & Hd' & Hfd').
    + intros j e Hj [He Hfe]. apply cell_filled; [done| | |done]; unfold zlen; lia.
    + exists d'. split; [exact E|]. split; [done|]. intros i' j' Hi' Hj' Hc. apply Hfd'; [done|done|].
      fold (zlen s2). lia.
  - exists dp'. split; [exact E|]. split; [done|]. by rewrite Z.add_comm.
Qed.

(** *** The walk back *)

Lemma isLcs_unique v w p q : isLcs v p q -> isLcs w p q -> v = w.
Proof. intros [(t & Ht & <-) Hv] [(u & Hu & <-) Hw]. specialize (Hv u Hu). specialize (Hw t Ht). lia. Qed.

Lemma zdrop_pred (l : list byte) i x : 1 <= i -> zget l (i - 1) = Some x -> zdrop (i - 1) l = x :: zdrop i l.
Proof.
  intros Hi. unfold zget, zdrop. rewrite bool_decide_true by lia. intros Hx.
  rewrite (drop_S _ _ _ Hx). do 2 f_equal. lia.
Qed.

Lemma zdrop_pred_sub (l : list byte) i t : 1 <= i -> t `sublist_of` zdrop i l -> t `sublist_of` zdrop (i - 1) l.
Proof.
  intros Hi Ht. etrans; [exact Ht|]. unfold zdrop. replace (Z.to_nat i) with (Z.to_nat (i - 1) + 1)%nat by lia.
  rewrite <- drop_drop. apply sublist_drop.
Qed.

(** The bytes written so far are a common subsequence of the two rests, and the table says
    how many are still to come. *)
Lemma backtrack_spec dp fuel : forall i j k res,
  filled dp (n1 + 1) 1 -> 0 <= i <= n1 -> 0 <= j <= n2 -> i + j < Z.of_nat fuel ->
  dget dp i j = Some (k + 1) -> k < zlen res -> common (zdrop (k + 1) res) (zdrop i s1) (zdrop j s2) ->
  exists out, backtrack fuel s1 s2 dp i j k res = Some out /\ zlen out = zlen res /\ common out s1 s2.
Proof.
  induction fuel as [|fuel IH]; intros i j k res Hf Hi Hj Hfuel Hk Hlen Hc; [lia|]. cbn [backtrack].
  destruct (Hf i j Hi Hj) as (v & Ev & Hv); [lia|]. rewrite Hk in Ev. injection Ev as <-.
  destruct ((0 <? i) && (0 <? j)) eqn:Ep.
  - apply andb_true_iff in Ep as [Hi0%Z.ltb_lt Hj0%Z.ltb_lt].
    destruct (zget_Some s1 (i - 1)) as [a Ea]; [lia|]. destruct (zget_Some s2 (j - 1)) as [b Eb]; [lia|].
    rewrite Ea, Eb. cbn. pose proof (ztake_snoc s1 i a ltac:(lia) Ea) as T1. pose proof (ztake_snoc s2 j b ltac:(lia) Eb) as T2.
    destruct (Z.eqb_spec a b) as [<-|Hab].
    + destruct (Hf (i - 1) (j - 1)) as (v & Ev & Hv'); [lia|lia|lia|].
      assert (Ek : k + 1 = v + 1) by (apply (isLcs_unique _ _ _ _ Hv); rewrite T1, T2; by apply isLcs_eq).
      assert (Hv0 : 0 <= v) by (destruct Hv' as [(t & _ & <-) _]; unfold zlen; lia).
      assert (Es : zset res k a = Some (<[Z.to_nat k := a]> res)) by (apply zset_Some; lia).
      rewrite Es. cbn. destruct (zset_get _ _ _ _ k Es) as [El Eg]. rewrite Z.eqb_refl in Eg. rewrite <- El.
      replace k with (k + 1 - 1) in Eg at 2 by lia. pose proof (zdrop_pred _ (k + 1) _ ltac:(lia) Eg) as D.
      apply IH; [done|lia|lia|lia|rewrite Ev; f_equal; lia|lia|].
      replace (k - 1 + 1) with (k + 1 - 1) by lia. rewrite D, (zdrop_pred s1 i a), (zdrop_pred s2 j a) by (done || lia).
      assert (E' : zdrop (k + 1) (<[Z.to_nat k := a]> res) = zdrop (k + 1) res).
      { unfold zdrop. apply drop_insert_lt. lia. }
      rewrite E'. destruct Hc. split; by apply sublist_skip.
    + destruct (Hf (i - 1) j) as (up & Eu & Hup); [lia|lia|lia|]. destruct (Hf i (j - 1)) as (left & El & Hleft); [lia|lia|lia|].
      rewrite Eu, El. cbn. assert (Ek : k + 1 = Z.max up left).
      { apply (isLcs_unique _ _ _ _ Hv). rewrite T1, T2. apply isLcs_ne; [done|by rewrite <- T2|by rewrite <- T1]. }
      destruct Hc as [C1 C2]. destruct (Z.ltb_spec left up).
      * apply IH; [done|lia|lia|lia|rewrite Eu; f_equal; lia|done|]. split; [|done]. apply zdrop_pred_sub; [lia|done].
      * apply IH; [done|lia|lia|lia|rewrite El; f_equal; lia|done|]. split; [done|]. apply zdrop_pred_sub; [lia|done].
  - exists res. split; [done|]. split; [done|]. assert (Hz : i = 0 \/ j = 0) by (apply andb_false_iff in Ep as [Hz%Z.ltb_ge|Hz%Z.ltb_ge]; lia).
    assert (E0 : k + 1 = 0).
    { apply (isLcs_unique _ _ _ _ Hv). destruct Hz as [Hz|Hz]; subst; [apply isLcs_nil_l | apply isLcs_nil_r]. }
    rewrite E0 in Hc. destruct Hc as [C1 C2]. split.
    + etrans; [exact C1 | apply sublist_drop].
    + etrans; [exact C2 | apply sublist_drop].
Qed.
End table.

(** [LCS] never indexes out of range and returns a longest common subsequence: a string
    obtained from either argument by leaving bytes out, and no longer one exists. *)
Theorem LCS_longest s1 s2 :
  exists res, LCS s1 s2 = Some res /\ common res s1 s2 /\ (forall t, common t s1 s2 -> zlen t <= zlen res).
Proof.
  unfold LCS. destruct ((zlen s1 =? 0) || (zlen s2 =? 0)) eqn:E0.
  - exists []. split; [done|]. split; [split; apply sublist_nil_l|]. intros t [T1 T2].
    apply orb_true_iff in E0 as [E%Z.eqb_eq|E%Z.eqb_eq]; unfold zlen in E; [destruct s1 | destruct s2]; try done.
    + by apply sublist_nil_r in T1 as ->.
    + by apply sublist_nil_r in T2 as ->.
  - set (dp0 := replicate _ _).
    assert (Hsh : shape s1 s2 dp0).
    { split; [unfold dp0; lens; lia|]. apply Forall_replicate. unfold zeros. lens. lia. }
    assert (Hf : filled s1 s2 dp0 1 1).
    { intros i j Hi Hj Hc. exists 0. split.
      - unfold dget, dp0, zeros, zget. rewrite !bool_decide_true by lia.
        rewrite lookup_replicate_2 by (unfold zlen in *; lia). cbn. apply lookup_replicate_2. lia.
      - assert (Hz : i = 0 \/ j = 0) by lia. destruct Hz as [Hz|Hz]; subst; [apply isLcs_nil_l | apply isLcs_nil_r]. }
    destruct (fill_filled s1 s2 dp0 Hsh Hf) as (dp & -> & Hsh' & Hf'). cbn [mbind option_bind].
    destruct (Hf' (zlen s1) (zlen s2)) as (v & Ev & Hv); [unfold zlen; lia|unfold zlen; lia|lia|]. rewrite Ev. cbn [mbind option_bind].
    assert (Hv0 : 0 <= v) by (destruct Hv as [(t & _ & <-) _]; unfold zlen; lia).
    assert (Hz : zlen (zeros v) = v) by (unfold zeros; lens; lia).
    destruct (backtrack_spec s1 s2 dp (S (length s1 + length s2)) (zlen s1) (zlen s2) (zlen (zeros v) - 1) (zeros v))
      as (out & E & Hlen & Hc); try (unfold zlen; lia).
    + done.
    + rewrite Ev, Hz. f_equal. lia.
    + rewrite Z.sub_add. unfold zdrop, zlen. rewrite !Nat2Z.id, !drop_all. split; apply sublist_nil_l.
    + exists out. split; [exact E|]. split; [done|]. intros t Ht. rewrite Hlen, Hz. apply Hv.
      unfold ztake, zlen. by rewrite !Nat2Z.id, !firstn_all.
Qed.
