(* ===== verification/Base62.v ===== *)
(** * Base62: base-62 text for integers and for bytes, and random codes
      (src/pkg/encoding/base62.go, src/pkg/encoding/base62/base62.go,
      src/pkg/unique/rand.go)

    A string is its bytes.  [big.Int] values are unbounded integers; [SetBytes] and
    [Bytes] are their big-endian base-256 digits.  Both packages use positional numerals,
    so the round trips rest on one theory of digits in any base. *)
From Stdlib Require Import ZArith Lia.
From stdpp Require Import base list option.
From S2P Require Import Prelude.

(** ** Positional numerals *)

(** The value of digits, most significant first. *)
Definition ofDigits (B : Z) (ds : list Z) : Z := foldl (fun n d => n * B + d) 0 ds.

(** The digits of [n], least significant first: [for n > 0 { n, d = n / B, n % B }]. *)
Fixpoint digitsLoop (fuel : nat) (B n : Z) : list Z :=
  match fuel with
  | O => []
  | S fuel => if 0 <? n then n mod B :: digitsLoop fuel B (n / B) else []
  end.
(** Every round at least halves [n]. *)
Definition digits (B n : Z) : list Z := digitsLoop (S (Z.to_nat (Z.log2 n))) B n.

Definition isDigit (B d : Z) : Prop := 0 <= d < B.
(** No leading zero. *)
Definition canonical (ds : list Z) : Prop := head ds <> Some 0.

Lemma ofDigits_snoc B ds d : ofDigits B (ds ++ [d]) = ofDigits B ds * B + d.
Proof. unfold ofDigits. by rewrite foldl_app. Qed.

Lemma ofDigits_bound B ds : 1 < B -> Forall (isDigit B) ds -> 0 <= ofDigits B ds < B ^ zlen ds.
Proof.
  intros HB. induction ds as [|d ds IH] using rev_ind; intros Hds; [change (zlen (@nil Z)) with 0; cbn; lia|].
  apply Forall_app in Hds as [Hds Hd]. inversion_clear Hd as [|? ? Hd' _]. unfold isDigit in Hd'.
  rewrite ofDigits_snoc. replace (zlen (ds ++ [d])) with (Z.succ (zlen ds)) by (lens; lia).
  rewrite Z.pow_succ_r by apply zlen_nonneg. specialize (IH Hds). nia.
Qed.

Lemma digitsLoop_spec B fuel : forall n,
  1 < B -> 0 <= n < 2 ^ Z.of_nat fuel ->
  ofDigits B (reverse (digitsLoop fuel B n)) = n /\ Forall (isDigit B) (digitsLoop fuel B n) /\
  canonical (reverse (digitsLoop fuel B n)).
Proof.
  induction fuel as [|fuel IH]; intros n HB Hn; [cbn in Hn; assert (n = 0) by lia; by subst|].
  cbn [digitsLoop]. destruct (Z.ltb_spec 0 n); [|assert (n = 0) by lia; by subst].
  assert (Hq : 0 <= n / B < 2 ^ Z.of_nat fuel).
  { rewrite Nat2Z.inj_succ, Z.pow_succ_r in Hn by lia. split; [apply Z.div_pos; lia|].
    apply Z.div_lt_upper_bound; [lia|]. nia. }
  destruct (IH (n / B) HB Hq) as (E & Hd & Hl). pose proof (Z.mod_pos_bound n B). split_and!.
  - rewrite reverse_cons, ofDigits_snoc, E. pose proof (Z.div_mod n B). lia.
  - constructor; [unfold isDigit; lia | done].
  - rewrite reverse_cons. destruct (reverse (digitsLoop fuel B (n / B))) as [|x l] eqn:El; [|done].
    cbn in E. intros [= E0]. pose proof (Z.div_mod n B). lia.
Qed.

Lemma digits_spec B n :
  1 < B -> 0 <= n ->
  ofDigits B (reverse (digits B n)) = n /\ Forall (isDigit B) (digits B n) /\ canonical (reverse (digits B n)).
Proof.
  intros HB Hn. destruct (digitsLoop_spec B (S (Z.to_nat (Z.log2 n))) n HB) as (E & Hd & Hl).
  { pose proof (Z.log2_nonneg n). rewrite Nat2Z.inj_succ, Z2Nat.id by lia.
    split; [done|]. destruct (Z.eq_dec n 0) as [->|]; [done|]. apply Z.log2_spec. lia. }
  done.
Qed.

(** Canonical numerals of one number are equal. *)
Lemma ofDigits_inj B : 1 < B -> forall ds es,
  Forall (isDigit B) ds -> Forall (isDigit B) es -> canonical ds -> canonical es ->
  ofDigits B ds = ofDigits B es -> ds = es.
Proof.
  intros HB. assert (Hpos : forall ds, Forall (isDigit B) ds -> canonical ds -> ofDigits B ds = 0 -> ds = []).
  { induction ds as [|d ds IH] using rev_ind; intros Hds Hc E; [done|]. apply Forall_app in Hds as [Hds Hd].
    inversion_clear Hd as [|? ? Hd' _]. rewrite ofDigits_snoc in E. pose proof (ofDigits_bound B ds HB Hds).
    unfold isDigit in Hd'. assert (E0 : ofDigits B ds = 0) by nia. assert (d = 0) by nia. subst.
    destruct ds as [|x ds]; [by destruct Hc|]. by pose proof (IH Hds Hc E0). }
  induction ds as [|d ds IH] using rev_ind; intros es Hds Hes Cd Ce E; [symmetry; by apply Hpos|].
  destruct es as [|e es _] using rev_ind; [by apply Hpos in E|].
  apply Forall_app in Hds as [Hds Hd]. apply Forall_app in Hes as [Hes He].
  inversion_clear Hd as [|? ? Hd' _]. inversion_clear He as [|? ? He' _]. rewrite !ofDigits_snoc in E.
  unfold isDigit in *. assert (Eq : ofDigits B ds = ofDigits B es /\ d = e) by (destruct (Z.lt_trichotomy (ofDigits B ds) (ofDigits B es)) as [?|[?|?]]; nia). destruct Eq as [Eq ->].
  f_equal. apply IH; try done.
  - by destruct ds.
  - by destruct es.
Qed.

(** ** The alphabet *)

(** ["0..9A..Za..z"] *)
Definition Alphabet : list byte :=
  [48; 49; 50; 51; 52; 53; 54; 55; 56; 57;
   65; 66; 67; 68; 69; 70; 71; 72; 73; 74; 75; 76; 77; 78; 79; 80; 81; 82; 83; 84; 85; 86; 87; 88; 89; 90;
   97; 98; 99; 100; 101; 102; 103; 104; 105; 106; 107; 108; 109; 110; 111; 112; 113; 114; 115; 116; 117; 118; 119; 120; 121; 122].
Definition base : Z := zlen Alphabet.

(** A character of the alphabet, by its number. *)
Definition char (d : Z) : byte := default 0 (zget Alphabet d).

(** [strings.IndexRune] on the alphabet, which is ASCII: [-1] when the byte is not in it.  A
    byte from 128 on belongs to a rune that is not. *)
Fixpoint indexFrom (i : Z) (l : list byte) (c : byte) : Z :=
  match l with
  | [] => -1
  | x :: l => if x =? c then i else indexFrom (i + 1) l c
  end.
Definition IndexRune (c : byte) : Z := indexFrom 0 Alphabet c.

(** [decodeMap], as [init] fills it. *)
Definition decodeMap : option (list Z) :=
  foldl (fun m i => m ← m; c ← zget Alphabet i; zset m c i)
    (Some (replicate 128 (-1))) (map Z.of_nat (seq 0 62)).

Lemma decodeMap_spec : exists m, decodeMap = Some m /\ zlen m = 128 /\ forall c, 0 <= c < 128 -> zget m c = Some (IndexRune c).
Proof.
  destruct decodeMap as [m|] eqn:E; [|vm_compute in E; discriminate]. exists m. split; [done|].
  assert (H : zlen m = 128 /\ forallb (fun c => bool_decide (zget m c = Some (IndexRune c))) (map Z.of_nat (seq 0 128)) = true).
  { vm_compute in E. injection E as <-. split; reflexivity. }
  destruct H as [H1 H2]. split; [done|]. intros c Hc. rewrite forallb_forall in H2.
  specialize (H2 c). eapply bool_decide_eq_true_1. apply H2. apply List.in_map_iff. exists (Z.to_nat c).
  split; [lia|]. apply List.in_seq. lia.
Qed.

Lemma IndexRune_char d : 0 <= d < 62 -> IndexRune (char d) = d.
Proof.
  assert (H : forallb (fun d => IndexRune (char d) =? d) (map Z.of_nat (seq 0 62)) = true) by reflexivity.
  rewrite forallb_forall in H. intros Hd. apply Z.eqb_eq, H. apply List.in_map_iff. exists (Z.to_nat d).
  split; [lia|]. apply List.in_seq. lia.
Qed.

Lemma indexFrom_spec l c : forall i, let k := indexFrom i l c in
  (k = -1 /\ c ∉ l) \/ (i <= k < i + zlen l /\ zget l (k - i) = Some c).
Proof.
  induction l as [|x l IH]; intros i; cbn; [left; split; [done | apply not_elem_of_nil]|].
  destruct (Z.eqb_spec x c) as [->|Hne].
  - right. pose proof (zlen_nonneg l). split; [lens; lia|]. by rewrite Z.sub_diag.
  - destruct (IH (i + 1)) as [[-> Hn]|[Hk Hg]]; [left; split; [done|]; apply not_elem_of_cons; done|right].
    split; [lens; lia|]. unfold zget in *. rewrite bool_decide_true in * by lia.
    replace (Z.to_nat (indexFrom (i + 1) l c - i)) with (S (Z.to_nat (indexFrom (i + 1) l c - (i + 1)))) by lia. done.
Qed.

Lemma IndexRune_spec c : (IndexRune c = -1 /\ c ∉ Alphabet) \/ (0 <= IndexRune c < 62 /\ char (IndexRune c) = c).
Proof.
  destruct (indexFrom_spec Alphabet c 0) as [H|[H1 H2]]; [by left|right]. split; [exact H1|].
  unfold char. rewrite Z.sub_0_r in H2. unfold IndexRune. by rewrite H2.
Qed.

(** ** Integers (encoding/base62.go) *)

Definition maxLen : Z := 11.

(** The loop of [Base62Encode]; [None] is an index out of range. *)
Fixpoint encodeLoop (fuel : nat) (n k : Z) (chars : list byte) : option (Z * list byte) :=
  match fuel with
  | O => None
  | S fuel =>
      if 0 <? n then
        let k := k - 1 in
        let remainder := gomod n base in
        c ← zget Alphabet remainder;
        chars ← zset chars k c;
        encodeLoop fuel (godiv n base) k chars
      else Some (k, chars)
  end.

Definition Base62Encode (id : Z) : option (list byte) :=
  if id =? 0 then Some [char 0]
  else
    let n := if id <? 0 then i64 (- id) else id in
    '(k, chars) ← encodeLoop 64 n maxLen (zeros maxLen);
    zslice chars k maxLen.

(** [None] is the error "invalid character". *)
Definition Base62Decode (s : list byte) : option Z :=
  foldl (fun id c => id ← id; let index := IndexRune c in
    if index =? -1 then None else Some (i64 (i64 (id * base) + index))) (Some 0) s.

(** ** Bytes (encoding/base62/base62.go) *)

Fixpoint countZeros (z : byte) (l : list byte) : nat :=
  match l with
  | [] => O
  | x :: l => if x =? z then S (countZeros z l) else O
  end.

Definition SetBytes (b : list byte) : Z := ofDigits 256 b.
Definition Bytes (n : Z) : list byte := reverse (digits 256 n).

(** The digits come out least significant first, the zeros behind them, and the whole is
    reversed in place. *)
Definition Encode (b : list byte) : list byte :=
  let zeros := countZeros 0 b in
  let n := SetBytes (drop zeros b) in
  let out := map char (digits base n) in
  reverse (out ++ replicate zeros (char 0)).

(** [inr i]: the character at position [i] is invalid. *)
Fixpoint decodeLoop (m : list Z) (i : Z) (s : list byte) (n : Z) : Z + Z :=
  match s with
  | [] => inl n
  | c :: s =>
      match (if 128 <=? c then None else zget m c) with
      | Some d => if d <? 0 then inr i else decodeLoop m (i + 1) s (n * base + d)
      | None => inr i
      end
  end.
(** The outer [None] is a panic. *)
Definition Decode (s : list byte) : option (list byte + Z) :=
  m ← decodeMap;
  let zs := countZeros (char 0) s in
  match decodeLoop m (Z.of_nat zs) (drop zs s) 0 with
  | inr i => Some (inr i)
  | inl n =>
      let digits := Bytes n in
      out ← copy_at (zeros (Z.of_nat zs + zlen digits)) (Z.of_nat zs) digits;
      Some (inl out)
  end.

(** ** Proofs *)

Lemma base_62 : base = 62.
Proof. done. Qed.

Lemma zget_char d : 0 <= d < 62 -> zget Alphabet d = Some (char d).
Proof. intros Hd. unfold char. destruct (zget_Some Alphabet d) as [c ->]; [exact Hd | done]. Qed.

Lemma encodeLoop_S fuel n k chars :
  encodeLoop (S fuel) n k chars =
  if 0 <? n then
    c ← zget Alphabet (gomod n base); chars ← zset chars (k - 1) c; encodeLoop fuel (godiv n base) (k - 1) chars
  else Some (k, chars).
Proof. done. Qed.

(** The loop writes the digits of [n] into the end of the array. *)
Lemma encodeLoop_spec fuel : forall n k chars,
  0 <= n < 2 ^ Z.of_nat fuel -> zlen chars = maxLen -> n < 62 ^ k -> 0 <= k <= maxLen ->
  exists k' chars', encodeLoop (S fuel) n k chars = Some (k', chars') /\ zlen chars' = maxLen /\ 0 <= k' <= k /\
    zdrop k' chars' = map char (reverse (digitsLoop fuel 62 n)) ++ zdrop k chars.
Proof.
  induction fuel as [|fuel IH]; intros n k chars Hn Hlen Hk Hk0.
  { cbn in Hn. assert (n = 0) by lia. subst. exists k, chars. split_and!; done || lia. }
  cbn [digitsLoop]. destruct (Z.ltb_spec 0 n) as [Hpos|Hz].
  2: { assert (n = 0) by lia. subst. exists k, chars. split_and!; done || lia. }
  assert (H1 : 1 <= k) by (destruct (Z.eq_dec k 0) as [->|]; [cbn in Hk; lia | lia]).
  assert (E : encodeLoop (S (S fuel)) n k chars =
    (chars ← zset chars (k - 1) (char (n mod 62)); encodeLoop (S fuel) (n / 62) (k - 1) chars)).
  { rewrite encodeLoop_S. rewrite (proj2 (Z.ltb_lt 0 n)) by done. unfold gomod, godiv. rewrite base_62.
    rewrite (Z.rem_mod_nonneg n 62), (Z.quot_div_nonneg n 62) by lia. rewrite zget_char by (apply Z.mod_pos_bound; lia). done. }
  rewrite E. clear E. rewrite zset_Some by lia. cbn [mbind option_bind].
  destruct (IH (n / 62) (k - 1) (<[Z.to_nat (k - 1) := char (n mod 62)]> chars)) as (k' & chars' & -> & Hl & Hk' & Hd).
  - rewrite Nat2Z.inj_succ, Z.pow_succ_r in Hn by lia. split; [apply Z.div_pos; lia|].
    apply Z.div_lt_upper_bound; lia.
  - by lens.
  - replace k with (Z.succ (k - 1)) in Hk by lia. rewrite Z.pow_succ_r in Hk by lia. apply Z.div_lt_upper_bound; lia.
  - lia.
  - exists k', chars'. split; [done|]. split; [done|]. split; [lia|]. rewrite Hd, reverse_cons, map_app, <- app_assoc. f_equal.
    unfold zdrop. replace (Z.to_nat k) with (S (Z.to_nat (k - 1))) by lia. cbn [map app].
    rewrite (drop_S _ (char (n mod 62)) (Z.to_nat (k - 1))).
    + f_equal. rewrite drop_insert_lt by lia. done.
    + apply list_lookup_insert_eq. unfold zlen in Hlen. lia.
Qed.

Lemma Base62Decode_app s t : Base62Decode (s ++ t) = foldl (fun id c => id ← id; let index := IndexRune c in
    if index =? -1 then None else Some (i64 (i64 (id * base) + index))) (Base62Decode s) t.
Proof. unfold Base62Decode. apply foldl_app. Qed.

(** Decoding is the numeral's value as long as it fits. *)
Lemma Base62Decode_digits ds :
  Forall (isDigit 62) ds -> ofDigits 62 ds < 2 ^ 63 -> Base62Decode (map char ds) = Some (ofDigits 62 ds).
Proof.
  induction ds as [|d ds IH] using rev_ind; intros Hds Hfit; [done|]. apply Forall_app in Hds as [Hds Hd].
  inversion_clear Hd as [|? ? Hd' _]. unfold isDigit in Hd'. pose proof (ofDigits_bound 62 ds ltac:(lia) Hds).
  rewrite ofDigits_snoc in *. rewrite map_app, Base62Decode_app, IH by (done || lia). cbn [map foldl mbind option_bind]. cbv zeta.
  rewrite IndexRune_char by done. destruct (Z.eqb_spec d (-1)); [lia|]. rewrite base_62, (i64_small (_ * 62)), i64_small by lia. done.
Qed.

Lemma Base62Encode_spec id : 0 < id < 2 ^ 63 -> exists ds, Base62Encode id = Some (map char ds) /\
  zlen ds <= 11 /\ Forall (isDigit 62) ds /\ ofDigits 62 ds = id /\ canonical ds.
Proof.
  intros Hid. unfold Base62Encode. destruct (Z.eqb_spec id 0); [lia|]. destruct (Z.ltb_spec id 0); [lia|].
  destruct (encodeLoop_spec 63 id maxLen (zeros maxLen)) as (k' & chars & E & Hl & Hk & Hd);
    [exact (conj (Z.lt_le_incl _ _ (proj1 Hid)) (proj2 Hid)) | done | unfold maxLen; lia | unfold maxLen; lia |].
  rewrite E. cbn [mbind option_bind]. destruct (digitsLoop_spec 62 63 id) as (Ev & Hf & Hc); [lia|exact (conj (Z.lt_le_incl _ _ (proj1 Hid)) (proj2 Hid))|].
  exists (reverse (digitsLoop 63 62 id)). assert (Et : zdrop k' chars = map char (reverse (digitsLoop 63 62 id))).
  { rewrite Hd. apply app_nil_r. }
  split_and!; [|  |by apply Forall_reverse|done|done].
  - unfold zslice. rewrite bool_decide_true by lia. rewrite <- Et. f_equal. unfold ztake, zdrop in *. apply firstn_all2.
    lens. lia.
  - apply (f_equal zlen) in Et. assert (zlen (map char (reverse (digitsLoop 63 62 id))) = zlen (reverse (digitsLoop 63 62 id))) by (unfold zlen; by rewrite length_map).
    unfold zdrop, maxLen in *. lens. lia.
Qed.

(** *** Bytes *)

Lemma countZeros_split z l :
  l = replicate (countZeros z l) z ++ drop (countZeros z l) l /\ head (drop (countZeros z l) l) <> Some z.
Proof.
  induction l as [|x l [IH1 IH2]]; [done|]. cbn [countZeros]. destruct (Z.eqb_spec x z) as [->|Hne].
  - cbn. split; [by f_equal | done].
  - cbn. split; [done | by intros [= ->]].
Qed.

Lemma countZeros_app z k l : head l <> Some z -> countZeros z (replicate k z ++ l) = k.
Proof.
  intros Hl. induction k as [|k IH]; cbn.
  - destruct l as [|x l]; [done|]. cbn in *. destruct (Z.eqb_spec x z); [by subst | done].
  - by rewrite Z.eqb_refl, IH.
Qed.

Lemma drop_replicate_app {A} (z : A) k l : drop k (replicate k z ++ l) = l.
Proof. rewrite drop_app_length' by (by rewrite length_replicate). done. Qed.

Lemma head_char ds : Forall (isDigit 62) ds -> canonical ds -> head (map char ds) <> Some (char 0).
Proof.
  intros Hd Hc. destruct ds as [|d ds]; [done|]. inversion_clear Hd as [|? ? Hd' _]. cbn [map head]. intros [= E].
  apply (f_equal IndexRune) in E. rewrite !IndexRune_char in E by (unfold isDigit in Hd'; lia). by subst.
Qed.

Lemma map_char_inj ds : forall es,
  Forall (isDigit 62) ds -> Forall (isDigit 62) es -> map char ds = map char es -> ds = es.
Proof.
  induction ds as [|d ds IH]; intros [|e es] Hd He E; try done. cbn [map] in E. injection E as E1 E2.
  inversion_clear Hd as [|? ? D1 D2]. inversion_clear He as [|? ? D1' D2'].
  apply (f_equal IndexRune) in E1. rewrite !IndexRune_char in E1 by done. subst. f_equal. by apply IH.
Qed.

Lemma Alphabet_ascii c : c ∈ Alphabet -> 0 <= c < 128.
Proof.
  assert (H : Forall (fun c => 0 <= c < 128) Alphabet) by (unfold Alphabet; repeat constructor; lia).
  rewrite List.Forall_forall in H. intros Hc. apply H. by apply list_elem_of_In.
Qed.

Lemma char_in d : 0 <= d < 62 -> char d ∈ Alphabet.
Proof. intros Hd%zget_char. unfold zget in Hd. case_bool_decide; [|done]. by apply list_elem_of_lookup_2 in Hd. Qed.

Lemma decodeLoop_digits m s : decodeMap = Some m -> forall i n,
  match decodeLoop m i s n with
  | inl v => exists ds, s = map char ds /\ Forall (isDigit 62) ds /\ v = foldl (fun n d => n * 62 + d) n ds
  | inr j => i <= j < i + zlen s /\ exists c, zget s (j - i) = Some c /\ c ∉ Alphabet
  end.
Proof.
  intros Em. destruct decodeMap_spec as (m' & Em' & Hlen & Hm). rewrite Em in Em'. injection Em' as <-. clear Em.
  induction s as [|c s IH]; intros i n; [by exists []|]. cbn [decodeLoop]. pose proof (zlen_nonneg s).
  assert (Hbad : c ∉ Alphabet -> i <= i < i + zlen (c :: s) /\ exists c', zget (c :: s) (i - i) = Some c' /\ c' ∉ Alphabet).
  { intros Hc. split; [lens; lia|]. rewrite Z.sub_diag. by exists c. }
  pose proof (Alphabet_ascii c) as Hrange.
  destruct (Z.leb_spec 128 c) as [Hc|Hc]; [apply Hbad; intros ?%Hrange; lia|].
  destruct (Z.lt_ge_cases c 0) as [Hneg|Hnn].
  { unfold zget at 1. rewrite bool_decide_false by lia. apply Hbad. intros ?%Hrange. lia. }
  rewrite Hm by lia. destruct (IndexRune_spec c) as [[-> Hc']|[Hd Ec]]; [cbn; by apply Hbad|].
  destruct (Z.ltb_spec (IndexRune c) 0); [lia|]. specialize (IH (i + 1) (n * base + IndexRune c)).
  destruct (decodeLoop m (i + 1) s _) as [v|j].
  - destruct IH as (ds & -> & Hds & ->). exists (IndexRune c :: ds). cbn [map]. rewrite Ec. split; [done|].
    split; [by constructor | done].
  - destruct IH as (Hj & c' & Hg & Hc'). split; [lens; lia|]. exists c'. split; [|done].
    unfold zget in *. rewrite bool_decide_true in * by lia. replace (Z.to_nat (j - i)) with (S (Z.to_nat (j - (i + 1)))) by lia. done.
Qed.

(** The text of a byte string: its zeros, then the canonical numeral of the rest. *)
Lemma Encode_spec b : Forall is_byte b ->
  exists zs ds, b = replicate zs 0 ++ Bytes (ofDigits 62 ds) /\ Encode b = replicate zs (char 0) ++ map char ds /\
    Forall (isDigit 62) ds /\ canonical ds.
Proof.
  intros Hb. destruct (countZeros_split 0 b) as [E Hh]. set (zs := countZeros 0 b) in *. set (r := drop zs b) in *.
  assert (Hr : Forall (isDigit 256) r) by (by apply Forall_drop).
  pose proof (ofDigits_bound 256 r ltac:(lia) Hr) as [Hn _].
  destruct (digits_spec 62 (SetBytes r)) as (Ev & Hd & Hc); [lia|done|].
  exists zs, (reverse (digits 62 (SetBytes r))). split_and!.
  - rewrite E at 1. f_equal. rewrite Ev. destruct (digits_spec 256 (SetBytes r)) as (Ev' & Hd' & Hc'); [lia|done|].
    apply (ofDigits_inj 256); [lia|done|by apply Forall_reverse|done|done|by symmetry].
  - unfold Encode. fold zs r. rewrite reverse_app, reverse_replicate, base_62. f_equal. symmetry. apply (fmap_reverse char).
  - by apply Forall_reverse.
  - done.
Qed.

(** The bytes of a text. *)
Lemma Decode_spec zs ds : Forall (isDigit 62) ds -> canonical ds ->
  Decode (replicate zs (char 0) ++ map char ds) = Some (inl (replicate zs 0 ++ Bytes (ofDigits 62 ds))).
Proof.
  intros Hd Hc. unfold Decode. destruct decodeMap_spec as (m & Em & _). rewrite Em. cbn [mbind option_bind].
  rewrite countZeros_app by (by apply head_char). rewrite drop_replicate_app.
  pose proof (decodeLoop_digits m (map char ds) Em (Z.of_nat zs) 0) as H.
  destruct (decodeLoop m (Z.of_nat zs) (map char ds) 0) as [v|j].
  - destruct H as (ds' & E & Hd' & ->). rewrite <- (map_char_inj ds ds' Hd Hd' E). clear.
    change (foldl _ 0 ds) with (ofDigits 62 ds). rewrite copy_at_eq.
    + cbn [mbind option_bind]. do 2 f_equal. unfold zeros, ztake, zdrop. rewrite take_replicate, drop_replicate.
      replace (_ `min` _)%nat with zs by (unfold zlen; lia).
      replace (_ - _)%nat with 0%nat by (unfold zlen; lia). by rewrite app_nil_r.
    + lia.
    + unfold zeros. lens. lia.
  - destruct H as (_ & c & Hg & Hn). unfold zget in Hg. case_bool_decide; [|done]. apply list_elem_of_lookup_2 in Hg.
    apply list_elem_of_fmap in Hg as (d & -> & Hin). rewrite List.Forall_forall in Hd. destruct Hn. apply char_in, Hd. by apply list_elem_of_In.
Qed.

Lemma Decode_cases s : match Decode s with
  | Some (inl b) => exists zs ds, s = replicate zs (char 0) ++ map char ds /\ Forall (isDigit 62) ds /\ canonical ds
  | Some (inr i) => exists c, zget s i = Some c /\ c ∉ Alphabet
  | None => False
  end.
Proof.
  unfold Decode. destruct decodeMap_spec as (m & Em & _). rewrite Em. cbn [mbind option_bind].
  destruct (countZeros_split (char 0) s) as [E Hh]. set (zs := countZeros (char 0) s) in *. set (r := drop zs s) in *.
  pose proof (decodeLoop_digits m r Em (Z.of_nat zs) 0) as H. destruct (decodeLoop m (Z.of_nat zs) r 0) as [v|j].
  - rewrite copy_at_eq; [cbn [mbind option_bind] | lia | unfold zeros; lens; lia].
    destruct H as (ds & Er & Hd & _). exists zs, ds. rewrite <- Er. split; [done|]. split; [done|].
    intros Hc. apply Hh. rewrite Er. destruct ds as [|d ds]; [done|]. by injection Hc as ->.
  - destruct H as (Hj & c & Hg & Hn). exists c. split; [|done]. rewrite E. unfold zget in *. rewrite bool_decide_true in * by lia.
    rewrite lookup_app_r by (rewrite length_replicate; lia). rewrite length_replicate, <- Hg. f_equal. lia.
Qed.

Lemma chars_in zs ds : Forall (isDigit 62) ds -> Forall (.∈ Alphabet) (replicate zs (char 0) ++ map char ds).
Proof.
  intros Hd. apply Forall_app. split; [apply Forall_replicate; by apply char_in|].
  induction Hd as [|d ds Hd _ IH]; [constructor|]. constructor; [by apply char_in | done].
Qed.

Lemma Encode_of_digits zs ds : Forall (isDigit 62) ds -> canonical ds ->
  Encode (replicate zs 0 ++ Bytes (ofDigits 62 ds)) = replicate zs (char 0) ++ map char ds.
Proof.
  intros Hd Hc. pose proof (ofDigits_bound 62 ds ltac:(lia) Hd) as [Hn _].
  destruct (digits_spec 256 (ofDigits 62 ds)) as (Ev & Hb & Hcb); [lia|done|].
  destruct (digits_spec 62 (ofDigits 62 ds)) as (Ev' & Hd' & Hc'); [lia|done|].
  unfold Encode, Bytes. rewrite countZeros_app by done. rewrite drop_replicate_app. unfold SetBytes. rewrite Ev, base_62.
  rewrite reverse_app, reverse_replicate. f_equal.
  rewrite (ofDigits_inj 62 ltac:(lia) ds (reverse (digits 62 (ofDigits 62 ds)))) at 2; [| |by apply Forall_reverse| | |]; try done.
  symmetry. apply (fmap_reverse char).
Qed.

Lemma Base62Decode_refuses s : Base62Decode s = None <-> ~ Forall (.∈ Alphabet) s.
Proof.
  induction s as [|c s IH] using rev_ind; [split; [done | intros H; destruct H; constructor]|].
  rewrite Base62Decode_app, Forall_app. cbn [foldl]. destruct (Base62Decode s) as [v|]; cbn [mbind option_bind]; cbv zeta.
  - assert (Hs : Forall (.∈ Alphabet) s) by (destruct (decide (Forall (.∈ Alphabet) s)) as [H|H]; [done | by apply IH in H]).
    destruct (IndexRune_spec c) as [[-> Hc]|[Hd Ec]].
    + split; [|done]. intros _ [_ H]. inversion_clear H. done.
    + destruct (Z.eqb_spec (IndexRune c) (-1)); [lia|]. split; [done|]. intros H. destruct H. split; [done|].
      constructor; [|constructor]. rewrite <- Ec. by apply char_in.
  - split; [|done]. intros _ [H _]. by apply IH.
Qed.

(** *** Properties *)

(** C40: [Decode] and [Encode] are inverse to each other: every byte string comes back from
    its text, leading zeros included; every text that decodes is the text of its bytes; a
    text is refused exactly for a character outside the alphabet, and the error names its
    position. *)
Theorem base62_bytes_bijective b s :
  Forall is_byte b ->
  Decode (Encode b) = Some (inl b) /\ Forall (.∈ Alphabet) (Encode b) /\
  match Decode s with
  | Some (inl b') => Encode b' = s /\ Forall (.∈ Alphabet) s
  | Some (inr i) => exists c, zget s i = Some c /\ c ∉ Alphabet
  | None => False
  end.
Proof.
  intros Hb. destruct (Encode_spec b Hb) as (zs & ds & Eb & Ee & Hd & Hc). split; [|split].
  - by rewrite Ee, Decode_spec, <- Eb.
  - rewrite Ee. apply chars_in. done.
  - pose proof (Decode_cases s) as H. destruct (Decode s) as [[b'|i]|] eqn:E; [|done|done].
    destruct H as (zs' & ds' & -> & Hd' & Hc'). split; [|by apply chars_in].
    rewrite Decode_spec in E by done. injection E as <-. by apply Encode_of_digits.
Qed.

Lemma base62_bytes_bijective_witness : Decode (Encode [0; 0; 200; 7]) = Some (inl [0; 0; 200; 7]).
Proof.
  refine (proj1 (base62_bytes_bijective [0; 0; 200; 7] [] _)). repeat constructor; vm_compute; discriminate || reflexivity.
Defined.

(** The package comment says that texts of equal length sort like the bytes they encode; the
    bytes [248] and [1; 0] do not. *)
Lemma base62_order_not_preserved : Encode [248] = [52; 48] /\ Encode [1; 0] = [52; 56].
Proof. split; reflexivity. Qed.

(** Every 63-bit integer comes back from its text, which is made of at most 11 characters of the alphabet
    and has no leading zero; decoding refuses exactly the texts with another character. *)
Theorem base62_int_roundtrip id s :
  0 <= id < 2 ^ 63 ->
  (exists t, Base62Encode id = Some t /\ Base62Decode t = Some id /\ zlen t <= 11 /\ Forall (.∈ Alphabet) t /\
    (id <> 0 -> head t <> Some (char 0))) /\
  (Base62Decode s = None <-> ~ Forall (.∈ Alphabet) s).
Proof.
  intros Hid. split; [|apply Base62Decode_refuses]. destruct (Z.eq_dec id 0) as [->|Hne].
  - exists [char 0]. split_and!; [done|done|by vm_compute| |done]. constructor; [by apply char_in | constructor].
  - destruct (Base62Encode_spec id ltac:(lia)) as (ds & E & Hlen & Hd & Ev & Hc). exists (map char ds).
    split_and!; [done| | |exact (chars_in 0 ds Hd)|by intros _; apply head_char].
    + rewrite Base62Decode_digits by (done || lia). by rewrite Ev.
    + unfold zlen in *. by rewrite length_map.
Qed.

Lemma base62_int_roundtrip_witness : exists t, Base62Encode 123456789 = Some t /\ Base62Decode t = Some 123456789 /\
  zlen t <= 11 /\ Forall (.∈ Alphabet) t /\ (123456789 <> 0 -> head t <> Some (char 0)).
Proof. refine (proj1 (base62_int_roundtrip 123456789 [] _)). lia. Defined.

(** The sign is lost, the smallest integer has the empty text, and long texts wrap. *)
Lemma base62_int_corner_cases :
  Base62Encode (-5) = Base62Encode 5 /\ Base62Encode (- 2 ^ 63) = Some [] /\ Base62Decode [] = Some 0 /\
  (exists v, Base62Decode (replicate 11 122) = Some v /\ v < 0).
Proof. split_and!; try reflexivity. eexists. split; [vm_compute; reflexivity | done]. Qed.

(** ** Random codes (unique/rand.go)

    [crypto/rand] is a list of the bytes it will deliver; [None]: they do not suffice. *)

Definition accept (chunk : list byte) : list byte :=
  omap (fun b => if 248 <=? b then None else zget Alphabet (gomod b base)) chunk.

Fixpoint randLoop (fuel : nat) (n : Z) (out rnd : list byte) : option (list byte) :=
  match fuel with
  | O => None
  | S fuel =>
      if zlen out <? n then
        let k := n - zlen out in
        if zlen rnd <? k then None else randLoop fuel n (out ++ accept (ztake k rnd)) (zdrop k rnd)
      else Some out
  end.
Definition RandBase62 (n : Z) (rnd : list byte) : option (list byte) := randLoop (S (length rnd)) n [] rnd.

Lemma accept_app xs ys : accept (xs ++ ys) = accept xs ++ accept ys.
Proof. apply omap_app. Qed.
Lemma accept_length xs : (length (accept xs) <= length xs)%nat.
Proof. induction xs as [|x xs IH]; [done|]. unfold accept in *. cbn. case_match; cbn; lia. Qed.

Lemma randLoop_spec n fuel : forall out rnd,
  zlen out <= n -> (length rnd < fuel)%nat -> n <= zlen out + zlen (accept rnd) ->
  randLoop fuel n out rnd = Some (ztake n (out ++ accept rnd)).
Proof.
  induction fuel as [|fuel IH]; intros out rnd Ho Hf Hn; [lia|]. cbn [randLoop].
  destruct (Z.ltb_spec (zlen out) n) as [Hlt|Hge].
  - pose proof (accept_length rnd). destruct (Z.ltb_spec (zlen rnd) (n - zlen out)); [unfold zlen in *; lia|].
    set (k := n - zlen out) in *. assert (E : rnd = ztake k rnd ++ zdrop k rnd) by (symmetry; apply take_drop).
    pose proof (accept_length (ztake k rnd)) as Ha. assert (Hk : zlen (ztake k rnd) = k) by (unfold ztake; lens; lia).
    rewrite E in Hn at 1. rewrite E at 3. rewrite accept_app in *. rewrite IH.
    + by rewrite <- app_assoc.
    + unfold zlen in *. rewrite length_app. lia.
    + unfold zdrop. rewrite length_drop. unfold zlen in *. lia.
    + unfold zlen in *. rewrite !length_app in *. lia.
  - f_equal. unfold ztake. rewrite take_app_le by (unfold zlen in *; lia). symmetry. apply firstn_all2. unfold zlen in *. lia.
Qed.

(** The bytes that give a character. *)
Definition sources (c : byte) : list byte := filter (fun b => accept [b] = [c]) (map Z.of_nat (seq 0 256)).

(** A random code has exactly [n] characters of the alphabet, made in order from the
    accepted random bytes, as soon as [n] of these are delivered; every character has exactly four of the
    256 byte values as its source, so uniform bytes give uniform characters. *)
Theorem RandBase62_uniform n rnd :
  0 <= n <= zlen (accept rnd) -> Forall is_byte rnd ->
  RandBase62 n rnd = Some (ztake n (accept rnd)) /\ zlen (ztake n (accept rnd)) = n /\
  Forall (.∈ Alphabet) (accept rnd) /\ (forall c, c ∈ Alphabet -> length (sources c) = 4%nat).
Proof.
  intros Hn Hb. split; [|split; [|split]].
  - unfold RandBase62. rewrite randLoop_spec; [done| | |]; change (zlen (@nil Z)) with 0; lia.
  - unfold ztake. lens. lia.
  - clear Hn. induction Hb as [|b rnd Hb Hr IH]; [constructor|]. unfold accept in *. cbn [omap list_omap].
    destruct (if 248 <=? b then None else zget Alphabet (gomod b base)) as [c|] eqn:E; [|done]. constructor; [|done].
    destruct (248 <=? b); [done|]. unfold zget in E. case_bool_decide; [|done]. by apply list_elem_of_lookup_2 in E.
  - intros c Hc. assert (H : forallb (fun c => Nat.eqb (length (sources c)) 4) Alphabet = true) by (vm_compute; reflexivity).
    rewrite forallb_forall in H. apply Nat.eqb_eq, H. by apply list_elem_of_In.
Qed.

Lemma RandBase62_uniform_witness : RandBase62 2 [255; 7; 248; 61; 3] = Some (ztake 2 (accept [255; 7; 248; 61; 3])).
Proof.
  refine (proj1 (RandBase62_uniform 2 [255; 7; 248; 61; 3] _ _)); [vm_compute; split; discriminate |].
  repeat constructor; vm_compute; discriminate || reflexivity.
Defined.
