(* ===== verification/Snowflake.v ===== *)
(** * Snowflake: time-ordered unique identifiers (src/pkg/unique/snowflake.go)

    The clock is the list of its readings in nanoseconds; [Generate] takes one reading, and
    more while it waits for the next time unit.  The lock makes each call one step. *)
From stdpp Require Import base list option sorting.
From Stdlib Require Import ZArith Lia.
From S2P Require Import Prelude.

(** [settings.SnowflakeNode] *)
Record Config := mkConfig { Epoch : Z; Node : Z; Step : Z; TotalBits : Z; WorkerID : Z }.

Record SnowflakeNode := mkNode {
  timestamp : Z; node : Z; step : Z;
  epoch : Z; totalBits : Z; nodeMax : Z; stepMax : Z; timeShift : Z; nodeShift : Z; limitMask : Z;
}.

Inductive error := ErrNodeRange | ErrTotalBits.

(** [int64(-1 ^ (-1 << bits))] *)
Definition maxOf (bits : Z) : Z := Z.lxor (-1) (i64 (Z.shiftl (-1) bits)).

Definition NewSnowflakeNode (config : Config) : SnowflakeNode + error :=
  let nodeMax := maxOf (Node config) in
  let stepMax := maxOf (Step config) in
  if (WorkerID config <? 0) || (nodeMax <? WorkerID config) then inr ErrNodeRange
  else
    let total := if TotalBits config =? 0 then 63 else TotalBits config in
    if total <=? u8 (Node config + Step config) then inr ErrTotalBits
    else
      let limitMask :=
        if (total =? 63) || (total =? 64) then i64 (Z.shiftr (2 ^ 64 - 1) 1)
        else i64 (i64 (Z.shiftl 1 total) - 1) in
      inl (mkNode 0 (WorkerID config) 0 (Epoch config) total nodeMax stepMax
             (u8 (Node config + Step config)) (Step config) limitMask).

(** Seconds when the bits are tight, else milliseconds. *)
Definition toUnit (n : SnowflakeNode) (nanos : Z) : Z :=
  if totalBits n <? 50 then godiv nanos 1000000000 else godiv nanos 1000000.

(** [for now <= n.timestamp { ... }]; [None]: the readings end while it waits. *)
Fixpoint wait (n : SnowflakeNode) (now : Z) (clock : list Z) : option (Z * list Z) :=
  if now <=? timestamp n then
    match clock with
    | [] => None
    | nanos :: clock => wait n (toUnit n nanos) clock
    end
  else Some (now, clock).

Definition setTime (n : SnowflakeNode) (ts st : Z) : SnowflakeNode :=
  mkNode ts (node n) st (epoch n) (totalBits n) (nodeMax n) (stepMax n) (timeShift n) (nodeShift n) (limitMask n).

(** The identifier of a node's current time and step. *)
Definition idOf (n : SnowflakeNode) : Z :=
  Z.land (Z.lor (Z.lor (i64 (Z.shiftl (i64 (timestamp n - epoch n)) (timeShift n)))
    (i64 (Z.shiftl (node n) (nodeShift n)))) (step n)) (limitMask n).

Definition Generate (n : SnowflakeNode) (clock : list Z) : option (Z * SnowflakeNode * list Z) :=
  match clock with
  | [] => None
  | nanos :: clock =>
      let now := toUnit n nanos in
      let now := if now <? timestamp n then timestamp n else now in
      '(now, st, clock) ←
        (if now =? timestamp n then
           let st := Z.land (i64 (step n + 1)) (stepMax n) in
           if st =? 0 then '(now, clock) ← wait n now clock; Some (now, st, clock) else Some (now, st, clock)
         else Some (now, 0, clock));
      let n := setTime n now st in
      Some (idOf n, n, clock)
  end.

(** [k] calls in a row. *)
Fixpoint generateMany (k : nat) (n : SnowflakeNode) (clock : list Z) : option (list Z * SnowflakeNode * list Z) :=
  match k with
  | O => Some ([], n, clock)
  | S k =>
      '(id, n, clock) ← Generate n clock;
      '(ids, n, clock) ← generateMany k n clock;
      Some (id :: ids, n, clock)
  end.

(** ** Layout of an identifier *)

(** A configured node: the fields are the configuration's, and time, worker and step have
    room of their own below bit 63. *)
Record node_ok (nb sb : Z) (n : SnowflakeNode) : Prop := {
  ok_nb : 0 <= nb; ok_sb : 0 <= sb; ok_bits : nb + sb < totalBits n <= 63;
  ok_node : 0 <= node n < 2 ^ nb;
  ok_step : 0 <= step n < 2 ^ sb;
  ok_stepMax : stepMax n = 2 ^ sb - 1;
  ok_timeShift : timeShift n = nb + sb;
  ok_nodeShift : nodeShift n = sb;
  ok_limit : limitMask n = 2 ^ totalBits n - 1;
}.

Lemma maxOf_small bits : 0 <= bits <= 63 -> maxOf bits = 2 ^ bits - 1.
Proof.
  intros Hb. unfold maxOf. rewrite Z.shiftl_mul_pow2 by lia.
  assert (0 < 2 ^ bits <= 2 ^ 63) by (split; [lia | apply Z.pow_le_mono_r; lia]).
  rewrite i64_small by lia. rewrite Z.lxor_comm, Z.lxor_m1_r. unfold Z.lnot. lia.
Qed.

Lemma land_mask a n : 0 <= n -> Z.land a (2 ^ n - 1) = a mod 2 ^ n.
Proof. intros Hn. rewrite <- Z.land_ones by done. f_equal. rewrite Z.ones_equiv. lia. Qed.

(** The identifier is a number in mixed radix. *)
Definition pack (nb sb t w st : Z) : Z := (t * 2 ^ nb + w) * 2 ^ sb + st.

(** The times whose distance from the epoch fits its bits. *)
Definition inWindow (nb sb : Z) (n : SnowflakeNode) (t : Z) : Prop :=
  epoch n <= t < epoch n + 2 ^ (totalBits n - (nb + sb)).

Lemma pack_bound nb sb tb t w st :
  0 <= nb -> 0 <= sb -> 0 <= tb -> 0 <= t < 2 ^ tb -> 0 <= w < 2 ^ nb -> 0 <= st < 2 ^ sb ->
  0 <= t * 2 ^ nb + w < 2 ^ (tb + nb) /\ 0 <= pack nb sb t w st < 2 ^ (tb + nb + sb).
Proof.
  intros. unfold pack. rewrite !Z.pow_add_r by lia. assert (0 <= t * 2 ^ nb + w < 2 ^ tb * 2 ^ nb) by nia. nia.
Qed.

Lemma idOf_pack nb sb n :
  node_ok nb sb n -> inWindow nb sb n (timestamp n) -> 0 <= epoch n ->
  idOf n = pack nb sb (timestamp n - epoch n) (node n) (step n) /\ 0 <= idOf n < 2 ^ totalBits n.
Proof.
  intros [Hnb Hsb Hbits Hnode Hstep _ Ets Ens El] Hw He. unfold inWindow in Hw.
  set (t := timestamp n - epoch n). set (tb := totalBits n - (nb + sb)) in *. assert (Ht : 0 <= t < 2 ^ tb) by lia.
  destruct (pack_bound nb sb tb t (node n) (step n)) as [H1 H2]; try (done || lia).
  assert (Etb : tb + nb + sb = totalBits n) by lia. rewrite Etb in H2.
  assert (Hmax : 2 ^ totalBits n <= 2 ^ 63) by (apply Z.pow_le_mono_r; lia).
  assert (Hle : 2 ^ tb <= 2 ^ 63) by (apply Z.pow_le_mono_r; lia).
  unfold idOf. rewrite Ets, Ens, El. fold t. rewrite (i64_small t) by lia.
  assert (B1 : 0 <= t * 2 ^ (nb + sb) < 2 ^ 63 /\ 0 <= node n * 2 ^ sb < 2 ^ (nb + sb) /\ 2 ^ (nb + sb) <= 2 ^ 63).
  { split; [|split; [rewrite Z.pow_add_r by lia; nia | apply Z.pow_le_mono_r; lia]]. unfold pack in H2. rewrite Z.pow_add_r by lia. nia. }
  rewrite !i64_small by (rewrite Z.shiftl_mul_pow2 by lia; lia).
  assert (E : Z.lor (Z.lor (Z.shiftl t (nb + sb)) (Z.shiftl (node n) sb)) (step n) = pack nb sb t (node n) (step n)).
  { rewrite (Z.lor_comm (Z.shiftl t _)), lor_shiftl_add; [|lia|rewrite Z.shiftl_mul_pow2 by lia; lia|lia].
    rewrite Z.shiftl_mul_pow2, Z.pow_add_r by lia.
    replace (node n * 2 ^ sb + t * (2 ^ nb * 2 ^ sb)) with ((t * 2 ^ nb + node n) * 2 ^ sb) by ring.
    rewrite <- Z.shiftl_mul_pow2 by lia. rewrite Z.lor_comm, lor_shiftl_add by lia. unfold pack. lia. }
  rewrite E, land_mask by lia. rewrite Z.mod_small by lia. done.
Qed.

(** The worker can be read off an identifier, and time then step order the identifiers of
    one worker. *)
Lemma pack_worker nb sb t w st :
  0 <= nb -> 0 <= sb -> 0 <= w < 2 ^ nb -> 0 <= st < 2 ^ sb ->
  (Z.shiftr (pack nb sb t w st) sb) mod 2 ^ nb = w.
Proof.
  intros. unfold pack. rewrite Z.shiftr_div_pow2 by lia. rewrite Z.div_add_l by lia.
  rewrite (Z.div_small st) by lia. rewrite Z.add_0_r, Z.add_comm, Z.mod_add by lia. by apply Z.mod_small.
Qed.

Lemma pack_mono nb sb t w st t' st' :
  0 <= nb -> 0 <= sb -> 0 <= st < 2 ^ sb -> 0 <= st' < 2 ^ sb ->
  t < t' \/ t = t' /\ st < st' -> pack nb sb t w st < pack nb sb t' w st'.
Proof.
  intros. unfold pack. assert (0 < 2 ^ nb) by lia. destruct H3 as [Hlt|[-> Hst]]; [|lia].
  assert (t * 2 ^ nb + w + 1 <= t' * 2 ^ nb + w) by nia. nia.
Qed.

(** ** One call *)

Lemma wait_spec n clock : forall now,
  match wait n now clock with
  | Some (now', rest) => timestamp n < now' /\ (now' = now \/ exists r, r ∈ clock /\ now' = toUnit n r) /\ rest `suffix_of` clock
  | None => Forall (fun r => toUnit n r <= timestamp n) clock
  end.
Proof.
  induction clock as [|nanos clock IH]; intros now; cbn [wait].
  - destruct (Z.leb_spec now (timestamp n)); [constructor|]. split; [lia|]. split; [by left | done].
  - destruct (Z.leb_spec now (timestamp n)) as [Hle|Hgt]; [|split; [lia|]; split; [by left | done]].
    specialize (IH (toUnit n nanos)). destruct (wait n (toUnit n nanos) clock) as [[now' rest]|] eqn:E.
    + destruct IH as (H1 & H2 & H3). split; [done|]. split.
      * right. destruct H2 as [->|(r & Hr & ->)]; [exists nanos; split; [left | done] | exists r; split; [by right | done]].
      * by apply suffix_cons_r.
    + constructor; [|done]. destruct clock; cbn [wait] in E; destruct (Z.leb_spec (toUnit n nanos) (timestamp n)); done.
Qed.

Lemma land_stepMax nb sb n : node_ok nb sb n -> Z.land (i64 (step n + 1)) (stepMax n) = (step n + 1) mod 2 ^ sb.
Proof.
  intros [Hnb Hsb Hbits Hnode Hstep Em _ _ _]. rewrite Em, land_mask by lia.
  assert (2 ^ sb <= 2 ^ 62) by (apply Z.pow_le_mono_r; lia). by rewrite i64_small by lia.
Qed.

Lemma Generate_spec nb sb n clock id n' rest :
  node_ok nb sb n -> Generate n clock = Some (id, n', rest) ->
  Forall (fun r => inWindow nb sb n (toUnit n r)) clock -> 0 <= epoch n ->
  timestamp n = 0 \/ inWindow nb sb n (timestamp n) ->
  id = idOf n' /\ n' = setTime n (timestamp n') (step n') /\ node_ok nb sb n' /\ inWindow nb sb n' (timestamp n') /\
  (timestamp n < timestamp n' \/ timestamp n = timestamp n' /\ step n < step n') /\ rest `suffix_of` clock.
Proof.
  intros Hok E Hw He Hts. destruct clock as [|nanos clock]; [done|]. cbn [Generate] in E. inversion_clear Hw as [|? ? Hu Hw'].
  set (u := toUnit n nanos) in *. assert (Hts0 : 0 <= timestamp n) by (destruct Hts as [->|[? ?]]; lia).
  set (now := if u <? timestamp n then timestamp n else u) in *.
  assert (Hnow : timestamp n <= now /\ (now = u \/ now = timestamp n /\ u < timestamp n)) by (unfold now; zb; lia).
  assert (Hwin : inWindow nb sb n now) by (unfold inWindow in *; destruct Hts as [Hts|Hts]; lia).
  pose proof (ok_sb _ _ _ Hok) as Hsb. pose proof (ok_step _ _ _ Hok) as Hst. rewrite (land_stepMax nb sb n Hok) in E.
  assert (Hmk : forall ts st, 0 <= st < 2 ^ sb -> inWindow nb sb n ts ->
    node_ok nb sb (setTime n ts st) /\ inWindow nb sb (setTime n ts st) ts).
  { intros ts st Hst' Hts'. split; [|done]. destruct Hok. by constructor. }
  destruct (Z.eqb_spec now (timestamp n)) as [Eq|Hne].
  - destruct (Z.eqb_spec ((step n + 1) mod 2 ^ sb) 0) as [E0|Hne0].
    + pose proof (wait_spec n clock now) as Hwait. destruct (wait n now clock) as [[now' rest']|]; [|done].
      cbn in E. injection E as <- <- <-. destruct Hwait as (H1 & H2 & H3).
      assert (Hwin' : inWindow nb sb n now').
      { destruct H2 as [->|(r & Hr & ->)]; [done|]. rewrite List.Forall_forall in Hw'. apply Hw'. by apply list_elem_of_In. }
      destruct (Hmk now' ((step n + 1) mod 2 ^ sb)) as [K1 K2]; [lia|done|].
      split_and!; try done; [by left|]. by apply suffix_cons_r.
    + cbn in E. injection E as <- <- <-.
      assert (Es : (step n + 1) mod 2 ^ sb = step n + 1).
      { apply Z.mod_small. destruct (Z.eq_dec (step n + 1) (2 ^ sb)) as [Ex|]; [|lia]. by rewrite Ex, Z.mod_same in Hne0 by lia. }
      destruct (Hmk now ((step n + 1) mod 2 ^ sb)) as [K1 K2]; [rewrite Es in *; pose proof (Z.mod_pos_bound (step n + 1) (2 ^ sb)); lia|done|].
      split_and!; try done; [right; cbn; lia|]. by apply suffix_cons_r.
  - cbn in E. injection E as <- <- <-. destruct (Hmk now 0) as [K1 K2]; [lia|done|].
    split_and!; try done; [left; cbn; lia|]. by apply suffix_cons_r.
Qed.

Lemma Generate_returns n nanos clock :
  Exists (fun r => timestamp n < toUnit n r) clock -> is_Some (Generate n (nanos :: clock)).
Proof.
  intros Hex. unfold Generate. cbv zeta. generalize (if toUnit n nanos <? timestamp n then timestamp n else toUnit n nanos) as now.
  intros now. destruct (now =? timestamp n); [|cbn; eauto]. destruct (_ =? 0); [|cbn; eauto].
  pose proof (wait_spec n clock now) as Hw. destruct (wait n now clock) as [[now' rest]|]; [cbn; eauto|]. exfalso.
  apply Exists_exists in Hex as (r & Hr & Hlt). rewrite List.Forall_forall in Hw.
  apply list_elem_of_In in Hr. specialize (Hw r Hr). cbn in Hw. lia.
Qed.

(** ** Sequences of calls *)

Lemma generateMany_spec nb sb k : forall n clock ids n' rest,
  node_ok nb sb n -> 0 <= epoch n -> timestamp n = 0 \/ inWindow nb sb n (timestamp n) ->
  Forall (fun r => inWindow nb sb n (toUnit n r)) clock ->
  generateMany k n clock = Some (ids, n', rest) ->
  length ids = k /\ StronglySorted Z.lt ids /\
  Forall (fun id => 0 <= id < 2 ^ totalBits n /\ Z.shiftr id sb mod 2 ^ nb = node n /\
    (inWindow nb sb n (timestamp n) -> pack nb sb (timestamp n - epoch n) (node n) (step n) < id)) ids.
Proof.
  induction k as [|k IH]; intros n clock ids n' rest Hok He Hts Hw E; cbn [generateMany] in E.
  - injection E as <- <- <-. split; [done|]. split; constructor.
  - destruct (Generate n clock) as [[[id n1] clock1]|] eqn:EG; [|done]. cbn in E.
    destruct (generateMany k n1 clock1) as [[[ids1 n2] clock2]|] eqn:EM; [|done]. cbn in E. injection E as <- <- <-.
    destruct (Generate_spec _ _ _ _ _ _ _ Hok EG Hw He Hts) as (-> & En & Hok1 & Hin1 & Hlt & [pre ->]).
    apply Forall_app in Hw as [_ Hw].
    assert (Ef : epoch n1 = epoch n /\ node n1 = node n /\ totalBits n1 = totalBits n) by (by rewrite En).
    destruct Ef as (E1 & E2 & E3).
    assert (Eu : forall r, toUnit n1 r = toUnit n r) by (intros r; unfold toUnit; by rewrite E3).
    destruct (IH n1 clock1 ids1 n2 clock2) as (Hlen & Hsort & Hall).
    { done. } { by rewrite E1. } { by right. } { eapply Forall_impl; [exact Hw|]. intros r. cbn. unfold inWindow. rewrite Eu, E1, E3. done. } { done. }
    destruct (idOf_pack nb sb n1) as [Ep Hb]; [done|done|by rewrite E1|].
    pose proof (ok_nb _ _ _ Hok). pose proof (ok_sb _ _ _ Hok). pose proof (ok_step _ _ _ Hok). pose proof (ok_step _ _ _ Hok1).
    pose proof (ok_node _ _ _ Hok) as Hnode. rewrite E1, E2 in Ep.
    assert (Hnext : inWindow nb sb n (timestamp n) -> pack nb sb (timestamp n - epoch n) (node n) (step n) < idOf n1).
    { intros _. rewrite Ep. apply pack_mono; try done; lia. }
    split; [cbn; lia|]. split.
    + constructor; [done|]. eapply Forall_impl; [exact Hall|]. cbn. intros id (_ & _ & Hid).
      rewrite Ep. specialize (Hid Hin1). rewrite E1, E2 in Hid. exact Hid.
    + constructor.
      * rewrite <- E3. split; [done|]. split; [|done]. rewrite Ep. by apply pack_worker.
      * eapply Forall_impl; [exact Hall|]. cbn. intros id (Hr & Hwk & Hid). rewrite <- E3, <- E2. split; [done|]. split; [done|].
        rewrite E2. intros Hin. specialize (Hid Hin1). rewrite E1, E2 in Hid. specialize (Hnext Hin). rewrite Ep in Hnext. lia.
Qed.

Lemma NewSnowflakeNode_ok cfg n :
  NewSnowflakeNode cfg = inl n -> 0 <= Node cfg -> 0 <= Step cfg -> Node cfg + Step cfg < 256 ->
  0 <= TotalBits cfg <= 63 ->
  node_ok (Node cfg) (Step cfg) n /\ timestamp n = 0 /\ step n = 0 /\ epoch n = Epoch cfg /\ node n = WorkerID cfg.
Proof.
  unfold NewSnowflakeNode. intros E Hn Hs Hsum Ht. destruct (_ || _) eqn:Eo; [done|]. apply orb_false_iff in Eo as [Hw1%Z.ltb_ge Hw2%Z.ltb_ge].
  set (total := if TotalBits cfg =? 0 then 63 else TotalBits cfg) in *.
  assert (Htot : 0 < total <= 63) by (unfold total; zb; lia).
  assert (E8 : u8 (Node cfg + Step cfg) = Node cfg + Step cfg) by (unfold u8; apply Z.mod_small; lia).
  rewrite E8 in E. destruct (Z.leb_spec total (Node cfg + Step cfg)); [done|]. injection E as <-.
  rewrite maxOf_small in Hw2 by lia. split_and!; try done. constructor; cbn; try (done || lia).
  - by apply maxOf_small; lia.
  - destruct (Z.eqb_spec total 63) as [->|]; [done|]. destruct (Z.eqb_spec total 64); [lia|]. cbn [orb].
    rewrite Z.shiftl_mul_pow2, Z.mul_1_l by lia.
    assert (0 < 2 ^ total <= 2 ^ 62) by (split; [lia | apply Z.pow_le_mono_r; lia]). by rewrite !i64_small by (rewrite ?i64_small; lia).
Qed.

(** C33: while the clock stays within the configured time bits after the epoch, even if it jumps
    back, the identifiers of one node strictly increase, so no two are equal; each fits
    the configured bits and carries the worker, so nodes of one configuration with
    different workers never make the same one.  A call returns as soon as the clock
    shows a time after the last one used. *)
Theorem snowflake_unique cfg n clock k ids n' rest :
  0 <= Epoch cfg -> 0 <= Node cfg -> 0 <= Step cfg -> Node cfg + Step cfg < 256 -> 0 <= TotalBits cfg <= 63 ->
  NewSnowflakeNode cfg = inl n ->
  Forall (fun r => inWindow (Node cfg) (Step cfg) n (toUnit n r)) clock ->
  generateMany k n clock = Some (ids, n', rest) ->
  length ids = k /\ StronglySorted Z.lt ids /\
  Forall (fun id => 0 <= id < 2 ^ totalBits n /\ Z.shiftr id (Step cfg) mod 2 ^ Node cfg = WorkerID cfg) ids /\
  (forall nanos later, Exists (fun r => timestamp n' < toUnit n' r) later -> is_Some (Generate n' (nanos :: later))).
Proof.
  intros He Hn Hs Hsum Ht E Hw EM. destruct (NewSnowflakeNode_ok _ _ E Hn Hs Hsum Ht) as (Hok & Hts & _ & Ee & Ew).
  destruct (generateMany_spec _ _ k n clock ids n' rest Hok) as (H1 & H2 & H3); [by rewrite Ee | by left | done | done |].
  split; [done|]. split; [done|]. split; [|intros; by apply Generate_returns].
  eapply Forall_impl; [exact H3|]. cbn. intros id (? & ? & _). by rewrite <- Ew.
Qed.

(** A clock that stands still, jumps back and goes on; with one step bit the third call
    waits. *)
Definition cfg1 : Config := mkConfig 5 2 1 20 3.
Definition node1 : SnowflakeNode := mkNode 0 3 0 5 20 3 1 3 1 (2 ^ 20 - 1).
Definition clock1 : list Z := map (Z.mul 1000000000) [7; 7; 6; 7; 8; 9].
Definition after1 : SnowflakeNode := mkNode 9 3 0 5 20 3 1 3 1 (2 ^ 20 - 1).

Lemma snowflake_unique_witness :
  generateMany 4 node1 clock1 = Some ([22; 23; 30; 38], after1, []) /\ StronglySorted Z.lt [22; 23; 30; 38].
Proof.
  split; [reflexivity|].
  refine (proj1 (proj2 (snowflake_unique cfg1 node1 clock1 4 [22; 23; 30; 38] after1 [] _ _ _ _ _ _ _ _)));
    try (vm_compute; reflexivity || discriminate).
  - vm_compute. split; discriminate.
  - repeat constructor; vm_compute; discriminate || reflexivity.
Defined.
