(* ===== verification/BTreeNode.v ===== *)
(** * BTreeNode: the pages of the B+ tree (src/pkg/datastructs/btree/node.go, consts.go)

    A node is a page of 512 words: its page id, the flags and the number of keys, then the
    keys and the values.  [None] is an index out of range or an explicit panic.  A page in
    use is described completely by [enc]: id, flags, and a list of entries. *)
From stdpp Require Import base list option sorting.
From Stdlib Require Import ZArith Lia.
From S2P Require Import Prelude.

Definition pageSize : Z := 4096.
Definition maxKeys : Z := pageSize / 16 - 1.
Definition absoluteMax : Z := 2 ^ 64 - 2.
Definition metaPidIdx : Z := 0.
Definition metaInfoIdx : Z := 1.
Definition metaOffset : Z := 2.
Definition maskNumKeys : Z := 2 ^ 32 - 1.
Definition bitLeaf : Z := 2 ^ 63.
Definition maskBits : Z := 0xFF00000000000000.

Abbreviation node := (list Z).

Definition keyOffset (i : Z) : Z := metaOffset + i.
Definition valOffset (i : Z) : Z := metaOffset + maxKeys + i.
Definition pid (n : node) : option Z := zget n metaPidIdx.
Definition key (n : node) (i : Z) : option Z := zget n (keyOffset i).
Definition val (n : node) (i : Z) : option Z := zget n (valOffset i).
Definition setAt (n : node) (start k : Z) : option node := zset n start k.

Definition numKeys (n : node) : option Z := info ← zget n metaInfoIdx; Some (Z.land info maskNumKeys).
Definition setNumKeys (n : node) (num : Z) : option node :=
  info ← zget n metaInfoIdx;
  zset n metaInfoIdx (Z.lor (Z.land info (2 ^ 64 - 1 - maskNumKeys)) (u64 num)).

(** [copy(n[a+1:b+1], n[a:b])]; [copy] of overlapping slices moves the old content. *)
Definition shiftUp (n : node) (a b : Z) : option node :=
  src ← zslice n a b; _ ← zslice n (a + 1) (b + 1); copy_at n (a + 1) src.
Definition moveRight (n : node) (lo : Z) : option node :=
  hi ← numKeys n;
  n ← shiftUp n (keyOffset lo) (keyOffset hi);
  shiftUp n (valOffset lo) (valOffset hi).

Definition setBit (n : node) (b : Z) : option node := info ← zget n metaInfoIdx; zset n metaInfoIdx (Z.lor info b).
Definition bits (n : node) : option Z := info ← zget n metaInfoIdx; Some (Z.land info maskBits).
Definition isLeaf (n : node) : option bool := b ← bits n; Some (0 <? Z.land b bitLeaf).
Definition isFull (n : node) : option bool := num ← numKeys n; Some (num =? maxKeys).

(** The linear scan of small nodes. *)
Fixpoint searchLinear (n : node) (k : Z) (rounds : nat) (i N : Z) : option Z :=
  match rounds with
  | O => Some N
  | S rounds => ki ← key n i; if k <=? ki then Some i else searchLinear n k rounds (i + 1) N
  end.
(** The binary search of larger ones; the interval is halved in every round. *)
Fixpoint searchBinary (fuel : nat) (n : node) (k lo hi : Z) : option Z :=
  match fuel with
  | O => None
  | S fuel =>
      if lo <? hi then
        let mid := godiv (lo + hi) 2 in
        km ← key n mid;
        if km <? k then searchBinary fuel n k (mid + 1) hi else searchBinary fuel n k lo mid
      else Some lo
  end.
Definition search (n : node) (k : Z) : option Z :=
  N ← numKeys n;
  if N <? 4 then searchLinear n k (Z.to_nat N) 0 N
  else searchBinary 33 n k 0 N.

Definition maxKey (n : node) : option Z :=
  idx ← numKeys n;
  key n (if 0 <? idx then idx - 1 else idx).

(** [zeroOut(n[a:b])] *)
Definition zeroOut (n : node) (a b : Z) : option node :=
  _ ← zslice n a b; copy_at n a (zeros (b - a)).

(** The loop of [compact] over the entries [right, N): the page and [left]. *)
Fixpoint compactLoop (rounds : nat) (lo mk lft right : Z) (n : node) : option (Z * node) :=
  match rounds with
  | O => Some (lft, n)
  | S rounds =>
      vr ← val n right; kr ← key n right;
      if (vr <? lo) && (kr <? mk) then compactLoop rounds lo mk lft (right + 1) n
      else
        n ← (if lft =? right then Some n
             else n ← setAt n (keyOffset lft) kr; vr ← val n right; setAt n (valOffset lft) vr);
        compactLoop rounds lo mk (lft + 1) (right + 1) n
  end.
Definition compact (n : node) (lo : Z) : option (Z * node) :=
  N ← numKeys n;
  mk ← maxKey n;
  '(lft, n) ← compactLoop (Z.to_nat N) lo mk 0 0 n;
  n ← zeroOut n (keyOffset lft) (keyOffset N);
  n ← zeroOut n (valOffset lft) (valOffset N);
  n ← setNumKeys n lft;
  if lft =? 1 then
    k0 ← key n 0; v0 ← val n 0;
    Some (if (k0 =? mk) && (v0 <? lo) then 0 else lft, n)
  else Some (lft, n).

Definition get (n : node) (k : Z) : option Z :=
  idx ← search n k;
  N ← numKeys n;
  if idx =? N then Some 0
  else ki ← key n idx; if ki =? k then val n idx else Some 0.

(** The number of keys added, and the page. *)
Definition set (n : node) (k v : Z) : option (Z * node) :=
  idx ← search n k;
  ki ← key n idx;
  n ← (if k <? ki then moveRight n idx else Some n);
  '(numAdded, n) ← (if ki =? k then Some (0, n)
                    else num ← numKeys n; n ← setNumKeys n (num + 1); Some (1, n));
  if (ki =? 0) || (k <=? ki) then
    n ← setAt n (keyOffset idx) k;
    n ← setAt n (valOffset idx) v;
    Some (numAdded, n)
  else None.

(** ** Pages as lists of entries *)

Definition pad (l : list Z) : list Z := l ++ replicate (Z.to_nat maxKeys - length l) 0.
Definition enc (p flag : Z) (kvs : list (Z * Z)) : node :=
  [p; flag + zlen kvs] ++ pad (map fst kvs) ++ pad (map snd kvs).

(** Entries in key order, keys within range, and not more than fit. *)
Definition isKey (k : Z) : Prop := 0 < k < 2 ^ 64 - 1.
Definition isVal (v : Z) : Prop := 0 <= v < 2 ^ 64.
Definition keysLt (a b : Z * Z) : Prop := a.1 < b.1.
Definition entries (kvs : list (Z * Z)) : Prop :=
  StronglySorted keysLt kvs /\ Forall (fun e => isKey e.1 /\ isVal e.2) kvs.
Definition isFlag (flag : Z) : Prop := flag = 0 \/ flag = bitLeaf.

(** The position of the first key that is not below [k]. *)
Fixpoint rank (k : Z) (kvs : list (Z * Z)) : nat :=
  match kvs with
  | [] => O
  | (k', _) :: rest => if k' <? k then S (rank k rest) else O
  end.

(** Insertion into sorted entries. *)
Fixpoint ins (k v : Z) (kvs : list (Z * Z)) : list (Z * Z) :=
  match kvs with
  | [] => [(k, v)]
  | (k', v') :: rest => if k' <? k then (k', v') :: ins k v rest else if k' =? k then (k, v) :: rest else (k, v) :: (k', v') :: rest
  end.
Fixpoint find (k : Z) (kvs : list (Z * Z)) : Z :=
  match kvs with
  | [] => 0
  | (k', v') :: rest => if k' =? k then v' else find k rest
  end.

(** ** Words of a page *)

(** A page with its two arrays. *)
Definition mk (p info : Z) (K V : list Z) : node := [p; info] ++ K ++ V.

Lemma enc_mk p flag kvs : enc p flag kvs = mk p (flag + zlen kvs) (pad (map fst kvs)) (pad (map snd kvs)).
Proof. done. Qed.

Lemma maxKeys_255 : maxKeys = 255.
Proof. done. Qed.

Lemma pad_length l : (length l <= 255)%nat -> length (pad l) = 255%nat.
Proof. intros. unfold pad. rewrite maxKeys_255. lens. lia. Qed.

Lemma pad_lookup l i : (i < 255)%nat -> pad l !! i = Some (default 0 (l !! i)) \/ (255 < length l)%nat.
Proof.
  intros Hi. unfold pad. rewrite lookup_app_dec. case_decide.
  - left. destruct (lookup_lt_is_Some_2 l i) as [x ->]; [lia | done].
  - destruct (decide (255 < length l)%nat); [by right | left].
    rewrite lookup_replicate_2 by (rewrite maxKeys_255; lia). by rewrite lookup_ge_None_2 by lia.
Qed.

Section words.
Context (p info : Z) (K V : list Z).
Context (HK : length K = 255%nat) (HV : length V = 255%nat).

Lemma zget_mk_key i : 0 <= i < 255 -> key (mk p info K V) i = K !! Z.to_nat i.
Proof.
  intros Hi. unfold key, zget, mk, keyOffset, metaOffset. rewrite bool_decide_true by lia.
  rewrite lookup_app_r, lookup_app_l by (lens; lia). f_equal. lens. lia.
Qed.
Lemma zget_mk_val i : 0 <= i < 255 -> val (mk p info K V) i = V !! Z.to_nat i.
Proof.
  intros Hi. unfold val, zget, mk, valOffset, metaOffset. rewrite maxKeys_255, bool_decide_true by lia.
  rewrite app_assoc, lookup_app_r by (lens; lia). f_equal. lens. lia.
Qed.
Lemma mk_length : zlen (mk p info K V) = 512.
Proof. unfold mk. lens. lia. Qed.

Lemma setAt_key i x : 0 <= i < 255 -> setAt (mk p info K V) (keyOffset i) x = Some (mk p info (<[Z.to_nat i := x]> K) V).
Proof.
  intros Hi. unfold setAt. rewrite zset_Some by (rewrite mk_length; unfold keyOffset, metaOffset; lia). f_equal.
  unfold mk, keyOffset, metaOffset. rewrite insert_app_r_alt, insert_app_l by (lens; lia). do 3 f_equal. lens. lia.
Qed.
Lemma setAt_val i x : 0 <= i < 255 -> setAt (mk p info K V) (valOffset i) x = Some (mk p info K (<[Z.to_nat i := x]> V)).
Proof.
  intros Hi. unfold setAt. rewrite zset_Some by (rewrite mk_length; unfold valOffset, metaOffset; rewrite maxKeys_255; lia). f_equal.
  unfold mk, valOffset, metaOffset. rewrite maxKeys_255, app_assoc, insert_app_r_alt by (lens; lia). rewrite <- app_assoc.
  do 3 f_equal. lens. lia.
Qed.

(** Moving the words [lo, hi) of an array up by one. *)
Definition shiftList (lo hi : nat) (l : list Z) : list Z := take (S lo) l ++ take (hi - lo) (drop lo l) ++ drop (S hi) l.

Lemma shiftUp_list (pre l post : list Z) lo hi :
  (lo <= hi)%nat -> (hi < length l)%nat ->
  shiftUp (pre ++ l ++ post) (zlen pre + Z.of_nat lo) (zlen pre + Z.of_nat hi) = Some (pre ++ shiftList lo hi l ++ post).
Proof.
  intros Hlo Hhi. unfold shiftUp. unfold zslice at 1. rewrite bool_decide_true by (lens; lia). cbn [mbind option_bind].
  unfold zslice at 1. rewrite bool_decide_true by (lens; lia). cbn [mbind option_bind].
  set (src := ztake _ _). assert (Es : src = take (hi - lo) (drop lo l)).
  { unfold src, ztake, zdrop, zlen. replace (Z.to_nat (Z.of_nat (length pre) + Z.of_nat lo)) with (length pre + lo)%nat by lia.
    rewrite <- drop_drop, drop_app_length, drop_app_le by lia. rewrite take_app_le by (rewrite length_drop; lia). f_equal. lia. }
  assert (Hl : zlen src = Z.of_nat (hi - lo)) by (rewrite Es; lens; lia).
  rewrite copy_at_eq by (rewrite ?Hl; lens; lia). rewrite Hl, Es. f_equal. unfold shiftList, ztake, zdrop, zlen.
  replace (Z.to_nat (Z.of_nat (length pre) + Z.of_nat lo + 1)) with (length pre + S lo)%nat by lia.
  replace (Z.to_nat (Z.of_nat (length pre) + Z.of_nat lo + 1 + Z.of_nat (hi - lo))) with (length pre + S hi)%nat by lia.
  rewrite <- drop_drop, drop_app_length. rewrite (drop_app_le l) by lia. rewrite take_app_ge by lia.
  replace (length pre + S lo - length pre)%nat with (S lo) by lia. rewrite take_app_le by lia. by rewrite <- !app_assoc.
Qed.

Lemma moveRight_mk lo num :
  numKeys (mk p info K V) = Some (Z.of_nat num) -> (lo <= num)%nat -> (num < 255)%nat ->
  moveRight (mk p info K V) (Z.of_nat lo) = Some (mk p info (shiftList lo num K) (shiftList lo num V)).
Proof.
  intros En Hlo Hnum. unfold moveRight. rewrite En. cbn [mbind option_bind].
  pose proof (shiftUp_list [p; info] K V lo num Hlo ltac:(lia)) as E1.
  change (zlen [p; info]) with metaOffset in E1. unfold keyOffset. unfold mk at 1. rewrite E1. cbn [mbind option_bind].
  assert (Hs : length (shiftList lo num K) = 255%nat) by (unfold shiftList; lens; lia).
  pose proof (shiftUp_list ([p; info] ++ shiftList lo num K) V [] lo num Hlo ltac:(lia)) as E2.
  unfold valOffset, mk. rewrite maxKeys_255, !app_nil_r, <- !app_assoc in *.
  replace (metaOffset + 255 + Z.of_nat lo) with (zlen ([p; info] ++ shiftList lo num K) + Z.of_nat lo) by (unfold metaOffset; lens; lia).
  replace (metaOffset + 255 + Z.of_nat num) with (zlen ([p; info] ++ shiftList lo num K) + Z.of_nat num) by (unfold metaOffset; lens; lia).
  exact E2.
Qed.
End words.

(** ** The header word *)

Lemma header_cases (P : Z -> Z -> bool) :
  forallb (fun i => P 0 (Z.of_nat i) && P bitLeaf (Z.of_nat i)) (seq 0 256) = true ->
  forall flag i, isFlag flag -> 0 <= i <= 255 -> P flag i = true.
Proof.
  intros H flag i Hf Hi. rewrite forallb_forall in H. specialize (H (Z.to_nat i)). rewrite List.in_seq, Z2Nat.id in H by lia.
  specialize (H ltac:(lia)). apply andb_true_iff in H. destruct Hf as [->| ->]; apply H.
Qed.

Lemma header_num flag i : isFlag flag -> 0 <= i <= 255 -> Z.land (flag + i) maskNumKeys = i.
Proof. intros. apply Z.eqb_eq. by apply (header_cases (fun flag i => Z.land (flag + i) maskNumKeys =? i)). Qed.
Lemma header_high flag i : isFlag flag -> 0 <= i <= 255 -> Z.land (flag + i) (2 ^ 64 - 1 - maskNumKeys) = flag.
Proof. intros. apply Z.eqb_eq. by apply (header_cases (fun flag i => Z.land (flag + i) (2 ^ 64 - 1 - maskNumKeys) =? flag)). Qed.
Lemma header_or flag i : isFlag flag -> 0 <= i <= 255 -> Z.lor flag (u64 i) = flag + i.
Proof. intros. apply Z.eqb_eq. by apply (header_cases (fun flag i => Z.lor flag (u64 i) =? flag + i)). Qed.
Lemma header_bits flag i : isFlag flag -> 0 <= i <= 255 -> Z.land (flag + i) maskBits = flag.
Proof. intros. apply Z.eqb_eq. by apply (header_cases (fun flag i => Z.land (flag + i) maskBits =? flag)). Qed.

Section header.
Context (p flag : Z) (K V : list Z) (Hf : isFlag flag).

Lemma zget_info info : zget (mk p info K V) metaInfoIdx = Some info.
Proof. done. Qed.
Lemma numKeys_mk i : 0 <= i <= 255 -> numKeys (mk p (flag + i) K V) = Some i.
Proof. intros. unfold numKeys. rewrite zget_info. cbn [mbind option_bind]. by rewrite header_num. Qed.
Lemma zset_info info info' : zset (mk p info K V) metaInfoIdx info' = Some (mk p info' K V).
Proof. unfold zset, mk, metaInfoIdx. rewrite bool_decide_true; [done|]. lens. lia. Qed.
Lemma setNumKeys_mk i j : 0 <= i <= 255 -> 0 <= j <= 255 -> setNumKeys (mk p (flag + i) K V) j = Some (mk p (flag + j) K V).
Proof.
  intros. unfold setNumKeys. rewrite zget_info. cbn [mbind option_bind]. rewrite header_high, header_or by done. apply zset_info.
Qed.
Lemma bits_mk i : 0 <= i <= 255 -> bits (mk p (flag + i) K V) = Some flag.
Proof. intros. unfold bits. rewrite zget_info. cbn [mbind option_bind]. by rewrite header_bits. Qed.
Lemma isLeaf_mk i : 0 <= i <= 255 -> isLeaf (mk p (flag + i) K V) = Some (bool_decide (flag = bitLeaf)).
Proof. intros. unfold isLeaf. rewrite bits_mk by done. by destruct Hf as [->| ->]. Qed.
Lemma isFull_mk i : 0 <= i <= 255 -> isFull (mk p (flag + i) K V) = Some (i =? 255).
Proof. intros. unfold isFull. rewrite numKeys_mk by done. done. Qed.
Lemma pid_mk info : pid (mk p info K V) = Some p.
Proof. done. Qed.
End header.

(** ** Reading a page *)

Definition keyAt (kvs : list (Z * Z)) (i : nat) : Z := default 0 (fst <$> kvs !! i).
Definition valAt (kvs : list (Z * Z)) (i : nat) : Z := default 0 (snd <$> kvs !! i).

Lemma key_enc p flag kvs i : (length kvs <= 255)%nat -> 0 <= i < 255 -> key (enc p flag kvs) i = Some (keyAt kvs (Z.to_nat i)).
Proof.
  intros Hl Hi. rewrite enc_mk, zget_mk_key by (try apply pad_length; rewrite ?length_map; lia).
  destruct (pad_lookup (map fst kvs) (Z.to_nat i)) as [E|E]; [lia| |rewrite length_map in E; lia].
  rewrite E. unfold keyAt. by rewrite list_lookup_fmap.
Qed.
Lemma val_enc p flag kvs i : (length kvs <= 255)%nat -> 0 <= i < 255 -> val (enc p flag kvs) i = Some (valAt kvs (Z.to_nat i)).
Proof.
  intros Hl Hi. rewrite enc_mk, zget_mk_val by (try apply pad_length; rewrite ?length_map; lia).
  destruct (pad_lookup (map snd kvs) (Z.to_nat i)) as [E|E]; [lia| |rewrite length_map in E; lia].
  rewrite E. unfold valAt. by rewrite list_lookup_fmap.
Qed.
Lemma numKeys_enc p flag kvs : isFlag flag -> (length kvs <= 255)%nat -> numKeys (enc p flag kvs) = Some (zlen kvs).
Proof. intros. rewrite enc_mk. apply numKeys_mk; [done|]. unfold zlen. lia. Qed.

Lemma rank_le k kvs : (rank k kvs <= length kvs)%nat.
Proof. induction kvs as [|[k' v'] kvs IH]; cbn; [lia|]. destruct (k' <? k); lia. Qed.

Lemma rank_spec k kvs : StronglySorted keysLt kvs -> forall i e, kvs !! i = Some e -> e.1 < k <-> (i < rank k kvs)%nat.
Proof.
  induction 1 as [|[k' v'] kvs Hs IH Hall]; intros i e Hi; [done|]. cbn. destruct (Z.ltb_spec k' k) as [Hlt|Hge].
  - destruct i as [|i]; cbn in Hi; [injection Hi as <-; cbn; lia|]. rewrite (IH i e Hi). lia.
  - destruct i as [|i]; cbn in Hi; [injection Hi as <-; cbn; lia|].
    pose proof (Forall_lookup_1 _ _ _ _ Hall Hi) as He. unfold keysLt in He. cbn in He. lia.
Qed.

Lemma keyAt_lt k kvs i : StronglySorted keysLt kvs -> (i < length kvs)%nat -> keyAt kvs i < k <-> (i < rank k kvs)%nat.
Proof.
  intros Hs Hi. destruct (lookup_lt_is_Some_2 kvs i Hi) as [e He]. unfold keyAt. rewrite He. cbn. by apply rank_spec.
Qed.

Section search.
Context (p flag k : Z) (kvs : list (Z * Z)).
Context (Hf : isFlag flag) (Hl : (length kvs <= 255)%nat) (Hs : StronglySorted keysLt kvs).

Lemma searchLinear_enc rounds : forall i,
  0 <= i -> i + Z.of_nat rounds = zlen kvs -> i <= Z.of_nat (rank k kvs) ->
  searchLinear (enc p flag kvs) k rounds i (zlen kvs) = Some (Z.of_nat (rank k kvs)).
Proof.
  pose proof (rank_le k kvs) as Hr. induction rounds as [|rounds IH]; intros i Hi0 Hi Hle; cbn [searchLinear].
  - unfold zlen in *. f_equal. lia.
  - rewrite key_enc by (unfold zlen in *; lia). cbn [mbind option_bind].
    pose proof (keyAt_lt k kvs (Z.to_nat i) Hs ltac:(unfold zlen in *; lia)) as Hk.
    destruct (Z.leb_spec k (keyAt kvs (Z.to_nat i))); [f_equal; lia|]. apply IH; lia.
Qed.

Lemma searchBinary_S fuel n lo hi :
  searchBinary (S fuel) n k lo hi =
  if lo <? hi then
    km ← key n (godiv (lo + hi) 2);
    if km <? k then searchBinary fuel n k (godiv (lo + hi) 2 + 1) hi else searchBinary fuel n k lo (godiv (lo + hi) 2)
  else Some lo.
Proof. done. Qed.

Lemma searchBinary_enc fuel : forall lo hi,
  0 <= lo <= hi -> hi <= zlen kvs -> hi - lo < 2 ^ Z.of_nat fuel -> lo <= Z.of_nat (rank k kvs) <= hi ->
  searchBinary (S fuel) (enc p flag kvs) k lo hi = Some (Z.of_nat (rank k kvs)).
Proof.
  induction fuel as [|fuel IH]; intros lo hi Hlo Hhi Hf' Hr; rewrite searchBinary_S.
  - cbn in Hf'. destruct (Z.ltb_spec lo hi); [lia|]. f_equal. lia.
  - destruct (Z.ltb_spec lo hi) as [Hlt|Hge]; [|f_equal; lia]. unfold godiv. rewrite Z.quot_div_nonneg by lia.
    assert (Hmid : lo <= (lo + hi) / 2 < hi) by dlia. assert (Hhalf : (lo + hi) - 1 <= 2 * ((lo + hi) / 2) <= lo + hi) by dlia.
    set (mid := (lo + hi) / 2) in *.
    rewrite Nat2Z.inj_succ, Z.pow_succ_r in Hf' by lia.
    rewrite key_enc by (unfold zlen in *; lia). cbn [mbind option_bind].
    pose proof (keyAt_lt k kvs (Z.to_nat mid) Hs ltac:(unfold zlen in *; lia)) as Hk.
    destruct (Z.ltb_spec (keyAt kvs (Z.to_nat mid)) k); apply (IH _ _); lia.
Qed.

Lemma search_enc : search (enc p flag kvs) k = Some (Z.of_nat (rank k kvs)).
Proof.
  unfold search. rewrite numKeys_enc by done. cbn [mbind option_bind]. pose proof (rank_le k kvs).
  destruct (Z.ltb_spec (zlen kvs) 4).
  - apply searchLinear_enc; unfold zlen in *; lia.
  - apply (searchBinary_enc 32); unfold zlen in *; lia.
Qed.
End search.

(** ** Looking up and inserting *)

Lemma enc_length p flag kvs : (length kvs <= 255)%nat -> zlen (enc p flag kvs) = 512.
Proof. intros. rewrite enc_mk. apply mk_length; apply pad_length; by rewrite length_map. Qed.

Lemma find_rank k kvs : StronglySorted keysLt kvs ->
  find k kvs = match kvs !! rank k kvs with Some e => if e.1 =? k then e.2 else 0 | None => 0 end.
Proof.
  induction 1 as [|[k' v'] kvs Hs IH Hall]; [done|]. cbn. destruct (Z.ltb_spec k' k) as [Hlt|Hge]; cbn.
  - destruct (Z.eqb_spec k' k); [lia|]. exact IH.
  - destruct (Z.eqb_spec k' k) as [->|Hne]; [done|]. clear IH.
    induction Hall as [|[k2 v2] kvs Hk _ IH]; [done|]. unfold keysLt in Hk. cbn in *. destruct (Z.eqb_spec k2 k); [lia|].
    apply IH. by inversion_clear Hs.
Qed.

Lemma get_enc p flag kvs k :
  isFlag flag -> (length kvs <= 255)%nat -> StronglySorted keysLt kvs -> get (enc p flag kvs) k = Some (find k kvs).
Proof.
  intros Hf Hl Hs. unfold get. rewrite search_enc, numKeys_enc by done. cbn [mbind option_bind]. rewrite find_rank by done.
  pose proof (rank_le k kvs). destruct (Z.eqb_spec (Z.of_nat (rank k kvs)) (zlen kvs)) as [E|Hne]; unfold zlen in *.
  - by rewrite lookup_ge_None_2 by lia.
  - rewrite key_enc by lia. cbn [mbind option_bind]. rewrite Nat2Z.id. unfold keyAt.
    destruct (lookup_lt_is_Some_2 kvs (rank k kvs)) as [e He]; [lia|]. rewrite He. change (default 0 (fst <$> Some e)) with e.1.
    destruct (Z.eqb_spec e.1 k); [|done]. rewrite val_enc by lia. rewrite Nat2Z.id. unfold valAt. by rewrite He.
Qed.

Lemma ins_split k v kvs : StronglySorted keysLt kvs ->
  exists a b, kvs = a ++ b /\ length a = rank k kvs /\
  ((exists v' b', b = (k, v') :: b' /\ ins k v kvs = a ++ (k, v) :: b') \/
   ((b = [] \/ exists e b', b = e :: b' /\ k < e.1) /\ ins k v kvs = a ++ (k, v) :: b)).
Proof.
  induction 1 as [|[k' v'] kvs Hs IH Hall]; [exists [], []; repeat split; right; split; [by left | done]|]. cbn.
  destruct (Z.ltb_spec k' k) as [Hlt|Hge].
  - destruct IH as (a & b & -> & Ha & IH). exists ((k', v') :: a), b. split; [done|]. split; [cbn; lia|].
    destruct IH as [(v2 & b' & -> & ->)|[Hb ->]]; [left; eauto | right; done].
  - destruct (Z.eqb_spec k' k) as [->|Hne].
    + exists [], ((k, v') :: kvs). split; [done|]. split; [done|]. left. eauto.
    + exists [], ((k', v') :: kvs). split; [done|]. split; [done|]. right. split; [|done]. right. eexists _, _. split; [done|]. cbn. lia.
Qed.

Lemma pad_app a b : pad (a ++ b) = a ++ b ++ replicate (255 - (length a + length b)) 0.
Proof. unfold pad. by rewrite <- app_assoc, length_app. Qed.

(** Overwriting and inserting in a padded array. *)
Lemma pad_overwrite (a b : list Z) x y : <[length a := x]> (pad (a ++ y :: b)) = pad (a ++ x :: b).
Proof. rewrite !pad_app. rewrite insert_app_r_alt, Nat.sub_diag by lia. done. Qed.

Lemma pad_insert (a b : list Z) x :
  (length a + length b < 255)%nat -> <[length a := x]> (shiftList (length a) (length a + length b) (pad (a ++ b))) = pad (a ++ x :: b).
Proof.
  intros Hl. rewrite !pad_app. cbn [length]. unfold shiftList.
  replace (255 - (length a + length b))%nat with (S (255 - (length a + S (length b)))) by lia.
  set (z := (255 - (length a + S (length b)))%nat). cbn [replicate]. set (w := b ++ 0 :: replicate z 0).
  assert (E1 : take (S (length a)) (a ++ w) = a ++ take 1 w).
  { rewrite take_app_ge by lia. do 2 f_equal. lia. }
  assert (E2 : drop (length a) (a ++ w) = w) by apply drop_app_length.
  assert (E3 : drop (S (length a + length b)) (a ++ w) = replicate z 0).
  { replace (S (length a + length b)) with (length a + S (length b))%nat by lia. rewrite <- drop_drop, drop_app_length. unfold w.
    replace (S (length b)) with (length b + 1)%nat by lia. by rewrite <- drop_drop, drop_app_length. }
  rewrite E1, E2, E3. replace (length a + length b - length a)%nat with (length b) by lia.
  assert (E4 : take (length b) w = b) by apply take_app_length. rewrite E4.
  assert (E5 : exists y, take 1 w = [y]) by (unfold w; destruct b; cbn; eauto). destruct E5 as [y ->].
  rewrite <- app_assoc. rewrite insert_app_r_alt, Nat.sub_diag by lia. done.
Qed.

Lemma pad_append (a : list Z) x : (length a < 255)%nat -> <[length a := x]> (pad a) = pad (a ++ [x]).
Proof.
  intros Hl. unfold pad. rewrite insert_app_r_alt, Nat.sub_diag by lia. rewrite maxKeys_255, length_app. cbn [length].
  replace (Z.to_nat 255 - length a)%nat with (S (Z.to_nat 255 - (length a + 1))) by lia. cbn. by rewrite <- app_assoc.
Qed.

(** [set] on a page with room is insertion into its entries; it counts a new key. *)
Lemma set_enc p flag kvs k v :
  isFlag flag -> (length kvs < 255)%nat -> entries kvs -> isKey k ->
  set (enc p flag kvs) k v = Some (zlen (ins k v kvs) - zlen kvs, enc p flag (ins k v kvs)).
Proof.
  intros Hf Hl [Hs Hall] Hk. unfold isKey in Hk. unfold set. rewrite search_enc by (done || lia). cbn [mbind option_bind].
  destruct (ins_split k v kvs Hs) as (a & b & Ekvs & Ha & Hcase).
  rewrite key_enc by (pose proof (rank_le k kvs); lia). cbn [mbind option_bind]. rewrite Nat2Z.id.
  rewrite <- Ha. unfold keyAt. subst kvs. rewrite lookup_app_r, Nat.sub_diag by lia. rewrite length_app in Hl.
  destruct Hcase as [(v' & b' & -> & ->)|[[->|(e & b' & -> & He)] ->]]; cbn [lookup list_lookup fmap option_fmap option_map default from_option fst]; unfold id.
  - destruct (Z.ltb_spec k k); [lia|]. cbn [mbind option_bind]. rewrite Z.eqb_refl. cbn [mbind option_bind].
    destruct (Z.leb_spec k k); [|lia]. rewrite orb_true_r, !enc_mk. cbn [length] in *.
    assert (Hp : forall w, length (pad (map w (a ++ (k, v') :: b'))) = 255%nat) by (intros; apply pad_length; lens; rewrite length_map; lens; lia).
    rewrite setAt_key by (done || lia). cbn [mbind option_bind]. rewrite setAt_val; [|by rewrite length_insert|done|lia].
    cbn [mbind option_bind]. rewrite Nat2Z.id, !map_app. cbn [map fst snd].
    rewrite <- (length_map fst a) at 1. rewrite pad_overwrite. rewrite <- (length_map snd a) at 1. rewrite pad_overwrite.
    do 2 f_equal; [lens; lia|]. f_equal. f_equal. lens. lia.
  - destruct (Z.ltb_spec k 0); [lia|]. cbn [mbind option_bind]. destruct (Z.eqb_spec 0 k); [lia|]. rewrite app_nil_r.
    rewrite numKeys_enc by (done || lia). cbn [mbind option_bind]. rewrite enc_mk, setNumKeys_mk by (done || unfold zlen; lia).
    cbn [mbind option_bind]. rewrite Z.eqb_refl. cbn [orb].
    rewrite setAt_key by (try apply pad_length; rewrite ?length_map; lia). cbn [mbind option_bind].
    rewrite setAt_val by (rewrite ?length_insert; try apply pad_length; rewrite ?length_map; lia). cbn [mbind option_bind].
    rewrite Nat2Z.id. rewrite <- (length_map fst a) at 1. rewrite pad_append by (rewrite length_map; lia).
    rewrite <- (length_map snd a) at 1. rewrite pad_append by (rewrite length_map; lia).
    rewrite enc_mk, !map_app. do 2 f_equal; [lens; lia|]. f_equal. lens. lia.
  - destruct (Z.ltb_spec k e.1); [|lia]. rewrite enc_mk. cbn [length] in *.
    assert (Hp : forall w, length (pad (map w (a ++ e :: b'))) = 255%nat) by (intros; apply pad_length; lens; rewrite length_map; lens; lia).
    assert (El : zlen (a ++ e :: b') = Z.of_nat (length a + length (e :: b'))) by (lens; lia).
    rewrite moveRight_mk with (num := (length a + length (e :: b'))%nat); [|done|done| |cbn [length]; lia|cbn [length]; lia].
    2: { rewrite numKeys_mk by (done || lens; lia). by rewrite El. }
    cbn [mbind option_bind]. destruct (Z.eqb_spec e.1 k); [lia|].
    rewrite numKeys_mk by (done || lens; lia). cbn [mbind option_bind]. rewrite setNumKeys_mk by (done || lens; lia).
    cbn [mbind option_bind]. destruct (Z.leb_spec k e.1); [|lia]. rewrite orb_true_r.
    assert (Hq : forall w, length (shiftList (length a) (length a + length (e :: b')) (pad (map w (a ++ e :: b')))) = 255%nat).
    { intros w. unfold shiftList. specialize (Hp w). cbn [length]. lens. lia. }
    rewrite setAt_key by (done || lia). cbn [mbind option_bind]. rewrite setAt_val; [|by rewrite length_insert|done|lia].
    cbn [mbind option_bind]. rewrite Nat2Z.id, !map_app.
    assert (Hi : forall (w : Z * Z -> Z) x, <[length a := x]> (shiftList (length a) (length a + length (e :: b'))
      (pad (map w a ++ map w (e :: b')))) = pad (map w a ++ x :: map w (e :: b'))).
    { intros w x. pose proof (pad_insert (map w a) (map w (e :: b')) x) as P. rewrite !length_map in P. apply P. cbn. lia. }
    rewrite !Hi, enc_mk, !map_app. do 2 f_equal; [lens; lia|]. f_equal. lens. lia.
Qed.

(** ** Insertion keeps entries sorted *)

Lemma ins_Forall (P : Z * Z -> Prop) k v kvs : P (k, v) -> Forall P kvs -> Forall P (ins k v kvs).
Proof.
  intros Hk H. induction H as [|[k' v'] kvs H0 Hall IH]; cbn; [by constructor|].
  destruct (k' <? k); [by constructor|]. destruct (k' =? k); by repeat constructor.
Qed.

Lemma ins_sorted k v kvs : StronglySorted keysLt kvs -> StronglySorted keysLt (ins k v kvs).
Proof.
  induction 1 as [|[k' v'] kvs Hs IH Hall]; cbn; [repeat constructor|]. destruct (Z.ltb_spec k' k) as [Hlt|Hge].
  - constructor; [done|]. by apply ins_Forall.
  - destruct (Z.eqb_spec k' k) as [->|Hne]; [by constructor|]. constructor; [by constructor|].
    constructor; [unfold keysLt; cbn; lia|]. eapply Forall_impl; [exact Hall|]. unfold keysLt. cbn. lia.
Qed.

Lemma ins_entries k v kvs : isKey k -> isVal v -> entries kvs -> entries (ins k v kvs).
Proof. intros Hk Hv [Hs Hall]. split; [by apply ins_sorted | by apply ins_Forall]. Qed.

Lemma find_ins k v kvs q : find q (ins k v kvs) = if k =? q then v else find q kvs.
Proof.
  induction kvs as [|[k' v'] kvs IH]; cbn; [done|]. destruct (Z.ltb_spec k' k); cbn.
  - rewrite IH. destruct (Z.eqb_spec k' q), (Z.eqb_spec k q); done || lia.
  - destruct (Z.eqb_spec k' k) as [->|]; cbn; [by destruct (k =? q)|]. destruct (Z.eqb_spec k q) as [->|]; done.
Qed.

Lemma ins_length k v kvs : (length kvs <= length (ins k v kvs) <= S (length kvs))%nat.
Proof. induction kvs as [|[k' v'] kvs IH]; cbn; [lia|]. destruct (k' <? k); cbn; [lia|]. destruct (k' =? k); cbn; lia. Qed.

(** A key above all of [a] is inserted behind it, one below all of [b] before it. *)
Lemma ins_app_r k v a b : Forall (fun e => e.1 < k) a -> ins k v (a ++ b) = a ++ ins k v b.
Proof.
  induction 1 as [|[k' v'] a Hk _ IH]; [done|]. cbn in *. destruct (Z.ltb_spec k' k); [|lia]. by rewrite IH.
Qed.
Lemma ins_app_l k v a b : Forall (fun e => k < e.1) b -> ins k v (a ++ b) = ins k v a ++ b.
Proof.
  intros Hb. induction a as [|[k' v'] a IH]; cbn.
  - destruct Hb as [|[k2 v2] b Hk Hb]; [done|]. cbn in *. destruct (Z.ltb_spec k2 k); [lia|]. destruct (Z.eqb_spec k2 k); [lia | done].
  - destruct (k' <? k); [by rewrite IH|]. by destruct (k' =? k).
Qed.

(** The last key of a page. *)
Definition topKey (kvs : list (Z * Z)) : Z := keyAt kvs (length kvs - 1).

Lemma maxKey_enc p flag kvs : isFlag flag -> (length kvs <= 255)%nat -> maxKey (enc p flag kvs) = Some (topKey kvs).
Proof.
  intros Hf Hl. unfold maxKey. rewrite numKeys_enc by done. cbn [mbind option_bind]. unfold topKey, zlen.
  destruct (Z.ltb_spec 0 (Z.of_nat (length kvs))); rewrite key_enc by lia; do 2 f_equal; lia.
Qed.

Lemma topKey_snoc kvs e : topKey (kvs ++ [e]) = e.1.
Proof. unfold topKey, keyAt. rewrite length_app. cbn. replace (length kvs + 1 - 1)%nat with (length kvs) by lia. by rewrite list_lookup_middle. Qed.

Lemma topKey_max kvs : StronglySorted keysLt kvs -> Forall (fun e => e.1 <= topKey kvs) kvs.
Proof.
  destruct kvs as [|e kvs _] using rev_ind; [constructor|]. rewrite topKey_snoc. intros Hs. apply StronglySorted_app in Hs as (Hlt & _ & _).
  apply Forall_app. split; [|constructor; [lia | constructor]]. apply Forall_forall. intros x Hx.
  specialize (Hlt x e Hx ltac:(left)). unfold keysLt in Hlt. lia.
Qed.

Lemma topKey_app a b : b <> [] -> topKey (a ++ b) = topKey b.
Proof.
  intros Hb. destruct b as [|e b _] using rev_ind; [done|]. by rewrite app_assoc, !topKey_snoc.
Qed.

(** ** Compaction of a page *)

(** Entries below the bound go, the last one excepted. *)
Definition keeps (lo mk : Z) (e : Z * Z) : Prop := ~ (e.2 < lo /\ e.1 < mk).
#[export] Instance keeps_dec lo mk e : Decision (keeps lo mk e).
Proof. unfold keeps. apply _. Defined.

Section compact.
Context (p info lo mx : Z) (K0 V0 : list Z) (kvs : list (Z * Z)) (Hl : (length kvs <= 255)%nat).

(** [n] agrees with the original from [right] on, and starts with the kept entries. *)
Definition progress (right : nat) (kept : list (Z * Z)) (n : node) : Prop :=
  exists K V, n = mk p info K V /\ length K = 255%nat /\ length V = 255%nat /\
    take (length kept) K = map fst kept /\ take (length kept) V = map snd kept /\
    drop right K = drop right (pad (map fst kvs)) /\ drop right V = drop right (pad (map snd kvs)) /\ (length kept <= right)%nat.

Lemma take_insert_snoc (l : list Z) (n : nat) x xs : (n < length l)%nat -> take n l = xs -> take (S n) (<[n := x]> l) = xs ++ [x].
Proof.
  intros Hn <-. rewrite (take_S_r _ _ x) by (by apply list_lookup_insert_eq). by rewrite take_insert_ge by lia.
Qed.

Lemma progress_lookup right kept n e :
  progress right kept n -> (right < 255)%nat -> kvs !! right = Some e ->
  val n (Z.of_nat right) = Some e.2 /\ key n (Z.of_nat right) = Some e.1.
Proof.
  intros (K & V & -> & HK & HV & _ & _ & EK & EV & _) Hr He.
  assert (Hd : forall (l l' : list Z), drop right l = drop right l' -> l !! right = l' !! right).
  { intros l l' E. rewrite <- (Nat.add_0_r right), <- !lookup_drop. by rewrite E. }
  rewrite zget_mk_val, zget_mk_key by (done || lia). rewrite Nat2Z.id, (Hd _ _ EK), (Hd _ _ EV).
  assert (Hlt : (right < length kvs)%nat) by (apply lookup_lt_is_Some; eauto).
  destruct (pad_lookup (map fst kvs) right) as [->|Hb]; [lia| |rewrite length_map in Hb; lia].
  destruct (pad_lookup (map snd kvs) right) as [->|Hb]; [lia| |rewrite length_map in Hb; lia].
  by rewrite !list_lookup_fmap, He.
Qed.

(** Copying the entry at [right] down to the end of the kept ones. *)
Lemma progress_keep right kept n e :
  progress right kept n -> (right < 255)%nat -> kvs !! right = Some e ->
  exists n', (if Z.of_nat (length kept) =? Z.of_nat right then Some n
    else n ← setAt n (keyOffset (Z.of_nat (length kept))) e.1; vr ← val n (Z.of_nat right); setAt n (valOffset (Z.of_nat (length kept))) vr) = Some n' /\
  progress (S right) (kept ++ [e]) n'.
Proof.
  intros Hp Hr He. destruct (progress_lookup _ _ _ _ Hp Hr He) as [Hv Hk].
  destruct Hp as (K & V & -> & HK & HV & TK & TV & DK & DV & Hle).
  assert (HS : forall l l' : list Z, drop right l = drop right l' -> drop (S right) l = drop (S right) l').
  { intros l l' E. replace (S right) with (right + 1)%nat by lia. by rewrite <- !drop_drop, E. }
  rewrite zget_mk_key in Hk by (done || lia). rewrite zget_mk_val in Hv by (done || lia). rewrite Nat2Z.id in Hk, Hv.
  destruct (Z.eqb_spec (Z.of_nat (length kept)) (Z.of_nat right)) as [E|Hne].
  - assert (Er : length kept = right) by lia. eexists. split; [done|]. exists K, V. rewrite length_app, !map_app. cbn [length map].
    rewrite Nat.add_1_r, Er in *. split_and!; try done; [| |by apply HS|by apply HS].
    + rewrite (take_S_r _ _ _ Hk). by rewrite TK.
    + rewrite (take_S_r _ _ _ Hv). by rewrite TV.
  - rewrite setAt_key by (done || lia). cbn [mbind option_bind]. rewrite zget_mk_val by (rewrite ?length_insert; done || lia).
    rewrite !Nat2Z.id, Hv. cbn [mbind option_bind]. rewrite setAt_val by (rewrite ?length_insert; done || lia).
    eexists. split; [done|]. rewrite Nat2Z.id. exists (<[length kept := e.1]> K), (<[length kept := e.2]> V). rewrite !length_app, !map_app. cbn [length map].
    rewrite Nat.add_1_r, !length_insert. split_and!; try done; [| | | |lia].
    + apply take_insert_snoc; [lia | done].
    + apply take_insert_snoc; [lia | done].
    + rewrite drop_insert_lt by lia. by apply HS.
    + rewrite drop_insert_lt by lia. by apply HS.
Qed.

Lemma compactLoop_spec rounds : forall right kept n,
  progress right kept n -> (right + rounds = length kvs)%nat ->
  exists n' kept', compactLoop rounds lo mx (Z.of_nat (length kept)) (Z.of_nat right) n = Some (Z.of_nat (length kept'), n') /\
    kept' = kept ++ filter (keeps lo mx) (drop right kvs) /\ progress (length kvs) kept' n'.
Proof.
  induction rounds as [|rounds IH]; intros right kept n Hp Hr; cbn [compactLoop].
  - exists n, kept. rewrite drop_ge by lia. rewrite filter_nil, app_nil_r. split; [done|]. split; [done|]. by replace (length kvs) with right by lia.
  - destruct (lookup_lt_is_Some_2 kvs right) as [e He]; [lia|]. destruct (progress_lookup _ _ _ _ Hp ltac:(lia) He) as [Hv Hk].
    rewrite Hv, Hk. cbn [mbind option_bind]. rewrite (drop_S _ _ _ He). replace (Z.of_nat right + 1) with (Z.of_nat (S right)) by lia.
    destruct ((e.2 <? lo) && (e.1 <? mx)) eqn:Eb.
    + apply andb_true_iff in Eb as [E1%Z.ltb_lt E2%Z.ltb_lt]. rewrite (filter_cons_False (keeps lo mx)) by (intros H; by apply H).
      apply IH; [|lia]. destruct Hp as (K & V & -> & HK & HV & TK & TV & DK & DV & Hle). exists K, V. split_and!; try done; [| |lia].
      all: replace (S right) with (right + 1)%nat by lia; rewrite <- !drop_drop; by f_equal.
    + rewrite (filter_cons_True (keeps lo mx)).
      2: { intros [E1 E2]. apply andb_false_iff in Eb as [Eb%Z.ltb_ge|Eb%Z.ltb_ge]; lia. }
      destruct (progress_keep right kept n e Hp ltac:(lia) He) as (n' & -> & Hp'). cbn [mbind option_bind].
      replace (Z.of_nat (length kept) + 1) with (Z.of_nat (length (kept ++ [e]))) by (rewrite length_app; cbn; lia).
      destruct (IH (S right) (kept ++ [e]) n' Hp' ltac:(lia)) as (n2 & kept2 & E & -> & Hp2).
      eexists _, _. split; [exact E|]. split; [by rewrite <- app_assoc | done].
Qed.
End compact.

(** ** Overwriting ranges *)

Definition blank (a b : nat) (l : list Z) : list Z := take a l ++ replicate (b - a) 0 ++ drop b l.

Lemma zeroOut_list (pre l post : list Z) (a b : nat) :
  (a <= b)%nat -> (b <= length l)%nat ->
  zeroOut (pre ++ l ++ post) (zlen pre + Z.of_nat a) (zlen pre + Z.of_nat b) = Some (pre ++ blank a b l ++ post).
Proof.
  intros Ha Hb. unfold zeroOut, zslice. rewrite bool_decide_true by (lens; lia). cbn [mbind option_bind].
  assert (Hz : zlen (zeros (zlen pre + Z.of_nat b - (zlen pre + Z.of_nat a))) = Z.of_nat (b - a)) by (unfold zeros; lens; lia).
  rewrite copy_at_eq by (rewrite ?Hz; lens; lia). rewrite Hz. f_equal. unfold blank, zeros, ztake, zdrop, zlen.
  replace (Z.to_nat (Z.of_nat (length pre) + Z.of_nat a)) with (length pre + a)%nat by lia.
  replace (Z.to_nat (Z.of_nat (length pre) + Z.of_nat a + Z.of_nat (b - a))) with (length pre + b)%nat by lia.
  replace (Z.to_nat (Z.of_nat (length pre) + Z.of_nat b - (Z.of_nat (length pre) + Z.of_nat a))) with (b - a)%nat by lia.
  rewrite <- drop_drop, drop_app_length, (drop_app_le l) by lia. rewrite take_app_ge by lia.
  replace (length pre + a - length pre)%nat with a by lia. rewrite take_app_le by lia. by rewrite <- !app_assoc.
Qed.

Section ranges.
Context (p info : Z) (K V : list Z) (HK : length K = 255%nat) (HV : length V = 255%nat).

Lemma zeroOut_keys (a b : nat) : (a <= b)%nat -> (b <= 255)%nat ->
  zeroOut (mk p info K V) (keyOffset (Z.of_nat a)) (keyOffset (Z.of_nat b)) = Some (mk p info (blank a b K) V).
Proof. intros. apply (zeroOut_list [p; info] K V a b); lia. Qed.
Lemma zeroOut_vals (a b : nat) : (a <= b)%nat -> (b <= 255)%nat ->
  zeroOut (mk p info K V) (valOffset (Z.of_nat a)) (valOffset (Z.of_nat b)) = Some (mk p info K (blank a b V)).
Proof.
  intros Ha Hb. pose proof (zeroOut_list ([p; info] ++ K) V [] a b Ha ltac:(lia)) as E.
  replace (zlen ([p; info] ++ K)) with 257 in E by (lens; lia). rewrite !app_nil_r, <- !app_assoc in E. exact E.
Qed.

Lemma copy_keys (src : list Z) : (length src <= 255)%nat ->
  copy_at (mk p info K V) (keyOffset 0) src = Some (mk p info (src ++ drop (length src) K) V).
Proof.
  intros Hs. rewrite copy_at_eq by (rewrite ?mk_length by done; unfold keyOffset, metaOffset, zlen; lia). f_equal.
  unfold mk, ztake, zdrop, keyOffset, metaOffset, zlen. replace (Z.to_nat (2 + 0 + Z.of_nat (length src))) with (S (S (length src))) by lia.
  change (Z.to_nat (2 + 0)) with 2%nat. cbn [take app drop]. rewrite drop_app_le by lia. by rewrite <- app_assoc.
Qed.
Lemma copy_vals (src : list Z) : (length src <= 255)%nat ->
  copy_at (mk p info K V) (valOffset 0) src = Some (mk p info K (src ++ drop (length src) V)).
Proof.
  intros Hs. rewrite copy_at_eq by (rewrite ?mk_length by done; unfold valOffset, metaOffset, zlen; rewrite maxKeys_255; lia). f_equal.
  unfold mk, ztake, zdrop, valOffset, metaOffset, zlen. rewrite maxKeys_255.
  replace (Z.to_nat (2 + 255 + 0 + Z.of_nat (length src))) with (length ([p; info] ++ K) + length src)%nat by (lens; lia).
  replace (Z.to_nat (2 + 255 + 0)) with (length ([p; info] ++ K)) by (lens; lia).
  rewrite (app_assoc [p; info] K V), take_app_length, <- drop_drop, drop_app_length. by rewrite <- app_assoc.
Qed.
End ranges.

Lemma blank_length a b l : (a <= b)%nat -> (b <= length l)%nat -> length (blank a b l) = length l.
Proof. intros. unfold blank. lens. lia. Qed.

(** A prefix that is right, then zeros, is a padded array. *)
Lemma blank_pad (l xs ys : list Z) :
  length l = 255%nat -> (length ys <= 255)%nat -> (length xs <= length ys)%nat -> take (length xs) l = xs -> drop (length ys) l = drop (length ys) (pad ys) ->
  blank (length xs) (length ys) l = pad xs.
Proof.
  intros Hl Hy Hxy Ht Hd. unfold blank, pad. rewrite Ht, Hd. f_equal. unfold pad. rewrite drop_app_length, <- replicate_add.
  f_equal. rewrite maxKeys_255. lia.
Qed.

(** [compact] keeps exactly the entries with a value at or above the bound and the last one; it
    reports 0 when only the last one is left and it is below the bound as well. *)
Lemma compact_enc p flag kvs lo :
  isFlag flag -> (length kvs <= 255)%nat -> kvs <> [] -> StronglySorted keysLt kvs ->
  let kept := filter (keeps lo (topKey kvs)) kvs in
  compact (enc p flag kvs) lo =
    Some (if (length kept =? 1)%nat && (keyAt kept 0 =? topKey kvs) && (valAt kept 0 <? lo) then 0 else zlen kept, enc p flag kept).
Proof.
  intros Hf Hl Hne Hs. cbv zeta. unfold compact. rewrite numKeys_enc, maxKey_enc by done. cbn [mbind option_bind].
  assert (Hp0 : progress p (flag + zlen kvs) kvs 0 [] (enc p flag kvs)).
  { exists (pad (map fst kvs)), (pad (map snd kvs)). rewrite !pad_length by (by rewrite length_map). done. }
  destruct (compactLoop_spec p (flag + zlen kvs) lo (topKey kvs) kvs Hl (length kvs) 0 [] _ Hp0 ltac:(lia)) as (n & kept & E & Ek & Hp).
  rewrite drop_0 in Ek. cbn [app] in Ek. rewrite <- Ek. change (zlen kvs) with (Z.of_nat (length kvs)) in *. rewrite Nat2Z.id. cbn [length] in E. change (Z.of_nat 0) with 0 in E.
  rewrite E. cbn [mbind option_bind]. destruct Hp as (K & V & -> & HK & HV & TK & TV & DK & DV & Hle).
  rewrite zeroOut_keys by (done || lia). cbn [mbind option_bind].
  rewrite zeroOut_vals by (rewrite ?blank_length; done || lia). cbn [mbind option_bind].
  rewrite setNumKeys_mk by (done || unfold zlen; lia). cbn [mbind option_bind].
  assert (EK : blank (length kept) (length kvs) K = pad (map fst kept)).
  { pose proof (blank_pad K (map fst kept) (map fst kvs)) as B. rewrite !length_map in B. by apply B. }
  assert (EV : blank (length kept) (length kvs) V = pad (map snd kept)).
  { pose proof (blank_pad V (map snd kept) (map snd kvs)) as B. rewrite !length_map in B. by apply B. }
  rewrite EK, EV. fold (zlen kept). rewrite <- enc_mk. destruct (Nat.eqb_spec (length kept) 1) as [E1|N1].
  - unfold zlen. rewrite E1. cbn [Z.of_nat Z.eqb]. rewrite key_enc, val_enc by lia. done.
  - destruct (Z.eqb_spec (zlen kept) 1) as [E2|_]; [unfold zlen in E2; lia | done].
Qed.

(** ** The two halves of a full page *)

Section slices.
Context (p info : Z) (K V : list Z) (HK : length K = 255%nat) (HV : length V = 255%nat).

Lemma zslice_keys (a b : nat) : (a <= b)%nat -> (b <= 255)%nat ->
  zslice (mk p info K V) (keyOffset (Z.of_nat a)) (keyOffset (Z.of_nat b)) = Some (take (b - a) (drop a K)).
Proof.
  intros. unfold zslice. rewrite mk_length by done. unfold keyOffset, metaOffset. rewrite bool_decide_true by lia. f_equal.
  unfold ztake, zdrop, mk. replace (Z.to_nat (2 + Z.of_nat a)) with (S (S a)) by lia. cbn [app drop].
  rewrite drop_app_le by lia. rewrite take_app_le by (rewrite length_drop; lia). f_equal. lia.
Qed.
Lemma zslice_vals (a b : nat) : (a <= b)%nat -> (b <= 255)%nat ->
  zslice (mk p info K V) (valOffset (Z.of_nat a)) (valOffset (Z.of_nat b)) = Some (take (b - a) (drop a V)).
Proof.
  intros. unfold zslice. rewrite mk_length by done. unfold valOffset, metaOffset. rewrite maxKeys_255, bool_decide_true by lia. f_equal.
  unfold ztake, zdrop, mk. replace (Z.to_nat (2 + 255 + Z.of_nat a)) with (length ([p; info] ++ K) + a)%nat by (lens; lia).
  rewrite (app_assoc [p; info] K V), <- drop_drop, drop_app_length. f_equal. lia.
Qed.
End slices.

Lemma pad_copy (l : list Z) : l ++ drop (length l) (pad []) = pad l.
Proof. unfold pad. cbn [app length]. rewrite drop_replicate. done. Qed.

Lemma pad_full l : length l = 255%nat -> pad l = l.
Proof. intros Hl. unfold pad. rewrite Hl. apply app_nil_r. Qed.

Lemma upper_half q flag p kvs : isFlag flag -> length kvs = 255%nat ->
  let n := enc p flag kvs in
  let nn := enc q flag [] in
  exists ks vs n1 n2, zslice n (keyOffset 127) (keyOffset 255) = Some ks /\ copy_at nn (keyOffset 0) ks = Some n1 /\
    zslice n (valOffset 127) (valOffset 255) = Some vs /\ copy_at n1 (valOffset 0) vs = Some n2 /\
    setNumKeys n2 128 = Some (enc q flag (drop 127 kvs)).
Proof.
  intros Hf Hl. cbv zeta. rewrite !enc_mk.
  assert (HK : forall w : Z * Z -> Z, length (map w kvs) = 255%nat) by (intros; by rewrite length_map). rewrite !pad_full by apply HK.
  exists (drop 127 (map fst kvs)), (drop 127 (map snd kvs)).
  exists (mk q (flag + 0) (pad (drop 127 (map fst kvs))) (pad [])), (mk q (flag + 0) (pad (drop 127 (map fst kvs))) (pad (drop 127 (map snd kvs)))).
  assert (Hd : forall w : Z * Z -> Z, length (drop 127 (map w kvs)) = 128%nat) by (intros; rewrite length_drop, HK; lia).
  assert (Ht : forall w : Z * Z -> Z, take (255 - 127) (drop 127 (map w kvs)) = drop 127 (map w kvs)) by (intros; apply firstn_all2; rewrite Hd; lia).
  split_and!.
  - rewrite (zslice_keys p _ _ _ (HK fst) (HK snd) 127 255) by lia. by rewrite Ht.
  - change (zlen (@nil (Z * Z))) with 0. cbn [map]. rewrite copy_keys; [|by apply pad_length; cbn; lia|by apply pad_length; cbn; lia|rewrite Hd; lia]. by rewrite pad_copy.
  - rewrite (zslice_vals p _ _ _ (HK fst) (HK snd) 127 255) by lia. by rewrite Ht.
  - rewrite copy_vals; [|apply pad_length; rewrite Hd; lia|by apply pad_length; cbn; lia|rewrite Hd; lia]. by rewrite pad_copy.
  - rewrite setNumKeys_mk by (done || lia). rewrite !skipn_map. do 3 f_equal. unfold zlen. rewrite length_drop, Hl. done.
Qed.

Lemma lower_half p flag kvs : isFlag flag -> length kvs = 255%nat ->
  let n := enc p flag kvs in
  exists n1 n2, zeroOut n (keyOffset 127) (keyOffset 255) = Some n1 /\ zeroOut n1 (valOffset 127) (valOffset 255) = Some n2 /\
    setNumKeys n2 127 = Some (enc p flag (take 127 kvs)).
Proof.
  intros Hf Hl. cbv zeta. rewrite !enc_mk.
  assert (HK : forall w : Z * Z -> Z, length (map w kvs) = 255%nat) by (intros; by rewrite length_map). rewrite !pad_full by apply HK.
  assert (Hb : forall w : Z * Z -> Z, blank 127 255 (map w kvs) = pad (map w (take 127 kvs))).
  { intros w. unfold blank, pad. rewrite drop_ge by (rewrite HK; lia). rewrite length_map, length_take, Hl, firstn_map. by rewrite app_nil_r. }
  exists (mk p (flag + zlen kvs) (pad (map fst (take 127 kvs))) (map snd kvs)), (mk p (flag + zlen kvs) (pad (map fst (take 127 kvs))) (pad (map snd (take 127 kvs)))).
  split_and!.
  - rewrite (zeroOut_keys p _ _ _ (HK fst) (HK snd) 127 255) by lia. by rewrite Hb.
  - rewrite (zeroOut_vals p _ _ _) with (a := 127%nat) (b := 255%nat); [|apply pad_length; rewrite length_map, length_take; lia|apply HK|lia|lia]. by rewrite Hb.
  - rewrite setNumKeys_mk by (done || unfold zlen; lia). unfold zlen. by rewrite length_take, Hl.
Qed.
