(* ===== verification/BTree.v ===== *)
(** * BTree: the in-memory B+ tree (src/pkg/datastructs/btree/btree.go)

    The tree lives in one byte buffer, cut into pages of 512 words; a page id of 0 is nil.
    A [node] in the code is a view of a page, so operations name pages by id and read them
    again; the code does the same after every allocation that may move the buffer.  Where it
    keeps an old view ([right] in [Set], here [rp]) nothing is written in between.  [None] is a panic,
    or the recursion has not ended within the fuel.  The buffer grows by pages
    that [newNode] clears, so their old content does not matter. *)
From stdpp Require Import base list option gmap sorting.
From Stdlib Require Import ZArith Lia.
From S2P Require Import Prelude BTreeNode.

Definition minSize : Z := 2 ^ 20.

(** [stats] holds the two calculated counters. *)
Record Tree := mkTree { data : list node; nextPage : Z; freePage : Z; NumLeafKeys : Z; NumPagesFree : Z }.

Definition zeroPage : node := replicate 512 0.

(** [t.node(pid)] *)
Definition page (t : Tree) (p : Z) : option node := if p =? 0 then None else zget (data t) p.
Definition setPage (t : Tree) (p : Z) (n : node) : option Tree :=
  d ← zset (data t) p n;
  Some (mkTree d (nextPage t) (freePage t) (NumLeafKeys t) (NumPagesFree t)).
Definition addLeafKeys (t : Tree) (d : Z) : Tree := mkTree (data t) (nextPage t) (freePage t) (NumLeafKeys t + d) (NumPagesFree t).

Definition newNode (t : Tree) (bit : Z) : option (Tree * Z) :=
  let '(p, t1) :=
    if 0 <? freePage t then (freePage t, mkTree (data t) (nextPage t) (freePage t) (NumLeafKeys t) (NumPagesFree t - 1))
    else
      let p := nextPage t in
      let reqSize := p * pageSize + pageSize in
      let d := if pageSize * zlen (data t) <? reqSize then data t ++ replicate (Z.to_nat (p + 1 - zlen (data t))) zeroPage else data t in
      (p, mkTree d (u64 (p + 1)) (freePage t) (NumLeafKeys t) (NumPagesFree t)) in
  n ← page t1 p;
  t2 ← (if 0 <? freePage t1 then
          next ← zget n 0; Some (mkTree (data t1) (nextPage t1) next (NumLeafKeys t1) (NumPagesFree t1))
        else Some t1);
  n ← zeroOut n 0 (zlen n);
  n ← setBit n bit;
  n ← setAt n metaPidIdx p;
  t3 ← setPage t2 p n;
  Some (t3, p).

(** The new right sibling's page. *)
Definition split (t : Tree) (p : Z) : option (Tree * Z) :=
  n ← page t p;
  full ← isFull n;
  if negb full then None else
  b ← bits n;
  '(t, q) ← newNode t b;
  n ← page t p; nn ← page t q;
  let half := godiv maxKeys 2 in
  ks ← zslice n (keyOffset half) (keyOffset maxKeys); nn ← copy_at nn (keyOffset 0) ks;
  vs ← zslice n (valOffset half) (valOffset maxKeys); nn ← copy_at nn (valOffset 0) vs;
  nn ← setNumKeys nn (maxKeys - half);
  t ← setPage t q nn;
  n ← zeroOut n (keyOffset half) (keyOffset maxKeys);
  n ← zeroOut n (valOffset half) (valOffset maxKeys);
  n ← setNumKeys n half;
  t ← setPage t p n;
  Some (t, q).

(** [n.set(child.maxKey(), child.pid())] on the page [p]. *)
Definition setChild (t : Tree) (p c : Z) : option Tree :=
  child ← page t c; mk ← maxKey child; cp ← pid child;
  n ← page t p; '(_, n) ← BTreeNode.set n mk cp;
  setPage t p n.

Fixpoint set (fuel : nat) (t : Tree) (p k v : Z) : option Tree :=
  match fuel with
  | O => None
  | S fuel =>
      n ← page t p; leaf ← isLeaf n;
      if (leaf : bool) then
        '(added, n) ← BTreeNode.set n k v;
        t ← setPage t p n; Some (addLeafKeys t added)
      else
        idx ← search n k;
        if maxKeys <=? idx then None else
        ki ← key n idx;
        n ← (if ki =? 0 then n ← setAt n (keyOffset idx) k; num ← numKeys n; setNumKeys n (num + 1) else Some n);
        t ← setPage t p n;
        c ← val n idx;
        '(t, c) ← (if c =? 0 then
                     '(t, c) ← newNode t bitLeaf;
                     n ← page t p; n ← setAt n (valOffset idx) c;
                     t ← setPage t p n; Some (t, c)
                   else Some (t, c));
        child ← page t c; cp ← pid child;
        t ← set fuel t cp k v;
        child ← page t cp; full ← isFull child;
        if (full : bool) then
          cp ← pid child;
          '(t, q) ← split t cp;
          n ← page t p; c ← zget n (valOffset idx);
          t ← setChild t p c;
          setChild t p q
        else Some t
  end.

(** [Set]; a full root is split into two pages below it. *)
Definition Set_ (fuel : nat) (t : Tree) (k v : Z) : option Tree :=
  if (k =? 2 ^ 64 - 1) || (k =? 0) then None else
  t ← set fuel t 1 k v;
  root ← page t 1; full ← isFull root;
  if (full : bool) then
    '(t, rp) ← split t 1;
    b ← bits root;
    '(t, q) ← newNode t b;
    root ← page t 1; lft ← page t q;
    dst ← zslice lft 0 (keyOffset maxKeys);
    let lft := gcopy dst root ++ zdrop (keyOffset maxKeys) lft in
    num ← numKeys root;
    lft ← setNumKeys lft num;
    t ← setPage t q lft;
    root ← zeroOut root 0 (zlen root);
    root ← setNumKeys root 0;
    mk ← maxKey lft; lp ← pid lft;
    '(_, root) ← BTreeNode.set root mk lp;
    t ← setPage t 1 root;
    setChild t 1 rp
  else Some t.

(** The pages of a buffer of [minSize] bytes have any content. *)
Definition Reset (old : list node) : option Tree :=
  '(t, _) ← newNode (mkTree old 1 0 0 0) 0;
  Set_ 2 t absoluteMax 0.
Definition NewTree (old : list node) : option Tree := Reset old.

Fixpoint get (fuel : nat) (t : Tree) (p k : Z) : option Z :=
  match fuel with
  | O => None
  | S fuel =>
      n ← page t p; leaf ← isLeaf n;
      if (leaf : bool) then BTreeNode.get n k
      else
        idx ← search n k; num ← numKeys n;
        if idx =? num then Some 0
        else
          ki ← key n idx;
          if ki =? 0 then Some 0
          else c ← zget n (valOffset idx); if c =? 0 then None else get fuel t c k
  end.
Definition Get (fuel : nat) (t : Tree) (k : Z) : option Z :=
  if (k =? 2 ^ 64 - 1) || (k =? 0) then None else get fuel t 1 k.

(** The loop over the children of the page [p]. *)
Fixpoint iterChildren {A} (visit : Z -> Tree * A -> option (Tree * A)) (p : Z) (rounds : nat) (i : Z) (s : Tree * A) : option (Tree * A) :=
  match rounds with
  | O => Some s
  | S rounds =>
      n ← page s.1 p; ki ← key n i;
      if ki =? 0 then Some s
      else c ← zget n (valOffset i); s ← visit c s; iterChildren visit p rounds (i + 1) s
  end.
(** [iterate]: [fn] on every node from the root down; it may change the tree. *)
Fixpoint iterate {A} (fuel : nat) (fn : Z -> Tree * A -> option (Tree * A)) (p : Z) (s : Tree * A) : option (Tree * A) :=
  match fuel with
  | O => None
  | S fuel =>
      s ← fn p s;
      n ← page s.1 p; leaf ← isLeaf n;
      if (leaf : bool) then Some s
      else iterChildren (iterate fuel fn) p (Z.to_nat maxKeys) 0 s
  end.

(** The callback of [IterateKV] on a page; the pairs given to [f] are recorded. *)
Fixpoint leafKV (rounds : nat) (f : Z -> Z -> Z) (i : Z) (n : node) (seen : list (Z * Z)) : option (node * list (Z * Z)) :=
  match rounds with
  | O => Some (n, seen)
  | S rounds =>
      k ← key n i; v ← val n i;
      if v =? 0 then leafKV rounds f (i + 1) n seen
      else
        let newVal := f k v in
        n ← (if newVal =? 0 then Some n else setAt n (valOffset i) newVal);
        leafKV rounds f (i + 1) n (seen ++ [(k, v)])
  end.
Definition visitKV (f : Z -> Z -> Z) (p : Z) (s : Tree * list (Z * Z)) : option (Tree * list (Z * Z)) :=
  n ← page s.1 p; leaf ← isLeaf n;
  if negb leaf then Some s
  else
    num ← numKeys n;
    '(n, seen) ← leafKV (Z.to_nat num) f 0 n s.2;
    t ← setPage s.1 p n; Some (t, seen).
Definition IterateKV (fuel : nat) (f : Z -> Z -> Z) (t : Tree) : option (Tree * list (Z * Z)) :=
  iterate fuel (visitKV f) 1 (t, []).

(** Putting a page at the front of the free list. *)
Definition freeNode (t : Tree) (p : Z) : option Tree :=
  n ← page t p; n ← setAt n 0 (freePage t); t ← setPage t p n;
  Some (mkTree (data t) (nextPage t) p (NumLeafKeys t) (NumPagesFree t + 1)).

Fixpoint freeChildren (rec : Tree -> Z -> option Tree) (p : Z) (rounds : nat) (i : Z) (t : Tree) : option Tree :=
  match rounds with
  | O => Some t
  | S rounds => n ← page t p; c ← zget n (valOffset i); t ← rec t c; freeChildren rec p rounds (i + 1) t
  end.
Fixpoint recursiveFree (fuel : nat) (t : Tree) (p : Z) : option Tree :=
  match fuel with
  | O => None
  | S fuel =>
      n ← page t p; leaf ← isLeaf n; num ← numKeys n;
      if (leaf : bool) then freeNode (addLeafKeys t (- num)) p
      else t ← freeChildren (recursiveFree fuel) p (Z.to_nat num) 0 t; freeNode t p
  end.

(** [n.setAt(valOffset(i), 0)] *)
Definition dropEntry (t : Tree) (p i : Z) : option Tree := n ← page t p; n ← setAt n (valOffset i) 0; setPage t p n.

(** The loop over the children: a child whose key is below [ts] is freed unseen, the others are
    compacted, and freed when nothing is left, the last one excepted. *)
Fixpoint compactChildren (rec : Tree -> Z -> option (Z * Tree)) (free : Tree -> Z -> option Tree) (p ts N : Z)
    (rounds : nat) (i : Z) (t : Tree) : option Tree :=
  match rounds with
  | O => Some t
  | S rounds =>
      n ← page t p; ki ← key n i; c ← zget n (valOffset i);
      if ki =? 0 then None
      else if ki <? ts then
        t ← free t c; t ← dropEntry t p i;
        compactChildren rec free p ts N rounds (i + 1) t
      else
        '(rem, t) ← rec t c;
        t ← (if (rem =? 0) && (i <? N - 1) then
               child ← page t c; num ← numKeys child;
               t ← freeNode (addLeafKeys t (- num)) c;
               dropEntry t p i
             else Some t);
        compactChildren rec free p ts N rounds (i + 1) t
  end.
Fixpoint compact (fuel : nat) (t : Tree) (p ts : Z) : option (Z * Tree) :=
  match fuel with
  | O => None
  | S fuel =>
      n ← page t p; leaf ← isLeaf n;
      if (leaf : bool) then
        '(rem, n) ← BTreeNode.compact n ts;
        t ← setPage t p n; num ← numKeys n;
        Some (rem, addLeafKeys t num)
      else
        N ← numKeys n;
        t ← compactChildren (fun t c => compact fuel t c ts) (recursiveFree fuel) p ts N (Z.to_nat N) 0 t;
        n ← page t p;
        '(rem, n) ← BTreeNode.compact n 1;
        t ← setPage t p n;
        Some (rem, t)
  end.
Definition DeleteBelow (fuel : nat) (t : Tree) (ts : Z) : option Tree :=
  '(_, t) ← compact fuel (mkTree (data t) (nextPage t) (freePage t) 0 (NumPagesFree t)) 1 ts; Some t.

(** [Stats], without the derived occupancy, a floating-point number. *)
Record TreeStats := mkStats { Allocated : Z; Bytes : Z; SLeafKeys : Z; NumPages : Z; SPagesFree : Z; PageSize : Z }.
Definition Stats (t : Tree) : TreeStats :=
  let numPages := u64 (nextPage t - 1) in
  mkStats (pageSize * zlen (data t)) (numPages * pageSize) (NumLeafKeys t) numPages (NumPagesFree t) pageSize.

Definition SetAll (t : Tree) (kvs : list (Z * Z)) : option Tree :=
  foldl (fun t e => t ← t; Set_ 2 t e.1 e.2) (Some t) kvs.

(** ** Pages and the free list *)

(** The free pages, linked through their first word. *)
Fixpoint freeChain (d : list node) (fp : Z) (free : list Z) : Prop :=
  match free with
  | [] => fp = 0
  | p :: rest => fp = p /\ exists n next, zget d p = Some n /\ zlen n = 512 /\ zget n 0 = Some next /\ freeChain d next rest
  end.

(** The pages in use and the free ones are all the pages handed out so far. *)
Record heap (t : Tree) (used free : list Z) : Prop := {
  h_len : 256 <= zlen (data t);
  h_words : Forall (fun n => zlen n = 512) (data t);
  h_nodup : NoDup (used ++ free);
  h_range : Forall (fun p => 1 <= p < nextPage t) (used ++ free);
  h_next : nextPage t = 1 + zlen used + zlen free;
  h_max : nextPage t <= 256;
  h_free : freeChain (data t) (freePage t) free;
  h_count : NumPagesFree t = zlen free;
}.

Lemma zget_insert_ne {A} (d : list A) p q n : 0 <= p -> p <> q -> zget (<[Z.to_nat p := n]> d) q = zget d q.
Proof. intros. unfold zget. case_bool_decide; [|done]. apply list_lookup_insert_ne. lia. Qed.

Lemma freeChain_set d p n free : forall fp, p ∉ free -> 0 <= p -> freeChain d fp free -> freeChain (<[Z.to_nat p := n]> d) fp free.
Proof.
  induction free as [|q free IH]; intros fp Hp Hp0 H; [done|]. cbn in *. apply not_elem_of_cons in Hp as [Hne Hp].
  destruct H as (-> & m & next & Hg & Hm & Hn & Hc). split; [done|]. exists m, next. split_and!; try done; [by rewrite zget_insert_ne | by apply IH].
Qed.

(** Writing a page in use. *)
Definition write (t : Tree) (p : Z) (n : node) : Tree :=
  mkTree (<[Z.to_nat p := n]> (data t)) (nextPage t) (freePage t) (NumLeafKeys t) (NumPagesFree t).

Lemma heap_used t used free p : heap t used free -> p ∈ used -> 1 <= p < 256 /\ p ∉ free.
Proof.
  intros [_ _ Hnd Hr _ Hm _ _] Hp. split.
  - rewrite Forall_forall in Hr. specialize (Hr p). rewrite elem_of_app in Hr. specialize (Hr (or_introl Hp)). lia.
  - apply NoDup_app in Hnd as (_ & H & _). by apply H.
Qed.

Lemma setPage_write t used free p n : heap t used free -> p ∈ used -> setPage t p n = Some (write t p n).
Proof.
  intros H Hp. destruct (heap_used _ _ _ _ H Hp) as [Hr _]. unfold setPage. rewrite zset_Some by (pose proof (h_len _ _ _ H); lia). done.
Qed.

Lemma heap_write t used free p n : heap t used free -> p ∈ used -> zlen n = 512 -> heap (write t p n) used free.
Proof.
  intros H Hp Hn. destruct (heap_used _ _ _ _ H Hp) as [Hr Hf]. destruct H as [H1 Hw H2 H3 H4 H5 H6 H7]. constructor; try done; cbn.
  - by lens.
  - by apply Forall_insert.
  - apply freeChain_set; [done|lia|done].
Qed.

Lemma page_write t used free p q n :
  heap t used free -> p ∈ used -> 1 <= q -> page (write t p n) q = if q =? p then Some n else page t q.
Proof.
  intros H Hp Hq. destruct (heap_used _ _ _ _ H Hp) as [Hr _]. unfold page. destruct (Z.eqb_spec q 0); [lia|]. unfold zget. cbn.
  rewrite !bool_decide_true by lia. destruct (Z.eqb_spec q p) as [->|Hne].
  - apply list_lookup_insert_eq. pose proof (h_len _ _ _ H). unfold zlen in *. lia.
  - apply list_lookup_insert_ne. lia.
Qed.

Lemma zeroOut_all n : zlen n = 512 -> zeroOut n 0 (zlen n) = Some zeroPage.
Proof.
  intros Hn. rewrite Hn. transitivity (Some (blank 0 512 n)).
  - pose proof (zeroOut_list [] n [] 0 512) as E. cbn [app] in E. rewrite !app_nil_r in E. apply E; [lia|]. unfold zlen in Hn. lia.
  - unfold blank. rewrite drop_ge by (unfold zlen in Hn; lia). done.
Qed.

(** Clearing a page and giving it its flag and id. *)
Definition initPage (t : Tree) (q bit : Z) (n : node) : option (Tree * Z) :=
  n ← zeroOut n 0 (zlen n); n ← setBit n bit; n ← setAt n metaPidIdx q; t ← setPage t q n; Some (t, q).

Lemma initPage_spec t used free q bit n :
  heap t used free -> q ∈ used -> isFlag bit -> page t q = Some n -> initPage t q bit n = Some (write t q (enc q bit []), q).
Proof.
  intros H Hq Hb Hp. assert (Hn : zlen n = 512).
  { unfold page in Hp. case_match; [done|]. unfold zget in Hp. case_bool_decide; [|done]. by apply (Forall_lookup_1 _ _ _ _ (h_words _ _ _ H) Hp). }
  unfold initPage. rewrite zeroOut_all by done. cbn [mbind option_bind].
  assert (Es : (n ← setBit zeroPage bit; setAt n metaPidIdx q) = Some (enc q bit [])).
  { destruct Hb as [->| ->]; reflexivity. }
  destruct (setBit zeroPage bit) as [n1|]; [|done]. cbn [mbind option_bind] in *. rewrite Es. cbn [mbind option_bind].
  by rewrite (setPage_write t used free).
Qed.

Lemma heap_page t used free p : heap t used free -> p ∈ used -> exists n, page t p = Some n.
Proof.
  intros H Hp. destruct (heap_used _ _ _ _ H Hp) as [Hr _]. unfold page. destruct (Z.eqb_spec p 0); [lia|].
  apply zget_Some. pose proof (h_len _ _ _ H). lia.
Qed.

(** The page the allocator takes, and the tree without it in the free list. *)
Lemma newNode_take t used free bit :
  heap t used free -> isFlag bit -> (length used <= 254)%nat ->
  exists q free' t1, heap t1 (used ++ [q]) free' /\ q ∉ used /\ data t1 = data t /\ NumLeafKeys t1 = NumLeafKeys t /\
    (free = [] -> q = nextPage t /\ free' = []) /\ newNode t bit = n ← page t1 q; initPage t1 q bit n.
Proof.
  intros H Hb Hl. pose proof H as [Hlen Hw Hnd Hr Hnx Hmax Hfc Hct]. unfold newNode. destruct free as [|q free].
  - cbn in Hfc. rewrite Hfc. destruct (Z.ltb_spec 0 0); [lia|]. set (q := nextPage t) in *. change (zlen (@nil Z)) with 0 in *.
    rewrite app_nil_r in *. assert (Hq : 1 <= q <= 255) by (unfold zlen in *; lia).
    rewrite (proj2 (Z.ltb_ge (pageSize * zlen (data t)) (q * pageSize + pageSize))) by (unfold pageSize; lia). unfold u64. rewrite Z.mod_small by lia.
    assert (Hnot : q ∉ used) by (intros Hin; rewrite Forall_forall in Hr; specialize (Hr q Hin); lia).
    exists q, [], (mkTree (data t) (q + 1) 0 (NumLeafKeys t) (NumPagesFree t)).
    split; [|split_and!; try done]. constructor; cbn; try done; rewrite ?app_nil_r.
    + apply NoDup_app. split_and!; [done| |apply NoDup_singleton]. intros x Hx ->%list_elem_of_singleton. done.
    + apply Forall_app. split; [|constructor; [lia | constructor]]. eapply Forall_impl; [exact Hr|]. cbn. lia.
    + lens. lia.
    + lia.
  - cbn in Hfc. destruct Hfc as (Efp & n & next & Hg & Hn & Hg0 & Hfc). rewrite Efp.
    assert (Hq : 1 <= q < nextPage t) by (rewrite Forall_forall in Hr; apply Hr; apply elem_of_app; right; left).
    destruct (Z.ltb_spec 0 q); [|lia]. set (t0 := mkTree _ _ _ _ _).
    assert (Hp : page t0 q = Some n) by (unfold page; destruct (Z.eqb_spec q 0); [lia | exact Hg]).
    exists q, free, (mkTree (data t) (nextPage t) next (NumLeafKeys t) (NumPagesFree t - 1)). split; [|split_and!; try done].
    + constructor; cbn; try done; rewrite <- ?app_assoc; try done; lens; lia.
    + apply NoDup_app in Hnd as (_ & Hd & _). intros Hin. apply (Hd q Hin). left.
    + rewrite Hp. unfold page. cbn [data]. destruct (Z.eqb_spec q 0); [lia|]. rewrite Hg. cbn [mbind option_bind freePage t0].
      destruct (Z.ltb_spec 0 q); [|lia]. rewrite Hg0. done.
Qed.

(** A new page is empty, was not in use, and nothing else changes. *)
Lemma alloc_spec t used free bit :
  heap t used free -> isFlag bit -> (length used <= 254)%nat ->
  exists q free' t', newNode t bit = Some (t', q) /\ heap t' (used ++ [q]) free' /\ NumLeafKeys t' = NumLeafKeys t /\
    q ∉ used /\ 1 <= q /\ page t' q = Some (enc q bit []) /\ (forall p, 1 <= p -> p <> q -> page t' p = page t p) /\
    (free = [] -> q = nextPage t /\ free' = []).
Proof.
  intros H Hb Hl. destruct (newNode_take t used free bit H Hb Hl) as (q & free' & t1 & H1 & Hq & Ed & Es & Hfirst & ->).
  assert (Hin : q ∈ used ++ [q]) by (apply elem_of_app; right; left). destruct (heap_page _ _ _ _ H1 Hin) as [n En]. rewrite En.
  cbn [mbind option_bind]. rewrite (initPage_spec t1 (used ++ [q]) free') by done. destruct (heap_used _ _ _ _ H1 Hin) as [Hr _].
  exists q, free', (write t1 q (enc q bit [])). split_and!; try done; [|lia| |].
  - apply heap_write; [done|done|]. by apply enc_length; cbn; lia.
  - rewrite (page_write t1 (used ++ [q]) free') by (done || lia). by rewrite Z.eqb_refl.
  - intros p Hp Hne. rewrite (page_write t1 (used ++ [q]) free') by (done || lia). destruct (Z.eqb_spec p q); [done|].
    unfold page. by rewrite Ed.
Qed.

(** Splitting a full page moves its upper 128 entries to a new one. *)
Lemma splitPage_spec t used free p flag kvs :
  heap t used free -> p ∈ used -> isFlag flag -> page t p = Some (enc p flag kvs) -> length kvs = 255%nat -> (length used <= 254)%nat ->
  exists q free' t', split t p = Some (t', q) /\ heap t' (used ++ [q]) free' /\ NumLeafKeys t' = NumLeafKeys t /\ q ∉ used /\ 1 <= q /\
    page t' p = Some (enc p flag (take 127 kvs)) /\ page t' q = Some (enc q flag (drop 127 kvs)) /\
    (forall r, 1 <= r -> r <> p -> r <> q -> page t' r = page t r).
Proof.
  intros H Hp Hf Epage Hl Hu. destruct (heap_used _ _ _ _ H Hp) as [Hr _]. unfold split. rewrite Epage. cbn [mbind option_bind].
  assert (Hfull : isFull (enc p flag kvs) = Some true) by (rewrite enc_mk; unfold zlen; rewrite Hl; by apply isFull_mk).
  assert (Hbits : bits (enc p flag kvs) = Some flag) by (rewrite enc_mk; unfold zlen; rewrite Hl; by apply bits_mk).
  rewrite Hfull, Hbits. cbn [mbind option_bind negb].
  destruct (alloc_spec t used free flag H Hf Hu) as (q & free' & t1 & E1 & H1 & Es & Hq & Hq1 & Eq & Eo & _). rewrite E1. cbn [mbind option_bind].
  assert (Hne : p <> q) by (intros ->; done). rewrite (Eo p) by (done || lia). rewrite Epage, Eq. cbn [mbind option_bind].
  assert (Hin : q ∈ used ++ [q]) by (apply elem_of_app; right; left). assert (Hin' : p ∈ used ++ [q]) by (apply elem_of_app; by left).
  change (godiv maxKeys 2) with 127. change maxKeys with 255. change (255 - 127) with 128.
  destruct (upper_half q flag p kvs Hf Hl) as (ks & vs & n1 & n2 & F1 & F2 & F3 & F4 & F5).
  rewrite F1. cbn [mbind option_bind]. rewrite F2. cbn [mbind option_bind]. rewrite F3. cbn [mbind option_bind].
  rewrite F4. cbn [mbind option_bind]. rewrite F5. cbn [mbind option_bind].
  rewrite (setPage_write t1 (used ++ [q]) free') by done. cbn [mbind option_bind].
  destruct (lower_half p flag kvs Hf Hl) as (m1 & m2 & G1 & G2 & G3).
  rewrite G1. cbn [mbind option_bind]. rewrite G2. cbn [mbind option_bind]. rewrite G3. cbn [mbind option_bind].
  assert (Hd : (length (drop 127 kvs) <= 255)%nat) by (rewrite length_drop; lia).
  assert (Ht : (length (take 127 kvs) <= 255)%nat) by (rewrite length_take; lia).
  assert (H2 : heap (write t1 q (enc q flag (drop 127 kvs))) (used ++ [q]) free') by (apply heap_write; [done|done|by apply enc_length]).
  rewrite (setPage_write _ (used ++ [q]) free') by done. cbn [mbind option_bind].
  eexists q, free', _. split; [done|]. split; [apply heap_write; [done|done|by apply enc_length]|]. split; [done|].
  split; [done|]. split; [done|]. split_and!.
  - rewrite (page_write _ (used ++ [q]) free') by (done || lia). by rewrite Z.eqb_refl.
  - rewrite (page_write _ (used ++ [q]) free') by (done || lia). destruct (Z.eqb_spec q p); [done|].
    rewrite (page_write _ (used ++ [q]) free') by (done || lia). by rewrite Z.eqb_refl.
  - intros r Hr1 Hr2 Hr3. rewrite (page_write _ (used ++ [q]) free') by (done || lia). destruct (Z.eqb_spec r p); [done|].
    rewrite (page_write _ (used ++ [q]) free') by (done || lia). destruct (Z.eqb_spec r q); [done|]. by apply Eo.
Qed.

(** ** Trees of one root over leaves *)

Definition contents (ls : list (Z * list (Z * Z))) : list (Z * Z) := concat (map snd ls).
Definition rootEntries (ls : list (Z * list (Z * Z))) : list (Z * Z) := map (fun l => (topKey l.2, l.1)) ls.

(** Leaves [ls] in key order under the root page 1; the last key is [absoluteMax]. *)
Record rep (t : Tree) (ls : list (Z * list (Z * Z))) (free : list Z) : Prop := {
  r_heap : heap t (1 :: map fst ls) free;
  r_root : page t 1 = Some (enc 1 0 (rootEntries ls));
  r_leaves : Forall (fun l => page t l.1 = Some (enc l.1 bitLeaf l.2) /\ (0 < length l.2 < 255)%nat) ls;
  r_entries : entries (contents ls);
  r_top : topKey (contents ls) = absoluteMax;
  r_room : (0 < length ls <= 254)%nat;
  r_stats : NumLeafKeys t = zlen (contents ls);
}.

Lemma contents_app a b : contents (a ++ b) = contents a ++ contents b.
Proof. unfold contents. by rewrite map_app, concat_app. Qed.
Lemma contents_cons l ls : contents (l :: ls) = l.2 ++ contents ls.
Proof. done. Qed.

Lemma entries_app a b : entries (a ++ b) -> entries a /\ entries b /\ (forall x y, x ∈ a -> y ∈ b -> x.1 < y.1).
Proof.
  intros [Hs Hall]. apply StronglySorted_app in Hs as (Hlt & Ha & Hb). apply Forall_app in Hall as [A B]. done.
Qed.

Lemma topKey_in kvs : kvs <> [] -> exists v, (topKey kvs, v) ∈ kvs.
Proof.
  intros Hne. destruct kvs as [|[k v] kvs _] using rev_ind; [done|]. rewrite topKey_snoc. exists v. apply elem_of_app. right. left.
Qed.

Lemma rootEntries_entries ls :
  entries (contents ls) -> Forall (fun l : Z * list (Z * Z) => isVal l.1 /\ (0 < length l.2)%nat) ls -> entries (rootEntries ls).
Proof.
  intros He H. induction H as [|[p kvs] ls [Hp Hl] Hls IH]; [repeat constructor|]. rewrite contents_cons in He.
  apply entries_app in He as (Ha & Hb & Hlt). specialize (IH Hb). destruct IH as [Hs Hall]. cbn [rootEntries map snd fst] in *.
  destruct (topKey_in kvs) as [v Hv]; [intros ->; cbn in *; lia|].
  split.
  - constructor; [exact Hs|]. unfold rootEntries. clear - Hlt Hv Hls. induction Hls as [|[p' kvs'] ls [_ Hl'] _ IH]; [constructor|].
    constructor.
    + unfold keysLt. cbn. destruct (topKey_in kvs') as [v' Hv']; [intros ->; cbn in *; lia|]. apply (Hlt _ (topKey kvs', v') Hv).
      rewrite contents_cons. apply elem_of_app. by left.
    + apply IH. intros x y Hx Hy. apply Hlt; [done|]. rewrite contents_cons. apply elem_of_app. by right.
  - constructor; [|exact Hall]. destruct Ha as [_ Ha]. rewrite Forall_forall in Ha. split; [apply (Ha _ Hv) | done].
Qed.

Lemma heap_perm t used used' free : used ≡ₚ used' -> heap t used free -> heap t used' free.
Proof.
  intros Hp [H1 Hw H2 H3 H4 H5 H6 H7]. constructor; try done.
  - by rewrite <- Hp.
  - by rewrite <- Hp.
  - unfold zlen in *. by rewrite <- Hp.
Qed.

(** ** The leaf a key belongs to *)

Lemma topKey_ins k v kvs : StronglySorted keysLt kvs -> kvs <> [] -> k <= topKey kvs -> topKey (ins k v kvs) = topKey kvs.
Proof.
  intros Hs Hne Hk. destruct kvs as [|e kvs _] using rev_ind; [done|]. rewrite topKey_snoc in *.
  apply StronglySorted_app in Hs as (Hlt & _ & _). destruct (Z.eq_dec k e.1) as [->|Hk'].
  - rewrite ins_app_r.
    + cbn. destruct e as [k' v']. cbn. destruct (Z.ltb_spec k' k'); [lia|]. rewrite Z.eqb_refl. apply topKey_snoc.
    + apply Forall_forall. intros x Hx. apply (Hlt x e Hx). left.
  - rewrite ins_app_l by (constructor; [lia | constructor]). apply topKey_snoc.
Qed.

Lemma locate ls k :
  entries (contents ls) -> Forall (fun l : Z * list (Z * Z) => (0 < length l.2)%nat) ls -> ls <> [] -> k <= topKey (contents ls) ->
  exists l1 c kvs l2, ls = l1 ++ (c, kvs) :: l2 /\ length l1 = rank k (rootEntries ls) /\
    Forall (fun e => e.1 < k) (contents l1) /\ k <= topKey kvs /\ Forall (fun e => k < e.1) (contents l2).
Proof.
  intros He Hl. induction Hl as [|[p kvs] ls Hp Hls IH]; intros Hne Hk; [done|]. rewrite contents_cons in *. cbn [snd fst] in *.
  apply entries_app in He as (Ha & Hb & Hlt). cbn [rootEntries map rank snd fst]. fold (rootEntries ls).
  assert (Hkne : kvs <> []) by (intros ->; cbn in Hp; lia).
  pose proof (topKey_max kvs (proj1 Ha)) as Hmax. rewrite Forall_forall in Hmax.
  destruct (Z.ltb_spec (topKey kvs) k) as [Hlt'|Hge].
  - destruct (decide (contents ls = [])) as [E|Hcne]; [rewrite E, app_nil_r in Hk; lia|].
    rewrite topKey_app in Hk by done. destruct IH as (l1 & c & kvs' & l2 & -> & Hlen & H1 & H2 & H3); [done|by intros ->|done|].
    exists ((p, kvs) :: l1), c, kvs', l2. split_and!; try done; [cbn; lia|]. rewrite contents_cons. apply Forall_app. split; [|done].
    apply Forall_forall. intros e He'. specialize (Hmax e He'). cbn in Hmax. lia.
  - exists [], p, kvs, ls. split_and!; try done. apply Forall_forall. intros e He'.
    destruct (topKey_in kvs Hkne) as [v Hv]. specialize (Hlt _ _ Hv He'). cbn in Hlt. lia.
Qed.

Lemma contents_ins l1 c kvs l2 k v :
  Forall (fun e => e.1 < k) (contents l1) -> Forall (fun e => k < e.1) (contents l2) ->
  contents (l1 ++ (c, ins k v kvs) :: l2) = ins k v (contents (l1 ++ (c, kvs) :: l2)).
Proof.
  intros H1 H2. rewrite !contents_app, !contents_cons. cbn [snd]. by rewrite ins_app_r, ins_app_l.
Qed.

(** What the code reads of a page in a representation. *)
Section reads.
Context (t : Tree) (ls : list (Z * list (Z * Z))) (free : list Z) (R : rep t ls free).

Lemma rep_leaf c kvs : (c, kvs) ∈ ls -> page t c = Some (enc c bitLeaf kvs) /\ (0 < length kvs < 255)%nat /\ 2 <= c < 256.
Proof.
  intros Hin. pose proof (r_leaves _ _ _ R) as H. rewrite Forall_forall in H. destruct (H _ Hin) as [H1 H2]. split; [done|]. split; [done|].
  pose proof (r_heap _ _ _ R) as Hh. assert (Hm : c ∈ map fst ls) by (apply list_elem_of_fmap; by exists (c, kvs)).
  destruct (heap_used _ _ _ c Hh ltac:(by right)) as [Hr _]. pose proof (h_nodup _ _ _ Hh) as Hnd. apply NoDup_app in Hnd as (Hnd & _ & _).
  apply NoDup_cons in Hnd as [Hn _]. assert (c <> 1) by (intros ->; done). lia.
Qed.

Lemma rep_sizes : Forall (fun l : Z * list (Z * Z) => isVal l.1 /\ (0 < length l.2)%nat) ls.
Proof.
  apply Forall_forall. intros [c kvs] Hin. destruct (rep_leaf c kvs Hin) as (_ & H1 & H2). unfold isVal. cbn. split; lia.
Qed.

Lemma rep_root : entries (rootEntries ls) /\ (0 < length (rootEntries ls) <= 254)%nat.
Proof.
  split; [apply rootEntries_entries; [apply R | apply rep_sizes]|]. unfold rootEntries. rewrite length_map. apply R.
Qed.

Lemma rep_locate k : k <= absoluteMax ->
  exists l1 c kvs l2, ls = l1 ++ (c, kvs) :: l2 /\ length l1 = rank k (rootEntries ls) /\
    Forall (fun e => e.1 < k) (contents l1) /\ k <= topKey kvs /\ Forall (fun e => k < e.1) (contents l2).
Proof.
  intros Hk. apply locate; [apply R| | |by rewrite (r_top _ _ _ R)].
  - eapply Forall_impl; [apply rep_sizes|]. by intros ? [_ ?].
  - pose proof (r_room _ _ _ R) as Hr. intros ->. cbn in Hr. lia.
Qed.
End reads.

(** ** Looking up *)

Lemma find_app_l k a b : Forall (fun e => e.1 <> k) a -> find k (a ++ b) = find k b.
Proof. induction 1 as [|[k' v'] a Hk _ IH]; [done|]. cbn in *. destruct (Z.eqb_spec k' k); done. Qed.
Lemma find_app_r k a b : Forall (fun e => e.1 <> k) b -> find k (a ++ b) = find k a.
Proof.
  intros Hb. induction a as [|[k' v'] a IH]; cbn.
  - induction Hb as [|[k2 v2] b Hk _ IH]; [done|]. cbn in *. destruct (Z.eqb_spec k2 k); done.
  - by rewrite IH.
Qed.

Lemma find_contents l1 c kvs l2 k :
  Forall (fun e => e.1 < k) (contents l1) -> Forall (fun e => k < e.1) (contents l2) ->
  find k (contents (l1 ++ (c, kvs) :: l2)) = find k kvs.
Proof.
  intros H1 H2. rewrite contents_app, contents_cons. cbn [snd].
  rewrite find_app_l by (eapply Forall_impl; [exact H1|]; cbn; lia). apply find_app_r. eapply Forall_impl; [exact H2|]. cbn. lia.
Qed.

Lemma isFlag_0 : isFlag 0.
Proof. by left. Qed.
Lemma isFlag_leaf : isFlag bitLeaf.
Proof. by right. Qed.
#[local] Hint Resolve isFlag_0 isFlag_leaf : core.

Lemma isLeaf_enc p flag kvs : isFlag flag -> (length kvs <= 255)%nat -> isLeaf (enc p flag kvs) = Some (bool_decide (flag = bitLeaf)).
Proof. intros. rewrite enc_mk. apply isLeaf_mk; [done|]. unfold zlen. lia. Qed.
Lemma isFull_enc p flag kvs : isFlag flag -> (length kvs <= 255)%nat -> isFull (enc p flag kvs) = Some (zlen kvs =? 255).
Proof. intros. rewrite enc_mk. apply isFull_mk; [done|]. unfold zlen. lia. Qed.

(** The leaf of a key, and how the root leads to it. *)
Record target (t : Tree) (ls l1 : list (Z * list (Z * Z))) (c : Z) (kvs : list (Z * Z)) (l2 : list (Z * list (Z * Z))) (k : Z) : Prop := {
  tg_ls : ls = l1 ++ (c, kvs) :: l2;
  tg_lt : Forall (fun e => e.1 < k) (contents l1);
  tg_gt : Forall (fun e => k < e.1) (contents l2);
  tg_top : k <= topKey kvs;
  tg_page : page t c = Some (enc c bitLeaf kvs);
  tg_len : (0 < length kvs < 255)%nat;
  tg_c : 2 <= c < 256;
  tg_entries : entries kvs;
  tg_search : search (enc 1 0 (rootEntries ls)) k = Some (Z.of_nat (length l1));
  tg_key : key (enc 1 0 (rootEntries ls)) (Z.of_nat (length l1)) = Some (topKey kvs);
  tg_val : val (enc 1 0 (rootEntries ls)) (Z.of_nat (length l1)) = Some c;
  tg_idx : (length l1 < length ls)%nat;
}.

Lemma rep_target t ls free k : rep t ls free -> isKey k -> exists l1 c kvs l2, target t ls l1 c kvs l2 k.
Proof.
  intros R Hk. unfold isKey in Hk.
  destruct (rep_locate t ls free R k) as (l1 & c & kvs & l2 & Els & Hlen & H1 & H2 & H3); [unfold absoluteMax; lia|].
  destruct (rep_root t ls free R) as [Hre Hrl]. assert (Hin : (c, kvs) ∈ ls) by (rewrite Els; apply elem_of_app; right; left).
  destruct (rep_leaf t ls free R c kvs Hin) as (Hp & Hkl & Hc).
  assert (He : rootEntries ls !! length l1 = Some (topKey kvs, c)).
  { rewrite Els. unfold rootEntries. rewrite map_app. cbn [map fst snd]. by rewrite list_lookup_middle by (by rewrite length_map). }
  assert (Hl : (length l1 < length ls)%nat) by (rewrite Els, length_app; cbn; lia).
  assert (Hroot : length (rootEntries ls) = length ls) by (unfold rootEntries; by rewrite length_map).
  exists l1, c, kvs, l2. constructor; try done.
  - pose proof (r_entries _ _ _ R) as Hs. rewrite Els, contents_app, contents_cons in Hs.
    apply entries_app in Hs as (_ & Hs & _). by apply entries_app in Hs as [Hs _].
  - rewrite search_enc by (try apply Hre; done || lia). by rewrite Hlen.
  - rewrite key_enc by lia. rewrite Nat2Z.id. unfold keyAt. by rewrite He.
  - rewrite val_enc by lia. rewrite Nat2Z.id. unfold valAt. by rewrite He.
Qed.

Lemma Get_rep fuel t ls free k : rep t ls free -> isKey k -> Get (S (S fuel)) t k = Some (find k (contents ls)).
Proof.
  intros R Hk. destruct (rep_target t ls free k R Hk) as (l1 & c & kvs & l2 & [Els H1 H2 H3 Hp Hkl Hc Hs Es Ek Ev Hi]).
  unfold Get. unfold isKey in Hk. destruct (Z.eqb_spec k (2 ^ 64 - 1)); [lia|]. destruct (Z.eqb_spec k 0); [lia|]. cbn [orb].
  destruct (rep_root t ls free R) as [Hre Hrl]. assert (Hroot : length (rootEntries ls) = length ls) by (unfold rootEntries; by rewrite length_map).
  unfold get; fold get. rewrite (r_root _ _ _ R). cbn [mbind option_bind].
  rewrite isLeaf_enc, Es, numKeys_enc by (done || lia). cbn [mbind option_bind]. rewrite bool_decide_false by done.
  destruct (Z.eqb_spec (Z.of_nat (length l1)) (zlen (rootEntries ls))) as [E|_]; [unfold zlen in E; lia|].
  rewrite Ek. cbn [mbind option_bind]. destruct (Z.eqb_spec (topKey kvs) 0); [lia|].
  unfold val in Ev. rewrite Ev. cbn [mbind option_bind]. destruct (Z.eqb_spec c 0); [lia|].
  rewrite Hp. cbn [mbind option_bind]. rewrite isLeaf_enc by (done || lia). cbn [mbind option_bind]. rewrite bool_decide_true by done.
  rewrite get_enc by (try apply Hs; done || lia). rewrite Els. by rewrite find_contents.
Qed.

(** ** Inserting *)

Lemma heap_add t used free d : heap t used free -> heap (addLeafKeys t d) used free.
Proof. intros []. by constructor. Qed.

Lemma set_leaf fuel t used free c kvs k v :
  heap t used free -> c ∈ used -> page t c = Some (enc c bitLeaf kvs) -> (length kvs < 255)%nat -> entries kvs -> isKey k ->
  set (S fuel) t c k v = Some (addLeafKeys (write t c (enc c bitLeaf (ins k v kvs))) (zlen (ins k v kvs) - zlen kvs)).
Proof.
  intros H Hc Hp Hl He Hk. cbn [set]. rewrite Hp. cbn [mbind option_bind]. rewrite isLeaf_enc by (done || lia).
  cbn [mbind option_bind]. rewrite bool_decide_true by done. rewrite set_enc by done. cbn [mbind option_bind].
  by rewrite (setPage_write t used free).
Qed.

Lemma setChild_spec t used free p c flag kvs es :
  heap t used free -> p ∈ used -> page t c = Some (enc c flag kvs) -> isFlag flag -> (length kvs <= 255)%nat ->
  page t p = Some (enc p 0 es) -> (length es < 255)%nat -> entries es -> isKey (topKey kvs) ->
  setChild t p c = Some (write t p (enc p 0 (ins (topKey kvs) c es))).
Proof.
  intros H Hp Hc Hf Hl Hpp Hes He Hk. unfold setChild. rewrite Hc. cbn [mbind option_bind]. rewrite maxKey_enc by done.
  cbn [mbind option_bind]. change (pid (enc c flag kvs)) with (Some c). cbn [mbind option_bind]. rewrite Hpp. cbn [mbind option_bind].
  rewrite set_enc by done. cbn [mbind option_bind]. by rewrite (setPage_write t used free).
Qed.

(** One leaf replaced by others. *)
Lemma rep_replace t ls free t' l1 c kvs l2 mid free' :
  rep t ls free -> ls = l1 ++ (c, kvs) :: l2 ->
  heap t' (1 :: map fst (l1 ++ mid ++ l2)) free' -> page t' 1 = Some (enc 1 0 (rootEntries (l1 ++ mid ++ l2))) ->
  Forall (fun l => page t' l.1 = Some (enc l.1 bitLeaf l.2) /\ (0 < length l.2 < 255)%nat) mid ->
  (forall p, p ∈ map fst (l1 ++ l2) -> page t' p = page t p) ->
  entries (contents (l1 ++ mid ++ l2)) -> topKey (contents (l1 ++ mid ++ l2)) = absoluteMax ->
  (0 < length (l1 ++ mid ++ l2) <= 254)%nat -> NumLeafKeys t' = zlen (contents (l1 ++ mid ++ l2)) ->
  rep t' (l1 ++ mid ++ l2) free'.
Proof.
  intros R Els Hh Hroot Hmid Hother He Ht Hroom Hst. constructor; try done. pose proof (r_leaves _ _ _ R) as Hl. rewrite Els in Hl.
  apply Forall_app in Hl as [A B]. inversion_clear B as [|? ? _ B'].
  assert (Hmv : forall l, (forall x, x ∈ l -> x.1 ∈ map fst (l1 ++ l2)) ->
    Forall (fun l => page t l.1 = Some (enc l.1 bitLeaf l.2) /\ (0 < length l.2 < 255)%nat) l ->
    Forall (fun l => page t' l.1 = Some (enc l.1 bitLeaf l.2) /\ (0 < length l.2 < 255)%nat) l).
  { intros l Hin Hf. rewrite Forall_forall in *. intros x Hx. rewrite (Hother _ (Hin x Hx)). by apply Hf. }
  assert (Hin : forall x, x ∈ l1 \/ x ∈ l2 -> x.1 ∈ map fst (l1 ++ l2)).
  { intros x Hx. apply list_elem_of_fmap. exists x. split; [done|]. by apply elem_of_app. }
  apply Forall_app. split; [|apply Forall_app; split; [done|]].
  - apply Hmv; [|done]. auto.
  - apply Hmv; [|done]. auto.
Qed.

Lemma rep_pids t ls free l1 c kvs l2 : rep t ls free -> ls = l1 ++ (c, kvs) :: l2 ->
  c ∈ 1 :: map fst ls /\ (forall p, p ∈ map fst (l1 ++ l2) -> p <> c /\ p <> 1 /\ 1 <= p /\ p ∈ 1 :: map fst ls).
Proof.
  intros R ->. pose proof (r_heap _ _ _ R) as Hh. pose proof (h_nodup _ _ _ Hh) as Hnd. apply NoDup_app in Hnd as (Hnd & _ & _).
  rewrite map_app in *. cbn [map fst] in *. split; [right; apply elem_of_app; right; left|]. intros p Hp. rewrite map_app in Hp.
  assert (Hu : p ∈ 1 :: map fst l1 ++ c :: map fst l2).
  { right. apply elem_of_app in Hp as [Hp|Hp]; apply elem_of_app; [by left | right; by right]. }
  apply NoDup_cons in Hnd as [H1 Hnd]. assert (Hperm : map fst l1 ++ c :: map fst l2 ≡ₚ c :: map fst l1 ++ map fst l2) by (symmetry; apply Permutation_middle).
  rewrite Hperm in Hnd, H1. apply NoDup_cons in Hnd as [H2 _]. destruct (heap_used _ _ _ p Hh Hu) as [Hr _].
  split_and!; [by intros ->|intros ->; apply H1; by right|lia|done].
Qed.

Lemma rootEntries_same l1 c kvs kvs' l2 : topKey kvs' = topKey kvs -> rootEntries (l1 ++ (c, kvs') :: l2) = rootEntries (l1 ++ (c, kvs) :: l2).
Proof. intros E. unfold rootEntries. rewrite !map_app. cbn [map fst snd]. by rewrite E. Qed.

(** The leaf has room. *)
Lemma rep_set_room t ls free l1 c kvs l2 k v :
  rep t ls free -> target t ls l1 c kvs l2 k -> isKey k -> isVal v -> (length (ins k v kvs) < 255)%nat ->
  let t0 := write t 1 (enc 1 0 (rootEntries ls)) in
  let t1 := addLeafKeys (write t0 c (enc c bitLeaf (ins k v kvs))) (zlen (ins k v kvs) - zlen kvs) in
  rep t1 (l1 ++ [(c, ins k v kvs)] ++ l2) free /\ contents (l1 ++ [(c, ins k v kvs)] ++ l2) = ins k v (contents ls).
Proof.
  intros R T Hk Hv Hl t0 t1. pose proof T as [Els H1 H2 H3 Hp Hkl Hc Hs _ _ _ Hi]. destruct (rep_pids t ls free l1 c kvs l2 R Els) as [Hcin Hoth].
  assert (Htk : topKey (ins k v kvs) = topKey kvs) by (apply topKey_ins; [apply Hs|intros ->; cbn in Hkl; lia|done]).
  assert (Ec : contents (l1 ++ [(c, ins k v kvs)] ++ l2) = ins k v (contents ls)) by (rewrite Els; by apply contents_ins).
  split; [|done]. pose proof (r_heap _ _ _ R) as Hh. destruct (rep_root t ls free R) as [_ Hrl].
  assert (Hh0 : heap t0 (1 :: map fst ls) free) by (apply heap_write; [done|left|apply enc_length; lia]).
  assert (Hpage : forall p, 1 <= p -> page t1 p = if p =? c then Some (enc c bitLeaf (ins k v kvs)) else if p =? 1 then Some (enc 1 0 (rootEntries ls)) else page t p).
  { intros p Hp1. change (page t1 p) with (page (write t0 c (enc c bitLeaf (ins k v kvs))) p). rewrite (page_write t0 (1 :: map fst ls) free) by done.
    destruct (p =? c); [done|]. unfold t0. by rewrite (page_write t (1 :: map fst ls) free) by (done || left). }
  assert (Hne : ls <> []) by (intros ->; by destruct l1).
  apply (rep_replace t ls free t1 l1 c kvs l2 [(c, ins k v kvs)] free); [done|done| | | | | | | |].
  - apply heap_add. cbn [app]. rewrite Els, map_app in Hh0. rewrite map_app. apply heap_write; [exact Hh0| |apply enc_length; lia].
    right. apply elem_of_app. right. left.
  - rewrite Hpage by lia. destruct (Z.eqb_spec 1 c); [lia|]. change (1 =? 1) with true. cbn iota. rewrite Els. do 2 f_equal. symmetry. by apply (rootEntries_same l1 c kvs (ins k v kvs) l2).
  - constructor; [|constructor]. cbn. rewrite Hpage by lia. rewrite Z.eqb_refl. pose proof (ins_length k v kvs). split; [done | lia].
  - intros p Hin. destruct (Hoth p Hin) as (Hn1 & Hn2 & Hp1 & _). rewrite Hpage by done. by rewrite (proj2 (Z.eqb_neq _ _) Hn1), (proj2 (Z.eqb_neq _ _) Hn2).
  - rewrite Ec. apply ins_entries; [done|done|apply R].
  - rewrite Ec. rewrite topKey_ins; [apply R|apply (r_entries _ _ _ R)| |rewrite (r_top _ _ _ R); unfold isKey in Hk; unfold absoluteMax; lia].
    intros E. pose proof (r_top _ _ _ R) as Ht. by rewrite E in Ht.
  - pose proof (r_room _ _ _ R) as Hr. rewrite Els in Hr. rewrite !length_app in *. exact Hr.
  - change (NumLeafKeys t1) with (NumLeafKeys t + (zlen (ins k v kvs) - zlen kvs)). rewrite (r_stats _ _ _ R), Els.
    cbn [app]. rewrite !contents_app, !contents_cons. cbn [snd]. lens. lia.
Qed.

(** The two entries a split leaf has in the root. *)
Lemma rootEntries_split l1 c q kvs a b l2 :
  topKey b = topKey kvs -> StronglySorted keysLt (rootEntries (l1 ++ [(c, a); (q, b)] ++ l2)) ->
  ins (topKey b) q (ins (topKey a) c (rootEntries (l1 ++ (c, kvs) :: l2))) = rootEntries (l1 ++ [(c, a); (q, b)] ++ l2).
Proof.
  intros E Hs. unfold rootEntries in *. rewrite !map_app in *. cbn [map fst snd app] in *. rewrite <- E.
  apply StronglySorted_app in Hs as (Hlt & _ & Hs2).
  assert (Hab : topKey a < topKey b) by (apply StronglySorted_inv in Hs2 as [_ Hf]; inversion_clear Hf; done).
  assert (Ha : Forall (fun e => e.1 < topKey a) (map (fun l : Z * list (Z * Z) => (topKey l.2, l.1)) l1)).
  { apply Forall_forall. intros x Hx. apply (Hlt x (topKey a, c) Hx). left. }
  rewrite ins_app_r by done. cbn [ins]. destruct (Z.ltb_spec (topKey b) (topKey a)); [lia|]. destruct (Z.eqb_spec (topKey b) (topKey a)); [lia|].
  rewrite ins_app_r by (eapply Forall_impl; [exact Ha|]; cbn; lia). cbn [ins].
  destruct (Z.ltb_spec (topKey a) (topKey b)); [|lia]. destruct (Z.ltb_spec (topKey b) (topKey b)); [lia|]. by rewrite Z.eqb_refl.
Qed.

Lemma rep_set_split t ls free l1 c kvs l2 k v :
  rep t ls free -> target t ls l1 c kvs l2 k -> isKey k -> isVal v -> length (ins k v kvs) = 255%nat -> (length ls <= 253)%nat ->
  let X := ins k v kvs in
  let t0 := write t 1 (enc 1 0 (rootEntries ls)) in
  let t1 := addLeafKeys (write t0 c (enc c bitLeaf X)) (zlen X - zlen kvs) in
  exists q free' t2 t3 t4, split t1 c = Some (t2, q) /\ page t2 1 = Some (enc 1 0 (rootEntries ls)) /\
    setChild t2 1 c = Some t3 /\ setChild t3 1 q = Some t4 /\
    rep t4 (l1 ++ [(c, take 127 X); (q, drop 127 X)] ++ l2) free' /\
    contents (l1 ++ [(c, take 127 X); (q, drop 127 X)] ++ l2) = ins k v (contents ls).
Proof.
  intros R T Hk Hv Hl Hls X t0 t1. fold X in Hl. pose proof T as [Els H1 H2 H3 Hp Hkl Hc Hs _ _ _ Hi]. destruct (rep_pids t ls free l1 c kvs l2 R Els) as [Hcin Hoth].
  assert (Htk : topKey X = topKey kvs) by (apply topKey_ins; [apply Hs|intros ->; cbn in Hkl; lia|done]).
  set (a := take 127 X) in *. set (b := drop 127 X) in *. assert (EX : X = a ++ b) by (symmetry; apply take_drop).
  assert (Hla : length a = 127%nat) by (unfold a, X in *; rewrite length_take; lia). assert (Hlb : length b = 128%nat) by (unfold b, X in *; rewrite length_drop; lia).
  assert (Htb : topKey b = topKey kvs) by (rewrite <- Htk, EX; symmetry; apply topKey_app; intros E; by rewrite E in Hlb).
  assert (Ec : forall q, contents (l1 ++ [(c, a); (q, b)] ++ l2) = ins k v (contents ls)).
  { intros q. rewrite Els, <- contents_ins by done. fold X. cbn [app]. rewrite !contents_app, !contents_cons. cbn [snd]. by rewrite EX, <- app_assoc. }
  assert (Hent : forall q, entries (contents (l1 ++ [(c, a); (q, b)] ++ l2))) by (intros q; rewrite Ec; apply ins_entries; [done|done|apply R]).
  pose proof (r_heap _ _ _ R) as Hh. destruct (rep_root t ls free R) as [Hre Hrl].
  assert (Hh0 : heap t0 (1 :: map fst ls) free) by (apply heap_write; [done|left|apply enc_length; lia]).
  assert (Hh1 : heap t1 (1 :: map fst ls) free) by (apply heap_add, heap_write; [done|done|apply enc_length; lia]).
  assert (Hpage : forall p, 1 <= p -> page t1 p = if p =? c then Some (enc c bitLeaf X) else if p =? 1 then Some (enc 1 0 (rootEntries ls)) else page t p).
  { intros p Hp1. change (page t1 p) with (page (write t0 c (enc c bitLeaf X)) p). rewrite (page_write t0 (1 :: map fst ls) free) by done.
    destruct (p =? c); [done|]. unfold t0. by rewrite (page_write t (1 :: map fst ls) free) by (done || left). }
  destruct (splitPage_spec t1 (1 :: map fst ls) free c bitLeaf X) as (q & free' & t2 & E2 & Hh2 & Es2 & Hq & Hq1 & Pc & Pq & Po);
    [done|done|done|rewrite Hpage by lia; by rewrite Z.eqb_refl|done|cbn; rewrite length_map; lia|].
  fold a in Pc. fold b in Pq. assert (Hq1' : q <> 1) by (intros ->; apply Hq; left).
  assert (P1 : page t2 1 = Some (enc 1 0 (rootEntries ls))).
  { rewrite Po by lia. rewrite Hpage by lia. by rewrite (proj2 (Z.eqb_neq 1 c)) by lia. }
  assert (Hrange : 1 <= q < 256) by (destruct (heap_used _ _ _ q Hh2) as [? _]; [apply elem_of_app; right; left | done]).
  assert (Hsz : Forall (fun l : Z * list (Z * Z) => isVal l.1 /\ (0 < length l.2)%nat) (l1 ++ [(c, a); (q, b)] ++ l2)).
  { pose proof (rep_sizes t ls free R) as Hz. rewrite Els in Hz. apply Forall_app in Hz as [Z1 Z2]. inversion_clear Z2 as [|? ? _ Z3].
    apply Forall_app. split; [done|]. unfold isVal. repeat constructor; cbn; try lia. done. }
  pose proof (rootEntries_entries _ (Hent q) Hsz) as Hroot. pose proof (rootEntries_split l1 c q kvs a b l2 Htb (proj1 Hroot)) as Eins.
  assert (Hka : isKey (topKey a)).
  { destruct (topKey_in a) as [w Hw]; [intros E; by rewrite E in Hla|]. destruct (Hent q) as [_ Hf]. rewrite Forall_forall in Hf.
    apply (Hf (topKey a, w)). rewrite contents_app. apply elem_of_app. right. cbn [app]. rewrite contents_cons. apply elem_of_app. by left. }
  assert (Hkb : isKey (topKey b)).
  { destruct (topKey_in b) as [w Hw]; [intros E; by rewrite E in Hlb|]. destruct (Hent q) as [_ Hf]. rewrite Forall_forall in Hf.
    apply (Hf (topKey b, w)). rewrite contents_app. apply elem_of_app. right. cbn [app]. rewrite !contents_cons. apply elem_of_app. right. apply elem_of_app. by left. }
  assert (Hlr : length (rootEntries ls) = length ls) by (unfold rootEntries; by rewrite length_map).
  pose proof (ins_length (topKey a) c (rootEntries ls)) as Hli. set (used := (1 :: map fst ls) ++ [q]) in *.
  assert (H1u : 1 ∈ used) by (apply elem_of_app; left; left).
  pose proof (setChild_spec t2 used free' 1 c bitLeaf a (rootEntries ls) Hh2 H1u Pc ltac:(done) ltac:(lia) P1 ltac:(lia) Hre Hka) as E3.
  set (t3 := write t2 1 _) in E3. assert (Hh3 : heap t3 used free') by (apply heap_write; [done|done|apply enc_length; lia]).
  assert (Pg3 : forall p, 1 <= p -> page t3 p = if p =? 1 then Some (enc 1 0 (ins (topKey a) c (rootEntries ls))) else page t2 p).
  { intros p Hp1. by apply (page_write t2 used free'). }
  assert (Hcv : isVal c /\ isVal q) by (unfold isVal; lia).
  pose proof (setChild_spec t3 used free' 1 q bitLeaf b (ins (topKey a) c (rootEntries ls)) Hh3 H1u) as E4.
  specialize (E4 ltac:(by rewrite Pg3, (proj2 (Z.eqb_neq q 1)) by done) ltac:(done) ltac:(lia) ltac:(by rewrite Pg3) ltac:(lia)
    (ins_entries _ _ _ Hka (proj1 Hcv) Hre) Hkb).
  set (t4 := write t3 1 _) in E4. rewrite <- Els in Eins.
  exists q, free', t2, t3, t4. split; [exact E2|]. split; [exact P1|]. split; [exact E3|]. split; [exact E4|]. split; [|by apply Ec].
  assert (Pg4 : forall p, 1 <= p -> page t4 p = if p =? 1 then Some (enc 1 0 (rootEntries (l1 ++ [(c, a); (q, b)] ++ l2))) else page t2 p).
  { intros p Hp1. unfold t4. rewrite (page_write t3 used free') by done. rewrite Eins. destruct (p =? 1) eqn:E; [done|]. by rewrite Pg3, E. }
  pose proof (ins_length (topKey b) q (ins (topKey a) c (rootEntries ls))) as Hli2.
  apply (rep_replace t ls free t4 l1 c kvs l2 [(c, a); (q, b)] free'); [done|done| | | | |by apply Hent| | |].
  - apply (heap_perm _ used); [|apply heap_write; [done|done|apply enc_length; rewrite Eins; unfold rootEntries; rewrite length_map, !length_app; cbn [length]]].
    + unfold used. rewrite Els, !map_app. cbn [map fst app]. rewrite <- app_assoc. cbn [app]. f_equiv. f_equiv. f_equiv. rewrite (Permutation_app_comm (map fst l2)). done.
    + rewrite Els, length_app in Hls. cbn in Hls. lia.
  - by rewrite Pg4.
  - constructor; [|constructor; [|constructor]]; cbn [fst snd]; rewrite Pg4 by lia.
    + rewrite (proj2 (Z.eqb_neq c 1)) by lia. split; [done | lia].
    + rewrite (proj2 (Z.eqb_neq q 1)) by lia. split; [done | lia].
  - intros p Hin. destruct (Hoth p Hin) as (Hn1 & Hn2 & Hp1 & Hpu). rewrite Pg4, (proj2 (Z.eqb_neq p 1)) by done.
    rewrite Po by (done || (intros ->; done)). rewrite Hpage by done. by rewrite (proj2 (Z.eqb_neq _ _) Hn1), (proj2 (Z.eqb_neq _ _) Hn2).
  - rewrite Ec. rewrite topKey_ins; [apply R|apply (r_entries _ _ _ R)| |rewrite (r_top _ _ _ R); unfold isKey in Hk; unfold absoluteMax; lia].
    intros E. pose proof (r_top _ _ _ R) as Ht. by rewrite E in Ht.
  - rewrite Els, length_app in Hls. rewrite !length_app. cbn [length] in *. lia.
  - change (NumLeafKeys t4) with (NumLeafKeys t2). rewrite Es2. change (NumLeafKeys t1) with (NumLeafKeys t + (zlen X - zlen kvs)).
    rewrite (r_stats _ _ _ R), Els. cbn [app]. rewrite !contents_app, !contents_cons. cbn [snd]. rewrite EX. lens. lia.
Qed.

(** Without deletions every leaf but a single one holds at least 127 keys. *)
Definition dense (ls : list (Z * list (Z * Z))) : Prop :=
  length ls = 1%nat \/ Forall (fun l : Z * list (Z * Z) => (127 <= length l.2)%nat) ls.

Lemma dense_room l1 c kvs k v l2 : dense (l1 ++ (c, kvs) :: l2) -> dense (l1 ++ [(c, ins k v kvs)] ++ l2).
Proof.
  intros [H|H]; [left; rewrite length_app in *; exact H|right]. apply Forall_app in H as [A B]. inversion_clear B as [|? ? C D].
  apply Forall_app. split; [done|]. pose proof (ins_length k v kvs). constructor; [cbn in *; lia | done].
Qed.

Lemma dense_split l1 c q kvs X l2 : dense (l1 ++ (c, kvs) :: l2) -> length X = 255%nat -> dense (l1 ++ [(c, take 127 X); (q, drop 127 X)] ++ l2).
Proof.
  intros H HX. right. assert (Hab : Forall (fun l : Z * list (Z * Z) => (127 <= length l.2)%nat) [(c, take 127 X); (q, drop 127 X)]).
  { repeat constructor; cbn [fst snd]; rewrite ?length_take, ?length_drop; lia. }
  destruct H as [H|H].
  - rewrite length_app in H. cbn in H. destruct l1; [|cbn in H; lia]. destruct l2; [|cbn in H; lia]. exact Hab.
  - apply Forall_app in H as [A B]. inversion_clear B as [|? ? C D]. apply Forall_app. split; [done|]. by apply Forall_app.
Qed.

Lemma set_rep fuel t ls free k v :
  rep t ls free -> isKey k -> isVal v -> (length ls <= 253)%nat -> dense ls ->
  exists t' ls' free', set (S (S fuel)) t 1 k v = Some t' /\ rep t' ls' free' /\ contents ls' = ins k v (contents ls) /\ dense ls'.
Proof.
  intros R Hk Hv Hls Hd. destruct (rep_target t ls free k R Hk) as (l1 & c & kvs & l2 & T).
  pose proof T as [Els H1 H2 H3 Hp Hkl Hc Hs Es Ek Ev Hi]. destruct (rep_root t ls free R) as [Hre Hrl].
  destruct (rep_pids t ls free l1 c kvs l2 R Els) as [Hcin _]. pose proof (r_heap _ _ _ R) as Hh.
  set (t0 := write t 1 (enc 1 0 (rootEntries ls))). assert (Hh0 : heap t0 (1 :: map fst ls) free) by (apply heap_write; [done|left|apply enc_length; lia]).
  assert (Pc : page t0 c = Some (enc c bitLeaf kvs)).
  { unfold t0. rewrite (page_write t (1 :: map fst ls) free) by (done || left || lia). by rewrite (proj2 (Z.eqb_neq c 1)) by lia. }
  pose proof (set_leaf fuel t0 (1 :: map fst ls) free c kvs k v Hh0 Hcin Pc ltac:(lia) Hs Hk) as Eleaf.
  set (X := ins k v kvs) in *. set (t1 := addLeafKeys (write t0 c (enc c bitLeaf X)) (zlen X - zlen kvs)) in *.
  assert (HlX : (length X <= 255)%nat) by (pose proof (ins_length k v kvs) as HL; fold X in HL; lia).
  assert (P1 : page t1 c = Some (enc c bitLeaf X)).
  { change (page t1 c) with (page (write t0 c (enc c bitLeaf X)) c). rewrite (page_write t0 (1 :: map fst ls) free) by (done || lia). by rewrite Z.eqb_refl. }
  remember (S fuel) as f eqn:Ef. cbn [set]. rewrite (r_root _ _ _ R). cbn [mbind option_bind]. rewrite isLeaf_enc by (done || lia).
  cbn [mbind option_bind]. rewrite bool_decide_false by done. rewrite Es. cbn [mbind option_bind]. change maxKeys with 255.
  destruct (Z.leb_spec 255 (Z.of_nat (length l1))); [lia|]. rewrite Ek. cbn [mbind option_bind].
  destruct (Z.eqb_spec (topKey kvs) 0); [unfold isKey in Hk; lia|]. cbn [mbind option_bind].
  rewrite (setPage_write t (1 :: map fst ls) free) by (done || left). fold t0. cbn [mbind option_bind]. rewrite Ev. cbn [mbind option_bind].
  destruct (Z.eqb_spec c 0); [lia|]. cbn [mbind option_bind]. rewrite Pc. cbn [mbind option_bind].
  change (pid (enc c bitLeaf kvs)) with (Some c). cbn [mbind option_bind]. subst f. rewrite Eleaf. fold t1. cbn [mbind option_bind].
  rewrite P1. cbn [mbind option_bind]. rewrite isFull_enc by done. cbn [mbind option_bind]. destruct (Z.eqb_spec (zlen X) 255) as [E|Hne].
  - assert (HX : length X = 255%nat) by (unfold zlen in E; lia). change (pid (enc c bitLeaf X)) with (Some c). cbn [mbind option_bind].
    destruct (rep_set_split t ls free l1 c kvs l2 k v R T Hk Hv HX Hls) as (q & free' & t2 & t3 & t4 & E2 & E2' & E3 & E4 & R4 & Ec).
    fold X t0 t1 in E2, E2', E3, R4, Ec. rewrite E2. cbn [mbind option_bind]. rewrite E2'. cbn [mbind option_bind].
    unfold val in Ev. rewrite Ev. cbn [mbind option_bind]. rewrite E3. cbn [mbind option_bind].
    exists t4, (l1 ++ [(c, take 127 X); (q, drop 127 X)] ++ l2), free'. split_and!; try done. apply (dense_split l1 c q kvs); [by rewrite <- Els | done].
  - assert (HX : (length X < 255)%nat) by (unfold zlen in Hne; lia).
    destruct (rep_set_room t ls free l1 c kvs l2 k v R T Hk Hv HX) as [R1 Ec].
    exists t1, (l1 ++ [(c, X)] ++ l2), free. split_and!; try done. apply (dense_room l1 c kvs). by rewrite <- Els.
Qed.

Lemma Set_rep fuel t ls free k v :
  rep t ls free -> isKey k -> isVal v -> (length ls <= 253)%nat -> dense ls ->
  exists t' ls' free', Set_ (S (S fuel)) t k v = Some t' /\ rep t' ls' free' /\ contents ls' = ins k v (contents ls) /\ dense ls'.
Proof.
  intros R Hk Hv Hls Hd. destruct (set_rep fuel t ls free k v R Hk Hv Hls Hd) as (t' & ls' & free' & E & R' & Ec & Hd').
  exists t', ls', free'. split; [|done]. unfold Set_, isKey in *. destruct (Z.eqb_spec k (2 ^ 64 - 1)); [lia|]. destruct (Z.eqb_spec k 0); [lia|].
  cbn [orb]. rewrite E. cbn [mbind option_bind]. rewrite (r_root _ _ _ R'). cbn [mbind option_bind].
  destruct (rep_root t' ls' free' R') as [_ Hl]. rewrite isFull_enc by (done || lia). cbn [mbind option_bind].
  destruct (Z.eqb_spec (zlen (rootEntries ls')) 255) as [E5|_]; [unfold zlen in E5; lia | done].
Qed.

(** ** A new tree *)

Definition emptyTree (old : list node) : Tree := mkTree old 1 0 0 0.

Lemma heap_empty old : zlen old = 256 -> Forall (fun n => zlen n = 512) old -> heap (emptyTree old) [] [].
Proof. intros Hl Hw. constructor; cbn; try done; [lia|constructor]. Qed.

Lemma NewTree_rep old : zlen old = 256 -> Forall (fun n => zlen n = 512) old ->
  exists t, NewTree old = Some t /\ rep t [(2, [(absoluteMax, 0)])] [].
Proof.
  intros Hl Hw. unfold NewTree, Reset. fold (emptyTree old). pose proof (heap_empty old Hl Hw) as H0.
  destruct (alloc_spec (emptyTree old) [] [] 0 H0) as (q & free1 & t1 & E1 & H1 & Es1 & _ & _ & P1 & Po1 & Hq); [done|cbn; lia|].
  destruct (Hq eq_refl) as [-> ->]. change (nextPage (emptyTree old)) with 1 in *. rewrite E1. cbn [mbind option_bind].
  unfold Set_. rewrite (proj2 (Z.eqb_neq absoluteMax (2 ^ 64 - 1))), (proj2 (Z.eqb_neq absoluteMax 0)) by (unfold absoluteMax; lia). cbn [orb].
  set (n1 := enc 1 0 [(absoluteMax, 0)]). set (n2 := enc 1 0 [(absoluteMax, 2)]).
  assert (F1 : (n ← setAt (enc 1 0 []) (keyOffset 0) absoluteMax; num ← numKeys n; setNumKeys n (num + 1)) = Some n1) by (vm_compute; reflexivity).
  assert (F2 : setAt n1 (valOffset 0) 2 = Some n2) by (vm_compute; reflexivity).
  assert (H1in : 1 ∈ [] ++ [1]) by left. set (t2 := write t1 1 n1). assert (H2 : heap t2 ([] ++ [1]) []) by (by apply heap_write).
  destruct (alloc_spec t2 ([] ++ [1]) [] bitLeaf H2) as (q & free3 & t3 & E3 & H3 & Es3 & _ & _ & P3 & Po3 & Hq3); [done|cbn; lia|].
  destruct (Hq3 eq_refl) as [Eq ->]. rewrite (h_next _ _ _ H2) in Eq. change (1 + zlen ([] ++ [1]) + zlen []) with 2 in Eq. subst q.
  assert (H1in' : 1 ∈ ([] ++ [1]) ++ [2]) by left. assert (H2in : 2 ∈ ([] ++ [1]) ++ [2]) by (right; left).
  set (t4 := write t3 1 n2). assert (H4 : heap t4 (([] ++ [1]) ++ [2]) []) by (by apply heap_write).
  assert (P4 : page t4 2 = Some (enc 2 bitLeaf [])) by (unfold t4; by rewrite (page_write t3 (([] ++ [1]) ++ [2]) [])).
  pose proof (set_leaf 0 t4 _ [] 2 [] absoluteMax 0 H4 H2in P4 ltac:(cbn; lia) ltac:(repeat constructor) ltac:(done)) as E5.
  cbn [ins] in E5. set (t5 := addLeafKeys _ _) in E5.
  assert (P5 : page t5 2 = Some (enc 2 bitLeaf [(absoluteMax, 0)])).
  { change (page t5 2) with (page (write t4 2 (enc 2 bitLeaf [(absoluteMax, 0)])) 2). by rewrite (page_write t4 (([] ++ [1]) ++ [2]) []). }
  assert (P51 : page t5 1 = Some n2).
  { change (page t5 1) with (page (write t4 2 (enc 2 bitLeaf [(absoluteMax, 0)])) 1). rewrite (page_write t4 (([] ++ [1]) ++ [2]) []) by done.
    unfold t4. by rewrite (page_write t3 (([] ++ [1]) ++ [2]) []). }
  assert (Eset : set 2 t1 1 absoluteMax 0 = Some t5).
  { remember 1%nat as f eqn:Ef. cbn [set]. rewrite P1. cbn [mbind option_bind]. rewrite isLeaf_enc by (done || (cbn; lia)). cbn [mbind option_bind].
    rewrite bool_decide_false by done. rewrite search_enc by (done || (cbn; lia) || constructor). cbn [mbind option_bind rank].
    change (Z.of_nat 0) with 0. change (maxKeys <=? 0) with false. cbn iota. rewrite key_enc by (cbn; lia). change (keyAt [] (Z.to_nat 0)) with 0. cbn [mbind option_bind].
    change (0 =? 0) with true. cbn iota. rewrite F1. cbn [mbind option_bind].
    rewrite (setPage_write t1 ([] ++ [1]) []) by done. fold t2. cbn [mbind option_bind]. change (val n1 0) with (Some 0). cbn [mbind option_bind].
    change (0 =? 0) with true. cbn iota. rewrite E3. cbn [mbind option_bind]. rewrite Po3 by done. unfold t2. rewrite (page_write t1 ([] ++ [1]) []) by done.
    change (1 =? 1) with true. cbn [mbind option_bind]. rewrite F2. cbn [mbind option_bind].
    rewrite (setPage_write t3 (([] ++ [1]) ++ [2]) []) by done. fold t4. cbn [mbind option_bind]. rewrite P4. cbn [mbind option_bind].
    change (pid (enc 2 bitLeaf [])) with (Some 2). cbn [mbind option_bind]. subst f. rewrite E5. cbn [mbind option_bind]. rewrite P5. reflexivity. }
  rewrite Eset. cbn [mbind option_bind]. rewrite P51. cbn [mbind option_bind]. change (isFull n2) with (Some false). cbn [mbind option_bind].
  exists t5. split; [done|]. constructor; try done.
  - apply heap_add, heap_write; done.
  - repeat constructor; cbn [fst snd length]; done || lia.
  - repeat constructor; done.
  - cbn. lia.
  - change (NumLeafKeys t5) with (NumLeafKeys t3 + 1). rewrite Es3. change (NumLeafKeys t2) with (NumLeafKeys t1). by rewrite Es1.
Qed.

(** ** Refinement of a finite map *)

Definition mapOf (kvs : list (Z * Z)) : gmap Z Z := foldl (fun m e => <[e.1 := e.2]> m) {[absoluteMax := 0]} kvs.

Lemma list_to_map_ins k v kvs : list_to_map (M := gmap Z Z) (ins k v kvs) = <[k := v]> (list_to_map kvs).
Proof.
  induction kvs as [|[k' v'] kvs IH]; cbn; [done|]. destruct (Z.ltb_spec k' k); cbn.
  - rewrite IH. apply insert_insert_ne. lia.
  - destruct (Z.eqb_spec k' k) as [->|]; cbn; [|done]. by rewrite insert_insert_eq.
Qed.

Lemma find_map k kvs : find k kvs = default 0 (list_to_map (M := gmap Z Z) kvs !! k).
Proof.
  induction kvs as [|[k' v'] kvs IH]; cbn; [by rewrite lookup_empty|]. destruct (Z.eqb_spec k' k) as [->|Hne].
  - by rewrite lookup_insert_eq.
  - by rewrite lookup_insert_ne.
Qed.

Lemma size_map kvs : StronglySorted keysLt kvs -> Z.of_nat (size (list_to_map (M := gmap Z Z) kvs)) = zlen kvs.
Proof.
  intros Hs. unfold zlen. f_equal. rewrite <- length_map_to_list. apply Permutation_length, map_to_list_to_map.
  induction Hs as [|e kvs Hs IH Hall]; cbn; [constructor|]. constructor; [|done]. intros Hin. apply list_elem_of_fmap in Hin as (e' & E & Hin).
  rewrite Forall_forall in Hall. specialize (Hall e' Hin). unfold keysLt in Hall. lia.
Qed.

Lemma dense_bound t ls free : rep t ls free -> dense ls -> length ls = 1%nat \/ 127 * zlen ls <= zlen (contents ls).
Proof.
  intros _ [H|H]; [by left|right]. induction H as [|l ls Hl _ IH]; [done|]. rewrite contents_cons. lens. lia.
Qed.

Lemma SetAll_snoc t kvs e : SetAll t (kvs ++ [e]) = t ← SetAll t kvs; Set_ 2 t e.1 e.2.
Proof. unfold SetAll. by rewrite foldl_app. Qed.

Lemma SetAll_rep t ls free kvs :
  rep t ls free -> dense ls -> Forall (fun e => isKey e.1 /\ isVal e.2) kvs -> zlen (contents ls) + zlen kvs <= 32258 ->
  exists t' ls' free', SetAll t kvs = Some t' /\ rep t' ls' free' /\ dense ls' /\
    contents ls' = foldl (fun c e => ins e.1 e.2 c) (contents ls) kvs /\ zlen (contents ls') <= zlen (contents ls) + zlen kvs.
Proof.
  intros R Hd. induction kvs as [|e kvs IH] using rev_ind; intros Hk Hn.
  - exists t, ls, free. split_and!; try done. change (zlen (@nil (Z * Z))) with 0. lia.
  - apply Forall_app in Hk as [Hk He]. inversion_clear He as [|? ? [He1 He2] _]. destruct IH as (t1 & ls1 & free1 & E & R1 & D1 & C1 & N1); [done|lens; lia|].
    rewrite SetAll_snoc, E. cbn [mbind option_bind].
    destruct (Set_rep 0 t1 ls1 free1 e.1 e.2 R1 He1 He2) as (t2 & ls2 & free2 & E2 & R2 & C2 & D2).
    { destruct (dense_bound t1 ls1 free1 R1 D1) as [H|H]; [lia|]. unfold zlen in *. rewrite length_app in Hn. cbn in Hn. lia. }
    { done. }
    exists t2, ls2, free2. split_and!; try done.
    + rewrite C2, C1, foldl_app. done.
    + rewrite C2. pose proof (ins_length e.1 e.2 (contents ls1)). unfold zlen in *. rewrite length_app. cbn. lia.
Qed.

Lemma contents_mapOf kvs : list_to_map (M := gmap Z Z) (foldl (fun c e => ins e.1 e.2 c) [(absoluteMax, 0)] kvs) = mapOf kvs.
Proof.
  induction kvs as [|e kvs IH] using rev_ind; [done|]. unfold mapOf in *. rewrite !foldl_app. cbn. by rewrite list_to_map_ins, IH.
Qed.

(** C14: a new tree, in a buffer of any content, after any sequence of up to 32257 insertions
    is the map these insertions make: [Get] returns the value last set for a key and 0 for
    any other, nothing panics, and the number of leaf keys in the statistics is the number of keys,
    the tree's own key [absoluteMax] included. *)
Theorem btree_refines_map old kvs :
  zlen old = 256 -> Forall (fun n => zlen n = 512) old ->
  Forall (fun e => isKey e.1 /\ isVal e.2) kvs -> zlen kvs <= 32257 ->
  exists t0 t, NewTree old = Some t0 /\ SetAll t0 kvs = Some t /\
    (forall fuel k, isKey k -> Get (S (S fuel)) t k = Some (default 0 (mapOf kvs !! k))) /\
    NumLeafKeys t = Z.of_nat (size (mapOf kvs)) /\ SLeafKeys (Stats t) = NumLeafKeys t.
Proof.
  intros Hl Hw Hk Hn. destruct (NewTree_rep old Hl Hw) as (t0 & E0 & R0). exists t0.
  destruct (SetAll_rep t0 _ [] kvs R0) as (t & ls & free & E & R & _ & C & _); [by left|done|change (zlen (contents [(2, [(absoluteMax, 0)])])) with 1; lia|].
  exists t. change (contents [(2, [(absoluteMax, 0)])]) with [(absoluteMax, 0)] in C.
  split; [done|]. split; [done|]. split; [|split; [|done]].
  - intros fuel k Hkey. rewrite (Get_rep fuel t ls free k R Hkey), find_map, C. by rewrite contents_mapOf.
  - rewrite (r_stats _ _ _ R), <- contents_mapOf, <- C. symmetry. apply size_map. apply (r_entries _ _ _ R).
Qed.

Lemma btree_refines_map_witness :
  exists t0 t, NewTree (replicate 256 zeroPage) = Some t0 /\ SetAll t0 [(5, 50); (3, 30); (5, 51)] = Some t /\
    Get 2 t 5 = Some 51 /\ Get 2 t 4 = Some 0.
Proof.
  destruct (btree_refines_map (replicate 256 zeroPage) [(5, 50); (3, 30); (5, 51)]) as (t0 & t & E0 & E & HG & _).
  - reflexivity.
  - apply Forall_replicate. reflexivity.
  - repeat constructor; cbn; lia.
  - vm_compute. discriminate.
  - exists t0, t. split; [exact E0|]. split; [exact E|]. split.
    + rewrite (HG O 5) by (split; reflexivity). reflexivity.
    + rewrite (HG O 4) by (split; reflexivity). reflexivity.
Defined.
