(* ===== verification/BTreeOps.v ===== *)
(** * BTreeOps: iteration and deletion in the B+ tree, and its limits
      (src/pkg/datastructs/btree/btree.go: Iterate, IterateKV, DeleteBelow, Set of a full root) *)
From stdpp Require Import base list option gmap sorting.
From Stdlib Require Import ZArith Lia.
From S2P Require Import Prelude BTreeNode BTree.

#[local] Hint Resolve isFlag_0 isFlag_leaf : core.

(** ** Iteration *)

(** The value an entry has after the callback. *)
Definition updated (f : Z -> Z -> Z) (e : Z * Z) : Z * Z :=
  (e.1, if e.2 =? 0 then 0 else if f e.1 e.2 =? 0 then e.2 else f e.1 e.2).
(** A value of 0 stands for no entry. *)
Definition live (e : Z * Z) : Prop := e.2 <> 0.
#[export] Instance live_dec e : Decision (live e).
Proof. unfold live. apply _. Defined.

Lemma enc_setVal p flag kvs (i : nat) e v :
  (length kvs <= 255)%nat -> kvs !! i = Some e -> setAt (enc p flag kvs) (valOffset (Z.of_nat i)) v = Some (enc p flag (<[i := (e.1, v)]> kvs)).
Proof.
  intros Hl He. pose proof (lookup_lt_Some _ _ _ He) as Hi. rewrite !enc_mk.
  rewrite setAt_val; [|apply pad_length; by rewrite length_map|apply pad_length; by rewrite length_map|lia]. rewrite Nat2Z.id. f_equal.
  f_equal; [f_equal; by lens| |].
  - f_equal. rewrite <- (list_insert_id (map fst kvs) i e.1) at 1 by (by rewrite list_lookup_fmap, He).
    symmetry. exact (list_fmap_insert fst kvs i (e.1, v)).
  - unfold pad. rewrite insert_app_l by (by rewrite length_map). f_equal; [symmetry; exact (list_fmap_insert snd kvs i (e.1, v))|]. by rewrite !length_map, length_insert.
Qed.

Lemma leafKV_spec p f kvs : forall rounds i seen,
  (length kvs <= 255)%nat -> (i + rounds = length kvs)%nat ->
  leafKV rounds f (Z.of_nat i) (enc p bitLeaf (map (updated f) (take i kvs) ++ drop i kvs)) seen =
    Some (enc p bitLeaf (map (updated f) kvs), seen ++ filter live (drop i kvs)).
Proof.
  induction rounds as [|rounds IH]; intros i seen Hl Hi; cbn [leafKV].
  - rewrite drop_ge, firstn_all2 by lia. by rewrite filter_nil, !app_nil_r.
  - destruct (lookup_lt_is_Some_2 kvs i) as [[k v] He]; [lia|].
    assert (Hlt : length (map (updated f) (take i kvs)) = i) by (rewrite length_map, length_take; lia).
    assert (Hlen : length (map (updated f) (take i kvs) ++ drop i kvs) = length kvs) by (rewrite length_app, Hlt, length_drop; lia).
    assert (Hg : (map (updated f) (take i kvs) ++ drop i kvs) !! i = Some (k, v)).
    { rewrite lookup_app_r, Hlt, Nat.sub_diag by lia. by rewrite lookup_drop, Nat.add_0_r. }
    rewrite key_enc, val_enc by lia. cbn [mbind option_bind]. rewrite !Nat2Z.id. unfold keyAt, valAt. rewrite Hg. cbn [fmap option_fmap option_map default from_option fst snd]. unfold id.
    replace (Z.of_nat i + 1) with (Z.of_nat (S i)) by lia.
    assert (Hnext : forall w, updated f (k, v) = (k, w) ->
      <[i := (k, w)]> (map (updated f) (take i kvs) ++ drop i kvs) = map (updated f) (take (S i) kvs) ++ drop (S i) kvs).
    { intros w Hw. rewrite (take_S_r _ _ _ He), map_app, <- app_assoc. cbn [map app]. rewrite Hw, (drop_S _ _ _ He).
      rewrite insert_app_r_alt, Hlt, Nat.sub_diag by lia. done. }
    assert (Ef : filter live (drop i kvs) = filter live ((k, v) :: drop (S i) kvs)) by (by rewrite <- (drop_S _ _ _ He)). rewrite Ef. clear Ef.
    pose proof (eq_refl : updated f (k, v) = (k, if v =? 0 then 0 else if f k v =? 0 then v else f k v)) as Hu. destruct (Z.eqb_spec v 0) as [->|Hv].
    + rewrite (filter_cons_False live) by (intros H; by apply H). rewrite <- IH by lia. f_equal. rewrite <- (Hnext 0 Hu). by rewrite list_insert_id.
    + rewrite (filter_cons_True live) by done. change ((k, v) :: filter live (drop (S i) kvs)) with ([(k, v)] ++ filter live (drop (S i) kvs)). rewrite (app_assoc seen).
      rewrite <- (IH (S i) (seen ++ [(k, v)])) by lia. destruct (Z.eqb_spec (f k v) 0).
      * cbn [mbind option_bind]. do 2 f_equal. rewrite <- (Hnext v Hu). by rewrite list_insert_id.
      * rewrite (enc_setVal _ _ _ i (k, v)) by (done || lia). cbn [mbind option_bind fst]. by rewrite (Hnext (f k v) Hu).
Qed.

Definition leavesAt (t : Tree) (ls : list (Z * list (Z * Z))) : Prop :=
  Forall (fun l => page t l.1 = Some (enc l.1 bitLeaf l.2) /\ (0 < length l.2 < 255)%nat) ls.

Lemma leaves_frame t t' c ls :
  (forall q, 1 <= q -> q <> c -> page t' q = page t q) -> Forall (fun q => 1 <= q) (map fst ls) -> c ∉ map fst ls ->
  leavesAt t ls -> leavesAt t' ls.
Proof.
  intros Hq Hr Hc H. induction H as [|l ls [Hp Hl] _ IH]; [constructor|]. cbn [map] in *. apply not_elem_of_cons in Hc as [Hc1 Hc2].
  inversion_clear Hr as [|? ? Hr1 Hr2]. constructor; [|by apply IH]. split; [|done]. by rewrite Hq by done.
Qed.

(** Neighbours of a leaf in a heap of distinct pages. *)
Lemma heap_neighbours t free (d r : list (Z * list (Z * Z))) c kvs :
  heap t (1 :: map fst (d ++ (c, kvs) :: r)) free ->
  c <> 1 /\ c ∉ map fst d /\ c ∉ map fst r /\ Forall (fun q => 1 <= q) (map fst d) /\ Forall (fun q => 1 <= q) (map fst r) /\
  c ∈ 1 :: map fst (d ++ (c, kvs) :: r) /\ 1 <= c.
Proof.
  intros H. pose proof (h_nodup _ _ _ H) as Hnd. apply NoDup_app in Hnd as (Hnd & _ & _).
  pose proof (h_range _ _ _ H) as Hr. apply Forall_app in Hr as [Hr _]. rewrite map_app in *. cbn [map fst] in *.
  inversion_clear Hr as [|? ? _ Hr']. apply Forall_app in Hr' as [Rd Rr]. inversion_clear Rr as [|? ? Rc Rr'].
  apply NoDup_cons in Hnd as [N1 Hnd]. apply NoDup_app in Hnd as (_ & N2 & Hnd). apply NoDup_cons in Hnd as [N3 _].
  assert (Hin : c ∈ map fst d ++ c :: map fst r) by (apply elem_of_app; right; left).
  split_and!; [intros ->; done|intros Hd; apply (N2 c Hd); left|done| | |by right|lia].
  - eapply Forall_impl; [exact Rd|]. cbn. lia.
  - eapply Forall_impl; [exact Rr'|]. cbn. lia.
Qed.

Section iteration.
Context (f : Z -> Z -> Z) (Hf : forall k v, isVal (f k v)).

Definition updateLeaf (l : Z * list (Z * Z)) : Z * list (Z * Z) := (l.1, map (updated f) l.2).

Lemma keyAt_updated kvs i : keyAt (map (updated f) kvs) i = keyAt kvs i.
Proof. unfold keyAt. rewrite list_lookup_fmap. by destruct (kvs !! i). Qed.

Lemma topKey_updated kvs : topKey (map (updated f) kvs) = topKey kvs.
Proof. unfold topKey. by rewrite length_map, keyAt_updated. Qed.

Lemma rootEntries_updated ls : rootEntries (map updateLeaf ls) = rootEntries ls.
Proof. induction ls as [|l ls IH]; [done|]. cbn [map rootEntries]. unfold rootEntries in *. rewrite IH. cbn. by rewrite topKey_updated. Qed.

Lemma contents_updated ls : contents (map updateLeaf ls) = map (updated f) (contents ls).
Proof. induction ls as [|l ls IH]; [done|]. cbn [map]. rewrite !contents_cons, map_app, IH. done. Qed.

Lemma updated_entries kvs : entries kvs -> entries (map (updated f) kvs).
Proof.
  intros [Hs Hall]. split.
  - clear Hall. induction Hs as [|e kvs _ IH H]; cbn; constructor; [done|]. clear IH. induction H; cbn; constructor; done.
  - clear Hs. induction Hall as [|e kvs [Hk Hv] _ IH]; cbn; constructor; [|done]. split; [done|]. cbn.
    destruct (e.2 =? 0); [unfold isVal; lia|]. by destruct (f e.1 e.2 =? 0).
Qed.

(** One leaf. *)
Lemma visit_leaf fuel t used free c kvs seen :
  heap t used free -> c ∈ used -> page t c = Some (enc c bitLeaf kvs) -> (length kvs < 255)%nat ->
  iterate (S fuel) (visitKV f) c (t, seen) = Some (write t c (enc c bitLeaf (map (updated f) kvs)), seen ++ filter live kvs).
Proof.
  intros H Hc Hp Hl. assert (E : visitKV f c (t, seen) = Some (write t c (enc c bitLeaf (map (updated f) kvs)), seen ++ filter live kvs)).
  { unfold visitKV. cbn [fst snd]. rewrite Hp. cbn [mbind option_bind]. rewrite isLeaf_enc, numKeys_enc by (done || lia). cbn [mbind option_bind].
    rewrite bool_decide_true by done. cbn [negb]. unfold zlen. rewrite Nat2Z.id.
    pose proof (leafKV_spec c f kvs (length kvs) 0 seen ltac:(lia) ltac:(lia)) as E. rewrite drop_0, take_0 in E. cbn [map app] in E.
    change (Z.of_nat 0) with 0 in E. rewrite E. cbn [mbind option_bind]. by rewrite (setPage_write t used free). }
  cbn [iterate]. rewrite E. cbn [mbind option_bind fst]. destruct (heap_used _ _ _ _ H Hc) as [Hr _].
  rewrite (page_write t used free) by (done || lia). rewrite Z.eqb_refl. cbn [mbind option_bind].
  rewrite isLeaf_enc by (rewrite ?length_map; done || lia). done.
Qed.

(** The leaves from position [length d] on. *)
Lemma iterChildren_spec fuel ls : (length ls <= 254)%nat -> entries (rootEntries ls) -> forall r d rounds t free seen,
  ls = d ++ r -> (length r < rounds)%nat -> (length d + rounds = 255)%nat ->
  heap t (1 :: map fst ls) free -> page t 1 = Some (enc 1 0 (rootEntries ls)) ->
  leavesAt t (map updateLeaf d ++ r) ->
  exists t', iterChildren (iterate (S fuel) (visitKV f)) 1 rounds (Z.of_nat (length d)) (t, seen) = Some (t', seen ++ filter live (contents r)) /\
    heap t' (1 :: map fst ls) free /\ page t' 1 = Some (enc 1 0 (rootEntries ls)) /\ NumLeafKeys t' = NumLeafKeys t /\
    leavesAt t' (map updateLeaf ls).
Proof.
  intros Hl He. induction r as [|[c kvs] r IH]; intros d rounds t free seen Els Hr Hd H H1 Hp.
  - destruct rounds as [|rounds]; [lia|]. rewrite app_nil_r in *. subst d. cbn [iterChildren fst]. rewrite H1. cbn [mbind option_bind].
    rewrite key_enc by (unfold rootEntries; rewrite ?length_map; lia). cbn [mbind option_bind]. rewrite Nat2Z.id. unfold keyAt.
    rewrite lookup_ge_None_2 by (unfold rootEntries; rewrite length_map; lia). exists t.
    done.
  - destruct rounds as [|rounds]; [cbn in Hr; lia|]. cbn [iterChildren fst]. rewrite H1. cbn [mbind option_bind].
    assert (Hlr : length (rootEntries ls) = length ls) by (unfold rootEntries; by rewrite length_map).
    assert (Hdl : (length d < length ls)%nat) by (rewrite Els, length_app; cbn; lia).
    assert (Hg : rootEntries ls !! length d = Some (topKey kvs, c)).
    { rewrite Els. unfold rootEntries. rewrite map_app. cbn [map fst snd]. by rewrite list_lookup_middle by (by rewrite length_map). }
    rewrite key_enc by lia. cbn [mbind option_bind]. rewrite Nat2Z.id. unfold keyAt. rewrite Hg. cbn [fmap option_fmap option_map default from_option fst]. unfold id.
    destruct He as [_ He]. pose proof (Forall_lookup_1 _ _ _ _ He Hg) as [Hk _]. unfold isKey in Hk. cbn [fst] in Hk.
    destruct (Z.eqb_spec (topKey kvs) 0); [lia|]. change (zget (enc 1 0 (rootEntries ls)) (valOffset (Z.of_nat (length d)))) with (val (enc 1 0 (rootEntries ls)) (Z.of_nat (length d))).
    rewrite val_enc by lia. cbn [mbind option_bind]. rewrite Nat2Z.id. unfold valAt. rewrite Hg. cbn [fmap option_fmap option_map default from_option snd]. unfold id.
    pose proof Hp as Hp'. apply Forall_app in Hp' as [Hpd Hpr]. inversion_clear Hpr as [|? ? [Hpc Hcl] Hpr']. cbn [fst snd] in Hpc, Hcl.
    pose proof H as Hn. rewrite Els in Hn. destruct (heap_neighbours t free d r c kvs Hn) as (Nc1 & Ncd & Ncr & Rd & Rr & Hcin & Rc).
    rewrite <- Els in Hcin.
    rewrite (visit_leaf fuel t (1 :: map fst ls) free c kvs) by (done || lia). cbn [mbind option_bind].
    set (t1 := write t c (enc c bitLeaf (map (updated f) kvs))).
    assert (Hh1 : heap t1 (1 :: map fst ls) free) by (apply heap_write; [done|done|apply enc_length; rewrite length_map; lia]).
    assert (Hpg : forall q, 1 <= q -> page t1 q = if q =? c then Some (enc c bitLeaf (map (updated f) kvs)) else page t q).
    { intros q Hq. by apply (page_write t (1 :: map fst ls) free). }
    destruct (IH (d ++ [(c, kvs)]) rounds t1 free (seen ++ filter live kvs)) as (t' & E & Hh' & H1' & Hs' & Hp2).
    + by rewrite <- app_assoc.
    + cbn in Hr. lia.
    + rewrite length_app. cbn. lia.
    + done.
    + rewrite Hpg by lia. by rewrite (proj2 (Z.eqb_neq 1 c)) by lia.
    + assert (Hfr : forall q, 1 <= q -> q <> c -> page t1 q = page t q).
      { intros q Hq Hne. rewrite Hpg by done. by rewrite (proj2 (Z.eqb_neq _ _) Hne). }
      assert (Em : map fst (map updateLeaf d) = map fst d) by (rewrite map_map; done).
      rewrite map_app, <- app_assoc. apply Forall_app. split; [apply (leaves_frame t t1 c); rewrite ?Em; done|].
      constructor; [|by apply (leaves_frame t t1 c)]. unfold updateLeaf. cbn [fst snd]. rewrite Hpg, Z.eqb_refl, length_map by done. done.
    + exists t'. rewrite length_app in E. cbn [length] in E. replace (Z.of_nat (length d + 1)) with (Z.of_nat (length d) + 1) in E by lia.
      rewrite E. split; [|done]. rewrite contents_cons, filter_app. cbn [snd]. by rewrite <- app_assoc.
Qed.

Lemma IterateKV_rep fuel t ls free :
  rep t ls free -> exists t', IterateKV (S (S fuel)) f t = Some (t', filter live (contents ls)) /\ rep t' (map updateLeaf ls) free.
Proof.
  intros R. destruct (rep_root t ls free R) as [Hre Hrl]. pose proof (r_room _ _ _ R) as Hroom.
  destruct (iterChildren_spec fuel ls ltac:(lia) Hre ls [] 255 t free []) as (t' & E & Hh & H1 & Hs & Hp); try done; [lia|apply R|apply R|apply R|].
  exists t'. split.
  - assert (Ev : visitKV f 1 (t, []) = Some (t, [])).
    { unfold visitKV. cbn [fst snd]. rewrite (r_root _ _ _ R). cbn [mbind option_bind].
      rewrite isLeaf_enc by (done || lia). cbn [mbind option_bind]. by rewrite bool_decide_false. }
    unfold IterateKV. remember (S fuel) as fu. cbn [iterate]. rewrite Ev. cbn [mbind option_bind fst].
    rewrite (r_root _ _ _ R). cbn [mbind option_bind]. rewrite isLeaf_enc by (done || lia). cbn [mbind option_bind]. rewrite bool_decide_false by done.
    subst fu. exact E.
  - assert (Em : map fst (map updateLeaf ls) = map fst ls) by (rewrite map_map; done).
    constructor; [by rewrite Em|by rewrite rootEntries_updated|done| | | |].
    + rewrite contents_updated. apply updated_entries, R.
    + rewrite contents_updated, topKey_updated. apply R.
    + rewrite length_map. apply R.
    + rewrite Hs, (r_stats _ _ _ R), contents_updated. unfold zlen. by rewrite length_map.
Qed.
End iteration.

(** ** Deletion *)

Definition kept (ts : Z) (kvs : list (Z * Z)) : list (Z * Z) := filter (keeps ts (topKey kvs)) kvs.
(** Only the last key is left, and its value is below the bound as well. *)
Definition spent (ts : Z) (kvs : list (Z * Z)) : bool :=
  (length (kept ts kvs) =? 1)%nat && (keyAt (kept ts kvs) 0 =? topKey kvs) && (valAt (kept ts kvs) 0 <? ts).

(** The leaves that stay: all but the spent ones, and the last one in any case. *)
Fixpoint shrink (ts : Z) (ls : list (Z * list (Z * Z))) : list (Z * list (Z * Z)) :=
  match ls with
  | [] => []
  | l :: rest =>
      if spent ts l.2 && negb (bool_decide (rest = [])) then shrink ts rest
      else (l.1, kept ts l.2) :: shrink ts rest
  end.

Lemma filter_snoc_keep (P : Z * Z -> Prop) `{!forall x, Decision (P x)} l e : P e -> filter P (l ++ [e]) = filter P l ++ [e].
Proof. intros He. rewrite filter_app. f_equal. by rewrite filter_cons_True. Qed.

Lemma kept_snoc ts l e : kept ts (l ++ [e]) = filter (keeps ts e.1) l ++ [e].
Proof. unfold kept. rewrite topKey_snoc. apply filter_snoc_keep. intros [_ H]. lia. Qed.

Lemma kept_topKey ts kvs : kvs <> [] -> topKey (kept ts kvs) = topKey kvs /\ (0 < length (kept ts kvs))%nat.
Proof.
  intros Hne. destruct kvs as [|e l _] using rev_ind; [done|]. rewrite kept_snoc, !topKey_snoc, length_app. cbn. split; [done|lia].
Qed.

Lemma kept_length ts kvs : (length (kept ts kvs) <= length kvs)%nat.
Proof. apply length_filter. Qed.

(** The page of a compacted leaf. *)
Lemma compact_leaf fuel t used free c kvs ts :
  heap t used free -> c ∈ used -> page t c = Some (enc c bitLeaf kvs) -> (0 < length kvs < 255)%nat -> StronglySorted keysLt kvs ->
  compact (S fuel) t c ts = Some (if spent ts kvs then 0 else zlen (kept ts kvs), addLeafKeys (write t c (enc c bitLeaf (kept ts kvs))) (zlen (kept ts kvs))).
Proof.
  intros H Hc Hp Hl Hs. cbn [compact]. rewrite Hp. cbn [mbind option_bind]. rewrite isLeaf_enc by (done || lia). cbn [mbind option_bind].
  rewrite bool_decide_true by done. rewrite compact_enc by (done || lia || (intros ->; cbn in Hl; lia)). fold (kept ts kvs). fold (spent ts kvs). cbn [mbind option_bind].
  rewrite (setPage_write t used free) by done. cbn [mbind option_bind]. rewrite numKeys_enc by (done || (pose proof (kept_length ts kvs); lia)). done.
Qed.

(** Freeing a page in use. *)
Lemma freeNode_spec t used free c n :
  heap t (c :: used) free -> page t c = Some n ->
  exists t', freeNode t c = Some t' /\ heap t' used (c :: free) /\ NumLeafKeys t' = NumLeafKeys t /\
    (forall q, 1 <= q -> q <> c -> page t' q = page t q).
Proof.
  intros H Hp. assert (Hcin : c ∈ c :: used) by left. destruct (heap_used _ _ _ c H Hcin) as [Hr Hf].
  assert (Hn : zlen n = 512).
  { unfold page in Hp. case_match; [done|]. unfold zget in Hp. case_bool_decide; [|done]. by apply (Forall_lookup_1 _ _ _ _ (h_words _ _ _ H) Hp). }
  unfold freeNode. rewrite Hp. cbn [mbind option_bind]. unfold setAt. rewrite zset_Some by lia. cbn [mbind option_bind].
  rewrite (setPage_write t (c :: used) free) by done. cbn [mbind option_bind]. eexists. split; [done|].
  set (n' := <[Z.to_nat 0 := freePage t]> n). assert (Hn' : zlen n' = 512) by (unfold n'; by lens).
  assert (Hh : heap (write t c n') (c :: used) free) by (by apply heap_write).
  assert (Hpg : forall q, 1 <= q -> page (write t c n') q = if q =? c then Some n' else page t q) by (intros q Hq; by apply (page_write t (c :: used) free)).
  split; [|split; [done|]].
  - destruct Hh as [G1 Gw G2 G3 G4 G5 G6 G7]. cbn [app] in G2, G3.
    assert (Hperm : used ++ c :: free ≡ₚ c :: used ++ free) by (symmetry; apply Permutation_middle). constructor; cbn [data nextPage freePage NumPagesFree NumLeafKeys]; try done.
    + by rewrite Hperm.
    + by rewrite Hperm.
    + change (nextPage (write t c n')) with (nextPage t) in *. rewrite G4. lens. lia.
    + split; [done|]. exists n', (freePage t). pose proof (Hpg c ltac:(lia)) as Hc. rewrite Z.eqb_refl in Hc. unfold page in Hc.
      destruct (Z.eqb_spec c 0); [lia|]. split_and!; [exact Hc|done| |exact G6]. unfold n', zget. cbn. apply list_lookup_insert_eq. unfold zlen in Hn. lia.
    + change (NumPagesFree (write t c n')) with (NumPagesFree t) in *. rewrite G7. lens. lia.
  - intros q Hq Hne. change (page (write t c n') q = page t q). rewrite Hpg by done. by rewrite (proj2 (Z.eqb_neq _ _) Hne).
Qed.

Lemma dropEntry_spec t used free es (i : nat) e :
  heap t used free -> 1 ∈ used -> page t 1 = Some (enc 1 0 es) -> (length es <= 254)%nat -> es !! i = Some e ->
  dropEntry t 1 (Z.of_nat i) = Some (write t 1 (enc 1 0 (<[i := (e.1, 0)]> es))).
Proof.
  intros H H1 Hp Hl He. unfold dropEntry. rewrite Hp. cbn [mbind option_bind]. rewrite (enc_setVal _ _ _ i e) by (done || lia).
  cbn [mbind option_bind]. by rewrite (setPage_write t used free).
Qed.

(** Between two rounds of the loop over the children: [pre] are the root's entries that
    were dealt with, [S] the leaves they still lead to, and [r] the leaves to come. *)
Record midway (t : Tree) (pre : list (Z * Z)) (S r : list (Z * list (Z * Z))) (free : list Z) : Prop := {
  m_heap : heap t (1 :: map fst S ++ map fst r) free;
  m_root : page t 1 = Some (enc 1 0 (pre ++ rootEntries r));
  m_leaves : leavesAt t (S ++ r);
  m_pre : filter live pre = rootEntries S;
  m_stats : NumLeafKeys t = zlen (contents S);
  m_room : (length pre + length r <= 254)%nat;
}.

Section round.
Context (fuel : nat) (ts : Z) (t : Tree) (pre : list (Z * Z)) (S r : list (Z * list (Z * Z))) (free : list Z) (c : Z) (kvs : list (Z * Z)).
Context (M : midway t pre S ((c, kvs) :: r) free).

Let K : list (Z * Z) := kept ts kvs.
Let t1 : Tree := addLeafKeys (write t c (enc c bitLeaf K)) (zlen K).
Let used : list Z := 1 :: map fst S ++ c :: map fst r.

(** What the round finds: the leaf's page and its neighbours. *)
Lemma round_facts :
  heap t used free /\ page t c = Some (enc c bitLeaf kvs) /\ (0 < length kvs < 255)%nat /\ 2 <= c /\ c ∉ map fst S /\ c ∉ map fst r /\
  leavesAt t S /\ leavesAt t r /\ Forall (fun q => 2 <= q) (map fst S) /\ Forall (fun q => 2 <= q) (map fst r) /\ c ∈ used.
Proof.
  pose proof (m_heap _ _ _ _ _ M) as H. cbn [map fst] in H. fold used in H.
  pose proof (m_leaves _ _ _ _ _ M) as Hl. apply Forall_app in Hl as [HS Hr]. inversion_clear Hr as [|? ? [Hp Hlen] Hr']. cbn [fst snd] in *.
  pose proof (h_nodup _ _ _ H) as Hnd. apply NoDup_app in Hnd as (Hnd & _ & _). apply NoDup_cons in Hnd as [N1 Hnd].
  pose proof (h_range _ _ _ H) as Hrg. apply Forall_app in Hrg as [Hrg _]. inversion_clear Hrg as [|? ? _ Hrg'].
  assert (H2 : Forall (fun q => 2 <= q) (map fst S ++ c :: map fst r)).
  { rewrite Forall_forall in Hrg'. apply Forall_forall. intros q Hq. specialize (Hrg' q Hq). cbn in Hrg'. assert (q <> 1) by (intros ->; done). lia. }
  apply Forall_app in H2 as [A B]. inversion_clear B as [|? ? B1 B2]. apply NoDup_app in Hnd as (_ & N2 & Hnd). apply NoDup_cons in Hnd as [N3 _].
  split_and!; try done; [lia|lia| |].
  - intros Hin. apply (N2 c Hin). left.
  - right. apply elem_of_app. right. left.
Qed.

Lemma round_pages q : 1 <= q -> page t1 q = if q =? c then Some (enc c bitLeaf K) else page t q.
Proof.
  intros Hq. destruct round_facts as (H & _ & _ & _ & _ & _ & _ & _ & _ & _ & Hc).
  change (page t1 q) with (page (write t c (enc c bitLeaf K)) q). by apply (page_write t used free).
Qed.

Lemma K_length : (0 < length K < 255)%nat.
Proof.
  destruct round_facts as (_ & _ & Hl & _). pose proof (kept_length ts kvs) as H1. fold K in H1.
  destruct (kept_topKey ts kvs) as [_ H2]; [intros ->; cbn in Hl; lia|]. fold K in H2. lia.
Qed.

Lemma weaken2 l : Forall (fun q => 2 <= q) l -> Forall (fun q => 1 <= q) l.
Proof. intros H. eapply Forall_impl; [exact H|]. cbn. lia. Qed.

Lemma round_leaves : leavesAt t1 S /\ leavesAt t1 r.
Proof.
  destruct round_facts as (_ & _ & _ & _ & N1 & N2 & L1 & L2 & R1 & R2 & _).
  assert (Hfr : forall q, 1 <= q -> q <> c -> page t1 q = page t q).
  { intros q Hq Hne. rewrite round_pages by done. by rewrite (proj2 (Z.eqb_neq _ _) Hne). }
  split; apply (leaves_frame t t1 c); auto using weaken2.
Qed.

(** The leaf stays. *)
Lemma round_keep : midway t1 (pre ++ [(topKey kvs, c)]) (S ++ [(c, K)]) r free.
Proof.
  destruct round_facts as (H & Hp & Hl & Hc2 & N1 & N2 & _ & _ & R1 & R2 & Hc). destruct round_leaves as [L1 L2]. pose proof K_length as HK.
  destruct (kept_topKey ts kvs) as [Htop _]; [intros ->; cbn in Hl; lia|]. constructor.
  - rewrite map_app. cbn [map fst]. rewrite <- app_assoc. apply heap_add, heap_write; [exact H|exact Hc|apply enc_length; lia].
  - rewrite round_pages by lia. rewrite (proj2 (Z.eqb_neq 1 c)) by lia. rewrite (m_root _ _ _ _ _ M), <- app_assoc. done.
  - rewrite <- app_assoc. apply Forall_app. split; [done|]. constructor; [|done]. cbn [fst snd]. rewrite round_pages, Z.eqb_refl by lia. done.
  - rewrite filter_app, (filter_cons_True live) by (unfold live; cbn; lia). rewrite (m_pre _ _ _ _ _ M). unfold rootEntries. rewrite map_app.
    cbn [map fst snd]. unfold K. by rewrite Htop.
  - change (NumLeafKeys t1) with (NumLeafKeys t + zlen K). rewrite (m_stats _ _ _ _ _ M), contents_app. cbn [contents map concat snd]. lens. lia.
  - pose proof (m_room _ _ _ _ _ M) as Hr. rewrite length_app. cbn in *. lia.
Qed.

(** The leaf goes. *)
Lemma round_drop : exists t2 t3,
  freeNode (addLeafKeys t1 (- zlen K)) c = Some t2 /\ dropEntry t2 1 (Z.of_nat (length pre)) = Some t3 /\
  midway t3 (pre ++ [(topKey kvs, 0)]) S r (c :: free).
Proof.
  destruct round_facts as (H & Hp & Hl & Hc2 & N1 & N2 & _ & _ & R1 & R2 & Hc). destruct round_leaves as [L1 L2]. pose proof K_length as HK.
  set (t1' := addLeafKeys t1 (- zlen K)).
  assert (Hh : heap t1' (c :: 1 :: map fst S ++ map fst r) free).
  { apply (heap_perm _ used); [|apply heap_add, heap_add, heap_write; [exact H|exact Hc|apply enc_length; lia]].
    unfold used. change (1 :: map fst S ++ c :: map fst r) with ((1 :: map fst S) ++ c :: map fst r). symmetry.
    exact (Permutation_middle (1 :: map fst S) (map fst r) c). }
  destruct (freeNode_spec t1' _ free c (enc c bitLeaf K) Hh) as (t2 & E2 & Hh2 & Es2 & Hpg2).
  { change (page t1' c) with (page t1 c). rewrite round_pages, Z.eqb_refl by lia. done. }
  assert (P1 : page t2 1 = Some (enc 1 0 (pre ++ rootEntries ((c, kvs) :: r)))).
  { rewrite Hpg2 by lia. change (page t1' 1) with (page t1 1). rewrite round_pages by lia. rewrite (proj2 (Z.eqb_neq 1 c)) by lia. apply (m_root _ _ _ _ _ M). }
  pose proof (m_room _ _ _ _ _ M) as Hr. cbn [length] in Hr.
  assert (Hlr : (length (pre ++ rootEntries ((c, kvs) :: r)) <= 254)%nat) by (rewrite length_app; unfold rootEntries; rewrite length_map; cbn; lia).
  pose proof (dropEntry_spec t2 _ (c :: free) (pre ++ rootEntries ((c, kvs) :: r)) (length pre) (topKey kvs, c) Hh2 ltac:(left) P1
    Hlr ltac:(by apply list_lookup_middle)) as E3. set (t3 := write t2 1 _) in E3.
  assert (Hp3 : forall q, 1 <= q -> page t3 q = if q =? 1 then _ else page t2 q) by (intros q Hq; apply (page_write t2 (1 :: map fst S ++ map fst r) (c :: free)); [done|left|done]).
  assert (Hfr : forall q, 1 <= q -> q <> 1 -> q <> c -> page t3 q = page t1 q).
  { intros q Hq H1 Hne. rewrite Hp3 by done. rewrite (proj2 (Z.eqb_neq _ _) H1). by apply Hpg2. }
  exists t2, t3. split; [exact E2|]. split; [exact E3|]. constructor.
  - apply heap_write; [done|left|]. apply enc_length. rewrite length_insert. lia.
  - rewrite Hp3 by lia. rewrite Z.eqb_refl. do 2 f_equal. rewrite insert_app_r_alt, Nat.sub_diag by lia. cbn. by rewrite <- app_assoc.
  - assert (Hmv : forall l, leavesAt t1 l -> Forall (fun q => 2 <= q) (map fst l) -> c ∉ map fst l -> leavesAt t3 l).
    { intros l HL HR HN. induction HL as [|x l [Hx1 Hx2] _ IH]; [constructor|]. cbn [map] in *. inversion_clear HR. apply not_elem_of_cons in HN as [HN1 HN2].
      constructor; [|by apply IH]. split; [|done]. rewrite Hfr by (done || lia). done. }
    apply Forall_app. split; by apply Hmv.
  - rewrite filter_app, (filter_cons_False live) by (intros Hx; by apply Hx). rewrite filter_nil, app_nil_r. apply (m_pre _ _ _ _ _ M).
  - change (NumLeafKeys t3) with (NumLeafKeys t2). rewrite Es2. change (NumLeafKeys t1') with (NumLeafKeys t + zlen K + - zlen K). rewrite (m_stats _ _ _ _ _ M). lia.
  - rewrite length_app. cbn. lia.
Qed.
End round.

Lemma compactChildren_spec fuel ts N : forall r pre S t free,
  midway t pre S r free -> N = Z.of_nat (length pre + length r) ->
  Forall (fun l : Z * list (Z * Z) => ts <= topKey l.2 /\ 0 < topKey l.2 /\ StronglySorted keysLt l.2) r ->
  exists t' post free', compactChildren (fun t c => compact (Datatypes.S fuel) t c ts) (recursiveFree (Datatypes.S fuel)) 1 ts N (length r) (Z.of_nat (length pre)) t = Some t' /\
    midway t' (pre ++ post) (S ++ shrink ts r) [] free' /\ map fst post = map (fun l => topKey l.2) r /\
    Forall (fun e => 0 <= e.2) post /\ (r <> [] -> exists post' e, post = post' ++ [e] /\ live e).
Proof.
  induction r as [|[c kvs] r IH]; intros pre S t free M EN Hr.
  { exists t, [], free. cbn [compactChildren length shrink]. rewrite !app_nil_r. done. }
  apply Forall_cons in Hr as [(Ht & Hk & Hs) Hr']. cbn [snd] in Ht, Hk, Hs.
  destruct (round_facts t pre S r free c kvs M) as (H & Hp & Hl & Hc2 & _ & _ & _ & _ & _ & _ & Hc).
  pose proof (m_room _ _ _ _ _ M) as Hroom. cbn [length] in Hroom, EN.
  assert (Hlen : (length (pre ++ rootEntries ((c, kvs) :: r)) <= 254)%nat) by (rewrite length_app; unfold rootEntries; rewrite length_map; cbn; lia).
  assert (Hg : (pre ++ rootEntries ((c, kvs) :: r)) !! length pre = Some (topKey kvs, c)) by (by apply list_lookup_middle).
  cbn [length compactChildren]. rewrite (m_root _ _ _ _ _ M). cbn [mbind option_bind]. rewrite key_enc by lia. cbn [mbind option_bind].
  change (zget (enc 1 0 (pre ++ rootEntries ((c, kvs) :: r))) (valOffset (Z.of_nat (length pre)))) with (val (enc 1 0 (pre ++ rootEntries ((c, kvs) :: r))) (Z.of_nat (length pre))).
  rewrite val_enc by lia. cbn [mbind option_bind]. unfold keyAt, valAt. rewrite !Nat2Z.id, Hg. cbn [fmap option_fmap option_map default from_option fst snd]. unfold id.
  destruct (Z.eqb_spec (topKey kvs) 0); [lia|]. destruct (Z.ltb_spec (topKey kvs) ts); [lia|].
  rewrite (compact_leaf fuel t _ free c kvs ts H Hc Hp Hl Hs). cbn [mbind option_bind shrink snd fst].
  pose proof (K_length ts t pre S r free c kvs M) as HK. cbv zeta in HK. set (K := kept ts kvs) in *.
  assert (Erem : ((if spent ts kvs then 0 else zlen K) =? 0) = spent ts kvs).
  { destruct (spent ts kvs); [done|]. apply Z.eqb_neq. unfold zlen. lia. }
  assert (Ei : (Z.of_nat (length pre) <? N - 1) = negb (bool_decide (r = []))).
  { rewrite EN. destruct r as [|l r]; cbn [length bool_decide negb]; [|rewrite bool_decide_false by done]; [apply Z.ltb_ge | apply Z.ltb_lt]; lia. }
  rewrite Erem, Ei. assert (Ei1 : Z.of_nat (length pre) + 1 = Z.of_nat (length (pre ++ [(topKey kvs, c)])) /\ length (pre ++ [(topKey kvs, 0)]) = length (pre ++ [(topKey kvs, c)])) by (rewrite !length_app; cbn; lia).
  destruct Ei1 as [Ei1 Ei2]. destruct (spent ts kvs && negb (bool_decide (r = []))) eqn:Ed.
  - apply andb_true_iff in Ed as [_ Hrne]. rewrite negb_true_iff, bool_decide_eq_false in Hrne.
    destruct (round_drop ts t pre S r free c kvs M) as (t2 & t3 & E2 & E3 & M3). cbv zeta in E2.
    assert (Pc : page (addLeafKeys (write t c (enc c bitLeaf K)) (zlen K)) c = Some (enc c bitLeaf K)).
    { pose proof (round_pages ts t pre S r free c kvs M c ltac:(lia)) as P. cbv zeta in P. by rewrite Z.eqb_refl in P. }
    rewrite Pc. cbn [mbind option_bind]. rewrite numKeys_enc by (done || lia). cbn [mbind option_bind]. fold K in E2. rewrite E2. cbn [mbind option_bind].
    rewrite E3. cbn [mbind option_bind]. rewrite Ei1, <- Ei2.
    destruct (IH (pre ++ [(topKey kvs, 0)]) S t3 (c :: free) M3) as (t' & post & free' & E & M' & Hf & Hv & Hlast); [rewrite length_app; cbn; lia|done|].
    exists t', ((topKey kvs, 0) :: post), free'. rewrite <- app_assoc in M'. split_and!; try done.
    + cbn. by rewrite Hf.
    + constructor; [cbn; lia | done].
    + intros _. destruct (Hlast Hrne) as (post' & e & -> & He). by exists ((topKey kvs, 0) :: post'), e.
  - cbn [mbind option_bind]. pose proof (round_keep ts t pre S r free c kvs M) as M1. cbv zeta in M1. fold K in M1. rewrite Ei1.
    destruct (IH (pre ++ [(topKey kvs, c)]) (S ++ [(c, K)]) _ free M1) as (t' & post & free' & E & M' & Hf & Hv & Hlast); [rewrite length_app; cbn; lia|done|].
    exists t', ((topKey kvs, c) :: post), free'. rewrite <- !app_assoc in M'. split_and!; try done.
    + cbn. by rewrite Hf.
    + constructor; [cbn; lia | done].
    + intros _. destruct r as [|l r].
      * destruct post as [|e post]; [|done]. exists [], (topKey kvs, c). split; [done|]. unfold live. cbn. lia.
      * destruct (Hlast ltac:(done)) as (post' & e & -> & He). by exists ((topKey kvs, c) :: post'), e.
Qed.

(** *** What is left *)

Lemma sublist_in (a b : list (Z * Z)) y : a `sublist_of` b -> y ∈ a -> y ∈ b.
Proof.
  induction 1 as [|x a b _ IH|x a b _ IH]; [done| |]; intros Hy; [|by right; apply IH].
  apply elem_of_cons in Hy as [->|Hy]; [left | right; by apply IH].
Qed.
Lemma filter_sub (P : Z * Z -> Prop) `{!forall x, Decision (P x)} l : filter P l `sublist_of` l.
Proof.
  induction l as [|x l IH]; [constructor|]. destruct (decide (P x)); [rewrite filter_cons_True by done | rewrite filter_cons_False by done]; by constructor.
Qed.

Lemma entries_sublist a b : a `sublist_of` b -> entries b -> entries a.
Proof.
  intros Hsub. induction Hsub as [|x a b Hab IH|x a b Hab IH]; [done| |]; intros [Hs Hf]; inversion_clear Hs as [|? ? Hs' Hx]; inversion_clear Hf as [|? ? Hfx Hf'];
    destruct (IH (conj Hs' Hf')) as [I1 I2]; [|done].
  split; constructor; try done. rewrite Forall_forall in *. intros y Hy. apply Hx. by apply (sublist_in _ _ _ Hab).
Qed.

Lemma shrink_sublist ts ls : contents (shrink ts ls) `sublist_of` contents ls.
Proof.
  induction ls as [|l ls IH]; [constructor|]. cbn [shrink]. rewrite contents_cons. destruct (_ && _).
  - by apply sublist_inserts_l.
  - rewrite contents_cons. cbn [snd]. apply sublist_app; [|done]. apply filter_sub.
Qed.

Lemma shrink_loses ts ls e : e ∈ contents ls -> e ∈ contents (shrink ts ls) \/ e.2 < ts.
Proof.
  induction ls as [|l ls IH]; [by intros ?%elem_of_nil|]. cbn [shrink]. rewrite contents_cons, elem_of_app.
  assert (Hk : e ∈ l.2 -> e ∈ kept ts l.2 \/ e.2 < ts).
  { intros Hin. destruct (decide (keeps ts (topKey l.2) e)) as [H|H]; [left; by apply list_elem_of_filter|]. right. unfold keeps in H. lia. }
  intros [Hin|Hin].
  - destruct (Hk Hin) as [Hkept|]; [|by right]. destruct (spent ts l.2 && _) eqn:E.
    + apply andb_true_iff in E as [E _]. unfold spent in E. apply andb_true_iff in E as [E1 E3]. apply andb_true_iff in E1 as [E1 _].
      apply Nat.eqb_eq in E1. apply Z.ltb_lt in E3. right. destruct (kept ts l.2) as [|x [|]]; try done. apply list_elem_of_singleton in Hkept as ->. exact E3.
    + left. rewrite contents_cons. apply elem_of_app. by left.
  - destruct (IH Hin) as [H|]; [|by right]. left. destruct (_ && _); [done|]. rewrite contents_cons. apply elem_of_app. by right.
Qed.

Lemma shrink_top ts ls : Forall (fun l : Z * list (Z * Z) => l.2 <> []) ls -> ls <> [] ->
  topKey (contents (shrink ts ls)) = topKey (contents ls) /\ contents (shrink ts ls) <> [].
Proof.
  intros Hf. induction Hf as [|l ls Hl _ IH]; intros Hne; [done|]. cbn [shrink]. rewrite contents_cons. destruct (kept_topKey ts l.2 Hl) as [Kt Kl].
  destruct (decide (ls = [])) as [->|Hls].
  - rewrite bool_decide_true by done. rewrite andb_false_r. cbn [contents map concat shrink snd]. rewrite !app_nil_r. split; [done|]. intros E. rewrite E in Kl. cbn in Kl. lia.
  - destruct (IH Hls) as [I1 I2]. rewrite bool_decide_false by done. rewrite andb_true_r.
    assert (Hcn : contents ls <> []) by (intros E; rewrite E in *; pose proof (shrink_sublist ts ls) as Hs; rewrite E in Hs; by apply sublist_nil_r in Hs).
    rewrite (topKey_app l.2) by done. destruct (spent ts l.2); [done|]. rewrite contents_cons. split; [by rewrite topKey_app|].
    intros E. by apply app_eq_nil in E as [_ E].
Qed.

Lemma shrink_length ts ls : (length (shrink ts ls) <= length ls)%nat.
Proof. induction ls as [|l ls IH]; cbn [shrink]; [done|]. destruct (_ && _); cbn; lia. Qed.

(** The root without the entries that lead nowhere. *)
Lemma root_compacted post post' e : post = post' ++ [e] -> live e -> StronglySorted keysLt post -> Forall (fun e => 0 <= e.2) post ->
  filter (keeps 1 (topKey post)) post = filter live post.
Proof.
  intros -> He Hs Hv. rewrite topKey_snoc. apply StronglySorted_app in Hs as (Hlt & _ & _). apply Forall_app in Hv as [Hv _].
  rewrite !filter_app. f_equal.
  - rewrite Forall_forall in Hv. assert (Hx : forall x, x ∈ post' -> keeps 1 e.1 x <-> live x).
    { intros x Hin. specialize (Hv x Hin). specialize (Hlt x e Hin ltac:(left)). unfold keysLt in Hlt. unfold keeps, live. cbn in Hv. lia. }
    clear - Hx. induction post' as [|x l IH]; [done|]. assert (IH' := IH (fun y Hy => Hx y (list_elem_of_further _ _ _ Hy))).
    specialize (Hx x ltac:(left)). destruct (decide (live x)) as [H|H].
    + rewrite (filter_cons_True live), (filter_cons_True (keeps 1 e.1)) by (done || by apply Hx). by rewrite IH'.
    + rewrite (filter_cons_False live), (filter_cons_False (keeps 1 e.1)) by (done || by rewrite Hx). done.
  - rewrite (filter_cons_True live), (filter_cons_True (keeps 1 e.1)) by (done || (intros [_ H]; lia)). done.
Qed.

Lemma sorted_keys a b : map fst a = map fst b -> StronglySorted keysLt b -> StronglySorted keysLt a.
Proof.
  intros E Hs. revert a E. induction Hs as [|y b Hs IH Hall]; intros [|x a] E; try done; [constructor|]. injection E as Ex Ea.
  constructor; [by apply IH|]. clear - Ex Ea Hall. revert b Ea Hall. induction a as [|z a IH]; intros [|w b] Ea Hall; try done. injection Ea as Ew Ea.
  inversion_clear Hall as [|? ? H1 H2]. constructor; [|by apply (IH b)]. unfold keysLt in *. lia.
Qed.

Lemma DeleteBelow_rep fuel t ls free ts :
  rep t ls free -> Forall (fun l : Z * list (Z * Z) => ts <= topKey l.2) ls ->
  exists t' free', DeleteBelow (S (S fuel)) t ts = Some t' /\ rep t' (shrink ts ls) free'.
Proof.
  intros R Hts. set (t0 := mkTree (data t) (nextPage t) (freePage t) 0 (NumPagesFree t)).
  destruct (rep_root t ls free R) as [Hre Hrl]. assert (Hlr : length (rootEntries ls) = length ls) by (unfold rootEntries; by rewrite length_map).
  assert (Hpages : forall q, page t0 q = page t q) by done.
  assert (M0 : midway t0 [] [] ls free).
  { pose proof (r_room _ _ _ R). constructor; [destruct (r_heap _ _ _ R); by constructor|apply (r_root _ _ _ R)|apply (r_leaves _ _ _ R)|done|done|cbn; lia]. }
  assert (Hne : ls <> []) by (pose proof (r_room _ _ _ R) as Hr; intros ->; cbn in Hr; lia).
  assert (Hcond : Forall (fun l : Z * list (Z * Z) => ts <= topKey l.2 /\ 0 < topKey l.2 /\ StronglySorted keysLt l.2) ls).
  { apply Forall_forall. intros [c kvs] Hin. rewrite Forall_forall in Hts. split; [by apply (Hts _ Hin)|].
    apply list_elem_of_split in Hin as (d & r & Els). pose proof (r_entries _ _ _ R) as He. rewrite Els, contents_app, contents_cons in He.
    apply entries_app in He as (_ & He & _). apply entries_app in He as (He & _ & _). split; [|apply He].
    destruct Hre as [_ Hf]. rewrite Els in Hf. unfold rootEntries in Hf. rewrite map_app in Hf. apply Forall_app in Hf as [_ Hf]. cbn [map fst snd] in Hf.
    inversion_clear Hf as [|? ? [Hk _] _]. apply Hk. }
  destruct (compactChildren_spec fuel ts (zlen (rootEntries ls)) ls [] [] t0 free M0) as (t1 & post & free' & E & M & Hf & Hv & Hlast); [unfold zlen; by rewrite Hlr|done|].
  cbn [app] in M. destruct (Hlast Hne) as (post' & e & Epost & He).
  assert (Hkeys : map fst post = map fst (rootEntries ls)) by (rewrite Hf; unfold rootEntries; by rewrite map_map).
  assert (Hsort : StronglySorted keysLt post) by (apply (sorted_keys _ (rootEntries ls)); [done|apply Hre]).
  assert (Hplen : length post = length ls) by (rewrite <- Hlr, <- (length_map fst post), Hkeys; by rewrite length_map).
  pose proof (m_root _ _ _ _ _ M) as P1. cbn [rootEntries map] in P1. rewrite app_nil_r in P1.
  pose proof (compact_enc 1 0 post 1 isFlag_0 ltac:(lia) ltac:(intros E0; by rewrite E0 in Epost; destruct post') Hsort) as Ec. cbv zeta in Ec.
  rewrite (root_compacted post post' e Epost He Hsort Hv), (m_pre _ _ _ _ _ M) in Ec.
  pose proof (shrink_length ts ls) as Hsl. pose proof (m_heap _ _ _ _ _ M) as Hh1. cbn [map] in Hh1. rewrite app_nil_r in Hh1.
  assert (Hsr : (length (rootEntries (shrink ts ls)) <= 254)%nat) by (unfold rootEntries; rewrite length_map; lia).
  set (t2 := write t1 1 (enc 1 0 (rootEntries (shrink ts ls)))). exists t2, free'. split.
  - unfold DeleteBelow. fold t0. remember (S fuel) as fu. cbn [compact]. rewrite Hpages, (r_root _ _ _ R). cbn [mbind option_bind].
    rewrite isLeaf_enc, numKeys_enc by (done || lia). cbn [mbind option_bind]. rewrite bool_decide_false by done.
    unfold zlen at 2. rewrite Nat2Z.id, Hlr. subst fu. cbn [length] in E. change (Z.of_nat 0) with 0 in E. rewrite E. cbn [mbind option_bind].
    rewrite P1. cbn [mbind option_bind]. rewrite Ec. cbn [mbind option_bind]. rewrite (setPage_write t1 (1 :: map fst (shrink ts ls)) free'); [done|done|left].
  - assert (Hnil : Forall (fun l : Z * list (Z * Z) => l.2 <> []) ls).
    { pose proof (r_leaves _ _ _ R) as Hl. eapply Forall_impl; [exact Hl|]. cbn. intros [c kvs] [_ Hk] E0. cbn in *. subst. cbn in Hk. lia. }
    destruct (shrink_top ts ls Hnil Hne) as [Htop Hcne]. pose proof (h_nodup _ _ _ Hh1) as Hnd. apply NoDup_app in Hnd as (Hnd & _ & _). apply NoDup_cons in Hnd as [N1 _].
    pose proof (h_range _ _ _ Hh1) as Hrg. apply Forall_app in Hrg as [Hrg _]. inversion_clear Hrg as [|? ? _ Hrg'].
    assert (Hpg : forall q, 1 <= q -> page t2 q = if q =? 1 then Some (enc 1 0 (rootEntries (shrink ts ls))) else page t1 q).
    { intros q Hq. apply (page_write t1 (1 :: map fst (shrink ts ls)) free'); [done|left|done]. }
    pose proof (r_room _ _ _ R) as Hroom. constructor.
    + apply heap_write; [done|left|apply enc_length; lia].
    + by rewrite Hpg.
    + pose proof (m_leaves _ _ _ _ _ M) as HL. rewrite app_nil_r in HL. apply (leaves_frame t1 t2 1); [|eapply Forall_impl; [exact Hrg'|]; cbn; lia|done|done].
      intros q Hq Hq1. rewrite Hpg by done. by rewrite (proj2 (Z.eqb_neq _ _) Hq1).
    + apply (entries_sublist _ _ (shrink_sublist ts ls)). apply R.
    + rewrite Htop. apply R.
    + split; [|lia]. destruct (shrink ts ls); [done | cbn; lia].
    + apply (m_stats _ _ _ _ _ M).
Qed.

(** *** Lookups after a deletion *)

Lemma find_in k v kvs : StronglySorted keysLt kvs -> (k, v) ∈ kvs -> find k kvs = v.
Proof.
  induction 1 as [|[k' v'] kvs Hs IH Hall]; intros Hin; [by apply elem_of_nil in Hin|]. cbn. apply elem_of_cons in Hin as [[= -> ->]|Hin]; [by rewrite Z.eqb_refl|].
  rewrite Forall_forall in Hall. specialize (Hall _ Hin). unfold keysLt in Hall. cbn in Hall. destruct (Z.eqb_spec k' k); [lia | by apply IH].
Qed.
Lemma find_not_in k kvs : (forall v, (k, v) ∉ kvs) -> find k kvs = 0.
Proof.
  induction kvs as [|[k' v'] kvs IH]; intros H; [done|]. cbn. destruct (Z.eqb_spec k' k) as [->|]; [destruct (H v'); left|].
  apply IH. intros v Hin. apply (H v). by right.
Qed.

(** What a deletion below [ts] may make of a value. *)
Definition survives (ts v v' : Z) : Prop := (ts <= v -> v' = v) /\ (v' = v \/ v' = 0).

Lemma find_shrink ts ls k : entries (contents ls) -> survives ts (find k (contents ls)) (find k (contents (shrink ts ls))).
Proof.
  intros He. pose proof (entries_sublist _ _ (shrink_sublist ts ls) He) as He'. destruct He as [Hs _]. destruct He' as [Hs' _]. unfold survives.
  assert (Hdec : (exists v, (k, v) ∈ contents ls) \/ (forall v, (k, v) ∉ contents ls)).
  { destruct (decide (k ∈ map fst (contents ls))) as [Hin|Hin].
    - apply list_elem_of_fmap in Hin as ([k' v] & E & Hin). cbn in E. subst. left. by exists v.
    - right. intros v Hv. apply Hin. apply list_elem_of_fmap. by exists (k, v). }
  destruct Hdec as [[v Hv]|Hnone].
  - rewrite (find_in k v) by done. destruct (shrink_loses ts ls (k, v) Hv) as [Hin|Hlt].
    + rewrite (find_in k v (contents (shrink ts ls))) by done. auto.
    + cbn in Hlt. split; [lia|]. destruct (decide ((k, v) ∈ contents (shrink ts ls))) as [Hin|Hout]; [left; by apply find_in|right].
      apply find_not_in. intros w Hw. pose proof (sublist_in _ _ _ (shrink_sublist ts ls) Hw) as Hw'.
      assert (w = v) as ->; [|done]. rewrite <- (find_in k v (contents ls)) by done. symmetry. by apply find_in.
  - rewrite (find_not_in k (contents ls)) by done. assert (E : find k (contents (shrink ts ls)) = 0).
    { apply find_not_in. intros w Hw. apply (Hnone w). by apply (sublist_in _ _ _ (shrink_sublist ts ls)). }
    rewrite E. auto.
Qed.

(** When every key is at least the bound, [DeleteBelow] keeps each key whose value is at or above
    it; a key with a smaller value is gone, or, as the last key of a page, still has its
    value; the statistics count exactly the keys that are left. *)
Theorem btree_DeleteBelow_keeps old kvs ts k :
  zlen old = 256 -> Forall (fun n => zlen n = 512) old ->
  Forall (fun e => isKey e.1 /\ isVal e.2) kvs -> zlen kvs <= 32257 -> Forall (fun e => ts <= e.1) kvs -> ts <= absoluteMax -> isKey k ->
  exists t0 t t' v', NewTree old = Some t0 /\ SetAll t0 kvs = Some t /\ DeleteBelow 2 t ts = Some t' /\ Get 2 t' k = Some v' /\
    survives ts (default 0 (mapOf kvs !! k)) v' /\ NumLeafKeys t' <= NumLeafKeys t.
Proof.
  intros Hl Hw Hk Hn Hts Htm Hkey. destruct (NewTree_rep old Hl Hw) as (t0 & E0 & R0).
  destruct (SetAll_rep t0 _ [] kvs R0) as (t & ls & free & E & R & _ & C & _); [by left|done|change (zlen (contents [(2, [(absoluteMax, 0)])])) with 1; lia|].
  change (contents [(2, [(absoluteMax, 0)])]) with [(absoluteMax, 0)] in C.
  assert (Hall : Forall (fun e => ts <= e.1) (contents ls)).
  { rewrite C. assert (Hgen : forall l c, Forall (fun e : Z * Z => ts <= e.1) l -> Forall (fun e => ts <= e.1) c -> Forall (fun e => ts <= e.1) (foldl (fun c e => ins e.1 e.2 c) c l)).
    { induction l as [|e l IH]; intros c Hl' Hc; [done|]. inversion_clear Hl'. cbn. apply IH; [done|]. by apply ins_Forall. }
    apply Hgen; [done|]. constructor; [done | constructor]. }
  assert (Htops : Forall (fun l : Z * list (Z * Z) => ts <= topKey l.2) ls).
  { apply Forall_forall. intros [c q] Hin. pose proof (r_leaves _ _ _ R) as HL. rewrite Forall_forall in HL. destruct (HL _ Hin) as [_ Hq]. cbn in Hq.
    destruct (topKey_in q) as [v Hv]; [intros ->; cbn in Hq; lia|]. rewrite Forall_forall in Hall. apply (Hall (topKey q, v)).
    apply list_elem_of_split in Hin as (d & r & ->). rewrite contents_app, contents_cons. apply elem_of_app. right. apply elem_of_app. by left. }
  destruct (DeleteBelow_rep 0 t ls free ts R Htops) as (t' & free' & E' & R').
  exists t0, t, t', (find k (contents (shrink ts ls))). split; [done|]. split; [done|]. split; [exact E'|]. split; [by apply (Get_rep 0 t' _ free')|].
  pose proof (find_shrink ts ls k (r_entries _ _ _ R)) as F1.
  assert (Ev : default 0 (mapOf kvs !! k) = find k (contents ls)) by (rewrite find_map, C; by rewrite contents_mapOf). rewrite Ev.
  split; [done|]. rewrite (r_stats _ _ _ R), (r_stats _ _ _ R'). unfold zlen.
  pose proof (sublist_length _ _ (shrink_sublist ts ls)). lia.
Qed.

Lemma btree_DeleteBelow_keeps_witness :
  exists t0 t t' v', NewTree (replicate 256 zeroPage) = Some t0 /\ SetAll t0 [(50, 3); (60, 70)] = Some t /\ DeleteBelow 2 t 10 = Some t' /\ Get 2 t' 60 = Some v' /\
    survives 10 70 v' /\ NumLeafKeys t' <= NumLeafKeys t.
Proof.
  exact (btree_DeleteBelow_keeps (replicate 256 zeroPage) [(50, 3); (60, 70)] 10 60 eq_refl
    ltac:(apply Forall_replicate; reflexivity) ltac:(repeat constructor; cbn; lia) ltac:(vm_compute; discriminate)
    ltac:(repeat constructor; cbn; lia) ltac:(vm_compute; discriminate) ltac:(split; reflexivity)).
Defined.

(** *** Iteration over a filled tree *)

Lemma find_updated f k kvs : find k (map (updated f) kvs) = (updated f (k, find k kvs)).2.
Proof.
  induction kvs as [|[k' v'] kvs IH]; [done|]. cbn [map find updated fst snd]. destruct (Z.eqb_spec k' k) as [->|]; [done | exact IH].
Qed.

Lemma elem_map k v kvs : StronglySorted keysLt kvs -> (k, v) ∈ kvs <-> list_to_map (M := gmap Z Z) kvs !! k = Some v.
Proof.
  intros Hs. apply elem_of_list_to_map.
  induction Hs as [|e l Hs IH Hall]; cbn; [constructor|]. constructor; [|done]. intros Hin. apply list_elem_of_fmap in Hin as (e' & E & Hin).
  rewrite Forall_forall in Hall. specialize (Hall e' Hin). unfold keysLt in Hall. lia.
Qed.

(** Iterating over a tree calls the function once for every key with a value other than 0, in key
    order; a result other than 0 becomes the key's value, and nothing else changes. *)
Theorem btree_IterateKV_visits old kvs f k :
  zlen old = 256 -> Forall (fun n => zlen n = 512) old ->
  Forall (fun e => isKey e.1 /\ isVal e.2) kvs -> zlen kvs <= 32257 -> (forall k v, isVal (f k v)) -> isKey k ->
  exists t0 t t' seen, NewTree old = Some t0 /\ SetAll t0 kvs = Some t /\ IterateKV 2 f t = Some (t', seen) /\
    StronglySorted keysLt seen /\ (forall v, (k, v) ∈ seen <-> mapOf kvs !! k = Some v /\ live (k, v)) /\
    Get 2 t' k = Some (updated f (k, default 0 (mapOf kvs !! k))).2 /\
    NumLeafKeys t' = NumLeafKeys t.
Proof.
  intros Hl Hw Hk Hn Hf Hkey. destruct (NewTree_rep old Hl Hw) as (t0 & E0 & R0).
  destruct (SetAll_rep t0 _ [] kvs R0) as (t & ls & free & E & R & _ & C & _); [by left|done|change (zlen (contents [(2, [(absoluteMax, 0)])])) with 1; lia|].
  change (contents [(2, [(absoluteMax, 0)])]) with [(absoluteMax, 0)] in C.
  destruct (IterateKV_rep f Hf 0 t ls free R) as (t' & E' & R'). pose proof (proj1 (r_entries _ _ _ R)) as Hs.
  exists t0, t, t', (filter live (contents ls)). split; [done|]. split; [done|]. split; [exact E'|].
  assert (Em : list_to_map (contents ls) = mapOf kvs) by (rewrite C; apply contents_mapOf). split_and!.
  - pose proof (entries_sublist _ _ (filter_sub live (contents ls)) (r_entries _ _ _ R)) as [H _]. exact H.
  - intros v. rewrite list_elem_of_filter, elem_map, Em by done. tauto.
  - rewrite (Get_rep 0 t' _ free k R' Hkey), contents_updated, find_updated, find_map, Em. done.
  - rewrite (r_stats _ _ _ R), (r_stats _ _ _ R'), contents_updated. unfold zlen. by rewrite length_map.
Qed.

Lemma btree_IterateKV_visits_witness :
  exists t0 t t' seen, NewTree (replicate 256 zeroPage) = Some t0 /\ SetAll t0 [(50, 3); (60, 0)] = Some t /\ IterateKV 2 (fun _ _ => 8) t = Some (t', seen) /\
    StronglySorted keysLt seen /\ Get 2 t' 50 = Some 8.
Proof.
  destruct (btree_IterateKV_visits (replicate 256 zeroPage) [(50, 3); (60, 0)] (fun _ _ => 8) 50 eq_refl
    ltac:(apply Forall_replicate; reflexivity) ltac:(repeat constructor; cbn; lia) ltac:(vm_compute; discriminate)
    ltac:(intros; split; vm_compute; discriminate || reflexivity) ltac:(split; reflexivity)) as (t0 & t & t' & seen & E0 & E & E' & Hs & _ & HG & _).
  exists t0, t, t', seen. split; [exact E0|]. split; [exact E|]. split; [exact E'|]. split; [exact Hs | exact HG].
Defined.

(** ** Limits *)

(** The tree with the given leaves on the pages from 2 on. *)
Definition treeOf (ls : list (Z * list (Z * Z))) : Tree :=
  mkTree (zeroPage :: enc 1 0 (rootEntries ls) :: map (fun l => enc l.1 bitLeaf l.2) ls ++ replicate (254 - length ls) zeroPage)
    (2 + zlen ls) 0 (zlen (contents ls)) 0.
Definition numbered (kvss : list (list (Z * Z))) : list (Z * list (Z * Z)) := imap (fun i kvs => (2 + Z.of_nat i, kvs)) kvss.

Lemma numbered_fst kvss : map fst (numbered kvss) = map (fun i => 2 + Z.of_nat i) (seq 0 (length kvss)).
Proof.
  apply list_eq. intros i. unfold numbered. rewrite !list_lookup_fmap, list_lookup_imap.
  destruct (kvss !! i) as [kvs|] eqn:E; cbn.
  - rewrite lookup_seq_lt; [done|]. by apply lookup_lt_Some in E.
  - rewrite lookup_seq_ge; [done|]. by apply lookup_ge_None in E.
Qed.

Lemma numbered_page kvss i kvs :
  kvss !! i = Some kvs -> page (treeOf (numbered kvss)) (2 + Z.of_nat i) = Some (enc (2 + Z.of_nat i) bitLeaf kvs).
Proof.
  intros H. unfold page. rewrite (proj2 (Z.eqb_neq _ _)) by lia. unfold zget. rewrite bool_decide_true by lia.
  replace (Z.to_nat (2 + Z.of_nat i)) with (S (S i)) by lia. cbn [treeOf data lookup list_lookup].
  pose proof (lookup_lt_Some _ _ _ H). change (?l !! _) with (l !! i). rewrite lookup_app_l by (rewrite length_map; unfold numbered; rewrite length_imap; lia).
  unfold numbered. by rewrite list_lookup_fmap, list_lookup_imap, H.
Qed.

Lemma treeOf_rep kvss :
  Forall (fun kvs : list (Z * Z) => (0 < length kvs < 255)%nat) kvss -> (0 < length kvss <= 254)%nat ->
  entries (concat kvss) -> topKey (concat kvss) = absoluteMax -> rep (treeOf (numbered kvss)) (numbered kvss) [].
Proof.
  intros Hs Hl He Ht. assert (Hn : length (numbered kvss) = length kvss) by apply length_imap.
  assert (Hsnd : map snd (numbered kvss) = kvss).
  { apply list_eq. intros i. unfold numbered. rewrite list_lookup_fmap, list_lookup_imap. by destruct (kvss !! i). }
  assert (Hc : contents (numbered kvss) = concat kvss) by (unfold contents; by rewrite Hsnd).
  assert (Hr : length (rootEntries (numbered kvss)) = length kvss) by (unfold rootEntries; by rewrite length_map).
  constructor; rewrite ?Hc, ?Hn; try done.
  - constructor; cbn [data treeOf nextPage freePage NumPagesFree]; try done.
    + unfold zlen. cbn [length]. rewrite length_app, length_map, length_replicate, Hn. lia.
    + constructor; [done|]. constructor; [apply enc_length; lia|]. apply Forall_app. split; [|by apply Forall_replicate].
      apply Forall_forall. intros n Hin. apply list_elem_of_fmap in Hin as ([c kvs] & -> & Hin). apply enc_length. cbn.
      apply list_elem_of_lookup in Hin as [i Hi]. unfold numbered in Hi. rewrite list_lookup_imap in Hi. destruct (kvss !! i) as [x|] eqn:E; [|done].
      cbn in Hi. injection Hi as <- <-. pose proof (Forall_lookup_1 _ _ _ _ Hs E) as Hx. cbn in Hx. lia.
    + rewrite app_nil_r, numbered_fst. constructor.
      * intros Hin. apply list_elem_of_fmap in Hin as (i & E & _). lia.
      * apply NoDup_fmap_2; [intros ? ? ?; lia | apply NoDup_seq].
    + rewrite app_nil_r, numbered_fst. unfold zlen. rewrite Hn. constructor; [lia|]. apply Forall_forall. intros q Hin.
      apply list_elem_of_fmap in Hin as (i & -> & Hi). apply elem_of_seq in Hi. lia.
    + unfold zlen. cbn [length]. rewrite length_map. lia.
    + unfold zlen. rewrite Hn. lia.
  - apply Forall_forall. intros [c kvs] Hin. apply list_elem_of_lookup in Hin as [i Hi]. unfold numbered in Hi. rewrite list_lookup_imap in Hi.
    destruct (kvss !! i) as [x|] eqn:E; [|done]. cbn in Hi. injection Hi as <- <-. split; [by apply numbered_page | by apply (Forall_lookup_1 _ _ _ _ Hs E)].
  - cbn [treeOf NumLeafKeys]. by rewrite Hc.
Qed.

(** A tree of two leaves, the first with the keys 1 and 2. *)
Definition twoLeaves : Tree := treeOf (numbered [[(1, 1000); (2, 1000)]; [(3, 1000); (absoluteMax, 0)]]).

Lemma twoLeaves_rep : rep twoLeaves (numbered [[(1, 1000); (2, 1000)]; [(3, 1000); (absoluteMax, 0)]]) [].
Proof.
  apply treeOf_rep; [repeat constructor; cbn; lia|cbn; lia| |reflexivity]. split; repeat constructor; cbn; lia.
Qed.

(** The shortcut of [compact] compares the child's largest key with the bound for values: keys
    with values far above the bound are dropped, the key count is wrong, and with the
    largest bound the last child goes as well and every [Get] panics. *)
Lemma btree_DeleteBelow_drops_live_keys :
  Get 2 twoLeaves 1 = Some 1000 /\
  (exists t', DeleteBelow 2 twoLeaves 500 = Some t' /\ Get 2 t' 1 = Some 0 /\ Get 2 t' 3 = Some 1000 /\ NumLeafKeys t' = 0) /\
  (exists t', DeleteBelow 2 twoLeaves (2 ^ 64 - 1) = Some t' /\ forall fuel, Get fuel t' 3 = None).
Proof.
  split; [vm_compute; reflexivity|]. split.
  - assert (H : (t' ← DeleteBelow 2 twoLeaves 500; Some (Get 2 t' 1, Get 2 t' 3, NumLeafKeys t')) = Some (Some 0, Some 1000, 0)) by (vm_compute; reflexivity).
    destruct (DeleteBelow 2 twoLeaves 500) as [t'|]; [|discriminate H]. exists t'. injection H as H1 H2 H3. done.
  - assert (H : (t' ← DeleteBelow 2 twoLeaves (2 ^ 64 - 1); page t' 1) = Some (enc 1 0 [(absoluteMax, 0)])) by (vm_compute; reflexivity).
    destruct (DeleteBelow 2 twoLeaves (2 ^ 64 - 1)) as [t'|]; [|discriminate H]. exists t'. split; [done|]. cbn [mbind option_bind] in H.
    intros [|fuel]; [done|]. unfold Get. cbn [get]. rewrite H. vm_compute. reflexivity.
Qed.

(** A tree whose root has room for one more child, and whose first leaf has room for one
    more key. *)
Definition nearlyFull : list (list (Z * Z)) :=
  map (fun i => (Z.of_nat i, 7)) (seq 2 254) :: map (fun i => [(1000 * Z.of_nat i, 7)]) (seq 1 252) ++ [[(absoluteMax, 0)]].

Fixpoint sortedb (kvs : list (Z * Z)) : bool :=
  match kvs with
  | e :: ((e' :: _) as rest) => (e.1 <? e'.1) && sortedb rest
  | _ => true
  end.
Lemma sortedb_sorted kvs : sortedb kvs = true -> StronglySorted keysLt kvs.
Proof.
  intros H. apply Sorted_StronglySorted; [intros a b c; unfold keysLt; lia|].
  induction kvs as [|e kvs IH]; constructor.
  - apply IH. destruct kvs; [done|]. cbn [sortedb] in H. by apply andb_true_iff in H as [_ H].
  - destruct kvs as [|e' kvs]; constructor. cbn [sortedb] in H. apply andb_true_iff in H as [H _]. by apply Z.ltb_lt in H.
Qed.

Lemma nearlyFull_rep : rep (treeOf (numbered nearlyFull)) (numbered nearlyFull) [].
Proof.
  apply treeOf_rep.
  - apply (bool_decide_unpack _). vm_compute. exact I.
  - apply (bool_decide_unpack _). vm_compute. exact I.
  - split; [apply sortedb_sorted; vm_compute; reflexivity|]. unfold isKey, isVal. apply (bool_decide_unpack _). vm_compute. exact I.
  - vm_compute. reflexivity.
Qed.

(** A root that leads to itself keeps [get] going round. *)
Lemma get_self_loop t n k idx num ki :
  page t 1 = Some n -> isLeaf n = Some false -> search n k = Some idx -> numKeys n = Some num -> idx <> num ->
  key n idx = Some ki -> ki <> 0 -> val n idx = Some 1 -> forall fuel, get fuel t 1 k = None.
Proof.
  intros Hp Hl Hs Hn Hi Hk Hk0 Hv. induction fuel as [|fuel IH]; [done|]. cbn [get]. rewrite Hp. cbn [mbind option_bind]. rewrite Hl. cbn [mbind option_bind].
  rewrite Hs. cbn [mbind option_bind]. rewrite Hn. cbn [mbind option_bind]. rewrite (proj2 (Z.eqb_neq _ _) Hi), Hk. cbn [mbind option_bind].
  rewrite (proj2 (Z.eqb_neq _ _) Hk0). unfold val in Hv. rewrite Hv. exact IH.
Qed.

(** Splitting a full root copies its page id into the left half instead of giving it its
    own, and the values not at all: the root becomes its own child.  The insertion
    returns, but looking up any of the smaller keys afterwards never does. *)
Lemma btree_root_split_loops :
  let t := treeOf (numbered nearlyFull) in
  Get 2 t 5 = Some 7 /\ exists t', Set_ 2 t 1 7 = Some t' /\ forall fuel, Get fuel t' 5 = None.
Proof.
  cbv zeta. split; [vm_compute; reflexivity|].
  assert (H : (t' ← Set_ 2 (treeOf (numbered nearlyFull)) 1 7; n ← page t' 1; l ← isLeaf n; i ← search n 5; num ← numKeys n; ki ← key n i; v ← val n i;
    Some (l, negb (i =? num), negb (ki =? 0), v)) = Some (false, true, true, 1)) by (vm_compute; reflexivity).
  destruct (Set_ 2 (treeOf (numbered nearlyFull)) 1 7) as [t'|]; [|discriminate H]. exists t'. split; [done|]. cbn [mbind option_bind] in H.
  destruct (page t' 1) as [n|] eqn:E1; [|discriminate H]. cbn [mbind option_bind] in H.
  destruct (isLeaf n) as [l|] eqn:E2; [|discriminate H]. cbn [mbind option_bind] in H.
  destruct (search n 5) as [i|] eqn:E3; [|discriminate H]. cbn [mbind option_bind] in H.
  destruct (numKeys n) as [num|] eqn:E4; [|discriminate H]. cbn [mbind option_bind] in H.
  destruct (key n i) as [ki|] eqn:E5; [|discriminate H]. cbn [mbind option_bind] in H.
  destruct (val n i) as [v|] eqn:E6; [|discriminate H]. cbn [mbind option_bind] in H. injection H as -> H2 H3 ->.
  apply negb_true_iff, Z.eqb_neq in H2. apply negb_true_iff, Z.eqb_neq in H3.
  intros fuel. unfold Get. cbn [orb Z.eqb]. by apply (get_self_loop t' n 5 i num ki).
Qed.
