(* ===== verification/Float.v ===== *)
(** * Float64 values and their comparisons

    Go's [float64] as the IEEE 754 binary64 values of the Standard Library
    ([spec_float]: signed zeros and infinities, one NaN, sign, mantissa and
    exponent), with the comparisons [<], [<=], [==] and the addition the
    sorted collections use.  The lemmas show that the comparisons are a total
    preorder on the values that are not NaN, in which the two zeros are
    equal. *)

From stdpp Require Import base list option strings.
From Stdlib Require Import ZArith Lia SpecFloat.
From S2P Require Import Prelude.

#[local] Open Scope Z_scope.

Definition float64 : Type := spec_float.

Definition fltb (a b : float64) : bool := SFltb a b.
Definition fleb (a b : float64) : bool := SFleb a b.
Definition feqb (a b : float64) : bool := SFeqb a b.
Definition fadd (a b : float64) : float64 := SFadd 53 1024 a b.

Definition fzero : float64 := S754_zero false.
Definition fnan : float64 := S754_nan.

Definition is_nan (a : float64) : bool :=
  match a with S754_nan => true | _ => false end.

(** The float of a small integer constant of the source. *)
Definition f64_of_Z (z : Z) : float64 := binary_normalize 53 1024 z 0 false.

(** ** The order *)

(** A value that is not NaN as a triple compared lexicographically. *)
Definition fkey (a : float64) : Z * Z * Z :=
  match a with
  | S754_nan => (0, 0, 0)
  | S754_zero _ => (0, 0, 0)
  | S754_infinity false => (2, 0, 0)
  | S754_infinity true => (-2, 0, 0)
  | S754_finite false m e => (1, e, Zpos m)
  | S754_finite true m e => (-1, - e, - Zpos m)
  end.

Definition klt (x y : Z * Z * Z) : Prop :=
  let '(a, b, c) := x in
  let '(a', b', c') := y in
  a < a' \/ (a = a' /\ (b < b' \/ (b = b' /\ c < c'))).

Lemma SFcompare_fkey a b :
  is_nan a = false -> is_nan b = false ->
  (SFcompare a b = Some Lt /\ klt (fkey a) (fkey b)) \/
  (SFcompare a b = Some Eq /\ fkey a = fkey b) \/
  (SFcompare a b = Some Gt /\ klt (fkey b) (fkey a)).
Proof.
  destruct a as [sa|sa| |sa ma ea], b as [sb|sb| |sb mb eb]; intros Ha Hb; try discriminate;
    try destruct sa; try destruct sb; cbn [SFcompare fkey klt];
    try (left; split; [reflexivity|lia]);
    try (right; left; split; reflexivity);
    try (right; right; split; [reflexivity|lia]).
  all: destruct (Z.compare_spec ea eb) as [->|He|He];
    [ change (Pos.compare_cont Eq ma mb) with (Pos.compare ma mb); destruct (Pos.compare_spec ma mb) as [->|Hm|Hm] | | ];
    cbn [CompOpp];
    first [ left; split; [reflexivity|lia]
          | right; left; split; [reflexivity|congruence]
          | right; right; split; [reflexivity|lia] ].
Qed.

Lemma fltb_klt a b :
  is_nan a = false -> is_nan b = false -> (fltb a b = true <-> klt (fkey a) (fkey b)).
Proof.
  intros Ha Hb. unfold fltb, SFltb.
  destruct (SFcompare_fkey a b Ha Hb) as [[-> H]|[[-> H]|[-> H]]]; split; try done;
    intros H'; exfalso; destruct (fkey a) as [[??]?], (fkey b) as [[??]?]; cbn in *;
    simplify_eq; lia.
Qed.

Lemma feqb_fkey a b :
  is_nan a = false -> is_nan b = false -> (feqb a b = true <-> fkey a = fkey b).
Proof.
  intros Ha Hb. unfold feqb, SFeqb.
  destruct (SFcompare_fkey a b Ha Hb) as [[-> H]|[[-> H]|[-> H]]]; split; try done;
    intros H'; exfalso; rewrite H' in H; destruct (fkey b) as [[??]?]; cbn in *; lia.
Qed.

Lemma fleb_fltb a b :
  is_nan a = false -> is_nan b = false -> fleb a b = negb (fltb b a).
Proof.
  intros Ha Hb. unfold fleb, SFleb, fltb, SFltb.
  destruct (SFcompare_fkey a b Ha Hb) as [[-> H]|[[-> H]|[-> H]]];
  destruct (SFcompare_fkey b a Hb Ha) as [[-> H']|[[-> H']|[-> H']]]; try done;
    exfalso; destruct (fkey a) as [[??]?], (fkey b) as [[??]?]; cbn in *; simplify_eq; lia.
Qed.

(** Trichotomy of [fltb] and [feqb], away from NaN. *)
Lemma f_trichotomy a b :
  is_nan a = false -> is_nan b = false ->
  (fltb a b = true /\ feqb a b = false /\ fltb b a = false) \/
  (fltb a b = false /\ feqb a b = true /\ fltb b a = false) \/
  (fltb a b = false /\ feqb a b = false /\ fltb b a = true).
Proof.
  intros Ha Hb. unfold fltb, SFltb, feqb, SFeqb.
  destruct (SFcompare_fkey a b Ha Hb) as [[-> H]|[[-> H]|[-> H]]];
  destruct (SFcompare_fkey b a Hb Ha) as [[-> H']|[[-> H']|[-> H']]]; try tauto;
    exfalso; destruct (fkey a) as [[??]?], (fkey b) as [[??]?]; cbn in *; simplify_eq; lia.
Qed.

Lemma fltb_trans a b c :
  is_nan a = false -> is_nan b = false -> is_nan c = false ->
  fltb a b = true -> fltb b c = true -> fltb a c = true.
Proof.
  intros Ha Hb Hc. rewrite !fltb_klt by done.
  destruct (fkey a) as [[??]?], (fkey b) as [[??]?], (fkey c) as [[??]?]; cbn; lia.
Qed.

Lemma fltb_le_trans a b c :
  is_nan a = false -> is_nan b = false -> is_nan c = false ->
  fltb a b = true -> fltb c b = false -> fltb a c = true.
Proof.
  intros Ha Hb Hc. rewrite <- (not_true_iff_false (fltb c b)), !fltb_klt by done.
  destruct (fkey a) as [[??]?], (fkey b) as [[??]?], (fkey c) as [[??]?]; cbn; lia.
Qed.

Lemma fle_lt_trans a b c :
  is_nan a = false -> is_nan b = false -> is_nan c = false ->
  fltb b a = false -> fltb b c = true -> fltb a c = true.
Proof.
  intros Ha Hb Hc. rewrite <- (not_true_iff_false (fltb b a)), !fltb_klt by done.
  destruct (fkey a) as [[??]?], (fkey b) as [[??]?], (fkey c) as [[??]?]; cbn; lia.
Qed.

Lemma fle_trans a b c :
  is_nan a = false -> is_nan b = false -> is_nan c = false ->
  fltb b a = false -> fltb c b = false -> fltb c a = false.
Proof.
  intros Ha Hb Hc. rewrite <- !not_true_iff_false, !fltb_klt by done.
  destruct (fkey a) as [[??]?], (fkey b) as [[??]?], (fkey c) as [[??]?]; cbn; lia.
Qed.

Lemma feqb_fltb_l a b c :
  is_nan a = false -> is_nan b = false -> is_nan c = false ->
  feqb a b = true -> fltb a c = fltb b c.
Proof.
  intros Ha Hb Hc. rewrite feqb_fkey by done. intros E. apply eq_true_iff_eq.
  rewrite !fltb_klt by done. by rewrite E.
Qed.

Lemma feqb_fltb_r a b c :
  is_nan a = false -> is_nan b = false -> is_nan c = false ->
  feqb a b = true -> fltb c a = fltb c b.
Proof.
  intros Ha Hb Hc. rewrite feqb_fkey by done. intros E. apply eq_true_iff_eq.
  rewrite !fltb_klt by done. by rewrite E.
Qed.

Lemma feqb_sym a b : is_nan a = false -> is_nan b = false -> feqb a b = feqb b a.
Proof. intros Ha Hb. apply eq_true_iff_eq. rewrite !feqb_fkey by done. done. Qed.

Lemma feqb_refl a : is_nan a = false -> feqb a a = true.
Proof. intros Ha. by apply feqb_fkey. Qed.

Lemma feqb_trans a b c :
  is_nan a = false -> is_nan b = false -> is_nan c = false ->
  feqb a b = true -> feqb b c = true -> feqb a c = true.
Proof. intros Ha Hb Hc. rewrite !feqb_fkey by done. congruence. Qed.

Lemma fltb_nan_r a b : is_nan b = true -> fltb a b = false.
Proof. destruct b; try done. by destruct a. Qed.

Lemma fleb_nan_l a b : is_nan a = true -> fleb a b = false.
Proof. by destruct a. Qed.

Lemma fleb_nan_r a b : is_nan b = true -> fleb a b = false.
Proof. destruct b; try done. by destruct a. Qed.

Lemma fltb_nan_l a b : is_nan a = true -> fltb a b = false.
Proof. by destruct a. Qed.

Lemma feqb_nan_l a b : is_nan a = true -> feqb a b = false.
Proof. by destruct a. Qed.

Lemma feqb_nan_r a b : is_nan b = true -> feqb a b = false.
Proof. destruct b; try done. by destruct a. Qed.

(** ** Scores and keys: the order of a sorted set *)

(** [strings.Compare]: the byte-wise order of strings. *)
Definition scompare (a b : string) : comparison := String.compare a b.

Lemma scompare_refl a : scompare a a = Eq.
Proof.
  unfold scompare. induction a as [|c a IH]; cbn; [done|].
  unfold Ascii.compare. by rewrite N.compare_refl.
Qed.

Lemma scompare_Eq a b : scompare a b = Eq <-> a = b.
Proof. split; [apply String.compare_eq_iff | intros ->; apply scompare_refl]. Qed.

Lemma scompare_opp a b : scompare a b = CompOpp (scompare b a).
Proof. apply String.compare_antisym. Qed.

Lemma scompare_Lt_trans a b c : scompare a b = Lt -> scompare b c = Lt -> scompare a c = Lt.
Proof.
  intros H1 H2.
  assert (Hle : String.le a c).
  { transitivity b; unfold String.le, String.leb; unfold scompare in *; [by rewrite H1|by rewrite H2]. }
  unfold String.le, String.leb in Hle. unfold scompare in *.
  destruct (String.compare a c) eqn:E; [|done|done].
  apply String.compare_eq_iff in E as ->. rewrite String.compare_antisym, H2 in H1. done.
Qed.

(** A member: its score and its key. *)
Definition member : Type := float64 * string.

(** The order of the members: by score, then by key. *)
Definition beforeb (s1 : float64) (k1 : string) (s2 : float64) (k2 : string) : bool :=
  fltb s1 s2 || (feqb s1 s2 && match scompare k1 k2 with Lt => true | _ => false end).

Definition mbefore (a b : member) : bool := beforeb a.1 a.2 b.1 b.2.
Definition msame (a b : member) : bool := feqb a.1 b.1 && bool_decide (a.2 = b.2).
Definition is_num (a : member) : Prop := is_nan a.1 = false.

Lemma mbefore_trichotomy a b :
  is_num a -> is_num b ->
  (mbefore a b = true /\ msame a b = false /\ mbefore b a = false) \/
  (mbefore a b = false /\ msame a b = true /\ mbefore b a = false) \/
  (mbefore a b = false /\ msame a b = false /\ mbefore b a = true).
Proof.
  intros Ha Hb. unfold mbefore, msame, beforeb. rewrite (feqb_sym b.1 a.1) by done.
  destruct (f_trichotomy a.1 b.1 Ha Hb) as [(-> & -> & ->)|[(-> & -> & ->)|(-> & -> & ->)]];
    cbn; [by left| |by right; right].
  rewrite (scompare_opp b.2 a.2). destruct (scompare a.2 b.2) eqn:E; cbn.
  - apply scompare_Eq in E. rewrite bool_decide_eq_true_2 by done. by right; left.
  - rewrite bool_decide_eq_false_2; [by left|]. intros Hk. apply scompare_Eq in Hk. congruence.
  - rewrite bool_decide_eq_false_2; [by right; right|]. intros Hk. apply scompare_Eq in Hk. congruence.
Qed.

Lemma mbefore_asym a b : is_num a -> is_num b -> mbefore a b = true -> mbefore b a = false.
Proof. intros Ha Hb H. destruct (mbefore_trichotomy a b Ha Hb) as [(? & ? & ?)|[(? & ? & ?)|(? & ? & ?)]]; congruence. Qed.

Lemma mbefore_trans a b c :
  is_num a -> is_num b -> is_num c -> mbefore a b = true -> mbefore b c = true -> mbefore a c = true.
Proof.
  intros Ha Hb Hc. unfold mbefore, beforeb. rewrite !orb_true_iff, !andb_true_iff.
  intros [H1|[H1 K1]] [H2|[H2 K2]].
  - left. by apply (fltb_trans _ b.1).
  - left. by rewrite <- (feqb_fltb_r b.1).
  - left. by rewrite (feqb_fltb_l a.1 b.1).
  - right. split; [by apply (feqb_trans _ b.1)|].
    destruct (scompare a.2 b.2) eqn:E1; try done. destruct (scompare b.2 c.2) eqn:E2; try done.
    by rewrite (scompare_Lt_trans _ _ _ E1 E2).
Qed.

Lemma msame_mbefore_r a b c :
  is_num a -> is_num b -> is_num c -> msame a b = true -> mbefore c a = mbefore c b.
Proof.
  intros Ha Hb Hc [Hs Hk]%andb_true_iff. apply bool_decide_eq_true in Hk.
  unfold mbefore, beforeb. rewrite Hk, (feqb_fltb_r a.1 b.1) by done. do 2 f_equal.
  apply eq_true_iff_eq. rewrite !feqb_fkey by done. apply feqb_fkey in Hs; [|done..]. by rewrite Hs.
Qed.

Lemma msame_mbefore_l a b c :
  is_num a -> is_num b -> is_num c -> msame a b = true -> mbefore a c = mbefore b c.
Proof.
  intros Ha Hb Hc [Hs Hk]%andb_true_iff. apply bool_decide_eq_true in Hk.
  unfold mbefore, beforeb. rewrite Hk, (feqb_fltb_l a.1 b.1) by done. do 2 f_equal.
  apply eq_true_iff_eq. rewrite !feqb_fkey by done. apply feqb_fkey in Hs; [|done..]. by rewrite Hs.
Qed.

Lemma mbefore_not_same a b : is_num a -> is_num b -> mbefore a b = true -> msame a b = false.
Proof.
  intros Ha Hb H. destruct (mbefore_trichotomy a b Ha Hb) as [(? & ? & ?)|[(? & ? & ?)|(? & ? & ?)]];
    congruence.
Qed.

Lemma msame_refl a : is_num a -> msame a a = true.
Proof. intros Ha. unfold msame. rewrite feqb_refl by done. by rewrite bool_decide_eq_true_2. Qed.

(** The weak order is transitive. *)
Lemma mle_trans a b c :
  is_num a -> is_num b -> is_num c ->
  mbefore b a = false -> mbefore c b = false -> mbefore c a = false.
Proof.
  intros Ha Hb Hc H1 H2. destruct (mbefore c a) eqn:E; [|done]. exfalso.
  destruct (mbefore_trichotomy a b Ha Hb) as [(Hab & _ & _)|[(_ & Hs & _)|(_ & _ & ?)]].
  - rewrite (mbefore_trans c a b) in H2; done.
  - rewrite (msame_mbefore_r a b c Ha Hb Hc Hs) in E. congruence.
  - congruence.
Qed.

(** Scores follow the order. *)
Lemma mle_score a b : is_num a -> is_num b -> mbefore b a = false -> fltb b.1 a.1 = false.
Proof. intros Ha Hb. unfold mbefore, beforeb. by intros [? _]%orb_false_iff. Qed.

#[export] Hint Rewrite scompare_refl : go_rw.
