(* ===== verification/SkipList.v ===== *)
(** * Skip list ([src/pkg/datastructs/skiplist/skiplist.go])

    The nodes live in a store indexed by address, so that the forward,
    backward, head and tail pointers alias as in the source; [nil] is [None],
    and a dereference of [nil] or an index out of range makes an operation
    return [None].  The coin flips of [randomLevel] are an argument.

    The representation predicate [rep sl items] says that the store holds the
    list [items] at level 0, that the forward pointer and the span of every
    level of every node are those of the list ([link]), and that the backward
    pointers, the tail, the length and the level agree with it.  Each
    operation is proved against the list. *)

From stdpp Require Import base list option strings sorting.
From Stdlib Require Import ZArith Lia SpecFloat.
From S2P Require Import Prelude Float.

#[local] Open Scope Z_scope.

(** ** Data *)

Definition maxLevel : nat := 32.

Record Level := mkLevel { forward : option nat; span : Z }.

Record Node := mkNode {
  Key : string;
  Score : float64;
  backward : option nat;
  levels : list Level }.

Record SkipList := mkSkipList {
  sl_heap : list Node;
  sl_head : nat;
  sl_tail : option nat;
  sl_length : Z;
  sl_level : nat }.

Record ScoreRange := mkScoreRange {
  Min : float64;
  Max : float64;
  MinExclusive : bool;
  MaxExclusive : bool }.

Definition gteMin (sr : ScoreRange) (value : float64) : bool :=
  if MinExclusive sr then fltb (Min sr) value else fleb (Min sr) value.

Definition lteMax (sr : ScoreRange) (value : float64) : bool :=
  if MaxExclusive sr then fltb value (Max sr) else fleb value (Max sr).

Definition containsScore (sr : ScoreRange) (value : float64) : bool :=
  gteMin sr value && lteMax sr value.

(** ** The store *)

Definition getL (H : list Node) (a i : nat) : option Level :=
  n ← H !! a; levels n !! i.

Definition setL (H : list Node) (a i : nat) (lv : Level) : option (list Node) :=
  n ← H !! a;
  _ ← levels n !! i;
  Some (<[a := mkNode (Key n) (Score n) (backward n) (<[i := lv]> (levels n))]> H).

Definition setBackward (H : list Node) (a : nat) (b : option nat) : option (list Node) :=
  n ← H !! a; Some (<[a := mkNode (Key n) (Score n) b (levels n)]> H).

Definition setScore (H : list Node) (a : nat) (s : float64) : option (list Node) :=
  n ← H !! a; Some (<[a := mkNode (Key n) s (backward n) (levels n)]> H).

(** A loop whose body may panic. *)
Fixpoint foldM {A B} (f : A -> B -> option A) (l : list B) (a : A) : option A :=
  match l with
  | [] => Some a
  | b :: l' => a' ← f a b; foldM f l' a'
  end.

(** ** Operations *)

Definition New : SkipList :=
  mkSkipList [mkNode EmptyString fzero None (replicate maxLevel (mkLevel None 0))] 0 None 0 1.

Definition Len (sl : SkipList) : Z := sl_length sl.

(** [flip n] is the outcome of the [n]-th [rand.Float64() < probability]. *)
Fixpoint randomLevel_loop (fuel : nat) (flip : nat -> bool) (level : nat) : nat :=
  match fuel with
  | O => level
  | S f => if flip (level - 1)%nat && (level <? maxLevel)%nat
           then randomLevel_loop f flip (S level) else level
  end.

Definition randomLevel (flip : nat -> bool) : nat := randomLevel_loop maxLevel flip 1.

(** The inner loop of every descent: at level [i], follow the forward
    pointers while [go] holds of the next node and of the rank it has. *)
Fixpoint walk (fuel : nat) (H : list Node) (go : string -> float64 -> Z -> bool)
    (i x : nat) (rank : Z) : option (nat * Z) :=
  match fuel with
  | O => None
  | S f =>
      lv ← getL H x i;
      match forward lv with
      | None => Some (x, rank)
      | Some y =>
          nd ← H !! y;
          if go (Key nd) (Score nd) (rank + span lv)
          then walk f H go i y (rank + span lv)
          else Some (x, rank)
      end
  end.

(** The outer loop from level [i - 1] down to 0, collecting for each level
    the last node visited and its rank ([update] and [rank]). *)
Fixpoint descend (fuel : nat) (H : list Node) (go : string -> float64 -> Z -> bool)
    (i x : nat) (rank : Z) (acc : list (nat * Z)) : option (nat * list (nat * Z)) :=
  match i with
  | O => Some (x, acc)
  | S i' =>
      '(x', r') ← walk fuel H go i' x rank;
      descend fuel H go i' x' r' ((x', r') :: acc)
  end.

Definition fuel_of (sl : SkipList) : nat := S (length (sl_heap sl)).

(** The conditions of the loops. *)
Definition go_lt (score : float64) (key : string) (k : string) (s : float64) (_ : Z) : bool :=
  beforeb s k score key.

Definition go_le (score : float64) (key : string) (k : string) (s : float64) (_ : Z) : bool :=
  fltb s score || (feqb s score && match scompare k key with Gt => false | _ => true end).

Definition go_rank (rank : Z) (_ : string) (_ : float64) (r : Z) : bool := r <=? rank.

Definition go_min (sr : ScoreRange) (_ : string) (s : float64) (_ : Z) : bool := negb (gteMin sr s).

Definition Insert (sl : SkipList) (flip : nat -> bool) (score : float64) (key : string)
    : option (SkipList * nat) :=
  let hd := sl_head sl in
  '(_, ur) ← descend (fuel_of sl) (sl_heap sl) (go_lt score key) (sl_level sl) hd 0 [];
  let newLevel := randomLevel flip in
  let lvl := Nat.max (sl_level sl) newLevel in
  let ur := ur ++ replicate (newLevel - sl_level sl) (hd, 0) in
  H ← foldM (fun H i =>
        lu ← getL H hd i;
        setL H hd i (mkLevel (forward lu) (sl_length sl)))
      (seq (sl_level sl) (newLevel - sl_level sl)) (sl_heap sl);
  let node := length H in
  let H := H ++ [mkNode key score None (replicate newLevel (mkLevel None 0))] in
  '(u0, r0) ← ur !! 0%nat;
  H ← foldM (fun H i =>
        '(u, r) ← ur !! i;
        lu ← getL H u i;
        H ← setL H node i (mkLevel (forward lu) (span lu - (r0 - r)));
        setL H u i (mkLevel (Some node) (r0 - r + 1)))
      (seq 0 newLevel) H;
  H ← foldM (fun H i =>
        '(u, _) ← ur !! i;
        lu ← getL H u i;
        setL H u i (mkLevel (forward lu) (span lu + 1)))
      (seq newLevel (lvl - newLevel)) H;
  H ← setBackward H node (if decide (u0 = hd) then None else Some u0);
  ln ← getL H node 0;
  match forward ln with
  | Some y =>
      H ← setBackward H y (Some node);
      Some (mkSkipList H hd (sl_tail sl) (sl_length sl + 1) lvl, node)
  | None =>
      Some (mkSkipList H hd (Some node) (sl_length sl + 1) lvl, node)
  end.

Fixpoint shrink (H : list Node) (hd lvl : nat) : option nat :=
  match lvl with
  | O => Some O
  | S l =>
      if (1 <? S l)%nat then
        lv ← getL H hd l;
        match forward lv with None => shrink H hd l | Some _ => Some (S l) end
      else Some (S l)
  end.

(** The body of [deleteNode]'s loop over the levels. *)
Definition unlinkLevel (x : nat) (update : list (nat * Z)) (H : list Node) (i : nat)
    : option (list Node) :=
  '(u, _) ← update !! i;
  lu ← getL H u i;
  if decide (forward lu = Some x) then
    lx ← getL H x i;
    setL H u i (mkLevel (forward lx) (span lu + (span lx - 1)))
  else setL H u i (mkLevel (forward lu) (span lu - 1)).

Definition deleteNode (sl : SkipList) (x : nat) (update : list (nat * Z)) : option SkipList :=
  H ← foldM (unlinkLevel x update) (seq 0 (sl_level sl)) (sl_heap sl);
  nx ← H !! x;
  lx ← getL H x 0;
  '(H, tl) ← match forward lx with
             | Some y => H ← setBackward H y (backward nx); Some (H, sl_tail sl)
             | None => Some (H, backward nx)
             end;
  lvl ← shrink H (sl_head sl) (sl_level sl);
  Some (mkSkipList H (sl_head sl) tl (sl_length sl - 1) lvl).

Definition Delete (sl : SkipList) (score : float64) (key : string) : option (SkipList * bool) :=
  '(x, update) ← descend (fuel_of sl) (sl_heap sl) (go_lt score key) (sl_level sl) (sl_head sl) 0 [];
  l0 ← getL (sl_heap sl) x 0;
  match forward l0 with
  | None => Some (sl, false)
  | Some x =>
      n ← sl_heap sl !! x;
      if feqb (Score n) score && bool_decide (Key n = key) then
        sl' ← deleteNode sl x update; Some (sl', true)
      else Some (sl, false)
  end.

Fixpoint search_loop (fuel : nat) (H : list Node) (key : string) (x : option nat)
    : option (option nat) :=
  match fuel, x with
  | _, None => Some None
  | O, _ => None
  | S f, Some a =>
      n ← H !! a;
      if decide (Key n = key) then Some (Some a)
      else lv ← getL H a 0; search_loop f H key (forward lv)
  end.

(** The result is the node found, if any. *)
Definition Search (sl : SkipList) (key : string) : option (option nat) :=
  l0 ← getL (sl_heap sl) (sl_head sl) 0;
  search_loop (fuel_of sl) (sl_heap sl) key (forward l0).

Fixpoint getRank_loop (fuel : nat) (H : list Node) (score : float64) (key : string)
    (i x : nat) (rank : Z) : option Z :=
  match i with
  | O => Some 0
  | S i' =>
      '(x', r') ← walk fuel H (go_le score key) i' x rank;
      n ← H !! x';
      if bool_decide (Key n = key) && feqb (Score n) score then Some r'
      else getRank_loop fuel H score key i' x' r'
  end.

Definition GetRank (sl : SkipList) (score : float64) (key : string) : option Z :=
  getRank_loop (fuel_of sl) (sl_heap sl) score key (sl_level sl) (sl_head sl) 0.

Fixpoint getByRank_loop (fuel : nat) (H : list Node) (rank : Z) (i x : nat) (traversed : Z)
    : option (option nat) :=
  match i with
  | O => Some None
  | S i' =>
      '(x', r') ← walk fuel H (go_rank rank) i' x traversed;
      if r' =? rank then Some (Some x')
      else getByRank_loop fuel H rank i' x' r'
  end.

Definition GetByRank (sl : SkipList) (rank : Z) : option (option nat) :=
  if (rank <=? 0) || (sl_length sl <? rank) then Some None
  else getByRank_loop (fuel_of sl) (sl_heap sl) rank (sl_level sl) (sl_head sl) 0.

Definition inRange (sl : SkipList) (sr : ScoreRange) : option bool :=
  if fltb (Max sr) (Min sr) || (feqb (Min sr) (Max sr) && (MinExclusive sr || MaxExclusive sr))
  then Some false
  else
    match sl_tail sl with
    | None => Some false
    | Some t =>
        nt ← sl_heap sl !! t;
        if negb (gteMin sr (Score nt)) then Some false
        else
          l0 ← getL (sl_heap sl) (sl_head sl) 0;
          match forward l0 with
          | None => Some false
          | Some f => nf ← sl_heap sl !! f; Some (lteMax sr (Score nf))
          end
    end.

(** Follow level 0 from [x] while [keep], which sees the number of nodes
    collected so far. *)
Fixpoint collect (fuel : nat) (H : list Node) (keep : float64 -> Z -> bool) (x : option nat) (c : Z)
    : option (list nat) :=
  match fuel, x with
  | _, None => Some []
  | O, _ => None
  | S f, Some a =>
      n ← H !! a;
      if keep (Score n) c then
        lv ← getL H a 0;
        r ← collect f H keep (forward lv) (c + 1);
        Some (a :: r)
      else Some []
  end.

Definition RangeByScore (sl : SkipList) (sr : ScoreRange) : option (list nat) :=
  ok ← inRange sl sr;
  if negb ok then Some []
  else
    '(x, _) ← descend (fuel_of sl) (sl_heap sl) (go_min sr) (sl_level sl) (sl_head sl) 0 [];
    l0 ← getL (sl_heap sl) x 0;
    collect (fuel_of sl) (sl_heap sl) (fun s _ => lteMax sr s) (forward l0) 0.

Definition Range (sl : SkipList) (start stop : Z) : option (list nat) :=
  let start := if start <? 0 then sl_length sl + start else start in
  let stop := if stop <? 0 then sl_length sl + stop else stop in
  let start := if start <? 0 then 0 else start in
  let stop := if sl_length sl <=? stop then sl_length sl - 1 else stop in
  if stop <? start then Some []
  else
    node ← GetByRank sl (start + 1);
    match node with
    | None => Some []
    | Some _ =>
        let count := stop - start + 1 in
        collect (fuel_of sl) (sl_heap sl) (fun _ c => c <? count) node 0
    end.

(** The result is the node that holds the key afterwards, if it was found. *)
Definition UpdateScore (sl : SkipList) (flip : nat -> bool) (curScore : float64) (key : string)
    (newScore : float64) : option (SkipList * option nat) :=
  '(x, update) ← descend (fuel_of sl) (sl_heap sl) (go_lt curScore key) (sl_level sl) (sl_head sl) 0 [];
  l0 ← getL (sl_heap sl) x 0;
  match forward l0 with
  | None => Some (sl, None)
  | Some x =>
      n ← sl_heap sl !! x;
      if negb (feqb (Score n) curScore) || negb (bool_decide (Key n = key)) then Some (sl, None)
      else
        okb ← match backward n with
              | None => Some true
              | Some b => nb ← sl_heap sl !! b; Some (fltb (Score nb) newScore)
              end;
        lx ← getL (sl_heap sl) x 0;
        okf ← match forward lx with
              | None => Some true
              | Some f => nf ← sl_heap sl !! f; Some (fltb newScore (Score nf))
              end;
        if okb && okf then
          H ← setScore (sl_heap sl) x newScore;
          Some (mkSkipList H (sl_head sl) (sl_tail sl) (sl_length sl) (sl_level sl), Some x)
        else
          sl' ← deleteNode sl x update;
          '(sl'', node) ← Insert sl' flip newScore key;
          Some (sl'', Some node)
  end.

(** ** Lemmas on the store *)

(** The fields of a node other than its links. *)
Definition fields (H : list Node) (a : nat) : option (string * float64 * option nat * nat) :=
  (fun n => (Key n, Score n, backward n, length (levels n))) <$> H !! a.

Lemma fields_Some H a k s b h :
  fields H a = Some (k, s, b, h) <->
  exists n, H !! a = Some n /\ Key n = k /\ Score n = s /\ backward n = b /\ length (levels n) = h.
Proof.
  unfold fields. rewrite fmap_Some. split.
  - intros (n & Hn & E). injection E as -> -> -> ->. eauto 10.
  - intros (n & Hn & <- & <- & <- & <-). eauto.
Qed.

Lemma fields_getL H a k s b h i :
  fields H a = Some (k, s, b, h) -> (i < h)%nat -> exists lv, getL H a i = Some lv.
Proof.
  intros (n & Hn & _ & _ & _ & <-)%fields_Some Hi. unfold getL. rewrite Hn. cbn.
  by apply lookup_lt_is_Some.
Qed.

Lemma getL_fields H a i lv : getL H a i = Some lv -> exists f, fields H a = Some f.
Proof.
  unfold getL, fields. destruct (H !! a) as [n|]; [|done]. intros _. by eexists.
Qed.

Lemma setL_spec H a i lv0 lv :
  getL H a i = Some lv0 ->
  exists H', setL H a i lv = Some H' /\ length H' = length H /\
    (forall b, fields H' b = fields H b) /\
    (forall b j, getL H' b j = if decide (b = a /\ j = i) then Some lv else getL H b j).
Proof.
  unfold getL, setL. intros Hg.
  destruct (H !! a) as [n|] eqn:Hn; [|done]. cbn in Hg |- *. rewrite Hg. cbn.
  eexists. split; [reflexivity|]. split; [apply length_insert|].
  assert (Ha : (a < length H)%nat) by (by eapply lookup_lt_Some).
  assert (Hi : (i < length (levels n))%nat) by (by eapply lookup_lt_Some).
  split.
  - intros b. unfold fields. destruct (decide (b = a)) as [->|Hb].
    + rewrite list_lookup_insert_eq by done. rewrite Hn. cbn. by rewrite length_insert.
    + by rewrite list_lookup_insert_ne by congruence.
  - intros b j. destruct (decide (b = a)) as [->|Hb].
    + rewrite list_lookup_insert_eq by done. rewrite Hn. cbn.
      destruct (decide (j = i)) as [->|Hj].
      * rewrite list_lookup_insert_eq by done. rewrite decide_True by tauto. done.
      * rewrite list_lookup_insert_ne by congruence. rewrite decide_False by tauto. done.
    + rewrite list_lookup_insert_ne by congruence. rewrite decide_False by tauto. done.
Qed.

(** A write to the fields of one node that keeps its links. *)
Lemma field_write_spec H a n n' :
  H !! a = Some n -> levels n' = levels n ->
  length (<[a := n']> H) = length H /\
  (forall b, fields (<[a := n']> H) b =
     if decide (b = a) then Some (Key n', Score n', backward n', length (levels n')) else fields H b) /\
  (forall b j, getL (<[a := n']> H) b j = getL H b j).
Proof.
  intros Hn Hl. assert (Ha : (a < length H)%nat) by (by eapply lookup_lt_Some).
  split; [apply length_insert|]. split.
  - intros b. unfold fields. destruct (decide (b = a)) as [->|Hb].
    + by rewrite list_lookup_insert_eq by done.
    + by rewrite list_lookup_insert_ne by congruence.
  - intros b j. unfold getL. destruct (decide (b = a)) as [->|Hb].
    + rewrite list_lookup_insert_eq by done. rewrite Hn. cbn. by rewrite Hl.
    + by rewrite list_lookup_insert_ne by congruence.
Qed.

Lemma setBackward_spec H a k s b0 h b :
  fields H a = Some (k, s, b0, h) ->
  exists H', setBackward H a b = Some H' /\ length H' = length H /\
    (forall c, fields H' c = if decide (c = a) then Some (k, s, b, h) else fields H c) /\
    (forall c j, getL H' c j = getL H c j).
Proof.
  intros (n & Hn & <- & <- & <- & <-)%fields_Some. unfold setBackward. rewrite Hn. cbn.
  eexists. split; [reflexivity|]. by apply (field_write_spec H a n (mkNode _ _ _ _) Hn).
Qed.

Lemma setScore_spec H a k s0 b h s :
  fields H a = Some (k, s0, b, h) ->
  exists H', setScore H a s = Some H' /\ length H' = length H /\
    (forall c, fields H' c = if decide (c = a) then Some (k, s, b, h) else fields H c) /\
    (forall c j, getL H' c j = getL H c j).
Proof.
  intros (n & Hn & <- & <- & <- & <-)%fields_Some. unfold setScore. rewrite Hn. cbn.
  eexists. split; [reflexivity|]. by apply (field_write_spec H a n (mkNode _ _ _ _) Hn).
Qed.

Lemma alloc_getL H n b j :
  getL (H ++ [n]) b j = if decide (b = length H) then levels n !! j else getL H b j.
Proof.
  unfold getL. destruct (decide (b = length H)) as [->|Hb].
  - by rewrite list_lookup_middle.
  - destruct (decide (b < length H)%nat) as [Hlt|Hge].
    + by rewrite lookup_app_l by done.
    + rewrite (lookup_ge_None_2 (H ++ [n])) by (rewrite length_app; cbn; lia).
      by rewrite (lookup_ge_None_2 H) by lia.
Qed.

Lemma alloc_fields H n b :
  fields (H ++ [n]) b =
    if decide (b = length H) then Some (Key n, Score n, backward n, length (levels n)) else fields H b.
Proof.
  unfold fields. destruct (decide (b = length H)) as [->|Hb].
  - by rewrite list_lookup_middle.
  - destruct (decide (b < length H)%nat) as [Hlt|Hge].
    + by rewrite lookup_app_l by done.
    + rewrite (lookup_ge_None_2 (H ++ [n])) by (rewrite length_app; cbn; lia).
      by rewrite (lookup_ge_None_2 H) by lia.
Qed.

(** A loop over the levels whose body for level [i] only writes links of
    level [i]: the result is given level by level. *)
Lemma level_loop (step : list Node -> nat -> option (list Node)) (G : nat -> nat -> option Level)
    (H0 : list Node) (s n : nat) :
  (forall H i, (s <= i < s + n)%nat -> length H = length H0 ->
     (forall b, fields H b = fields H0 b) -> (forall b, getL H b i = getL H0 b i) ->
     exists H', step H i = Some H' /\ length H' = length H /\ (forall b, fields H' b = fields H b) /\
       forall b j, getL H' b j = if decide (j = i) then G b i else getL H b j) ->
  exists H', foldM step (seq s n) H0 = Some H' /\ length H' = length H0 /\
    (forall b, fields H' b = fields H0 b) /\
    forall b j, getL H' b j = if decide (s <= j < s + n)%nat then G b j else getL H0 b j.
Proof.
  intros Hstep.
  assert (Hgen : forall m t H, (s <= t)%nat -> (t + m = s + n)%nat -> length H = length H0 ->
    (forall b, fields H b = fields H0 b) ->
    (forall b j, (t <= j)%nat -> getL H b j = getL H0 b j) ->
    exists H', foldM step (seq t m) H = Some H' /\ length H' = length H /\
      (forall b, fields H' b = fields H b) /\
      forall b j, getL H' b j = if decide (t <= j < t + m)%nat then G b j else getL H b j).
  { induction m as [|m IH]; intros t H Ht Htm Hlen Hf Hg; cbn [seq foldM].
    - exists H. repeat split; try done. intros b j. rewrite decide_False by lia. done.
    - destruct (Hstep H t) as (H1 & E1 & L1 & F1 & G1); [lia|done|done|intros; apply Hg; lia|].
      rewrite E1. cbn [mbind option_bind].
      destruct (IH (S t) H1) as (H2 & E2 & L2 & F2 & G2); [lia|lia|congruence| | |].
      + intros b. by rewrite F1.
      + intros b j Hj. rewrite G1, decide_False by lia. apply Hg. lia.
      + exists H2. split; [done|]. split; [congruence|]. split; [intros b; by rewrite F2|].
        intros b j. rewrite G2, G1.
        destruct (decide (j = t)) as [->|Hj].
        * rewrite decide_False by lia. by rewrite decide_True by lia.
        * destruct (decide (S t <= j < S t + m)%nat); [by rewrite decide_True by lia|].
          by rewrite decide_False by lia. }
  apply (Hgen n s H0); auto.
Qed.

(** ** The list a skip list represents *)

(** An element of the list: the address and the height of its node. *)
Record item := mkItem {
  it_addr : nat;
  it_h : nat;
  it_key : string;
  it_score : float64 }.

(** The forward pointer and the span at level [i] of a node followed by [l]. *)
Fixpoint link (i : nat) (l : list item) : Level :=
  match l with
  | [] => mkLevel None 0
  | it :: r =>
      if (i <? it_h it)%nat then mkLevel (Some (it_addr it)) 1
      else mkLevel (forward (link i r)) (span (link i r) + 1)
  end.

Definition short (i : nat) (l : list item) : Prop := Forall (fun it => it_h it <= i)%nat l.

Definition lastaddr (hd : nat) (pre : list item) : nat :=
  match last pre with None => hd | Some it => it_addr it end.

Definition hgt (lvl : nat) (pre : list item) : nat :=
  match last pre with None => lvl | Some it => it_h it end.

Record rep (sl : SkipList) (items : list item) : Prop := {
  rep_head : fields (sl_heap sl) (sl_head sl) = Some (EmptyString, fzero, None, maxLevel);
  rep_top : forall i lv, (sl_level sl <= i)%nat -> getL (sl_heap sl) (sl_head sl) i = Some lv ->
      forward lv = None;
  rep_node : forall pre it post, items = pre ++ it :: post ->
      fields (sl_heap sl) (it_addr it) =
        Some (it_key it, it_score it, it_addr <$> last pre, it_h it);
  rep_link : forall pre post i, items = pre ++ post -> (i < hgt (sl_level sl) pre)%nat ->
      getL (sl_heap sl) (lastaddr (sl_head sl) pre) i = Some (link i post);
  rep_nodup : NoDup (sl_head sl :: map it_addr items);
  rep_h : Forall (fun it => 1 <= it_h it <= sl_level sl)%nat items;
  rep_level : (1 <= sl_level sl <= maxLevel)%nat;
  rep_tail : sl_tail sl = it_addr <$> last items;
  rep_len : sl_length sl = zlen items }.

(** The level is that of the tallest node. *)
Definition tight (sl : SkipList) (items : list item) : Prop :=
  sl_level sl = 1%nat \/ Exists (fun it => it_h it = sl_level sl) items.

(** *** Links *)

Lemma link_short i q post :
  short i q -> link i (q ++ post) = mkLevel (forward (link i post)) (zlen q + span (link i post)).
Proof.
  induction q as [|it q IH]; intros Hs; cbn [app link].
  - by destruct (link i post).
  - apply Forall_cons in Hs as [H1 Hs]. rewrite (proj2 (Nat.ltb_ge _ _)) by lia.
    rewrite IH by done. cbn. unfold zlen. cbn [length]. f_equal. lia.
Qed.

Lemma link_tall i q it post :
  short i q -> (i < it_h it)%nat -> link i (q ++ it :: post) = mkLevel (Some (it_addr it)) (zlen q + 1).
Proof.
  intros Hs Hi. rewrite link_short by done. cbn [link].
  by rewrite (proj2 (Nat.ltb_lt _ _)) by lia.
Qed.

Lemma short_dec i q :
  short i q \/ exists q1 it q2, q = q1 ++ it :: q2 /\ short i q1 /\ (i < it_h it)%nat.
Proof.
  induction q as [|x q IH]; [left; constructor|].
  destruct (decide (it_h x <= i)%nat) as [Hx|Hx].
  - destruct IH as [IH|(q1 & it & q2 & -> & Hs & Hi)]; [left; by constructor|].
    right. exists (x :: q1), it, q2. split; [done|]. split; [by constructor|done].
  - right. exists [], x, q. repeat split; [constructor|lia].
Qed.

Lemma link_None i l : forward (link i l) = None <-> short i l.
Proof.
  induction l as [|x l IH]; cbn [link]; [split; [constructor|done]|].
  destruct (Nat.ltb_spec i (it_h x)) as [Hx|Hx]; cbn; split.
  - done.
  - intros [H _]%Forall_cons. lia.
  - intros H. constructor; [done|by apply IH].
  - intros [_ H]%Forall_cons. by apply IH.
Qed.

Lemma link_Some i l a :
  forward (link i l) = Some a -> exists q it r, l = q ++ it :: r /\ short i q /\
    (i < it_h it)%nat /\ it_addr it = a.
Proof.
  destruct (short_dec i l) as [Hs|(q & it & r & -> & Hs & Hi)].
  - apply link_None in Hs. by rewrite Hs.
  - rewrite link_tall by done. intros [= <-]. eauto 10.
Qed.

(** *** Positions *)

Lemma lastaddr_nil hd : lastaddr hd [] = hd.
Proof. done. Qed.

Lemma lastaddr_snoc hd p it : lastaddr hd (p ++ [it]) = it_addr it.
Proof. unfold lastaddr. by rewrite last_snoc. Qed.

Lemma hgt_snoc lvl p it : hgt lvl (p ++ [it]) = it_h it.
Proof. unfold hgt. by rewrite last_snoc. Qed.

Lemma list_snoc {A} (l : list A) : l = [] \/ exists p x, l = p ++ [x].
Proof. destruct l as [|x l _] using rev_ind; [by left|right; by exists l, x]. Qed.

Lemma addr_inj p1 x q1 p2 y q2 hd items :
  NoDup (hd :: map it_addr items) -> items = p1 ++ x :: q1 -> items = p2 ++ y :: q2 ->
  it_addr x = it_addr y -> p1 = p2 /\ x = y.
Proof.
  intros [_ Hnd]%NoDup_cons E1 E2 Ha.
  assert (H1 : map it_addr items !! length p1 = Some (it_addr x)).
  { rewrite E1, map_app, lookup_app_r by (rewrite length_map; lia).
    by rewrite length_map, Nat.sub_diag. }
  assert (H2 : map it_addr items !! length p2 = Some (it_addr y)).
  { rewrite E2, map_app, lookup_app_r by (rewrite length_map; lia).
    by rewrite length_map, Nat.sub_diag. }
  rewrite <- Ha in H2. pose proof (NoDup_lookup _ _ _ _ Hnd H1 H2) as Hl.
  rewrite E2 in E1. symmetry in E1. apply app_inj_1 in E1 as [-> E1]; [|done].
  by injection E1 as ->.
Qed.

Lemma lastaddr_inj hd items p1 q1 p2 q2 :
  NoDup (hd :: map it_addr items) -> items = p1 ++ q1 -> items = p2 ++ q2 ->
  lastaddr hd p1 = lastaddr hd p2 -> p1 = p2.
Proof.
  intros Hnd E1 E2.
  assert (Hhd : forall p x q, items = p ++ x :: q -> it_addr x <> hd).
  { intros p x q ->. apply NoDup_cons in Hnd as [Hnd _]. intros <-. apply Hnd.
    rewrite map_app. apply list_elem_of_In. apply in_or_app. right. by left. }
  destruct (list_snoc p1) as [->|(p1' & x & ->)], (list_snoc p2) as [->|(p2' & y & ->)];
    rewrite ?lastaddr_nil, ?lastaddr_snoc; intros Ha; try done.
  - rewrite <- app_assoc in E2. by destruct (Hhd _ _ _ E2).
  - rewrite <- app_assoc in E1. by destruct (Hhd _ _ _ E1).
  - rewrite <- app_assoc in E1, E2.
    by destruct (addr_inj p1' x q1 p2' y q2 hd items Hnd E1 E2 Ha) as [-> ->].
Qed.

(** Where a split of a list falls that has [x] between [pre] and [post]. *)
Lemma mid_split {A} (pre post P Q : list A) x :
  pre ++ x :: post = P ++ Q ->
  (exists q, pre = P ++ q /\ Q = q ++ x :: post) \/
  (exists P', P = pre ++ x :: P' /\ post = P' ++ Q).
Proof.
  intros E. destruct (app_eq_inv _ _ _ _ E) as [(k & -> & ->)|(k & -> & Ek)]; [by left; exists k|].
  destruct k as [|y k]; cbn in Ek.
  - left. exists []. rewrite !app_nil_r. done.
  - injection Ek as -> ->. right. by exists k.
Qed.

Lemma mid_split_cons {A} (pre post P Q : list A) x y :
  pre ++ x :: post = P ++ y :: Q ->
  (exists q, pre = P ++ y :: q /\ Q = q ++ x :: post) \/
  (P = pre /\ y = x /\ Q = post) \/
  (exists P', P = pre ++ x :: P' /\ post = P' ++ y :: Q).
Proof.
  intros [(q & -> & Eq)|H]%mid_split; [|by right; right].
  destruct q as [|z q]; cbn in Eq; injection Eq as -> ->.
  - right; left. by rewrite app_nil_r.
  - left. by exists q.
Qed.

(** The last position of [pre] (the head included) that is taller than [i]. *)
Definition upd_at (hd lvl : nat) (pre : list item) (i : nat) (ur : nat * Z) : Prop :=
  exists p q, pre = p ++ q /\ (i < hgt lvl p)%nat /\ short i q /\ ur = (lastaddr hd p, zlen p).

Lemma upd_unique lvl i p1 q1 p2 q2 :
  p1 ++ q1 = p2 ++ q2 -> (i < hgt lvl p1)%nat -> (i < hgt lvl p2)%nat -> short i q1 -> short i q2 ->
  p1 = p2.
Proof.
  assert (Hw : forall p m q2 q1, (i < hgt lvl (p ++ m))%nat -> q1 = m ++ q2 -> short i q1 -> m = []).
  { intros p m q q' Hh -> Hs. destruct (list_snoc m) as [->|(m' & x & ->)]; [done|].
    rewrite app_assoc, hgt_snoc in Hh. rewrite <- app_assoc in Hs.
    apply Forall_app in Hs as [_ Hs]. cbn in Hs. apply Forall_cons in Hs as [Hs _]. lia. }
  intros E H1 H2 S1 S2. destruct (app_eq_inv _ _ _ _ E) as [(k & -> & E')|(k & -> & E')].
  - rewrite (Hw p2 k q1 q2 H1 E' S2). apply app_nil_r.
  - rewrite (Hw p1 k q2 q1 H2 E' S1). symmetry. apply app_nil_r.
Qed.

(** *** Searching *)

(** [go] holds of the elements of [pre] and of no element of [post], at the
    ranks they have in [pre ++ post]. *)
Definition cut (go : string -> float64 -> Z -> bool) (pre post : list item) : Prop :=
  (forall p it q, pre = p ++ it :: q -> go (it_key it) (it_score it) (zlen p + 1) = true) /\
  (forall p it q, post = p ++ it :: q ->
     go (it_key it) (it_score it) (zlen pre + zlen p + 1) = false).

Section search.
Context (sl : SkipList) (items : list item) (Hrep : rep sl items).

Lemma rep_lookup pre it post :
  items = pre ++ it :: post ->
  exists n, sl_heap sl !! it_addr it = Some n /\ Key n = it_key it /\ Score n = it_score it /\
    backward n = it_addr <$> last pre /\ length (levels n) = it_h it.
Proof. intros E. apply fields_Some. by apply (rep_node _ _ Hrep pre it post). Qed.

Lemma rep_h_at pre it post :
  items = pre ++ it :: post -> (1 <= it_h it <= sl_level sl)%nat.
Proof.
  intros ->. pose proof (rep_h _ _ Hrep) as Hh. apply Forall_app in Hh as [_ Hh].
  by apply Forall_cons in Hh as [Hh _].
Qed.

Lemma rep_hgt_le pre post : items = pre ++ post -> (1 <= hgt (sl_level sl) pre <= sl_level sl)%nat.
Proof.
  intros E. destruct (list_snoc pre) as [->|(p & x & ->)].
  - pose proof (rep_level _ _ Hrep). cbn. lia.
  - rewrite hgt_snoc. rewrite <- app_assoc in E. by apply (rep_h_at p x post).
Qed.

Lemma walk_spec go pre post i :
  items = pre ++ post -> cut go pre post ->
  forall fuel q p, pre = p ++ q -> (i < hgt (sl_level sl) p)%nat -> (length q < fuel)%nat ->
  exists p' q', pre = p' ++ q' /\ (i < hgt (sl_level sl) p')%nat /\ short i q' /\
    walk fuel (sl_heap sl) go i (lastaddr (sl_head sl) p) (zlen p) =
      Some (lastaddr (sl_head sl) p', zlen p').
Proof.
  intros E [Hpre Hpost] fuel. induction fuel as [|f IH]; intros q p Ep Hi Hf; [lia|].
  cbn [walk].
  rewrite (rep_link _ _ Hrep p (q ++ post) i) by (rewrite ?app_assoc, <- ?Ep; done).
  cbn [mbind option_bind].
  destruct (short_dec i q) as [Hs|(q1 & it & q2 & -> & Hs & Hit)].
  - exists p, q. split; [done|]. split; [done|]. split; [done|].
    rewrite link_short by done. cbn [forward span].
    destruct (forward (link i post)) as [a|] eqn:Ef; [|done].
    apply link_Some in Ef as (r & it & r' & -> & Hr & Hit & <-).
    rewrite link_tall by done. cbn [span].
    destruct (rep_lookup (pre ++ r) it r') as (n & -> & Hk & Hsc & _); [by rewrite E, <- app_assoc|].
    cbn [mbind option_bind]. rewrite Hk, Hsc.
    replace (zlen p + (zlen q + (zlen r + 1))) with (zlen pre + zlen r + 1)
      by (rewrite Ep, zlen_app; lia).
    by rewrite (Hpost r it r').
  - rewrite <- app_assoc. cbn [app]. rewrite link_tall by done. cbn [forward span].
    destruct (rep_lookup (p ++ q1) it (q2 ++ post)) as (n & -> & Hk & Hsc & _).
    { by rewrite E, Ep, <- !app_assoc. }
    cbn [mbind option_bind]. rewrite Hk, Hsc.
    replace (zlen p + (zlen q1 + 1)) with (zlen (p ++ q1) + 1) by (rewrite zlen_app; lia).
    rewrite (Hpre (p ++ q1) it q2) by (by rewrite Ep, <- app_assoc).
    rewrite length_app in Hf. cbn [length] in Hf.
    destruct (IH q2 ((p ++ q1) ++ [it])) as (p' & q' & Ep' & Hh' & Hs' & Hw).
    + by rewrite Ep, <- !app_assoc.
    + by rewrite hgt_snoc.
    + lia.
    + exists p', q'. rewrite lastaddr_snoc in Hw. rewrite zlen_app in Hw. done.
Qed.

Lemma short_0 pre q post : items = pre ++ q ++ post -> short 0 q -> q = [].
Proof.
  intros E Hs. destruct q as [|x q]; [done|].
  apply Forall_cons in Hs as [Hx _]. pose proof (rep_h_at pre x (q ++ post) E). lia.
Qed.

Lemma items_fuel : (length items < length (sl_heap sl))%nat.
Proof.
  pose proof (rep_nodup _ _ Hrep) as Hnd.
  assert (Hincl : sl_head sl :: map it_addr items ⊆+ seq 0 (length (sl_heap sl))).
  { apply NoDup_submseteq; [done|]. intros a Ha. apply elem_of_seq. split; [lia|].
    apply elem_of_cons in Ha as [->|Ha].
    - pose proof (rep_head _ _ Hrep) as (n & Hn & _)%fields_Some. by apply lookup_lt_Some in Hn.
    - apply list_elem_of_In, in_map_iff in Ha as (it & <- & Hit).
      apply in_split in Hit as (p & q & E). destruct (rep_lookup p it q E) as (n & Hn & _).
      by apply lookup_lt_Some in Hn. }
  apply submseteq_length in Hincl. rewrite length_seq in Hincl. cbn in Hincl.
  rewrite length_map in Hincl. lia.
Qed.

Lemma descend_spec go pre post :
  items = pre ++ post -> cut go pre post ->
  forall i p q acc, pre = p ++ q -> (i <= hgt (sl_level sl) p)%nat ->
  exists us,
    descend (fuel_of sl) (sl_heap sl) go i (lastaddr (sl_head sl) p) (zlen p) acc =
      Some (lastaddr (sl_head sl) (if (i =? 0)%nat then p else pre), us ++ acc) /\
    length us = i /\
    forall j ur, us !! j = Some ur -> upd_at (sl_head sl) (sl_level sl) pre j ur.
Proof.
  intros E Hcut i. induction i as [|i IH]; intros p q acc Ep Hi; cbn [descend].
  - by exists [].
  - destruct (walk_spec go pre post i E Hcut (fuel_of sl) q p Ep) as (p1 & q1 & E1 & H1 & S1 & ->).
    { lia. }
    { pose proof items_fuel as Hf. apply (f_equal length) in E, Ep.
      rewrite length_app in E, Ep. unfold fuel_of. lia. }
    cbn [mbind option_bind].
    destruct (IH p1 q1 ((lastaddr (sl_head sl) p1, zlen p1) :: acc) E1)
      as (us & -> & Hl & Hus); [lia|].
    exists (us ++ [(lastaddr (sl_head sl) p1, zlen p1)]).
    rewrite <- app_assoc. split; [|split].
    + destruct i as [|i]; [|done]. cbn [Nat.eqb].
      rewrite (short_0 p1 q1 post), app_nil_r in E1; [by rewrite E1| |done].
      by rewrite E, E1, <- app_assoc.
    + rewrite length_app. cbn. lia.
    + intros j ur Hj. apply lookup_app_Some in Hj as [Hj|[Hj Hj']]; [by apply Hus|].
      rewrite Hl in *. apply list_lookup_singleton_Some in Hj' as [Hj0 <-].
      replace j with i by lia. by exists p1, q1.
Qed.

(** The whole descent: it ends at the last element of [pre]. *)
Lemma descend_from_head go pre post :
  items = pre ++ post -> cut go pre post ->
  exists us,
    descend (fuel_of sl) (sl_heap sl) go (sl_level sl) (sl_head sl) 0 [] =
      Some (lastaddr (sl_head sl) pre, us) /\
    length us = sl_level sl /\
    forall j ur, us !! j = Some ur -> upd_at (sl_head sl) (sl_level sl) pre j ur.
Proof.
  intros E Hcut.
  destruct (descend_spec go pre post E Hcut (sl_level sl) [] pre []) as (us & Hd & Hl & Hus);
    [done|done|].
  exists us. rewrite app_nil_r in Hd. pose proof (rep_level _ _ Hrep).
  replace (sl_level sl =? 0)%nat with false in Hd by (symmetry; apply Nat.eqb_neq; lia).
  done.
Qed.
End search.

(** *** Insert *)

Lemma randomLevel_range flip : (1 <= randomLevel flip <= maxLevel)%nat.
Proof.
  assert (H : forall f l, (1 <= l <= maxLevel)%nat ->
    (1 <= randomLevel_loop f flip l <= maxLevel)%nat).
  { induction f as [|f IH]; intros l Hl; cbn [randomLevel_loop]; [done|].
    destruct (flip (l - 1)%nat); cbn [andb]; [|done].
    destruct (Nat.ltb_spec l maxLevel); [apply IH; lia|done]. }
  apply H. unfold maxLevel. lia.
Qed.

Lemma modL_step H u i lu lv :
  getL H u i = Some lu ->
  exists H', setL H u i lv = Some H' /\ length H' = length H /\ (forall b, fields H' b = fields H b) /\
    forall b j, getL H' b j =
      if decide (j = i) then (if decide (b = u) then Some lv else getL H b i) else getL H b j.
Proof.
  intros Hu. destruct (setL_spec H u i lu lv Hu) as (H' & E & L & F & G).
  exists H'. split; [done|]. split; [done|]. split; [done|]. intros b j. rewrite G.
  destruct (decide (j = i)) as [->|Hj], (decide (b = u)) as [->|Hb].
  - by rewrite decide_True by done.
  - by rewrite decide_False by tauto.
  - by rewrite decide_False by tauto.
  - by rewrite decide_False by tauto.
Qed.

(** The levels added to the head make it the head of a taller skip list. *)
Lemma expand_rep sl items n :
  rep sl items -> (sl_level sl + n <= maxLevel)%nat ->
  exists H, foldM (fun H i =>
        lu ← getL H (sl_head sl) i;
        setL H (sl_head sl) i (mkLevel (forward lu) (sl_length sl)))
      (seq (sl_level sl) n) (sl_heap sl) = Some H /\
    length H = length (sl_heap sl) /\
    rep (mkSkipList H (sl_head sl) (sl_tail sl) (sl_length sl) (sl_level sl + n)) items.
Proof.
  intros Hrep Hn. pose proof (rep_level _ _ Hrep) as Hlev.
  set (hd := sl_head sl).
  assert (Hhd : forall i, (i < maxLevel)%nat -> exists lv, getL (sl_heap sl) hd i = Some lv).
  { intros i Hi. by apply (fields_getL _ _ _ _ _ _ i (rep_head _ _ Hrep)). }
  destruct (level_loop (fun H i =>
        lu ← getL H hd i; setL H hd i (mkLevel (forward lu) (sl_length sl)))
      (fun b j => if decide (b = hd) then Some (mkLevel None (sl_length sl))
                  else getL (sl_heap sl) b j) (sl_heap sl) (sl_level sl) n)
    as (H & E & L & F & G).
  { intros H i Hi HL HF HG. destruct (Hhd i) as [lv Hlv]; [lia|].
    rewrite (HG hd), Hlv. cbn [mbind option_bind].
    rewrite (rep_top _ _ Hrep i lv) by (done || lia).
    destruct (modL_step H hd i lv (mkLevel None (sl_length sl))) as (H' & E' & L' & F' & G').
    { by rewrite HG. }
    exists H'. split; [done|]. split; [done|]. split; [done|]. intros b j. rewrite G'.
    destruct (decide (j = i)) as [->|]; [|done]. by rewrite HG. }
  exists H. split; [done|]. split; [done|].
  split; cbn [sl_heap sl_head sl_tail sl_length sl_level].
  - rewrite F. apply (rep_head _ _ Hrep).
  - intros i lv Hi. rewrite G, decide_False by lia. apply (rep_top _ _ Hrep). lia.
  - intros pre it post Ei. rewrite F. by apply (rep_node _ _ Hrep pre it post).
  - intros pre post i Ei Hi. rewrite G.
    destruct (list_snoc pre) as [->|(p & x & ->)].
    + rewrite lastaddr_nil in *. cbn in Ei, Hi. subst post.
      destruct (decide (i < sl_level sl)%nat) as [Hlt|Hge].
      * rewrite decide_False by lia. by apply (rep_link _ _ Hrep [] items i).
      * rewrite !decide_True by (done || lia). f_equal.
        pose proof (link_short i items []) as Hl. rewrite app_nil_r in Hl. rewrite Hl.
        { cbn. rewrite (rep_len _ _ Hrep). f_equal. lia. }
        eapply Forall_impl; [apply (rep_h _ _ Hrep)|]. cbn. lia.
    + rewrite hgt_snoc in Hi. rewrite <- app_assoc in Ei.
      pose proof (rep_h_at sl items Hrep p x post Ei) as Hx.
      rewrite decide_False by lia. rewrite app_assoc in Ei.
      apply (rep_link _ _ Hrep (p ++ [x]) post i Ei). by rewrite hgt_snoc.
  - apply (rep_nodup _ _ Hrep).
  - eapply Forall_impl; [apply (rep_h _ _ Hrep)|]. cbn. lia.
  - lia.
  - apply (rep_tail _ _ Hrep).
  - apply (rep_len _ _ Hrep).
Qed.

Section wire.
Context (sl : SkipList) (items pre post : list item) (ur : list (nat * Z)).
Context (nl : nat) (key : string) (score : float64).
Context (Hrep : rep sl items) (Hitems : items = pre ++ post).
Context (Hur : forall j, (j < sl_level sl)%nat ->
           exists x, ur !! j = Some x /\ upd_at (sl_head sl) (sl_level sl) pre j x).
Context (Hnl : (1 <= nl <= sl_level sl)%nat).

Local Definition node : nat := length (sl_heap sl).
Local Definition new : item := mkItem node nl key score.
Local Definition H2 : list Node :=
  sl_heap sl ++ [mkNode key score None (replicate nl (mkLevel None 0))].

Lemma lastaddr_lt p q : items = p ++ q -> (lastaddr (sl_head sl) p < node)%nat.
Proof.
  intros E. unfold node. destruct (list_snoc p) as [->|(p' & x & ->)].
  - pose proof (rep_head _ _ Hrep) as (n & Hn & _)%fields_Some. by apply lookup_lt_Some in Hn.
  - rewrite lastaddr_snoc. rewrite <- app_assoc in E.
    destruct (rep_lookup sl items Hrep p' x q E) as (n & Hn & _). by apply lookup_lt_Some in Hn.
Qed.

Lemma H2_link p q j :
  pre = p ++ q -> (j < hgt (sl_level sl) p)%nat ->
  getL H2 (lastaddr (sl_head sl) p) j = Some (link j (q ++ post)).
Proof.
  intros E Hj. assert (E' : items = p ++ q ++ post) by (by rewrite Hitems, E, <- app_assoc).
  unfold H2. rewrite alloc_getL, decide_False.
  - by apply (rep_link _ _ Hrep).
  - pose proof (lastaddr_lt p _ E'). unfold node in *. lia.
Qed.

(** What the loop that wires the new node does, level by level. *)
Lemma wire_loop r0 :
  r0 = zlen pre ->
  exists H, foldM (fun H i =>
      '(u, r) ← ur !! i;
      lu ← getL H u i;
      H ← setL H node i (mkLevel (forward lu) (span lu - (r0 - r)));
      setL H u i (mkLevel (Some node) (r0 - r + 1)))
    (seq 0 nl) H2 = Some H /\ length H = length H2 /\ (forall b, fields H b = fields H2 b) /\
    forall b j, getL H b j =
      if decide (0 <= j < 0 + nl)%nat then
        (if decide (Some b = fst <$> ur !! j) then
           Some (mkLevel (Some node) (r0 - default 0 (snd <$> ur !! j) + 1))
         else if decide (b = node) then Some (link j post)
         else getL H2 b j)
      else getL H2 b j.
Proof.
  intros ->. apply level_loop. intros H i Hi HL HF HG.
  destruct (Hur i) as ([u r] & Eu & p & q & E & Hh & Hs & [= -> ->]); [lia|].
  rewrite Eu. cbn [mbind option_bind fmap option_fmap option_map fst snd default].
  rewrite HG, (H2_link p q i E Hh). cbn [mbind option_bind].
  assert (Hnode : getL H node i = Some (mkLevel None 0)).
  { rewrite HG. unfold H2. rewrite alloc_getL, decide_True by done.
    cbn. apply lookup_replicate. split; [done|lia]. }
  assert (Hne : lastaddr (sl_head sl) p <> node).
  { pose proof (lastaddr_lt p (q ++ post)) as Hlt. rewrite app_assoc, <- E in Hlt.
    specialize (Hlt Hitems). lia. }
  rewrite link_short by done. cbn [forward span].
  replace (zlen q + span (link i post) - (zlen pre - zlen p)) with (span (link i post))
    by (rewrite E, zlen_app; lia).
  destruct (modL_step H node i _ (mkLevel (forward (link i post)) (span (link i post))) Hnode)
    as (Ha & -> & La & Fa & Ga). cbn [mbind option_bind].
  destruct (modL_step Ha (lastaddr (sl_head sl) p) i (link i (q ++ post))
     (mkLevel (Some node) (zlen pre - zlen p + 1))) as (Hb & -> & Lb & Fb & Gb).
  { rewrite Ga, decide_True, decide_False by done. by rewrite HG, (H2_link p q i E Hh). }
  exists Hb. split; [done|]. split; [congruence|]. split; [intros b; by rewrite Fb|].
  intros b j. rewrite Gb, !Ga. destruct (decide (j = i)) as [->|Hj]; [|done].
  destruct (decide (b = lastaddr (sl_head sl) p)) as [->|Hb'].
  - by rewrite decide_True by done.
  - rewrite (decide_True (P := i = i)) by done.
    rewrite (decide_False (P := Some b = _)) by congruence.
    destruct (decide (b = node)); [by destruct (link i post)|apply HG].
Qed.

(** And the loop over the levels above the new node. *)
Lemma above_loop H :
  (forall b j, (nl <= j)%nat -> getL H b j = getL H2 b j) ->
  exists H', foldM (fun H i =>
      '(u, _) ← ur !! i;
      lu ← getL H u i;
      setL H u i (mkLevel (forward lu) (span lu + 1)))
    (seq nl (sl_level sl - nl)) H = Some H' /\ length H' = length H /\
    (forall b, fields H' b = fields H b) /\
    forall b j, getL H' b j =
      if decide (nl <= j < nl + (sl_level sl - nl))%nat then
        (if decide (Some b = fst <$> ur !! j) then
           (fun lu => mkLevel (forward lu) (span lu + 1)) <$> getL H2 b j
         else getL H2 b j)
      else getL H b j.
Proof.
  intros HH. apply level_loop. intros Hi i Hr HL HF HG.
  destruct (Hur i) as ([u r] & Eu & p & q & E & Hh & Hs & [= -> ->]); [lia|].
  rewrite Eu. cbn [mbind option_bind fmap option_fmap option_map fst].
  assert (Hl : getL Hi (lastaddr (sl_head sl) p) i = Some (link i (q ++ post))).
  { rewrite HG, HH by lia. by apply H2_link. }
  rewrite Hl. cbn [mbind option_bind].
  destruct (modL_step Hi _ i _ (mkLevel (forward (link i (q ++ post))) (span (link i (q ++ post)) + 1)) Hl)
    as (Hb & -> & Lb & Fb & Gb).
  exists Hb. split; [done|]. split; [done|]. split; [done|].
  intros b j. rewrite Gb. destruct (decide (j = i)) as [->|Hj]; [|done].
  destruct (decide (b = lastaddr (sl_head sl) p)) as [->|Hb'].
  - rewrite decide_True by done. by rewrite (H2_link p q i E Hh).
  - rewrite decide_False by congruence. by rewrite HG, HH by lia.
Qed.

(** The links after both loops, at the levels in use. *)
Definition wired (H : list Node) : Prop :=
  forall b j, (j < sl_level sl)%nat -> getL H b j =
     if decide (Some b = fst <$> ur !! j) then
       (if decide (j < nl)%nat
        then Some (mkLevel (Some node) (zlen pre - default 0 (snd <$> ur !! j) + 1))
        else (fun lu => mkLevel (forward lu) (span lu + 1)) <$> getL H2 b j)
     else if decide (j < nl /\ b = node)%nat then Some (link j post) else getL H2 b j.

Lemma wired_before H P q j :
  wired H -> pre = P ++ q -> (j < hgt (sl_level sl) P)%nat ->
  getL H (lastaddr (sl_head sl) P) j = Some (link j (q ++ new :: post)).
Proof.
  intros HG Ep Hj.
  assert (EP : items = P ++ q ++ post) by (by rewrite app_assoc, <- Ep).
  pose proof (rep_hgt_le sl items Hrep P _ EP) as HleP.
  destruct (Hur j) as ([u r] & Eu & p1 & q1 & E1 & H1 & S1 & [= -> ->]); [lia|].
  rewrite HG, Eu by lia. cbn [fmap option_fmap option_map fst snd default].
  pose proof (lastaddr_lt P _ EP) as Hlt.
  destruct (short_dec j q) as [Hs|(q2 & it & q3 & -> & Hs & Hit)].
  + assert (P = p1) as -> by (apply (upd_unique (sl_level sl) j P q p1 q1); congruence).
    rewrite decide_True by done. rewrite link_short by done. cbn [link it_h new].
    assert (Hq : zlen pre = zlen p1 + zlen q) by (by rewrite Ep, zlen_app).
    destruct (decide (j < nl)%nat) as [Hjn|Hjn].
    * rewrite (proj2 (Nat.ltb_lt _ _)) by lia. cbn. do 2 f_equal. lia.
    * rewrite (proj2 (Nat.ltb_ge _ _)) by lia.
      rewrite (H2_link p1 q j Ep Hj), link_short by done. cbn. do 2 f_equal. lia.
  + rewrite decide_False.
    * rewrite decide_False by lia. rewrite (H2_link P _ j Ep Hj), <- !app_assoc. cbn [app].
      by rewrite !link_tall by done.
    * intros [= Heq].
      assert (P = p1) as ->.
      { apply (lastaddr_inj (sl_head sl) items P ((q2 ++ it :: q3) ++ post) p1 (q1 ++ post));
          [apply (rep_nodup _ _ Hrep)|done|rewrite app_assoc; congruence|done]. }
      rewrite Ep in E1. apply app_inv_head in E1. subst q1.
      apply Forall_app in S1 as [_ S1]. apply Forall_cons in S1 as [S1 _]. lia.
Qed.

Lemma wired_new H j : wired H -> (j < nl)%nat -> getL H node j = Some (link j post).
Proof.
  intros HG Hj.
  destruct (Hur j) as ([u r] & Eu & p1 & q1 & E1 & H1 & S1 & [= -> ->]); [lia|].
  assert (Hlt : (lastaddr (sl_head sl) p1 < node)%nat).
  { apply (lastaddr_lt p1 (q1 ++ post)). by rewrite app_assoc, <- E1. }
  rewrite HG, Eu by lia. cbn [fmap option_fmap option_map fst].
  rewrite decide_False by (intros [= ?]; lia). by rewrite decide_True by done.
Qed.

Lemma wired_after H p x Q j :
  wired H -> post = p ++ x :: Q -> (j < it_h x)%nat -> getL H (it_addr x) j = Some (link j Q).
Proof.
  intros HG Ep Hj.
  assert (Eit : items = ((pre ++ p) ++ [x]) ++ Q) by (by rewrite Hitems, Ep, <- !app_assoc).
  assert (Hl : getL (sl_heap sl) (it_addr x) j = Some (link j Q)).
  { rewrite <- (lastaddr_snoc (sl_head sl) (pre ++ p) x).
    apply (rep_link _ _ Hrep); [done|]. by rewrite hgt_snoc. }
  pose proof (rep_hgt_le sl items Hrep _ _ Eit) as Hx. rewrite hgt_snoc in Hx.
  pose proof (lastaddr_lt _ _ Eit) as Hxn. rewrite lastaddr_snoc in Hxn.
  destruct (Hur j) as ([u r] & Eu & p1 & q1 & E1 & H1 & S1 & [= -> ->]); [lia|].
  rewrite HG, Eu by lia. cbn [fmap option_fmap option_map fst].
  rewrite decide_False.
  { rewrite decide_False by lia. unfold H2. rewrite alloc_getL.
    by rewrite decide_False by (unfold node in *; lia). }
  intros [= Heq].
  assert (Hpp : (pre ++ p) ++ [x] = p1).
  { apply (lastaddr_inj (sl_head sl) items _ Q p1 (q1 ++ post));
      [apply (rep_nodup _ _ Hrep)|done|rewrite app_assoc; congruence|].
    by rewrite lastaddr_snoc. }
  apply (f_equal length) in Hpp, E1. rewrite !length_app in Hpp. rewrite length_app in E1.
  cbn in Hpp. lia.
Qed.

Lemma wired_links H P Q j :
  wired H -> pre ++ new :: post = P ++ Q -> (j < hgt (sl_level sl) P)%nat ->
  getL H (lastaddr (sl_head sl) P) j = Some (link j Q).
Proof.
  intros HG EPQ Hj.
  destruct (mid_split _ _ _ _ _ EPQ) as [(q & Ep & ->)|(P' & -> & Ep)].
  - by apply wired_before.
  - destruct (list_snoc P') as [->|(p' & x & ->)].
    + rewrite lastaddr_snoc. rewrite hgt_snoc in Hj. cbn in Ep. subst Q. by apply wired_new.
    + rewrite app_comm_cons, app_assoc, hgt_snoc in Hj.
      rewrite app_comm_cons, app_assoc, lastaddr_snoc.
      rewrite <- app_assoc in Ep. by apply (wired_after H p').
Qed.

(** The backward pointers once those of the new node and of its successor
    are set. *)
Lemma wired_fields H P it Q :
  (forall b, fields H b =
     if decide (Some b = it_addr <$> hd_error post) then
       (fun '(k, s, _, h) => (k, s, Some node, h)) <$> fields (sl_heap sl) b
     else if decide (b = node) then Some (key, score, it_addr <$> last pre, nl)
     else fields (sl_heap sl) b) ->
  pre ++ new :: post = P ++ it :: Q ->
  fields H (it_addr it) = Some (it_key it, it_score it, it_addr <$> last P, it_h it).
Proof.
  intros HF E. rewrite HF. pose proof (rep_nodup _ _ Hrep) as Hnd.
  assert (Haddr : forall p x q, items = p ++ x :: q -> (it_addr x < node)%nat).
  { intros p x q Ei. rewrite <- (lastaddr_snoc (sl_head sl) p x).
    apply (lastaddr_lt _ q). by rewrite <- app_assoc. }
  destruct (mid_split_cons _ _ _ _ _ _ E) as [(q & Ep & ->)|[(-> & -> & ->)|(P' & -> & Ep)]].
  - assert (Ei : items = P ++ it :: q ++ post) by (by rewrite Hitems, Ep, <- app_assoc).
    pose proof (Haddr _ _ _ Ei). rewrite decide_False.
    + rewrite decide_False by lia. by apply (rep_node _ _ Hrep P it (q ++ post)).
    + destruct post as [|y post']; [done|]. intros [= Ha].
      destruct (addr_inj P it (q ++ y :: post') pre y post' _ _ Hnd Ei Hitems Ha) as [Hp _].
      apply (f_equal length) in Hp, Ep. rewrite length_app in Ep. cbn in Ep. lia.
  - rewrite decide_False; [by rewrite decide_True by done|].
    destruct post as [|y post']; [done|]. cbn. intros [= Ha].
    pose proof (Haddr _ _ _ Hitems). lia.
  - assert (Ei : items = (pre ++ P') ++ it :: Q) by (by rewrite Hitems, Ep, <- app_assoc).
    rewrite (rep_node _ _ Hrep _ _ _ Ei). pose proof (Haddr _ _ _ Ei).
    destruct P' as [|y P'].
    + rewrite Ep. cbn. rewrite decide_True by done. by rewrite last_snoc.
    + rewrite decide_False.
      * rewrite decide_False by lia. rewrite !last_app_cons. done.
      * rewrite Ep. cbn. intros [= Ha]. rewrite Ep in Hitems. cbn in Hitems.
        destruct (addr_inj (pre ++ y :: P') it Q pre y (P' ++ it :: Q) _ _ Hnd Ei Hitems Ha)
          as [Hp _].
        apply (f_equal length) in Hp. rewrite length_app in Hp. cbn in Hp. lia.
Qed.

Lemma H2_fields b :
  fields H2 b = if decide (b = node) then Some (key, score, None, nl) else fields (sl_heap sl) b.
Proof. unfold H2. rewrite alloc_fields. cbn. by rewrite length_replicate. Qed.

Lemma u0_backward :
  (if decide (lastaddr (sl_head sl) pre = sl_head sl) then None
   else Some (lastaddr (sl_head sl) pre)) = it_addr <$> last pre.
Proof.
  destruct (list_snoc pre) as [Ep|(p & x & Ep)]; rewrite Ep.
  - by rewrite lastaddr_nil, decide_True by done.
  - rewrite lastaddr_snoc, last_snoc, decide_False; [done|]. intros Ha.
    assert (Heq : p ++ [x] = []).
    { apply (lastaddr_inj (sl_head sl) items _ post [] items);
        [apply (rep_nodup _ _ Hrep)|by rewrite Hitems, Ep|done|].
      by rewrite lastaddr_snoc, lastaddr_nil. }
    by destruct p.
Qed.

Lemma new_nodup : NoDup (sl_head sl :: map it_addr (pre ++ new :: post)).
Proof.
  pose proof (rep_nodup _ _ Hrep) as Hnd. rewrite Hitems in Hnd.
  assert (Hp : sl_head sl :: map it_addr (pre ++ new :: post) ≡ₚ
               node :: sl_head sl :: map it_addr (pre ++ post)).
  { rewrite !map_app. cbn. rewrite <- Permutation_middle. apply Permutation_swap. }
  rewrite Hp. constructor; [|done]. intros Hin.
  apply elem_of_cons in Hin as [Hin|Hin].
  - pose proof (lastaddr_lt [] items eq_refl) as Hlt. rewrite lastaddr_nil in Hlt. lia.
  - apply list_elem_of_In, in_map_iff in Hin as (x & Hx & Hin).
    apply in_split in Hin as (p & q & E). rewrite <- Hitems in E.
    pose proof (lastaddr_lt (p ++ [x]) q) as Hlt. rewrite lastaddr_snoc in Hlt.
    rewrite <- app_assoc in Hlt. specialize (Hlt E). lia.
Qed.

(** With the backward pointers set, the store represents the longer list. *)
Lemma insert_rep_of H H' tl :
  wired H -> (forall b j, (sl_level sl <= j)%nat -> getL H b j = getL H2 b j) ->
  (forall b j, getL H' b j = getL H b j) ->
  (forall b, fields H' b =
     if decide (Some b = it_addr <$> hd_error post) then
       (fun '(k, s, _, h) => (k, s, Some node, h)) <$> fields (sl_heap sl) b
     else if decide (b = node) then Some (key, score, it_addr <$> last pre, nl)
     else fields (sl_heap sl) b) ->
  tl = it_addr <$> last (pre ++ new :: post) ->
  rep (mkSkipList H' (sl_head sl) tl (sl_length sl + 1) (sl_level sl)) (pre ++ new :: post).
Proof.
  intros HW HT HG' HF' Htl. split; cbn [sl_heap sl_head sl_tail sl_length sl_level].
  - rewrite HF', decide_False, decide_False; [apply (rep_head _ _ Hrep)| |].
    + pose proof (lastaddr_lt [] items eq_refl) as Hlt. rewrite lastaddr_nil in Hlt. lia.
    + pose proof (rep_nodup _ _ Hrep) as Hnd. rewrite Hitems in Hnd.
      destruct post as [|y post']; [done|]. cbn. intros [= Hh].
      apply NoDup_cons in Hnd as [Hnd _]. apply Hnd. rewrite Hh.
      apply list_elem_of_In, in_map, in_or_app. right. by left.
  - intros i lv Hi. rewrite HG', HT by done. unfold H2. rewrite alloc_getL, decide_False.
    + by apply (rep_top _ _ Hrep).
    + pose proof (lastaddr_lt [] items eq_refl) as Hlt. rewrite lastaddr_nil in Hlt.
      unfold node in Hlt. lia.
  - intros P it Q E. by apply (wired_fields H' P it Q).
  - intros P Q j E Hj. rewrite HG'. by apply wired_links.
  - apply new_nodup.
  - pose proof (rep_h _ _ Hrep) as Hh. rewrite Hitems in Hh.
    apply Forall_app in Hh as [Hh1 Hh2]. apply Forall_app; split; [done|]. by constructor.
  - apply (rep_level _ _ Hrep).
  - done.
  - rewrite (rep_len _ _ Hrep), Hitems. rewrite !zlen_app. unfold zlen. cbn [length]. lia.
Qed.

(** The end of [Insert]: the backward pointers and the tail. *)
Lemma insert_finish H :
  length H = length H2 -> (forall b, fields H b = fields H2 b) -> wired H ->
  (forall b j, (sl_level sl <= j)%nat -> getL H b j = getL H2 b j) ->
  exists sl',
    (H ← setBackward H node (if decide (lastaddr (sl_head sl) pre = sl_head sl) then None
                             else Some (lastaddr (sl_head sl) pre));
     ln ← getL H node 0;
     match forward ln with
     | Some y =>
         H ← setBackward H y (Some node);
         Some (mkSkipList H (sl_head sl) (sl_tail sl) (sl_length sl + 1) (sl_level sl), node)
     | None =>
         Some (mkSkipList H (sl_head sl) (Some node) (sl_length sl + 1) (sl_level sl), node)
     end) = Some (sl', node) /\
    rep sl' (pre ++ new :: post) /\ sl_level sl' = sl_level sl /\
    length (sl_heap sl') = S (length (sl_heap sl)).
Proof.
  intros HL HF HW HT. rewrite u0_backward.
  destruct (setBackward_spec H node key score None nl (it_addr <$> last pre))
    as (Ha & -> & La & Fa & Ga).
  { by rewrite HF, H2_fields, decide_True by done. }
  cbn [mbind option_bind]. rewrite Ga, (wired_new H 0 HW) by lia. cbn [mbind option_bind].
  destruct (forward (link 0 post)) as [y|] eqn:Ey.
  - apply link_Some in Ey as (q & it & r & Ep & Hs & Hit & <-).
    assert (q = []) as ->.
    { apply (short_0 sl items Hrep pre q (it :: r)); [by rewrite Hitems, Ep|done]. }
    cbn in Ep. pose proof Hitems as Hi. rewrite Ep in Hi.
    pose proof (rep_node _ _ Hrep pre it r Hi) as Hit'.
    assert (Hne : it_addr it <> node).
    { pose proof (lastaddr_lt (pre ++ [it]) r) as Hlt. rewrite lastaddr_snoc in Hlt.
      rewrite <- app_assoc in Hlt. specialize (Hlt Hi). lia. }
    destruct (setBackward_spec Ha (it_addr it) (it_key it) (it_score it)
                (it_addr <$> last pre) (it_h it) (Some node)) as (Hb & -> & Lb & Fb & Gb).
    { by rewrite Fa, decide_False, HF, H2_fields, decide_False by done. }
    cbn [mbind option_bind]. eexists. split; [reflexivity|]. split; [|split; [done|]].
    + apply (insert_rep_of H); [done|done|..].
      * intros b j. by rewrite Gb, Ga.
      * intros b. rewrite Fb, Fa, HF, H2_fields, Ep. cbn [hd_error fmap option_fmap option_map].
        destruct (decide (b = it_addr it)) as [->|Hb'].
        { rewrite decide_True by done. by rewrite Hit'. }
        rewrite (decide_False (P := Some b = _)) by congruence.
        by destruct (decide (b = node)).
      * rewrite (rep_tail _ _ Hrep), Hi, Ep. rewrite !last_app_cons. done.
    + cbn. rewrite Lb, La, HL. unfold H2. rewrite length_app. cbn. lia.
  - apply link_None in Ey.
    assert (Ep : post = []).
    { apply (short_0 sl items Hrep pre post []); [by rewrite app_nil_r|done]. }
    eexists. split; [reflexivity|]. split; [|split; [done|]].
    + apply (insert_rep_of H); [done|done|..].
      * intros b j. by rewrite Ga.
      * intros b. rewrite Fa, HF, H2_fields, Ep. cbn [hd_error fmap option_fmap option_map].
        rewrite (decide_False (P := Some b = _)) by done. by destruct (decide (b = node)).
      * by rewrite Ep, last_snoc.
    + cbn. rewrite La, HL. unfold H2. rewrite length_app. cbn. lia.
Qed.
End wire.

(** [Insert] puts the new element at the cut of the order. *)
Lemma Insert_rep sl items pre post flip score key :
  rep sl items -> items = pre ++ post -> cut (go_lt score key) pre post ->
  exists sl',
    Insert sl flip score key = Some (sl', length (sl_heap sl)) /\
    rep sl' (pre ++ mkItem (length (sl_heap sl)) (randomLevel flip) key score :: post) /\
    length (sl_heap sl') = S (length (sl_heap sl)) /\
    sl_level sl' = Nat.max (sl_level sl) (randomLevel flip).
Proof.
  intros Hrep E Hcut. unfold Insert.
  destruct (descend_from_head sl items Hrep _ pre post E Hcut) as (us & -> & Hl & Hus).
  cbn [mbind option_bind]. pose proof (rep_level _ _ Hrep) as Hlev.
  pose proof (randomLevel_range flip) as Hr. generalize dependent (randomLevel flip). intros nl Hr.
  destruct (expand_rep sl items (nl - sl_level sl) Hrep) as (H1 & -> & L1 & R1); [lia|].
  cbn [mbind option_bind].
  set (sl1 := mkSkipList H1 _ _ _ _) in R1.
  set (ur := us ++ replicate (nl - sl_level sl) (sl_head sl, 0)).
  assert (Hur : forall j, (j < sl_level sl1)%nat ->
     exists x, ur !! j = Some x /\ upd_at (sl_head sl1) (sl_level sl1) pre j x).
  { cbn [sl_level sl_head sl1]. intros j Hj. unfold ur.
    destruct (decide (j < sl_level sl)%nat) as [Hlt|Hge].
    - rewrite lookup_app_l by lia. destruct (us !! j) as [x|] eqn:Ex.
      + exists x. split; [done|]. destruct (Hus j x Ex) as (p & q & Ep & Hh & Hs & ->).
        exists p, q. split; [done|]. split; [|done].
        unfold hgt in *. destruct (last p); [done|lia].
      + apply lookup_ge_None in Ex. lia.
    - rewrite lookup_app_r by lia. exists (sl_head sl, 0). split; [apply lookup_replicate_2; lia|].
      exists [], pre. split; [done|]. split; [exact Hj|]. split; [|done].
      pose proof (rep_h _ _ Hrep) as Hh. rewrite E in Hh. apply Forall_app in Hh as [Hh _].
      eapply Forall_impl; [exact Hh|]. cbn. lia. }
  assert (Hnl : (1 <= nl <= sl_level sl1)%nat) by (cbn [sl_level sl1]; lia).
  destruct (Hur 0%nat) as ([u0 r0] & -> & p & q & Ep & _ & Hs & [= -> ->]); [lia|].
  rewrite (short_0 sl items Hrep p q post), app_nil_r in Ep by (by rewrite ?app_assoc, <- ?Ep || done).
  subst p. cbn [mbind option_bind].
  assert (Hlvl : Nat.max (sl_level sl) nl = sl_level sl1) by (cbn [sl_level sl1]; lia). rewrite Hlvl.
  destruct (wire_loop sl1 items pre post ur nl key score R1 E Hur Hnl (zlen pre) eq_refl)
    as (H3 & E3 & L3 & F3 & G3).
  unfold node, H2 in E3. cbn [sl_heap sl_head sl1] in E3. rewrite E3. clear E3.
  cbn [mbind option_bind].
  destruct (above_loop sl1 items pre post ur nl key score R1 E Hur Hnl H3) as (H4 & -> & L4 & F4 & G4).
  { intros b j Hj. by rewrite G3, decide_False by lia. }
  cbn [mbind option_bind].
  destruct (insert_finish sl1 items pre post ur nl key score R1 E Hur Hnl H4)
    as (sl' & E' & R' & Hl' & Hn').
  - congruence.
  - intros b. by rewrite F4, F3.
  - intros b j Hj. rewrite G4, !G3. cbn [sl_level sl1] in *.
    destruct (decide (j < nl)%nat) as [Hjn|Hjn].
    + rewrite decide_False, decide_True by lia.
      destruct (decide (Some b = _)); [done|].
      destruct (decide (b = node sl1)); [by rewrite decide_True|by rewrite decide_False by tauto].
    + rewrite decide_True by lia. destruct (decide (Some b = _)); [done|].
      by rewrite decide_False by tauto.
  - intros b j Hj. rewrite G4, G3, !decide_False by lia. done.
  - exists sl'. split; [rewrite <- L1; exact E'|]. split; [|split; [cbn [sl_heap sl1] in Hn'; lia|congruence]].
    unfold new, node in R'. cbn [sl_heap sl1] in R'. by rewrite L1 in R'.
Qed.

(** *** Delete *)

Section unlink.
Context (sl : SkipList) (items pre post : list item) (x : item) (us : list (nat * Z)).
Context (Hrep : rep sl items) (Hitems : items = pre ++ x :: post).
Context (Hus : forall j, (j < sl_level sl)%nat ->
           exists u, us !! j = Some u /\ upd_at (sl_head sl) (sl_level sl) pre j u).

(** Only the last node before [x] at level [j] changes. *)
Definition unlinked (H : list Node) : Prop :=
  forall p q b j, pre = p ++ q -> (j < hgt (sl_level sl) p)%nat -> short j q ->
    getL H b j = if decide (b = lastaddr (sl_head sl) p) then Some (link j (q ++ post))
                 else getL (sl_heap sl) b j.

Lemma x_link j : (j < it_h x)%nat -> getL (sl_heap sl) (it_addr x) j = Some (link j post).
Proof.
  intros Hj. rewrite <- (lastaddr_snoc (sl_head sl) pre x).
  apply (rep_link _ _ Hrep); [by rewrite <- app_assoc|by rewrite hgt_snoc].
Qed.

Lemma x_notin_post j : forward (link j post) <> Some (it_addr x).
Proof.
  intros (q & it & r & Ep & _ & _ & Ha)%link_Some. pose proof (rep_nodup _ _ Hrep) as Hnd.
  assert (Ei : items = (pre ++ x :: q) ++ it :: r) by (by rewrite Hitems, Ep, <- app_assoc).
  destruct (addr_inj _ _ _ _ _ _ _ _ Hnd Ei Hitems Ha) as [Hp _].
  apply (f_equal length) in Hp. rewrite length_app in Hp. cbn in Hp. lia.
Qed.

(** The link at level [j] of the last node before [x] once [x] is gone. *)
Lemma unlinkLevel_spec H j p q :
  (forall b, getL H b j = getL (sl_heap sl) b j) ->
  us !! j = Some (lastaddr (sl_head sl) p, zlen p) ->
  pre = p ++ q -> (j < hgt (sl_level sl) p)%nat -> short j q ->
  exists H', unlinkLevel (it_addr x) us H j = Some H' /\ length H' = length H /\
    (forall b, fields H' b = fields H b) /\
    forall b k, getL H' b k =
      if decide (k = j) then
        (if decide (b = lastaddr (sl_head sl) p) then Some (link j (q ++ post))
         else getL (sl_heap sl) b j)
      else getL H b k.
Proof.
  intros HG Eu Ep Hh Hs.
  assert (Ei : items = p ++ q ++ x :: post) by (by rewrite Hitems, Ep, <- app_assoc).
  assert (Hl : getL H (lastaddr (sl_head sl) p) j = Some (link j (q ++ x :: post))).
  { rewrite HG. by apply (rep_link _ _ Hrep). }
  unfold unlinkLevel. rewrite Eu. cbn [mbind option_bind]. rewrite Hl. cbn [mbind option_bind].
  set (act := if decide _ then _ else _).
  assert (Hact : act = setL H (lastaddr (sl_head sl) p) j (link j (q ++ post))).
  { unfold act. rewrite !link_short by done. cbn [link].
    destruct (Nat.ltb_spec j (it_h x)) as [Hjx|Hjx]; cbn [forward span].
    - rewrite decide_True by done. rewrite HG, x_link by done. cbn [mbind option_bind].
      do 2 f_equal. lia.
    - rewrite decide_False by apply x_notin_post. do 2 f_equal. lia. }
  rewrite Hact. destruct (modL_step H _ j _ (link j (q ++ post)) Hl) as (H' & E' & L' & F' & G').
  exists H'. split; [done|]. split; [done|]. split; [done|]. intros b k. by rewrite G', HG.
Qed.

Lemma unlink_loop :
  exists H, foldM (unlinkLevel (it_addr x) us) (seq 0 (sl_level sl)) (sl_heap sl) = Some H /\
    length H = length (sl_heap sl) /\
    (forall b, fields H b = fields (sl_heap sl) b) /\ unlinked H /\
    forall b j, (sl_level sl <= j)%nat -> getL H b j = getL (sl_heap sl) b j.
Proof.
  destruct (level_loop (unlinkLevel (it_addr x) us) (fun b j =>
    if decide (Some b = fst <$> us !! j)
    then Some (link j (drop (Z.to_nat (default 0 (snd <$> us !! j))) pre ++ post))
    else getL (sl_heap sl) b j) (sl_heap sl) 0 (sl_level sl)) as (H & E & L & F & G).
  - intros H i Hi HL HF HG.
    destruct (Hus i) as ([u r] & Eu & p & q & Ep & Hh & Hs & [= -> ->]); [lia|].
    destruct (unlinkLevel_spec H i p q HG Eu Ep Hh Hs) as (H' & E' & L' & F' & G').
    exists H'. split; [done|]. split; [done|]. split; [done|]. intros b j. rewrite G', Eu.
    destruct (decide (j = i)) as [->|]; [|done]. cbn [fmap option_fmap option_map fst snd from_option].
    rewrite Ep. unfold zlen. unfold id. rewrite Nat2Z.id, drop_app_length.
    destruct (decide (b = lastaddr (sl_head sl) p)) as [->|].
    + by rewrite decide_True by done.
    + by rewrite decide_False by congruence.
  - exists H. split; [done|]. split; [done|]. split; [done|]. split.
    + intros p q b j Ep Hj Hs.
      assert (Ei : items = p ++ q ++ x :: post) by (by rewrite Hitems, Ep, <- app_assoc).
      pose proof (rep_hgt_le sl items Hrep _ _ Ei) as Hle.
      destruct (Hus j) as ([u r] & Eu & p1 & q1 & E1 & H1 & S1 & [= -> ->]); [lia|].
      assert (p1 = p) as -> by (apply (upd_unique (sl_level sl) j p1 q1 p q); congruence).
      rewrite G, decide_True, Eu by lia. cbn [fmap option_fmap option_map fst snd from_option].
      rewrite Ep. unfold zlen. unfold id. rewrite Nat2Z.id, drop_app_length.
      destruct (decide (b = lastaddr (sl_head sl) p)) as [->|].
      * by rewrite decide_True by done.
      * by rewrite decide_False by congruence.
    + intros b j Hj. by rewrite G, decide_False by lia.
Qed.

Lemma unlinked_before H P q j :
  unlinked H -> pre = P ++ q -> (j < hgt (sl_level sl) P)%nat ->
  getL H (lastaddr (sl_head sl) P) j = Some (link j (q ++ post)).
Proof.
  intros HU Ep Hj. pose proof (rep_nodup _ _ Hrep) as Hnd.
  assert (Ei : items = P ++ q ++ x :: post) by (by rewrite Hitems, Ep, <- app_assoc).
  pose proof (rep_hgt_le sl items Hrep _ _ Ei).
  destruct (Hus j) as (? & _ & p1 & q1 & E1 & H1 & S1 & _); [lia|].
  rewrite (HU p1 q1 _ j E1 H1 S1).
  destruct (short_dec j q) as [Hs|(q2 & it & q3 & -> & Hs & Hit)].
  - assert (P = p1) as -> by (apply (upd_unique (sl_level sl) j P q p1 q1); congruence).
    rewrite Ep in E1. apply app_inv_head in E1 as ->. by rewrite decide_True by done.
  - rewrite decide_False.
    + rewrite (rep_link _ _ Hrep P _ j Ei Hj), <- !app_assoc. cbn [app].
      by rewrite !link_tall by done.
    + intros Heq. assert (P = p1) as ->.
      { apply (lastaddr_inj (sl_head sl) items P _ p1 (q1 ++ x :: post) Hnd Ei); [|done].
        by rewrite Hitems, E1, <- app_assoc. }
      rewrite Ep in E1. apply app_inv_head in E1. subst q1.
      apply Forall_app in S1 as [_ S1]. apply Forall_cons in S1 as [S1 _]. lia.
Qed.

Lemma unlinked_after H p y Q j :
  unlinked H -> post = p ++ y :: Q -> (j < it_h y)%nat -> getL H (it_addr y) j = Some (link j Q).
Proof.
  intros HU Ep Hj. pose proof (rep_nodup _ _ Hrep) as Hnd.
  assert (Ei : items = ((pre ++ x :: p) ++ [y]) ++ Q)
    by (by rewrite Hitems, Ep, <- !app_assoc).
  pose proof (rep_hgt_le sl items Hrep _ _ Ei) as Hle. rewrite hgt_snoc in Hle.
  destruct (Hus j) as (? & _ & p1 & q1 & E1 & H1 & S1 & _); [lia|].
  rewrite (HU p1 q1 _ j E1 H1 S1), decide_False.
  - rewrite <- (lastaddr_snoc (sl_head sl) (pre ++ x :: p) y).
    apply (rep_link _ _ Hrep); [done|]. by rewrite hgt_snoc.
  - rewrite <- (lastaddr_snoc (sl_head sl) (pre ++ x :: p) y). intros Heq.
    assert (Hp : (pre ++ x :: p) ++ [y] = p1).
    { apply (lastaddr_inj (sl_head sl) items _ Q p1 (q1 ++ x :: post) Hnd Ei); [|done].
      by rewrite Hitems, E1, <- app_assoc. }
    apply (f_equal length) in Hp, E1. rewrite !length_app in Hp. rewrite length_app in E1.
    cbn in Hp. lia.
Qed.

Lemma unlinked_links H P Q j :
  unlinked H -> pre ++ post = P ++ Q -> (j < hgt (sl_level sl) P)%nat ->
  getL H (lastaddr (sl_head sl) P) j = Some (link j Q).
Proof.
  intros HU E Hj. destruct (app_eq_inv _ _ _ _ E) as [(q & Ep & ->)|(k & -> & Ep)].
  - by apply unlinked_before.
  - destruct (list_snoc k) as [->|(p' & y & ->)].
    + rewrite app_nil_r in *. cbn in Ep. subst Q.
      apply (unlinked_before H pre [] j HU); [by rewrite app_nil_r|done].
    + rewrite app_assoc, hgt_snoc in Hj. rewrite app_assoc, lastaddr_snoc.
      rewrite <- app_assoc in Ep. by apply (unlinked_after H p').
Qed.

Lemma unlinked_x H : unlinked H -> getL H (it_addr x) 0 = Some (link 0 post).
Proof.
  intros HU. pose proof (rep_level _ _ Hrep) as Hl.
  pose proof (rep_h_at sl items Hrep pre x post Hitems) as Hx.
  destruct (Hus 0%nat) as (? & _ & p1 & q1 & E1 & H1 & S1 & _); [lia|].
  rewrite (HU p1 q1 _ 0%nat E1 H1 S1), decide_False; [apply x_link; lia|].
  rewrite <- (lastaddr_snoc (sl_head sl) pre x). intros Heq.
  assert (Hp : pre ++ [x] = p1).
  { apply (lastaddr_inj (sl_head sl) items _ post p1 (q1 ++ x :: post) (rep_nodup _ _ Hrep));
      [by rewrite <- app_assoc|by rewrite Hitems, E1, <- app_assoc|done]. }
  apply (f_equal length) in Hp, E1. rewrite length_app in Hp, E1. cbn in Hp. lia.
Qed.

Lemma unlinked_fields H P it Q :
  (forall b, fields H b =
     if decide (Some b = it_addr <$> hd_error post) then
       (fun '(k, s, _, h) => (k, s, it_addr <$> last pre, h)) <$> fields (sl_heap sl) b
     else fields (sl_heap sl) b) ->
  pre ++ post = P ++ it :: Q ->
  fields H (it_addr it) = Some (it_key it, it_score it, it_addr <$> last P, it_h it).
Proof.
  intros HF E. rewrite HF. pose proof (rep_nodup _ _ Hrep) as Hnd.
  destruct (app_eq_inv _ _ _ _ E) as [([|y q] & Ep & Eq)|(P' & -> & Ep)].
  - rewrite app_nil_r in Ep. subst P. cbn in Eq. subst post.
    cbn. rewrite decide_True by done.
    rewrite (rep_node _ _ Hrep (pre ++ [x]) it Q); [done|by rewrite Hitems, <- app_assoc].
  - cbn in Eq. injection Eq as <- ->.
    assert (Ei : items = P ++ it :: q ++ x :: post) by (by rewrite Hitems, Ep, <- app_assoc).
    rewrite decide_False; [by apply (rep_node _ _ Hrep P it (q ++ x :: post))|].
    destruct post as [|y post']; [done|]. intros [= Ha].
    assert (Ei' : items = (pre ++ [x]) ++ y :: post') by (by rewrite Hitems, <- app_assoc).
    destruct (addr_inj _ _ _ _ _ _ _ _ Hnd Ei Ei' Ha) as [Hp _].
    apply (f_equal length) in Hp, Ep. rewrite length_app in Hp, Ep. cbn in Hp, Ep. lia.
  - assert (Ei : items = (pre ++ x :: P') ++ it :: Q) by (by rewrite Hitems, Ep, <- app_assoc).
    rewrite (rep_node _ _ Hrep _ _ _ Ei). destruct P' as [|y P'].
    + rewrite Ep. cbn. rewrite decide_True by done. by rewrite app_nil_r.
    + rewrite decide_False.
      * rewrite !last_app_cons. done.
      * rewrite Ep. cbn. intros [= Ha].
        assert (Ei' : items = (pre ++ [x]) ++ y :: P' ++ it :: Q)
          by (by rewrite Hitems, Ep, <- app_assoc).
        destruct (addr_inj _ _ _ _ _ _ _ _ Hnd Ei Ei' Ha) as [Hp _].
        apply (f_equal length) in Hp. rewrite !length_app in Hp. cbn in Hp. lia.
Qed.

(** The store after the loop and the backward pointer, at the old level. *)
Lemma unlinked_rep H H' tl :
  unlinked H -> (forall b j, (sl_level sl <= j)%nat -> getL H b j = getL (sl_heap sl) b j) ->
  (forall b j, getL H' b j = getL H b j) ->
  (forall b, fields H' b =
     if decide (Some b = it_addr <$> hd_error post) then
       (fun '(k, s, _, h) => (k, s, it_addr <$> last pre, h)) <$> fields (sl_heap sl) b
     else fields (sl_heap sl) b) ->
  tl = it_addr <$> last (pre ++ post) ->
  rep (mkSkipList H' (sl_head sl) tl (sl_length sl - 1) (sl_level sl)) (pre ++ post).
Proof.
  intros HU HT HG HF Htl. pose proof (rep_nodup _ _ Hrep) as Hnd. rewrite Hitems in Hnd.
  assert (Hp : sl_head sl :: map it_addr (pre ++ x :: post) ≡ₚ
               it_addr x :: sl_head sl :: map it_addr (pre ++ post)).
  { rewrite !map_app. cbn. rewrite <- Permutation_middle. apply Permutation_swap. }
  split; cbn [sl_heap sl_head sl_tail sl_length sl_level].
  - rewrite HF, decide_False; [apply (rep_head _ _ Hrep)|].
    destruct post as [|y post']; [done|]. cbn. intros [= Hh].
    apply NoDup_cons in Hnd as [Hnd _]. apply Hnd. rewrite Hh.
    apply list_elem_of_In, in_map, in_or_app. right. right. by left.
  - intros i lv Hi. rewrite HG, HT by done. by apply (rep_top _ _ Hrep).
  - intros P it Q E. by apply (unlinked_fields H' P it Q).
  - intros P Q j E Hj. rewrite HG. by apply unlinked_links.
  - rewrite Hp in Hnd. by apply NoDup_cons in Hnd as [_ Hnd].
  - pose proof (rep_h _ _ Hrep) as Hh. rewrite Hitems in Hh.
    apply Forall_app in Hh as [Hh1 Hh2]. apply Forall_cons in Hh2 as [_ Hh2].
    by apply Forall_app.
  - apply (rep_level _ _ Hrep).
  - done.
  - rewrite (rep_len _ _ Hrep), Hitems, !zlen_app. unfold zlen. cbn [length]. lia.
Qed.
End unlink.

(** A level no node reaches can be dropped. *)
Lemma lower_rep H hd tl n l items :
  rep (mkSkipList H hd tl n (S l)) items -> (1 <= l)%nat -> short l items ->
  rep (mkSkipList H hd tl n l) items.
Proof.
  intros Hrep Hl Hs. destruct Hrep as [R1 R2 R3 R4 R5 R6 R7 R8 R9].
  cbn [sl_heap sl_head sl_tail sl_length sl_level] in *.
  split; cbn [sl_heap sl_head sl_tail sl_length sl_level]; try done.
  - intros i lv Hi Hg. destruct (decide (i = l)) as [->|]; [|apply (R2 i); [lia|done]].
    pose proof (R4 [] items l eq_refl) as Hl'. cbn in Hl'. rewrite Hl' in Hg by lia.
    injection Hg as <-. by apply link_None.
  - intros pre post i E Hi. apply R4; [done|]. unfold hgt in *. destruct (last pre); [done|lia].
  - eapply Forall_impl; [exact (proj2 (Forall_and _ _) (conj R6 Hs))|].
    cbn. intros ? [? ?]. lia.
  - lia.
Qed.

Lemma shrink_rep H hd tl n l items :
  rep (mkSkipList H hd tl n l) items ->
  exists l', shrink H hd l = Some l' /\ rep (mkSkipList H hd tl n l') items /\
    tight (mkSkipList H hd tl n l') items.
Proof.
  induction l as [|l IH]; intros Hrep; pose proof (rep_level _ _ Hrep) as Hlev; cbn in Hlev; [lia|].
  cbn [shrink]. destruct (Nat.ltb_spec 1 (S l)) as [Hl|Hl].
  - pose proof (rep_link _ _ Hrep [] items l eq_refl) as Hg. cbn in Hg.
    rewrite Hg by lia. cbn [mbind option_bind].
    destruct (forward (link l items)) as [a|] eqn:Ef.
    + exists (S l). split; [done|]. split; [done|]. right. cbn [sl_level].
      apply link_Some in Ef as (q & it & r & E & _ & Hit & _).
      pose proof (rep_h_at _ _ Hrep q it r E) as Hh. cbn in Hh.
      rewrite E. apply Exists_app. right. left. lia.
    + apply link_None in Ef. apply IH. apply lower_rep; [done|lia|done].
  - exists (S l). split; [done|]. split; [done|]. left. cbn. lia.
Qed.

(** The end of [deleteNode]: the level shrinks to the tallest node. *)
Lemma delete_finish sl items pre x post (us : list (nat * Z)) H H' tl :
  rep sl items -> items = pre ++ x :: post ->
  (forall j, (j < sl_level sl)%nat ->
     exists u, us !! j = Some u /\ upd_at (sl_head sl) (sl_level sl) pre j u) ->
  unlinked sl pre post H ->
  (forall b j, (sl_level sl <= j)%nat -> getL H b j = getL (sl_heap sl) b j) ->
  (forall b j, getL H' b j = getL H b j) -> length H' = length (sl_heap sl) ->
  (forall b, fields H' b =
     if decide (Some b = it_addr <$> hd_error post) then
       (fun '(k, s, _, h) => (k, s, it_addr <$> last pre, h)) <$> fields (sl_heap sl) b
     else fields (sl_heap sl) b) -> tl = it_addr <$> last (pre ++ post) ->
  exists sl', (lvl ← shrink H' (sl_head sl) (sl_level sl);
               Some (mkSkipList H' (sl_head sl) tl (sl_length sl - 1) lvl)) = Some sl' /\
    rep sl' (pre ++ post) /\ tight sl' (pre ++ post) /\ sl_head sl' = sl_head sl /\
    length (sl_heap sl') = length (sl_heap sl).
Proof.
  intros Hrep E Hus U T HG HL HF Htl.
  pose proof (unlinked_rep sl items pre post x us Hrep E Hus H H' tl U T HG HF Htl) as R.
  destruct (shrink_rep _ _ _ _ _ _ R) as (l' & -> & R' & T'). cbn [mbind option_bind].
  eexists. split; [done|]. split; [done|]. split; [done|]. by split.
Qed.

Lemma deleteNode_rep sl items pre x post (us : list (nat * Z)) :
  rep sl items -> items = pre ++ x :: post ->
  (forall j, (j < sl_level sl)%nat ->
     exists u, us !! j = Some u /\ upd_at (sl_head sl) (sl_level sl) pre j u) ->
  exists sl', deleteNode sl (it_addr x) us = Some sl' /\ rep sl' (pre ++ post) /\
    tight sl' (pre ++ post) /\ sl_head sl' = sl_head sl /\
    length (sl_heap sl') = length (sl_heap sl).
Proof.
  intros Hrep E Hus. unfold deleteNode.
  destruct (unlink_loop sl items pre post x us Hrep E Hus) as (H & -> & L & F & U & T).
  cbn [mbind option_bind].
  pose proof (rep_node _ _ Hrep pre x post E) as Hx. rewrite <- F in Hx.
  apply fields_Some in Hx as (nx & Hnx & _ & _ & Hb & Hlen). rewrite Hnx. cbn [mbind option_bind].
  rewrite (unlinked_x sl items pre post x us Hrep E Hus H U). cbn [mbind option_bind].
  destruct (forward (link 0 post)) as [y|] eqn:Ey.
  - apply link_Some in Ey as (q & it & r & Ep & Hs & Hit & <-).
    assert (q = []) as ->.
    { apply (short_0 sl items Hrep (pre ++ [x]) q (it :: r));
        [by rewrite E, Ep, <- app_assoc|done]. }
    cbn in Ep. pose proof (rep_node _ _ Hrep (pre ++ [x]) it r) as Hit'.
    rewrite <- app_assoc in Hit'. cbn in Hit'. rewrite <- Ep in Hit'. specialize (Hit' E).
    destruct (setBackward_spec H (it_addr it) _ _ _ _ (backward nx)
                (eq_trans (F _) Hit')) as (Hb' & -> & Lb & Fb & Gb).
    cbn [mbind option_bind].
    apply (delete_finish sl items pre x post us H); [done..|congruence| |].
    + intros b. rewrite Fb, F, Hb, Ep. cbn [hd_error fmap option_fmap option_map].
      destruct (decide (b = it_addr it)) as [->|]; [|by rewrite decide_False by congruence].
      rewrite decide_True by done. by rewrite Hit'.
    + rewrite (rep_tail _ _ Hrep), E, Ep, !last_app_cons. done.
  - apply link_None in Ey.
    assert (Ep : post = []).
    { apply (short_0 sl items Hrep (pre ++ [x]) post []);
        [by rewrite E, app_nil_r, <- app_assoc|done]. }
    cbn [mbind option_bind]. apply (delete_finish sl items pre x post us H); [done..| |].
    + intros b. rewrite F, Ep. done.
    + by rewrite Hb, Ep, app_nil_r.
Qed.
