(* ===== verification/SkipListSpec.v ===== *)
(** * Skip list: the operations against a sorted list

    [ok sl items] adds to the representation predicate of [SkipList] that the
    members of [items] are sorted by score and key and that no score is NaN.
    The lemmas of this file give every operation of the skip list as an
    operation on that list; the theorems state them without the nodes. *)

From stdpp Require Import base list option strings sorting.
From Stdlib Require Import ZArith Lia SpecFloat.
From S2P Require Import Prelude Float SkipList.

#[local] Open Scope Z_scope.

Definition view (it : item) : member := (it_score it, it_key it).
Definition mle (a b : member) : Prop := mbefore b a = false.

Definition sorted (l : list member) : Prop := StronglySorted mle l.
Definition numbers (l : list member) : Prop := Forall is_num l.

Record ok (sl : SkipList) (items : list item) : Prop := {
  ok_rep : rep sl items;
  ok_tight : tight sl items;
  ok_sorted : sorted (view <$> items);
  ok_num : numbers (view <$> items) }.

(** ** The abstract operations *)

(** Insert before the first member that is not smaller. *)
Fixpoint place (e : member) (l : list member) : list member :=
  match l with
  | [] => [e]
  | x :: r => if mbefore x e then x :: place e r else e :: x :: r
  end.

(** Remove the first member with this score and key. *)
Fixpoint discard (e : member) (l : list member) : list member :=
  match l with
  | [] => []
  | x :: r => if msame x e then r else x :: discard e r
  end.

Lemma place_app e pre post :
  Forall (fun x => mbefore x e = true) pre -> Forall (fun x => mbefore x e = false) post ->
  place e (pre ++ post) = pre ++ e :: post.
Proof.
  intros Hpre Hpost. induction Hpre as [|x pre Hx _ IH]; cbn.
  - destruct Hpost as [|y post Hy _]; cbn; [done|by rewrite Hy].
  - by rewrite Hx, IH.
Qed.

Lemma discard_app e pre x post :
  Forall (fun y => msame y e = false) pre -> msame x e = true ->
  discard e (pre ++ x :: post) = pre ++ post.
Proof.
  intros Hpre Hx. induction Hpre as [|y pre Hy _ IH]; cbn; [by rewrite Hx|by rewrite Hy, IH].
Qed.

Lemma discard_none e l : Forall (fun y => msame y e = false) l -> discard e l = l.
Proof. intros H. induction H as [|y l Hy _ IH]; cbn; [done|by rewrite Hy, IH]. Qed.

(** ** Cutting a sorted list *)

Lemma mono_split (f : member -> bool) items :
  sorted (view <$> items) -> numbers (view <$> items) ->
  (forall a b, is_num a -> is_num b -> mle a b -> f b = true -> f a = true) ->
  exists pre post, items = pre ++ post /\
    Forall (fun x => f x = true) (view <$> pre) /\ Forall (fun x => f x = false) (view <$> post).
Proof.
  intros Hs Hn Hf. induction items as [|x r IH]; [by exists [], []|].
  cbn in Hs, Hn. apply StronglySorted_cons in Hs as [Hx Hs]. apply Forall_cons in Hn as [Hnx Hn].
  destruct (f (view x)) eqn:E.
  - destruct (IH Hs Hn) as (pre & post & -> & H1 & H2).
    exists (x :: pre), post. split; [done|]. split; [by constructor|done].
  - exists [], (x :: r). split; [done|]. split; [constructor|]. cbn. constructor; [done|].
    apply List.Forall_forall. intros y Hy. destruct (f y) eqn:Ey; [|done].
    pose proof (proj1 (List.Forall_forall _ _) Hx y Hy) as Hxy.
    pose proof (proj1 (List.Forall_forall _ _) Hn y Hy) as Hny. cbn in Hxy, Hny.
    rewrite (Hf _ _ Hnx Hny Hxy Ey) in E. done.
Qed.

Lemma filter_never {A} (f : A -> bool) l : Forall (fun x => f x = false) l -> List.filter f l = [].
Proof. intros H. induction H as [|x l Hx _ IH]; cbn; [done|by rewrite Hx]. Qed.

Lemma Forall_split_at {A} (P : A -> Prop) p x q : Forall P (p ++ x :: q) -> P x.
Proof. intros [_ H]%Forall_app. by apply Forall_cons in H as [H _]. Qed.

Lemma cut_of_Forall go (f : member -> bool) pre post :
  (forall k s r, go k s r = f (s, k)) ->
  Forall (fun x => f x = true) (view <$> pre) -> Forall (fun x => f x = false) (view <$> post) ->
  cut go pre post.
Proof.
  intros Hg H1 H2. split; intros p it q ->; rewrite Hg.
  - rewrite fmap_app in H1. by apply (Forall_split_at _ _ (view it)) in H1.
  - rewrite fmap_app in H2. by apply (Forall_split_at _ _ (view it)) in H2.
Qed.

Lemma before_mono e a b :
  is_num e -> is_num a -> is_num b -> mle a b -> mbefore b e = true -> mbefore a e = true.
Proof.
  intros He Ha Hb Hab Hbe. destruct (mbefore a e) eqn:E; [done|].
  rewrite (mle_trans e a b) in Hbe; done.
Qed.

Lemma sorted_insert e pre post :
  sorted (pre ++ post) -> numbers (pre ++ post) -> is_num e ->
  Forall (fun x => mbefore x e = true) pre -> Forall (fun x => mbefore x e = false) post ->
  sorted (pre ++ e :: post) /\ numbers (pre ++ e :: post).
Proof.
  intros Hs [Hn1 Hn2]%Forall_app He H1 H2. apply StronglySorted_app in Hs as (Hc & S1 & S2). split.
  - apply StronglySorted_app. split; [|split; [done|]].
    + intros a b Ha [->|Hb]%elem_of_cons; [|by apply Hc].
      apply list_elem_of_In in Ha. rewrite List.Forall_forall in H1, Hn1.
      apply mbefore_asym; [by apply Hn1|done|by apply H1].
    + apply StronglySorted_cons. split; [done|done].
  - apply Forall_app. split; [done|]. by constructor.
Qed.

Lemma sorted_remove (pre : list member) x post :
  sorted (pre ++ x :: post) -> numbers (pre ++ x :: post) ->
  sorted (pre ++ post) /\ numbers (pre ++ post).
Proof.
  intros Hs [Hn1 Hn2]%Forall_app. apply StronglySorted_app in Hs as (Hc & S1 & S2).
  apply StronglySorted_cons in S2 as [_ S2]. apply Forall_cons in Hn2 as [_ Hn2]. split.
  - apply StronglySorted_app. split; [|done]. intros a b Ha Hb. apply Hc; [done|]. by right.
  - by apply Forall_app.
Qed.

(** The cut [Insert], [Delete] and [UpdateScore] search for. *)
Lemma ok_cut sl items score key :
  ok sl items -> is_nan score = false ->
  exists pre post, items = pre ++ post /\ cut (go_lt score key) pre post /\
    Forall (fun x => mbefore x (score, key) = true) (view <$> pre) /\
    Forall (fun x => mbefore x (score, key) = false) (view <$> post).
Proof.
  intros Hok Hs.
  destruct (mono_split (fun x => mbefore x (score, key)) items) as (pre & post & E & H1 & H2).
  - apply (ok_sorted _ _ Hok).
  - apply (ok_num _ _ Hok).
  - intros a b Ha Hb. by apply before_mono.
  - exists pre, post. split; [done|]. split; [|done].
    by apply (cut_of_Forall _ (fun x => mbefore x (score, key))).
Qed.

(** ** Operations that change the list *)

Lemma Insert_ok sl items flip score key :
  ok sl items -> is_nan score = false ->
  exists sl' pre post,
    Insert sl flip score key = Some (sl', length (sl_heap sl)) /\
    items = pre ++ post /\
    ok sl' (pre ++ mkItem (length (sl_heap sl)) (randomLevel flip) key score :: post) /\
    place (score, key) (view <$> items) = view <$> pre ++ mkItem (length (sl_heap sl)) (randomLevel flip) key score :: post.
Proof.
  intros Hok Hs. destruct (ok_cut sl items score key Hok Hs) as (pre & post & E & Hc & H1 & H2).
  destruct (Insert_rep sl items pre post flip score key (ok_rep _ _ Hok) E Hc)
    as (sl' & EI & R & _ & Hl).
  exists sl', pre, post. split; [done|]. split; [done|]. split.
  - destruct (sorted_insert (score, key) (view <$> pre) (view <$> post)) as [Hso Hnu]; try done.
    + rewrite <- fmap_app, <- E. apply (ok_sorted _ _ Hok).
    + rewrite <- fmap_app, <- E. apply (ok_num _ _ Hok).
    + split; [done| |by rewrite fmap_app|by rewrite fmap_app].
      unfold tight. rewrite Hl. destruct (Nat.max_spec (sl_level sl) (randomLevel flip)) as [[? ->]|[? ->]].
      * right. apply Exists_app. right. by left.
      * destruct (ok_tight _ _ Hok) as [Ht|Ht]; [by left|right]. rewrite E in Ht.
        apply Exists_app in Ht as [Ht|Ht]; apply Exists_app; [by left|right; by right].
  - rewrite E, !fmap_app. cbn. by apply place_app.
Qed.

(** The node found after the descent of [Delete] and [UpdateScore]. *)
Lemma ok_next sl items pre post :
  ok sl items -> items = pre ++ post ->
  getL (sl_heap sl) (lastaddr (sl_head sl) pre) 0 =
    Some (mkLevel (it_addr <$> hd_error post) (span (link 0 post))) .
Proof.
  intros Hok E. pose proof (ok_rep _ _ Hok) as Hrep.
  rewrite (rep_link _ _ Hrep pre post 0 E) by (pose proof (rep_hgt_le _ _ Hrep _ _ E); lia).
  destruct post as [|x post]; [done|]. cbn [link].
  pose proof (rep_h_at _ _ Hrep _ _ _ E). by rewrite (proj2 (Nat.ltb_lt _ _)) by lia.
Qed.

Lemma not_same_rest e l :
  sorted l -> numbers l -> is_num e ->
  Forall (fun x => mbefore x e = false) l -> (forall x, hd_error l = Some x -> msame x e = false) ->
  Forall (fun x => msame x e = false) l.
Proof.
  intros Hs Hn He Hb Hh. destruct l as [|x l]; [constructor|].
  apply StronglySorted_cons in Hs as [Hx _]. apply Forall_cons in Hn as [Hnx Hn].
  apply Forall_cons in Hb as [Hbx _]. specialize (Hh x eq_refl). constructor; [done|].
  apply List.Forall_forall. intros y Hy.
  rewrite List.Forall_forall in Hx, Hn. specialize (Hx y Hy). specialize (Hn y Hy).
  destruct (msame y e) eqn:Ey; [|done]. unfold mle in Hx.
  rewrite (msame_mbefore_l y e x) in Hx by done.
  destruct (mbefore_trichotomy x e Hnx He) as [(? & ? & ?)|[(? & ? & ?)|(? & ? & ?)]]; congruence.
Qed.

Lemma ok_update us sl pre :
  length us = sl_level sl ->
  (forall (j : nat) (ur : nat * Z), us !! j = Some ur -> upd_at (sl_head sl) (sl_level sl) pre j ur) ->
  forall j, (j < sl_level sl)%nat ->
     exists u, us !! j = Some u /\ upd_at (sl_head sl) (sl_level sl) pre j u.
Proof.
  intros Hl Hus j Hj. destruct (us !! j) as [u|] eqn:Eu; [|apply lookup_ge_None in Eu; lia].
  exists u. split; [done|]. by apply Hus.
Qed.

Lemma before_not_same e l :
  numbers l -> is_num e -> Forall (fun x => mbefore x e = true) l ->
  Forall (fun x => msame x e = false) l.
Proof.
  unfold numbers. intros Hn He Hb. rewrite List.Forall_forall in *. intros x Hx.
  apply mbefore_not_same; auto.
Qed.

Lemma deleteNode_ok sl items pre x post us :
  ok sl items -> items = pre ++ x :: post -> length us = sl_level sl ->
  (forall (j : nat) (ur : nat * Z), us !! j = Some ur -> upd_at (sl_head sl) (sl_level sl) pre j ur) ->
  exists sl', deleteNode sl (it_addr x) us = Some sl' /\ ok sl' (pre ++ post) /\
    length (sl_heap sl') = length (sl_heap sl).
Proof.
  intros Hok E Hl Hus.
  destruct (deleteNode_rep sl items pre x post us (ok_rep _ _ Hok) E (ok_update _ _ _ Hl Hus))
    as (sl' & Ed & R & T & _ & L).
  exists sl'. split; [done|]. split; [|done].
  pose proof (ok_sorted _ _ Hok) as Hs. pose proof (ok_num _ _ Hok) as Hn.
  rewrite E, fmap_app in Hs, Hn. cbn in Hs, Hn.
  destruct (sorted_remove _ _ _ Hs Hn) as [Hs' Hn']. by split; rewrite ?fmap_app.
Qed.

Lemma Delete_ok sl items score key :
  ok sl items -> is_nan score = false ->
  (exists sl' pre x post, items = pre ++ x :: post /\ msame (view x) (score, key) = true /\
     Delete sl score key = Some (sl', true) /\ ok sl' (pre ++ post) /\
     discard (score, key) (view <$> items) = view <$> pre ++ post) \/
  (Delete sl score key = Some (sl, false) /\
     Forall (fun x => msame x (score, key) = false) (view <$> items)).
Proof.
  intros Hok Hs. destruct (ok_cut sl items score key Hok Hs) as (pre & post & E & Hc & H1 & H2).
  pose proof (ok_rep _ _ Hok) as Hrep. unfold Delete.
  destruct (descend_from_head sl items Hrep _ pre post E Hc) as (us & -> & Hl & Hus).
  cbn [mbind option_bind]. rewrite (ok_next sl items pre post Hok E). cbn [mbind option_bind forward].
  pose proof (ok_sorted _ _ Hok) as Hso. pose proof (ok_num _ _ Hok) as Hnu.
  rewrite E, fmap_app in Hso, Hnu. apply StronglySorted_app in Hso as (_ & _ & Hso).
  apply Forall_app in Hnu as [Hn1 Hn2].
  pose proof (before_not_same (score, key) _ Hn1 Hs H1) as Hpre.
  destruct post as [|x post]; cbn [hd_error fmap option_fmap option_map].
  - right. split; [done|]. by rewrite E, app_nil_r.
  - destruct (rep_lookup sl items Hrep pre x post E) as (n & -> & Hk & Hsc & _ & _).
    cbn [mbind option_bind]. rewrite Hsc, Hk.
    change (feqb (it_score x) score && bool_decide (it_key x = key)) with (msame (view x) (score, key)).
    destruct (msame (view x) (score, key)) eqn:Em.
    + left. destruct (deleteNode_ok sl items pre x post us Hok E Hl Hus) as (sl' & -> & Hok' & _).
      exists sl', pre, x, post. split; [done|]. split; [done|]. split; [done|]. split; [done|].
      rewrite E, !fmap_app. cbn. by apply discard_app.
    + right. split; [done|]. rewrite E, fmap_app. apply Forall_app. split; [done|].
      apply not_same_rest; try done. by intros y [= <-].
Qed.

Lemma link_shape i q x x' post :
  it_h x = it_h x' -> it_addr x = it_addr x' -> link i (q ++ x :: post) = link i (q ++ x' :: post).
Proof.
  intros Hh Ha. induction q as [|y q IH]; cbn [app link]; [by rewrite Hh, Ha|by rewrite IH].
Qed.

(** A split of the list with [x'] for [x] is a split of the list with the same shape. *)
Lemma rescored_split hd lvl pre x x' post P Q :
  it_h x = it_h x' -> it_addr x = it_addr x' -> pre ++ x' :: post = P ++ Q ->
  exists P0 Q0, pre ++ x :: post = P0 ++ Q0 /\ it_addr <$> last P0 = it_addr <$> last P /\
    lastaddr hd P0 = lastaddr hd P /\ hgt lvl P0 = hgt lvl P /\ (forall i, link i Q0 = link i Q).
Proof.
  intros Hh Ha [(q & -> & ->)|(P' & -> & ->)]%mid_split.
  - exists P, (q ++ x :: post). rewrite <- app_assoc. repeat split. intros i. by apply link_shape.
  - exists (pre ++ x :: P'), Q. rewrite <- app_assoc. unfold lastaddr, hgt.
    destruct P' as [|y P']; [by rewrite !last_snoc; cbn; rewrite Ha, Hh|by rewrite !last_app_cons].
Qed.

(** Writing the score of a node in place. *)
Lemma setScore_rep sl items pre x post s :
  rep sl items -> items = pre ++ x :: post ->
  exists H', setScore (sl_heap sl) (it_addr x) s = Some H' /\
    rep (mkSkipList H' (sl_head sl) (sl_tail sl) (sl_length sl) (sl_level sl))
      (pre ++ mkItem (it_addr x) (it_h x) (it_key x) s :: post).
Proof.
  intros Hrep E. pose proof (rep_nodup _ _ Hrep) as Hnd.
  set (x' := mkItem (it_addr x) (it_h x) (it_key x) s).
  destruct (setScore_spec (sl_heap sl) (it_addr x) _ _ _ _ s (rep_node _ _ Hrep pre x post E))
    as (H' & EH & L & F & G).
  exists H'. split; [done|]. destruct Hrep as [R1 R2 R3 R4 R5 R6 R7 R8 R9].
  split; cbn [sl_heap sl_head sl_tail sl_length sl_level].
  - rewrite F, decide_False; [done|]. intros Hh. rewrite E in Hnd.
    apply NoDup_cons in Hnd as [Hnd _]. apply Hnd. rewrite Hh.
    apply list_elem_of_In, in_map, in_or_app. right. by left.
  - intros i lv. rewrite G. apply R2.
  - intros P it Q EP. rewrite F.
    destruct (mid_split_cons _ _ _ _ _ _ EP) as [(q & Ep & ->)|[(-> & -> & ->)|(P' & -> & Ep)]].
    + assert (Ei : items = P ++ it :: q ++ x :: post) by (by rewrite E, Ep, <- app_assoc).
      rewrite decide_False; [by apply (R3 P it _ Ei)|]. intros Ha.
      destruct (addr_inj _ _ _ _ _ _ _ _ Hnd Ei E Ha) as [Hp _].
      apply (f_equal length) in Hp, Ep. rewrite length_app in Ep. cbn in Ep. lia.
    + by rewrite decide_True by done.
    + assert (Ei : items = (pre ++ x :: P') ++ it :: Q) by (by rewrite E, Ep, <- app_assoc).
      rewrite decide_False.
      * rewrite (R3 _ it Q Ei). do 2 f_equal.
        destruct P' as [|y P']; [by rewrite !last_snoc|by rewrite !last_app_cons].
      * intros Ha. destruct (addr_inj _ _ _ _ _ _ _ _ Hnd Ei E Ha) as [Hp _].
        apply (f_equal length) in Hp. rewrite length_app in Hp. cbn in Hp. lia.
  - intros P Q i EP Hi. rewrite G.
    destruct (rescored_split (sl_head sl) (sl_level sl) pre x x' post P Q eq_refl eq_refl EP)
      as (P0 & Q0 & Ei & _ & <- & Hh & <-).
    rewrite <- E in Ei. apply R4; [done|]. by rewrite Hh.
  - rewrite E in R5. rewrite map_app in *. done.
  - rewrite E in R6. apply Forall_app in R6 as [R61 R62]. apply Forall_app. split; [done|].
    apply Forall_cons in R62 as [? ?]. by constructor.
  - done.
  - rewrite R8, E. destruct post as [|y q]; [by rewrite !last_snoc|by rewrite !last_app_cons].
  - rewrite R9, E, !zlen_app. done.
Qed.

(** The neighbours [UpdateScore] looks at decide the place of the new score. *)
Lemma neighbours_before l e :
  sorted l -> numbers l -> is_num e ->
  (forall y, last l = Some y -> fltb y.1 e.1 = true) -> Forall (fun x => mbefore x e = true) l.
Proof.
  intros Hs Hn He Hl. destruct (list_snoc l) as [->|(p & y & ->)]; [constructor|].
  rewrite last_snoc in Hl. specialize (Hl y eq_refl). apply Forall_app in Hn as [Hn Hy].
  apply Forall_cons in Hy as [Hy _]. apply StronglySorted_app in Hs as (Hc & _ & _).
  assert (Hye : mbefore y e = true) by (unfold mbefore, beforeb; by rewrite Hl).
  apply Forall_app. split; [|by constructor].
  apply List.Forall_forall. intros x Hx. pose proof (proj1 (List.Forall_forall _ _) Hn x Hx) as Hnx.
  apply (before_mono e x y); try done. apply Hc; [by apply list_elem_of_In|by left].
Qed.

Lemma neighbours_after l e :
  sorted l -> numbers l -> is_num e ->
  (forall y, hd_error l = Some y -> fltb e.1 y.1 = true) -> Forall (fun x => mbefore x e = false) l.
Proof.
  intros Hs Hn He Hl. destruct l as [|y l]; [constructor|]. specialize (Hl y eq_refl).
  apply Forall_cons in Hn as [Hy Hn]. apply StronglySorted_cons in Hs as [Hc _].
  assert (Hye : mbefore y e = false).
  { apply mbefore_asym; [done|done|]. unfold mbefore, beforeb. by rewrite Hl. }
  constructor; [done|]. apply List.Forall_forall. intros x Hx.
  rewrite List.Forall_forall in Hc, Hn. apply (mle_trans e y x); [done|done|by apply Hn|done|by apply Hc].
Qed.

Lemma backward_score sl items pre post (f : float64 -> bool) :
  rep sl items -> items = pre ++ post ->
  match it_addr <$> last pre with
  | None => Some true
  | Some b => nb ← sl_heap sl !! b; Some (f (Score nb))
  end = Some (match last pre with None => true | Some y => f (it_score y) end).
Proof.
  intros Hrep E. destruct (list_snoc pre) as [->|(p & y & ->)]; [done|].
  rewrite last_snoc. cbn [fmap option_fmap option_map]. rewrite <- app_assoc in E.
  destruct (rep_lookup sl items Hrep p y post E) as (n & -> & _ & Hs & _). cbn. by rewrite Hs.
Qed.

Lemma forward_score sl items pre post (f : float64 -> bool) :
  rep sl items -> items = pre ++ post ->
  match it_addr <$> hd_error post with
  | None => Some true
  | Some b => nb ← sl_heap sl !! b; Some (f (Score nb))
  end = Some (match hd_error post with None => true | Some y => f (it_score y) end).
Proof.
  intros Hrep E. destruct post as [|y post]; [done|]. cbn [hd_error fmap option_fmap option_map].
  destruct (rep_lookup sl items Hrep pre y post E) as (n & -> & _ & Hs & _). cbn. by rewrite Hs.
Qed.

(** In place: the neighbours keep the order. *)
Lemma update_in_place sl items pre x post newScore :
  ok sl items -> items = pre ++ x :: post -> is_nan newScore = false ->
  match last pre with None => true | Some y => fltb (it_score y) newScore end = true ->
  match hd_error post with None => true | Some y => fltb newScore (it_score y) end = true ->
  exists H', setScore (sl_heap sl) (it_addr x) newScore = Some H' /\
    ok (mkSkipList H' (sl_head sl) (sl_tail sl) (sl_length sl) (sl_level sl))
      (pre ++ mkItem (it_addr x) (it_h x) (it_key x) newScore :: post) /\
    place (newScore, it_key x) (view <$> pre ++ post) =
      view <$> pre ++ mkItem (it_addr x) (it_h x) (it_key x) newScore :: post.
Proof.
  intros Hok E Hn Hb Hf.
  destruct (setScore_rep sl items pre x post newScore (ok_rep _ _ Hok) E) as (H' & EH & R).
  pose proof (ok_sorted _ _ Hok) as Hs. pose proof (ok_num _ _ Hok) as Hnu.
  rewrite E, fmap_app in Hs, Hnu. cbn in Hs, Hnu.
  destruct (sorted_remove _ _ _ Hs Hnu) as [Hs' Hnu'].
  assert (B1 : Forall (fun y => mbefore y (newScore, it_key x) = true) (view <$> pre)).
  { apply StronglySorted_app in Hs' as (_ & ? & _). apply Forall_app in Hnu' as [? _].
    apply neighbours_before; try done. intros y. rewrite fmap_last.
    destruct (last pre); cbn; [|done]. by intros [= <-]. }
  assert (B2 : Forall (fun y => mbefore y (newScore, it_key x) = false) (view <$> post)).
  { apply StronglySorted_app in Hs' as (_ & _ & ?). apply Forall_app in Hnu' as [_ ?].
    apply neighbours_after; try done. intros y. destruct post; cbn; [done|]. by intros [= <-]. }
  exists H'. split; [done|]. split.
  - destruct (sorted_insert (newScore, it_key x) _ _ Hs' Hnu' Hn B1 B2) as [Hs2 Hn2].
    split; [done| |by rewrite fmap_app|by rewrite fmap_app].
    destruct (ok_tight _ _ Hok) as [Ht|Ht]; [by left|right]. rewrite E in Ht. cbn [sl_level].
    apply Exists_app in Ht as [Ht|Ht]; apply Exists_app; [by left|right].
    apply Exists_cons in Ht as [Ht|Ht]; [by left|by right].
  - rewrite !fmap_app. cbn. by apply place_app.
Qed.

Lemma UpdateScore_ok sl items flip cur key newScore :
  ok sl items -> is_nan cur = false -> is_nan newScore = false ->
  (exists sl' pre x post p x' q,
     items = pre ++ x :: post /\ msame (view x) (cur, key) = true /\
     UpdateScore sl flip cur key newScore = Some (sl', Some (it_addr x')) /\
     pre ++ post = p ++ q /\ view x' = (newScore, key) /\ ok sl' (p ++ x' :: q) /\
     view <$> p ++ x' :: q = place (newScore, key) (discard (cur, key) (view <$> items))) \/
  (UpdateScore sl flip cur key newScore = Some (sl, None) /\
     Forall (fun x => msame x (cur, key) = false) (view <$> items)).
Proof.
  intros Hok Hc Hn. destruct (ok_cut sl items cur key Hok Hc) as (pre & post & E & Hcut & H1 & H2).
  pose proof (ok_rep _ _ Hok) as Hrep. unfold UpdateScore.
  destruct (descend_from_head sl items Hrep _ pre post E Hcut) as (us & -> & Hl & Hus).
  cbn [mbind option_bind]. rewrite (ok_next sl items pre post Hok E). cbn [mbind option_bind forward].
  pose proof (ok_sorted _ _ Hok) as Hso. pose proof (ok_num _ _ Hok) as Hnu.
  rewrite E, fmap_app in Hso, Hnu. pose proof Hso as Hso'. pose proof Hnu as Hnu'.
  apply StronglySorted_app in Hso as (_ & Hs1 & Hs2). apply Forall_app in Hnu as [Hn1 Hn2].
  pose proof (before_not_same (cur, key) _ Hn1 Hc H1) as Hpre.
  destruct post as [|x post]; cbn [hd_error fmap option_fmap option_map].
  { right. split; [done|]. by rewrite E, app_nil_r. }
  destruct (rep_lookup sl items Hrep pre x post E) as (n & -> & Hk & Hsc & Hb & _).
  cbn [mbind option_bind]. rewrite Hsc, Hk, <- negb_andb.
  change (feqb (it_score x) cur && bool_decide (it_key x = key)) with (msame (view x) (cur, key)).
  destruct (msame (view x) (cur, key)) eqn:Em; cbn [negb]; last first.
  { right. split; [done|]. rewrite E, fmap_app. apply Forall_app. split; [done|].
    apply not_same_rest; try done. by intros y [= <-]. }
  left. assert (E' : items = (pre ++ [x]) ++ post) by (by rewrite <- app_assoc).
  assert (Ek : it_key x = key) by (apply andb_true_iff in Em as [_ Em]; by apply bool_decide_eq_true in Em).
  assert (Ed : discard (cur, key) (view <$> items) = view <$> pre ++ post).
  { rewrite E, !fmap_app. cbn. by apply discard_app. }
  rewrite Hb, (backward_score sl items pre (x :: post) (fun s => fltb s newScore) Hrep E).
  pose proof (ok_next sl items (pre ++ [x]) post Hok E') as Hx. rewrite lastaddr_snoc in Hx.
  rewrite Hx. cbn [mbind option_bind forward].
  rewrite (forward_score sl items (pre ++ [x]) post (fun s => fltb newScore s) Hrep E').
  cbn [mbind option_bind].
  destruct (match last pre with None => true | Some _ => _ end) eqn:Eb; cbn [andb];
    [destruct (match hd_error post with None => true | Some _ => _ end) eqn:Ef|].
  { destruct (update_in_place sl items pre x post newScore Hok E Hn Eb Ef) as (H' & -> & Hok' & Hp).
    cbn [mbind option_bind]. eexists _, pre, x, post, pre, (mkItem (it_addr x) (it_h x) (it_key x) newScore), post.
    split; [done|]. split; [done|]. split; [reflexivity|]. split; [done|].
    split; [by unfold view; cbn; rewrite Ek|]. split; [done|]. by rewrite Ed, <- Hp, Ek. }
  all: destruct (deleteNode_ok sl items pre x post us Hok E Hl Hus) as (sl1 & -> & Hok1 & _);
    cbn [mbind option_bind];
    destruct (Insert_ok sl1 (pre ++ post) flip newScore key Hok1 Hn) as (sl' & p & q & -> & Epq & Hok' & Hp);
    cbn [mbind option_bind];
    eexists sl', pre, x, post, p, (mkItem (length (sl_heap sl1)) (randomLevel flip) key newScore), q;
    split; [done|]; split; [done|]; split; [reflexivity|]; split; [done|];
    split; [done|]; split; [done|]; by rewrite Ed, <- Hp.
Qed.

(** ** Score ranges *)

Lemma gteMin_mono sr a b :
  is_nan a = false -> is_nan b = false -> fltb b a = false -> gteMin sr a = true -> gteMin sr b = true.
Proof.
  intros Ha Hb Hab. unfold gteMin. destruct (is_nan (Min sr)) eqn:Hm.
  - by rewrite fltb_nan_l, fleb_nan_l by done; destruct (MinExclusive sr).
  - rewrite !fleb_fltb by done. destruct (MinExclusive sr).
    + intros H. by apply (fltb_le_trans _ a).
    + rewrite !negb_true_iff. intros H. by apply (fle_trans _ a).
Qed.

Lemma lteMax_mono sr a b :
  is_nan a = false -> is_nan b = false -> fltb b a = false -> lteMax sr b = true -> lteMax sr a = true.
Proof.
  intros Ha Hb Hab. unfold lteMax. destruct (is_nan (Max sr)) eqn:Hm.
  - by rewrite fltb_nan_r, fleb_nan_r by done; destruct (MaxExclusive sr).
  - rewrite !fleb_fltb by done. destruct (MaxExclusive sr).
    + intros H. by apply (fle_lt_trans _ b).
    + rewrite !negb_true_iff. intros H. by apply (fle_trans _ b).
Qed.

Lemma containsScore_empty sr s :
  fltb (Max sr) (Min sr) || (feqb (Min sr) (Max sr) && (MinExclusive sr || MaxExclusive sr)) = true ->
  is_nan s = false -> containsScore sr s = false.
Proof.
  intros He Hs. apply not_true_iff_false. unfold containsScore. rewrite andb_true_iff. intros [H1 H2].
  destruct (is_nan (Min sr)) eqn:Hmin.
  { unfold gteMin in H1. rewrite fltb_nan_l, fleb_nan_l in H1 by done. by destruct (MinExclusive sr). }
  destruct (is_nan (Max sr)) eqn:Hmax.
  { unfold lteMax in H2. rewrite fltb_nan_r, fleb_nan_r in H2 by done. by destruct (MaxExclusive sr). }
  assert (L1 : fltb s (Min sr) = false).
  { unfold gteMin in H1. rewrite fleb_fltb in H1 by done. destruct (MinExclusive sr).
    - destruct (f_trichotomy s (Min sr) Hs Hmin) as [(?&?&?)|[(?&?&?)|(?&?&?)]]; congruence.
    - by apply negb_true_iff. }
  assert (L2 : fltb (Max sr) s = false).
  { unfold lteMax in H2. rewrite fleb_fltb in H2 by done. destruct (MaxExclusive sr).
    - destruct (f_trichotomy s (Max sr) Hs Hmax) as [(?&?&?)|[(?&?&?)|(?&?&?)]]; congruence.
    - by apply negb_true_iff. }
  apply orb_true_iff in He as [He|[He Hx]%andb_true_iff].
  - rewrite (fle_trans _ s _ Hmin Hs Hmax L1 L2) in He. done.
  - unfold gteMin, lteMax in H1, H2. destruct (MinExclusive sr).
    + rewrite (feqb_fltb_l (Min sr) (Max sr)) in H1 by done. congruence.
    + cbn in Hx. rewrite Hx in H2. rewrite <- (feqb_fltb_r (Min sr) (Max sr)) in H2 by done. congruence.
Qed.

(** ** Queries *)

(** The member at a position; the head counts as the empty key with score 0. *)
Definition lastmember (p : list item) : member :=
  match last p with None => (fzero, EmptyString) | Some it => view it end.

Lemma lastmember_lookup sl items p q :
  rep sl items -> items = p ++ q ->
  exists n, sl_heap sl !! lastaddr (sl_head sl) p = Some n /\ (Score n, Key n) = lastmember p.
Proof.
  intros Hrep E. unfold lastmember. destruct (list_snoc p) as [->|(p' & x & ->)].
  - pose proof (rep_head _ _ Hrep) as (n & Hn & Hk & Hs & _)%fields_Some.
    exists n. cbn. by rewrite Hk, Hs.
  - rewrite lastaddr_snoc, last_snoc. rewrite <- app_assoc in E.
    destruct (rep_lookup sl items Hrep p' x q E) as (n & Hn & Hk & Hs & _).
    exists n. unfold view. by rewrite Hk, Hs.
Qed.

Section queries.
Context (sl : SkipList) (items : list item) (Hok : ok sl items).

Lemma walk_ok go pre post i p q :
  items = pre ++ post -> cut go pre post -> pre = p ++ q -> (i < hgt (sl_level sl) p)%nat ->
  exists p' q', pre = p' ++ q' /\ (i < hgt (sl_level sl) p')%nat /\ (i = 0%nat -> q' = []) /\
    walk (fuel_of sl) (sl_heap sl) go i (lastaddr (sl_head sl) p) (zlen p) =
      Some (lastaddr (sl_head sl) p', zlen p').
Proof.
  intros E Hc Ep Hi. pose proof (ok_rep _ _ Hok) as Hrep.
  destruct (walk_spec sl items Hrep go pre post i E Hc (fuel_of sl) q p Ep Hi)
    as (p' & q' & E' & Hi' & Hs & Hw).
  - pose proof (items_fuel sl items Hrep) as Hf. unfold fuel_of.
    rewrite E, Ep, !length_app in Hf. lia.
  - exists p', q'. split; [done|]. split; [done|]. split; [|done]. intros ->.
    apply (short_0 sl items Hrep p' q' post); [by rewrite E, E', <- app_assoc|done].
Qed.

(** *** Rank to node *)

Lemma getByRank_loop_spec pre post rank :
  items = pre ++ post -> rank = zlen pre ->
  forall i p q, (1 <= i)%nat -> pre = p ++ q -> (i <= hgt (sl_level sl) p)%nat ->
  getByRank_loop (fuel_of sl) (sl_heap sl) rank i (lastaddr (sl_head sl) p) (zlen p) =
    Some (Some (lastaddr (sl_head sl) pre)).
Proof.
  intros E Hr. assert (Hc : cut (go_rank rank) pre post).
  { split; intros a it b Eq; unfold go_rank; pose proof (zlen_nonneg a); pose proof (zlen_nonneg b).
    - apply Z.leb_le. rewrite Hr, Eq, zlen_app. unfold zlen in *. cbn [length]. lia.
    - apply Z.leb_gt. lia. }
  induction i as [|i IH]; intros p q Hi Ep Hh; [lia|]. cbn [getByRank_loop].
  destruct (walk_ok _ pre post i p q E Hc Ep) as (p' & q' & E' & Hi' & H0 & ->); [lia|].
  cbn [mbind option_bind]. destruct (Z.eqb_spec (zlen p') rank) as [He|He].
  - assert (q' = []) as ->.
    { apply zlen_zero. rewrite Hr, E', zlen_app in He. lia. }
    by rewrite E', app_nil_r.
  - apply (IH p' q'); [|done|lia]. destruct i; [|lia].
    rewrite H0, app_nil_r in E' by done. subst p'. congruence.
Qed.

Lemma GetByRank_ok rank :
  GetByRank sl rank = Some (it_addr <$> (if decide (1 <= rank) then items !! Z.to_nat (rank - 1) else None)).
Proof.
  pose proof (ok_rep _ _ Hok) as Hrep. unfold GetByRank. rewrite (rep_len _ _ Hrep).
  destruct (Z.leb_spec rank 0) as [H0|H0]; cbn [orb].
  { by rewrite decide_False by lia. }
  rewrite decide_True by lia. destruct (Z.ltb_spec (zlen items) rank) as [Hl|Hl].
  { by rewrite lookup_ge_None_2 by (unfold zlen in Hl; lia). }
  pose proof (rep_level _ _ Hrep) as Hlev.
  destruct (lookup_lt_is_Some_2 items (Z.to_nat (rank - 1))) as [it Hit];
    [unfold zlen in Hl; lia|].
  rewrite Hit. destruct (list_elem_of_split_length _ _ _ Hit) as (p & q & E & Hp).
  pose proof (getByRank_loop_spec (p ++ [it]) q rank) as Hg. rewrite <- app_assoc in Hg.
  specialize (Hg E). rewrite lastaddr_snoc in Hg.
  apply (Hg ltac:(rewrite zlen_app; unfold zlen; cbn; lia) (sl_level sl) [] (p ++ [it]));
    [lia|done|done].
Qed.

(** *** Node to rank *)

Lemma go_le_before score key k s r :
  is_nan score = false -> is_nan s = false ->
  go_le score key k s r = negb (mbefore (score, key) (s, k)).
Proof.
  intros H1 H2. unfold go_le, mbefore, beforeb. cbn [fst snd]. rewrite (feqb_sym score s) by done.
  rewrite (scompare_opp key k).
  destruct (f_trichotomy s score H2 H1) as [(-> & -> & ->)|[(-> & -> & ->)|(-> & -> & ->)]]; try done.
  cbn. by destruct (scompare k key).
Qed.

Lemma rank_cut score key :
  is_nan score = false ->
  exists pre post, items = pre ++ post /\ cut (go_le score key) pre post /\
    Forall (fun x => mbefore (score, key) x = false) (view <$> pre) /\
    Forall (fun x => mbefore (score, key) x = true) (view <$> post).
Proof.
  intros Hs. pose proof (ok_num _ _ Hok) as Hn.
  destruct (mono_split (fun x => negb (mbefore (score, key) x)) items) as (pre & post & E & H1 & H2).
  - apply (ok_sorted _ _ Hok).
  - done.
  - intros a b Ha Hb Hab. rewrite !negb_true_iff. intros H. by apply (mle_trans a b (score, key)).
  - exists pre, post. split; [done|]. rewrite E, fmap_app in Hn. apply Forall_app in Hn as [N1 N2].
    split; [split|].
    + intros p it q ->. rewrite fmap_app in H1, N1.
      apply (Forall_split_at _ _ (view it)) in H1, N1. by rewrite go_le_before.
    + intros p it q ->. rewrite fmap_app in H2, N2.
      apply (Forall_split_at _ _ (view it)) in H2, N2. by rewrite go_le_before.
    + split; (eapply Forall_impl; [eassumption|]); cbn; intros x; [by intros ?%negb_true_iff|].
      by intros ?%negb_false_iff.
Qed.

Lemma getRank_loop_found pre post score key :
  items = pre ++ post -> cut (go_le score key) pre post ->
  (forall p q, pre = p ++ q -> q <> [] -> msame (lastmember p) (score, key) = false) ->
  msame (lastmember pre) (score, key) = true ->
  forall i p q, (1 <= i)%nat -> pre = p ++ q -> (i <= hgt (sl_level sl) p)%nat ->
  getRank_loop (fuel_of sl) (sl_heap sl) score key i (lastaddr (sl_head sl) p) (zlen p) =
    Some (zlen pre).
Proof.
  intros E Hc Hno Hyes. pose proof (ok_rep _ _ Hok) as Hrep.
  induction i as [|i IH]; intros p q Hi Ep Hh; [lia|]. cbn [getRank_loop].
  destruct (walk_ok _ pre post i p q E Hc Ep) as (p' & q' & E' & Hi' & H0 & ->); [lia|].
  cbn [mbind option_bind].
  destruct (lastmember_lookup sl items p' (q' ++ post) Hrep) as (n & -> & Hm).
  { by rewrite E, E', <- app_assoc. }
  cbn [mbind option_bind]. rewrite andb_comm.
  replace (feqb (Score n) score && bool_decide (Key n = key))
    with (msame (lastmember p') (score, key)) by (by rewrite <- Hm).
  destruct q' as [|y q'].
  - rewrite app_nil_r in E'. subst p'. by rewrite Hyes.
  - rewrite (Hno p' (y :: q') E') by done. apply (IH p' (y :: q')); [|done|lia].
    destruct i; [|lia]. by specialize (H0 eq_refl).
Qed.

Lemma getRank_loop_absent pre post score key :
  items = pre ++ post -> cut (go_le score key) pre post ->
  Forall (fun x => msame x (score, key) = false) (view <$> items) ->
  forall i p q, pre = p ++ q -> (i <= hgt (sl_level sl) p)%nat ->
  getRank_loop (fuel_of sl) (sl_heap sl) score key i (lastaddr (sl_head sl) p) (zlen p) = Some 0.
Proof.
  intros E Hc Hno. pose proof (ok_rep _ _ Hok) as Hrep.
  induction i as [|i IH]; intros p q Ep Hh; [done|]. cbn [getRank_loop].
  destruct (walk_ok _ pre post i p q E Hc Ep) as (p' & q' & E' & Hi' & H0 & ->); [lia|].
  cbn [mbind option_bind].
  destruct (lastmember_lookup sl items p' (q' ++ post) Hrep) as (n & -> & Hm).
  { by rewrite E, E', <- app_assoc. }
  cbn [mbind option_bind]. rewrite andb_comm.
  replace (feqb (Score n) score && bool_decide (Key n = key))
    with (msame (lastmember p') (score, key)) by (by rewrite <- Hm).
  destruct (list_snoc p') as [->|(a & x & ->)].
  - destruct (msame (lastmember []) (score, key)); [done|]. by apply (IH [] q'); [|lia].
  - replace (msame (lastmember (a ++ [x])) (score, key)) with false.
    + by apply (IH (a ++ [x]) q'); [|lia].
    + unfold lastmember. rewrite last_snoc. symmetry.
      rewrite E, E', !fmap_app in Hno. cbn in Hno. rewrite <- !app_assoc in Hno. cbn in Hno.
      by apply (Forall_split_at _ _ (view x)) in Hno.
Qed.

(** The cut of a member that is there once ends at it. *)
Lemma rank_cut_at pre x post score key p q :
  items = pre ++ x :: post -> is_nan score = false -> msame (view x) (score, key) = true ->
  Forall (fun y => msame y (score, key) = false) (view <$> post) ->
  items = p ++ q ->
  Forall (fun y => mbefore (score, key) y = false) (view <$> p) ->
  Forall (fun y => mbefore (score, key) y = true) (view <$> q) ->
  p = pre ++ [x] /\ q = post.
Proof.
  intros E Hs Hx Hrest Epq H1 H2.
  pose proof (ok_sorted _ _ Hok) as Hso. pose proof (ok_num _ _ Hok) as Hnu.
  rewrite E, fmap_app in Hso, Hnu. cbn in Hso, Hnu.
  apply StronglySorted_app in Hso as (_ & _ & Hso). apply StronglySorted_cons in Hso as [Hso _].
  apply Forall_app in Hnu as [_ Hnu]. apply Forall_cons in Hnu as [Hnx Hnp].
  rewrite E in Epq. destruct (mid_split _ _ _ _ _ Epq) as [(k & Ek & ->)|([|y P'] & -> & Ek)].
  - rewrite fmap_app in H2. apply (Forall_split_at _ _ (view x)) in H2.
    destruct (mbefore_trichotomy (view x) (score, key) Hnx Hs)
      as [(? & ? & ?)|[(? & ? & ?)|(? & ? & ?)]]; congruence.
  - done.
  - exfalso. subst post. cbn in Hrest, Hso, Hnp. rewrite fmap_app in H1.
    apply Forall_app in H1 as [_ H1]. cbn in H1.
    apply Forall_cons in H1 as [_ H1]. apply Forall_cons in H1 as [H1 _].
    apply Forall_cons in Hso as [Hso _]. apply Forall_cons in Hrest as [Hrest _].
    apply Forall_cons in Hnp as [Hny _]. unfold mle in Hso.
    rewrite (msame_mbefore_r (view x) (score, key)) in Hso by done.
    destruct (mbefore_trichotomy (view y) (score, key) Hny Hs)
      as [(? & ? & ?)|[(? & ? & ?)|(? & ? & ?)]]; congruence.
Qed.

(** A member that is there once has the rank of its position, unless the
    head passes for it. *)
Lemma GetRank_found pre x post score key :
  items = pre ++ x :: post -> is_nan score = false ->
  msame (view x) (score, key) = true ->
  Forall (fun y => msame y (score, key) = false) (view <$> pre ++ post) ->
  msame (fzero, EmptyString) (score, key) = false ->
  GetRank sl score key = Some (zlen pre + 1).
Proof.
  intros E Hs Hx Hrest Hhd. pose proof (ok_rep _ _ Hok) as Hrep. pose proof (rep_level _ _ Hrep) as Hlev.
  rewrite fmap_app in Hrest. apply Forall_app in Hrest as [Hr1 Hr2].
  destruct (rank_cut score key Hs) as (p & q & Epq & Hc & H1 & H2).
  destruct (rank_cut_at pre x post score key p q E Hs Hx Hr2 Epq H1 H2) as [-> ->].
  replace (zlen pre + 1) with (zlen (pre ++ [x])) by (rewrite zlen_app; done).
  unfold GetRank.
  apply (getRank_loop_found (pre ++ [x]) post score key Epq Hc) with (p := []) (q := pre ++ [x]);
    [|unfold lastmember; by rewrite last_snoc|lia|done|done].
  intros p q Ep Hq. destruct (list_snoc q) as [->|(q' & z & ->)]; [done|].
  rewrite app_assoc in Ep. apply app_inj_tail in Ep as [-> _].
  destruct (list_snoc p) as [->|(a & y & ->)]; [done|].
  unfold lastmember. rewrite last_snoc. rewrite <- app_assoc, fmap_app in Hr1.
  by apply (Forall_split_at _ _ (view y)) in Hr1.
Qed.

Lemma GetRank_absent score key :
  is_nan score = false ->
  Forall (fun y => msame y (score, key) = false) (view <$> items) -> GetRank sl score key = Some 0.
Proof.
  intros Hs Hno. destruct (rank_cut score key Hs) as (p & q & Epq & Hc & H1 & H2).
  unfold GetRank. by apply (getRank_loop_absent p q score key Epq Hc Hno) with (p := []) (q := p).
Qed.

(** *** Ranges and search by key *)

Fixpoint taken (keep : float64 -> Z -> bool) (l : list item) (c : Z) : list item :=
  match l with
  | [] => []
  | it :: r => if keep (it_score it) c then it :: taken keep r (c + 1) else []
  end.

Lemma collect_ok keep post : forall pre fuel c,
  items = pre ++ post -> (length post <= fuel)%nat ->
  collect fuel (sl_heap sl) keep (it_addr <$> hd_error post) c =
    Some (it_addr <$> taken keep post c).
Proof.
  induction post as [|x post IH]; intros pre fuel c E Hf; [by destruct fuel|].
  destruct fuel as [|f]; [cbn in Hf; lia|]. cbn [collect hd_error fmap option_fmap option_map].
  destruct (rep_lookup sl items (ok_rep _ _ Hok) pre x post E) as (n & -> & _ & Hs & _).
  cbn [mbind option_bind taken]. rewrite Hs. destruct (keep (it_score x) c); [|done].
  assert (E' : items = (pre ++ [x]) ++ post) by (by rewrite <- app_assoc).
  pose proof (ok_next sl items _ post Hok E') as Hx. rewrite lastaddr_snoc in Hx. rewrite Hx.
  cbn [mbind option_bind forward].
  rewrite (IH (pre ++ [x]) f (c + 1) E') by (cbn in Hf; lia). done.
Qed.

Lemma taken_take n l : forall c, 0 <= n - c -> taken (fun _ c => c <? n) l c = take (Z.to_nat (n - c)) l.
Proof.
  induction l as [|x l IH]; intros c Hc; cbn [taken]; [by rewrite take_nil|].
  destruct (Z.ltb_spec c n) as [Hlt|Hge].
  - replace (Z.to_nat (n - c)) with (S (Z.to_nat (n - (c + 1)))) by lia. cbn. by rewrite IH by lia.
  - by replace (Z.to_nat (n - c)) with 0%nat by lia.
Qed.

(** The bounds [Range] uses once normalised. *)
Definition lo (start : Z) : Z := Z.max 0 (if start <? 0 then zlen items + start else start).
Definition hi (stop : Z) : Z :=
  Z.min (zlen items - 1) (if stop <? 0 then zlen items + stop else stop).

Lemma Range_ok start stop :
  Range sl start stop =
    Some (it_addr <$> take (Z.to_nat (hi stop - lo start + 1)) (drop (Z.to_nat (lo start)) items)).
Proof.
  pose proof (ok_rep _ _ Hok) as Hrep. unfold Range. rewrite (rep_len _ _ Hrep).
  set (a := if (if start <? 0 then _ else _) <? 0 then 0 else _).
  set (b := if zlen items <=? _ then _ else _).
  assert (Ha : a = lo start) by (unfold a, lo; destruct (Z.ltb_spec start 0); zb; lia).
  assert (Hb : b = hi stop) by (unfold b, hi; destruct (Z.ltb_spec stop 0); zb; lia).
  rewrite Ha, Hb. clear a b Ha Hb.
  destruct (Z.ltb_spec (hi stop) (lo start)) as [Hlt|Hge].
  { replace (Z.to_nat (hi stop - lo start + 1)) with 0%nat by lia. done. }
  assert (Hlo : 0 <= lo start) by (unfold lo; lia).
  assert (Hhi : hi stop < zlen items) by (unfold hi; lia).
  rewrite GetByRank_ok, decide_True by lia. cbn [mbind option_bind].
  replace (Z.to_nat (lo start + 1 - 1)) with (Z.to_nat (lo start)) by lia.
  destruct (lookup_lt_is_Some_2 items (Z.to_nat (lo start))) as [x Hx]; [unfold zlen in *; lia|].
  rewrite Hx. cbn [fmap option_fmap option_map].
  rewrite (drop_S _ _ _ Hx).
  pose proof (take_drop_middle items (Z.to_nat (lo start)) x Hx) as E. symmetry in E.
  pose proof (collect_ok (fun _ c => c <? hi stop - lo start + 1) (x :: drop (S (Z.to_nat (lo start))) items)
                _ (fuel_of sl) 0 E) as Hcol.
  cbn [hd_error fmap option_fmap option_map] in Hcol. rewrite Hcol.
  - rewrite taken_take by lia. by rewrite Z.sub_0_r.
  - pose proof (items_fuel sl items Hrep). unfold fuel_of. cbn [length]. rewrite length_drop. lia.
Qed.

Lemma taken_filter sr l : forall c,
  sorted (view <$> l) -> numbers (view <$> l) ->
  Forall (fun x => gteMin sr x.1 = true) (view <$> l) ->
  taken (fun s _ => lteMax sr s) l c = List.filter (fun it => containsScore sr (it_score it)) l.
Proof.
  induction l as [|x l IH]; intros c Hs Hn Hg; [done|]. cbn in Hs, Hn, Hg |- *.
  apply StronglySorted_cons in Hs as [Hx Hs]. apply Forall_cons in Hn as [Hnx Hn].
  apply Forall_cons in Hg as [Hgx Hg]. unfold containsScore at 1. cbn in Hgx. rewrite Hgx. cbn [andb].
  destruct (lteMax sr (it_score x)) eqn:El; [by rewrite IH|].
  symmetry. apply filter_never. clear IH. rewrite Forall_fmap in *.
  apply List.Forall_forall. intros y Hy. rewrite List.Forall_forall in Hx, Hn.
  specialize (Hx y Hy). specialize (Hn y Hy). cbn in Hx, Hn.
  unfold containsScore. destruct (lteMax sr (it_score y)) eqn:Ey; [|by rewrite andb_false_r].
  rewrite (lteMax_mono sr (it_score x) (it_score y)) in El; try done.
  by apply (mle_score (view x) (view y)).
Qed.

Lemma inRange_ok sr :
  exists b, inRange sl sr = Some b /\
    (b = false -> Forall (fun it => containsScore sr (it_score it) = false) items).
Proof.
  pose proof (ok_rep _ _ Hok) as Hrep. pose proof (ok_num _ _ Hok) as Hn.
  pose proof (ok_sorted _ _ Hok) as Hs. unfold numbers in Hn. rewrite Forall_fmap in Hn.
  unfold inRange. destruct (_ || _) eqn:He.
  { exists false. split; [done|]. intros _. eapply Forall_impl; [exact Hn|].
    intros it Hit. by apply containsScore_empty. }
  rewrite (rep_tail _ _ Hrep). destruct (list_snoc items) as [E|(p & t & E)].
  { exists false. rewrite E. split; [done|constructor]. }
  assert (Hlast : last items = Some t) by (rewrite E; apply last_snoc).
  rewrite Hlast. cbn [fmap option_fmap option_map].
  destruct (rep_lookup sl items Hrep p t [] E) as (nt & -> & _ & Hst & _).
  cbn [mbind option_bind]. rewrite Hst. rewrite E, fmap_app in Hs. cbn in Hs.
  apply StronglySorted_app in Hs as (Hs & _ & _).
  assert (Hnt : is_num (view t)) by (rewrite E in Hn; by apply (Forall_split_at _ p t []) in Hn).
  destruct (gteMin sr (it_score t)) eqn:Eg; cbn [negb]; last first.
  { exists false. split; [done|]. intros _. apply List.Forall_forall. intros y Hy.
    pose proof (proj1 (List.Forall_forall _ _) Hn y Hy) as Hny. cbn in Hny.
    unfold containsScore. destruct (gteMin sr (it_score y)) eqn:Ey; [|done].
    rewrite E in Hy. apply in_app_iff in Hy as [Hy|[->|[]]]; [|congruence].
    rewrite (gteMin_mono sr (it_score y) (it_score t)) in Eg; try done.
    apply (mle_score (view y) (view t)); [done|done|].
    apply Hs; [by apply list_elem_of_In, in_map|by left]. }
  pose proof (ok_next sl items [] items Hok eq_refl) as Hf. rewrite lastaddr_nil in Hf. rewrite Hf.
  cbn [mbind option_bind forward].
  assert (Hhd : exists x r, items = x :: r) by (rewrite E; destruct p; cbn; eauto).
  destruct Hhd as (x & r & Ei).
  destruct (rep_lookup sl items Hrep [] x r Ei) as (nf & Hnf & _ & Hsf & _).
  assert (Hhd : hd_error items = Some x) by (by rewrite Ei). rewrite Hhd.
  cbn [fmap option_fmap option_map]. rewrite Hnf.
  cbn [mbind option_bind]. rewrite Hsf. exists (lteMax sr (it_score x)). split; [done|].
  intros El. pose proof (ok_sorted _ _ Hok) as Hs2. rewrite Ei in Hs2, Hn |- *.
  apply StronglySorted_cons in Hs2 as [Hx _].
  apply (proj1 (Forall_fmap _ _ _)) in Hx. apply Forall_cons in Hn as [Hnx Hn].
  constructor; [unfold containsScore; by rewrite El, andb_false_r|].
  apply List.Forall_forall. intros y Hy. rewrite List.Forall_forall in Hx, Hn.
  specialize (Hx y Hy). specialize (Hn y Hy). cbn in Hx, Hn.
  unfold containsScore. destruct (lteMax sr (it_score y)) eqn:Ey; [|by rewrite andb_false_r].
  rewrite (lteMax_mono sr (it_score x) (it_score y)) in El; try done.
  by apply (mle_score (view x) (view y)).
Qed.

Lemma RangeByScore_ok sr :
  RangeByScore sl sr =
    Some (it_addr <$> List.filter (fun it => containsScore sr (it_score it)) items).
Proof.
  pose proof (ok_rep _ _ Hok) as Hrep. unfold RangeByScore.
  destruct (inRange_ok sr) as ([] & -> & Hno); cbn [mbind option_bind negb]; last first.
  { by rewrite filter_never by (by apply Hno). }
  destruct (mono_split (fun x => negb (gteMin sr x.1)) items) as (pre & post & E & H1 & H2).
  - apply (ok_sorted _ _ Hok).
  - apply (ok_num _ _ Hok).
  - intros a b Ha Hb Hab. rewrite !negb_true_iff. intros H. apply not_true_iff_false. intros H'.
    rewrite (gteMin_mono sr a.1 b.1) in H; try done. by apply mle_score.
  - assert (Hc : cut (go_min sr) pre post) by (by apply (cut_of_Forall _ (fun x => negb (gteMin sr x.1)))).
    destruct (descend_from_head sl items Hrep _ pre post E Hc) as (us & -> & _ & _).
    cbn [mbind option_bind]. rewrite (ok_next sl items pre post Hok E). cbn [mbind option_bind forward].
    pose proof (items_fuel sl items Hrep) as Hf.
    rewrite (collect_ok _ post pre) by (done || (unfold fuel_of; rewrite E, length_app in Hf; lia)).
    do 2 f_equal. rewrite E, List.filter_app, filter_never; cbn [app].
    + pose proof (ok_sorted _ _ Hok) as Hs. pose proof (ok_num _ _ Hok) as Hn.
      rewrite E, fmap_app in Hs, Hn. apply StronglySorted_app in Hs as (_ & _ & Hs).
      apply Forall_app in Hn as [_ Hn]. apply taken_filter; [done|done|].
      eapply Forall_impl; [exact H2|]. by intros x ?%negb_false_iff.
    + rewrite Forall_fmap in H1. eapply Forall_impl; [exact H1|]. cbn. intros x Hx.
      apply negb_true_iff in Hx. unfold containsScore. by rewrite Hx.
Qed.

Lemma search_loop_ok key post : forall pre fuel,
  items = pre ++ post -> (length post <= fuel)%nat ->
  search_loop fuel (sl_heap sl) key (it_addr <$> hd_error post) =
    Some (it_addr <$> List.find (fun it => bool_decide (it_key it = key)) post).
Proof.
  induction post as [|x post IH]; intros pre fuel E Hf; [by destruct fuel|].
  destruct fuel as [|f]; [cbn in Hf; lia|]. cbn [search_loop hd_error fmap option_fmap option_map].
  destruct (rep_lookup sl items (ok_rep _ _ Hok) pre x post E) as (n & -> & Hk & _).
  cbn [mbind option_bind List.find]. rewrite Hk.
  destruct (decide (it_key x = key)) as [->|Hne].
  - by rewrite bool_decide_eq_true_2.
  - rewrite bool_decide_eq_false_2 by done.
    assert (E' : items = (pre ++ [x]) ++ post) by (by rewrite <- app_assoc).
    pose proof (ok_next sl items _ post Hok E') as Hx. rewrite lastaddr_snoc in Hx. rewrite Hx.
    cbn [mbind option_bind forward]. apply (IH (pre ++ [x])); [done|cbn in Hf; lia].
Qed.

Lemma Search_ok key :
  Search sl key = Some (it_addr <$> List.find (fun it => bool_decide (it_key it = key)) items).
Proof.
  pose proof (ok_rep _ _ Hok) as Hrep. unfold Search.
  pose proof (ok_next sl items [] items Hok eq_refl) as Hf. rewrite lastaddr_nil in Hf. rewrite Hf.
  cbn [mbind option_bind forward]. apply (search_loop_ok key items []); [done|].
  pose proof (items_fuel sl items Hrep). unfold fuel_of. lia.
Qed.
End queries.

Lemma skiplist_New_ok : ok New [].
Proof.
  split; [|by left|constructor|constructor].
  split; unfold New; cbn [sl_heap sl_head sl_tail sl_length sl_level].
  - done.
  - intros i lv _. change (getL _ 0 i) with (replicate maxLevel (mkLevel None 0) !! i).
    by intros [-> _]%lookup_replicate.
  - by intros [|].
  - intros [|y pre] post i E Hi; [|done]. cbn in E, Hi. subst post. by replace i with 0%nat by lia.
  - repeat constructor. by intros H%elem_of_nil.
  - constructor.
  - unfold maxLevel. lia.
  - done.
  - done.
Qed.

(** ** The operations as a whole *)

Inductive slop :=
  | OInsert (flip : nat -> bool) (score : float64) (key : string)
  | ODelete (score : float64) (key : string)
  | OUpdateScore (flip : nat -> bool) (cur : float64) (key : string) (new : float64)
  | OLen
  | OSearch (key : string)
  | OGetByRank (rank : Z)
  | ORange (start stop : Z)
  | ORangeByScore (sr : ScoreRange).

Inductive slobs :=
  | RMember (m : option member)
  | RBool (b : bool)
  | RInt (n : Z)
  | RMembers (l : list member).

Definition memberAt (sl : SkipList) (a : nat) : option member :=
  n ← sl_heap sl !! a; Some (Score n, Key n).

Definition seen (sl : SkipList) (a : option nat) : option (option member) :=
  match a with
  | None => Some None
  | Some a => m ← memberAt sl a; Some (Some m)
  end.

Definition slstep (sl : SkipList) (op : slop) : option (SkipList * slobs) :=
  match op with
  | OInsert flip s k => '(sl', a) ← Insert sl flip s k; m ← seen sl' (Some a); Some (sl', RMember m)
  | ODelete s k => '(sl', b) ← Delete sl s k; Some (sl', RBool b)
  | OUpdateScore flip c k s =>
      '(sl', a) ← UpdateScore sl flip c k s; m ← seen sl' a; Some (sl', RMember m)
  | OLen => Some (sl, RInt (Len sl))
  | OSearch k => a ← Search sl k; m ← seen sl a; Some (sl, RMember m)
  | OGetByRank r => a ← GetByRank sl r; m ← seen sl a; Some (sl, RMember m)
  | ORange a b => l ← Range sl a b; ms ← mapM (memberAt sl) l; Some (sl, RMembers ms)
  | ORangeByScore sr => l ← RangeByScore sl sr; ms ← mapM (memberAt sl) l; Some (sl, RMembers ms)
  end.

(** The same operations on a list of members. *)
Definition has (e : member) (l : list member) : bool := existsb (fun x => msame x e) l.

Definition between (l : list member) (start stop : Z) : list member :=
  let a := Z.max 0 (if start <? 0 then zlen l + start else start) in
  let b := Z.min (zlen l - 1) (if stop <? 0 then zlen l + stop else stop) in
  take (Z.to_nat (b - a + 1)) (drop (Z.to_nat a) l).

Definition lstep (l : list member) (op : slop) : list member * slobs :=
  match op with
  | OInsert _ s k => (place (s, k) l, RMember (Some (s, k)))
  | ODelete s k => (discard (s, k) l, RBool (has (s, k) l))
  | OUpdateScore _ c k s =>
      if has (c, k) l then (place (s, k) (discard (c, k) l), RMember (Some (s, k)))
      else (l, RMember None)
  | OLen => (l, RInt (zlen l))
  | OSearch k => (l, RMember (List.find (fun m => bool_decide (m.2 = k)) l))
  | OGetByRank r => (l, RMember (if decide (1 <= r) then l !! Z.to_nat (r - 1) else None))
  | ORange a b => (l, RMembers (between l a b))
  | ORangeByScore sr => (l, RMembers (List.filter (fun m => containsScore sr m.1) l))
  end.

(** The scores an operation brings are numbers. *)
Definition slop_num (op : slop) : Prop :=
  match op with
  | OInsert _ s _ | ODelete s _ => is_nan s = false
  | OUpdateScore _ c _ s => is_nan c = false /\ is_nan s = false
  | _ => True
  end.

Fixpoint slrun (sl : SkipList) (ops : list slop) : option (SkipList * list slobs) :=
  match ops with
  | [] => Some (sl, [])
  | op :: r => '(sl', o) ← slstep sl op; '(sl'', os) ← slrun sl' r; Some (sl'', o :: os)
  end.

Fixpoint lrun (l : list member) (ops : list slop) : list member * list slobs :=
  match ops with
  | [] => (l, [])
  | op :: r => let '(l', o) := lstep l op in let '(l'', os) := lrun l' r in (l'', o :: os)
  end.

Lemma memberAt_ok sl items pre x post :
  ok sl items -> items = pre ++ x :: post -> memberAt sl (it_addr x) = Some (view x).
Proof.
  intros Hok E. unfold memberAt.
  destruct (rep_lookup sl items (ok_rep _ _ Hok) pre x post E) as (n & -> & Hk & Hs & _).
  cbn. by rewrite Hk, Hs.
Qed.

Lemma memberAt_elem sl items x : ok sl items -> x ∈ items -> memberAt sl (it_addr x) = Some (view x).
Proof. intros Hok (p & q & E)%list_elem_of_split. by apply (memberAt_ok sl items p x q). Qed.

Lemma seen_ok sl items (o : option item) :
  ok sl items -> (forall x, o = Some x -> x ∈ items) -> seen sl (it_addr <$> o) = Some (view <$> o).
Proof.
  intros Hok Ho. destruct o as [x|]; [|done]. cbn. rewrite (memberAt_elem sl items x Hok (Ho x eq_refl)).
  done.
Qed.

Lemma members_ok sl items l :
  ok sl items -> l ⊆ items -> mapM (memberAt sl) (it_addr <$> l) = Some (view <$> l).
Proof.
  intros Hok. induction l as [|x l IH]; intros Hl; [done|]. cbn.
  rewrite (memberAt_elem sl items x Hok) by (apply Hl; by left). cbn.
  rewrite IH by (intros y Hy; apply Hl; by right). done.
Qed.

Lemma find_view k items :
  view <$> List.find (fun it => bool_decide (it_key it = k)) items =
  List.find (fun m => bool_decide (m.2 = k)) (view <$> items).
Proof. induction items as [|x l IH]; [done|]. cbn. by destruct (bool_decide _). Qed.

Lemma filter_view sr items :
  view <$> List.filter (fun it => containsScore sr (it_score it)) items =
  List.filter (fun m => containsScore sr m.1) (view <$> items).
Proof. induction items as [|x l IH]; [done|]. cbn. destruct (containsScore _ _); cbn; by rewrite IH. Qed.

Lemma has_false e l : Forall (fun x => msame x e = false) l -> has e l = false.
Proof. intros H. unfold has. induction H as [|x l Hx _ IH]; cbn; [done|by rewrite Hx]. Qed.

Lemma has_true e (p : list member) x q : msame x e = true -> has e (p ++ x :: q) = true.
Proof. intros H. unfold has. rewrite existsb_app. cbn. rewrite H. apply orb_true_r. Qed.

Lemma slstep_ok sl items op :
  ok sl items -> slop_num op ->
  exists sl' items', slstep sl op = Some (sl', (lstep (view <$> items) op).2) /\ ok sl' items' /\
    view <$> items' = (lstep (view <$> items) op).1.
Proof.
  intros Hok Hop. destruct op as [flip s k|s k|flip c k s| |k|r|a b|sr]; cbn [slstep lstep slop_num fst snd] in *.
  - destruct (Insert_ok sl items flip s k Hok Hop) as (sl' & p & q & -> & E & Hok' & Hp).
    eexists sl', _. split; [|split; [exact Hok'|by rewrite Hp]]. cbn [mbind option_bind].
    pose proof (memberAt_ok sl' _ p _ q Hok' eq_refl) as Hm. cbn in Hm |- *. by rewrite Hm.
  - destruct (Delete_ok sl items s k Hok Hop) as [(sl' & p & x & q & E & Hx & -> & Hok' & Hd)|[-> Hno]].
    + exists sl', (p ++ q). cbn. rewrite E, fmap_app at 1. cbn. rewrite has_true by done.
      split; [done|]. by rewrite Hd.
    + exists sl, items. cbn. rewrite has_false, discard_none by done. done.
  - destruct Hop as [Hc Hs].
    destruct (UpdateScore_ok sl items flip c k s Hok Hc Hs)
      as [(sl' & pre & x & post & p & x' & q & E & Hx & -> & _ & Hv & Hok' & Hp)|[-> Hno]].
    + exists sl', (p ++ x' :: q). assert (Hh : has (c, k) (view <$> items) = true).
      { rewrite E, fmap_app. cbn. by apply has_true. }
      rewrite Hh. cbn [mbind option_bind seen fst snd].
      rewrite (memberAt_ok sl' _ p x' q Hok' eq_refl), Hv. done.
    + exists sl, items. rewrite has_false by done. done.
  - exists sl, items. unfold Len. rewrite (rep_len _ _ (ok_rep _ _ Hok)).
    unfold zlen. by rewrite length_fmap.
  - exists sl, items. rewrite (Search_ok sl items Hok). cbn [mbind option_bind].
    rewrite (seen_ok sl items), find_view; [done|done|].
    intros x Hx. apply List.find_some in Hx as [Hx _]. by apply list_elem_of_In.
  - exists sl, items. rewrite (GetByRank_ok sl items Hok). cbn [mbind option_bind].
    rewrite (seen_ok sl items); [|done|].
    + cbn. destruct (decide (1 <= r)); [by rewrite list_lookup_fmap|done].
    + intros x. destruct (decide (1 <= r)); [apply list_elem_of_lookup_2|done].
  - exists sl, items. rewrite (Range_ok sl items Hok). cbn [mbind option_bind].
    rewrite (members_ok sl items _ Hok).
    + cbn. unfold between, zlen. rewrite length_fmap. rewrite fmap_take, fmap_drop. done.
    + intros x Hx. apply elem_of_take in Hx as (i & Hi & _). rewrite lookup_drop in Hi.
      by apply list_elem_of_lookup_2 in Hi.
  - exists sl, items. rewrite (RangeByScore_ok sl items Hok). cbn [mbind option_bind].
    rewrite (members_ok sl items _ Hok).
    + cbn. by rewrite filter_view.
    + intros x Hx. apply list_elem_of_In, List.filter_In in Hx as [Hx _]. by apply list_elem_of_In.
Qed.

Lemma slrun_ok ops : forall sl items,
  ok sl items -> Forall slop_num ops ->
  exists sl' items', slrun sl ops = Some (sl', (lrun (view <$> items) ops).2) /\ ok sl' items' /\
    view <$> items' = (lrun (view <$> items) ops).1.
Proof.
  induction ops as [|op ops IH]; intros sl items Hok Hn; [by exists sl, items|].
  apply Forall_cons in Hn as [Hop Hn].
  destruct (slstep_ok sl items op Hok Hop) as (sl1 & items1 & E1 & Hok1 & V1).
  cbn [slrun lrun]. rewrite E1. cbn [mbind option_bind].
  destruct (IH sl1 items1 Hok1 Hn) as (sl2 & items2 & E2 & Hok2 & V2).
  rewrite E2. cbn [mbind option_bind]. exists sl2, items2.
  rewrite V1 in *. destruct (lstep (view <$> items) op) as [l1 o1]. cbn [fst snd] in *.
  by destruct (lrun l1 ops) as [l2 os].
Qed.

(** ** Theorems *)

(** C16: any sequence of [Insert], [Delete], [UpdateScore] and queries on a new
    skip list, with whatever coin flips and with scores that are not NaN,
    runs without a panic and answers as the same operations on a list sorted
    by score and key; the final store represents that list: its forward
    pointers and spans at every level, its backward pointers, tail, length
    and level are those of the list. *)
Theorem skiplist_refines_list ops :
  Forall slop_num ops ->
  exists sl items, slrun New ops = Some (sl, (lrun [] ops).2) /\
    rep sl items /\ tight sl items /\ view <$> items = (lrun [] ops).1 /\
    sorted (lrun [] ops).1.
Proof.
  intros Hn. destruct (slrun_ok ops New [] skiplist_New_ok Hn) as (sl & items & E & Hok & V).
  exists sl, items. split; [done|]. split; [apply Hok|]. split; [apply Hok|]. split; [done|].
  change (lrun [] ops) with (lrun (view <$> []) ops). rewrite <- V. apply Hok.
Qed.

(** Concrete flips and operations. *)
Definition heads (n : nat) : nat -> bool := fun k => (k <? n)%nat.

Definition demo_ops : list slop :=
  [OInsert (heads 1) (f64_of_Z 3) "c"; OInsert (heads 0) (f64_of_Z 1) "a";
   OInsert (heads 3) (f64_of_Z 2) "b"; OInsert (heads 0) (f64_of_Z (-2)) "d";
   OUpdateScore (heads 2) (f64_of_Z (-2)) "d" (f64_of_Z 9); ODelete (f64_of_Z 2) "b";
   ORange 0 (-1); ORangeByScore (mkScoreRange (f64_of_Z 1) (f64_of_Z 5) true false);
   OGetByRank 2; OSearch "d"; OLen].

Lemma skiplist_refines_list_witness :
  exists sl items, slrun New demo_ops = Some (sl, (lrun [] demo_ops).2) /\
    rep sl items /\ tight sl items /\ view <$> items = (lrun [] demo_ops).1 /\
    sorted (lrun [] demo_ops).1.
Proof. refine (skiplist_refines_list demo_ops _). repeat constructor. Defined.

Example demo_answers :
  option_map snd (slrun New demo_ops) = Some
    [RMember (Some (f64_of_Z 3, "c")); RMember (Some (f64_of_Z 1, "a"));
     RMember (Some (f64_of_Z 2, "b")); RMember (Some (f64_of_Z (-2), "d"));
     RMember (Some (f64_of_Z 9, "d")); RBool true;
     RMembers [(f64_of_Z 1, "a"); (f64_of_Z 3, "c"); (f64_of_Z 9, "d")];
     RMembers [(f64_of_Z 3, "c")]; RMember (Some (f64_of_Z 3, "c"));
     RMember (Some (f64_of_Z 9, "d")); RInt 3].
Proof. vm_compute. reflexivity. Qed.

(** The member at a position of the list, and its item. *)
Lemma view_split items pre e post :
  view <$> items = pre ++ e :: post ->
  exists p x q, items = p ++ x :: q /\ view <$> p = pre /\ view x = e /\ view <$> q = post.
Proof.
  intros (p & r & Hp & Hr & ->)%fmap_app_inv. destruct r as [|x q]; [done|].
  cbn in Hr. injection Hr as Hx Hq. by exists p, x, q.
Qed.

Lemma Forall_has_false e l : has e l = false -> Forall (fun x => msame x e = false) l.
Proof.
  intros H. induction l as [|x l IH]; [constructor|]. cbn in H. apply orb_false_iff in H as [H1 H2].
  constructor; [done|by apply IH].
Qed.

(** [GetRank] and [GetByRank] are inverse of each other: after any
    sequence of operations, a member that is in the list once and is not
    (empty key, score 0) has the 1-based rank of its position, and that rank leads
    back to it; a member that is not in the list has rank 0. *)
Theorem skiplist_rank_roundtrip ops sl os :
  Forall slop_num ops -> slrun New ops = Some (sl, os) ->
  (forall pre e post, (lrun [] ops).1 = pre ++ e :: post -> has e (pre ++ post) = false ->
     msame (fzero, EmptyString) e = false ->
     GetRank sl e.1 e.2 = Some (zlen pre + 1) /\
     slstep sl (OGetByRank (zlen pre + 1)) = Some (sl, RMember (Some e))) /\
  (forall e, is_num e -> has e (lrun [] ops).1 = false -> GetRank sl e.1 e.2 = Some 0).
Proof.
  intros Hn Hrun. destruct (slrun_ok ops New [] skiplist_New_ok Hn) as (sl' & items & E & Hok & V).
  rewrite Hrun in E. injection E as <- _. cbn [fmap list_fmap] in V. rewrite <- V. split.
  - intros pre e post El Hrest Hhd. pose proof (ok_num _ _ Hok) as Hnu.
    assert (Hne : is_num e) by (rewrite El in Hnu; by apply Forall_split_at in Hnu).
    destruct (view_split _ _ _ _ El) as (p & x & q & Ei & Hp & Hx & Hq).
    apply Forall_has_false in Hrest. split.
    + replace (zlen pre) with (zlen p) by (rewrite <- Hp; unfold zlen; by rewrite length_fmap).
      apply (GetRank_found sl items Hok p x q); try done.
      * rewrite Hx. destruct e. by apply msame_refl.
      * rewrite fmap_app, Hp, Hq. by destruct e.
    + destruct (slstep_ok sl items (OGetByRank (zlen pre + 1)) Hok I) as (? & ? & Es & _ & _).
      rewrite Es. cbn [lstep fst snd] in *. pose proof (zlen_nonneg pre).
      rewrite decide_True in Es |- * by lia.
      cbn [slstep] in Es. destruct (GetByRank sl _) as [a|]; [|done]. cbn in Es.
      destruct (seen sl a); [|done]. cbn in Es. injection Es as <- _.
      rewrite El. replace (Z.to_nat (zlen pre + 1 - 1)) with (length pre) by (unfold zlen; lia).
      by rewrite list_lookup_middle.
  - intros e Hne Hno. apply (GetRank_absent sl items Hok); [done|].
    apply Forall_has_false. by destruct e.
Qed.

Lemma skiplist_rank_roundtrip_witness :
  exists sl os, slrun New (take 4 demo_ops) = Some (sl, os) /\
    GetRank sl (f64_of_Z 2) "b" = Some 3 /\ GetRank sl (f64_of_Z 7) "b" = Some 0.
Proof.
  destruct (slrun New (take 4 demo_ops)) as [[sl os]|] eqn:E; [|vm_compute in E; discriminate].
  exists sl, os. split; [reflexivity|].
  destruct (skiplist_rank_roundtrip (take 4 demo_ops) sl os ltac:(repeat constructor) E) as [H1 H2].
  split.
  - refine (proj1 (H1 [(f64_of_Z (-2), "d"); (f64_of_Z 1, "a")] (f64_of_Z 2, "b") [(f64_of_Z 3, "c")] _ _ _));
      vm_compute; reflexivity.
  - refine (H2 (f64_of_Z 7, "b") _ _); vm_compute; reflexivity.
Defined.

(** The rank of the member with empty key and score 0 depends on the coin flips:
    [GetRank] compares every node it stops at, the head included, and the
    head has that key and that score. *)
Theorem skiplist_GetRank_head_match :
  (exists sl os, slrun New [OInsert (heads 0) fzero EmptyString; OInsert (heads 0) (f64_of_Z 1) "a"] = Some (sl, os) /\
     GetRank sl fzero EmptyString = Some 1) /\
  (exists sl os, slrun New [OInsert (heads 0) fzero EmptyString; OInsert (heads 1) (f64_of_Z 1) "a"] = Some (sl, os) /\
     GetRank sl fzero EmptyString = Some 0).
Proof. split; eexists _, _; (split; [vm_compute; reflexivity|vm_compute; reflexivity]). Qed.
