(* ===== verification/ZSet.v ===== *)
(** * Sorted set ([src/pkg/datastructs/zset/zset.go])

    A dictionary from keys to nodes beside a skip list.  The dictionary holds
    addresses of the skip list's store, so a score written in place by
    [UpdateScore] is seen through it, as in the source.  Each method runs
    under the set's lock and is one step.  The theorem at the end shows that
    the methods behave as on one list of members sorted by score and key with
    distinct keys. *)

From stdpp Require Import base list option gmap strings sorting.
From Stdlib Require Import ZArith Lia SpecFloat.
From S2P Require Import Prelude Float SkipList SkipListSpec.

#[local] Open Scope Z_scope.

Record ZSet := mkZSet {
  dict : gmap string nat;
  zsl : SkipList;
  zlength : Z }.

Definition NewZSet : ZSet := mkZSet ∅ New 0.

Definition nodeScore (z : ZSet) (a : nat) : option float64 :=
  n ← sl_heap (zsl z) !! a; Some (Score n).

Definition Add (z : ZSet) (flip : nat -> bool) (key : string) (score : float64)
    : option (ZSet * bool) :=
  match dict z !! key with
  | Some existing =>
      cur ← nodeScore z existing;
      '(sl', _) ← UpdateScore (zsl z) flip cur key score;
      found ← Search sl' key;
      let d := match found with Some updated => <[key := updated]> (dict z) | None => dict z end in
      Some (mkZSet d sl' (zlength z), false)
  | None =>
      '(sl', n) ← Insert (zsl z) flip score key;
      Some (mkZSet (<[key := n]> (dict z)) sl' (zlength z + 1), true)
  end.

Definition Rem (z : ZSet) (key : string) : option (ZSet * bool) :=
  match dict z !! key with
  | None => Some (z, false)
  | Some n =>
      s ← nodeScore z n;
      '(sl', _) ← Delete (zsl z) s key;
      Some (mkZSet (delete key (dict z)) sl' (zlength z - 1), true)
  end.

(** The pair (value, found) of the source as an option. *)
Definition ZScore (z : ZSet) (key : string) : option (option float64) :=
  match dict z !! key with
  | None => Some None
  | Some n => s ← nodeScore z n; Some (Some s)
  end.

Definition Rank (z : ZSet) (key : string) : option (option Z) :=
  match dict z !! key with
  | None => Some None
  | Some n =>
      s ← nodeScore z n;
      rank ← GetRank (zsl z) s key;
      if rank =? 0 then Some None else Some (Some (rank - 1))
  end.

Definition RevRank (z : ZSet) (key : string) : option (option Z) :=
  match dict z !! key with
  | None => Some None
  | Some n =>
      s ← nodeScore z n;
      rank ← GetRank (zsl z) s key;
      if rank =? 0 then Some None else Some (Some (zlength z - rank))
  end.

Definition toMembers (z : ZSet) (nodes : list nat) : option (list member) :=
  mapM (memberAt (zsl z)) nodes.

Definition ZRange (z : ZSet) (start stop : Z) : option (list member) :=
  nodes ← Range (zsl z) start stop; toMembers z nodes.

Definition RevRange (z : ZSet) (start stop : Z) : option (list member) :=
  let start := if start <? 0 then zlength z + start else start in
  let stop := if stop <? 0 then zlength z + stop else stop in
  let start := if start <? 0 then 0 else start in
  let stop := if zlength z <=? stop then zlength z - 1 else stop in
  if stop <? start then Some []
  else
    let ascStart := zlength z - 1 - stop in
    let ascStop := zlength z - 1 - start in
    nodes ← Range (zsl z) ascStart ascStop;
    ms ← toMembers z nodes;
    Some (rev ms).

Definition Card (z : ZSet) : Z := zlength z.

Definition Contains (z : ZSet) (key : string) : bool :=
  match dict z !! key with Some _ => true | None => false end.

Definition IncrBy (z : ZSet) (flip : nat -> bool) (key : string) (delta : float64)
    : option (ZSet * option float64) :=
  match dict z !! key with
  | None => Some (z, None)
  | Some n =>
      s ← nodeScore z n;
      let newScore := fadd s delta in
      '(sl', updated) ← UpdateScore (zsl z) flip s key newScore;
      let d := match updated with Some u => <[key := u]> (dict z) | None => dict z end in
      Some (mkZSet d sl' (zlength z), Some newScore)
  end.

(** The calls [fn(rank, key, score)] the iteration makes, in order. *)
Fixpoint calls (fn : Z -> member -> bool) (l : list member) (i : Z) : list (Z * member) :=
  match l with
  | [] => []
  | m :: r => (i, m) :: if fn i m then calls fn r (i + 1) else []
  end.

Definition ForEach (z : ZSet) (fn : Z -> member -> bool) : option (list (Z * member)) :=
  nodes ← Range (zsl z) 0 (zlength z - 1);
  ms ← toMembers z nodes;
  Some (calls fn ms 0).

(** ** Invariant *)

Record zok (z : ZSet) (items : list item) : Prop := {
  zok_sl : ok (zsl z) items;
  zok_keys : NoDup (it_key <$> items);
  zok_dict : forall k a, dict z !! k = Some a <-> exists it, it ∈ items /\ it_key it = k /\ it_addr it = a;
  zok_len : zlength z = zlen items }.

Definition dropkey (k : string) (l : list member) : list member :=
  List.filter (fun m => negb (bool_decide (m.2 = k))) l.

Definition haskey (k : string) (l : list member) : bool :=
  existsb (fun m => bool_decide (m.2 = k)) l.

Lemma key_unique items pre x post :
  NoDup (it_key <$> items) -> items = pre ++ x :: post ->
  Forall (fun y => it_key y <> it_key x) (pre ++ post).
Proof.
  intros Hnd ->. rewrite fmap_app in Hnd. cbn in Hnd.
  assert (Hp : (it_key <$> pre) ++ it_key x :: (it_key <$> post) ≡ₚ
               it_key x :: (it_key <$> pre ++ post)).
  { rewrite fmap_app. by rewrite Permutation_middle. }
  rewrite Hp in Hnd. apply NoDup_cons in Hnd as [Hnd _].
  apply List.Forall_forall. intros y Hy Hk. apply Hnd. rewrite <- Hk.
  by apply list_elem_of_fmap_2, list_elem_of_In.
Qed.

Lemma dropkey_none k l : Forall (fun m => m.2 <> k) l -> dropkey k l = l.
Proof.
  intros H. unfold dropkey. induction H as [|m l Hm _ IH]; cbn; [done|].
  rewrite bool_decide_eq_false_2 by done. cbn. by rewrite IH.
Qed.

Lemma haskey_none k l : Forall (fun m => m.2 <> k) l -> haskey k l = false.
Proof.
  intros H. unfold haskey. induction H as [|m l Hm _ IH]; cbn; [done|].
  by rewrite bool_decide_eq_false_2 by done.
Qed.

Lemma dropkey_at k pre m post :
  m.2 = k -> Forall (fun m => m.2 <> k) (pre ++ post) ->
  dropkey k (pre ++ m :: post) = pre ++ post.
Proof.
  intros Hm [H1 H2]%Forall_app. unfold dropkey. rewrite List.filter_app. cbn.
  rewrite bool_decide_eq_true_2 by done. cbn. fold (dropkey k pre). fold (dropkey k post).
  by rewrite !dropkey_none.
Qed.

Lemma haskey_at k pre (m : member) post : m.2 = k -> haskey k (pre ++ m :: post) = true.
Proof.
  intros Hm. unfold haskey. rewrite existsb_app. cbn.
  rewrite bool_decide_eq_true_2 by done. apply orb_true_r.
Qed.

(** What the dictionary says about a key. *)
Lemma zok_lookup z items k :
  zok z items ->
  (exists pre x post, items = pre ++ x :: post /\ it_key x = k /\ dict z !! k = Some (it_addr x) /\
     nodeScore z (it_addr x) = Some (it_score x) /\ is_num (view x) /\
     Forall (fun y => it_key y <> k) (pre ++ post)) \/
  (dict z !! k = None /\ Forall (fun y => it_key y <> k) items).
Proof.
  intros Hz. destruct (dict z !! k) as [a|] eqn:Ed.
  - left. apply (zok_dict _ _ Hz) in Ed as (x & Hx & Hk & Ha).
    apply list_elem_of_split in Hx as (pre & post & E). exists pre, x, post.
    split; [done|]. split; [done|]. split; [by rewrite Ha|]. split; [|split].
    + unfold nodeScore. destruct (rep_lookup _ _ (ok_rep _ _ (zok_sl _ _ Hz)) pre x post E)
        as (n & -> & _ & Hs & _). cbn. by rewrite Hs.
    + pose proof (ok_num _ _ (zok_sl _ _ Hz)) as Hn. rewrite E, fmap_app in Hn.
      by apply (Forall_split_at _ _ (view x)) in Hn.
    + rewrite <- Hk. by apply (key_unique items); [apply Hz|].
  - right. split; [done|]. apply List.Forall_forall. intros y Hy Hk.
    assert (Hd : dict z !! k = Some (it_addr y)).
    { apply (zok_dict _ _ Hz). exists y. split; [by apply list_elem_of_In|done]. }
    congruence.
Qed.

(** Replacing the item of a key, or adding one, keeps the invariant. *)
Lemma zok_replace sl' (d : gmap string nat) n items' p x' q (keys : list item) :
  ok sl' items' -> items' = p ++ x' :: q -> keys ≡ₚ p ++ q ->
  NoDup (it_key <$> keys) -> Forall (fun y => it_key y <> it_key x') keys ->
  (forall k a, k <> it_key x' ->
     d !! k = Some a <-> exists it, it ∈ keys /\ it_key it = k /\ it_addr it = a) ->
  n = zlen items' ->
  zok (mkZSet (<[it_key x' := it_addr x']> d) sl' n) items'.
Proof.
  intros Hok E Hp Hnd Hne Hd Hn. assert (Hp' : items' ≡ₚ x' :: keys).
  { rewrite E, Hp. by rewrite Permutation_middle. }
  split; cbn [dict zsl zlength]; [done| | |done].
  - rewrite Hp'. cbn. constructor; [|done]. intros (y & Hk & Hy)%list_elem_of_fmap_1.
    rewrite List.Forall_forall in Hne. apply (Hne y); [by apply list_elem_of_In|done].
  - intros k a. destruct (decide (k = it_key x')) as [->|Hk].
    + rewrite lookup_insert_eq. split.
      * intros [= <-]. exists x'. split; [|done]. rewrite Hp'. by left.
      * intros (it & Hit & Hk & <-). rewrite Hp' in Hit. apply elem_of_cons in Hit as [->|Hit]; [done|].
        rewrite List.Forall_forall in Hne. apply list_elem_of_In in Hit. by destruct (Hne it Hit).
    + rewrite lookup_insert_ne by done. rewrite Hd by done. split.
      * intros (it & Hit & ? & ?). exists it. rewrite Hp'. split; [by right|done].
      * intros (it & Hit & Hik & ?). exists it. rewrite Hp' in Hit.
        apply elem_of_cons in Hit as [->|Hit]; [congruence|done].
Qed.

(** ** Operations *)

Lemma keys_view k l :
  Forall (fun y => it_key y <> k) l -> Forall (fun m : member => m.2 <> k) (view <$> l).
Proof. intros H. by rewrite Forall_fmap. Qed.

Lemma not_same_key e l :
  Forall (fun m : member => m.2 <> e.2) l -> Forall (fun m => msame m e = false) l.
Proof.
  intros H. eapply Forall_impl; [exact H|]. cbn. intros m Hm. unfold msame.
  rewrite (bool_decide_eq_false_2 (m.2 = e.2)) by done. apply andb_false_r.
Qed.

(** The member of a key is the one with that key. *)
Lemma same_split (pre post pre0 post0 : list item) x x0 s k :
  pre ++ x :: post = pre0 ++ x0 :: post0 -> msame (view x0) (s, k) = true ->
  Forall (fun y => it_key y <> k) (pre ++ post) -> pre0 = pre /\ x0 = x /\ post0 = post.
Proof.
  intros E [_ Hm]%andb_true_iff [H1 H2]%Forall_app. apply bool_decide_eq_true in Hm. cbn in Hm.
  destruct (mid_split_cons _ _ _ _ _ _ E) as [(r & -> & ->)|[(-> & -> & ->)|(r & -> & ->)]]; [|done|].
  - by apply (Forall_split_at _ pre0 x0) in H1.
  - by apply (Forall_split_at _ r x0) in H2.
Qed.

Lemma same_there items pre x post k :
  items = pre ++ x :: post -> it_key x = k -> is_num (view x) ->
  ~ Forall (fun m => msame m (it_score x, k) = false) (view <$> items).
Proof.
  intros -> <- Hx Hno. rewrite fmap_app in Hno. apply (Forall_split_at _ _ (view x)) in Hno.
  pose proof (msame_refl (view x) Hx) as Hs. cbn beta in Hno.
  change (msame (view x) (view x) = false) in Hno. congruence.
Qed.

Section methods.
Context (z : ZSet) (items : list item) (Hz : zok z items).

Lemma dict_rest pre x post k a :
  items = pre ++ x :: post -> k <> it_key x ->
  dict z !! k = Some a <-> exists it, it ∈ pre ++ post /\ it_key it = k /\ it_addr it = a.
Proof.
  intros E Hk. rewrite (zok_dict _ _ Hz), E. split; intros (it & Hit & Hik & Ha); exists it.
  - split; [|done]. rewrite <- Permutation_middle in Hit.
    apply elem_of_cons in Hit as [->|Hit]; [congruence|done].
  - split; [|done]. rewrite <- Permutation_middle. by right.
Qed.

Lemma keys_rest pre x post : items = pre ++ x :: post -> NoDup (it_key <$> pre ++ post).
Proof.
  intros E. pose proof (zok_keys _ _ Hz) as Hnd. rewrite E in Hnd.
  rewrite <- Permutation_middle in Hnd. cbn in Hnd. by apply NoDup_cons in Hnd as [_ Hnd].
Qed.

Lemma zupdate flip pre x post k newScore :
  items = pre ++ x :: post -> it_key x = k -> is_num (view x) -> is_nan newScore = false ->
  Forall (fun y => it_key y <> k) (pre ++ post) ->
  exists sl' p x' q,
    UpdateScore (zsl z) flip (it_score x) k newScore = Some (sl', Some (it_addr x')) /\
    pre ++ post = p ++ q /\ view x' = (newScore, k) /\ ok sl' (p ++ x' :: q) /\
    view <$> p ++ x' :: q = place (newScore, k) (dropkey k (view <$> items)).
Proof.
  intros E Hk Hx Hn Hne. pose proof (zok_sl _ _ Hz) as Hok.
  destruct (UpdateScore_ok (zsl z) items flip (it_score x) k newScore Hok Hx Hn)
    as [(sl' & pre0 & x0 & post0 & p & x' & q & E0 & Hm & HU & Epq & Hv & Hok' & Hp)|[_ Hno]].
  - rewrite E in E0. destruct (same_split _ _ _ _ _ _ _ _ E0 Hm Hne) as (-> & -> & ->).
    exists sl', p, x', q. split; [done|]. split; [done|]. split; [done|]. split; [done|].
    rewrite Hp. f_equal. pose proof (keys_view _ _ Hne) as Hv'. rewrite fmap_app in Hv'.
    rewrite E, fmap_app. cbn. rewrite dropkey_at by done.
    apply discard_app; [|rewrite <- Hk; by apply msame_refl].
    apply (not_same_key (it_score x, k)). by apply Forall_app in Hv' as [? _].
  - by destruct (same_there items pre x post k E Hk Hx).
Qed.

(** The set after the score of a key changed. *)
Lemma zok_updated sl' pre x post p x' q k newScore :
  items = pre ++ x :: post -> it_key x = k -> Forall (fun y => it_key y <> k) (pre ++ post) ->
  pre ++ post = p ++ q -> view x' = (newScore, k) -> ok sl' (p ++ x' :: q) ->
  zok (mkZSet (<[k := it_addr x']> (dict z)) sl' (zlength z)) (p ++ x' :: q).
Proof.
  intros E Hk Hne Epq Hv Hok'. assert (Hk' : it_key x' = k) by (by injection Hv).
  rewrite <- Hk'. apply (zok_replace sl' _ _ _ p x' q (pre ++ post)); [done|done|by rewrite Epq|..].
  - by apply (keys_rest pre x post).
  - by rewrite Hk'.
  - intros k0 a Hk0. apply (dict_rest pre x post); [done|congruence].
  - rewrite (zok_len _ _ Hz), E. apply (f_equal zlen) in Epq. rewrite !zlen_app in *.
    unfold zlen in *. cbn [length]. lia.
Qed.

Lemma find_key p x' q k :
  it_key x' = k -> Forall (fun y => it_key y <> k) (p ++ q) ->
  List.find (fun it => bool_decide (it_key it = k)) (p ++ x' :: q) = Some x'.
Proof.
  intros Hk [Hp _]%Forall_app. induction Hp as [|y p Hy _ IH]; cbn.
  - by rewrite bool_decide_eq_true_2.
  - by rewrite bool_decide_eq_false_2.
Qed.

Lemma Add_ok flip k s :
  is_nan s = false ->
  exists z' items', Add z flip k s = Some (z', negb (haskey k (view <$> items))) /\ zok z' items' /\
    view <$> items' = place (s, k) (dropkey k (view <$> items)).
Proof.
  intros Hs. unfold Add.
  destruct (zok_lookup z items k Hz)
    as [(pre & x & post & E & Hk & -> & -> & Hx & Hne)|[-> Hne]].
  - cbn [mbind option_bind].
    destruct (zupdate flip pre x post k s E Hk Hx Hs Hne) as (sl' & p & x' & q & -> & Epq & Hv & Hok' & Hp).
    cbn [mbind option_bind]. rewrite (Search_ok sl' _ Hok'), (find_key p x' q k).
    + cbn [mbind option_bind fmap option_fmap option_map].
      eexists _, (p ++ x' :: q). split; [|split; [by apply (zok_updated sl' pre x post p x' q k s)|done]].
      rewrite E, fmap_app. cbn. by rewrite haskey_at.
    + by injection Hv.
    + by rewrite <- Epq.
  - destruct (Insert_ok (zsl z) items flip s k (zok_sl _ _ Hz) Hs) as (sl' & p & q & -> & E & Hok' & Hp).
    cbn [mbind option_bind]. set (x' := mkItem _ _ k s) in *. pose proof (keys_view _ _ Hne) as Hv.
    rewrite haskey_none, dropkey_none by done. eexists _, (p ++ x' :: q).
    split; [reflexivity|]. split; [|done].
    apply (zok_replace sl' (dict z) (zlength z + 1) _ p x' q items Hok' eq_refl); [by rewrite E| | | |].
    + apply (zok_keys _ _ Hz).
    + done.
    + intros k0 a _. apply (zok_dict _ _ Hz).
    + rewrite (zok_len _ _ Hz), E, !zlen_app. unfold zlen. cbn [length]. lia.
Qed.

Lemma Rem_ok k :
  exists z' items', Rem z k = Some (z', haskey k (view <$> items)) /\ zok z' items' /\
    view <$> items' = dropkey k (view <$> items).
Proof.
  unfold Rem.
  destruct (zok_lookup z items k Hz)
    as [(pre & x & post & E & Hk & -> & -> & Hx & Hne)|[-> Hne]]; last first.
  { pose proof (keys_view _ _ Hne). exists z, items. by rewrite haskey_none, dropkey_none. }
  cbn [mbind option_bind]. pose proof (keys_view _ _ Hne) as Hv.
  destruct (Delete_ok (zsl z) items (it_score x) k (zok_sl _ _ Hz) Hx)
    as [(sl' & pre0 & x0 & post0 & E0 & Hm & -> & Hok' & Hd)|[_ Hno]]; last first.
  { by destruct (same_there items pre x post k E Hk Hx). }
  rewrite E in E0. destruct (same_split _ _ _ _ _ _ _ _ E0 Hm Hne) as (-> & -> & ->). cbn [mbind option_bind].
  eexists _, (pre ++ post). split; [rewrite E, fmap_app; cbn; by rewrite haskey_at|]. split.
  - split; cbn [dict zsl zlength]; [done|by apply (keys_rest pre x post)| |].
    + intros k0 a. destruct (decide (k0 = k)) as [->|Hk0].
      * rewrite lookup_delete_eq. split; [done|]. intros (it & Hit & Hik & _).
        rewrite List.Forall_forall in Hne. by destruct (Hne it (proj1 (list_elem_of_In _ _) Hit)).
      * rewrite lookup_delete_ne by done. apply (dict_rest pre x post); [done|congruence].
    + rewrite (zok_len _ _ Hz), E, !zlen_app. unfold zlen. cbn [length]. lia.
  - rewrite E, !fmap_app. cbn. rewrite dropkey_at; [done|done|]. by rewrite <- fmap_app.
Qed.

Lemma IncrBy_ok flip k d :
  (forall m, m ∈ view <$> items -> m.2 = k -> is_nan (fadd m.1 d) = false) ->
  exists z' items' r, IncrBy z flip k d = Some (z', r) /\ zok z' items' /\
    match List.find (fun m => bool_decide (m.2 = k)) (view <$> items) with
    | None => r = None /\ items' = items
    | Some m => r = Some (fadd m.1 d) /\
        view <$> items' = place (fadd m.1 d, k) (dropkey k (view <$> items))
    end.
Proof.
  intros Hnum. unfold IncrBy. rewrite <- find_view.
  destruct (zok_lookup z items k Hz)
    as [(pre & x & post & E & Hk & -> & -> & Hx & Hne)|[-> Hne]].
  - assert (Hn : is_nan (fadd (it_score x) d) = false).
    { apply (Hnum (view x)); [|done]. rewrite E, fmap_app. cbn.
      apply elem_of_app. right. by left. }
    cbn [mbind option_bind].
    destruct (zupdate flip pre x post k _ E Hk Hx Hn Hne) as (sl' & p & x' & q & -> & Epq & Hv & Hok' & Hp).
    cbn [mbind option_bind]. eexists _, (p ++ x' :: q), _.
    split; [reflexivity|]. split; [by apply (zok_updated sl' pre x post p x' q k (fadd (it_score x) d))|].
    assert (Hf : List.find (fun it => bool_decide (it_key it = k)) items = Some x)
      by (rewrite E; by apply find_key).
    by rewrite Hf.
  - exists z, items, None. split; [done|]. split; [done|].
    assert (Hf : List.find (fun it => bool_decide (it_key it = k)) items = None).
    { clear -Hne. induction Hne as [|y l Hy _ IH]; [done|]. cbn. by rewrite bool_decide_eq_false_2. }
    by rewrite Hf.
Qed.
End methods.

(** ** Queries *)

Fixpoint keypos (k : string) (l : list member) (i : Z) : option Z :=
  match l with
  | [] => None
  | m :: r => if bool_decide (m.2 = k) then Some i else keypos k r (i + 1)
  end.

Lemma keypos_none k l : forall i, Forall (fun m => m.2 <> k) l -> keypos k l i = None.
Proof.
  intros i H. revert i. induction H as [|m l Hm _ IH]; intros i; cbn; [done|].
  rewrite bool_decide_eq_false_2 by done. apply IH.
Qed.

Lemma keypos_at k pre m post : forall i,
  m.2 = k -> Forall (fun m => m.2 <> k) pre -> keypos k (pre ++ m :: post) i = Some (i + zlen pre).
Proof.
  intros i Hm H. revert i. induction H as [|y l Hy _ IH]; intros i; cbn [app keypos].
  - rewrite bool_decide_eq_true_2 by done. f_equal. unfold zlen. cbn. lia.
  - rewrite bool_decide_eq_false_2 by done. rewrite IH. f_equal. unfold zlen. cbn [length]. lia.
Qed.

(** The members from [a] to [b] of the reversed list are those from
    [n - 1 - b] to [n - 1 - a] of the list, reversed. *)
Lemma between_rev {A} (l : list A) (a b : nat) :
  (a <= b < length l)%nat ->
  rev (take (b - a + 1) (drop (length l - 1 - b) l)) = take (b - a + 1) (drop a (rev l)).
Proof.
  intros H.
  rewrite <- (take_drop (length l - 1 - b) l) at 3. set (x := drop (length l - 1 - b) l).
  rewrite <- (take_drop (b - a + 1) x) at 2. rewrite !rev_app_distr.
  assert (Hx : length x = (b + 1)%nat) by (unfold x; rewrite length_drop; lia).
  assert (Ha : length (rev (drop (b - a + 1) x)) = a) by (rewrite length_rev, length_drop; lia).
  rewrite <- app_assoc, drop_app_ge by lia. rewrite Ha, Nat.sub_diag, drop_0.
  rewrite take_app_le by (rewrite length_rev, length_take; lia).
  symmetry. apply take_ge. rewrite length_rev, length_take. lia.
Qed.

Lemma between_all (l : list member) : between l 0 (zlen l - 1) = l.
Proof.
  unfold between. pose proof (zlen_nonneg l). cbn [Z.ltb Z.compare].
  destruct (Z.ltb_spec (zlen l - 1) 0).
  - assert (zlen l = 0) as Hl by lia. apply zlen_zero in Hl. subst l. done.
  - rewrite Z.max_id, Z.min_id. change (drop (Z.to_nat 0) l) with l. apply take_ge.
    unfold zlen in *. lia.
Qed.

Section queries.
Context (z : ZSet) (items : list item) (Hz : zok z items).

Lemma rank_of k pre x post :
  k <> EmptyString -> items = pre ++ x :: post -> it_key x = k -> is_num (view x) ->
  Forall (fun y => it_key y <> k) (pre ++ post) ->
  GetRank (zsl z) (it_score x) k = Some (zlen pre + 1).
Proof.
  intros Hk0 E Hk Hx Hne. apply (GetRank_found (zsl z) items (zok_sl _ _ Hz) pre x post); try done.
  - rewrite <- Hk. by apply msame_refl.
  - apply (not_same_key (it_score x, k)). by apply keys_view.
  - unfold msame. cbn [fst snd]. rewrite bool_decide_eq_false_2 by congruence. apply andb_false_r.
Qed.

Lemma keypos_items k pre x post :
  items = pre ++ x :: post -> it_key x = k -> Forall (fun y => it_key y <> k) (pre ++ post) ->
  keypos k (view <$> items) 0 = Some (zlen pre).
Proof.
  intros E Hk [Hne _]%Forall_app. rewrite E, fmap_app. cbn.
  rewrite keypos_at by (done || by apply keys_view). cbn. unfold zlen. by rewrite length_fmap.
Qed.

Lemma Rank_ok k : k <> EmptyString -> Rank z k = Some (keypos k (view <$> items) 0).
Proof.
  intros Hk0. unfold Rank.
  destruct (zok_lookup z items k Hz)
    as [(pre & x & post & E & Hk & -> & -> & Hx & Hne)|[-> Hne]].
  - cbn [mbind option_bind]. rewrite (rank_of k pre x post), (keypos_items k pre x post) by done.
    cbn [mbind option_bind]. pose proof (zlen_nonneg pre). zb; [lia|]. do 2 f_equal. lia.
  - by rewrite keypos_none by (by apply keys_view).
Qed.

Lemma RevRank_ok k :
  k <> EmptyString -> RevRank z k = Some ((fun i => zlen (view <$> items) - 1 - i) <$> keypos k (view <$> items) 0).
Proof.
  intros Hk0. unfold RevRank.
  destruct (zok_lookup z items k Hz)
    as [(pre & x & post & E & Hk & -> & -> & Hx & Hne)|[-> Hne]].
  - cbn [mbind option_bind]. rewrite (rank_of k pre x post), (keypos_items k pre x post) by done.
    cbn [mbind option_bind fmap option_fmap option_map]. pose proof (zlen_nonneg pre). zb; [lia|].
    do 2 f_equal. rewrite (zok_len _ _ Hz). unfold zlen. rewrite length_fmap. lia.
  - by rewrite keypos_none by (by apply keys_view).
Qed.

Lemma ZScore_ok k :
  ZScore z k = Some (fst <$> List.find (fun m => bool_decide (m.2 = k)) (view <$> items)).
Proof.
  unfold ZScore. rewrite <- find_view.
  destruct (zok_lookup z items k Hz)
    as [(pre & x & post & E & Hk & -> & -> & Hx & Hne)|[-> Hne]].
  - cbn [mbind option_bind]. rewrite E, find_key by done. done.
  - assert (Hf : List.find (fun it => bool_decide (it_key it = k)) items = None).
    { clear -Hne. induction Hne as [|y l Hy _ IH]; [done|]. cbn. by rewrite bool_decide_eq_false_2. }
    by rewrite Hf.
Qed.

Lemma Contains_ok k : Contains z k = haskey k (view <$> items).
Proof.
  unfold Contains.
  destruct (zok_lookup z items k Hz)
    as [(pre & x & post & E & Hk & -> & _ & _ & _)|[-> Hne]].
  - rewrite E, fmap_app. cbn. by rewrite haskey_at.
  - by rewrite haskey_none by (by apply keys_view).
Qed.

Lemma ZRange_ok a b : ZRange z a b = Some (between (view <$> items) a b).
Proof.
  pose proof (zok_sl _ _ Hz) as Hok.
  destruct (slstep_ok (zsl z) items (ORange a b) Hok I) as (sl' & items' & E & _ & _).
  unfold ZRange, toMembers. cbn [slstep lstep snd] in E.
  destruct (Range (zsl z) a b) as [l|]; [|done]. cbn [mbind option_bind] in *.
  destruct (mapM (memberAt (zsl z)) l) as [ms|]; [|done]. cbn in E. congruence.
Qed.

Lemma RevRange_ok a b : RevRange z a b = Some (between (rev (view <$> items)) a b).
Proof.
  unfold RevRange, between. rewrite (zok_len _ _ Hz).
  replace (zlen (rev (view <$> items))) with (zlen items)
    by (unfold zlen; by rewrite length_rev, length_fmap).
  set (n := zlen items). pose proof (zlen_nonneg items) as Hn0. fold n in Hn0.
  set (a' := if (if a <? 0 then _ else _) <? 0 then 0 else _).
  set (b' := if n <=? _ then n - 1 else _).
  replace (Z.max 0 _) with a' by (unfold a'; destruct (Z.ltb_spec a 0); zb; lia).
  replace (Z.min (n - 1) _) with b' by (unfold b'; destruct (Z.ltb_spec b 0); zb; lia).
  assert (Ha : 0 <= a') by (unfold a'; destruct (Z.ltb_spec a 0); zb; lia).
  assert (Hb : b' <= n - 1) by (unfold b'; destruct (Z.ltb_spec b 0); zb; lia).
  clearbody a' b'. destruct (Z.ltb_spec b' a') as [Hlt|Hge].
  { replace (Z.to_nat (b' - a' + 1)) with 0%nat by lia. done. }
  pose proof (ZRange_ok (n - 1 - b') (n - 1 - a')) as Hr. unfold ZRange in Hr.
  destruct (Range (zsl z) _ _) as [l|]; [|done]. cbn [mbind option_bind] in Hr |- *. rewrite Hr.
  cbn [mbind option_bind]. f_equal. unfold between.
  assert (Hl : zlen (view <$> items) = n) by (unfold n, zlen; by rewrite length_fmap).
  rewrite Hl. rewrite !(proj2 (Z.ltb_ge _ _)) by lia. rewrite Z.max_r, Z.min_r by lia.
  unfold zlen in Hl. pose proof (between_rev (view <$> items) (Z.to_nat a') (Z.to_nat b')) as Hbr.
  replace (Z.to_nat (n - 1 - a' - (n - 1 - b') + 1)) with (Z.to_nat b' - Z.to_nat a' + 1)%nat by lia.
  replace (Z.to_nat (n - 1 - b')) with (length (view <$> items) - 1 - Z.to_nat b')%nat by lia.
  replace (Z.to_nat (b' - a' + 1)) with (Z.to_nat b' - Z.to_nat a' + 1)%nat by lia.
  apply Hbr. lia.
Qed.

Lemma ForEach_ok fn : ForEach z fn = Some (calls fn (view <$> items) 0).
Proof.
  unfold ForEach. rewrite (zok_len _ _ Hz).
  pose proof (ZRange_ok 0 (zlen items - 1)) as Hr. unfold ZRange in Hr.
  destruct (Range (zsl z) _ _) as [l|]; [|done]. cbn [mbind option_bind] in Hr |- *. rewrite Hr.
  cbn [mbind option_bind]. replace (zlen items) with (zlen (view <$> items))
    by (unfold zlen; by rewrite length_fmap).
  by rewrite between_all.
Qed.
End queries.

(** ** The methods as a whole *)

Inductive zop :=
  | ZAdd (flip : nat -> bool) (key : string) (score : float64)
  | ZRem (key : string)
  | ZScoreOf (key : string)
  | ZRank (key : string)
  | ZRevRank (key : string)
  | ZRangeOp (start stop : Z)
  | ZRevRangeOp (start stop : Z)
  | ZCard
  | ZContains (key : string)
  | ZIncrBy (flip : nat -> bool) (key : string) (delta : float64)
  | ZForEach (fn : Z -> member -> bool).

Inductive zobs :=
  | ZBool (b : bool)
  | ZFloat (s : option float64)
  | ZPos (r : option Z)
  | ZInt (n : Z)
  | ZMembers (l : list member)
  | ZCalls (l : list (Z * member)).

Definition zstep (z : ZSet) (op : zop) : option (ZSet * zobs) :=
  match op with
  | ZAdd flip k s => '(z', b) ← Add z flip k s; Some (z', ZBool b)
  | ZRem k => '(z', b) ← Rem z k; Some (z', ZBool b)
  | ZScoreOf k => r ← ZScore z k; Some (z, ZFloat r)
  | ZRank k => r ← Rank z k; Some (z, ZPos r)
  | ZRevRank k => r ← RevRank z k; Some (z, ZPos r)
  | ZRangeOp a b => l ← ZRange z a b; Some (z, ZMembers l)
  | ZRevRangeOp a b => l ← RevRange z a b; Some (z, ZMembers l)
  | ZCard => Some (z, ZInt (Card z))
  | ZContains k => Some (z, ZBool (Contains z k))
  | ZIncrBy flip k d => '(z', r) ← IncrBy z flip k d; Some (z', ZFloat r)
  | ZForEach fn => l ← ForEach z fn; Some (z, ZCalls l)
  end.

Definition keyed (k : string) (l : list member) : option member :=
  List.find (fun m => bool_decide (m.2 = k)) l.

(** The same methods on a sorted list of members. *)
Definition zlstep (l : list member) (op : zop) : list member * zobs :=
  match op with
  | ZAdd _ k s => (place (s, k) (dropkey k l), ZBool (negb (haskey k l)))
  | ZRem k => (dropkey k l, ZBool (haskey k l))
  | ZScoreOf k => (l, ZFloat (fst <$> keyed k l))
  | ZRank k => (l, ZPos (keypos k l 0))
  | ZRevRank k => (l, ZPos ((fun i => zlen l - 1 - i) <$> keypos k l 0))
  | ZRangeOp a b => (l, ZMembers (between l a b))
  | ZRevRangeOp a b => (l, ZMembers (between (rev l) a b))
  | ZCard => (l, ZInt (zlen l))
  | ZContains k => (l, ZBool (haskey k l))
  | ZIncrBy _ k d =>
      match keyed k l with
      | None => (l, ZFloat None)
      | Some m => (place (fadd m.1 d, k) (dropkey k l), ZFloat (Some (fadd m.1 d)))
      end
  | ZForEach fn => (l, ZCalls (calls fn l 0))
  end.

(** No score becomes NaN, and no rank of the empty key is asked for. *)
Definition zop_okb (l : list member) (op : zop) : bool :=
  match op with
  | ZAdd _ _ s => negb (is_nan s)
  | ZIncrBy _ k d => match keyed k l with None => true | Some m => negb (is_nan (fadd m.1 d)) end
  | ZRank k | ZRevRank k => negb (bool_decide (k = EmptyString))
  | _ => true
  end.

Fixpoint zrun (z : ZSet) (ops : list zop) : option (ZSet * list zobs) :=
  match ops with
  | [] => Some (z, [])
  | op :: r => '(z', o) ← zstep z op; '(z'', os) ← zrun z' r; Some (z'', o :: os)
  end.

Fixpoint zlrun (l : list member) (ops : list zop) : list member * list zobs :=
  match ops with
  | [] => (l, [])
  | op :: r => let '(l', o) := zlstep l op in let '(l'', os) := zlrun l' r in (l'', o :: os)
  end.

Fixpoint zops_okb (l : list member) (ops : list zop) : bool :=
  match ops with
  | [] => true
  | op :: r => zop_okb l op && zops_okb (zlstep l op).1 r
  end.

Lemma keyed_unique items k m :
  NoDup (it_key <$> items) -> m ∈ view <$> items -> m.2 = k -> keyed k (view <$> items) = Some m.
Proof.
  intros Hnd Hm Hk. apply list_elem_of_fmap_1 in Hm as (x & -> & Hx).
  apply list_elem_of_split in Hx as (p & q & E). unfold keyed. rewrite <- find_view, E.
  rewrite (find_key p x q k); [done|done|].
  cbn in Hk. rewrite <- Hk. by apply (key_unique items).
Qed.

Lemma zstep_ok z items op :
  zok z items -> zop_okb (view <$> items) op = true ->
  exists z' items', zstep z op = Some (z', (zlstep (view <$> items) op).2) /\ zok z' items' /\
    view <$> items' = (zlstep (view <$> items) op).1.
Proof.
  intros Hz Hop.
  destruct op as [flip k s|k|k|k|k|a b|a b| |k|flip k d|fn]; cbn [zstep zlstep zop_okb fst snd] in *.
  - apply negb_true_iff in Hop.
    destruct (Add_ok z items Hz flip k s Hop) as (z' & items' & -> & Hz' & Hv). by exists z', items'.
  - destruct (Rem_ok z items Hz k) as (z' & items' & -> & Hz' & Hv). by exists z', items'.
  - exists z, items. by rewrite (ZScore_ok z items Hz).
  - exists z, items. apply negb_true_iff, bool_decide_eq_false in Hop. by rewrite (Rank_ok z items Hz).
  - exists z, items. apply negb_true_iff, bool_decide_eq_false in Hop. by rewrite (RevRank_ok z items Hz).
  - exists z, items. by rewrite (ZRange_ok z items Hz).
  - exists z, items. by rewrite (RevRange_ok z items Hz).
  - exists z, items. unfold Card. rewrite (zok_len _ _ Hz). unfold zlen. by rewrite length_fmap.
  - exists z, items. by rewrite (Contains_ok z items Hz).
  - destruct (IncrBy_ok z items Hz flip k d) as (z' & items' & r & -> & Hz' & Hr).
    + intros m Hm Hk. rewrite (keyed_unique items k m (zok_keys _ _ Hz) Hm Hk) in Hop.
      by apply negb_true_iff.
    + exists z', items'. fold (keyed k (view <$> items)) in Hr.
      destruct (keyed k (view <$> items)) as [m|]; destruct Hr as [-> Hr]; [done|by subst items'].
  - exists z, items. by rewrite (ForEach_ok z items Hz).
Qed.

Lemma NewZSet_ok : zok NewZSet [].
Proof.
  split; cbn; [apply skiplist_New_ok|constructor| |done].
  intros k a. rewrite lookup_empty. split; [done|]. by intros (it & H%elem_of_nil & _).
Qed.

Lemma zrun_ok ops : forall z items,
  zok z items -> zops_okb (view <$> items) ops = true ->
  exists z' items', zrun z ops = Some (z', (zlrun (view <$> items) ops).2) /\ zok z' items' /\
    view <$> items' = (zlrun (view <$> items) ops).1.
Proof.
  induction ops as [|op ops IH]; intros z items Hz Hn; [by exists z, items|].
  cbn [zops_okb] in Hn. apply andb_true_iff in Hn as [Hop Hn].
  destruct (zstep_ok z items op Hz Hop) as (z1 & items1 & E1 & Hz1 & V1).
  cbn [zrun zlrun]. rewrite E1. cbn [mbind option_bind].
  rewrite <- V1 in Hn. destruct (IH z1 items1 Hz1 Hn) as (z2 & items2 & E2 & Hz2 & V2).
  rewrite E2. cbn [mbind option_bind]. exists z2, items2.
  rewrite V1 in *. destruct (zlstep (view <$> items) op) as [l1 o1]. cbn [fst snd] in *.
  by destruct (zlrun l1 ops) as [l2 os].
Qed.

(** ** Theorems *)

(** C15: any sequence of methods on a new sorted set, with whatever coin flips,
    in which no score becomes NaN and the rank of the empty key is not asked
    for, runs without a panic and answers as the same methods on one list of
    members sorted by score and key; the keys of that list are distinct, and
    the dictionary holds exactly its nodes. *)
Theorem zset_refines_sorted_list ops :
  zops_okb [] ops = true ->
  exists z items, zrun NewZSet ops = Some (z, (zlrun [] ops).2) /\ zok z items /\
    view <$> items = (zlrun [] ops).1 /\ sorted (zlrun [] ops).1 /\ NoDup (zlrun [] ops).1.*2.
Proof.
  intros Hn. destruct (zrun_ok ops NewZSet [] NewZSet_ok Hn) as (z & items & E & Hz & V).
  cbn [fmap list_fmap] in E, V. exists z, items. split; [done|]. split; [done|]. split; [done|].
  rewrite <- V. split; [apply (zok_sl _ _ Hz)|]. rewrite <- list_fmap_compose. apply (zok_keys _ _ Hz).
Qed.

Definition zdemo : list zop :=
  [ZAdd (heads 0) "a" (f64_of_Z 3); ZAdd (heads 2) "b" (f64_of_Z 1); ZAdd (heads 1) "c" (f64_of_Z 2);
   ZAdd (heads 1) "a" (f64_of_Z 0); ZIncrBy (heads 0) "b" (f64_of_Z 5); ZRank "b"; ZRevRank "a";
   ZRangeOp 0 (-1); ZRevRangeOp 0 1; ZRem "c"; ZCard; ZContains "c"; ZScoreOf "b";
   ZForEach (fun i _ => i <? 0)].

Lemma zset_refines_sorted_list_witness :
  exists z items, zrun NewZSet zdemo = Some (z, (zlrun [] zdemo).2) /\ zok z items /\
    view <$> items = (zlrun [] zdemo).1 /\ sorted (zlrun [] zdemo).1 /\ NoDup (zlrun [] zdemo).1.*2.
Proof. refine (zset_refines_sorted_list zdemo _). vm_compute. reflexivity. Defined.

Example zdemo_answers :
  option_map snd (zrun NewZSet zdemo) = Some
    [ZBool true; ZBool true; ZBool true; ZBool false; ZFloat (Some (f64_of_Z 6)); ZPos (Some 2);
     ZPos (Some 2); ZMembers [(f64_of_Z 0, "a"); (f64_of_Z 2, "c"); (f64_of_Z 6, "b")];
     ZMembers [(f64_of_Z 6, "b"); (f64_of_Z 2, "c")]; ZBool true; ZInt 2; ZBool false;
     ZFloat (Some (f64_of_Z 6)); ZCalls [(0, (f64_of_Z 0, "a"))]].
Proof. vm_compute. reflexivity. Qed.

(** A NaN score makes a member that cannot be removed: [Rem] deletes the key
    from the dictionary and answers true, but the skip list, searched for a
    score equal to NaN, keeps the node, and [Range] still returns it. *)
Theorem zset_nan_member_stays :
  option_map snd (zrun NewZSet
    [ZAdd (heads 0) "a" fnan; ZRem "a"; ZCard; ZContains "a"; ZRangeOp 0 (-1)]) =
  Some [ZBool true; ZBool true; ZInt 0; ZBool false; ZMembers [(fnan, "a")]].
Proof. vm_compute. reflexivity. Qed.

(** [IncrBy] that turns a score into NaN reports the new score; afterwards
    the member's score can no longer be changed. *)
Theorem zset_nan_incr_sticks :
  option_map snd (zrun NewZSet
    [ZAdd (heads 0) "a" (S754_infinity false); ZIncrBy (heads 0) "a" (S754_infinity true);
     ZIncrBy (heads 0) "a" (f64_of_Z 1); ZAdd (heads 0) "a" (f64_of_Z 7); ZScoreOf "a"]) =
  Some [ZBool true; ZFloat (Some fnan); ZFloat (Some fnan); ZBool false; ZFloat (Some fnan)].
Proof. vm_compute. reflexivity. Qed.

(** The rank of a member with empty key and score 0 is reported as missing when
    a taller node follows it. *)
Theorem zset_empty_key_rank_missing :
  option_map snd (zrun NewZSet
    [ZAdd (heads 0) EmptyString fzero; ZAdd (heads 1) "a" (f64_of_Z 1); ZContains EmptyString; ZRank EmptyString]) =
  Some [ZBool true; ZBool true; ZBool true; ZPos None].
Proof. vm_compute. reflexivity. Qed.
