(* ===== verification/ShardedMap.v ===== *)
(** * Sharded map ([src/pkg/datastructs/shardedmap/shardedmap.go])

    A map split into a power of two of locked shards; a key lives in the shard
    its hash selects.  [Get], [Set] and [Del] hold the lock of one shard, so
    each is one step; [Len], [Clear] and [Do] go through the shards one by one
    and are modelled between the other calls.  The hash function is an
    argument, as in the source.  The order in which Go visits the entries of
    one shard is unspecified: [Do]'s calls are compared up to order. *)

From stdpp Require Import base list option gmap.
From Stdlib Require Import ZArith Lia.
From S2P Require Import Prelude Num.

#[local] Open Scope Z_scope.

Section shardedmap.
Context {K V : Type} `{EqDecision K} `{Countable K}.
Context (hasher : K -> Z).

Record Map := mkMap {
  shards : list (gmap K V);
  mask : Z }.

Definition New (n : Z) : option Map :=
  let n := if n <=? 0 then 256 else n in
  numShards ← CeilToPowerOfTwo n;
  Some (mkMap (replicate (Z.to_nat numShards) ∅) (u64 (numShards - 1))).

Definition shardOf (m : Map) (key : K) : Z := Z.land (hasher key) (mask m).

Definition Get (m : Map) (key : K) : option (option V) :=
  shard ← zget (shards m) (shardOf m key);
  Some (shard !! key).

Definition Set_ (m : Map) (key : K) (value : V) : option Map :=
  shard ← zget (shards m) (shardOf m key);
  s ← zset (shards m) (shardOf m key) (<[key := value]> shard);
  Some (mkMap s (mask m)).

Definition Del (m : Map) (key : K) : option Map :=
  shard ← zget (shards m) (shardOf m key);
  s ← zset (shards m) (shardOf m key) (delete key shard);
  Some (mkMap s (mask m)).

Fixpoint lenLoop (l : list (gmap K V)) (total : Z) : Z :=
  match l with
  | [] => total
  | shard :: r => lenLoop r (total + Z.of_nat (size shard))
  end.

Definition Len (m : Map) : Z := lenLoop (shards m) 0.

Definition Clear (m : Map) : Map := mkMap ((fun _ => ∅) <$> shards m) (mask m).

(** The calls [fn(k, v)] of the iteration. *)
Definition Do (m : Map) : list (K * V) := concat (map_to_list <$> shards m).

(** ** Invariant and abstraction *)

Record wf (m : Map) : Prop := {
  wf_pow : is_pow2 (mask m + 1);
  wf_len : zlen (shards m) = mask m + 1;
  wf_home : forall i s k, shards m !! i = Some s -> is_Some (s !! k) ->
    Z.of_nat i = shardOf m k }.

(** The map as a whole. *)
Definition whole (m : Map) : gmap K V := ⋃ shards m.

Lemma shardOf_range m k : wf m -> 0 <= shardOf m k < zlen (shards m).
Proof.
  intros Hm. unfold shardOf. rewrite (wf_len _ Hm).
  replace (mask m) with (mask m + 1 - 1) at 1 2 by lia.
  rewrite (land_pow2_mod _ _ (wf_pow _ Hm)). apply Z.mod_pos_bound.
  by apply is_pow2_pos, (wf_pow _ Hm).
Qed.

Lemma shard_lookup m k :
  wf m -> exists s, shards m !! Z.to_nat (shardOf m k) = Some s /\
    zget (shards m) (shardOf m k) = Some s.
Proof.
  intros Hm. pose proof (shardOf_range m k Hm) as Hr.
  destruct (lookup_lt_is_Some_2 (shards m) (Z.to_nat (shardOf m k))) as [s Hs];
    [unfold zlen in Hr; lia|].
  exists s. split; [done|]. unfold zget. by rewrite bool_decide_eq_true_2 by lia.
Qed.

Lemma union_list_None (l : list (gmap K V)) k :
  (forall j u, l !! j = Some u -> u !! k = None) -> (⋃ l) !! k = None.
Proof.
  induction l as [|u l IH]; intros Hn; [apply lookup_empty|].
  change (⋃ (u :: l)) with (u ∪ ⋃ l). rewrite lookup_union, (Hn 0%nat u eq_refl), IH; [done|].
  intros j. by apply (Hn (S j)).
Qed.

Lemma union_list_lookup (l : list (gmap K V)) k i s :
  l !! i = Some s -> (forall j t, l !! j = Some t -> is_Some (t !! k) -> j = i) ->
  (⋃ l) !! k = s !! k.
Proof.
  revert i. induction l as [|t l IH]; intros i Hi Hu; [done|].
  change (⋃ (t :: l)) with (t ∪ ⋃ l). rewrite lookup_union. destruct i as [|i].
  - injection Hi as ->. rewrite (union_list_None l k); [by destruct (s !! k)|].
    intros j u Hj. destruct (u !! k) eqn:E; [|done].
    specialize (Hu (S j) u Hj (mk_is_Some _ _ E)). lia.
  - assert (Ht : t !! k = None).
    { destruct (t !! k) eqn:E; [|done]. specialize (Hu 0%nat t eq_refl (mk_is_Some _ _ E)). lia. }
    rewrite Ht, (IH i Hi); [by destruct (s !! k)|].
    intros j u Hj Hk. specialize (Hu (S j) u Hj Hk). lia.
Qed.

Lemma whole_lookup m k s :
  wf m -> shards m !! Z.to_nat (shardOf m k) = Some s -> whole m !! k = s !! k.
Proof.
  intros Hm Hs. apply (union_list_lookup _ _ _ _ Hs). intros j t Hj Hk.
  pose proof (wf_home _ Hm j t k Hj Hk). lia.
Qed.

Lemma Get_spec m k : wf m -> Get m k = Some (whole m !! k).
Proof.
  intros Hm. destruct (shard_lookup m k Hm) as (s & Hs & Hg). unfold Get. rewrite Hg. cbn.
  by rewrite (whole_lookup m k s Hm Hs).
Qed.

(** Replacing the shard of [k] by one that differs at [k] only. *)
Lemma update_spec m k s s' :
  wf m -> shards m !! Z.to_nat (shardOf m k) = Some s ->
  (forall k', k' <> k -> s' !! k' = s !! k') ->
  exists l, zset (shards m) (shardOf m k) s' = Some l /\ wf (mkMap l (mask m)) /\
    forall k', whole (mkMap l (mask m)) !! k' = if decide (k' = k) then s' !! k else whole m !! k'.
Proof.
  intros Hm Hs Hd. pose proof (shardOf_range m k Hm) as Hr.
  set (i := Z.to_nat (shardOf m k)) in *.
  assert (Hi : (i < length (shards m))%nat) by (unfold zlen in Hr; lia).
  exists (<[i := s']> (shards m)). split; [by apply zset_Some|].
  assert (Hw : wf (mkMap (<[i := s']> (shards m)) (mask m))).
  { split; cbn [shards mask].
    - apply (wf_pow _ Hm).
    - rewrite <- (wf_len _ Hm). unfold zlen. by rewrite length_insert.
    - intros j t k' Hj Hk. change (shardOf (mkMap _ (mask m)) k') with (shardOf m k').
      destruct (decide (j = i)) as [->|Hne].
      + rewrite list_lookup_insert_eq in Hj by done. injection Hj as <-.
        destruct (decide (k' = k)) as [->|Hk']; [unfold i; lia|].
        rewrite Hd in Hk by done. by apply (wf_home _ Hm i s).
      + rewrite list_lookup_insert_ne in Hj by done. by apply (wf_home _ Hm j t). }
  split; [done|]. intros k'.
  destruct (shard_lookup _ k' Hw) as (t & Ht & _).
  rewrite (whole_lookup _ k' t Hw Ht). cbn [shards] in Ht.
  change (shardOf (mkMap _ (mask m)) k') with (shardOf m k') in Ht.
  destruct (decide (k' = k)) as [->|Hk].
  - fold i in Ht. rewrite list_lookup_insert_eq in Ht by done. by injection Ht as <-.
  - destruct (decide (Z.to_nat (shardOf m k') = i)) as [Ei|Ei].
    + rewrite Ei, list_lookup_insert_eq in Ht by done. injection Ht as <-. rewrite Hd by done.
      symmetry. apply (whole_lookup m k' s Hm). by rewrite Ei.
    + rewrite list_lookup_insert_ne in Ht by done. symmetry. by apply (whole_lookup m k' t Hm).
Qed.

Lemma Set_spec m k v :
  wf m -> exists m', Set_ m k v = Some m' /\ wf m' /\ whole m' = <[k := v]> (whole m).
Proof.
  intros Hm. destruct (shard_lookup m k Hm) as (s & Hs & Hg). unfold Set_. rewrite Hg. cbn.
  destruct (update_spec m k s (<[k := v]> s) Hm Hs) as (l & -> & Hw & Hl).
  { intros k' Hk. by rewrite lookup_insert_ne. }
  eexists. split; [reflexivity|]. split; [done|]. apply map_eq. intros k'. rewrite Hl.
  destruct (decide (k' = k)) as [->|Hk]; [by rewrite !lookup_insert_eq|by rewrite lookup_insert_ne].
Qed.

Lemma Del_spec m k :
  wf m -> exists m', Del m k = Some m' /\ wf m' /\ whole m' = delete k (whole m).
Proof.
  intros Hm. destruct (shard_lookup m k Hm) as (s & Hs & Hg). unfold Del. rewrite Hg. cbn.
  destruct (update_spec m k s (delete k s) Hm Hs) as (l & -> & Hw & Hl).
  { intros k' Hk. by rewrite lookup_delete_ne. }
  eexists. split; [reflexivity|]. split; [done|]. apply map_eq. intros k'. rewrite Hl.
  destruct (decide (k' = k)) as [->|Hk]; [by rewrite !lookup_delete_eq|by rewrite lookup_delete_ne].
Qed.

Lemma map_to_list_union (m1 m2 : gmap K V) :
  m1 ##ₘ m2 -> map_to_list (m1 ∪ m2) ≡ₚ map_to_list m1 ++ map_to_list m2.
Proof.
  intros Hd. apply NoDup_Permutation.
  - apply NoDup_map_to_list.
  - apply NoDup_app. split; [apply NoDup_map_to_list|]. split; [|apply NoDup_map_to_list].
    intros [k v] H1%elem_of_map_to_list H2%elem_of_map_to_list.
    by apply (map_disjoint_Some_l _ _ _ _ Hd) in H1 as E; rewrite E in H2.
  - intros [k v]. rewrite elem_of_app, !elem_of_map_to_list. by apply lookup_union_Some.
Qed.

(** The entries of the shards are the entries of the whole map. *)
Lemma union_list_entries (l : list (gmap K V)) :
  (forall i j s t k, l !! i = Some s -> l !! j = Some t -> is_Some (s !! k) -> is_Some (t !! k) -> i = j) ->
  concat (map_to_list <$> l) ≡ₚ map_to_list (⋃ l).
Proof.
  induction l as [|s l IH]; intros Hu; cbn; [by rewrite map_to_list_empty|].
  rewrite IH; [symmetry; apply map_to_list_union|].
  - apply map_disjoint_spec. intros k v w Es El.
    assert (Hex : exists j t, l !! j = Some t /\ is_Some (t !! k)).
    { clear -El. induction l as [|t l IH]; [by change (⋃ []) with (∅ : gmap K V) in El; rewrite lookup_empty in El|].
      change (⋃ (t :: l)) with (t ∪ ⋃ l) in El. rewrite lookup_union in El. destruct (t !! k) as [x|] eqn:Et.
      - exists 0%nat, t. split; [done|]. by eexists.
      - assert (El' : (⋃ l) !! k = Some w) by (by destruct ((⋃ l) !! k)). destruct (IH El') as (j & u & Hj & Hk).
        by exists (S j), u. }
    destruct Hex as (j & t & Hj & Hk).
    specialize (Hu 0%nat (S j) s t k eq_refl Hj (mk_is_Some _ _ Es) Hk). lia.
  - intros i j t u k Hi Hj H1 H2. specialize (Hu (S i) (S j) t u k Hi Hj H1 H2). lia.
Qed.

Lemma Do_spec m : wf m -> Do m ≡ₚ map_to_list (whole m).
Proof.
  intros Hm. apply union_list_entries. intros i j s t k Hi Hj H1 H2.
  pose proof (wf_home _ Hm i s k Hi H1). pose proof (wf_home _ Hm j t k Hj H2). lia.
Qed.

Lemma lenLoop_entries l : forall total,
  lenLoop l total = total + Z.of_nat (length (concat (map_to_list <$> l))).
Proof.
  induction l as [|s l IH]; intros total; cbn; [lia|].
  rewrite IH, length_app, length_map_to_list. lia.
Qed.

Lemma Len_spec m : wf m -> Len m = Z.of_nat (size (whole m)).
Proof.
  intros Hm. unfold Len. rewrite lenLoop_entries. fold (Do m).
  by rewrite (Do_spec m Hm), length_map_to_list.
Qed.

Lemma empty_shards l : Forall (fun s : gmap K V => s = ∅) l -> ⋃ l = ∅.
Proof. intros Hl. induction Hl as [|s l -> _ IH]; cbn; [done|]. rewrite IH. apply (left_id_L ∅ (∪)). Qed.

Lemma Clear_spec m : wf m -> wf (Clear m) /\ whole (Clear m) = ∅.
Proof.
  intros Hm. split.
  - split; cbn.
    + apply (wf_pow _ Hm).
    + rewrite <- (wf_len _ Hm). unfold zlen. by rewrite length_fmap.
    + intros i s k Hi [v Hv]. apply list_lookup_fmap_Some in Hi as (t & -> & _).
      by rewrite lookup_empty in Hv.
  - apply empty_shards. cbn. apply Forall_fmap. apply Forall_true. done.
Qed.

Lemma shards_New_spec n : n <= 2 ^ 62 -> exists m, New n = Some m /\ wf m /\ whole m = ∅.
Proof.
  intros Hn. unfold New. set (n' := if n <=? 0 then 256 else n).
  assert (Hn' : n' <= 2 ^ 62) by (unfold n'; zb; lia).
  destruct (CeilToPowerOfTwo_range n' Hn') as (k & -> & Hk & _). cbn [mbind option_bind].
  assert (Hp : 0 < 2 ^ k <= 2 ^ 62).
  { split; [apply Z.pow_pos_nonneg; lia|apply Z.pow_le_mono_r; lia]. }
  rewrite u64_small by lia. eexists. split; [reflexivity|]. split.
  - split; cbn [shards mask].
    + exists k. split; [lia|]. lia.
    + unfold zlen. rewrite length_replicate. lia.
    + intros i s key Hi [v Hv]. apply lookup_replicate in Hi as [-> _]. by rewrite lookup_empty in Hv.
  - apply empty_shards. by apply Forall_replicate.
Qed.

(** ** The operations as a whole *)

Inductive op :=
  | OGet (k : K) | OSet (k : K) (v : V) | ODel (k : K) | OLen | OClear | ODo.

Inductive obs := RVal (v : option V) | RUnit | RLen (n : Z) | RCalls (l : list (K * V)).

Definition step (m : Map) (o : op) : option (Map * obs) :=
  match o with
  | OGet k => v ← Get m k; Some (m, RVal v)
  | OSet k v => m' ← Set_ m k v; Some (m', RUnit)
  | ODel k => m' ← Del m k; Some (m', RUnit)
  | OLen => Some (m, RLen (Len m))
  | OClear => Some (Clear m, RUnit)
  | ODo => Some (m, RCalls (Do m))
  end.

(** One map without shards. *)
Definition astep (M : gmap K V) (o : op) : gmap K V * obs :=
  match o with
  | OGet k => (M, RVal (M !! k))
  | OSet k v => (<[k := v]> M, RUnit)
  | ODel k => (delete k M, RUnit)
  | OLen => (M, RLen (Z.of_nat (size M)))
  | OClear => (∅, RUnit)
  | ODo => (M, RCalls (map_to_list M))
  end.

(** Equal answers, the calls of [Do] up to order. *)
Inductive obs_eq : obs -> obs -> Prop :=
  | obs_val v : obs_eq (RVal v) (RVal v)
  | obs_unit : obs_eq RUnit RUnit
  | obs_len n : obs_eq (RLen n) (RLen n)
  | obs_calls l l' : l ≡ₚ l' -> obs_eq (RCalls l) (RCalls l').

Fixpoint run (m : Map) (ops : list op) : option (Map * list obs) :=
  match ops with
  | [] => Some (m, [])
  | o :: r => '(m', a) ← step m o; '(m'', l) ← run m' r; Some (m'', a :: l)
  end.

Fixpoint arun (M : gmap K V) (ops : list op) : gmap K V * list obs :=
  match ops with
  | [] => (M, [])
  | o :: r => let '(M', a) := astep M o in let '(M'', l) := arun M' r in (M'', a :: l)
  end.

Lemma step_spec m o :
  wf m -> exists m' a, step m o = Some (m', a) /\ wf m' /\
    whole m' = (astep (whole m) o).1 /\ obs_eq a (astep (whole m) o).2.
Proof.
  intros Hm. destruct o as [k|k v|k| | |]; cbn [step astep fst snd].
  - rewrite (Get_spec m k Hm). cbn. eexists _, _. split; [reflexivity|]. split; [done|]. split; [done|constructor].
  - destruct (Set_spec m k v Hm) as (m' & -> & Hm' & Hw). eexists _, _. split; [reflexivity|]. split; [done|]. split; [done|constructor].
  - destruct (Del_spec m k Hm) as (m' & -> & Hm' & Hw). eexists _, _. split; [reflexivity|]. split; [done|]. split; [done|constructor].
  - rewrite (Len_spec m Hm). eexists _, _. split; [reflexivity|]. split; [done|]. split; [done|constructor].
  - destruct (Clear_spec m Hm) as [Hm' Hw]. eexists _, _. split; [reflexivity|]. split; [done|]. split; [done|constructor].
  - eexists _, _. split; [reflexivity|]. split; [done|]. split; [done|]. constructor. by apply Do_spec.
Qed.

Lemma run_spec ops : forall m,
  wf m -> exists m' l, run m ops = Some (m', l) /\ wf m' /\
    whole m' = (arun (whole m) ops).1 /\ Forall2 obs_eq l (arun (whole m) ops).2.
Proof.
  induction ops as [|o ops IH]; intros m Hm; [by eexists _, _|]. cbn [run arun].
  destruct (step_spec m o Hm) as (m1 & a & -> & Hm1 & Hw1 & Ha). cbn [mbind option_bind].
  destruct (IH m1 Hm1) as (m2 & l & -> & Hm2 & Hw2 & Hl). cbn [mbind option_bind].
  rewrite Hw1 in *. destruct (astep (whole m) o) as [M1 a1]. cbn [fst snd] in *.
  destruct (arun M1 ops) as [M2 l2]. cbn [fst snd] in *.
  eexists _, _. split; [done|]. split; [done|]. split; [done|]. by constructor.
Qed.

(** C20: whatever the hash function, a sharded map made for up to 2^62
    shards (256 when the number is not positive) answers any sequence of
    [Get], [Set], [Del], [Len], [Clear] and [Do] as one map would, the
    calls of [Do] up to order, and never indexes out of its shards. *)
Theorem shardedmap_refines_map n ops :
  n <= 2 ^ 62 ->
  exists m m' l, New n = Some m /\ run m ops = Some (m', l) /\
    whole m' = (arun ∅ ops).1 /\ Forall2 obs_eq l (arun ∅ ops).2.
Proof.
  intros Hn. destruct (shards_New_spec n Hn) as (m & E & Hm & Hw).
  destruct (run_spec ops m Hm) as (m' & l & Er & _ & Hw' & Hl). rewrite Hw in *.
  by exists m, m', l.
Qed.
End shardedmap.

Lemma shardedmap_refines_map_witness :
  let ops := [OSet 7 100; OSet 23 200; OSet 7 300; ODel 23; OGet 7; OLen; ODo] : list (@op Z Z) in
  exists m m' l, New 5 = Some m /\ run u64 m ops = Some (m', l) /\
    whole m' = (arun ∅ ops).1 /\ Forall2 obs_eq l (arun ∅ ops).2.
Proof. exact (shardedmap_refines_map u64 5 _ ltac:(lia)). Defined.
