(* ===== verification/Cuckoo.v ===== *)
(** * Cuckoo filter ([src/pkg/datastructs/cuckoo/cuckoo.go]) with the key
      hashing it uses ([KeyToHash] of [src/pkg/hash/hash.go])

    The two string hashes, [runtime.MemHashString] (the Go runtime's) and
    xxhash, are arguments; [KeyToHash] of an integer is the source's.  The
    random choices of [Add] are arguments too.  A filter holds a multiset of
    (bucket, fingerprint) pairs ([content]); the theorems give each operation
    on it. *)

From stdpp Require Import base list option strings.
From Stdlib Require Import ZArith Lia.
From S2P Require Import Prelude Num.

#[local] Open Scope Z_scope.

Definition bucketSize : Z := 4.
Definition maxKicks : nat := 500.

(** ** Hashes *)

(** [KeyToHash] of a [uint64]: the key itself and 0. *)
Definition KeyToHash_uint64 (k : Z) : Z * Z := (k, 0).

(** [KeyToHash] of a string. *)
Definition KeyToHash_string (memhash xxhash : string -> Z) (k : string) : Z * Z :=
  (memhash k, xxhash k).

(** ** Buckets *)

Record bucket := mkBucket { fps : list Z; blen : Z }.

Definition emptyBucket : bucket := mkBucket [0; 0; 0; 0] 0.

Definition badd (b : bucket) (fp : Z) : option (bucket * bool) :=
  if bucketSize <=? blen b then Some (b, false)
  else l ← zset (fps b) (blen b) fp; Some (mkBucket l (u8 (blen b + 1)), true).

(** The loop [for i := 0; i < b.len; i++], [n] rounds left. *)
Fixpoint containsLoop (b : bucket) (fp : Z) (i : Z) (n : nat) : option bool :=
  match n with
  | O => Some false
  | S n => x ← zget (fps b) i; if x =? fp then Some true else containsLoop b fp (i + 1) n
  end.

Definition bcontains (b : bucket) (fp : Z) : option bool := containsLoop b fp 0 (Z.to_nat (blen b)).

Fixpoint removeLoop (b : bucket) (fp : Z) (i : Z) (n : nat) : option (bucket * bool) :=
  match n with
  | O => Some (b, false)
  | S n =>
      x ← zget (fps b) i;
      if x =? fp then
        let len := u8 (blen b - 1) in
        y ← zget (fps b) len;
        l ← zset (fps b) i y;
        l ← zset l len 0;
        Some (mkBucket l len, true)
      else removeLoop b fp (i + 1) n
  end.

Definition bremove (b : bucket) (fp : Z) : option (bucket * bool) :=
  removeLoop b fp 0 (Z.to_nat (blen b)).

Definition bswap (b : bucket) (idx fp : Z) : option (bucket * Z) :=
  old ← zget (fps b) idx;
  l ← zset (fps b) idx fp;
  Some (mkBucket l (blen b), old).

(** ** The filter *)

Record Filter := mkFilter { buckets : list bucket; count : Z; fm : Z }.

(** [m <<= 1] until [m >= capacity / bucketSize]; 64 rounds are enough for a
    [uint]. *)
Fixpoint newLoop (fuel : nat) (capacity m : Z) : Z :=
  match fuel with
  | O => m
  | S f => if m <? capacity / bucketSize then newLoop f capacity (u64 (Z.shiftl m 1)) else m
  end.

Definition New (capacity : Z) : Filter :=
  let m := newLoop 64 capacity 1 in
  mkFilter (replicate (Z.to_nat m) emptyBucket) 0 m.

Definition fingerprint (h : Z) : Z :=
  let f := u16 (h mod 65535) in
  if f =? 0 then 1 else f.

Definition indices (f : Filter) (h finger : Z) : Z * Z :=
  let i1 := h mod fm f in
  let hf := snd (KeyToHash_uint64 finger) in
  let i2 := Z.lxor i1 (hf mod fm f) in
  (i1, i2).

Definition setBucket (f : Filter) (i : Z) (b : bucket) (c : Z) : option Filter :=
  l ← zset (buckets f) i b; Some (mkFilter l c (fm f)).

(** [f.buckets[i].add(fp)] with the count. *)
Definition addTo (f : Filter) (i fp : Z) : option (Filter * bool) :=
  b ← zget (buckets f) i;
  '(b, ok) ← badd b fp;
  f ← setBucket f i b (if ok : bool then u64 (count f + 1) else count f);
  Some (f, ok).

(** The kicks; [pick k] is the [k]-th [rnd.Intn(bucketSize)]. *)
Fixpoint kicks (n : nat) (pick : nat -> Z) (k : nat) (f : Filter) (i fp : Z) : option (Filter * bool) :=
  match n with
  | O => Some (f, false)
  | S n =>
      b ← zget (buckets f) i;
      '(b, fp) ← bswap b (pick k) fp;
      f ← setBucket f i b (count f);
      let hf := snd (KeyToHash_uint64 fp) in
      let i := Z.lxor i (hf mod fm f) in
      '(f, ok) ← addTo f i fp;
      if ok : bool then Some (f, true) else kicks n pick (S k) f i fp
  end.

Section filter.
Context (memhash xxhash : string -> Z).

(** The result is false for the error "filter full". *)
Definition Add (f : Filter) (coin : bool) (pick : nat -> Z) (item : string) : option (Filter * bool) :=
  let '(h1, h2) := KeyToHash_string memhash xxhash item in
  let fp := fingerprint h2 in
  let '(i1, i2) := indices f h1 fp in
  '(f, ok) ← addTo f i1 fp;
  if ok : bool then Some (f, true) else
  '(f, ok) ← addTo f i2 fp;
  if ok : bool then Some (f, true) else
  kicks maxKicks pick 0 f (if coin then i2 else i1) fp.

Definition Contains (f : Filter) (item : string) : option bool :=
  let '(h1, h2) := KeyToHash_string memhash xxhash item in
  let fp := fingerprint h2 in
  let '(i1, i2) := indices f h1 fp in
  b1 ← zget (buckets f) i1;
  c1 ← bcontains b1 fp;
  if c1 : bool then Some true else b2 ← zget (buckets f) i2; bcontains b2 fp.

Definition removeFrom (f : Filter) (i fp : Z) : option (Filter * bool) :=
  b ← zget (buckets f) i;
  '(b, ok) ← bremove b fp;
  f ← setBucket f i b (if ok : bool then u64 (count f - 1) else count f);
  Some (f, ok).

Definition Delete (f : Filter) (item : string) : option (Filter * bool) :=
  let '(h1, h2) := KeyToHash_string memhash xxhash item in
  let fp := fingerprint h2 in
  let '(i1, i2) := indices f h1 fp in
  '(f, ok) ← removeFrom f i1 fp;
  if ok : bool then Some (f, true) else removeFrom f i2 fp.
End filter.

Definition Count (f : Filter) : Z := count f.

(** ** Invariant and abstraction *)

(** The fingerprints a bucket holds. *)
Definition held (b : bucket) : list Z := ztake (blen b) (fps b).

Definition bwf (b : bucket) : Prop := zlen (fps b) = bucketSize /\ 0 <= blen b <= bucketSize.

Definition pairs (i : Z) (b : bucket) : list (Z * Z) := (fun fp => (i, fp)) <$> held b.

Fixpoint contentFrom (i : Z) (l : list bucket) : list (Z * Z) :=
  match l with
  | [] => []
  | b :: r => pairs i b ++ contentFrom (i + 1) r
  end.

(** The pairs (bucket, fingerprint) of the filter. *)
Definition content (f : Filter) : list (Z * Z) := contentFrom 0 (buckets f).

Record fwf (f : Filter) : Prop := {
  fwf_m : 0 < fm f;
  fwf_len : zlen (buckets f) = fm f;
  fwf_b : Forall bwf (buckets f);
  fwf_count : count f = u64 (zlen (content f)) }.

Lemma held_length b : bwf b -> zlen (held b) = blen b.
Proof. intros [H1 H2]. unfold held. apply zlen_ztake. lia. Qed.

Lemma badd_spec b fp :
  bwf b ->
  (blen b = bucketSize /\ badd b fp = Some (b, false)) \/
  (blen b < bucketSize /\ exists b', badd b fp = Some (b', true) /\ bwf b' /\ held b' = held b ++ [fp]).
Proof.
  intros [H1 H2]. unfold badd. destruct (Z.leb_spec bucketSize (blen b)) as [Hge|Hlt].
  - left. split; [lia|done].
  - right. split; [done|]. rewrite zset_Some by lia. cbn. eexists. split; [reflexivity|].
    unfold u8. rewrite Z.mod_small by (unfold bucketSize in *; lia). split.
    + split; cbn; [unfold zlen in *; by rewrite length_insert|lia].
    + unfold held, ztake. cbn. replace (Z.to_nat (blen b + 1)) with (S (Z.to_nat (blen b))) by lia.
      unfold zlen in H1. erewrite take_S_r by (apply list_lookup_insert_eq; lia).
      by rewrite take_insert_ge by lia.
Qed.

Lemma containsLoop_spec b fp n : forall i,
  0 <= i -> i + Z.of_nat n <= zlen (fps b) ->
  containsLoop b fp i n = Some (bool_decide (fp ∈ ztake (Z.of_nat n) (zdrop i (fps b)))).
Proof.
  induction n as [|n IH]; intros i Hi Hn; cbn [containsLoop].
  - by rewrite bool_decide_eq_false_2 by (unfold ztake; cbn; apply not_elem_of_nil).
  - destruct (zget_Some (fps b) i ltac:(lia)) as [x Hx]. rewrite Hx. cbn [mbind option_bind].
    assert (E : ztake (Z.of_nat (S n)) (zdrop i (fps b)) =
                x :: ztake (Z.of_nat n) (zdrop (i + 1) (fps b))).
    { unfold zget in Hx. rewrite bool_decide_eq_true_2 in Hx by lia. unfold ztake, zdrop.
      rewrite (drop_S _ _ _ Hx). rewrite !Nat2Z.id. cbn. do 2 f_equal. f_equal. lia. }
    rewrite E. destruct (Z.eqb_spec x fp) as [->|Hne].
    + by rewrite bool_decide_eq_true_2 by left.
    + rewrite IH by lia. f_equal. apply bool_decide_ext. rewrite elem_of_cons. naive_solver.
Qed.

Lemma bcontains_spec b fp : bwf b -> bcontains b fp = Some (bool_decide (fp ∈ held b)).
Proof.
  intros [H1 H2]. unfold bcontains. rewrite containsLoop_spec by lia.
  unfold held. by rewrite Z2Nat.id by lia.
Qed.

Lemma insert_perm {A} (l : list A) i x y : l !! i = Some x -> x :: <[i := y]> l ≡ₚ y :: l.
Proof.
  intros H. rewrite <- (take_drop_middle l i x H) at 2.
  rewrite insert_take_drop by (by apply lookup_lt_Some in H).
  rewrite <- !Permutation_middle. apply Permutation_swap.
Qed.

Lemma bucket_removeLoop_spec b fp n : forall i,
  bwf b -> 0 <= i -> i + Z.of_nat n = blen b ->
  (removeLoop b fp i n = Some (b, false) /\ fp ∉ drop (Z.to_nat i) (held b)) \/
  (exists b', removeLoop b fp i n = Some (b', true) /\ bwf b' /\ held b ≡ₚ fp :: held b').
Proof.
  intros i Hb. revert i. destruct Hb as [H1 H2]. pose proof (held_length b (conj H1 H2)) as Hh.
  induction n as [|n IH]; intros i Hi Hn; cbn [removeLoop].
  - left. split; [done|]. rewrite drop_ge by (unfold zlen in Hh; lia). apply not_elem_of_nil.
  - destruct (zget_Some (fps b) i ltac:(lia)) as [x Hx]. rewrite Hx. cbn [mbind option_bind].
    assert (Hx' : fps b !! Z.to_nat i = Some x).
    { unfold zget in Hx. by rewrite bool_decide_eq_true_2 in Hx by lia. }
    destruct (Z.eqb_spec x fp) as [->|Hne].
    + right. unfold u8. rewrite Z.mod_small by (unfold bucketSize in *; lia).
      destruct (zget_Some (fps b) (blen b - 1) ltac:(unfold bucketSize in *; lia)) as [y Hy].
      rewrite Hy. cbn [mbind option_bind].
      assert (Hy' : fps b !! Z.to_nat (blen b - 1) = Some y).
      { unfold zget in Hy. by rewrite bool_decide_eq_true_2 in Hy by lia. }
      unfold bucketSize in *.
      rewrite zset_Some by lia. cbn [mbind option_bind].
      rewrite zset_Some by (unfold zlen in *; rewrite length_insert; lia). cbn [mbind option_bind].
      eexists. split; [reflexivity|]. split; [split; cbn; [unfold zlen in *; rewrite !length_insert|]; unfold bucketSize; lia|].
      unfold held, ztake. cbn [fps blen]. rewrite take_insert_ge by lia.
      replace (Z.to_nat (blen b)) with (S (Z.to_nat (blen b - 1))) by lia.
      rewrite (take_S_r _ _ _ Hy').
      destruct (decide (Z.to_nat i = Z.to_nat (blen b - 1))) as [E|E].
      * rewrite E in Hx' |- *. rewrite Hy' in Hx'. injection Hx' as ->.
        rewrite take_insert_ge by lia. apply Permutation_app_comm.
      * rewrite take_insert_lt by lia. rewrite (insert_perm _ _ fp y).
        { apply Permutation_app_comm. }
        by rewrite lookup_take_lt by lia.
    + destruct (IH (i + 1) ltac:(lia) ltac:(lia)) as [[-> Hno]|Hyes]; [left|by right].
      split; [done|].
      assert (Hhx : held b !! Z.to_nat i = Some x)
        by (unfold held, ztake; by rewrite lookup_take_lt by lia).
      rewrite (drop_S _ _ _ Hhx). replace (Z.to_nat (i + 1)) with (S (Z.to_nat i)) in Hno by lia.
      rewrite not_elem_of_cons. split; [congruence|done].
Qed.

Lemma bremove_spec b fp :
  bwf b ->
  (bremove b fp = Some (b, false) /\ fp ∉ held b) \/
  (exists b', bremove b fp = Some (b', true) /\ bwf b' /\ held b ≡ₚ fp :: held b').
Proof.
  intros Hb. pose proof Hb as [_ Hl]. apply (bucket_removeLoop_spec b fp _ 0 Hb); lia.
Qed.

Lemma bswap_spec b idx fp :
  bwf b -> blen b = bucketSize -> 0 <= idx < bucketSize ->
  exists b' old, bswap b idx fp = Some (b', old) /\ bwf b' /\ blen b' = bucketSize /\
    old :: held b' ≡ₚ fp :: held b.
Proof.
  intros [H1 H2] Hf Hi. unfold bswap.
  destruct (zget_Some (fps b) idx ltac:(lia)) as [x Hx]. rewrite Hx. cbn [mbind option_bind].
  rewrite zset_Some by lia. cbn [mbind option_bind]. eexists _, x. split; [reflexivity|].
  unfold bwf, held, ztake, zlen in *. cbn [fps blen]. rewrite length_insert.
  split; [lia|]. split; [done|].
  rewrite !take_ge by (rewrite ?length_insert; lia). apply insert_perm.
  unfold zget in Hx. by rewrite bool_decide_eq_true_2 in Hx by lia.
Qed.

(** ** The content of a filter *)

Lemma contentFrom_elem l : forall i j fp,
  (j, fp) ∈ contentFrom i l <-> exists b, i <= j /\ l !! Z.to_nat (j - i) = Some b /\ fp ∈ held b.
Proof.
  induction l as [|b l IH]; intros i j fp; cbn [contentFrom].
  - split; [by intros H%elem_of_nil|]. intros (b & _ & H & _). by rewrite lookup_nil in H.
  - rewrite elem_of_app, IH. unfold pairs. rewrite list_elem_of_fmap. split.
    + intros [(x & [= -> ->] & Hx)|(c & Hj & Hc & Hx)].
      * exists b. by rewrite Z.sub_diag.
      * exists c. split; [lia|]. replace (Z.to_nat (j - i)) with (S (Z.to_nat (j - (i + 1)))) by lia. done.
    + intros (c & Hj & Hc & Hx). destruct (decide (j = i)) as [->|Hne].
      * left. rewrite Z.sub_diag in Hc. injection Hc as ->. by exists fp.
      * right. exists c. replace (Z.to_nat (j - i)) with (S (Z.to_nat (j - (i + 1)))) in Hc by lia.
        split; [lia|done].
Qed.

(** Replacing one bucket exchanges its pairs. *)
Lemma contentFrom_insert l : forall i k b b',
  l !! k = Some b ->
  pairs (i + Z.of_nat k) b ++ contentFrom i (<[k := b']> l) ≡ₚ
  pairs (i + Z.of_nat k) b' ++ contentFrom i l.
Proof.
  induction l as [|c l IH]; intros i k b b' Hk; [done|]. destruct k as [|k].
  - injection Hk as ->. rewrite Z.add_0_r. cbn. apply Permutation_app_swap_app.
  - replace (i + Z.of_nat (S k)) with (i + 1 + Z.of_nat k) by lia.
    change (<[S k := b']> (c :: l)) with (c :: <[k := b']> l). cbn [contentFrom].
    rewrite (Permutation_app_swap_app (pairs _ b)), (Permutation_app_swap_app (pairs _ b')).
    apply Permutation_app_head. by apply IH.
Qed.

Lemma bucket_lookup f i :
  fwf f -> 0 <= i < fm f ->
  exists b, zget (buckets f) i = Some b /\ buckets f !! Z.to_nat i = Some b /\ bwf b.
Proof.
  intros Hf Hi. rewrite <- (fwf_len _ Hf) in Hi. destruct (zget_Some _ _ Hi) as [b Hb].
  exists b. split; [done|]. unfold zget in Hb. rewrite bool_decide_eq_true_2 in Hb by lia.
  split; [done|]. by apply (Forall_lookup_1 _ _ _ _ (fwf_b _ Hf) Hb).
Qed.

(** Writing a bucket back. *)
Lemma setBucket_spec f i b b' c :
  fwf f -> 0 <= i < fm f -> buckets f !! Z.to_nat i = Some b -> bwf b' ->
  exists f', setBucket f i b' c = Some f' /\ fm f' = fm f /\ count f' = c /\
    zlen (buckets f') = fm f' /\ Forall bwf (buckets f') /\
    pairs i b ++ content f' ≡ₚ pairs i b' ++ content f /\
    zget (buckets f') i = Some b'.
Proof.
  intros Hf Hi Hb Hb'. unfold setBucket.
  pose proof (fwf_len _ Hf) as Hl. rewrite zset_Some by lia. cbn [mbind option_bind].
  eexists. split; [reflexivity|]. cbn [fm count buckets]. split; [done|]. split; [done|].
  split; [rewrite <- Hl; unfold zlen; by rewrite length_insert|].
  split; [by apply Forall_insert; [apply (fwf_b _ Hf)|]|].
  split.
  - unfold content. cbn [buckets].
    pose proof (contentFrom_insert (buckets f) 0 (Z.to_nat i) b b' Hb) as Hp.
    by rewrite Z.add_0_l, Z2Nat.id in Hp by lia.
  - unfold zget. rewrite bool_decide_eq_true_2 by lia. apply list_lookup_insert_eq.
    unfold zlen in Hl. lia.
Qed.

Lemma content_elem f i b fp :
  fwf f -> 0 <= i -> buckets f !! Z.to_nat i = Some b -> (i, fp) ∈ content f <-> fp ∈ held b.
Proof.
  intros Hf Hi Hb. unfold content. rewrite contentFrom_elem, Z.sub_0_r. split.
  - intros (c & _ & Hc & H). congruence.
  - intros H. by exists b.
Qed.

Lemma u64_succ z : u64 (u64 z + 1) = u64 (z + 1).
Proof. unfold u64. by rewrite Zplus_mod_idemp_l. Qed.

Lemma u64_pred z : u64 (u64 z - 1) = u64 (z - 1).
Proof. unfold u64. by rewrite Zminus_mod_idemp_l. Qed.

(** A successful add puts the pair in; a full bucket leaves the filter. *)
Lemma addTo_spec f i fp :
  fwf f -> 0 <= i < fm f ->
  (exists f', addTo f i fp = Some (f', true) /\ fwf f' /\ fm f' = fm f /\
     content f' ≡ₚ (i, fp) :: content f /\
     exists b, zget (buckets f) i = Some b /\ blen b < bucketSize) \/
  (addTo f i fp = Some (f, false) /\
     exists b, zget (buckets f) i = Some b /\ blen b = bucketSize).
Proof.
  intros Hf Hi. destruct (bucket_lookup f i Hf Hi) as (b & Hg & Hb & Hw). unfold addTo. rewrite Hg.
  cbn [mbind option_bind]. destruct (badd_spec b fp Hw) as [[Hfull ->]|(Hroom & b' & -> & Hw' & Hh)];
    cbn [mbind option_bind].
  - right. split; [|by exists b].
    destruct (setBucket_spec f i b b (count f) Hf Hi Hb Hw) as (f' & E & _).
    unfold setBucket in E |- *. rewrite zset_Some in E |- * by (rewrite (fwf_len _ Hf); lia).
    cbn. do 2 f_equal. rewrite list_insert_id by done. by destruct f.
  - left. destruct (setBucket_spec f i b b' (u64 (count f + 1)) Hf Hi Hb Hw')
      as (f' & -> & Em & Ec & El & Ew & Ep & _).
    cbn [mbind option_bind]. exists f'. split; [done|].
    assert (Hc : content f' ≡ₚ (i, fp) :: content f).
    { apply (Permutation_app_inv_l (pairs i b)). rewrite Ep. unfold pairs. rewrite Hh, fmap_app. cbn.
      rewrite <- app_assoc. done. }
    split; [|split; [done|split; [done|by exists b]]]. split; [rewrite Em; apply Hf|done|done|].
    rewrite Ec, (fwf_count _ Hf), u64_succ. f_equal. unfold zlen. rewrite Hc. cbn [length]. lia.
Qed.

Lemma removeFrom_spec f i fp :
  fwf f -> 0 <= i < fm f ->
  (exists f', removeFrom f i fp = Some (f', true) /\ fwf f' /\ fm f' = fm f /\
     content f ≡ₚ (i, fp) :: content f') \/
  (removeFrom f i fp = Some (f, false) /\ (i, fp) ∉ content f).
Proof.
  intros Hf Hi. destruct (bucket_lookup f i Hf Hi) as (b & Hg & Hb & Hw). unfold removeFrom. rewrite Hg.
  cbn [mbind option_bind]. destruct (bremove_spec b fp Hw) as [[-> Hno]|(b' & -> & Hw' & Hh)];
    cbn [mbind option_bind].
  - right. split; [|by rewrite (content_elem f i b fp Hf ltac:(lia) Hb)].
    unfold setBucket. rewrite zset_Some by (rewrite (fwf_len _ Hf); lia).
    cbn. do 2 f_equal. rewrite list_insert_id by done. by destruct f.
  - left. destruct (setBucket_spec f i b b' (u64 (count f - 1)) Hf Hi Hb Hw')
      as (f' & -> & Em & Ec & El & Ew & Ep & _).
    cbn [mbind option_bind]. exists f'. split; [done|].
    assert (Hc : content f ≡ₚ (i, fp) :: content f').
    { apply (Permutation_app_inv_l (pairs i b')). rewrite <- Ep. unfold pairs. rewrite Hh. cbn.
      by rewrite Permutation_middle. }
    split; [|done]. split; [rewrite Em; apply Hf|done|done|].
    rewrite Ec, (fwf_count _ Hf), u64_pred. f_equal. unfold zlen. rewrite Hc. cbn [length]. lia.
Qed.

(** The alternative bucket is the bucket itself: [KeyToHash] of a fingerprint
    has a second half of 0. *)
Lemma indices_same f h finger : 0 < fm f -> indices f h finger = (h mod fm f, h mod fm f).
Proof.
  intros Hm. unfold indices, KeyToHash_uint64. cbn [snd]. by rewrite Z.mod_0_l, Z.lxor_0_r by lia.
Qed.

(** The kicks stay in one full bucket: whatever is picked, one fingerprint of
    it, or the new one, is lost. *)
Lemma kicks_spec n pick : forall k f i fp b,
  fwf f -> 0 <= i < fm f -> (forall k, 0 <= pick k < bucketSize) ->
  zget (buckets f) i = Some b -> blen b = bucketSize ->
  exists f' lost, kicks n pick k f i fp = Some (f', false) /\ fwf f' /\ fm f' = fm f /\
    (i, lost) :: content f' ≡ₚ (i, fp) :: content f.
Proof.
  induction n as [|n IH]; intros k f i fp b Hf Hi Hp Hg Hfull; cbn [kicks].
  - by exists f, fp.
  - destruct (bucket_lookup f i Hf Hi) as (b0 & Hg0 & Hb & Hw). rewrite Hg in Hg0. injection Hg0 as <-.
    rewrite Hg. cbn [mbind option_bind].
    destruct (bswap_spec b (pick k) fp Hw Hfull (Hp k)) as (b' & old & -> & Hw' & Hfull' & Hh).
    cbn [mbind option_bind].
    destruct (setBucket_spec f i b b' (count f) Hf Hi Hb Hw') as (f1 & -> & Em & Ec & El & Ew & Ep & Eg).
    cbn [mbind option_bind]. unfold KeyToHash_uint64. cbn [snd].
    rewrite Z.mod_0_l, Z.lxor_0_r by (rewrite Em; pose proof (fwf_m _ Hf); lia).
    assert (Hc : (i, old) :: content f1 ≡ₚ (i, fp) :: content f).
    { apply (Permutation_app_inv_l (pairs i b)).
      assert (Hq : (i, old) :: pairs i b' ≡ₚ (i, fp) :: pairs i b)
        by exact (fmap_Permutation (fun x => (i, x)) _ _ Hh).
      rewrite <- !Permutation_middle, Ep.
      change ((i, old) :: pairs i b' ++ content f) with (((i, old) :: pairs i b') ++ content f).
      by rewrite Hq. }
    assert (Hf1 : fwf f1).
    { split; [rewrite Em; apply Hf|done|done|]. rewrite Ec, (fwf_count _ Hf). f_equal. unfold zlen.
      apply Permutation_length in Hc. cbn in Hc. lia. }
    destruct (addTo_spec f1 i old Hf1) as [(f' & E & _)|[-> _]]; [lia| |].
    { exfalso. unfold addTo in E. rewrite Eg in E. cbn [mbind option_bind] in E. unfold badd in E.
      rewrite Hfull', Z.leb_refl in E. cbn [mbind option_bind] in E.
      by destruct (setBucket f1 i b' (count f1)). }
    cbn [mbind option_bind].
    destruct (IH (S k) f1 i old b' Hf1 ltac:(lia) Hp Eg Hfull') as (f' & lost & E & Hf' & Em' & Hc').
    exists f', lost. split; [done|]. split; [done|]. split; [congruence|]. by rewrite Hc'.
Qed.

Lemma newLoop_spec fuel : forall capacity m j,
  0 <= capacity < 2 ^ 64 -> m = 2 ^ j -> 0 <= j -> 64 <= j + Z.of_nat fuel ->
  j < 64 -> is_pow2 (newLoop fuel capacity m) /\ capacity / bucketSize <= newLoop fuel capacity m.
Proof.
  induction fuel as [|f IH]; intros capacity m j Hc -> Hj Hf Hj'; [lia|]. cbn [newLoop].
  destruct (Z.ltb_spec (2 ^ j) (capacity / bucketSize)) as [Hlt|Hge].
  - assert (Hj2 : j < 62).
    { apply (Z.pow_lt_mono_r_iff 2); [lia|lia|]. unfold bucketSize in Hlt.
      assert (capacity / 4 < 2 ^ 62) by (apply Z.div_lt_upper_bound; lia). lia. }
    rewrite Z.shiftl_mul_pow2 by lia. change (2 ^ 1) with 2.
    assert (Hp : 2 ^ j * 2 = 2 ^ (j + 1)) by (rewrite Z.pow_add_r by lia; lia).
    assert (Hs : 2 ^ (j + 1) <= 2 ^ 62) by (apply Z.pow_le_mono_r; lia).
    rewrite u64_small by lia. rewrite Hp. apply (IH _ _ (j + 1)); lia.
  - split; [|done]. exists j. lia.
Qed.

Lemma content_empty n i : contentFrom i (replicate n emptyBucket) = [].
Proof. revert i. induction n as [|n IH]; intros i; cbn; [done|apply IH]. Qed.

Lemma cuckoo_New_spec capacity :
  0 <= capacity < 2 ^ 64 ->
  fwf (New capacity) /\ content (New capacity) = [] /\ is_pow2 (fm (New capacity)) /\
  capacity / bucketSize <= fm (New capacity).
Proof.
  intros Hc. destruct (newLoop_spec 64 capacity 1 0) as [Hp Hm]; try lia.
  assert (Hpos : 0 < newLoop 64 capacity 1) by (by apply is_pow2_pos).
  unfold New. cbn zeta. generalize dependent (newLoop 64 capacity 1). intros m Hp Hm Hpos.
  assert (He : content (mkFilter (replicate (Z.to_nat m) emptyBucket) 0 m) = []) by apply content_empty.
  split; [|by rewrite He]. split; cbn [fm buckets count]; [done| | |by rewrite He].
  - unfold zlen. rewrite length_replicate. lia.
  - apply Forall_replicate. by split.
Qed.

(** ** The operations *)

Section theorems.
Context (memhash xxhash : string -> Z).

(** Where an item goes and what is stored of it. *)
Definition pairOf (m : Z) (item : string) : Z * Z :=
  (memhash item mod m, fingerprint (xxhash item)).

Lemma Contains_spec f item :
  fwf f -> Contains memhash xxhash f item = Some (bool_decide (pairOf (fm f) item ∈ content f)).
Proof.
  intros Hf. pose proof (fwf_m _ Hf) as Hm. unfold Contains, KeyToHash_string.
  rewrite indices_same by done. pose proof (Z.mod_pos_bound (memhash item) (fm f) Hm) as Hi.
  destruct (bucket_lookup f _ Hf Hi) as (b & Hg & Hb & Hw). rewrite Hg. cbn [mbind option_bind].
  rewrite bcontains_spec by done. cbn [mbind option_bind].
  pose proof (content_elem f _ b (fingerprint (xxhash item)) Hf (proj1 Hi) Hb) as He.
  rewrite (bool_decide_ext _ _ He). by destruct (bool_decide _).
Qed.

Lemma Delete_spec f item :
  fwf f ->
  (exists f', Delete memhash xxhash f item = Some (f', true) /\ fwf f' /\ fm f' = fm f /\
     content f ≡ₚ pairOf (fm f) item :: content f') \/
  (Delete memhash xxhash f item = Some (f, false) /\ pairOf (fm f) item ∉ content f).
Proof.
  intros Hf. pose proof (fwf_m _ Hf) as Hm. unfold Delete, KeyToHash_string.
  rewrite indices_same by done. pose proof (Z.mod_pos_bound (memhash item) (fm f) Hm) as Hi.
  destruct (removeFrom_spec f _ (fingerprint (xxhash item)) Hf Hi) as [(f' & -> & ?)|[E Hno]].
  - left. by exists f'.
  - right. rewrite E. cbn [mbind option_bind]. by rewrite E.
Qed.

Lemma cuckoo_Add_spec f coin pick item :
  fwf f -> (forall k, 0 <= pick k < bucketSize) ->
  let p := pairOf (fm f) item in
  (exists f', Add memhash xxhash f coin pick item = Some (f', true) /\ fwf f' /\ fm f' = fm f /\
     content f' ≡ₚ p :: content f /\
     exists b, zget (buckets f) p.1 = Some b /\ blen b < bucketSize) \/
  (exists f' lost, Add memhash xxhash f coin pick item = Some (f', false) /\ fwf f' /\ fm f' = fm f /\
     (p.1, lost) :: content f' ≡ₚ p :: content f /\
     exists b, zget (buckets f) p.1 = Some b /\ blen b = bucketSize).
Proof.
  intros Hf Hp p. pose proof (fwf_m _ Hf) as Hm. unfold Add, KeyToHash_string.
  rewrite indices_same by done. pose proof (Z.mod_pos_bound (memhash item) (fm f) Hm) as Hi.
  destruct (addTo_spec f _ (fingerprint (xxhash item)) Hf Hi) as [(f' & -> & ?)|[E (b & Hb & Hfull)]].
  - left. by exists f'.
  - right. rewrite E. cbn [mbind option_bind]. rewrite E. cbn [mbind option_bind].
    replace (if coin then memhash item mod fm f else memhash item mod fm f) with (memhash item mod fm f)
      by (by destruct coin).
    destruct (kicks_spec maxKicks pick 0 f _ (fingerprint (xxhash item)) b Hf Hi Hp Hb Hfull)
      as (f' & lost & -> & Hf' & Em & Hc).
    exists f', lost. split; [done|]. split; [done|]. split; [done|]. split; [done|]. by exists b.
Qed.

(** ** Sequences of operations *)

Inductive cop :=
  | CAdd (coin : bool) (pick : nat -> Z) (item : string)
  | CDelete (item : string).

Definition cstep (f : Filter) (o : cop) : option (Filter * bool) :=
  match o with
  | CAdd coin pick item => Add memhash xxhash f coin pick item
  | CDelete item => Delete memhash xxhash f item
  end.

Fixpoint crun (f : Filter) (ops : list cop) : option (Filter * list bool) :=
  match ops with
  | [] => Some (f, [])
  | o :: r => '(f', b) ← cstep f o; '(f'', bs) ← crun f' r; Some (f'', b :: bs)
  end.

(** The picks are those of [rnd.Intn(bucketSize)]. *)
Definition picks_ok (o : cop) : Prop :=
  match o with CAdd _ pick _ => forall k, 0 <= pick k < bucketSize | CDelete _ => True end.

(** The items in the filter: only items that are in it may be deleted. *)
Fixpoint drop_one (x : string) (l : list string) : option (list string) :=
  match l with
  | [] => None
  | y :: r => if decide (y = x) then Some r else (y ::.) <$> drop_one x r
  end.

Fixpoint items_after (l : list string) (ops : list cop) : option (list string) :=
  match ops with
  | [] => Some l
  | CAdd _ _ x :: r => items_after (x :: l) r
  | CDelete x :: r => l' ← drop_one x l; items_after l' r
  end.

(** No [Add] answered "filter full". *)
Definition no_failure (ops : list cop) (bs : list bool) : Prop :=
  Forall2 (fun o b => match o with CAdd _ _ _ => b = true | CDelete _ => True end) ops bs.

Lemma drop_one_perm x l l' : drop_one x l = Some l' -> l ≡ₚ x :: l'.
Proof.
  revert l'. induction l as [|y l IH]; intros l' H; [done|]. cbn in H.
  destruct (decide (y = x)) as [->|]; [by injection H as ->|].
  destruct (drop_one x l) as [r|]; [|done]. cbn in H. injection H as <-.
  rewrite (IH r eq_refl). apply Permutation_swap.
Qed.

Lemma crun_total f ops :
  fwf f -> Forall picks_ok ops -> exists f' bs, crun f ops = Some (f', bs) /\ fwf f'.
Proof.
  intros Hf Hp. revert f Hf. induction Hp as [|o ops Ho _ IH]; intros f Hf; [by exists f, []|].
  assert (Hs : exists f1 b, cstep f o = Some (f1, b) /\ fwf f1).
  { destruct o as [coin pick x|x]; cbn [cstep].
    - destruct (cuckoo_Add_spec f coin pick x Hf Ho) as [(f1 & -> & Hf1 & _)|(f1 & lost & -> & Hf1 & _)]; eauto.
    - destruct (Delete_spec f x Hf) as [(f1 & -> & Hf1 & _)|[-> _]]; eauto. }
  destruct Hs as (f1 & b & E & Hf1). cbn [crun]. rewrite E. cbn [mbind option_bind].
  destruct (IH f1 Hf1) as (f2 & bs & -> & Hf2). by exists f2, (b :: bs).
Qed.

Lemma crun_spec ops : forall f l l',
  fwf f -> Forall picks_ok ops -> content f ≡ₚ pairOf (fm f) <$> l -> items_after l ops = Some l' ->
  exists f' bs, crun f ops = Some (f', bs) /\
    (no_failure ops bs -> Forall (eq true) bs /\ fwf f' /\ fm f' = fm f /\
       content f' ≡ₚ pairOf (fm f) <$> l').
Proof.
  induction ops as [|o ops IH]; intros f l l' Hf Hp Hc Hl.
  - injection Hl as <-. exists f, []. split; [done|]. intros _. by split.
  - apply Forall_cons in Hp as [Ho Hp]. cbn [crun]. destruct o as [coin pick x|x]; cbn [cstep items_after] in *.
    + destruct (cuckoo_Add_spec f coin pick x Hf Ho) as [(f1 & -> & Hf1 & Em & Hc1 & _)|(f1 & lost & -> & Hf1 & Em & _)];
        cbn [mbind option_bind].
      * destruct (IH f1 (x :: l) l' Hf1 Hp) as (f2 & bs & -> & H2); [|done|].
        { rewrite Em, Hc1, Hc. done. }
        exists f2, (true :: bs). split; [done|]. intros [_ Hn]%Forall2_cons.
        destruct (H2 Hn) as (Hb & Hf2 & Em2 & Hc2). rewrite Em in *. split; [by constructor|done].
      * destruct (crun_total f1 ops Hf1 Hp) as (f2 & bs & -> & _).
        exists f2, (false :: bs). split; [done|]. by intros [? _]%Forall2_cons.
    + destruct (drop_one x l) as [l1|] eqn:Ed; [|done]. cbn in Hl. apply drop_one_perm in Ed.
      destruct (Delete_spec f x Hf) as [(f1 & -> & Hf1 & Em & Hc1)|[_ Hno]]; cbn [mbind option_bind].
      * destruct (IH f1 l1 l' Hf1 Hp) as (f2 & bs & -> & H2); [|done|].
        { apply (Permutation_cons_inv (a := pairOf (fm f) x)). rewrite <- Hc1, Em, Hc, Ed. done. }
        exists f2, (true :: bs). split; [done|]. intros [_ Hn]%Forall2_cons.
        destruct (H2 Hn) as (Hb & Hf2 & Em2 & Hc2). rewrite Em in *. split; [by constructor|done].
      * exfalso. apply Hno. rewrite Hc, Ed. cbn. by left.
Qed.

(** C18: a filter made for any capacity: as long as no [Add] answers "filter
    full" and only items that are in it are deleted, every [Delete] succeeds,
    [Contains] is true of every item that was added more often than it was
    deleted, and [Count] is the number of items in it; the operations never
    index out of range. *)
Theorem cuckoo_no_false_negatives capacity ops l :
  0 <= capacity < 2 ^ 64 -> Forall picks_ok ops -> items_after [] ops = Some l ->
  exists f bs, crun (New capacity) ops = Some (f, bs) /\
    (no_failure ops bs ->
       Forall (eq true) bs /\
       (forall item, item ∈ l -> Contains memhash xxhash f item = Some true) /\
       Count f = u64 (zlen l)).
Proof.
  intros Hc Hp Hl. destruct (cuckoo_New_spec capacity Hc) as (Hf & He & _ & _).
  destruct (crun_spec ops (New capacity) [] l Hf Hp) as (f & bs & E & H); [by rewrite He|done|].
  exists f, bs. split; [done|]. intros Hn. destruct (H Hn) as (Hb & Hf' & Em & Hcon).
  split; [done|]. split.
  - intros item Hi. rewrite Contains_spec, Em, bool_decide_eq_true_2; [done| |done].
    rewrite Hcon. by apply list_elem_of_fmap_2.
  - unfold Count. rewrite (fwf_count _ Hf'). unfold zlen. by rewrite Hcon, length_fmap.
Qed.

(** An item has one bucket only, because the second half of [KeyToHash]
    of a fingerprint is 0: [Add] answers "filter full" exactly when the four
    places of that bucket are taken, whatever the rest of the filter holds,
    and then one fingerprint of the bucket (or the new one) is lost while the
    count stays. *)
Theorem cuckoo_Add_one_bucket f coin pick item :
  fwf f -> (forall k, 0 <= pick k < bucketSize) ->
  let p := pairOf (fm f) item in
  exists b, zget (buckets f) p.1 = Some b /\
    exists f' ok, Add memhash xxhash f coin pick item = Some (f', ok) /\
      (ok = false <-> blen b = bucketSize) /\
      (ok = true -> content f' ≡ₚ p :: content f) /\
      (ok = false -> Count f' = Count f /\
         exists lost, (p.1, lost) :: content f' ≡ₚ p :: content f).
Proof.
  intros Hf Hp p. pose proof (Z.mod_pos_bound (memhash item) (fm f) (fwf_m _ Hf)) as Hi.
  destruct (bucket_lookup f p.1 Hf Hi) as (b & Hg & Hb & Hw). exists b. split; [done|].
  destruct (cuckoo_Add_spec f coin pick item Hf Hp)
    as [(f' & E & Hf' & Em & Hc & b0 & Hg0 & Hroom)|(f' & lost & E & Hf' & Em & Hc & b0 & Hg0 & Hfull)];
    fold p in Hg0; rewrite Hg in Hg0; injection Hg0 as <-.
  - exists f', true. split; [done|]. split; [|done]. split; [done|]. intros Hfull. lia.
  - exists f', false. split; [done|]. split; [done|].
    split; [done|]. intros _. split; [|by exists lost]. unfold Count.
    rewrite (fwf_count _ Hf'), (fwf_count _ Hf). f_equal. unfold zlen.
    apply Permutation_length in Hc. cbn in Hc. lia.
Qed.
End theorems.

(** ** Concrete filters *)

(** Hashes for the examples: all items go to bucket 0; the fingerprint is the
    first byte of the item. *)
Definition demo_mem (_ : string) : Z := 0.
Definition demo_xx (s : string) : Z :=
  match s with EmptyString => 0 | String c _ => Z.of_N (Ascii.N_of_ascii c) end.

Definition demo_ops : list cop :=
  [CAdd true (fun _ => 0) "a"; CAdd true (fun _ => 0) "b"; CDelete "a"; CAdd false (fun _ => 1) "c"].

Lemma cuckoo_no_false_negatives_witness :
  exists f bs, crun demo_mem demo_xx (New 64) demo_ops = Some (f, bs) /\
    (no_failure demo_ops bs ->
       Forall (eq true) bs /\
       (forall item, item ∈ ["c"; "b"]%string -> Contains demo_mem demo_xx f item = Some true) /\
       Count f = u64 (zlen ["c"; "b"]%string)).
Proof.
  refine (cuckoo_no_false_negatives demo_mem demo_xx 64 demo_ops ["c"; "b"]%string _ _ _).
  - lia.
  - repeat (apply Forall_cons; split; [try exact I; intros k; unfold bucketSize; lia|]). apply Forall_nil. exact I.
  - vm_compute. reflexivity.
Defined.

Lemma cuckoo_Add_one_bucket_witness :
  exists b, zget (buckets (New 64)) (pairOf demo_mem demo_xx (fm (New 64)) "a").1 = Some b /\
    exists f' ok, Add demo_mem demo_xx (New 64) true (fun _ => 0) "a" = Some (f', ok) /\
      (ok = false <-> blen b = bucketSize) /\
      (ok = true -> content f' ≡ₚ pairOf demo_mem demo_xx (fm (New 64)) "a" :: content (New 64)) /\
      (ok = false -> Count f' = Count (New 64) /\
         exists lost, ((pairOf demo_mem demo_xx (fm (New 64)) "a").1, lost) :: content f' ≡ₚ
           pairOf demo_mem demo_xx (fm (New 64)) "a" :: content (New 64)).
Proof.
  refine (cuckoo_Add_one_bucket demo_mem demo_xx (New 64) true (fun _ => 0) "a" _ _).
  - exact (proj1 (cuckoo_New_spec 64 ltac:(lia))).
  - intros k. unfold bucketSize. lia.
Defined.

(** The fifth item of a bucket is refused with 15 of the 16 buckets empty, and
    the filter afterwards denies an item it accepted. *)
Theorem cuckoo_full_add_forgets :
  let adds := (fun x => CAdd true (fun _ => 0) x) <$> ["a"; "b"; "c"; "d"; "e"]%string in
  exists f, crun demo_mem demo_xx (New 64) adds = Some (f, [true; true; true; true; false]) /\
    fm f = 16 /\ Contains demo_mem demo_xx f "a" = Some true /\
    Contains demo_mem demo_xx f "e" = Some false /\
    exists f', crun demo_mem demo_xx (New 64)
        ((fun x => CAdd true (fun k => Z.of_nat (k mod 2)) x) <$> ["a"; "b"; "c"; "d"; "e"]%string) =
        Some (f', [true; true; true; true; false]) /\
      Contains demo_mem demo_xx f' "b" = Some false.
Proof. eexists. repeat (split; [vm_compute; reflexivity|]). eexists. split; vm_compute; reflexivity. Qed.
