(* ===== verification/Bloom.v ===== *)
(** * Bloom filter ([src/pkg/datastructs/bloom/bloom.go])

    The bit set as its 64-bit words; the bit positions of a hash are computed
    with wrap-around as in the source.  The two sizes [New] derives from its
    float arguments are arguments here.  The filter stands for the set of its
    bits ([bit]); the theorems give each method on that set. *)

From stdpp Require Import base list option.
From Stdlib Require Import ZArith Lia.
From S2P Require Import Prelude Num.

#[local] Open Scope Z_scope.

Record Bloom := mkBloom { bitset : list Z; k : Z; m : Z }.

(** The end of [New], with [m] and [k] as computed from the capacity and the
    false positive rate. *)
Definition newBloom (m k : Z) : Bloom := mkBloom (zeros (u64 (m + 63) / 64)) k m.

Definition deltaOf (h : Z) : Z := Z.lor (Z.shiftr h 17) (u64 (Z.shiftl h 47)).

(** [None] is the division by zero. *)
Definition index (b : Bloom) (h delta i : Z) : option Z :=
  if m b =? 0 then None else Some (u64 (h + u64 (i * delta)) mod m b).

Definition maskOf (idx : Z) : Z := u64 (Z.shiftl 1 (idx mod 64)).

Definition setWord (b : Bloom) (w x : Z) : option Bloom :=
  l ← zset (bitset b) w x; Some (mkBloom l (k b) (m b)).

(** The loops, [n] rounds left. *)
Fixpoint addLoop (n : nat) (i : Z) (b : Bloom) (h delta : Z) : option Bloom :=
  match n with
  | O => Some b
  | S n =>
      idx ← index b h delta i;
      w ← zget (bitset b) (idx / 64);
      b ← setWord b (idx / 64) (Z.lor w (maskOf idx));
      addLoop n (i + 1) b h delta
  end.

Definition Add (b : Bloom) (hash : Z) : option Bloom :=
  addLoop (Z.to_nat (k b)) 0 b hash (deltaOf hash).

Fixpoint addIfLoop (n : nat) (i : Z) (b : Bloom) (h delta : Z) (present : bool) : option (Bloom * bool) :=
  match n with
  | O => Some (b, present)
  | S n =>
      idx ← index b h delta i;
      w ← zget (bitset b) (idx / 64);
      if Z.land w (maskOf idx) =? 0 then
        b ← setWord b (idx / 64) (Z.lor w (maskOf idx));
        addIfLoop n (i + 1) b h delta false
      else addIfLoop n (i + 1) b h delta present
  end.

Definition AddIfNotHas (b : Bloom) (hash : Z) : option (Bloom * bool) :=
  addIfLoop (Z.to_nat (k b)) 0 b hash (deltaOf hash) true.

Fixpoint hasLoop (n : nat) (i : Z) (b : Bloom) (h delta : Z) : option bool :=
  match n with
  | O => Some true
  | S n =>
      idx ← index b h delta i;
      w ← zget (bitset b) (idx / 64);
      if Z.land w (maskOf idx) =? 0 then Some false else hasLoop n (i + 1) b h delta
  end.

Definition Has (b : Bloom) (hash : Z) : option bool :=
  hasLoop (Z.to_nat (k b)) 0 b hash (deltaOf hash).

Definition Clear (b : Bloom) : Bloom := mkBloom ((fun _ => 0) <$> bitset b) (k b) (m b).

Definition TotalSize (b : Bloom) : Z := m b.
Definition K (b : Bloom) : Z := k b.

(** ** The bits *)

Record wf (b : Bloom) : Prop := {
  wf_m : 0 < m b <= 64 * zlen (bitset b);
  wf_words : Forall (fun w => 0 <= w < 2 ^ 64) (bitset b) }.

(** Bit [j] of the filter. *)
Definition bit (b : Bloom) (j : Z) : bool :=
  match zget (bitset b) (j / 64) with Some w => Z.testbit w (j mod 64) | None => false end.

(** The positions of a hash, from the [i]-th on. *)
Fixpoint positions (n : nat) (i mm h delta : Z) : list Z :=
  match n with
  | O => []
  | S n => u64 (h + u64 (i * delta)) mod mm :: positions n (i + 1) mm h delta
  end.

Definition places (b : Bloom) (hash : Z) : list Z :=
  positions (Z.to_nat (k b)) 0 (m b) hash (deltaOf hash).

Lemma mask_pow idx : maskOf idx = 2 ^ (idx mod 64).
Proof.
  unfold maskOf. pose proof (Z.mod_pos_bound idx 64 ltac:(lia)).
  rewrite Z.shiftl_1_l. apply u64_small. split; [apply Z.pow_nonneg; lia|apply Z.pow_lt_mono_r; lia].
Qed.

Lemma bits_land_mask w idx : (Z.land w (maskOf idx) =? 0) = negb (Z.testbit w (idx mod 64)).
Proof.
  rewrite mask_pow. pose proof (Z.mod_pos_bound idx 64 ltac:(lia)) as Hr.
  destruct (Z.testbit w (idx mod 64)) eqn:Et; cbn [negb].
  - apply Z.eqb_neq. intros E. apply (f_equal (fun z => Z.testbit z (idx mod 64))) in E.
    rewrite Z.land_spec, Et, Z.pow2_bits_true, Z.bits_0 in E by lia. done.
  - apply Z.eqb_eq. apply Z.bits_inj'. intros j Hj. rewrite Z.land_spec, Z.bits_0.
    destruct (decide (j = idx mod 64)) as [->|Hne]; [by rewrite Et|].
    rewrite Z.pow2_bits_false by lia. apply andb_false_r.
Qed.

Lemma word_at b j :
  wf b -> 0 <= j < m b -> exists w, zget (bitset b) (j / 64) = Some w /\ 0 <= w < 2 ^ 64 /\
    0 <= j / 64 < zlen (bitset b).
Proof.
  intros Hb Hj. assert (Hd : 0 <= j / 64 < zlen (bitset b)).
  { pose proof (wf_m _ Hb). split; [apply Z.div_pos; lia|]. apply Z.div_lt_upper_bound; lia. }
  destruct (zget_Some (bitset b) (j / 64) Hd) as [w Hw]. exists w. split; [done|]. split; [|done].
  unfold zget in Hw. rewrite bool_decide_eq_true_2 in Hw by lia.
  by apply (Forall_lookup_1 _ _ _ _ (wf_words _ Hb) Hw).
Qed.

(** Setting one bit. *)
Lemma set_bit b idx w :
  wf b -> 0 <= idx < m b -> zget (bitset b) (idx / 64) = Some w ->
  exists b', setWord b (idx / 64) (Z.lor w (maskOf idx)) = Some b' /\ wf b' /\ k b' = k b /\ m b' = m b /\
    forall j, 0 <= j -> bit b' j = bit b j || (j =? idx).
Proof.
  intros Hb Hi Hw. destruct (word_at b idx Hb Hi) as (w' & Hw' & Hr & Hd).
  rewrite Hw in Hw'. injection Hw' as <-. unfold setWord. rewrite zset_Some by done.
  cbn [mbind option_bind]. eexists. split; [reflexivity|].
  pose proof (Z.mod_pos_bound idx 64 ltac:(lia)) as Hrem.
  assert (Hlor : 0 <= Z.lor w (maskOf idx) < 2 ^ 64).
  { rewrite mask_pow. split; [apply Z.lor_nonneg; split; [lia|apply Z.pow_nonneg; lia]|].
    destruct (Z.eq_dec (Z.lor w (2 ^ (idx mod 64))) 0) as [->|Hne]; [lia|].
    apply Z.log2_lt_pow2.
    - assert (0 <= Z.lor w (2 ^ (idx mod 64))) by (apply Z.lor_nonneg; split; [lia|apply Z.pow_nonneg; lia]). lia.
    - rewrite Z.log2_lor by (lia || (apply Z.pow_nonneg; lia)). rewrite Z.log2_pow2 by lia.
      destruct (decide (w = 0)) as [->|Hw0]; [cbn; lia|].
      pose proof (proj1 (Z.log2_lt_pow2 w 64 ltac:(lia)) ltac:(lia)). lia. }
  split; [|split; [done|split; [done|]]].
  - split; cbn [bitset m]; [unfold zlen; rewrite length_insert; apply (wf_m _ Hb)|].
    by apply Forall_insert; [apply (wf_words _ Hb)|].
  - intros j Hj. unfold bit. cbn [bitset].
    assert (Hz : zget (<[Z.to_nat (idx / 64) := Z.lor w (maskOf idx)]> (bitset b)) (j / 64) =
                 if j / 64 =? idx / 64 then Some (Z.lor w (maskOf idx)) else zget (bitset b) (j / 64)).
    { eapply zset_get. by apply zset_Some. }
    rewrite Hz. destruct (Z.eqb_spec (j / 64) (idx / 64)) as [E|E].
    + rewrite E, Hw, mask_pow, Z.lor_spec. f_equal.
      destruct (Z.eqb_spec j idx) as [->|Hne]; [by rewrite Z.pow2_bits_true by lia|].
      apply Z.pow2_bits_false. intros Em. apply Hne.
      rewrite (Z.div_mod j 64), (Z.div_mod idx 64), E, Em by lia. done.
    + destruct (Z.eqb_spec j idx) as [->|_]; [done|]. by rewrite orb_false_r.
Qed.

Lemma index_spec b h delta i :
  wf b -> index b h delta i = Some (u64 (h + u64 (i * delta)) mod m b) /\
    0 <= u64 (h + u64 (i * delta)) mod m b < m b.
Proof.
  intros Hb. pose proof (wf_m _ Hb). unfold index. destruct (Z.eqb_spec (m b) 0); [lia|].
  split; [done|]. apply Z.mod_pos_bound. lia.
Qed.

Lemma addLoop_spec n : forall i b h delta,
  wf b -> exists b', addLoop n i b h delta = Some b' /\ wf b' /\ k b' = k b /\ m b' = m b /\
    forall j, 0 <= j -> bit b' j = bit b j || bool_decide (j ∈ positions n i (m b) h delta).
Proof.
  induction n as [|n IH]; intros i b h delta Hb; cbn [addLoop positions].
  - exists b. repeat split; try done; try apply Hb. intros j _.
    rewrite bool_decide_eq_false_2 by apply not_elem_of_nil. by rewrite orb_false_r.
  - destruct (index_spec b h delta i Hb) as [-> Hr]. cbn [mbind option_bind].
    destruct (word_at b _ Hb Hr) as (w & Hw & _ & _). rewrite Hw. cbn [mbind option_bind].
    destruct (set_bit b _ w Hb Hr Hw) as (b1 & -> & Hb1 & Ek & Em & Hbit). cbn [mbind option_bind].
    destruct (IH (i + 1) b1 h delta Hb1) as (b2 & E & Hb2 & Ek2 & Em2 & Hbit2).
    exists b2. split; [done|]. split; [done|]. split; [congruence|]. split; [congruence|].
    intros j Hj. rewrite Hbit2, Hbit, Em by done. rewrite <- orb_assoc. f_equal.
    apply eq_true_iff_eq. rewrite orb_true_iff, Z.eqb_eq, !bool_decide_eq_true, elem_of_cons. done.
Qed.

Lemma set_same b idx w :
  wf b -> 0 <= idx < m b -> zget (bitset b) (idx / 64) = Some w -> Z.testbit w (idx mod 64) = true ->
  setWord b (idx / 64) (Z.lor w (maskOf idx)) = Some b.
Proof.
  intros Hb Hi Hw Ht. destruct (word_at b idx Hb Hi) as (_ & _ & _ & Hd).
  assert (E : Z.lor w (maskOf idx) = w).
  { rewrite mask_pow. apply Z.bits_inj'. intros j Hj. rewrite Z.lor_spec.
    destruct (decide (j = idx mod 64)) as [->|Hne]; [by rewrite Ht|].
    rewrite Z.pow2_bits_false by (pose proof (Z.mod_pos_bound idx 64 ltac:(lia)); lia).
    apply orb_false_r. }
  rewrite E. unfold setWord. rewrite zset_Some by done. cbn. unfold zget in Hw.
  rewrite bool_decide_eq_true_2 in Hw by lia. rewrite list_insert_id by done. by destruct b.
Qed.

(** [AddIfNotHas] leaves what [Add] leaves and tells what [Has] tells. *)
Lemma addIfLoop_spec n : forall i b h delta p,
  wf b -> exists b', addLoop n i b h delta = Some b' /\
    addIfLoop n i b h delta p = Some (b', p && forallb (bit b) (positions n i (m b) h delta)).
Proof.
  induction n as [|n IH]; intros i b h delta p Hb; cbn [addLoop addIfLoop positions forallb].
  - exists b. by rewrite andb_true_r.
  - destruct (index_spec b h delta i Hb) as [-> Hr]. cbn [mbind option_bind].
    destruct (word_at b _ Hb Hr) as (w & Hw & _ & _). rewrite Hw. cbn [mbind option_bind].
    rewrite bits_land_mask. unfold bit at 1. rewrite Hw. destruct (Z.testbit w _) eqn:Et; cbn [negb andb].
    + rewrite (set_same b _ w Hb Hr Hw Et). cbn [mbind option_bind]. by apply IH.
    + destruct (set_bit b _ w Hb Hr Hw) as (b1 & -> & Hb1 & _ & _ & _). cbn [mbind option_bind].
      destruct (IH (i + 1) b1 h delta false Hb1) as (b' & E1 & E2). exists b'. split; [done|].
      rewrite E2. by rewrite andb_false_r.
Qed.

Lemma hasLoop_spec n : forall i b h delta,
  wf b -> hasLoop n i b h delta = Some (forallb (bit b) (positions n i (m b) h delta)).
Proof.
  induction n as [|n IH]; intros i b h delta Hb; cbn [hasLoop positions forallb]; [done|].
  destruct (index_spec b h delta i Hb) as [-> Hr]. cbn [mbind option_bind].
  destruct (word_at b _ Hb Hr) as (w & Hw & _ & _). rewrite Hw. cbn [mbind option_bind].
  rewrite bits_land_mask. unfold bit at 1. rewrite Hw. destruct (Z.testbit w _); cbn [negb andb]; [by apply IH|done].
Qed.

Lemma bloom_Add_spec b h :
  wf b -> exists b', Add b h = Some b' /\ wf b' /\ k b' = k b /\ m b' = m b /\
    forall j, 0 <= j -> bit b' j = bit b j || bool_decide (j ∈ places b h).
Proof. intros Hb. by apply addLoop_spec. Qed.

Lemma Has_spec b h : wf b -> Has b h = Some (forallb (bit b) (places b h)).
Proof. intros Hb. by apply hasLoop_spec. Qed.

Lemma places_nonneg b h j : wf b -> j ∈ places b h -> 0 <= j.
Proof.
  intros Hb. unfold places. pose proof (wf_m _ Hb).
  assert (Hg : forall n i delta, j ∈ positions n i (m b) h delta -> 0 <= j).
  { induction n as [|n IH]; intros i delta Hj; cbn in Hj; [by apply elem_of_nil in Hj|].
    apply elem_of_cons in Hj as [->|Hj]; [apply Z.mod_pos_bound; lia|by apply (IH (i + 1) delta)]. }
  apply Hg.
Qed.

Lemma forallb_elem (f : Z -> bool) l : forallb f l = true <-> forall j, j ∈ l -> f j = true.
Proof. rewrite forallb_forall. by setoid_rewrite list_elem_of_In. Qed.

Lemma newBloom_spec mm kk :
  0 < mm < 2 ^ 64 - 63 -> wf (newBloom mm kk) /\ forall j, 0 <= j -> bit (newBloom mm kk) j = false.
Proof.
  intros Hm. unfold newBloom. rewrite u64_small by lia. split.
  - split; cbn [m bitset].
    + assert (Hd : 0 <= (mm + 63) / 64) by (apply Z.div_pos; lia). rewrite zeros_zlen by done.
      split; [lia|]. pose proof (Z.div_mod (mm + 63) 64 ltac:(lia)).
      pose proof (Z.mod_pos_bound (mm + 63) 64 ltac:(lia)). lia.
    + unfold zeros. apply Forall_replicate. lia.
  - intros j Hj. unfold bit. cbn [bitset]. unfold zget, zeros. case_bool_decide; [|done].
    destruct (replicate _ 0 !! _) as [w|] eqn:E; [|done].
    apply lookup_replicate in E as [-> _]. apply Z.bits_0.
Qed.

(** ** Sequences of operations *)

Inductive bop := BAdd (h : Z) | BAddIfNotHas (h : Z) | BHas (h : Z) | BClear.

Definition bstep (b : Bloom) (o : bop) : option (Bloom * option bool) :=
  match o with
  | BAdd h => b' ← Add b h; Some (b', None)
  | BAddIfNotHas h => '(b', r) ← AddIfNotHas b h; Some (b', Some r)
  | BHas h => r ← Has b h; Some (b, Some r)
  | BClear => Some (Clear b, None)
  end.

Fixpoint brun (b : Bloom) (ops : list bop) : option (Bloom * list (option bool)) :=
  match ops with
  | [] => Some (b, [])
  | o :: r => '(b', x) ← bstep b o; '(b'', l) ← brun b' r; Some (b'', x :: l)
  end.

(** The hashes added since the last [Clear]. *)
Definition added (l : list Z) (o : bop) : list Z :=
  match o with
  | BAdd h | BAddIfNotHas h => h :: l
  | BHas _ => l
  | BClear => []
  end.

(** What the set of positions of the hashes [l] says of a hash. *)
Definition covered (mm kk : Z) (l : list Z) (h : Z) : bool :=
  forallb (fun j => existsb (fun h' => bool_decide (j ∈ positions (Z.to_nat kk) 0 mm h' (deltaOf h'))) l)
    (positions (Z.to_nat kk) 0 mm h (deltaOf h)).

Definition answer (mm kk : Z) (l : list Z) (o : bop) : option bool :=
  match o with
  | BAddIfNotHas h | BHas h => Some (covered mm kk l h)
  | _ => None
  end.

Fixpoint answers (mm kk : Z) (l : list Z) (ops : list bop) : list (option bool) :=
  match ops with
  | [] => []
  | o :: r => answer mm kk l o :: answers mm kk (added l o) r
  end.

(** The bits of [b] are the positions of the hashes [l]. *)
Definition holds (b : Bloom) (l : list Z) : Prop :=
  wf b /\ forall j, 0 <= j -> bit b j = existsb (fun h => bool_decide (j ∈ places b h)) l.

Lemma Has_holds b l h : holds b l -> Has b h = Some (covered (m b) (k b) l h).
Proof.
  intros [Hb Hl]. rewrite Has_spec by done. unfold covered. f_equal. apply eq_true_iff_eq.
  rewrite !forallb_elem. fold (places b h).
  split; intros H j Hj; specialize (H j Hj);
    pose proof (places_nonneg b h j Hb Hj) as H0; rewrite Hl in * by done; done.
Qed.

Lemma Add_holds b l h :
  holds b l -> exists b', Add b h = Some b' /\ holds b' (h :: l) /\ k b' = k b /\ m b' = m b.
Proof.
  intros [Hb Hl]. destruct (bloom_Add_spec b h Hb) as (b' & E & Hb' & Ek & Em & Hbit).
  exists b'. split; [done|]. split; [|done]. split; [done|]. intros j Hj.
  unfold places. rewrite Ek, Em. cbn [existsb]. rewrite Hbit, Hl, orb_comm by done. done.
Qed.

Lemma bstep_holds b l o :
  holds b l -> exists b', bstep b o = Some (b', answer (m b) (k b) l o) /\
    holds b' (added l o) /\ k b' = k b /\ m b' = m b.
Proof.
  intros Hb. destruct o as [h|h|h|]; cbn [bstep answer added].
  - destruct (Add_holds b l h Hb) as (b' & -> & H & ? & ?). by exists b'.
  - destruct (Add_holds b l h Hb) as (b' & E & H & Ek & Em). exists b'.
    pose proof (Has_holds b l h Hb) as Hh. destruct Hb as [Hw Hl]. rewrite Has_spec in Hh by done.
    injection Hh as Hh. unfold AddIfNotHas.
    destruct (addIfLoop_spec (Z.to_nat (k b)) 0 b h (deltaOf h) true Hw) as (b1 & E1 & ->).
    unfold Add in E. rewrite E in E1. injection E1 as <-. cbn [mbind option_bind andb].
    fold (places b h). by rewrite Hh.
  - rewrite (Has_holds b l h Hb). by exists b.
  - exists (Clear b). split; [done|]. split; [|done]. destruct Hb as [Hw _]. split.
    + split; cbn; [unfold zlen; rewrite length_fmap; apply (wf_m _ Hw)|].
      apply Forall_fmap, Forall_true. cbn. lia.
    + intros j _. cbn [existsb]. unfold bit. cbn [bitset Clear]. unfold zget. case_bool_decide; [|done].
      rewrite list_lookup_fmap. destruct (bitset b !! _); [|done]. cbn. apply Z.bits_0.
Qed.

Lemma brun_holds ops : forall b l,
  holds b l -> exists b', brun b ops = Some (b', answers (m b) (k b) l ops) /\
    holds b' (fold_left added ops l) /\ k b' = k b /\ m b' = m b.
Proof.
  induction ops as [|o ops IH]; intros b l Hb; [by exists b|]. cbn [brun answers fold_left].
  destruct (bstep_holds b l o Hb) as (b1 & -> & H1 & Ek & Em). cbn [mbind option_bind].
  destruct (IH b1 (added l o) H1) as (b2 & -> & H2 & Ek2 & Em2). cbn [mbind option_bind].
  exists b2. rewrite Ek, Em in *. split; [done|]. split; [done|]. split; congruence.
Qed.

Lemma covered_self mm kk l h : h ∈ l -> covered mm kk l h = true.
Proof.
  intros Hh. unfold covered. apply forallb_elem. intros j Hj. apply existsb_exists. exists h.
  split; [by apply list_elem_of_In|]. by apply bool_decide_eq_true.
Qed.

(** Whatever the number of bits and of hash functions, any sequence of
    [Add], [AddIfNotHas], [Has] and [Clear] runs without a panic, and every
    answer is that of the set of bit positions of the hashes added since the
    last [Clear]: [Has] is true exactly if all positions of the hash are
    taken, so it is true of every hash added; [AddIfNotHas] answers what [Has]
    would have and adds. *)
Theorem bloom_answers_positions mm kk ops :
  0 < mm < 2 ^ 64 - 63 ->
  exists b, brun (newBloom mm kk) ops = Some (b, answers mm kk [] ops) /\
    forall h, Has b h = Some (covered mm kk (fold_left added ops []) h) /\
      (h ∈ fold_left added ops [] -> Has b h = Some true).
Proof.
  intros Hm. destruct (newBloom_spec mm kk Hm) as [Hw Hb].
  assert (Hh : holds (newBloom mm kk) []) by (split; [done|]; intros j Hj; by rewrite Hb).
  destruct (brun_holds ops _ [] Hh) as (b & E & Hl & Ek & Em). exists b. split; [done|].
  intros h. rewrite (Has_holds b _ h Hl), Ek, Em. cbn [k m newBloom]. split; [done|].
  intros Hin. by rewrite covered_self.
Qed.

Lemma bloom_answers_positions_witness :
  exists b, brun (newBloom 100 3) [BAdd 12345; BAddIfNotHas 12345; BHas 77; BAddIfNotHas (2 ^ 63 + 5)] =
      Some (b, answers 100 3 [] [BAdd 12345; BAddIfNotHas 12345; BHas 77; BAddIfNotHas (2 ^ 63 + 5)]) /\
    forall h, Has b h = Some (covered 100 3 [2 ^ 63 + 5; 12345; 12345] h) /\
      (h ∈ [2 ^ 63 + 5; 12345; 12345] -> Has b h = Some true).
Proof.
  exact (bloom_answers_positions 100 3 [BAdd 12345; BAddIfNotHas 12345; BHas 77; BAddIfNotHas (2 ^ 63 + 5)]
           ltac:(lia)).
Defined.
