(* ===== verification/Sketch.v ===== *)
(** * Count-min sketch with 4-bit counters ([src/pkg/datastructs/sketch])

    A row packs two counters into a byte; the sketch has four rows with a seed
    each.  The seeds, random in the source, are arguments.  The theorem gives
    every estimate as a minimum of saturating counters, one per row, driven
    by the hashes that share the slot. *)

From stdpp Require Import base list option.
From Stdlib Require Import ZArith Lia.
From S2P Require Import Prelude Num.

#[local] Open Scope Z_scope.

Definition cmDepth : nat := 4.
Definition maxCount : Z := 15.
Definition agingMask : Z := 0x77.
Definition counterShift : Z := 4.

(** ** Rows *)

Notation cmRow := (list Z) (only parsing).

Definition newCmRow (numCounters : Z) : cmRow := zeros (numCounters / 2).

Definition get (r : cmRow) (n : Z) : option Z :=
  b ← zget r (n / 2);
  Some (Z.land (Z.shiftr b (Z.land n 1 * counterShift)) maxCount).

Definition increment (r : cmRow) (n : Z) : option cmRow :=
  let s := Z.land n 1 * counterShift in
  let i := n / 2 in
  b ← zget r i;
  let v := Z.land (Z.shiftr b s) maxCount in
  if v <? maxCount then zset r i (u8 (b + u8 (Z.shiftl 1 s))) else Some r.

Definition resetRow (r : cmRow) : cmRow := (fun b => Z.land (Z.shiftr b 1) agingMask) <$> r.

Definition clearRow (r : cmRow) : cmRow := (fun _ => 0) <$> r.

(** ** The sketch *)

Record Sketch := mkSketch { rows : list cmRow; seed : list Z; smask : Z }.

Definition New (numCounters : Z) (seeds : list Z) : option Sketch :=
  let numCounters := if numCounters <=? 0 then 1 else numCounters in
  n ← CeilToPowerOfTwo numCounters;
  Some (mkSketch (replicate cmDepth (newCmRow n)) seeds (u64 (n - 1))).

Definition slot (mask sd hash : Z) : Z := Z.land (Z.lxor hash sd) mask.

Fixpoint incLoop (rs : list cmRow) (sds : list Z) (mask hash : Z) : option (list cmRow) :=
  match rs, sds with
  | [], _ => Some []
  | r :: rs', sd :: sds' =>
      r' ← increment r (slot mask sd hash);
      l ← incLoop rs' sds' mask hash;
      Some (r' :: l)
  | _, [] => None
  end.

Definition Increment (s : Sketch) (hash : Z) : option Sketch :=
  l ← incLoop (rows s) (seed s) (smask s) hash; Some (mkSketch l (seed s) (smask s)).

Fixpoint estLoop (rs : list cmRow) (sds : list Z) (mask hash min : Z) : option Z :=
  match rs, sds with
  | [], _ => Some min
  | r :: rs', sd :: sds' =>
      val ← get r (slot mask sd hash);
      estLoop rs' sds' mask hash (if val <? min then val else min)
  | _, [] => None
  end.

Definition Estimate (s : Sketch) (hash : Z) : option Z :=
  estLoop (rows s) (seed s) (smask s) hash 255.

Definition Reset (s : Sketch) : Sketch := mkSketch (resetRow <$> rows s) (seed s) (smask s).
Definition Clear (s : Sketch) : Sketch := mkSketch (clearRow <$> rows s) (seed s) (smask s).

(** ** Rows as counters *)

(** Facts on one byte, checked on all 256. *)
Lemma byte_all (P : Z -> bool) :
  forallb P (seqZ 0 256) = true -> forall b, 0 <= b < 256 -> P b = true.
Proof.
  intros H b Hb. rewrite forallb_forall in H. apply H. apply list_elem_of_In, elem_of_seqZ. lia.
Qed.

Definition nib (b : Z) (par : Z) : Z := Z.land (Z.shiftr b (par * counterShift)) maxCount.

Lemma nib_range b par : 0 <= b < 256 -> par = 0 \/ par = 1 -> 0 <= nib b par <= 15.
Proof.
  intros Hb [-> | ->].
  - assert (H := byte_all (fun b => (0 <=? nib b 0) && (nib b 0 <=? 15)) eq_refl b Hb).
    cbv beta in H. lia.
  - assert (H := byte_all (fun b => (0 <=? nib b 1) && (nib b 1 <=? 15)) eq_refl b Hb).
    cbv beta in H. lia.
Qed.

Definition bump (b par : Z) : Z := u8 (b + u8 (Z.shiftl 1 (par * counterShift))).

Lemma nib_bump b par par' :
  0 <= b < 256 -> par = 0 \/ par = 1 -> par' = 0 \/ par' = 1 -> nib b par < maxCount ->
  nib (bump b par) par' = nib b par' + (if par' =? par then 1 else 0).
Proof.
  intros Hb Hp Hp' Hn.
  assert (H : (negb (nib b par <? maxCount) ||
                (nib (bump b par) par' =? nib b par' + (if par' =? par then 1 else 0))) = true).
  { destruct Hp as [-> | ->], Hp' as [-> | ->];
      refine (byte_all (fun b => negb (nib b _ <? maxCount) || (nib (bump b _) _ =? nib b _ + _)) _ b Hb);
      vm_compute; reflexivity. }
  destruct (Z.ltb_spec (nib b par) maxCount); cbn in H; lia.
Qed.

Lemma nib_reset b par :
  0 <= b < 256 -> par = 0 \/ par = 1 -> nib (Z.land (Z.shiftr b 1) agingMask) par = nib b par / 2.
Proof.
  intros Hb [-> | ->]; apply Z.eqb_eq.
  - refine (byte_all (fun b => nib (Z.land (Z.shiftr b 1) agingMask) 0 =? nib b 0 / 2) _ b Hb). vm_compute. reflexivity.
  - refine (byte_all (fun b => nib (Z.land (Z.shiftr b 1) agingMask) 1 =? nib b 1 / 2) _ b Hb). vm_compute. reflexivity.
Qed.

Lemma reset_byte b : 0 <= b < 256 -> 0 <= Z.land (Z.shiftr b 1) agingMask < 256.
Proof.
  intros Hb.
  assert (H := byte_all (fun b => (0 <=? Z.land (Z.shiftr b 1) agingMask) &&
                                  (Z.land (Z.shiftr b 1) agingMask <? 256)) eq_refl b Hb).
  cbv beta in H. lia.
Qed.

Lemma parity n : Z.land n 1 = n mod 2.
Proof. change 1 with (Z.ones 1). apply Z.land_ones. lia. Qed.

Lemma parity_cases n : Z.land n 1 = 0 \/ Z.land n 1 = 1.
Proof. rewrite parity. pose proof (Z.mod_pos_bound n 2 ltac:(lia)). lia. Qed.

(** A row of [2 * zlen r] counters, with values from 0 to 15. *)
Definition row_ok (r : cmRow) : Prop := Forall is_byte r.

Definition counter (r : cmRow) (n : Z) : Z :=
  match get r n with Some v => v | None => 0 end.

Lemma get_spec r n :
  row_ok r -> 0 <= n < 2 * zlen r ->
  get r n = Some (counter r n) /\ 0 <= counter r n <= maxCount /\
  exists b, zget r (n / 2) = Some b /\ 0 <= b < 256 /\ counter r n = nib b (Z.land n 1).
Proof.
  intros Hr Hn. assert (Hd : 0 <= n / 2 < zlen r) by (split; [apply Z.div_pos; lia|apply Z.div_lt_upper_bound; lia]).
  destruct (zget_Some r _ Hd) as [b Hb].
  assert (Hbyte : 0 <= b < 256).
  { unfold zget in Hb. rewrite bool_decide_eq_true_2 in Hb by lia. by apply (Forall_lookup_1 _ _ _ _ Hr Hb). }
  unfold counter, get. rewrite Hb. cbn [mbind option_bind]. split; [done|]. split.
  - apply (nib_range b); [done|apply parity_cases].
  - by exists b.
Qed.

Lemma increment_spec r n :
  row_ok r -> 0 <= n < 2 * zlen r ->
  exists r', increment r n = Some r' /\ row_ok r' /\ zlen r' = zlen r /\
    forall j, 0 <= j < 2 * zlen r ->
      counter r' j = if j =? n then Z.min maxCount (counter r n + 1) else counter r j.
Proof.
  intros Hr Hn. destruct (get_spec r n Hr Hn) as (_ & Hc & b & Hb & Hbyte & En).
  unfold increment. rewrite Hb. cbn [mbind option_bind]. fold (nib b (Z.land n 1)). rewrite <- En.
  destruct (Z.ltb_spec (counter r n) maxCount) as [Hlt|Hge]; last first.
  { exists r. split; [done|]. split; [done|]. split; [done|]. intros j _.
    destruct (Z.eqb_spec j n) as [->|]; [lia|done]. }
  fold (bump b (Z.land n 1)).
  assert (Hd : 0 <= n / 2 < zlen r) by (split; [apply Z.div_pos; lia|apply Z.div_lt_upper_bound; lia]).
  rewrite zset_Some by done. eexists. split; [reflexivity|].
  assert (Hbb : 0 <= bump b (Z.land n 1) < 256) by (unfold bump, u8; apply Z.mod_pos_bound; lia).
  split; [by apply Forall_insert|]. split; [unfold zlen; by rewrite length_insert|].
  intros j Hj. destruct (get_spec r j Hr Hj) as (_ & _ & b' & Hb' & Hbyte' & Ej).
  rewrite Ej. set (r' := <[Z.to_nat (n / 2) := bump b (Z.land n 1)]> (r : list Z)).
  assert (Hz : zget r' (j / 2) =
               if j / 2 =? n / 2 then Some (bump b (Z.land n 1)) else zget r (j / 2)).
  { eapply (zset_get r). by apply zset_Some. }
  unfold counter at 1, get. rewrite Hz. destruct (Z.eqb_spec (j / 2) (n / 2)) as [E|E].
  - rewrite E, Hb in Hb'. injection Hb' as <-. cbn [mbind option_bind].
    fold (nib (bump b (Z.land n 1)) (Z.land j 1)).
    rewrite nib_bump by (done || apply parity_cases || lia).
    pose proof (Z.div_mod j 2 ltac:(lia)). pose proof (Z.div_mod n 2 ltac:(lia)). rewrite !parity in *.
    destruct (Z.eqb_spec (j mod 2) (n mod 2)), (Z.eqb_spec j n) as [->|]; lia.
  - rewrite Hb'. cbn [mbind option_bind]. destruct (Z.eqb_spec j n) as [->|]; [done|]. done.
Qed.

Lemma resetRow_spec r :
  row_ok r -> row_ok (resetRow r) /\ zlen (resetRow r) = zlen r /\
    forall j, 0 <= j < 2 * zlen r -> counter (resetRow r) j = counter r j / 2.
Proof.
  intros Hr. split; [|split].
  - unfold row_ok, resetRow. apply Forall_fmap. eapply Forall_impl; [|exact Hr].
    intros b Hb. by apply reset_byte.
  - unfold zlen, resetRow. by rewrite length_fmap.
  - intros j Hj. destruct (get_spec r j Hr Hj) as (_ & _ & b & Hb & Hbyte & ->).
    unfold counter, get, resetRow, zget in *. case_bool_decide; [|done].
    rewrite list_lookup_fmap, Hb. cbn [fmap option_fmap option_map mbind option_bind].
    fold (nib (Z.land (Z.shiftr b 1) agingMask) (Z.land j 1)). apply nib_reset; [done|apply parity_cases].
Qed.

Lemma clearRow_spec r :
  row_ok (clearRow r) /\ zlen (clearRow r) = zlen r /\ forall j, counter (clearRow r) j = 0.
Proof.
  split; [|split].
  - unfold row_ok, clearRow. apply Forall_fmap, Forall_true. cbn. unfold is_byte. lia.
  - unfold zlen, clearRow. by rewrite length_fmap.
  - intros j. unfold counter, get, clearRow, zget. case_bool_decide; [|done].
    rewrite list_lookup_fmap. destruct (r !! Z.to_nat (j / 2)); [|done]. cbn [fmap option_fmap option_map mbind option_bind].
    by rewrite Z.shiftr_0_l.
Qed.

(** ** Saturating counters *)

Inductive sop := SInc (h : Z) | SReset | SClear.

(** A counter that counts the hashes [p] accepts, up to 15. *)
Definition tick (p : Z -> bool) (c : Z) (o : sop) : Z :=
  match o with
  | SInc h => if p h then Z.min maxCount (c + 1) else c
  | SReset => c / 2
  | SClear => 0
  end.

Definition tally (p : Z -> bool) (ops : list sop) : Z := fold_left (tick p) ops 0.

Lemma tally_mono p q ops :
  (forall h, p h = true -> q h = true) -> tally p ops <= tally q ops.
Proof.
  intros Hpq. unfold tally. assert (H : forall c d, c <= d -> d <= 15 ->
    fold_left (tick p) ops c <= fold_left (tick q) ops d); [|by apply H].
  induction ops as [|o ops IH]; intros c d Hcd Hd; cbn [fold_left]; [done|].
  unfold maxCount in *. destruct o as [h| |]; cbn [tick]; unfold maxCount.
  - destruct (p h) eqn:Ep; [rewrite (Hpq h Ep); apply IH; lia|].
    destruct (q h); apply IH; lia.
  - apply IH; [by apply Z.div_le_mono; lia|]. dlia.
  - apply IH; lia.
Qed.

(** What an operation does to a row, seen at its counters. *)
Definition row_is (mask sd : Z) (r : cmRow) (ops : list sop) : Prop :=
  row_ok r /\ 2 * zlen r = mask + 1 /\
  forall j, 0 <= j <= mask -> counter r j = tally (fun h => slot mask sd h =? j) ops.

Lemma slot_range mask sd h : is_pow2 (mask + 1) -> 0 <= slot mask sd h <= mask.
Proof.
  intros Hm. unfold slot.
  assert (E : Z.land (Z.lxor h sd) mask = Z.land (Z.lxor h sd) (mask + 1 - 1)) by (f_equal; lia).
  rewrite E, (land_pow2_mod _ _ Hm).
  pose proof (Z.mod_pos_bound (Z.lxor h sd) (mask + 1) (is_pow2_pos _ Hm)). lia.
Qed.

Lemma tally_snoc p ops o : tally p (ops ++ [o]) = tick p (tally p ops) o.
Proof. unfold tally. by rewrite fold_left_app. Qed.

Lemma row_increment mask sd r ops h :
  is_pow2 (mask + 1) -> row_is mask sd r ops ->
  exists r', increment r (slot mask sd h) = Some r' /\ row_is mask sd r' (ops ++ [SInc h]).
Proof.
  intros Hm (Hr & Hl & Hc). pose proof (slot_range mask sd h Hm) as Hs.
  destruct (increment_spec r (slot mask sd h) Hr ltac:(lia)) as (r' & E & Hr' & Hl' & Hc').
  exists r'. split; [done|]. split; [done|]. split; [lia|]. intros j Hj.
  rewrite tally_snoc, Hc' by lia. cbn [tick]. rewrite !Hc by lia.
  rewrite (Z.eqb_sym j). destruct (Z.eqb_spec (slot mask sd h) j) as [<-|]; done.
Qed.

Lemma row_reset mask sd r ops :
  row_is mask sd r ops -> row_is mask sd (resetRow r) (ops ++ [SReset]).
Proof.
  intros (Hr & Hl & Hc). destruct (resetRow_spec r Hr) as (Hr' & Hl' & Hc').
  split; [done|]. split; [lia|]. intros j Hj. rewrite tally_snoc, Hc', Hc by lia. done.
Qed.

Lemma row_clear mask sd r ops :
  row_is mask sd r ops -> row_is mask sd (clearRow r) (ops ++ [SClear]).
Proof.
  intros (Hr & Hl & Hc). destruct (clearRow_spec r) as (Hr' & Hl' & Hc').
  split; [done|]. split; [lia|]. intros j Hj. rewrite tally_snoc, Hc'. done.
Qed.

(** ** The sketch as four rows *)

Definition sketch_is (s : Sketch) (mask : Z) (seeds : list Z) (ops : list sop) : Prop :=
  smask s = mask /\ seed s = seeds /\ is_pow2 (mask + 1) /\
  Forall2 (fun r sd => row_is mask sd r ops) (rows s) seeds.

Lemma incLoop_spec mask h ops rs sds :
  is_pow2 (mask + 1) -> Forall2 (fun r sd => row_is mask sd r ops) rs sds ->
  exists l, incLoop rs sds mask h = Some l /\
    Forall2 (fun r sd => row_is mask sd r (ops ++ [SInc h])) l sds.
Proof.
  intros Hm H. induction H as [|r sd rs sds Hr _ IH]; cbn [incLoop]; [by exists []|].
  destruct (row_increment mask sd r ops h Hm Hr) as (r' & -> & Hr'). cbn [mbind option_bind].
  destruct IH as (l & -> & Hl). cbn [mbind option_bind]. exists (r' :: l). split; [done|]. by constructor.
Qed.

Definition sstep (s : Sketch) (o : sop) : option Sketch :=
  match o with
  | SInc h => Increment s h
  | SReset => Some (Reset s)
  | SClear => Some (Clear s)
  end.

Fixpoint srun (s : Sketch) (ops : list sop) : option Sketch :=
  match ops with
  | [] => Some s
  | o :: r => s' ← sstep s o; srun s' r
  end.

Lemma sstep_spec s mask seeds ops o :
  sketch_is s mask seeds ops -> exists s', sstep s o = Some s' /\ sketch_is s' mask seeds (ops ++ [o]).
Proof.
  intros (Em & Es & Hm & Hr). destruct o as [h| |]; cbn [sstep].
  - unfold Increment. rewrite Em, Es. destruct (incLoop_spec mask h ops _ _ Hm Hr) as (l & -> & Hl).
    cbn [mbind option_bind]. eexists. split; [reflexivity|]. by repeat split.
  - eexists. split; [reflexivity|]. split; [done|]. split; [done|]. split; [done|]. cbn [rows Reset].
    apply Forall2_fmap_l. eapply Forall2_impl; [|exact Hr]. intros r sd. by apply row_reset.
  - eexists. split; [reflexivity|]. split; [done|]. split; [done|]. split; [done|]. cbn [rows Clear].
    apply Forall2_fmap_l. eapply Forall2_impl; [|exact Hr]. intros r sd. by apply row_clear.
Qed.

Lemma srun_spec ops : forall s mask seeds done_,
  sketch_is s mask seeds done_ -> exists s', srun s ops = Some s' /\ sketch_is s' mask seeds (done_ ++ ops).
Proof.
  induction ops as [|o ops IH]; intros s mask seeds d Hs; cbn [srun].
  - exists s. by rewrite app_nil_r.
  - destruct (sstep_spec s mask seeds d o Hs) as (s1 & -> & H1). cbn [mbind option_bind].
    destruct (IH s1 mask seeds _ H1) as (s2 & E & H2). exists s2. by rewrite <- app_assoc in H2.
Qed.

(** The smallest of the tallies of the rows, at most [min]. *)
Definition least (mask : Z) (seeds : list Z) (ops : list sop) (h min : Z) : Z :=
  fold_left (fun acc sd => Z.min acc (tally (fun h' => slot mask sd h' =? slot mask sd h) ops)) seeds min.

Lemma estLoop_spec mask h ops rs sds : forall min,
  is_pow2 (mask + 1) -> Forall2 (fun r sd => row_is mask sd r ops) rs sds ->
  estLoop rs sds mask h min = Some (least mask sds ops h min).
Proof.
  intros min Hm H. revert min. induction H as [|r sd rs sds Hr _ IH]; intros min; cbn [estLoop]; [done|].
  destruct Hr as (Hok & Hl & Hc). pose proof (slot_range mask sd h Hm) as Hs.
  destruct (get_spec r (slot mask sd h) Hok ltac:(lia)) as (-> & _ & _). cbn [mbind option_bind].
  rewrite IH, Hc by lia. unfold least. cbn [fold_left]. f_equal. f_equal. zb; lia.
Qed.

Lemma least_ge mask seeds ops h : forall min,
  tally (fun h' => h' =? h) ops <= min -> tally (fun h' => h' =? h) ops <= least mask seeds ops h min.
Proof.
  unfold least. induction seeds as [|sd seeds IH]; intros min Hmin; cbn [fold_left]; [done|].
  apply IH. apply Z.min_glb; [done|]. apply tally_mono.
  intros h' ->%Z.eqb_eq. apply Z.eqb_refl.
Qed.

Lemma least_le_each mask seeds ops h sd : forall min,
  sd ∈ seeds -> least mask seeds ops h min <= tally (fun h' => slot mask sd h' =? slot mask sd h) ops.
Proof.
  assert (Hle : forall l min, least mask l ops h min <= min).
  { unfold least. induction l as [|s l IH]; intros min; cbn [fold_left]; [lia|]. rewrite IH. lia. }
  induction seeds as [|s seeds IH]; intros min Hs; [by apply elem_of_nil in Hs|].
  unfold least. cbn [fold_left]. apply elem_of_cons in Hs as [->|Hs].
  - etrans; [apply Hle|]. lia.
  - by apply IH.
Qed.

Lemma tally_range p ops : 0 <= tally p ops <= maxCount.
Proof.
  unfold tally. assert (H : forall c, 0 <= c <= maxCount -> 0 <= fold_left (tick p) ops c <= maxCount).
  { induction ops as [|o ops IH]; intros c Hc; cbn [fold_left]; [done|]. apply IH.
    unfold maxCount in *. destruct o as [h| |]; cbn [tick]; unfold maxCount; [destruct (p h); lia| |lia]. dlia. }
  apply H. unfold maxCount. lia.
Qed.

Lemma counter_zero n j : counter (newCmRow n) j = 0.
Proof.
  unfold counter, get, newCmRow, zeros, zget. case_bool_decide; [|done].
  destruct (replicate _ 0 !! _) as [b|] eqn:E; [|done]. apply lookup_replicate in E as [-> _].
  cbn [mbind option_bind]. by rewrite Z.shiftr_0_l.
Qed.

Lemma sketch_New_spec numCounters seeds :
  numCounters <= 2 ^ 62 -> length seeds = cmDepth ->
  exists s mask, New numCounters seeds = Some s /\ sketch_is s mask seeds [] /\
    Z.max 2 numCounters <= mask + 1.
Proof.
  intros Hn Hs. unfold New. set (n' := if numCounters <=? 0 then 1 else numCounters).
  assert (Hn' : n' <= 2 ^ 62) by (unfold n'; zb; lia).
  destruct (CeilToPowerOfTwo_range n' Hn') as (e & -> & He & Hle & _ & _). cbn [mbind option_bind].
  assert (Hp : 2 <= 2 ^ e <= 2 ^ 62).
  { split; [change 2 with (2 ^ 1) at 1; apply Z.pow_le_mono_r; lia|apply Z.pow_le_mono_r; lia]. }
  rewrite u64_small by lia. exists (mkSketch (replicate cmDepth (newCmRow (2 ^ e))) seeds (2 ^ e - 1)), (2 ^ e - 1).
  split; [done|]. split.
  - split; [done|]. split; [done|]. split; [exists e; lia|]. cbn [rows].
    assert (Hhalf : 2 * (2 ^ e / 2) = 2 ^ e).
    { replace e with (e - 1 + 1) at 1 2 by lia. rewrite Z.pow_add_r by lia. rewrite Z.div_mul by lia. lia. }
    apply Forall2_same_length_lookup_2; [by rewrite length_replicate|].
    intros i r sd [-> _]%lookup_replicate _. split; [|split].
    + unfold row_ok, newCmRow, zeros. apply Forall_replicate. unfold is_byte. lia.
    + unfold newCmRow. rewrite zeros_zlen by (apply Z.div_pos; lia). lia.
    + intros j _. apply counter_zero.
  - unfold n' in Hle. zb; lia.
Qed.

(** C19: for any number of counters up to 2^62 and any four seeds, a sequence
    of [Increment], [Reset] and [Clear] runs without a panic, and [Estimate]
    of a hash is the smallest over the rows of a saturating 4-bit counter of
    the hashes that share its slot in the row: incremented by one up to 15,
    halved by [Reset], zero after [Clear].  So it is never below the counter
    of the hash alone, and never above 15. *)
Theorem sketch_estimates numCounters seeds ops h :
  numCounters <= 2 ^ 62 -> length seeds = cmDepth ->
  exists s mask s' e, New numCounters seeds = Some s /\ srun s ops = Some s' /\
    Z.max 2 numCounters <= mask + 1 /\
    Estimate s' h = Some e /\ e = least mask seeds ops h 255 /\
    tally (fun h' => h' =? h) ops <= e <= maxCount.
Proof.
  intros Hn Hs. destruct (sketch_New_spec numCounters seeds Hn Hs) as (s & mask & E & H0 & Hmask).
  destruct (srun_spec ops s mask seeds [] H0) as (s' & E' & Em & Es & Hm & Hr). cbn [app] in Hr.
  exists s, mask, s', (least mask seeds ops h 255). split; [done|]. split; [done|]. split; [done|].
  split; [unfold Estimate; rewrite Em, Es; by apply estLoop_spec|]. split; [done|]. split.
  - apply least_ge. pose proof (tally_range (fun h' => h' =? h) ops). unfold maxCount in *. lia.
  - destruct seeds as [|sd seeds]; [done|]. etrans; [apply (least_le_each _ _ _ _ sd); by left|].
    apply tally_range.
Qed.

Lemma sketch_estimates_witness :
  let ops := replicate 20 (SInc 888) ++ [SInc 12; SReset] in
  exists s mask s' e, New 1000 [1; 2; 3; 4] = Some s /\ srun s ops = Some s' /\
    Z.max 2 1000 <= mask + 1 /\
    Estimate s' 888 = Some e /\ e = least mask [1; 2; 3; 4] ops 888 255 /\
    tally (fun h' => h' =? 888) ops <= e <= maxCount.
Proof. exact (sketch_estimates 1000 [1; 2; 3; 4] _ 888 ltac:(lia) eq_refl). Defined.

Example sketch_saturates :
  (s ← New 1000 [1; 2; 3; 4]; s' ← srun s (replicate 20 (SInc 888)); Estimate s' 888) = Some 15 /\
  (s ← New 1000 [1; 2; 3; 4]; s' ← srun s (replicate 20 (SInc 888) ++ [SReset]); Estimate s' 888) = Some 7.
Proof. split; vm_compute; reflexivity. Qed.
