(* ===== verification/SortSlice.v ===== *)
(** * Sorting the slices of a buffer ([src/pkg/datastructs/buffer/sort.go])

    [SortSlice] sorts the length-prefixed slices of a [Buffer] in place:
    chunks of up to 1024 slices are sorted through [sort.Slice] of the Go
    library, then merged bottom up, the left half of a merge copied to a
    temporary buffer while the right half is read from the array that is being
    written.  The model keeps that aliasing: the right half is a position in
    the same array.  [sort.Slice], which is not stable, is an argument, with
    its documented behaviour as a hypothesis; the capacity hint of the
    temporary buffer, computed with floats, is an argument too. *)

From stdpp Require Import base list option sorting.
From Stdlib Require Import ZArith Lia.
From S2P Require Import Prelude Endian Buffer.

#[local] Open Scope Z_scope.

Definition sortChunkSize : Z := 1024.

Definition rawSlice (p : list byte) : option (list byte) :=
  n ← BigEndianGet 8 p;
  zslice p 0 (i64 (headerSize + i64 n)).

Section sort.
Context (less : list byte -> list byte -> bool).
Context (sortInts : (Z -> Z -> bool) -> list Z -> list Z).

(** The loop that collects the start of every chunk. *)
Fixpoint chunkLoop (fuel : nat) (b : Buffer) (next end_ count : Z) (offsets : list Z)
    : option (list Z) :=
  if (0 <=? next) && (next <? end_) then
    match fuel with
    | O => None
    | S f =>
        let offsets := if count mod sortChunkSize =? 0 then offsets ++ [next] else offsets in
        '(_, next) ← Slice b next;
        chunkLoop f b next end_ (count + 1) offsets
    end
  else Some offsets.

(** The offsets of the slices of one chunk. *)
Fixpoint smallLoop (fuel : nat) (b : Buffer) (next end_ : Z) (small : list Z) : option (list Z) :=
  if (0 <=? next) && (next <? end_) then
    match fuel with
    | O => None
    | S f => '(_, nx) ← Slice b next; smallLoop f b nx end_ (small ++ [next])
    end
  else Some small.

Definition payloadAt (b : Buffer) (off : Z) : list byte :=
  match Slice b off with Some (p, _) => p | None => [] end.

Fixpoint writeRaw (b tmp : Buffer) (offs : list Z) : option Buffer :=
  match offs with
  | [] => Some tmp
  | off :: r =>
      rest ← from b off;
      raw ← rawSlice rest;
      '(tmp, _) ← Write tmp raw;
      writeRaw b tmp r
  end.

Definition sortSmall (b tmp : Buffer) (start end_ : Z) : option (Buffer * Buffer) :=
  let tmp := Reset tmp in
  small ← smallLoop (S (Z.to_nat (offset b))) b start end_ [];
  let small := sortInts (fun i j => less (payloadAt b i) (payloadAt b j)) small in
  tmp ← writeRaw b tmp small;
  bs ← Bytes tmp;
  b ← store b start end_ bs;
  Some (b, tmp).

Fixpoint mergeLoop (fuel : nat) (b : Buffer) (left : list byte) (rp start end_ : Z) : option Buffer :=
  if end_ <=? start then Some b else
  match fuel with
  | O => None
  | S f =>
      if zlen left =? 0 then right ← sub b rp end_; store b start end_ right
      else if end_ - rp =? 0 then store b start end_ left
      else
        ls ← rawSlice left;
        right ← sub b rp end_;
        rs ← rawSlice right;
        if less (zdrop headerSize ls) (zdrop headerSize rs) then
          b ← store b start (dataLen b) ls;
          mergeLoop f b (zdrop (zlen ls) left) rp (start + zlen ls) end_
        else
          b ← store b start (dataLen b) rs;
          mergeLoop f b left (rp + zlen rs) (start + zlen rs) end_
  end.

(** [left] is [data[start:mid]], [right] is [data[mid:end]]. *)
Definition merge (b tmp : Buffer) (start mid end_ : Z) : option (Buffer * Buffer) :=
  if (mid - start =? 0) || (end_ - mid =? 0) then Some (b, tmp) else
  left ← sub b start mid;
  '(tmp, _) ← Write (Reset tmp) left;
  left ← Bytes tmp;
  b ← mergeLoop (S (Z.to_nat (end_ - start))) b left mid start end_;
  Some (b, tmp).

Fixpoint sortRec (fuel : nat) (b tmp : Buffer) (offsets : list Z) (lo hi : nat)
    : option (Buffer * Buffer) :=
  match fuel with
  | O => None
  | S f =>
      if (hi <? lo)%nat then None else
      let mid := (lo + (hi - lo) / 2)%nat in
      loff ← offsets !! lo;
      hoff ← offsets !! hi;
      if (lo =? mid)%nat then _ ← sub b loff hoff; Some (b, tmp) else
      moff ← offsets !! mid;
      '(b, tmp) ← sortRec f b tmp offsets lo mid;
      '(b, tmp) ← sortRec f b tmp offsets mid hi;
      merge b tmp loff moff hoff
  end.

Fixpoint smallPass (b tmp : Buffer) (left : Z) (offs : list Z) : option (Buffer * Buffer) :=
  match offs with
  | [] => Some (b, tmp)
  | off :: r => '(b, tmp) ← sortSmall b tmp left off; smallPass b tmp off r
  end.

Definition SortSliceBetween (szTmp : Z) (b : Buffer) (start end_ : Z) : option Buffer :=
  if end_ <=? start then Some b
  else if start =? 0 then None
  else
    offsets ← chunkLoop (S (Z.to_nat (offset b))) b start end_ 0 [];
    match offsets with
    | [] => Some b
    | first :: _ =>
        let offsets := if bool_decide (last offsets = Some end_) then offsets else offsets ++ [end_] in
        '(b, tmp) ← smallPass b (New szTmp) first (tail offsets);
        '(b, _) ← sortRec (length offsets) b tmp offsets 0 (length offsets - 1);
        Some b
    end.

Definition SortSlice (szTmp : Z) (b : Buffer) : option Buffer :=
  SortSliceBetween szTmp b (StartOffset b) (offset b).

(** ** Writing into the array *)

(** The buffer [b] with array [a]. *)
Definition setArr (b : Buffer) (a : list byte) : Buffer :=
  mkBuffer (padding b) (offset b) (Some a) (dataLen b) (cap b) (max b) (hasReleaseFn b).

Lemma setArr_wf b a : wf b -> zlen a = cap b -> wf (setArr b a).
Proof. intros [_ Hd Ho Hc] Ha. split; cbn; [by exists a|done|done|done]. Qed.

Lemma setArr_id b : wf b -> b = setArr b (arr b).
Proof. intros [(a & Ha & _) _ _ _]. unfold setArr, arr. rewrite Ha. destruct b. cbn in *. by subst. Qed.

Lemma store_at b A X Y p lim :
  zlen X = zlen p -> zlen A + zlen p <= lim <= zlen (A ++ X ++ Y) ->
  store (setArr b (A ++ X ++ Y)) (zlen A) lim p = Some (setArr b (A ++ p ++ Y)).
Proof.
  intros HX Hlim. pose proof (zlen_nonneg A). pose proof (zlen_nonneg p). unfold store, arr.
  cbn [setArr data]. rewrite copy_at_eq by (rewrite ?zlen_ztake; lia). cbn [mbind option_bind].
  unfold setArr. cbn [padding offset dataLen cap max hasReleaseFn]. do 3 f_equal.
  rewrite ztake_ztake, Z.min_l by lia. rewrite ztake_app_le, ztake_ge by lia.
  rewrite <- !app_assoc. do 2 f_equal.
  assert (Hd : zdrop (zlen A + zlen p) (A ++ X ++ Y) = Y).
  { rewrite app_assoc, zdrop_app_ge, zlen_app by (rewrite zlen_app; lia).
    apply zdrop_le0. lia. }
  transitivity (zdrop (zlen A + zlen p) (ztake lim (A ++ X ++ Y) ++ zdrop lim (A ++ X ++ Y))).
  - rewrite (zdrop_app_le _ (ztake lim _)); [done|]. rewrite zlen_ztake by lia. lia.
  - by rewrite ztake_zdrop.
Qed.

Lemma sub_at b A X Y lo hi :
  lo = zlen A -> hi = zlen A + zlen X -> sub (setArr b (A ++ X ++ Y)) lo hi = Some X.
Proof.
  intros -> ->. pose proof (zlen_nonneg A). pose proof (zlen_nonneg X). pose proof (zlen_nonneg Y).
  unfold sub, arr. cbn [setArr data]. rewrite zslice_Some by (rewrite ?zlen_app; lia).
  replace (zlen A + zlen X - zlen A) with (zlen X) by lia.
  rewrite zdrop_app_ge, Z.sub_diag, zdrop_le0 by lia.
  rewrite ztake_app_le, ztake_ge by lia. done.
Qed.

(** ** Reading blocks *)

Lemma rawSlice_block p rest :
  zlen p < 2 ^ 62 -> rawSlice (block p ++ rest) = Some (block p).
Proof.
  intros Hp. pose proof (zlen_nonneg p). pose proof (zlen_nonneg rest). unfold rawSlice, block.
  rewrite <- app_assoc. change 8 with (Z.of_nat 8) at 1.
  rewrite BigEndianGet_be by (change (256 ^ Z.of_nat 8) with (2 ^ 64); lia).
  cbn [mbind option_bind]. unfold headerSize.
  rewrite (i64_small (zlen p)), (i64_small (8 + zlen p)) by lia.
  rewrite zslice_Some by (rewrite ?zlen_app, ?zlen_be; lia). rewrite Z.sub_0_r.
  rewrite zdrop_le0, app_assoc by lia.
  rewrite ztake_app_le, ztake_ge by (rewrite zlen_app, zlen_be; lia). done.
Qed.

Lemma block_payload p : zdrop headerSize (block p) = p.
Proof.
  unfold block, headerSize. rewrite zdrop_app_ge by (rewrite zlen_be; lia).
  rewrite zlen_be. apply zdrop_le0. lia.
Qed.

Lemma Slice_at b A p Z_ :
  wf b -> zlen (A ++ block p ++ Z_) = cap b -> cap b < 2 ^ 62 ->
  zlen A + headerSize + zlen p <= offset b ->
  Slice (setArr b (A ++ block p ++ Z_)) (zlen A) =
    Some (p, if offset b =? zlen A + headerSize + zlen p then -1 else zlen A + headerSize + zlen p).
Proof.
  intros Hwf Hc Hs Ho. pose proof (zlen_nonneg A). pose proof (zlen_nonneg p). pose proof (zlen_nonneg Z_).
  set (a := A ++ block p ++ Z_) in *. pose proof (wf_cap _ Hwf) as Hcap. pose proof (wf_off _ Hwf) as Hoff.
  set (post := ztake (offset b - (zlen A + headerSize + zlen p)) Z_).
  assert (Hw : written (setArr b a) = A ++ block p ++ post).
  { unfold written, arr. cbn [setArr data offset]. unfold a.
    rewrite app_assoc, ztake_app_ge by (rewrite zlen_app, zlen_block; lia).
    rewrite <- app_assoc. do 3 f_equal. rewrite zlen_app, zlen_block. lia. }
  rewrite (Slice_spec _ A p post (setArr_wf b a Hwf Hc) Hw).
  - do 2 f_equal. assert (Hl : zlen post = offset b - (zlen A + headerSize + zlen p)).
    { unfold post. apply zlen_ztake. unfold a in Hc. rewrite !zlen_app, zlen_block in Hc. lia. }
    destruct (Z.eqb_spec (offset b) (zlen A + headerSize + zlen p)) as [E|E].
    + assert (Hn : post = []) by (apply zlen_zero; lia). by rewrite Hn.
    + clearbody post. destruct post; [change (zlen []) with 0 in Hl; lia|done].
  - rewrite (zlen_written _ (setArr_wf b a Hwf Hc)). cbn [setArr offset]. lia.
Qed.

(** ** The merge of two lists *)

Fixpoint mergeL (l1 : list (list byte)) : list (list byte) -> list (list byte) :=
  fix go (l2 : list (list byte)) : list (list byte) :=
    match l1, l2 with
    | [], _ => l2
    | _, [] => l1
    | x :: l1', y :: l2' => if less x y then x :: mergeL l1' l2 else y :: go l2'
    end.

Lemma mergeL_nil_r l : mergeL l [] = l.
Proof. by destruct l. Qed.

Lemma mergeL_nil_l l : mergeL [] l = l.
Proof. by destruct l. Qed.

Lemma mergeL_cons x l1 y l2 :
  mergeL (x :: l1) (y :: l2) = if less x y then x :: mergeL l1 (y :: l2) else y :: mergeL (x :: l1) l2.
Proof. done. Qed.

Lemma blocks_app l k : blocks (l ++ k) = blocks l ++ blocks k.
Proof. unfold blocks. by rewrite fmap_app, concat_app. Qed.

Lemma mergeLoop_S f b left rp start end_ :
  mergeLoop (S f) b left rp start end_ =
  if end_ <=? start then Some b else
  if zlen left =? 0 then right ← sub b rp end_; store b start end_ right
  else if end_ - rp =? 0 then store b start end_ left
  else
    ls ← rawSlice left;
    right ← sub b rp end_;
    rs ← rawSlice right;
    if less (zdrop headerSize ls) (zdrop headerSize rs) then
      b ← store b start (dataLen b) ls;
      mergeLoop f b (zdrop (zlen ls) left) rp (start + zlen ls) end_
    else
      b ← store b start (dataLen b) rs;
      mergeLoop f b left (rp + zlen rs) (start + zlen rs) end_.
Proof. done. Qed.

Lemma split_len {A} (l : list A) n :
  0 <= n <= zlen l -> exists l1 l2, l = l1 ++ l2 /\ zlen l1 = n.
Proof. intros Hn. exists (ztake n l), (zdrop n l). by rewrite ztake_zdrop, zlen_ztake. Qed.

(** The merge in place: the gap [G] between what is written and what is left
    of the right half has the size of what is left of the left half. *)
Lemma mergeLoop_spec b : wf b -> cap b < 2 ^ 62 -> forall fuel L R A G Zs,
  zlen (A ++ G ++ blocks R ++ Zs) = cap b -> zlen G = zlen (blocks L) ->
  (length L + length R < fuel)%nat ->
  mergeLoop fuel (setArr b (A ++ G ++ blocks R ++ Zs)) (blocks L) (zlen A + zlen G) (zlen A)
    (zlen A + zlen G + zlen (blocks R)) = Some (setArr b (A ++ blocks (mergeL L R) ++ Zs)).
Proof.
  intros Hwf Hc fuel. induction fuel as [|f IH]; intros L R A G Zs Ha HG Hf; [lia|].
  pose proof (zlen_nonneg A). pose proof (zlen_nonneg G). pose proof (zlen_nonneg Zs).
  rewrite mergeLoop_S. rewrite !zlen_app in Ha. pose proof (wf_len _ Hwf) as Hd.
  destruct L as [|l L]; [|destruct R as [|r R]].
  - change (zlen (blocks [])) with 0 in HG. apply zlen_zero in HG. subst G. cbn [app].
    change (zlen []) with 0 in *. rewrite Z.add_0_r in *. rewrite mergeL_nil_l.
    destruct (Z.leb_spec (zlen A + zlen (blocks R)) (zlen A)) as [Hle|Hgt]; [done|].
    change (zlen (blocks []) =? 0) with true. cbn iota.
    rewrite (sub_at b A (blocks R) Zs) by lia. cbn [mbind option_bind].
    apply store_at; [done|]. rewrite !zlen_app. lia.
  - pose proof (zlen_nonneg l). pose proof (zlen_nonneg (blocks L)). rewrite mergeL_nil_r.
    change (blocks []) with (@nil byte) in *. change (zlen []) with 0 in *. cbn [app]. rewrite Z.add_0_r.
    pose proof HG as HG'. rewrite blocks_cons, zlen_app, zlen_block in HG'. unfold headerSize in HG'.
    rewrite (proj2 (Z.leb_gt _ _)), <- HG, (proj2 (Z.eqb_neq _ _)), Z.sub_diag by lia.
    change (0 =? 0) with true. cbn iota. apply store_at; rewrite ?zlen_app; lia.
  - pose proof (zlen_nonneg l). pose proof (zlen_nonneg r).
    pose proof (zlen_nonneg (blocks L)). pose proof (zlen_nonneg (blocks R)).
    pose proof (zlen_block l) as Bl. pose proof (zlen_block r) as Br. unfold headerSize in Bl, Br.
    assert (HL : zlen (blocks (l :: L)) = zlen (block l) + zlen (blocks L)) by by rewrite blocks_cons, zlen_app.
    assert (HR : zlen (blocks (r :: R)) = zlen (block r) + zlen (blocks R)) by by rewrite blocks_cons, zlen_app.
    rewrite (proj2 (Z.leb_gt _ _)), (proj2 (Z.eqb_neq _ _)) by lia.
    rewrite (proj2 (Z.eqb_neq _ _)) by lia. rewrite (blocks_cons l L) at 1.
    rewrite rawSlice_block by lia. cbn [mbind option_bind].
    rewrite (app_assoc A G), (sub_at b (A ++ G) (blocks (r :: R)) Zs) by (rewrite ?zlen_app; lia).
    cbn [mbind option_bind]. rewrite (blocks_cons r R) at 1. rewrite rawSlice_block by lia.
    cbn [mbind option_bind]. rewrite !block_payload, mergeL_cons. cbn [setArr dataLen]. rewrite Hd.
    rewrite <- app_assoc. destruct (less l r).
    + destruct (split_len G (zlen (block l))) as (G1 & G2 & -> & HG1); [lia|].
      rewrite zlen_app in HG, Ha. rewrite <- (app_assoc G1).
      rewrite (store_at b A G1 (G2 ++ blocks (r :: R) ++ Zs) (block l)) by (rewrite ?zlen_app; lia).
      cbn [mbind option_bind]. rewrite (blocks_cons l L), zdrop_app_ge, Z.sub_diag, zdrop_le0 by lia.
      specialize (IH L (r :: R) (A ++ block l) G2 Zs). rewrite !zlen_app, <- !app_assoc in IH.
      rewrite zlen_app. rewrite (blocks_cons l), <- app_assoc, <- IH by (cbn [length] in *; lia). f_equal; lia.
    + rewrite (blocks_cons r R), <- app_assoc, (app_assoc G (block r)).
      destruct (split_len (G ++ block r) (zlen (block r))) as (X & G' & E & HX); [rewrite zlen_app; lia|].
      pose proof (f_equal zlen E) as El. rewrite !zlen_app in El. rewrite E, <- (app_assoc X).
      rewrite (store_at b A X (G' ++ blocks R ++ Zs) (block r)) by (rewrite ?zlen_app; lia).
      cbn [mbind option_bind].
      specialize (IH (l :: L) R (A ++ block r) G' Zs). rewrite !zlen_app, <- !app_assoc in IH.
      rewrite zlen_app. rewrite (blocks_cons r), <- app_assoc, <- IH by (cbn [length] in *; lia). f_equal; lia.
Qed.

(** ** The loops over the slices *)

Lemma setArr_setArr b a a' : setArr (setArr b a) a' = setArr b a'.
Proof. done. Qed.

(** What [Slice] does on the first block of a run that ends at or before [offset]. *)
Lemma Slice_run b A p ps Zs :
  wf b -> zlen (A ++ blocks (p :: ps) ++ Zs) = cap b -> cap b < 2 ^ 62 ->
  zlen A + zlen (blocks (p :: ps)) <= offset b ->
  exists nx, Slice (setArr b (A ++ blocks (p :: ps) ++ Zs)) (zlen A) = Some (p, nx) /\
    (nx = zlen (A ++ block p) \/ (nx = -1 /\ ps = [])).
Proof.
  intros Hwf Hc Hs Ho. rewrite blocks_cons, <- app_assoc in *. rewrite zlen_app, zlen_block in Ho.
  pose proof (zlen_nonneg (blocks ps)). rewrite Slice_at by (try done; lia).
  eexists. split; [done|]. rewrite zlen_app, zlen_block. destruct (Z.eqb_spec (offset b) (zlen A + headerSize + zlen p)); [|lia].
  right. split; [done|]. apply blocks_nil, zlen_zero. lia.
Qed.

Lemma smallLoop_spec b ps : wf b -> cap b < 2 ^ 62 -> forall fuel A Zs acc,
  zlen (A ++ blocks ps ++ Zs) = cap b -> zlen A + zlen (blocks ps) <= offset b ->
  (length ps <= fuel)%nat ->
  smallLoop fuel (setArr b (A ++ blocks ps ++ Zs)) (zlen A) (zlen A + zlen (blocks ps)) acc =
    Some (acc ++ offsetsOf (zlen A) ps).
Proof.
  intros Hwf Hs. induction ps as [|p ps IH]; intros fuel A Zs acc Hc Ho Hf.
  { change (zlen (blocks [])) with 0. rewrite Z.add_0_r. cbn [offsetsOf]. rewrite app_nil_r.
    destruct fuel; cbn [smallLoop]; by rewrite Z.ltb_irrefl, andb_false_r. }
  pose proof (zlen_nonneg A). pose proof (zlen_nonneg p). pose proof (zlen_nonneg (blocks ps)).
  destruct fuel as [|f]; [cbn in Hf; lia|].
  destruct (Slice_run b A p ps Zs Hwf Hc Hs Ho) as (nx & E & Hnx).
  cbn [smallLoop]. rewrite (proj2 (Z.leb_le _ _)), (proj2 (Z.ltb_lt _ _)); cycle 1.
  { rewrite blocks_cons, zlen_app, zlen_block. unfold headerSize. lia. }
  { lia. }
  cbn [andb]. rewrite E. cbn [mbind option_bind]. destruct Hnx as [->|[-> ->]].
  - specialize (IH f (A ++ block p) Zs (acc ++ [zlen A])). rewrite <- !app_assoc in IH.
    rewrite blocks_cons, (zlen_app (block p) (blocks ps)), <- !app_assoc in *.
    replace (zlen A + (zlen (block p) + zlen (blocks ps))) with (zlen (A ++ block p) + zlen (blocks ps))
      by (rewrite zlen_app; lia).
    rewrite IH by (rewrite ?zlen_app in *; cbn in Hf; lia). cbn [offsetsOf app]. rewrite zlen_app, zlen_block.
    by rewrite Z.add_assoc.
  - destruct f; done.
Qed.

(** The offsets at which a chunk starts, counting from [count]. *)
Fixpoint chunkOffs (count o : Z) (ps : list (list byte)) : list Z :=
  match ps with
  | [] => []
  | p :: ps =>
      (if count mod sortChunkSize =? 0 then [o] else []) ++ chunkOffs (count + 1) (o + zlen (block p)) ps
  end.

Lemma chunkLoop_spec b ps : wf b -> cap b < 2 ^ 62 -> forall fuel A Zs count acc,
  zlen (A ++ blocks ps ++ Zs) = cap b -> zlen A + zlen (blocks ps) <= offset b ->
  (length ps <= fuel)%nat ->
  chunkLoop fuel (setArr b (A ++ blocks ps ++ Zs)) (zlen A) (zlen A + zlen (blocks ps)) count acc =
    Some (acc ++ chunkOffs count (zlen A) ps).
Proof.
  intros Hwf Hs. induction ps as [|p ps IH]; intros fuel A Zs count acc Hc Ho Hf.
  { change (zlen (blocks [])) with 0. rewrite Z.add_0_r. cbn [chunkOffs]. rewrite app_nil_r.
    destruct fuel; cbn [chunkLoop]; by rewrite Z.ltb_irrefl, andb_false_r. }
  pose proof (zlen_nonneg A). pose proof (zlen_nonneg p). pose proof (zlen_nonneg (blocks ps)).
  destruct fuel as [|f]; [cbn in Hf; lia|].
  destruct (Slice_run b A p ps Zs Hwf Hc Hs Ho) as (nx & E & Hnx).
  cbn [chunkLoop]. rewrite (proj2 (Z.leb_le _ _)), (proj2 (Z.ltb_lt _ _)); cycle 1.
  { rewrite blocks_cons, zlen_app, zlen_block. unfold headerSize. lia. }
  { lia. }
  cbn [andb]. rewrite E. cbn [mbind option_bind].
  assert (Hacc : (if count mod sortChunkSize =? 0 then acc ++ [zlen A] else acc) =
    acc ++ (if count mod sortChunkSize =? 0 then [zlen A] else [])) by (case_match; by rewrite ?app_nil_r).
  rewrite Hacc. cbn [chunkOffs]. destruct Hnx as [->|[-> ->]].
  - specialize (IH f (A ++ block p) Zs (count + 1)). rewrite <- !app_assoc in IH.
    rewrite blocks_cons, (zlen_app (block p) (blocks ps)), <- !app_assoc in *.
    replace (zlen A + (zlen (block p) + zlen (blocks ps))) with (zlen (A ++ block p) + zlen (blocks ps))
      by (rewrite zlen_app; lia).
    rewrite IH by (rewrite ?zlen_app in *; cbn in Hf; lia). rewrite zlen_app. by rewrite <- app_assoc.
  - cbn [chunkOffs]. rewrite app_nil_r. destruct f; done.
Qed.

(** ** Chunks *)

Fixpoint starts (o : Z) (cs : list (list (list byte))) : list Z :=
  match cs with [] => [] | c :: cs => o :: starts (o + zlen (blocks c)) cs end.

(** The boundaries of the chunks, the end of the last one included. *)
Fixpoint bounds (o : Z) (cs : list (list (list byte))) : list Z :=
  match cs with [] => [o] | c :: cs => o :: bounds (o + zlen (blocks c)) cs end.

Lemma bounds_starts cs : forall o, bounds o cs = starts o cs ++ [o + zlen (blocks (concat cs))].
Proof.
  induction cs as [|c cs IH]; intros o; cbn [bounds starts concat]; [by rewrite Z.add_0_r|].
  rewrite IH, blocks_app, zlen_app, Z.add_assoc. done.
Qed.

Lemma chunkOffs_starts ps : forall count o,
  exists c cs, ps = c ++ concat cs /\ Forall (fun c => c <> []) cs /\
    chunkOffs count o ps = starts (o + zlen (blocks c)) cs /\
    (count mod sortChunkSize = 0 -> c = []).
Proof.
  induction ps as [|p ps IH]; intros count o; [by exists [], []|].
  destruct (IH (count + 1) (o + zlen (block p))) as (c & cs & -> & Hn & E & _).
  cbn [chunkOffs]. rewrite E. destruct (Z.eqb_spec (count mod sortChunkSize) 0) as [H|H].
  - exists [], ((p :: c) :: cs). cbn [concat starts app]. rewrite (blocks_cons p c), zlen_app.
    change (zlen (blocks [])) with 0. rewrite Z.add_0_r, Z.add_assoc.
    split_and!; [done|by constructor|done|done].
  - exists (p :: c), cs. rewrite (blocks_cons p c), zlen_app, Z.add_assoc.
    by split_and!.
Qed.

Lemma starts_below cs : forall o, Forall (fun c => c <> []) cs ->
  Forall (fun x => x < o + zlen (blocks (concat cs))) (starts o cs).
Proof.
  induction cs as [|c cs IH]; intros o Hn; [constructor|].
  inversion_clear Hn as [|? ? H1 H2]. cbn [starts concat]. rewrite blocks_app, zlen_app, Z.add_assoc.
  constructor; [|by apply IH]. destruct c as [|p c]; [done|].
  rewrite blocks_cons, zlen_app, zlen_block. unfold headerSize.
  pose proof (zlen_nonneg p). pose proof (zlen_nonneg (blocks c)).
  pose proof (zlen_nonneg (blocks (concat cs))). lia.
Qed.

Lemma bounds_lookup_l cs ds : forall o i, (i <= length cs)%nat -> bounds o (cs ++ ds) !! i = bounds o cs !! i.
Proof.
  induction cs as [|c cs IH]; intros o [|i] Hi; cbn in *; try done; try lia; [by destruct ds|].
  apply IH. lia.
Qed.

Lemma bounds_lookup_r cs ds : forall o i,
  bounds o (cs ++ ds) !! (length cs + i)%nat = bounds (o + zlen (blocks (concat cs))) ds !! i.
Proof.
  induction cs as [|c cs IH]; intros o i; cbn [app length concat]; [by rewrite Z.add_0_r|].
  cbn. rewrite IH, blocks_app, zlen_app. by rewrite Z.add_assoc.
Qed.

Lemma bounds_0 o cs : bounds o cs !! 0%nat = Some o.
Proof. by destruct cs. Qed.

Lemma bounds_last o cs : bounds o cs !! length cs = Some (o + zlen (blocks (concat cs))).
Proof. pose proof (bounds_lookup_r cs [] o 0) as H. by rewrite app_nil_r, Nat.add_0_r in H. Qed.

(** ** The scratch buffer *)

Definition tmpok (t : Buffer) : Prop := wf t /\ max t = 0.

Lemma tmpok_Reset t : tmpok t -> tmpok (Reset t) /\ zlen (written (Reset t)) = padding t /\ padding (Reset t) = padding t.
Proof.
  intros [Hw Hm]. assert (Hr : wf (Reset t)).
  { destruct Hw as [Ha Hd Ho Hc]. split; cbn; [done|done|unfold StartOffset; lia|unfold StartOffset; lia]. }
  split_and!; [by split|by rewrite zlen_written|done].
Qed.

Lemma tmpok_Write t p : tmpok t ->
  exists t', Write t p = Some (t', zlen p) /\ tmpok t' /\ written t' = written t ++ p /\ padding t' = padding t.
Proof.
  intros [Hw Hm]. destruct (buffer_Write_spec t p Hw) as (t' & E & Hw' & Hwr & Hp & Hm').
  { unfold over_limit. lia. }
  exists t'. split_and!; [done|split; [done|congruence]|done|done].
Qed.

(** After a reset, the bytes of the scratch buffer are what was written since. *)
Lemma tmp_Bytes t t' p : tmpok t -> tmpok t' -> written t' = written (Reset t) ++ p -> padding t' = padding t ->
  Bytes t' = Some p.
Proof.
  intros Ht [Hw' _] E Hp. destruct (tmpok_Reset t Ht) as (_ & Hl & _).
  rewrite buffer_Bytes_spec, E, Hp, zdrop_app_ge, Hl, Z.sub_diag, zdrop_le0 by (done || lia). done.
Qed.

(** ** Sorting one chunk *)

(** Every offset of the run points at a block of it. *)
Lemma offsetsOf_block ps : forall A off, off ∈ offsetsOf (zlen A) ps ->
  exists A' p B', blocks ps = A' ++ block p ++ B' /\ off = zlen (A ++ A').
Proof.
  induction ps as [|p ps IH]; intros A off Hin; cbn [offsetsOf] in Hin; [by apply elem_of_nil in Hin|].
  apply elem_of_cons in Hin as [->|Hin].
  - exists [], p, (blocks ps). by rewrite blocks_cons, app_nil_r.
  - replace (zlen A + headerSize + zlen p) with (zlen (A ++ block p)) in Hin
      by (rewrite zlen_app, zlen_block; lia).
    destruct (IH _ _ Hin) as (A' & q & B' & E & ->). exists (block p ++ A'), q, B'.
    rewrite blocks_cons, E. by rewrite !app_assoc.
Qed.

Section run.
Context (b : Buffer) (A : list byte) (ps : list (list byte)) (Zs : list byte).
Context (Hwf : wf b) (Hs : cap b < 2 ^ 62).
Context (Hc : zlen (A ++ blocks ps ++ Zs) = cap b).
Context (Ho : zlen A + zlen (blocks ps) <= offset b).

Let b0 := setArr b (A ++ blocks ps ++ Zs).

Lemma read_block off : off ∈ offsetsOf (zlen A) ps ->
  (rest ← from b0 off; rawSlice rest) = Some (block (payloadAt b0 off)).
Proof.
  intros Hin. destruct (offsetsOf_block ps A off Hin) as (A' & p & B' & E & ->).
  assert (Ea : A ++ blocks ps ++ Zs = (A ++ A') ++ block p ++ (B' ++ Zs)) by by rewrite E, <- !app_assoc.
  pose proof (zlen_nonneg B'). pose proof (zlen_nonneg Zs). pose proof (zlen_nonneg (A ++ A')).
  assert (Hl : zlen A + zlen (blocks ps) = zlen (A ++ A') + headerSize + zlen p + zlen B')
    by (rewrite E, !zlen_app, zlen_block; lia).
  assert (Hp : payloadAt b0 (zlen (A ++ A')) = p).
  { unfold payloadAt, b0. rewrite Ea. rewrite Slice_at by (done || (by rewrite <- Ea) || lia). done. }
  rewrite Hp. unfold from, b0, arr. rewrite Ea. cbn [setArr data dataLen]. rewrite (wf_len _ Hwf), <- Hc, Ea.
  rewrite ztake_ge by lia. rewrite zslice_Some;
    [|lia|rewrite (zlen_app (A ++ A')); pose proof (zlen_nonneg (block p ++ B' ++ Zs)); lia|lia].
  cbn [mbind option_bind]. rewrite zdrop_app_ge, Z.sub_diag, zdrop_le0 by lia.
  rewrite ztake_ge by (rewrite !zlen_app; lia). apply rawSlice_block.
  rewrite app_assoc, zlen_app, zlen_app, Hl in Hc. unfold headerSize in *. lia.
Qed.

Lemma writeRaw_spec offs : (forall off, off ∈ offs -> off ∈ offsetsOf (zlen A) ps) -> forall t, tmpok t ->
  exists t', writeRaw b0 t offs = Some t' /\ tmpok t' /\
    written t' = written t ++ blocks (payloadAt b0 <$> offs) /\ padding t' = padding t.
Proof.
  induction offs as [|off offs IH]; intros Hin t Ht.
  { exists t. cbn. by rewrite app_nil_r. }
  cbn [writeRaw]. pose proof (read_block off (Hin off (list_elem_of_here _ _))) as Hr.
  destruct (from b0 off) as [rest|]; [|done]. cbn [mbind option_bind] in *. rewrite Hr. cbn [mbind option_bind].
  destruct (tmpok_Write t (block (payloadAt b0 off)) Ht) as (t1 & -> & Ht1 & Hw1 & Hp1).
  cbn [mbind option_bind]. destruct (IH (fun o H => Hin o (list_elem_of_further _ _ _ H)) t1 Ht1) as (t' & -> & Ht' & Hw' & Hp').
  exists t'. rewrite Hw', Hw1, fmap_cons, blocks_cons, <- app_assoc. split_and!; try done. congruence.
Qed.

Lemma payloads_eq : payloadAt b0 <$> offsetsOf (zlen A) ps = ps.
Proof.
  assert (G : forall qs A' , A ++ blocks ps ++ Zs = A' ++ blocks qs ++ Zs -> 
    payloadAt b0 <$> offsetsOf (zlen A') qs = qs).
  { induction qs as [|q qs IH]; intros A' Ea; [done|]. cbn [offsetsOf]. rewrite fmap_cons. f_equal.
    - destruct (Slice_run b A' q qs Zs Hwf) as (nx & E & _); [by rewrite <- Ea|done| |].
      + apply (f_equal zlen) in Ea. rewrite !zlen_app in Ea. lia.
      + unfold payloadAt, b0. rewrite Ea, E. done.
    - replace (zlen A' + headerSize + zlen q) with (zlen (A' ++ block q)) by (rewrite zlen_app, zlen_block; lia).
      apply IH. rewrite Ea, blocks_cons, <- !app_assoc. done. }
  by apply G.
Qed.
End run.

(** ** Order *)

Definition le (x y : list byte) : Prop := less y x = false.

Context (less_asym : forall x y, less x y = true -> less y x = false).
Context (le_trans : forall x y z, le x y -> le y z -> le x z).
(** [sort.Slice] of the Go library: a permutation in order, for a strict weak order. *)
Context (sortInts_sorts : forall cmp l,
  (forall i j, cmp i j = true -> cmp j i = false) ->
  (forall i j k, cmp j i = false -> cmp k j = false -> cmp k i = false) ->
  sortInts cmp l ≡ₚ l /\ StronglySorted (fun i j => cmp j i = false) (sortInts cmp l)).

Lemma StronglySorted_fmap {X Y} (f : X -> Y) (R : Y -> Y -> Prop) l :
  StronglySorted (fun x y => R (f x) (f y)) l -> StronglySorted R (f <$> l).
Proof. induction 1 as [|x l _ IH Hx]; cbn; constructor; [done|by rewrite Forall_fmap]. Qed.

Lemma blocks_perm_len ps qs : qs ≡ₚ ps -> zlen (blocks qs) = zlen (blocks ps).
Proof. induction 1; rewrite ?blocks_cons, ?zlen_app in *; lia. Qed.

Lemma blocks_fuel (A : list byte) ps o : zlen A + zlen (blocks ps) <= o -> (length ps <= S (Z.to_nat o))%nat.
Proof. pose proof (blocks_long ps). pose proof (zlen_nonneg A). lia. Qed.

Lemma sortSmall_spec b A ps Zs t :
  wf b -> cap b < 2 ^ 62 -> zlen (A ++ blocks ps ++ Zs) = cap b ->
  zlen A + zlen (blocks ps) <= offset b -> tmpok t ->
  exists qs t', sortSmall (setArr b (A ++ blocks ps ++ Zs)) t (zlen A) (zlen A + zlen (blocks ps)) =
      Some (setArr b (A ++ blocks qs ++ Zs), t') /\
    qs ≡ₚ ps /\ StronglySorted le qs /\ tmpok t'.
Proof.
  intros Hwf Hs Hc Ho Ht. unfold sortSmall. cbn [setArr offset].
  rewrite smallLoop_spec by (try done; by eapply blocks_fuel). cbn [mbind option_bind app].
  set (b0 := setArr b (A ++ blocks ps ++ Zs)).
  set (cmp := fun i j => less (payloadAt b0 i) (payloadAt b0 j)).
  destruct (sortInts_sorts cmp (offsetsOf (zlen A) ps)) as [Hp Hsrt].
  { intros i j. apply less_asym. }
  { intros i j k. apply le_trans. }
  set (offs := sortInts cmp _) in *. destruct (tmpok_Reset t Ht) as (Hr & _ & _).
  destruct (writeRaw_spec b A ps Zs Hwf Hs Hc Ho offs) with (t := Reset t) as (t' & E & Ht' & Hw & Hpad);
    [intros off; by rewrite Hp|done|].
  fold b0 in E, Hw. rewrite E. cbn [mbind option_bind]. rewrite (tmp_Bytes t t' _ Ht Ht' Hw Hpad). cbn [mbind option_bind].
  assert (Hq : payloadAt b0 <$> offs ≡ₚ ps).
  { rewrite Hp. unfold b0. by rewrite payloads_eq. }
  unfold b0 at 1. rewrite store_at; cycle 1.
  { symmetry. by apply blocks_perm_len. }
  { rewrite (blocks_perm_len _ _ Hq), !zlen_app. pose proof (zlen_nonneg Zs). lia. }
  cbn [mbind option_bind]. exists (payloadAt b0 <$> offs), t'. split_and!; try done.
  by apply StronglySorted_fmap.
Qed.

(** Chunk by chunk. *)
Lemma smallPass_spec b cs : wf b -> cap b < 2 ^ 62 -> forall A Zs t,
  zlen (A ++ blocks (concat cs) ++ Zs) = cap b ->
  zlen A + zlen (blocks (concat cs)) <= offset b -> tmpok t ->
  exists ds t', smallPass (setArr b (A ++ blocks (concat cs) ++ Zs)) t (zlen A) (tail (bounds (zlen A) cs)) =
      Some (setArr b (A ++ blocks (concat ds) ++ Zs), t') /\
    Forall2 (fun d c => d ≡ₚ c) ds cs /\ Forall (StronglySorted le) ds /\ tmpok t'.
Proof.
  intros Hwf Hs. induction cs as [|c cs IH]; intros A Zs t Hc Ho Ht; [by exists [], t|].
  cbn [concat bounds tail]. rewrite blocks_app in *.
  pose proof (zlen_nonneg (blocks (concat cs))).
  assert (Hb : bounds (zlen A + zlen (blocks c)) cs =
    (zlen A + zlen (blocks c)) :: tail (bounds (zlen A + zlen (blocks c)) cs)) by by destruct cs.
  rewrite Hb. cbn [smallPass concat] in *. rewrite <- (app_assoc (blocks c)) in *. rewrite blocks_app in Ho. rewrite blocks_app, <- app_assoc in Hc.
  rewrite (zlen_app (blocks c)) in Ho.
  destruct (sortSmall_spec b A c (blocks (concat cs) ++ Zs) t Hwf Hs Hc) as (d & t1 & -> & Hp & Hsd & Ht1);
    [lia|done|].
  cbn [mbind option_bind]. pose proof (blocks_perm_len _ _ Hp) as Hl.
  destruct (IH (A ++ blocks d) Zs t1) as (ds & t' & E & HF & HS & Ht').
  { rewrite !zlen_app in *. lia. }
  { rewrite zlen_app. lia. }
  { done. }
  rewrite zlen_app, Hl, <- !app_assoc in E. rewrite E.
  exists (d :: ds), t'. cbn [concat]. rewrite blocks_app, <- app_assoc.
  split_and!; [done|by constructor|by constructor|done].
Qed.

(** ** Merging *)

Lemma mergeL_perm l1 : forall l2, mergeL l1 l2 ≡ₚ l1 ++ l2.
Proof.
  induction l1 as [|x l1 IH1]; intros l2; [by rewrite mergeL_nil_l|].
  induction l2 as [|y l2 IH2]; [by rewrite mergeL_nil_r, app_nil_r|].
  rewrite mergeL_cons. destruct (less x y); [by rewrite IH1|].
  rewrite IH2. by rewrite (Permutation_middle (x :: l1) l2 y).
Qed.

Lemma mergeL_sorted l1 : forall l2,
  StronglySorted le l1 -> StronglySorted le l2 -> StronglySorted le (mergeL l1 l2).
Proof.
  induction l1 as [|x l1 IH1]; intros l2 H1 H2; [by rewrite mergeL_nil_l|].
  induction l2 as [|y l2 IH2]; [by rewrite mergeL_nil_r|].
  rewrite mergeL_cons. inversion_clear H1 as [|? ? S1 F1]. inversion_clear H2 as [|? ? S2 F2].
  destruct (less x y) eqn:E.
  - constructor; [by apply IH1; [|constructor]|]. rewrite mergeL_perm.
    apply Forall_app. split; [done|]. assert (Hxy : le x y) by by apply less_asym.
    constructor; [done|]. eapply Forall_impl; [exact F2|]. intros z. by apply le_trans.
  - constructor; [by apply IH2|]. rewrite mergeL_perm.
    apply Forall_app. split; [|done]. constructor; [done|].
    eapply Forall_impl; [exact F1|]. intros z. by apply le_trans.
Qed.

Lemma merge_spec b L R A Zs t :
  wf b -> cap b < 2 ^ 62 -> zlen (A ++ blocks L ++ blocks R ++ Zs) = cap b -> tmpok t ->
  exists t', merge (setArr b (A ++ blocks L ++ blocks R ++ Zs)) t (zlen A) (zlen A + zlen (blocks L))
      (zlen A + zlen (blocks L) + zlen (blocks R)) =
    Some (setArr b (A ++ blocks (mergeL L R) ++ Zs), t') /\ tmpok t'.
Proof.
  intros Hwf Hs Hc Ht. pose proof (zlen_nonneg (blocks L)). pose proof (zlen_nonneg (blocks R)). unfold merge.
  replace (zlen A + zlen (blocks L) - zlen A) with (zlen (blocks L)) by lia.
  replace (zlen A + zlen (blocks L) + zlen (blocks R) - (zlen A + zlen (blocks L))) with (zlen (blocks R)) by lia.
  destruct (Z.eqb_spec (zlen (blocks L)) 0) as [E|_].
  { apply zlen_zero, blocks_nil in E. subst L. rewrite mergeL_nil_l. by exists t. }
  destruct (Z.eqb_spec (zlen (blocks R)) 0) as [E|_].
  { apply zlen_zero, blocks_nil in E. subst R. rewrite mergeL_nil_r. by exists t. }
  cbn [orb]. rewrite (sub_at b A (blocks L)) by done. cbn [mbind option_bind].
  destruct (tmpok_Reset t Ht) as (Hr & _ & _).
  destruct (tmpok_Write (Reset t) (blocks L) Hr) as (t' & -> & Ht' & Hw & Hp).
  cbn [mbind option_bind]. rewrite (tmp_Bytes t t' _ Ht Ht' Hw Hp). cbn [mbind option_bind].
  rewrite mergeLoop_spec; [by exists t'|done|done|done|done|].
  pose proof (blocks_long L). pose proof (blocks_long R). lia.
Qed.

(** The recursion on chunk numbers: the chunks [cs] lie between the offsets
    [lo] and [hi], each sorted; afterwards their slices are sorted as a whole. *)
Lemma sortRec_spec b offsets : wf b -> cap b < 2 ^ 62 -> forall fuel cs lo A Zs t,
  (length cs <= fuel)%nat -> (0 < fuel)%nat ->
  (forall i, (i <= length cs)%nat -> offsets !! (lo + i)%nat = bounds (zlen A) cs !! i) ->
  zlen (A ++ blocks (concat cs) ++ Zs) = cap b -> Forall (StronglySorted le) cs -> tmpok t ->
  exists qs t', sortRec fuel (setArr b (A ++ blocks (concat cs) ++ Zs)) t offsets lo (lo + length cs) =
      Some (setArr b (A ++ blocks qs ++ Zs), t') /\
    qs ≡ₚ concat cs /\ StronglySorted le qs /\ tmpok t'.
Proof.
  intros Hwf Hs fuel. induction fuel as [|f IH]; intros cs lo A Zs t Hf Hpos Hoffs Hc Hsrt Ht; [lia|].
  cbn [sortRec]. rewrite (proj2 (Nat.ltb_ge _ _)) by lia.
  replace (lo + length cs - lo)%nat with (length cs) by lia.
  pose proof (Hoffs 0%nat ltac:(lia)) as H0. rewrite Nat.add_0_r, bounds_0 in H0.
  pose proof (Hoffs (length cs) ltac:(lia)) as H1. rewrite bounds_last in H1.
  rewrite H0, H1. cbn [mbind option_bind].
  destruct (Nat.eqb_spec lo (lo + length cs / 2)) as [E|E].
  { rewrite (sub_at b A (blocks (concat cs)) Zs) by done. cbn [mbind option_bind].
    exists (concat cs), t. split_and!; try done. destruct cs as [|c [|c' cs]]; [constructor| |].
    - cbn. rewrite app_nil_r. by inversion Hsrt.
    - cbn [length] in E. pose proof (Nat.div_str_pos (S (S (length cs))) 2 ltac:(lia)). lia. }
  assert (Hk : (length cs / 2 < length cs)%nat) by (apply Nat.div_lt; [destruct cs; cbn in *; lia|lia]).
  remember (length cs / 2)%nat as k eqn:Ek. clear Ek.
  rewrite (Hoffs k) by lia. assert (exists c1 c2, cs = c1 ++ c2 /\ length c1 = k) as (c1 & c2 & -> & Hlk).
  { exists (take k cs), (drop k cs). rewrite take_drop, length_take. split; [done|lia]. }
  rewrite length_app, concat_app, blocks_app, <- app_assoc in *.
  apply Forall_app in Hsrt as [S1 S2].
  rewrite <- Hlk, bounds_lookup_l, bounds_last by lia. cbn [mbind option_bind].
  destruct (IH c1 lo A (blocks (concat c2) ++ Zs) t) as (q1 & t1 & E1 & P1 & Q1 & Ht1);
    [lia|lia| |done|done|done|].
  { intros i Hi. rewrite Hoffs by lia. by apply bounds_lookup_l. }
  rewrite E1. cbn [mbind option_bind]. pose proof (blocks_perm_len _ _ P1) as L1.
  destruct (IH c2 (lo + length c1)%nat (A ++ blocks q1) Zs t1) as (q2 & t2 & E2 & P2 & Q2 & Ht2); try done.
  { lia. }
  { lia. }
  { intros i Hi. rewrite <- Nat.add_assoc, Hoffs, zlen_app, L1 by lia. apply bounds_lookup_r. }
  { rewrite <- app_assoc, !zlen_app in *. lia. }
  rewrite <- !app_assoc, <- Nat.add_assoc in E2. rewrite E2. cbn [mbind option_bind].
  pose proof (blocks_perm_len _ _ P2) as L2.
  destruct (merge_spec b q1 q2 A Zs t2 Hwf Hs) as (t' & E' & Ht'); [|done|].
  { rewrite !zlen_app in *. lia. }
  rewrite L1, L2 in E'. rewrite zlen_app, Z.add_assoc, E'.
  exists (mergeL q1 q2), t'. split_and!; [done|by rewrite mergeL_perm, P1, P2|by apply mergeL_sorted|done].
Qed.

Lemma bounds_perm ds cs : Forall2 (fun d c => d ≡ₚ c) ds cs -> forall o,
  bounds o ds = bounds o cs /\ concat ds ≡ₚ concat cs.
Proof.
  induction 1 as [|d c ds cs Hp _ IH]; intros o; [done|]. cbn [bounds concat].
  rewrite (blocks_perm_len _ _ Hp). destruct (IH (o + zlen (blocks c))) as [-> Hq]. by rewrite Hp, Hq.
Qed.

Lemma length_bounds o cs : length (bounds o cs) = S (length cs).
Proof. revert o. induction cs as [|c cs IH]; intros o; cbn; [done|by rewrite IH]. Qed.

Lemma last_starts o cs e : Forall (fun x => x < e) (starts o cs) ->
  last (starts o cs) <> Some e.
Proof.
  intros HF E. rewrite last_lookup in E. apply (Forall_lookup_1 _ _ _ _ HF) in E. lia.
Qed.

(** On an array [pre ++ blocks ps ++ Zs] whose run of slices ends at or before
    the write offset. *)
Lemma SortSliceBetween_arr szTmp b pre ps Zs :
  wf b -> cap b < 2 ^ 62 -> zlen (pre ++ blocks ps ++ Zs) = cap b ->
  0 < zlen pre -> zlen pre + zlen (blocks ps) <= offset b ->
  exists qs, SortSliceBetween szTmp (setArr b (pre ++ blocks ps ++ Zs)) (zlen pre) (zlen pre + zlen (blocks ps)) =
      Some (setArr b (pre ++ blocks qs ++ Zs)) /\ qs ≡ₚ ps /\ StronglySorted le qs.
Proof.
  intros Hwf Hs Hc Hpre Ho. unfold SortSliceBetween.
  destruct (Z.leb_spec (zlen pre + zlen (blocks ps)) (zlen pre)) as [Hle|Hgt].
  { assert (E : ps = []) by (apply blocks_nil, zlen_zero; pose proof (zlen_nonneg (blocks ps)); lia).
    subst ps. exists []. split_and!; [done|done|constructor]. }
  rewrite (proj2 (Z.eqb_neq _ _)) by lia. cbn [setArr offset].
  rewrite chunkLoop_spec by (try done; by eapply blocks_fuel). cbn [mbind option_bind app].
  destruct (chunkOffs_starts ps 0 (zlen pre)) as (c & cs & Eps & Hn & -> & Hcn). rewrite (Hcn eq_refl) in *.
  cbn [app] in Eps. subst ps. change (zlen (blocks [])) with 0. rewrite Z.add_0_r.
  pose proof (starts_below cs (zlen pre) Hn) as Hbelow.
  destruct (starts (zlen pre) cs) as [|first rest] eqn:Est.
  { destruct cs; [change (zlen (blocks (concat []))) with 0 in Hgt; lia|done]. }
  rewrite <- Est in *. rewrite bool_decide_false by by apply last_starts. rewrite <- bounds_starts.
  assert (first = zlen pre) as -> by (destruct cs; [done|by injection Est]).
  destruct (smallPass_spec b cs Hwf Hs pre Zs (New szTmp) Hc Ho) as (ds & t & -> & HF & HS & Ht).
  { split; [apply New_wf|done]. }
  cbn [mbind option_bind]. destruct (bounds_perm ds cs HF (zlen pre)) as [Hbd Hp].
  pose proof (Forall2_length _ _ _ HF) as Hlen. rewrite length_bounds.
  destruct (sortRec_spec b (bounds (zlen pre) cs) Hwf Hs (S (length cs)) ds 0 pre Zs t)
    as (qs & t' & E & P & Q & _); try done; [lia|lia| | |].
  { intros i _. by rewrite Hbd. }
  { rewrite !zlen_app, (blocks_perm_len _ _ Hp) in *. lia. }
  replace (S (length cs) - 1)%nat with (0 + length ds)%nat by lia. rewrite E. cbn [mbind option_bind].
  exists qs. split_and!; [done|by rewrite P|done].
Qed.

(** C17: sorting the slices between two offsets of a buffer, for a start behind the
    first byte (at offset 0 the code panics by design) and a [less] that is a strict weak
    order, leaves the bytes before and after alone, keeps the write offset, and leaves
    between the two offsets a permutation of the slices that is in the order of [less]; it
    never panics or runs out of scratch space. *)
Theorem sortslice_sorts szTmp b pre ps post :
  wf b -> cap b < 2 ^ 62 -> written b = pre ++ blocks ps ++ post -> 0 < zlen pre ->
  exists b' qs, SortSliceBetween szTmp b (zlen pre) (zlen pre + zlen (blocks ps)) = Some b' /\
    wf b' /\ written b' = pre ++ blocks qs ++ post /\ offset b' = offset b /\ padding b' = padding b /\
    qs ≡ₚ ps /\ StronglySorted le qs.
Proof.
  intros Hwf Hs Hw Hpre. pose proof (zlen_written b Hwf) as Hl. pose proof Hwf as [(a & Ea & Hla) _ _ Hcap].
  assert (Harr : arr b = pre ++ blocks ps ++ (post ++ zdrop (offset b) (arr b))).
  { rewrite <- (ztake_zdrop (offset b) (arr b)) at 1. fold (written b). by rewrite Hw, <- !app_assoc. }
  set (Zs := post ++ zdrop (offset b) (arr b)) in *.
  assert (Hc : zlen (pre ++ blocks ps ++ Zs) = cap b) by (rewrite <- Harr; unfold arr; by rewrite Ea).
  rewrite Hw, !zlen_app in Hl. pose proof (zlen_nonneg post).
  destruct (SortSliceBetween_arr szTmp b pre ps Zs Hwf Hs Hc Hpre) as (qs & E & P & Q); [lia|].
  rewrite <- Harr, <- setArr_id in E by done. exists (setArr b (pre ++ blocks qs ++ Zs)), qs.
  pose proof (blocks_perm_len _ _ P) as Hq.
  split_and!; try done.
  - apply setArr_wf; [done|]. rewrite !zlen_app, Hq in *. lia.
  - unfold written, arr. cbn [setArr data offset]. unfold Zs.
    rewrite !app_assoc, ztake_app_le, ztake_ge; [done| |]; rewrite !zlen_app; lia.
Qed.
End sort.

(** ** A sort of the library kind *)

Fixpoint insertInt (cmp : Z -> Z -> bool) (x : Z) (l : list Z) : list Z :=
  match l with [] => [x] | y :: l => if cmp y x then y :: insertInt cmp x l else x :: y :: l end.
Definition insertionSort (cmp : Z -> Z -> bool) (l : list Z) : list Z := foldr (insertInt cmp) [] l.

Lemma insertInt_perm cmp x l : insertInt cmp x l ≡ₚ x :: l.
Proof.
  induction l as [|y l IH]; cbn; [done|]. case_match; [|done]. rewrite IH. apply Permutation_swap.
Qed.

Lemma insertionSort_sorts cmp l :
  (forall i j, cmp i j = true -> cmp j i = false) ->
  (forall i j k, cmp j i = false -> cmp k j = false -> cmp k i = false) ->
  insertionSort cmp l ≡ₚ l /\ StronglySorted (fun i j => cmp j i = false) (insertionSort cmp l).
Proof.
  intros Ha Ht. split.
  - induction l as [|x l IH]; cbn; [done|]. by rewrite insertInt_perm, IH.
  - induction l as [|x l IH]; cbn; [constructor|]. fold (insertionSort cmp l).
    induction IH as [|y k Hk IHk Hy]; cbn; [repeat constructor|].
    destruct (cmp y x) eqn:E.
    + constructor; [done|]. rewrite insertInt_perm. constructor; [by apply Ha|done].
    + constructor; [by constructor|]. constructor; [done|].
      eapply Forall_impl; [exact Hy|]. intros z Hz. by apply (Ht _ y).
Qed.

Definition byLength (x y : list byte) : bool := zlen x <? zlen y.

Lemma sortslice_sorts_witness :
  exists b b' qs, writeAll (New 64) [[7;7;7]; []; [1]; [5;5]] = Some b /\
    SortSliceBetween byLength insertionSort 10 b 8 46 = Some b' /\
    written b' = zeros 8 ++ blocks qs ++ [] /\ qs ≡ₚ [[7;7;7]; []; [1]; [5;5]] /\
    StronglySorted (le byLength) qs.
Proof.
  eexists. destruct (sortslice_sorts byLength insertionSort) with
    (szTmp := 10) (b := default (New 0) (writeAll (New 64) [[7;7;7]; []; [1]; [5;5]]))
    (pre := zeros 8) (ps := [[7;7;7]; []; [1]; [5;5]]) (post := @nil byte)
    as (b' & qs & E & _ & Hw & _ & _ & P & Q).
  - unfold byLength. intros x y. rewrite Z.ltb_lt, Z.ltb_ge. lia.
  - unfold le, byLength. intros x y z. rewrite !Z.ltb_ge. lia.
  - apply insertionSort_sorts.
  - split; [|vm_compute; reflexivity|vm_compute; split; discriminate|vm_compute; discriminate].
    eexists. split; [vm_compute; reflexivity|vm_compute; reflexivity].
  - vm_compute. reflexivity.
  - vm_compute. reflexivity.
  - vm_compute. reflexivity.
  - exists b', qs. split_and!; [vm_compute; reflexivity|exact E|exact Hw|exact P|exact Q].
Defined.

(** What it computes on four slices sorted by length. *)
Example sortslice_runs :
  (b ← writeAll (New 64) [[7;7;7]; []; [1]; [5;5]];
   b ← SortSlice byLength insertionSort 10 b;
   SliceIterate (fun st p => (st ++ [p], None)) b []) = Some ([[1]; [5;5]; [7;7;7]], None).
Proof. vm_compute. reflexivity. Qed.
