(* ===== verification/FloatRound.v ===== *)
(** * Rounding of float64 results

    The rounding of the Standard Library's binary64 operations ([SFadd],
    [SFsub], [SFmul], [SFdiv]) stays on the right side of every representable
    number: what is at least (at most) a float before rounding is so
    afterwards.  From this the bounds on sums, differences and products that
    the rate limiters rely on, and the exactness of small integers.

    The value of a mantissa and exponent is compared as the integer
    [m * 2 ^ (e + K)], which is exact for the exponents that occur. *)

From stdpp Require Import base list option.
From Stdlib Require Import ZArith Lia SpecFloat.
From S2P Require Import Prelude Float.

#[local] Open Scope Z_scope.

Definition K : Z := 3000.
Definition V (m e : Z) : Z := m * 2 ^ (e + K).

Notation fexp64 := (fexp 53 1024).
Notation ndig := digits2_pos.

Lemma fexp64_eq x : fexp64 x = Z.max (x - 53) (-1074).
Proof. done. Qed.

(** ** Digits *)

Lemma ndig_spec m : 2 ^ (Zpos (ndig m) - 1) <= Zpos m < 2 ^ Zpos (ndig m).
Proof.
  induction m as [m IH|m IH|]; cbn [digits2_pos]; [| |cbn; lia].
  all: rewrite Pos2Z.inj_succ; replace (Z.succ (Zpos (ndig m)) - 1) with (Zpos (ndig m)) by lia;
    rewrite Z.pow_succ_r by lia; replace (Zpos (ndig m)) with (1 + (Zpos (ndig m) - 1)) at 1 by lia;
    rewrite Z.pow_add_r by lia; lia.
Qed.

Lemma ndig_unique m d : 0 < d -> 2 ^ (d - 1) <= Zpos m < 2 ^ d -> Zpos (ndig m) = d.
Proof.
  intros Hd [H1 H2]. pose proof (ndig_spec m) as [H3 H4].
  assert (~ Zpos (ndig m) < d).
  { intros H. assert (2 ^ Zpos (ndig m) <= 2 ^ (d - 1)) by (apply Z.pow_le_mono_r; lia). lia. }
  assert (~ d < Zpos (ndig m)).
  { intros H'. assert (2 ^ d <= 2 ^ (Zpos (ndig m) - 1)) by (apply Z.pow_le_mono_r; lia). lia. }
  lia.
Qed.

(** ** Shifting right *)

Lemma shr_1_spec m r s : 0 <= m ->
  shr_1 (Build_shr_record m r s) = Build_shr_record (m / 2) (Z.odd m) (r || s).
Proof.
  intros Hm. destruct m as [|[p|p|]|p]; try done; cbn [shr_1]; f_equal.
  - rewrite <- Z.div2_div. done.
  - rewrite <- Z.div2_div. done.
Qed.

Lemma shr_iter p : forall m r s, 0 <= m ->
  let R := iter_pos shr_1 p (Build_shr_record m r s) in
  shr_m R = m / 2 ^ Zpos p /\
  (m mod 2 ^ Zpos p = 0 -> r = false -> s = false -> shr_r R = false /\ shr_s R = false).
Proof.
  assert (D : forall p : positive, 0 < 2 ^ Zpos p) by (intros; apply Z.pow_pos_nonneg; lia).
  assert (C : forall m a b, 0 < a -> 0 < b -> m mod (a * b) = 0 -> m mod a = 0 /\ (m / a) mod b = 0).
  { intros m a b Ha Hb. rewrite Z.rem_mul_r by lia. pose proof (Z.mod_pos_bound m a Ha).
    pose proof (Z.mod_pos_bound (m / a) b Hb). nia. }
  induction p as [p IH|p IH|]; intros m r s Hm; cbn [iter_pos].
  - rewrite shr_1_spec by done. pose proof (D p). assert (Hm2 : 0 <= m / 2) by (apply Z.div_pos; lia).
    assert (Hm3 : 0 <= m / 2 / 2 ^ Zpos p) by (apply Z.div_pos; lia).
    specialize (IH (m / 2) (Z.odd m) (r || s) Hm2) as IH1. cbn zeta in IH1.
    destruct (iter_pos shr_1 p _) as [m1 r1 s1]. cbn [shr_m shr_r shr_s] in IH1. destruct IH1 as [-> E1].
    specialize (IH (m / 2 / 2 ^ Zpos p) r1 s1 Hm3) as [E2 E3].
    assert (Hpow : 2 ^ Zpos p~1 = 2 * (2 ^ Zpos p * 2 ^ Zpos p)).
    { rewrite <- Z.pow_add_r, <- Z.pow_succ_r by lia. f_equal. lia. }
    split.
    + rewrite E2, Hpow, !Z.div_div by lia. f_equal; lia.
    + intros Hz -> ->. rewrite Hpow in Hz. apply C in Hz as [H1 Hz]; [|lia|lia].
      apply C in Hz as [H2 H3]; [|lia|lia].
      rewrite Zmod_odd in H1. destruct (Z.odd m) eqn:Ho; [done|].
      destruct (E1 H2 eq_refl eq_refl) as [-> ->]. by apply E3.
  - pose proof (D p). assert (Hm2 : 0 <= m / 2 ^ Zpos p) by (apply Z.div_pos; lia).
    specialize (IH m r s Hm) as IH1. cbn zeta in IH1.
    destruct (iter_pos shr_1 p (Build_shr_record m r s)) as [m1 r1 s1]. cbn [shr_m shr_r shr_s] in IH1.
    destruct IH1 as [-> E1]. specialize (IH (m / 2 ^ Zpos p) r1 s1 Hm2) as [E2 E3].
    assert (Hpow : 2 ^ Zpos p~0 = 2 ^ Zpos p * 2 ^ Zpos p).
    { rewrite <- Z.pow_add_r by lia. f_equal. lia. }
    split; [rewrite E2, Hpow, Z.div_div by lia; done|].
    intros Hz -> ->. rewrite Hpow in Hz. apply C in Hz as [H2 H3]; [|lia|lia].
    destruct (E1 H2 eq_refl eq_refl) as [-> ->]. by apply E3.
  - rewrite shr_1_spec by done. cbn [shr_m shr_r shr_s]. split; [done|].
    intros Hz -> ->. change (2 ^ Zpos xH) with 2 in Hz. rewrite Zmod_odd in Hz. by destruct (Z.odd m).
Qed.

Lemma shr_spec R0 e n : 0 <= shr_m R0 -> 0 <= n ->
  exists R, shr R0 e n = (R, e + n) /\ shr_m R = shr_m R0 / 2 ^ n /\
    (shr_m R0 mod 2 ^ n = 0 -> shr_r R0 = false -> shr_s R0 = false -> shr_r R = false /\ shr_s R = false).
Proof.
  intros Hm Hn. destruct R0 as [m r s]. cbn [shr_m shr_r shr_s] in *. destruct n as [|p|p]; [| |lia].
  - eexists. cbn [shr]. rewrite Z.add_0_r. split; [done|]. change (2 ^ 0) with 1. by rewrite Z.div_1_r.
  - cbn [shr]. destruct (shr_iter p m r s Hm) as [E1 E2]. eexists. split; [done|]. by split.
Qed.

(** The mantissa kept and its rounding: the floor or its successor, the latter
    only for a value that is not representable at that exponent. *)
Lemma round_mantissa m e l :
  0 <= m -> e <= fexp64 (Zdigits2 m + e) ->
  exists R m1, shr_fexp 53 1024 m e l = (R, fexp64 (Zdigits2 m + e)) /\
    round_nearest_even (shr_m R) (loc_of_shr_record R) = m1 /\
    let n := fexp64 (Zdigits2 m + e) - e in
    m1 = m / 2 ^ n \/ (m1 = m / 2 ^ n + 1 /\ (l = loc_Exact -> m mod 2 ^ n <> 0)).
Proof.
  intros Hm He. unfold shr_fexp. set (n := fexp64 (Zdigits2 m + e) - e).
  assert (Hl : shr_m (shr_record_of_loc m l) = m) by (by destruct l as [|[]]).
  destruct (shr_spec (shr_record_of_loc m l) e n) as ([m' r s] & -> & E1 & E2); [by rewrite Hl|lia|].
  rewrite Hl in *. cbn [shr_m shr_r shr_s] in *. subst m'.
  eexists _, _. split; [f_equal; lia|]. split; [done|]. cbn zeta. cbn [shr_m].
  assert (Hx : l = loc_Exact -> m mod 2 ^ n = 0 -> r = false /\ s = false) by (intros -> E; by apply E2).
  destruct r, s; cbn [loc_of_shr_record round_nearest_even]; auto; try case_match; auto;
    right; (split; [done|]); intros -> E; by destruct (Hx eq_refl E).
Qed.

(** ** Canonical mantissas *)

Definition canon (m : positive) (e : Z) : Prop := fexp64 (Zpos (ndig m) + e) = e.

Lemma canon_facts m e : canon m e ->
  -1074 <= e /\ Zpos m < 2 ^ 53 /\ (-1074 < e -> 2 ^ 52 <= Zpos m).
Proof.
  unfold canon. rewrite fexp64_eq. intros H. pose proof (ndig_spec m) as [H1 H2].
  split_and!; [lia| |].
  - eapply Z.lt_le_trans; [exact H2|]. apply Z.pow_le_mono_r; lia.
  - intros He. replace 52 with (Zpos (ndig m) - 1) by lia. done.
Qed.

Lemma canon_intro m e : -1074 <= e -> Zpos m < 2 ^ 53 -> (-1074 < e -> 2 ^ 52 <= Zpos m) -> canon m e.
Proof.
  intros He H1 H2. unfold canon. rewrite fexp64_eq. pose proof (ndig_spec m) as [H3 H4].
  assert (Zpos (ndig m) <= 53).
  { apply Z.nlt_ge. intros H. assert (2 ^ 53 <= 2 ^ (Zpos (ndig m) - 1)) by (apply Z.pow_le_mono_r; lia). lia. }
  destruct (Z.eq_dec e (-1074)) as [->|Hn]; [lia|].
  assert (52 < Zpos (ndig m)).
  { apply Z.nle_gt. intros H'. assert (2 ^ Zpos (ndig m) <= 2 ^ 52) by (apply Z.pow_le_mono_r; lia). lia. }
  lia.
Qed.

Lemma pow_split a b : 0 <= b <= a -> 2 ^ a = 2 ^ (a - b) * 2 ^ b.
Proof. intros. rewrite <- Z.pow_add_r by lia. f_equal. lia. Qed.

(** The order of canonical values is the order of their exponents, then of
    their mantissas. *)
Lemma canon_lt m1 e1 m2 e2 :
  canon m1 e1 -> canon m2 e2 -> e1 < e2 -> V (Zpos m1) e1 < V (Zpos m2) e2.
Proof.
  intros (A1 & A2 & A3)%canon_facts (B1 & B2 & B3)%canon_facts He. unfold V, K.
  rewrite (pow_split (e2 + 3000) (e1 + 3000)) by lia.
  assert (HX : 2 ^ 1 <= 2 ^ (e2 + 3000 - (e1 + 3000))) by (apply Z.pow_le_mono_r; lia).
  assert (HP : 0 < 2 ^ (e1 + 3000)) by (apply Z.pow_pos_nonneg; lia).
  specialize (B3 ltac:(lia)). rewrite Z.mul_assoc. apply Z.mul_lt_mono_pos_r; [done|].
  change (2 ^ 53) with (2 ^ 52 * 2) in A2. change (2 ^ 1) with 2 in HX. nia.
Qed.

(** ** Rounding *)

(** [w] is on the same side of zero and of every canonical value as [z]. *)
Definition near (z w : Z) : Prop :=
  (z <= 0 -> w <= 0) /\
  (forall m e, canon m e -> V (Zpos m) e <= z -> V (Zpos m) e <= w) /\
  (forall m e, canon m e -> z <= V (Zpos m) e -> w <= V (Zpos m) e).

Lemma near_refl z : near z z.
Proof. by split. Qed.

(** A value [(q + r / 2 ^ n) * 2 ^ e1] and the floor or ceiling of its mantissa. *)
Lemma round_near q r n m1 e1 Q z :
  0 <= n -> 0 <= Q -> -1074 <= e1 -> 0 <= q -> 0 <= r < 2 ^ n -> (-1074 < e1 -> 2 ^ 52 <= q) ->
  (forall x, V x e1 = x * 2 ^ n * 2 ^ Q) -> z = (q * 2 ^ n + r) * 2 ^ Q ->
  m1 = q \/ (m1 = q + 1 /\ r <> 0) -> near z (V m1 e1).
Proof.
  intros Hn HQ' He1 Hq0 Hr Hq2 HV1 Hval Hm1.
  assert (HP : 0 < 2 ^ n) by (apply Z.pow_pos_nonneg; lia).
  assert (HQ : 0 < 2 ^ Q) by (apply Z.pow_pos_nonneg; lia).
  assert (Hlow : forall mf ef, canon mf ef -> ef < e1 -> V (Zpos mf) ef < V q e1).
  { intros mf ef (C1 & C2 & C3)%canon_facts Hef. unfold V, K.
    rewrite (pow_split (e1 + 3000) (ef + 3000)) by lia.
    assert (HX : 2 ^ 1 <= 2 ^ (e1 + 3000 - (ef + 3000))) by (apply Z.pow_le_mono_r; lia).
    assert (HE : 0 < 2 ^ (ef + 3000)) by (apply Z.pow_pos_nonneg; lia).
    specialize (Hq2 ltac:(lia)). rewrite Z.mul_assoc. apply Z.mul_lt_mono_pos_r; [done|].
    change (2 ^ 53) with (2 ^ 52 * 2) in C2. change (2 ^ 1) with 2 in HX. nia. }
  assert (Hgrid : forall mf ef, canon mf ef -> e1 <= ef -> exists k, V (Zpos mf) ef = V k e1).
  { intros mf ef _ Hef. exists (Zpos mf * 2 ^ (ef - e1)). unfold V.
    rewrite <- Z.mul_assoc, <- Z.pow_add_r by (unfold K; lia). do 2 f_equal. lia. }
  split_and!.
  - rewrite HV1, Hval. intros Hz. destruct Hm1 as [->|[-> Hr0]]; nia.
  - intros mf ef Hc Hle. assert (HF : V (Zpos mf) ef <= V q e1).
    { destruct (Z.lt_ge_cases ef e1) as [Hlt|Hge]; [specialize (Hlow _ _ Hc Hlt); lia|].
      destruct (Hgrid _ _ Hc Hge) as [k Ek]. rewrite Ek, !HV1. rewrite Ek, HV1, Hval in Hle.
      apply Z.mul_le_mono_nonneg_r; [lia|]. apply Z.mul_le_mono_pos_r in Hle; [|done].
      apply Z.mul_le_mono_nonneg_r; [lia|]. apply Z.nlt_ge. intros Hk'. nia. }
    etransitivity; [exact HF|]. rewrite !HV1. destruct Hm1 as [->|[-> _]]; [done|]. nia.
  - intros mf ef Hc Hle. destruct Hm1 as [->|[-> Hr0]].
    { etransitivity; [|exact Hle]. rewrite HV1, Hval. nia. }
    assert (HF : V q e1 < V (Zpos mf) ef).
    { rewrite HV1. eapply Z.lt_le_trans; [|exact Hle]. rewrite Hval. apply Z.mul_lt_mono_pos_r; lia. }
    destruct (Z.lt_ge_cases ef e1) as [Hlt|Hge]; [specialize (Hlow _ _ Hc Hlt); lia|].
    destruct (Hgrid _ _ Hc Hge) as [k Ek]. rewrite Ek, !HV1 in *.
    apply Z.mul_lt_mono_pos_r in HF; [|done]. apply Z.mul_lt_mono_pos_r in HF; [|done].
    apply Z.mul_le_mono_nonneg_r; [lia|]. apply Z.mul_le_mono_nonneg_r; lia.
Qed.

(** The first pass: the mantissa has at most 53 digits, at least as many if the
    exponent is not the smallest, and an exact value is rounded to a near one. *)
Lemma round_first m e l :
  e <= fexp64 (Zpos (ndig m) + e) -> -3000 <= e ->
  exists R m1 e1, shr_fexp 53 1024 (Zpos m) e l = (R, e1) /\
    round_nearest_even (shr_m R) (loc_of_shr_record R) = m1 /\
    -1074 <= e1 /\ 0 <= m1 <= 2 ^ 53 /\ (-1074 < e1 -> 2 ^ 52 <= m1) /\
    (l = loc_Exact -> near (V (Zpos m) e) (V m1 e1)).
Proof.
  intros He Hk. destruct (round_mantissa (Zpos m) e l ltac:(lia) He) as (R & m1 & E1 & E2 & Hm1). cbn [Zdigits2] in *.
  set (e1 := fexp64 (Zpos (ndig m) + e)) in *. set (n := e1 - e) in *.
  exists R, m1, e1. split; [done|]. split; [done|]. cbn zeta in Hm1. fold n in Hm1.
  assert (Hn : 0 <= n) by lia. assert (HP : 0 < 2 ^ n) by (apply Z.pow_pos_nonneg; lia).
  assert (He1 : e1 = Z.max (Zpos (ndig m) + e - 53) (-1074)) by apply fexp64_eq.
  pose proof (Z.div_mod (Zpos m) (2 ^ n) ltac:(lia)) as Hdm. pose proof (Z.mod_pos_bound (Zpos m) (2 ^ n) HP) as Hmod.
  set (q := Zpos m / 2 ^ n) in *. set (r := Zpos m mod 2 ^ n) in *. pose proof (ndig_spec m) as [Hd1 Hd2].
  assert (Hq0 : 0 <= q) by (apply Z.div_pos; lia).
  assert (Hq1 : q < 2 ^ 53).
  { apply Z.div_lt_upper_bound; [lia|]. rewrite <- Z.pow_add_r by lia.
    eapply Z.lt_le_trans; [exact Hd2|]. apply Z.pow_le_mono_r; lia. }
  assert (Hq2 : -1074 < e1 -> 2 ^ 52 <= q).
  { intros H. apply Z.div_le_lower_bound; [lia|]. rewrite <- Z.pow_add_r by lia.
    eapply Z.le_trans; [|exact Hd1]. apply Z.pow_le_mono_r; lia. }
  split; [lia|]. split; [destruct Hm1 as [->|[-> _]]; lia|].
  split; [intros H; specialize (Hq2 H); destruct Hm1 as [->|[-> _]]; lia|]. intros ->.
  assert (Hval : V (Zpos m) e = (q * 2 ^ n + r) * 2 ^ (e + K)) by (unfold V; f_equal; lia).
  assert (HV1 : forall x, V x e1 = x * 2 ^ n * 2 ^ (e + K)).
  { intros x. unfold V. rewrite <- Z.mul_assoc, <- Z.pow_add_r by (unfold K; lia). do 2 f_equal. unfold n, K. lia. }
  apply (round_near q r n m1 e1 (e + K)); [lia|unfold K; lia|lia|lia|lia|done|done|done|].
  destruct Hm1 as [->|[-> Hr]]; [by left|]. right. split; [done|]. specialize (Hr eq_refl). lia.
Qed.

(** The second pass only moves a mantissa that rounding made [2 ^ 53]. *)
Lemma round_second m1 e1 :
  -1074 <= e1 -> 0 <= m1 <= 2 ^ 53 -> (-1074 < e1 -> 2 ^ 52 <= m1) ->
  exists R e2, shr_fexp 53 1024 m1 e1 loc_Exact = (R, e2) /\ V (shr_m R) e2 = V m1 e1 /\
    match shr_m R with Z0 => True | Zpos m => canon m e2 | Zneg _ => False end.
Proof.
  intros He Hm Hn. destruct (Z.eq_dec m1 0) as [->|H0].
  { assert (e1 = -1074) as -> by lia. by eexists _, _. }
  destruct m1 as [|m|m]; [done| |lia]. destruct (Z.eq_dec (Zpos m) (2 ^ 53)) as [E|E].
  - exists (Build_shr_record (2 ^ 52) false false), (e1 + 1).
    assert (Hd : Zpos (ndig m) = 54) by (apply ndig_unique; [lia|]; rewrite E; done).
    unfold shr_fexp. cbn [Zdigits2 shr_record_of_loc]. rewrite Hd, fexp64_eq.
    replace (Z.max (54 + e1 - 53) (-1074) - e1) with 1 by lia. split; [|split].
    + cbn [shr iter_pos]. rewrite shr_1_spec by lia. rewrite E. done.
    + cbn [shr_m]. unfold V, K. rewrite E. replace (e1 + 1 + 3000) with (Z.succ (e1 + 3000)) by lia.
      rewrite Z.pow_succ_r by lia. change (2 ^ 53) with (2 ^ 52 * 2). lia.
    + apply canon_intro; lia.
  - exists (Build_shr_record (Zpos m) false false), e1.
    assert (Hc : canon m e1) by (apply canon_intro; lia).
    unfold shr_fexp. cbn [Zdigits2 shr_record_of_loc]. rewrite Hc, Z.sub_diag. done.
Qed.

(** ** Non-negative floats *)

Definition nnf (x : float64) : Prop :=
  match x with
  | S754_zero _ => True
  | S754_finite s m e => s = false /\ canon m e /\ e <= 971
  | _ => False
  end.

Definition fval (x : float64) : Z :=
  match x with S754_finite _ m e => V (Zpos m) e | _ => 0 end.

(** The non-negative float [x] is a rounding of [z]. *)
Definition rounded (x : float64) (z : Z) : Prop :=
  exists w, near z w /\
    ((nnf x /\ fval x = w) \/
     (x = S754_infinity false /\ exists m e, canon m e /\ 971 < e /\ w = V (Zpos m) e)).

(** A non-negative float, infinity included. *)
Definition nn (x : float64) : Prop := nnf x \/ x = S754_infinity false.

Lemma rounded_nn x z : rounded x z -> nn x.
Proof. intros (w & _ & [[H _]|[H _]]); [by left|by right]. Qed.

Lemma binary_round_aux_nn m e l :
  e <= fexp64 (Zpos (ndig m) + e) -> -3000 <= e ->
  nn (binary_round_aux 53 1024 false (Zpos m) e l) /\
  (l = loc_Exact -> rounded (binary_round_aux 53 1024 false (Zpos m) e l) (V (Zpos m) e)).
Proof.
  intros He Hk. unfold binary_round_aux.
  destruct (round_first m e l He Hk) as (R & m1 & e1 & -> & -> & H1 & H2 & H3 & Hnear).
  destruct (round_second m1 e1 H1 H2 H3) as (R2 & e2 & -> & HV & Hm).
  change (1024 - 53) with 971. assert (Hr : exists x, x = match shr_m R2 with
    | Z0 => S754_zero false
    | Zpos m => if e2 <=? 971 then S754_finite false m e2 else S754_infinity false
    | Zneg _ => S754_nan end /\
    ((nnf x /\ fval x = V m1 e1) \/
     (x = S754_infinity false /\ exists m e, canon m e /\ 971 < e /\ V m1 e1 = V (Zpos m) e))).
  { eexists. split; [done|]. rewrite <- HV. destruct (shr_m R2) as [|m2|m2]; [by left| |done].
    destruct (Z.leb_spec e2 971); [by left|]. right. split; [done|]. by exists m2, e2. }
  destruct Hr as (x & <- & Hx). split.
  - destruct Hx as [[Hx _]|[-> _]]; [by left|by right].
  - intros ->. exists (V m1 e1). by split; [apply Hnear|].
Qed.

Lemma iter_xO m d : Zpos (Pos.iter xO m d) = Zpos m * 2 ^ Zpos d.
Proof.
  induction d as [|d IH] using Pos.peano_ind; [cbn; lia|].
  rewrite Pos.iter_succ, Pos2Z.inj_succ, Z.pow_succ_r by lia. lia.
Qed.

Lemma shl_align_spec m e e' :
  let '(m2, e2) := shl_align m e e' in
  Zpos m2 = Zpos m * 2 ^ (e - e2) /\ e2 = Z.min e e'.
Proof.
  unfold shl_align. destruct (e' - e) as [|d|d] eqn:E; [| |].
  - rewrite Z.sub_diag. split; lia.
  - rewrite Z.sub_diag. split; lia.
  - rewrite iter_xO. split; [|lia]. do 2 f_equal. lia.
Qed.

Lemma V_align m e e2 : -3000 <= e2 <= e -> V (m * 2 ^ (e - e2)) e2 = V m e.
Proof.
  intros H. unfold V, K. rewrite <- Z.mul_assoc, <- Z.pow_add_r by lia. do 2 f_equal. lia.
Qed.

Lemma ndig_align m m2 k : 0 <= k -> Zpos m2 = Zpos m * 2 ^ k -> Zpos (ndig m2) = Zpos (ndig m) + k.
Proof.
  intros Hk E. pose proof (ndig_spec m) as [H1 H2]. assert (0 < 2 ^ k) by (apply Z.pow_pos_nonneg; lia).
  apply ndig_unique; [lia|]. rewrite E, Z.pow_add_r by lia.
  replace (Zpos (ndig m) + k - 1) with (Zpos (ndig m) - 1 + k) by lia. rewrite Z.pow_add_r by lia. nia.
Qed.

Lemma binary_round_rounded m e :
  -3000 <= e -> rounded (binary_round 53 1024 false m e) (V (Zpos m) e).
Proof.
  intros Hk. unfold binary_round. set (e' := fexp64 (Zpos (ndig m) + e)).
  pose proof (shl_align_spec m e e') as Ha. destruct (shl_align m e e') as [m2 e2]. destruct Ha as [Em Ee].
  assert (He' : -1074 <= e') by (unfold e'; rewrite fexp64_eq; lia).
  rewrite <- (V_align _ e e2), <- Em by lia. apply binary_round_aux_nn; [|lia|done].
  rewrite (ndig_align m m2 (e - e2)) by (done || lia).
  replace (Zpos (ndig m) + (e - e2) + e2) with (Zpos (ndig m) + e) by lia. fold e'. lia.
Qed.

Lemma V_pos m e : -3000 <= e -> 0 < V (Zpos m) e.
Proof. intros. unfold V, K. apply Z.mul_pos_pos; [lia|]. apply Z.pow_pos_nonneg; lia. Qed.

Lemma nnf_fval x : nnf x -> 0 <= fval x.
Proof.
  destruct x as [s|s| |s m e]; try done. intros (_ & (H & _ & _)%canon_facts & _). cbn.
  pose proof (V_pos m e). lia.
Qed.

Lemma rounded_self x : nnf x -> rounded x (fval x).
Proof. intros H. exists (fval x). split; [apply near_refl|by left]. Qed.

Definition fsub (a b : float64) : float64 := SFsub 53 1024 a b.
Definition fmul (a b : float64) : float64 := SFmul 53 1024 a b.
Definition fdiv (a b : float64) : float64 := SFdiv 53 1024 a b.

(** Both operands as integers at the smaller exponent. *)
Lemma align_vals mx ex my ey :
  -3000 <= ex -> -3000 <= ey ->
  let ez := Z.min ex ey in
  V (Zpos (fst (shl_align mx ex ez))) ez = V (Zpos mx) ex /\
  V (Zpos (fst (shl_align my ey ez))) ez = V (Zpos my) ey.
Proof.
  intros Hx Hy ez. pose proof (shl_align_spec mx ex ez) as A. pose proof (shl_align_spec my ey ez) as B.
  destruct (shl_align mx ex ez) as [m1 e1], (shl_align my ey ez) as [m2 e2]. cbn [fst].
  destruct A as [-> E1], B as [-> E2]. replace e1 with ez by lia. replace e2 with ez by lia.
  split; apply V_align; lia.
Qed.

Lemma V_add a b e : V (a + b) e = V a e + V b e.
Proof. unfold V. lia. Qed.

(** Sums, differences and products of non-negative floats are rounded. *)
Lemma fadd_rounded x y : nnf x -> nnf y -> rounded (fadd x y) (fval x + fval y).
Proof.
  intros Hx Hy. destruct x as [sx|sx| |sx mx ex], y as [sy|sy| |sy my ey]; try done.
  - destruct sx, sy; by apply (rounded_self (S754_zero _)).
  - by apply rounded_self.
  - cbn [fval]. rewrite Z.add_0_r. by apply (rounded_self (S754_finite sx mx ex)).
  - destruct Hx as (-> & (Hex & _ & _)%canon_facts & _), Hy as (-> & (Hey & _ & _)%canon_facts & _).
    unfold fadd, SFadd. cbn [cond_Zopp fval].
    destruct (align_vals mx ex my ey ltac:(lia) ltac:(lia)) as [<- <-]. rewrite <- V_add.
    apply binary_round_rounded. lia.
Qed.

Lemma fsub_rounded x y : nnf x -> nnf y -> fval y <= fval x -> rounded (fsub x y) (fval x - fval y).
Proof.
  intros Hx Hy Hle. destruct x as [sx|sx| |sx mx ex], y as [sy|sy| |sy my ey]; try done.
  - destruct sx, sy; by apply (rounded_self (S754_zero _)).
  - destruct Hy as (-> & (Hey & _ & _)%canon_facts & _). cbn [fval] in Hle. pose proof (V_pos my ey). lia.
  - cbn [fval]. rewrite Z.sub_0_r. by apply (rounded_self (S754_finite sx mx ex)).
  - destruct Hx as (-> & (Hex & _ & _)%canon_facts & _), Hy as (-> & (Hey & _ & _)%canon_facts & _).
    unfold fsub, SFsub. cbn [cond_Zopp fval] in *.
    destruct (align_vals mx ex my ey ltac:(lia) ltac:(lia)) as [E1 E2]. rewrite <- E1, <- E2 in *.
    set (a := Zpos (shl_align mx ex _).1) in *. set (b := Zpos (shl_align my ey _).1) in *.
    set (ez := Z.min ex ey) in *. replace (V a ez - V b ez) with (V (a - b) ez) by (unfold V; lia).
    assert (Hab : b <= a).
    { unfold V in Hle. apply Z.mul_le_mono_pos_r in Hle; [done|]. apply Z.pow_pos_nonneg; unfold K; lia. }
    destruct (a - b) as [|d|d] eqn:Ed; [| |lia].
    + exists 0. split; [apply near_refl|by left].
    + apply binary_round_rounded. lia.
Qed.

Lemma fmul_rounded x y : nnf x -> nnf y -> exists z, 0 <= z /\ rounded (fmul x y) z.
Proof.
  intros Hx Hy. destruct x as [sx|sx| |sx mx ex], y as [sy|sy| |sy my ey]; try done.
  - exists 0. split; [done|]. by apply (rounded_self (S754_zero _)).
  - exists 0. split; [done|]. by apply (rounded_self (S754_zero _)).
  - exists 0. split; [done|]. by apply (rounded_self (S754_zero _)).
  - destruct Hx as (-> & Cx & _), Hy as (-> & Cy & _).
    pose proof (canon_facts _ _ Cx) as (A1 & _ & _). pose proof (canon_facts _ _ Cy) as (B1 & _ & _).
    exists (V (Zpos (mx * my)) (ex + ey)). split; [pose proof (V_pos (mx * my) (ex + ey)); lia|].
    apply (binary_round_aux_nn (mx * my) (ex + ey)); [|lia|done]. rewrite fexp64_eq.
    unfold canon in *. rewrite fexp64_eq in *. pose proof (ndig_spec mx) as [X1 X2].
    pose proof (ndig_spec my) as [Y1 Y2]. pose proof (ndig_spec (mx * my)) as [_ P2].
    assert (Hd : Zpos (ndig mx) + Zpos (ndig my) - 2 < Zpos (ndig (mx * my))).
    { apply (Z.pow_lt_mono_r_iff 2); [lia|lia|]. eapply Z.le_lt_trans; [|exact P2].
      replace (Zpos (ndig mx) + Zpos (ndig my) - 2) with (Zpos (ndig mx) - 1 + (Zpos (ndig my) - 1)) by lia.
      rewrite Z.pow_add_r by lia. rewrite Pos2Z.inj_mul. apply Z.mul_le_mono_nonneg; try lia;
        apply Z.pow_nonneg; lia. }
    lia.
Qed.

(** ** Order *)

Lemma nnf_not_nan x : nnf x -> is_nan x = false.
Proof. by destruct x. Qed.

Lemma nn_not_nan x : nn x -> is_nan x = false.
Proof. intros [H| ->]; [by apply nnf_not_nan|done]. Qed.

Lemma canon_le_exp m1 e1 m2 e2 :
  canon m1 e1 -> canon m2 e2 -> V (Zpos m1) e1 <= V (Zpos m2) e2 -> e1 <= e2.
Proof.
  intros H1 H2 Hle. apply Z.nlt_ge. intros H. pose proof (canon_lt _ _ _ _ H2 H1 H). lia.
Qed.

Lemma fltb_fval x y : nnf x -> nnf y -> (fltb x y = true <-> fval x < fval y).
Proof.
  intros Hx Hy. rewrite fltb_klt by by apply nnf_not_nan.
  destruct x as [sx|sx| |sx mx ex], y as [sy|sy| |sy my ey]; try done.
  - cbn. lia.
  - destruct Hy as (-> & (H & _ & _)%canon_facts & _). cbn. pose proof (V_pos my ey). lia.
  - destruct Hx as (-> & (H & _ & _)%canon_facts & _). cbn. pose proof (V_pos mx ex). lia.
  - destruct Hx as (-> & Cx & _), Hy as (-> & Cy & _). cbn [fkey klt fval].
    pose proof (canon_facts _ _ Cx) as (Ex & _ & _).
    assert (HP : 0 < 2 ^ (ex + K)) by (apply Z.pow_pos_nonneg; unfold K; lia).
    destruct (Z.lt_trichotomy ex ey) as [H|[->|H]].
    + pose proof (canon_lt _ _ _ _ Cx Cy H). lia.
    + unfold V. rewrite <- Z.mul_lt_mono_pos_r by done. lia.
    + pose proof (canon_lt _ _ _ _ Cy Cx H). lia.
Qed.

Lemma fle_fval x y : nnf x -> nnf y -> (fltb y x = false <-> fval x <= fval y).
Proof. intros Hx Hy. rewrite <- not_true_iff_false, fltb_fval by done. lia. Qed.

Lemma fleb_fval x y : nnf x -> nnf y -> (fleb x y = true <-> fval x <= fval y).
Proof.
  intros Hx Hy. rewrite fleb_fltb, negb_true_iff by by apply nnf_not_nan. by apply fle_fval.
Qed.

(** Infinity is above all. *)
Lemma fle_inf x : nn x -> fltb (S754_infinity false) x = false.
Proof. intros [H| ->]; [|done]. by destruct x as [s|s| |[] m e]. Qed.

(** What is at most a float before rounding is finite and so afterwards. *)
Lemma rounded_le x z y : rounded x z -> nnf y -> z <= fval y -> nnf x /\ fval x <= fval y.
Proof.
  intros (w & (H0 & Hlo & Hhi) & Hx) Hy Hz. assert (Hw : w <= fval y).
  { destruct y as [s|s| |s m e]; try done; [by apply H0|]. destruct Hy as (_ & Hc & _). by apply Hhi. }
  destruct Hx as [[Hx <-]|(_ & m & e & Hc & He & ->)]; [done|].
  exfalso. pose proof (V_pos m e ltac:(lia)). destruct y as [s|s| |s m' e']; try done; cbn [fval] in Hw; [lia|].
  destruct Hy as (_ & Hc' & He'). pose proof (canon_le_exp _ _ _ _ Hc Hc' Hw). lia.
Qed.

(** What is at least a float before rounding is so afterwards. *)
Lemma rounded_ge x z y : rounded x z -> nnf y -> fval y <= z -> fltb x y = false.
Proof.
  intros (w & (H0 & Hlo & Hhi) & Hx) Hy Hz.
  destruct Hx as [[Hx <-]|[-> _]]; [|apply fle_inf; by left].
  apply fle_fval; [done|done|]. destruct y as [s|s| |s m e]; try done; [by apply nnf_fval|].
  destruct Hy as (_ & Hc & _). by apply Hlo.
Qed.

(** A representable value is not changed. *)
Lemma rounded_exact x y : rounded x (fval y) -> nnf y -> nnf x /\ fval x = fval y.
Proof.
  intros Hx Hy. destruct (rounded_le x _ y Hx Hy ltac:(lia)) as [Hn Hle]. split; [done|].
  pose proof (rounded_ge x _ y Hx Hy ltac:(lia)) as Hge. apply fle_fval in Hge; [lia|done|done].
Qed.

Lemma nn_finite x y : nn x -> nnf y -> fltb y x = false -> nnf x.
Proof. intros [H| ->] Hy Hle; [done|]. by destruct y. Qed.

(** ** Integers *)

Lemma f64_of_Z_rounded z : 0 <= z -> rounded (f64_of_Z z) (V z 0).
Proof.
  intros Hz. destruct z as [|p|p]; [|apply binary_round_rounded; lia|lia].
  by apply (rounded_self (S754_zero false)).
Qed.

(** Integers of up to 53 digits are representable. *)
Lemma int_canon p : Zpos p < 2 ^ 53 -> exists m e, canon m e /\ e <= 971 /\ V (Zpos m) e = V (Zpos p) 0.
Proof.
  intros Hp. pose proof (ndig_spec p) as [H1 H2]. set (d := Zpos (ndig p)) in *.
  assert (Hd : d <= 53).
  { apply Z.nlt_ge. intros H. assert (2 ^ 53 <= 2 ^ (d - 1)) by (apply Z.pow_le_mono_r; lia). lia. }
  assert (HP : 0 < 2 ^ (53 - d)) by (apply Z.pow_pos_nonneg; lia).
  destruct (Zpos p * 2 ^ (53 - d)) as [|m|m] eqn:E; [lia| |lia].
  exists m, (d - 53). rewrite <- (V_align _ 0 (d - 53)) by lia. replace (0 - (d - 53)) with (53 - d) by lia.
  rewrite <- E. split_and!; [|lia|done]. apply canon_intro; [lia| |].
  - rewrite <- E. replace 53 with (d + (53 - d)) at 2 by lia. rewrite Z.pow_add_r by lia. nia.
  - intros _. rewrite <- E. replace 52 with (d - 1 + (53 - d)) by lia. rewrite Z.pow_add_r by lia. nia.
Qed.

Lemma f64_of_Z_exact z : 0 <= z < 2 ^ 53 -> nnf (f64_of_Z z) /\ fval (f64_of_Z z) = V z 0.
Proof.
  intros Hz. pose proof (f64_of_Z_rounded z ltac:(lia)) as Hr. destruct z as [|p|p]; [done| |lia].
  destruct (int_canon p ltac:(lia)) as (m & e & Hc & He & E). rewrite <- E in *.
  by apply (rounded_exact _ (S754_finite false m e)).
Qed.

(** Differences of small integers are exact. *)
Lemma fsub_int x a b : nnf x -> fval x = V a 0 -> 0 <= b <= a -> a < 2 ^ 53 ->
  nnf (fsub x (f64_of_Z b)) /\ fval (fsub x (f64_of_Z b)) = V (a - b) 0.
Proof.
  intros Nx Vx Hb Ha. destruct (f64_of_Z_exact b) as [Nb Vb]; [lia|].
  destruct (f64_of_Z_exact (a - b)) as [Nc Vc]; [lia|]. assert (HP : 0 < 2 ^ K) by done.
  rewrite <- Vc. apply rounded_exact; [|done]. rewrite Vc.
  replace (V (a - b) 0) with (fval x - fval (f64_of_Z b)) by (rewrite Vx, Vb; unfold V; lia).
  apply fsub_rounded; [done|done|]. rewrite Vx, Vb. unfold V. nia.
Qed.

Lemma V_lt a b : V a 0 < V b 0 <-> a < b.
Proof. unfold V. assert (0 < 2 ^ (0 + K)) by done. nia. Qed.

(** Comparisons with integers are those of the integers. *)
Lemma fltb_int x a b : nnf x -> fval x = V a 0 -> 0 <= b < 2 ^ 53 -> (fltb x (f64_of_Z b) = true <-> a < b).
Proof.
  intros Nx Vx Hb. destruct (f64_of_Z_exact b Hb) as [Nb Vb]. by rewrite fltb_fval, Vx, Vb, V_lt.
Qed.

(** The float of a positive 64-bit integer. *)
Lemma f64_of_Z_range z : 1 <= z < 2 ^ 64 ->
  exists m e, f64_of_Z z = S754_finite false m e /\ canon m e /\ e <= 971 /\ 1 <= Zpos (ndig m) + e <= 65.
Proof.
  intros Hz. pose proof (f64_of_Z_rounded z ltac:(lia)) as Hr. assert (HK : 0 < 2 ^ K) by done.
  assert (Hone : nnf (S754_finite false (2 ^ 52) (-52))) by (split; [done|split; [reflexivity|lia]]).
  assert (Htop : nnf (S754_finite false (2 ^ 52) 12)) by (split; [done|split; [reflexivity|lia]]).
  destruct (rounded_le _ _ _ Hr Htop) as [Hn Hle].
  { change (fval _) with (2 ^ 64 * 2 ^ K). unfold V. rewrite Z.add_0_l. nia. }
  pose proof (rounded_ge _ _ _ Hr Hone) as Hge.
  assert (H1 : fval (S754_finite false (2 ^ 52) (-52)) = 2 ^ K) by reflexivity.
  assert (H64 : fval (S754_finite false (2 ^ 52) 12) = 2 ^ (64 + K)) by reflexivity.
  rewrite fle_fval, H1 in Hge by done. rewrite H64 in Hle. unfold V in Hge. rewrite Z.add_0_l in Hge.
  specialize (Hge ltac:(nia)).
  destruct (f64_of_Z z) as [s|s| |s m e]; try done. destruct Hn as (-> & Hc & He).
  cbn [fval] in *. exists m, e. split_and!; try done; clear Hr Hone Htop.
  all: pose proof (canon_facts _ _ Hc) as (A & _ & _); pose proof (ndig_spec m) as [D1 D2]; unfold V in *;
    assert (HP : 0 < 2 ^ (e + K)) by (apply Z.pow_pos_nonneg; unfold K; lia).
  - assert (K < Zpos (ndig m) + (e + K)); [|lia]. apply (Z.pow_lt_mono_r_iff 2); [lia|unfold K; lia|].
    rewrite Z.pow_add_r by (unfold K; lia). nia.
  - assert (Zpos (ndig m) - 1 + (e + K) <= 64 + K); [|lia]. apply (Z.pow_le_mono_r_iff 2); [lia|unfold K; lia|].
    rewrite Z.pow_add_r by (unfold K; lia). nia.
Qed.

Lemma fdiv_nn mx ex my ey :
  canon mx ex -> canon my ey -> -1000 <= ex - ey -> -1000 <= (Zpos (ndig mx) + ex) - (Zpos (ndig my) + ey) ->
  nn (fdiv (S754_finite false mx ex) (S754_finite false my ey)).
Proof.
  intros Cx Cy He HD. unfold fdiv, SFdiv, SFdiv_core_binary. cbn [Zdigits2 xorb].
  set (D := (Zpos (ndig mx) + ex) - (Zpos (ndig my) + ey)) in *.
  set (e' := Z.min (fexp64 D) (ex - ey)). set (s := ex - ey - e').
  assert (HfD : fexp64 D = D - 53) by (rewrite fexp64_eq; lia).
  assert (Hs : 0 <= s) by lia. set (m' := match s with Zpos _ => _ | _ => _ end).
  assert (Hm' : m' = Zpos mx * 2 ^ s).
  { unfold m'. destruct s as [|p|p]; [lia| |lia]. by rewrite Z.shiftl_mul_pow2. }
  pose proof (ndig_spec mx) as [X1 X2]. pose proof (ndig_spec my) as [Y1 Y2].
  assert (Hq : 2 ^ (D - e' - 1) <= m' / Zpos my).
  { rewrite Hm'. apply Z.div_le_lower_bound; [lia|].
    assert (HA : 2 ^ (Zpos (ndig mx) - 1 + s) <= Zpos mx * 2 ^ s).
    { rewrite Z.pow_add_r by lia. apply Z.mul_le_mono_nonneg_r; [apply Z.pow_nonneg; lia|done]. }
    etransitivity; [|exact HA].
    replace (Zpos (ndig mx) - 1 + s) with (Zpos (ndig my) + (D - e' - 1)) by lia.
    rewrite Z.pow_add_r by lia. apply Z.mul_le_mono_nonneg_r; [apply Z.pow_nonneg; lia|lia]. }
  unfold Z.div in Hq.
  destruct (Z.div_eucl m' (Zpos my)) as [q r].
  assert (0 < 2 ^ (D - e' - 1)) by (apply Z.pow_pos_nonneg; lia).
  destruct q as [|q|q]; [lia| |lia]. apply binary_round_aux_nn; [|lia].
  pose proof (ndig_spec q) as [_ Q2].
  assert (D - e' - 1 < Zpos (ndig q)) by (apply (Z.pow_lt_mono_r_iff 2); lia).
  rewrite fexp64_eq. lia.
Qed.

Lemma fdiv_ints a b : 1 <= a < 2 ^ 64 -> 1 <= b < 2 ^ 64 -> nn (fdiv (f64_of_Z a) (f64_of_Z b)).
Proof.
  intros Ha Hb. destruct (f64_of_Z_range a Ha) as (mx & ex & -> & Cx & _ & Dx).
  destruct (f64_of_Z_range b Hb) as (my & ey & -> & Cy & _ & Dy).
  pose proof (canon_facts _ _ Cx) as (_ & Fx & _). pose proof (canon_facts _ _ Cy) as (_ & Fy & _).
  assert (Hdig : forall m, Zpos m < 2 ^ 53 -> Zpos (ndig m) <= 53).
  { intros m Hm. pose proof (ndig_spec m) as [H _]. apply Z.nlt_ge. intros H'.
    assert (2 ^ 53 <= 2 ^ (Zpos (ndig m) - 1)) by (apply Z.pow_le_mono_r; lia). lia. }
  pose proof (Hdig _ Fx). pose proof (Hdig _ Fy). apply fdiv_nn; [done|done|lia|lia].
Qed.

(** ** What the clients use *)

(** A sum is at least its second operand. *)
Lemma fadd_ge x c : nn x -> nnf c -> nn (fadd x c) /\ fltb (fadd x c) c = false.
Proof.
  intros [Hx| ->] Hc.
  - pose proof (fadd_rounded x c Hx Hc) as Hr. split; [by eapply rounded_nn|].
    eapply rounded_ge; [done|done|]. pose proof (nnf_fval x Hx). lia.
  - assert (fadd (S754_infinity false) c = S754_infinity false) as -> by by destruct c.
    split; [by right|]. apply fle_inf. by left.
Qed.

(** A difference that is not negative is at most its first operand. *)
Lemma fsub_le t c : nnf t -> nnf c -> fltb t c = false ->
  nnf (fsub t c) /\ fltb t (fsub t c) = false.
Proof.
  intros Ht Hc Hle. apply fle_fval in Hle; [|done|done].
  pose proof (fsub_rounded t c Ht Hc Hle) as Hr. pose proof (nnf_fval c Hc).
  destruct (rounded_le _ _ t Hr Ht) as [Hn H']; [lia|]. split; [done|]. by apply fle_fval.
Qed.

Lemma fmul_nn x y : nnf x -> nnf y -> nn (fmul x y).
Proof. intros Hx Hy. destruct (fmul_rounded x y Hx Hy) as (z & _ & H). by eapply rounded_nn. Qed.

Lemma fadd_nn x y : nn x -> nn y -> nn (fadd x y).
Proof.
  intros [Hx| ->] [Hy| ->].
  - by eapply rounded_nn, fadd_rounded.
  - right. by destruct x.
  - right. by destruct y.
  - by right.
Qed.

(** Products with an infinite second factor. *)
Lemma fmul_nn_pos x y : nnf x -> 0 < fval x -> nn y -> nn (fmul x y).
Proof.
  intros Hx Hp [Hy| ->]; [by apply fmul_nn|]. destruct x as [s|s| |s m e]; try done.
  destruct Hx as (-> & _). by right.
Qed.

(** The sign is only attached to the rounded value. *)
Lemma binary_round_aux_opp m e l :
  binary_round_aux 53 1024 true m e l = SFopp (binary_round_aux 53 1024 false m e l).
Proof.
  unfold binary_round_aux. destruct (shr_fexp 53 1024 m e l) as [R e1].
  destruct (shr_fexp 53 1024 _ e1 loc_Exact) as [R2 e2]. destruct (shr_m R2); [done| |done]. by case_match.
Qed.

Lemma binary_round_opp m e : -3000 <= e -> exists x, nn x /\ binary_round 53 1024 true m e = SFopp x.
Proof.
  intros He. exists (binary_round 53 1024 false m e). split; [by eapply rounded_nn, binary_round_rounded|].
  unfold binary_round. destruct (shl_align m e _). apply binary_round_aux_opp.
Qed.

(** A difference below zero is the negation of a non-negative float. *)
Lemma fsub_neg t q : nnf t -> nn q -> (nnf q -> fval t < fval q) -> exists x, nn x /\ fsub t q = SFopp x.
Proof.
  intros Ht [Hq| ->] Hgt; [specialize (Hgt Hq)|].
  - destruct q as [s|s| |s m e]; try done; [pose proof (nnf_fval t Ht); cbn in Hgt; lia|].
    destruct t as [s'|s'| |s' m' e']; try done; [exists (S754_finite s m e); split; [by left|done]|].
    destruct Ht as (-> & (Et & _ & _)%canon_facts & _), Hq as (-> & (Eq & _ & _)%canon_facts & _).
    unfold fsub, SFsub. cbn [cond_Zopp fval] in *.
    destruct (align_vals m' e' m e ltac:(lia) ltac:(lia)) as [E1 E2]. rewrite <- E1, <- E2 in Hgt.
    unfold V in Hgt. apply Z.mul_lt_mono_pos_r in Hgt; [|apply Z.pow_pos_nonneg; unfold K; lia].
    match goal with |- exists x, _ /\ binary_normalize _ _ ?d _ _ = _ => destruct d eqn:Ed; [lia|lia|] end.
    apply binary_round_opp. lia.
  - exists (S754_infinity false). split; [by right|]. destruct t as [s|s| |s m e]; done.
Qed.

(** A difference cut off at zero lies between zero and its first operand. *)
Lemma fsub_clamp t q : nnf t -> nn q ->
  let w := if fltb (fsub t q) fzero then fzero else fsub t q in nnf w /\ fltb t w = false.
Proof.
  intros Ht Hq w. assert (Hz : forall s, nnf (S754_zero s) /\ fltb t (S754_zero s) = false).
  { intros s. split; [done|]. apply fle_fval; [done|done|]. by apply nnf_fval. }
  assert (Hdec : (nnf q /\ fval q <= fval t) \/ (nnf q -> fval t < fval q)).
  { destruct Hq as [Hq| ->]; [|by right]. destruct (Z.le_gt_cases (fval q) (fval t)); [by left|by right]. }
  destruct Hdec as [[Nq Hle]|Hgt].
  - destruct (fsub_le t q Ht Nq) as [Hn Hw]; [by apply fle_fval|]. unfold w. destruct (fltb (fsub t q) fzero);
      [apply Hz|done].
  - destruct (fsub_neg t q Ht Hq Hgt) as (x & Hx & E). unfold w. rewrite E.
    destruct x as [s|s| |s m e]; [apply (Hz (negb s))| | |].
    + destruct Hx as [[]|[= ->]]. apply Hz.
    + by destruct Hx.
    + destruct Hx as [(-> & _)|]; [apply Hz|done].
Qed.
