(* ===== verification/RateLimit.v ===== *)
(** * Rate limiting

    The token bucket ([src/pkg/algorithm/token_bucket.go]), the sliding window
    counter ([src/pkg/algorithm/sliding_window.go]) and the per-key limiter of
    the HTTP middleware ([src/pkg/common/http/middlewares/rate_limit.go]).

    Counts and tokens are binary64 floats with the rounding of every operation
    (a product and the following sum are rounded separately).  Each call holds
    the object's lock, so it is one step; the readings of the clock it makes
    are its arguments, in the order of the reads. *)

From stdpp Require Import base list option gmap strings.
From Stdlib Require Import ZArith Lia SpecFloat.
From S2P Require Import Prelude Float FloatRound.

#[local] Open Scope Z_scope.

(** ** Token bucket *)

Module TB.

Definition defaultBucketCapacity : Z := 10.
Definition defaultFillRate : Z := 1.
Definition defaultFillInterval : Z := 1000000000.
Definition defaultTokensPerTake : Z := 1.

Record TokenBucket := mkTB { capacity : float64; tokens : float64; fillRate : float64; lastFill : Z }.

Inductive TokenBucketOption :=
  | WithBucketCapacity (cap : Z)
  | WithBucketFillRate (n interval : Z).

Definition applyOpt (tb : TokenBucket) (o : TokenBucketOption) : TokenBucket :=
  match o with
  | WithBucketCapacity cap =>
      if 0 <? cap then mkTB (f64_of_Z cap) (f64_of_Z cap) (fillRate tb) (lastFill tb) else tb
  | WithBucketFillRate n interval =>
      if (0 <? n) && (0 <? interval)
      then mkTB (capacity tb) (tokens tb) (fdiv (f64_of_Z n) (f64_of_Z interval)) (lastFill tb) else tb
  end.

Definition NewTokenBucket (opts : list TokenBucketOption) (now : Z) : TokenBucket :=
  let tb := mkTB (f64_of_Z defaultBucketCapacity) (f64_of_Z defaultBucketCapacity)
              (fdiv (f64_of_Z defaultFillRate) (f64_of_Z defaultFillInterval)) 0 in
  let tb := fold_left applyOpt opts tb in
  mkTB (capacity tb) (tokens tb) (fillRate tb) now.

Definition refill (tb : TokenBucket) (now : Z) : TokenBucket :=
  let elapsed := i64 (now - lastFill tb) in
  if elapsed <=? 0 then tb else
  let t := fadd (tokens tb) (fmul (f64_of_Z elapsed) (fillRate tb)) in
  let t := if fltb (capacity tb) t then capacity tb else t in
  mkTB (capacity tb) t (fillRate tb) now.

Definition Allow (tb : TokenBucket) (now n : Z) : TokenBucket * bool :=
  let tb := refill tb now in
  let cost := f64_of_Z n in
  if fltb (tokens tb) cost then (tb, false)
  else (mkTB (capacity tb) (fsub (tokens tb) cost) (fillRate tb) (lastFill tb), true).

Definition AllowOne (tb : TokenBucket) (now : Z) : TokenBucket * bool := Allow tb now defaultTokensPerTake.

Definition Tokens (tb : TokenBucket) (now : Z) : TokenBucket * float64 :=
  let tb := refill tb now in (tb, tokens tb).

Definition Reset (tb : TokenBucket) (now : Z) : TokenBucket :=
  mkTB (capacity tb) (capacity tb) (fillRate tb) now.

(** *** Invariant *)

(** Never more tokens than the capacity, never fewer than none. *)
Record ok (tb : TokenBucket) : Prop := {
  ok_cap : nnf (capacity tb);
  ok_tok : nnf (tokens tb);
  ok_le : fltb (capacity tb) (tokens tb) = false;
  ok_rate : nn (fillRate tb);
}.

Definition opt_ok (o : TokenBucketOption) : Prop :=
  match o with
  | WithBucketCapacity cap => cap < 2 ^ 53
  | WithBucketFillRate n interval => n < 2 ^ 63 /\ interval < 2 ^ 63
  end.

Lemma fle_refl x : nnf x -> fltb x x = false.
Proof. intros H. apply fle_fval; [done|done|lia]. Qed.

Lemma applyOpt_ok tb o : ok tb -> opt_ok o -> ok (applyOpt tb o).
Proof.
  intros H Ho. destruct o as [cap|n interval]; cbn [applyOpt opt_ok] in *.
  - destruct (Z.ltb_spec 0 cap); [|done]. destruct (f64_of_Z_exact cap) as [Hn _]; [lia|].
    split; cbn; [done|done|by apply fle_refl|apply H].
  - destruct (Z.ltb_spec 0 n), (Z.ltb_spec 0 interval); try done.
    destruct H as [? ? ? ?]. split; cbn; [done|done|done|]. apply fdiv_ints; lia.
Qed.

Lemma NewTokenBucket_ok opts now : Forall opt_ok opts -> ok (NewTokenBucket opts now).
Proof.
  intros Ho. unfold NewTokenBucket. set (tb0 := mkTB _ _ _ 0).
  assert (H0 : ok tb0).
  { destruct (f64_of_Z_exact defaultBucketCapacity) as [Hn _]; [unfold defaultBucketCapacity; lia|].
    unfold tb0; split; cbn [capacity tokens fillRate]; [done|done|by apply fle_refl|]. apply fdiv_ints; unfold defaultFillRate, defaultFillInterval; lia. }
  clearbody tb0. revert tb0 H0. induction Ho as [|o opts Hh _ IH]; intros tb0 H0; cbn [fold_left].
  - destruct H0 as [H1 H2 H3 H4]. by split.
  - apply IH. by apply applyOpt_ok.
Qed.

Lemma refill_ok tb now : ok tb -> ok (refill tb now).
Proof.
  intros H. unfold refill. destruct (Z.leb_spec (i64 (now - lastFill tb)) 0) as [|He]; [done|].
  pose proof (i64_range (now - lastFill tb)) as Hr. set (el := i64 (now - lastFill tb)) in *. clearbody el.
  destruct H as [H1 H2 H3 H4].
  assert (Hx : nn (fadd (tokens tb) (fmul (f64_of_Z el) (fillRate tb)))).
  { apply fadd_nn; [by left|]. destruct (f64_of_Z_range el) as (m & e & -> & Hc & Hb & _); [lia|].
    apply fmul_nn_pos; [by split_and!| |done]. cbn. apply V_pos.
    pose proof (canon_facts _ _ Hc) as (? & _). lia. }
  split; cbn [capacity tokens fillRate]; [done| | |done]; set (t := fadd _ _) in *.
  - destruct (fltb (capacity tb) t) eqn:E; [done|]. by apply (nn_finite t (capacity tb)).
  - destruct (fltb (capacity tb) t) eqn:E; [by apply fle_refl|done].
Qed.

Lemma Allow_ok tb now n tb' b : ok tb -> 0 <= n < 2 ^ 53 -> Allow tb now n = (tb', b) -> ok tb'.
Proof.
  intros H Hn. pose proof (refill_ok tb now H) as Hr. unfold Allow. set (r := refill tb now) in *. clearbody r.
  destruct (f64_of_Z_exact n Hn) as [Nn _]. destruct (fltb (tokens r) (f64_of_Z n)) eqn:E; intros [= <- <-]; [done|].
  destruct Hr as [H1 H2 H3 H4]. destruct (fsub_le (tokens r) (f64_of_Z n) H2 Nn E) as [Hs Hle].
  split; cbn [capacity tokens fillRate]; [done|done| |done].
  eapply (fle_trans _ (tokens r)); try done; by apply nnf_not_nan.
Qed.

Lemma Reset_ok tb now : ok tb -> ok (Reset tb now).
Proof. intros [H1 H2 H3 H4]. split; cbn; [done|done|by apply fle_refl|done]. Qed.

(** *** Runs *)

Inductive op := OAllow (n : Z) | OTokens | OReset.
Inductive obs := RAllow (b : bool) | RTokens (t : float64) | RUnit.

Definition step (tb : TokenBucket) (now : Z) (o : op) : TokenBucket * obs :=
  match o with
  | OAllow n => let '(tb, b) := Allow tb now n in (tb, RAllow b)
  | OTokens => let '(tb, t) := Tokens tb now in (tb, RTokens t)
  | OReset => (Reset tb now, RUnit)
  end.

Fixpoint run (tb : TokenBucket) (ops : list (Z * op)) : TokenBucket * list obs :=
  match ops with
  | [] => (tb, [])
  | (now, o) :: ops =>
      let '(tb, r) := step tb now o in
      let '(tb, rs) := run tb ops in (tb, r :: rs)
  end.

Definition op_ok (o : op) : Prop := match o with OAllow n => 0 <= n < 2 ^ 53 | _ => True end.

(** What an answer may be, for a bucket of capacity [cap]. *)
Definition obs_ok (cap : float64) (o : op) (r : obs) : Prop :=
  match o, r with
  | OAllow n, RAllow b => b = true -> fltb cap (f64_of_Z n) = false
  | OTokens, RTokens t => nnf t /\ fltb cap t = false
  | OReset, RUnit => True
  | _, _ => False
  end.

Lemma refill_capacity tb now : capacity (refill tb now) = capacity tb.
Proof. unfold refill. by case_match. Qed.

Lemma tb_step_ok tb now o tb' r : ok tb -> op_ok o -> step tb now o = (tb', r) ->
  ok tb' /\ capacity tb' = capacity tb /\ obs_ok (capacity tb) o r.
Proof.
  intros H Ho. pose proof (refill_ok tb now H) as Hr. pose proof (refill_capacity tb now) as Hc.
  destruct o as [n| |]; cbn [step op_ok] in *.
  - destruct (Allow tb now n) as [t b] eqn:E. intros [= <- <-]. split; [exact (Allow_ok _ _ _ _ _ H Ho E)|].
    unfold Allow in E. set (x := refill tb now) in *. clearbody x. rewrite <- Hc.
    destruct (f64_of_Z_exact n Ho) as [Nn _]. destruct Hr as [H1 H2 H3 H4].
    destruct (fltb (tokens x) (f64_of_Z n)) eqn:El; injection E as <- <-; [done|]. split; [done|]. intros _.
    eapply (fle_trans _ (tokens x)); try done; by apply nnf_not_nan.
  - intros [= <- <-]. rewrite <- Hc. split; [done|]. split; [done|]. cbn. by destruct Hr.
  - intros [= <- <-]. split; [by apply Reset_ok|done].
Qed.

Lemma tb_run_ok ops : forall tb tb' rs, ok tb -> Forall (fun p => op_ok p.2) ops -> run tb ops = (tb', rs) ->
  ok tb' /\ capacity tb' = capacity tb /\ Forall2 (fun p r => obs_ok (capacity tb) p.2 r) ops rs.
Proof.
  induction ops as [|[now o] ops IH]; intros tb tb' rs H Ho; cbn [run]; [by intros [= <- <-]|].
  inversion_clear Ho as [|? ? H1 H2]. destruct (step tb now o) as [t1 r] eqn:E1.
  destruct (run t1 ops) as [t2 rs'] eqn:E2. intros [= <- <-].
  destruct (tb_step_ok tb now o t1 r H H1 E1) as (Ht1 & Hc & Hr).
  destruct (IH t1 t2 rs' Ht1 H2 E2) as (H3 & Hc2 & H4). rewrite Hc in *. split; [done|]. split; [done|by constructor].
Qed.

(** A token taken while the clock stands still. *)
Lemma take_still tb c now : ok tb -> fval (tokens tb) = V c 0 -> 0 <= c < 2 ^ 53 -> i64 (now - lastFill tb) <= 0 ->
  refill tb now = tb /\
  exists tb', Allow tb now 1 = (tb', 1 <=? c) /\ ok tb' /\ lastFill tb' = lastFill tb /\
    fval (tokens tb') = V (if 1 <=? c then c - 1 else c) 0.
Proof.
  intros H Ht Hc Hs.
  assert (Er : refill tb now = tb) by (unfold refill; by rewrite (proj2 (Z.leb_le _ _))). split; [done|].
  pose proof (fltb_int (tokens tb) c 1 (ok_tok _ H) Ht ltac:(lia)) as Hlt.
  destruct (Allow tb now 1) as [tb' b] eqn:E. pose proof (Allow_ok tb now 1 tb' b H ltac:(lia) E) as H'.
  unfold Allow in E. rewrite Er in E. exists tb'.
  destruct (Z.leb_spec 1 c) as [H1|H1], (fltb (tokens tb) (f64_of_Z 1)) eqn:El; try (exfalso; lia).
  - injection E as <- <-. destruct (fsub_int (tokens tb) c 1 (ok_tok _ H) Ht ltac:(lia) ltac:(lia)) as [_ Vs].
    by split_and!.
  - injection E as <- <-. by split_and!.
Qed.

(** While the clock stands still, every token is handed out exactly once. *)
Lemma burst k : forall tb c now, ok tb -> fval (tokens tb) = V c 0 -> 0 <= c < 2 ^ 53 ->
  i64 (now - lastFill tb) <= 0 ->
  (run tb (replicate k (now, OAllow 1))).2 =
    replicate (min k (Z.to_nat c)) (RAllow true) ++ replicate (k - Z.to_nat c) (RAllow false).
Proof.
  induction k as [|k IH]; intros tb c now H Ht Hc Hs; [done|]. cbn [replicate run step].
  destruct (take_still tb c now H Ht Hc Hs) as (_ & tb' & -> & H' & Hl & Ht').
  rewrite <- Hl in Hs. specialize (IH tb' _ now H' Ht' ltac:(case_match; lia) Hs).
  destruct (run tb' (replicate k (now, OAllow 1))) as [t rs]. cbn [snd] in *. rewrite IH.
  destruct (Z.leb_spec 1 c) as [H1|H1].
  - replace (Z.to_nat c) with (S (Z.to_nat (c - 1))) by lia. done.
  - replace c with 0 by lia. cbn. by rewrite Nat.min_0_r, Nat.sub_0_r.
Qed.

(** C31: whatever the clock does and however the rounding falls, a token bucket whose
    capacity is from 1 to 2^53 - 1 and that is asked for at least 0 and fewer than 2^53
    tokens at a time never holds less than zero or more than its capacity, never grants
    more tokens at once than its capacity, and a full bucket whose clock stands still
    grants exactly as many single tokens as its capacity.  (A negative amount would add
    tokens: [tokenbucket_negative_take].) *)
Theorem tokenbucket_bounds cap n interval now ops k :
  1 <= cap < 2 ^ 53 -> n < 2 ^ 63 -> interval < 2 ^ 63 -> Forall (fun p => op_ok p.2) ops ->
  let tb := NewTokenBucket [WithBucketCapacity cap; WithBucketFillRate n interval] now in
  let '(tb', rs) := run tb ops in
  nnf (tokens tb') /\ fltb (f64_of_Z cap) (tokens tb') = false /\
  Forall2 (fun p r => obs_ok (f64_of_Z cap) p.2 r) ops rs /\
  (run (Reset tb' now) (replicate k (now, OAllow 1))).2 =
    replicate (min k (Z.to_nat cap)) (RAllow true) ++ replicate (k - Z.to_nat cap) (RAllow false).
Proof.
  intros Hcap Hn Hi Ho tb. assert (Htb : ok tb) by (apply NewTokenBucket_ok; repeat constructor; cbn; lia).
  assert (Hc : capacity tb = f64_of_Z cap).
  { unfold tb, NewTokenBucket. cbn [fold_left applyOpt]. rewrite (proj2 (Z.ltb_lt 0 cap)) by lia. by case_match. }
  destruct (run tb ops) as [tb' rs] eqn:E. destruct (tb_run_ok ops tb tb' rs Htb Ho E) as (H1 & Hc' & H2).
  rewrite Hc in Hc'. rewrite Hc in H2. pose proof (Reset_ok tb' now H1) as Hr. destruct H1 as [A1 A2 A3 A4]. rewrite Hc' in A3.
  split_and!; [done|done|done|]. apply burst; [done| |lia|].
  - cbn. rewrite Hc'. by apply f64_of_Z_exact; lia.
  - cbn. rewrite Z.sub_diag. done.
Qed.

Lemma tokenbucket_bounds_witness :
  let tb := NewTokenBucket [WithBucketCapacity 3; WithBucketFillRate 1 1000] 5 in
  let '(tb', rs) := run tb [(5, OAllow 2); (5, OAllow 2); (1300, OTokens); (900, OAllow 1)] in
  nnf (tokens tb') /\ fltb (f64_of_Z 3) (tokens tb') = false /\
  Forall2 (fun p r => obs_ok (f64_of_Z 3) p.2 r) [(5, OAllow 2); (5, OAllow 2); (1300, OTokens); (900, OAllow 1)] rs /\
  (run (Reset tb' 5) (replicate 5 (5, OAllow 1))).2 =
    replicate (min 5 (Z.to_nat 3)) (RAllow true) ++ replicate (5 - Z.to_nat 3) (RAllow false).
Proof.
  apply (tokenbucket_bounds 3 1 1000 5 [(5, OAllow 2); (5, OAllow 2); (1300, OTokens); (900, OAllow 1)] 5);
    [lia|lia|lia|]. repeat constructor; cbn; lia.
Defined.

(** A negative number of tokens is always granted, and lifts the bucket above
    its capacity. *)
Theorem tokenbucket_negative_take :
  let tb := NewTokenBucket [WithBucketCapacity 3] 0 in
  let '(tb, b) := Allow tb 0 (-5) in
  b = true /\ tokens tb = f64_of_Z 8 /\ capacity tb = f64_of_Z 3 /\
  (run tb (replicate 8 (0, OAllow 1))).2 = replicate 8 (RAllow true).
Proof. vm_compute. done. Qed.
End TB.

(** ** Sliding window *)

Module SW.

Definition defaultWindowSize : Z := 60000000000.
Definition defaultWindowLimit : Z := 60.

Record SlidingWindow := mkSW {
  limit : Z; window : Z; currStart : Z; currCount : Z; prevCount : Z
}.

Inductive SlidingWindowOption := WithWindowSize (d : Z) | WithWindowLimit (n : Z).

Definition applyOpt (sw : SlidingWindow) (o : SlidingWindowOption) : SlidingWindow :=
  match o with
  | WithWindowSize d =>
      if 0 <? d then mkSW (limit sw) d (currStart sw) (currCount sw) (prevCount sw) else sw
  | WithWindowLimit n =>
      if 0 <? n then mkSW n (window sw) (currStart sw) (currCount sw) (prevCount sw) else sw
  end.

Definition NewSlidingWindow (opts : list SlidingWindowOption) (now : Z) : SlidingWindow :=
  let sw := fold_left applyOpt opts (mkSW defaultWindowLimit defaultWindowSize 0 0 0) in
  mkSW (limit sw) (window sw) (i64 (godiv now (window sw) * window sw)) (currCount sw) (prevCount sw).

Definition advance (sw : SlidingWindow) (now : Z) : SlidingWindow :=
  let windowEnd := i64 (currStart sw + window sw) in
  if now <? windowEnd then sw else
  let elapsed := i64 (now - currStart sw) in
  let periods := godiv elapsed (window sw) in
  if periods =? 1
  then mkSW (limit sw) (window sw) (i64 (currStart sw + window sw)) 0 (currCount sw)
  else mkSW (limit sw) (window sw) (i64 (godiv now (window sw) * window sw)) 0 0.

Definition estimate (sw : SlidingWindow) (now : Z) : float64 :=
  let elapsed := i64 (now - currStart sw) in
  if elapsed <=? 0 then f64_of_Z (currCount sw) else
  let weight := fsub (f64_of_Z 1) (fdiv (f64_of_Z elapsed) (f64_of_Z (window sw))) in
  let weight := if fltb weight fzero then fzero else weight in
  fadd (fmul (f64_of_Z (prevCount sw)) weight) (f64_of_Z (currCount sw)).

(** [Allow] reads the clock in [advance] and again in [estimate]. *)
Definition Allow (sw : SlidingWindow) (now now' : Z) : SlidingWindow * bool :=
  let sw := advance sw now in
  let estimated := estimate sw now' in
  if fleb (f64_of_Z (limit sw)) estimated then (sw, false)
  else (mkSW (limit sw) (window sw) (currStart sw) (currCount sw + 1) (prevCount sw), true).

Definition Count (sw : SlidingWindow) (now now' : Z) : SlidingWindow * float64 :=
  let sw := advance sw now in (sw, estimate sw now').

Definition Reset (sw : SlidingWindow) (now : Z) : SlidingWindow :=
  mkSW (limit sw) (window sw) (i64 (godiv now (window sw) * window sw)) 0 0.

(** *** The estimate *)

Record ok (sw : SlidingWindow) : Prop := {
  ok_limit : 1 <= limit sw < 2 ^ 53;
  ok_window : 1 <= window sw < 2 ^ 62;
  ok_start : 0 <= currStart sw < 2 ^ 62;
  ok_align : currStart sw mod window sw = 0;
  ok_curr : 0 <= currCount sw <= limit sw;
  ok_prev : 0 <= prevCount sw <= limit sw;
}.

Lemma f64_one : nnf (f64_of_Z 1).
Proof. by apply f64_of_Z_exact. Qed.

(** The estimate counts at least the events of the current window. *)
Lemma estimate_ge sw now : ok sw ->
  nn (estimate sw now) /\ fltb (estimate sw now) (f64_of_Z (currCount sw)) = false.
Proof.
  intros [Hl Hw Hs Ha Hc Hp]. destruct (f64_of_Z_exact (currCount sw)) as [Nc Vc]; [lia|].
  unfold estimate. destruct (Z.leb_spec (i64 (now - currStart sw)) 0) as [|He].
  { split; [by left|]. apply fle_fval; [done|done|lia]. }
  pose proof (i64_range (now - currStart sw)). destruct (f64_of_Z_exact (prevCount sw)) as [Np _]; [lia|].
  assert (Hq : nn (fdiv (f64_of_Z (i64 (now - currStart sw))) (f64_of_Z (window sw)))) by (apply fdiv_ints; lia).
  destruct (fsub_clamp (f64_of_Z 1) _ f64_one Hq) as [Nw _].
  apply fadd_ge; [by apply fmul_nn|done].
Qed.

(** With nothing in the previous window the estimate is exact. *)
Lemma estimate_fresh sw now : ok sw -> prevCount sw = 0 ->
  nnf (estimate sw now) /\ fval (estimate sw now) = V (currCount sw) 0.
Proof.
  intros [Hl Hw Hs Ha Hc Hp] H0. destruct (f64_of_Z_exact (currCount sw)) as [Nc Vc]; [lia|].
  unfold estimate. destruct (Z.leb_spec (i64 (now - currStart sw)) 0) as [|He]; [done|].
  pose proof (i64_range (now - currStart sw)).
  assert (Hq : nn (fdiv (f64_of_Z (i64 (now - currStart sw))) (f64_of_Z (window sw)))) by (apply fdiv_ints; lia).
  destruct (fsub_clamp (f64_of_Z 1) _ f64_one Hq) as [Nw _]. rewrite H0. set (w := if fltb _ _ then _ else _) in *.
  change (f64_of_Z 0) with (S754_zero false). clearbody w.
  assert (Hz : exists s, fmul (S754_zero false) w = S754_zero s) by (destruct w; try done; by eexists).
  destruct Hz as [s ->]. destruct (f64_of_Z (currCount sw)) as [s'|s'| |s' m e]; try done.
  destruct s, s'; done.
Qed.

Lemma granted_below sw now : ok sw ->
  fleb (f64_of_Z (limit sw)) (estimate sw now) = false -> currCount sw < limit sw.
Proof.
  intros H. destruct (estimate_ge sw now H) as [Hn Hge]. destruct H as [Hl Hw Hs Ha Hc Hp].
  destruct (f64_of_Z_exact (limit sw)) as [Nl Vl]; [lia|]. destruct (f64_of_Z_exact (currCount sw)) as [Nc Vc]; [lia|].
  rewrite fleb_fltb, negb_false_iff by first [by apply nnf_not_nan|by apply nn_not_nan]. intros Hlt.
  assert (Hcl : fltb (f64_of_Z (currCount sw)) (f64_of_Z (limit sw)) = true).
  { apply (fle_lt_trans _ (estimate sw now));
      [by apply nnf_not_nan|by apply nn_not_nan|by apply nnf_not_nan|exact Hge|exact Hlt]. }
  apply fltb_fval in Hcl; [|done|done]. rewrite Vc, Vl in Hcl. exact (proj1 (V_lt _ _) Hcl).
Qed.

(** *** Windows *)

(** The start of the window that holds the instant [now]. *)
Definition startOf (w now : Z) : Z := now / w * w.

Lemma startOf_bounds w now : 1 <= w -> startOf w now <= now < startOf w now + w.
Proof. intros Hw. unfold startOf. pose proof (Z.div_mod now w ltac:(lia)). pose proof (Z.mod_pos_bound now w). lia. Qed.

Lemma startOf_mod w now : 1 <= w -> startOf w now mod w = 0.
Proof. intros. unfold startOf. apply Z.mod_mul. lia. Qed.

Lemma startOf_unique w s now : 1 <= w -> s mod w = 0 -> s <= now < s + w -> startOf w now = s.
Proof.
  intros Hw Hs Hn. unfold startOf. apply Z.div_exact in Hs; [|lia].
  assert (now / w = s / w) as ->; [|lia]. symmetry. apply (Z.div_unique _ _ _ (now - s)); lia.
Qed.

(** [advance] moves to the window of the clock, and keeps the counter of the
    last window only if that is the one before. *)
Lemma advance_spec sw now : ok sw -> currStart sw <= now < 2 ^ 62 ->
  ok (advance sw now) /\ limit (advance sw now) = limit sw /\ window (advance sw now) = window sw /\
  currStart (advance sw now) = startOf (window sw) now /\
  (currStart sw = startOf (window sw) now -> advance sw now = sw) /\
  (currStart sw <> startOf (window sw) now ->
     currCount (advance sw now) = 0 /\
     prevCount (advance sw now) =
       (if currStart sw + window sw =? startOf (window sw) now then currCount sw else 0)).
Proof.
  intros [Hl Hw Hs Ha Hc Hp] Hnow. unfold advance. pose proof (startOf_bounds (window sw) now ltac:(lia)) as Hb.
  rewrite (i64_small (currStart sw + window sw)) by lia.
  destruct (Z.ltb_spec now (currStart sw + window sw)) as [Hlt|Hge].
  { rewrite (startOf_unique (window sw) (currStart sw) now) by (done || lia). split_and!; try done. }
  rewrite (i64_small (now - currStart sw)) by lia. unfold godiv. rewrite Z.quot_div_nonneg by lia.
  assert (Hne : currStart sw <> startOf (window sw) now) by lia.
  destruct (Z.eqb_spec ((now - currStart sw) / window sw) 1) as [E|E].
  - assert (Hs' : startOf (window sw) now = currStart sw + window sw).
    { apply startOf_unique; [lia| |].
      - rewrite Z.add_mod, Ha, Z.mod_same by lia. done.
      - pose proof (Z.div_mod (now - currStart sw) (window sw) ltac:(lia)).
        pose proof (Z.mod_pos_bound (now - currStart sw) (window sw)). lia. }
    rewrite Hs', Z.eqb_refl. cbn [limit window currStart currCount prevCount].
    split; [|split_and!; try done; intros; lia]. split; cbn [limit window currStart currCount prevCount]; try lia.
    rewrite Z.add_mod, Ha, Z.mod_same by lia. done.
  - rewrite Z.quot_div_nonneg by lia. fold (startOf (window sw) now).
    assert (0 <= startOf (window sw) now) by (unfold startOf; apply Z.mul_nonneg_nonneg; [apply Z.div_pos; lia|lia]).
    rewrite (i64_small (startOf (window sw) now)) by lia.
    assert (Hfar : currStart sw + window sw <> startOf (window sw) now).
    { intros Hs'. apply E. symmetry. apply (Z.div_unique _ _ _ (now - startOf (window sw) now)); lia. }
    rewrite (proj2 (Z.eqb_neq _ _) Hfar). cbn [limit window currStart currCount prevCount].
    split; [|split_and!; try done; intros; lia]. split; cbn [limit window currStart currCount prevCount]; try lia.
    apply startOf_mod. lia.
Qed.

(** *** Runs *)

(** The answers to calls made at the given pairs of clock readings. *)
Fixpoint run (sw : SlidingWindow) (evs : list (Z * Z)) : list bool :=
  match evs with
  | [] => []
  | (now, now') :: evs => let '(sw, b) := Allow sw now now' in b :: run sw evs
  end.

(** A clock that does not run backwards, from [lo] on. *)
Fixpoint nondecr (lo : Z) (evs : list (Z * Z)) : Prop :=
  match evs with [] => True | (now, _) :: evs => lo <= now < 2 ^ 62 /\ nondecr now evs end.

(** How many calls of the window that starts at [s] were granted. *)
Fixpoint grants (w s : Z) (evs : list (Z * Z)) (bs : list bool) : Z :=
  match evs, bs with
  | (now, _) :: evs, b :: bs =>
      (if b && (startOf w now =? s) then 1 else 0) + grants w s evs bs
  | _, _ => 0
  end.

Lemma Allow_spec sw now now' sw' b : ok sw -> currStart sw <= now < 2 ^ 62 -> Allow sw now now' = (sw', b) ->
  ok sw' /\ limit sw' = limit sw /\ window sw' = window sw /\ currStart sw' = startOf (window sw) now /\
  currCount sw' = currCount (advance sw now) + (if b then 1 else 0) /\
  (prevCount (advance sw now) = 0 -> prevCount sw' = 0 /\ b = (currCount (advance sw now) <? limit sw)).
Proof.
  intros Hok Hnow. destruct (advance_spec sw now Hok Hnow) as (Ha & Hl & Hw & Hs & _). unfold Allow.
  set (a := advance sw now) in *. clearbody a.
  assert (Hfresh : prevCount a = 0 -> fleb (f64_of_Z (limit a)) (estimate a now') = negb (currCount a <? limit a)).
  { intros H0. destruct (estimate_fresh a now' Ha H0) as [Hn Hv]. pose proof Ha as [? ? ? ? ? ?].
    rewrite fleb_fltb by (apply nnf_not_nan; [by apply f64_of_Z_exact; lia] || by apply nnf_not_nan). f_equal.
    apply eq_true_iff_eq. rewrite (fltb_int _ (currCount a)), Z.ltb_lt by (done || lia). done. }
  destruct (fleb (f64_of_Z (limit a)) (estimate a now')) eqn:E; intros [= <- <-].
  - split_and!; try done; [lia|]. intros H0. split; [done|]. specialize (Hfresh H0).
    rewrite <- Hl. by destruct (currCount a <? limit a).
  - pose proof (granted_below a now' Ha E). pose proof Ha as [? ? ? ? ? ?].
    split; [split; cbn; lia|]. split_and!; try done. intros H0. split; [done|]. specialize (Hfresh H0).
    rewrite <- Hl. by destruct (currCount a <? limit a).
Qed.

Lemma grants_bound evs : forall sw s, ok sw -> nondecr (currStart sw) evs ->
  let g := grants (window sw) s evs (run sw evs) in
  0 <= g <= limit sw /\ (s < currStart sw -> g = 0) /\ (s = currStart sw -> g <= limit sw - currCount sw).
Proof.
  induction evs as [|[now now'] evs IH]; intros sw s Hok Hmono; cbn [run nondecr] in *.
  { pose proof Hok as [? ? ? ? ? ?]. cbn. lia. }
  destruct Hmono as [Hnow Hmono]. destruct (Allow sw now now') as [sw' b] eqn:E.
  destruct (Allow_spec _ _ _ _ _ Hok Hnow E) as (Hok' & Hl & Hw & Hs & Hc & _). cbn [grants].
  destruct (advance_spec sw now Hok Hnow) as (_ & _ & _ & _ & Hsame & Hnew).
  pose proof Hok as [? ? ? ? ? ?]. pose proof (startOf_bounds (window sw) now ltac:(lia)) as Hb.
  assert (Hmono' : nondecr (currStart sw') evs).
  { rewrite Hs. destruct evs as [|[u u'] evs]; [done|]. cbn [nondecr] in *. split; [lia|apply Hmono]. }
  destruct (IH sw' s Hok' Hmono') as (Hg & Hlt & Heq). rewrite Hw, Hl, Hs in *.
  set (g := grants (window sw) s evs (run sw' evs)) in *. clearbody g.
  assert (Hadv : startOf (window sw) now = currStart sw \/ currStart sw + window sw <= startOf (window sw) now).
  { destruct (Z.lt_ge_cases now (currStart sw + window sw)).
    - left. apply startOf_unique; [lia|done|lia].
    - right. apply Z.nlt_ge. intros Hx.
      assert (He : startOf (window sw) now < startOf (window sw) (currStart sw + window sw)).
      { rewrite (startOf_unique (window sw) (currStart sw + window sw) (currStart sw + window sw)); [lia|lia| |lia].
        rewrite Z.add_mod, Z.mod_same by lia. rewrite Z.add_0_r, Z.mod_mod by lia. done. }
      unfold startOf in He. assert ((currStart sw + window sw) / window sw <= now / window sw)
        by (apply Z.div_le_mono; lia). nia. }
  assert (Hcc : currStart sw = startOf (window sw) now -> currCount (advance sw now) = currCount sw)
    by (intros Hx; by rewrite (Hsame Hx)).
  assert (Hcn : currStart sw <> startOf (window sw) now -> currCount (advance sw now) = 0)
    by (intros Hx; apply (Hnew Hx)).
  pose proof Hok' as [? ? ? ? Hcur' ?]. rewrite Hc in *. rewrite Hl in Hcur'.
  destruct (Z.eqb_spec (startOf (window sw) now) s) as [Es|Es]; destruct b; cbn [andb].
  all: destruct Hadv as [Hadv|Hadv].
  all: try specialize (Hcc ltac:(lia)); try specialize (Hcn ltac:(lia)); split_and!; try lia.
Qed.

(** With nothing in the window before, exactly the first [limit] calls of a
    window are granted. *)
Lemma run_fresh evs : forall sw, ok sw -> prevCount sw = 0 -> nondecr (currStart sw) evs ->
  Forall (fun p => startOf (window sw) p.1 = currStart sw) evs ->
  let left := Z.to_nat (limit sw - currCount sw) in
  run sw evs = replicate (min (length evs) left) true ++ replicate (length evs - left) false.
Proof.
  induction evs as [|[now now'] evs IH]; intros sw Hok H0 Hmono Hin lft; [done|]. cbn [run nondecr length] in *.
  destruct Hmono as [Hnow Hmono]. inversion_clear Hin as [|? ? Hi1 Hi2]. cbn [fst] in Hi1.
  destruct (Allow sw now now') as [sw' b] eqn:E.
  destruct (Allow_spec _ _ _ _ _ Hok Hnow E) as (Hok' & Hl & Hw & Hs & Hc & Hf).
  destruct (advance_spec sw now Hok Hnow) as (_ & _ & _ & _ & Hsame & _). rewrite Hsame in Hc, Hf by done.
  destruct (Hf H0) as [H0' Hb]. rewrite Hi1 in Hs. pose proof Hok as [? ? ? ? ? ?].
  assert (Hmono' : nondecr (currStart sw') evs).
  { rewrite Hs. destruct evs as [|[u u'] evs]; [done|]. cbn [nondecr] in *. split; [lia|apply Hmono]. }
  assert (Hin' : Forall (fun p => startOf (window sw') p.1 = currStart sw') evs) by by rewrite Hw, Hs.
  rewrite (IH sw' Hok' H0' Hmono' Hin'). rewrite Hl, Hc. unfold lft.
  destruct (Z.ltb_spec (currCount sw) (limit sw)) as [Hlt|Hge]; subst b.
  - replace (Z.to_nat (limit sw - currCount sw)) with (S (Z.to_nat (limit sw - (currCount sw + 1)))) by lia. done.
  - replace (limit sw - currCount sw) with 0 by lia. rewrite Z.add_0_r.
    replace (limit sw - currCount sw) with 0 by lia. cbn. by rewrite Nat.min_0_r, Nat.sub_0_r.
Qed.

Lemma New_spec_sw n d now : 1 <= n < 2 ^ 53 -> 1 <= d < 2 ^ 62 -> 0 <= now < 2 ^ 62 ->
  NewSlidingWindow [WithWindowLimit n; WithWindowSize d] now = mkSW n d (startOf d now) 0 0 /\
  ok (mkSW n d (startOf d now) 0 0).
Proof.
  intros Hn Hd Hnow. pose proof (startOf_bounds d now ltac:(lia)).
  assert (0 <= startOf d now) by (unfold startOf; apply Z.mul_nonneg_nonneg; [apply Z.div_pos; lia|lia]).
  split.
  - unfold NewSlidingWindow. cbn [fold_left applyOpt]. rewrite (proj2 (Z.ltb_lt 0 n)) by lia.
    rewrite (proj2 (Z.ltb_lt 0 d)) by lia. cbn [limit window currStart currCount prevCount].
    unfold godiv. rewrite Z.quot_div_nonneg by lia. fold (startOf d now). by rewrite i64_small by lia.
  - split; cbn; try lia. apply startOf_mod. lia.
Qed.

(** C32: with a clock that does not run backwards, a sliding window counter
    grants at most [limit] calls in every window of its grid, however the
    weighted estimate is rounded, and in its first window exactly the first
    [limit] calls. *)
Theorem slidingwindow_limit n d now0 evs s :
  1 <= n < 2 ^ 53 -> 1 <= d < 2 ^ 62 -> 0 <= now0 < 2 ^ 62 -> nondecr now0 evs ->
  let bs := run (NewSlidingWindow [WithWindowLimit n; WithWindowSize d] now0) evs in
  grants d s evs bs <= n /\
  (Forall (fun p => startOf d p.1 = startOf d now0) evs ->
   bs = replicate (min (length evs) (Z.to_nat n)) true ++ replicate (length evs - Z.to_nat n) false).
Proof.
  intros Hn Hd Hnow Hmono bs. destruct (New_spec_sw n d now0 Hn Hd Hnow) as [E Hok]. unfold bs. rewrite E.
  pose proof (startOf_bounds d now0 ltac:(lia)).
  assert (Hm : nondecr (startOf d now0) evs).
  { destruct evs as [|[u u'] evs]; [done|]. cbn [nondecr] in *. split; [lia|apply Hmono]. }
  split.
  - apply (grants_bound evs _ s Hok Hm).
  - intros Hin. rewrite (run_fresh evs _ Hok eq_refl Hm Hin). cbn [limit currCount]. by rewrite Z.sub_0_r.
Qed.

Lemma slidingwindow_limit_witness :
  let evs := [(1000, 1000); (1001, 1002); (1990, 1991); (2001, 2001); (2500, 2500)] in
  let bs := run (NewSlidingWindow [WithWindowLimit 2; WithWindowSize 1000] 1000) evs in
  bs = [true; true; false; true; false] /\ grants 1000 2000 evs bs <= 2.
Proof.
  intros evs bs. split; [vm_compute; reflexivity|].
  apply (slidingwindow_limit 2 1000 1000 evs 2000); [lia|lia|lia|]. cbn. lia.
Defined.

(** At the very first instant of a window the previous one is not counted: a
    limit of two lets four calls through within one nanosecond, of which a
    later instant would have refused the last. *)
Theorem slidingwindow_boundary_burst :
  let sw := NewSlidingWindow [WithWindowLimit 2; WithWindowSize 1000] 1000 in
  run sw [(1999, 1999); (1999, 1999); (2000, 2000); (2000, 2000)] = [true; true; true; true] /\
  run sw [(1999, 1999); (1999, 1999); (2001, 2001); (2001, 2001)] = [true; true; true; false].
Proof. vm_compute. done. Qed.
End SW.

(** ** The middleware *)

Module MW.

Definition defaultRateLimit : Z := 100.
Definition defaultRateBurst : Z := 100.
Definition defaultRateWindow : Z := 60000000000.
Definition defaultIdleExpiry : Z := 600000000000.

Record RateLimitConfig := mkConfig { Limit : Z; Burst : Z; Window : Z }.

Definition withDefaults (cfg : RateLimitConfig) : RateLimitConfig :=
  mkConfig (if Limit cfg <=? 0 then defaultRateLimit else Limit cfg)
    (if Burst cfg <=? 0 then defaultRateBurst else Burst cfg)
    (if Window cfg <=? 0 then defaultRateWindow else Window cfg).

Record rateLimiterEntry := mkEntry { bucket : TB.TokenBucket; lastSeen : Z }.

Abbreviation limiters := (gmap string rateLimiterEntry).

(** The tick of the cleanup goroutine: limiters not seen for long are dropped. *)
Definition sweep (m : limiters) (now : Z) : limiters :=
  filter (fun p => now - lastSeen p.2 <= defaultIdleExpiry) m.

Definition newBucket (cfg : RateLimitConfig) (now : Z) : TB.TokenBucket :=
  TB.NewTokenBucket [TB.WithBucketCapacity (Burst cfg); TB.WithBucketFillRate (Limit cfg) (Window cfg)] now.

(** The clock readings of one request: for a new bucket, for [lastSeen], for
    taking the token, for the remaining count. *)
Record clock := mkClock { tNew : Z; tSeen : Z; tTake : Z; tLeft : Z }.

(** A float cut off towards zero ([int(x)]), for a finite value. *)
Definition truncate (x : float64) : Z :=
  match x with
  | S754_finite s m e =>
      let a := if 0 <=? e then Zpos m * 2 ^ e else Zpos m / 2 ^ (- e) in if s then - a else a
  | _ => 0
  end.

(** One request: the answer is whether it passes and the remaining count. *)
Definition serve (cfg : RateLimitConfig) (m : limiters) (key : string) (t : clock)
    : limiters * (bool * Z) :=
  let entry := match m !! key with
               | Some e => e
               | None => mkEntry (newBucket cfg (tNew t)) 0
               end in
  let '(b, allowed) := TB.AllowOne (bucket entry) (tTake t) in
  let '(b, remaining) := TB.Tokens b (tLeft t) in
  (<[key := mkEntry b (tSeen t)]> m, (allowed, truncate remaining)).

Inductive event := Request (key : string) (t : clock) | Tick (now : Z).

Fixpoint run (cfg : RateLimitConfig) (m : limiters) (evs : list event) : list (string * (bool * Z)) :=
  match evs with
  | [] => []
  | Request key t :: evs => let '(m, r) := serve cfg m key t in (key, r) :: run cfg m evs
  | Tick now :: evs => run cfg (sweep m now) evs
  end.

(** What concerns one key. *)
Definition concerns (k : string) (e : event) : bool :=
  match e with Request key _ => bool_decide (key = k) | Tick _ => true end.

Lemma sweep_lookup m now k :
  sweep m now !! k = e ← m !! k; if decide (now - lastSeen e <= defaultIdleExpiry) then Some e else None.
Proof.
  unfold sweep. destruct (m !! k) as [e|] eqn:E; cbn [mbind option_bind].
  - case_decide as Hd; [by apply map_lookup_filter_Some|]. apply map_lookup_filter_None. right.
    intros e' He' Hx. simplify_eq. done.
  - apply map_lookup_filter_None. by left.
Qed.

Lemma serve_other cfg m key t k m' r : serve cfg m key t = (m', r) -> key <> k -> m' !! k = m !! k.
Proof.
  unfold serve. destruct (TB.AllowOne _ _) as [b a]. destruct (TB.Tokens _ _) as [b' l]. intros [= <- _] Hk.
  by apply lookup_insert_ne.
Qed.

Lemma serve_same cfg m1 m2 key t :
  m1 !! key = m2 !! key ->
  (serve cfg m1 key t).2 = (serve cfg m2 key t).2 /\
  (serve cfg m1 key t).1 !! key = (serve cfg m2 key t).1 !! key.
Proof.
  intros E. unfold serve. rewrite E. destruct (TB.AllowOne _ _) as [b a]. destruct (TB.Tokens _ _) as [b' l].
  cbn. by rewrite !lookup_insert_eq.
Qed.

(** Requests of one key at one instant. *)
Lemma run_burst cfg k now n : forall m c e, m !! k = Some e -> TB.ok (bucket e) ->
  fval (TB.tokens (bucket e)) = V c 0 -> 0 <= c < 2 ^ 53 -> TB.lastFill (bucket e) = now ->
  (fun p => p.2.1) <$> run cfg m (replicate n (Request k (mkClock now now now now))) =
    replicate (min n (Z.to_nat c)) true ++ replicate (n - Z.to_nat c) false.
Proof.
  induction n as [|n IH]; intros m c e Hm Hok Ht Hc Hl; [done|]. cbn [replicate run]. unfold serve. rewrite Hm.
  assert (Hs : i64 (now - TB.lastFill (bucket e)) <= 0) by (rewrite Hl, Z.sub_diag; done).
  destruct (TB.take_still _ _ _ Hok Ht Hc Hs) as (_ & b' & E & Hok' & Hl' & Ht'). cbn [tTake tLeft tSeen].
  unfold TB.AllowOne, TB.defaultTokensPerTake. rewrite E. unfold TB.Tokens. rewrite <- Hl' in Hs.
  destruct (TB.take_still _ _ _ Hok' Ht' ltac:(case_match; lia) Hs) as (-> & _).
  rewrite fmap_cons. cbn [fst snd].
  rewrite (IH _ (if 1 <=? c then c - 1 else c) (mkEntry b' now)); cbn [bucket]; try done;
    [|apply lookup_insert_eq|case_match; lia|congruence].
  destruct (Z.leb_spec 1 c) as [H1|H1].
  - replace (Z.to_nat c) with (S (Z.to_nat (c - 1))) by lia. done.
  - replace c with 0 by lia. cbn. by rewrite Nat.min_0_r, Nat.sub_0_r.
Qed.

Lemma newBucket_full cfg now : 1 <= Burst cfg < 2 ^ 53 -> Limit cfg < 2 ^ 63 -> Window cfg < 2 ^ 63 ->
  TB.ok (newBucket cfg now) /\ fval (TB.tokens (newBucket cfg now)) = V (Burst cfg) 0 /\
  TB.lastFill (newBucket cfg now) = now.
Proof.
  intros Hb Hl Hw. split; [apply TB.NewTokenBucket_ok; repeat constructor; cbn; lia|]. split; [|done].
  unfold newBucket, TB.NewTokenBucket. cbn [fold_left TB.applyOpt]. rewrite (proj2 (Z.ltb_lt 0 (Burst cfg))) by lia.
  assert (Hv : fval (f64_of_Z (Burst cfg)) = V (Burst cfg) 0) by (apply f64_of_Z_exact; lia). by case_match.
Qed.

Lemma run_new cfg k now n :
  1 <= Burst cfg < 2 ^ 53 -> Limit cfg < 2 ^ 63 -> Window cfg < 2 ^ 63 ->
  (fun p => p.2.1) <$> run cfg ∅ (replicate n (Request k (mkClock now now now now))) =
    replicate (min n (Z.to_nat (Burst cfg))) true ++ replicate (n - Z.to_nat (Burst cfg)) false.
Proof.
  intros Hb Hl Hw. destruct (newBucket_full cfg now Hb Hl Hw) as (Hok & Ht & Hlf).
  rewrite <- (run_burst cfg k now n {[k := mkEntry (newBucket cfg now) 0]} (Burst cfg) (mkEntry (newBucket cfg now) 0))
    by (done || lia || apply lookup_singleton_eq).
  destruct n as [|n]; [done|]. cbn [replicate run]. unfold serve. rewrite lookup_empty, lookup_singleton_eq.
  cbn [tNew]. destruct (TB.AllowOne _ _) as [b a]. destruct (TB.Tokens _ _) as [b' r].
  by rewrite <- insert_empty, insert_insert_eq.
Qed.

(** Limits are per key: the answers to the requests of one key are the same
    as if there were no requests of other keys at all, and of requests of a new
    key at one instant exactly the first [Burst] pass. *)
Theorem ratelimit_isolated cfg evs k now n :
  1 <= Burst cfg < 2 ^ 53 -> Limit cfg < 2 ^ 63 -> Window cfg < 2 ^ 63 ->
  filter (fun p => p.1 = k) (run cfg ∅ evs) = run cfg ∅ (filter (fun e => concerns k e = true) evs) /\
  (fun p => p.2.1) <$> run cfg ∅ (replicate n (Request k (mkClock now now now now))) =
    replicate (min n (Z.to_nat (Burst cfg))) true ++ replicate (n - Z.to_nat (Burst cfg)) false.
Proof.
  intros Hb Hl Hw. split; [|exact (run_new cfg k now n Hb Hl Hw)].
  enough (G : forall m1 m2 : limiters, m1 !! k = m2 !! k ->
    filter (fun p => p.1 = k) (run cfg m1 evs) = run cfg m2 (filter (fun e => concerns k e = true) evs)) by by apply G.
  induction evs as [|[key t|tick] evs IH]; intros m1 m2 E; cbn [run]; [done| |].
  - destruct (serve cfg m1 key t) as [m1' r1] eqn:E1.
    destruct (decide (key = k)) as [->|Hk].
    + rewrite filter_cons_True by done. rewrite filter_cons_True by (cbn; by case_bool_decide). cbn [run].
      destruct (serve_same cfg m1 m2 k t E) as [H1 H2]. rewrite E1 in H1, H2.
      destruct (serve cfg m2 k t) as [m2' r2]. cbn in H1, H2. subst r2. f_equal. by apply IH.
    + rewrite filter_cons_False by done. rewrite filter_cons_False by (cbn; by case_bool_decide).
      apply IH. rewrite <- E. by eapply serve_other.
  - rewrite filter_cons_True by done. cbn [run]. apply IH. by rewrite !sweep_lookup, E.
Qed.

Lemma ratelimit_isolated_witness :
  let cfg := withDefaults (mkConfig 0 2 0) in
  let c := mkClock 7 7 7 7 in
  filter (fun p => p.1 = "a") (run cfg ∅ [Request "a" c; Request "b" c; Request "a" c; Request "a" c]) =
    run cfg ∅ (filter (fun e => concerns "a" e = true) [Request "a" c; Request "b" c; Request "a" c; Request "a" c]) /\
  (fun p => p.2.1) <$> run cfg ∅ (replicate 3 (Request "a" c)) = [true; true; false].
Proof. apply (ratelimit_isolated (withDefaults (mkConfig 0 2 0)) _ "a" 7 3); vm_compute; intuition congruence. Defined.

(** A limiter dropped for idleness comes back full: with a limit of 100 per day
    the burst is available again after ten minutes, although refilling it takes
    a day. *)
Theorem ratelimit_idle_regains_burst :
  let cfg := mkConfig 100 100 86400000000000 in
  let at_ t := mkClock t t t t in
  let later := defaultIdleExpiry + 1 in
  let spend := replicate 100 (Request "a" (at_ 0)) in
  (length (filter (fun p => p.2.1 = true) (run cfg ∅ (spend ++ replicate 100 (Request "a" (at_ later)))))) = 100%nat /\
  (length (filter (fun p => p.2.1 = true) (run cfg ∅ (spend ++ Tick later :: replicate 100 (Request "a" (at_ later)))))) = 200%nat.
Proof. vm_compute. done. Qed.
End MW.
