(* ===== verification/Counters.v ===== *)
(** * Probabilistic counters

    The HyperLogLog registers ([src/pkg/datastructs/hyperloglog/hll.go]) and
    the Morris counter ([src/pkg/datastructs/morris/morris.go]).  The random
    number a Morris increment draws, the natural logarithm and the float
    constant of the HyperLogLog estimate are arguments. *)

From stdpp Require Import base list option sets.
From Stdlib Require Import ZArith Lia SpecFloat.
From S2P Require Import Prelude Float FloatRound.

#[local] Open Scope Z_scope.

(** ** HyperLogLog *)

Module HLL.

Definition p : Z := 14.
Definition m : Z := Z.shiftl 1 p.
Definition mMask : Z := m - 1.

(** The registers, one byte each. *)
Abbreviation HLL := (list Z).

Definition New : HLL := zeros m.

(** [bits.LeadingZeros64]. *)
Definition LeadingZeros64 (x : Z) : Z := if x =? 0 then 64 else 63 - Z.log2 x.

Definition rhoOf (hash : Z) : Z :=
  let w := Z.shiftr hash p in
  u8 (u8 (LeadingZeros64 (u64 (Z.shiftl w p))) + 1).

Definition Add (h : HLL) (hash : Z) : option (HLL * bool) :=
  let idx := Z.land hash mMask in
  let rho := rhoOf hash in
  r ← zget h idx;
  if r <? rho then h ← zset h idx rho; Some (h, true) else Some (h, false).

(** The loop of [Merge], from register [i] on. *)
Fixpoint mergeLoop (n : nat) (i : Z) (h other : HLL) : option HLL :=
  match n with
  | O => Some h
  | S n =>
      o ← zget other i;
      r ← zget h i;
      h ← (if r <? o then zset h i o else Some h);
      mergeLoop n (i + 1) h other
  end.

Definition Merge (h other : HLL) : option HLL :=
  if negb (zlen other =? m) then Some h else mergeLoop (Z.to_nat m) 0 h other.

Definition Clone (h : HLL) : HLL := gcopy (zeros m) h.

(** The sum and the number of empty registers. *)
Fixpoint sumLoop (regs : HLL) (sum : float64) (z : Z) : float64 * Z :=
  match regs with
  | [] => (sum, z)
  | val :: regs =>
      let sum := fadd sum (fdiv (f64_of_Z 1) (f64_of_Z (u64 (Z.shiftl 1 val)))) in
      sumLoop regs sum (if val =? 0 then z + 1 else z)
  end.

(** The estimate that [Count] converts to an integer. *)
Definition estimate (alphaMM : float64) (Log : float64 -> float64) (h : HLL) : float64 :=
  let '(sum, z) := sumLoop h fzero 0 in
  let est := fdiv alphaMM sum in
  let pow64 := f64_of_Z (2 ^ 64) in
  if fleb est (f64_of_Z 40960) then
    if 0 <? z then fmul (f64_of_Z m) (Log (fdiv (f64_of_Z m) (f64_of_Z z))) else est
  else if fltb (fmul (fdiv (f64_of_Z 1) (f64_of_Z 30)) pow64) est then
    fmul (SFopp pow64) (Log (fsub (f64_of_Z 1) (fdiv est pow64)))
  else est.

(** *** Registers as maxima *)

(** The register [i] after the hashes [l] were added. *)
Definition maxRho (l : list Z) (i : Z) : Z :=
  fold_right (fun x acc => if Z.land x mMask =? i then Z.max (rhoOf x) acc else acc) 0 l.

Record holds (h : HLL) (l : list Z) : Prop := {
  holds_len : zlen h = m;
  holds_reg : forall i, 0 <= i < m -> zget h i = Some (maxRho l i);
}.

Lemma hll_idx_range hash : 0 <= Z.land hash mMask < m.
Proof.
  change mMask with (Z.ones 14). rewrite Z.land_ones by lia. change m with (2 ^ 14).
  apply Z.mod_pos_bound. lia.
Qed.

Lemma maxRho_cons x l i :
  maxRho (x :: l) i = if Z.land x mMask =? i then Z.max (rhoOf x) (maxRho l i) else maxRho l i.
Proof. done. Qed.

Lemma maxRho_nonneg l i : 0 <= maxRho l i.
Proof. induction l as [|x l IH]; [done|]. rewrite maxRho_cons. case_match; lia. Qed.

Lemma maxRho_app l k i : maxRho (l ++ k) i = Z.max (maxRho l i) (maxRho k i).
Proof.
  induction l as [|x l IH]; cbn [app]; [change (maxRho [] i) with 0; pose proof (maxRho_nonneg k i); lia|].
  rewrite !maxRho_cons, IH. case_match; lia.
Qed.

(** Only the set of the hashes matters. *)
Lemma maxRho_elem l k i : (forall x, x ∈ l -> x ∈ k) -> maxRho l i <= maxRho k i.
Proof.
  intros Hs. assert (G : forall x q, x ∈ q -> Z.land x mMask = i -> rhoOf x <= maxRho q i).
  { intros x q. induction q as [|y q IH]; [by intros ?%elem_of_nil|]. rewrite maxRho_cons.
    intros [->|Hin]%elem_of_cons Hx; [rewrite Hx, Z.eqb_refl; lia|]. specialize (IH Hin Hx). case_match; lia. }
  induction l as [|x l IH]; [apply maxRho_nonneg|]. rewrite maxRho_cons.
  assert (IH' : maxRho l i <= maxRho k i) by (apply IH; intros y Hy; apply Hs; by constructor).
  destruct (Z.eqb_spec (Z.land x mMask) i) as [Hx|]; [|done].
  pose proof (G x k (Hs x (list_elem_of_here _ _)) Hx). lia.
Qed.

Lemma holds_ext h l k : (forall x, x ∈ l <-> x ∈ k) -> holds h l -> holds h k.
Proof.
  intros Hs [Hl Hr]. split; [done|]. intros i Hi. rewrite Hr by done. f_equal.
  apply Z.le_antisymm; apply maxRho_elem; intros x; apply Hs.
Qed.

Lemma New_holds : holds New [].
Proof.
  split; [apply zeros_zlen; done|]. intros i Hi. unfold New, zeros, zget. rewrite bool_decide_true by lia.
  apply lookup_replicate_2. change m with 16384 in *. lia.
Qed.

Lemma hll_Add_holds h l x : holds h l ->
  exists h', Add h x = Some (h', maxRho l (Z.land x mMask) <? rhoOf x) /\ holds h' (x :: l).
Proof.
  intros [Hl Hr]. pose proof (hll_idx_range x) as Hi. unfold Add. rewrite Hr by done. cbn [mbind option_bind].
  destruct (Z.ltb_spec (maxRho l (Z.land x mMask)) (rhoOf x)) as [Hlt|Hge].
  - rewrite zset_Some by lia. cbn [mbind option_bind]. eexists. split; [done|].
    split; [unfold zlen in *; by rewrite length_insert|]. intros i Hi'.
    rewrite maxRho_cons. destruct (Z.eqb_spec (Z.land x mMask) i) as [<-|Hne].
    + rewrite Z.max_l by lia. unfold zget. rewrite bool_decide_true by lia. apply list_lookup_insert_eq.
      unfold zlen in Hl. lia.
    + rewrite <- Hr by done. unfold zget. rewrite bool_decide_true by lia.
      apply list_lookup_insert_ne. lia.
  - eexists. split; [done|]. split; [done|]. intros i Hi'. rewrite Hr by done. f_equal.
    rewrite maxRho_cons. destruct (Z.eqb_spec (Z.land x mMask) i) as [<-|]; lia.
Qed.

(** The loop has merged the registers before [i]. *)
Lemma mergeLoop_holds n : forall i h other l k, holds other k -> zlen h = m ->
  0 <= i -> i + Z.of_nat n = m ->
  (forall j, 0 <= j < m -> zget h j = Some (if j <? i then maxRho (l ++ k) j else maxRho l j)) ->
  exists h', mergeLoop n i h other = Some h' /\ holds h' (l ++ k).
Proof.
  induction n as [|n IH]; intros i h other l k Ho Hl Hi Hn Hr; cbn [mergeLoop].
  { exists h. split; [done|]. split; [done|]. intros j Hj. rewrite Hr by done.
    by rewrite (proj2 (Z.ltb_lt j i)) by lia. }
  rewrite (holds_reg _ _ Ho), Hr by lia. rewrite Z.ltb_irrefl. cbn [mbind option_bind].
  assert (Hstep : exists h1, (if maxRho l i <? maxRho k i then zset h i (maxRho k i) else Some h) = Some h1 /\
    zlen h1 = m /\ zget h1 i = Some (maxRho (l ++ k) i) /\ forall j, j <> i -> 0 <= j < m -> zget h1 j = zget h j).
  { rewrite maxRho_app. destruct (Z.ltb_spec (maxRho l i) (maxRho k i)) as [Hlt|Hge].
    - rewrite zset_Some by lia. eexists. split; [done|]. split; [unfold zlen in *; by rewrite length_insert|].
      unfold zget. split.
      + rewrite bool_decide_true, Z.max_r by lia. apply list_lookup_insert_eq. unfold zlen in Hl. lia.
      + intros j Hne Hj. rewrite bool_decide_true by lia. apply list_lookup_insert_ne. lia.
    - eexists. split; [done|]. rewrite Hr, Z.ltb_irrefl, Z.max_l by lia. done. }
  destruct Hstep as (h1 & -> & Hl1 & Hi1 & Hne). cbn [mbind option_bind].
  apply (IH (i + 1) h1 other l k); [done|done|lia|lia|]. intros j Hj.
  destruct (Z.eq_dec j i) as [->|Hji]; [by rewrite Hi1, (proj2 (Z.ltb_lt i (i + 1))) by lia|].
  rewrite Hne, Hr by done. f_equal. destruct (Z.ltb_spec j i), (Z.ltb_spec j (i + 1)); done || lia.
Qed.

Lemma Merge_holds h other l k : holds h l -> holds other k ->
  exists h', Merge h other = Some h' /\ holds h' (l ++ k).
Proof.
  intros Hh Ho. unfold Merge. rewrite (holds_len _ _ Ho), Z.eqb_refl. cbn [negb].
  apply mergeLoop_holds; [done|apply Hh|lia|change m with 16384; lia|].
  intros j Hj. rewrite (proj2 (Z.ltb_ge j 0)) by lia. by apply Hh.
Qed.

Lemma Clone_id h l : holds h l -> Clone h = h.
Proof.
  intros [Hl _]. unfold Clone. rewrite gcopy_ge by (rewrite zeros_zlen by done; lia).
  rewrite zdrop_ge by (rewrite zeros_zlen by done; lia). apply app_nil_r.
Qed.

Lemma holds_unique h1 h2 l : holds h1 l -> holds h2 l -> h1 = h2.
Proof.
  intros [L1 R1] [L2 R2]. apply list_eq. intros i. destruct (decide (i < Z.to_nat m)%nat) as [Hi|Hi].
  - specialize (R1 (Z.of_nat i) ltac:(lia)). specialize (R2 (Z.of_nat i) ltac:(lia)). unfold zget in *.
    rewrite bool_decide_true, Nat2Z.id in R1, R2 by lia. congruence.
  - unfold zlen in *. rewrite !lookup_ge_None_2 by lia. done.
Qed.

(** *** Sketches built by any combination of operations *)

Inductive build := BNew | BAdd (b : build) (hash : Z) | BMerge (b c : build) | BClone (b : build).

Fixpoint eval (b : build) : option HLL :=
  match b with
  | BNew => Some New
  | BAdd b x => h ← eval b; '(h, _) ← Add h x; Some h
  | BMerge b c => h ← eval b; o ← eval c; Merge h o
  | BClone b => h ← eval b; Some (Clone h)
  end.

Fixpoint hashes (b : build) : list Z :=
  match b with
  | BNew => []
  | BAdd b x => x :: hashes b
  | BMerge b c => hashes b ++ hashes c
  | BClone b => hashes b
  end.

Lemma eval_holds b : exists h, eval b = Some h /\ holds h (hashes b).
Proof.
  induction b as [|b IH x|b IHb c IHc|b IH]; cbn [eval hashes].
  - eexists. split; [done|apply New_holds].
  - destruct IH as (h & -> & Hh). cbn [mbind option_bind]. destruct (hll_Add_holds h _ x Hh) as (h' & -> & Hh').
    by exists h'.
  - destruct IHb as (h & -> & Hh), IHc as (o & -> & Ho). cbn [mbind option_bind].
    destruct (Merge_holds h o _ _ Hh Ho) as (h' & -> & Hh'). by exists h'.
  - destruct IH as (h & -> & Hh). cbn [mbind option_bind]. exists h. by rewrite (Clone_id h _ Hh).
Qed.

(** A HyperLogLog depends only on the set of hashes that went into it: two
    of them built by any additions, merges and copies from the same set have
    the same registers, and every register is the largest rank among the
    hashes that select it. *)
Theorem hll_set_semantics b c :
  (forall x, x ∈ hashes b <-> x ∈ hashes c) ->
  exists h, eval b = Some h /\ eval c = Some h /\ zlen h = m /\
    forall i, 0 <= i < m -> zget h i = Some (maxRho (hashes b) i).
Proof.
  intros Hs. destruct (eval_holds b) as (h & Eb & Hb). destruct (eval_holds c) as (h' & Ec & Hc).
  exists h. split; [done|]. rewrite (holds_unique h h' (hashes c)); [|by eapply holds_ext|done].
  split; [done|]. apply (holds_ext h' _ (hashes b)) in Hc; [|intros x; by rewrite Hs]. by destruct Hc.
Qed.

Lemma hll_set_semantics_witness :
  exists h, eval (BMerge (BAdd BNew 77777) (BAdd (BAdd BNew 5) 77777)) = Some h /\
    eval (BAdd (BClone (BAdd BNew 5)) 77777) = Some h /\ zlen h = m /\
    forall i, 0 <= i < m -> zget h i = Some (maxRho [77777; 77777; 5] i).
Proof.
  apply (hll_set_semantics (BMerge (BAdd BNew 77777) (BAdd (BAdd BNew 5) 77777)) (BAdd (BClone (BAdd BNew 5)) 77777)).
  intros x. cbn. set_solver.
Defined.

(** The rank counts the leading zeros of the 50 bits left after the index,
    except for a hash whose 50 bits are all zero. *)
Theorem hll_rank hash : 0 <= hash < 2 ^ 64 ->
  rhoOf hash = if hash <? 2 ^ 14 then 65 else 64 - Z.log2 hash.
Proof.
  intros Hh. unfold rhoOf. rewrite Z.shiftl_mul_pow2, Z.shiftr_div_pow2 by (unfold p; lia). change (2 ^ p) with (2 ^ 14).
  pose proof (Z.div_mod hash (2 ^ 14) ltac:(lia)) as Hd. pose proof (Z.mod_pos_bound hash (2 ^ 14) ltac:(lia)) as Hm.
  unfold u64. rewrite Z.mod_small by lia. destruct (Z.ltb_spec hash (2 ^ 14)) as [Hlt|Hge].
  { rewrite Z.div_small by lia. done. }
  assert (Hq : 1 <= hash / 2 ^ 14) by (apply Z.div_le_lower_bound; lia).
  assert (Hlog : Z.log2 (hash / 2 ^ 14 * 2 ^ 14) = Z.log2 hash).
  { pose proof (Z.log2_spec hash ltac:(lia)) as [L1 L2].
    assert (14 <= Z.log2 hash) by (change 14 with (Z.log2 (2 ^ 14)); apply Z.log2_le_mono; lia).
    apply Z.log2_unique; [lia|]. split; [|lia].
    replace (2 ^ Z.log2 hash) with (2 ^ (Z.log2 hash - 14) * 2 ^ 14) by (rewrite <- Z.pow_add_r by lia; f_equal; lia).
    apply Z.mul_le_mono_nonneg_r; [lia|]. apply Z.div_le_lower_bound; [lia|].
    rewrite Z.mul_comm, <- Z.pow_add_r by lia. replace (Z.log2 hash - 14 + 14) with (Z.log2 hash) by lia. done. }
  unfold LeadingZeros64. rewrite (proj2 (Z.eqb_neq _ _)) by lia. rewrite Hlog.
  assert (14 <= Z.log2 hash < 64).
  { split; [change 14 with (Z.log2 (2 ^ 14)); apply Z.log2_le_mono; lia|apply Z.log2_lt_pow2; lia]. }
  unfold u8. rewrite (Z.mod_small (63 - _)) by lia. rewrite Z.mod_small by lia. lia.
Qed.

(** A register of 65 makes the sum infinite ([1 << 65] is zero) and with it the
    estimate zero, however many hashes were added. *)
Theorem hll_small_hash_zeroes_estimate Log mm e :
  estimate (S754_finite false mm e) Log (replicate (Z.to_nat 16383) 10 ++ [65]) = fzero /\ rhoOf 16383 = 65.
Proof.
  split; [|done]. unfold estimate.
  assert (E : sumLoop (replicate (Z.to_nat 16383) 10 ++ [65]) fzero 0 = (S754_infinity false, 0)) by (vm_compute; done).
  rewrite E. done.
Qed.
(** The rank of a 64-bit hash: the position of the first set bit among the upper 50 bits,
    counted from 1 at the top; 65 when there is none. *)
Definition rank (hash : Z) : Z :=
  let w := hash / 2 ^ 14 in if w =? 0 then 65 else 50 - Z.log2 w.

Lemma rhoOf_rank hash : 0 <= hash < 2 ^ 64 -> rhoOf hash = rank hash /\ 1 <= rank hash <= 65.
Proof.
  intros Hh. rewrite hll_rank by done. unfold rank.
  destruct (Z.ltb_spec hash (2 ^ 14)) as [Hlt|Hge]; [by rewrite Z.div_small by lia|].
  assert (Hq : 1 <= hash / 2 ^ 14) by (apply Z.div_le_lower_bound; lia).
  rewrite (proj2 (Z.eqb_neq _ _)) by lia. rewrite <- Z.shiftr_div_pow2, Z.log2_shiftr by lia.
  assert (14 <= Z.log2 hash < 64).
  { split; [change 14 with (Z.log2 (2 ^ 14)); apply Z.log2_le_mono; lia|apply Z.log2_lt_pow2; lia]. }
  lia.
Qed.

(** [r] is the largest rank among the hashes that select register [i], or 0. *)
Definition largest (l : list Z) (i r : Z) : Prop :=
  (forall x, x ∈ l -> x mod 2 ^ 14 = i -> rank x <= r) /\
  ((r = 0 /\ forall x, x ∈ l -> x mod 2 ^ 14 <> i) \/ exists x, x ∈ l /\ x mod 2 ^ 14 = i /\ r = rank x).

Lemma maxRho_largest l i : Forall (fun x => 0 <= x < 2 ^ 64) l -> largest l i (maxRho l i).
Proof.
  unfold largest. induction 1 as [|x l Hx _ [IH1 IH2]].
  { split; [by intros x ?%elem_of_nil | left; split; [done | by intros x ?%elem_of_nil]]. }
  rewrite maxRho_cons. destruct (rhoOf_rank x Hx) as [-> Hr]. pose proof (maxRho_nonneg l i).
  change mMask with (Z.ones 14). rewrite Z.land_ones by lia.
  destruct (Z.eqb_spec (x mod 2 ^ 14) i) as [Hi|Hi].
  - split; [intros y [->|Hy]%elem_of_cons Hyi; [lia | specialize (IH1 y Hy Hyi); lia]|]. right.
    destruct (Z.max_spec (rank x) (maxRho l i)) as [[Hlt ->]|[_ ->]]; [|exists x; split_and!; [left | done | done]].
    destruct IH2 as [[E _]|(y & Hy & Hyi & E)]; [lia|]. exists y. split_and!; [by right | done | done].
  - split; [intros y [->|Hy]%elem_of_cons Hyi; [done | by apply IH1]|].
    destruct IH2 as [[E Hn]|(y & Hy & Hyi & E)]; [left | right].
    + split; [done|]. intros y [->|Hy]%elem_of_cons; [done | by apply Hn].
    + exists y. split_and!; [by right | done | done].
Qed.

(** C39: however a sketch is built from 64-bit hashes by additions, merges and clones, no
    step fails and its 2^14 registers are functions of the set of hashes that went in:
    register [i] holds the largest rank among the hashes whose low 14 bits are [i], or 0
    if there is none, so that merging is union and neither order nor repetition matters.
    The rank is the position of the first set bit in the upper 50 bits; a hash that has
    none gets 65 (the finding [hll_small_hash_zeroes_estimate]). *)
Theorem hll_registers_maxima b :
  Forall (fun x => 0 <= x < 2 ^ 64) (hashes b) ->
  exists h, eval b = Some h /\ zlen h = m /\
    (forall i, 0 <= i < m -> exists r, zget h i = Some r /\ largest (hashes b) i r) /\
    (forall c, (forall x, x ∈ hashes b <-> x ∈ hashes c) -> eval c = Some h).
Proof.
  intros Hb. destruct (eval_holds b) as (h & E & Hh). exists h. split; [done|]. split; [apply Hh|]. split.
  - intros i Hi. exists (maxRho (hashes b) i). split; [by apply Hh | by apply maxRho_largest].
  - intros c Hs. destruct (eval_holds c) as (h' & -> & Hc). f_equal.
    apply (holds_unique h' h (hashes c)); [done | by apply (holds_ext _ (hashes b))].
Qed.

(** Hashes 2^63 + 3 (rank 1) and 2^20 + 3 (rank 44) meet in register 3. *)
Lemma hll_registers_maxima_witness :
  exists h, eval (BMerge (BAdd BNew (2 ^ 20 + 3)) (BClone (BAdd BNew (2 ^ 63 + 3)))) = Some h /\
    zget h 3 = Some 44 /\ zget h 4 = Some 0 /\ eval (BAdd (BAdd BNew (2 ^ 63 + 3)) (2 ^ 20 + 3)) = Some h.
Proof.
  destruct (hll_registers_maxima (BMerge (BAdd BNew (2 ^ 20 + 3)) (BClone (BAdd BNew (2 ^ 63 + 3))))) as (h & E & _ & Hr & Hc).
  { cbn. repeat (constructor; [lia|]). constructor. }
  assert (Hin : forall x, x ∈ hashes (BMerge (BAdd BNew (2 ^ 20 + 3)) (BClone (BAdd BNew (2 ^ 63 + 3)))) <->
    x = 2 ^ 20 + 3 \/ x = 2 ^ 63 + 3) by (intros x; cbn [hashes app]; rewrite !elem_of_cons, elem_of_nil; tauto).
  exists h. split; [exact E|]. split; [|split].
  - destruct (Hr 3) as (r & Hg & Hu & Hx); [change m with 16384; lia|]. rewrite Hg. f_equal.
    pose proof (Hu (2 ^ 20 + 3) (proj2 (Hin _) (or_introl eq_refl)) eq_refl) as Hlo. change (rank (2 ^ 20 + 3)) with 44 in Hlo.
    destruct Hx as [[-> _]|(x & Hx & _ & ->)]; [lia|]. apply Hin in Hx. destruct Hx as [->| ->]; [reflexivity|]. exfalso. apply Hlo. reflexivity.
  - destruct (Hr 4) as (r & Hg & _ & Hx); [change m with 16384; lia|]. rewrite Hg. f_equal.
    destruct Hx as [[-> _]|(x & Hx & Hi & _)]; [reflexivity|]. apply Hin in Hx. destruct Hx as [->| ->]; discriminate Hi.
  - apply Hc. intros x. rewrite Hin. cbn [hashes]. rewrite !elem_of_cons, elem_of_nil. tauto.
Defined.
End HLL.

(** ** Morris counter *)

Module Morris.

(** The register, a [uint8]. *)
Definition New : Z := 0.

Definition pow2 (value : Z) : Z := u64 (Z.shiftl 1 value).

(** [r] is the number drawn by [rnd.Float64()]. *)
Definition Increment (value : Z) (r : float64) : Z * bool :=
  let p := fdiv (f64_of_Z 1) (f64_of_Z (pow2 value)) in
  if fltb r p then (u8 (value + 1), true) else (value, false).

Definition Count (value : Z) : Z := if value =? 0 then 0 else u64 (pow2 value - 1).
Definition Reset (value : Z) : Z := 0.
Definition RawValue (value : Z) : Z := value.
Definition SetRawValue (value v : Z) : Z := v.

Lemma Count_small v : 0 <= v < 64 -> Count v = 2 ^ v - 1.
Proof.
  intros Hv. unfold Count, pow2. destruct (Z.eqb_spec v 0) as [->|]; [done|].
  rewrite Z.shiftl_mul_pow2, Z.mul_1_l by lia.
  assert (2 ^ v < 2 ^ 64) by (apply Z.pow_lt_mono_r; lia). assert (0 < 2 ^ v) by (apply Z.pow_pos_nonneg; lia).
  unfold u64. rewrite (Z.mod_small (2 ^ v)) by lia. rewrite Z.mod_small by lia. done.
Qed.

Lemma Count_large v : 64 <= v -> Count v = 2 ^ 64 - 1.
Proof.
  intros Hv. unfold Count, pow2. rewrite (proj2 (Z.eqb_neq v 0)) by lia.
  rewrite Z.shiftl_mul_pow2, Z.mul_1_l by lia.
  replace (2 ^ v) with (2 ^ (v - 64) * 2 ^ 64) by (rewrite <- Z.pow_add_r by lia; f_equal; lia).
  unfold u64. rewrite Z.mod_mul by lia. done.
Qed.

Definition half_power (v : Z) (x : float64) : bool :=
  match x with S754_finite false mm e => Pos.eqb mm (2 ^ 52) && (e =? -52 - v) | _ => false end.

(** The probability is an exact power of two. *)
Lemma probability v : 0 <= v < 64 ->
  fdiv (f64_of_Z 1) (f64_of_Z (pow2 v)) = S754_finite false (2 ^ 52) (-52 - v).
Proof.
  intros Hv. assert (Hall : forallb (fun v => half_power v (fdiv (f64_of_Z 1) (f64_of_Z (pow2 v)))) (seqZ 0 64) = true)
    by (vm_compute; reflexivity).
  rewrite forallb_forall in Hall. specialize (Hall v ltac:(apply list_elem_of_In, elem_of_seqZ; lia)).
  unfold half_power in Hall. destruct (fdiv _ _) as [s|s| |[] mm e]; try done.
  apply andb_true_iff in Hall as [->%Pos.eqb_eq ->%Z.eqb_eq]. done.
Qed.

(** A Morris register below 64 goes up exactly when the drawn number is below
    [2 ^ -value], and stands for [2 ^ value - 1]; from 64 on every increment
    succeeds, the count stays at the largest [uint64], and after 255 the
    register is zero again. *)
Theorem morris_steps v r : 0 <= v < 256 -> is_nan r = false -> fltb r (S754_infinity false) = true ->
  Increment v r =
    (if v <? 64 then
       if fltb r (S754_finite false (2 ^ 52) (-52 - v)) then (v + 1, true) else (v, false)
     else (u8 (v + 1), true)) /\
  Count v = if v <? 64 then 2 ^ v - 1 else 2 ^ 64 - 1.
Proof.
  intros Hv Hr Hinf. unfold Increment. destruct (Z.ltb_spec v 64) as [Hlt|Hge].
  - rewrite probability, Count_small by lia. unfold u8. by rewrite Z.mod_small by lia.
  - rewrite Count_large by lia. split; [|done].
    assert (Hp : pow2 v = 0).
    { unfold pow2. rewrite Z.shiftl_mul_pow2, Z.mul_1_l by lia.
      replace (2 ^ v) with (2 ^ (v - 64) * 2 ^ 64) by (rewrite <- Z.pow_add_r by lia; f_equal; lia).
      unfold u64. by rewrite Z.mod_mul by lia. }
    rewrite Hp. change (fdiv (f64_of_Z 1) (f64_of_Z 0)) with (S754_infinity false). by rewrite Hinf.
Qed.

Lemma morris_steps_witness :
  Increment 3 (S754_finite false (2 ^ 52) (-56)) = (4, true) /\ Increment 255 (S754_finite false (2 ^ 52) (-56)) = (0, true).
Proof.
  split.
  - rewrite (proj1 (morris_steps 3 (S754_finite false (2 ^ 52) (-56)) ltac:(lia) eq_refl eq_refl)). vm_compute. reflexivity.
  - rewrite (proj1 (morris_steps 255 (S754_finite false (2 ^ 52) (-56)) ltac:(lia) eq_refl eq_refl)). vm_compute. reflexivity.
Defined.
End Morris.
