(* ===== verification/TopK.v ===== *)
(** * Top-k tracking ([src/pkg/datastructs/topk/topk.go])

    The HeavyKeepers structure: rows of decaying counters, a min-heap of at
    most [k] items, and a dictionary from values to heap items.  The heap items
    live in a store and are shared by the heap and the dictionary, each with
    its position in the heap; the heap is the one of [container/heap].  The two
    hash functions and the random numbers are arguments. *)

From stdpp Require Import base list option gmap strings sets.
From Stdlib Require Import ZArith Lia SpecFloat.
From S2P Require Import Prelude Float FloatRound.

#[local] Open Scope Z_scope.

(** ** The heap of [container/heap] over shared items *)

Record heapItem := mkItem { val : string; count : Z; index : Z }.

(** The items by address, and the heap as a list of addresses. *)
Record heap := mkHeap { store : list heapItem; topk : list nat }.

Definition countOf (h : heap) (i : nat) : option Z :=
  a ← topk h !! i; x ← store h !! a; Some (count x).

Definition Less (h : heap) (i j : nat) : option bool :=
  a ← countOf h i; b ← countOf h j; Some (a <? b).

Definition setIndex (s : list heapItem) (a : nat) (i : Z) : option (list heapItem) :=
  x ← s !! a; Some (<[a := mkItem (val x) (count x) i]> s).

Definition Swap (h : heap) (i j : nat) : option heap :=
  a ← topk h !! i;
  b ← topk h !! j;
  s ← setIndex (store h) b (Z.of_nat i);
  s ← setIndex s a (Z.of_nat j);
  Some (mkHeap s (<[j := a]> (<[i := b]> (topk h)))).

(** [x.index = n; *h = append( *h, x)] *)
Definition pushBack (h : heap) (a : nat) : option heap :=
  s ← setIndex (store h) a (Z.of_nat (length (topk h)));
  Some (mkHeap s (topk h ++ [a])).

Definition popBack (h : heap) : option (heap * nat) :=
  a ← last (topk h);
  s ← setIndex (store h) a (-1);
  Some (mkHeap s (take (length (topk h) - 1) (topk h)), a).

(** The loop of [up]: towards the root while smaller than the parent. *)
Fixpoint up (fuel : nat) (h : heap) (j : nat) : option heap :=
  match fuel with
  | O => None
  | S f =>
      let i := ((j - 1) / 2)%nat in
      if (i =? j)%nat then Some h else
      l ← Less h j i;
      if (l : bool) then h ← Swap h i j; up f h i else Some h
  end.

(** The loop of [down]: towards the leaves while greater than a child; the
    result is the position reached. *)
Fixpoint down (fuel : nat) (h : heap) (i n : nat) : option (heap * nat) :=
  match fuel with
  | O => None
  | S f =>
      let j1 := (2 * i + 1)%nat in
      if (n <=? j1)%nat then Some (h, i) else
      let j2 := S j1 in
      j ← (if (j2 <? n)%nat then l ← Less h j2 j1; Some (if (l : bool) then j2 else j1) else Some j1);
      l ← Less h j i;
      if (l : bool) then h ← Swap h i j; down f h j n else Some (h, i)
  end.

Definition Push (h : heap) (a : nat) : option heap :=
  h ← pushBack h a;
  up (S (length (topk h))) h (length (topk h) - 1).

Definition Pop (h : heap) : option (heap * nat) :=
  let n := (length (topk h) - 1)%nat in
  h ← Swap h 0 n;
  '(h, _) ← down (S n) h 0 n;
  popBack h.

Definition Fix (h : heap) (i : nat) : option heap :=
  let n := length (topk h) in
  '(h, i') ← down (S n) h i n;
  if (i <? i')%nat then Some h else up (S n) h i.

(** ** Invariant *)

(** Addresses are valid and distinct, and each item knows its position. *)
Record shape (h : heap) : Prop := {
  shape_nodup : NoDup (topk h);
  shape_index : forall i a, topk h !! i = Some a -> exists x, store h !! a = Some x /\ index x = Z.of_nat i;
}.

(** What the heap operations leave alone: the addresses, up to order, and the
    value and count of every item. *)
Definition keeps (h h' : heap) : Prop :=
  topk h' ≡ₚ topk h /\ length (store h') = length (store h) /\
  forall a, (fun x => (val x, count x)) <$> store h' !! a = (fun x => (val x, count x)) <$> store h !! a.

Lemma keeps_refl h : keeps h h.
Proof. by split_and!. Qed.

Lemma keeps_trans h1 h2 h3 : keeps h1 h2 -> keeps h2 h3 -> keeps h1 h3.
Proof.
  intros (P1 & L1 & S1) (P2 & L2 & S2). split_and!; [by rewrite P2|congruence|]. intros a. by rewrite S2.
Qed.

Lemma countOf_Some h i : shape h -> (i < length (topk h))%nat -> exists c, countOf h i = Some c.
Proof.
  intros [_ Hi] Hl. destruct (lookup_lt_is_Some_2 _ _ Hl) as [a Ha]. destruct (Hi i a Ha) as (x & Hx & _).
  exists (count x). unfold countOf. rewrite Ha. cbn [mbind option_bind]. by rewrite Hx.
Qed.

Lemma countOf_lt h i c : countOf h i = Some c -> (i < length (topk h))%nat.
Proof.
  unfold countOf. destruct (topk h !! i) as [a|] eqn:E; [|done]. intros _. by eapply lookup_lt_Some.
Qed.

Lemma setIndex_spec s a i : (a < length s)%nat ->
  exists s', setIndex s a i = Some s' /\ length s' = length s /\
    (forall b, (fun x => (val x, count x)) <$> s' !! b = (fun x => (val x, count x)) <$> s !! b) /\
    (exists x, s' !! a = Some x /\ index x = i) /\ (forall b, b <> a -> s' !! b = s !! b).
Proof.
  intros Ha. destruct (lookup_lt_is_Some_2 _ _ Ha) as [x Hx]. unfold setIndex. rewrite Hx. cbn [mbind option_bind].
  eexists. split; [done|]. split; [by rewrite length_insert|]. split_and!.
  - intros b. destruct (decide (b = a)) as [->|Hb]; [rewrite list_lookup_insert_eq by done; by rewrite Hx|].
    by rewrite list_lookup_insert_ne.
  - eexists. split; [by apply list_lookup_insert_eq|done].
  - intros b Hb. by rewrite list_lookup_insert_ne.
Qed.

Lemma countOf_keys h h' i j : length (store h') = length (store h) ->
  (forall a, (fun x => (val x, count x)) <$> store h' !! a = (fun x => (val x, count x)) <$> store h !! a) ->
  topk h' !! i = topk h !! j -> countOf h' i = countOf h j.
Proof.
  intros _ Hs Ht. unfold countOf. rewrite Ht. destruct (topk h !! j) as [a|]; [|done]. cbn [mbind option_bind].
  specialize (Hs a). destruct (store h' !! a), (store h !! a); cbn in *; congruence.
Qed.

Lemma Swap_spec h i j : shape h -> (i < length (topk h))%nat -> (j < length (topk h))%nat -> i <> j ->
  exists h', Swap h i j = Some h' /\ shape h' /\ keeps h h' /\
    countOf h' i = countOf h j /\ countOf h' j = countOf h i /\
    (forall c, c <> i -> c <> j -> countOf h' c = countOf h c) /\
    (forall c, c <> i -> c <> j -> topk h' !! c = topk h !! c) /\ topk h' !! i = topk h !! j /\ topk h' !! j = topk h !! i.
Proof.
  intros [Hnd Hix] Hi Hj Hij. destruct (lookup_lt_is_Some_2 _ _ Hi) as [a Ha].
  destruct (lookup_lt_is_Some_2 _ _ Hj) as [b Hb]. unfold Swap. rewrite Ha, Hb. cbn [mbind option_bind].
  assert (Hab : a <> b) by (intros ->; apply Hij; by eapply NoDup_lookup).
  destruct (Hix i a Ha) as (xa & Hxa & _). destruct (Hix j b Hb) as (xb & Hxb & _).
  destruct (setIndex_spec (store h) b (Z.of_nat i)) as (s1 & -> & L1 & K1 & (y1 & Y1 & I1) & N1);
    [by eapply lookup_lt_Some|]. cbn [mbind option_bind].
  destruct (setIndex_spec s1 a (Z.of_nat j)) as (s2 & -> & L2 & K2 & (y2 & Y2 & I2) & N2);
    [rewrite L1; by eapply lookup_lt_Some|]. cbn [mbind option_bind].
  set (t' := <[j := a]> (<[i := b]> (topk h))). set (h' := mkHeap s2 t').
  assert (Ti : t' !! i = Some b).
  { unfold t'. rewrite list_lookup_insert_ne, list_lookup_insert_eq by done. done. }
  assert (Tj : t' !! j = Some a) by (unfold t'; apply list_lookup_insert_eq; by rewrite length_insert).
  assert (Tc : forall c, c <> i -> c <> j -> t' !! c = topk h !! c).
  { intros c Hci Hcj. unfold t'. by rewrite !list_lookup_insert_ne. }
  assert (Hperm : t' ≡ₚ topk h).
  { apply Permutation_inj. split; [unfold t'; by rewrite !length_insert|].
    exists (fun c => if decide (c = i) then j else if decide (c = j) then i else c). split.
    - intros c d. repeat case_decide; congruence.
    - intros c. repeat case_decide; subst; [congruence|congruence|by apply Tc]. }
  assert (Hk : forall a, (fun x => (val x, count x)) <$> s2 !! a = (fun x => (val x, count x)) <$> store h !! a)
    by (intros c; by rewrite K2).
  assert (Hl : length s2 = length (store h)) by congruence.
  exists h'. split; [done|]. split.
  { split; [cbn; by rewrite Hperm|]. cbn. intros c d Hd. destruct (decide (c = i)) as [->|Hci].
    - rewrite Ti in Hd. injection Hd as <-. exists y1. by rewrite N2.
    - destruct (decide (c = j)) as [->|Hcj]; [rewrite Tj in Hd; injection Hd as <-; by exists y2|].
      rewrite Tc in Hd by done. destruct (Hix c d Hd) as (x & Hx & Ix). exists x. split; [|done].
      rewrite N2, N1; [done| |]; intros ->; [apply Hcj|apply Hci]; by eapply NoDup_lookup. }
  split; [by split_and!|]. split; [by apply countOf_keys; [done|done|cbn; congruence]|].
  split; [by apply countOf_keys; [done|done|cbn; congruence]|].
  split_and!; [|by apply Tc|cbn; congruence|cbn; congruence].
  intros c Hci Hcj. apply countOf_keys; [done|done|by apply Tc].
Qed.

(** ** Heap order *)

Definition par (c : nat) : nat := ((c - 1) / 2)%nat.

(** The count at a position, zero outside. *)
Definition key (h : heap) (i : nat) : Z := default 0 (countOf h i).

Lemma key_countOf h i : shape h -> (i < length (topk h))%nat -> countOf h i = Some (key h i).
Proof. intros Hs Hi. unfold key. destruct (countOf_Some h i Hs Hi) as [c ->]. done. Qed.

Lemma Less_key h i j : shape h -> (i < length (topk h))%nat -> (j < length (topk h))%nat ->
  Less h i j = Some (key h i <? key h j).
Proof. intros Hs Hi Hj. unfold Less. rewrite !key_countOf by done. done. Qed.

(** Every position below [n] is at least its parent. *)
Definition ordered (h : heap) (n : nat) : Prop :=
  forall c, (0 < c < n)%nat -> key h (par c) <= key h c.

(** Ordered but for position [j] and its parent. *)
Definition ordered_up (h : heap) (j : nat) : Prop :=
  (forall c, (0 < c < length (topk h))%nat -> c <> j -> key h (par c) <= key h c) /\
  (forall c, (0 < c < length (topk h))%nat -> par c = j -> (0 < j)%nat -> key h (par j) <= key h c).

(** Ordered but for position [i] and its children. *)
Definition ordered_down (h : heap) (i n : nat) : Prop :=
  (forall c, (0 < c < n)%nat -> par c <> i -> key h (par c) <= key h c) /\
  (forall c, (0 < c < n)%nat -> par c = i -> (0 < i)%nat -> key h (par i) <= key h c).

Lemma par_lt c : (0 < c)%nat -> (par c < c)%nat.
Proof. intros H. unfold par. apply Nat.Div0.div_lt_upper_bound; lia. Qed.

Lemma par_children c i : (0 < c)%nat -> par c = i <-> (c = 2 * i + 1 \/ c = 2 * i + 2)%nat.
Proof.
  intros Hc. unfold par. pose proof (Nat.div_mod_eq (c - 1) 2). pose proof (Nat.mod_upper_bound (c - 1) 2). lia.
Qed.

Lemma up_spec fuel : forall h j, shape h -> (j < length (topk h))%nat -> (j < fuel)%nat -> ordered_up h j ->
  exists h', up fuel h j = Some h' /\ shape h' /\ keeps h h' /\ ordered h' (length (topk h')).
Proof.
  induction fuel as [|f IH]; intros h j Hs Hj Hf [U1 U2]; [lia|]. cbn [up]. fold (par j).
  destruct (Nat.eqb_spec (par j) j) as [E|E].
  { assert (j = 0)%nat as -> by (destruct j; [done|]; pose proof (par_lt (S j)); lia).
    exists h. split_and!; [done|done|apply keeps_refl|]. intros c Hc. apply U1; lia. }
  assert (Hj0 : (0 < j)%nat) by (destruct j; [done|lia]). pose proof (par_lt j Hj0) as Hp.
  rewrite Less_key by (done || lia). cbn [mbind option_bind].
  destruct (Z.ltb_spec (key h j) (key h (par j))) as [Hlt|Hge]; cycle 1.
  { exists h. split_and!; [done|done|apply keeps_refl|]. intros c Hc.
    destruct (decide (c = j)) as [->|]; [done|by apply U1]. }
  destruct (Swap_spec h (par j) j Hs) as (h1 & -> & Hs1 & Hk1 & C1 & C2 & C3 & _); [lia|done|lia|].
  cbn [mbind option_bind]. assert (Hlen : length (topk h1) = length (topk h)) by (by destruct Hk1 as [-> _]).
  assert (K1 : key h1 (par j) = key h j) by (unfold key; by rewrite C1).
  assert (K2 : key h1 j = key h (par j)) by (unfold key; by rewrite C2).
  assert (K3 : forall c, c <> par j -> c <> j -> key h1 c = key h c) by (intros c ? ?; unfold key; by rewrite C3).
  destruct (IH h1 (par j) Hs1) as (h' & -> & Hs' & Hk' & Ho'); [lia|lia| |].
  - rewrite <- Hlen in *. split.
    + intros c Hc Hne. destruct (decide (c = j)) as [->|Hcj]; [rewrite K1, K2; lia|].
      rewrite (K3 c) by done. destruct (decide (par c = par j)) as [Ep|Ep].
      * rewrite Ep, K1. specialize (U1 c ltac:(lia) Hcj). rewrite Ep in U1. lia.
      * destruct (decide (par c = j)) as [Ej|Ej]; [rewrite Ej, K2; apply (U2 c); done || lia|].
        rewrite K3 by done. apply U1; [lia|done].
    + intros c Hc Hpc Hpos. pose proof (par_lt (par j) Hpos).
      rewrite (K3 (par (par j))) by lia. specialize (U1 (par j) ltac:(lia) ltac:(lia)) as Hg.
      destruct (decide (c = j)) as [->|Hcj]; [rewrite K2; lia|].
      assert (c <> par j) by (intros ->; lia). rewrite K3 by done.
      specialize (U1 c ltac:(lia) Hcj). rewrite Hpc in U1. lia.
  - exists h'. split_and!; [done|done|by eapply keeps_trans|done].
Qed.

(** The smaller child of [i]. *)
Lemma child_spec h i n : shape h -> (n <= length (topk h))%nat -> (2 * i + 1 < n)%nat ->
  exists j, (if (S (2 * i + 1) <? n)%nat
             then l ← Less h (S (2 * i + 1)) (2 * i + 1); Some (if (l : bool) then S (2 * i + 1) else (2 * i + 1)%nat)
             else Some (2 * i + 1)%nat) = Some j /\
    (i < j < n)%nat /\ par j = i /\ forall c, (0 < c < n)%nat -> par c = i -> key h j <= key h c.
Proof.
  intros Hs Hn Hj. assert (Hpar : forall c, (0 < c)%nat -> par c = i -> (c = 2 * i + 1 \/ c = 2 * i + 2)%nat)
    by (intros c Hc; by rewrite par_children).
  destruct (Nat.ltb_spec (S (2 * i + 1)) n) as [H2|H2].
  - rewrite Less_key by (done || lia). cbn [mbind option_bind].
    destruct (Z.ltb_spec (key h (S (2 * i + 1))) (key h (2 * i + 1))) as [Hlt|Hge]; eexists; (split; [done|]);
      (split; [lia|]); (split; [apply par_children; lia|]); intros c Hc Hp;
      destruct (Hpar c ltac:(lia) Hp) as [->| ->]; replace (2 * i + 2)%nat with (S (2 * i + 1)) in * by lia; lia.
  - eexists. split; [done|]. split; [lia|]. split; [apply par_children; lia|]. intros c Hc Hp.
    destruct (Hpar c ltac:(lia) Hp) as [->| ->]; lia.
Qed.

Lemma down_spec fuel : forall h i n, shape h -> (n <= length (topk h))%nat -> (i < length (topk h))%nat ->
  (n < i + fuel)%nat -> (0 < fuel)%nat -> ordered_down h i n ->
  exists h' i', down fuel h i n = Some (h', i') /\ shape h' /\ keeps h h' /\ ordered h' n /\
    (forall c, (n <= c)%nat -> c <> i -> topk h' !! c = topk h !! c) /\ (i <= i')%nat /\ (i' = i -> h' = h).
Proof.
  induction fuel as [|f IH]; intros h i n Hs Hn Hi Hf Hf0 [D1 D2]; [lia|]. cbn [down].
  destruct (Nat.leb_spec n (2 * i + 1)) as [Hleaf|Hin].
  { exists h, i. split_and!; [done|done|apply keeps_refl| |done|lia|done]. intros c Hc. apply D1; [done|].
    intros Hp. apply par_children in Hp; lia. }
  destruct (child_spec h i n Hs Hn Hin) as (j & -> & Hj & Hpj & Hmin). cbn [mbind option_bind].
  rewrite Less_key by (done || lia). cbn [mbind option_bind].
  destruct (Z.ltb_spec (key h j) (key h i)) as [Hlt|Hge]; cycle 1.
  { exists h, i. split_and!; [done|done|apply keeps_refl| |done|lia|done]. intros c Hc.
    destruct (decide (par c = i)) as [Hp|Hp]; [|by apply D1]. rewrite Hp. specialize (Hmin c Hc Hp). lia. }
  destruct (Swap_spec h i j Hs) as (h1 & -> & Hs1 & Hk1 & C1 & C2 & C3 & T1 & _); [lia|lia|lia|].
  cbn [mbind option_bind]. assert (Hlen : length (topk h1) = length (topk h)) by (by destruct Hk1 as [-> _]).
  assert (K1 : key h1 i = key h j) by (unfold key; by rewrite C1).
  assert (K2 : key h1 j = key h i) by (unfold key; by rewrite C2).
  assert (K3 : forall c, c <> i -> c <> j -> key h1 c = key h c) by (intros c ? ?; unfold key; by rewrite C3).
  destruct (IH h1 j n Hs1) as (h' & i' & -> & Hs' & Hk' & Ho' & HT' & Hi' & _); [lia|lia|lia|lia| |].
  - split.
    + intros c Hc Hp. destruct (decide (c = j)) as [->|Hcj]; [rewrite Hpj, K1, K2; lia|].
      destruct (decide (par c = i)) as [Hpi|Hpi].
      { assert (c <> i) by (pose proof (par_lt c); lia). rewrite Hpi, K1, K3 by done. by apply Hmin. }
      rewrite (K3 (par c)) by done. destruct (decide (c = i)) as [->|Hci].
      * rewrite K1. apply (D2 j); [lia|done|lia].
      * rewrite K3 by done. by apply D1.
    + intros c Hc Hp Hj0. rewrite Hpj, K1. assert (c <> i /\ c <> j) as [? ?] by (pose proof (par_lt c); lia).
      rewrite K3 by done. rewrite <- Hp. apply D1; [done|lia].
  - exists h', i'. split_and!; [done|done|by eapply keeps_trans|done| |lia|lia].
    intros c Hc Hci. rewrite HT' by lia. apply T1; lia.
Qed.

(** ** The operations of the heap *)

Definition heap_ok (h : heap) : Prop := shape h /\ ordered h (length (topk h)).

(** The least count is at the root. *)
Lemma root_least h : heap_ok h -> forall i, (i < length (topk h))%nat -> key h 0 <= key h i.
Proof.
  intros [_ Ho] i. induction i as [i IH] using lt_wf_ind. intros Hi. destruct (decide (i = 0%nat)) as [->|H0]; [lia|].
  pose proof (par_lt i ltac:(lia)). specialize (IH (par i) ltac:(lia) ltac:(lia)). specialize (Ho i ltac:(lia)). lia.
Qed.

Lemma heap_Push_spec h a x : heap_ok h -> a ∉ topk h -> store h !! a = Some x ->
  exists h', Push h a = Some h' /\ heap_ok h' /\ topk h' ≡ₚ a :: topk h /\
    length (store h') = length (store h) /\
    forall b, (fun x => (val x, count x)) <$> store h' !! b = (fun x => (val x, count x)) <$> store h !! b.
Proof.
  intros [[Hnd Hix] Ho] Ha Hx. unfold Push, pushBack.
  destruct (setIndex_spec (store h) a (Z.of_nat (length (topk h)))) as (s1 & -> & L1 & K1 & (y & Y & I) & N1);
    [by eapply lookup_lt_Some|]. cbn [mbind option_bind topk]. set (h1 := mkHeap s1 (topk h ++ [a])).
  rewrite length_app. cbn [length]. replace (length (topk h) + 1 - 1)%nat with (length (topk h)) by lia.
  assert (Hs1 : shape h1).
  { split; cbn.
    - apply NoDup_app. split_and!; [done| |apply NoDup_singleton]. intros b Hb ->%list_elem_of_singleton. done.
    - intros i b [Hb|[Hge Hb]]%lookup_app_Some.
      + destruct (Hix i b Hb) as (z & Hz & Iz). exists z. rewrite N1; [done|]. intros ->. apply Ha.
        by eapply list_elem_of_lookup_2.
      + apply list_lookup_singleton_Some in Hb as [Hi <-]. exists y. split; [done|]. rewrite I. f_equal. lia. }
  assert (Hkey : forall c, (c < length (topk h))%nat -> key h1 c = key h c).
  { intros c Hc. unfold key. f_equal. apply countOf_keys; [done|done|cbn; by apply lookup_app_l]. }
  destruct (up_spec (S (length (topk h) + 1)) h1 (length (topk h)) Hs1) as (h' & -> & Hs' & (P & L & S') & Ho');
    [cbn; rewrite length_app; cbn; lia|lia| |].
  - split; cbn [topk h1]; rewrite length_app; cbn [length].
    + intros c Hc Hne. pose proof (par_lt c). rewrite !Hkey by lia. apply Ho. lia.
    + intros c Hc Hp Hpos. pose proof (par_lt c). lia.
  - exists h'. split_and!; [done|by split|rewrite P; cbn; apply Permutation_app_comm|cbn in L; congruence|].
    intros b. rewrite S'. apply K1.
Qed.

Lemma Swap_same h i : shape h -> (i < length (topk h))%nat ->
  exists h', Swap h i i = Some h' /\ shape h' /\ keeps h h' /\ topk h' = topk h.
Proof.
  intros [Hnd Hix] Hi. destruct (lookup_lt_is_Some_2 _ _ Hi) as [a Ha]. unfold Swap. rewrite Ha. cbn [mbind option_bind].
  destruct (Hix i a Ha) as (xa & Hxa & _).
  destruct (setIndex_spec (store h) a (Z.of_nat i)) as (s1 & -> & L1 & K1 & (y1 & Y1 & I1) & N1);
    [by eapply lookup_lt_Some|]. cbn [mbind option_bind].
  destruct (setIndex_spec s1 a (Z.of_nat i)) as (s2 & -> & L2 & K2 & (y2 & Y2 & I2) & N2);
    [rewrite L1; by eapply lookup_lt_Some|]. cbn [mbind option_bind].
  rewrite list_insert_insert_eq, list_insert_id by done. eexists. split; [done|]. split; [|split; [|done]].
  - split; cbn; [done|]. intros c d Hd. destruct (decide (d = a)) as [->|Hda].
    + exists y2. split; [done|]. rewrite I2. f_equal. by eapply NoDup_lookup.
    + rewrite N2, N1 by done. by apply Hix.
  - split_and!; cbn; [done|congruence|]. intros c. by rewrite K2.
Qed.

Lemma Swap_root h n : shape h -> (n < length (topk h))%nat ->
  exists h', Swap h 0 n = Some h' /\ shape h' /\ keeps h h' /\
    topk h' !! n = topk h !! 0%nat /\ forall c, c <> 0%nat -> (c < n)%nat -> key h' c = key h c.
Proof.
  intros Hs Hn. destruct (decide (n = 0%nat)) as [->|H0].
  - destruct (Swap_same h 0 Hs Hn) as (h' & E & Hs' & Hk & Ht). exists h'. rewrite Ht. split_and!; try done. lia.
  - destruct (Swap_spec h 0 n Hs) as (h' & E & Hs' & Hk & _ & _ & C3 & _ & _ & T2); [lia|lia|lia|].
    exists h'. split_and!; try done. intros c Hc Hcn. unfold key. rewrite C3; [done|done|lia].
Qed.

Lemma heap_Pop_spec h : heap_ok h -> topk h <> [] ->
  exists h' a, Pop h = Some (h', a) /\ heap_ok h' /\ topk h !! 0%nat = Some a /\ topk h ≡ₚ a :: topk h' /\
    length (store h') = length (store h) /\
    forall b, (fun x => (val x, count x)) <$> store h' !! b = (fun x => (val x, count x)) <$> store h !! b.
Proof.
  intros [Hs Ho] Hne. assert (Hlen : (0 < length (topk h))%nat) by (destruct (topk h); [done|cbn; lia]).
  set (n := (length (topk h) - 1)%nat). unfold Pop. fold n.
  destruct (Swap_root h n Hs) as (h1 & -> & Hs1 & (P1 & L1 & K1) & T1 & C1); [lia|]. cbn [mbind option_bind].
  assert (Hlen1 : length (topk h1) = length (topk h)) by by rewrite P1.
  destruct (down_spec (S n) h1 0 n Hs1) as (h2 & i' & -> & Hs2 & (P2 & L2 & K2) & Ho2 & T2 & _); [lia|lia|lia|lia| |].
  { split; [|lia]. intros c Hc Hp. rewrite !C1; [apply Ho; lia|lia|lia|done|pose proof (par_lt c); lia]. }
  cbn [mbind option_bind]. assert (Hlen2 : length (topk h2) = length (topk h)) by by rewrite P2.
  destruct (lookup_lt_is_Some_2 (topk h) 0) as [a Ha]; [done|].
  assert (Hlast : topk h2 !! n = Some a).
  { destruct (decide (n = 0%nat)) as [E|E]; [|rewrite T2 by lia; congruence].
    rewrite E in *. assert (exists b, topk h2 = [b]) as [b Eb] by (destruct (topk h2) as [|b [|]]; cbn in Hlen2; try lia; by exists b).
    assert (exists b, topk h = [b]) as [d Ed] by (destruct (topk h) as [|d [|]]; cbn in *; try lia; by exists d).
    rewrite Eb, Ed in *. rewrite P1 in P2. apply Permutation_singleton_r in P2. cbn in *. congruence. }
  unfold popBack. rewrite last_lookup, Hlen2. replace (Init.Nat.pred (length (topk h))) with n by lia. rewrite Hlast.
  cbn [mbind option_bind]. destruct (shape_index _ Hs2 n a Hlast) as (x & Hx & _).
  destruct (setIndex_spec (store h2) a (-1)) as (s3 & -> & L3 & K3 & _ & N3); [by eapply lookup_lt_Some|].
  cbn [mbind option_bind]. fold n. eexists _, a. split; [done|].
  assert (Hsplit : topk h2 = take n (topk h2) ++ [a]).
  { rewrite <- (take_drop n (topk h2)) at 1. f_equal. rewrite (drop_S _ a) by done.
    rewrite drop_ge by lia. done. }
  assert (Hnd : NoDup (take n (topk h2)) /\ a ∉ take n (topk h2)).
  { pose proof (shape_nodup _ Hs2) as Hnd. rewrite Hsplit in Hnd. apply NoDup_app in Hnd as (A & B & _).
    split; [done|]. intros Hin. apply (B a Hin). by apply list_elem_of_singleton. }
  destruct Hnd as [Hnd Hna]. split_and!; cbn [topk store]; [|done| |congruence|].
  - split.
    + split; cbn [topk store]; [done|]. intros i b Hb. assert (Hb2 := Hb). apply lookup_take_Some in Hb as [Hb _].
      destruct (shape_index _ Hs2 i b Hb) as (z & Hz & Iz). exists z. rewrite N3; [done|]. intros ->. apply Hna.
      by eapply list_elem_of_lookup_2.
    + cbn [topk]. rewrite length_take. intros c Hc.
      assert (Hk : forall d, (d < n)%nat -> key (mkHeap s3 (take n (topk h2))) d = key h2 d).
      { intros d Hd. unfold key. f_equal. apply countOf_keys; [done|done|cbn; by apply lookup_take_lt]. }
      pose proof (par_lt c). rewrite !Hk by lia. apply Ho2. lia.
  - transitivity (topk h2); [by rewrite P2, P1|]. rewrite Hsplit at 1. by rewrite Permutation_app_comm.
  - intros b. rewrite K3, K2. apply K1.
Qed.

Lemma ordered_is_up h j : heap_ok h -> (j < length (topk h))%nat -> ordered_up h j.
Proof.
  intros [_ Ho] Hj. split; [intros c Hc _; by apply Ho|]. intros c Hc Hp Hj0.
  pose proof (Ho c Hc). pose proof (Ho j ltac:(lia)). rewrite Hp in *. lia.
Qed.

Lemma Fix_spec h i : shape h -> (i < length (topk h))%nat -> ordered_down h i (length (topk h)) ->
  exists h', Fix h i = Some h' /\ heap_ok h' /\ keeps h h'.
Proof.
  intros Hs Hi Hd. unfold Fix.
  destruct (down_spec (S (length (topk h))) h i (length (topk h)) Hs) as (h1 & i' & -> & Hs1 & Hk & Ho & _ & Hle & Hsame);
    [lia|done|lia|lia|done|]. cbn [mbind option_bind].
  assert (Hl : length (topk h1) = length (topk h)) by by destruct Hk as [-> _].
  destruct (Nat.ltb_spec i i') as [Hlt|Hge]; [exists h1; split_and!; [done|split; [done|by rewrite Hl]|apply Hk..]|].
  assert (Hok : heap_ok h1) by (split; [done|by rewrite Hl]).
  rewrite (Hsame ltac:(lia)) in *.
  destruct (up_spec (S (length (topk h))) h i Hs Hi ltac:(lia) (ordered_is_up h i Hok Hi)) as (h' & -> & Hs' & Hk' & Ho').
  exists h'. split_and!; [done|by split|apply Hk'..].
Qed.

(** ** HeavyKeepers *)

Definition defaultDepth : Z := 7.
(** The float nearest to 0.9. *)
Definition defaultDecay : float64 := S754_finite false 8106479329266893 (-53).

Record node := mkNode { fp : Z; ncount : Z }.

Record HeavyKeepers := mkHK {
  hk_k : Z; width : Z; depth : Z; decay : float64;
  rows : list (list node); minHeap : heap; items : gmap string nat;
}.

Definition New (k w d : Z) (dec : float64) : HeavyKeepers :=
  let d := if d =? 0 then defaultDepth else d in
  let dec := if feqb dec fzero then defaultDecay else dec in
  mkHK k w d dec (replicate (Z.to_nat d) (replicate (Z.to_nat w) (mkNode 0 0))) (mkHeap [] []) ∅.

(** The loop of [fastDecayPow]; an exponent has at most 64 bits. *)
Fixpoint powLoop (fuel : nat) (result base : float64) (exp : Z) : float64 :=
  match fuel with
  | O => result
  | S f =>
      if 0 <? exp then
        let result := if Z.land exp 1 =? 1 then fmul result base else result in
        powLoop f result (fmul base base) (Z.shiftr exp 1)
      else result
  end.

Definition fastDecayPow (base : float64) (exp : Z) : float64 := powLoop 64 (f64_of_Z 1) base exp.

(** The loop halves its exponent: the number of its bits is enough fuel, so 64
    steps finish it for every unsigned exponent and more change nothing. *)
Lemma powLoop_enough (n : nat) m result base exp :
  0 <= exp < 2 ^ Z.of_nat n -> powLoop (n + m) result base exp = powLoop n result base exp.
Proof.
  revert m result base exp. induction n as [|n IH]; intros m result base exp He.
  - replace exp with 0 by lia. by destruct m.
  - cbn [Nat.add powLoop]. destruct (0 <? exp) eqn:E; [|done]. apply IH.
    rewrite Z.shiftr_div_pow2 by lia. change (2 ^ 1) with 2.
    split; [apply Z.div_pos; lia|]. apply Z.div_lt_upper_bound; [lia|].
    rewrite Nat2Z.inj_succ, Z.pow_succ_r in He by lia. lia.
Qed.

(** What an addition does to the cell it meets: the new cell and the new
    maximum; [draw] is the random number of the row. *)
Definition touch (dec draw : float64) (f : Z) (cell : node) (maxCount : Z) : node * Z :=
  let atLeast1 := if maxCount <? 1 then 1 else maxCount in
  if ncount cell =? 0 then (mkNode f 1, atLeast1)
  else if fp cell =? f then
    let c := u64 (ncount cell + 1) in
    (mkNode (fp cell) c, if maxCount <? c then c else maxCount)
  else if fltb draw (fastDecayPow dec (ncount cell)) then
    let c := ncount cell - 1 in
    if c =? 0 then (mkNode f 1, atLeast1) else (mkNode (fp cell) c, maxCount)
  else (cell, maxCount).

Section keepers.
Context (sum64 : string -> Z) (hashSeed : string -> Z -> Z).

(** The rows from [i] on. *)
Fixpoint rowLoop (n : nat) (i : Z) (dec : float64) (draw : Z -> float64) (w : Z) (item : string)
    (rs : list (list node)) (maxCount : Z) : option (list (list node) * Z) :=
  match n with
  | O => Some (rs, maxCount)
  | S n =>
      if w =? 0 then None else
      let idx := hashSeed item i mod w in
      row ← zget rs i;
      cell ← zget row idx;
      let '(cell, maxCount) := touch dec (draw i) (sum64 item) cell maxCount in
      row ← zset row idx cell;
      rs ← zset rs i row;
      rowLoop n (i + 1) dec draw w item rs maxCount
  end.

(** A new heap item, by its address. *)
Definition alloc (h : heap) (v : string) (c : Z) : heap * nat :=
  (mkHeap (store h ++ [mkItem v c 0]) (topk h), length (store h)).

Definition setHeap (hk : HeavyKeepers) (h : heap) (m : gmap string nat) : HeavyKeepers :=
  mkHK (hk_k hk) (width hk) (depth hk) (decay hk) (rows hk) h m.

Definition updateHeap (hk : HeavyKeepers) (v : string) (c : Z) : option HeavyKeepers :=
  let h := minHeap hk in
  match items hk !! v with
  | Some a =>
      x ← store h !! a;
      if count x <? c then
        let h := mkHeap (<[a := mkItem (val x) c (index x)]> (store h)) (topk h) in
        h ← Fix h (Z.to_nat (index x));
        Some (setHeap hk h (items hk))
      else Some hk
  | None =>
      if u32 (zlen (topk h)) <? hk_k hk then
        let '(h, a) := alloc h v c in
        h ← Push h a;
        Some (setHeap hk h (<[v := a]> (items hk)))
      else
        least ← countOf h 0;
        if least <? c then
          '(h, r) ← Pop h;
          removed ← store h !! r;
          let m := delete (val removed) (items hk) in
          let '(h, a) := alloc h v c in
          h ← Push h a;
          Some (setHeap hk h (<[v := a]> m))
        else Some hk
  end.

Definition Add (hk : HeavyKeepers) (draw : Z -> float64) (item : string) : option HeavyKeepers :=
  '(rs, maxCount) ← rowLoop (Z.to_nat (depth hk)) 0 (decay hk) draw (width hk) item (rows hk) 0;
  updateHeap (mkHK (hk_k hk) (width hk) (depth hk) (decay hk) rs (minHeap hk) (items hk)) item maxCount.

Definition Query (hk : HeavyKeepers) (item : string) : bool := bool_decide (is_Some (items hk !! item)).

Definition List_ (hk : HeavyKeepers) : list string :=
  (fun a => from_option val EmptyString (store (minHeap hk) !! a)) <$> topk (minHeap hk).

(** *** Invariant *)

(** The number of additions with fingerprint [f]. *)
Definition times (l : list string) (f : Z) : Z := zlen (filter (fun x => sum64 x = f) l).

Definition tracked (h : heap) (v : string) (c : Z) : Prop :=
  exists a x, a ∈ topk h /\ store h !! a = Some x /\ val x = v /\ count x = c.

Record heap_part (h : heap) (m : gmap string nat) (k : Z) : Prop := {
  hp_heap : heap_ok h;
  hp_items : forall v a, m !! v = Some a <-> a ∈ topk h /\ exists x, store h !! a = Some x /\ val x = v;
  hp_size : zlen (topk h) <= k;
}.

Record cells_part (hk : HeavyKeepers) (l : list string) : Prop := {
  cp_depth : zlen (rows hk) = depth hk;
  cp_width : forall i row, zget (rows hk) i = Some row -> zlen row = width hk;
  cp_cells : forall i row j cell, zget (rows hk) i = Some row -> zget row j = Some cell ->
    0 <= ncount cell <= times l (fp cell);
}.

Lemma times_nonneg l f : 0 <= times l f.
Proof. apply zlen_nonneg. Qed.

Lemma times_cons x l f : times (x :: l) f = (if decide (sum64 x = f) then 1 else 0) + times l f.
Proof. unfold times, zlen. rewrite filter_cons. case_decide; cbn [length]; lia. Qed.

(** A cell never counts more than the additions of its fingerprint. *)
Lemma touch_spec dec draw l item cell mx :
  0 <= ncount cell <= times l (fp cell) -> 0 <= mx <= times (item :: l) (sum64 item) ->
  let '(cell', mx') := touch dec draw (sum64 item) cell mx in
  0 <= ncount cell' <= times (item :: l) (fp cell') /\ 0 <= mx' <= times (item :: l) (sum64 item).
Proof.
  intros Hc Hm. unfold touch. pose proof (times_cons item l (sum64 item)) as T1. rewrite decide_True in T1 by done.
  pose proof (times_nonneg l (sum64 item)). pose proof (times_cons item l (fp cell)) as T2.
  assert (H1 : 0 <= (if mx <? 1 then 1 else mx) <= times (item :: l) (sum64 item))
    by (destruct (Z.ltb_spec mx 1); lia).
  destruct (Z.eqb_spec (ncount cell) 0); [cbn [ncount fp]; lia|]. destruct (Z.eqb_spec (fp cell) (sum64 item)) as [E|E].
  - rewrite E in *. rewrite decide_True in T2 by done. cbn [ncount fp].
    assert (0 <= u64 (ncount cell + 1) <= ncount cell + 1) by (unfold u64; split; [apply Z.mod_pos_bound; lia|apply Z.mod_le; lia]).
    destruct (Z.ltb_spec mx (u64 (ncount cell + 1))); cbn; lia.
  - assert (Hge : times l (fp cell) <= times (item :: l) (fp cell)) by (case_decide; lia).
    destruct (fltb draw _); [|lia]. destruct (Z.eqb_spec (ncount cell - 1) 0); cbn [ncount fp]; lia.
Qed.

Definition cells_at (w : Z) (rs : list (list node)) (bound : Z -> list string) : Prop :=
  (forall i row, zget rs i = Some row -> zlen row = w) /\
  (forall i row j cell, zget rs i = Some row -> zget row j = Some cell -> 0 <= ncount cell <= times (bound i) (fp cell)).

Lemma rowLoop_spec n : forall i dec draw w item rs mx l,
  1 <= w -> 0 <= i -> i + Z.of_nat n = zlen rs ->
  cells_at w rs (fun r => if r <? i then item :: l else l) -> 0 <= mx <= times (item :: l) (sum64 item) ->
  exists rs' mx', rowLoop n i dec draw w item rs mx = Some (rs', mx') /\ zlen rs' = zlen rs /\
    cells_at w rs' (fun _ => item :: l) /\ 0 <= mx' <= times (item :: l) (sum64 item).
Proof.
  induction n as [|n IH]; intros i dec draw w item rs mx l Hw Hi Hn [W C] Hm; cbn [rowLoop].
  { exists rs, mx. split_and!; try done; try lia. split; [done|]. intros r row j cell Hr Hj. specialize (C r row j cell Hr Hj).
    assert (r < zlen rs) by (apply Z.nle_gt; intros Hx; by rewrite zget_None in Hr).
    by rewrite (proj2 (Z.ltb_lt r i)) in C by lia. }
  rewrite (proj2 (Z.eqb_neq w 0)) by lia. set (idx := hashSeed item i mod w).
  assert (Hidx : 0 <= idx < w) by (apply Z.mod_pos_bound; lia). clearbody idx.
  destruct (zget_Some rs i) as [row Hrow]; [lia|]. rewrite Hrow. cbn [mbind option_bind].
  pose proof (W i row Hrow) as Hlen. destruct (zget_Some row idx) as [cell Hcell]; [lia|]. rewrite Hcell. cbn [mbind option_bind].
  pose proof (C i row idx cell Hrow Hcell) as Hc. rewrite Z.ltb_irrefl in Hc.
  pose proof (touch_spec dec (draw i) l item cell mx Hc Hm) as Ht.
  destruct (touch dec (draw i) (sum64 item) cell mx) as [cell' mx']. destruct Ht as [Hc' Hm'].
  destruct (zset row idx cell') as [row'|] eqn:E1; [|by rewrite zset_Some in E1 by lia]. cbn [mbind option_bind].
  destruct (zset rs i row') as [rs'|] eqn:E2; [|by rewrite zset_Some in E2 by lia]. cbn [mbind option_bind].
  pose proof (fun k => zset_get row idx cell' row' k E1) as G1. pose proof (fun k => zset_get rs i row' rs' k E2) as G2.
  destruct (G1 0) as [L1 _]. destruct (G2 0) as [L2 _].
  destruct (IH (i + 1) dec draw w item rs' mx' l Hw) as (rs2 & mx2 & -> & L3 & Hcells & Hm2); [lia|lia| |done|].
  - split.
    + intros r row2 Hr. destruct (G2 r) as [_ Eg]. rewrite Eg in Hr. destruct (Z.eqb_spec r i); [injection Hr as <-; lia|by eapply W].
    + intros r row2 j c2 Hr Hj. destruct (G2 r) as [_ Eg]. rewrite Eg in Hr. destruct (Z.eqb_spec r i) as [->|Hne].
      * injection Hr as <-. rewrite (proj2 (Z.ltb_lt i (i + 1))) by lia. destruct (G1 j) as [_ Ej]. rewrite Ej in Hj.
        destruct (Z.eqb_spec j idx); [injection Hj as <-; done|]. specialize (C i row j c2 Hrow Hj).
        rewrite Z.ltb_irrefl in C. rewrite times_cons. case_decide; lia.
      * specialize (C r row2 j c2 Hr Hj). destruct (Z.ltb_spec r i), (Z.ltb_spec r (i + 1)); done || lia.
  - exists rs2, mx2. split_and!; [done|lia|done..|lia|lia].
Qed.

(** *** The heap and the dictionary *)

(** Every item in the heap satisfies [Q] of its value and count. *)
Definition content (h : heap) (Q : string -> Z -> Prop) : Prop :=
  forall a x, a ∈ topk h -> store h !! a = Some x -> Q (val x) (count x).

Lemma shape_store h a : shape h -> a ∈ topk h -> exists x, store h !! a = Some x.
Proof. intros [_ Hi] [i Ha]%list_elem_of_lookup. destruct (Hi i a Ha) as (x & Hx & _). by exists x. Qed.

Lemma same_fields (h h' : heap) a x' :
  (fun x => (val x, count x)) <$> store h' !! a = (fun x => (val x, count x)) <$> store h !! a ->
  store h' !! a = Some x' -> exists x, store h !! a = Some x /\ val x = val x' /\ count x = count x'.
Proof. intros E Hx. rewrite Hx in E. destruct (store h !! a) as [x|]; [|done]. cbn in E. exists x. by simplify_eq. Qed.

(** Items in a dictionary do not depend on the order of the heap. *)
Lemma items_keep h h' (m : gmap string nat) :
  (forall v a, m !! v = Some a <-> a ∈ topk h /\ exists x, store h !! a = Some x /\ val x = v) ->
  keeps h h' ->
  forall v a, m !! v = Some a <-> a ∈ topk h' /\ exists x, store h' !! a = Some x /\ val x = v.
Proof.
  intros Hi (P & _ & K) v a. rewrite Hi, P. apply and_iff_compat_l. specialize (K a).
  split; intros (x & Hx & Hv); rewrite Hx in K.
  - destruct (store h' !! a) as [y|] eqn:E; [|done]. cbn in K. exists y. split; [done|]. by simplify_eq.
  - destruct (store h !! a) as [y|] eqn:E; [|done]. cbn in K. exists y. split; [done|]. by simplify_eq.
Qed.

Lemma push_part h m k v c (Q : string -> Z -> Prop) :
  heap_part h m k -> m !! v = None -> zlen (topk h) < k -> content h Q -> Q v c ->
  let '(h1, a) := alloc h v c in
  exists h', Push h1 a = Some h' /\ heap_part h' (<[v := a]> m) k /\ content h' Q /\
    zlen (topk h') = zlen (topk h) + 1.
Proof.
  intros [[Hs Ho] Hi Hz] Hv Hk HQ Hvc. unfold alloc. set (a := length (store h)).
  set (h1 := mkHeap (store h ++ [mkItem v c 0]) (topk h)).
  assert (Hold : forall b, b ∈ topk h -> (b < a)%nat /\ store h1 !! b = store h !! b).
  { intros b Hb. destruct (shape_store h b Hs Hb) as [x Hx]. pose proof (lookup_lt_Some _ _ _ Hx).
    split; [done|]. cbn. by apply lookup_app_l. }
  assert (Ha : store h1 !! a = Some (mkItem v c 0)) by (cbn; rewrite lookup_app_r, Nat.sub_diag by lia; done).
  assert (Hfresh : a ∉ topk h) by (intros Hin; destruct (Hold a Hin); lia).
  assert (Hok1 : heap_ok h1).
  { split.
    - split; [apply Hs|]. cbn. intros i b Hb. destruct (shape_index _ Hs i b Hb) as (x & Hx & Ix). exists x.
      split; [|done]. rewrite <- Hx. apply Hold. by eapply list_elem_of_lookup_2.
    - assert (Hkey : forall j, key h1 j = key h j).
      { intros j. unfold key, countOf. cbn [topk h1]. destruct (topk h !! j) as [b|] eqn:E; [|done].
        cbn [mbind option_bind]. rewrite (proj2 (Hold b (list_elem_of_lookup_2 _ _ _ E))). done. }
      intros j Hj. rewrite !Hkey. by apply Ho. }
  destruct (heap_Push_spec h1 a _ Hok1 Hfresh Ha) as (h' & -> & Hok' & P & L & K). cbn [topk h1] in P.
  exists h'. split; [done|].
  assert (Hview : forall b x', b ∈ topk h' -> store h' !! b = Some x' ->
    (b = a /\ val x' = v /\ count x' = c) \/
    (b ∈ topk h /\ b <> a /\ exists x, store h !! b = Some x /\ val x = val x' /\ count x = count x')).
  { intros b x' Hb Hx. destruct (same_fields h1 h' b x' (K b) Hx) as (x & Hx1 & Hv1 & Hc1).
    rewrite P in Hb. apply elem_of_cons in Hb as [->|Hb].
    - left. rewrite Ha in Hx1. injection Hx1 as <-. by split_and!.
    - right. split; [done|]. split; [intros ->; done|]. exists x. rewrite <- (proj2 (Hold b Hb)). by split_and!. }
  split_and!.
  - split; [done| |unfold zlen in *; rewrite P; cbn; lia].
    intros u b. destruct (decide (u = v)) as [->|Huv].
    + rewrite lookup_insert_eq. split.
      * intros [= <-]. split; [rewrite P; by left|]. destruct (store h' !! a) as [x|] eqn:E.
        -- exists x. split; [done|]. destruct (same_fields h1 h' a x (K a) E) as (y & Hy & Ev & _).
           rewrite Ha in Hy. by injection Hy as <-.
        -- pose proof (K a) as Ka. rewrite E, Ha in Ka. done.
      * intros (Hb & x & Hx & Hvx). f_equal. destruct (Hview b x Hb Hx) as [(-> & _)|(Hbo & _ & y & Hy & Ey & _)]; [done|].
        exfalso. assert (m !! v = Some b) by (apply Hi; split; [done|]; exists y; split; [done|congruence]). congruence.
    + rewrite lookup_insert_ne, Hi by done. split.
      * intros (Hb & x & Hx & Hvx). split; [rewrite P; by right|].
        pose proof (K b) as Kb. rewrite (proj2 (Hold b Hb)), Hx in Kb.
        destruct (store h' !! b) as [y|]; [|done]. cbn in Kb. exists y. split; [done|]. by simplify_eq.
      * intros (Hb & x & Hx & Hvx). destruct (Hview b x Hb Hx) as [(_ & Ev & _)|(Hbo & _ & y & Hy & Ey & _)]; [congruence|].
        split; [done|]. exists y. split; [done|congruence].
  - intros b x Hb Hx. destruct (Hview b x Hb Hx) as [(_ & -> & ->)|(Hbo & _ & y & Hy & <- & <-)]; [done|by eapply HQ].
  - unfold zlen. rewrite P. cbn. lia.
Qed.

Lemma pop_part h m k (Q : string -> Z -> Prop) :
  heap_part h m k -> topk h <> [] -> content h Q ->
  exists h' r x, Pop h = Some (h', r) /\ store h' !! r = Some x /\ is_Some (m !! val x) /\
    heap_part h' (delete (val x) m) k /\ content h' Q /\ zlen (topk h') = zlen (topk h) - 1.
Proof.
  intros [Hok Hi Hz] Hne HQ. destruct (heap_Pop_spec h Hok Hne) as (h' & r & E & Hok' & Hr & P & L & K).
  assert (Hrin : r ∈ topk h) by by eapply list_elem_of_lookup_2.
  destruct (shape_store h r (proj1 Hok) Hrin) as [x0 Hx0].
  destruct (store h' !! r) as [x|] eqn:Hx; [|pose proof (K r) as Kr; by rewrite Hx, Hx0 in Kr].
  destruct (same_fields h h' r x (K r) Hx) as (x1 & Hx1 & Ev & Ec). rewrite Hx0 in Hx1. injection Hx1 as <-.
  assert (Hmr : m !! val x = Some r) by (apply Hi; split; [done|]; by exists x0).
  exists h', r, x. split_and!; [done|done|by eexists| | |unfold zlen; rewrite P; cbn; lia].
  - split; [done| |unfold zlen in *; rewrite P in Hz; cbn in Hz; lia].
    assert (Hnr : r ∉ topk h').
    { pose proof (shape_nodup _ (proj1 Hok)) as Hnd. rewrite P in Hnd. by apply NoDup_cons in Hnd as [? _]. }
    intros u b. rewrite lookup_delete_Some, Hi. split.
    + intros (Hu & Hb & y & Hy & Hvy). rewrite P in Hb. apply elem_of_cons in Hb as [->|Hb].
      * exfalso. apply Hu. congruence.
      * split; [done|]. pose proof (K b) as Kb. rewrite Hy in Kb. destruct (store h' !! b) as [z|]; [|done]. cbn in Kb.
        exists z. split; [done|]. by simplify_eq.
    + intros (Hb & y & Hy & Hvy). destruct (same_fields h h' b y (K b) Hy) as (z & Hz' & Ez & _).
      assert (Hbh : b ∈ topk h) by (rewrite P; by right).
      split; [|split; [done|]; exists z; split; [done|congruence]].
      intros Heq. assert (m !! val x = Some b) by (apply Hi; split; [done|]; exists z; split; [done|congruence]).
      congruence.
  - intros b y Hb Hy. destruct (same_fields h h' b y (K b) Hy) as (z & Hz' & <- & <-). eapply HQ; [|done]. rewrite P. by right.
Qed.

Lemma fix_part h m k v a x c (Q : string -> Z -> Prop) :
  heap_part h m k -> m !! v = Some a -> store h !! a = Some x -> count x < c -> content h Q -> Q v c ->
  exists h', Fix (mkHeap (<[a := mkItem (val x) c (index x)]> (store h)) (topk h)) (Z.to_nat (index x)) = Some h' /\
    heap_part h' m k /\ content h' Q /\ zlen (topk h') = zlen (topk h).
Proof.
  intros [[Hs Ho] Hi Hz] Hv Hx Hlt HQ Hvc. set (h1 := mkHeap _ _).
  destruct (proj1 (Hi v a) Hv) as (Hin & x' & Hx' & Hvx). rewrite Hx in Hx'. injection Hx' as <-.
  apply list_elem_of_lookup in Hin as [i Hia]. destruct (shape_index _ Hs i a Hia) as (x' & Hx' & Hix).
  rewrite Hx in Hx'. injection Hx' as <-. rewrite Hix, Nat2Z.id.
  assert (Hil : (i < length (topk h))%nat) by by eapply lookup_lt_Some.
  assert (Hal : (a < length (store h))%nat) by by eapply lookup_lt_Some.
  assert (Hs1 : shape h1).
  { split; [apply Hs|]. cbn. intros j b Hb. destruct (shape_index _ Hs j b Hb) as (y & Hy & Iy).
    destruct (decide (b = a)) as [->|Hba]; [|exists y; by rewrite list_lookup_insert_ne].
    rewrite list_lookup_insert_eq by done. eexists. split; [done|]. cbn. rewrite Hx in Hy. by injection Hy as <-. }
  assert (Hkey : forall j, (j < length (topk h))%nat -> key h1 j = if decide (j = i) then c else key h j).
  { intros j Hj. unfold key, countOf. cbn [topk store h1]. destruct (lookup_lt_is_Some_2 _ _ Hj) as [b Hb].
    rewrite Hb. cbn [mbind option_bind]. case_decide as Hji.
    - subst j. assert (b = a) as -> by congruence. by rewrite list_lookup_insert_eq.
    - rewrite list_lookup_insert_ne; [done|]. intros ->. apply Hji. by eapply NoDup_lookup; [apply Hs|..]. }
  assert (Hki : key h i < c) by (unfold key, countOf; rewrite Hia; cbn [mbind option_bind]; by rewrite Hx).
  destruct (Fix_spec h1 i Hs1 Hil) as (h' & -> & Hok' & Hk).
  { cbn [topk h1]. split.
    - intros j Hj Hp. pose proof (par_lt j). rewrite !Hkey by lia. rewrite decide_False by done.
      pose proof (Ho j Hj). case_decide; [subst; lia|done].
    - intros j Hj Hp Hi0. pose proof (par_lt j). pose proof (par_lt i). rewrite !Hkey by lia.
      rewrite !decide_False by lia. pose proof (Ho i ltac:(lia)). pose proof (Ho j ltac:(lia)). rewrite Hp in *. lia. }
  assert (Hi1 : forall u b, m !! u = Some b <-> b ∈ topk h1 /\ exists y, store h1 !! b = Some y /\ val y = u).
  { intros u b. rewrite Hi. cbn [topk store h1]. apply and_iff_compat_l. destruct (decide (b = a)) as [->|Hba].
    - rewrite list_lookup_insert_eq by done. rewrite Hx. split; intros (y & [= <-] & Hy); by eexists.
    - by rewrite list_lookup_insert_ne. }
  exists h'. split; [done|]. split_and!.
  - split; [done|by apply (items_keep h1)|]. destruct Hk as [P _]. unfold zlen in *. by rewrite P.
  - destruct Hk as (P & _ & K). intros b y Hb Hy. destruct (same_fields h1 h' b y (K b) Hy) as (z & Hz' & <- & <-).
    rewrite P in Hb. cbn [topk store h1] in Hb, Hz'. destruct (decide (b = a)) as [->|Hba].
    + rewrite list_lookup_insert_eq in Hz' by done. injection Hz' as <-. cbn. by rewrite Hvx.
    + rewrite list_lookup_insert_ne in Hz' by done. by eapply HQ.
  - destruct Hk as [P _]. unfold zlen. by rewrite P.
Qed.

Record inv (hk : HeavyKeepers) (l : list string) : Prop := {
  inv_k : 1 <= hk_k hk < 2 ^ 32;
  inv_w : 1 <= width hk;
  inv_d : zlen (rows hk) = depth hk;
  inv_cells : cells_at (width hk) (rows hk) (fun _ => l);
  inv_heap : heap_part (minHeap hk) (items hk) (hk_k hk);
  inv_counts : content (minHeap hk) (fun v c => c <= times l (sum64 v));
  inv_size : Z.of_nat (size (items hk)) = zlen (topk (minHeap hk));
  inv_sound : forall v, is_Some (items hk !! v) -> v ∈ l;
  inv_complete : Z.of_nat (size (list_to_set l : gset string)) <= hk_k hk -> forall v, v ∈ l -> is_Some (items hk !! v);
}.

(** [updateHeap] on every branch: the value is tracked afterwards unless the
    heap is full of others with counts at least as large. *)
Lemma updateHeap_spec hk v c (Q : string -> Z -> Prop) :
  1 <= hk_k hk < 2 ^ 32 -> heap_part (minHeap hk) (items hk) (hk_k hk) -> content (minHeap hk) Q -> Q v c ->
  Z.of_nat (size (items hk)) = zlen (topk (minHeap hk)) ->
  exists h m, updateHeap hk v c = Some (setHeap hk h m) /\ heap_part h m (hk_k hk) /\ content h Q /\
    Z.of_nat (size m) = zlen (topk h) /\
    (forall u, is_Some (m !! u) -> u = v \/ is_Some (items hk !! u)) /\
    (is_Some (items hk !! v) \/ zlen (topk (minHeap hk)) < hk_k hk ->
     forall u, u = v \/ is_Some (items hk !! u) -> is_Some (m !! u)).
Proof.
  intros Hk Hp HQ Hvc Hsz. unfold updateHeap. pose proof Hp as [Hok Hi Hz]. pose proof (zlen_nonneg (topk (minHeap hk))).
  assert (Hsame : forall (P : Prop), exists h m, Some hk = Some (setHeap hk h m) /\ heap_part h m (hk_k hk) /\ content h Q /\
    Z.of_nat (size m) = zlen (topk h) /\ m = items hk).
  { intros _. exists (minHeap hk), (items hk). by destruct hk. }
  destruct (items hk !! v) as [a|] eqn:Ev.
  - destruct (proj1 (Hi v a) Ev) as (Hin & x & Hx & Hvx). rewrite Hx. cbn [mbind option_bind].
    assert (Hdom : forall u, u = v \/ is_Some (items hk !! u) -> is_Some (items hk !! u))
      by (intros u [->|Hu]; [by eexists|done]).
    destruct (Z.ltb_spec (count x) c) as [Hlt|Hge].
    + destruct (fix_part _ _ _ v a x c Q Hp Ev Hx Hlt HQ Hvc) as (h' & -> & Hp' & HQ' & Hl). cbn [mbind option_bind].
      exists h', (items hk). split_and!; [done|done|done|lia|by right|by intros _].
    + destruct (Hsame True) as (h & m & E & ? & ? & ? & ->). exists h, (items hk). split_and!; [done..|by right|by intros _].
  - assert (Hu32 : u32 (zlen (topk (minHeap hk))) = zlen (topk (minHeap hk))) by (unfold u32; apply Z.mod_small; lia).
    rewrite Hu32. destruct (Z.ltb_spec (zlen (topk (minHeap hk))) (hk_k hk)) as [Hroom|Hfull].
    + pose proof (push_part _ _ _ v c Q Hp Ev Hroom HQ Hvc) as Hpush. destruct (alloc (minHeap hk) v c) as [h1 a].
      destruct Hpush as (h' & -> & Hp' & HQ' & Hl). cbn [mbind option_bind].
      exists h', (<[v := a]> (items hk)). split_and!; [done|done|done| | |].
      * rewrite map_size_insert_None by done. lia.
      * intros u. destruct (decide (u = v)) as [->|Hu]; [by left|]. rewrite lookup_insert_ne by done. by right.
      * intros _ u Hu. destruct (decide (u = v)) as [->|Huv]; [rewrite lookup_insert_eq; by eexists|].
        rewrite lookup_insert_ne by done. by destruct Hu.
    + assert (Hne : topk (minHeap hk) <> []) by (intros E; rewrite E in Hfull; change (zlen []) with 0 in Hfull; lia).
      rewrite key_countOf by (apply Hok || (destruct (topk (minHeap hk)); [done|cbn; lia])). cbn [mbind option_bind].
      destruct (Z.ltb_spec (key (minHeap hk) 0) c) as [Hlt|Hge]; cycle 1.
      { destruct (Hsame True) as (h & m & E & ? & ? & ? & ->). exists h, (items hk).
        split_and!; [done..|by right|]. intros [[]|]; [done|lia]. }
      destruct (pop_part _ _ _ Q Hp Hne HQ) as (h1 & r & x & -> & Hx & Hxin & Hp1 & HQ1 & Hl1). cbn [mbind option_bind].
      rewrite Hx. cbn [mbind option_bind].
      assert (Ev1 : delete (val x) (items hk) !! v = None) by (apply lookup_delete_None; by right).
      pose proof (push_part h1 _ _ v c Q Hp1 Ev1 ltac:(lia) HQ1 Hvc) as Hpush. destruct (alloc h1 v c) as [h2 a].
      destruct Hpush as (h' & -> & Hp' & HQ' & Hl). cbn [mbind option_bind].
      exists h', (<[v := a]> (delete (val x) (items hk))). split_and!; [done|done|done| | |].
      * rewrite map_size_insert_None, map_size_delete_Some by done. pose proof (map_size_ne_0_lookup_2 (items hk)) as Hsz0.
        assert (size (items hk) <> 0%nat) by (destruct Hxin as [z Hz']; by eapply Hsz0). lia.
      * intros u. destruct (decide (u = v)) as [->|Hu]; [by left|]. rewrite lookup_insert_ne by done.
        intros [z Hz']. apply lookup_delete_Some in Hz' as [_ Hz']. right. by eexists.
      * intros [[]|]; [done|lia].
Qed.

Lemma Add_inv hk l draw item : inv hk l -> exists hk', Add hk draw item = Some hk' /\ hk_k hk' = hk_k hk /\ inv hk' (item :: l).
Proof.
  intros [Hk Hw Hd Hc Hp HQ Hsz Hsound Hcompl]. unfold Add. pose proof (zlen_nonneg (rows hk)).
  assert (Hlt : cells_at (width hk) (rows hk) (fun r => if r <? 0 then item :: l else l)).
  { destruct Hc as [W C]. split; [done|]. intros i row j cell Hi Hj. specialize (C i row j cell Hi Hj).
    destruct (Z.ltb_spec i 0) as [Hneg|]; [|done]. unfold zget in Hi. by rewrite bool_decide_false in Hi by lia. }
  destruct (rowLoop_spec (Z.to_nat (depth hk)) 0 (decay hk) draw (width hk) item (rows hk) 0 l Hw)
    as (rs & mx & -> & Hl & Hc' & Hm); [lia|lia|done| |].
  { pose proof (times_nonneg (item :: l) (sum64 item)). lia. }
  cbn [mbind option_bind]. set (hk1 := mkHK _ _ _ _ rs _ _).
  assert (HQ' : content (minHeap hk1) (fun v c => c <= times (item :: l) (sum64 v))).
  { intros a x Ha Hx. specialize (HQ a x Ha Hx). cbn beta in *. rewrite times_cons. case_decide; lia. }
  destruct (updateHeap_spec hk1 item mx _ Hk Hp HQ' (proj2 Hm) Hsz) as (h & m & -> & Hp' & HQ2 & Hsz' & Hin & Hout).
  cbn [hk1 hk_k items minHeap] in *. eexists. split; [done|]. split; [done|]. split; cbn [setHeap hk1 hk_k width depth rows minHeap items];
    try done; [lia| |].
  - intros v Hv. destruct (Hin v Hv) as [->|Hv']; [by left|right; by apply Hsound].
  - intros Hsize v Hv. set (S0 := list_to_set l : gset string).
    assert (Hs0 : Z.of_nat (size S0) <= hk_k hk).
    { etransitivity; [|exact Hsize]. apply inj_le, subseteq_size. cbn. set_solver. }
    specialize (Hcompl Hs0). apply Hout; [|apply elem_of_cons in Hv as [->|Hv]; [by left|right; by apply Hcompl]].
    destruct (decide (is_Some (items hk !! item))) as [|Hno]; [by left|]. right.
    assert (Hdom : dom (items hk) = S0).
    { apply set_eq. intros u. rewrite elem_of_dom. unfold S0. rewrite elem_of_list_to_set. split; [apply Hsound|apply Hcompl]. }
    rewrite <- Hsz, <- size_dom, Hdom.
    assert (Hnotin : item ∉ S0) by (rewrite <- Hdom, elem_of_dom; done).
    cbn in Hsize. fold S0 in Hsize. rewrite size_union, size_singleton in Hsize by set_solver. lia.
Qed.

Fixpoint run (hk : HeavyKeepers) (ops : list (string * (Z -> float64))) : option HeavyKeepers :=
  match ops with
  | [] => Some hk
  | (item, draw) :: ops => hk ← Add hk draw item; run hk ops
  end.

Lemma run_inv ops : forall hk l, inv hk l -> exists hk', run hk ops = Some hk' /\ hk_k hk' = hk_k hk /\ inv hk' (reverse ops.*1 ++ l).
Proof.
  induction ops as [|[item draw] ops IH]; intros hk l H; cbn [run]; [by exists hk|].
  destruct (Add_inv hk l draw item H) as (hk1 & -> & Hk1 & H1). cbn [mbind option_bind].
  destruct (IH hk1 _ H1) as (hk' & E & Hk' & H'). exists hk'. split; [done|]. split; [congruence|].
  rewrite fmap_cons, reverse_cons, <- app_assoc. done.
Qed.

Lemma New_inv k w d dec : 1 <= k < 2 ^ 32 -> 1 <= w -> 0 <= d -> inv (New k w d dec) [].
Proof.
  intros Hk Hw Hd. unfold New. set (d' := if d =? 0 then defaultDepth else d).
  assert (Hd' : 0 <= d') by (unfold d', defaultDepth; case_match; lia). split; cbn [hk_k width depth rows minHeap items]; try done.
  - unfold zlen. rewrite length_replicate. lia.
  - split.
    + intros i row Hi. unfold zget in Hi. case_bool_decide; [|done]. apply lookup_replicate in Hi as [-> _].
      unfold zlen. rewrite length_replicate. lia.
    + intros i row j cell Hi Hj. unfold zget in Hi, Hj. case_bool_decide; [|done]. case_bool_decide; [|done].
      apply lookup_replicate in Hi as [-> _]. apply lookup_replicate in Hj as [-> _]. cbn. unfold times, zlen. cbn. lia.
  - split; [|intros v a; split; [done|intros [[]%elem_of_nil _]]|cbn; unfold zlen; cbn; lia].
    split; [split; [constructor|done]|]. intros c Hc. cbn in Hc. lia.
  - intros v [a Ha]. done.
  - intros _ v Hv. by apply elem_of_nil in Hv.
Qed.

(** C29: for a [k] from 1 to 2^32 - 1 and a positive width, whatever is added and whatever
    the random numbers, adding never fails, the tracked items are at most [k] distinct
    added ones, and [Query] is membership in [List].  The heap is ordered, every item
    counting no less than its parent, so that the root has the least count; every item
    knows its position in the heap, and the dictionary leads exactly to the items of the
    heap.  No item is counted more often than its fingerprint was added, and as long as
    at most [k] distinct items were added, all of them are tracked. *)
Theorem topk_tracks k w d dec ops :
  1 <= k < 2 ^ 32 -> 1 <= w -> 0 <= d ->
  exists hk, run (New k w d dec) ops = Some hk /\
    NoDup (List_ hk) /\ zlen (List_ hk) <= k /\
    (forall v, Query hk v = true <-> v ∈ List_ hk) /\
    (forall v, v ∈ List_ hk -> v ∈ ops.*1) /\
    (Z.of_nat (size (list_to_set ops.*1 : gset string)) <= k -> forall v, v ∈ ops.*1 -> v ∈ List_ hk) /\
    (forall i, (0 < i < length (topk (minHeap hk)))%nat -> key (minHeap hk) (par i) <= key (minHeap hk) i) /\
    (forall i, (i < length (topk (minHeap hk)))%nat -> key (minHeap hk) 0 <= key (minHeap hk) i) /\
    (forall i a, topk (minHeap hk) !! i = Some a -> exists x, store (minHeap hk) !! a = Some x /\
       index x = Z.of_nat i /\ items hk !! val x = Some a) /\
    (forall v a, items hk !! v = Some a ->
       a ∈ topk (minHeap hk) /\ exists x, store (minHeap hk) !! a = Some x /\ val x = v) /\
    content (minHeap hk) (fun v c => c <= times ops.*1 (sum64 v)).
Proof.
  intros Hk Hw Hd. destruct (run_inv ops _ [] (New_inv k w d dec Hk Hw Hd)) as (hk & E & Hkk & H). rewrite app_nil_r in H.
  exists hk. split; [done|]. cbn [New hk_k] in Hkk.
  destruct H as [_ _ _ _ Hp HQ Hsz Hsound Hcompl]. pose proof Hp as [Hok Hi Hz]. rewrite Hkk in *.
  assert (Hmem : forall v, v ∈ List_ hk <-> is_Some (items hk !! v)).
  { intros v. unfold List_. rewrite list_elem_of_fmap. split.
    - intros (a & -> & Ha). destruct (shape_store _ a (proj1 Hok) Ha) as [x Hx]. rewrite Hx. cbn.
      exists a. apply Hi. split; [done|by exists x].
    - intros [a Ha]. apply Hi in Ha as (Hin & x & Hx & <-). exists a. by rewrite Hx. }
  split_and!.
  - unfold List_. apply NoDup_fmap_2_strong; [|apply (shape_nodup _ (proj1 Hok))]. intros a b Ha Hb Hab.
    destruct (shape_store _ a (proj1 Hok) Ha) as [x Hx]. destruct (shape_store _ b (proj1 Hok) Hb) as [y Hy].
    rewrite Hx, Hy in Hab. cbn in Hab.
    assert (E1 : items hk !! val x = Some a) by (apply Hi; split; [done|by exists x]).
    assert (E2 : items hk !! val x = Some b) by (apply Hi; split; [done|by exists y]). congruence.
  - unfold List_, zlen in *. by rewrite length_fmap.
  - intros v. unfold Query. rewrite bool_decide_eq_true. symmetry. apply Hmem.
  - intros v Hv. apply elem_of_reverse, Hsound. by apply Hmem.
  - intros Hsize v Hv. apply Hmem, Hcompl; [|by apply elem_of_reverse].
    etransitivity; [|exact Hsize]. apply inj_le, subseteq_size. intros u. rewrite !elem_of_list_to_set. apply elem_of_reverse.
  - apply Hok.
  - by apply root_least.
  - intros i a Ha. destruct (shape_index _ (proj1 Hok) i a Ha) as (x & Hx & Hix). exists x. split_and!; [done | done|].
    apply Hi. split; [by eapply list_elem_of_lookup_2 | by exists x].
  - intros v a. apply Hi.
  - intros a x Ha Hx. specialize (HQ a x Ha Hx). cbn beta in *. etransitivity; [exact HQ|]. unfold times, zlen.
    apply inj_le. rewrite (Permutation_length (filter_Permutation _ _ _ (reverse_Permutation ops.*1))). done.
Qed.
End keepers.

(** ** Examples *)

Definition demo_sum (s : string) : Z := Z.of_nat (String.length s).
Definition demo_seed (s : string) (i : Z) : Z := Z.of_nat (String.length s) + i.
Definition demo_ops : list (string * (Z -> float64)) :=
  (fun s => (s, fun _ => fzero)) <$> ["a"; "bb"; "a"; "ccc"; "ccc"; "ccc"; "a"]%string.

Lemma topk_tracks_witness :
  exists hk, run demo_sum demo_seed (New 2 4 0 fzero) demo_ops = Some hk /\
    NoDup (List_ hk) /\ zlen (List_ hk) <= 2 /\
    content (minHeap hk) (fun v c => c <= times demo_sum demo_ops.*1 (demo_sum v)).
Proof.
  destruct (topk_tracks demo_sum demo_seed 2 4 0 fzero demo_ops) as (hk & E & H1 & H2 & _ & _ & _ & _ & _ & _ & _ & H3); [lia|lia|lia|].
  exists hk. split_and!; [exact E|exact H1|exact H2|exact H3].
Defined.

Example topk_runs :
  List_ <$> run demo_sum demo_seed (New 2 4 0 fzero) demo_ops = Some ["a"; "ccc"]%string.
Proof. vm_compute. reflexivity. Qed.

(** With [k = 0] the first addition indexes the empty heap. *)
Theorem topk_zero_k_panics : run demo_sum demo_seed (New 0 4 0 fzero) [("a"%string, fun _ => fzero)] = None.
Proof. vm_compute. reflexivity. Qed.
