(* ===== verification/Web.v ===== *)
(** * Request helpers

    Pagination ([src/pkg/dto/pagination.go]), retrying with backoff
    ([src/pkg/common/http/request/retry.go]) and running functions
    concurrently ([src/pkg/common/http/request/fanout.go]).  What the called
    functions return, when a context is cancelled and in which order
    goroutines finish are arguments. *)

From stdpp Require Import base list option.
From Stdlib Require Import ZArith Lia.
From S2P Require Import Prelude.

#[local] Open Scope Z_scope.

(** ** Pagination *)

Module Page.

Record PaginationOptions := mkOptions { Page : Z; PageSize : Z }.

Definition SetDefaults (p : PaginationOptions) : PaginationOptions :=
  mkOptions (if Page p <=? 0 then 1 else Page p) (if PageSize p <=? 0 then 10 else PageSize p).

Record PaginationMeta := mkMeta {
  CurrentPage : Z; MetaPageSize : Z; TotalPages : Z; TotalItems : Z; HasNext : bool; HasPrev : bool;
}.

(** A page size of zero panics in the division. *)
Definition CalculatePagination (currentPage pageSize totalItems : Z) : option PaginationMeta :=
  if pageSize =? 0 then None else
  let totalPages := godiv (i64 (i64 (totalItems + pageSize) - 1)) pageSize in
  let currentPage := Z.min currentPage totalPages in
  let totalPages := if totalPages =? 0 then 1 else totalPages in
  Some (mkMeta currentPage pageSize totalPages totalItems (currentPage <? totalPages) (1 <? currentPage)).

(** The items of a page, by their numbers from zero. *)
Definition onPage (page pageSize n : Z) : Prop := (page - 1) * pageSize <= n < page * pageSize.

(** Paging over at least one item: the page shown is within the pages, every
    item is on exactly one page of them, there is a next page exactly when
    some item lies behind the page shown, and a previous one exactly when some
    item lies before it. *)
Theorem pagination_covers page pageSize totalItems :
  let p := SetDefaults (mkOptions page pageSize) in
  page < 2 ^ 62 -> pageSize < 2 ^ 62 -> 1 <= totalItems < 2 ^ 62 ->
  exists meta, CalculatePagination (Page p) (PageSize p) totalItems = Some meta /\
    1 <= CurrentPage meta <= TotalPages meta /\
    (forall n, 0 <= n < totalItems <->
       exists q, 1 <= q <= TotalPages meta /\ onPage q (PageSize p) n /\ n < totalItems) /\
    (HasNext meta = true <-> CurrentPage meta * PageSize p < totalItems) /\
    (HasPrev meta = true <-> 0 < (CurrentPage meta - 1) * PageSize p).
Proof.
  intros p Hpage Hsize Ht. assert (Hp : 1 <= Page p < 2 ^ 62) by (unfold p; cbn; zb; lia).
  assert (Hs : 1 <= PageSize p < 2 ^ 62) by (unfold p; cbn; zb; lia).
  set (s := PageSize p) in *. set (c := Page p) in *. clearbody c s. unfold CalculatePagination.
  rewrite (proj2 (Z.eqb_neq s 0)) by lia. rewrite (i64_small (totalItems + s)), i64_small by lia.
  unfold godiv. rewrite Z.quot_div_nonneg by lia. set (tp := (totalItems + s - 1) / s).
  pose proof (Z.div_mod (totalItems + s - 1) s ltac:(lia)) as Hd. pose proof (Z.mod_pos_bound (totalItems + s - 1) s ltac:(lia)) as Hm.
  fold tp in Hd. assert (Htp : 1 <= tp) by (apply Z.div_le_lower_bound; lia).
  rewrite (proj2 (Z.eqb_neq tp 0)) by lia. eexists. split; [done|]. cbn [CurrentPage TotalPages HasNext HasPrev].
  split; [lia|]. split_and!.
  - intros n. split.
    + intros Hn. exists (n / s + 1). unfold onPage. pose proof (Z.div_mod n s ltac:(lia)). pose proof (Z.mod_pos_bound n s ltac:(lia)).
      assert (0 <= n / s) by (apply Z.div_pos; lia). split_and!; nia.
    + intros (q & Hq & [H1 _] & H2). nia.
  - rewrite Z.ltb_lt. destruct (Z.min_spec c tp) as [[? ->]|[? ->]]; nia.
  - rewrite Z.ltb_lt. nia.
Qed.

(** Without items the page shown is 0 of 1, and a next page is announced. *)
Theorem pagination_empty_has_next :
  CalculatePagination 1 10 0 = Some (mkMeta 0 10 1 0 true false).
Proof. done. Qed.
End Page.

(** ** Retrying *)

Module Retry.

Definition defaultMaxRetries : Z := 3.

Section retry.
Context {T E : Type}.

Record RetryResult := mkResult { Value : option T; Err : option E; Attempts : Z }.

(** [fn i] is the outcome of call number [i], [cancelled i] the error of the
    context if it was done while waiting behind that call, [delay] the
    backoff.  The result comes with the delays that were waited for. *)
Fixpoint loop (fuel : nat) (maxRetries : Z) (shouldRetry : E -> bool) (delay : Z -> Z)
    (fn : Z -> T + E) (cancelled : Z -> option E) (attempt : Z) (waits : list Z) : RetryResult * list Z :=
  match fuel with
  | O => (mkResult None None attempt, waits)
  | S f =>
      match fn attempt with
      | inl v => (mkResult (Some v) None (attempt + 1), waits)
      | inr err =>
          if negb (shouldRetry err) || (attempt =? maxRetries)
          then (mkResult None (Some err) (attempt + 1), waits)
          else
            let waits := waits ++ [delay attempt] in
            match cancelled attempt with
            | Some cerr => (mkResult None (Some cerr) (attempt + 1), waits)
            | None => loop f maxRetries shouldRetry delay fn cancelled (attempt + 1) waits
            end
      end
  end.

Definition Retry (maxRetries : Z) (shouldRetry : option (E -> bool)) (delay : Z -> Z)
    (fn : Z -> T + E) (cancelled : Z -> option E) : RetryResult * list Z :=
  let maxRetries := if maxRetries <=? 0 then defaultMaxRetries else maxRetries in
  let shouldRetry := default (fun _ => true) shouldRetry in
  loop (Z.to_nat (maxRetries + 1)) maxRetries shouldRetry delay fn cancelled 0 [].

Definition RetryVoid (maxRetries : Z) (shouldRetry : option (E -> bool)) (delay : Z -> Z)
    (fn : Z -> T + E) (cancelled : Z -> option E) : option E :=
  Err (Retry maxRetries shouldRetry delay fn cancelled).1.

(** How a run may end after [n] calls. *)
Inductive ends (maxRetries : Z) (should : E -> bool) (fn : Z -> T + E) (cancelled : Z -> option E)
    : RetryResult -> Prop :=
  | ends_ok n v : fn n = inl v -> ends maxRetries should fn cancelled (mkResult (Some v) None (n + 1))
  | ends_err n err : fn n = inr err -> should err = false \/ n = maxRetries ->
      ends maxRetries should fn cancelled (mkResult None (Some err) (n + 1))
  | ends_ctx n err cerr : fn n = inr err -> should err = true -> n < maxRetries -> cancelled n = Some cerr ->
      ends maxRetries should fn cancelled (mkResult None (Some cerr) (n + 1)).

Lemma loop_spec fuel : forall mr should delay fn cancelled attempt waits r ws,
  0 <= attempt -> attempt + Z.of_nat fuel = mr + 1 -> (0 < fuel)%nat ->
  loop fuel mr should delay fn cancelled attempt waits = (r, ws) ->
  ends mr should fn cancelled r /\ attempt < Attempts r <= mr + 1 /\
  (forall i, attempt <= i < Attempts r - 1 -> cancelled i = None /\ exists err, fn i = inr err /\ should err = true) /\
  exists k, ws = waits ++ (delay <$> seqZ attempt k) /\ Attempts r - 1 - attempt <= k <= Attempts r - attempt.
Proof.
  induction fuel as [|f IH]; intros mr should delay fn cancelled attempt waits r ws Ha Hf H0; [lia|]. cbn [loop].
  destruct (fn attempt) as [v|err] eqn:Ef.
  { intros [= <- <-]. split; [by constructor|]. cbn [Attempts]. split; [lia|]. split; [lia|].
    exists 0. cbn. rewrite app_nil_r. split; [done|lia]. }
  destruct (should err) eqn:Es; cbn [negb orb].
  - destruct (Z.eqb_spec attempt mr) as [Em|Em].
    { intros [= <- <-]. split; [apply ends_err; [done|by right]|]. cbn [Attempts]. split; [lia|]. split; [lia|].
      exists 0. cbn. rewrite app_nil_r. split; [done|lia]. }
    destruct (cancelled attempt) as [cerr|] eqn:Ec.
    { intros [= <- <-]. split; [apply (ends_ctx _ _ _ _ attempt err cerr); [done|done|lia|done]|]. cbn [Attempts]. split; [lia|]. split; [lia|].
      exists 1. rewrite seqZ_cons by lia. cbn. split; [done|lia]. }
    intros Hl. apply IH in Hl as (H1 & H2 & H3 & k & -> & Hk); [|lia|lia|lia].
    split; [done|]. split; [lia|]. split.
    + intros i Hi. destruct (Z.eq_dec i attempt) as [->|]; [by split; [|exists err]|]. apply H3. lia.
    + exists (k + 1). rewrite (seqZ_cons attempt) by lia. rewrite <- app_assoc. cbn. split; [|lia].
      unfold Z.succ, Z.pred. do 4 f_equal. lia.
  - intros [= <- <-]. split; [apply ends_err; [done|by left]|]. cbn [Attempts]. split; [lia|]. split; [lia|].
    exists 0. cbn. rewrite app_nil_r. split; [done|lia].
Qed.

(** [Retry] calls the function at least once and at most [MaxRetries + 1]
    times, and again only after a retryable error whose wait was not cancelled;
    it ends with the first value, with an error that is not retryable or the
    last one allowed, or with the error of the context. *)
Theorem retry_spec mr should delay (fn : Z -> T + E) cancelled :
  let mr' := if mr <=? 0 then defaultMaxRetries else mr in
  let should' := default (fun _ => true) should in
  let '(r, ws) := Retry mr should delay fn cancelled in
  ends mr' should' fn cancelled r /\ 1 <= Attempts r <= mr' + 1 /\
  (forall i, 0 <= i < Attempts r - 1 -> cancelled i = None /\ exists err, fn i = inr err /\ should' err = true) /\
  exists k, ws = delay <$> seqZ 0 k /\ Attempts r - 1 <= k <= Attempts r.
Proof.
  intros mr' should'. unfold Retry. fold mr' should'. assert (1 <= mr') by (unfold mr', defaultMaxRetries; zb; lia).
  destruct (loop _ mr' should' delay fn cancelled 0 []) as [r ws] eqn:El.
  apply loop_spec in El as (H1 & H2 & H3 & k & -> & Hk); [|lia|lia|lia].
  split; [done|]. split; [lia|]. split; [done|]. exists k. split; [done|lia].
Qed.
End retry.
End Retry.

(** ** Concurrent calls *)

Module Fan.

Section fanout.
Context {T E : Type}.

(** An outcome is a value or an error; [fns] are the outcomes of the functions,
    [order] the numbers of the functions in the order in which their goroutines
    finish. *)
Abbreviation outcome := (T + E)%type.

(** Every goroutine writes its own place of the result slice. *)
Fixpoint collectAll (fns : list outcome) (order : list nat) (results : list (option outcome))
    : option (list (option outcome)) :=
  match order with
  | [] => Some results
  | i :: order =>
      r ← fns !! i;
      _ ← results !! i;
      collectAll fns order (<[i := Some r]> results)
  end.

Definition Fanout (fns : list outcome) (order : list nat) : option (list (option outcome)) :=
  collectAll fns order (replicate (length fns) None).

(** The results are received from a channel in the order of completion. *)
Fixpoint firstLoop (fns : list outcome) (order : list nat) (lastErr : option E) : option (option T * option E) :=
  match order with
  | [] => Some (None, lastErr)
  | i :: order =>
      r ← fns !! i;
      match r with
      | inl v => Some (Some v, None)
      | inr err => firstLoop fns order (Some err)
      end
  end.

Definition FanoutFirst (fns : list outcome) (order : list nat) : option (option T * option E) :=
  firstLoop fns order None.

Fixpoint keepValues (results : list (option outcome)) (collected : list T) : list T :=
  match results with
  | [] => collected
  | Some (inl v) :: results => keepValues results (collected ++ [v])
  | _ :: results => keepValues results collected
  end.

Definition FanoutCollect (fns : list outcome) (order : list nat) : option (list T) :=
  results ← Fanout fns order; Some (keepValues results []).

Definition value (r : outcome) : option T := match r with inl v => Some v | inr _ => None end.

Lemma keepValues_spec fns : forall acc, keepValues (Some <$> fns) acc = acc ++ omap value fns.
Proof.
  induction fns as [|[v|e] fns IH]; intros acc; cbn [fmap list_fmap keepValues]; [by rewrite app_nil_r| |by rewrite IH].
  rewrite IH, <- app_assoc. done.
Qed.

Lemma collectAll_spec fns order : forall results,
  (forall i, i ∈ order -> (i < length fns)%nat) -> length results = length fns ->
  exists results', collectAll fns order results = Some results' /\ length results' = length fns /\
    forall i, results' !! i = if decide (i ∈ order) then Some (fns !! i) else results !! i.
Proof.
  induction order as [|i order IH]; intros results Hin Hl; cbn [collectAll].
  { exists results. split_and!; [done|done|]. intros j. rewrite decide_False by apply not_elem_of_nil. done. }
  assert (Hi : (i < length fns)%nat) by (apply Hin; by left).
  destruct (lookup_lt_is_Some_2 fns i Hi) as [r Hr]. rewrite Hr. cbn [mbind option_bind].
  destruct (lookup_lt_is_Some_2 results i ltac:(lia)) as [r0 Hr0]. rewrite Hr0. cbn [mbind option_bind].
  destruct (IH (<[i := Some r]> results)) as (rs & -> & Hl' & Hspec).
  { intros j Hj. apply Hin. by right. }
  { by rewrite length_insert. }
  exists rs. split_and!; [done|done|]. intros j. rewrite Hspec. destruct (decide (j ∈ order)) as [Hj|Hj].
  - rewrite decide_True by by right. done.
  - destruct (decide (j = i)) as [->|Hne].
    + rewrite decide_True by by left. rewrite list_lookup_insert_eq by lia. by rewrite Hr.
    + rewrite decide_False, list_lookup_insert_ne; [done|done|]. rewrite elem_of_cons. tauto.
Qed.

(** Whatever the order in which the goroutines finish, [Fanout] returns the
    outcome of every function at its own place, [FanoutCollect] the values in
    the order of the functions, and [FanoutFirst] a value as soon as one of the
    functions succeeded: that of the first success to finish; it reports an
    error only if all failed. *)
Theorem fanout_order_independent (fns : list outcome) order :
  order ≡ₚ seq 0 (length fns) ->
  Fanout fns order = Some (Some <$> fns) /\
  FanoutCollect fns order = Some (omap value fns) /\
  match FanoutFirst fns order with
  | Some (Some v, None) => inl v ∈ fns
  | Some (None, Some err) => inr err ∈ fns /\ Forall (fun r => exists e, r = inr e) fns
  | Some (None, None) => fns = []
  | _ => False
  end.
Proof.
  intros Hp. assert (Hin : forall i, i ∈ order <-> (i < length fns)%nat) by (intros i; rewrite Hp, elem_of_seq; lia).
  assert (HF : Fanout fns order = Some (Some <$> fns)).
  { unfold Fanout. destruct (collectAll_spec fns order (replicate (length fns) None)) as (rs & -> & Hl & Hspec);
      [intros i; apply Hin|by rewrite length_replicate|]. f_equal. apply list_eq. intros i. rewrite Hspec.
    rewrite list_lookup_fmap. case_decide as Hi; [apply Hin, lookup_lt_is_Some_2 in Hi as [r ->]; done|].
    rewrite Hin in Hi. rewrite (lookup_ge_None_2 fns) by lia. apply lookup_ge_None_2. rewrite length_replicate. lia. }
  split; [done|]. split.
  { unfold FanoutCollect. rewrite HF. cbn [mbind option_bind]. by rewrite keepValues_spec. }
  assert (G : forall l e0, (forall i, i ∈ l -> (i < length fns)%nat) ->
    match firstLoop fns l e0 with
    | Some (Some v, None) => inl v ∈ fns
    | Some (None, Some err) =>
        (forall i, i ∈ l -> exists e, fns !! i = Some (inr e)) /\ (inr err ∈ fns \/ e0 = Some err)
    | Some (None, None) => l = [] /\ e0 = None
    | _ => False
    end).
  { induction l as [|i l IH]; intros e0 Hl; cbn [firstLoop].
    - destruct e0; [|done]. split; [intros i Hi; by apply elem_of_nil in Hi|by right].
    - destruct (lookup_lt_is_Some_2 fns i) as [r Hr]; [apply Hl; by left|]. rewrite Hr. cbn [mbind option_bind].
      destruct r as [v|err]; [by eapply list_elem_of_lookup_2|].
      specialize (IH (Some err) (fun j Hj => Hl j (list_elem_of_further _ _ _ Hj))).
      destruct (firstLoop fns l (Some err)) as [[[v|] [e|]]|]; try done; [|by destruct IH].
      destruct IH as [IH1 IH2]. split.
      + intros j [->|Hj]%elem_of_cons; [by exists err|by apply IH1].
      + left. destruct IH2 as [|[= ->]]; [done|by eapply list_elem_of_lookup_2]. }
  specialize (G order None (fun i => proj1 (Hin i))). unfold FanoutFirst.
  destruct (firstLoop fns order None) as [[[v|] [e|]]|]; try done.
  - destruct G as [G1 [G2|]]; [|done]. split; [done|]. apply Forall_lookup. intros i r Hi.
    destruct (G1 i) as [e' He']; [apply Hin; by eapply lookup_lt_Some|].
    exists e'. congruence.
  - destruct G as [-> _]. apply length_zero_iff_nil, Nat.le_0_r, Nat.nlt_ge. intros Hx. apply Hin in Hx.
    by apply elem_of_nil in Hx.
Qed.
End fanout.

Lemma fanout_order_independent_witness :
  Fanout [inl 1; inr 2; inl 3] [2%nat; 0%nat; 1%nat] = Some [Some (inl 1); Some (inr 2); Some (inl 3)] /\
  FanoutFirst [inl 1; inr 2; inl 3] [1%nat; 2%nat; 0%nat] = Some (Some 3, None).
Proof.
  split; [|reflexivity].
  apply (fanout_order_independent [inl 1; inr 2; inl 3] [2%nat; 0%nat; 1%nat]). cbn.
  apply (Permutation_trans (perm_swap 0%nat 2%nat [1%nat])). constructor. constructor.
Defined.
End Fan.
