(* ===== verification/Batcher.v ===== *)
(** * Striped batching ([src/pkg/mq/batcher])

    Items are collected in stripes; a full stripe is handed to the consumer as
    one batch.  Stripes rest in a [sync.Pool] between calls: a [Get] may return
    any pooled stripe or a new one, and the pool may drop stripes at any time
    (the collector empties it), so both are choices of the step relation.  A
    goroutine owns the stripe it took until it puts it back. *)

From stdpp Require Import base list option gmap.
From Stdlib Require Import ZArith Lia.
From S2P Require Import Prelude.

#[local] Open Scope Z_scope.

Section batcher.
Context {T : Type}.

(** ** Stripes *)

Record stripe := mkStripe { sdata : list T; scap : Z }.

Definition newStripe (capacity : Z) : stripe := mkStripe [] capacity.

(** The batch handed to the consumer, if the stripe is full. *)
Definition Push (s : stripe) (item : T) : stripe * option (list T) :=
  let data := sdata s ++ [item] in
  if scap s <=? zlen data then (mkStripe [] (scap s), Some data) else (mkStripe data (scap s), None).

(** The effective stripe size of [New]. *)
Definition New (stripeSize : Z) : Z := if stripeSize <=? 0 then 512 else stripeSize.

(** ** The system *)

(** Stripes in the pool and in the hands of goroutines, the batches consumed,
    and what was lost with dropped stripes. *)
Record state := mkState {
  pool : list stripe; held : gmap nat stripe; batches : list (list T); dropped : list T;
}.

Definition init : state := mkState [] ∅ [] [].

(** The steps of [StripedBatcher.Push] and of the pool. *)
Inductive event := Get (t : nat) (from : option nat) | PushItem (t : nat) (item : T) | Put (t : nat) | Drop (i : nat).

Definition exec (size : Z) (st : state) (e : event) : option state :=
  match e with
  | Get t from =>
      match held st !! t with
      | Some _ => None
      | None =>
          match from with
          | Some i =>
              s ← pool st !! i;
              Some (mkState (delete i (pool st)) (<[t := s]> (held st)) (batches st) (dropped st))
          | None => Some (mkState (pool st) (<[t := newStripe size]> (held st)) (batches st) (dropped st))
          end
      end
  | PushItem t item =>
      s ← held st !! t;
      let '(s, out) := Push s item in
      let bs := match out with Some b => batches st ++ [b] | None => batches st end in
      Some (mkState (pool st) (<[t := s]> (held st)) bs (dropped st))
  | Put t =>
      s ← held st !! t;
      Some (mkState (s :: pool st) (delete t (held st)) (batches st) (dropped st))
  | Drop i =>
      s ← pool st !! i;
      Some (mkState (delete i (pool st)) (held st) (batches st) (sdata s ++ dropped st))
  end.

Fixpoint run (size : Z) (st : state) (es : list event) : option state :=
  match es with [] => Some st | e :: es => st ← exec size st e; run size st es end.

(** The items pushed. *)
Definition pushed (e : event) : list T := match e with PushItem _ x => [x] | _ => [] end.

(** Where the items are. *)
Definition inHeld (m : gmap nat stripe) : list T := concat ((fun p => sdata p.2) <$> map_to_list m).
Definition everywhere (st : state) : list T :=
  concat (batches st) ++ concat (sdata <$> pool st) ++ inHeld (held st) ++ dropped st.

Record ok (size : Z) (st : state) : Prop := {
  ok_batches : Forall (fun b => zlen b = size) (batches st);
  ok_pool : Forall (fun s => scap s = size /\ zlen (sdata s) < size) (pool st);
  ok_held : map_Forall (fun _ s => scap s = size /\ zlen (sdata s) < size) (held st);
}.

Lemma inHeld_insert m t s : m !! t = None -> inHeld (<[t := s]> m) ≡ₚ sdata s ++ inHeld m.
Proof. intros Ht. unfold inHeld. rewrite map_to_list_insert by done. done. Qed.

Lemma inHeld_delete m t s : m !! t = Some s -> inHeld m ≡ₚ sdata s ++ inHeld (delete t m).
Proof.
  intros Ht. rewrite <- (insert_delete_id m t s) at 1 by done. apply inHeld_insert, lookup_delete_eq.
Qed.

Lemma delete_perm (l : list stripe) i s : l !! i = Some s -> concat (sdata <$> l) ≡ₚ sdata s ++ concat (sdata <$> delete i l).
Proof. intros Hi. rewrite (delete_Permutation l i s Hi) at 1. done. Qed.

Lemma stripe_Push_spec size s item : 1 <= size -> scap s = size -> zlen (sdata s) < size ->
  let '(s', out) := Push s item in
  scap s' = size /\ zlen (sdata s') < size /\
  match out with Some b => zlen b = size /\ b ++ sdata s' = sdata s ++ [item] | None => sdata s' = sdata s ++ [item] end.
Proof.
  intros Hs Hc Hl. unfold Push. rewrite Hc. pose proof (zlen_app (sdata s) [item]) as Hz. change (zlen [item]) with 1 in Hz.
  destruct (Z.leb_spec size (zlen (sdata s ++ [item]))); cbn [scap sdata].
  - split_and!; [done|change (zlen []) with 0; lia|lia|apply app_nil_r].
  - split_and!; [done|lia|done].
Qed.

(** One step keeps the sizes and moves items without losing or doubling any. *)
Lemma exec_ok size st e st' : 1 <= size -> ok size st -> exec size st e = Some st' ->
  ok size st' /\ everywhere st' ≡ₚ everywhere st ++ pushed e.
Proof.
  intros Hs [Hb Hp Hh]. destruct e as [t [i|]|t item|t|i]; cbn [exec pushed].
  - destruct (held st !! t) eqn:Et; [done|]. destruct (pool st !! i) as [s|] eqn:Ei; [|done]. cbn [mbind option_bind].
    intros [= <-]. split.
    + split; cbn; [done|by apply Forall_delete|]. apply map_Forall_insert_2; [|done]. by eapply Forall_lookup_1 in Hp.
    + unfold everywhere. cbn. rewrite app_nil_r, inHeld_insert, (delete_perm (pool st) i s Ei) by done. solve_Permutation.
  - destruct (held st !! t) eqn:Et; [done|]. intros [= <-]. split.
    + split; cbn; [done|done|]. apply map_Forall_insert_2; [|done]. cbn. change (zlen []) with 0. lia.
    + unfold everywhere. cbn. rewrite app_nil_r, inHeld_insert by done. done.
  - destruct (held st !! t) as [s|] eqn:Et; [|done]. cbn [mbind option_bind].
    destruct (map_Forall_lookup_1 _ _ _ _ Hh Et) as [Hc Hl]. pose proof (stripe_Push_spec size s item Hs Hc Hl) as Hpush.
    destruct (Push s item) as [s' out]. destruct Hpush as (Hc' & Hl' & Hout). intros [= <-]. split.
    + split; cbn; [|done|by apply map_Forall_insert_2]. destruct out as [b|]; [|done]. apply Forall_app. split; [done|].
      constructor; [apply Hout|done].
    + unfold everywhere. cbn. rewrite <- insert_delete_eq, inHeld_insert by apply lookup_delete_eq.
      rewrite (inHeld_delete (held st) t s) by done. destruct out as [b|].
      * rewrite concat_app. cbn [concat]. rewrite app_nil_r. destruct Hout as [_ Hout].
        transitivity ((b ++ sdata s') ++ concat (batches st) ++ concat (sdata <$> pool st) ++ inHeld (delete t (held st)) ++ dropped st);
          [solve_Permutation|]. rewrite Hout. solve_Permutation.
      * rewrite Hout. solve_Permutation.
  - destruct (held st !! t) as [s|] eqn:Et; [|done]. cbn [mbind option_bind]. intros [= <-].
    destruct (map_Forall_lookup_1 _ _ _ _ Hh Et) as [Hc Hl]. split.
    + split; cbn; [done|by constructor|by apply map_Forall_delete].
    + unfold everywhere. cbn. rewrite app_nil_r, (inHeld_delete (held st) t s) by done. solve_Permutation.
  - destruct (pool st !! i) as [s|] eqn:Ei; [|done]. cbn [mbind option_bind]. intros [= <-]. split.
    + split; cbn; [done|by apply Forall_delete|done].
    + unfold everywhere. cbn. rewrite app_nil_r, (delete_perm (pool st) i s Ei). solve_Permutation.
Qed.

Lemma batcher_run_ok size es : 1 <= size -> forall st st', ok size st -> run size st es = Some st' ->
  ok size st' /\ everywhere st' ≡ₚ everywhere st ++ concat (pushed <$> es).
Proof.
  intros Hs. induction es as [|e es IH]; intros st st' Hok; cbn [run].
  { intros [= <-]. cbn. by rewrite app_nil_r. }
  destruct (exec size st e) as [st1|] eqn:E; [|done]. cbn [mbind option_bind]. intros Hr.
  destruct (exec_ok size st e st1 Hs Hok E) as [H1 P1]. destruct (IH st1 st' H1 Hr) as [H2 P2].
  split; [done|]. rewrite P2, P1. cbn. by rewrite app_assoc.
Qed.

Definition isDrop (e : event) : bool := match e with Drop _ => true | _ => false end.

Lemma run_no_drop size es : forall st st', Forall (fun e => isDrop e = false) es -> run size st es = Some st' ->
  dropped st' = dropped st.
Proof.
  induction es as [|e es IH]; intros st st' HF; cbn [run]; [by intros [= <-]|].
  inversion_clear HF as [|? ? H1 H2]. destruct (exec size st e) as [st1|] eqn:E; [|done]. cbn [mbind option_bind].
  intros Hr. rewrite (IH st1 st' H2 Hr). destruct e as [t [i|]|t item|t|i]; cbn [exec] in E; [| | | |done].
  - destruct (held st !! t); [done|]. destruct (pool st !! i); [|done]. by injection E as <-.
  - destruct (held st !! t); [done|]. by injection E as <-.
  - destruct (held st !! t) as [s|]; [|done]. cbn [mbind option_bind] in E. destruct (Push s item) as [? []]; by injection E as <-.
  - destruct (held st !! t); [|done]. by injection E as <-.
Qed.

(** Batches and stripes hold pushed items in the order they were pushed in. *)
Record ordered (hist : list T) (st : state) : Prop := {
  or_batches : Forall (fun b => sublist b hist) (batches st);
  or_pool : Forall (fun s => sublist (sdata s) hist) (pool st);
  or_held : map_Forall (fun _ s => sublist (sdata s) hist) (held st);
}.

Lemma ordered_more hist x st : ordered hist st -> ordered (hist ++ x) st.
Proof.
  intros [Hb Hp Hh]. split.
  - eapply Forall_impl; [exact Hb|]. intros b Hb'. by apply sublist_inserts_r.
  - eapply Forall_impl; [exact Hp|]. intros b Hb'. by apply sublist_inserts_r.
  - eapply map_Forall_impl; [exact Hh|]. intros t b Hb'. by apply sublist_inserts_r.
Qed.

Lemma exec_ordered size hist st e st' : ordered hist st -> exec size st e = Some st' -> ordered (hist ++ pushed e) st'.
Proof.
  intros Ho. destruct e as [t [i|]|t item|t|i]; cbn [exec pushed]; rewrite ?app_nil_r; pose proof Ho as [Hb Hp Hh].
  - destruct (held st !! t); [done|]. destruct (pool st !! i) as [s|] eqn:Ei; [|done]. cbn [mbind option_bind].
    intros [= <-]. split; cbn; [done | by apply Forall_delete|]. apply map_Forall_insert_2; [|done]. by eapply Forall_lookup_1 in Hp.
  - destruct (held st !! t); [done|]. intros [= <-]. split; cbn; [done | done|].
    apply map_Forall_insert_2; [apply sublist_nil_l | done].
  - destruct (held st !! t) as [s|] eqn:Et; [|done]. cbn [mbind option_bind]. pose proof (map_Forall_lookup_1 _ _ _ _ Hh Et) as Hs.
    assert (Hd : sublist (sdata s ++ [item]) (hist ++ [item])) by (apply sublist_app; done).
    destruct (ordered_more hist [item] st Ho) as [Hb' Hp' Hh']. unfold Push.
    destruct (_ <=? _); intros [= <-]; split; cbn; try done.
    + apply Forall_app. split; [done|]. by constructor.
    + apply map_Forall_insert_2; [apply sublist_nil_l | done].
    + by apply map_Forall_insert_2.
  - destruct (held st !! t) as [s|] eqn:Et; [|done]. cbn [mbind option_bind]. intros [= <-].
    split; cbn; [done | | by apply map_Forall_delete]. constructor; [|done]. exact (map_Forall_lookup_1 _ _ _ _ Hh Et).
  - destruct (pool st !! i); [|done]. cbn [mbind option_bind]. intros [= <-]. split; cbn; [done | by apply Forall_delete | done].
Qed.

Lemma run_ordered size es : forall hist st st',
  ordered hist st -> run size st es = Some st' -> ordered (hist ++ concat (pushed <$> es)) st'.
Proof.
  induction es as [|e es IH]; intros hist st st' Ho; cbn [run].
  - intros [= <-]. by rewrite app_nil_r.
  - destruct (exec size st e) as [st1|] eqn:E; [|done]. cbn [mbind option_bind]. intros Hr.
    cbn [fmap list_fmap concat]. rewrite app_assoc. by apply (IH _ st1 st'); [eapply exec_ordered|].
Qed.

(** C35: Under every interleaving of goroutines and every behaviour of the pool,
    each batch the consumer gets has exactly the stripe size and holds its items in the
    order they were pushed in, stripes are never full, and every item pushed is in
    exactly one place: a batch, a stripe, or among those lost with stripes the pool
    dropped; nothing is lost while it drops none. *)
Theorem batcher_no_loss_no_duplicate stripeSize (es : list event) st :
  run (New stripeSize) init es = Some st ->
  Forall (fun b => zlen b = New stripeSize /\ sublist b (concat (pushed <$> es))) (batches st) /\
  Forall (fun s => zlen (sdata s) < New stripeSize) (pool st) /\
  concat (batches st) ++ concat (sdata <$> pool st) ++ inHeld (held st) ++ dropped st ≡ₚ concat (pushed <$> es) /\
  (Forall (fun e => isDrop e = false) es -> dropped st = []).
Proof.
  intros Hr. assert (Hs : 1 <= New stripeSize) by (unfold New; zb; lia).
  assert (H0 : ok (New stripeSize) init) by (split; cbn; [constructor|constructor|apply map_Forall_empty]).
  destruct (batcher_run_ok _ es Hs init st H0 Hr) as [[Hb Hp Hh] P].
  assert (Ho : ordered [] init) by (split; cbn; [constructor | constructor | apply map_Forall_empty]).
  pose proof (or_batches _ _ (run_ordered _ es [] init st Ho Hr)) as Hord. cbn [app] in Hord.
  split; [by apply Forall_and|]. split; [|split; [exact P|]].
  - eapply Forall_impl; [exact Hp|]. by intros s [_ H].
  - intros HF. by rewrite (run_no_drop _ es init st HF Hr).
Qed.
End batcher.

Lemma batcher_no_loss_no_duplicate_witness :
  exists st, run (New 2) init [Get 1 None; PushItem 1 7; Get 2 None; PushItem 2 8; PushItem 1 9; Put 1; Put 2] = Some st /\
    batches st = [[7; 9]] /\ Forall (fun b => zlen b = New 2 /\ sublist b [7; 8; 9]) (batches st) /\ dropped st = [].
Proof.
  eexists. split; [vm_compute; reflexivity|]. split; [reflexivity|].
  destruct (batcher_no_loss_no_duplicate 2 [Get 1 None; PushItem 1 7; Get 2 None; PushItem 2 8; PushItem 1 9; Put 1; Put 2] _
    ltac:(vm_compute; reflexivity)) as (H1 & _ & _ & H2). split; [exact H1|]. apply H2. repeat constructor.
Defined.

(** A stripe the pool drops takes its items along while the batcher is in use. *)
Theorem batcher_pool_drop_loses :
  batches <$> run (New 2) init [Get 1 None; PushItem 1 7; Put 1; Drop 0; Get 1 None; PushItem 1 8; Put 1] = Some [].
Proof. vm_compute. reflexivity. Qed.
