(* ===== verification/Fetch.v ===== *)
(** * Cached loading ([src/pkg/common/cache/fetch.go], [local_helper.go])

    [Fetch] reads through a cache: hits return the cached envelope and
    may start a background refresh, misses load the value through a
    [singleflight] group, and an entity that does not exist is remembered by a
    marker under a second key.  The steps are written over what they use of a
    cache ([FetchStore]), because the helpers for local and remote caches share
    them; here the instance is made from a local cache ([LocalCache]), whose
    implementations may refuse a write or drop any entry at any time, and in the
    file [Remote] from a remote engine.  The theorems are proved against the laws.

    Concurrent callers are steps of one system: a call looks at the cache; on a
    miss, and for a background refresh, a goroutine is left that will call
    [sf.Do]; there it joins the flight of that group key or starts one; a
    flight advances and in the end answers all its callers.  The two reads of a
    look (envelope, then marker) are one step, and so are the loading function and
    the writes after it: an entry that appears or goes in between could as well
    have done so before or after, as far as the results go.  The clock, the
    jittered lifetimes, the decision to refresh and what the loading function
    returns are arguments of the steps. *)

From stdpp Require Import base list option gmap strings.
From Stdlib Require Import ZArith Lia.
From S2P Require Import Prelude.

#[local] Open Scope Z_scope.

Definition negativeSuffix : string := ":neg".
Definition refreshSuffix : string := ":refresh".

Section data.
Context (T E : Type).

(** What [Fetch] stores: envelopes and markers. *)
Record envelope := mkEnvelope { Value : T; ExpireAt : Z; DeltaMs : Z }.
Inductive cval := CEnv (e : envelope) | CNeg.

(** What the loading function returns: a value, an error that is
    [ErrNotFound], another error. *)
Inductive outcome := OValue (v : T) | ONotFound | OError (e : E).

(** What a call of [Fetch] returns. *)
Inductive result := RValue (v : T) | RNotFound | RError (e : E).
End data.
Arguments mkEnvelope {T}. Arguments Value {T}. Arguments CEnv {T}. Arguments CNeg {T}.
Arguments OValue {T E}. Arguments ONotFound {T E}. Arguments OError {T E}.
Arguments RValue {T E}. Arguments RNotFound {T E}. Arguments RError {T E}.

(** ** The cache interface *)

Class LocalCache (V S : Type) := {
  cget : S -> string -> option V;
  cset : S -> string -> V -> S;
  csetTTL : S -> string -> V -> Z -> S;
  cdelete : S -> string -> S;
}.

(** An entry may be missing at any time and a write may be refused, but an
    entry is never anything else than what was last written under its key or an
    earlier value of it. *)
Class LocalCacheLaws (V S : Type) `{LocalCache V S} : Prop := {
  cget_set : forall s k v ttl,
    cget (csetTTL s k v ttl) k = None \/ cget (csetTTL s k v ttl) k = cget s k \/ cget (csetTTL s k v ttl) k = Some v;
  cget_set_ne : forall s k k' v ttl, k' <> k ->
    cget (csetTTL s k v ttl) k' = None \/ cget (csetTTL s k v ttl) k' = cget s k';
  cget_cset : forall s k v k',
    cget (cset s k v) k' = None \/ cget (cset s k v) k' = cget s k' \/ (k' = k /\ cget (cset s k v) k' = Some v);
  cget_delete : forall s k k', cget (cdelete s k) k' = None \/ cget (cdelete s k) k' = cget s k';
}.

(** ** What [Fetch] uses of a cache *)

(** Reading an envelope or a marker (a failure is a miss), writing them, removing
    an entry, and what the environment does to the cache meanwhile. *)
Class FetchStore (T S : Type) := {
  fenv : S -> string -> option (envelope T);
  fneg : S -> string -> bool;
  fput : S -> string -> envelope T -> Z -> S;
  fdrop : S -> string -> S;
  fmark : S -> string -> Z -> S;
  fenviron : Type;
  fturn : S -> fenviron -> S;
}.

(** What a store may show under a key, now or later: only what it showed before, what
    was written under that key, as it reads back ([readBack]), and what others put there
    ([foreignEnv], [foreignNeg]). *)
Class FetchStoreLaws (T S : Type) `{FetchStore T S} := {
  mayEnv : S -> string -> envelope T -> Prop;
  mayNeg : S -> string -> Prop;
  readBack : T -> T -> Prop;
  foreignEnv : string -> T -> Prop;
  foreignNeg : string -> Prop;
  fenv_may : forall s k e, fenv s k = Some e -> mayEnv s k e;
  fneg_may : forall s k, fneg s k = true -> mayNeg s k;
  fput_env : forall s k e t k' e', mayEnv (fput s k e t) k' e' ->
    mayEnv s k' e' \/ (k' = k /\ readBack (Value e) (Value e'));
  fput_neg : forall s k e t k', mayNeg (fput s k e t) k' -> mayNeg s k';
  fdrop_env : forall s k k' e, mayEnv (fdrop s k) k' e -> mayEnv s k' e;
  fdrop_neg : forall s k k', mayNeg (fdrop s k) k' -> mayNeg s k';
  fmark_env : forall s k t k' e, mayEnv (fmark s k t) k' e -> mayEnv s k' e;
  fmark_neg : forall s k t k', mayNeg (fmark s k t) k' -> mayNeg s k' \/ k' = k;
  fturn_env : forall s x k e, mayEnv (fturn s x) k e -> mayEnv s k e \/ foreignEnv k (Value e);
  fturn_neg : forall s x k, mayNeg (fturn s x) k -> mayNeg s k \/ foreignNeg k;
}.

Section local.
Context {T S : Type} `{LocalCache (cval T) S}.

(** [Get[envelope[T]]] and [Get[negativeMarker]]: an entry of another type is a miss. *)
Definition getEnvelope (c : S) (key : string) : option (envelope T) :=
  match cget c key with Some (CEnv e) => Some e | _ => None end.
Definition getNegative (c : S) (key : string) : bool :=
  match cget c (key +:+ negativeSuffix) with Some CNeg => true | _ => false end.

(** A local cache; the environment evicts entries. *)
#[global] Instance local_store : FetchStore T S := {
  fenv := getEnvelope;
  fneg := getNegative;
  fput c key env ttl := csetTTL c key (CEnv env) ttl;
  fdrop c key := cdelete c key;
  fmark c key ttl := csetTTL c (key +:+ negativeSuffix) CNeg ttl;
  fenviron := string;
  fturn c key := cdelete c key;
}.
End local.

Section ops.
Context {T E S : Type} `{FetchStore T S}.

Definition resultOf (o : outcome T E) : result T E :=
  match o with OValue v => RValue v | ONotFound => RNotFound | OError e => RError e end.

(** [newEnvelope] at the time [now], in milliseconds. *)
Definition newEnvelope (v : T) (now ttl delta : Z) : envelope T := mkEnvelope v (now + ttl) delta.

(** When and how long: the clock, the two jittered lifetimes, the duration of [fn]. *)
Record timing := mkTiming { now : Z; jttl : Z; njttl : Z; delta : Z }.

(** The closure [load], given what [fn] returned. *)
Definition load (c : S) (key : string) (o : outcome T E) (t : timing) : S * result T E :=
  match o with
  | OValue v => (fput c key (newEnvelope v (now t) (jttl t) (delta t)) (jttl t), RValue v)
  | ONotFound => (fmark (fdrop c key) key (njttl t), RNotFound)
  | OError e => (c, RError e)
  end.

(** The look into the cache, done before the flight and again in it: a result,
    or a miss. *)
Definition look (c : S) (key : string) : option (result T E) :=
  match fenv c key with
  | Some env => Some (RValue (Value env))
  | None => if fneg c key then Some RNotFound else None
  end.

(** A flight of the [singleflight] group: the key its function works on, whether
    it still has to look, and how many callers wait for it. *)
Inductive phase := Looking | Loading.
Record flight := mkFlight { fkey : string; fphase : phase; fwaiters : nat }.

(** A goroutine about to call [sf.Do]: from [doTyped] or from [refreshAsync]. *)
Inductive task := DoTyped (key : string) | RefreshAsync (key : string).
#[global] Instance task_eq_dec : EqDecision task.
Proof. solve_decision. Defined.

(** The whole system: the cache, the group, the goroutines, and as history the
    results of calls and the outcomes of [fn], each with the key it was for. *)
Record sys := mkSys {
  cache : S;
  group : gmap string flight;
  tasks : list task;
  results : list (string * result T E);
  loaded : list (string * outcome T E);
}.

Inductive event :=
  | Call (key : string) (refresh : bool)
  | Do (t : task)
  | Advance (sfkey : string) (o : outcome T E) (t : timing)
  | Environment (x : fenviron).

(** The body of [Fetch] up to its [return] or to [doTyped]. *)
Definition Fetch (s : sys) (key : string) (refresh : bool) : sys :=
  match fenv (cache s) key with
  | Some env => mkSys (cache s) (group s) (if refresh then RefreshAsync key :: tasks s else tasks s)
                  ((key, RValue (Value env)) :: results s) (loaded s)
  | None =>
      if fneg (cache s) key
      then mkSys (cache s) (group s) (tasks s) ((key, RNotFound) :: results s) (loaded s)
      else mkSys (cache s) (group s) (DoTyped key :: tasks s) (results s) (loaded s)
  end.

Fixpoint removeTask (t : task) (l : list task) : list task :=
  match l with [] => [] | x :: l => if decide (x = t) then l else x :: removeTask t l end.

(** [sf.Do]: join the flight of this group key, or start one. *)
Definition join (g : gmap string flight) (sfkey : string) (f : flight) : gmap string flight :=
  match g !! sfkey with
  | Some f0 => <[sfkey := mkFlight (fkey f0) (fphase f0) (fwaiters f0 + fwaiters f)]> g
  | None => <[sfkey := f]> g
  end.

Definition doTask (s : sys) (t : task) : sys :=
  mkSys (cache s)
    match t with
    | DoTyped key => join (group s) key (mkFlight key Looking 1)
    | RefreshAsync key => join (group s) (key +:+ refreshSuffix) (mkFlight key Loading 0)
    end (removeTask t (tasks s)) (results s) (loaded s).

(** The end of a flight: every waiting call returns its result. *)
Definition finish (s : sys) (sfkey : string) (c : S) (r : result T E) (n : nat) (ld : list (string * outcome T E)) : sys :=
  mkSys c (delete sfkey (group s)) (tasks s) (replicate n (sfkey, r) ++ results s) ld.

Definition advance (s : sys) (sfkey : string) (o : outcome T E) (t : timing) : option sys :=
  f ← group s !! sfkey;
  match fphase f with
  | Looking =>
      match look (cache s) (fkey f) with
      | Some r => Some (finish s sfkey (cache s) r (fwaiters f) (loaded s))
      | None => Some (mkSys (cache s) (<[sfkey := mkFlight (fkey f) Loading (fwaiters f)]> (group s))
                        (tasks s) (results s) (loaded s))
      end
  | Loading =>
      let '(c, r) := load (cache s) (fkey f) o t in
      Some (finish s sfkey c r (fwaiters f) ((fkey f, o) :: loaded s))
  end.

Definition step (s : sys) (e : event) : option sys :=
  match e with
  | Call key refresh => Some (Fetch s key refresh)
  | Do t => if decide (t ∈ tasks s) then Some (doTask s t) else None
  | Advance sfkey o t => advance s sfkey o t
  | Environment x => Some (mkSys (fturn (cache s) x) (group s) (tasks s) (results s) (loaded s))
  end.

Fixpoint run (s : sys) (es : list event) : option sys :=
  match es with [] => Some s | e :: es => s' ← step s e; run s' es end.

Definition start (c : S) : sys := mkSys c ∅ [] [] [].

(** A call of [Fetch] with nobody else around: the call, and on a miss its flight. *)
Definition alone (key : string) (o : outcome T E) (t : timing) : list event :=
  [Call key false; Do (DoTyped key); Advance key o t; Advance key o t].

(** ** The invariant *)

(** A key of the group that is not of the form of a refresh key. *)
Definition plain (key : string) : Prop := forall k, key <> k +:+ refreshSuffix.

Lemma join_group g sfkey f :
  (forall k f', g !! k = Some f' -> plain k -> fkey f' = k) -> (plain sfkey -> fkey f = sfkey) ->
  forall k f', join g sfkey f !! k = Some f' -> plain k -> fkey f' = k.
Proof.
  intros Hg Hf k f'. unfold join. destruct (g !! sfkey) as [f0|] eqn:E0.
  - rewrite lookup_insert_Some. intros [[<- <-]|[_ Hk]] Hp; [cbn; by apply (Hg _ _ E0)|by apply (Hg _ _ Hk)].
  - rewrite lookup_insert_Some. intros [[<- <-]|[_ Hk]] Hp; [by apply Hf|by apply (Hg _ _ Hk)].
Qed.

Section laws.
Context `{!FetchStoreLaws T S}.

(** A result that an outcome of [fn] gives, at once or read back from the cache. *)
Definition gives (o : outcome T E) (r : result T E) : Prop :=
  r = resultOf o \/ exists v v', o = OValue v /\ readBack v v' /\ r = RValue v'.

(** A result for a key that comes from the loading function or from others' entries. *)
Definition answered (ld : list (string * outcome T E)) (key : string) (r : result T E) : Prop :=
  (exists o, (key, o) ∈ ld /\ gives o r) \/
  (exists v, foreignEnv key v /\ r = RValue v) \/ (foreignNeg key /\ r = RNotFound).

Lemma answered_cons x ld key r : answered ld key r -> answered (x :: ld) key r.
Proof. intros [(o & Ho & Hg)|Hf]; [left; exists o; split; [by right | done] | by right]. Qed.

Lemma answered_resultOf key o ld : answered ((key, o) :: ld) key (resultOf o).
Proof. left. exists o. split; [left | by left]. Qed.

Lemma finish_results s sfkey r n (ld : list (string * outcome T E)) :
  (forall key r', (key, r') ∈ results s -> plain key -> answered ld key r') ->
  (plain sfkey -> answered ld sfkey r) ->
  forall key r', (key, r') ∈ replicate n (sfkey, r) ++ results s -> plain key -> answered ld key r'.
Proof.
  intros Hr Hs key r' [[[= -> ->] _]%elem_of_replicate|Hin]%elem_of_app Hp; [by apply Hs | by apply Hr].
Qed.

(** What the cache may show, [fn] returned or others wrote; a flight under a plain key
    works on that key; results for plain keys are answered. *)
Record faithful (s : sys) : Prop := {
  ok_env : forall key e, mayEnv (cache s) key e ->
    (exists v, (key, OValue v) ∈ loaded s /\ readBack v (Value e)) \/ foreignEnv key (Value e);
  ok_neg : forall key, mayNeg (cache s) key -> (key, ONotFound) ∈ loaded s \/ foreignNeg key;
  ok_group : forall sfkey f, group s !! sfkey = Some f -> plain sfkey -> fkey f = sfkey;
  ok_results : forall key r, (key, r) ∈ results s -> plain key -> answered (loaded s) key r;
}.

Lemma look_loaded s key r : faithful s -> look (cache s) key = Some r -> answered (loaded s) key r.
Proof.
  intros [He Hn _ _]. unfold look. destruct (fenv (cache s) key) as [e|] eqn:E1.
  - intros [= <-]. destruct (He key e (fenv_may _ _ _ E1)) as [(v & Hv & Hb)|Hf].
    + left. exists (OValue v). split; [done|]. right. by exists v, (Value e).
    + right. left. by exists (Value e).
  - destruct (fneg (cache s) key) eqn:E2; [|done]. intros [= <-].
    destruct (Hn key (fneg_may _ _ E2)) as [Hv|Hf]; [left; exists ONotFound; split; [done | by left] | by right; right].
Qed.

(** Loading keeps the cache within what was loaded. *)
Lemma load_cache s key o t c r : faithful s -> load (cache s) key o t = (c, r) ->
  r = resultOf o /\
  (forall k e, mayEnv c k e ->
     (exists v, (k, OValue v) ∈ (key, o) :: loaded s /\ readBack v (Value e)) \/ foreignEnv k (Value e)) /\
  (forall k, mayNeg c k -> (k, ONotFound) ∈ (key, o) :: loaded s \/ foreignNeg k).
Proof.
  intros [He Hn _ _] Hl.
  assert (He' : forall k e, mayEnv (cache s) k e ->
    (exists v, (k, OValue v) ∈ (key, o) :: loaded s /\ readBack v (Value e)) \/ foreignEnv k (Value e)).
  { intros k e Hk. destruct (He k e Hk) as [(v & Hv & Hb)|Hf]; [left; exists v; split; [by right | done] | by right]. }
  assert (Hn' : forall k, mayNeg (cache s) k -> (k, ONotFound) ∈ (key, o) :: loaded s \/ foreignNeg k).
  { intros k Hk. destruct (Hn k Hk); [left; by right | by right]. }
  destruct o as [v| |e]; cbn [load] in Hl; injection Hl as <- <-; (split; [done|]); split.
  - intros k e [Hk|[-> Hb]]%fput_env; [by apply He'|]. left. exists v. split; [left | done].
  - intros k Hk%fput_neg. by apply Hn'.
  - intros k e Hk%fmark_env%fdrop_env. by apply He'.
  - intros k [Hk%fdrop_neg| ->]%fmark_neg; [by apply Hn' | left; left].
  - exact He'.
  - exact Hn'.
Qed.

Lemma Fetch_faithful s key refresh : faithful s -> faithful (Fetch s key refresh).
Proof.
  intros Hok. pose proof (look_loaded s key) as Hl. unfold look in Hl. unfold Fetch.
  destruct (fenv (cache s) key) as [env|]; [|destruct (fneg (cache s) key)].
  3: { destruct Hok as [He Hn Hg Hr]. by split. }
  all: pose proof (Hl _ Hok eq_refl) as Ha; destruct Hok as [He Hn Hg Hr]; split; cbn [cache group results loaded]; try done;
    intros k r [[= -> ->]|Hin]%elem_of_cons Hp; [done | by apply Hr].
Qed.

Lemma advance_faithful s sfkey o t s' : faithful s -> advance s sfkey o t = Some s' -> faithful s'.
Proof.
  intros Hok. unfold advance. destruct (group s !! sfkey) as [f|] eqn:Ef; [cbn|done].
  assert (Hdel : forall k f', delete sfkey (group s) !! k = Some f' -> plain k -> fkey f' = k).
  { intros k f' [_ Hk]%lookup_delete_Some. by apply Hok. }
  destruct (fphase f).
  - destruct (look (cache s) (fkey f)) as [r|] eqn:El; intros [= <-].
    + pose proof (look_loaded s (fkey f) r Hok El) as Ha.
      split; cbn [cache group results loaded finish]; [apply Hok|apply Hok|exact Hdel|].
      apply finish_results; [apply Hok|]. intros Hp. by rewrite (ok_group s Hok sfkey f Ef Hp) in Ha.
    + split; cbn [cache group results loaded]; [apply Hok|apply Hok| |apply Hok].
      intros k f' [[<- <-]|[_ Hk]]%lookup_insert_Some Hp; cbn; by apply (ok_group s Hok).
  - destruct (load (cache s) (fkey f) o t) as [c r] eqn:El. intros [= <-].
    destruct (load_cache s (fkey f) o t c r Hok El) as (-> & He' & Hn').
    split; cbn [cache group results loaded finish]; [exact He'|exact Hn'|exact Hdel|].
    apply finish_results.
    + intros k r' Hin Hp. apply answered_cons. by apply Hok.
    + intros Hp. rewrite (ok_group s Hok sfkey f Ef Hp). apply answered_resultOf.
Qed.

Lemma fetch_step_faithful s e s' : faithful s -> step s e = Some s' -> faithful s'.
Proof.
  intros Hok. destruct e as [key refresh|t|sfkey o t|x]; cbn [step].
  - intros [= <-]. by apply Fetch_faithful.
  - case_decide; [|done]. intros [= <-]. split; cbn [cache group results loaded doTask]; try apply Hok.
    destruct t as [key|key]; (apply join_group; [apply Hok|]); [done|]. intros Hp. by destruct (Hp key).
  - by apply advance_faithful.
  - intros [= <-]. split; cbn [cache group results loaded]; [| |apply Hok|apply Hok].
    + intros k e [Hk|Hk]%fturn_env; [by apply Hok | by right].
    + intros k [Hk|Hk]%fturn_neg; [by apply Hok | by right].
Qed.

(** Every state reached from a cache that holds nothing but others' entries is
    faithful. *)
Lemma run_faithful c0 es s :
  (forall k e, mayEnv c0 k e -> foreignEnv k (Value e)) -> (forall k, mayNeg c0 k -> foreignNeg k) ->
  run (start c0) es = Some s -> faithful s.
Proof.
  intros He0 Hn0.
  assert (Hst : faithful (start c0)).
  { split; cbn; [intros k e Hk; right; by apply He0 | intros k Hk; right; by apply Hn0 | intros k f; by rewrite lookup_empty|].
    intros k r' Hn. by apply elem_of_nil in Hn. }
  revert Hst. generalize (start c0). induction es as [|e es IH]; intros s0 Hs0.
  - by intros [= <-].
  - cbn [run]. destruct (step s0 e) as [s1|] eqn:E1; [cbn|done]. apply IH. by eapply fetch_step_faithful.
Qed.

(** Whatever the interleaving of calls, flights, background refreshes and
    turns of the environment (evictions, outages, other writers), and whatever the
    cache that satisfies the laws, every result [Fetch] returns for a key that is not
    of the form [k:refresh] is one that the loading function returned for that very
    key, at once or as it reads back from the cache, or one that others left or wrote
    under it: no value of another key and no invented absence. *)
Theorem fetch_only_loaded c0 es s key r :
  (forall k e, mayEnv c0 k e -> foreignEnv k (Value e)) -> (forall k, mayNeg c0 k -> foreignNeg k) ->
  run (start c0) es = Some s -> plain key -> (key, r) ∈ results s ->
  answered (loaded s) key r.
Proof. intros He0 Hn0 Hrun Hp Hin. by apply (ok_results s (run_faithful c0 es s He0 Hn0 Hrun)). Qed.
End laws.
End ops.

(** ** A local cache satisfies the laws *)

Lemma append_length s1 s2 : String.length (s1 +:+ s2) = (String.length s1 + String.length s2)%nat.
Proof. induction s1 as [|a s1 IH]; [done|]. exact (f_equal Datatypes.S IH). Qed.

Lemma suffix_inj k1 k2 : k1 +:+ negativeSuffix = k2 +:+ negativeSuffix -> k1 = k2.
Proof.
  revert k2. induction k1 as [|a k1 IH]; intros [|b k2] Heq; [done| | |].
  - exfalso. apply (f_equal String.length) in Heq. rewrite !append_length in Heq. cbn in Heq. lia.
  - exfalso. apply (f_equal String.length) in Heq. rewrite !append_length in Heq. cbn in Heq. lia.
  - injection Heq as -> Heq. f_equal. by apply IH.
Qed.

Section local_laws.
Context {T S : Type} `{LocalCacheLaws (cval T) S}.

Lemma set_cases s k k' v ttl w : cget (csetTTL s k v ttl) k' = Some w ->
  cget s k' = Some w \/ (k' = k /\ w = v).
Proof.
  intros Hk. destruct (decide (k' = k)) as [->|Hne].
  - destruct (cget_set s k v ttl) as [Hx|[Hx|Hx]]; rewrite Hx in Hk; [done|by left|]. injection Hk as <-. by right.
  - destruct (cget_set_ne s k k' v ttl Hne) as [Hx|Hx]; rewrite Hx in Hk; [done|by left].
Qed.

Lemma delete_cases s k k' w : cget (cdelete s k) k' = Some w -> cget s k' = Some w.
Proof. destruct (cget_delete s k k') as [Hx|Hx]; rewrite Hx; [done|tauto]. Qed.

#[global] Instance local_store_laws : FetchStoreLaws T S.
Proof.
  refine {| mayEnv s k e := cget s k = Some (CEnv e); mayNeg s k := cget s (k +:+ negativeSuffix) = Some CNeg;
            readBack := eq; foreignEnv _ _ := False; foreignNeg _ := False |};
    cbn [fenv fneg fput fdrop fmark fturn local_store].
  - intros s k e. unfold getEnvelope. destruct (cget s k) as [[e'|]|]; [|done|done]. by intros [= ->].
  - intros s k. unfold getNegative. by destruct (cget s (k +:+ negativeSuffix)) as [[e'|]|].
  - intros s k e t k' e' [Hk|[-> [= ->]]]%set_cases; auto.
  - intros s k e t k' [Hk|[_ Hv]]%set_cases; done.
  - intros s k k' e. apply delete_cases.
  - intros s k k'. apply delete_cases.
  - intros s k t k' e [Hk|[_ Hv]]%set_cases; done.
  - intros s k t k' [Hk|[Hk%suffix_inj _]]%set_cases; auto.
  - intros s x k e Hk. left. by apply delete_cases in Hk.
  - intros s x k Hk. left. by apply delete_cases in Hk.
Defined.
End local_laws.

(** ** A map as the cache *)

#[global] Instance map_cache (V : Type) : LocalCache V (gmap string V) := {
  cget c k := c !! k;
  cset c k v := <[k := v]> c;
  csetTTL c k v _ := <[k := v]> c;
  cdelete c k := delete k c;
}.

#[global] Instance map_cache_laws (V : Type) : LocalCacheLaws V (gmap string V).
Proof.
  split; cbn.
  - intros s k v _. right. right. by rewrite lookup_insert_eq.
  - intros s k k' v _ Hne. right. by rewrite lookup_insert_ne.
  - intros s k v k'. right. destruct (decide (k' = k)) as [->|Hne]; [right; by rewrite lookup_insert_eq|left; by rewrite lookup_insert_ne].
  - intros s k k'. destruct (decide (k' = k)) as [->|Hne]; [left; by rewrite lookup_delete_eq|right; by rewrite lookup_delete_ne].
Qed.

Section alone.
Context {T E : Type}.
#[local] Abbreviation state := (@sys T E (gmap string (cval T))).

Lemma negative_ne key : key +:+ negativeSuffix <> key.
Proof. intros Heq%(f_equal String.length). rewrite append_length in Heq. cbn in Heq. lia. Qed.

Lemma advance_miss (s : state) k key n o t :
  group s !! k = Some (mkFlight key Looking n) -> look (E := E) (cache s) key = None ->
  advance s k o t = Some (mkSys (cache s) (<[k := mkFlight key Loading n]> (group s)) (tasks s) (results s) (loaded s)).
Proof. intros Hg Hl. unfold advance. rewrite Hg. cbn. by rewrite Hl. Qed.

Lemma advance_load (s : state) k key n o t :
  group s !! k = Some (mkFlight key Loading n) ->
  advance s k o t = Some (finish s k (load (cache s) key o t).1 (load (cache s) key o t).2 n ((key, o) :: loaded s)).
Proof. intros Hg. unfold advance. rewrite Hg. cbn. by destruct (load (cache s) key o t). Qed.

(** A miss calls [fn] once and returns its outcome; then, until an eviction, the
    next call returns it from the cache without [fn], unless it was an error
    other than [ErrNotFound], which is not remembered. *)
Theorem fetch_remembers (c : gmap string (cval T)) key (o : outcome T E) t :
  c !! key = None -> c !! (key +:+ negativeSuffix) = None ->
  exists s1 : state, run (start c) (alone key o t) = Some s1 /\
    results s1 = [(key, resultOf o)] /\ loaded s1 = [(key, o)] /\ group s1 = ∅ /\ tasks s1 = [] /\
    match o with
    | OError _ => cache s1 = c
    | _ => Fetch s1 key false = mkSys (cache s1) ∅ [] [(key, resultOf o); (key, resultOf o)] [(key, o)]
    end.
Proof.
  intros Hk Hn. pose proof (negative_ne key) as Hne.
  assert (Hl : forall E', @look T E' _ local_store c key = None) by (intros; unfold look; cbn; unfold getEnvelope, getNegative; cbn; by rewrite Hk, Hn).
  unfold alone, start. cbn [run step]. unfold Fetch. cbn [cache group tasks results loaded fenv fneg local_store]. unfold getEnvelope, getNegative. cbn [cget map_cache]. rewrite Hk, Hn.
  cbn [mbind option_bind]. rewrite decide_True by left. cbn [mbind option_bind].
  unfold doTask, join. cbn [group cache tasks results loaded]. rewrite lookup_empty.
  erewrite advance_miss by (cbn; by rewrite ?lookup_insert_eq). cbn [mbind option_bind].
  erewrite advance_load by (cbn; by rewrite ?lookup_insert_eq). cbn [mbind option_bind fkey fwaiters group cache tasks results loaded].
  assert (Hd : forall f f' : flight, delete key (<[key := f]> (<[key := f']> (∅ : gmap string flight))) = ∅).
  { intros. by rewrite insert_insert_eq, delete_insert_id by apply lookup_empty. }
  destruct o as [v| |e]; cbn [load fst snd]; (eexists; split; [reflexivity|]); cbn [results loaded group tasks cache finish replicate app removeTask];
    rewrite Hd, ?decide_True by done; (repeat split); unfold Fetch; cbn [cache group tasks results loaded fenv fneg fput fdrop fmark local_store]; unfold getEnvelope, getNegative; cbn [cget csetTTL cdelete map_cache].
  - by rewrite lookup_insert_eq.
  - rewrite lookup_insert_ne, lookup_delete_eq by done. by rewrite lookup_insert_eq.
Qed.
End alone.

#[local] Abbreviation t0 := (mkTiming 0 100 30 5).

(** A cached refresh and a call under the key ["a:refresh"] meet in the group:
    the call returns the value of ["a"]. *)
Theorem fetch_refresh_key_collides :
  run (E := Empty_set) (start (∅ : gmap string (cval nat)))
    (alone "a" (OValue 1%nat) t0 ++
     [Call "a" true; Do (RefreshAsync "a"); Call "a:refresh" false; Do (DoTyped "a:refresh");
      Advance "a:refresh" (OValue 2%nat) t0])
  ≫= (fun s => head (results s)) = Some ("a:refresh", RValue 2%nat) /\
  run (E := Empty_set) (start (∅ : gmap string (cval nat)))
    (alone "a" (OValue 1%nat) t0 ++
     [Call "a" true; Do (RefreshAsync "a"); Call "a:refresh" false; Do (DoTyped "a:refresh");
      Advance "a:refresh" (OValue 2%nat) t0])
  ≫= (fun s => Some (loaded s)) = Some [("a", OValue 2%nat); ("a", OValue 1%nat)].
Proof. split; vm_compute; reflexivity. Qed.

Lemma fetch_only_loaded_witness :
  exists o : outcome nat Empty_set, ("a", o) ∈ [("a", OValue 2%nat); ("b", ONotFound); ("a", OValue 1%nat)] /\ RValue 1%nat = resultOf o.
Proof.
  assert (Hp : plain "a").
  { intros k Hk. apply (f_equal String.length) in Hk. rewrite append_length in Hk. cbn in Hk. lia. }
  destruct (fetch_only_loaded (∅ : gmap string (cval nat))
    (alone "a" (OValue 1%nat) t0 ++ alone "b" ONotFound t0 ++
      [Call "a" true; Do (RefreshAsync "a"); @Environment nat Empty_set (gmap string (cval nat)) local_store "b"; Advance "a:refresh" (OValue 2%nat) t0])
    (mkSys {["a" := CEnv (mkEnvelope 2%nat 100 5); "b:neg" := CNeg]} ∅ []
       [("a", RValue 1%nat); ("b", RNotFound); ("a", RValue 1%nat)]
       [("a", OValue 2%nat); ("b", ONotFound); ("a", OValue 1%nat)]) "a" (RValue 1%nat))
    as [(o & Ho & [Hr|(v & v' & -> & <- & Hr)])|[(v & [] & _)|([] & _)]].
  - intros k e. cbn. rewrite lookup_empty. discriminate.
  - intros k. cbn. rewrite lookup_empty. discriminate.
  - vm_compute. reflexivity.
  - exact Hp.
  - cbn. left.
  - exists o. split; [exact Ho | exact Hr].
  - exists (OValue v). split; [exact Ho | exact Hr].
Defined.
