(* ===== verification/Http.v ===== *)
(** * Errors and responses ([src/pkg/common/apperr], [src/pkg/common/http/response],
    [src/pkg/common/http/request/parse.go], [src/pkg/common/http/handler/wrapper.go])

    Application errors with their codes, the mapping of codes to HTTP statuses,
    the bodies of success and error responses, and the wrapper that turns a
    typed handler into a route: parse, validate, call, render.  What gin binds
    and what the validation library finds are arguments; a response is the pair
    of status and body handed to [c.JSON]. *)

From stdpp Require Import base list option gmap strings pretty.
From Stdlib Require Import ZArith Lia.
From S2P Require Import Prelude Web.

#[local] Open Scope Z_scope.

(** ** Application errors *)

Definition CodeSuccess : Z := 20000.
Definition CodeCreated : Z := 20001.
Definition CodeUpdated : Z := 20002.
Definition CodeDeleted : Z := 20003.
Definition CodeRetrieved : Z := 20004.
Definition CodeParamInvalid : Z := 40000.
Definition CodeValidationFailed : Z := 40001.
Definition CodeBadRequest : Z := 40002.
Definition CodeInvalidID : Z := 40003.
Definition CodeBodyTooLarge : Z := 40005.
Definition CodeUnauthorized : Z := 41000.
Definition CodeInvalidToken : Z := 41001.
Definition CodeTokenExpired : Z := 41002.
Definition CodeInvalidPassword : Z := 41003.
Definition CodeAccountNotFound : Z := 41004.
Definition CodeTooManyRequests : Z := 42900.
Definition CodeForbidden : Z := 43000.
Definition CodeNotFound : Z := 44000.
Definition CodeConflict : Z := 49000.
Definition CodeInternalServer : Z := 50000.
Definition CodeDatabaseError : Z := 50001.
Definition CodeMongoDBError : Z := 50002.
Definition CodeRedisError : Z := 50003.

(** Errors of Go as far as they matter here: a text, a text that wraps other
    errors ([%w], [errors.Join]), and [*AppError].  [D] is what [any] holds. *)
Inductive error (D : Type) :=
  | Plain (msg : string)
  | Wrapped (msg : string) (inner : list (error D))
  | App (code : Z) (message : string) (details : option D) (cause : option (error D)).
Arguments Plain {D}. Arguments Wrapped {D}. Arguments App {D}.

Record AppError (D : Type) := mkAppError {
  Code : Z; Message : string; Details : option D; RootCause : option (error D);
}.
Arguments mkAppError {D}. Arguments Code {D}. Arguments Message {D}. Arguments Details {D}. Arguments RootCause {D}.

Section errors.
Context {D : Type}.

(** [errors.As] with a [*AppError] target: depth first through what is wrapped. *)
Fixpoint asApp (e : error D) : option (AppError D) :=
  match e with
  | Plain _ => None
  | App c m d r => Some (mkAppError c m d r)
  | Wrapped _ es =>
      (fix go (es : list (error D)) : option (AppError D) :=
         match es with
         | [] => None
         | e :: es => match asApp e with Some a => Some a | None => go es end
         end) es
  end.

Definition New (code : Z) (message : string) (cause : option (error D)) : error D := App code message None cause.

Definition WithDetails (e : error D) (d : D) : error D :=
  match e with App c m _ r => App c m (Some d) r | _ => e end.

Definition Unwrap (e : error D) : list (error D) :=
  match e with Plain _ => [] | Wrapped _ es => es | App _ _ _ r => option_list r end.

(** [Error()]. *)
Fixpoint errorText (e : error D) : string :=
  match e with
  | Plain m | Wrapped m _ => m
  | App c m _ None => "code=" +:+ pretty c +:+ " msg=" +:+ m
  | App c m _ (Some r) => "code=" +:+ pretty c +:+ " msg=" +:+ m +:+ " cause=" +:+ errorText r
  end.

(** [Entity]: errors scoped to an entity name. *)
Definition NotFound (e : string) (err : error D) := New CodeNotFound (e +:+ " not found") (Some err).
Definition CreateFailed (e : string) (err : error D) := New CodeDatabaseError ("failed to create " +:+ e) (Some err).
Definition GetFailed (e : string) (err : error D) := New CodeDatabaseError ("failed to get " +:+ e) (Some err).
Definition UpdateFailed (e : string) (err : error D) := New CodeDatabaseError ("failed to update " +:+ e) (Some err).
Definition DeleteFailed (e : string) (err : error D) := New CodeDatabaseError ("failed to delete " +:+ e) (Some err).
Definition SaveFailed (e : string) (err : error D) := New CodeDatabaseError ("failed to save " +:+ e) (Some err).
Definition ProcessFailed (e : string) (err : error D) := New CodeInternalServer ("failed to process " +:+ e) (Some err).
End errors.

(** ** Codes and statuses *)

Definition httpCodeOverrides : gmap Z Z := list_to_map [
  (CodeCreated, 201); (CodeValidationFailed, 422); (CodeBodyTooLarge, 413); (CodeAccountNotFound, 404)].

Definition httpCodeRanges : list (Z * Z * Z) := [
  (20000, 30000, 200); (40000, 41000, 400); (41000, 42000, 401); (42900, 43000, 429);
  (43000, 44000, 403); (44000, 45000, 404); (49000, 50000, 409); (50000, 60000, 500)].

Fixpoint rangeStatus (rs : list (Z * Z * Z)) (code : Z) : Z :=
  match rs with
  | [] => 500
  | (lo, hi, status) :: rs => if (lo <=? code) && (code <? hi) then status else rangeStatus rs code
  end.

Definition GetHTTPCode (code : Z) : Z :=
  match httpCodeOverrides !! code with Some status => status | None => rangeStatus httpCodeRanges code end.

Definition MsgTable : gmap Z string := list_to_map [
  (CodeSuccess, "Success"); (CodeCreated, "Resource created successfully");
  (CodeUpdated, "Resource updated successfully"); (CodeDeleted, "Resource deleted successfully");
  (CodeRetrieved, "Resource retrieved successfully"); (CodeParamInvalid, "Invalid parameters");
  (CodeValidationFailed, "Validation failed"); (CodeBadRequest, "Bad request");
  (CodeInvalidID, "Invalid ID format"); (CodeBodyTooLarge, "Request body too large");
  (CodeUnauthorized, "Unauthorized"); (CodeInvalidToken, "Invalid token");
  (CodeTokenExpired, "Token expired"); (CodeInvalidPassword, "Invalid password");
  (CodeAccountNotFound, "Account not found"); (CodeForbidden, "Forbidden");
  (CodeNotFound, "Resource not found"); (CodeTooManyRequests, "Too many requests");
  (CodeConflict, "Conflict"); (CodeInternalServer, "Internal server error");
  (CodeDatabaseError, "Database error"); (CodeMongoDBError, "MongoDB error");
  (CodeRedisError, "Redis error")]%string.

(** [Msg[code]]: a missing key gives the empty string. *)
Definition Msg (code : Z) : string := default EmptyString (MsgTable !! code).

(** ** Responses *)

Section response.
Context {D : Type}.

Record Body := mkBody {
  bcode : Z; bmessage : string; bdata : option D; bpagination : option Page.PaginationMeta; bcid : string;
}.

(** What [c.JSON] is called with. *)
Definition response : Type := Z * Body.

Record Reply := mkReply { rcode : Z; rdata : option D; rpagination : option Page.PaginationMeta }.
Definition Created (d : option D) : Reply := mkReply CodeCreated d None.
Definition Updated (d : option D) : Reply := mkReply CodeUpdated d None.
Definition Deleted (d : option D) : Reply := mkReply CodeDeleted d None.
Definition Paginated (d : option D) (meta : Page.PaginationMeta) : Reply := mkReply CodeSuccess d (Some meta).
Definition With (code : Z) (d : option D) : Reply := mkReply code d None.

(** What a handler returns: a [*Reply] (perhaps nil, rendered as null) or data. *)
Inductive hresult := HReply (r : option Reply) | HData (d : option D).

Definition SuccessResponse (code : Z) (d : option D) : response :=
  (GetHTTPCode code, mkBody code (Msg code) d None EmptyString).

Definition Respond (res : hresult) : response :=
  match res with
  | HReply (Some r) => (GetHTTPCode (rcode r), mkBody (rcode r) (Msg (rcode r)) (rdata r) (rpagination r) EmptyString)
  | HReply None => SuccessResponse CodeSuccess None
  | HData d => SuccessResponse CodeSuccess d
  end.

Definition ErrorResponse (cid : string) (code : Z) (err : error D) : response :=
  match asApp err with
  | Some a =>
      let msg := if decide (Message a = EmptyString) then Msg (Code a) else Message a in
      (GetHTTPCode (Code a), mkBody (Code a) msg (Details a) None cid)
  | None => (GetHTTPCode code, mkBody code (Msg code) None None cid)
  end.

(** ** Parsing and wrapping *)

(** What binding the JSON body reports: an empty body is [io.EOF]. *)
Inductive bindError := BindEOF (e : error D) | BindTooLarge (e : error D) | BindOther (e : error D).

(** One message of validation. *)
Record FieldError := mkFieldError { Field : string; FMessage : string }.

(** What gin and the validator do with one request: the bindings fill in the struct (the
    errors of the first two are ignored), [Validate] looks at the result, and [details]
    is the map of its messages as it is rendered. *)
Record binder (T : Type) := mkBinder {
  zero : T;
  ShouldBindUri : T -> T;
  ShouldBindQuery : T -> T;
  ShouldBindJSON : T -> T * option bindError;
  Validate : T -> list FieldError;
  details : list FieldError -> D;
}.

Definition ParseRequest {T} (c : binder T) : T + error D :=
  let req := zero _ c in
  let req := ShouldBindUri _ c req in
  let req := ShouldBindQuery _ c req in
  let '(req, err) := ShouldBindJSON _ c req in
  match err with
  | Some (BindTooLarge e) => inr (New CodeBodyTooLarge "request body too large" (Some e))
  | Some (BindOther e) => inr (New CodeParamInvalid "invalid request body" (Some e))
  | _ =>
      match Validate _ c req with
      | m :: ms => inr (WithDetails (New CodeValidationFailed (FMessage m) None) (details _ c (m :: ms)))
      | [] => inl req
      end
  end.

(** [fail]: the error goes to the request log and is rendered. *)
Definition fail (cid : string) (fallback : Z) (err : error D) : response * list (error D) :=
  (ErrorResponse cid fallback err, [err]).

(** [Wrap] and [WrapNoReq]: the response, what is logged, and the state of the program,
    which only the handler changes. *)
Definition Wrap {T S} (cid : string) (h : T -> S -> (hresult + error D) * S) (c : binder T) (s : S)
    : response * list (error D) * S :=
  match ParseRequest c with
  | inr err => (fail cid CodeParamInvalid err, s)
  | inl req =>
      let '(res, s) := h req s in
      match res with
      | inr err => (fail cid CodeInternalServer err, s)
      | inl res => (Respond res, [], s)
      end
  end.
Definition WrapNoReq {S} (cid : string) (h : S -> (hresult + error D) * S) (s : S)
    : response * list (error D) * S :=
  let '(res, s) := h s in
  match res with
  | inr err => (fail cid CodeInternalServer err, s)
  | inl res => (Respond res, [], s)
  end.
End response.
Arguments Body : clear implicits. Arguments response : clear implicits. Arguments Reply : clear implicits.
Arguments hresult : clear implicits. Arguments bindError : clear implicits. Arguments binder : clear implicits.
Arguments zero {D T}. Arguments ShouldBindUri {D T}. Arguments ShouldBindQuery {D T}.
Arguments ShouldBindJSON {D T}. Arguments Validate {D T}. Arguments details {D T}.

(** ** Statuses *)

Definition statuses : list Z := [200; 201; 400; 401; 403; 404; 409; 413; 422; 429; 500].

(** The overrides as comparisons. *)
Lemma overrides_eq code : httpCodeOverrides !! code =
  if code =? CodeCreated then Some 201 else if code =? CodeValidationFailed then Some 422
  else if code =? CodeBodyTooLarge then Some 413 else if code =? CodeAccountNotFound then Some 404 else None.
Proof.
  unfold httpCodeOverrides. cbn [list_to_map foldr]. cbn [uncurry fst snd].
  repeat (rewrite lookup_insert; match goal with |- _ = if ?c =? ?k then _ else _ =>
    destruct (Z.eqb_spec c k); [by rewrite decide_True|rewrite decide_False by done] end).
  apply lookup_empty.
Qed.

Lemma rangeStatus_spec rs code :
  (exists lo hi, (lo, hi, rangeStatus rs code) ∈ rs /\ lo <= code < hi) \/
  (rangeStatus rs code = 500 /\ Forall (fun r => ~ (r.1.1 <= code < r.1.2)) rs).
Proof.
  induction rs as [|[[lo hi] st] rs IH]; cbn [rangeStatus]; [by right|].
  destruct (Z.leb_spec lo code); destruct (Z.ltb_spec code hi); cbn [andb].
  { left. exists lo, hi. split; [left|lia]. }
  all: destruct IH as [(lo' & hi' & Hin & Hr)|[E HF]];
    [left; exists lo', hi'; split; [by right|done]|right; split; [done|constructor; [cbn; lia|done]]].
Qed.

(** Every code has one of the listed statuses, and it is a success exactly when
    the code lies between 20000 and 29999. *)
Lemma GetHTTPCode_spec code : GetHTTPCode code ∈ statuses /\ (GetHTTPCode code < 300 <-> 20000 <= code < 30000).
Proof.
  unfold GetHTTPCode. rewrite overrides_eq. unfold CodeCreated, CodeValidationFailed, CodeBodyTooLarge, CodeAccountNotFound.
  unfold statuses. rewrite !elem_of_cons, elem_of_nil.
  destruct (Z.eqb_spec code 20001); [lia|]. destruct (Z.eqb_spec code 40001); [lia|].
  destruct (Z.eqb_spec code 40005); [lia|]. destruct (Z.eqb_spec code 41004); [lia|].
  destruct (rangeStatus_spec httpCodeRanges code) as [(lo & hi & Hin & Hr)|[-> HF]].
  - revert Hin. generalize (rangeStatus httpCodeRanges code). intros st Hin. unfold httpCodeRanges in Hin. rewrite !elem_of_cons, elem_of_nil in Hin.
    repeat (destruct Hin as [Hin|Hin]; [injection Hin as -> -> ->; lia|]). done.
  - apply Forall_cons in HF as [HF _]. cbn in HF. lia.
Qed.

(** ** Error responses *)

Section theorems.
Context {D : Type}.
Implicit Types (e : error D).

(** What a client may learn from an error: the code, message and details of the
    first application error in its chain. *)
Definition public (e : error D) : option (Z * string * option D) :=
  a ← asApp e; Some (Code a, Message a, Details a).

Lemma ErrorResponse_public cid code e :
  ErrorResponse cid code e =
  match public e with
  | Some (c, m, d) => (GetHTTPCode c, mkBody c (if decide (m = EmptyString) then Msg c else m) d None cid)
  | None => (GetHTTPCode code, mkBody code (Msg code) None None cid)
  end.
Proof. unfold ErrorResponse, public. by destruct (asApp e). Qed.

(** C24: An error response shows nothing but what is public: two errors with the
    same code, message and details in their first application error get the same
    response, whatever else their chains say; wrapping an error changes nothing;
    and the status is a failure unless the code is one of success. *)
Theorem errorresponse_sealed cid code e :
  (forall e', public e = public e' -> ErrorResponse cid code e = ErrorResponse cid code e') /\
  (forall msg, ErrorResponse cid code (Wrapped msg [e]) = ErrorResponse cid code e) /\
  (forall c m d cause, asApp e = Some (mkAppError c m d cause) ->
     ErrorResponse cid code e = ErrorResponse cid code (App c m d None)) /\
  let '(status, b) := ErrorResponse cid code e in
  status = GetHTTPCode (bcode b) /\ status ∈ statuses /\ bcid b = cid /\
  (bcode b = code \/ exists a, asApp e = Some a /\ bcode b = Code a) /\
  (~ (20000 <= bcode b < 30000) -> 400 <= status).
Proof.
  split; [intros e' He; by rewrite !ErrorResponse_public, He|].
  split; [intros msg; rewrite !ErrorResponse_public; unfold public; cbn; by destruct (asApp e)|].
  split; [intros c m d cause He; unfold ErrorResponse; by rewrite He|].
  assert (Hst : forall c, ~ (20000 <= c < 30000) -> 400 <= GetHTTPCode c).
  { intros c Hc. destruct (GetHTTPCode_spec c) as [Hin Hs]. unfold statuses in Hin.
    rewrite !elem_of_cons, elem_of_nil in Hin. lia. }
  unfold ErrorResponse. destruct (asApp e) as [a|] eqn:Ea; cbn [bcode bcid].
  - split; [done|]. split; [apply GetHTTPCode_spec|]. split; [done|]. split; [right; by exists a|apply Hst].
  - split; [done|]. split; [apply GetHTTPCode_spec|]. split; [done|]. split; [by left|apply Hst].
Qed.

(** C28: A wrapped handler guards its input.  The struct is bound from the path, the query
    and the body, in this order, and validated as it then is.  A body that is too large or
    does not bind, and a struct that does not validate, are refused with 413, 400 or 422
    and the messages of validation, and the handler is not run: the state is as before,
    whatever the handler would do.  Otherwise it is run once, on that struct, and its
    result or error is rendered.  Every error that is rendered is what is logged, with its
    cause; a success logs nothing; and an error without an application error is a 500. *)
Theorem wrap_guards {T S} cid (h : T -> S -> (hresult D + error D) * S) (c : binder D T) s :
  let '(req, err) := ShouldBindJSON c (ShouldBindQuery c (ShouldBindUri c (zero c))) in
  let refused e status :=
    Wrap cid h c s = (ErrorResponse cid CodeParamInvalid e, [e], s) /\
    (ErrorResponse cid CodeParamInvalid e).1 = status /\ bcid (ErrorResponse cid CodeParamInvalid e).2 = cid in
  match err, Validate c req with
  | Some (BindTooLarge e), _ => refused (New CodeBodyTooLarge "request body too large" (Some e)) 413
  | Some (BindOther e), _ => refused (New CodeParamInvalid "invalid request body" (Some e)) 400
  | _, m :: ms =>
      let e := WithDetails (New CodeValidationFailed (FMessage m) None) (details c (m :: ms)) in
      refused e 422 /\ bdata (ErrorResponse cid CodeParamInvalid e).2 = Some (details c (m :: ms))
  | _, [] =>
      let '(res, s') := h req s in
      match res with
      | inl res => Wrap cid h c s = (Respond res, [], s')
      | inr e => Wrap cid h c s = (ErrorResponse cid CodeInternalServer e, [e], s') /\
                 (asApp e = None -> (ErrorResponse cid CodeInternalServer e).1 = 500)
      end
  end.
Proof.
  unfold Wrap, ParseRequest. destruct (ShouldBindJSON c _) as [req err].
  assert (H500 : forall e, asApp e = None -> (ErrorResponse cid CodeInternalServer e).1 = 500)
    by (intros e He; unfold ErrorResponse; by rewrite He).
  destruct err as [[e|e|e]|]; destruct (Validate c req) as [|m ms];
    first [destruct (h req s) as [[res|e'] s']; [done | split; [done | apply H500]] | by vm_compute | idtac].
Qed.
End theorems.
