(* ===== verification/Middleware.v ===== *)
(** * HTTP middlewares ([src/pkg/common/http/middlewares])

    Authentication, authorization, permissions with their cache, the circuit
    breaker of a route, chains of handlers and the enrichers that run in
    parallel.  A handler maps the request context to the context after it; the
    remaining handlers that [c.Next()] runs are an argument.  The token
    library, the provider of roles and the enforcer of policies are arguments
    too, the cache is the interface of Fetch.v. *)

From stdpp Require Import base list option gmap strings pretty.
From Stdlib Require Import ZArith Lia Ascii.
From S2P Require Import Prelude Algorithm Fetch Http.

#[local] Open Scope Z_scope.

Section mw.
Context {D : Type}.

(** ** The request context *)

(** The user ID in the context of the request, whether the chain is aborted,
    and the responses written, the first of which counts. *)
Record gctx := mkCtx { userID : option string; aborted : bool; out : list (response D) }.

Definition Next : Type := gctx -> gctx.

(** [response.ErrorResponse] with a new application error, and [c.Abort()].  The
    cause such an error may carry is not part of the response. *)
Definition reject (cid : string) (code : Z) (msg : string) (c : gctx) : gctx :=
  mkCtx (userID c) true (out c ++ [ErrorResponse cid code (Http.New code msg None)]).

(** [c.Writer.Status()]. *)
Definition status (c : gctx) : Z := match out c with [] => 200 | (st, _) :: _ => st end.

(** ** Authentication *)

Definition TokenTypeBearer : string := "Bearer".

(** [strings.Split(s, " ")]. *)
Fixpoint splitSpace (s : string) : list string :=
  match s with
  | EmptyString => [EmptyString]
  | String a s =>
      if decide (a = " "%char) then EmptyString :: splitSpace s
      else match splitSpace s with p :: ps => String a p :: ps | [] => [String a EmptyString] end
  end.

Record Claims := mkClaims { cUserID : string; cUsername : string; cType : string }.

(** What [jwt.ParseWithClaims] returns: an error, or a token with its validity. *)
Inductive parsed := ParseError | Token (valid : bool) (claims : Claims).

(** The key function: tokens with another signing method are refused. *)
Definition keyFunc (isRSA : bool) : bool := isRSA.

(** The token of a well-formed header. *)
Definition bearer (header : string) : option string :=
  match splitSpace header with [p; tok] => if decide (p = TokenTypeBearer) then Some tok else None | _ => None end.

Definition Authentication (ParseWithClaims : (bool -> bool) -> string -> parsed) (cid header : string) (next : Next) (c : gctx) : gctx :=
  if decide (header = EmptyString) then reject cid CodeUnauthorized "missing authorization header" c
  else match bearer header with
  | None => reject cid CodeUnauthorized "invalid authorization header format" c
  | Some tok =>
      match ParseWithClaims keyFunc tok with
      | Token true claims => next (mkCtx (Some (cUserID claims)) (aborted c) (out c))
      | _ => reject cid CodeUnauthorized "invalid or expired token" c
      end
  end.

Definition OptionalAuthentication (ParseWithClaims : (bool -> bool) -> string -> parsed) (header : string) (next : Next) (c : gctx) : gctx :=
  if decide (header = EmptyString) then next c
  else match bearer header with
  | None => next c
  | Some tok =>
      match ParseWithClaims keyFunc tok with
      | Token true claims => next (mkCtx (Some (cUserID claims)) (aborted c) (out c))
      | _ => next c
      end
  end.

(** ** Authorization by an enforcer *)

Definition RequireAction (Enforce : string -> option bool) (cid : string) (next : Next) (c : gctx) : gctx :=
  match userID c with
  | None => reject cid CodeUnauthorized "user not authenticated" c
  | Some uid =>
      match Enforce uid with
      | None => reject cid CodeForbidden "failed to check permissions" c
      | Some true => next c
      | Some false => reject cid CodeForbidden "permission denied" c
      end
  end.

(** ** Permissions *)

Record PermissionProvider := mkProvider {
  UserRoleID : string -> option Z;
  RolePermissions : Z -> option (gmap Z Z);
  ResourceID : string -> Z;
}.

(** What the local cache holds: permissions, or values of other users of it. *)
Inductive cached := CPerms (perms : gmap Z Z) | COther.

Definition cacheKeyPrefixRolePermissions : string := "role_perms::".
Definition cacheKey (roleID : Z) : string := cacheKeyPrefixRolePermissions +:+ pretty roleID.

Section permission.
Context {S : Type} `{LocalCache cached S}.

Definition getRolePermissions (p : PermissionProvider) (s : S) (roleID : Z) : S * option (gmap Z Z) :=
  match cget s (cacheKey roleID) with
  | Some (CPerms perms) => (s, Some perms)
  | _ =>
      match RolePermissions p roleID with
      | None => (s, None)
      | Some perms => (cset s (cacheKey roleID) (CPerms perms), Some perms)
      end
  end.

Definition RequirePermission (p : PermissionProvider) (resourceKey : string) (requiredScope : Z)
    (cid : string) (next : Next) (s : S) (c : gctx) : S * gctx :=
  match userID c with
  | None => (s, reject cid CodeUnauthorized "user not authenticated" c)
  | Some uid =>
      match UserRoleID p uid with
      | None => (s, reject cid CodeForbidden "user not found" c)
      | Some roleID =>
          match getRolePermissions p s roleID with
          | (s, None) => (s, reject cid CodeForbidden "failed to load permissions" c)
          | (s, Some perms) =>
              if ResourceID p resourceKey =? 0 then (s, reject cid CodeForbidden "unknown resource" c)
              else match perms !! ResourceID p resourceKey with
              | Some scopeMask =>
                  if Z.land scopeMask requiredScope =? requiredScope then (s, next c)
                  else (s, reject cid CodeForbidden "permission denied" c)
              | None => (s, reject cid CodeForbidden "permission denied" c)
              end
          end
      end
  end.
End permission.

(** ** The circuit breaker of a route *)

Definition cbServerErrorThreshold : Z := 500.

(** [t1] and [t2] are the clock before and after the handler. *)
Definition CircuitBreakerMiddleware (t1 t2 : Z) (cid : string) (next : Next) (cb : Breaker.CircuitBreaker) (c : gctx)
    : Breaker.CircuitBreaker * gctx :=
  match Breaker.Allow t1 cb with
  | (cb, _, false) => (cb, reject cid CodeInternalServer "service temporarily unavailable" c)
  | (cb, _, true) =>
      let c := next c in
      if cbServerErrorThreshold <=? status c then ((Breaker.RecordFailure t2 cb).1, c)
      else ((Breaker.RecordSuccess cb).1, c)
  end.

(** ** Chains and enrichers *)

Fixpoint composeLoop (chain : list Next) (c : gctx) : gctx :=
  match chain with [] => c | h :: chain => if aborted c then c else composeLoop chain (h c) end.
Definition Compose (mws : list Next) (final : Next) (c : gctx) : gctx := composeLoop (mws ++ [final]) c.

(** The store of a request: values by key; an error is told by its type. *)
Inductive stored (V : Type) := SError (e : error D) | SValue (v : V).
Arguments SError {V}. Arguments SValue {V}.

Definition EnrichAbortKey : string := "__enrich_abort".

Section parallel.
Context {V : Type}.
#[local] Abbreviation store := (gmap string (stored V)).

Definition set (s : store) (w : string * stored V) : store := <[w.1 := w.2]> s.
Definition get (s : store) (key : string) : option (stored V) := s !! key.
Definition Abort (e : error D) : string * stored V := (EnrichAbortKey, SError e).
Definition AbortError (s : store) : option (error D) :=
  match get s EnrichAbortKey with Some (SError e) => Some e | _ => None end.

(** [Parallel]: [writes] are the calls of [Set] by all handlers, in the order in
    which the lock lets them through. *)
Definition Parallel (cid : string) (writes : list (string * stored V)) (s : store) (c : gctx) : store * gctx :=
  let s := foldl set s writes in
  match AbortError s with
  | Some e => (s, mkCtx (userID c) true (out c ++ [ErrorResponse cid CodeInternalServer e]))
  | None => (s, c)
  end.
End parallel.
End mw.
Arguments gctx : clear implicits. Arguments Next : clear implicits.
Arguments stored : clear implicits. Arguments SError {D V}. Arguments SValue {D V}.

(** ** Who gets through *)

Section gates.
Context {D : Type}.
Implicit Types (c : gctx D) (next : Next D).

(** The answer of a middleware that lets nobody through. *)
Definition refused (st : Z) (c c' : gctx D) : Prop :=
  aborted c' = true /\ userID c' = userID c /\ exists b, out c' = out c ++ [(st, b)] /\ bdata b = None.

Lemma reject_401 cid msg c : refused 401 c (reject cid CodeUnauthorized msg c).
Proof. split; [done|]. split; [done|]. eexists. split; reflexivity. Qed.
Lemma reject_403 cid msg c : refused 403 c (reject cid CodeForbidden msg c).
Proof. split; [done|]. split; [done|]. eexists. split; reflexivity. Qed.
#[local] Hint Resolve reject_401 reject_403 : gate.

Fixpoint noSpace (s : string) : bool :=
  match s with EmptyString => true | String a s => negb (bool_decide (a = " "%char)) && noSpace s end.

Lemma splitSpace_ne s : splitSpace s <> [].
Proof. destruct s as [|a s]; cbn; [done|]. case_decide; [done|]. by destruct (splitSpace s). Qed.

Lemma splitSpace_one s p : splitSpace s = [p] <-> s = p /\ noSpace s = true.
Proof.
  revert p. induction s as [|a s IH]; intros p; cbn [splitSpace noSpace].
  - split; [intros [= <-]; done|intros [<- _]; done].
  - case_decide as Ha; [subst a; cbn|].
    + split; [|by intros [_ ?]]. intros [= _ E]. by apply splitSpace_ne in E.
    + rewrite bool_decide_false by done. cbn [negb andb]. pose proof (splitSpace_ne s) as Hne.
      destruct (splitSpace s) as [|q [|r qs]] eqn:E; [done| |].
      * destruct (proj1 (IH q) eq_refl) as [<- Hn]. rewrite Hn.
        split; [intros [= <-]; done|intros [<- _]; done].
      * split; [done|]. intros [_ Hn]. pose proof (proj2 (IH s) (conj eq_refl Hn)). done.
Qed.

Lemma splitSpace_app w s : noSpace w = true -> splitSpace (w +:+ " " +:+ s) = w :: splitSpace s.
Proof.
  induction w as [|a w IH]; [done|]. cbn [noSpace]. intros [Ha Hw]%andb_true_iff.
  change ((String a w) +:+ " " +:+ s) with (String a (w +:+ " " +:+ s)). cbn [splitSpace].
  rewrite IH by done. case_decide as Hd; [|done]. by rewrite bool_decide_true in Ha.
Qed.

(** The header that carries a token. *)
Lemma bearer_spec header tok : bearer header = Some tok <-> header = TokenTypeBearer +:+ " " +:+ tok /\ noSpace tok = true.
Proof.
  unfold bearer. split.
  - intros Hb. destruct (splitSpace header) as [|p [|q [|r ps]]] eqn:E; try done. case_decide as Hp; [|done].
    injection Hb as ->. subst p. revert E. unfold TokenTypeBearer.
    enough (G : forall w h, noSpace w = true -> splitSpace h = [w; tok] -> h = w +:+ " " +:+ tok /\ noSpace tok = true)
      by (intros E; by apply G).
    clear header. induction w as [|a w IH]; intros h Hw; destruct h as [|b h]; cbn [splitSpace]; try done.
    + case_decide as Hb; [subst b|by destruct (splitSpace h)]. intros [= E]. apply splitSpace_one in E as [-> Hn]. done.
    + case_decide as Hb; [done|]. destruct (splitSpace h) as [|q qs] eqn:E; [by apply splitSpace_ne in E|].
      intros [= -> -> ->]. cbn in Hw. apply andb_true_iff in Hw as [_ Hw].
      destruct (IH h Hw E) as [-> Hn]. done.
  - intros [-> Hn]. pose proof (proj2 (splitSpace_one tok tok) (conj eq_refl Hn)) as E.
    rewrite splitSpace_app, E by done. by rewrite decide_True.
Qed.

(** C23: Authentication is complete and sound: a request reaches the rest of the
    chain exactly when its header is [Bearer] and one token without spaces that
    the token library accepts with an RSA key, and then with the user of that
    token; every other request is refused with status 401 and does not reach
    it.  The optional variant lets every request through, with a user in
    the same cases only. *)
Theorem authentication_gate (rsa : string -> bool) ParseWithClaims cid header next c :
  (forall kf tok, kf (rsa tok) = false -> ParseWithClaims kf tok = ParseError) ->
  let good tok claims := header = TokenTypeBearer +:+ " " +:+ tok /\ noSpace tok = true /\ rsa tok = true /\
    ParseWithClaims keyFunc tok = Token true claims in
  (exists tok claims, good tok claims /\
     Authentication ParseWithClaims cid header next c = next (mkCtx (Some (cUserID claims)) (aborted c) (out c)) /\
     OptionalAuthentication ParseWithClaims header next c = next (mkCtx (Some (cUserID claims)) (aborted c) (out c))) \/
  ((forall tok claims, ~ good tok claims) /\
     refused 401 c (Authentication ParseWithClaims cid header next c) /\
     OptionalAuthentication ParseWithClaims header next c = next c).
Proof.
  intros Hkey good. unfold Authentication, OptionalAuthentication. case_decide as Hh.
  { right. split; [|split; [auto with gate|done]]. intros tok claims (E & _). by rewrite Hh in E. }
  destruct (bearer header) as [tok|] eqn:E.
  - pose proof (proj1 (bearer_spec header tok) E) as [E1 E2].
    assert (Hinj : forall tok' claims, good tok' claims -> tok' = tok).
    { intros tok' claims (E1' & E2' & _). pose proof (proj2 (bearer_spec header tok') (conj E1' E2')) as E'. congruence. }
    destruct (ParseWithClaims keyFunc tok) as [|[] claims] eqn:Ep.
    + right. split; [|split; [auto with gate|done]]. intros tok' claims G. rewrite (Hinj tok' claims G) in G.
      destruct G as (_ & _ & _ & G). congruence.
    + left. exists tok, claims. split; [|done]. split; [done|]. split; [done|]. split; [|done].
      destruct (rsa tok) eqn:Er; [done|]. by rewrite (Hkey keyFunc tok Er) in Ep.
    + right. split; [|split; [auto with gate|done]]. intros tok' claims' G. rewrite (Hinj tok' claims' G) in G.
      destruct G as (_ & _ & _ & G). congruence.
  - right. split; [|split; [auto with gate|done]]. intros tok claims (E1 & E2 & _).
    pose proof (proj2 (bearer_spec header tok) (conj E1 E2)). congruence.
Qed.
End gates.

(** ** Permissions over time *)

Section permissions.
Context {D S : Type} `{LocalCache cached S}.

(** Requests with the provider's answers at that time, and evictions; a request
    is recorded with the context it left. *)
Inductive pevent :=
  | Request (p : PermissionProvider) (uid : option string) (key : string) (scope : Z)
  | PEvict (key : string).

(** The cache, and all permissions the provider has returned. *)
Record pstate := mkPState { pcache : S; answered : list (Z * gmap Z Z) }.

(** What a request asks the provider for, if it gets that far. *)
Definition asked (p : PermissionProvider) (uid : option string) (s : S) : list (Z * gmap Z Z) :=
  match uid ≫= UserRoleID p with
  | Some role =>
      match cget s (cacheKey role) with
      | Some (CPerms _) => []
      | _ => match RolePermissions p role with Some perms => [(role, perms)] | None => [] end
      end
  | None => []
  end.

(** A request passes when the handler behind it runs. *)
Definition passes (cid : string) (p : PermissionProvider) (uid : option string) (key : string) (scope : Z) (s : S) : S * gctx D :=
  RequirePermission p key scope cid (fun c => mkCtx (userID c) (aborted c) (out c ++ [(200, mkBody 0 EmptyString None None EmptyString)]))
    s (mkCtx uid false []).

Definition pstep (cid : string) (st : pstate) (e : pevent) : pstate * list (gctx D) :=
  match e with
  | Request p uid key scope =>
      let '(s, c) := passes cid p uid key scope (pcache st) in
      (mkPState s (asked p uid (pcache st) ++ answered st), [c])
  | PEvict key => (mkPState (cdelete (pcache st) key) (answered st), [])
  end.

Fixpoint prun (cid : string) (st : pstate) (es : list pevent) : pstate :=
  match es with [] => st | e :: es => prun cid (pstep cid st e).1 es end.

(** Every cached entry was once an answer of the provider. *)
Definition perms_ok (st : pstate) : Prop :=
  forall role perms, cget (pcache st) (cacheKey role) = Some (CPerms perms) -> (role, perms) ∈ answered st.

Lemma cacheKey_inj r1 r2 : cacheKey r1 = cacheKey r2 -> r1 = r2.
Proof. unfold cacheKey. intros E. by apply (inj (String.append _)), (inj pretty) in E. Qed.

Context `{!LocalCacheLaws cached S}.

Lemma getRolePermissions_ok p s role ans s' r :
  perms_ok (mkPState s ans) -> getRolePermissions p s role = (s', r) ->
  let new := match cget s (cacheKey role) with Some (CPerms _) => [] | _ =>
    match RolePermissions p role with Some perms => [(role, perms)] | None => [] end end in
  perms_ok (mkPState s' (new ++ ans)) /\ (forall perms, r = Some perms -> (role, perms) ∈ new ++ ans).
Proof.
  intros Hok. unfold getRolePermissions.
  assert (Hload : (match RolePermissions p role with
      | None => (s, None) | Some perms => (cset s (cacheKey role) (CPerms perms), Some perms) end) = (s', r) ->
    let new := match RolePermissions p role with Some perms => [(role, perms)] | None => [] end in
    perms_ok (mkPState s' (new ++ ans)) /\ (forall perms, r = Some perms -> (role, perms) ∈ new ++ ans)).
  { destruct (RolePermissions p role) as [perms|]; intros [= <- <-]; cbn; [|done]. split.
    - intros role' perms'. cbn. destruct (cget_cset s (cacheKey role) (CPerms perms) (cacheKey role')) as [E|[E|[E1 E]]]; rewrite E; [done| |].
      + intros Hc. right. by apply Hok.
      + intros [= <-]. apply cacheKey_inj in E1 as ->. by left.
    - intros perms' [= <-]. by left. }
  destruct (cget s (cacheKey role)) as [[perms|]|] eqn:Ec; [|exact Hload|exact Hload].
  intros [= <- <-]. cbn. split; [done|]. intros perms' [= <-]. by apply Hok.
Qed.

(** The decision on one request. *)
Lemma passes_spec cid p uid key scope st s c :
  perms_ok st -> passes cid p uid key scope (pcache st) = (s, c) ->
  perms_ok (mkPState s (asked p uid (pcache st) ++ answered st)) /\
  if aborted c then
    exists st b, out c = [(st, b)] /\ st = if uid then 403 else 401
  else exists u role perms mask, uid = Some u /\ UserRoleID p u = Some role /\
    (role, perms) ∈ asked p uid (pcache st) ++ answered st /\ ResourceID p key <> 0 /\
    perms !! ResourceID p key = Some mask /\ Z.land mask scope = scope.
Proof.
  destruct st as [s0 ans]. intros Hok. unfold passes, RequirePermission, asked. cbn [userID pcache answered].
  destruct uid as [u|]; [|intros [= <- <-]; cbn; split; [done|]; by repeat eexists].
  cbn [mbind option_bind]. destruct (UserRoleID p u) as [role|] eqn:Eu; [|intros [= <- <-]; cbn; split; [done|]; by repeat eexists].
  destruct (getRolePermissions p s0 role) as [s1 r] eqn:Eg.
  destruct (getRolePermissions_ok p s0 role ans s1 r Hok Eg) as [Hok' Hr].
  destruct r as [perms|]; [|intros [= <- <-]; split; [exact Hok'|]; by repeat eexists].
  destruct (Z.eqb_spec (ResourceID p key) 0) as [E0|E0]; [intros [= <- <-]; split; [exact Hok'|]; by repeat eexists|].
  destruct (perms !! ResourceID p key) as [mask|] eqn:Em; [|intros [= <- <-]; split; [exact Hok'|]; by repeat eexists].
  destruct (Z.eqb_spec (Z.land mask scope) scope) as [Es|Es]; intros [= <- <-]; (split; [exact Hok'|]); [|by repeat eexists].
  cbn. exists u, role, perms, mask. by split_and!; [..|apply Hr| | |].
Qed.

Lemma prun_ok cid es : forall st, perms_ok st -> perms_ok (prun cid st es).
Proof.
  induction es as [|e es IH]; intros st Hok; [done|]. cbn [prun]. apply IH. destruct e as [p uid key scope|key]; cbn [pstep].
  - destruct (passes cid p uid key scope (pcache st)) as [s c] eqn:E. cbn. by apply (passes_spec cid p uid key scope st s c Hok E).
  - cbn. intros role perms. cbn. destruct (cget_delete (pcache st) key (cacheKey role)) as [E|E]; rewrite E; [done|apply Hok].
Qed.

(** C22: Whatever requests, changes of roles and evictions went before and whatever
    the cache, a request that passes belongs to an authenticated user whose
    role the provider gave a scope with all required bits on this very
    resource, now or at an earlier request; every other request is answered
    with 401 when there is no user and with 403 otherwise. *)
Theorem permission_sound cid (s0 : S) es p uid key scope s (c : gctx D) :
  (forall k, cget s0 k = None) ->
  let st := prun cid (mkPState s0 []) es in
  passes cid p uid key scope (pcache st) = (s, c) ->
  if aborted c then exists status b, out c = [(status, b)] /\ status = if uid then 403 else 401
  else exists u role perms mask, uid = Some u /\ UserRoleID p u = Some role /\
    (role, perms) ∈ asked p uid (pcache st) ++ answered st /\ ResourceID p key <> 0 /\
    perms !! ResourceID p key = Some mask /\ Z.land mask scope = scope.
Proof.
  intros H0 st E. apply (passes_spec cid p uid key scope st s c); [|done].
  apply prun_ok. intros role perms. cbn. by rewrite H0.
Qed.
End permissions.

(** ** Breakers, chains and enrichers *)

Section chains.
Context {D : Type}.
Implicit Types (c : gctx D).

(** A run of requests whose handler fails. *)
Definition failing (cid : string) (bad : Next D) (c : gctx D) (cb : Breaker.CircuitBreaker) (ts : list (Z * Z)) : Breaker.CircuitBreaker :=
  foldl (fun cb t => (CircuitBreakerMiddleware t.1 t.2 cid bad cb c).1) cb ts.

Lemma failing_closed cid bad c ts : (forall c, 500 <= status (bad c)) -> forall cb,
  Breaker.bstate cb = Breaker.StateClosed -> Breaker.failureCount cb + zlen ts < Breaker.failureThreshold cb ->
  let cb' := failing cid bad c cb ts in
  Breaker.bstate cb' = Breaker.StateClosed /\ Breaker.failureCount cb' = Breaker.failureCount cb + zlen ts /\
  Breaker.failureThreshold cb' = Breaker.failureThreshold cb /\ Breaker.openTimeout cb' = Breaker.openTimeout cb.
Proof.
  intros Hbad. induction ts as [|[a b] ts IH]; intros cb Hst Hf; unfold zlen in *; cbn [length] in *.
  { cbn. split; [done|]. split; [lia|done]. }
  assert (E : (CircuitBreakerMiddleware a b cid bad cb c).1 =
    Breaker.mkBreaker Breaker.StateClosed (Breaker.failureCount cb + 1) (Breaker.successCount cb)
      (Breaker.failureThreshold cb) (Breaker.successThreshold cb) (Breaker.openTimeout cb) b).
  { unfold CircuitBreakerMiddleware, Breaker.Allow, cbServerErrorThreshold. rewrite Hst. cbn. specialize (Hbad c).
    destruct (Z.leb_spec 500 (status (bad c))); [|lia]. unfold Breaker.RecordFailure. cbn. rewrite Hst. cbn.
    destruct (Z.leb_spec (Breaker.failureThreshold cb) (Breaker.failureCount cb + 1)); [lia|done]. }
  unfold failing. cbn [foldl fst snd]. rewrite E.
  destruct (IH (Breaker.mkBreaker Breaker.StateClosed (Breaker.failureCount cb + 1) (Breaker.successCount cb)
    (Breaker.failureThreshold cb) (Breaker.successThreshold cb) (Breaker.openTimeout cb) b) eq_refl) as (I1 & I2 & I3 & I4);
    [cbn; lia|]. cbn in I2, I3, I4. split; [exact I1|]. split; [unfold failing in I2; rewrite I2; lia|done].
Qed.

(** A route whose handler keeps failing is shut: after as many answers with a
    5xx status in a row as the threshold says, and until the open timeout has
    passed since the last of them, requests do not reach the handler at all. *)
Theorem breaker_middleware_trips cid (bad next : Next D) cb ts a b t1 t2 c0 c :
  (forall c, 500 <= status (bad c)) ->
  Breaker.bstate cb = Breaker.StateClosed -> Breaker.failureCount cb = 0 ->
  zlen ts + 1 = Breaker.failureThreshold cb -> i64 (t1 - b) < Breaker.openTimeout cb ->
  let cb' := failing cid bad c0 cb (ts ++ [(a, b)]) in
  CircuitBreakerMiddleware t1 t2 cid next cb' c =
    (cb', reject cid CodeInternalServer "service temporarily unavailable" c).
Proof.
  intros Hbad Hst Hf Hn Ht cb'. subst cb'. 
  assert (Ef : failing cid bad c0 cb (ts ++ [(a, b)]) = (CircuitBreakerMiddleware a b cid bad (failing cid bad c0 cb ts) c0).1)
    by (unfold failing; by rewrite foldl_app).
  destruct (failing_closed cid bad c0 ts Hbad cb Hst ltac:(lia)) as (I1 & I2 & I3 & I4).
  assert (E : CircuitBreakerMiddleware a b cid bad (failing cid bad c0 cb ts) c0 =
    (Breaker.mkBreaker Breaker.StateOpen 0 0 (Breaker.failureThreshold cb) (Breaker.successThreshold (failing cid bad c0 cb ts))
      (Breaker.openTimeout cb) b, bad c0)).
  { unfold CircuitBreakerMiddleware, Breaker.Allow, cbServerErrorThreshold. rewrite I1. cbn. specialize (Hbad c0).
    destruct (Z.leb_spec 500 (status (bad c0))); [|lia]. unfold Breaker.RecordFailure. cbn. rewrite I1. cbn.
    rewrite I2, I3, I4. destruct (Z.leb_spec (Breaker.failureThreshold cb) (Breaker.failureCount cb + zlen ts + 1)); [done|lia]. }
  rewrite Ef, E. cbn [fst]. unfold CircuitBreakerMiddleware, Breaker.Allow. cbn.
  destruct (Z.leb_spec (Breaker.openTimeout cb) (i64 (t1 - b))); [lia|done].
Qed.

(** Requests refused by the breaker are answered with 500 (the doc of the
    middleware says 503). *)
Theorem breaker_answers_500 cid uid :
  status (reject cid CodeInternalServer "service temporarily unavailable" (mkCtx uid false [] : gctx D)) = 500.
Proof. reflexivity. Qed.

(** A chain runs its handlers in order up to the first that aborts, and no
    further: the final handler sees only requests that every middleware let
    pass. *)
Theorem compose_stops_at_abort (mws : list (Next D)) final c :
  let chain := mws ++ [final] in
  exists n, (n <= length chain)%nat /\ Compose mws final c = foldl (fun c h => h c) c (take n chain) /\
    (forall m, (m < n)%nat -> aborted (foldl (fun c h => h c) c (take m chain)) = false) /\
    (n = length chain \/ aborted (Compose mws final c) = true).
Proof.
  intros chain. unfold Compose. fold chain. clearbody chain. clear mws final. revert c.
  induction chain as [|h chain IH]; intros c; cbn [composeLoop].
  { exists O. split; [done|]. split; [done|]. split; [lia|by left]. }
  destruct (aborted c) eqn:Ea.
  { exists O. split; [lia|]. split; [done|]. split; [lia|by right]. }
  destruct (IH (h c)) as (n & Hn & E & Hm & Hl). exists (S n). cbn [take foldl length]. split; [lia|]. split; [done|].
  split; [|destruct Hl as [->|Hl]; [by left|by right]].
  intros [|m] Hlt; [done|]. cbn. apply Hm. lia.
Qed.

(** The last write to a key decides. *)
Lemma foldl_set_lookup {V} (ws : list (string * stored D V)) (s : gmap string (stored D V)) k :
  foldl set s ws !! k =
  match last (filter (fun w => w.1 = k) ws) with Some w => Some w.2 | None => s !! k end.
Proof.
  induction ws as [|w ws IH] using rev_ind; [done|]. rewrite foldl_app, filter_app. cbn [foldl]. unfold set at 1.
  rewrite filter_cons. destruct (decide (w.1 = k)) as [<-|Hne]; cbn [filter list_filter].
  - by rewrite lookup_insert_eq, last_snoc.
  - by rewrite lookup_insert_ne, app_nil_r, IH by done.
Qed.

(** Enrichers run in parallel: whatever the order in which their writes arrive,
    the request is aborted exactly when one of them called [Abort], with the
    error of one of them. *)
Theorem parallel_aborts {V} cid (hs : list (list (string * stored D V))) ws c :
  ws ≡ₚ concat hs -> Forall (fun w => w.1 = EnrichAbortKey -> exists e : error D, w.2 = SError e) ws ->
  let '(s, c') := Parallel cid ws (∅ : gmap string (stored D V)) c in
  (aborted c' = true /\ exists e, Abort e ∈ concat hs /\ out c' = out c ++ [ErrorResponse cid CodeInternalServer e]) \/
  (c' = c /\ forall e : error D, Abort e ∉ concat hs).
Proof.
  intros Hp Hw. unfold Parallel, AbortError, get. rewrite foldl_set_lookup, lookup_empty.
  destruct (last (filter (fun w => w.1 = EnrichAbortKey) ws)) as [w|] eqn:El.
  - apply last_Some_elem_of, list_elem_of_filter in El as [Ew Hin].
    rewrite Forall_forall in Hw. destruct (Hw w Hin Ew) as [e Ee]. rewrite Ee. left. split; [done|].
    exists e. split; [|done]. rewrite <- Hp. destruct w as [k v]. cbn in Ew, Ee. by subst.
  - right. split; [done|]. intros e He. apply last_None in El. rewrite <- Hp in He.
    assert (Abort e ∈ filter (fun w : string * stored D V => w.1 = EnrichAbortKey) ws) as Hf by (by apply list_elem_of_filter).
    rewrite El in Hf. by apply elem_of_nil in Hf.
Qed.
End chains.

(** ** Concrete runs *)

#[local] Abbreviation pass := (fun c : gctx nat => c).

(** A token library that accepts the token ["good"] with an RSA key. *)
Definition demo_parse (ty : string) (kf : bool -> bool) (tok : string) : parsed :=
  if kf (bool_decide (tok = "good"%string)) then Token true (mkClaims "u1" "ann" ty) else ParseError.

(** Refresh tokens authenticate like access tokens: the type in the claims is
    not looked at. *)
Theorem authentication_accepts_refresh :
  Authentication (demo_parse "refresh") EmptyString "Bearer good" pass (mkCtx None false []) = mkCtx (Some "u1"%string) false [] /\
  Authentication (demo_parse "access") EmptyString "Bearer good" pass (mkCtx None false []) = mkCtx (Some "u1"%string) false [].
Proof. split; reflexivity. Qed.

Lemma authentication_gate_witness :
  (forall kf tok, kf (bool_decide (tok = "good"%string)) = false -> demo_parse "access" kf tok = ParseError) /\
  (refused 401 (mkCtx None false []) (Authentication (demo_parse "access") EmptyString "Bearer bad" pass (mkCtx None false [])) /\
   OptionalAuthentication (demo_parse "access") "Bearer bad" pass (mkCtx None false []) = mkCtx None false []).
Proof.
  assert (Hk : forall kf tok, kf (bool_decide (tok = "good"%string)) = false -> demo_parse "access" kf tok = ParseError).
  { intros kf tok E. unfold demo_parse. by rewrite E. }
  split; [exact Hk|].
  destruct (authentication_gate (fun tok => bool_decide (tok = "good"%string)) (demo_parse "access") EmptyString "Bearer bad" pass
    (mkCtx None false []) Hk) as [(tok & claims & (E & _ & Er & _) & _)|(_ & H)]; [|exact H].
  exfalso. apply bool_decide_eq_true in Er as ->. discriminate.
Defined.

Definition demo_provider (perms : gmap Z Z) : PermissionProvider :=
  mkProvider (fun uid => if decide (uid = "u1"%string) then Some 7 else None) (fun _ => Some perms)
    (fun key => if decide (key = "doc"%string) then 3 else 0).

(** A permission that was revoked at the provider still passes while the entry
    is cached, and entries are stored without a lifetime. *)
Theorem permission_revocation_ignored :
  let s0 : gmap string cached := ∅ in
  let st := prun (D := nat) EmptyString (mkPState s0 []) [Request (demo_provider {[3 := 5]}) (Some "u1"%string) "doc" 4] in
  aborted (passes (D := nat) EmptyString (demo_provider ∅) (Some "u1"%string) "doc" 4 (pcache st)).2 = false /\
  aborted (passes (D := nat) EmptyString (demo_provider ∅) (Some "u1"%string) "doc" 4 s0).2 = true.
Proof. vm_compute. split; reflexivity. Qed.

Lemma permission_sound_witness :
  (forall k, cget (∅ : gmap string cached) k = None) /\
  exists (status : Z) (b : Body nat),
    out (passes (D := nat) EmptyString (demo_provider {[3 := 5]}) (Some "u1"%string) "doc" 2
      (pcache (prun (D := nat) EmptyString (mkPState (∅ : gmap string cached) [])
        [Request (demo_provider {[3 := 5]}) (Some "u1"%string) "doc" 4; PEvict "x"]))).2 = [(status, b)] /\ status = 403.
Proof.
  assert (H0 : forall k, cget (∅ : gmap string cached) k = None) by (intros k; apply lookup_empty).
  split; [exact H0|].
  exact (permission_sound (D := nat) EmptyString (∅ : gmap string cached)
    [Request (demo_provider {[3 := 5]}) (Some "u1"%string) "doc" 4; PEvict "x"]
    (demo_provider {[3 := 5]}) (Some "u1"%string) "doc" 2 _ _ H0 (surjective_pairing _)).
Defined.

Lemma breaker_middleware_trips_witness :
  let bad : Next nat := fun c => reject EmptyString CodeInternalServer "x" (mkCtx (userID c) false []) in
  let cb := Breaker.NewCircuitBreaker [Breaker.WithFailureThreshold 2] in
  let cb' := failing EmptyString bad (mkCtx None false []) cb [(0, 1); (2, 3)] in
  CircuitBreakerMiddleware 4 5 EmptyString pass cb' (mkCtx None false []) =
    (cb', reject EmptyString CodeInternalServer "service temporarily unavailable" (mkCtx None false [])).
Proof.
  intros bad cb. apply (breaker_middleware_trips EmptyString bad pass cb [(0, 1)] 2 3 4 5 (mkCtx None false []) (mkCtx None false [])).
  - intros c. vm_compute. discriminate.
  - reflexivity.
  - reflexivity.
  - reflexivity.
  - reflexivity.
Defined.
