(* ===== verification/Ent.v ===== *)
(** * The relational layer ([src/pkg/database/ent], [src/pkg/utils/strings.go])

    Module [Query]: client-supplied filters, sorts and pages turned into calls on
    a SQL selector.  Module [Errors]: database errors turned into application
    errors.  Module [Hooks]: conditions and chains of mutation hooks, the audit
    stamps and the soft delete.  Module [Tx]: transactions and counting.

    The selector and the mutation pipeline belong to the ent library: the
    selector is modelled by the calls made on it, the rest of the pipeline is
    an argument. *)

From stdpp Require Import base list option gmap strings.
From Stdlib Require Import ZArith Lia.
From S2P Require Import Prelude Web Http.

#[local] Open Scope Z_scope.

(** Texts are lists of code points. *)
Definition text : Type := list Z.
Fixpoint runes (s : string) : text :=
  match s with EmptyString => [] | String a s => Z.of_nat (Ascii.nat_of_ascii a) :: runes s end.

Module Query.

(** ** Column names *)

Section columns.
Context (IsUpper : Z -> bool) (ToLower : Z -> Z).

(** [ToSnakeCase]; the flag is [i > 0]. *)
Fixpoint snakeLoop (later : bool) (s : text) : text :=
  match s with
  | [] => []
  | r :: s =>
      (if IsUpper r then (if later then [95] else []) ++ [ToLower r] else [r]) ++ snakeLoop true s
  end.
Definition ToSnakeCase (s : text) : text := snakeLoop false s.

Definition isLetter (r : Z) : bool := ((65 <=? r) && (r <=? 90)) || ((97 <=? r) && (r <=? 122)) || (r =? 95).
Definition isDigit (r : Z) : bool := (48 <=? r) && (r <=? 57).

(** [columnPattern.MatchString]. *)
Definition columnPattern (s : text) : bool :=
  match s with [] => false | r :: s => isLetter r && forallb (fun r => isLetter r || isDigit r) s end.

(** [columnSet]: no set when no columns are given. *)
Definition columnSet (columns : list text) : option (gset text) :=
  match columns with [] => None | _ => Some (list_to_set columns) end.

Definition safeColumn (key : text) (allowed : option (gset text)) : option text :=
  let col := ToSnakeCase key in
  if columnPattern col then
    match allowed with
    | Some set => if decide (col ∈ set) then Some col else None
    | None => Some col
    end
  else None.

(** ** Predicates *)

(** What [any] holds in a filter. *)
Inductive value := VNil | VStr (s : text) | VList (l : list value) | VOther (n : Z).

Inductive cmp := EQ | NEQ | GT | GTE | LT | LTE.
Inductive predicate :=
  | PContainsFold (col s : text)
  | PIn (col : text) (vs : list value)
  | PNotIn (col : text) (vs : list value)
  | PCmp (o : cmp) (col : text) (v : value)
  | PIsNull (col : text)
  | PNotNull (col : text).

Definition columnOf (p : predicate) : text :=
  match p with PContainsFold c _ | PIn c _ | PNotIn c _ | PCmp _ c _ | PIsNull c | PNotNull c => c end.

Definition listOf (v : value) : list value := match v with VList vs => vs | _ => [v] end.
Definition inPredicate (col : text) (v : value) : option predicate := Some (PIn col (listOf v)).

(** The table of operators: a builder may skip the filter. *)
Definition filterPredicates : list (string * (text -> value -> option predicate)) := [
  ("search", fun col v => match v with VStr s => if decide (s = []) then None else Some (PContainsFold col s) | _ => None end);
  ("exact", inPredicate); ("filter", inPredicate); ("in", inPredicate);
  ("not_in", fun col v => Some (PNotIn col (listOf v)));
  ("eq", fun col v => Some (PCmp EQ col v)); ("neq", fun col v => Some (PCmp NEQ col v));
  ("gt", fun col v => Some (PCmp GT col v)); ("gte", fun col v => Some (PCmp GTE col v));
  ("lt", fun col v => Some (PCmp LT col v)); ("lte", fun col v => Some (PCmp LTE col v));
  ("is_null", fun col _ => Some (PIsNull col)); ("is_not_null", fun col _ => Some (PNotNull col))]%string.

Fixpoint lookupBuilder (t : list (string * (text -> value -> option predicate))) (ty : string)
    : option (text -> value -> option predicate) :=
  match t with [] => None | (k, b) :: t => if decide (k = ty) then Some b else lookupBuilder t ty end.

(** ** The selector *)

(** The calls of [Where], [OrderBy], [Limit] and [Offset], the last of the last two. *)
Record selector := mkSelector {
  wheres : list predicate; orders : list (text * bool); limit : option Z; offset : option Z;
}.
Definition Where (s : selector) (p : predicate) := mkSelector (wheres s ++ [p]) (orders s) (limit s) (offset s).
Definition OrderBy (s : selector) (col : text) (desc : bool) :=
  mkSelector (wheres s) (orders s ++ [(col, desc)]) (limit s) (offset s).

Record SearchFilter := mkFilter { fKey : text; fValue : value; fType : string }.
Record SortOption := mkSort { sKey : text; sOrder : Z }.
Record QueryOptions := mkQuery {
  Pagination : option (Page.PaginationOptions * value); Filters : list SearchFilter; Sort : list SortOption;
}.

(** One iteration of [applyFilters]. *)
Definition applyFilter (allowed : option (gset text)) (s : selector) (f : SearchFilter) : selector :=
  if decide (fKey f = []) then s
  else if match fValue f with VNil => negb (bool_decide (fType f = "is_null"%string)) && negb (bool_decide (fType f = "is_not_null"%string)) | _ => false end
  then s
  else match safeColumn (fKey f) allowed with
  | None => s
  | Some col =>
      let build := match lookupBuilder filterPredicates (fType f) with
        | Some b => b | None => fun col v => Some (PCmp EQ col v) end in
      match build col (fValue f) with Some p => Where s p | None => s end
  end.
Definition applyFilters (filters : list SearchFilter) (s : selector) (allowed : option (gset text)) : selector :=
  foldl (applyFilter allowed) s filters.

Definition applySortOne (allowed : option (gset text)) (s : selector) (o : SortOption) : selector :=
  if decide (sKey o = []) then s
  else match safeColumn (sKey o) allowed with
  | None => s
  | Some col => OrderBy s col (sOrder o =? -1)
  end.
Definition applySort (sorts : list SortOption) (s : selector) (allowed : option (gset text)) : selector :=
  let s := foldl (applySortOne allowed) s sorts in
  match orders s with [] => OrderBy s (runes "id") true | _ => s end.

(** [pagination.Cursor != nil && pagination.Cursor != ""]. *)
Definition hasCursor (v : value) : bool :=
  match v with VNil => false | VStr s => negb (bool_decide (s = [])) | _ => true end.

Definition ApplyPagination (p : option (Page.PaginationOptions * value)) (s : selector) : selector :=
  match p with
  | None => s
  | Some (p, cursor) =>
      let p := Page.SetDefaults p in
      let s := mkSelector (wheres s) (orders s) (Some (Page.PageSize p)) (offset s) in
      if hasCursor cursor then Where s (PCmp LT (runes "id") cursor)
      else mkSelector (wheres s) (orders s) (limit s) (Some (i64 (i64 (Page.Page p - 1) * Page.PageSize p)))
  end.

Definition ApplyQueryOptions (opts : option QueryOptions) (s : selector) (allowedColumns : list text) : selector :=
  match opts with
  | None => s
  | Some o =>
      let allowed := columnSet allowedColumns in
      let s := applyFilters (Filters o) s allowed in
      let s := applySort (Sort o) s allowed in
      ApplyPagination (Pagination o) s
  end.

Definition ApplyFilters (filters : list SearchFilter) (s : selector) (allowedColumns : list text) : selector :=
  applyFilters filters s (columnSet allowedColumns).
Definition ApplySort (sorts : list SortOption) (s : selector) (allowedColumns : list text) : selector :=
  applySort sorts s (columnSet allowedColumns).

(** ** What reaches the database *)

(** A column the client may name: an identifier, and one of the allowed ones if
    there are any. *)
Definition safe (allowedColumns : list text) (col : text) : Prop :=
  columnPattern col = true /\ (allowedColumns <> [] -> col ∈ allowedColumns).

Lemma safeColumn_safe key allowedColumns col :
  safeColumn key (columnSet allowedColumns) = Some col -> safe allowedColumns col /\ col = ToSnakeCase key.
Proof.
  unfold safeColumn. destruct (columnPattern (ToSnakeCase key)) eqn:Ec; [|done].
  destruct allowedColumns as [|a l] eqn:El; cbn [columnSet].
  - intros [= <-]. split; [|done]. split; [done|]. by intros ?.
  - case_decide as Hin; [|done]. intros [= <-]. split; [|done]. split; [done|]. intros _. by apply elem_of_list_to_set in Hin.
Qed.

#[export] Instance safe_dec allowedColumns col : Decision (safe allowedColumns col).
Proof. unfold safe. apply _. Defined.

Lemma safeColumn_eq key allowedColumns :
  safeColumn key (columnSet allowedColumns) =
    if decide (safe allowedColumns (ToSnakeCase key)) then Some (ToSnakeCase key) else None.
Proof.
  destruct (safeColumn key (columnSet allowedColumns)) as [col|] eqn:E.
  - apply safeColumn_safe in E as [Hs ->]. by rewrite decide_True.
  - rewrite decide_False; [done|]. intros [Hc Hin]. unfold safeColumn in E. rewrite Hc in E.
    destruct allowedColumns as [|a l]; [done|]. cbn [columnSet] in E. case_decide as Hd; [done|].
    by apply Hd, elem_of_list_to_set, Hin.
Qed.

(** The sorts a client asks for: of its options with a key that gives a safe column, in
    their order, descending for -1 and ascending for anything else. *)
Definition sortsOf (allowedColumns : list text) (os : list SortOption) : list (text * bool) :=
  (fun o => (ToSnakeCase (sKey o), sOrder o =? -1)) <$>
    filter (fun o => sKey o <> [] /\ safe allowedColumns (ToSnakeCase (sKey o))) os.

(** Builders keep the column. *)
Lemma builder_column ty b col v p : lookupBuilder filterPredicates ty = Some b -> b col v = Some p -> columnOf p = col.
Proof.
  unfold filterPredicates. intros Hb.
  repeat (cbn [lookupBuilder] in Hb; case_decide; [injection Hb as <-; intros Hp|]);
    cbn in *; try discriminate; try (injection Hp as <-; done).
  destruct v as [|s|l|n]; [done| |done|done]. case_decide; [done|]. by injection Hp as <-.
Qed.

Lemma applyFilter_wheres allowedColumns s f :
  exists ps, applyFilter (columnSet allowedColumns) s f = mkSelector (wheres s ++ ps) (orders s) (limit s) (offset s) /\
    (length ps <= 1)%nat /\ Forall (fun p => safe allowedColumns (columnOf p) /\ columnOf p = ToSnakeCase (fKey f)) ps.
Proof.
  assert (H0 : exists ps, s = mkSelector (wheres s ++ ps) (orders s) (limit s) (offset s) /\ (length ps <= 1)%nat /\
    Forall (fun p => safe allowedColumns (columnOf p) /\ columnOf p = ToSnakeCase (fKey f)) ps)
    by (exists []; rewrite app_nil_r; destruct s; split; [done|split; [cbn; lia|constructor]]).
  unfold applyFilter. case_decide; [exact H0|].
  destruct (match fValue f with VNil => _ | _ => _ end); [exact H0|].
  destruct (safeColumn (fKey f) (columnSet allowedColumns)) as [col|] eqn:Ec; [|exact H0].
  apply safeColumn_safe in Ec as [Hs ->].
  set (build := match lookupBuilder filterPredicates (fType f) with Some b => b | None => fun col v => Some (PCmp EQ col v) end).
  destruct (build (ToSnakeCase (fKey f)) (fValue f)) as [p|] eqn:Eb; [|exact H0].
  assert (Hc : columnOf p = ToSnakeCase (fKey f)).
  { unfold build in Eb. destruct (lookupBuilder filterPredicates (fType f)) as [b|] eqn:El; [by eapply builder_column|].
    by injection Eb as <-. }
  exists [p]. split; [done|]. split; [done|]. constructor; [|constructor]. rewrite Hc. done.
Qed.

Lemma applyFilters_wheres allowedColumns fs : forall s,
  exists ps, applyFilters fs s (columnSet allowedColumns) = mkSelector (wheres s ++ ps) (orders s) (limit s) (offset s) /\
    Forall (fun p => safe allowedColumns (columnOf p) /\ exists f, f ∈ fs /\ columnOf p = ToSnakeCase (fKey f)) ps.
Proof.
  induction fs as [|f fs IH]; intros s.
  - exists []. rewrite app_nil_r. split; [by destruct s|constructor].
  - destruct (applyFilter_wheres allowedColumns s f) as (ps & E & _ & Hps). unfold applyFilters. cbn [foldl]. rewrite E.
    destruct (IH (mkSelector (wheres s ++ ps) (orders s) (limit s) (offset s))) as (qs & E' & Hqs).
    unfold applyFilters in E'. rewrite E'. exists (ps ++ qs). cbn. rewrite app_assoc. split; [done|].
    apply Forall_app. split; eapply Forall_impl; [exact Hps| |exact Hqs|]; cbn.
    + intros p [Hs Hc]. split; [done|]. exists f. split; [left|done].
    + intros p [Hs (g & Hg & Hc)]. split; [done|]. exists g. split; [by right|done].
Qed.

Lemma applySort_orders allowedColumns os s :
  applySort os s (columnSet allowedColumns) =
    mkSelector (wheres s) (match orders s ++ sortsOf allowedColumns os with [] => [(runes "id", true)] | l => l end)
      (limit s) (offset s).
Proof.
  assert (H1 : foldl (applySortOne (columnSet allowedColumns)) s os =
    mkSelector (wheres s) (orders s ++ sortsOf allowedColumns os) (limit s) (offset s)).
  { revert s. induction os as [|o os IH]; intros s; unfold sortsOf; cbn [foldl].
    { rewrite app_nil_r. by destruct s. }
    rewrite filter_cons, IH. unfold applySortOne. destruct (decide (sKey o = [])) as [Ek|Ek].
    { by rewrite decide_False by (by intros [? _]). }
    rewrite safeColumn_eq. destruct (decide (safe allowedColumns (ToSnakeCase (sKey o)))) as [Hs|Hs].
    - rewrite decide_True by done. cbn. by rewrite <- app_assoc.
    - by rewrite decide_False by (by intros [_ ?]). }
  unfold applySort. rewrite H1. cbn [orders].
  destruct (orders s ++ sortsOf allowedColumns os) eqn:E; [|done].
  apply app_eq_nil in E as [E1 E2]. unfold OrderBy. cbn. rewrite ?E1. done.
Qed.

(** C21: Whatever options a client sends, the query it gets names only safe columns.  Every
    condition's column is a plain identifier made from the key of one of its filters and,
    if there is a whitelist, on it, apart from the comparison of [id] with the cursor.  The
    sorts are exactly those of its sort options whose keys give such columns, in their
    order and direction, and when there is none (nor one before) the default order by
    [id] descending, so that there always is an order.  (Without options the query is left
    as it is.) *)
Theorem ent_query_safe o s allowedColumns :
  let s' := ApplyQueryOptions (Some o) s allowedColumns in
  (exists ps, wheres s' = wheres s ++ ps /\
    Forall (fun p => (safe allowedColumns (columnOf p) /\ exists f, f ∈ Filters o /\ columnOf p = ToSnakeCase (fKey f)) \/
      exists p' cursor, Pagination o = Some (p', cursor) /\ p = PCmp LT (runes "id") cursor) ps) /\
  orders s' <> [] /\
  orders s' = (match orders s ++ sortsOf allowedColumns (Sort o) with [] => [(runes "id", true)] | l => l end) /\
  Forall (fun q => safe allowedColumns q.1 /\ exists so, so ∈ Sort o /\ q.1 = ToSnakeCase (sKey so) /\ q.2 = (sOrder so =? -1))
    (sortsOf allowedColumns (Sort o)) /\
  ApplyQueryOptions None s allowedColumns = s.
Proof.
  cbn [ApplyQueryOptions]. destruct (applyFilters_wheres allowedColumns (Filters o) s) as (ps & -> & Hps).
  rewrite applySort_orders. cbn [wheres orders limit offset].
  set (l := match orders s ++ sortsOf allowedColumns (Sort o) with [] => _ | x => x end).
  assert (Hl : l <> []) by (unfold l; by destruct (_ ++ _)).
  assert (Hq : Forall (fun q => safe allowedColumns q.1 /\ exists so, so ∈ Sort o /\ q.1 = ToSnakeCase (sKey so) /\
    q.2 = (sOrder so =? -1)) (sortsOf allowedColumns (Sort o))).
  { apply Forall_fmap, Forall_forall. intros so [[_ Hs] Hin]%list_elem_of_filter. split; [done|]. by exists so. }
  assert (Hps' : Forall (fun p => (safe allowedColumns (columnOf p) /\ exists f, f ∈ Filters o /\ columnOf p = ToSnakeCase (fKey f)) \/
      exists p' cursor, Pagination o = Some (p', cursor) /\ p = PCmp LT (runes "id") cursor) ps)
    by (eapply Forall_impl; [exact Hps|]; intros p Hp; by left).
  assert (Ho : orders (ApplyPagination (Pagination o) (mkSelector (wheres s ++ ps) l (limit s) (offset s))) = l).
  { destruct (Pagination o) as [[p' cursor]|]; [|done]. cbn [ApplyPagination]. by destruct (hasCursor cursor). }
  rewrite Ho. split_and!; [|done..].
  destruct (Pagination o) as [[p' cursor]|] eqn:Ep; cbn [ApplyPagination wheres orders]; [|by exists ps].
  destruct (hasCursor cursor); cbn [wheres orders Where]; [|by exists ps].
  exists (ps ++ [PCmp LT (runes "id") cursor]). rewrite <- app_assoc. split; [done|].
  apply Forall_app. split; [done|]. constructor; [|constructor]. right. by exists p', cursor.
Qed.

(** The rows of a page. *)
Definition onPage (sel : selector) (page size n : Z) : Prop :=
  let s := ApplyPagination (Some (Page.mkOptions page size, VNil)) sel in
  exists o l, offset s = Some o /\ limit s = Some l /\ o <= n < o + l.

(** Without a cursor the pages tile the result: every row is on exactly one. *)
Theorem ent_pages_tile sel size n : 1 <= size -> 0 <= n -> n + size < 2 ^ 63 ->
  exists p, 1 <= p /\ onPage sel p size n /\ forall q, 1 <= q -> q * size < 2 ^ 63 -> onPage sel q size n -> q = p.
Proof.
  intros Hs Hn Ho.
  assert (W : forall q, 1 <= q -> q * size < 2 ^ 63 -> onPage sel q size n <-> (q - 1) * size <= n < q * size).
  { intros q Hq Hqs. unfold onPage, ApplyPagination, Page.SetDefaults. cbn [hasCursor Page.Page Page.PageSize offset limit].
    destruct (Z.leb_spec q 0); [lia|]. destruct (Z.leb_spec size 0); [lia|]. cbn [Page.Page Page.PageSize].
    rewrite (i64_small (q - 1)) by nia. rewrite i64_small by nia. split.
    - intros (o & l & [= <-] & [= <-] & H'). nia.
    - intros H'. exists ((q - 1) * size), size. split; [done|]. split; [done|]. nia. }
  pose proof (Z.div_mod n size ltac:(lia)) as Hd. pose proof (Z.mod_pos_bound n size ltac:(lia)) as Hm.
  exists (n / size + 1). assert (0 <= n / size) by (apply Z.div_pos; lia).
  split; [lia|]. split.
  - apply W; nia.
  - intros q Hq Hqs H'. apply W in H'; [|done|done]. nia.
Qed.

(** A page number near the end of the range wraps around to the first page. *)
Theorem ent_page_wraps sel :
  offset (ApplyPagination (Some (Page.mkOptions (2 ^ 62 + 1) 4, VNil)) sel) = Some 0.
Proof. vm_compute. reflexivity. Qed.
End columns.
End Query.

Module Errors.

(** ** Database errors *)

Inductive kind := KNotFound | KValidation | KConstraint | KNotLoaded | KNotSingular.
#[export] Instance kind_eq_dec : EqDecision kind.
Proof. solve_decision. Defined.

(** An error: a text, one of the five error types of the package, or an error that
    wraps others; each with the text [Error()] returns. *)
Inductive dberror :=
  | EText (msg : text)
  | EKind (k : kind) (msg : text) (wrap : option dberror)
  | EWrap (msg : text) (inner : list dberror).

Definition errText (e : dberror) : text := match e with EText m | EKind _ m _ | EWrap m _ => m end.

(** [errors.As] with a target of the type of [k]: [IsNotFound] and its companions. *)
Fixpoint isKind (k : kind) (e : dberror) : bool :=
  match e with
  | EText _ => false
  | EKind k' _ wrap => bool_decide (k' = k) || match wrap with Some e => isKind k e | None => false end
  | EWrap _ es => (fix go (es : list dberror) : bool := match es with [] => false | e :: es => isKind k e || go es end) es
  end.

(** [ErrorPredicates]: for each kind a recognizer or nil. *)
Definition ErrorPredicates : Type := kind -> option (dberror -> bool).

(** [isNotFound] and its companions: the own type, then the registered recognizers. *)
Fixpoint registeredIs (registered : list ErrorPredicates) (k : kind) (e : dberror) : bool :=
  match registered with
  | [] => false
  | p :: registered => match p k with Some f => f e | None => false end || registeredIs registered k e
  end.
Definition isError (registered : list ErrorPredicates) (k : kind) (e : dberror) : bool :=
  isKind k e || registeredIs registered k e.

Definition RegisterErrorPredicates (registered : list ErrorPredicates) (p : ErrorPredicates) := registered ++ [p].

(** [strings.Contains]. *)
Fixpoint hasPrefix (s sub : text) : bool :=
  match sub, s with [], _ => true | _ :: _, [] => false | x :: sub, y :: s => (x =? y) && hasPrefix s sub end.
Fixpoint contains (s sub : text) : bool :=
  hasPrefix s sub || match s with [] => false | _ :: s => contains s sub end.

Section map.
Context (ToLower : Z -> Z).

(** An application error as code, message and root cause. *)
Definition apperror : Type := Z * text * dberror.

Definition MapEntError (registered : list ErrorPredicates) (err : option dberror) (prefix : text) : option apperror :=
  match err with
  | None => None
  | Some e =>
      Some (
        if isError registered KNotFound e then (CodeNotFound, prefix ++ runes " not found", e)
        else if isError registered KValidation e then (CodeValidationFailed, prefix ++ runes " validation failed", e)
        else if isError registered KConstraint e then
          let s := ToLower <$> errText e in
          if contains s (runes "duplicate") || contains s (runes "unique")
          then (CodeConflict, prefix ++ runes " already exists", e)
          else if contains s (runes "foreign key") then
            if contains s (runes "delete") || contains s (runes "update")
            then (CodeConflict, prefix ++ runes " cannot be modified because it is referenced by other records", e)
            else (CodeBadRequest, prefix ++ runes " contains invalid reference data", e)
          else if contains s (runes "deadlock")
          then (CodeDatabaseError, runes "Operation temporarily unavailable, please try again", e)
          else (CodeConflict, prefix ++ runes " constraint failed", e)
        else if isError registered KNotLoaded e then (CodeInternalServer, runes "Internal server error", e)
        else if isError registered KNotSingular e then (CodeBadRequest, prefix ++ runes " is not uniquely identifiable", e)
        else (CodeDatabaseError, runes "An unexpected database error occurred", e))
  end.

(** What a client can be told about an entity. *)
Definition messages (prefix : text) : list (Z * text) := [
  (404, prefix ++ runes " not found"); (422, prefix ++ runes " validation failed");
  (409, prefix ++ runes " already exists");
  (409, prefix ++ runes " cannot be modified because it is referenced by other records");
  (400, prefix ++ runes " contains invalid reference data");
  (500, runes "Operation temporarily unavailable, please try again");
  (409, prefix ++ runes " constraint failed"); (500, runes "Internal server error");
  (400, prefix ++ runes " is not uniquely identifiable");
  (500, runes "An unexpected database error occurred")].

(** Wrapping an error does not hide its type. *)
Lemma isKind_wrapped k msg e : isKind k (EWrap msg [e]) = isKind k e.
Proof. cbn. by rewrite orb_false_r. Qed.

(** The [i]-th entry of the list is the one. *)
Ltac entry Hin i := eexists _, _; split_and!; [done|by apply (Hin i)|done|done].

(** C27: Every database error becomes an application error that keeps it as its
    cause and whose status and message come from a fixed list: nothing of the
    text of the error reaches the message.  An error recognized as not found
    is a 404 however it is wrapped and whatever else is registered. *)
Theorem mapenterror_sealed registered e prefix :
  exists code msg, MapEntError registered (Some e) prefix = Some (code, msg, e) /\
    (GetHTTPCode code, msg) ∈ messages prefix /\
    (isKind KNotFound e = true -> code = CodeNotFound) /\
    (forall m, isKind KNotFound e = true -> exists msg', MapEntError registered (Some (EWrap m [e])) prefix = Some (CodeNotFound, msg', EWrap m [e])).
Proof.
  assert (Hw : forall m, isKind KNotFound e = true ->
    exists msg', MapEntError registered (Some (EWrap m [e])) prefix = Some (CodeNotFound, msg', EWrap m [e])).
  { intros m Hk. unfold MapEntError, isError. rewrite isKind_wrapped, Hk. by eexists. }
  assert (Hin : forall i code msg, messages prefix !! i = Some (GetHTTPCode code, msg) -> (GetHTTPCode code, msg) ∈ messages prefix)
    by (intros; by eapply list_elem_of_lookup_2).
  unfold MapEntError.
  destruct (isError registered KNotFound e) eqn:E1; [entry Hin 0%nat|].
  assert (Hn : isKind KNotFound e = true -> False) by (intros Hk; unfold isError in E1; by rewrite Hk in E1).
  destruct (isError registered KValidation e); [entry Hin 1%nat|].
  destruct (isError registered KConstraint e).
  { destruct (contains _ (runes "duplicate") || contains _ (runes "unique")); [entry Hin 2%nat|].
    destruct (contains _ (runes "foreign key")); [destruct (contains _ (runes "delete") || contains _ (runes "update"))|];
      [entry Hin 3%nat|entry Hin 4%nat|].
    destruct (contains _ (runes "deadlock"));
      [entry Hin 5%nat|entry Hin 6%nat]. }
  destruct (isError registered KNotLoaded e); [entry Hin 7%nat|].
  destruct (isError registered KNotSingular e); [entry Hin 8%nat|entry Hin 9%nat].
Qed.
End map.
End Errors.

Module Hooks.

(** ** Conditions and chains *)

(** Operations of a mutation; [m.Op().Is(a|b)] is membership. *)
Inductive op := OpCreate | OpUpdate | OpUpdateOne | OpDelete | OpDeleteOne.
#[export] Instance op_eq_dec : EqDecision op.
Proof. solve_decision. Defined.

Section chain.
Context {Ctx Mut R : Type} (Op : Mut -> op) (AddedField FieldCleared Field : Mut -> string -> bool).

Definition Mutator : Type := Ctx -> Mut -> R.
Definition Hook : Type := Mutator -> Mutator.
Definition Condition : Type := Ctx -> Mut -> bool.

Fixpoint allLoop (rest : list Condition) (c : Ctx) (m : Mut) : bool :=
  match rest with [] => true | cond :: rest => if negb (cond c m) then false else allLoop rest c m end.
Fixpoint anyLoop (rest : list Condition) (c : Ctx) (m : Mut) : bool :=
  match rest with [] => false | cond :: rest => if cond c m then true else anyLoop rest c m end.
Definition And (first second : Condition) (rest : list Condition) : Condition := fun c m =>
  if negb (first c m) || negb (second c m) then false else allLoop rest c m.
Definition Or (first second : Condition) (rest : list Condition) : Condition := fun c m =>
  if first c m || second c m then true else anyLoop rest c m.
Definition Not (cond : Condition) : Condition := fun c m => negb (cond c m).
Definition HasOp (ops : list op) : Condition := fun _ m => bool_decide (Op m ∈ ops).

Fixpoint fieldsLoop (has : string -> bool) (fields : list string) : bool :=
  match fields with [] => true | f :: fields => if negb (has f) then false else fieldsLoop has fields end.
Definition HasAddedFields (field : string) (fields : list string) : Condition := fun _ m =>
  if negb (AddedField m field) then false else fieldsLoop (AddedField m) fields.
Definition HasClearedFields (field : string) (fields : list string) : Condition := fun _ m =>
  if negb (FieldCleared m field) then false else fieldsLoop (FieldCleared m) fields.
Definition HasFields (field : string) (fields : list string) : Condition := fun _ m =>
  if negb (Field m field) then false else fieldsLoop (Field m) fields.

Definition If (hk : Hook) (cond : Condition) : Hook := fun next c m => if cond c m then hk next c m else next c m.
Definition On (hk : Hook) (ops : list op) : Hook := If hk (HasOp ops).
Definition Unless (hk : Hook) (ops : list op) : Hook := If hk (Not (HasOp ops)).
Definition FixedError (e : R) : Hook := fun _ _ _ => e.
Definition Reject (e : R) (ops : list op) : Hook := On (FixedError e) ops.

Definition Chain : Type := list Hook.
Definition NewChain (hooks : list Hook) : Chain := hooks.
(** The loop from the last hook to the first. *)
Fixpoint hookLoop (n : nat) (c : list Hook) (m : Mutator) : Mutator :=
  match n with
  | O => m
  | S i => match (c !! i : option Hook) with Some h => hookLoop i c (h m) | None => m end
  end.
Definition HookOf (c : Chain) : Hook := fun m => hookLoop (length c) c m.
Definition Append (c : Chain) (hooks : list Hook) : Chain := c ++ hooks.
Definition Extend (c d : Chain) : Chain := Append c d.

Lemma hookLoop_take (c : list Hook) : forall n m, (n <= length c)%nat -> hookLoop n c m = foldr (fun (h : Hook) m => h m) m (take n c).
Proof.
  induction n as [|n IH]; intros m Hn; [done|]. cbn [hookLoop].
  destruct (lookup_lt_is_Some_2 c n ltac:(lia)) as [h Eh]. rewrite Eh, IH by lia.
  by rewrite (take_S_r c n h Eh), foldr_app.
Qed.

(** Hooks run from the first to the last, around the mutator; chains compose by
    concatenation; a hook under a condition is itself or nothing; a rejected
    operation never reaches what lies behind. *)
Theorem hooks_compose (c d : Chain) (m : Mutator) hk first second rest (e : R) ops ctx mu :
  HookOf c m = foldr (fun (h : Hook) m => h m) m c /\
  HookOf (Extend c d) m = HookOf c (HookOf d m) /\
  And first second rest ctx mu = forallb (fun cond => cond ctx mu) (first :: second :: rest) /\
  Or first second rest ctx mu = existsb (fun cond => cond ctx mu) (first :: second :: rest) /\
  Unless hk ops m ctx mu = (if bool_decide (Op mu ∈ ops) then m ctx mu else hk m ctx mu) /\
  (Op mu ∈ ops -> Reject e ops m ctx mu = e).
Proof.
  assert (Hh : forall (c : Chain) (m : Mutator), HookOf c m = foldr (fun (h : Hook) m => h m) m c)
    by (intros c' m'; unfold HookOf; rewrite hookLoop_take by lia; by rewrite take_ge).
  split; [apply Hh|]. split; [rewrite !Hh; unfold Extend, Append; by rewrite foldr_app|]. split; [|split; [|split]].
  - unfold And. cbn [forallb]. assert (El : allLoop rest ctx mu = forallb (fun cond => cond ctx mu) rest)
      by (induction rest as [|x l IH]; [done|]; cbn; rewrite IH; by destruct (x ctx mu)).
    rewrite El. by destruct (first ctx mu), (second ctx mu).
  - unfold Or. cbn [existsb]. assert (El : anyLoop rest ctx mu = existsb (fun cond => cond ctx mu) rest)
      by (induction rest as [|x l IH]; [done|]; cbn; rewrite IH; by destruct (x ctx mu)).
    rewrite El. by destruct (first ctx mu), (second ctx mu).
  - unfold Unless, If, Not, HasOp. by destruct (bool_decide (Op mu ∈ ops)).
  - intros Hin. unfold Reject, On, If, HasOp, FixedError. by rewrite bool_decide_true.
Qed.
End chain.

(** ** Audit stamps and soft delete *)

(** What the hooks read from a context: the actor of the registered resolver, if
    any, and the two switches. *)
Record ctx := mkCtx { actor : option string; skipSoftDelete : bool; skipModifier : bool }.

Definition SkipSoftDelete (c : ctx) : ctx := mkCtx (actor c) true (skipModifier c).
Definition SkipModifier (c : ctx) : ctx := mkCtx (actor c) (skipSoftDelete c) true.

(** A mutation: its operation, the text fields set so far, the deletion time, the
    conditions added, and which setters its type has. *)
Record mutation := mkMutation {
  mop : op; mfields : gmap string string; deletedAt : option Z; whereNull : list string;
  hasCreatedBy : bool; hasUpdatedBy : bool; hasDeletedBy : bool; softDeletes : bool;
}.
Definition CreatedByColumnName : string := "created_by".
Definition UpdatedByColumnName : string := "updated_by".
Definition SoftDeleteAtColumnName : string := "deleted_at".
Definition SoftDeleteByColumnName : string := "deleted_by".

Definition setField (m : mutation) (col v : string) : mutation :=
  mkMutation (mop m) (<[col := v]> (mfields m)) (deletedAt m) (whereNull m)
    (hasCreatedBy m) (hasUpdatedBy m) (hasDeletedBy m) (softDeletes m).

Definition stampActor (c : ctx) (m : mutation) : mutation :=
  match actor c with
  | None => m
  | Some a =>
      if decide (mop m ∈ [OpCreate]) then
        if hasCreatedBy m && negb (bool_decide (is_Some (mfields m !! CreatedByColumnName)))
        then setField m CreatedByColumnName a else m
      else if decide (mop m ∈ [OpUpdate; OpUpdateOne]) then
        if hasUpdatedBy m && negb (bool_decide (is_Some (mfields m !! UpdatedByColumnName)))
        then setField m UpdatedByColumnName a else m
      else m
  end.

(** What [SoftDeleteHook] makes of a delete. *)
Definition softDeleted (now : Z) (c : ctx) (m : mutation) : mutation :=
  let m := mkMutation OpUpdate (mfields m) (Some now) (whereNull m ++ [SoftDeleteAtColumnName])
             (hasCreatedBy m) (hasUpdatedBy m) (hasDeletedBy m) (softDeletes m) in
  match actor c with
  | Some a => if hasDeletedBy m then setField m SoftDeleteByColumnName a else m
  | None => m
  end.

(** Stamping only adds fields. *)
Lemma stamp_keeps c m :
  mop (stampActor c m) = mop m /\ deletedAt (stampActor c m) = deletedAt m /\ whereNull (stampActor c m) = whereNull m /\
  mfields m ⊆ mfields (stampActor c m).
Proof.
  unfold stampActor. destruct (actor c) as [a|]; [|done].
  assert (Hadd : forall b col, let m' := if b && negb (bool_decide (is_Some (mfields m !! col))) then setField m col a else m in
    mop m' = mop m /\ deletedAt m' = deletedAt m /\ whereNull m' = whereNull m /\ mfields m ⊆ mfields m').
  { intros b col. destruct b; [|done]. destruct (bool_decide_reflect (is_Some (mfields m !! col))) as [Hs|Hs]; [done|].
    split; [done|]. split; [done|]. split; [done|]. cbn. apply insert_subseteq. by apply eq_None_not_Some. }
  case_decide; [apply Hadd|]. case_decide; [apply Hadd|done].
Qed.

Lemma stamp_update c m : mop m = OpUpdate -> forall k,
  mfields (stampActor c m) !! k =
  if decide (k = UpdatedByColumnName)
  then match mfields m !! k with Some v => Some v | None => if hasUpdatedBy m then actor c else None end
  else mfields m !! k.
Proof.
  intros Hop k. unfold stampActor. destruct (actor c) as [a|]; [|case_decide; [|done]; by destruct (mfields m !! k), (hasUpdatedBy m)].
  rewrite Hop. rewrite decide_False by set_solver. rewrite decide_True by set_solver.
  destruct (hasUpdatedBy m); cbn [andb].
  - destruct (mfields m !! UpdatedByColumnName) as [v|] eqn:E.
    + rewrite bool_decide_true by done. cbn. case_decide; [subst k; by rewrite E|done].
    + rewrite bool_decide_false by (by intros [? [=]]). cbn. case_decide; [subst k; by rewrite lookup_insert_eq, E|by rewrite lookup_insert_ne].
  - case_decide; [|done]. by destruct (mfields m !! k).
Qed.

Lemma softDeleted_fields now c m : forall k,
  mfields (softDeleted now c m) !! k =
  if decide (k = SoftDeleteByColumnName) then (if hasDeletedBy m then match actor c with Some a => Some a | None => mfields m !! k end else mfields m !! k)
  else mfields m !! k.
Proof.
  intros k. unfold softDeleted. cbn [hasDeletedBy]. destruct (actor c) as [a|]; [|by case_decide; [destruct (hasDeletedBy m)|]].
  destruct (hasDeletedBy m); cbn; [|by case_decide]. case_decide; [subst k; by rewrite lookup_insert_eq|by rewrite lookup_insert_ne].
Qed.

Lemma softDeleted_rest now c m :
  mop (softDeleted now c m) = OpUpdate /\ deletedAt (softDeleted now c m) = Some now /\
  whereNull (softDeleted now c m) = whereNull m ++ [SoftDeleteAtColumnName] /\ hasUpdatedBy (softDeleted now c m) = hasUpdatedBy m.
Proof. unfold softDeleted. destruct (actor c); [|done]. cbn [hasDeletedBy]. by destruct (hasDeletedBy m). Qed.

Section audit.
Context {R : Type}.
#[local] Abbreviation mutator := (ctx -> mutation -> R).

(** [ModifierMixin.Hooks]. *)
Definition ModifierHook (next : mutator) : mutator :=
  On mop (fun next c m => next c (if skipModifier c then m else stampActor c m)) [OpCreate; OpUpdate; OpUpdateOne] next.

(** [SoftDeleteHook]; [mutate] re-enters the pipeline, [bad] is the error for a
    mutation of another type. *)
Definition SoftDeleteHook (now : Z) (bad : R) (mutate next : mutator) : mutator :=
  On mop (fun next c m =>
    if skipSoftDelete c then next c m
    else if softDeletes m then mutate c (softDeleted now c m)
    else bad) [OpDeleteOne; OpDelete] next.

(** The pipeline of a schema with both mixins around the database [base]. *)
Fixpoint pipeline (fuel : nat) (now : Z) (bad : R) (base : mutator) : mutator :=
  match fuel with
  | O => fun _ _ => bad
  | S fuel => HookOf [SoftDeleteHook now bad (pipeline fuel now bad base); ModifierHook] base
  end.

(** The interceptor of queries. *)
Definition interceptQuery (c : ctx) (hasWhereP : bool) (preds : list string) : list string :=
  if skipSoftDelete c then preds else if hasWhereP then preds ++ [SoftDeleteAtColumnName] else preds.

Lemma pipeline_S fuel now bad base c m :
  pipeline (S fuel) now bad base c m =
  SoftDeleteHook now bad (pipeline fuel now bad base) (ModifierHook base) c m.
Proof. reflexivity. Qed.

Lemma SoftDeleteHook_delete now bad mutate next c m : mop m ∈ [OpDeleteOne; OpDelete] ->
  SoftDeleteHook now bad mutate next c m =
  if skipSoftDelete c then next c m else if softDeletes m then mutate c (softDeleted now c m) else bad.
Proof. intros Hm. unfold SoftDeleteHook, On, If, HasOp. by rewrite bool_decide_true. Qed.

(** Other operations pass the soft delete and get their stamp. *)
Lemma pipeline_other fuel now bad base c m : (mop m ∉ [OpDeleteOne; OpDelete]) ->
  pipeline (S fuel) now bad base c m = base c (if skipModifier c then m else stampActor c m).
Proof.
  intros Hm. rewrite pipeline_S. unfold SoftDeleteHook, ModifierHook, On, If, HasOp.
  rewrite bool_decide_false by done. destruct (mop m) eqn:Em; try (cbn; done); exfalso; apply Hm; set_solver.
Qed.

(** C26: With the soft-delete and modifier mixins a delete never reaches the
    database as a delete unless the context asks for it: it arrives as an update
    of the rows not yet deleted, with the deletion time, and with the actor in
    [deleted_by] and, if not set and not skipped, in [updated_by]; a mutation
    without the setters is refused.  Creations and updates arrive with
    their operation, conditions and explicit values as they were. *)
Theorem soft_delete_never_deletes fuel now bad (base : mutator) c m :
  let del := bool_decide (mop m ∈ [OpDeleteOne; OpDelete]) in
  if del && negb (skipSoftDelete c) then
    if softDeletes m then exists m', pipeline (S (S fuel)) now bad base c m = base c m' /\
      mop m' = OpUpdate /\ deletedAt m' = Some now /\ whereNull m' = whereNull m ++ [SoftDeleteAtColumnName] /\
      (forall a, actor c = Some a -> hasDeletedBy m = true -> mfields m' !! SoftDeleteByColumnName = Some a) /\
      (forall a, actor c = Some a -> skipModifier c = false -> hasUpdatedBy m = true ->
         mfields m' !! UpdatedByColumnName = Some (default a (mfields m !! UpdatedByColumnName))) /\
      (forall k, k <> SoftDeleteByColumnName -> k <> UpdatedByColumnName -> mfields m' !! k = mfields m !! k)
    else pipeline (S (S fuel)) now bad base c m = bad
  else exists m', pipeline (S (S fuel)) now bad base c m = base c m' /\ mop m' = mop m /\
    deletedAt m' = deletedAt m /\ whereNull m' = whereNull m /\ mfields m ⊆ mfields m'.
Proof.
  intros del. destruct (bool_decide_reflect (mop m ∈ [OpDeleteOne; OpDelete])) as [Hd|Hd]; cbn [del andb].
  - rewrite pipeline_S, SoftDeleteHook_delete by done.
    destruct (skipSoftDelete c); cbn [negb].
    { exists m. split; [|done]. unfold ModifierHook, On, If, HasOp. rewrite bool_decide_false; [done|]. intros Hx.
      destruct (mop m); set_solver. }
    destruct (softDeletes m); [|done]. destruct (softDeleted_rest now c m) as (Eo & Et & Ew & Eu).
    rewrite pipeline_other by (rewrite Eo; set_solver). eexists. split; [reflexivity|].
    destruct (stamp_keeps c (softDeleted now c m)) as (So & St & Sw & _).
    split; [destruct (skipModifier c); congruence|]. split; [destruct (skipModifier c); congruence|].
    split; [destruct (skipModifier c); congruence|].
    assert (Hf : forall k, k <> UpdatedByColumnName -> mfields (if skipModifier c then softDeleted now c m else stampActor c (softDeleted now c m)) !! k
      = mfields (softDeleted now c m) !! k).
    { intros k Hk. destruct (skipModifier c); [done|]. rewrite stamp_update by done. by rewrite decide_False. }
    split; [|split].
    + intros a Ha Hdb. rewrite Hf by done. rewrite softDeleted_fields, decide_True by done. by rewrite Hdb, Ha.
    + intros a Ha Hsk Hub. rewrite Hsk, stamp_update, decide_True by done. rewrite Eu, Hub, Ha.
      rewrite softDeleted_fields, decide_False by done. by destruct (mfields m !! UpdatedByColumnName).
    + intros k Hk1 Hk2. rewrite Hf by done. by rewrite softDeleted_fields, decide_False.
  - exists (if skipModifier c then m else stampActor c m). split; [by apply pipeline_other|].
    destruct (skipModifier c); [done|apply stamp_keeps].
Qed.
End audit.
End Hooks.

Module Tx.

(** ** Transactions *)

Section tx.
Context {E P : Type}.

(** How a call ends: normally, with an error, or with a panic. *)
Inductive outcome := Ok | Err (e : E) | Panic (v : P).

(** The calls made, in order. *)
Inductive call := CBegin | CFn | CCommit | CRollback.

(** What [WithTx] returns: nil, an error with what it wraps, or a panic. *)
Inductive txresult :=
  | RNil
  | RBegin (e : E)
  | RFn (e : E)
  | RFnRollback (e r : E)
  | RCommit (e : E)
  | RPanic (v : P).

(** The deferred function: roll back and panic again; a panic of [Rollback]
    itself replaces the first. *)
Definition recovered (calls : list call) (v : P) (rollback : outcome) : list call * txresult :=
  (calls ++ [CRollback], RPanic (match rollback with Panic v' => v' | _ => v end)).

(** [rollback1] is how the first call of [Rollback] ends, [rollback2] the second. *)
Definition WithTx (begin fn commit rollback1 rollback2 : outcome) : list call * txresult :=
  match begin with
  | Err e => ([CBegin], RBegin e)
  | Panic v => ([CBegin], RPanic v)
  | Ok =>
      match fn with
      | Panic v => recovered [CBegin; CFn] v rollback1
      | Err e =>
          match rollback1 with
          | Ok => ([CBegin; CFn; CRollback], RFn e)
          | Err r => ([CBegin; CFn; CRollback], RFnRollback e r)
          | Panic v => recovered [CBegin; CFn; CRollback] v rollback2
          end
      | Ok =>
          match commit with
          | Ok => ([CBegin; CFn; CCommit], RNil)
          | Err e => ([CBegin; CFn; CCommit], RCommit e)
          | Panic v => recovered [CBegin; CFn; CCommit] v rollback1
          end
      end
  end.

(** [DoInTx]: the function gets the context with the transaction in it. *)
Definition DoInTx {Ctx T : Type} (inject : Ctx -> T -> Ctx) (ctx : Ctx) (t : T) (fn : Ctx -> outcome)
    (begin commit rollback1 rollback2 : outcome) : list call * txresult :=
  WithTx begin (fn (inject ctx t)) commit rollback1 rollback2.

#[export] Instance call_eq_dec : EqDecision call.
Proof. solve_decision. Defined.

(** C25: A transaction is all or nothing: [Commit] is called exactly when the
    function ran and succeeded, nil is returned exactly when that commit
    succeeded, after a failure or panic of the function the transaction is
    rolled back and never committed, its error is returned even when the
    rollback fails too, and nothing is called on a transaction that did not
    begin. *)
Theorem withtx_all_or_nothing begin fn commit rb1 rb2 :
  let '(calls, r) := WithTx begin fn commit rb1 rb2 in
  (CCommit ∈ calls <-> begin = Ok /\ fn = Ok) /\
  (r = RNil <-> begin = Ok /\ fn = Ok /\ commit = Ok) /\
  (begin = Ok -> fn <> Ok -> CRollback ∈ calls /\ CCommit ∉ calls) /\
  (forall e, begin = Ok -> fn = Err e -> r = RFn e \/ (exists e', r = RFnRollback e e') \/ exists v, r = RPanic v) /\
  (forall v, begin = Ok -> fn = Panic v -> exists v', r = RPanic v' /\ (v' = v \/ rb1 = Panic v')) /\
  (begin <> Ok -> calls = [CBegin]) /\
  (begin = Ok -> count_occ call_eq_dec calls CFn = 1%nat).
Proof.
  assert (Hin : forall x (l : list call), bool_decide (x ∈ l) = true \/ bool_decide (x ∈ l) = false)
    by (intros x l; destruct (bool_decide (x ∈ l)); auto).
  destruct begin as [|e|v]; [|cbn; repeat split; (done || set_solver)|cbn; repeat split; (done || set_solver)].
  destruct fn as [|e|v]; cbn.
  - destruct commit as [|e|v]; cbn; repeat split; try done; try set_solver; try (intros [_ [_ ?]]; done).
  - destruct rb1 as [|r|v]; cbn; repeat split; try done; try set_solver; try (intros [_ ?]; done); try (intros [_ [? _]]; done);
      try (intros e' _ [= <-]; eauto).
  - repeat split; try done; try set_solver; try (intros [_ ?]; done); try (intros [_ [? _]]; done).
    intros v' _ [= <-]. destruct rb1; eauto.
Qed.
End tx.

(** ** Counting *)

Definition DefaultExactCountUnder : Z := 10000.

Inductive dialect := Postgres | MySQL | OtherDialect.

Definition mysqlEstimatePaths : list string := [
  "query_block.table.rows_examined_per_scan"; "query_block.nested_loop.0.table.rows_examined_per_scan";
  "query_block.ordering_operation.table.rows_examined_per_scan";
  "query_block.grouping_operation.table.rows_examined_per_scan"]%string.

Section count.
(** One query with a text or a number as its only value, and the number at a path
    of a JSON plan, converted to an integer. *)
Context (queryText : string -> option string) (queryNumber : string -> option Z) (GetFloat : string -> string -> option Z).

Fixpoint firstPath (plan : string) (paths : list string) : option Z :=
  match paths with [] => None | p :: paths => match GetFloat plan p with Some n => Some n | None => firstPath plan paths end end.

Definition EstimateCount (d : dialect) (query : string) : option Z :=
  match d with
  | Postgres => plan ← queryText ("EXPLAIN (FORMAT JSON) " +:+ query); GetFloat plan "0.Plan.Plan Rows"
  | MySQL => plan ← queryText ("EXPLAIN FORMAT=JSON " +:+ query); firstPath plan mysqlEstimatePaths
  | OtherDialect => None
  end.

Definition ExactCount (query : string) : option Z :=
  queryNumber ("SELECT COUNT(*) FROM (" +:+ query +:+ ") AS count_rows").

Definition CountWithEstimate (d : dialect) (query : string) (exactUnder : Z) : option Z :=
  let exactUnder := if exactUnder <=? 0 then DefaultExactCountUnder else exactUnder in
  match EstimateCount d query with
  | Some est => if exactUnder <=? est then Some est else ExactCount query
  | None => ExactCount query
  end.

(** A total below the threshold is exact, and a failing estimate never makes the
    count fail. *)
Theorem count_small_is_exact d query exactUnder n :
  CountWithEstimate d query exactUnder = Some n ->
  n < (if exactUnder <=? 0 then DefaultExactCountUnder else exactUnder) \/ EstimateCount d query = None ->
  ExactCount query = Some n.
Proof.
  unfold CountWithEstimate. destruct (EstimateCount d query) as [est|]; [|done].
  destruct (Z.leb_spec (if exactUnder <=? 0 then DefaultExactCountUnder else exactUnder) est); [|done].
  intros [= <-] [Hn|Hn]; [lia|done].
Qed.
End count.
End Tx.
