(* ===== verification/Merge.v ===== *)
(** * Merging of maps ([src/pkg/common/http/response/merge.go])

    [MergeMaps] combines maps of values; under [MergeAppend] the values of a key
    are collected in a slice.  A Go slice is a window on an array, and [append]
    writes into the array when there is room: arrays therefore live in a store
    shared by the sources and the results.  The order in which a map is walked
    is the order of its list of entries; the growth of arrays is an argument. *)

From stdpp Require Import base list option gmap strings.
From Stdlib Require Import Lia.
From S2P Require Import Prelude.

#[local] Open Scope nat_scope.

(** Values: a slice is the address of its array with its length; the capacity is
    that of the array. *)
Inductive value := VInt (n : nat) | VSlice (addr len : nat).

(** An array: the elements written so far, and its capacity. *)
Record array := mkArray { elems : list value; room : nat }.
Abbreviation heap := (gmap nat array).

Inductive MergeStrategy := MergeFirst | MergeLast | MergeAppend.
#[global] Instance strategy_eq_dec : EqDecision MergeStrategy.
Proof. solve_decision. Defined.

Section merge.
Context (grow : nat -> nat).

(** [append(s, v)]: in place when the array has room behind the slice, else into
    a new array at the address [next]. *)
Definition append (h : heap) (next : nat) (addr len : nat) (v : value) : heap * nat * value :=
  match h !! addr with
  | Some a =>
      if decide (len < room a) then
        (<[addr := mkArray (take len (elems a) ++ v :: drop (S len) (elems a)) (room a)]> h, next, VSlice addr (S len))
      else (<[next := mkArray (take len (elems a) ++ [v]) (S len + grow len)]> h, S next, VSlice next (S len))
  | None => (h, next, VSlice addr len)
  end.

Definition appendToSlice (h : heap) (next : nat) (existing new : value) : heap * nat * value :=
  match existing with
  | VSlice addr len => append h next addr len new
  | _ => append (<[next := mkArray [existing] 1]> h) (S next) next 1 new
  end.

(** The heap, the next free address and the result under construction. *)
Record state := mkState { store : heap; next : nat; result : gmap string value }.

Definition mergeEntry (strategy : MergeStrategy) (s : state) (kv : string * value) : state :=
  let '(k, v) := kv in
  match result s !! k with
  | None => mkState (store s) (next s) (<[k := v]> (result s))
  | Some existing =>
      match strategy with
      | MergeFirst => s
      | MergeLast => mkState (store s) (next s) (<[k := v]> (result s))
      | MergeAppend =>
          let '(h, n, r) := appendToSlice (store s) (next s) existing v in
          mkState h n (<[k := r]> (result s))
      end
  end.

Definition mergeSource (strategy : MergeStrategy) (s : state) (src : list (string * value)) : state :=
  foldl (mergeEntry strategy) s src.

Definition MergeMaps (strategy : MergeStrategy) (h : heap) (n : nat) (sources : list (list (string * value))) : state :=
  foldl (mergeSource strategy) (mkState h n ∅) sources.

Definition MergeStructs {T} (strategy : MergeStrategy) (convert : T -> list (string * value)) (h : heap) (n : nat) (sources : list T) : state :=
  MergeMaps strategy h n (convert <$> sources).

(** ** What a result shows *)

(** The elements of a slice. *)
Definition contents (h : heap) (v : value) : option (list value) :=
  match v with
  | VInt _ => None
  | VSlice addr len => a ← h !! addr; Some (take len (elems a))
  end.

(** All values of a key, in the order of the sources. *)
Definition valuesOf (es : list (string * value)) (k : string) : list value :=
  (fun e => e.2) <$> filter (fun e => e.1 = k) es.

(** What the result has for a key whose values are [vs]. *)
Definition shows (strategy : MergeStrategy) (h : heap) (r : option value) (vs : list value) : Prop :=
  match vs with
  | [] => r = None
  | v :: rest =>
      match strategy with
      | MergeFirst => r = Some v
      | MergeLast => r = last vs
      | MergeAppend =>
          match rest with
          | [] => r = Some v
          | _ => exists addr, r = Some (VSlice addr (length vs)) /\ contents h (VSlice addr (length vs)) = Some vs
          end
      end
  end.

(** Merging the sources is folding over all their entries. *)
Lemma MergeMaps_entries strategy h n sources :
  MergeMaps strategy h n sources = foldl (mergeEntry strategy) (mkState h n ∅) (concat sources).
Proof.
  unfold MergeMaps. generalize (mkState h n ∅). induction sources as [|src sources IH]; intros s; [done|].
  cbn [foldl concat]. rewrite foldl_app. apply IH.
Qed.

Lemma valuesOf_snoc es e k : valuesOf (es ++ [e]) k = valuesOf es k ++ (if decide (e.1 = k) then [e.2] else []).
Proof. unfold valuesOf. rewrite filter_app, fmap_app. f_equal. cbn. by case_decide. Qed.

(** A value under construction that stands for the values [vs]. *)
Definition collected (h : heap) (r : value) (vs : list value) : Prop :=
  (exists n, r = VInt n /\ vs = [r]) \/
  (exists a arr, r = VSlice a (length vs) /\ h !! a = Some arr /\ elems arr = vs /\ 2 <= length vs <= room arr).

(** Appending adds one value, in the array of the slice or in a new one, and
    leaves all other arrays alone. *)
Lemma appendToSlice_spec h n r vs v :
  (forall a arr, h !! a = Some arr -> a < n) -> collected h r vs ->
  exists h' n' a, appendToSlice h n r v = (h', n', VSlice a (length vs + 1)) /\
    collected h' (VSlice a (length vs + 1)) (vs ++ [v]) /\ n <= n' /\ (r = VSlice a (length vs) \/ n <= a) /\
    (forall b, b <> a -> b < n -> h' !! b = h !! b) /\ (forall b arr, h' !! b = Some arr -> b < n').
Proof.
  intros Hd [(x & -> & ->)|(a & arr & -> & Ha & He & Hr)]; cbn [appendToSlice].
  - unfold append. rewrite lookup_insert_eq. cbn [room elems]. rewrite decide_False by lia.
    eexists _, _, (S n). split; [done|]. cbn [length app take].
    split; [right; exists (S n); eexists; rewrite lookup_insert_eq; split; [done|split; [done|split; [done|cbn; lia]]]|].
    split; [lia|]. split; [right; lia|]. split.
    + intros b _ Hb. rewrite !lookup_insert_ne by lia. done.
    + intros b arr. rewrite !lookup_insert_Some. intros [[<- _]|[_ [[<- _]|[_ Hb]]]]; [lia|lia|]. apply Hd in Hb. lia.
  - pose proof (Hd a arr Ha) as Hlt. unfold append. rewrite Ha. case_decide as Hroom.
    + eexists _, _, a. replace (length vs + 1) with (S (length vs)) by lia. split; [done|].
      split; [right; exists a; eexists; rewrite length_app; cbn [length]; rewrite lookup_insert_eq, Nat.add_1_r; split; [done|split; [done|]]; cbn [elems room]|].
      { rewrite He. rewrite take_ge, drop_ge by lia. split; [done|lia]. }
      split; [lia|]. split; [by left|]. split; [intros b Hb _; by rewrite lookup_insert_ne|].
      intros b arr'. rewrite lookup_insert_Some. intros [[<- _]|[_ Hb]]; [done|by apply Hd in Hb].
    + eexists _, _, n. replace (length vs + 1) with (S (length vs)) by lia. split; [done|].
      split; [right; exists n; eexists; rewrite length_app; cbn [length]; rewrite lookup_insert_eq, Nat.add_1_r; split; [done|split; [done|]]; cbn [elems room]|].
      { rewrite He. rewrite take_ge by lia. split; [done|lia]. }
      split; [lia|]. split; [right; lia|]. split; [intros b Hb Hbn; rewrite lookup_insert_ne by lia; done|].
      intros b arr'. rewrite lookup_insert_Some. intros [[<- _]|[_ Hb]]; [lia|]. apply Hd in Hb. lia.
Qed.

(** The invariant of appending: every key stands for its values so far, arrays lie
    below the next address, and no two keys share one. *)
Record collecting (s : state) (es : list (string * value)) : Prop := {
  c_next : forall a arr, store s !! a = Some arr -> a < next s;
  c_keys : forall k, match result s !! k with None => valuesOf es k = [] | Some r => collected (store s) r (valuesOf es k) end;
  c_inj : forall k k' a l l', result s !! k = Some (VSlice a l) -> result s !! k' = Some (VSlice a l') -> k = k';
}.

Lemma collected_other h h' r vs a n :
  collected h r vs -> (forall b l, r = VSlice b l -> b <> a /\ b < n) -> (forall b, b <> a -> b < n -> h' !! b = h !! b) ->
  collected h' r vs.
Proof.
  intros [Hi|(b & arr & -> & Hb & He & Hr)] Hne Hh; [by left|]. right. exists b, arr.
  destruct (Hne b _ eq_refl). rewrite Hh by done. done.
Qed.

Lemma collecting_step s es k n :
  collecting s es -> collecting (mergeEntry MergeAppend s (k, VInt n)) (es ++ [(k, VInt n)]).
Proof.
  intros [Hn Hk Hi]. unfold mergeEntry. pose proof (Hk k) as Hkk. destruct (result s !! k) as [r|] eqn:Er.
  - destruct (appendToSlice_spec (store s) (next s) r (valuesOf es k) (VInt n) Hn Hkk) as (h' & n' & a & E & Hc & Hle & Ha & Hh & Hd).
    rewrite E. split; cbn [store next result]; [exact Hd| |].
    + intros k'. rewrite valuesOf_snoc. cbn [fst snd]. destruct (decide (k = k')) as [<-|Hne].
      * by rewrite lookup_insert_eq.
      * rewrite lookup_insert_ne, app_nil_r by done. specialize (Hk k'). destruct (result s !! k') as [r'|] eqn:Er'; [|done].
        eapply collected_other; [exact Hk| |exact Hh]. intros b l ->.
        assert (Hb : b < next s) by (destruct Hk as [(x & [=] & _)|(b' & arr & [= <- _] & Hb' & _)]; by eapply Hn).
        split; [|done]. destruct Ha as [->|Ha]; [|lia]. intros ->. by apply Hne, (Hi k k' a (length (valuesOf es k)) l).
    + intros k1 k2 b l l'. destruct (decide (k1 = k)) as [->|H1], (decide (k2 = k)) as [->|H2];
        rewrite ?lookup_insert_eq, ?lookup_insert_ne by done; [done| | |apply Hi].
      * intros [= <- <-] E2. specialize (Hk k2). rewrite E2 in Hk.
        assert (Hb : a < next s) by (destruct Hk as [(x & [=] & _)|(b' & arr & [= <- _] & Hb' & _)]; by eapply Hn).
        destruct Ha as [->|Ha]; [|lia]. by eapply Hi.
      * intros E1 [= <- <-]. specialize (Hk k1). rewrite E1 in Hk.
        assert (Hb : a < next s) by (destruct Hk as [(x & [=] & _)|(b' & arr & [= <- _] & Hb' & _)]; by eapply Hn).
        destruct Ha as [->|Ha]; [|lia]. by eapply Hi.
  - split; cbn [store next result]; [exact Hn| |].
    + intros k'. rewrite valuesOf_snoc. cbn [fst snd]. destruct (decide (k = k')) as [<-|Hne].
      * rewrite lookup_insert_eq, Hkk. left. by exists n.
      * rewrite lookup_insert_ne, app_nil_r by done. apply Hk.
    + intros k1 k2 b l l'. destruct (decide (k1 = k)) as [->|H1], (decide (k2 = k)) as [->|H2];
        rewrite ?lookup_insert_eq, ?lookup_insert_ne by done; [done|done|done|apply Hi].
Qed.

(** The other two strategies only choose. *)
Lemma choosing strategy h n es k :
  strategy <> MergeAppend ->
  shows strategy h (result (foldl (mergeEntry strategy) (mkState h n ∅) es) !! k) (valuesOf es k).
Proof.
  intros Hs. induction es as [|[k' v] es IH] using rev_ind; [done|]. rewrite foldl_app, valuesOf_snoc. cbn [foldl fst snd].
  set (s := foldl (mergeEntry strategy) (mkState h n ∅) es) in *. unfold mergeEntry.
  destruct (decide (k' = k)) as [->|Hne].
  - destruct (valuesOf es k) as [|w ws]; cbn [shows] in IH.
    + rewrite IH. cbn. rewrite lookup_insert_eq. by destruct strategy.
    + destruct strategy; [| |done].
      * rewrite IH. cbn [app shows]. exact IH.
      * destruct (last_is_Some (w :: ws)) as [_ [x Ex]]; [done|]. rewrite IH, Ex. cbn [result app shows].
        rewrite lookup_insert_eq. change (w :: ws ++ [v]) with ((w :: ws) ++ [v]). by rewrite last_snoc.
  - rewrite app_nil_r. destruct (result s !! k') as [r|]; [destruct strategy; [exact IH| |done]|]; cbn [result];
      rewrite lookup_insert_ne by done; exact IH.
Qed.

(** For every key the merged map shows its first value, its last value, or all
    its values in the order of the sources, as the strategy says, whatever the
    arrays are and however they grow; keys of no source are absent.  The sources
    must not hold slices themselves. *)
Theorem merge_shows_values strategy h n sources k :
  (forall a arr, h !! a = Some arr -> a < n) ->
  Forall (Forall (fun e => exists x, e.2 = VInt x)) sources ->
  let s := MergeMaps strategy h n sources in
  shows strategy (store s) (result s !! k) (valuesOf (concat sources) k).
Proof.
  intros Hd Hp. cbn zeta. rewrite MergeMaps_entries.
  assert (Hes : Forall (fun e : string * value => exists x, e.2 = VInt x) (concat sources)) by (by apply Forall_concat).
  generalize dependent (concat sources). clear Hp sources. intros es Hes.
  destruct (decide (strategy = MergeAppend)) as [->|Hne];
    [|pose proof (choosing strategy h n es k Hne) as Hs; destruct (valuesOf es k); [done|by destruct strategy]].
  assert (Hc : collecting (foldl (mergeEntry MergeAppend) (mkState h n ∅) es) es).
  { induction es as [|[k' v] es IH] using rev_ind.
    - split; [exact Hd|intros k'; cbn; by rewrite lookup_empty|intros k1 k2 a l l'; cbn; by rewrite lookup_empty].
    - apply Forall_app in Hes as [Hes Hv]. apply Forall_singleton in Hv as [x Ex]. cbn in Ex. subst v.
      rewrite foldl_app. cbn [foldl]. by apply collecting_step, IH. }
  destruct Hc as [_ Hk _]. specialize (Hk k). destruct (result _ !! k) as [r|]; [|by rewrite Hk].
  destruct Hk as [(x & -> & E)|(a & arr & -> & Ha & He & Hr)]; [rewrite E; done|].
  destruct (valuesOf es k) as [|v [|w vs]] eqn:Ev; cbn [shows].
  - cbn in Hr. lia.
  - cbn in Hr. lia.
  - exists a. split; [done|]. cbn [contents]. rewrite Ha. cbn. by rewrite He, take_ge.
Qed.
End merge.

(** Three sources under each strategy. *)
Lemma merge_shows_values_witness :
  let sources := [[("a", VInt 1); ("b", VInt 2)]; [("a", VInt 3)]; [("a", VInt 4); ("b", VInt 5)]]%string in
  let s := MergeMaps (fun n => n) MergeAppend ∅ 0 sources in
  shows MergeAppend (store s) (result s !! "a"%string) [VInt 1; VInt 3; VInt 4].
Proof.
  apply (merge_shows_values (fun n => n) MergeAppend ∅ 0
    [[("a", VInt 1); ("b", VInt 2)]; [("a", VInt 3)]; [("a", VInt 4); ("b", VInt 5)]]%string "a"%string).
  - intros a arr. rewrite lookup_empty. discriminate.
  - repeat (apply Forall_cons; split); repeat constructor; eexists; reflexivity.
Defined.

(** A source that holds a slice with room behind it: appending writes into the
    array of the source, so a second merge with the same source changes what the
    result of the first one shows. *)
Theorem merge_append_aliases_source :
  let h := {[ 0 := mkArray [VInt 1] 4 ]} : heap in
  let base := [("xs", VSlice 0 1)]%string in
  let s1 := MergeMaps (fun n => n) MergeAppend h 1 [base; [("xs", VInt 2)]%string] in
  let s2 := MergeMaps (fun n => n) MergeAppend (store s1) (next s1) [base; [("xs", VInt 3)]%string] in
  result s1 !! "xs"%string = Some (VSlice 0 2) /\
  contents (store s1) (VSlice 0 2) = Some [VInt 1; VInt 2] /\
  contents (store s2) (VSlice 0 2) = Some [VInt 1; VInt 3].
Proof. vm_compute. repeat split. Qed.

(** Slices of the sources are not told from collected values: one slice is
    extended, a second one becomes an element of the first. *)
Theorem merge_append_nests :
  let h := {[ 0 := mkArray [VInt 1] 1; 1 := mkArray [VInt 2] 1 ]} : heap in
  let s := MergeMaps (fun n => n) MergeAppend h 2 [[("xs", VSlice 0 1)]; [("xs", VSlice 1 1)]]%string in
  (result s !! "xs"%string ≫= contents (store s)) = Some [VInt 1; VSlice 1 1].
Proof. vm_compute. repeat split. Qed.
