(* ===== verification/Queries.v ===== *)
(** * Query builders ([src/pkg/database/mongodb/request.go],
    [src/pkg/database/elasticsearch/request.go] and [repository.go],
    [src/pkg/database/widecolumn/repository.go])

    The same options of a client (filters, sorts, a page or a cursor) become a
    filter and options for MongoDB, a search body for Elasticsearch, and
    statements for a wide-column database.  Maps of the drivers are finite
    maps; parsing of object identifiers is an argument. *)

From stdpp Require Import base list option gmap strings.
From Stdlib Require Import ZArith Lia Ascii.
From S2P Require Import Prelude Web.

#[local] Open Scope Z_scope.

(** What [any] holds. *)
Inductive any := ANil | AStr (s : string) | AList (l : list any) | AOther (n : Z).

Record SearchFilter := mkFilter { fKey : string; fValue : any; fType : string }.
Record SortOption := mkSort { sKey : string; sOrder : Z }.

(** [Cursor != nil && Cursor != ""]. *)
Definition hasCursor (v : any) : bool :=
  match v with ANil => false | AStr s => negb (bool_decide (s = EmptyString)) | _ => true end.

Module Mongo.

Section mongo.
Context {OID : Type} (ObjectIDFromHex : string -> option OID).

(** Conditions on a field, and filters. *)
Inductive cond :=
  | CExact (v : any)
  | CRegex (s : string)
  | CIn (ids : list OID)
  | CLess (v : any + OID)
  | CGreater (v : any + OID).
Inductive filter := FMap (m : gmap string cond) | FAnd (fs : list filter).

(** The condition of one filter, if it has any. *)
Definition condOf (f : SearchFilter) : option cond :=
  match fValue f with
  | ANil => None
  | v =>
      if decide (fKey f = EmptyString) then None
      else if decide (fType f = "search"%string) then
        match v with AStr s => if decide (s = EmptyString) then None else Some (CRegex s) | _ => None end
      else if decide (fType f = "exact"%string) then Some (CExact v)
      else if decide (fType f = "filter"%string) then
        match v with
        | AStr s => match ObjectIDFromHex s with Some oid => Some (CIn [oid]) | None => None end
        | _ => Some (CExact v)
        end
      else Some (CExact v)
  end.

Definition addFilter (m : gmap string cond) (f : SearchFilter) : gmap string cond :=
  match condOf f with Some c => <[fKey f := c]> m | None => m end.
Definition BuildFilter (fs : list SearchFilter) : gmap string cond := foldl addFilter ∅ fs.

Definition addSort (m : gmap string Z) (s : SortOption) : gmap string Z :=
  if decide (sKey s = EmptyString) then m
  else <[sKey s := if (sOrder s =? 1) || (sOrder s =? -1) then sOrder s else -1]> m.
Definition BuildSort (ss : option (list SortOption)) : gmap string Z :=
  match ss with
  | None => {["created_at" := -1]}%string
  | Some ss => let m := foldl addSort ∅ ss in if decide (m = ∅) then {["created_at" := -1]}%string else m
  end.

Record FindOptions := mkFind { Limit : Z; FSort : gmap string Z; Skip : option Z }.

(** The first sort on the identifier decides the direction of the cursor. *)
Fixpoint isAsc (ss : list SortOption) : bool :=
  match ss with
  | [] => false
  | s :: ss => if decide (sKey s = "_id"%string \/ sKey s = "id"%string) then sOrder s =? 1 else isAsc ss
  end.

Definition cursorVal (c : any) : any + OID :=
  match c with AStr s => match ObjectIDFromHex s with Some oid => inr oid | None => inl c end | _ => inl c end.

Definition cursorCond (c : any) (ss : list SortOption) : cond :=
  if isAsc ss then CGreater (cursorVal c) else CLess (cursorVal c).

Definition ApplyQueryOptions (page : Page.PaginationOptions) (cursor : any) (fs : list SearchFilter) (ss : list SortOption)
    : filter * FindOptions :=
  let p := Page.SetDefaults page in
  let m := BuildFilter fs in
  let sort := BuildSort (Some ss) in
  if hasCursor cursor then
    let c := cursorCond cursor ss in
    (match m !! "_id"%string with
     | Some _ => FAnd [FMap m; FMap {["_id" := c]}%string]
     | None => FMap (<["_id"%string := c]> m)
     end, mkFind (Page.PageSize p) sort None)
  else (FMap m, mkFind (Page.PageSize p) sort (Some (i64 (i64 (Page.Page p - 1) * Page.PageSize p)))).

(** ** What a filter selects *)

(** [holds k c] says that a document's field [k] satisfies [c]. *)
Fixpoint selects (holds : string -> cond -> Prop) (f : filter) : Prop :=
  match f with
  | FMap m => map_Forall holds m
  | FAnd fs => (fix go (fs : list filter) : Prop := match fs with [] => True | f :: fs => selects holds f /\ go fs end) fs
  end.

(** The last filter on a key that has a condition decides. *)
Lemma BuildFilter_lookup fs k :
  BuildFilter fs !! k = last (omap condOf (base.filter (fun f => fKey f = k) fs)).
Proof.
  unfold BuildFilter. induction fs as [|f fs IH] using rev_ind; [done|].
  rewrite foldl_app, filter_app, omap_app. cbn [foldl]. unfold addFilter at 1.
  rewrite filter_cons. destruct (condOf f) as [c|] eqn:Ec.
  - destruct (decide (fKey f = k)) as [<-|Hne].
    + rewrite lookup_insert_eq. cbn [omap list_omap base.filter list_filter]. rewrite Ec. by rewrite last_snoc.
    + rewrite lookup_insert_ne by done. by rewrite IH, app_nil_r.
  - destruct (decide (fKey f = k)) as [<-|Hne]; cbn [omap list_omap base.filter list_filter]; rewrite ?Ec; by rewrite IH, app_nil_r.
Qed.

(** A page by cursor selects exactly the documents that satisfy, for every
    field, the last condition the client gave on it, and whose identifier lies
    beyond the cursor in the direction of the sort; a condition of the client on the
    identifier is kept beside it.  Without a cursor it is the conditions
    alone, and the number of documents to skip. *)
Theorem mongo_query_selects page cursor fs ss holds :
  let '(f, o) := ApplyQueryOptions page cursor fs ss in
  let conditions := forall k c, last (omap condOf (base.filter (fun f => fKey f = k) fs)) = Some c -> holds k c in
  (selects holds f <-> conditions /\ (hasCursor cursor = true -> holds "_id"%string (cursorCond cursor ss))) /\
  (Skip o = None <-> hasCursor cursor = true) /\ 1 <= Limit o.
Proof.
  unfold ApplyQueryOptions.
  assert (Hc : map_Forall holds (BuildFilter fs) <->
    forall k c, last (omap condOf (base.filter (fun f => fKey f = k) fs)) = Some c -> holds k c).
  { unfold map_Forall. split; intros Hm k c; rewrite <- ?BuildFilter_lookup; [apply Hm|]. rewrite BuildFilter_lookup. apply Hm. }
  assert (Hl : 1 <= Page.PageSize (Page.SetDefaults page)) by (unfold Page.SetDefaults; cbn; zb; lia).
  destruct (hasCursor cursor); [|cbn; rewrite Hc; split; [split; [intros; split; done|by intros [? _]]|split; [done|done]]].
  split; [|split; [done|done]]. destruct (BuildFilter fs !! "_id"%string) as [c|] eqn:E; cbn [selects].
  - rewrite Hc, map_Forall_singleton. tauto.
  - rewrite map_Forall_insert by done. rewrite Hc. tauto.
Qed.

(** Two orders of the same sorts are the same map: the priority of the keys is lost. *)
Theorem mongo_sort_order_lost :
  BuildSort (Some [mkSort "a" 1; mkSort "b" 1]) = BuildSort (Some [mkSort "b" 1; mkSort "a" 1]).
Proof. vm_compute. reflexivity. Qed.

(** A second condition on a field replaces the first. *)
Theorem mongo_second_condition_wins v w k :
  k <> EmptyString -> v <> ANil -> w <> ANil ->
  BuildFilter [mkFilter k v "exact"; mkFilter k w "exact"] = {[k := CExact w]}.
Proof.
  assert (Hc : forall v, k <> EmptyString -> v <> ANil -> condOf (mkFilter k v "exact") = Some (CExact v)).
  { intros v' Hk Hv. unfold condOf. cbn [fKey fValue fType]. by destruct v'; [done|..]; rewrite (decide_False (P := k = EmptyString)) by done. }
  intros Hk Hv Hw. unfold BuildFilter. cbn [foldl]. unfold addFilter. rewrite !Hc by done. cbn [fKey].
  by rewrite insert_insert_eq.
Qed.
End mongo.

(** An identifier that does not parse removes the condition: the query then
    selects every document. *)
Theorem mongo_bad_id_selects_all holds :
  let f := (ApplyQueryOptions (OID := nat) (fun _ => None) (Page.mkOptions 1 10) ANil [mkFilter "owner" (AStr "x") "filter"] []).1 in
  selects holds f.
Proof. cbn. apply map_Forall_empty. Qed.

(** With a cursor the default order is by creation while the cursor compares
    identifiers. *)
Theorem mongo_cursor_sort_mismatch (oidOf : string -> option nat) c :
  hasCursor c = true ->
  let '(f, o) := ApplyQueryOptions oidOf (Page.mkOptions 1 10) c [] [] in
  f = FMap {["_id" := CLess (cursorVal oidOf c)]}%string /\ FSort o = {["created_at" := -1]}%string.
Proof. intros Hc. unfold ApplyQueryOptions. rewrite Hc. split; reflexivity. Qed.
End Mongo.

Module Search.

(** ** Search bodies *)

Inductive clause := EMatch (k : string) (v : any) | EPhrase (k : string) (v : any) | ETerm (k : string) (v : any) | EWildcard (k : string) (v : any).

(** One iteration of the loop of [BuildFilter]. *)
Definition addClause (acc : list clause * list clause) (f : SearchFilter) : list clause * list clause :=
  let '(must, filter) := acc in
  if decide (fType f = "match"%string) then (must ++ [EMatch (fKey f) (fValue f)], filter)
  else if decide (fType f = "term"%string) then (must, filter ++ [ETerm (fKey f) (fValue f)])
  else if decide (fType f = "phrase"%string) then (must ++ [EPhrase (fKey f) (fValue f)], filter)
  else if decide (fType f = "wildcard"%string) then (must, filter ++ [EWildcard (fKey f) (fValue f)])
  else (must, filter).

(** [None] is the empty query. *)
Definition BuildFilter (fs : list SearchFilter) : option (list clause * list clause) :=
  match foldl addClause ([], []) fs with ([], []) => None | q => Some q end.

Definition BuildSort (ss : list SortOption) : list (string * string) :=
  (fun s => (sKey s, if sOrder s =? -1 then "desc"%string else "asc"%string)) <$> ss.

(** Where a page starts: an offset or the values of the last hit. *)
Definition BuildPagination (p : Page.PaginationOptions) (cursor : any) : Z * (Z + list any) :=
  let p := Page.SetDefaults p in
  (Page.PageSize p,
   if hasCursor cursor then inr (match cursor with AList l => l | c => [c] end)
   else inl (i64 (i64 (Page.Page p - 1) * Page.PageSize p))).

(** [None] as the query is [match_all]; an empty sort is left out. *)
Record body := mkBody { bpage : Z * (Z + list any); bquery : option (list clause * list clause); bsort : list (string * string) }.

Definition BuildSearchQuery (page : Page.PaginationOptions) (cursor : any) (fs : list SearchFilter) (ss : list SortOption) : body :=
  mkBody (BuildPagination page cursor) (BuildFilter fs) (BuildSort ss).

Definition scoring (f : SearchFilter) : option clause :=
  if decide (fType f = "match"%string) then Some (EMatch (fKey f) (fValue f))
  else if decide (fType f = "phrase"%string) then Some (EPhrase (fKey f) (fValue f)) else None.
Definition filtering (f : SearchFilter) : option clause :=
  if decide (fType f = "term"%string) then Some (ETerm (fKey f) (fValue f))
  else if decide (fType f = "wildcard"%string) then Some (EWildcard (fKey f) (fValue f)) else None.

Lemma addClause_spec must filter f :
  addClause (must, filter) f = (must ++ option_list (scoring f), filter ++ option_list (filtering f)) /\
  (scoring f = None \/ filtering f = None).
Proof.
  unfold addClause, scoring, filtering.
  repeat case_decide; try congruence; cbn; rewrite ?app_nil_r; auto.
Qed.

(** Every filter of a known type becomes one clause, in order: matches and phrases
    count for the score, terms and wildcards only select; the search is for
    everything exactly when no filter has a known type. *)
Theorem search_query_complete page cursor fs ss :
  let q := bquery (BuildSearchQuery page cursor fs ss) in
  (q = None <-> omap scoring fs = [] /\ omap filtering fs = []) /\
  (forall must filter, q = Some (must, filter) -> must = omap scoring fs /\ filter = omap filtering fs).
Proof.
  assert (H : foldl addClause ([], []) fs = (omap scoring fs, omap filtering fs)).
  { induction fs as [|f fs IH] using rev_ind; [done|]. rewrite foldl_app, IH, !omap_app. cbn [foldl].
    destruct (addClause_spec (omap scoring fs) (omap filtering fs) f) as [-> _].
    f_equal; cbn; by destruct (scoring f), (filtering f). }
  cbn [BuildSearchQuery bquery]. unfold BuildFilter. rewrite H.
  destruct (omap scoring fs) as [|x l], (omap filtering fs) as [|y k]; (split; [split; [by intros|by intros [? ?]]|]);
    intros must filter [= <- <-]; done.
Qed.

(** The types the options document ("search", "filter", "exact") are none of the
    known ones: such filters are dropped and everything is found. *)
Theorem search_ignores_documented_types page ss k v ty :
  ty ∈ ["search"; "filter"; "exact"]%string ->
  bquery (BuildSearchQuery page ANil [mkFilter k v ty] ss) = None.
Proof. rewrite !elem_of_cons, elem_of_nil. intros [->|[->|[->|[]]]]; reflexivity. Qed.

(** ** Pages of results *)

(** [Find]: the number of hits of this page is taken for the total. *)
Definition findPagination (p : Page.PaginationOptions) (hits : Z) : option Page.PaginationMeta :=
  let p := Page.SetDefaults p in Page.CalculatePagination (Page.Page p) (Page.PageSize p) hits.

(** So a page with hits is always reported as the only one. *)
Theorem search_find_single_page p hits :
  Page.PageSize p < 2 ^ 62 -> 1 <= hits <= Page.PageSize (Page.SetDefaults p) ->
  exists meta, findPagination p hits = Some meta /\ Page.TotalPages meta = 1 /\ Page.CurrentPage meta = 1 /\ Page.HasNext meta = false.
Proof.
  intros Hs Hh. unfold findPagination, Page.CalculatePagination.
  assert (H1 : 1 <= Page.PageSize (Page.SetDefaults p) < 2 ^ 62 /\ 1 <= Page.Page (Page.SetDefaults p))
    by (unfold Page.SetDefaults; cbn; zb; lia).
  revert H1 Hh. generalize (Page.PageSize (Page.SetDefaults p)) (Page.Page (Page.SetDefaults p)). intros size page [H1 H2] Hh.
  destruct (Z.eqb_spec size 0); [lia|]. eexists. split; [reflexivity|].
  assert (E : godiv (i64 (i64 (hits + size) - 1)) size = 1).
  { rewrite (i64_small (hits + size)), (i64_small (hits + size - 1)) by lia. unfold godiv.
    rewrite Z.quot_div_nonneg by lia. replace ((hits + size - 1) / size) with 1; [done|].
    apply Z.div_unique with (hits - 1); lia. }
  cbn. rewrite ?E. rewrite Z.min_r by lia. done.
Qed.

(** ** Bulk requests *)

Definition quote : string := String (ascii_of_nat 34) EmptyString.
Definition newline : string := String (ascii_of_nat 10) EmptyString.
Definition quoted (s : string) : string := quote +:+ s +:+ quote.

(** One meta line, as [fmt.Sprintf] writes it: names are inserted as they are. *)
Definition metaLine (action index id : string) : string :=
  "{ " +:+ quoted action +:+ " : { " +:+ quoted "_index" +:+ " : " +:+ quoted index +:+ ", " +:+
  quoted "_id" +:+ " : " +:+ quoted id +:+ " } }" +:+ newline.

Fixpoint joinLines (ls : list string) : string :=
  match ls with [] => EmptyString | l :: ls => l +:+ joinLines ls end.

(** What a bulk operation does: nothing for an empty list, fail because a document
    has no JSON text, or send a body. *)
Inductive bulk := Nothing | MarshalFailed | Send (body : string).

(** The lines of one document: [data] is its JSON text, if it has one. *)
Definition docLines (index id : string) (data : option string) : option string :=
  (fun d => metaLine "index" index id +:+ d +:+ newline) <$> data.
Definition CreateBulk (index : string) (docs : list (string * option string)) : bulk :=
  match docs with
  | [] => Nothing
  | _ => match mapM (fun d => docLines index d.1 d.2) docs with Some ls => Send (joinLines ls) | None => MarshalFailed end
  end.
Definition DeleteBulk (index : string) (ids : list string) : bulk :=
  match ids with [] => Nothing | _ => Send (joinLines (metaLine "delete" index <$> ids)) end.

(** A body is sent only when every document has a text, so a bulk insertion
    never sends some of the documents only. *)
Theorem search_bulk_all_or_nothing index docs :
  (exists body, CreateBulk index docs = Send body) <-> docs <> [] /\ Forall (fun d => is_Some d.2) docs.
Proof.
  assert (H : is_Some (mapM (fun d => docLines index d.1 d.2) docs) <-> Forall (fun d => is_Some d.2) docs).
  { rewrite mapM_is_Some. apply Forall_iff. intros [id [d|]]; cbn; [|by rewrite !is_Some_alt]. split; by eexists. }
  rewrite <- H. unfold CreateBulk. destruct docs as [|d docs]; [split; [by intros [? [=]]|by intros [? _]]|].
  destruct (mapM _ _) as [ls|].
  - split; [intros _; split; [done|by eexists]|intros _; by eexists].
  - split; [by intros [? [=]]|by intros [_ [? [=]]]].
Qed.

Lemma append_assoc s1 s2 s3 : (s1 +:+ s2) +:+ s3 = s1 +:+ s2 +:+ s3.
Proof. induction s1 as [|a s1 IH]; [done|]. exact (f_equal (String a) IH). Qed.

Lemma append_nil s : s +:+ EmptyString = s.
Proof. induction s as [|a s IH]; [done|]. exact (f_equal (String a) IH). Qed.

(** Identifiers are not escaped: one that closes the line deletes a second
    document. *)
Theorem search_bulk_id_injection index a b :
  let evil := a +:+ quote +:+ " } }" +:+ newline +:+ "{ " +:+ quoted "delete" +:+ " : { " +:+ quoted "_index" +:+ " : " +:+
    quoted index +:+ ", " +:+ quoted "_id" +:+ " : " +:+ quote +:+ b in
  DeleteBulk index [evil] = DeleteBulk index [a; b].
Proof.
  cbn [DeleteBulk fmap list_fmap joinLines]. f_equal. unfold metaLine, quoted. rewrite !append_nil.
  rewrite !append_assoc. reflexivity.
Qed.
End Search.

Module Wide.

(** ** Statements *)

Fixpoint Join (ss : list string) (sep : string) : string :=
  match ss with [] => EmptyString | [s] => s | s :: ss => s +:+ sep +:+ Join ss sep end.

Definition insertStmt (table : string) (cols : list string) : string :=
  "INSERT INTO " +:+ table +:+ " (" +:+ Join cols ", " +:+ ") VALUES (" +:+
  Join (replicate (length cols) "?"%string) ", " +:+ ")".
Definition insertTTLStmt (table : string) (cols : list string) : string := insertStmt table cols +:+ " USING TTL ?".
Definition deleteStmt (table : string) : string := "DELETE FROM " +:+ table +:+ " WHERE id = ?".
Definition getStmt (table : string) : string := "SELECT * FROM " +:+ table +:+ " WHERE id = ?".
Definition findStmt (table : string) : string := "SELECT * FROM " +:+ table.
Definition existsStmt (table : string) : string := "SELECT count(*) FROM " +:+ table +:+ " WHERE id = ?".

(** A model: its columns and their values. *)
Record model := mkModel { columns : list string; values : list Z }.

(** What is sent: statements with their arguments. *)
Definition Create (table : string) (m : model) : string * list Z := (insertStmt table (columns m), values m).
Definition CreateWithTTL (table : string) (m : model) (ttl : Z) : string * list Z :=
  (insertTTLStmt table (columns m), values m ++ [ttl]).
Definition Update (table : string) (m : model) : string * list Z := Create table m.
Definition Delete (table : string) (id : Z) : string * list Z := (deleteStmt table, [id]).
Definition CreateBulk (table : string) (ms : list model) : list (string * list Z) := Create table <$> ms.
Definition DeleteBulk (table : string) (ids : list Z) : list (string * list Z) := Delete table <$> ids.

Fixpoint marks (s : string) : nat :=
  match s with EmptyString => 0 | String a s => if decide (a = "?"%char) then S (marks s) else marks s end.

Lemma marks_app s1 s2 : marks (s1 +:+ s2) = (marks s1 + marks s2)%nat.
Proof.
  induction s1 as [|a s1 IH]; [done|]. change (String a s1 +:+ s2) with (String a (s1 +:+ s2)). cbn [marks].
  case_decide; rewrite IH; lia.
Qed.

Lemma marks_Join ss sep : marks sep = 0%nat -> marks (Join ss sep) = sum_list (marks <$> ss).
Proof.
  intros Hs. induction ss as [|s ss IH]; [done|]. destruct ss as [|t ss]; [cbn; lia|].
  change (Join (s :: t :: ss) sep) with (s +:+ sep +:+ Join (t :: ss) sep). rewrite !marks_app, IH, Hs. cbn. lia.
Qed.

(** Every statement has as many marks as arguments, provided that names contain
    none and a model has a value for every column. *)
Theorem wide_marks_match_arguments table m ttl id :
  marks table = 0%nat -> Forall (fun c => marks c = 0%nat) (columns m) -> length (values m) = length (columns m) ->
  Forall (fun st => marks st.1 = length st.2) [Create table m; Update table m; CreateWithTTL table m ttl; Delete table id].
Proof.
  intros Ht Hc Hl.
  assert (H0 : sum_list (marks <$> columns m) = 0%nat) by (clear Hl; induction Hc as [|c cs E _ IH]; [done|]; cbn; rewrite E; exact IH).
  assert (H1 : forall n, sum_list (marks <$> replicate n "?"%string) = n) by (induction n as [|n IH]; [done|]; exact (f_equal S IH)).
  assert (Hi : marks (insertStmt table (columns m)) = length (columns m)).
  { unfold insertStmt. rewrite !marks_app, !marks_Join, H0, H1, Ht by done.
    change (marks "INSERT INTO ") with 0%nat. change (marks " (") with 0%nat.
    change (marks ") VALUES (") with 0%nat. change (marks ")") with 0%nat. lia. }
  repeat constructor; cbn [Create Update CreateWithTTL Delete fst snd].
  - by rewrite Hi.
  - by rewrite Hi.
  - unfold insertTTLStmt. rewrite marks_app, Hi, length_app, Hl. change (marks " USING TTL ?") with 1%nat. done.
  - unfold deleteStmt. rewrite !marks_app, Ht. done.
Qed.
End Wide.
