(* ===== verification/Remote.v ===== *)
(** * Remote caching ([src/pkg/common/cache/remote_helper.go], [remote.go],
      [src/pkg/database/redis/client.go])

    [FetchRemote] is [Fetch] over a remote engine: envelopes and markers are
    stored as JSON texts, a read that fails or does not decode is a miss, and a
    failed write is ignored.  The engine is an interface ([CacheEngine]) and the
    Redis engine one of its instances, over a client of the Redis library.  The
    JSON codec and the client are parameters, with their documented behaviour as
    laws. *)

From stdpp Require Import base list option gmap strings.
From Stdlib Require Import ZArith Lia Ascii.
From S2P Require Import Prelude Fetch.

#[local] Open Scope Z_scope.

(** Errors by identity: the cache package and the Redis package each have a value
    named [ErrKeyNotFound]. *)
Inductive gerr := CacheKeyNotFound | RedisKeyNotFound | Undecodable | Unencodable | Client (n : nat) | Wrapped (e : gerr).

(** [errors.Is(err, ErrKeyNotFound)] in the cache package. *)
Fixpoint isKeyNotFound (e : gerr) : bool :=
  match e with CacheKeyNotFound => true | Wrapped e => isKeyNotFound e | _ => false end.

(** The values the helpers store. *)
Inductive payload (T : Type) := PEnv (e : envelope T) | PBool (b : bool).
Arguments PEnv {T}. Arguments PBool {T}.

(** ** The engine *)

(** [Get] gives the data if the key exists, and an error; [V] is what can be
    stored.  The environment stands for expiry, other clients and failures. *)
Class CacheEngine (V S : Type) := {
  eGet : S -> string -> option string * option gerr;
  eSet : S -> string -> V -> Z -> S * option gerr;
  eDelete : S -> string -> S * option gerr;
  eEnviron : Type;
  eTurn : S -> eEnviron -> S;
}.

(** What may be read under a key, now or later, was there before, is the text of a value
    set under it, or was put there by others ([foreign]: another process, or an earlier
    run, of the same shared engine). *)
Class CacheEngineLaws (V S : Type) `{CacheEngine V S} (marshal : V -> option string) := {
  mayRead : S -> string -> string -> Prop;
  foreign : string -> string -> Prop;
  eGet_may : forall s k d err, eGet s k = (Some d, err) -> mayRead s k d;
  eSet_may : forall s k v t k' d, mayRead (eSet s k v t).1 k' d -> mayRead s k' d \/ (k' = k /\ marshal v = Some d);
  eDelete_may : forall s k k' d, mayRead (eDelete s k).1 k' d -> mayRead s k' d;
  eTurn_may : forall s x k d, mayRead (eTurn s x) k d -> mayRead s k d \/ foreign k d;
}.

(** ** The helpers *)

Section helpers.
Context {V S : Type} `{CacheEngine V S}.

Definition GetRemote {A} (unmarshal : string -> option A) (s : S) (key : string) : option A * option gerr :=
  match eGet s key with
  | (None, err) =>
      match err with
      | Some e => if isKeyNotFound e then (None, None) else (None, Some e)
      | None => (None, None)
      end
  | (Some data, _) => match unmarshal data with Some v => (Some v, None) | None => (None, Some Undecodable) end
  end.
Definition SetRemote (s : S) (key : string) (v : V) (ttl : Z) : S * option gerr := eSet s key v ttl.
Definition DeleteRemote (s : S) (key : string) : S * option gerr := eDelete s key.

(** A value is the decoded data of the engine; an engine that reports a missing
    key as the interface asks gives a clean miss. *)
Lemma GetRemote_value {A} (unmarshal : string -> option A) s key v :
  (GetRemote unmarshal s key).1 = Some v <-> exists d, (eGet s key).1 = Some d /\ unmarshal d = Some v.
Proof.
  unfold GetRemote. destruct (eGet s key) as [[d|] err]; cbn.
  - destruct (unmarshal d) as [w|] eqn:E; cbn; split; [intros [= ->]; by exists d|intros (d' & [= <-] & E'); congruence|done|].
    intros (d' & [= <-] & E'). congruence.
  - split; [|by intros (d & [=] & _)]. destruct err as [e|]; [by destruct (isKeyNotFound e)|done].
Qed.

Lemma GetRemote_clean_miss {A} (unmarshal : string -> option A) s key err :
  eGet s key = (None, err) ->
  (GetRemote unmarshal s key = (None, None) <-> match err with Some e => isKeyNotFound e = true | None => True end).
Proof. intros E. unfold GetRemote. rewrite E. destruct err as [e|]; [|done]. by destruct (isKeyNotFound e). Qed.
End helpers.

(** ** [FetchRemote] *)

Section remote.
Context {T S : Type} (unmarshalEnv : string -> option (envelope T)) (unmarshalBool : string -> option bool).

(** What [FetchRemote] uses of the engine: errors of reads and writes are
    dropped, and any boolean under the second key is a marker. *)
Definition remote_store `{CacheEngine (payload T) S} : FetchStore T S := {|
  fenv s key := (GetRemote unmarshalEnv s key).1;
  fneg s key := match (GetRemote unmarshalBool s (key +:+ negativeSuffix)).1 with Some _ => true | None => false end;
  fput s key env ttl := (SetRemote s key (PEnv env) ttl).1;
  fdrop s key := (DeleteRemote s key).1;
  fmark s key ttl := (SetRemote s (key +:+ negativeSuffix) (PBool true) ttl).1;
  fenviron := eEnviron;
  fturn s x := eTurn s x;
|}.

Definition FetchRemote {E} `{CacheEngine (payload T) S} : @sys T E S -> string -> bool -> sys := @Fetch T E S remote_store.

(** The texts of envelopes and markers: an envelope, a struct, is written as an object,
    which does not decode as a boolean, nor a boolean as an envelope.  An envelope need
    not decode to itself: fields of [T] that are not exported are lost, and values of an
    interface type come back as others. *)
Record codec (marshal : payload T -> option string) : Prop := {
  env_not_bool : forall e d, marshal (PEnv e) = Some d -> unmarshalBool d = None;
  bool_not_env : forall b d, marshal (PBool b) = Some d -> unmarshalEnv d = None;
}.

(** What a value reads back as, once its envelope was written and decoded. *)
Definition readBackAs (marshal : payload T -> option string) (v v' : T) : Prop :=
  exists e d e', Value e = v /\ marshal (PEnv e) = Some d /\ unmarshalEnv d = Some e' /\ Value e' = v'.

(** With such a codec, an engine is a store that [Fetch] is correct over. *)
Definition remote_store_laws `{CE : CacheEngine (payload T) S} marshal (HC : codec marshal)
    (L : CacheEngineLaws (payload T) S marshal) : @FetchStoreLaws T S remote_store.
Proof.
  refine (@Build_FetchStoreLaws T S remote_store
    (fun s k e => exists d, mayRead s k d /\ unmarshalEnv d = Some e)
    (fun s k => exists d b, mayRead s (k +:+ negativeSuffix) d /\ unmarshalBool d = Some b)
    (readBackAs marshal)
    (fun k v => exists d e, foreign k d /\ unmarshalEnv d = Some e /\ Value e = v)
    (fun k => exists d b, foreign (k +:+ negativeSuffix) d /\ unmarshalBool d = Some b) _ _ _ _ _ _ _ _ _ _);
    cbn [fenv fneg fput fdrop fmark fturn remote_store SetRemote DeleteRemote].
  - intros s k e (d & Hd & E)%GetRemote_value. exists d. split; [|done].
    destruct (eGet s k) as [x err] eqn:Eg. cbn in Hd. subst x. by eapply eGet_may.
  - intros s k. destruct (GetRemote _ _ _).1 as [b|] eqn:Eb; [intros _|done].
    apply GetRemote_value in Eb as (d & Hd & E). exists d, b. split; [|done].
    destruct (eGet s (k +:+ negativeSuffix)) as [x err] eqn:Eg. cbn in Hd. subst x. by eapply eGet_may.
  - intros s k e t k' e' (d & [Hd|[-> Hd]]%eSet_may & E); [left; by exists d|].
    right. split; [done|]. by exists e, d, e'.
  - intros s k e t k' (d & b & [Hd|[_ Hd]]%eSet_may & E); [by exists d, b|].
    apply (env_not_bool _ HC) in Hd. congruence.
  - intros s k k' e (d & Hd%eDelete_may & E). by exists d.
  - intros s k k' (d & b & Hd%eDelete_may & E). by exists d, b.
  - intros s k t k' e (d & [Hd|[_ Hd]]%eSet_may & E); [by exists d|].
    apply (bool_not_env _ HC) in Hd. congruence.
  - intros s k t k' (d & b & [Hd|[Hk _]]%eSet_may & E); [left; by exists d, b|]. right. by apply suffix_inj.
  - intros s x k e (d & [Hd|Hd]%eTurn_may & E); [left; by exists d | right; by exists d, e].
  - intros s x k (d & b & [Hd|Hd]%eTurn_may & E); [left | right]; by exists d, b.
Defined.
End remote.

(** C30: whatever the interleaving of calls, flights, refreshes and turns of the
    environment, over any engine that keeps texts under their keys, every result of
    [FetchRemote] for a key that is not of the form [k:refresh] is an outcome that the
    loading function returned for that very key, its value at once or as it reads back
    from its text; or it is what others put under that key: a text that was there at the
    start or that another process wrote.  Reads may fail, writes may be lost, entries may
    expire, and both kinds of entries share one name space of texts: no value of another
    key is returned, and no absence is invented. *)
Theorem fetchremote_only_loaded {T E S} `{CE : CacheEngine (payload T) S} marshal unmarshalEnv unmarshalBool
    (L : CacheEngineLaws (payload T) S marshal) (c0 : S) es (s : @sys T E S) key r :
  codec unmarshalEnv unmarshalBool marshal -> (forall k d, mayRead c0 k d -> foreign k d) ->
  @run T E S (remote_store unmarshalEnv unmarshalBool) (start c0) es = Some s ->
  plain key -> (key, r) ∈ results s ->
  (exists o, (key, o) ∈ loaded s /\
     (r = resultOf o \/ exists v v', o = OValue v /\ readBackAs unmarshalEnv marshal v v' /\ r = RValue v')) \/
  (exists d e, foreign key d /\ unmarshalEnv d = Some e /\ r = RValue (Value e)) \/
  (exists d b, foreign (key +:+ negativeSuffix) d /\ unmarshalBool d = Some b /\ r = RNotFound).
Proof.
  intros HC H0 Hrun Hp Hin. pose (laws := remote_store_laws unmarshalEnv unmarshalBool marshal HC L).
  destruct (ok_results s (@run_faithful T E S (remote_store unmarshalEnv unmarshalBool) laws c0 es s
    ltac:(intros k e (d & Hd & E0); exists d, e; auto) ltac:(intros k (d & b & Hd & E0); exists d, b; auto) Hrun) key r Hin Hp)
    as [Ha|[(v & (d & e & Hd & E0 & <-) & ->)|[(d & b & Hd & E0) ->]]].
  - by left.
  - right. left. by exists d, e.
  - right. right. by exists d, b.
Qed.

(** ** The Redis engine *)

Inductive rgot := RNil | RFail (n : nat) | RData (d : string).

(** The client of the Redis library. *)
Class RedisClient (C : Type) := {
  rGet : C -> string -> rgot;
  rSet : C -> list (string * string) -> Z -> C * option nat;
  rSetNX : C -> string -> string -> Z -> C * (bool + nat);
  rDel : C -> list string -> C * option nat;
  rKeys : C -> string -> list string + nat;
  rEnviron : Type;
  rTurn : C -> rEnviron -> C;
}.

(** What may be read from a client was there before, was set, or comes from others. *)
Class RedisClientLaws (C : Type) `{RedisClient C} := {
  mayHold : C -> string -> string -> Prop;
  rForeign : string -> string -> Prop;
  rGet_may : forall c k d, rGet c k = RData d -> mayHold c k d;
  rSet_may : forall c kds t k d, mayHold (rSet c kds t).1 k d -> mayHold c k d \/ (k, d) ∈ kds;
  rDel_may : forall c ks k d, mayHold (rDel c ks).1 k d -> mayHold c k d;
  rTurn_may : forall c x k d, mayHold (rTurn c x) k d -> mayHold c k d \/ rForeign k d;
}.

(** A prefix without the characters that are special in patterns. *)
Fixpoint literal (p : string) : bool :=
  match p with
  | EmptyString => true
  | String a p => bool_decide (a ∉ ["*"; "?"; "["; "]"; "\"]%char) && literal p
  end.

(** Documented of [KEYS] and [DEL]: a literal prefix with a star lists the keys
    that exist and have it; a successful removal removes just the keys it names. *)
Class RedisKeysLaws (C : Type) `{RedisClient C} : Prop := {
  rKeys_prefix : forall c p ks k, literal p = true -> rKeys c (p +:+ "*") = inl ks ->
    (k ∈ ks <-> String.prefix p k = true /\ rGet c k <> RNil);
  rDel_gone : forall c ks c', rDel c ks = (c', None) ->
    forall k, rGet c' k = if decide (k ∈ ks) then RNil else rGet c k;
}.

Section redis.
Context {T C : Type} `{RedisClient C} (marshal : payload T -> option string).

Definition RedisGet (c : C) (key : string) : option string * option gerr :=
  match rGet c key with
  | RNil => (None, Some RedisKeyNotFound)
  | RFail n => (None, Some (Client n))
  | RData d => (Some d, None)
  end.
Definition RedisSet (c : C) (key : string) (v : payload T) (ttl : Z) : C * option gerr :=
  match marshal v with
  | None => (c, Some Unencodable)
  | Some d => let '(c, err) := rSet c [(key, d)] ttl in (c, Client <$> err)
  end.

(** The pipeline is executed only when every value has a text. *)
Definition BatchSet (c : C) (values : list (string * payload T)) (ttl : Z) : C * option gerr :=
  match mapM (fun kv => pair kv.1 <$> marshal kv.2) values with
  | None => (c, Some Unencodable)
  | Some kds => let '(c, err) := rSet c kds ttl in (c, Client <$> err)
  end.
Definition SetNX (c : C) (key : string) (v : payload T) (ttl : Z) : C * (bool + gerr) :=
  match marshal v with
  | None => (c, inr Unencodable)
  | Some d => let '(c, r) := rSetNX c key d ttl in (c, match r with inl b => inl b | inr n => inr (Client n) end)
  end.
Definition RedisDelete (c : C) (key : string) : C * option gerr := let '(c, err) := rDel c [key] in (c, Client <$> err).
Definition DeleteBulk (c : C) (keys : list string) : C * option gerr := let '(c, err) := rDel c keys in (c, Client <$> err).
Definition InvalidatePrefix (c : C) (prefix : string) : C * option gerr :=
  match rKeys c (prefix +:+ "*") with
  | inr n => (c, Some (Client n))
  | inl [] => (c, None)
  | inl keys => let '(c, err) := rDel c keys in (c, Client <$> err)
  end.

#[global] Instance redis_engine : CacheEngine (payload T) C := {
  eGet := RedisGet; eSet := RedisSet; eDelete := RedisDelete; eEnviron := rEnviron; eTurn := rTurn;
}.

#[global] Instance redis_engine_laws `{!RedisClientLaws C} : CacheEngineLaws (payload T) C marshal.
Proof.
  refine {| mayRead := mayHold; foreign := rForeign |}; cbn [eGet eSet eDelete eTurn redis_engine]; unfold RedisGet, RedisSet, RedisDelete.
  - intros c k d err. destruct (rGet c k) eqn:E; [done|done|]. intros [= <- _]. by apply rGet_may.
  - intros c k v t k' d. destruct (marshal v) as [d'|]; [|by left].
    pose proof (rSet_may c [(k, d')] t k' d) as Hs. destruct (rSet c [(k, d')] t) as [c' err]. cbn in *.
    intros Hd. destruct (Hs Hd) as [Hh|[= -> ->]%list_elem_of_singleton]; auto.
  - intros c k k' d. pose proof (rDel_may c [k] k' d) as Hs. by destruct (rDel c [k]).
  - intros c x k d. apply rTurn_may.
Defined.

(** When it succeeds for a literal prefix, exactly the keys with that prefix are
    gone. *)
Theorem redis_invalidate_prefix `{!RedisKeysLaws C} c p c' k :
  literal p = true -> InvalidatePrefix c p = (c', None) ->
  rGet c' k = if String.prefix p k then RNil else rGet c k.
Proof.
  intros Hp. unfold InvalidatePrefix. destruct (rKeys c (p +:+ "*")) as [ks|n] eqn:E; [|done].
  pose proof (fun k => rKeys_prefix c p ks k Hp E) as Hk.
  assert (Hin : (if decide (k ∈ ks) then RNil else rGet c k) = if String.prefix p k then RNil else rGet c k).
  { case_decide as Hd.
    - apply Hk in Hd as [-> _]. done.
    - destruct (String.prefix p k) eqn:Ep; [|done]. destruct (rGet c k) eqn:Eg; [done| |]; exfalso; apply Hd, Hk; by rewrite Eg. }
  rewrite <- Hin. destruct ks as [|k0 ks].
  - intros [= <-]. by rewrite decide_False by (by intros ?%elem_of_nil).
  - destruct (rDel c (k0 :: ks)) as [c1 [n|]] eqn:Ed; cbn; intros [= <-]. by apply rDel_gone.
Qed.

(** A missing key is not the clean miss the helper promises: the error of the
    Redis package is another value than the one the helper looks for. *)
Theorem redis_miss_is_error {A} (unmarshal : string -> option A) c key :
  rGet c key = RNil -> GetRemote unmarshal c key = (None, Some RedisKeyNotFound).
Proof. intros E. unfold GetRemote. cbn [eGet redis_engine]. unfold RedisGet. by rewrite E. Qed.
End redis.

(** ** A client in memory *)

(** A map of texts that can be out of reach, and to which another process writes under
    one key; keys are listed for patterns that are a prefix with a star. *)
Record memory := mkMemory { texts : gmap string string; down : bool }.
Inductive happening := Outage | Recovery | Expiry (key : string) | Shared (d : string).
Definition sharedKey : string := "shared".

Definition ifUp {A} (c : memory) (a b : A) : A := if down c then a else b.

#[global] Instance memory_client : RedisClient memory := {
  rGet c k := ifUp c (RFail 0) (match texts c !! k with Some d => RData d | None => RNil end);
  rSet c kds _ := ifUp c (c, Some 0%nat) (mkMemory (foldl (fun m kd => <[kd.1 := kd.2]> m) (texts c) kds) (down c), None);
  rSetNX c k d _ := ifUp c (c, inr 0%nat)
    (match texts c !! k with Some _ => (c, inl false) | None => (mkMemory (<[k := d]> (texts c)) (down c), inl true) end);
  rDel c ks := ifUp c (c, Some 0%nat) (mkMemory (foldl (fun m k => delete k m) (texts c) ks) (down c), None);
  rKeys c p := ifUp c (inr 0%nat)
    (inl (base.filter (fun k => String.prefix (String.substring 0 (String.length p - 1) p) k = true) ((map_to_list (texts c)).*1)));
  rEnviron := happening;
  rTurn c x := match x with
    | Outage => mkMemory (texts c) true
    | Recovery => mkMemory (texts c) false
    | Expiry k => mkMemory (delete k (texts c)) (down c)
    | Shared d => mkMemory (<[sharedKey := d]> (texts c)) (down c)
    end;
}.

Lemma deletes_lookup ks (m : gmap string string) k :
  foldl (fun m k => delete k m) m ks !! k = if decide (k ∈ ks) then None else m !! k.
Proof.
  revert m. induction ks as [|k0 ks IH]; intros m; [done|]. cbn [foldl]. rewrite IH.
  destruct (decide (k ∈ ks)) as [Hi|Hi]; [by rewrite decide_True by (by right)|].
  destruct (decide (k = k0)) as [->|Hne]; [rewrite decide_True by left; apply lookup_delete_eq|].
  rewrite decide_False by (by intros [?|?]%elem_of_cons). by apply lookup_delete_ne.
Qed.

#[global] Instance memory_client_laws : RedisClientLaws memory.
Proof.
  refine {| mayHold c k d := texts c !! k = Some d; rForeign k d := k = sharedKey |}; cbn [rGet rSet rDel rTurn memory_client]; unfold ifUp.
  - intros c k d. destruct (down c); [done|]. destruct (texts c !! k); [by intros [= ->]|done].
  - intros c kds t k d. destruct (down c); cbn; [by left|]. generalize (texts c) as m.
    induction kds as [|[k0 d0] kds IH]; intros m Hk; [by left|]. destruct (IH _ Hk) as [Hm|Hi]; [|right; by right].
    apply lookup_insert_Some in Hm as [[<- <-]|[_ Hm]]; [right; by left|by left].
  - intros c ks k d. destruct (down c); cbn; [done|]. rewrite deletes_lookup. by case_decide.
  - intros c [| |k0|d0] k d; cbn; [by left|by left| |].
    + intros [_ Hk]%lookup_delete_Some. by left.
    + intros [[<- _]|[_ Hk]]%lookup_insert_Some; [by right | by left].
Defined.

Lemma prefix_pattern p : String.substring 0 (String.length (p +:+ "*") - 1) (p +:+ "*") = p.
Proof.
  rewrite append_length. cbn [String.length]. rewrite Nat.add_sub. induction p as [|a p IH]; [done|].
  exact (f_equal (String a) IH).
Qed.

#[global] Instance memory_keys_laws : RedisKeysLaws memory.
Proof.
  split; cbn [rGet rKeys rDel memory_client]; unfold ifUp.
  - intros c p ks k _. destruct (down c); [done|]. intros [= <-]. rewrite prefix_pattern, list_elem_of_filter.
    apply and_iff_compat_l. rewrite list_elem_of_fmap. split.
    + intros ([k' d] & -> & Hk%elem_of_map_to_list). cbn. by rewrite Hk.
    + destruct (texts c !! k) as [d|] eqn:E; [intros _|done]. exists (k, d). split; [done|by apply elem_of_map_to_list].
  - intros c ks c'. destruct (down c) eqn:Ed; [done|]. intros [= <-] k. cbn. rewrite deletes_lookup. by case_decide.
Qed.

(** A codec: a binary numeral in a brace for envelopes, one letter for booleans. *)
Fixpoint numeral (p : positive) : string :=
  match p with xH => EmptyString | xO p => String "0" (numeral p) | xI p => String "1" (numeral p) end.
Fixpoint unnumeral (s : string) : positive :=
  match s with
  | EmptyString => xH
  | String a s => if decide (a = "1"%char) then xI (unnumeral s) else xO (unnumeral s)
  end.
Lemma unnumeral_numeral p : unnumeral (numeral p) = p.
Proof. induction p as [p IH|p IH|]; cbn; [by rewrite IH|by rewrite IH|done]. Qed.

Definition textOf (p : payload nat) : option string :=
  match p with
  | PEnv (mkEnvelope v e d) => Some (String "{" (numeral (encode (v, e, d))))
  | PBool b => Some (if b then "t" else "f")%string
  end.
Definition envOf (s : string) : option (envelope nat) :=
  match s with
  | String "{" s => (fun '(v, e, d) => mkEnvelope v e d) <$> decode (unnumeral s)
  | _ => None
  end.
Definition boolOf (s : string) : option bool :=
  if decide (s = "t"%string) then Some true else if decide (s = "f"%string) then Some false else None.

Lemma text_codec : codec envOf boolOf textOf.
Proof.
  split.
  - by intros [v e d] t [= <-].
  - by intros [] t [= <-].
Qed.

Lemma text_roundtrip e d : textOf (PEnv e) = Some d -> envOf d = Some e.
Proof. destruct e as [v x y]. intros [= <-]. cbn. by rewrite unnumeral_numeral, decode_encode. Qed.

(** A value is fetched and cached, an outage makes the next call load again while
    its write is lost, and after the recovery the first value is served; under another
    key, what another process wrote is served. *)
Definition memory_store : FetchStore nat memory := @remote_store nat memory envOf boolOf (redis_engine textOf).
Definition outageRun : list (@event nat Empty_set memory memory_store) :=
  let t := mkTiming 0 100 30 5 in
  let turn x := @Environment nat Empty_set memory memory_store x in
  alone "a" (OValue 1%nat) t ++ [turn Outage] ++ alone "a" (OValue 2%nat) t ++
  [turn Recovery; turn (Shared "t"); Call "a" false; Call sharedKey false; Do (DoTyped sharedKey)].

Lemma fetchremote_only_loaded_witness :
  exists s, @run nat Empty_set memory memory_store (start (mkMemory {[ sharedKey := "{1"%string ]} false)) outageRun = Some s /\
    results s = [("a", RValue 1%nat); ("a", RValue 2%nat); ("a", RValue 1%nat)]%string /\
    forall r, ("a"%string, r) ∈ results s -> exists o, ("a"%string, o) ∈ loaded s /\ r = resultOf o.
Proof.
  assert (Hex : exists s, @run nat Empty_set memory memory_store (start (mkMemory {[ sharedKey := "{1"%string ]} false)) outageRun = Some s /\
    results s = [("a", RValue 1%nat); ("a", RValue 2%nat); ("a", RValue 1%nat)]%string)
    by (eexists; split; vm_compute; reflexivity).
  destruct Hex as (s & Hrun & Hs). exists s. split; [exact Hrun|]. split; [exact Hs|]. intros r Hr.
  destruct (@fetchremote_only_loaded nat Empty_set memory (redis_engine textOf) textOf envOf boolOf (redis_engine_laws textOf)
    (mkMemory {[ sharedKey := "{1"%string ]} false) outageRun s "a"%string r text_codec)
    as [(o & Ho & [Hres|(v & v' & -> & (e & d & e' & <- & Hd & He & <-) & Hres)])|[(d & e & Hf & _)|(d & b & Hf & _)]].
  - intros k d. cbn. intros Hk. apply lookup_singleton_Some in Hk as [Hk _]. exact (eq_sym Hk).
  - exact Hrun.
  - intros k Hk. apply (f_equal String.length) in Hk. rewrite append_length in Hk. cbn in Hk. lia.
  - exact Hr.
  - exists o. split; [exact Ho | exact Hres].
  - exists (OValue (Value e)). split; [exact Ho|]. apply text_roundtrip in Hd. rewrite Hd in He. injection He as <-. exact Hres.
  - discriminate Hf.
  - discriminate Hf.
Defined.
