(* ===== verification/Trace.v ===== *)
(** * Correlation identifiers and the access log ([src/pkg/cid],
      [src/pkg/common/http/middlewares/logger.go], [recovery.go], [cors.go],
      [src/pkg/mq/kafka/utils.go])

    Module [Cid]: the identifier a context carries, and how it crosses an HTTP
    call, a gRPC call and a Kafka message.  Module [Access]: the middleware that
    logs requests, with the redaction of query parameters, and the ones for
    panics and cross-origin requests.  The metadata of gRPC, the parsing of
    queries and the lower case of strings are arguments; so is the fresh
    identifier that each hop may draw. *)

From stdpp Require Import base list option gmap strings.
From Stdlib Require Import ZArith Lia.
From S2P Require Import Prelude Web Http.

#[local] Open Scope Z_scope.

Module Cid.

Definition Header : string := "X-Correlation-ID".

(** The metadata of a gRPC call: the values of a key, and one more value for it. *)
Class Metadata (M : Type) := {
  mempty : M;
  mget : M -> string -> list string;
  mappend : M -> string -> string -> M;
}.
Class MetadataLaws (M : Type) `{Metadata M} : Prop := {
  mget_empty : forall k, mget mempty k = [];
  mget_append : forall m k v, mget (mappend m k v) k = mget m k ++ [v];
}.

Section cid.
Context {M : Type} `{Metadata M}.

(** What the package keeps in a context: the identifier, and the metadata of the
    outgoing and of the incoming call. *)
Record context := mkContext { cidValue : option string; outgoing : option M; incoming : option M }.
Definition Background : context := mkContext None None None.

Definition WithContext (ctx : context) (id : string) : context := mkContext (Some id) (outgoing ctx) (incoming ctx).
Definition FromContext (ctx : context) : string := default EmptyString (cidValue ctx).
Definition EnsureContext (fresh : string) (ctx : context) : context :=
  if decide (FromContext ctx <> EmptyString) then ctx else WithContext ctx fresh.

(** The header of a request as [Header.Get] reads it: the empty string when unset. *)
Definition RoundTrip (ctx : context) (header : string) : string :=
  if decide (FromContext ctx <> EmptyString /\ header = EmptyString) then FromContext ctx else header.

Definition withOutgoingCID (ctx : context) : context :=
  if decide (FromContext ctx = EmptyString) then ctx
  else if match outgoing ctx with Some md => negb (bool_decide (mget md Header = [])) | None => false end then ctx
  else mkContext (cidValue ctx) (Some (mappend (default mempty (outgoing ctx)) Header (FromContext ctx))) (incoming ctx).

Definition incomingCID (ctx : context) : string :=
  match incoming ctx with
  | None => EmptyString
  | Some md => match mget md Header with v :: _ => v | [] => EmptyString end
  end.
Definition withServerCID (fresh : string) (ctx : context) : context :=
  let id := incomingCID ctx in WithContext ctx (if decide (id = EmptyString) then fresh else id).

(** The start of [RequestLogger]: the identifier of a request with this header. *)
Definition requestID (fresh header : string) : string := if decide (header = EmptyString) then fresh else header.

(** Headers of a Kafka message. *)
Definition buildHeaders (ctx : context) : list (string * string) :=
  if decide (FromContext ctx = EmptyString) then [] else [(Header, FromContext ctx)].
Fixpoint headerContext (headers : list (string * string)) : context :=
  match headers with
  | [] => Background
  | (k, v) :: headers => if decide (k = Header) then WithContext Background v else headerContext headers
  end.
Definition buildContext (fresh : string) (headers : list (string * string)) : context :=
  EnsureContext fresh (headerContext headers).

(** ** Hops *)

(** A hop from one service to the next: the context the callee works with, when
    the caller made the call with [ctx] and set no header of its own. *)
Inductive transport := OverHTTP | OverGRPC | OverKafka (others : list (string * string)).

Definition hop (ctx : context) (tf : transport * string) : context :=
  let '(t, fresh) := tf in
  match t with
  | OverHTTP => WithContext Background (requestID fresh (RoundTrip ctx EmptyString))
  | OverGRPC => withServerCID fresh (mkContext None None (outgoing (withOutgoingCID (mkContext (cidValue ctx) None None))))
  | OverKafka others => buildContext fresh (buildHeaders ctx ++ others)
  end.

Context `{!MetadataLaws M}.

Lemma headerContext_others others :
  Forall (fun h => h.1 <> Header) others -> headerContext others = Background.
Proof. induction 1 as [|[k v] others Hne _ IH]; [done|]. cbn in *. by rewrite decide_False. Qed.

(** One hop keeps the identifier, or uses the fresh one when there was none. *)
Lemma hop_id ctx t fresh :
  match t with OverKafka others => Forall (fun h => h.1 <> Header) others | _ => True end ->
  FromContext (hop ctx (t, fresh)) = if decide (FromContext ctx = EmptyString) then fresh else FromContext ctx.
Proof.
  intros Ht. destruct t as [| |others]; cbn [hop].
  - unfold requestID, RoundTrip. cbn. destruct (decide (FromContext ctx = EmptyString)) as [E|E].
    + rewrite (decide_False (P := _ /\ _)) by tauto. by rewrite decide_True.
    + rewrite (decide_True (P := _ /\ _)) by done. by rewrite decide_False.
  - unfold withServerCID, incomingCID, withOutgoingCID. change (FromContext (mkContext (cidValue ctx) None None)) with (FromContext ctx).
    destruct (decide (FromContext ctx = EmptyString)) as [E|E]; cbn; [done|].
    rewrite mget_append, mget_empty. cbn. by rewrite decide_False.
  - unfold buildHeaders, buildContext, EnsureContext. destruct (decide (FromContext ctx = EmptyString)) as [E|E]; cbn.
    + rewrite headerContext_others by done. by rewrite decide_False by (intros Hn; by apply Hn).
    + by rewrite decide_True.
Qed.

(** Over any sequence of HTTP calls, gRPC calls and Kafka messages the last
    service works under the identifier of the first: the one its context
    carried, or else the one drawn at the first hop.  Other headers of messages do
    not matter. *)
Theorem cid_end_to_end ctx hops :
  Forall (fun tf => match tf.1 with OverKafka others => Forall (fun h => h.1 <> Header) others | _ => True end /\ tf.2 <> EmptyString) hops ->
  FromContext (foldl hop ctx hops) =
    if decide (FromContext ctx = EmptyString) then match hops with tf :: _ => tf.2 | [] => EmptyString end else FromContext ctx.
Proof.
  intros Hh.
  assert (Hkeep : forall hops c, Forall (fun tf => match tf.1 with OverKafka others => Forall (fun h => h.1 <> Header) others | _ => True end
      /\ tf.2 <> EmptyString) hops -> FromContext c <> EmptyString -> FromContext (foldl hop c hops) = FromContext c).
  { clear Hh hops. intros hops. induction hops as [|[t fresh] hops IH]; intros c Hh Hc; [done|]. apply Forall_cons in Hh as [[Ht Hf] Hh].
    pose proof (hop_id c t fresh Ht) as E. rewrite decide_False in E by done.
    cbn [foldl]. rewrite IH; [exact E|done|by rewrite E]. }
  destruct (decide (FromContext ctx = EmptyString)) as [E|E]; [|by apply Hkeep].
  destruct hops as [|[t fresh] hops]; [done|]. apply Forall_cons in Hh as [[Ht Hf] Hh].
  pose proof (hop_id ctx t fresh Ht) as E1. rewrite decide_True in E1 by done.
  cbn [foldl snd]. rewrite Hkeep; [exact E1|done|by rewrite E1].
Qed.

(** A header that the caller set itself is kept, in all three. *)
Theorem cid_caller_header_wins ctx md h v :
  h <> EmptyString -> mget md Header = v :: nil ->
  RoundTrip ctx h = h /\ withOutgoingCID (mkContext (cidValue ctx) (Some md) (incoming ctx)) = mkContext (cidValue ctx) (Some md) (incoming ctx).
Proof.
  intros Hh Hm. split; [unfold RoundTrip; by rewrite decide_False by tauto|].
  unfold withOutgoingCID. case_decide; [done|]. cbn. by rewrite Hm.
Qed.
End cid.
Arguments context : clear implicits.

(** Metadata as a map. *)
#[global] Instance map_metadata : Metadata (gmap string (list string)) := {
  mempty := ∅;
  mget m k := default [] (m !! k);
  mappend m k v := <[k := default [] (m !! k) ++ [v]]> m;
}.
#[global] Instance map_metadata_laws : MetadataLaws (gmap string (list string)).
Proof. split; cbn; [intros k; by rewrite lookup_empty|intros m k v; by rewrite lookup_insert_eq]. Qed.

Lemma cid_end_to_end_witness :
  FromContext (foldl (hop (M := gmap string (list string))) Background
    [(OverHTTP, "f1"); (OverKafka [("trace", "x")], "f2"); (OverGRPC, "f3")]%string) = "f1"%string.
Proof.
  apply (cid_end_to_end (M := gmap string (list string)) Background
    [(OverHTTP, "f1"); (OverKafka [("trace", "x")], "f2"); (OverGRPC, "f3")]%string).
  repeat constructor; discriminate.
Defined.
End Cid.

Module Access.
Import Cid.

Definition redactedValue : string := "REDACTED".

Definition sensitiveMarkers : list string := ["token"; "password"; "secret"; "credential"; "auth"]%string.
Definition sensitiveKeys : gset string :=
  list_to_set ["key"; "api_key"; "apikey"; "code"; "sig"; "signature"; "otp"]%string.

(** [strings.Contains]. *)
Fixpoint Contains (s sub : string) : bool :=
  String.prefix sub s || match s with EmptyString => false | String _ s => Contains s sub end.

Section redaction.
Context (ToLower : string -> string) (ParseQuery : string -> option (gmap string (list string))).

Definition isSensitiveParam (key : string) : bool :=
  let key := ToLower key in
  bool_decide (key ∈ sensitiveKeys) || existsb (Contains key) sensitiveMarkers.

(** What of a query is logged: a text as it is, or the encoding of parameters. *)
Inductive logged := LText (s : string) | LEncoded (values : gmap string (list string)).

(** The loop over the parameters. *)
Definition redactValues (values : gmap string (list string)) : gmap string (list string) :=
  map_imap (fun k vs => Some (if isSensitiveParam k then [redactedValue] else vs)) values.

Definition redactQuery (rawQuery : string) : logged :=
  match ParseQuery rawQuery with
  | None => LText redactedValue
  | Some values =>
      if existsb (fun kv => isSensitiveParam kv.1) (map_to_list values) then LEncoded (redactValues values)
      else LText rawQuery
  end.

(** What is logged of a query is the query itself only when it parses and none
    of its parameters is sensitive; a query that does not parse is hidden; else
    it is the parameters, with the sensitive ones hidden and the others
    unchanged. *)
Theorem redact_hides_sensitive rawQuery :
  match redactQuery rawQuery with
  | LText s =>
      (s = rawQuery /\ exists values, ParseQuery rawQuery = Some values /\
        forall k, is_Some (values !! k) -> isSensitiveParam k = false) \/
      (s = redactedValue /\ ParseQuery rawQuery = None)
  | LEncoded shown =>
      exists values, ParseQuery rawQuery = Some values /\
      forall k, shown !! k = if isSensitiveParam k then (fun _ => [redactedValue]) <$> values !! k else values !! k
  end.
Proof.
  unfold redactQuery. destruct (ParseQuery rawQuery) as [values|]; [|by right].
  destruct (existsb _ _) eqn:E.
  - exists values. split; [done|]. intros k. unfold redactValues. rewrite map_lookup_imap.
    destruct (values !! k); cbn; by destruct (isSensitiveParam k).
  - left. split; [done|]. exists values. split; [done|]. intros k [vs Hk].
    destruct (isSensitiveParam k) eqn:Es; [|done]. rewrite <- E. symmetry. apply existsb_exists. exists (k, vs).
    split; [|done]. apply list_elem_of_In. by apply elem_of_map_to_list.
Qed.

(** ** The access log *)

Record request := mkRequest { rheader : string; rmethod : string; rpath : string; rquery : string }.
Inductive level := Info | Warn | Error.
Record entry := mkEntry {
  elevel : level; ecid : string; emethod : string; epath : string; estatus : Z;
  equery : option logged; euser : option string; eerrors : list string;
}.

Definition levelOf (status : Z) : level :=
  if 500 <=? status then Error else if 400 <=? status then Warn else Info.

(** [RequestLogger]: the header of the response and, unless the rest of the chain
    panics ([None]), the line logged.  The rest of the chain gets the identifier and
    leaves a status, the errors attached and the user of the context. *)
Definition RequestLogger (fresh : string) (req : request) (next : string -> option (Z * list string * option string))
    : string * option entry :=
  let id := requestID fresh (rheader req) in
  (id,
   match next id with
   | None => None
   | Some (status, errs, user) =>
       Some (mkEntry (levelOf status) id (rmethod req) (rpath req) status
         (if decide (rquery req = EmptyString) then None else Some (redactQuery (rquery req)))
         match user with Some u => if decide (u = EmptyString) then None else Some u | None => None end
         errs)
   end).

(** The response, the rest of the chain and the log line agree on the identifier,
    which is the one of the request or a fresh one; failures are logged as such;
    the query is logged redacted. *)
Theorem requestlogger_entry fresh req next status errs user :
  next (requestID fresh (rheader req)) = Some (status, errs, user) -> fresh <> EmptyString ->
  exists e, RequestLogger fresh req next = (requestID fresh (rheader req), Some e) /\
    ecid e = requestID fresh (rheader req) /\ ecid e <> EmptyString /\ (rheader req <> EmptyString -> ecid e = rheader req) /\
    (elevel e = Error <-> 500 <= status) /\ (elevel e = Warn <-> 400 <= status < 500) /\
    (equery e = None <-> rquery req = EmptyString) /\ (forall q, equery e = Some q -> q = redactQuery (rquery req)) /\
    (forall u, euser e = Some u <-> user = Some u /\ u <> EmptyString).
Proof.
  intros Hn Hf. unfold RequestLogger. rewrite Hn. eexists. split; [reflexivity|]. cbn.
  split; [done|]. split; [unfold requestID; by case_decide|]. split; [intros Hh; unfold requestID; by rewrite decide_False|].
  split; [|split; [|split; [|split]]].
  - unfold levelOf. destruct (Z.leb_spec 500 status); [tauto|]. destruct (Z.leb_spec 400 status); split; try discriminate; lia.
  - unfold levelOf. destruct (Z.leb_spec 500 status); [split; [discriminate|lia]|].
    destruct (Z.leb_spec 400 status); split; try discriminate; try done; lia.
  - by case_decide.
  - intros q. case_decide; [done|]. by intros [= <-].
  - intros u. destruct user as [w|]; [|split; [done|by intros [[=] _]]]. case_decide as E; split; try done.
    + intros [[= ->] Hu]. done.
    + intros [= ->]. done.
    + intros [[= ->] _]. done.
Qed.
End redaction.

(** ** Panics *)

Inductive panicValue (D : Type) := PanicError (e : error D) | PanicText (s : string).
Arguments PanicError {D}. Arguments PanicText {D}.
Inductive handled (D : Type) := Passed | Answered (r : Z * Body D) (loggedAs : error D).
Arguments Passed {D}. Arguments Answered {D}.

(** [None] when the rest of the chain returns. *)
Definition RecoveryMiddleware {D} (cid : string) (panic : option (panicValue D)) : handled D :=
  match panic with
  | None => Passed
  | Some v =>
      let appErr := match v with PanicError e => e | PanicText s => Plain s end in
      Answered (ErrorResponse cid CodeInternalServer (New CodeInternalServer "Internal Server Error" (Some appErr))) appErr
  end.

(** Every panic is answered alike, with status 500 and nothing of its value, even
    when that is an application error with a message of its own. *)
Theorem recovery_seals_panics {D} cid (v : panicValue D) :
  exists e, RecoveryMiddleware cid (Some v) =
    Answered (500, mkBody CodeInternalServer "Internal Server Error" None None cid) e.
Proof. destruct v; eexists; reflexivity. Qed.

(** ** Cross-origin requests *)

Inductive corsResult := CorsAbort (status : Z) | CorsNext.
Definition CORSMiddleware (method origin : string) : list (string * string) * corsResult :=
  ([("Access-Control-Allow-Origin", origin);
    ("Access-Control-Allow-Credentials", "true");
    ("Access-Control-Allow-Headers", "Content-Type, Access-Control-Allow-Headers, Authorization, X-Requested-With");
    ("Access-Control-Allow-Methods", "GET,POST,PUT,PATCH,DELETE,OPTIONS")]%string,
   if decide (method = "OPTIONS" \/ method = "HEAD")%string then CorsAbort 204 else CorsNext).

(** Every origin is allowed, with credentials. *)
Theorem cors_allows_any_origin method origin :
  ("Access-Control-Allow-Origin"%string, origin) ∈ (CORSMiddleware method origin).1 /\
  ("Access-Control-Allow-Credentials"%string, "true"%string) ∈ (CORSMiddleware method origin).1.
Proof. split; [left|right; left]. Qed.

(** Requests with the method HEAD never reach a handler. *)
Theorem cors_answers_head origin : (CORSMiddleware "HEAD" origin).2 = CorsAbort 204.
Proof. reflexivity. Qed.

(** [BodyLimit]: the limit that applies. *)
Definition DefaultBodyLimit : Z := Z.shiftl 1 20.
Definition BodyLimit (maxBytes : Z) : Z := if maxBytes <=? 0 then DefaultBodyLimit else maxBytes.
End Access.
