(* ===== verification/Kafka.v ===== *)
(** * Kafka clients ([src/pkg/mq/kafka])

    What the wrappers add to the Kafka library: chains of middlewares with the
    recovery of panics, the processing of a claim, the loop that consumes again
    after rebalances and failures, and the channel of errors of the asynchronous
    producer.  The library is a parameter: the messages of a claim, the results of
    [Consume] and the errors of the producer are arguments, in any order. *)

From stdpp Require Import base list option gmap strings.
From Stdlib Require Import ZArith Lia.
From S2P Require Import Prelude Trace.
Import Cid.

#[local] Open Scope nat_scope.

Section consume.
Context {M E P : Type} (describe : P -> E).

(** What a handler does: return no error, an error, or panic. *)
Inductive hres := HOk | HErr (e : E) | HPanic (p : P).
Abbreviation Handler := (context M -> string -> string -> hres).
Abbreviation Middleware := (Handler -> Handler).

(** [Chain]: the loop from the last middleware to the first. *)
Fixpoint chainLoop (i : nat) (mws : list Middleware) (h : Handler) : Handler :=
  match i with
  | O => h
  | S i => chainLoop i mws (match mws !! i with Some mw => mw h | None => h end)
  end.
Definition Chain (h : Handler) (mws : list Middleware) : Handler :=
  match mws with [] => h | _ => chainLoop (length mws) mws h end.

Definition Recovery : Middleware := fun next ctx key value =>
  match next ctx key value with HPanic p => HErr (describe p) | r => r end.

(** ** Claims *)

Record message := mkMessage { headers : list (string * string); mkey : string; mvalue : string }.

(** What a claim has done: the messages marked, the errors reported, and the
    panic that ended it, if any. *)
Record claim := mkClaim { marked : list message; reported : list E; panicked : option P }.

(** [ConsumeClaim]; [fresh] draws the identifier for a message that carries none. *)
Fixpoint ConsumeClaim (fresh : message -> string) (h : Handler) (errHandler : bool) (msgs : list message) : claim :=
  match msgs with
  | [] => mkClaim [] [] None
  | msg :: msgs =>
      let r := h (buildContext (fresh msg) (headers msg)) (mkey msg) (mvalue msg) in
      match r with
      | HPanic p => mkClaim [] [] (Some p)
      | _ =>
          let rest := ConsumeClaim fresh h errHandler msgs in
          mkClaim (msg :: marked rest)
            (match r with HErr e => if errHandler then e :: reported rest else reported rest | _ => reported rest end)
            (panicked rest)
      end
  end.

(** The first middleware of a chain is the outermost. *)
Lemma chainLoop_foldr i mws h : i <= length mws -> chainLoop i mws h = foldr (fun mw h => mw h) h (take i mws).
Proof.
  revert h. induction i as [|i IH]; intros h Hi; [done|]. cbn [chainLoop].
  destruct (mws !! i) as [mw|] eqn:Ei; [|apply lookup_ge_None in Ei; lia].
  rewrite IH by lia. rewrite (take_S_r _ _ _ Ei), foldr_app. done.
Qed.
Lemma Chain_foldr h mws : Chain h mws = foldr (fun mw h => mw h) h mws.
Proof.
  unfold Chain. destruct mws as [|mw mws]; [done|]. rewrite chainLoop_foldr by done. by rewrite take_ge by done.
Qed.

(** The error of a message under a handler. *)
Definition errorOf (fresh : message -> string) (h : Handler) (msg : message) : option E :=
  match h (buildContext (fresh msg) (headers msg)) (mkey msg) (mvalue msg) with HErr e => Some e | _ => None end.

Lemma claim_without_panic fresh h msgs :
  (forall ctx k v p, h ctx k v <> HPanic p) ->
  ConsumeClaim fresh h true msgs = mkClaim msgs (omap (errorOf fresh h) msgs) None.
Proof.
  intros Hh. induction msgs as [|msg msgs IH]; [done|]. cbn [ConsumeClaim omap list_omap]. rewrite IH. unfold errorOf.
  destruct (h (buildContext (fresh msg) (headers msg)) (mkey msg) (mvalue msg)) eqn:Er; [done|done|by apply Hh in Er].
Qed.

(** With [Recovery] as the first middleware, whatever the others and the
    handler do, a claim is consumed to its end: every message is marked, in order,
    and exactly the errors of the messages that failed are reported, those of
    panics included. *)
Theorem kafka_recovery_consumes_all fresh h mws msgs :
  let chained := Chain h (Recovery :: mws) in
  ConsumeClaim fresh chained true msgs = mkClaim msgs (omap (errorOf fresh chained) msgs) None /\
  (forall ctx k v, chained ctx k v =
     match Chain h mws ctx k v with HPanic p => HErr (describe p) | r => r end).
Proof.
  cbv zeta. assert (Hc : forall ctx k v, Chain h (Recovery :: mws) ctx k v =
     match Chain h mws ctx k v with HPanic p => HErr (describe p) | r => r end) by (intros; by rewrite !Chain_foldr).
  split; [|exact Hc]. apply claim_without_panic. intros ctx k v p. rewrite Hc. by destruct (Chain h mws ctx k v).
Qed.

(** Without it a panic ends the claim at its message: those before it are marked. *)
Theorem kafka_panic_ends_claim fresh h before msg after p :
  (forall m, m ∈ before -> forall q, h (buildContext (fresh m) (headers m)) (mkey m) (mvalue m) <> HPanic q) ->
  h (buildContext (fresh msg) (headers msg)) (mkey msg) (mvalue msg) = HPanic p ->
  let c := ConsumeClaim fresh h true (before ++ msg :: after) in marked c = before /\ panicked c = Some p.
Proof.
  intros Hb Hp. cbv zeta. induction before as [|m before IH]; cbn [app ConsumeClaim]; [by rewrite Hp|].
  destruct IH as [E1 E2]; [intros; apply Hb; by right|].
  pose proof (Hb m ltac:(left)) as Hm. destruct (h (buildContext (fresh m) (headers m)) (mkey m) (mvalue m)) eqn:Er; [| |by destruct (Hm p0)];
    cbn; by rewrite E1, E2.
Qed.

(** ** The consumer loop *)

(** One round of the loop of [Start]: the error [Consume] returned, and whether the
    context was done when it was asked afterwards.  The result is what happened:
    the errors reported, the attempt numbers slept for, and whether the goroutine
    has returned. *)
Fixpoint consumeLoop (attempts : nat) (rounds : list (option E * bool)) : list E * list nat * bool :=
  match rounds with
  | [] => ([], [], false)
  | (err, done) :: rounds =>
      let attempts' := match err with Some _ => S attempts | None => 0 end in
      let '(errs, sleeps, returned) := if (done : bool) then ([], [], true) else consumeLoop attempts' rounds in
      match err with
      | Some e => (e :: errs, attempts :: sleeps, returned)
      | None => (errs, sleeps, returned)
      end
  end.

(** The goroutine returns exactly when the context is done after some round. *)
Lemma consumeLoop_returns rounds attempts :
  (consumeLoop attempts rounds).2 = true <-> Exists (fun r => r.2 = true) rounds.
Proof.
  revert attempts. induction rounds as [|[err d] rounds IH]; intros attempts; [rewrite Exists_nil; done|].
  rewrite Exists_cons. cbn [consumeLoop snd]. destruct d.
  - destruct err; cbn; tauto.
  - specialize (IH (match err with Some _ => S attempts | None => 0 end)).
    destruct (consumeLoop _ rounds) as [[errs sleeps] returned]. cbn in IH. destruct err; cbn; rewrite IH; intuition done.
Qed.

(** [Close] of the consumer waits for the goroutine: without a cancelled context it
    goes on after every failure of the closed client, so [Close] does not return. *)
Theorem kafka_close_waits_for_context (rounds : list (option E)) :
  (consumeLoop 0 ((fun err => (err, false)) <$> rounds)).2 = false.
Proof.
  apply not_true_is_false. rewrite consumeLoop_returns, Exists_fmap. induction 1; done.
Qed.

(** Failures in a row are slept for with growing attempt numbers, which start at 0
    again after a success. *)
Theorem kafka_backoff_attempts (errs : list E) n rest :
  (consumeLoop n (((fun e => (Some e, false)) <$> errs) ++ (None, false) :: rest)).1.2 =
  seq n (length errs) ++ (consumeLoop 0 rest).1.2.
Proof.
  revert n. induction errs as [|e errs IH]; intros n; cbn [fmap list_fmap app consumeLoop].
  - by destruct (consumeLoop 0 rest) as [[? ?] ?].
  - specialize (IH (S n)). destruct (consumeLoop (S n) _) as [[es sleeps] returned]. cbn in *. by rewrite IH.
Qed.
End consume.

(** ** The asynchronous producer *)

Section async.
Context {A E : Type}.

Definition errCap : nat := 100.

(** The messages the library accepted, the channel of errors, and as history all
    errors that were offered to it, the number of those dropped and all that the
    user took. *)
Record producer := mkProducer {
  input : list A; errCh : list E; closed : bool; offered : list E; dropped : nat; taken : list E;
}.
Definition NewProducer : producer := mkProducer [] [] false [] 0 [].

Inductive action :=
  | Accept (m : A)         (* [Publish]: the library takes the message *)
  | Cancel (e : E)         (* [Publish]: the context is done *)
  | Succeed                (* [handleReturns] reads a success *)
  | Failed (e : E)           (* [handleReturns] reads an error *)
  | ErrorsClosed           (* [handleReturns] finds the library's channel closed *)
  | Take.                  (* the user reads an error *)

Inductive outcome := Next (p : producer) | SendOnClosed | NotEnabled.

(** The send with a default case: dropped when the channel is full. *)
Definition trySend (p : producer) (e : E) : producer :=
  if decide (length (errCh p) < errCap)
  then mkProducer (input p) (errCh p ++ [e]) (closed p) (offered p ++ [e]) (dropped p) (taken p)
  else mkProducer (input p) (errCh p) (closed p) (offered p ++ [e]) (S (dropped p)) (taken p).

Definition step (p : producer) (a : action) : outcome :=
  match a with
  | Accept m => Next (mkProducer (input p ++ [m]) (errCh p) (closed p) (offered p) (dropped p) (taken p))
  | Cancel e => if closed p then SendOnClosed else Next (trySend p e)
  | Succeed => if closed p then NotEnabled else Next p
  | Failed e => if closed p then NotEnabled else Next (trySend p e)
  | ErrorsClosed => if closed p then NotEnabled else Next (mkProducer (input p) (errCh p) true (offered p) (dropped p) (taken p))
  | Take =>
      match errCh p with
      | [] => NotEnabled
      | e :: es => Next (mkProducer (input p) es (closed p) (offered p) (dropped p) (taken p ++ [e]))
      end
  end.

Fixpoint run (p : producer) (acts : list action) : outcome :=
  match acts with
  | [] => Next p
  | a :: acts => match step p a with Next p' => run p' acts | r => r end
  end.

(** The channel is bounded; what the user gets are errors in the order in which
    they were offered, all of them while none was dropped. *)
Record channel_ok (p : producer) : Prop := {
  ch_bounded : length (errCh p) <= errCap;
  ch_order : sublist (taken p ++ errCh p) (offered p);
  ch_count : length (offered p) = length (taken p) + length (errCh p) + dropped p;
}.

Lemma sublist_full (l k : list E) : sublist l k -> length k = length l -> l = k.
Proof.
  induction 1 as [|x l k Hs IH|x l k Hs IH]; cbn; intros Hl; [done|by rewrite IH by lia|].
  apply sublist_length in Hs. lia.
Qed.

Lemma trySend_ok p e : channel_ok p -> channel_ok (trySend p e).
Proof.
  intros [Hb Ho Hc]. unfold trySend. case_decide; split; cbn [errCh taken offered dropped]; rewrite ?length_app; cbn [length]; try lia.
  - rewrite app_assoc. by apply sublist_app.
  - rewrite <- (app_nil_r (taken p ++ errCh p)). apply sublist_app; [done|apply sublist_nil_l].
Qed.

Lemma producer_step_ok p a p' : channel_ok p -> step p a = Next p' -> channel_ok p'.
Proof.
  intros Hok. destruct a as [m|e| |e| |]; cbn [step].
  - intros [= <-]. destruct Hok. by split.
  - destruct (closed p); [done|]. intros [= <-]. by apply trySend_ok.
  - destruct (closed p); [done|]. by intros [= <-].
  - destruct (closed p); [done|]. intros [= <-]. by apply trySend_ok.
  - destruct (closed p); [done|]. intros [= <-]. destruct Hok. by split.
  - destruct Hok as [Hb Ho Hc]. destruct (errCh p) as [|e es]; [done|]. cbn in Hb, Hc.
    intros [= <-]. split; cbn [errCh taken offered dropped]; [lia|by rewrite <- app_assoc|rewrite length_app; cbn; lia].
Qed.

(** Whatever happens, in any order: the channel holds at most its capacity, the
    user gets errors in the order in which they occurred, and while none was
    dropped none is missing. *)
Theorem kafka_errors_in_order acts p :
  run NewProducer acts = Next p ->
  length (errCh p) <= errCap /\ sublist (taken p ++ errCh p) (offered p) /\
  (dropped p = 0 -> taken p ++ errCh p = offered p).
Proof.
  intros Hr. assert (Hok : channel_ok p).
  { assert (H0 : channel_ok NewProducer) by (split; cbn; [unfold errCap; lia|done|done]).
    revert H0 Hr. generalize NewProducer. induction acts as [|a acts IH]; intros q Hq; [by intros [= <-]|].
    cbn [run]. destruct (step q a) as [q'| |] eqn:Es; [|done|done]. apply IH. by eapply producer_step_ok. }
  destruct Hok as [Hb Ho Hc]. split; [done|]. split; [done|]. intros Hd.
  apply sublist_full; [done|]. rewrite length_app. lia.
Qed.

(** A [Publish] whose context is done after the error channel was closed sends on
    a closed channel, which panics. *)
Theorem kafka_publish_after_close_panics acts p e :
  run NewProducer acts = Next p -> closed p = true -> run NewProducer (acts ++ [Cancel e]) = SendOnClosed.
Proof.
  intros Hr Hc. revert Hr. generalize NewProducer. induction acts as [|a acts IH]; intros q; cbn [run app].
  - intros [= ->]. cbn. by rewrite Hc.
  - destruct (step q a); [apply IH|done|done].
Qed.
End async.
