(* ===== verification/Convert.v ===== *)
(** * Conversions, hashes of keys and the cached clock
      ([src/pkg/utils/converter.go], [time.go], [src/pkg/hash/hash.go],
      [src/pkg/timer/timer.go])

    The conversions between integers and bytes in both orders, durations, the
    hash of a key by its type, and the clock that is read from a cache.  The
    hashes of byte strings, of the Go runtime and of xxhash, are arguments. *)

From stdpp Require Import base list option strings.
From Stdlib Require Import ZArith Lia.
From S2P Require Import Prelude Endian.

#[local] Open Scope Z_scope.

Module Bytes.

(** [binary.LittleEndian]: the bytes in the opposite order; reading from fewer
    bytes panics. *)
Definition le (k : nat) (n : Z) : list byte := rev (be k n).
Definition LittleEndianGet (k : nat) (l : list byte) : option Z :=
  if decide (k <= length l)%nat then Some (unbe (rev (take k l))) else None.

Definition Uint64ToBytes (n : Z) : list byte := le 8 n.
Definition BytesToUint64 (b : list byte) : option Z := LittleEndianGet 8 b.
Definition Uint64ToBytesByBigEndian (n : Z) : list byte := be 8 n.
Definition BytesToUint64ByBigEndian (b : list byte) : option Z := BigEndianGet 8 b.
Definition Int64ToBytes (n : Z) : list byte := le 8 (u64 n).
Definition BytesToInt64 (b : list byte) : option Z := i64 <$> LittleEndianGet 8 b.
Definition Uint32ToBytes (n : Z) : list byte := le 4 n.
Definition BytesToUint32 (b : list byte) : option Z := LittleEndianGet 4 b.
Definition Uint16ToBytes (n : Z) : list byte := le 2 n.
Definition BytesToUint16 (b : list byte) : option Z := LittleEndianGet 2 b.
Definition Uint16ToBytesByBigEndian (n : Z) : list byte := be 2 n.
Definition BytesToUint16ByBigEndian (b : list byte) : option Z := BigEndianGet 2 b.

(** [BytesToUint64Slice] on a little-endian machine: the whole words of the bytes. *)
Fixpoint words (n : nat) (b : list byte) : list Z :=
  match n with O => [] | S n => unbe (rev (take 8 b)) :: words n (drop 8 b) end.
Definition BytesToUint64Slice (b : list byte) : list Z :=
  if decide (length b < 8)%nat then [] else words (length b / 8) b.

Lemma length_be k n : length (be k n) = k.
Proof. pose proof (zlen_be k n). unfold zlen in *. lia. Qed.

Lemma length_Uint64ToBytes n : length (Uint64ToBytes n) = 8%nat.
Proof. unfold Uint64ToBytes, le. by rewrite length_rev, length_be. Qed.

Lemma LittleEndianGet_le k n rest : 0 <= n < 256 ^ Z.of_nat k -> LittleEndianGet k (le k n ++ rest) = Some n.
Proof.
  intros Hn. assert (Hl : length (le k n) = k) by (unfold le; by rewrite length_rev, length_be).
  unfold LittleEndianGet. rewrite decide_True by (rewrite length_app; lia).
  rewrite take_app_length' by done. unfold le. by rewrite rev_involutive, unbe_be, Z.mod_small.
Qed.

(** Every integer in range is read back from its bytes, whatever follows them, in
    both orders and at every width. *)
Theorem converter_roundtrip n rest :
  (0 <= n < 2 ^ 64 -> BytesToUint64 (Uint64ToBytes n ++ rest) = Some n /\
    BytesToUint64ByBigEndian (Uint64ToBytesByBigEndian n ++ rest) = Some n) /\
  (- 2 ^ 63 <= n < 2 ^ 63 -> BytesToInt64 (Int64ToBytes n ++ rest) = Some n) /\
  (0 <= n < 2 ^ 32 -> BytesToUint32 (Uint32ToBytes n ++ rest) = Some n) /\
  (0 <= n < 2 ^ 16 -> BytesToUint16 (Uint16ToBytes n ++ rest) = Some n /\
    BytesToUint16ByBigEndian (Uint16ToBytesByBigEndian n ++ rest) = Some n).
Proof.
  unfold BytesToUint64, BytesToUint64ByBigEndian, BytesToInt64, BytesToUint32, BytesToUint16, BytesToUint16ByBigEndian.
  repeat split; intros.
  - by apply LittleEndianGet_le.
  - by apply (BigEndianGet_be 8).
  - unfold Int64ToBytes. rewrite LittleEndianGet_le by apply u64_range. cbn [fmap option_fmap option_map]. by rewrite i64_u64.
  - by apply LittleEndianGet_le.
  - by apply LittleEndianGet_le.
  - by apply (BigEndianGet_be 2).
Qed.

Lemma words_spec ns rest : Forall (fun n => 0 <= n < 2 ^ 64) ns ->
  words (length ns) (concat (Uint64ToBytes <$> ns) ++ rest) = ns.
Proof.
  induction 1 as [|n ns Hn _ IH]; [done|]. cbn [length words fmap list_fmap concat].
  rewrite <- app_assoc, take_app_length', drop_app_length' by (by rewrite length_Uint64ToBytes). f_equal; [|exact IH].
  unfold Uint64ToBytes, le. rewrite rev_involutive, unbe_be. by apply Z.mod_small.
Qed.

(** The view of written words as a slice is those words; up to seven further bytes
    are ignored. *)
Theorem uint64slice_roundtrip ns rest :
  Forall (fun n => 0 <= n < 2 ^ 64) ns -> (length rest < 8)%nat ->
  BytesToUint64Slice (concat (Uint64ToBytes <$> ns) ++ rest) = ns.
Proof.
  intros Hn Hr. unfold BytesToUint64Slice.
  assert (Hl : length (concat (Uint64ToBytes <$> ns)) = (length ns * 8)%nat).
  { clear. induction ns as [|n ns IH]; [done|]. rewrite fmap_cons. cbn [concat length].
    rewrite length_app, length_Uint64ToBytes, IH. lia. }
  rewrite length_app, Hl. case_decide.
  - destruct ns; [done|]. cbn [length] in *. lia.
  - replace ((length ns * 8 + length rest) / 8)%nat with (length ns); [by apply words_spec|].
    symmetry. rewrite Nat.add_comm, Nat.div_add, Nat.div_small by lia. done.
Qed.

(** ** Durations *)

(** An argument is an integer that [time.Duration] converts to 64 bits. *)
Definition Second : Z := 1000000000.
Definition Millisecond : Z := 1000000.
Definition ToDuration (seconds : Z) : Z := i64 (i64 seconds * Second).
Definition ToDurationMs (milliseconds : Z) : Z := i64 (i64 milliseconds * Millisecond).

(** Exact up to about 292 years, beyond that the product wraps around. *)
Theorem durations_exact n :
  (Z.abs n <= 9223372036 -> ToDuration n = n * Second) /\ (Z.abs n <= 9223372036854 -> ToDurationMs n = n * Millisecond) /\
  ToDuration 9223372037 < 0.
Proof.
  unfold ToDuration, ToDurationMs, Second, Millisecond.
  split; [|split; [|reflexivity]]; intros H; rewrite (i64_small n) by lia; apply i64_small; lia.
Qed.
End Bytes.

Module Hash.

(** The types of keys; any other is hashed by the text [fmt] prints for it. *)
Inductive key :=
  | KUint64 (n : Z) | KString (s : string) | KBytes (s : string) | KByte (n : Z) | KUint (n : Z)
  | KInt (n : Z) | KInt32 (n : Z) | KUint32 (n : Z) | KInt64 (n : Z)
  | KOther (text : string).

Section hash.
Context (memhash memhashString xxhash : string -> Z) (xxhashSeed : Z -> string -> Z).

Definition KeyToHash (k : key) : Z * Z :=
  match k with
  | KUint64 n | KByte n | KUint n | KUint32 n => (n, 0)
  | KInt n | KInt32 n | KInt64 n => (u64 n, 0)
  | KString s | KOther s => (memhashString s, xxhash s)
  | KBytes s => (memhash s, xxhash s)
  end.
Definition Sum64 (k : key) : Z := (KeyToHash k).1.
Definition Hash64WithSeed (k : key) (seed : Z) : Z :=
  match k with
  | KString s | KBytes s => xxhashSeed seed s
  | _ => let '(h1, h2) := KeyToHash k in Z.lxor (Z.lxor h1 h2) seed
  end.

(** The integer in a key, and the range of its type. *)
Definition integer (k : key) : option Z :=
  match k with
  | KUint64 n | KByte n | KUint n | KUint32 n | KInt n | KInt32 n | KInt64 n => Some n
  | _ => None
  end.
Definition typed (k : key) : Prop :=
  match k with
  | KUint64 n | KUint n => 0 <= n < 2 ^ 64
  | KByte n => 0 <= n < 256
  | KUint32 n => 0 <= n < 2 ^ 32
  | KInt n | KInt64 n => - 2 ^ 63 <= n < 2 ^ 63
  | KInt32 n => - 2 ^ 31 <= n < 2 ^ 31
  | KString _ | KBytes _ | KOther _ => True
  end.
Definition sameType (k k' : key) : Prop :=
  match k, k' with
  | KUint64 _, KUint64 _ | KByte _, KByte _ | KUint _, KUint _ | KUint32 _, KUint32 _
  | KInt _, KInt _ | KInt32 _, KInt32 _ | KInt64 _, KInt64 _ => True
  | _, _ => False
  end.

Lemma Sum64_injective k k' : typed k -> typed k' -> sameType k k' -> Sum64 k = Sum64 k' -> k = k'.
Proof.
  assert (Hu : forall a b, - 2 ^ 63 <= a < 2 ^ 63 -> - 2 ^ 63 <= b < 2 ^ 63 -> u64 a = u64 b -> a = b).
  { intros a b Ha Hb E. by rewrite <- (i64_u64 a), E, i64_u64. }
  destruct k, k'; cbn; intros H1 H2 Hs E; try done; try (f_equal; exact E); f_equal; apply Hu; try done; lia.
Qed.

(** Keys of one integer type never collide, with any seed; two seeds never give
    one key the same hash. *)
Theorem hash64_integers k k' seed seed' :
  typed k -> typed k' -> sameType k k' ->
  (Hash64WithSeed k seed = Hash64WithSeed k' seed -> k = k') /\
  (Hash64WithSeed k seed = Hash64WithSeed k seed' -> seed = seed').
Proof.
  intros H1 H2 Hs.
  assert (E : forall k seed, is_Some (integer k) -> Hash64WithSeed k seed = Z.lxor (Sum64 k) seed).
  { intros [] sd Hi; cbn in *; try (by destruct Hi); by rewrite Z.lxor_0_r. }
  assert (Hx : forall a b c, Z.lxor a c = Z.lxor b c -> a = b).
  { intros a b c Hc%(f_equal (fun z => Z.lxor z c)). by rewrite !Z.lxor_assoc, Z.lxor_nilpotent, !Z.lxor_0_r in Hc. }
  assert (is_Some (integer k) /\ is_Some (integer k')) as [I1 I2] by (destruct k, k'; cbn in *; try done; eauto).
  rewrite !E by done. split.
  - intros Hh%Hx. by apply Sum64_injective.
  - rewrite !(Z.lxor_comm (Sum64 k)). apply Hx.
Qed.

(** Keys of different types may collide: a negative integer and a large unsigned one. *)
Theorem hash_types_collide : Sum64 (KInt (-1)) = Sum64 (KUint64 (2 ^ 64 - 1)).
Proof. reflexivity. Qed.
End hash.
End Hash.

Module Timer.

(** The cached clock: the time stored, whether [done] is closed and whether the
    goroutine has returned; [clock] is the time of the system. *)
Record CachedTimer := mkTimer { now : Z; stopping : bool; returned : bool; clock : Z }.
Inductive action := Pass (d : Z) | Tick | Return | Stop.

Definition NewCachedTimer (t : Z) : CachedTimer := mkTimer t false false t.
Definition Now (t : CachedTimer) : Z := now t.

Inductive outcome := Next (t : CachedTimer) | ClosedTwice | NotEnabled.

(** [Stop] closes the channel; waiting for the goroutine is the [Return] that
    follows. *)
Definition step (t : CachedTimer) (a : action) : outcome :=
  match a with
  | Pass d => if d <? 0 then NotEnabled else Next (mkTimer (now t) (stopping t) (returned t) (clock t + d))
  | Tick => if returned t then NotEnabled else Next (mkTimer (clock t) (stopping t) (returned t) (clock t))
  | Return => if stopping t && negb (returned t) then Next (mkTimer (now t) true true (clock t)) else NotEnabled
  | Stop => if stopping t then ClosedTwice else Next (mkTimer (now t) true (returned t) (clock t))
  end.
Fixpoint run (t : CachedTimer) (acts : list action) : outcome :=
  match acts with [] => Next t | a :: acts => match step t a with Next t' => run t' acts | r => r end end.

(** The time passed since the last tick. *)
Fixpoint stale (acc : Z) (acts : list action) : Z :=
  match acts with
  | [] => acc
  | Pass d :: acts => stale (acc + d) acts
  | Tick :: acts => stale 0 acts
  | _ :: acts => stale acc acts
  end.

(** The cached time is never ahead of the clock and behind it by exactly the time
    since the last tick, so by at most one step while the ticks come in time. *)
Theorem timer_lags t0 acts t :
  run (NewCachedTimer t0) acts = Next t -> Now t <= clock t /\ clock t - Now t = stale 0 acts.
Proof.
  assert (Hg : forall acts t1 acc, 0 <= acc -> clock t1 - now t1 = acc -> forall t, run t1 acts = Next t ->
    now t <= clock t /\ clock t - now t = stale acc acts).
  { clear. intros acts. induction acts as [|a acts IH]; intros t1 acc H0 Hacc t; cbn [run].
    - intros [= <-]. cbn. lia.
    - destruct a as [d| | |]; cbn [step stale].
      + destruct (Z.ltb_spec d 0); [done|]. apply IH; cbn; lia.
      + destruct (returned t1); [done|]. apply IH; cbn; lia.
      + destruct (stopping t1 && negb (returned t1)); [|done]. by apply IH.
      + destruct (stopping t1); [done|]. by apply IH. }
  intros Hr. apply (Hg acts (NewCachedTimer t0) 0); [lia|cbn; lia|done].
Qed.

(** Stopping a second time closes the channel again, which panics. *)
Theorem timer_stop_twice_panics t acts t' : run t (Stop :: acts) = Next t' -> run t (Stop :: acts ++ [Stop]) = ClosedTwice.
Proof.
  cbn [run step]. destruct (stopping t) eqn:Es; [done|].
  assert (Hg : forall acts t1, stopping t1 = true -> forall t', run t1 acts = Next t' -> run t1 (acts ++ [Stop]) = ClosedTwice).
  { clear. intros acts. induction acts as [|a acts IH]; intros t1 Hs t'; cbn [run app]; [intros _; cbn; by rewrite Hs|].
    destruct (step t1 a) as [t2| |] eqn:E; [|done|done]. apply IH. destruct a; cbn in E; rewrite ?Hs in E.
    - destruct (d <? 0); [done|]. injection E as <-. done.
    - destruct (returned t1); [done|]. injection E as <-. done.
    - destruct (returned t1); [done|]. injection E as <-. done.
    - done. }
  apply Hg. done.
Qed.
End Timer.
