(* ===== verification/Mapper.v ===== *)
(** * Rows to structs ([src/pkg/database/widecolumn/mapper.go])

    [Bind] sets the fields of a struct from the columns of a row.  Struct types are
    trees of fields; [analyze] walks them, with embedded structs, to a map from
    names to index paths, and [setField] follows a path, initializing nil
    pointers.  The lower case of strings and the conversions that reflection allows
    are arguments.  A struct that embeds a pointer to itself, on which the walk does
    not end, is not a finite tree and not represented. *)

From stdpp Require Import base list option gmap strings.
From Stdlib Require Import ZArith Lia Ascii.
From S2P Require Import Prelude.

#[local] Open Scope nat_scope.

(** What reflection tells about a field; [ftag] is its json tag. *)
Record fieldInfo := mkInfo { fname : string; fexported : bool; fanonymous : bool; ftag : string }.
Inductive gtype := TBasic (k : nat) | TPtr (t : gtype) | TStruct (fs : list (fieldInfo * gtype)).
Inductive gval := VBasic (k : nat) (n : Z) | VPtr (v : option gval) | VStruct (vs : list gval).

Fixpoint zero (t : gtype) : gval :=
  match t with
  | TBasic k => VBasic k 0
  | TPtr _ => VPtr None
  | TStruct fs => VStruct ((fix go fs := match fs with [] => [] | (_, ft) :: fs => zero ft :: go fs end) fs)
  end.

(** The part of a tag before the first comma. *)
Fixpoint tagName (tag : string) : string :=
  match tag with
  | EmptyString => EmptyString
  | String a tag => if decide (a = ","%char) then EmptyString else String a (tagName tag)
  end.

Section mapper.
Context (ToLower : string -> string).

Definition nameOf (info : fieldInfo) : string :=
  if decide (tagName (ftag info) = EmptyString) then ToLower (fname info) else tagName (ftag info).

(** The first field of a name stays. *)
Definition addField (sm : gmap string (list nat)) (name : string) (path : list nat) : gmap string (list nat) :=
  match sm !! name with Some _ => sm | None => <[name := path]> sm end.

Fixpoint analyze (t : gtype) (sm : gmap string (list nat)) (basePath : list nat) : gmap string (list nat) :=
  match t with
  | TStruct fs =>
      (fix loop (i : nat) (fs : list (fieldInfo * gtype)) (sm : gmap string (list nat)) : gmap string (list nat) :=
        match fs with
        | [] => sm
        | (info, ft) :: fs =>
            let currentPath := basePath ++ [i] in
            let sm' :=
              if negb (fexported info) && negb (fanonymous info) then sm
              else if fanonymous info then
                match ft with
                | TStruct _ => analyze ft sm currentPath
                | TPtr u => match u with TStruct _ => analyze u sm currentPath | _ => addField sm (nameOf info) currentPath end
                | _ => addField sm (nameOf info) currentPath
                end
              else addField sm (nameOf info) currentPath in
            loop (S i) fs sm'
        end) 0 fs sm
  | _ => sm
  end.

Definition getStructMap (t : gtype) : gmap string (list nat) := analyze t ∅ [].

(** ** Setting a field *)

Context {X : Type} (convert : X -> gtype -> option gval).

(** The last step of the loop: the value is converted to the type of the field, or
    to what it points to; otherwise nothing happens.  [None] is a nil value. *)
Definition assign (x : option X) (t : gtype) (v : gval) : gval :=
  match x with
  | None => v
  | Some x =>
      match convert x t with
      | Some w => w
      | None => match t with TPtr u => match convert x u with Some w => VPtr (Some w) | None => v end | _ => v end
      end
  end.

(** The loop of [setField]; [settable] is whether the value reached may be set
    (not so for an unexported field).  [None] is a panic: setting a nil pointer
    that may not be set, or an index out of range. *)
Fixpoint setField (path : list nat) (t : gtype) (settable : bool) (v : gval) (x : option X) : option gval :=
  match path with
  | [] => Some v
  | idx :: rest =>
      let field (t : gtype) (v : gval) : option gval :=
        match t, v with
        | TStruct fs, VStruct vs =>
            '(info, ft) ← fs !! idx;
            fv ← vs !! idx;
            w ← match rest with
                | [] => Some (if fexported info then assign x ft fv else fv)
                | _ => setField rest ft (fexported info) fv x
                end;
            Some (VStruct (<[idx := w]> vs))
        | _, _ => None
        end in
      match t, v with
      | TPtr u, VPtr (Some w) => w' ← field u w; Some (VPtr (Some w'))
      | TPtr u, VPtr None => if settable then w' ← field u (zero u); Some (VPtr (Some w')) else None
      | _, _ => field t v
      end
  end.

(** One column; [Bind] goes over the columns in some order. *)
Definition bindColumn (t : gtype) (acc : option gval) (col : string * option X) : option gval :=
  v ← acc;
  match getStructMap t !! ToLower col.1 with
  | Some path => setField path t true v col.2
  | None => Some v
  end.
Definition Bind (row : list (string * option X)) (t : gtype) (target : gval) : option gval :=
  foldl (bindColumn t) (Some target) row.

(** ** The walk *)

(** The fields a walk meets, in order of declaration. *)
Fixpoint leaves (t : gtype) (base : list nat) : list (string * list nat) :=
  match t with
  | TStruct fs =>
      (fix loop (i : nat) (fs : list (fieldInfo * gtype)) : list (string * list nat) :=
        match fs with
        | [] => []
        | (info, ft) :: fs =>
            (if negb (fexported info) && negb (fanonymous info) then []
             else if fanonymous info then
               match ft with
               | TStruct _ => leaves ft (base ++ [i])
               | TPtr u => match u with TStruct _ => leaves u (base ++ [i]) | _ => [(nameOf info, base ++ [i])] end
               | _ => [(nameOf info, base ++ [i])]
               end
             else [(nameOf info, base ++ [i])]) ++ loop (S i) fs
        end) 0 fs
  | _ => []
  end.

Definition addAll (sm : gmap string (list nat)) (l : list (string * list nat)) : gmap string (list nat) :=
  foldl (fun sm np => addField sm np.1 np.2) sm l.

(** Induction on types, with the types behind pointers of fields. *)
Lemma gtype_ind_fields (P : gtype -> Prop) :
  (forall k, P (TBasic k)) -> (forall t, P t -> P (TPtr t)) -> (forall fs, Forall (fun f => P f.2) fs -> P (TStruct fs)) ->
  forall t, P t.
Proof.
  intros Hb Hp Hs. fix IH 1. intros [k|t|fs]; [apply Hb|apply Hp, IH|apply Hs].
  induction fs as [|[info ft] fs IHfs]; constructor; [apply IH|exact IHfs].
Qed.

(** What is used of a field: its own property and that of the type behind it. *)
Lemma gtype_ind_deref (P : gtype -> Prop) :
  (forall t, (forall fs, t <> TStruct fs) -> P t) ->
  (forall fs, Forall (fun f => P f.2 /\ match f.2 with TPtr u => P u | _ => True end) fs -> P (TStruct fs)) ->
  forall t, P t.
Proof.
  intros Ho Hs t. enough (H : P t /\ match t with TPtr u => P u | _ => True end) by apply H.
  induction t as [k|t [IH _]|fs IH] using gtype_ind_fields.
  - split; [by apply Ho|done].
  - split; [by apply Ho|done].
  - split; [by apply Hs|done].
Qed.

(** Walking is adding the fields one by one. *)
Lemma analyze_leaves t : forall sm base, analyze t sm base = addAll sm (leaves t base).
Proof.
  induction t as [t Ht|fs IH] using gtype_ind_deref; intros sm base; [by destruct t as [| |fs]; [| |destruct (Ht fs)]|].
  cbn [analyze leaves]. generalize 0 as i. revert sm. induction IH as [|[info ft] fs [IH1 IH2] _ IHfs]; intros sm i; [done|].
  rewrite IHfs. unfold addAll. rewrite foldl_app. f_equal. cbn [snd] in *. unfold addAll in *.
  destruct (negb (fexported info) && negb (fanonymous info)); [done|]. destruct (fanonymous info); [|done].
  destruct ft as [k|u|fs']; [done| |apply IH1]. destruct u; [done|done|apply IH2].
Qed.

Lemma addAll_lookup l sm n :
  addAll sm l !! n = match sm !! n with Some p => Some p | None => snd <$> head (filter (fun np => np.1 = n) l) end.
Proof.
  revert sm. induction l as [|[m p] l IH]; intros sm; [cbn; by destruct (sm !! n)|].
  unfold addAll in *. cbn [foldl fst snd]. rewrite IH. unfold addField. rewrite filter_cons. cbn [fst].
  destruct (sm !! m) as [q|] eqn:Em.
  - destruct (decide (m = n)) as [->|Hne]; [by rewrite Em|done].
  - destruct (decide (m = n)) as [->|Hne]; [by rewrite lookup_insert_eq, Em|by rewrite lookup_insert_ne].
Qed.

(** A name belongs to the first field that has it, in the order of declaration. *)
Lemma getStructMap_first t n :
  getStructMap t !! n = snd <$> head (filter (fun np => np.1 = n) (leaves t [])).
Proof. unfold getStructMap. rewrite analyze_leaves, addAll_lookup. by rewrite lookup_empty. Qed.

Lemma getStructMap_leaf t n p : getStructMap t !! n = Some p -> (n, p) ∈ leaves t [].
Proof.
  rewrite getStructMap_first. destruct (filter _ _) as [|[m q] l] eqn:E; [done|]. intros [= <-].
  assert (H : (m, q) ∈ filter (fun np => np.1 = n) (leaves t [])) by (rewrite E; left).
  apply list_elem_of_filter in H as [<- H]. done.
Qed.

(** The fields of one entry of a struct. *)
Definition fieldLeaves (base : list nat) (i : nat) (f : fieldInfo * gtype) : list (string * list nat) :=
  let '(info, ft) := f in
  if negb (fexported info) && negb (fanonymous info) then []
  else if fanonymous info then
    match ft with
    | TStruct _ => leaves ft (base ++ [i])
    | TPtr u => match u with TStruct _ => leaves u (base ++ [i]) | _ => [(nameOf info, base ++ [i])] end
    | _ => [(nameOf info, base ++ [i])]
    end
  else [(nameOf info, base ++ [i])].

Lemma leaves_struct fs base a :
  a ∈ leaves (TStruct fs) base <-> exists i f, fs !! i = Some f /\ a ∈ fieldLeaves base i f.
Proof.
  cbn [leaves]. transitivity (exists i f, fs !! i = Some f /\ a ∈ fieldLeaves base (0 + i) f); [|done].
  generalize 0 as k. induction fs as [|[info ft] fs IH]; intros k.
  - split; [by intros ?%elem_of_nil|by intros (i & f & [=] & _)].
  - rewrite elem_of_app, IH. split.
    + intros [Ha|(i & f & Hf & Ha)]; [exists 0, (info, ft); split; [done|by rewrite Nat.add_0_r]|].
      exists (S i), f. split; [done|]. by replace (k + S i) with (S k + i) by lia.
    + intros ([|i] & f & Hf & Ha); cbn in Hf; [injection Hf as <-; left; by rewrite Nat.add_0_r in Ha|].
      right. exists i, f. split; [done|]. by replace (S k + i) with (k + S i) by lia.
Qed.

(** Paths that part at some index. *)
Fixpoint diverge (p q : list nat) : Prop :=
  match p, q with
  | i :: p, j :: q => i <> j \/ (i = j /\ diverge p q)
  | _, _ => False
  end.

Lemma diverge_app b p q : diverge p q -> diverge (b ++ p) (b ++ q).
Proof. intros H. induction b as [|x b IH]; [done|]. cbn. by right. Qed.

(** All paths of a walk extend where it started. *)
Lemma leaves_base t : forall base a, a ∈ leaves t base -> exists p, a.2 = base ++ p /\ p <> [].
Proof.
  induction t as [t Ht|fs IH] using gtype_ind_deref; intros base a.
  { destruct t as [| |fs]; [| |by destruct (Ht fs)]; by intros ?%elem_of_nil. }
  intros (i & [info ft] & Hf & Ha)%leaves_struct.
  pose proof (proj1 (Forall_lookup _ _) IH i _ Hf) as [IH1 IH2]. cbn [snd] in *. unfold fieldLeaves in Ha.
  assert (Hone : a ∈ [(nameOf info, base ++ [i])] -> exists p, a.2 = base ++ p /\ p <> [])
    by (intros ->%list_elem_of_singleton; by exists [i]).
  assert (Hext : forall u, (forall base a, a ∈ leaves u base -> exists p, a.2 = base ++ p /\ p <> []) ->
    a ∈ leaves u (base ++ [i]) -> exists p, a.2 = base ++ p /\ p <> []).
  { intros u Hu (p & Hp & _)%Hu. exists (i :: p). split; [|done]. rewrite Hp. by rewrite <- app_assoc. }
  destruct (negb (fexported info) && negb (fanonymous info)); [by apply elem_of_nil in Ha|].
  destruct (fanonymous info); [|by apply Hone]. destruct ft as [k|u|fs']; [by apply Hone| |by apply (Hext _ IH1)].
  destruct u; [by apply Hone|by apply Hone|by apply (Hext _ IH2)].
Qed.

Lemma fieldLeaves_base base i f a : a ∈ fieldLeaves base i f -> exists p, a.2 = base ++ i :: p.
Proof.
  destruct f as [info ft]. unfold fieldLeaves.
  assert (Hone : a ∈ [(nameOf info, base ++ [i])] -> exists p, a.2 = base ++ i :: p)
    by (intros ->%list_elem_of_singleton; by exists []).
  assert (Hext : forall u, a ∈ leaves u (base ++ [i]) -> exists p, a.2 = base ++ i :: p).
  { intros u (p & Hp & _)%leaves_base. exists p. rewrite Hp. by rewrite <- app_assoc. }
  destruct (negb (fexported info) && negb (fanonymous info)); [by intros ?%elem_of_nil|].
  destruct (fanonymous info); [|done]. destruct ft as [k|u|fs']; [done| |apply Hext]. destruct u; [done|done|apply Hext].
Qed.

(** Two fields of a walk are the same or their paths part. *)
Lemma leaves_diverge t : forall base a b, a ∈ leaves t base -> b ∈ leaves t base -> a = b \/ diverge a.2 b.2.
Proof.
  induction t as [t Ht|fs IH] using gtype_ind_deref; intros base a b.
  { destruct t as [| |fs]; [| |by destruct (Ht fs)]; by intros ?%elem_of_nil. }
  intros (i & f & Hf & Ha)%leaves_struct (j & g & Hg & Hb)%leaves_struct.
  destruct (decide (i = j)) as [<-|Hne].
  - rewrite Hf in Hg. injection Hg as <-. pose proof (proj1 (Forall_lookup _ _) IH i _ Hf) as [IH1 IH2].
    destruct f as [info ft]. cbn [snd] in *. unfold fieldLeaves in *.
    assert (Hone : a ∈ [(nameOf info, base ++ [i])] -> b ∈ [(nameOf info, base ++ [i])] -> a = b \/ diverge a.2 b.2)
      by (intros ->%list_elem_of_singleton ->%list_elem_of_singleton; by left).
    destruct (negb (fexported info) && negb (fanonymous info)); [by apply elem_of_nil in Ha|].
    destruct (fanonymous info); [|by apply Hone]. destruct ft as [k|u|fs']; [by apply Hone| |by apply (IH1 (base ++ [i]))].
    destruct u; [by apply Hone|by apply Hone|by apply (IH2 (base ++ [i]))].
  - right. apply fieldLeaves_base in Ha as [p ->], Hb as [q ->]. apply diverge_app. by left.
Qed.

(** ** Reading along a path *)

(** A nil pointer reads as a pointer to a zero value. *)
Definition deref (t : gtype) (v : gval) : gtype * gval :=
  match t, v with TPtr u, VPtr o => (u, default (zero u) o) | _, _ => (t, v) end.

Fixpoint reach (path : list nat) (t : gtype) (v : gval) : option (fieldInfo * gtype * gval) :=
  match path with
  | [] => None
  | idx :: rest =>
      match deref t v with
      | (TStruct fs, VStruct vs) =>
          '(info, ft) ← fs !! idx;
          fv ← vs !! idx;
          match rest with [] => Some (info, ft, fv) | _ => reach rest ft fv end
      | _ => None
      end
  end.

(** What the last step makes of a field. *)
Definition newValue (x : option X) (f : fieldInfo * gtype * gval) : fieldInfo * gtype * gval :=
  let '(info, ft, fv) := f in (info, ft, if fexported info then assign x ft fv else fv).

Lemma setField_inv idx rest t st v x v' :
  setField (idx :: rest) t st v x = Some v' ->
  exists fs vs info ft fv w, deref t v = (TStruct fs, VStruct vs) /\ fs !! idx = Some (info, ft) /\ vs !! idx = Some fv /\
    match rest with [] => Some (if fexported info then assign x ft fv else fv) | _ => setField rest ft (fexported info) fv x end = Some w /\
    deref t v' = (TStruct fs, VStruct (<[idx := w]> vs)).
Proof.
  assert (Hf : forall t v v', (match t, v with
        | TStruct fs, VStruct vs =>
            '(info, ft) ← fs !! idx; fv ← vs !! idx;
            w ← match rest with [] => Some (if fexported info then assign x ft fv else fv) | _ => setField rest ft (fexported info) fv x end;
            Some (VStruct (<[idx := w]> vs))
        | _, _ => None end) = Some v' ->
      exists fs vs info ft fv w, t = TStruct fs /\ v = VStruct vs /\ fs !! idx = Some (info, ft) /\ vs !! idx = Some fv /\
      match rest with [] => Some (if fexported info then assign x ft fv else fv) | _ => setField rest ft (fexported info) fv x end = Some w /\
      v' = VStruct (<[idx := w]> vs)).
  { clear. intros t v v'. destruct t as [| |fs]; [done|done|]. destruct v as [| |vs]; [done|done|].
    destruct (fs !! idx) as [[info ft]|] eqn:E1; [cbn|done]. destruct (vs !! idx) as [fv|] eqn:E2; [cbn|done].
    destruct (match rest with [] => _ | _ => _ end) as [w|] eqn:E3; [|done]. intros [= <-].
    by exists fs, vs, info, ft, fv, w. }
  cbn [setField]. destruct t as [k|u|fs].
  - done.
  - destruct v as [k n|[w|]|vs]; [done| | |done].
    + intros Hs. apply bind_Some in Hs as (w' & Hs & [= <-]). apply Hf in Hs as (fs & vs & info & ft & fv & w2 & -> & -> & H1 & H2 & H3 & ->).
      by exists fs, vs, info, ft, fv, w2.
    + destruct st; [|done]. intros Hs. apply bind_Some in Hs as (w' & Hs & [= <-]).
      apply Hf in Hs as (fs & vs & info & ft & fv & w2 & -> & Hz & H1 & H2 & H3 & ->).
      exists fs, vs, info, ft, fv, w2. cbn [deref default]. by rewrite Hz.
  - intros Hs. apply (Hf (TStruct fs) v v') in Hs as (fs' & vs & info & ft & fv & w2 & [= <-] & -> & H1 & H2 & H3 & ->).
    by exists fs, vs, info, ft, fv, w2.
Qed.

(** Setting a field changes that field, and no field whose path parts from its. *)
Lemma setField_same p : forall t st v x v', p <> [] -> setField p t st v x = Some v' -> reach p t v' = newValue x <$> reach p t v.
Proof.
  induction p as [|idx rest IH]; intros t st v x v' Hp; [done|]. intros (fs & vs & info & ft & fv & w & D & H1 & H2 & H3 & D')%setField_inv.
  cbn [reach]. rewrite D, D', H1, H2. cbn. rewrite list_lookup_insert_eq by (by eapply lookup_lt_Some). cbn.
  destruct rest as [|j rest]; [by injection H3 as <-|]. by eapply IH.
Qed.

Lemma setField_other p : forall q t st v x v', diverge p q -> setField p t st v x = Some v' -> reach q t v' = reach q t v.
Proof.
  induction p as [|idx rest IH]; intros q t st v x v' Hd; [done|]. destruct q as [|j q]; [by destruct rest|].
  intros (fs & vs & info & ft & fv & w & D & H1 & H2 & H3 & D')%setField_inv. cbn [reach]. rewrite D, D'.
  destruct Hd as [Hne|[<- Hd]].
  - by rewrite list_lookup_insert_ne by done.
  - rewrite H1, H2. cbn. rewrite list_lookup_insert_eq by (by eapply lookup_lt_Some). cbn.
    destruct rest as [|k rest]; [done|]. destruct q as [|l q]; [done|]. by eapply IH.
Qed.

(** The values of the columns of a name, in the order of the row. *)
Definition columnsOf (row : list (string * option X)) (n : string) : list (option X) :=
  snd <$> filter (fun c => ToLower c.1 = n) row.

(** After [Bind] every field the map names holds the values of its columns, the
    last one that converts, converted; all other fields are as before.  Which field
    a name stands for is decided by the first declaration, and columns do not
    disturb each other's fields. *)
Theorem bind_sets_fields row t v v' n p :
  getStructMap t !! n = Some p -> Bind row t v = Some v' ->
  reach p t v' = foldl (fun f x => newValue x <$> f) (reach p t v) (columnsOf row n).
Proof.
  intros Hn. pose proof (getStructMap_leaf _ _ _ Hn) as Hl. unfold Bind. revert v'.
  induction row as [|[c x] row IH] using rev_ind; intros v'; [by intros [= <-]|].
  rewrite foldl_app. cbn [foldl bindColumn fst snd]. intros Hb. apply bind_Some in Hb as (v1 & Hb & Hs). specialize (IH _ Hb).
  cbn [fst snd] in Hs.
  unfold columnsOf in *. rewrite filter_app, fmap_app, foldl_app, <- IH, filter_cons. cbn [fst]. change (filter _ []) with (@nil (string * option X)).
  destruct (decide (ToLower c = n)) as [E|E].
  - rewrite E, Hn in Hs. cbn. eapply setField_same; [|exact Hs]. apply leaves_base in Hl as (q & Eq & Hq). cbn in Eq. by subst q.
  - cbn. destruct (getStructMap t !! ToLower c) as [q|] eqn:Eq; [|by injection Hs as <-].
    pose proof (getStructMap_leaf _ _ _ Eq) as Hq.
    destruct (leaves_diverge t [] _ _ Hq Hl) as [[= E' _]|Hd]; [done|]. by eapply setField_other.
Qed.

(** ** No panics *)

Inductive hasType : gtype -> gval -> Prop :=
  | HBasic k n : hasType (TBasic k) (VBasic k n)
  | HNil t : hasType (TPtr t) (VPtr None)
  | HPtr t v : hasType t v -> hasType (TPtr t) (VPtr (Some v))
  | HStruct fs vs : Forall2 (fun f v => hasType f.2 v) fs vs -> hasType (TStruct fs) (VStruct vs).

(** Pointers that are embedded have exported names. *)
Inductive safe : gtype -> Prop :=
  | SafeStruct fs :
      (forall info fs', (info, TStruct fs') ∈ fs -> fanonymous info = true -> safe (TStruct fs')) ->
      (forall info fs', (info, TPtr (TStruct fs')) ∈ fs -> fanonymous info = true -> safe (TStruct fs')) ->
      (forall info fs', (info, TPtr (TStruct fs')) ∈ fs -> fanonymous info = true -> fexported info = true) ->
      safe (TStruct fs).

Lemma zero_typed t : hasType t (zero t).
Proof.
  induction t as [k|t _|fs IH] using gtype_ind_fields; [constructor|constructor|]. cbn [zero]. constructor.
  induction IH as [|[info ft] fs H _ IH]; constructor; done.
Qed.

Lemma setField_ptr i rest fs o x :
  setField (i :: rest) (TPtr (TStruct fs)) true (VPtr o) x =
  (fun w => VPtr (Some w)) <$> setField (i :: rest) (TStruct fs) true (default (zero (TStruct fs)) o) x.
Proof. destruct o; reflexivity. Qed.

(** The step into one field of a struct. *)
Lemma setField_struct i rest fs st vs x info ft fv w :
  fs !! i = Some (info, ft) -> vs !! i = Some fv ->
  match rest with [] => Some (if fexported info then assign x ft fv else fv) | _ => setField rest ft (fexported info) fv x end = Some w ->
  setField (i :: rest) (TStruct fs) st (VStruct vs) x = Some (VStruct (<[i := w]> vs)).
Proof. intros H1 H2 H3. cbn [setField]. rewrite H1, H2. cbn. rewrite H3. done. Qed.

Section total.
Context (convert_typed : forall x t w, convert x t = Some w -> hasType t w).

Lemma assign_typed x t v : hasType t v -> hasType t (assign x t v).
Proof.
  intros Hv. unfold assign. destruct x as [x|]; [|done]. destruct (convert x t) as [w|] eqn:E; [by eapply convert_typed|].
  destruct t as [|u|]; [done| |done]. destruct (convert x u) as [w|] eqn:E'; [|done]. constructor. by eapply convert_typed.
Qed.

Definition settablePath (t : gtype) (p : list nat) : Prop :=
  forall st v x, hasType t v -> exists v', setField p t st v x = Some v' /\ hasType t v'.

Lemma field_typed fs vs i info ft w :
  fs !! i = Some (info, ft) -> hasType ft w -> Forall2 (fun f v => hasType f.2 v) fs vs -> hasType (TStruct fs) (VStruct (<[i := w]> vs)).
Proof.
  intros Hi Hw Hvs. constructor. rewrite <- (list_insert_id fs i (info, ft)) by done. by apply Forall2_insert.
Qed.

Lemma leaves_settable t : forall base a, safe t -> a ∈ leaves t base -> exists p, a.2 = base ++ p /\ p <> [] /\ settablePath t p.
Proof.
  induction t as [t Ht|fs IH] using gtype_ind_deref; intros base a Hsafe.
  { destruct t as [| |fs]; [| |by destruct (Ht fs)]; by intros ?%elem_of_nil. }
  intros (i & [info ft] & Hf & Ha)%leaves_struct. pose proof (proj1 (Forall_lookup _ _) IH i _ Hf) as [IH1 IH2].
  pose proof (list_elem_of_lookup_2 _ _ _ Hf) as Hmem. inversion Hsafe as [fs' Hs1 Hs2 Hs3 Efs]; subst fs'.
  cbn [snd] in *. unfold fieldLeaves in Ha.
  assert (Hset : forall rest, (forall v x, hasType ft v -> exists v',
      match rest with [] => Some (if fexported info then assign x ft v else v) | _ => setField rest ft (fexported info) v x end = Some v' /\ hasType ft v') ->
    settablePath (TStruct fs) (i :: rest)).
  { intros rest Hr st v x Hv. inversion Hv as [| | |fs' vs Hvs]; subst.
    destruct (Forall2_lookup_l _ _ _ i (info, ft) Hvs Hf) as (fv & Hfv & Htv). destruct (Hr fv x Htv) as (w & Hw & Htw).
    eexists. split; [by eapply setField_struct|]. by eapply field_typed. }
  assert (Hone : a ∈ [(nameOf info, base ++ [i])] -> exists p, a.2 = base ++ p /\ p <> [] /\ settablePath (TStruct fs) p).
  { intros ->%list_elem_of_singleton. exists [i]. split; [done|]. split; [done|]. apply Hset. intros v x Hv. eexists.
    split; [done|]. destruct (fexported info); [by apply assign_typed|done]. }
  assert (Hext : forall u, (forall base a, safe u -> a ∈ leaves u base -> exists p, a.2 = base ++ p /\ p <> [] /\ settablePath u p) ->
      safe u -> (ft = u \/ (ft = TPtr u /\ fexported info = true /\ exists fs', u = TStruct fs')) -> a ∈ leaves u (base ++ [i]) ->
      exists p, a.2 = base ++ p /\ p <> [] /\ settablePath (TStruct fs) p).
  { intros u Hu Hsu Hft Hin. destruct (Hu _ _ Hsu Hin) as (p & Hp & Hpn & Hsp). exists (i :: p).
    split; [rewrite Hp; by rewrite <- app_assoc|]. split; [done|]. apply Hset. destruct p as [|j p]; [done|]. intros v x Hv.
    destruct Hft as [->|(-> & He & fs' & ->)]; [by apply Hsp|]. rewrite He.
    assert (exists o, v = VPtr o /\ hasType (TStruct fs') (default (zero (TStruct fs')) o)) as (o & -> & Ho).
    { inversion Hv; subst; [exists None; split; [done|apply zero_typed]|by eexists (Some _)]. }
    rewrite setField_ptr. destruct (Hsp true _ x Ho) as (w & Hw & Htw). rewrite Hw. eexists. split; [done|]. by constructor. }
  destruct (negb (fexported info) && negb (fanonymous info)); [by apply elem_of_nil in Ha|].
  destruct (fanonymous info) eqn:Ean; [|by apply Hone].
  destruct ft as [k|u|fs']; [by apply Hone| |apply (Hext _ IH1); [by eapply Hs1|by left|done]].
  destruct u as [| |fs']; [by apply Hone|by apply Hone|]. apply (Hext _ IH2); [by eapply Hs2| |done]. right.
  split; [done|]. split; [by eapply Hs3|]. by exists fs'.
Qed.

(** A row never makes [Bind] panic, and the struct keeps its type, if the pointers
    that are embedded have exported names. *)
Theorem bind_total row t v : safe t -> hasType t v -> exists v', Bind row t v = Some v' /\ hasType t v'.
Proof.
  intros Hs Hv. unfold Bind. induction row as [|[c x] row IH] using rev_ind; [by exists v|].
  destruct IH as (v1 & E & Hv1). rewrite foldl_app, E. cbn [foldl bindColumn mbind option_bind fst snd].
  destruct (getStructMap t !! ToLower c) as [p|] eqn:Ep; [|by exists v1].
  destruct (leaves_settable t [] (ToLower c, p) Hs (getStructMap_leaf _ _ _ Ep)) as (q & Eq & _ & Hset). cbn in Eq. subst q.
  by apply Hset.
Qed.
End total.
End mapper.

(** ** Examples *)

Definition toBasic (n : Z) (t : gtype) : option gval := match t with TBasic k => Some (VBasic k n) | _ => None end.
Definition field (name tag : string) (t : gtype) : fieldInfo * gtype := (mkInfo name true false tag, t).
Definition base (name : string) (t : gtype) : fieldInfo * gtype := (mkInfo name true true EmptyString, t).

(** An embedded pointer to a struct with one field, and a field of its own. *)
Definition sample : gtype :=
  TStruct [base "Base" (TPtr (TStruct [field "ID" "id" (TBasic 0)])); field "Name" "name,omitempty" (TPtr (TBasic 1))].

Lemma bind_sets_fields_witness :
  exists v', Bind (fun s => s) toBasic [("id", Some 7%Z); ("name", Some 9%Z)]%string sample (zero sample) = Some v' /\
    reach [1] sample v' = Some (mkInfo "Name" true false "name,omitempty", TPtr (TBasic 1), VPtr (Some (VBasic 1 9))).
Proof.
  eexists. split; [vm_compute; reflexivity|].
  etransitivity; [eapply (bind_sets_fields (fun s => s) toBasic [("id", Some 7%Z); ("name", Some 9%Z)]%string sample (zero sample) _ "name"%string)|].
  - vm_compute. reflexivity.
  - vm_compute. reflexivity.
  - vm_compute. reflexivity.
Defined.

(** A tag with a capital letter is never found: columns are looked up in lower
    case. *)
Theorem mapper_tag_case (ToLower : string -> string) col x :
  ToLower col <> "userId"%string ->
  let t := TStruct [field "UserID" "userId" (TBasic 0)] in
  Bind ToLower toBasic [(col, x)] t (zero t) = Some (zero t).
Proof.
  intros Hl. cbv zeta. unfold Bind. cbn [foldl bindColumn mbind option_bind fst snd].
  assert (E : getStructMap ToLower (TStruct [field "UserID" "userId" (TBasic 0)]) = {["userId" := [0]]}%string) by reflexivity.
  by rewrite E, lookup_singleton_ne by (intros E'; by apply Hl).
Qed.

(** An embedded struct that is declared first takes the name from the field of the
    struct itself, which Go would select. *)
Theorem mapper_embedded_shadows :
  let t := TStruct [base "Base" (TStruct [field "ID" "id" (TBasic 0)]); field "ID" "id" (TBasic 1)] in
  Bind (fun s => s) toBasic [("id"%string, Some 7%Z)] t (zero t) = Some (VStruct [VStruct [VBasic 0 7]; VBasic 1 0]).
Proof. vm_compute. reflexivity. Qed.

(** A nil embedded pointer of an unexported type makes [Bind] panic. *)
Theorem mapper_unexported_pointer_panics :
  let t := TStruct [(mkInfo "base" false true EmptyString, TPtr (TStruct [field "ID" "id" (TBasic 0)]))] in
  Bind (fun s => s) toBasic [("id"%string, Some 7%Z)] t (zero t) = None.
Proof. vm_compute. reflexivity. Qed.
