(* ===== verification/Cdc.v ===== *)
(** * Change events ([src/pkg/cdc])

    [ParseDebeziumMessage] tries the standard envelope first and falls back to a
    form in two steps; [ParseMongoDBKey] finds the identifier in a message key.
    The JSON decoders, one for each type decoded into, are arguments. *)

From stdpp Require Import base list option strings.
From Stdlib Require Import ZArith Lia Ascii.
From S2P Require Import Prelude.

#[local] Open Scope Z_scope.

Definition quoteChar : ascii := ascii_of_nat 34.

Section debezium.
Context {T Src : Type}.

Record DebeziumPayload := mkPayload { Before : option T; After : option T; Source : Src; Op : string; TsMs : Z }.
Record rawDebeziumPayload := mkRaw { rBefore : string; rAfter : string; rSource : Src; rOp : string; rTsMs : Z }.

(** The decoders: into the envelope, into the envelope with raw fields, into the raw
    payload, into the entity, into a string. *)
Context (decodeEnvelope : string -> option DebeziumPayload) (decodeRawEnvelope decodeRaw : string -> option rawDebeziumPayload)
  (decodeT : string -> option T) (decodeString : string -> option string).

(** [None] is an error, [Some None] a nil entity. *)
Definition parseRawField (raw : string) : option (option T) :=
  if decide (raw = EmptyString \/ raw = "null"%string) then Some None
  else match raw with
  | String a _ =>
      if decide (a = quoteChar) then
        match decodeString raw with
        | None => None
        | Some jsonStr => match decodeT jsonStr with Some t => Some (Some t) | None => None end
        end
      else match decodeT raw with Some t => Some (Some t) | None => None end
  | EmptyString => None
  end.

Inductive parseError := UnknownFormat | BadField.

(** The second half: the raw payload, from the envelope or flat, and its fields. *)
Definition rawPayload (data : string) : option rawDebeziumPayload :=
  match decodeRawEnvelope data with
  | Some r => if decide (rOp r <> EmptyString) then Some r
              else match decodeRaw data with Some r => if decide (rOp r = EmptyString) then None else Some r | None => None end
  | None => match decodeRaw data with Some r => if decide (rOp r = EmptyString) then None else Some r | None => None end
  end.

Definition slowPath (data : string) : DebeziumPayload + parseError :=
  match rawPayload data with
  | None => inr UnknownFormat
  | Some raw =>
      match parseRawField (rBefore raw) with
      | None => inr BadField
      | Some before =>
          match parseRawField (rAfter raw) with
          | None => inr BadField
          | Some after => inl (mkPayload before after (rSource raw) (rOp raw) (rTsMs raw))
          end
      end
  end.

Definition ParseDebeziumMessage (data : string) : DebeziumPayload + parseError :=
  match decodeEnvelope data with
  | Some p => if decide (Op p <> EmptyString /\ is_Some (After p)) then inl p else slowPath data
  | None => slowPath data
  end.

(** Decoding at once agrees with decoding in two steps. *)
Definition decoders_agree : Prop := forall data p, decodeEnvelope data = Some p ->
  exists r, decodeRawEnvelope data = Some r /\ rOp r = Op p /\ rSource r = Source p /\ rTsMs r = TsMs p /\
    parseRawField (rBefore r) = Some (Before p) /\ parseRawField (rAfter r) = Some (After p).

(** The fast path is only an optimisation: with decoders that agree, the parser is
    the general path. *)
Theorem debezium_fast_path data : decoders_agree -> ParseDebeziumMessage data = slowPath data.
Proof.
  intros Ha. unfold ParseDebeziumMessage. destruct (decodeEnvelope data) as [p|] eqn:E; [|done].
  case_decide as Hd; [|done]. destruct (Ha data p E) as (r & Hr & Ho & Hs & Ht & Hb & Haf).
  unfold slowPath, rawPayload. rewrite Hr, decide_True by (rewrite Ho; apply Hd). rewrite Hb, Haf, Ho, Hs, Ht. by destruct p.
Qed.

(** What is returned always has an operation; the fast path always an entity. *)
Theorem debezium_op data p : ParseDebeziumMessage data = inl p -> Op p <> EmptyString.
Proof.
  assert (Hs : slowPath data = inl p -> Op p <> EmptyString).
  { unfold slowPath. destruct (rawPayload data) as [r|] eqn:Er; [|done].
    assert (rOp r <> EmptyString).
    { unfold rawPayload in Er. destruct (decodeRawEnvelope data) as [r0|]; [case_decide; [by injection Er as ->|]|];
        (destruct (decodeRaw data) as [r1|]; [|done]; case_decide; [done|by injection Er as ->]). }
    destruct (parseRawField (rBefore r)); [|done]. destruct (parseRawField (rAfter r)); [|done]. by intros [= <-]. }
  unfold ParseDebeziumMessage. destruct (decodeEnvelope data) as [q|]; [|done]. case_decide as Hd; [|done].
  intros [= <-]. apply Hd.
Qed.
End debezium.

(** ** Keys *)

Fixpoint trimLeft (s : string) : string :=
  match s with String a s' => if decide (a = quoteChar) then trimLeft s' else s | EmptyString => EmptyString end.
Fixpoint trimRight (s : string) : string :=
  match s with
  | EmptyString => EmptyString
  | String a s =>
      match trimRight s with
      | EmptyString => if decide (a = quoteChar) then EmptyString else String a EmptyString
      | s' => String a s'
      end
  end.
(** [strings.Trim] of quotes. *)
Definition Trim (s : string) : string := trimRight (trimLeft s).

Fixpoint Contains (s sub : string) : bool :=
  String.prefix sub s || match s with EmptyString => false | String _ s => Contains s sub end.

Section key.
Context (decodeOID : string -> option string) (decodeString : string -> option string).

(** The identifier that is not empty. *)
Definition oidOf (s : string) : option string :=
  match decodeOID s with Some o => if decide (o = EmptyString) then None else Some o | None => None end.

Definition ParseMongoDBKey (key : string) : string :=
  let s := Trim key in
  if String.prefix "{" s && Contains s "$oid" then
    match oidOf key with
    | Some o => o
    | None => match decodeString key ≫= oidOf with Some o => o | None => s end
    end
  else s.

Definition noQuote (s : string) : Prop := Forall (fun a => a <> quoteChar) (String.list_ascii_of_string s).

Lemma trimRight_app s t : noQuote s -> s <> EmptyString -> trimRight t = EmptyString -> trimRight (s +:+ t) = s.
Proof.
  induction s as [|a s IH]; [done|]. intros [Ha Hs]%Forall_cons _ Ht. change (String a s +:+ t) with (String a (s +:+ t)).
  cbn [trimRight]. destruct s as [|b s].
  - change (EmptyString +:+ t) with t. rewrite Ht. by rewrite decide_False.
  - by rewrite (IH Hs).
Qed.

(** A plain identifier is found with and without quotes around it. *)
Theorem mongo_key_plain id :
  id <> EmptyString -> noQuote id -> String.prefix "{" id = false ->
  ParseMongoDBKey id = id /\ ParseMongoDBKey (String quoteChar (id +:+ String quoteChar EmptyString)) = id.
Proof.
  intros Hne Hq Hb.
  assert (Happ : forall s, s +:+ EmptyString = s) by (induction s as [|a s IH]; [done|exact (f_equal (String a) IH)]).
  assert (Hl : forall t, trimLeft (id +:+ t) = id +:+ t).
  { intros t. destruct id as [|a id]; [done|]. apply Forall_cons in Hq as [Ha _].
    change (String a id +:+ t) with (String a (id +:+ t)). cbn [trimLeft]. by rewrite decide_False. }
  assert (H1 : Trim id = id).
  { unfold Trim. rewrite <- (Happ id) at 1. rewrite Hl. by apply trimRight_app. }
  assert (H2 : Trim (String quoteChar (id +:+ String quoteChar EmptyString)) = id).
  { unfold Trim. cbn [trimLeft]. rewrite decide_True, Hl by done. by apply trimRight_app. }
  unfold ParseMongoDBKey. by rewrite H1, H2, Hb.
Qed.

(** An object with an identifier gives that identifier. *)
Theorem mongo_key_object key o :
  String.prefix "{" (Trim key) = true -> Contains (Trim key) "$oid" = true -> decodeOID key = Some o -> o <> EmptyString ->
  ParseMongoDBKey key = o.
Proof. intros H1 H2 H3 H4. unfold ParseMongoDBKey, oidOf. rewrite H1, H2, H3. cbn. by rewrite decide_False. Qed.
End key.
