(* ===== verification/Clients.v ===== *)
(** * Client-side helpers ([src/pkg/common/http/http_pool.go],
      [src/pkg/common/cache/ristretto/ristretto.go], [src/pkg/oauth/github.go],
      [src/pkg/database/ent/logger.go])

    Module [Retry]: requests with retries.  Module [Ristretto]: the local cache over
    a cache that knows keys only by their hash; it discharges the interface the
    loading and permission theorems are proved against.  Module [OAuth]: the choice
    of an e-mail address.  Module [QueryLog]: what is logged of a query.  The
    HTTP client, the inner cache, the answers of the service and the driver are
    arguments. *)

From stdpp Require Import base list option gmap strings.
From Stdlib Require Import ZArith Lia.
From S2P Require Import Prelude Fetch Convert.

#[local] Open Scope Z_scope.

Module Retry.
Section retry.
Context {E : Type}.

(** One attempt: the error of the context when it starts, what the client returns,
    and the error of the context if it is done before the wait is over. *)
Record attempt := mkAttempt { doneBefore : option E; reply : Z + E; doneWaiting : option E }.

Definition retryable (status : Z) : bool := (status =? 429) || (500 <=? status).

(** What is returned, a response and an error, either possibly nil, and the number
    of requests sent. *)
Record returned := mkReturned { resp : option Z; err : option E; requests : nat }.

(** The loop of [RequestWithRetry] with [budget] attempts to go. *)
Fixpoint retryLoop (script : nat -> attempt) (budget i : nat) (lastErr : option E) : returned :=
  match budget with
  | O => mkReturned None lastErr i
  | S budget =>
      let a := script i in
      match doneBefore a with
      | Some e => mkReturned None (Some e) i
      | None =>
          let again (lastErr : option E) :=
            match doneWaiting a with
            | Some e => mkReturned None (Some e) (S i)
            | None => retryLoop script budget (S i) lastErr
            end in
          match reply a with
          | inl status => if retryable status then again lastErr else mkReturned (Some status) None (S i)
          | inr e => again (Some e)
          end
      end
  end.
Definition RequestWithRetry (script : nat -> attempt) (maxRetries : nat) : returned := retryLoop script maxRetries 0 None.

(** An attempt after which the loop goes on. *)
Definition goesOn (a : attempt) : Prop :=
  doneBefore a = None /\ doneWaiting a = None /\ match reply a with inl status => retryable status = true | inr _ => True end.

Lemma retryLoop_bounds script budget i lastErr :
  (i <= requests (retryLoop script budget i lastErr) <= i + budget)%nat /\
  (forall status, resp (retryLoop script budget i lastErr) = Some status ->
     retryable status = false /\ err (retryLoop script budget i lastErr) = None /\
     exists k, (i <= k)%nat /\ requests (retryLoop script budget i lastErr) = S k /\ reply (script k) = inl status /\
       forall j, (i <= j < k)%nat -> goesOn (script j)).
Proof.
  revert i lastErr. induction budget as [|budget IH]; intros i lastErr; cbn [retryLoop]; [split; [cbn; lia|done]|].
  destruct (doneBefore (script i)) as [e|] eqn:Eb; [split; [cbn; lia|done]|].
  assert (Hagain : forall l, (match reply (script i) with inl s => retryable s = true | inr _ => True end) ->
    let r := match doneWaiting (script i) with Some e => mkReturned None (Some e) (S i) | None => retryLoop script budget (S i) l end in
    (i <= requests r <= i + S budget)%nat /\ (forall status, resp r = Some status -> retryable status = false /\ err r = None /\
     exists k, (i <= k)%nat /\ requests r = S k /\ reply (script k) = inl status /\ forall j, (i <= j < k)%nat -> goesOn (script j))).
  { intros l Hr. cbv zeta. destruct (doneWaiting (script i)) as [e|] eqn:Ew; [split; [cbn; lia|done]|].
    destruct (IH (S i) l) as [Hn Hs]. split; [lia|]. intros status Hst. destruct (Hs _ Hst) as (H1 & H2 & k & H3 & H4 & H5 & H6).
    split; [done|]. split; [done|]. exists k. split; [lia|]. split; [done|]. split; [done|]. intros j Hj.
    destruct (decide (j = i)) as [->|Hne]; [by repeat split|]. apply H6. lia. }
  destruct (reply (script i)) as [status|e] eqn:Er; [|by apply Hagain].
  destruct (retryable status) eqn:Es; [by apply Hagain|]. split; [cbn; lia|]. intros s' [= <-]. split; [done|]. split; [done|].
  exists i. split; [lia|]. split; [done|]. split; [done|]. intros j Hj. lia.
Qed.

(** At most [maxRetries] requests are sent; a response that is returned is the
    first one that is not to be retried, and no request follows it. *)
Theorem retry_first_success script maxRetries :
  let r := RequestWithRetry script maxRetries in
  (requests r <= maxRetries)%nat /\
  (forall status, resp r = Some status -> retryable status = false /\ err r = None /\
     exists k, requests r = S k /\ reply (script k) = inl status /\ forall j, (j < k)%nat -> goesOn (script j)).
Proof.
  cbv zeta. unfold RequestWithRetry. destruct (retryLoop_bounds script maxRetries 0 None) as [Hn Hs]. split; [lia|].
  intros status Hst. destruct (Hs _ Hst) as (H1 & H2 & k & H3 & H4 & H5 & H6). split; [done|]. split; [done|].
  exists k. split; [done|]. split; [done|]. intros j Hj. apply H6. lia.
Qed.

(** When every answer is a status to be retried, both the response and the error
    that are returned are nil. *)
Theorem retry_exhausted_returns_nothing script maxRetries :
  (forall i, (i < maxRetries)%nat -> doneBefore (script i) = None /\ doneWaiting (script i) = None /\
     exists status, reply (script i) = inl status /\ retryable status = true) ->
  let r := RequestWithRetry script maxRetries in resp r = None /\ err r = None /\ requests r = maxRetries.
Proof.
  intros Hall. cbv zeta. unfold RequestWithRetry.
  assert (Hg : forall budget i, (i + budget = maxRetries)%nat ->
    retryLoop script budget i None = mkReturned None None maxRetries).
  { induction budget as [|budget IH]; intros i Hi; cbn [retryLoop]; [by rewrite <- Hi, Nat.add_0_r|].
    destruct (Hall i ltac:(lia)) as (-> & Hw & status & -> & ->). rewrite Hw. apply IH. lia. }
  rewrite Hg by lia. done.
Qed.
End retry.
End Retry.

Module Ristretto.

(** The inner cache, by 64-bit keys. *)
Class InnerCache (V S : Type) := {
  iget : S -> Z -> option V;
  iset : S -> Z -> V -> S;
  isetTTL : S -> Z -> V -> Z -> S;
  idel : S -> Z -> S;
}.

(** Entries may be refused or evicted at any time. *)
Class InnerCacheLaws (V S : Type) `{InnerCache V S} : Prop := {
  iget_set : forall s h v h', iget (iset s h v) h' = None \/ iget (iset s h v) h' = iget s h' \/ (h' = h /\ iget (iset s h v) h' = Some v);
  iget_setTTL : forall s h v ttl h',
    iget (isetTTL s h v ttl) h' = None \/ iget (isetTTL s h v ttl) h' = iget s h' \/ (h' = h /\ iget (isetTTL s h v ttl) h' = Some v);
  iget_del : forall s h h', iget (idel s h) h' = None \/ iget (idel s h) h' = iget s h';
}.

Section adapter.
Context {V S : Type} `{InnerCache V S} (memhash memhashString xxhash : string -> Z).

Definition hashKey (key : string) : Z := (Hash.KeyToHash memhash memhashString xxhash (Hash.KString key)).1.

Definition Get (s : S) (key : string) : option V := iget s (hashKey key).
Definition Set_ (s : S) (key : string) (v : V) : S := iset s (hashKey key) v.
Definition SetWithTTL (s : S) (key : string) (v : V) (ttl : Z) : S := isetTTL s (hashKey key) v ttl.
Definition Delete (s : S) (key : string) : S := idel s (hashKey key).

Definition ristretto_cache : LocalCache V S := {| cget := Get; cset := Set_; csetTTL := SetWithTTL; cdelete := Delete |}.

(** The adapter keeps the promises of a local cache as long as no two keys have the
    same hash. *)
Theorem ristretto_refines_cache `{!InnerCacheLaws V S} : Inj (=) (=) hashKey -> @LocalCacheLaws V S ristretto_cache.
Proof.
  intros Hinj. split; cbn [cget cset csetTTL cdelete ristretto_cache]; unfold Get, Set_, SetWithTTL, Delete.
  - intros s k v ttl. destruct (iget_setTTL s (hashKey k) v ttl (hashKey k)) as [?|[?|[_ ?]]]; auto.
  - intros s k k' v ttl Hne. destruct (iget_setTTL s (hashKey k) v ttl (hashKey k')) as [?|[?|[E%Hinj _]]]; [auto|auto|done].
  - intros s k v k'. destruct (iget_set s (hashKey k) v (hashKey k')) as [?|[?|[E%Hinj ?]]]; auto.
  - intros s k k'. apply iget_del.
Qed.

(** With a collision it does not: the value of one key is returned for the other,
    since the inner cache is given the hash and never sees the key. *)
Theorem ristretto_collision s a b v :
  hashKey a = hashKey b -> iget (iset s (hashKey a) v) (hashKey a) = Some v -> Get (Set_ s a v) b = Some v.
Proof. intros E Hv. unfold Get, Set_. by rewrite <- E. Qed.
End adapter.

(** A map is such an inner cache. *)
#[global] Instance map_inner (V : Type) : InnerCache V (gmap Z V) := {
  iget s h := s !! h; iset s h v := <[h := v]> s; isetTTL s h v _ := <[h := v]> s; idel s h := delete h s;
}.
#[global] Instance map_inner_laws (V : Type) : InnerCacheLaws V (gmap Z V).
Proof.
  split; cbn.
  - intros s h v h'. right. destruct (decide (h' = h)) as [->|Hne]; [right; by rewrite lookup_insert_eq|left; by rewrite lookup_insert_ne].
  - intros s h v _ h'. right. destruct (decide (h' = h)) as [->|Hne]; [right; by rewrite lookup_insert_eq|left; by rewrite lookup_insert_ne].
  - intros s h h'. destruct (decide (h' = h)) as [->|Hne]; [left; by rewrite lookup_delete_eq|right; by rewrite lookup_delete_ne].
Qed.
End Ristretto.

Module OAuth.

Record githubEmailResp := mkEmail { Email : string; Primary : bool; Verified : bool }.

(** The first address that satisfies a test. *)
Fixpoint firstEmail (test : githubEmailResp -> bool) (emails : list githubEmailResp) : option string :=
  match emails with [] => None | e :: es => if test e then Some (Email e) else firstEmail test es end.

(** [None] as the argument is a failed request. *)
Definition selectGitHubEmail (emails : option (list githubEmailResp)) : string * bool :=
  match emails with
  | None => (EmptyString, false)
  | Some emails =>
      match firstEmail (fun e => Primary e && Verified e) emails with
      | Some a => (a, true)
      | None => match firstEmail Verified emails with Some a => (a, true) | None => (EmptyString, false) end
      end
  end.

Record githubUserResp := mkUser { ID : Z; UEmail : string }.
Inductive exchangeResult := MissingID | Info (id : Z) (email : string) (verified : bool).

(** The part of [ExchangeCode] after the answer of the user request. *)
Definition ExchangeCode (raw : githubUserResp) (emails : option (list githubEmailResp)) : exchangeResult :=
  if ID raw =? 0 then MissingID
  else if decide (UEmail raw = EmptyString) then let '(email, verified) := selectGitHubEmail emails in Info (ID raw) email verified
  else Info (ID raw) (UEmail raw) true.

Lemma firstEmail_spec test emails :
  match firstEmail test emails with
  | Some a => exists e, e ∈ emails /\ test e = true /\ Email e = a
  | None => forall e, e ∈ emails -> test e = false
  end.
Proof.
  induction emails as [|e es IH]; cbn [firstEmail]; [by intros e ?%elem_of_nil|].
  destruct (test e) eqn:Et; [exists e; split; [left|done]|].
  destruct (firstEmail test es) as [a|].
  - destruct IH as (e' & H1 & H2 & H3). exists e'. split; [by right|done].
  - intros e' [->|Hin]%elem_of_cons; [done|by apply IH].
Qed.

(** An address from the list of addresses is reported as verified only if the
    service says so, the primary one if that is verified; and one is found whenever
    any is verified. *)
Theorem oauth_email_verified emails :
  let '(a, v) := selectGitHubEmail (Some emails) in
  (v = true -> exists e, e ∈ emails /\ Verified e = true /\ Email e = a /\
     (Primary e = true \/ forall e', e' ∈ emails -> Primary e' && Verified e' = false)) /\
  (v = false -> a = EmptyString /\ forall e, e ∈ emails -> Verified e = false).
Proof.
  unfold selectGitHubEmail. pose proof (firstEmail_spec (fun e => Primary e && Verified e) emails) as H1.
  destruct (firstEmail _ emails) as [a|].
  - split; [intros _|done]. destruct H1 as (e & Hin & [Hp Hv]%andb_prop & <-). exists e. auto.
  - pose proof (firstEmail_spec Verified emails) as H2. destruct (firstEmail Verified emails) as [a|].
    + split; [intros _|done]. destruct H2 as (e & Hin & Hv & <-). exists e. auto.
    + split; [done|]. intros _. split; done.
Qed.
End OAuth.

Module QueryLog.
Section log.
Context {E A : Type} (isCanceled : E -> bool).

Inductive line := QueryFailed (query : string) (took : Z) (e : E) | SlowQuery (query : string) (took : Z) | Debug (query : string) (args : A) (took : Z).

Definition DefaultSlowThreshold : Z := 200 * Bytes.Millisecond.
Definition WrapLogging (slowThreshold : Z) : Z := if slowThreshold <=? 0 then DefaultSlowThreshold else slowThreshold.

Definition logQuery (slow : Z) (query : string) (args : A) (took : Z) (err : option E) : option line :=
  match err with
  | Some e => if isCanceled e then None else Some (QueryFailed query took e)
  | None => if slow <=? took then Some (SlowQuery query took) else Some (Debug query args took)
  end.

(** [Exec] and [Query] of the driver and of its transactions: the result of the
    inner call, and a line. *)
Definition logged (slowThreshold : Z) (query : string) (args : A) (took : Z) (err : option E) : option E * option line :=
  (err, logQuery (WrapLogging slowThreshold) query args took err).

(** Logging changes no result; the arguments of a query appear only in lines of the
    debug level; failures are logged unless the request was cancelled. *)
Theorem querylog_transparent slowThreshold query args took err :
  let '(err', l) := logged slowThreshold query args took err in
  err' = err /\ (forall q a t, l = Some (Debug q a t) -> err = None /\ took < WrapLogging slowThreshold) /\
  (forall e, err = Some e -> isCanceled e = false -> l = Some (QueryFailed query took e)).
Proof.
  unfold logged, logQuery. split; [done|]. destruct err as [e|].
  - split; [by destruct (isCanceled e)|]. intros e' [= ->] ->. done.
  - split; [|done]. intros q a t. destruct (Z.leb_spec (WrapLogging slowThreshold) took); [done|]. done.
Qed.
End log.
End QueryLog.
